(* ===== verification/_CoqProject ===== *)
-Q . S2P
Prelude.v
Text.v
Utf8.v
Tokio.v
Net.v
Protocol.v
Signal.v
Restart.v
Output.v
Broker.v
Validate.v
Egress.v
Store.v
Volume.v
Archive.v
Events.v
Health.v
Launch.v
Guest.v
Manager.v
Relay.v
Lifecycle.v
Image.v
Layer.v
Create.v
Concurrency.v
Update.v
Exec.v
Calls.v
Agent.v
User.v
Codec.v
GuestAgent.v
Diff.v
DiffStill.v
Commit.v
Ports.v
Smoltcp.v
Inbound.v
NetStack.v
NetGuard.v
Template.v
TemplateParse.v
TemplateLex.v
TemplateText.v
TemplateFuncs.v
TemplateEval.v
Views.v
Ps.v
Shared.v
Grpc.v
Attach.v
Terminal.v
Confine.v
GrpcSafe.v
