(* ===== verification/Prelude.v ===== *)
(** * ward: a verification development

    ward runs sandboxes in micro virtual machines.  Its daemon ([ward-core])
    keeps a table of sandboxes, saves a record of each on disk, drives a
    virtual machine monitor, keeps images and volumes, forwards published
    ports, carries messages between sandboxes of one group, and decides which
    hosts a sandbox may reach.  Inside the machine an agent ([ward-agent]) runs
    the processes; beside it a network stack ([ward-net]) carries the guest's
    packets; [ward-archive] checks the archives that cross the boundary; the
    client ([ward-cli]) shows what the daemon answers.  This library models
    these parts and proves what a client, an operator and a neighbouring
    sandbox rely on.

    ** The program's parts and the files that model them

    Paths are below [ward-core/src/] unless they name another crate.

    - [Prelude], [Text], [Utf8] ([utf8.rs]), [Net], [Tokio]: what the sources
      use of the language, its library and the runtime.  [Prelude] has
      [Result] with its [?] notation, integer ranges, bounded loops and list
      lemmas; [Text] the [str] functions; [Utf8] the decoding of chunks; [Net]
      IP addresses; [Tokio] the channels, as classes with their documented laws
      and a reference instance of each.
    - [Protocol] ([protocol.rs]): the data types, limit updates, restart
      policies, errors.
    - [Signal] ([signal.rs]), [Restart] ([sandbox/restart.rs]), [Launch]
      ([sandbox/launch.rs]), [Health] ([sandbox/health.rs]): small components
      without shared state.
    - [Validate] ([validate.rs]) and [Guest] ([guest_limits.rs],
      [guest_network.rs], [guest_options.rs]): the checks of requests.
    - [Output]: the main process's output buffer and its readers
      ([OutputBuffer], [OutputFeed] of [sandbox/manager.rs]).
    - [Broker] ([comms/broker.rs]): publish/subscribe between sandboxes.
    - [Egress] ([egress/proxy.rs], [egress/blocked.rs]): the egress policy, the
      CONNECT handler, the address filter, the record of refused hosts.
    - [Store] ([sandbox/store.rs]): records, token hashes, the atomic save.
    - [Volume] ([volume/manager.rs]): volumes, their claims and their removal.
    - [Events] ([sandbox/events.rs]): the lifecycle event log.
    - [Manager] ([sandbox/manager.rs]): the state of [SandboxManager] as the
      record [World], and its critical sections, the code that runs under
      the lock on [entries].
    - [Lifecycle] ([sandbox/manager.rs], [sandbox/manager/pause.rs]): stop,
      start, restart, remove, pause, published ports, timers and the end of a
      main process, composed of those sections and the interface [Backend].
    - [Create] ([sandbox/manager.rs]): [create] and [adopt_persisted].
    - [Update] ([sandbox/manager/update.rs]): [update].
    - [Exec], [Calls], [Views] ([sandbox/manager.rs],
      [sandbox/manager/wait_condition.rs]): processes, their streams and input,
      waiting; statistics, copies, snapshots, images; what a client is shown.
    - [Concurrency]: a step relation in which any number of threads interleave
      the sections of creations, renames, removals, starts and stops.
    - [Grpc], [Attach] ([grpc/server.rs], [grpc/attach.rs]): the handlers of
      the server, on the manager, the broker and the volumes; the pumps and the
      input task of an attached client.
    - [Confine], [GrpcSafe]: a small program logic for the manager's operations,
      and what a request can do.
    - [Image], [Layer] ([backend/image.rs], [backend/image/manage.rs]): the
      image store and the unpacking of layers.
    - [Diff], [DiffStill], [Commit] ([backend/diff.rs], [backend/commit.rs],
      [backend/commit_meta.rs]): walks over a tree a guest may be changing.
    - [Archive] ([ward-archive]) and [Relay] ([sandbox/copy.rs]): the
      checker of archives and the relay that holds data back until it passed.
    - [Agent], [Codec] ([backend/agent.rs]), [GuestAgent], [User]
      ([ward-agent]): the frames between daemon and guest, the agent's
      processes, uploads and downloads, the identity a process gets.
    - [Smoltcp], [Inbound], [NetStack], [NetGuard] ([ward-net]): the guest's
      network stack; [Smoltcp] is the interface of the TCP/IP library it uses.
    - [Template], [TemplateParse], [TemplateLex], [TemplateText],
      [TemplateFuncs], [TemplateEval] ([ward-cli/src/template.rs],
      [template_funcs.rs]): the format templates.
    - [Terminal] ([ward-cli/src/attach.rs], [detach_keys.rs], [attach_cmd.rs]):
      the client's side of an attach, with the keys that detach it.
    - [Ports] ([ward-cli/src/ports.rs], [publish_all.rs]) and [Ps]
      ([ps_filter.rs]): the ports a user asks for, the sandboxes [ps] shows.

    A request enters through [Grpc], which checks its token and calls [Create],
    [Lifecycle], [Update], [Exec], [Calls] or [Views]; each validates it with
    [Validate] and [Guest], reads and changes the [World] through [Manager],
    calls the backend, and reports through [Events] and [Broker].  The backend
    is the class [Backend] (with [ExecBackend], [CallBackend] and
    [ViewBackend]); the parts of it that are modelled, the image store, the
    walks, the agent connection and the network stack, are components of
    their own.

    ** What the theorems show

    - Requests ([GrpcSafe], [Attach], [Terminal]): whatever a client asks, the state stays
      as it was or the request carried the token of the sandbox it names and
      touched only that sandbox; what anyone may read shows no token and no
      arguments; output reaches the client's screen as it was written, and
      what is typed the process.
    - Manager as a whole, under every interleaving ([Concurrency]): names
      and ids stay unique, the sandbox limit holds and no permit is lost, a
      sandbox moves only along the lifecycle's edges and one operation at a
      time owns it.
    - Operations, on every branch ([Create], [Lifecycle], [Update],
      [Manager], [Exec], [Calls]): a creation is all or nothing; what a sandbox
      may do was checked; a stop, a start, a removal and an update leave exactly
      the documented state, events included; references resolve uniquely;
      processes are reached through their own sandbox only; waiting ends.
    - Isolation ([Broker], [Egress], [Validate], [Guest], [NetGuard], [User]):
      messages stay in their group; a connection goes only to an allowed name
      and a public address, through the proxy and through the network stack,
      which is bounded and never panics; host mounts, secrets and guest mounts
      stay where they may be; privileges are dropped in order.
    - Files ([Archive], [Layer], [Relay], [Diff], [DiffStill], [Commit],
      [Image], [Volume]): archives, layers and commits touch nothing outside
      their directory, whatever they contain and whatever a guest changes
      meanwhile; the reported differences are exact; images in use are not
      evicted; claimed volumes are not removed; walks are bounded.
    - Data ([Store], [Output], [Events], [Health], [Launch], [Protocol],
      [Restart], [Agent], [GuestAgent], [Inbound]): saves are atomic under
      crashes and round-trip; readers of output and events miss nothing in
      silence; frames form a prefix code; output, input and files cross the
      guest's boundary unchanged; a committed image starts what was committed.
    - Templates ([TemplateText], [TemplateEval]): parsing inverts printing,
      scoping is lexical, rendering fails only with a template's own errors.
    - Options ([Ports], [Ps]): the daemon takes every publish value the client
      takes, but for its address; [-P] publishes each exposed port once; a
      filter means what its values say, and [ps] shows the newest.

    Some theorems show where the code departs from its intent:
    [Lifecycle.stop_never_thaws], [Lifecycle.start_save_failure_is_stuck],
    [Concurrency.create_register_race], [Create.create_remove_gauge],
    [Validate.mount_sensitive_gap], [Egress.wildcard_case_sensitive],
    [Volume.volume_removal_race], [Image.orphan_blocks_installs],
    [Image.tag_like_a_digest], [GuestAgent.empty_write_closes_input],
    [GuestAgent.oversized_line_hides_exit],
    [GuestAgent.invalid_line_ends_output], [Attach.unread_input_ends_task],
    [Attach.queued_close_dropped], [Terminal.held_keys_lost_at_end] and
    [Terminal.typed_before_detach_lost].

    ** How the code is read

    - A [String] is the list of its UTF-8 bytes; in the templates, where the
      code works on characters, it is the list of its code points.  Integers
      are [Z] with their width written out where the code can wrap, saturate or
      fail; lengths and counters that cannot reach their width are [nat].
    - Fallible functions return [result]; operations of the manager are
      functions [World -> result * World], the state monad [St]; handlers are
      the same on the [Server], the monad [Rpc].
    - What the program calls but does not contain is a parameter: the virtual
      machine monitor, the port forwarder and the guest (class [Backend], any
      behaviour, errors included), the operating system under the walks
      (classes [DiffOs], [CommitOs]), the TCP/IP library (class [Wire] and the
      sockets of [Smoltcp]), protobuf (class [Codec]), floating point and the
      tables of Unicode (classes [F64], [Unicode]), DNS and TCP, JSON, SHA-256
      and shell splitting (arguments), tokio's channels (classes).  UUIDs and tokens are arguments.
      The order in which a hash map is walked is a function argument, assumed
      only to list the map.  Where a law is assumed, an instance shows that it
      can hold.
    - A failing save is decided by a queue of faults in the [World]; a failed
      save may or may not have reached the disk.
    - Within one operation the clock has one value.
    - Timers are deadlines in the entry; the operation a timer triggers
      ([fire_timeout], [remove_if_still_ended], [restart_after_delay]) is an
      operation of its own.
    - Of a task that waits on several things at once, the turns it takes are an
      argument: [Inbound], [Attach], [Grpc.forward_events] and the looks of
      [Exec.wait] are about every sequence of turns.

    Loops are structural, over the list the code walks or over the length of
    the port range it scans, or take fuel that a theorem shows to be enough:
    the loops on a channel ([Events.next_waits_only_at_end],
    [Output.try_recv_returns]: every receive moves the cursor); the walks, whose
    fuel is the depth their limit allows, and their reads, bounded in binary by
    the bytes allowed ([Diff.diff_bounded], [Commit.commit_ends]); the readers
    of frames and archives, by the bytes left; the template parser, with four
    units for a token and three for a piece.

    ** What is not modelled

    Of the manager: the loop that runs health checks; the locks that serialise
    updates; metrics other than the gauge of active sandboxes and the broker's
    counters; log lines.  Of the proxy: the accept loop, time-outs and the
    copying of bytes.  Of the server: the [events] handler, of which the
    forwarding is modelled, and the channels between a handler and its task; the
    times and durations of stream events.  Of the image store: pulling from a
    registry, saving and loading archives; the number of layers in a record.
    Of the agent: mounting, cgroups, pseudo terminals, the process table.  The
    monitor itself ([backend/krunvm.rs], [vmshim.rs], [krun_ffi.rs]) is calls
    into a C library.  Of the command line all but the templates, attach, the
    ports and the filters of [ps], which is argument parsing and printing;
    configuration, the daemon's start, the MCP server, the runtime and bundle
    crates and the SDKs, which are glue around the parts above. *)

From stdpp Require Import base list numbers option strings pretty gmap.
From Stdlib Require Import ZArith Lia.

(** ** Results

    Rust's [Result<T, E>], with the [?] operator as monadic bind. *)

Inductive result (A E : Type) : Type :=
| Ok (a : A)
| Err (e : E).
Arguments Ok {A E} a.
Arguments Err {A E} e.

Declare Scope ward_scope.
Delimit Scope ward_scope with ward.
#[global] Open Scope ward_scope.

Definition rbind {A B E : Type} (r : result A E) (k : A → result B E) : result B E :=
  match r with Ok a => k a | Err e => Err e end.

(** [let? x := r in k] is [let x = r?; k], and [r ;? k] is [r?; k]. *)
Notation "'let?' x := r 'in' k" := (rbind r (λ x, k))
  (at level 10, x pattern, r at level 100, k at level 200) : ward_scope.
Notation "r ;? k" := (rbind r (λ _, k))
  (at level 100, k at level 200, right associativity) : ward_scope.

(** [Result::map_err]. *)
Definition map_err {A E F : Type} (f : E → F) (r : result A E) : result A F :=
  match r with Ok a => Ok a | Err e => Err (f e) end.

(** [Option::ok_or]. *)
Definition ok_or {A E : Type} (o : option A) (e : E) : result A E :=
  match o with Some a => Ok a | None => Err e end.

(** [Result::is_ok]. *)
Definition is_ok {A E : Type} (r : result A E) : bool :=
  match r with Ok _ => true | Err _ => false end.

(** [Iterator::try_for_each] over a slice: the first error stops the walk. *)
Fixpoint try_for_each {A E : Type} (f : A → result unit E) (l : list A) : result unit E :=
  match l with
  | [] => Ok tt
  | x :: l => f x ;? try_for_each f l
  end.

(** [iter.map(f).collect::<Result<Vec<_>, _>>()]. *)
Fixpoint try_map {A B E : Type} (f : A → result B E) (l : list A) : result (list B) E :=
  match l with
  | [] => Ok []
  | x :: l => let? y := f x in let? ys := try_map f l in Ok (y :: ys)
  end.

(** [if b { return Err(e); }]. *)
Definition refuse_if {E : Type} (b : bool) (e : E) : result unit E := if b then Err e else Ok tt.

(** ** Lemmas on results *)

Section results.
Context {A B E : Type}.
Implicit Types (r : result A E).

Lemma rbind_Ok r (k : A → result B E) b :
  rbind r k = Ok b ↔ ∃ a, r = Ok a ∧ k a = Ok b.
Proof. destruct r; naive_solver. Qed.

Lemma rbind_Err r (k : A → result B E) e :
  rbind r k = Err e ↔ r = Err e ∨ ∃ a, r = Ok a ∧ k a = Err e.
Proof. destruct r; naive_solver. Qed.

Lemma is_ok_spec r : is_ok r = true ↔ ∃ a, r = Ok a.
Proof. destruct r; naive_solver. Qed.

End results.

Lemma refuse_if_Ok {E : Type} (b : bool) (e : E) u : refuse_if b e = Ok u ↔ b = false.
Proof. destruct b, u; done. Qed.
Lemma map_err_Ok {A E F : Type} (f : E → F) (r : result A E) a : map_err f r = Ok a ↔ r = Ok a.
Proof. destruct r; naive_solver. Qed.

Section result_lists.
Context {A B E : Type}.

Lemma try_for_each_Ok (f : A → result unit E) l :
  try_for_each f l = Ok tt ↔ Forall (λ x, f x = Ok tt) l.
Proof.
  induction l as [|x l IH]; simpl; [done|].
  rewrite Forall_cons, rbind_Ok, <- IH. split; [intros ([] & ? & ?)|]; naive_solver.
Qed.

Lemma try_for_each_Err (f : A → result unit E) l e :
  try_for_each f l = Err e → ∃ x, x ∈ l ∧ f x = Err e.
Proof.
  induction l as [|x l IH]; simpl; [done|].
  intros [?|(? & ? & (y & ? & ?)%IH)]%rbind_Err; [exists x|exists y]; split; set_solver.
Qed.

Lemma try_map_Ok (f : A → result B E) l ys :
  try_map f l = Ok ys ↔ Forall2 (λ x y, f x = Ok y) l ys.
Proof.
  revert ys. induction l as [|x l IH]; intros ys; simpl.
  { split; [intros [= <-]; constructor|by inversion 1]. }
  rewrite rbind_Ok. split.
  - intros (y & ? & (ys' & ?%IH & [= <-])%rbind_Ok). by constructor.
  - intros Hys. inversion Hys as [|? y ? ys' ? Hys']; subst. exists y. split; [done|].
    apply IH in Hys'. apply rbind_Ok. eauto.
Qed.
End result_lists.

(** ** Machine integers

    Integers are [Z] kept inside the range of their Rust type; the ranges and
    the saturating and clamping operations the sources use are written out. *)

Definition in_u16 (z : Z) : Prop := (0 ≤ z < 2 ^ 16)%Z.
Definition in_u32 (z : Z) : Prop := (0 ≤ z < 2 ^ 32)%Z.
Definition in_u64 (z : Z) : Prop := (0 ≤ z < 2 ^ 64)%Z.
Definition in_i32 (z : Z) : Prop := (- 2 ^ 31 ≤ z < 2 ^ 31)%Z.
Definition in_i64 (z : Z) : Prop := (- 2 ^ 63 ≤ z < 2 ^ 63)%Z.

(** [u16::try_from], [u32::try_from], [u64::try_from], [i64::try_from]. *)
Definition try_u16 (z : Z) : option Z :=
  if (0 <=? z)%Z && (z <? 2 ^ 16)%Z then Some z else None.
Definition try_u32 (z : Z) : option Z :=
  if (0 <=? z)%Z && (z <? 2 ^ 32)%Z then Some z else None.
Definition try_u64 (z : Z) : option Z :=
  if (0 <=? z)%Z && (z <? 2 ^ 64)%Z then Some z else None.
Definition try_i64 (z : Z) : option Z :=
  if (- 2 ^ 63 <=? z)%Z && (z <? 2 ^ 63)%Z then Some z else None.

(** The two's complement value of the low 32 bits: what [<<] on an [i32]
    keeps. *)
Definition wrap_i32 (z : Z) : Z := ((z + 2 ^ 31) mod 2 ^ 32 - 2 ^ 31)%Z.

Lemma try_u16_Some z w : try_u16 z = Some w ↔ w = z ∧ in_u16 z.
Proof. unfold try_u16, in_u16. case_match; naive_solver lia. Qed.

Lemma wrap_i32_range z : in_i32 (wrap_i32 z).
Proof. unfold wrap_i32, in_i32. pose proof (Z.mod_pos_bound (z + 2 ^ 31) (2 ^ 32)). lia. Qed.

Lemma wrap_i32_id z : in_i32 z → wrap_i32 z = z.
Proof. unfold wrap_i32, in_i32. intros. rewrite Z.mod_small; lia. Qed.

Lemma gtb_false a b : (a >? b)%Z = false ↔ (a ≤ b)%Z.
Proof. by rewrite Z.gtb_ltb, Z.ltb_ge. Qed.

(** ** Bounded queues

    [while q.len() > cap { q.pop_front(); }], which several logs of the
    daemon run after a [push_back]. *)

Fixpoint trim_front {A : Type} (cap : nat) (q : list A) : list A :=
  match q with
  | [] => []
  | _ :: q' => if decide (cap < length q) then trim_front cap q' else q
  end.

Section trim_front.
Context {A : Type}.
Implicit Types (q : list A).

Lemma trim_front_drop cap q : trim_front cap q = drop (length q - cap) q.
Proof.
  induction q as [|x q IH]; [done|].
  cbn [trim_front]. case_decide as Hc; cbn [length] in *.
  - rewrite IH. by replace (S (length q) - cap) with (S (length q - cap)) by lia.
  - by replace (S (length q) - cap) with 0 by lia.
Qed.

Lemma length_trim_front cap q : length (trim_front cap q) = length q `min` cap.
Proof. rewrite trim_front_drop, length_drop. lia. Qed.

Lemma trim_front_id cap q : length q ≤ cap → trim_front cap q = q.
Proof. intros. rewrite trim_front_drop. by replace (length q - cap) with 0 by lia. Qed.

(** The queue keeps the newest entries: it is always a suffix. *)
Lemma trim_front_suffix cap q : trim_front cap q `suffix_of` q.
Proof.
  rewrite trim_front_drop. exists (take (length q - cap) q). by rewrite take_drop.
Qed.

Lemma last_trim_front cap q : 0 < cap → last (trim_front cap q) = last q.
Proof.
  intros. rewrite trim_front_drop. destruct (decide (length q = 0)) as [H0|].
  { by destruct q. }
  rewrite !last_lookup, length_drop, lookup_drop. f_equal. lia.
Qed.

(** Trimming after each push is trimming once at the end. *)
Lemma trim_front_app cap q1 q2 :
  trim_front cap (trim_front cap q1 ++ q2) = trim_front cap (q1 ++ q2).
Proof.
  rewrite !trim_front_drop, !length_app, length_drop.
  destruct (decide (length q1 ≤ cap)) as [Hle|Hgt].
  { replace (length q1 - cap) with 0 by lia. cbn [drop].
    by replace (length q1 - 0 + length q2 - cap) with (length q1 + length q2 - cap) by lia. }
  replace (length q1 - (length q1 - cap) + length q2 - cap) with (length q2) by lia.
  rewrite !drop_app, drop_drop, length_drop. f_equal; f_equal; lia.
Qed.
End trim_front.

(** ** Filters *)

Section filters.
Context {A : Type} (P Q : A → Prop) `{!∀ x, Decision (P x), !∀ x, Decision (Q x)}.

Lemma filter_ext_in (l : list A) :
  (∀ x, x ∈ l → P x ↔ Q x) → filter P l = filter Q l.
Proof.
  induction l as [|x l IH]; intros HPQ; [done|].
  rewrite !filter_cons, IH by set_solver.
  pose proof (HPQ x ltac:(set_solver)). repeat case_decide; naive_solver.
Qed.

Lemma filter_all (l : list A) : (∀ x, x ∈ l → P x) → filter P l = l.
Proof.
  induction l as [|x l IH]; intros HP; [done|]. rewrite filter_cons_True, IH; set_solver.
Qed.
End filters.

(** ** Automation *)

Create HintDb ward.
#[export] Hint Resolve trim_front_suffix : ward.
#[export] Hint Rewrite @length_trim_front : ward.

(** Invert every [rbind _ _ = Ok _] and [Ok _ = Ok _] hypothesis. *)
Ltac inv_ok :=
  repeat match goal with
  | H : rbind _ _ = Ok _ |- _ =>
      let a := fresh "a" in let H1 := fresh H in
      apply rbind_Ok in H as (a & H1 & H)
  | H : refuse_if _ _ = Ok _ |- _ => apply refuse_if_Ok in H
  | H : map_err _ _ = Ok _ |- _ => apply map_err_Ok in H
  | H : Ok _ = Ok _ |- _ => injection H as H
  | H : Err _ = Ok _ |- _ => discriminate H
  | H : Ok _ = Err _ |- _ => discriminate H
  | u : unit |- _ => destruct u
  end.

(** Split a conditional chain of checks: each [if] whose failing arm is an
    error leaves one hypothesis per check. *)
Ltac split_checks :=
  repeat (case_match; [first [done | idtac]|first [done | idtac]]).

(** ** Loops with a large bound *)

(** A loop that runs at most [p] rounds; [p] is binary, so that a bound of a
    thousand million rounds costs nothing when the loop ends early. *)
Fixpoint loop_pos {A R} (p : positive) (step : A → A + R) (s : A) : A + R :=
  let twice p s := match loop_pos p step s with inl s => loop_pos p step s | inr r => inr r end in
  match p with
  | xH => step s
  | xO p => twice p s
  | xI p => match step s with inl s => twice p s | inr r => inr r end
  end.

Section loops.
Context {A R : Type} (step : A → A + R).


Lemma loop_pos_inv (I : A → Prop) (J : R → Prop) p s :
  (∀ s, I s → match step s with inl s' => I s' | inr r => J r end) →
  I s → match loop_pos p step s with inl s' => I s' | inr r => J r end.
Proof.
  intros Hstep. revert s. induction p as [p IH|p IH|]; intros s Hs; cbn [loop_pos].
  - specialize (Hstep s Hs). destruct (step s) as [s1|r]; [|done].
    specialize (IH s1 Hstep) as IH1. destruct (loop_pos p step s1) as [s2|r]; [by apply IH|done].
  - specialize (IH s Hs) as IH1. destruct (loop_pos p step s) as [s2|r]; [by apply IH|done].
  - by apply Hstep.
Qed.

(** A round that goes on uses up some of [left]. *)
Lemma loop_pos_ends (left : A → Z) p s s' :
  (∀ s s', step s = inl s' → 0 < left s ∧ left s' < left s)%Z →
  loop_pos p step s = inl s' → (Zpos p ≤ left s ∧ left s' ≤ left s - Zpos p)%Z.
Proof.
  intros Hstep. revert s s'. induction p as [p IH|p IH|]; intros s s'; cbn [loop_pos].
  - destruct (step s) as [s1|] eqn:H1; [|done]. destruct (loop_pos p step s1) as [s2|] eqn:H2; [|done]. intros H3.
    apply Hstep in H1. apply IH in H2. apply IH in H3. lia.
  - destruct (loop_pos p step s) as [s2|] eqn:H2; [|done]. intros H3. apply IH in H2. apply IH in H3. lia.
  - intros H1. apply Hstep in H1. lia.
Qed.
(** A loop that has not ended went through [n] states. *)
Lemma loop_pos_states (f : A → A) (P : A → Prop) p s s' :
  (∀ s s', step s = inl s' → s' = f s ∧ P s) → loop_pos p step s = inl s' →
  s' = Nat.iter (Pos.to_nat p) f s ∧ ∀ k, k < Pos.to_nat p → P (Nat.iter k f s).
Proof.
  intros Hstep. revert s s'.
  assert (Htwice : ∀ p s s', (∀ s s', loop_pos p step s = inl s' →
      s' = Nat.iter (Pos.to_nat p) f s ∧ ∀ k, k < Pos.to_nat p → P (Nat.iter k f s)) →
    match loop_pos p step s with inl s => loop_pos p step s | inr r => inr r end = inl s' →
    s' = Nat.iter (Pos.to_nat p + Pos.to_nat p) f s ∧ ∀ k, k < Pos.to_nat p + Pos.to_nat p → P (Nat.iter k f s)).
  { clear p. intros p s s' IH. destruct (loop_pos p step s) as [s1|] eqn:H1; [|done]. intros H2.
    apply IH in H1 as [-> H1], H2 as [-> H2]. rewrite <- Nat.iter_add. split; [done|]. intros k Hk.
    destruct (decide (k < Pos.to_nat p)) as [|Hge]; [by apply H1|].
    replace k with ((k - Pos.to_nat p) + Pos.to_nat p) by lia. rewrite Nat.iter_add. apply H2. lia. }
  induction p as [p IH|p IH|]; intros s s'; cbn [loop_pos].
  - destruct (step s) as [s1|] eqn:H1; [|done]. apply Hstep in H1 as [-> HP]. intros H2.
    apply (Htwice p _ _ IH) in H2 as [-> H2]. replace (Pos.to_nat p~1) with (S (Pos.to_nat p + Pos.to_nat p)) by lia.
    split; [by rewrite Nat.iter_succ_r|]. intros [|k] Hk; [done|]. rewrite Nat.iter_succ_r. apply H2. lia.
  - intros H2. apply (Htwice p _ _ IH) in H2 as [-> H2].
    replace (Pos.to_nat p~0) with (Pos.to_nat p + Pos.to_nat p) by lia. done.
  - intros H1. apply Hstep in H1 as [-> HP]. split; [done|]. intros [|k] Hk; [done|]. cbn in Hk. lia.
Qed.
End loops.
