(* ===== verification/Text.v ===== *)
(** * Text: the [str] operations the sources use

    A Rust [&str] or [String] is a [string], the list of its UTF-8 bytes, so
    [len] counts bytes as [str::len] does.  Predicates the sources state over
    [char]s but that only accept ASCII are stated over bytes: a byte of a
    multi-byte character is never ASCII, so the two agree.  [is_control] and
    [is_whitespace], which also accept characters outside ASCII, decode the
    two and three byte sequences concerned. *)

From stdpp Require Import base list numbers option strings pretty gmap.
From Stdlib Require Import ZArith Lia Ascii.
From S2P Require Import Prelude.

Definition byte_of (c : ascii) : nat := nat_of_ascii c.

(** ** Character classes *)

Definition is_ascii_digit (c : ascii) : bool :=
  (48 <=? byte_of c) && (byte_of c <=? 57).
Definition is_ascii_uppercase (c : ascii) : bool :=
  (65 <=? byte_of c) && (byte_of c <=? 90).
Definition is_ascii_lowercase (c : ascii) : bool :=
  (97 <=? byte_of c) && (byte_of c <=? 122).
Definition is_ascii_alphanumeric (c : ascii) : bool :=
  is_ascii_digit c || is_ascii_uppercase c || is_ascii_lowercase c.

(** [matches!(c, 'x' | 'y' | ...)]: membership in a literal set. *)
Definition one_of (set : list ascii) (c : ascii) : bool := bool_decide (c ∈ set).

Definition to_ascii_lowercase_char (c : ascii) : ascii :=
  if is_ascii_uppercase c then ascii_of_nat (byte_of c + 32) else c.
Definition to_ascii_uppercase_char (c : ascii) : ascii :=
  if is_ascii_lowercase c then ascii_of_nat (byte_of c - 32) else c.

(** ** Strings as lists of bytes *)

Fixpoint chars (s : string) : list ascii :=
  match s with EmptyString => [] | String c s => c :: chars s end.
Fixpoint of_chars (l : list ascii) : string :=
  match l with [] => EmptyString | c :: l => String c (of_chars l) end.

Definition str_len (s : string) : nat := length (chars s).
Definition is_empty (s : string) : bool := match s with EmptyString => true | _ => false end.
Definition str_all (f : ascii → bool) (s : string) : bool := forallb f (chars s).
Definition str_any (f : ascii → bool) (s : string) : bool := existsb f (chars s).
(** [s.starts_with(|c| f c)]. *)
Definition starts_with_char (f : ascii → bool) (s : string) : bool :=
  match s with EmptyString => false | String c _ => f c end.
(** [s.ends_with(c)] for one ASCII character. *)
Definition ends_with_char (c : ascii) (s : string) : bool :=
  match last (chars s) with Some d => bool_decide (c = d) | None => false end.

Definition to_ascii_lowercase (s : string) : string :=
  of_chars (to_ascii_lowercase_char <$> chars s).
Definition to_ascii_uppercase (s : string) : string :=
  of_chars (to_ascii_uppercase_char <$> chars s).
Definition eq_ignore_ascii_case (s t : string) : bool :=
  bool_decide (to_ascii_lowercase s = to_ascii_lowercase t).

(** [s.starts_with(p)] and [s.strip_prefix(p)]. *)
Fixpoint strip_prefix (p s : string) : option string :=
  match p, s with
  | EmptyString, _ => Some s
  | String a p, String b s => if decide (a = b) then strip_prefix p s else None
  | String _ _, EmptyString => None
  end.
Definition starts_with (p s : string) : bool := bool_decide (is_Some (strip_prefix p s)).

(** [s.ends_with(suffix)]. *)
Fixpoint ends_with (suffix s : string) : bool :=
  bool_decide (s = suffix) ||
  match s with EmptyString => false | String _ s => ends_with suffix s end.

(** [s.contains(needle)]. *)
Fixpoint contains (needle s : string) : bool :=
  starts_with needle s ||
  match s with EmptyString => false | String _ s => contains needle s end.

(** [s.split(sep)] for one ASCII separator: always at least one piece. *)
Fixpoint split (sep : ascii) (s : string) : list string :=
  match s with
  | EmptyString => [EmptyString]
  | String c s =>
      if decide (c = sep) then EmptyString :: split sep s
      else match split sep s with
           | [] => [String c EmptyString]
           | piece :: rest => String c piece :: rest
           end
  end.

(** [s.split_once(sep)] and [s.rsplit_once(sep)]. *)
Fixpoint split_once (sep : ascii) (s : string) : option (string * string) :=
  match s with
  | EmptyString => None
  | String c s =>
      if decide (c = sep) then Some (EmptyString, s)
      else match split_once sep s with
           | Some (a, b) => Some (String c a, b)
           | None => None
           end
  end.
Fixpoint rsplit_once (sep : ascii) (s : string) : option (string * string) :=
  match s with
  | EmptyString => None
  | String c s =>
      match rsplit_once sep s with
      | Some (a, b) => Some (String c a, b)
      | None => if decide (c = sep) then Some (EmptyString, s) else None
      end
  end.

(** [[..].join(sep)]. *)
Fixpoint join (sep : string) (l : list string) : string :=
  match l with
  | [] => EmptyString
  | [s] => s
  | s :: l => String.append s (String.append sep (join sep l))
  end.

(** [s.trim_start_matches(c)] and [s.trim_end_matches(c)] for one character. *)
Fixpoint trim_start_char (c : ascii) (s : string) : string :=
  match s with
  | EmptyString => EmptyString
  | String d s' => if decide (d = c) then trim_start_char c s' else s
  end.
Definition trim_end_char (c : ascii) (s : string) : string :=
  of_chars (rev (chars (trim_start_char c (of_chars (rev (chars s)))))).

(** ** Characters outside ASCII

    [char::is_control] is the category Cc: U+0000 to U+001F, U+007F, and
    U+0080 to U+009F, whose UTF-8 form is C2 followed by 80 to 9F. *)
Fixpoint any_control (s : list ascii) : bool :=
  match s with
  | [] => false
  | c :: s =>
      (byte_of c <? 32) || (byte_of c =? 127) ||
      ((byte_of c =? 194) &&
        match s with d :: _ => (128 <=? byte_of d) && (byte_of d <=? 159) | [] => false end) ||
      any_control s
  end.
(** [s.chars().any(char::is_control)]. *)
Definition has_control (s : string) : bool := any_control (chars s).

(** The rest after one character with the [White_Space] property, if the
    text starts with one.  The multi-byte cases are U+0085, U+00A0, U+1680,
    U+2000 to U+200A, U+2028, U+2029, U+202F, U+205F and U+3000. *)
Definition strip_whitespace_char (l : list ascii) : option (list ascii) :=
  match l with
  | [] => None
  | c :: s =>
      if ((9 <=? byte_of c) && (byte_of c <=? 13)) || (byte_of c =? 32) then Some s
      else match byte_of c, s with
           | 194, d :: s =>
               if (byte_of d =? 133) || (byte_of d =? 160) then Some s else None
           | 225, d :: e :: s =>
               if (byte_of d =? 154) && (byte_of e =? 128) then Some s else None
           | 226, d :: e :: s =>
               if ((byte_of d =? 128) &&
                    (((128 <=? byte_of e) && (byte_of e <=? 138)) ||
                     (byte_of e =? 168) || (byte_of e =? 169) || (byte_of e =? 175))) ||
                  ((byte_of d =? 129) && (byte_of e =? 159)) then Some s else None
           | 227, d :: e :: s =>
               if (byte_of d =? 128) && (byte_of e =? 128) then Some s else None
           | _, _ => None
           end
  end.

(** [s.trim().is_empty()]; one unit of fuel per character is enough. *)
Fixpoint all_whitespace (fuel : nat) (l : list ascii) : bool :=
  match fuel, l with
  | _, [] => true
  | 0, _ => false
  | S fuel, _ =>
      match strip_whitespace_char l with
      | Some rest => all_whitespace fuel rest
      | None => false
      end
  end.
Definition trims_to_empty (s : string) : bool := all_whitespace (str_len s) (chars s).

(** [s.split_whitespace()]: the maximal runs of other characters; [word] is
    the run being read. *)
Fixpoint words (fuel : nat) (word l : list ascii) : list string :=
  let flush := match word with [] => [] | _ => [of_chars word] end in
  match fuel, l with
  | _, [] => flush
  | 0, _ => flush
  | S fuel, c :: rest =>
      match strip_whitespace_char l with
      | Some rest => flush ++ words fuel [] rest
      | None => words fuel (word ++ [c]) rest
      end
  end.
Definition split_whitespace (s : string) : list string := words (str_len s) [] (chars s).

(** [str]'s [Ord]: byte by byte. *)
Fixpoint str_leb (s t : string) : bool :=
  match s, t with
  | EmptyString, _ => true
  | String _ _, EmptyString => false
  | String c s, String d t =>
      if byte_of c <? byte_of d then true
      else if byte_of c =? byte_of d then str_leb s t else false
  end.

(** ** Numbers

    [str::parse] for Rust integers: an optional sign, where [-] is only a
    sign for signed types, then at least one decimal digit, then a range
    check.  Leading zeros are accepted. *)
Fixpoint digits_value (acc : Z) (l : list ascii) : option Z :=
  match l with
  | [] => Some acc
  | c :: l =>
      if is_ascii_digit c
      then digits_value (10 * acc + (Z.of_nat (byte_of c) - 48))%Z l
      else None
  end.
Definition parse_digits (l : list ascii) : option Z :=
  match l with [] => None | _ => digits_value 0 l end.
Definition parse_unsigned (bound : Z) (s : string) : option Z :=
  let digits := match chars s with "+"%char :: l => l | l => l end in
  match parse_digits digits with
  | Some v => if (v <? bound)%Z then Some v else None
  | None => None
  end.
Definition parse_u16 : string → option Z := parse_unsigned (2 ^ 16).
Definition parse_u32 : string → option Z := parse_unsigned (2 ^ 32).
Definition parse_u64 : string → option Z := parse_unsigned (2 ^ 64).
Definition parse_signed (bound : Z) (s : string) : option Z :=
  let value := match chars s with
               | "-"%char :: l => Z.opp <$> parse_digits l
               | "+"%char :: l => parse_digits l
               | l => parse_digits l
               end in
  match value with
  | Some v => if (- bound <=? v)%Z && (v <? bound)%Z then Some v else None
  | None => None
  end.
Definition parse_i32 : string → option Z := parse_signed (2 ^ 31).
Definition parse_i64 : string → option Z := parse_signed (2 ^ 63).

(** ** Printing *)


Definition cat (l : list string) : string := foldr String.append "" l.
Definition dquote : string := String (ascii_of_nat 34) "".

(** [{:?}] of a [str], on printable ASCII and the escapes Rust uses; other
    bytes are left as they are. *)
Definition debug_char (c : ascii) : string :=
  match byte_of c with
  | 0 => "\0" | 9 => "\t" | 10 => "\n" | 13 => "\r"
  | 34 => "\" +:+ dquote | 92 => "\\"
  | _ => String c ""
  end.
Definition debug_str (s : string) : string :=
  cat ([dquote] ++ (debug_char <$> chars s) ++ [dquote]).

(** ** Lemmas *)

Lemma of_chars_chars s : of_chars (chars s) = s.
Proof. induction s as [|c s IH]; simpl; congruence. Qed.
Lemma chars_of_chars l : chars (of_chars l) = l.
Proof. induction l as [|c l IH]; simpl; congruence. Qed.
#[export] Instance chars_inj : Inj (=) (=) chars.
Proof. intros s t H. by rewrite <- (of_chars_chars s), H, of_chars_chars. Qed.
(** stdpp keeps [+:+] from unfolding; this is its defining equation. *)
Lemma append_cons c s t : String c s +:+ t = String c (s +:+ t).
Proof. done. Qed.
Lemma append_nil_l s : "" +:+ s = s.
Proof. done. Qed.
Lemma chars_app s t : chars (String.append s t) = chars s ++ chars t.
Proof. induction s as [|c s IH]; [done|]. rewrite append_cons. cbn. by rewrite IH. Qed.
Lemma str_len_app s t : str_len (String.append s t) = str_len s + str_len t.
Proof. unfold str_len. by rewrite chars_app, length_app. Qed.

Lemma is_empty_spec s : is_empty s = true ↔ s = "".
Proof. by destruct s. Qed.
Lemma is_empty_false s : is_empty s = false ↔ s ≠ "".
Proof. by destruct s. Qed.

Lemma one_of_spec set c : one_of set c = true ↔ c ∈ set.
Proof. unfold one_of. apply bool_decide_eq_true. Qed.

Lemma str_all_spec f s : str_all f s = true ↔ ∀ c, c ∈ chars s → f c = true.
Proof.
  unfold str_all. rewrite forallb_forall.
  split; intros H c Hc; apply H; by apply list_elem_of_In.
Qed.
Lemma str_any_spec f s : str_any f s = true ↔ ∃ c, c ∈ chars s ∧ f c = true.
Proof.
  unfold str_any. rewrite existsb_exists.
  split; intros (c & Hc & ?); exists c; split; try done; by apply list_elem_of_In.
Qed.

Lemma strip_prefix_Some p s r : strip_prefix p s = Some r ↔ s = p +:+ r.
Proof.
  revert s. induction p as [|a p IH]; intros s; cbn.
  { naive_solver. }
  destruct s as [|b s]; [done|]. case_decide as Hab.
  - subst. rewrite IH. split; [by intros ->|by intros [= ->]].
  - split; [done|]. by intros [= -> ?].
Qed.
Lemma starts_with_spec p s : starts_with p s = true ↔ ∃ r, s = p +:+ r.
Proof.
  unfold starts_with. rewrite bool_decide_eq_true. unfold is_Some.
  by setoid_rewrite strip_prefix_Some.
Qed.
Lemma starts_with_self p r : starts_with p (p +:+ r) = true.
Proof. apply starts_with_spec. eauto. Qed.

Lemma ends_with_spec suf s : ends_with suf s = true ↔ ∃ r, s = r +:+ suf.
Proof.
  induction s as [|c s IH]; cbn.
  - rewrite orb_false_r, bool_decide_eq_true. split.
    + intros <-. by exists "".
    + intros ([|d r] & H); [by rewrite H|done].
  - rewrite orb_true_iff, bool_decide_eq_true, IH. split.
    + intros [<-|(r & ->)]; [by exists ""|by exists (String c r)].
    + intros ([|d r] & H); cbn in H; [by left|]. injection H as -> ->. right. by exists r.
Qed.

Lemma contains_spec needle s : contains needle s = true ↔ ∃ a b, s = a +:+ needle +:+ b.
Proof.
  induction s as [|c s IH].
  - change (contains needle "") with (starts_with needle "" || false).
    rewrite orb_false_r, starts_with_spec. split.
    + intros (r & Hr). by exists "", r.
    + intros ([|d a] & b & H); [by exists b|done].
  - change (contains needle (String c s)) with (starts_with needle (String c s) || contains needle s).
    rewrite orb_true_iff, starts_with_spec, IH. split.
    + intros [(r & Hr)|(a & b & ->)]; [by exists "", r|by exists (String c a), b].
    + intros ([|d a] & b & H); [left; by exists b|right].
      injection H as -> ->. eauto.
Qed.

(** The pieces of a split never contain the separator, and joining them with
    it gives the string back. *)
Lemma split_nonempty sep s : split sep s ≠ [].
Proof. destruct s; cbn; [done|]. case_decide; [done|]. by case_match. Qed.
Lemma split_no_sep sep s piece : piece ∈ split sep s → sep ∉ chars piece.
Proof.
  revert piece. induction s as [|c s IH]; intros piece; cbn.
  { intros ->%list_elem_of_singleton. by apply not_elem_of_nil. }
  case_decide as Hc.
  - intros [->|H]%elem_of_cons; [by apply not_elem_of_nil|by apply IH].
  - destruct (split sep s) as [|p ps] eqn:E.
    { intros ->%list_elem_of_singleton. cbn. by intros ->%list_elem_of_singleton. }
    intros [->|H]%elem_of_cons.
    + cbn. intros [->|Hin]%elem_of_cons; [done|]. by apply (IH p); [left|].
    + apply (IH piece). by right.
Qed.
Lemma join_split sep s : join (String sep "") (split sep s) = s.
Proof.
  induction s as [|c s IH]; [done|]. cbn [split].
  pose proof (split_nonempty sep s) as Hne.
  destruct (split sep s) as [|p ps] eqn:E; [done|].
  case_decide as Hc.
  - subst c. change (String sep (join (String sep "") (p :: ps)) = String sep s). by rewrite IH.
  - transitivity (String c (join (String sep "") (p :: ps))); [by destruct ps|by rewrite IH].
Qed.
Lemma split_once_Some sep s a b :
  split_once sep s = Some (a, b) ↔ s = a +:+ String sep b ∧ sep ∉ chars a.
Proof.
  revert a b. induction s as [|c s IH]; intros a b; cbn.
  { split; [done|]. intros [H _]. by destruct a. }
  case_decide as Hc.
  - subst. split.
    + intros [= <- <-]. split; [done|]. apply not_elem_of_nil.
    + intros [H Hn]. destruct a as [|d a]; [by injection H as ->|].
      injection H as -> ->. destruct Hn. by left.
  - destruct (split_once sep s) as [[a' b']|] eqn:E; split.
    + intros [= <- <-]. destruct (proj1 (IH a' b') eq_refl) as [-> Hn]. split; [done|].
      cbn. by intros [->|?]%elem_of_cons.
    + intros [H Hn]. destruct a as [|d a]; [by injection H as -> ->|].
      injection H as -> Hs. assert (Some (a', b') = Some (a, b)) as [= -> ->].
      { apply IH. split; [done|]. intros ?. apply Hn. by right. }
      done.
    + done.
    + intros [H Hn]. destruct a as [|d a]; [by injection H as -> ->|].
      injection H as -> Hs. assert (None = Some (a, b)) as Hf; [|done].
      apply IH. split; [done|]. intros ?. apply Hn. by right.
Qed.

(** ** Numbers: printing and parsing *)

Lemma digits_value_nonneg acc l v :
  (0 ≤ acc)%Z → digits_value acc l = Some v → (acc ≤ v)%Z.
Proof.
  revert acc. induction l as [|c l IH]; cbn; intros acc Hacc; [naive_solver lia|].
  destruct (is_ascii_digit c) eqn:Hd; [|done].
  unfold is_ascii_digit in Hd. apply andb_true_iff in Hd as [Hd%Nat.leb_le _].
  intros H. specialize (IH (10 * acc + (Z.of_nat (byte_of c) - 48))%Z ltac:(lia) H). lia.
Qed.

Lemma parse_unsigned_range bound s v : parse_unsigned bound s = Some v → (0 ≤ v < bound)%Z.
Proof.
  unfold parse_unsigned, parse_digits. intros H.
  repeat case_match; simplify_eq;
    match goal with H : digits_value _ _ = Some _ |- _ => apply digits_value_nonneg in H end; lia.
Qed.
Lemma parse_u32_range s v : parse_u32 s = Some v → in_u32 v.
Proof. apply parse_unsigned_range. Qed.

Lemma digit_char n : (n < 10)%N →
  is_ascii_digit (pretty_N_char n) = true ∧
  (Z.of_nat (byte_of (pretty_N_char n)) - 48 = Z.of_N n)%Z.
Proof.
  intros H.
  assert (n = 0 ∨ n = 1 ∨ n = 2 ∨ n = 3 ∨ n = 4 ∨ n = 5 ∨ n = 6 ∨ n = 7 ∨ n = 8 ∨ n = 9)%N by lia.
  destruct_or!; subst; done.
Qed.

Lemma digits_value_pretty x s : digits_value 0 (chars (pretty_N_go x s)) = digits_value (Z.of_N x) (chars s).
Proof.
  revert s. induction (N.lt_wf_0 x) as [x _ IH]; intros s.
  destruct (decide (x = 0)%N) as [->|Hx]; [by rewrite pretty_N_go_0|].
  rewrite pretty_N_go_step by lia. rewrite IH by (apply N.div_lt; lia). cbn.
  destruct (digit_char (x `mod` 10)) as [-> ->]; [apply N.mod_lt; lia|].
  f_equal. pose proof (N.div_mod x 10 ltac:(done)) as Hdm. rewrite Hdm at 3. lia.
Qed.

Lemma pretty_nonempty (x : N) s : (x ≠ 0)%N → ∃ c r, chars (pretty_N_go x s) = c :: r ∧ is_ascii_digit c = true.
Proof.
  revert s. induction (N.lt_wf_0 x) as [x _ IH]; intros s Hx. rewrite pretty_N_go_step by lia.
  destruct (decide (x `div` 10 = 0)%N) as [->|Hd].
  - rewrite pretty_N_go_0. cbn. eexists _, _. split; [done|]. apply digit_char, N.mod_lt. lia.
  - apply IH; [apply N.div_lt; lia|done].
Qed.

(** Printing a number and parsing it gives it back. *)
Lemma parse_unsigned_pretty bound n :
  (0 ≤ n < bound)%Z → parse_unsigned bound (pretty n) = Some n.
Proof.
  intros Hn. destruct n as [|p|p]; [| |lia].
  { change (parse_unsigned bound (pretty 0%Z)) with (if (0 <? bound)%Z then Some 0%Z else None).
    by rewrite (proj2 (Z.ltb_lt _ _)) by lia. }
  unfold parse_unsigned.
  change (pretty (Zpos p)) with (pretty_N_go (Npos p) "").
  pose proof (digits_value_pretty (Npos p) "") as Hv.
  destruct (pretty_nonempty (Npos p) "") as (c & r & E & Hc); [done|].
  rewrite E in *. unfold is_ascii_digit in Hc.
  assert (match c :: r with "+"%char :: l => l | l => l end = c :: r) as ->.
  { destruct c as [[] [] [] [] [] [] [] []]; done. }
  unfold parse_digits. rewrite Hv. cbn -[Z.ltb]. by rewrite (proj2 (Z.ltb_lt _ _)) by lia.
Qed.
Lemma parse_u32_pretty n : in_u32 n → parse_u32 (pretty n) = Some n.
Proof. apply parse_unsigned_pretty. Qed.

(** ** Splitting and joining around a separator *)

Lemma split_sep_app sep s t :
  split sep (s +:+ String sep t) = split sep s ++ split sep t.
Proof.
  induction s as [|c s IH]; [by rewrite append_nil_l; cbn [split]; rewrite decide_True by done|].
  rewrite append_cons. cbn [split]. rewrite IH. case_decide; [done|].
  destruct (split sep s) eqn:Hs; [by apply split_nonempty in Hs|done].
Qed.

Lemma split_none sep s : sep ∉ chars s → split sep s = [s].
Proof.
  induction s as [|c s IH]; cbn; [done|]. intros Hc.
  rewrite IH by set_solver. rewrite decide_False; [done|]. set_solver.
Qed.

Lemma append_assoc s t u : (s +:+ t) +:+ u = s +:+ t +:+ u.
Proof. induction s as [|c s IH]; [done|]. by rewrite !append_cons, IH. Qed.

Lemma append_nil_r s : s +:+ "" = s.
Proof. induction s as [|c s IH]; [done|]. by rewrite append_cons, IH. Qed.

Lemma join_app sep l k :
  l ≠ [] → k ≠ [] → join sep (l ++ k) = join sep l +:+ sep +:+ join sep k.
Proof.
  intros Hl Hk. induction l as [|a l IH]; [done|]. destruct l as [|b l].
  - cbn [app join]. by destruct k.
  - cbn [app join] in *. rewrite IH by done. by rewrite !append_assoc.
Qed.

Lemma chars_split sep s c :
  c ≠ sep → c ∈ chars s ↔ ∃ piece, piece ∈ split sep s ∧ c ∈ chars piece.
Proof.
  intros Hc. induction s as [|d s IH]; cbn [chars split].
  { split; [set_solver|]. intros (? & ->%list_elem_of_singleton & []%not_elem_of_nil). }
  rewrite elem_of_cons, IH. case_decide as Hd.
  - subst. split.
    + intros [?|(p & ? & ?)]; [done|]. exists p. set_solver.
    + intros (p & [->|?]%elem_of_cons & Hp); [by apply not_elem_of_nil in Hp|eauto].
  - destruct (split sep s) as [|q l]; cbn.
    + split; [|intros (? & ->%list_elem_of_singleton & Hq); set_solver].
      intros [->|(? & []%not_elem_of_nil & _)]. eexists. split; [by left|]. set_solver.
    + split.
      * intros [->|(p & [->|?]%elem_of_cons & ?)]; [exists (String d q)|exists (String d q)|exists p];
          set_solver.
      * intros (p & [->|?]%elem_of_cons & Hp); [|set_solver].
        cbn in Hp. apply elem_of_cons in Hp as [->|]; set_solver.
Qed.

Lemma ends_with_char_spec c s : ends_with_char c s = true ↔ ∃ r, s = r +:+ String c "".
Proof.
  unfold ends_with_char. split.
  - destruct (last (chars s)) as [d|] eqn:Hl; [|done]. intros ->%bool_decide_eq_true.
    apply last_Some in Hl as [l Hl]. exists (of_chars l).
    rewrite <- (of_chars_chars s), Hl, <- (of_chars_chars (_ +:+ _)), chars_app, chars_of_chars.
    done.
  - intros [r ->]. rewrite chars_app. cbn. rewrite last_snoc. by apply bool_decide_eq_true.
Qed.

(** Some piece is empty exactly when the separator leads, trails or
    repeats. *)
Lemma split_empty_piece sep s :
  s ≠ "" →
  (starts_with (String sep "") s || ends_with_char sep s ||
   contains (String sep (String sep "")) s) = true ↔ "" ∈ split sep s.
Proof.
  intros Hs. rewrite !orb_true_iff, starts_with_spec, ends_with_char_spec, contains_spec. split.
  - intros [[[r ->]|[r ->]]|(a & b & ->)].
    + change (String sep "" +:+ r) with ("" +:+ String sep r). rewrite split_sep_app. set_solver.
    + rewrite split_sep_app. set_solver.
    + change (String sep (String sep "") +:+ b) with (String sep ("" +:+ String sep b)).
      rewrite !split_sep_app. set_solver.
  - intros (l1 & l2 & Hl)%list_elem_of_split.
    pose proof (join_split sep s) as Hj. rewrite Hl in Hj.
    destruct (decide (l1 = [])) as [->|H1]; [|destruct (decide (l2 = [])) as [->|H2]].
    + left; left. destruct l2 as [|x l2]; [by subst|].
      exists (join (String sep "") (x :: l2)). by rewrite <- Hj.
    + left; right. exists (join (String sep "") l1). by rewrite <- Hj, join_app.
    + right. exists (join (String sep "") l1), (join (String sep "") l2). rewrite <- Hj.
      rewrite join_app by done. change ("" :: l2) with ([""] ++ l2). by rewrite join_app.
Qed.

(** ** The order of strings *)

Lemma byte_of_inj c d : byte_of c = byte_of d → c = d.
Proof. intros H. rewrite <- (ascii_nat_embedding c), <- (ascii_nat_embedding d). by f_equal. Qed.

Definition str_le (s t : string) : Prop := str_leb s t = true.
#[export] Instance str_le_dec : RelDecision str_le.
Proof. unfold str_le. intros s t. apply _. Defined.
#[export] Instance str_le_total : Total str_le.
Proof.
  intros s. unfold str_le. induction s as [|c s IH]; intros [|d t]; cbn [str_leb]; [auto..|].
  destruct (Nat.ltb_spec (byte_of c) (byte_of d)), (Nat.eqb_spec (byte_of c) (byte_of d)),
    (Nat.ltb_spec (byte_of d) (byte_of c)), (Nat.eqb_spec (byte_of d) (byte_of c));
    try lia; auto.
Qed.
#[export] Instance str_le_trans : Transitive str_le.
Proof.
  intros s. unfold str_le. induction s as [|c s IH]; intros [|d t] [|e u]; cbn [str_leb]; try done.
  destruct (Nat.ltb_spec (byte_of c) (byte_of d)), (Nat.eqb_spec (byte_of c) (byte_of d)),
    (Nat.ltb_spec (byte_of d) (byte_of e)), (Nat.eqb_spec (byte_of d) (byte_of e)),
    (Nat.ltb_spec (byte_of c) (byte_of e)), (Nat.eqb_spec (byte_of c) (byte_of e));
    try lia; try done; eauto.
Qed.
#[export] Instance str_le_antisymm : AntiSymm (=) str_le.
Proof.
  intros s. unfold str_le. induction s as [|c s IH]; intros [|d t]; cbn [str_leb]; try done.
  destruct (Nat.ltb_spec (byte_of c) (byte_of d)), (Nat.eqb_spec (byte_of c) (byte_of d)),
    (Nat.ltb_spec (byte_of d) (byte_of c)), (Nat.eqb_spec (byte_of d) (byte_of c));
    try lia; try done.
  intros. f_equal; [by apply byte_of_inj|by apply IH].
Qed.

Lemma to_ascii_lowercase_idemp s :
  to_ascii_lowercase (to_ascii_lowercase s) = to_ascii_lowercase s.
Proof.
  unfold to_ascii_lowercase. rewrite chars_of_chars, <- list_fmap_compose. f_equal.
  apply list_fmap_ext. intros _ c _. cbn.
  unfold to_ascii_lowercase_char at 1.
  destruct (is_ascii_uppercase (to_ascii_lowercase_char c)) eqn:Hu; [|done].
  exfalso. revert Hu. by destruct c as [[] [] [] [] [] [] [] []].
Qed.
