(* ===== verification/Utf8.v ===== *)
(** * Utf8: decoding a byte stream that arrives in chunks

    Models [ward-core/src/utf8.rs] and what it uses of the standard library:
    [str::from_utf8] with its error value and [String::from_utf8_lossy].
    Bytes are [ascii], as everywhere in the development. *)

From stdpp Require Import base list numbers option strings.
From Stdlib Require Import Lia Ascii.
From S2P Require Import Prelude Text.

(** ** One character

    What the validation of the standard library finds at the start of some
    input: a whole character of [n] bytes, [n] bytes that can never start
    one, or the start of a character that the input cuts off. *)
Inductive Scan :=
| Whole (n : nat)
| Invalid (n : nat)
| CutOff.

Definition between (lo hi : nat) (c : ascii) : bool :=
  (lo <=? byte_of c) && (byte_of c <=? hi).
Definition continuation : ascii → bool := between 128 191.

(** [utf8_char_width]: 0 for bytes that never start a character. *)
Definition utf8_char_width (c : ascii) : nat :=
  if between 0 127 c then 1
  else if between 194 223 c then 2
  else if between 224 239 c then 3
  else if between 240 244 c then 4
  else 0.

(** Which second byte may follow the first one: no overlong forms, no
    surrogates, nothing above U+10FFFF. *)
Definition second_ok (first second : ascii) : bool :=
  match byte_of first with
  | 224 => between 160 191 second
  | 237 => between 128 159 second
  | 240 => between 144 191 second
  | 244 => between 128 143 second
  | _ => continuation second
  end.

(** The bytes after the second one, [n] of them, of which [seen] bytes of the
    character came before. *)
Fixpoint scan_tail (n seen : nat) (l : list ascii) : Scan :=
  match n with
  | 0 => Whole seen
  | S n =>
      match l with
      | [] => CutOff
      | c :: l => if continuation c then scan_tail n (S seen) l else Invalid seen
      end
  end.

Definition scan_char (l : list ascii) : Scan :=
  match l with
  | [] => CutOff
  | c :: l =>
      match utf8_char_width c with
      | 0 => Invalid 1
      | 1 => Whole 1
      | S (S n) =>
          match l with
          | [] => CutOff
          | d :: l => if second_ok c d then scan_tail n 2 l else Invalid 1
          end
      end
  end.

(** ** The standard library's validation *)

(** [std::str::Utf8Error]. *)
Record Utf8Error := mkUtf8Error { valid_up_to : nat; error_len : option nat }.

Fixpoint validate_from (fuel upto : nat) (l : list ascii) : option Utf8Error :=
  match fuel with
  | 0 => None
  | S fuel =>
      match l with
      | [] => None
      | _ =>
          match scan_char l with
          | Whole n => validate_from fuel (upto + n) (drop n l)
          | Invalid n => Some (mkUtf8Error upto (Some n))
          | CutOff => Some (mkUtf8Error upto None)
          end
      end
  end.

(** [str::from_utf8]: [None] when all of the input is text. *)
Definition from_utf8 (l : list ascii) : option Utf8Error := validate_from (S (length l)) 0 l.

(** U+FFFD. *)
Definition REPLACEMENT_CHARACTER : list ascii :=
  [ascii_of_nat 239; ascii_of_nat 191; ascii_of_nat 189].

(** [String::from_utf8_lossy]: every maximal run of bytes that cannot start a
    character becomes one U+FFFD. *)
Fixpoint lossy_from (fuel : nat) (l : list ascii) : list ascii :=
  match fuel with
  | 0 => []
  | S fuel =>
      match l with
      | [] => []
      | _ =>
          match scan_char l with
          | Whole n => take n l ++ lossy_from fuel (drop n l)
          | Invalid n => REPLACEMENT_CHARACTER ++ lossy_from fuel (drop n l)
          | CutOff => REPLACEMENT_CHARACTER
          end
      end
  end.
Definition from_utf8_lossy (l : list ascii) : list ascii := lossy_from (S (length l)) l.

(** ** The stream decoder *)

(** The loop of [Utf8Stream::push]: the text, and the bytes left pending. *)
Fixpoint push_loop (fuel : nat) (text rest : list ascii) : list ascii * list ascii :=
  match fuel with
  | 0 => (text, rest)
  | S fuel =>
      match from_utf8 rest with
      | None => (text ++ rest, [])
      | Some e =>
          let valid := take (valid_up_to e) rest in
          let after := drop (valid_up_to e) rest in
          let text := text ++ from_utf8_lossy valid in
          match error_len e with
          | Some bad => push_loop fuel (text ++ REPLACEMENT_CHARACTER) (drop bad after)
          | None => (text, after)
          end
      end
  end.

Record Utf8Stream := mkUtf8Stream { pending : list ascii }.
Definition utf8_default : Utf8Stream := mkUtf8Stream [].

(** [Utf8Stream::push].  Every round of the loop drops a bad byte, so the
    length of the data bounds the rounds. *)
Definition utf8_push (s : Utf8Stream) (chunk : list ascii) : list ascii * Utf8Stream :=
  let data := pending s ++ chunk in
  let '(text, rest) := push_loop (S (length data)) [] data in
  (text, mkUtf8Stream rest).

Definition utf8_finish (s : Utf8Stream) : list ascii * Utf8Stream :=
  (from_utf8_lossy (pending s), utf8_default).

(** All the text of a stream that arrives as [chunks] and then ends. *)
Fixpoint utf8_run (s : Utf8Stream) (chunks : list (list ascii)) : list ascii :=
  match chunks with
  | [] => (utf8_finish s).1
  | c :: chunks => let '(text, s) := utf8_push s c in text ++ utf8_run s chunks
  end.

(** ** One character is local *)

Lemma scan_tail_whole n seen l k :
  scan_tail n seen l = Whole k →
  k = seen + n ∧ n ≤ length l ∧ ∀ x, scan_tail n seen (take n l ++ x) = Whole k.
Proof.
  revert seen l. induction n as [|n IH]; intros seen l; cbn.
  { intros [= <-]. split_and!; [lia..|done]. }
  destruct l as [|c l]; [done|]. destruct (continuation c) eqn:Hc; [|done].
  intros (-> & ? & Hx)%IH. cbn. split_and!; [lia..|]. intros x. by rewrite Hc.
Qed.

Lemma scan_tail_invalid n seen l k x :
  scan_tail n seen l = Invalid k →
  seen ≤ k < seen + n ∧ k - seen < length l ∧ scan_tail n seen (l ++ x) = Invalid k.
Proof.
  revert seen l. induction n as [|n IH]; intros seen l; cbn; [done|].
  destruct l as [|c l]; [done|]. cbn. destruct (continuation c).
  - intros (? & ? & ->)%IH. split_and!; [lia..|done].
  - intros [= <-]. split_and!; [lia..|done].
Qed.

Lemma scan_tail_cut n seen l : scan_tail n seen l = CutOff → length l < n.
Proof.
  revert seen l. induction n as [|n IH]; intros seen l; cbn; [done|].
  destruct l as [|c l]; cbn; [lia|]. destruct (continuation c); [|done]. intros ?%IH. lia.
Qed.

Lemma utf8_char_width_le c : utf8_char_width c ≤ 4.
Proof. unfold utf8_char_width. repeat case_match; lia. Qed.

Lemma scan_whole l n :
  scan_char l = Whole n →
  0 < n ≤ length l ∧ ∀ x, scan_char (take n l ++ x) = Whole n.
Proof.
  destruct l as [|c l]; [done|]. cbn.
  destruct (utf8_char_width c) as [|[|w]] eqn:Hw; [done|intros [= <-]; cbn|].
  { split; [lia|]. intros x. by rewrite Hw. }
  destruct l as [|d l]; [done|]. destruct (second_ok c d) eqn:Hd; [|done].
  intros (-> & ? & Hx)%scan_tail_whole. cbn in *. split; [lia|].
  intros x. rewrite Hw, Hd. apply Hx.
Qed.

Lemma scan_invalid l n x :
  scan_char l = Invalid n → 0 < n ≤ length l ∧ scan_char (l ++ x) = Invalid n.
Proof.
  destruct l as [|c l]; [done|]. cbn.
  destruct (utf8_char_width c) as [|[|w]] eqn:Hw; [intros [= <-]; split; [lia|done]|done|].
  destruct l as [|d l]; [done|]. cbn. destruct (second_ok c d) eqn:Hd.
  - intros (? & ? & ->)%(scan_tail_invalid _ _ _ _ x). split; [lia|done].
  - intros [= <-]. split; [lia|done].
Qed.

(** What waits for the next chunk is shorter than one character. *)
Lemma scan_cut l : scan_char l = CutOff → length l ≤ 3.
Proof.
  destruct l as [|c l]; cbn; [lia|].
  pose proof (utf8_char_width_le c). destruct (utf8_char_width c) as [|[|w]]; [done..|].
  destruct l as [|d l]; cbn; [lia|]. destruct (second_ok c d); [|done].
  intros ?%scan_tail_cut. lia.
Qed.

(** ** Text *)

Inductive valid_utf8 : list ascii → Prop :=
| valid_nil : valid_utf8 []
| valid_char c l : scan_char c = Whole (length c) → valid_utf8 l → valid_utf8 (c ++ l).

Lemma valid_app l m : valid_utf8 l → valid_utf8 m → valid_utf8 (l ++ m).
Proof. induction 1; [done|]. intros. rewrite <- app_assoc. constructor; auto. Qed.

Lemma valid_replacement : valid_utf8 REPLACEMENT_CHARACTER.
Proof. rewrite <- (app_nil_r REPLACEMENT_CHARACTER). by repeat constructor. Qed.

Lemma scan_whole_take l n : scan_char l = Whole n → scan_char (take n l) = Whole (length (take n l)).
Proof.
  intros [? Hx]%scan_whole. specialize (Hx []). rewrite app_nil_r in Hx.
  rewrite Hx, length_take. f_equal. lia.
Qed.

Lemma scan_char_app c l : scan_char c = Whole (length c) → scan_char (c ++ l) = Whole (length c).
Proof. intros [_ Hx]%scan_whole. specialize (Hx l). by rewrite take_ge in Hx by lia. Qed.

Lemma validate_from_spec fuel upto l :
  length l < fuel →
  match validate_from fuel upto l with
  | None => valid_utf8 l
  | Some e => ∃ v a, l = v ++ a ∧ valid_utf8 v ∧ valid_up_to e = upto + length v ∧ a ≠ [] ∧
      scan_char a = match error_len e with Some n => Invalid n | None => CutOff end
  end.
Proof.
  revert upto l. induction fuel as [|fuel IH]; intros upto l Hf; cbn; [lia|].
  destruct l as [|c l]; [constructor|]. destruct (scan_char (c :: l)) as [n|n|] eqn:Hs.
  - pose proof (scan_whole_take _ _ Hs) as Ht. pose proof (scan_whole _ _ Hs) as [Hn _].
    specialize (IH (upto + n) (drop n (c :: l)) ltac:(rewrite length_drop; lia)).
    destruct (validate_from fuel _ _) as [e|].
    + destruct IH as (v & a & Hd & Hv & Hup & Ha & Hsc).
      exists (take n (c :: l) ++ v), a. rewrite <- app_assoc, <- Hd, take_drop.
      rewrite Hup, length_app, length_take. split_and!; [done|by constructor|lia|done|done].
    + rewrite <- (take_drop n (c :: l)). by constructor.
  - exists [], (c :: l). cbn -[scan_char]. split_and!; [done|constructor|lia|done|done].
  - exists [], (c :: l). cbn -[scan_char]. split_and!; [done|constructor|lia|done|done].
Qed.

Lemma from_utf8_spec l :
  match from_utf8 l with
  | None => valid_utf8 l
  | Some e => ∃ v a, l = v ++ a ∧ valid_utf8 v ∧ valid_up_to e = length v ∧ a ≠ [] ∧
      scan_char a = match error_len e with Some n => Invalid n | None => CutOff end
  end.
Proof. apply (validate_from_spec _ 0). lia. Qed.

(** ** Lossy decoding *)

Lemma lossy_from_fuel f g l : length l < f → length l < g → lossy_from f l = lossy_from g l.
Proof.
  revert g l. induction f as [|f IH]; intros g l Hf Hg; [lia|]. destruct g as [|g]; [lia|].
  cbn [lossy_from]. destruct l as [|c l]; [done|]. destruct (scan_char (c :: l)) as [n|n|] eqn:Hs; [| |done].
  - apply scan_whole in Hs as [? _]. f_equal; apply IH; rewrite length_drop; lia.
  - apply (scan_invalid _ _ []) in Hs as [? _]. f_equal; apply IH; rewrite length_drop; lia.
Qed.

(** The equations of the lossy decoder. *)
Lemma lossy_eq l :
  from_utf8_lossy l =
  match l with
  | [] => []
  | _ =>
      match scan_char l with
      | Whole n => take n l ++ from_utf8_lossy (drop n l)
      | Invalid n => REPLACEMENT_CHARACTER ++ from_utf8_lossy (drop n l)
      | CutOff => REPLACEMENT_CHARACTER
      end
  end.
Proof.
  unfold from_utf8_lossy at 1. cbn [lossy_from]. destruct l as [|c l]; [done|].
  destruct (scan_char (c :: l)) as [n|n|] eqn:Hs; [| |done]; f_equal.
  - apply scan_whole in Hs as [? _]. unfold from_utf8_lossy. apply lossy_from_fuel; rewrite ?length_drop; lia.
  - apply (scan_invalid _ _ []) in Hs as [? _]. unfold from_utf8_lossy. apply lossy_from_fuel; rewrite ?length_drop; lia.
Qed.

Lemma lossy_valid l m : valid_utf8 l → from_utf8_lossy (l ++ m) = l ++ from_utf8_lossy m.
Proof.
  induction 1 as [|c l Hc Hl IH]; [done|].
  pose proof (scan_whole _ _ Hc) as [Hlen _]. rewrite <- !app_assoc, lossy_eq.
  rewrite (scan_char_app _ _ Hc), take_app_length, drop_app_length, IH.
  destruct c; [cbn in Hlen; lia|done].
Qed.

Lemma lossy_invalid a n m :
  scan_char a = Invalid n →
  from_utf8_lossy (a ++ m) = REPLACEMENT_CHARACTER ++ from_utf8_lossy (drop n a ++ m).
Proof.
  intros Hs. apply (scan_invalid _ _ m) in Hs as [Hn Hs].
  destruct a as [|c a]; [cbn in Hn; lia|]. rewrite lossy_eq, Hs, drop_app_le by lia. done.
Qed.

(** ** The loop *)

(** What the loop has written and kept decodes like its input, whatever comes
    next; and it only keeps the start of one character. *)
Lemma push_loop_spec fuel text rest out left :
  length rest < fuel → valid_utf8 text → push_loop fuel text rest = (out, left) →
  valid_utf8 out ∧ (left = [] ∨ scan_char left = CutOff) ∧
  ∀ m, text ++ from_utf8_lossy (rest ++ m) = out ++ from_utf8_lossy (left ++ m).
Proof.
  revert text rest. induction fuel as [|fuel IH]; intros text rest Hf Ht; [lia|]; cbn [push_loop].
  pose proof (from_utf8_spec rest) as Hspec. destruct (from_utf8 rest) as [e|].
  2: { intros [= <- <-]. split_and!; [by apply valid_app|by left|].
       intros m. by rewrite lossy_valid, app_assoc. }
  destruct Hspec as (v & a & -> & Hv & -> & Ha & Hs).
  assert (from_utf8_lossy v = v) as Hlv.
  { rewrite <- (app_nil_r v) at 1. rewrite lossy_valid by done.
    by rewrite (lossy_eq []), app_nil_r. }
  rewrite take_app_length, drop_app_length, Hlv. destruct (error_len e) as [bad|].
  - pose proof (scan_invalid _ _ [] Hs) as [Hbad _]. rewrite length_app in Hf.
    intros Hloop. apply IH in Hloop as (Ho & Hleft & Heq).
    2: { rewrite length_drop. lia. }
    2: { repeat apply valid_app; auto using valid_replacement. }
    split_and!; [done..|]. intros m.
    by rewrite <- Heq, <- app_assoc, lossy_valid, (lossy_invalid _ _ m Hs), <- !app_assoc.
  - intros [= <- <-]. split_and!; [by apply valid_app|by right|].
    intros m. by rewrite <- app_assoc, lossy_valid, app_assoc.
Qed.

Lemma utf8_push_spec s chunk out s' :
  utf8_push s chunk = (out, s') →
  valid_utf8 out ∧ length (pending s') ≤ 3 ∧
  ∀ m, from_utf8_lossy (pending s ++ chunk ++ m) = out ++ from_utf8_lossy (pending s' ++ m).
Proof.
  unfold utf8_push. destruct (push_loop _ _ _) as [text rest] eqn:Hloop. intros [= <- <-].
  apply push_loop_spec in Hloop as (Hv & Hrest & Heq); [|lia|constructor].
  split_and!; [done|destruct Hrest as [->|?%scan_cut]; cbn in *; lia|].
  intros m. cbn [pending]. rewrite <- (Heq m). by rewrite app_assoc.
Qed.

(** Chunk boundaries do not matter.  However a byte stream is cut into
    chunks, the text of the pushes and the finish together is the lossy
    decoding of the whole stream; if the stream is valid UTF-8 it is the
    stream itself. *)
Theorem utf8_chunks_irrelevant chunks :
  utf8_run utf8_default chunks = from_utf8_lossy (concat chunks) ∧
  (from_utf8 (concat chunks) = None → utf8_run utf8_default chunks = concat chunks).
Proof.
  assert (∀ s, utf8_run s chunks = from_utf8_lossy (pending s ++ concat chunks)) as Hrun.
  { induction chunks as [|c chunks IH]; intros s; cbn [utf8_run concat utf8_finish fst].
    { by rewrite app_nil_r. }
    destruct (utf8_push s c) as [text s'] eqn:Hp.
    apply utf8_push_spec in Hp as (_ & _ & ->). by rewrite IH. }
  rewrite Hrun. split; [done|]. intros Hv. pose proof (from_utf8_spec (concat chunks)) as Hs.
  rewrite Hv in Hs. cbn [pending utf8_default app]. rewrite <- (app_nil_r (concat chunks)) at 1.
  rewrite lossy_valid by done. by rewrite (lossy_eq []), app_nil_r.
Qed.

(** Every push returns valid text at once, and what waits for the next
    chunk is at most three bytes. *)
Theorem utf8_push_valid s chunk :
  let '(out, s') := utf8_push s chunk in
  from_utf8 out = None ∧ length (pending s') ≤ 3.
Proof.
  destruct (utf8_push s chunk) as [out s'] eqn:Hp.
  apply utf8_push_spec in Hp as (Hv & ? & _). split; [|done].
  pose proof (from_utf8_spec out) as Hs. destruct (from_utf8 out) as [e|]; [|done].
  destruct Hs as (v & a & -> & Hv' & _ & Ha & Hs). exfalso.
  clear -Hv Hv' Ha Hs. induction Hv' as [|c v Hc Hv' IH].
  - cbn in Hv. inversion Hv as [Heq|c l Hc Hl Heq]; [by rewrite <- Heq in Ha|]; subst.
    rewrite (scan_char_app _ _ Hc) in Hs. by destruct (error_len e).
  - apply IH. rewrite <- app_assoc in Hv. inversion Hv as [Heq|c' l Hc' Hl Heq].
    { apply (f_equal length) in Heq. rewrite length_app in Heq. cbn in Heq.
      apply scan_whole in Hc. lia. }
    pose proof (scan_char_app _ (v ++ a) Hc) as H1. pose proof (scan_char_app _ l Hc') as H2.
    rewrite Heq, H1 in H2. injection H2 as H2. apply app_inj_1 in Heq as [_ ->]; [done|lia].
Qed.
