(* ===== verification/Tokio.v ===== *)
(** * Tokio: the interfaces of the runtime's primitives

    The daemon builds on [tokio::sync].  Its code is not part of the
    repository, so each primitive is a type class: the operations the sources
    call, abstract views that name what the documentation talks about (the
    messages queued, the messages ever sent), and the
    documented laws.  The components are written and verified against the
    classes.  Each class has a reference instance, which shows that the laws
    can be met and lets the components run. *)

From stdpp Require Import base list numbers option gmap.
From Stdlib Require Import Lia.
From S2P Require Import Prelude.

(** ** Bounded multi-producer channels, [tokio::sync::mpsc]

    [try_send] is the state after a successful [Sender::try_send], or [None]
    when it returns an error: the buffer is full or the receiver is gone. *)
Class Mpsc (M ch : Type) := {
  mpsc_channel : nat → ch;
  is_closed : ch → bool;
  try_send : ch → M → option ch;
  queued : ch → list M;
  capacity : ch → nat;
}.

Class MpscLaws (M ch : Type) `{Mpsc M ch} : Prop := {
  channel_open cap : is_closed (mpsc_channel (M:=M) cap) = false;
  channel_empty cap : queued (mpsc_channel cap) = [];
  channel_capacity cap : capacity (mpsc_channel (M:=M) cap) = cap;
  try_send_queued c c' m : try_send c m = Some c' → queued c' = queued c ++ [m];
  try_send_closed c c' m : try_send c m = Some c' → is_closed c' = false;
  try_send_capacity c c' m : try_send c m = Some c' → capacity c' = capacity c;
  try_send_fails c m :
    try_send c m = None ↔ is_closed c = true ∨ length (queued c) = capacity c;
}.

(** ** Broadcast channels, [tokio::sync::broadcast]

    A send never waits.  A receiver that falls behind by more than the
    channel holds is told how many values it lost and then continues with the
    oldest value still held. *)
Inductive recv_result (M : Type) :=
| RecvOk (m : M)
| RecvLagged (missed : nat)
| RecvEmpty
| RecvClosed.
Arguments RecvOk {M} m.
Arguments RecvLagged {M} missed.
Arguments RecvEmpty {M}.
Arguments RecvClosed {M}.

Class Broadcast (M ch rx : Type) := {
  bc_channel : nat → ch;
  bc_send : ch → M → ch;
  bc_subscribe : ch → rx;
  bc_try_recv : ch → rx → recv_result M * rx;
  (** Every value ever sent, and the index of the receiver's next value. *)
  sent : ch → list M;
  cursor : rx → nat;
}.

Class BroadcastLaws (M ch rx : Type) `{Broadcast M ch rx} : Prop := {
  bc_channel_sent cap : sent (bc_channel cap) = [];
  bc_send_sent c m : sent (bc_send c m) = sent c ++ [m];
  bc_subscribe_cursor c : cursor (bc_subscribe c) = length (sent c);
  bc_recv_ok c r m r' : bc_try_recv c r = (RecvOk m, r') →
    sent c !! cursor r = Some m ∧ cursor r' = S (cursor r);
  bc_recv_lagged c r n r' : bc_try_recv c r = (RecvLagged n, r') →
    0 < n ∧ cursor r' = cursor r + n ∧ cursor r' ≤ length (sent c);
  bc_recv_empty c r r' : bc_try_recv c r = (RecvEmpty, r') →
    length (sent c) ≤ cursor r ∧ cursor r' = cursor r;
  bc_recv_closed c r r' : bc_try_recv c r = (RecvClosed, r') →
    length (sent c) ≤ cursor r ∧ cursor r' = cursor r;
}.

(** ** Reference instances *)

Record ref_mpsc (M : Type) := RefMpsc {
  rm_cap : nat;
  rm_queue : list M;
  rm_closed : bool;
}.
Arguments RefMpsc {M}.
Arguments rm_cap {M}.
Arguments rm_queue {M}.
Arguments rm_closed {M}.

#[export] Instance ref_mpsc_ops M : Mpsc M (ref_mpsc M) := {
  mpsc_channel cap := RefMpsc cap [] false;
  is_closed := rm_closed;
  try_send c m :=
    if rm_closed c then None
    else if decide (length (rm_queue c) = rm_cap c) then None
    else Some (RefMpsc (rm_cap c) (rm_queue c ++ [m]) false);
  queued := rm_queue;
  capacity := rm_cap;
}.
#[export] Instance ref_mpsc_laws M : MpscLaws M (ref_mpsc M).
Proof.
  split; try done; cbn.
  1-3: intros c c' m; repeat case_match; naive_solver.
  intros c m. repeat case_match; naive_solver.
Qed.

Record ref_bc (M : Type) := RefBc { rb_cap : nat; rb_sent : list M }.
Arguments RefBc {M}.
Arguments rb_cap {M}.
Arguments rb_sent {M}.

#[export] Instance ref_bc_ops M : Broadcast M (ref_bc M) nat := {
  bc_channel cap := RefBc cap [];
  bc_send c m := RefBc (rb_cap c) (rb_sent c ++ [m]);
  bc_subscribe c := length (rb_sent c);
  bc_try_recv c r :=
    if decide (r + rb_cap c < length (rb_sent c))
    then let oldest := length (rb_sent c) - rb_cap c in (RecvLagged (oldest - r), oldest)
    else match rb_sent c !! r with
         | Some m => (RecvOk m, S r)
         | None => (RecvEmpty, r)
         end;
  sent := rb_sent;
  cursor r := r;
}.

#[export] Instance ref_bc_laws M : BroadcastLaws M (ref_bc M) nat.
Proof.
  split; try done; cbn.
  all: intros c r; repeat case_match; try done.
  - intros ? ? [= <- <-]. done.
  - intros ? ? [= <- <-]. lia.
  - intros ? [= <-]. split; [|done]. by apply lookup_ge_None.
Qed.
