(* ===== verification/Net.v ===== *)
(** * Net: IP addresses

    [std::net::IpAddr] as the sources use it: parsing, printing and the
    address classes.  An IPv4 address is its four octets, an IPv6 address its
    eight 16-bit segments; [ip_ok] is the range of each part. *)

From stdpp Require Import base list numbers option strings pretty gmap.
From Stdlib Require Import ZArith Lia Ascii.
From S2P Require Import Prelude Text.

Inductive IpAddr :=
| V4 (a b c d : Z)
| V6 (segments : list Z).
#[export] Instance IpAddr_eq_dec : EqDecision IpAddr.
Proof. solve_decision. Defined.

Definition LOCALHOST : IpAddr := V4 127 0 0 1.

Definition octet (z : Z) : Prop := (0 ≤ z < 256)%Z.
Definition ip_ok (ip : IpAddr) : Prop :=
  match ip with
  | V4 a b c d => octet a ∧ octet b ∧ octet c ∧ octet d
  | V6 segs => length segs = 8 ∧ Forall in_u16 segs
  end.

(** [IpAddr::is_unspecified]. *)
Definition is_unspecified (ip : IpAddr) : bool :=
  match ip with
  | V4 a b c d => (a =? 0)%Z && (b =? 0)%Z && (c =? 0)%Z && (d =? 0)%Z
  | V6 segs => forallb (Z.eqb 0) segs
  end.

(** ** The parser of [core::net]

    Each reader consumes a prefix of the input or fails. *)

Definition digit_value (radix : Z) (c : ascii) : option Z :=
  let n := Z.of_nat (byte_of c) in
  let v := if (48 <=? n)%Z && (n <=? 57)%Z then Some (n - 48)%Z
           else if (97 <=? n)%Z && (n <=? 102)%Z then Some (n - 87)%Z
           else if (65 <=? n)%Z && (n <=? 70)%Z then Some (n - 55)%Z
           else None in
  match v with Some d => if (d <? radix)%Z then Some d else None | None => None end.

(** The digits of [read_number]: every digit found is consumed, and too many
    digits or a value past [bound] fail the read. *)
Fixpoint read_digits (radix bound : Z) (max_digits count : nat) (acc : Z) (l : list ascii)
    : option (Z * nat * list ascii) :=
  match l with
  | [] => Some (acc, count, [])
  | c :: rest =>
      match digit_value radix c with
      | None => Some (acc, count, l)
      | Some d =>
          let acc' := (acc * radix + d)%Z in
          if (acc' <? bound)%Z && (count <? max_digits)
          then read_digits radix bound max_digits (S count) acc' rest
          else None
      end
  end.
Definition read_number (radix bound : Z) (max_digits : nat) (allow_zero_prefix : bool)
    (l : list ascii) : option (Z * list ascii) :=
  match read_digits radix bound max_digits 0 0 l with
  | None => None
  | Some (v, count, rest) =>
      let leading_zero := match l with "0"%char :: _ => true | _ => false end in
      if (count =? 0) || (negb allow_zero_prefix && leading_zero && (1 <? count))
      then None else Some (v, rest)
  end.

Definition read_char (c : ascii) (l : list ascii) : option (list ascii) :=
  match l with d :: rest => if decide (c = d) then Some rest else None | [] => None end.
(** [read_separator]: the separator is read before every part but the first. *)
Definition read_sep {A} (sep : ascii) (index : nat)
    (inner : list ascii → option (A * list ascii)) (l : list ascii) : option (A * list ascii) :=
  if index =? 0 then inner l
  else match read_char sep l with Some rest => inner rest | None => None end.

Definition read_octet : list ascii → option (Z * list ascii) := read_number 10 256 3 false.
Definition read_ipv4 (l : list ascii) : option (Z * Z * Z * Z * list ascii) :=
  '(a, l) ← read_octet l;
  '(b, l) ← read_sep "."%char 1 read_octet l;
  '(c, l) ← read_sep "."%char 2 read_octet l;
  '(d, l) ← read_sep "."%char 3 read_octet l;
  Some (a, b, c, d, l).

Definition read_group : list ascii → option (Z * list ascii) := read_number 16 65536 4 true.
Definition read_ipv4_groups (l : list ascii) : option (list Z * list ascii) :=
  '(a, b, c, d, l) ← read_ipv4 l;
  Some ([a * 256 + b; c * 256 + d]%Z, l).

(** [read_groups]: up to [left] groups from index [i] on, an embedded IPv4
    address counting for the last two.  The flag says that one was read. *)
Fixpoint read_groups (left i : nat) (l : list ascii) : list Z * bool * list ascii :=
  match left with
  | 0 => ([], false, l)
  | S left' =>
      let v4 := if decide (0 < left') then read_sep ":"%char i read_ipv4_groups l else None in
      match v4 with
      | Some (gs, rest) => (gs, true, rest)
      | None =>
          match read_sep ":"%char i read_group l with
          | Some (g, rest) =>
              let '(gs, v4, rest) := read_groups left' (S i) rest in (g :: gs, v4, rest)
          | None => ([], false, l)
          end
      end
  end.

Definition read_ipv6 (l : list ascii) : option (list Z * list ascii) :=
  let '(head, head_ipv4, l1) := read_groups 8 0 l in
  if decide (length head = 8) then Some (head, l1)
  else if head_ipv4 then None
  else
    l2 ← read_char ":"%char l1;
    l3 ← read_char ":"%char l2;
    let '(tail, _, l4) := read_groups (8 - (length head + 1)) 0 l3 in
    Some (head ++ replicate (8 - length head - length tail) 0%Z ++ tail, l4).

Definition read_ip_addr (l : list ascii) : option (IpAddr * list ascii) :=
  match read_ipv4 l with
  | Some (a, b, c, d, rest) => Some (V4 a b c d, rest)
  | None => '(segs, rest) ← read_ipv6 l; Some (V6 segs, rest)
  end.

(** [str::parse::<IpAddr>]: the whole input must be consumed. *)
Definition parse_ip (s : string) : option IpAddr :=
  match read_ip_addr (chars s) with Some (ip, []) => Some ip | _ => None end.

(** ** Printing *)

Definition hex_digit (z : Z) : string :=
  default "" (["0"; "1"; "2"; "3"; "4"; "5"; "6"; "7"; "8"; "9"; "a"; "b"; "c"; "d"; "e"; "f"]
    !! Z.to_nat z).
(** A 16-bit value in lowercase hexadecimal without leading zeros. *)
Fixpoint hex_of (fuel : nat) (z : Z) (acc : string) : string :=
  match fuel with
  | 0 => acc
  | S fuel =>
      let acc := hex_digit (z mod 16) +:+ acc in
      if (z / 16 =? 0)%Z then acc else hex_of fuel (z / 16) acc
  end.
Definition hex16 (z : Z) : string := hex_of 4 z "".

(** The longest run of zero segments from index [i] on, the first of several:
    its start and length, when it has at least two. *)
Fixpoint zero_run (segs : list Z) : nat :=
  match segs with 0%Z :: rest => S (zero_run rest) | _ => 0 end.
Fixpoint longest_run (i : nat) (segs : list Z) (best : nat * nat) : nat * nat :=
  match segs with
  | [] => best
  | _ :: rest =>
      let n := zero_run segs in
      longest_run (S i) rest (if best.2 <? n then (i, n) else best)
  end.
Definition ip_display (ip : IpAddr) : string :=
  let v4 a b c d := join "." (pretty <$> [a; b; c; d]) in
  match ip with
  | V4 a b c d => v4 a b c d
  | V6 [0%Z; 0%Z; 0%Z; 0%Z; 0%Z; 65535%Z; x; y] =>
      "::ffff:" +:+ v4 (x / 256)%Z (x mod 256)%Z (y / 256)%Z (y mod 256)%Z
  | V6 segs =>
      let '(start, n) := longest_run 0 segs (0, 0) in
      if 1 <? n
      then join ":" (hex16 <$> take start segs) +:+ "::" +:+
             join ":" (hex16 <$> drop (start + n) segs)
      else join ":" (hex16 <$> segs)
  end.

(** ** Lemmas *)

Lemma digit_value_nonneg radix c d : digit_value radix c = Some d → (0 ≤ d < radix)%Z.
Proof.
  unfold digit_value. repeat case_match; intros; simplify_eq; lia.
Qed.
Lemma read_digits_range radix bound maxd count acc l v n rest :
  (0 ≤ acc < bound)%Z → (0 ≤ radix)%Z →
  read_digits radix bound maxd count acc l = Some (v, n, rest) → (0 ≤ v < bound)%Z.
Proof.
  revert count acc. induction l as [|c l IH]; cbn; intros count acc Hacc Hr.
  { by intros [= <- <- <-]. }
  destruct (digit_value radix c) as [d|] eqn:Hd; [|by intros [= <- <- <-]].
  apply digit_value_nonneg in Hd. case_match; [|done]. apply IH; [|done]. nia.
Qed.
Lemma read_number_range radix bound maxd z l v rest :
  (0 < bound)%Z → (0 ≤ radix)%Z →
  read_number radix bound maxd z l = Some (v, rest) → (0 ≤ v < bound)%Z.
Proof.
  intros ? ?. unfold read_number. destruct (read_digits _ _ _ _ _ _) as [[[w n] r]|] eqn:E; [|done].
  apply read_digits_range in E; [|lia|done]. case_match; [done|]. by intros [= <- <-].
Qed.
Lemma read_sep_Some {A} sep i (inner : list ascii → option (A * list ascii)) l x rest :
  read_sep sep i inner l = Some (x, rest) → ∃ l', inner l' = Some (x, rest).
Proof. unfold read_sep. repeat case_match; naive_solver. Qed.

Lemma read_ipv4_ok l a b c d rest :
  read_ipv4 l = Some (a, b, c, d, rest) → ip_ok (V4 a b c d).
Proof.
  unfold read_ipv4. intros H.
  repeat match goal with
  | H : _ ≫= _ = Some _ |- _ => apply bind_Some in H as ([? ?] & ? & H)
  | H : Some _ = Some _ |- _ => injection H as <- <- <- <- <-
  end.
  repeat match goal with
  | H : read_sep _ _ _ _ = Some _ |- _ => apply read_sep_Some in H as [? H]
  | H : read_octet _ = Some _ |- _ => apply read_number_range in H; [|lia..]
  end.
  by split_and!.
Qed.
Lemma read_groups_ok left i l gs v4 rest :
  read_groups left i l = (gs, v4, rest) → Forall in_u16 gs ∧ length gs ≤ left.
Proof.
  revert i l gs. induction left as [|left IH]; cbn [read_groups]; intros i l gs.
  { intros [= <- <- <-]. by split; [constructor|]. }
  destruct (if decide (0 < left) then _ else None) as [[gs4 rest4]|] eqn:E.
  - intros [= <- <- <-]. case_decide; [|done]. apply read_sep_Some in E as [l' E].
    unfold read_ipv4_groups in E. apply bind_Some in E as ([[[[a b] c] d] r] & Hr & [= <- <-]).
    apply read_ipv4_ok in Hr as (Ha & Hb & Hc & Hd). unfold octet in *.
    split; [|cbn; lia]. repeat constructor; lia.
  - destruct (read_sep _ i read_group l) as [[g rest']|] eqn:Eg.
    + destruct (read_groups left (S i) rest') as [[gs' v4'] r'] eqn:Er. intros [= <- <- <-].
      apply IH in Er as [? ?]. apply read_sep_Some in Eg as [l' Eg].
      apply read_number_range in Eg; [|lia..]. split; [by constructor|cbn; lia].
    + intros [= <- <- <-]. split; [constructor|cbn; lia].
Qed.
Lemma read_ipv6_ok l segs rest : read_ipv6 l = Some (segs, rest) → ip_ok (V6 segs).
Proof.
  unfold read_ipv6. destruct (read_groups 8 0 l) as [[head v4] l1] eqn:E1.
  apply read_groups_ok in E1 as [Hh Hlen]. case_decide; [by intros [= <- <-]|].
  case_match; [done|]. intros (l2 & _ & (l3 & _ & Hl)%bind_Some)%bind_Some.
  destruct (read_groups _ 0 l3) as [[tail ?] l4] eqn:E2.
  apply read_groups_ok in E2 as [Ht Hlt]. injection Hl as <- <-. split.
  - rewrite !length_app, length_replicate. lia.
  - rewrite !Forall_app. split_and!; [done| |done]. by apply Forall_replicate.
Qed.

(** A parsed address has every octet or segment in range. *)
Lemma parse_ip_ok s ip : parse_ip s = Some ip → ip_ok ip.
Proof.
  unfold parse_ip, read_ip_addr. destruct (read_ipv4 (chars s)) as [[[[[a b] c] d] r]|] eqn:E.
  - case_match; [|done]. intros [= <-]. by eapply read_ipv4_ok.
  - destruct (read_ipv6 (chars s)) as [[segs r]|] eqn:E6; cbn; [|done].
    case_match; [|done]. intros [= <-]. by eapply read_ipv6_ok.
Qed.

Example parse_v4 : parse_ip "10.0.0.1" = Some (V4 10 0 0 1).
Proof. reflexivity. Qed.
Example parse_v4_leading_zero : parse_ip "10.0.0.01" = None.
Proof. reflexivity. Qed.
Example parse_v6_loopback : parse_ip "::1" = Some (V6 [0; 0; 0; 0; 0; 0; 0; 1]%Z).
Proof. reflexivity. Qed.
Example parse_v6_mapped :
  parse_ip "::ffff:127.0.0.1" = Some (V6 [0; 0; 0; 0; 0; 65535; 32512; 1]%Z).
Proof. reflexivity. Qed.
Example display_v6 : ip_display (V6 [8193; 3512; 0; 0; 1; 0; 0; 1]%Z) = "2001:db8::1:0:0:1".
Proof. vm_compute. reflexivity. Qed.

(** A fact about one octet, by running through its 256 values. *)
Lemma octet_forall (P : Z → Prop) `{!∀ z, Decision (P z)} :
  bool_decide (Forall P (seqZ 0 256)) = true → ∀ z, octet z → P z.
Proof.
  intros HP%bool_decide_eq_true_1 z Hz. rewrite Forall_forall in HP.
  apply HP, elem_of_seqZ. unfold octet in Hz. lia.
Qed.
