(* ===== verification/Protocol.v ===== *)
(** * Protocol: the daemon's data types

    Models [ward-core/src/protocol.rs]: the records and enums that cross the
    layers, the limit updates, the restart policies and [ApiError].  A
    [SystemTime] or [Duration] is its count of nanoseconds, and integers are
    [Z] in the range of their Rust type. *)

From stdpp Require Import base list numbers option strings pretty gmap.
From Stdlib Require Import ZArith Lia Ascii.
From S2P Require Import Prelude Text Net.

(** ** Errors *)

Inductive ApiError :=
| SandboxNotFound (id : string)
| VolumeNotFound (id : string)
| VolumeInUse (message : string)
| SnapshotNotFound (id : string)
| ProcessNotFound (pid : string)
| ImageNotFound (message : string)
| Unavailable (message : string)
| PathNotFound (message : string)
| InvalidRequest (message : string)
| GuestIo (message : string)
| BackendErr (message : string)
| Internal (message : string)
| NameInUse (name : string) (id : option string)
| PermissionDenied (message : string)
| AmbiguousReference (message : string)
| ResourceExhausted (message : string)
| AddressInUse (address : string).
#[export] Instance ApiError_eq_dec : EqDecision ApiError.
Proof. solve_decision. Defined.

(** The kinds of [std::io::ErrorKind] the daemon tells apart. *)
Inductive IoKind :=
| StorageFull | IoPermissionDenied | IoNotFound | IoInvalidInput | IoBrokenPipe | IoTimedOut
| IoUnexpectedEof | IoInvalidData | IoUnsupported | IoOther | IoElse.
#[export] Instance IoKind_eq_dec : EqDecision IoKind.
Proof. solve_decision. Defined.
Record IoError := mkIo { io_kind : IoKind; io_text : string }.

(** [ApiError::from_io]. *)
Definition from_io (context : string) (e : IoError) : ApiError :=
  match io_kind e with
  | StorageFull => ResourceExhausted "no space left on device, free disk space and retry"
  | IoPermissionDenied =>
      PermissionDenied "the daemon cannot write to its data directory, check its ownership and permissions"
  | _ => Internal (context +:+ ": " +:+ io_text e)
  end.

(** ** Egress and communication policies *)

Inductive EgressMode := EgressDeny | EgressAllowlist | EgressOpen.
#[export] Instance EgressMode_eq_dec : EqDecision EgressMode.
Proof. solve_decision. Defined.
Record EgressPolicy := mkEgress { egress_mode : EgressMode; domains : list string }.
Definition egress_default : EgressPolicy := mkEgress EgressDeny [].

Inductive CommunicationMode := CommDeny | CommGroup.
#[export] Instance CommunicationMode_eq_dec : EqDecision CommunicationMode.
Proof. solve_decision. Defined.
Record CommunicationPolicy := mkComms { comm_mode : CommunicationMode; group : option string }.
#[export] Instance CommunicationPolicy_eq_dec : EqDecision CommunicationPolicy.
Proof. solve_decision. Defined.
Definition comms_default : CommunicationPolicy := mkComms CommDeny None.

(** ** Restart policies *)

Inductive RestartKind := RestartNo | OnFailure | Always | UnlessStopped.
#[export] Instance RestartKind_eq_dec : EqDecision RestartKind.
Proof. solve_decision. Defined.

Definition restart_kind_str (k : RestartKind) : string :=
  match k with
  | RestartNo => "no"
  | OnFailure => "on-failure"
  | Always => "always"
  | UnlessStopped => "unless-stopped"
  end.

Record RestartPolicy := mkRestart { kind : RestartKind; max_retries : Z }.
#[export] Instance RestartPolicy_eq_dec : EqDecision RestartPolicy.
Proof. solve_decision. Defined.
Definition restart_default : RestartPolicy := mkRestart RestartNo 0.

(** [RestartPolicy::from_parts]. *)
Definition from_parts (name : string) (retries : Z) : result RestartPolicy string :=
  let kind :=
    if decide (name = "" ∨ name = "no") then Ok RestartNo
    else if decide (name = "on-failure") then Ok OnFailure
    else if decide (name = "always") then Ok Always
    else if decide (name = "unless-stopped") then Ok UnlessStopped
    else Err ("invalid restart policy '" +:+ name +:+ "'") in
  let? k := kind in
  if (0 <? retries)%Z && bool_decide (k ≠ OnFailure)
  then Err ("maximum retry count cannot be used with restart policy '" +:+
            restart_kind_str k +:+ "'")
  else Ok (mkRestart k retries).

(** [RestartPolicy::parse]: [NAME] or [on-failure:COUNT]. *)
Definition restart_parse (text : string) : result RestartPolicy string :=
  match split_once ":"%char text with
  | None => from_parts text 0
  | Some (name, count) =>
      let? n := ok_or (parse_u32 count)
        ("invalid restart policy '" +:+ text +:+ "': the retry count is not a number") in
      from_parts name n
  end.

(** The [--restart] spelling of a policy, for the round trip below. *)
Definition restart_show (p : RestartPolicy) : string :=
  if (max_retries p =? 0)%Z then restart_kind_str (kind p)
  else restart_kind_str (kind p) +:+ ":" +:+ pretty (max_retries p).

(** ** Resource limits *)

Record ResourceLimits := mkLimits {
  cpus : Z;
  memory_mb : Z;
  pids_max : Z;
  timeout_seconds : Z;
  exited_ttl_seconds : Z;
  nano_cpus : Z;
}.
Definition limits_default : ResourceLimits := mkLimits 0 0 0 0 0 0.

(** [config::DefaultLimits]. *)
Record DefaultLimits := mkDefaults { d_cpus : Z; d_memory_mb : Z; d_pids_max : Z }.

Definition BYTES_PER_MIB : Z := 1024 * 1024.
Definition NANOS_PER_CPU : Z := 1000000000.

Record CgroupLimits := mkCgroup {
  memory_swap_bytes : Z;
  memory_reservation_bytes : Z;
  cpu_shares : Z;
  cpuset_cpus : string;
  cpu_period : Z;
  cpu_quota : Z;
}.
Definition cgroup_default : CgroupLimits := mkCgroup 0 0 0 "" 0 0.

Record CgroupUpdate := mkCgroupUpdate {
  u_memory_swap_bytes : option Z;
  u_memory_reservation_bytes : option Z;
  u_cpu_shares : option Z;
  u_cpuset_cpus : option string;
  u_cpu_period : option Z;
  u_cpu_quota : option Z;
}.
#[export] Instance CgroupUpdate_eq_dec : EqDecision CgroupUpdate.
Proof. solve_decision. Defined.
Definition cgroup_update_default : CgroupUpdate := mkCgroupUpdate None None None None None None.

(** [CgroupLimits::updated]. *)
Definition cgroup_updated (l : CgroupLimits) (u : CgroupUpdate) : CgroupLimits :=
  mkCgroup
    (default (memory_swap_bytes l) (u_memory_swap_bytes u))
    (default (memory_reservation_bytes l) (u_memory_reservation_bytes u))
    (default (cpu_shares l) (u_cpu_shares u))
    (default (cpuset_cpus l) (u_cpuset_cpus u))
    (default (cpu_period l) (u_cpu_period u))
    (default (cpu_quota l) (u_cpu_quota u)).

(** [CgroupUpdate::undoing]. *)
Definition cgroup_undoing (u : CgroupUpdate) (previous : CgroupLimits) : CgroupUpdate :=
  mkCgroupUpdate
    ((λ _, memory_swap_bytes previous) <$> u_memory_swap_bytes u)
    ((λ _, memory_reservation_bytes previous) <$> u_memory_reservation_bytes u)
    ((λ _, cpu_shares previous) <$> u_cpu_shares u)
    ((λ _, cpuset_cpus previous) <$> u_cpuset_cpus u)
    ((λ _, cpu_period previous) <$> u_cpu_period u)
    ((λ _, cpu_quota previous) <$> u_cpu_quota u).

Record LimitsUpdate := mkLimitsUpdate {
  u_memory_mb : option Z;
  u_nano_cpus : option Z;
  u_pids_max : option Z;
  u_cgroup : CgroupUpdate;
}.
#[export] Instance LimitsUpdate_eq_dec : EqDecision LimitsUpdate.
Proof. solve_decision. Defined.
Definition limits_update_default : LimitsUpdate :=
  mkLimitsUpdate None None None cgroup_update_default.

(** [LimitsUpdate::is_empty]. *)
Definition limits_update_is_empty (u : LimitsUpdate) : bool :=
  bool_decide (u = limits_update_default).

(** [LimitsUpdate::whole_cpus]: [div_ceil], clamped to [u32::MAX]. *)
Definition whole_cpus (nanos : Z) : Z :=
  default (2 ^ 32 - 1)%Z (try_u32 ((nanos + (NANOS_PER_CPU - 1)) / NANOS_PER_CPU)%Z).

(** [ResourceLimits::updated]. *)
Definition limits_updated (l : ResourceLimits) (u : LimitsUpdate) : ResourceLimits :=
  mkLimits
    (match u_nano_cpus u with
     | Some n => if (0 <? n)%Z then whole_cpus n else cpus l
     | None => cpus l
     end)
    (default (memory_mb l) (u_memory_mb u))
    (default (pids_max l) (u_pids_max u))
    (timeout_seconds l)
    (exited_ttl_seconds l)
    (default (nano_cpus l) (u_nano_cpus u)).

(** [ResourceLimits::with_defaults]. *)
Definition with_defaults (l : ResourceLimits) (d : DefaultLimits) : ResourceLimits :=
  let or_default requested def := if (requested =? 0)%Z then def else requested in
  mkLimits
    (or_default (cpus l) (d_cpus d))
    (or_default (memory_mb l) (d_memory_mb d))
    (or_default (pids_max l) (d_pids_max d))
    (timeout_seconds l) (exited_ttl_seconds l) (nano_cpus l).

(** The update that puts back what [u] changes: the record [restore_limits]
    of [manager/update.rs] builds. *)
Definition limits_undo (u : LimitsUpdate) (previous : ResourceLimits) (cg : CgroupLimits)
    : LimitsUpdate :=
  mkLimitsUpdate
    ((λ _, memory_mb previous) <$> u_memory_mb u)
    ((λ _, nano_cpus previous) <$> u_nano_cpus u)
    ((λ _, pids_max previous) <$> u_pids_max u)
    (cgroup_undoing (u_cgroup u) cg).

(** ** Guest options, ports and mounts *)

Record TmpfsMount := mkTmpfs { tmpfs_path : string; tmpfs_options : string }.
Record Ulimit := mkUlimit { ulimit_name : string; soft : Z; hard : Z }.
Record Healthcheck := mkHealthcheck {
  test : list string;
  interval_ns : Z;
  timeout_ns : Z;
  start_period_ns : Z;
  retries : Z;
}.
Record GuestOptions := mkGuest {
  read_only_rootfs : bool;
  tmpfs : list TmpfsMount;
  shm_size_bytes : Z;
  extra_hosts : list string;
  dns_search : list string;
  dns_options : list string;
  ulimits : list Ulimit;
  group_add : list string;
  cgroup : CgroupLimits;
  healthcheck : option Healthcheck;
}.
Definition guest_default : GuestOptions := mkGuest false [] 0 [] [] [] [] [] cgroup_default None.

Definition DEFAULT_SHM_SIZE_BYTES : Z := 64 * 1024 * 1024.
(** [GuestOptions::shm_size]. *)
Definition shm_size (g : GuestOptions) : Z :=
  if (shm_size_bytes g =? 0)%Z then DEFAULT_SHM_SIZE_BYTES else shm_size_bytes g.

Inductive PortProtocol := Tcp | Udp.
#[export] Instance PortProtocol_eq_dec : EqDecision PortProtocol.
Proof. solve_decision. Defined.
Definition port_protocol_str (p : PortProtocol) : string :=
  match p with Tcp => "tcp" | Udp => "udp" end.

Record PublishedPort := mkPort {
  host_ip : IpAddr;
  host_port : Z;
  host_port_end : Z;
  container_port : Z;
  protocol : PortProtocol;
}.
#[export] Instance PublishedPort_eq_dec : EqDecision PublishedPort.
Proof. solve_decision. Defined.

Record Mount := mkMount {
  source : string;
  target : string;
  readonly : bool;
  volume : option string;
  anonymous : bool;
}.
#[export] Instance Mount_eq_dec : EqDecision Mount.
Proof. solve_decision. Defined.

(** ** Sandboxes *)

Record SandboxSpec := mkSpec {
  name : string;
  command : list string;
  entrypoint_len : nat;
  workdir : string;
  user : string;
  tty : bool;
  auto_remove : bool;
  published_ports : list PublishedPort;
  image_digest : string;
  labels : gmap string string;
  hostname : string;
  stop_signal : string;
  stop_timeout : option Z;
  restart : RestartPolicy;
  guest : GuestOptions;
}.

Definition DEFAULT_HOSTNAME_LEN : nat := 12.
(** [SandboxSpec::hostname_for]; an id is ASCII, so characters are bytes. *)
Definition hostname_for (spec : SandboxSpec) (id : string) : string :=
  if is_empty (hostname spec) then of_chars (take DEFAULT_HOSTNAME_LEN (chars id))
  else hostname spec.

Record CreateOpts := mkOpts {
  image : string;
  mounts : list Mount;
  volume_ids : list string;
  egress : EgressPolicy;
  resources : ResourceLimits;
  env : gmap string string;
  from_snapshot : option string;
  comms : CommunicationPolicy;
  spec : SandboxSpec;
}.

Inductive EndReason := REExited | RESignal | REOom | RETimeout | REEgressPolicy.
#[export] Instance EndReason_eq_dec : EqDecision EndReason.
Proof. solve_decision. Defined.
Definition end_reason_str (r : EndReason) : string :=
  match r with
  | REExited => "exited"
  | RESignal => "signal"
  | REOom => "oom"
  | RETimeout => "timeout"
  | REEgressPolicy => "egress-policy"
  end.

Inductive SandboxStatus := Creating | Running | Stopped | Failed | Exited | Stopping.
#[export] Instance SandboxStatus_eq_dec : EqDecision SandboxStatus.
Proof. solve_decision. Defined.
(** [format!("{state:?}").to_lowercase()]. *)
Definition status_str (s : SandboxStatus) : string :=
  match s with
  | Creating => "creating" | Running => "running" | Stopped => "stopped"
  | Failed => "failed" | Exited => "exited" | Stopping => "stopping"
  end.

(** ** Restart policies: spelling and parsing *)

(** A policy [from_parts] can build: a retry limit belongs to [on-failure]. *)
Definition restart_ok (p : RestartPolicy) : Prop :=
  in_u32 (max_retries p) ∧ (kind p ≠ OnFailure → max_retries p = 0%Z).

Lemma from_parts_kind_str k n :
  (k ≠ OnFailure → n = 0%Z) → from_parts (restart_kind_str k) n = Ok (mkRestart k n).
Proof.
  intros Hn. destruct k; try by rewrite Hn.
  change (from_parts _ n) with
    (if (0 <? n)%Z && false
     then Err ("maximum retry count cannot be used with restart policy 'on-failure'")
     else Ok (mkRestart OnFailure n) : result RestartPolicy string).
  by rewrite andb_false_r.
Qed.

Lemma from_parts_ok name n p : in_u32 n → from_parts name n = Ok p → restart_ok p ∧ max_retries p = n.
Proof.
  unfold from_parts, restart_ok. intros Hn Hok. inv_ok.
  destruct ((0 <? n)%Z && _) eqn:Hc; [done|]. injection Hok as <-. cbn.
  split_and!; [done..| |done]. intros Hk. unfold in_u32 in Hn.
  rewrite (bool_decide_eq_true_2 _ Hk) in Hc. lia.
Qed.

Lemma split_once_kind_str k : split_once ":"%char (restart_kind_str k) = None.
Proof. by destruct k. Qed.

(** The restart policy a user writes and the one the daemon keeps agree:
    printing a policy and parsing it back gives the same policy, and whatever
    [parse] accepts is a policy with a retry limit only on [on-failure]. *)
Theorem restart_parse_show p :
  (restart_ok p → restart_parse (restart_show p) = Ok p) ∧
  (∀ text, restart_parse text = Ok p → restart_ok p).
Proof.
  split.
  - intros [Hr Hk]. destruct p as [k n]. cbn in *. unfold restart_show. cbn.
    destruct (Z.eqb_spec n 0) as [->|Hn].
    { unfold restart_parse. rewrite split_once_kind_str. by apply from_parts_kind_str. }
    assert (k = OnFailure) as -> by (destruct (decide (k = OnFailure)); naive_solver).
    unfold restart_parse.
    rewrite (proj2 (split_once_Some ":"%char _ "on-failure" (pretty n))).
    + rewrite parse_u32_pretty by done. cbn. by apply (from_parts_kind_str OnFailure).
    + split; [done|]. by eapply (bool_decide_eq_true_1 (":"%char ∉ _)).
  - intros text. unfold restart_parse. destruct (split_once _ _) as [[nm count]|].
    + intros Hok. inv_ok. destruct (parse_u32 count) as [n|] eqn:E; [|done].
      cbn in *. inv_ok. subst. by eapply from_parts_ok; [eapply parse_u32_range|].
    + by intros [? _]%from_parts_ok.
Qed.

(** ** Limit updates *)

(** Taking back a limit update restores every value it changed: applying
    [u] and then the update that undoes it gives the limits from before, for
    the cgroup options and for the memory, CPU and pids limits. *)
Theorem limits_undo_restores l cg u :
  cgroup_updated (cgroup_updated cg (u_cgroup u)) (u_cgroup (limits_undo u l cg)) = cg ∧
  let back := limits_updated (limits_updated l u) (limits_undo u l cg) in
  memory_mb back = memory_mb l ∧ nano_cpus back = nano_cpus l ∧ pids_max back = pids_max l.
Proof.
  destruct u as [[] [] [] [[] [] [] [] [] []]], cg; cbn; auto.
Qed.

(** The CPU count a CPU limit asks for is the least one that honours it,
    and never leaves [u32]. *)
Theorem whole_cpus_least n :
  (0 ≤ n)%Z → in_u32 (whole_cpus n) ∧
  ((n ≤ (2 ^ 32 - 1) * NANOS_PER_CPU)%Z →
    (n ≤ whole_cpus n * NANOS_PER_CPU)%Z ∧
    ∀ k, (n ≤ k * NANOS_PER_CPU)%Z → (whole_cpus n ≤ k)%Z).
Proof.
  intros Hn. unfold whole_cpus, try_u32, NANOS_PER_CPU, in_u32.
  pose proof (Z.div_mod (n + (1000000000 - 1)) 1000000000) as Hdm.
  pose proof (Z.mod_pos_bound (n + (1000000000 - 1)) 1000000000) as Hb.
  case_match; cbn; split; try lia; intros; split; intros; lia.
Qed.

Lemma whole_cpus_least_witness :
  (0 ≤ 1500000000)%Z ∧ whole_cpus 1500000000 = 2%Z ∧ in_u32 (whole_cpus 1500000000).
Proof. split; [lia|]. split; [reflexivity|]. exact (proj1 (whole_cpus_least 1500000000 ltac:(lia))). Defined.
