(* ===== verification/Signal.v ===== *)
(** * Signal: signal names and numbers

    Models [ward-core/src/signal.rs]. *)

From stdpp Require Import base list numbers option strings pretty gmap.
From Stdlib Require Import ZArith Lia Ascii.
From S2P Require Import Prelude Text.

Definition SIGKILL : Z := 9.
Definition SIGTERM : Z := 15.
Definition MAX_SIGNAL : Z := 64.

Definition SIGNALS : list (string * Z) :=
  [("HUP", 1); ("INT", 2); ("QUIT", 3); ("ILL", 4); ("TRAP", 5); ("ABRT", 6); ("BUS", 7);
   ("FPE", 8); ("KILL", 9); ("USR1", 10); ("SEGV", 11); ("USR2", 12); ("PIPE", 13);
   ("ALRM", 14); ("TERM", 15); ("CHLD", 17); ("CONT", 18); ("STOP", 19); ("TSTP", 20);
   ("TTIN", 21); ("TTOU", 22); ("URG", 23); ("XCPU", 24); ("XFSZ", 25); ("VTALRM", 26);
   ("PROF", 27); ("WINCH", 28); ("IO", 29); ("PWR", 30); ("SYS", 31)]%Z.

(** [SIGNALS.iter().find(..).map(..)]. *)
Fixpoint find_signal (known : list (string * Z)) (name : string) : option Z :=
  match known with
  | [] => None
  | (k, n) :: known => if decide (k = name) then Some n else find_signal known name
  end.

(** Accept [TERM], [SIGTERM], [term] or a number from 1 to 64. *)
Definition parse (text : string) : option Z :=
  match parse_i32 text with
  | Some number => if (1 <=? number)%Z && (number <=? MAX_SIGNAL)%Z then Some number else None
  | None =>
      let upper := to_ascii_uppercase text in
      find_signal SIGNALS (default upper (strip_prefix "SIG" upper))
  end.

(** ** Properties *)

Lemma find_signal_elem known name n : find_signal known name = Some n → (name, n) ∈ known.
Proof.
  induction known as [|[k m] known IH]; cbn; [done|].
  case_decide; [intros [= ->]; subst; left|intros ?; right; by apply IH].
Qed.

Lemma SIGNALS_range : Forall (λ s, 1 ≤ s.2 ≤ MAX_SIGNAL)%Z SIGNALS.
Proof. by apply (bool_decide_eq_true_1 (Forall _ _)). Qed.

(** Whatever text names a signal names one Linux accepts, from 1 to 64;
    a number is taken as it is, and a [SIG] prefix changes nothing. *)
Theorem signal_parse_sound :
  (∀ text n, parse text = Some n → (1 ≤ n ≤ MAX_SIGNAL)%Z) ∧
  (∀ n, (1 ≤ n ≤ MAX_SIGNAL)%Z → parse (pretty n) = Some n) ∧
  (∀ name n, (name, n) ∈ SIGNALS →
    parse name = Some n ∧ parse ("SIG" +:+ name) = Some n ∧
    parse (to_ascii_lowercase name) = Some n ∧
    parse (to_ascii_lowercase ("SIG" +:+ name)) = Some n).
Proof.
  split; [|split].
  - intros text n. unfold parse. destruct (parse_i32 text) as [k|].
    + case_match; [|done]. intros [= <-]. lia.
    + intros H%find_signal_elem.
      by apply (proj1 (Forall_forall _ _) SIGNALS_range) in H.
  - intros n Hn. unfold MAX_SIGNAL in *.
    assert (Forall (λ n, parse (pretty n) = Some n) (seqZ 1 64)) as Hall.
    { by apply (bool_decide_eq_true_1 (Forall _ _)). }
    apply (proj1 (Forall_forall _ _) Hall). apply elem_of_seqZ. lia.
  - intros name n Hin.
    assert (Forall (λ s : string * Z, parse s.1 = Some s.2 ∧ parse ("SIG" +:+ s.1) = Some s.2 ∧
      parse (to_ascii_lowercase s.1) = Some s.2 ∧
      parse (to_ascii_lowercase ("SIG" +:+ s.1)) = Some s.2) SIGNALS) as Hall.
    { by apply (bool_decide_eq_true_1 (Forall _ _)). }
    by apply (proj1 (Forall_forall _ _) Hall) in Hin.
Qed.
