(* ===== verification/Restart.v ===== *)
(** * Restart: when and how fast an ended sandbox is started again

    Models [ward-core/src/sandbox/restart.rs].  Durations are nanoseconds. *)

From stdpp Require Import base list numbers option strings gmap.
From Stdlib Require Import ZArith Lia.
From S2P Require Import Prelude Protocol.

Definition INITIAL_DELAY : Z := 100 * 1000000.
Definition MAX_DELAY : Z := 60 * 1000000000.
Definition STABLE_RUN : Z := 10 * 1000000000.

Record RestartRequest := mkRequest {
  req_id : string;
  req_exit_code : Z;
  ran_for : Z;
  req_finished_at : option Z;
}.

Definition wants_restart (policy : RestartPolicy) (exit_code restarts_so_far : Z) : bool :=
  match kind policy with
  | RestartNo => false
  | Always | UnlessStopped => true
  | OnFailure =>
      negb (exit_code =? 0)%Z &&
      ((max_retries policy =? 0)%Z || (restarts_so_far <? max_retries policy)%Z)
  end.

Definition restarts_at_boot (policy : RestartPolicy) (manually_stopped : bool) : bool :=
  match kind policy with
  | Always => true
  | UnlessStopped => negb manually_stopped
  | RestartNo | OnFailure => false
  end.

Definition next_delay (previous : option Z) (ran : Z) : Z :=
  match previous with
  | Some previous => if (ran <? STABLE_RUN)%Z then Z.min (previous * 2) MAX_DELAY else INITIAL_DELAY
  | None => INITIAL_DELAY
  end.

(** The delays of a sequence of runs, as [restart_after_exit] chains them. *)
Fixpoint delays_after (previous : option Z) (runs : list Z) : option Z :=
  match runs with
  | [] => previous
  | ran :: runs => delays_after (Some (next_delay previous ran)) runs
  end.

Lemma delays_after_app p r1 r2 : delays_after p (r1 ++ r2) = delays_after (delays_after p r1) r2.
Proof. revert p. induction r1 as [|r r1 IH]; intros p; cbn; [done|]. apply IH. Qed.

Lemma delays_after_range previous runs d :
  (∀ p, previous = Some p → INITIAL_DELAY ≤ p ≤ MAX_DELAY)%Z →
  delays_after previous runs = Some d → (INITIAL_DELAY ≤ d ≤ MAX_DELAY)%Z.
Proof.
  revert previous. induction runs as [|r runs IH]; cbn; intros previous Hp; [auto|].
  apply IH. intros p [= <-]. unfold next_delay, INITIAL_DELAY, MAX_DELAY in *.
  destruct previous as [p|]; [specialize (Hp p eq_refl)|]; repeat case_match; lia.
Qed.

(** Restarts back off as documented.  After any history of runs the wait
    is between 100 ms and a minute; after [S k] short runs in a row it is
    100 ms doubled [k] times, capped at a minute; and a run of at least ten
    seconds starts the back-off over. *)
Theorem restart_backoff :
  (∀ runs d, delays_after None runs = Some d → (INITIAL_DELAY ≤ d ≤ MAX_DELAY)%Z) ∧
  (∀ k r, (r < STABLE_RUN)%Z →
    delays_after None (replicate (S k) r) =
      Some (Z.min (INITIAL_DELAY * 2 ^ Z.of_nat k) MAX_DELAY)) ∧
  (∀ runs r, (STABLE_RUN ≤ r)%Z → delays_after None (runs ++ [r]) = Some INITIAL_DELAY).
Proof.
  split; [|split].
  - intros runs d. apply delays_after_range. done.
  - intros k r Hr. rewrite replicate_S_end || idtac.
    induction k as [|k IH]; [done|].
    rewrite replicate_S_end, delays_after_app, IH. cbn -[Z.min Z.pow Z.mul Z.of_nat].
    rewrite (proj2 (Z.ltb_lt _ _) Hr). f_equal.
    rewrite Nat2Z.inj_succ, Z.pow_succ_r by lia. unfold INITIAL_DELAY, MAX_DELAY. lia.
  - intros runs r Hr. rewrite delays_after_app. cbn. f_equal. unfold next_delay.
    destruct (delays_after None runs); [|done].
    by rewrite (proj2 (Z.ltb_ge _ _) Hr).
Qed.

(** An [on-failure] policy with a cap restarts a sandbox at most that
    often and only after a failure, [no] never does, and a manual stop keeps
    every policy but [always] from starting it at boot. *)
Theorem restart_policy_limits policy code restarts manual :
  (wants_restart policy code restarts = true → kind policy = OnFailure →
    code ≠ 0%Z ∧ (max_retries policy ≠ 0 → restarts < max_retries policy)%Z) ∧
  (kind policy = RestartNo → wants_restart policy code restarts = false) ∧
  (restarts_at_boot policy manual = true → manual = true → kind policy = Always).
Proof.
  unfold wants_restart, restarts_at_boot. destruct (kind policy); split_and!; try done;
    try (intros; lia); by destruct manual.
Qed.
