(* ===== verification/Output.v ===== *)
(** * Output: the main process's output buffer and its live feeds

    Models [OutputBuffer], [BufferState] and [OutputFeed] of
    [ward-core/src/sandbox/manager.rs], and the wait status decoding next to
    them.  Byte offsets and lengths ([usize], [u64]) are [nat]: the offset of
    a byte is the count of bytes pushed before it, and no run reaches 2^64.
    A time ([chrono::DateTime]) is its count of nanoseconds. *)

From stdpp Require Import base list numbers option strings pretty gmap.
From Stdlib Require Import ZArith Lia.
From S2P Require Import Prelude Text Tokio.

Abbreviation bytes := (list Byte.byte).
#[export] Instance byte_eq_dec : EqDecision Byte.byte.
Proof. intros a b. destruct (Byte.byte_eq_dec a b); [by left|by right]. Defined.

(** ** Data *)

Inductive RawStream := Stdout | Stderr.
#[export] Instance RawStream_eq_dec : EqDecision RawStream.
Proof. solve_decision. Defined.

Record OutputChunk := mkChunk {
  stream : RawStream;
  chunk_bytes : bytes;
  at_ : Z;
}.

(** A live chunk with the stream offset just past its last byte. *)
Record SeqChunk := mkSeq { seq_chunk : OutputChunk; seq_end : nat }.

Definition OUTPUT_CHUNK_OVERHEAD : nat := 64.
Definition OUTPUT_MERGE_LIMIT : nat := 4096.
Definition MAIN_OUTPUT_LIVE_CHUNKS : nat := 64.

Definition chunk_len (c : OutputChunk) : nat := length (chunk_bytes c).

(** [timestamp_millis] of both times agree. *)
Definition same_millisecond (a b : Z) : bool := (a / 1000000 =? b / 1000000)%Z.

(** [OutputChunk { bytes: c.bytes.slice(n..), ..c }]. *)
Definition slice_from (n : nat) (c : OutputChunk) : OutputChunk :=
  mkChunk (stream c) (drop n (chunk_bytes c)) (at_ c).

Section buffer.
Context {ch rx : Type} `{Broadcast SeqChunk ch rx}.

Record BufferState := mkBuffer {
  chunks : list OutputChunk;
  len : nat;
  total : nat;
  live : ch;
}.

(** Stream offset of the first retained byte. *)
Definition retained_start (s : BufferState) : nat :=
  total s - sum_list (chunk_len <$> chunks s).

Definition buffer_new : BufferState :=
  mkBuffer [] 0 0 (bc_channel MAIN_OUTPUT_LIVE_CHUNKS).

(** Whether [chunk] is merged into the newest retained chunk [back]. *)
Definition merges (back chunk : OutputChunk) : bool :=
  bool_decide (stream back = stream chunk) &&
  same_millisecond (at_ back) (at_ chunk) &&
  (chunk_len back <? OUTPUT_MERGE_LIMIT).

(** The first half of [push]: merge into the newest chunk, or append. *)
Definition append_chunk (cs : list OutputChunk) (n : nat) (chunk : OutputChunk)
    : list OutputChunk * nat :=
  match last cs with
  | Some back =>
      if merges back chunk
      then (removelast cs ++
              [mkChunk (stream back) (chunk_bytes back ++ chunk_bytes chunk) (at_ back)],
            n + chunk_len chunk)
      else (cs ++ [chunk], n + (chunk_len chunk + OUTPUT_CHUNK_OVERHEAD))
  | None => (cs ++ [chunk], n + (chunk_len chunk + OUTPUT_CHUNK_OVERHEAD))
  end.

(** The [while state.len > self.cap] loop.  Slicing the front brings the
    length to exactly the cap, which ends the loop. *)
Fixpoint evict (cap : nat) (n : nat) (cs : list OutputChunk) : list OutputChunk * nat :=
  match cs with
  | [] => ([], n)
  | front :: rest =>
      if decide (cap < n) then
        let excess := n - cap in
        if decide (excess < chunk_len front)
        then (slice_from excess front :: rest, n - excess)
        else evict cap (n - (chunk_len front + OUTPUT_CHUNK_OVERHEAD)) rest
      else (cs, n)
  end.

Definition push (cap : nat) (s : BufferState) (chunk : OutputChunk) : BufferState :=
  let total' := total s + chunk_len chunk in
  let '(cs, n) := append_chunk (chunks s) (len s) chunk in
  let '(cs, n) := evict cap n cs in
  mkBuffer cs n total' (bc_send (live s) (mkSeq chunk total')).

(** ** Feeds *)

Record OutputFeed := mkFeed {
  feed_rx : rx;
  next : nat;
  pending : list OutputChunk;
}.

Definition subscribe (s : BufferState) : list OutputChunk * OutputFeed :=
  (chunks s, mkFeed (bc_subscribe (live s)) (total s) []).

(** The chunks of [cs], which begin at offset [at], cut to start at
    [from]: the loop of [read_from]. *)
Fixpoint read_chunks (from at_off : nat) (cs : list OutputChunk) : list OutputChunk :=
  match cs with
  | [] => []
  | chunk :: cs =>
      let fin := at_off + chunk_len chunk in
      let rest := read_chunks from fin cs in
      if decide (from < fin) then slice_from (from - at_off) chunk :: rest else rest
  end.

Definition read_from (s : BufferState) (from : nat) : list OutputChunk * nat * nat :=
  let start := retained_start s in
  (read_chunks from start (chunks s), start - from, total s).

(** Queue the part of a live chunk that was not handed out yet. *)
Definition accept (f : OutputFeed) (seq : SeqChunk) : OutputFeed :=
  if decide (seq_end seq ≤ next f) then f
  else
    let start := seq_end seq - chunk_len (seq_chunk seq) in
    let skip := next f - start in
    mkFeed (feed_rx f) (seq_end seq) (pending f ++ [slice_from skip (seq_chunk seq)]).

Definition LOST_OUTPUT_NOTICE_PREFIX : string :=
  "[ward: output lost, reader fell behind by ".

Definition newline : string := String (Ascii.ascii_of_nat 10) EmptyString.

(** The bytes of the warning line for [lost] dropped bytes. *)
Definition lost_notice (lost : nat) : bytes :=
  String.list_byte_of_string
    (LOST_OUTPUT_NOTICE_PREFIX +:+ pretty lost +:+ " bytes" +:+ newline).

(** Queue the missed bytes from the buffer, and a warning line for any the
    buffer no longer holds. *)
Definition recover (now : Z) (s : BufferState) (f : OutputFeed) : OutputFeed :=
  let '(cs, lost, fin) := read_from s (next f) in
  let notice := if decide (0 < lost) then [mkChunk Stderr (lost_notice lost) now] else [] in
  mkFeed (feed_rx f) fin (pending f ++ notice ++ cs).

(** [OutputFeed::try_recv]: [None] is out of fuel, [Some (None, _)] that no
    chunk is available. *)
Fixpoint try_recv (fuel : nat) (now : Z) (s : BufferState) (f : OutputFeed)
    : option (option OutputChunk * OutputFeed) :=
  match fuel with
  | 0 => None
  | S fuel =>
      match pending f with
      | chunk :: rest => Some (Some chunk, mkFeed (feed_rx f) (next f) rest)
      | [] =>
          let '(res, r) := bc_try_recv (live s) (feed_rx f) in
          let f := mkFeed r (next f) [] in
          match res with
          | RecvOk seq => try_recv fuel now s (accept f seq)
          | RecvLagged _ => try_recv fuel now s (recover now s f)
          | RecvEmpty | RecvClosed => Some (None, f)
          end
      end
  end.
End buffer.
Arguments BufferState : clear implicits.
Arguments OutputFeed : clear implicits.

(** ** Wait statuses *)

Definition WAIT_STATUS_EXIT_SHIFT : Z := 8.
Definition WAIT_STATUS_SIGNAL_MASK : Z := 127.
Definition WAIT_STATUS_EXIT_MASK : Z := 255.
Definition SIGNAL_EXIT_BASE : Z := 128.

(** Turn a raw [wait(2)] status into the exit code a shell would report. *)
Definition decode_wait_status (raw : Z) : Z :=
  let signal := Z.land raw WAIT_STATUS_SIGNAL_MASK in
  if (signal =? 0)%Z
  then Z.land (Z.shiftr raw WAIT_STATUS_EXIT_SHIFT) WAIT_STATUS_EXIT_MASK
  else (SIGNAL_EXIT_BASE + signal)%Z.

(** Raw [wait(2)] status of an exit event, built from the exit code when the
    backend reports no raw status: [code << 8] on an [i32]. *)
Definition event_wait_status (wait_status exit_code : option Z) : option Z :=
  match wait_status with
  | Some raw => Some raw
  | None => (λ code, wrap_i32 (Z.shiftl code WAIT_STATUS_EXIT_SHIFT)) <$> exit_code
  end.

(** ** What a buffer and a feed mean

    [all] is every byte pushed so far, in order. *)

Definition data (cs : list OutputChunk) : bytes := concat (chunk_bytes <$> cs).
Definition charge (cs : list OutputChunk) : nat :=
  sum_list ((λ c, chunk_len c + OUTPUT_CHUNK_OVERHEAD) <$> cs).
Definition stream_of (qs : list SeqChunk) : bytes := data (seq_chunk <$> qs).

(** What a reader sees: bytes of the stream, or a warning about a gap. *)
Inductive item := Data (b : bytes) | Lost (n : nat).

Definition renders (i : item) (c : OutputChunk) : Prop :=
  match i with
  | Data b => chunk_bytes c = b
  | Lost n => stream c = Stderr ∧ chunk_bytes c = lost_notice n
  end.

(** [items] is a reading of [all] from offset [from] to offset [to]: each
    [Data] is the bytes found there and each [Lost n] passes over exactly [n]
    bytes. *)
Fixpoint covers (all : bytes) (from to : nat) (items : list item) : Prop :=
  match items with
  | [] => from = to
  | Data b :: l =>
      (∃ pre post, all = pre ++ b ++ post ∧ length pre = from) ∧
      covers all (from + length b) to l
  | Lost n :: l => 0 < n ∧ covers all (from + n) to l
  end.

Lemma data_cons c cs : data (c :: cs) = chunk_bytes c ++ data cs.
Proof. done. Qed.
Lemma data_app cs1 cs2 : data (cs1 ++ cs2) = data cs1 ++ data cs2.
Proof. unfold data. by rewrite fmap_app, concat_app. Qed.
Lemma data_singleton c : data [c] = chunk_bytes c.
Proof. unfold data. cbn. apply app_nil_r. Qed.
Lemma length_data cs : length (data cs) = sum_list (chunk_len <$> cs).
Proof. induction cs as [|c cs IH]; [done|]. rewrite data_cons, length_app. cbn. by rewrite IH. Qed.
Lemma charge_cons c cs : charge (c :: cs) = chunk_len c + OUTPUT_CHUNK_OVERHEAD + charge cs.
Proof. done. Qed.
Lemma charge_app cs1 cs2 : charge (cs1 ++ cs2) = charge cs1 + charge cs2.
Proof. induction cs1 as [|c cs1 IH]; [done|]. cbn [app]. rewrite !charge_cons, IH. lia. Qed.
Lemma charge_singleton c : charge [c] = chunk_len c + OUTPUT_CHUNK_OVERHEAD.
Proof. unfold charge. cbn. lia. Qed.
Lemma stream_of_app qs1 qs2 : stream_of (qs1 ++ qs2) = stream_of qs1 ++ stream_of qs2.
Proof. unfold stream_of. by rewrite fmap_app, data_app. Qed.
Lemma stream_of_take_S qs i q :
  qs !! i = Some q →
  stream_of (take (S i) qs) = stream_of (take i qs) ++ chunk_bytes (seq_chunk q).
Proof.
  intros Hi. rewrite (take_S_r _ _ _ Hi), stream_of_app. f_equal. apply data_singleton.
Qed.
Lemma length_stream_take_le qs i : length (stream_of (take i qs)) ≤ length (stream_of qs).
Proof. rewrite <- (take_drop i qs) at 2. rewrite stream_of_app, length_app. lia. Qed.
#[export] Hint Rewrite data_app data_singleton charge_app charge_singleton : ward.

Lemma covers_app all a b c l1 l2 :
  covers all a b l1 → covers all b c l2 → covers all a c (l1 ++ l2).
Proof.
  revert a. induction l1 as [|[x|n] l1 IH]; cbn; intros a; [by intros ->|..]; naive_solver.
Qed.
Lemma covers_mono all more a b l : covers all a b l → covers (all ++ more) a b l.
Proof.
  revert a. induction l as [|[x|n] l IH]; cbn; intros a; [done| |naive_solver].
  intros [(pre & post & -> & ?) ?]. split; [|by apply IH].
  exists pre, (post ++ more). by rewrite <- !app_assoc.
Qed.
Lemma renders_data cs : Forall2 renders ((Data ∘ chunk_bytes) <$> cs) cs.
Proof. induction cs; constructor; done. Qed.

(** ** Pushing *)

Lemma append_chunk_data cs n c cs' n' :
  append_chunk cs n c = (cs', n') → data cs' = data cs ++ chunk_bytes c.
Proof.
  unfold append_chunk. destruct (last cs) as [back|] eqn:Hl.
  - apply last_Some in Hl as [cs0 ->]. case_match; intros [= <- <-]; autorewrite with ward; [|done].
    rewrite removelast_last. cbn [chunk_bytes]. by rewrite app_assoc.
  - intros [= <- <-]. by autorewrite with ward.
Qed.

Lemma append_chunk_charge cs n c cs' n' :
  append_chunk cs n c = (cs', n') → n = charge cs → n' = charge cs'.
Proof.
  unfold append_chunk. intros Heq ->. destruct (last cs) as [back|] eqn:Hl.
  - apply last_Some in Hl as [cs0 ->]. rewrite removelast_last in Heq.
    case_match; injection Heq as <- <-; autorewrite with ward; [|lia].
    unfold chunk_len. cbn [chunk_bytes]. rewrite length_app. lia.
  - injection Heq as <- <-. autorewrite with ward. lia.
Qed.

Lemma evict_suffix cap n cs cs' n' :
  evict cap n cs = (cs', n') → data cs' `suffix_of` data cs.
Proof.
  revert n. induction cs as [|front rest IH]; cbn [evict]; intros n.
  { by intros [= <- <-]. }
  case_decide; [|by intros [= <- <-]].
  case_decide; intros Heq.
  - injection Heq as <- <-. rewrite !data_cons. exists (take (n - cap) (chunk_bytes front)).
    cbn. by rewrite app_assoc, take_drop.
  - apply IH in Heq. rewrite data_cons. by apply suffix_app_r.
Qed.

Lemma evict_charge cap n cs cs' n' :
  evict cap n cs = (cs', n') → n = charge cs → n' = charge cs' ∧ n' ≤ cap.
Proof.
  revert n. induction cs as [|front rest IH]; cbn [evict]; intros n.
  { intros [= <- <-] ->. cbn. lia. }
  rewrite charge_cons. case_decide; [|intros [= <- <-] ->; rewrite charge_cons; lia].
  case_decide; intros Heq ->.
  - injection Heq as <- <-. rewrite charge_cons. unfold slice_from, chunk_len in *.
    cbn [chunk_bytes]. rewrite length_drop. lia.
  - apply (IH _ Heq). lia.
Qed.

Section ok.
Context {ch rx : Type} `{BroadcastLaws SeqChunk ch rx}.
Implicit Types (s : BufferState ch) (f : OutputFeed rx).

(** The buffer after [all] was pushed: it retains a suffix of it, charges
    what it retains, and the channel carried every chunk with its offset. *)
Record buffer_ok (all : bytes) s : Prop := {
  ok_total : total s = length all;
  ok_data : data (chunks s) `suffix_of` all;
  ok_len : len s = charge (chunks s);
  ok_sent : stream_of (sent (live s)) = all;
  ok_ends i q : sent (live s) !! i = Some q →
    seq_end q = length (stream_of (take (S i) (sent (live s))));
}.

Lemma buffer_new_ok : buffer_ok [] buffer_new.
Proof. split; cbn; rewrite ?bc_channel_sent; done. Qed.

Lemma push_ok cap all s c :
  buffer_ok all s → buffer_ok (all ++ chunk_bytes c) (push cap s c) ∧ len (push cap s c) ≤ cap.
Proof.
  intros [Ht Hd Hl Hs He]. unfold push.
  destruct (append_chunk (chunks s) (len s) c) as [cs n] eqn:Ha.
  destruct (evict cap n cs) as [cs' n'] eqn:Hv.
  pose proof (append_chunk_charge _ _ _ _ _ Ha Hl) as Hn.
  destruct (evict_charge _ _ _ _ _ Hv Hn) as [Hn' ?].
  split; [|done]. split; cbn; [by rewrite length_app, Ht| |done|..].
  - etrans; [by eapply evict_suffix|]. rewrite (append_chunk_data _ _ _ _ _ Ha).
    by apply suffix_app.
  - rewrite bc_send_sent, stream_of_app, Hs. f_equal. apply data_singleton.
  - rewrite bc_send_sent. intros i q [Hi|[Hi Hq]]%lookup_app_Some.
    + rewrite take_app_le by (apply lookup_lt_Some in Hi; lia). by apply He.
    + apply list_lookup_singleton_Some in Hq as [? <-]. cbn.
      rewrite take_ge by (rewrite length_app; cbn; lia).
      rewrite stream_of_app, Hs, length_app, Ht. f_equal.
      change (stream_of [_]) with (data [c]). by rewrite data_singleton.
Qed.

(** ** Reading back *)

Lemma read_chunks_covers all pre from cs :
  all = pre ++ data cs → from ≤ length all →
  covers all (from `max` length pre) (length all)
    ((Data ∘ chunk_bytes) <$> read_chunks from (length pre) cs).
Proof.
  revert pre. induction cs as [|c cs IH]; intros pre Hall Hfrom.
  { rewrite app_nil_r in Hall. cbn. subst. lia. }
  rewrite data_cons, app_assoc in Hall. cbn [read_chunks].
  specialize (IH (pre ++ chunk_bytes c) Hall Hfrom).
  rewrite length_app in IH. fold (chunk_len c) in IH. case_decide as Hlt.
  - cbn -[slice_from]. split.
    + exists (pre ++ take (from - length pre) (chunk_bytes c)), (data cs). split.
      * rewrite Hall, <- !app_assoc. f_equal. cbn. by rewrite app_assoc, take_drop.
      * rewrite length_app, length_take. unfold chunk_len in *. lia.
    + cbn. rewrite length_drop. unfold chunk_len in *.
      replace (from `max` length pre + _) with (from `max` (length pre + length (chunk_bytes c)))
        by lia. done.
  - replace (from `max` length pre) with (from `max` (length pre + chunk_len c)) by lia. done.
Qed.

Lemma read_from_spec all s from cs lost fin :
  buffer_ok all s → from ≤ length all → read_from s from = (cs, lost, fin) →
  fin = length all ∧ lost = retained_start s - from ∧
  covers all (from + lost) fin ((Data ∘ chunk_bytes) <$> cs).
Proof.
  intros [Ht [pre Hd] _ _ _] Hfrom [= <- <- <-].
  assert (retained_start s = length pre) as Hstart.
  { unfold retained_start. rewrite <- length_data, Ht. rewrite Hd at 1.
    rewrite length_app. lia. }
  split_and!; [done|done|]. rewrite Hstart, Ht.
  replace (from + (length pre - from)) with (from `max` length pre) by lia.
  by apply read_chunks_covers.
Qed.

(** ** Feeds

    [out] is what the reader was handed since it subscribed at [start]. *)
Record feed_ok (all : bytes) s f (start : nat) (out : list OutputChunk) : Prop := {
  ok_next : next f ≤ length all;
  ok_cursor : length (stream_of (take (cursor (feed_rx f)) (sent (live s)))) ≤ next f;
  ok_bound : cursor (feed_rx f) ≤ length (sent (live s));
  ok_read : ∃ items, covers all start (next f) items ∧ Forall2 renders items (out ++ pending f);
}.

Lemma subscribe_ok all s :
  buffer_ok all s → feed_ok all s (subscribe s).2 (length all) [].
Proof.
  intros [Ht _ _ Hs _]. split; cbn; rewrite ?bc_subscribe_cursor, ?Ht; [done| |done|].
  - by rewrite take_ge, Hs by done.
  - exists []. split; [done|constructor].
Qed.

Lemma feed_push_ok cap all s f c start out :
  buffer_ok all s → feed_ok all s f start out →
  feed_ok (all ++ chunk_bytes c) (push cap s c) f start out.
Proof.
  intros Hb [Hn Hc Hbd (items & Hcov & Hr)].
  assert (sent (live (push cap s c)) = sent (live s) ++ [mkSeq c (total s + chunk_len c)]) as Hsent.
  { unfold push. repeat case_match. cbn. by rewrite bc_send_sent. }
  split; rewrite ?Hsent.
  - rewrite length_app. lia.
  - by rewrite take_app_le.
  - rewrite length_app. lia.
  - exists items. split; [by apply covers_mono|done].
Qed.

(** Moving the receiver forward within what the feed has covered. *)
Lemma feed_move_ok all s f start out r :
  feed_ok all s f start out → cursor r ≤ length (sent (live s)) →
  length (stream_of (take (cursor r) (sent (live s)))) ≤ next f →
  feed_ok all s (mkFeed r (next f) (pending f)) start out.
Proof. by intros [? _ _ ?]; split. Qed.

Lemma feed_pop_ok all s f start out c rest :
  feed_ok all s f start out → pending f = c :: rest →
  feed_ok all s (mkFeed (feed_rx f) (next f) rest) start (out ++ [c]).
Proof.
  intros [? ? ? (items & ? & Hr)] Hp. split; cbn; [done..|].
  exists items. split; [done|]. rewrite Hp in Hr. by rewrite <- app_assoc.
Qed.

(** Extending what the feed has queued. *)
Lemma feed_queue_ok all s f start out r n items cs :
  feed_ok all s f start out → next f ≤ n → n ≤ length all →
  cursor r ≤ length (sent (live s)) →
  length (stream_of (take (cursor r) (sent (live s)))) ≤ n →
  covers all (next f) n items → Forall2 renders items cs →
  feed_ok all s (mkFeed r n (pending f ++ cs)) start out.
Proof.
  intros [? ? ? (items0 & ? & ?)] ? ? ? ? ? ?. split; cbn; [done..|].
  exists (items0 ++ items). split; [by eapply covers_app|].
  rewrite app_assoc. by apply Forall2_app.
Qed.

Lemma accept_ok all s f start out q r :
  buffer_ok all s → feed_ok all s f start out →
  sent (live s) !! cursor (feed_rx f) = Some q → cursor r = S (cursor (feed_rx f)) →
  feed_ok all s (accept (mkFeed r (next f) (pending f)) q) start out.
Proof.
  intros Hb Hf Hq Hr. pose proof (ok_ends _ _ Hb _ _ Hq) as Hend.
  pose proof (stream_of_take_S _ _ _ Hq) as HS.
  assert (cursor r ≤ length (sent (live s))) as Hle
    by (rewrite Hr; apply lookup_lt_Some in Hq; lia).
  pose proof (ok_cursor _ _ _ _ _ Hf) as Hcur.
  unfold accept. cbn. case_decide as Hdec.
  { apply feed_move_ok; [done..|]. by rewrite Hr, <- Hend. }
  assert (seq_end q ≤ length all) as Hbound.
  { rewrite Hend, <- (ok_sent _ _ Hb). apply length_stream_take_le. }
  rewrite HS, length_app in Hend.
  set (k := next f - (seq_end q - chunk_len (seq_chunk q))).
  apply (feed_queue_ok _ _ _ _ _ _ _ [Data (drop k (chunk_bytes (seq_chunk q)))] _ Hf);
    [lia|done|done|by rewrite Hr, HS, length_app, Hend| |by repeat constructor].
  cbn. rewrite length_drop. fold (chunk_len (seq_chunk q)) in Hend |- *. split; [|lia].
  set (before := stream_of (take (cursor (feed_rx f)) (sent (live s)))) in *.
  exists (before ++ take k (chunk_bytes (seq_chunk q))),
         (stream_of (drop (S (cursor (feed_rx f))) (sent (live s)))). split.
  - rewrite <- app_assoc, (app_assoc (take _ _)), take_drop, app_assoc, <- HS, <- stream_of_app,
      take_drop. symmetry. apply ok_sent. done.
  - rewrite length_app, length_take. fold (chunk_len (seq_chunk q)). lia.
Qed.

Lemma recover_ok all now s f start out r :
  buffer_ok all s → feed_ok all s f start out → cursor r ≤ length (sent (live s)) →
  feed_ok all s (recover now s (mkFeed r (next f) (pending f))) start out.
Proof.
  intros Hb Hf Hr. unfold recover. cbn [next].
  destruct (read_from s (next f)) as [[cs lost] fin] eqn:E.
  apply (read_from_spec all) in E as (-> & _ & Hcov); [|done|apply Hf].
  assert (length (stream_of (take (cursor r) (sent (live s)))) ≤ length all)
    by (rewrite <- (ok_sent _ _ Hb); apply length_stream_take_le).
  apply (feed_queue_ok _ _ _ _ _ _ _
    ((if decide (0 < lost) then [Lost lost] else []) ++ ((Data ∘ chunk_bytes) <$> cs)) _ Hf);
    [apply Hf|done|done|done| |].
  - case_decide; cbn; [split; [done|exact Hcov]|].
    replace (next f + lost) with (next f) in Hcov by lia. exact Hcov.
  - apply Forall2_app; [|apply renders_data]. by case_decide; repeat constructor.
Qed.

Lemma try_recv_ok fuel all now s f start out res f' :
  buffer_ok all s → feed_ok all s f start out → try_recv fuel now s f = Some (res, f') →
  feed_ok all s f' start (out ++ option_list res).
Proof.
  intros Hb. revert f. induction fuel as [|fuel IH]; cbn [try_recv]; intros f Hf; [done|].
  destruct (pending f) as [|c rest] eqn:Hp.
  2:{ intros [= <- <-]. by eapply feed_pop_ok. }
  destruct (bc_try_recv (live s) (feed_rx f)) as [[q|n| |] r] eqn:Hrecv.
  - apply bc_recv_ok in Hrecv as [Hq Hr]. apply IH.
    rewrite <- Hp. by eapply accept_ok.
  - apply bc_recv_lagged in Hrecv as (_ & _ & Hr). apply IH. rewrite <- Hp. by apply recover_ok.
  - intros [= <- <-]. apply bc_recv_empty in Hrecv as [? Hr]. rewrite app_nil_r, <- Hp.
    apply feed_move_ok; rewrite ?Hr; apply Hf || done.
  - intros [= <- <-]. apply bc_recv_closed in Hrecv as [? Hr]. rewrite app_nil_r, <- Hp.
    apply feed_move_ok; rewrite ?Hr; apply Hf || done.
Qed.

(** Each turn of the loop hands out a queued chunk or moves the receiver
    on, so as many turns as values left, and two more, are enough. *)
Lemma try_recv_terminates now s f fuel :
  length (sent (live s)) - cursor (feed_rx f) + 2 ≤ fuel →
  is_Some (try_recv fuel now s f).
Proof.
  revert f. induction fuel as [|fuel IH]; intros f Hfuel; [lia|]. cbn [try_recv].
  destruct (pending f) as [|c rest] eqn:Hp; [|eauto].
  destruct (bc_try_recv (live s) (feed_rx f)) as [[q|n| |] r] eqn:Hrecv; [| |eauto..].
  - apply bc_recv_ok in Hrecv as [Hq%lookup_lt_Some Hr]. apply IH.
    unfold accept. case_decide; cbn; lia.
  - apply bc_recv_lagged in Hrecv as (? & ? & Hr).
    destruct (read_from s (next f)) as [[cs lost] fin] eqn:E.
    unfold recover. cbn [next feed_rx pending]. rewrite E.
    destruct (decide (length (sent (live s)) - cursor r + 2 ≤ fuel)) as [|].
    + apply IH. cbn. lia.
    + lia.
Qed.
End ok.

(** ** Sessions: one reader beside the pushes *)

Section session.
Context {ch rx : Type} `{BroadcastLaws SeqChunk ch rx}.

Record Session := mkSession {
  pushed : bytes;
  buffer : BufferState ch;
  feed : OutputFeed rx;
  handed_out : list OutputChunk;
}.

Inductive session_step : Session → Session → Prop :=
| step_push cap c S :
    session_step S
      (mkSession (pushed S ++ chunk_bytes c) (push cap (buffer S) c) (feed S) (handed_out S))
| step_recv fuel now S res f' :
    try_recv fuel now (buffer S) (feed S) = Some (res, f') →
    session_step S (mkSession (pushed S) (buffer S) f' (handed_out S ++ option_list res)).

Definition run_pushes (cap : nat) (cs : list OutputChunk) : BufferState ch :=
  foldl (push cap) buffer_new cs.

Definition session_start (cap : nat) (cs : list OutputChunk) : Session :=
  mkSession (data cs) (run_pushes cap cs) (subscribe (run_pushes cap cs)).2 [].

Lemma run_pushes_ok cap cs :
  buffer_ok (data cs) (run_pushes cap cs) ∧ len (run_pushes cap cs) ≤ cap.
Proof.
  induction cs as [|c cs [IH _]] using rev_ind.
  - split; [apply buffer_new_ok|]. cbn. lia.
  - unfold run_pushes. rewrite foldl_snoc, data_app, data_singleton. by apply push_ok.
Qed.

Lemma session_ok cap cs S :
  rtc session_step (session_start cap cs) S →
  buffer_ok (pushed S) (buffer S) ∧
  feed_ok (pushed S) (buffer S) (feed S) (length (data cs)) (handed_out S).
Proof.
  apply (rtc_ind_r (λ S, buffer_ok (pushed S) (buffer S) ∧
    feed_ok (pushed S) (buffer S) (feed S) (length (data cs)) (handed_out S))).
  - pose proof (proj1 (run_pushes_ok cap cs)). split; [done|]. by apply subscribe_ok.
  - intros S1 S2 _ Hstep [Hb Hf]. destruct Hstep as [cap' c S0|fuel now S0 res f' Hres]; cbn.
    + split; [by apply push_ok|by apply feed_push_ok].
    + split; [done|]. by eapply try_recv_ok.
Qed.

(** A reader of the main process's output never misses a byte in
    silence.  Whatever the interleaving of pushes and reads since it
    subscribed, and whatever the channel dropped, the chunks it was handed
    and those queued for it read the byte stream from the offset at which
    it subscribed up to [next], each in its place, except for the gaps that
    a warning line of the exact length announces. *)
Theorem feed_reads_stream cap cs S :
  rtc session_step (session_start cap cs) S →
  ∃ items, covers (pushed S) (length (data cs)) (next (feed S)) items ∧
    Forall2 renders items (handed_out S ++ pending (feed S)) ∧
    next (feed S) ≤ length (pushed S).
Proof.
  intros (_ & Hf)%session_ok. destruct Hf as [Hn _ _ (items & ? & ?)]. eauto.
Qed.

(** The buffer holds the newest bytes of the stream and nothing else,
    never charges more than its cap, and its length counter is exact, for
    any sequence of pushes. *)
Theorem buffer_keeps_newest_within_cap cap cs :
  let s := run_pushes cap cs in
  data (chunks s) `suffix_of` data cs ∧ total s = length (data cs) ∧
  len s = charge (chunks s) ∧ len s ≤ cap.
Proof. cbn. destruct (run_pushes_ok cap cs) as [[] ?]. done. Qed.

(** Reading the buffer from an offset gives exactly the bytes from there
    on that are still retained, and the exact count of those that are not. *)
Theorem read_from_exact cap cs from out lost fin :
  from ≤ length (data cs) →
  read_from (run_pushes cap cs) from = (out, lost, fin) →
  data out = drop (from + lost) (data cs) ∧
  lost = retained_start (run_pushes cap cs) - from ∧ fin = length (data cs).
Proof.
  intros Hfrom Hread. pose proof (proj1 (run_pushes_ok cap cs)) as Hb.
  destruct (read_from_spec _ _ _ _ _ _ Hb Hfrom Hread) as (-> & Hlost & Hcov).
  split; [|done]. clear Hread Hlost Hfrom Hb. revert Hcov.
  generalize (from + lost) as a. induction out as [|c out IH]; intros a.
  - cbn. intros ->. by rewrite drop_all.
  - cbn -[data]. intros [(pre & post & Hall & <-) Hcov]. apply IH in Hcov.
    by rewrite data_cons, Hcov, Hall, <- drop_drop, !drop_app_length.
Qed.

(** [try_recv] always returns: with fuel for the values left in the
    channel and two more turns it hands out a chunk or reports that none is
    available. *)
Theorem try_recv_returns now (s : BufferState ch) (f : OutputFeed rx) :
  is_Some (try_recv (length (sent (live s)) - cursor (feed_rx f) + 2) now s f).
Proof. by apply try_recv_terminates. Qed.
End session.

(** Exit codes.  Every raw status decodes to a code a shell can report, a
    status without a signal to its exit byte and one with a signal to 128 plus
    it; and a code the backend reports without a raw status survives the
    encoding and decoding. *)
Theorem decode_wait_status_spec raw :
  (0 ≤ decode_wait_status raw ≤ 255)%Z ∧
  (Z.land raw 127 ≠ 0 → 128 < decode_wait_status raw)%Z ∧
  (∀ code, (0 ≤ code ≤ 255)%Z →
    decode_wait_status <$> event_wait_status None (Some code) = Some code).
Proof.
  assert (∀ a n, (0 < n)%Z → (0 ≤ Z.land a (Z.ones n) < 2 ^ n)%Z) as Hland.
  { intros a n Hn. rewrite Z.land_ones by lia. apply Z.mod_pos_bound. lia. }
  pose proof (Hland raw 7%Z ltac:(lia)) as H7. change (Z.ones 7) with 127%Z in H7.
  pose proof (Hland (Z.shiftr raw 8) 8%Z ltac:(lia)) as H8. change (Z.ones 8) with 255%Z in H8.
  unfold decode_wait_status, WAIT_STATUS_SIGNAL_MASK, SIGNAL_EXIT_BASE,
    WAIT_STATUS_EXIT_SHIFT, WAIT_STATUS_EXIT_MASK in *.
  split; [|split].
  - case_match; lia.
  - intros. case_match; lia.
  - intros code Hcode. cbn. f_equal. unfold WAIT_STATUS_EXIT_SHIFT.
    rewrite Z.shiftl_mul_pow2 by lia. rewrite wrap_i32_id by (unfold in_i32; lia).
    change 127%Z with (Z.ones 7). change 255%Z with (Z.ones 8).
    rewrite Z.land_ones, Z.shiftr_div_pow2, Z.land_ones by lia.
    replace ((code * 2 ^ 8) mod 2 ^ 7)%Z with 0%Z; cbn.
    + rewrite Z.div_mul, Z.mod_small; lia.
    + replace (code * 2 ^ 8)%Z with ((code * 2) * 2 ^ 7)%Z by lia. by rewrite Z.mod_mul.
Qed.

(** ** Witnesses *)

Definition sample_chunk (n : nat) : OutputChunk := mkChunk Stdout (replicate n Byte.x61) 0.

(** A run in which a reader lags behind a channel and a buffer that both
    dropped what it missed. *)
Lemma feed_reads_stream_witness :
  ∃ S, rtc (session_step (ch:=ref_bc SeqChunk) (rx:=nat)) (session_start 70 [sample_chunk 3]) S ∧
    ∃ items, covers (pushed S) (length (data [sample_chunk 3])) (next (feed S)) items ∧
      Forall2 renders items (handed_out S ++ pending (feed S)) ∧
      next (feed S) ≤ length (pushed S).
Proof.
  assert (rtc (session_step (ch:=ref_bc SeqChunk) (rx:=nat)) (session_start 70 [sample_chunk 3])
    (mkSession (data [sample_chunk 3] ++ replicate 9 Byte.x61)
       (push 70 (run_pushes 70 [sample_chunk 3]) (sample_chunk 9))
       (subscribe (run_pushes 70 [sample_chunk 3])).2 [])) as Hrun.
  { apply rtc_once. apply (step_push 70 (sample_chunk 9)). }
  eexists. split; [exact Hrun|]. exact (feed_reads_stream 70 _ _ Hrun).
Defined.

Lemma buffer_keeps_newest_within_cap_witness :
  let s := run_pushes (ch:=ref_bc SeqChunk) 70 [sample_chunk 3; sample_chunk 9] in
  data (chunks s) `suffix_of` data [sample_chunk 3; sample_chunk 9] ∧
  total s = 12 ∧ len s = charge (chunks s) ∧ len s ≤ 70.
Proof.
  exact (buffer_keeps_newest_within_cap (ch:=ref_bc SeqChunk) (rx:=nat) 70
           [sample_chunk 3; sample_chunk 9]).
Defined.

Lemma read_from_exact_witness :
  let s := run_pushes (ch:=ref_bc SeqChunk) 70 [sample_chunk 3; sample_chunk 9] in
  2 ≤ length (data [sample_chunk 3; sample_chunk 9]) ∧
  ∃ out, read_from s 2 = (out, 4, 12) ∧
    data out = drop 6 (data [sample_chunk 3; sample_chunk 9]).
Proof.
  cbn zeta. split; [vm_compute; lia|]. eexists. split; [vm_compute; reflexivity|].
  refine (proj1 (read_from_exact (ch:=ref_bc SeqChunk) 70 [sample_chunk 3; sample_chunk 9] 2 _ 4 12 _ _)).
  - vm_compute. lia.
  - vm_compute. reflexivity.
Defined.
