(* ===== verification/Broker.v ===== *)
(** * Broker: the sandboxes' publish/subscribe bus

    Models [ward-core/src/comms/broker.rs].  The broker keeps the policy of
    every registered sandbox, the subscribers of every topic and a bounded
    audit log per sandbox.  A [Sender] and its clones share one channel, so
    channels live in a store and a subscription holds a channel's index.
    Every operation runs under the broker's write lock, hence as one step. *)

From stdpp Require Import base list numbers option strings pretty gmap.
From Stdlib Require Import Lia.
From S2P Require Import Prelude Text Tokio Net Protocol.

Definition MAX_LOG_ENTRIES_PER_SANDBOX : nat := 256.
Definition SUBSCRIBER_CHANNEL_BUFFER : nat := 32.

Record DeliveredMessage := mkMsg {
  dm_from : string;
  dm_topic : string;
  payload : string;
  dm_timestamp : Z;
}.

Record LogEntry := mkLog {
  le_from : string;
  le_topic : string;
  allowed : bool;
  subscriber_count : nat;
  le_timestamp : Z;
}.

Record Subscription := mkSub { sandbox_id : string; tx : nat }.

Record BrokerState := mkBrokerState {
  policies : gmap string CommunicationPolicy;
  subscriptions : gmap string (list Subscription);
  log : gmap string (list LogEntry);
}.

Definition broker_default : BrokerState := mkBrokerState ∅ ∅ ∅.

(** Whether two policies let their sandboxes exchange messages. *)
Definition can_communicate (a b : CommunicationPolicy) : bool :=
  match comm_mode a, comm_mode b with
  | CommDeny, _ | _, CommDeny => false
  | CommGroup, CommGroup =>
      match group a, group b with
      | Some g1, Some g2 => negb (is_empty g1) && bool_decide (g1 = g2)
      | _, _ => false
      end
  end.

(** Append to a sandbox's row and drop the oldest entries beyond the bound. *)
Definition push_log_entry (l : gmap string (list LogEntry)) (id : string) (entry : LogEntry)
    : gmap string (list LogEntry) :=
  let q := default [] (l !! id) in
  <[id := trim_front MAX_LOG_ENTRIES_PER_SANDBOX (q ++ [entry])]> l.

(** Registration and deregistration, on the state under the lock. *)
Definition register_state (id : string) (policy : CommunicationPolicy) (st : BrokerState)
    : BrokerState :=
  mkBrokerState (<[id := policy]> (policies st)) (subscriptions st) (log st).
Definition deregister_state (id : string) (st : BrokerState) : BrokerState :=
  mkBrokerState (delete id (policies st))
    (filter (λ s, sandbox_id s ≠ id) <$> subscriptions st)
    (delete id (log st)).

(** The counters the broker exports. *)
Record BrokerMetrics := mkBrokerMetrics {
  publish_total : nat;
  deliver_total : nat;
  drop_total : nat;
}.

(** The broker with the channels its senders and receivers share. *)
Record Broker (ch : Type) := mkBroker {
  inner : BrokerState;
  chans : gmap nat ch;
  metrics : BrokerMetrics;
}.
Arguments mkBroker {ch}.
Arguments inner {ch}.
Arguments chans {ch}.
Arguments metrics {ch}.

Section broker.
Context {ch : Type} `{HM : !Mpsc DeliveredMessage ch}.
Implicit Types (w : Broker ch) (cs : gmap nat ch).

Definition broker_new : Broker ch := mkBroker broker_default ∅ (mkBrokerMetrics 0 0 0).

Definition with_inner (f : BrokerState → BrokerState) (w : Broker ch) : Broker ch :=
  mkBroker (f (inner w)) (chans w) (metrics w).

Definition register_sandbox (id : string) (policy : CommunicationPolicy)
    : Broker ch → Broker ch :=
  with_inner (register_state id policy).

Definition deregister_sandbox (id : string) : Broker ch → Broker ch :=
  with_inner (deregister_state id).

(** [s.tx.is_closed()], on the shared channel. *)
Definition tx_closed (cs : gmap nat ch) (i : nat) : bool :=
  match cs !! i with Some c => is_closed c | None => true end.

(** [tx.try_send(msg)]: the store afterwards, or [None] on an error. *)
Definition tx_try_send (cs : gmap nat ch) (i : nat) (m : DeliveredMessage)
    : option (gmap nat ch) :=
  c ← cs !! i; c' ← try_send c m; Some (<[i := c']> cs).

(** What the delivery loop of [publish] accumulates. *)
Record FanOut := mkFan {
  fan_chans : gmap nat ch;
  delivered : nat;
  dropped : nat;
  per_subscriber_entries : list (string * LogEntry);
}.

(** The loop over the candidates. *)
Fixpoint fan_out (pols : gmap string CommunicationPolicy)
    (publisher_policy : CommunicationPolicy) (msg : DeliveredMessage)
    (candidates : list Subscription) (acc : FanOut) : FanOut :=
  match candidates with
  | [] => acc
  | s :: rest =>
      let acc' :=
        match pols !! sandbox_id s with
        | None => acc
        | Some sub_policy =>
            if negb (can_communicate publisher_policy sub_policy) then acc
            else
              match tx_try_send (fan_chans acc) (tx s) msg with
              | Some cs =>
                  mkFan cs (S (delivered acc)) (dropped acc)
                    (per_subscriber_entries acc ++
                      [(sandbox_id s,
                        mkLog (dm_from msg) (dm_topic msg) true 1 (dm_timestamp msg))])
              | None =>
                  mkFan (fan_chans acc) (delivered acc) (S (dropped acc))
                    (per_subscriber_entries acc)
              end
        end in
      fan_out pols publisher_policy msg rest acc'
  end.

(** Drop the closed senders of one topic. *)
Definition reap (topic : string) (cs : gmap nat ch)
    (subs : gmap string (list Subscription)) : gmap string (list Subscription) :=
  alter (filter (λ s, tx_closed cs (tx s) = false)) topic subs.

Definition publish (now : Z) (from_sandbox topic body : string) (w : Broker ch)
    : result nat ApiError * Broker ch :=
  let st := inner w in
  match policies st !! from_sandbox with
  | None => (Err (SandboxNotFound from_sandbox), w)
  | Some publisher_policy =>
      if decide (comm_mode publisher_policy = CommDeny) then
        (Err (InvalidRequest
           ("sandbox " +:+ from_sandbox +:+ " is in Deny mode and cannot publish")),
         mkBroker
           (mkBrokerState (policies st) (subscriptions st)
              (push_log_entry (log st) from_sandbox
                 (mkLog from_sandbox topic false 0 now)))
           (chans w) (metrics w))
      else
        let subs := reap topic (chans w) (subscriptions st) in
        let candidates := default [] (subs !! topic) in
        let f := fan_out (policies st) publisher_policy
                   (mkMsg from_sandbox topic body now) candidates
                   (mkFan (chans w) 0 0 []) in
        let log1 := foldl (λ l e, push_log_entry l e.1 e.2) (log st)
                      (per_subscriber_entries f) in
        let log2 := push_log_entry log1 from_sandbox
                      (mkLog from_sandbox topic true (delivered f) now) in
        (Ok (delivered f),
         mkBroker (mkBrokerState (policies st) subs log2) (fan_chans f)
           (mkBrokerMetrics (S (publish_total (metrics w)))
              (deliver_total (metrics w) + delivered f)
              (drop_total (metrics w) + dropped f)))
  end.

(** The result is the index of the channel whose receiver is handed out. *)
Definition subscribe (id topic : string) (w : Broker ch)
    : result nat ApiError * Broker ch :=
  let st := inner w in
  match policies st !! id with
  | None => (Err (SandboxNotFound id), w)
  | Some policy =>
      if decide (comm_mode policy = CommDeny) then
        (Err (InvalidRequest
           ("sandbox " +:+ id +:+ " is in Deny mode and cannot subscribe")), w)
      else
        let i := fresh (dom (chans w)) in
        let subs := default [] (subscriptions st !! topic) in
        (Ok i,
         mkBroker
           (mkBrokerState (policies st)
              (<[topic := subs ++ [mkSub id i]]> (subscriptions st)) (log st))
           (<[i := mpsc_channel SUBSCRIBER_CHANNEL_BUFFER]> (chans w)) (metrics w))
  end.

Definition broker_log (id : string) (w : Broker ch) : list LogEntry :=
  default [] (log (inner w) !! id).

End broker.

(** ** Policies *)

Lemma can_communicate_spec a b :
  can_communicate a b = true ↔
    comm_mode a = CommGroup ∧ comm_mode b = CommGroup ∧
    ∃ g, g ≠ "" ∧ group a = Some g ∧ group b = Some g.
Proof.
  destruct a as [[] [ga|]], b as [[] [gb|]]; unfold can_communicate; cbn; try naive_solver.
  rewrite andb_true_iff, negb_true_iff, <- not_true_iff_false, is_empty_spec, bool_decide_eq_true.
  naive_solver.
Qed.

Lemma can_communicate_sym a b : can_communicate a b = can_communicate b a.
Proof.
  apply eq_true_iff_eq. rewrite !can_communicate_spec. naive_solver.
Qed.

(** ** The audit log *)

Definition log_bounded (l : gmap string (list LogEntry)) : Prop :=
  map_Forall (λ _ q, length q ≤ MAX_LOG_ENTRIES_PER_SANDBOX) l.

Lemma push_log_entry_bounded l id e : log_bounded l → log_bounded (push_log_entry l id e).
Proof.
  intros Hl. apply map_Forall_insert_2; [|done].
  rewrite length_trim_front. lia.
Qed.

(** The newest entry of the row is the one just pushed. *)
Lemma push_log_entry_last l id e :
  ∃ q, push_log_entry l id e !! id = Some q ∧ last q = Some e.
Proof.
  eexists. unfold push_log_entry. rewrite lookup_insert_eq. split; [done|].
  rewrite last_trim_front by (unfold MAX_LOG_ENTRIES_PER_SANDBOX; lia). apply last_snoc.
Qed.

Lemma push_log_entry_other l id id' e :
  id ≠ id' → push_log_entry l id e !! id' = l !! id'.
Proof. intros. unfold push_log_entry. by rewrite lookup_insert_ne. Qed.

Lemma push_log_entry_dom l id e : dom (push_log_entry l id e) = {[id]} ∪ dom l.
Proof. apply dom_insert_L. Qed.

Lemma push_all_bounded entries l :
  log_bounded l → log_bounded (foldl (λ l e, push_log_entry l e.1 e.2) l entries).
Proof. revert l. induction entries; eauto using push_log_entry_bounded. Qed.

Lemma push_all_dom entries l :
  dom (foldl (λ l e, push_log_entry l e.1 e.2) l entries) =
    dom l ∪ list_to_set entries.*1.
Proof.
  revert l. induction entries as [|e es IH]; intros l; cbn; [set_solver|].
  rewrite IH, push_log_entry_dom. set_solver.
Qed.

(** ** Fan-out *)

Section broker_props.
Context {ch : Type} `{HM : !Mpsc DeliveredMessage ch, !MpscLaws DeliveredMessage ch}.
Implicit Types (w : Broker ch) (cs : gmap nat ch) (s : Subscription).

(** A channel that takes one more message. *)
Definition has_room (c : ch) : bool :=
  negb (is_closed c) && negb (length (queued c) =? capacity c).
Definition tx_room (cs : gmap nat ch) (i : nat) : bool :=
  match cs !! i with Some c => has_room c | None => false end.

(** The subscribers that a message of a publisher with policy [pp] is meant
    for, and those that get it. *)
Definition eligible (pols : gmap string CommunicationPolicy) (pp : CommunicationPolicy)
    (s : Subscription) : bool :=
  match pols !! sandbox_id s with Some p => can_communicate pp p | None => false end.
Definition receives pols pp cs s : bool := eligible pols pp s && tx_room cs (tx s).
Definition misses pols pp cs s : bool := eligible pols pp s && negb (tx_room cs (tx s)).

Lemma has_room_send c m : has_room c = true ↔ is_Some (try_send c m).
Proof.
  rewrite <- not_eq_None_Some, try_send_fails.
  unfold has_room. rewrite andb_true_iff, !negb_true_iff, Nat.eqb_neq.
  destruct (is_closed c); naive_solver.
Qed.

Lemma tx_try_send_spec cs i m :
  tx_try_send cs i m =
    (if tx_room cs i then
       c ← cs !! i; c' ← try_send c m; Some (<[i := c']> cs)
     else None).
Proof.
  unfold tx_try_send, tx_room. destruct (cs !! i) as [c|]; cbn; [|done].
  destruct (has_room c) eqn:Hr; [done|].
  destruct (try_send c m) eqn:Hs; [|done].
  assert (has_room c = true) by (by apply (has_room_send c m)). congruence.
Qed.

Lemma tx_room_send cs i m :
  tx_room cs i = true →
  ∃ c c', cs !! i = Some c ∧ try_send c m = Some c' ∧
    tx_try_send cs i m = Some (<[i := c']> cs).
Proof.
  intros Hr. rewrite tx_try_send_spec, Hr. unfold tx_room in Hr.
  destruct (cs !! i) as [c|]; [|done]. apply (has_room_send c m) in Hr as [c' Hc'].
  exists c, c'. cbn. by rewrite Hc'.
Qed.

Lemma tx_room_insert_ne cs i j c : i ≠ j → tx_room (<[i := c]> cs) j = tx_room cs j.
Proof. intros. unfold tx_room. by rewrite lookup_insert_ne. Qed.

(** One round of the loop on a subscriber that gets the message, and on one
    that does not. *)
Lemma fan_out_receives pols pp m s rest acc :
  receives pols pp (fan_chans acc) s = true →
  ∃ c c', fan_chans acc !! tx s = Some c ∧ try_send c m = Some c' ∧
    fan_out pols pp m (s :: rest) acc =
    fan_out pols pp m rest
      (mkFan (<[tx s := c']> (fan_chans acc)) (S (delivered acc)) (dropped acc)
         (per_subscriber_entries acc ++
            [(sandbox_id s, mkLog (dm_from m) (dm_topic m) true 1 (dm_timestamp m))])).
Proof.
  unfold receives, eligible. rewrite andb_true_iff. intros [He Hr].
  destruct (tx_room_send _ _ m Hr) as (c & c' & ? & ? & Hts). exists c, c'.
  split_and!; [done..|]. cbn. destruct (pols !! sandbox_id s) as [p|]; [|done].
  by rewrite He, Hts.
Qed.

Lemma fan_out_skips pols pp m s rest acc :
  receives pols pp (fan_chans acc) s = false →
  fan_out pols pp m (s :: rest) acc =
  fan_out pols pp m rest
    (mkFan (fan_chans acc) (delivered acc)
       (dropped acc + Nat.b2n (misses pols pp (fan_chans acc) s))
       (per_subscriber_entries acc)).
Proof.
  unfold receives, misses, eligible. cbn.
  destruct acc as [cs d r es], (pols !! sandbox_id s) as [p|]; cbn; [|by rewrite Nat.add_0_r].
  destruct (can_communicate pp p); cbn; [|by rewrite Nat.add_0_r].
  intros Hr. rewrite tx_try_send_spec, Hr. cbn. by rewrite Nat.add_1_r.
Qed.

Lemma receives_insert_ne pols pp cs i c s :
  tx s ≠ i → receives pols pp (<[i := c]> cs) s = receives pols pp cs s.
Proof. intros. unfold receives. by rewrite tx_room_insert_ne. Qed.
Lemma misses_insert_ne pols pp cs i c s :
  tx s ≠ i → misses pols pp (<[i := c]> cs) s = misses pols pp cs s.
Proof. intros. unfold misses. by rewrite tx_room_insert_ne. Qed.

(** The loop, all at once: who gets the message is decided by the channels as
    they were before it, since no two subscriptions share a channel. *)
Record fan_spec pols pp m (cands : list Subscription) (acc f : FanOut) : Prop := {
  fs_delivered : delivered f = delivered acc +
    length (filter (λ s, receives pols pp (fan_chans acc) s = true) cands);
  fs_dropped : dropped f = dropped acc +
    length (filter (λ s, misses pols pp (fan_chans acc) s = true) cands);
  fs_entries : per_subscriber_entries f = per_subscriber_entries acc ++
    ((λ s, (sandbox_id s, mkLog (dm_from m) (dm_topic m) true 1 (dm_timestamp m))) <$>
       filter (λ s, receives pols pp (fan_chans acc) s = true) cands);
  fs_get s : s ∈ cands → receives pols pp (fan_chans acc) s = true →
    ∃ c c', fan_chans acc !! tx s = Some c ∧ try_send c m = Some c' ∧
      fan_chans f !! tx s = Some c';
  fs_keep i : (∀ s, s ∈ cands → receives pols pp (fan_chans acc) s = true → tx s ≠ i) →
    fan_chans f !! i = fan_chans acc !! i;
}.

Lemma filter_receives_insert pols pp cs i c (l : list Subscription) :
  i ∉ tx <$> l →
  filter (λ s, receives pols pp (<[i := c]> cs) s = true) l =
  filter (λ s, receives pols pp cs s = true) l.
Proof.
  intros Hi. apply filter_ext_in. intros s Hs.
  rewrite receives_insert_ne; [done|]. intros <-. by apply Hi, list_elem_of_fmap_2.
Qed.
Lemma filter_misses_insert pols pp cs i c (l : list Subscription) :
  i ∉ tx <$> l →
  filter (λ s, misses pols pp (<[i := c]> cs) s = true) l =
  filter (λ s, misses pols pp cs s = true) l.
Proof.
  intros Hi. apply filter_ext_in. intros s Hs.
  rewrite misses_insert_ne; [done|]. intros <-. by apply Hi, list_elem_of_fmap_2.
Qed.

Lemma fan_out_spec pols pp m cands acc :
  NoDup (tx <$> cands) → fan_spec pols pp m cands acc (fan_out pols pp m cands acc).
Proof.
  revert acc. induction cands as [|s rest IH]; intros acc; cbn [fmap list_fmap].
  { intros _. split; cbn; try done; try set_solver; rewrite ?Nat.add_0_r, ?app_nil_r; done. }
  intros [Hs Hnd]%NoDup_cons.
  destruct (receives pols pp (fan_chans acc) s) eqn:Hr.
  - assert (misses pols pp (fan_chans acc) s = false) as Hm.
    { unfold receives, misses in *. by apply andb_true_iff in Hr as [-> ->]. }
    destruct (fan_out_receives pols pp m s rest acc Hr) as (c & c' & Hc & Hc' & ->).
    destruct (IH (mkFan (<[tx s := c']> (fan_chans acc)) (S (delivered acc)) (dropped acc)
         (per_subscriber_entries acc ++
            [(sandbox_id s, mkLog (dm_from m) (dm_topic m) true 1 (dm_timestamp m))])) Hnd)
      as [Hd Hdr He Hg Hk]; cbn [fan_chans delivered dropped per_subscriber_entries] in *.
    rewrite filter_receives_insert in Hd, He by done.
    rewrite filter_misses_insert in Hdr by done.
    assert (∀ s', s' ∈ rest → tx s' ≠ tx s) as Hne.
    { intros s' Hs' Heq. apply Hs. rewrite <- Heq. by apply list_elem_of_fmap_2. }
    split; rewrite ?(filter_cons_True _ s rest Hr), ?(filter_cons_False _ s rest) by congruence; cbn.
    + rewrite Hd. lia.
    + done.
    + rewrite He, <- app_assoc. done.
    + intros s' [->|Hs']%elem_of_cons Hr'.
      * exists c, c'. split_and!; [done..|]. rewrite Hk, lookup_insert_eq; [done|].
        intros s2 Hs2 _. by apply Hne.
      * destruct (Hg s' Hs') as (d & d' & Hd1 & ? & ?).
        { rewrite receives_insert_ne by (by apply Hne). done. }
        rewrite lookup_insert_ne in Hd1 by (intros Heq; by apply (Hne s')). eauto.
    + intros i Hi. rewrite Hk.
      * rewrite lookup_insert_ne; [done|]. apply Hi; set_solver.
      * intros s2 Hs2 Hr2. apply Hi; [set_solver|].
        rewrite receives_insert_ne in Hr2 by (by apply Hne). done.
  - rewrite fan_out_skips by done.
    destruct (IH (mkFan (fan_chans acc) (delivered acc)
       (dropped acc + Nat.b2n (misses pols pp (fan_chans acc) s))
       (per_subscriber_entries acc)) Hnd) as [Hd Hdr He Hg Hk];
      cbn [fan_chans delivered dropped per_subscriber_entries] in *.
    split; rewrite ?(filter_cons_False (λ s, receives _ _ _ s = true) s rest) by congruence;
      try done.
    + rewrite Hdr, filter_cons. destruct (misses _ _ _ s); case_decide; cbn; done || lia.
    + intros s' [->|Hs']%elem_of_cons; [congruence|]. by apply Hg.
    + intros i Hi. apply Hk. set_solver.
Qed.

(** ** Runs of the broker

    A run interleaves the broker's operations with what the holders of the
    receivers do: they take messages off the front of a queue and drop
    receivers.  [allowed_policy] says which registrations the run makes.
    [owners] remembers which sandbox each channel was handed to. *)

Definition receivers_move (cs cs' : gmap nat ch) : Prop :=
  dom cs' = dom cs ∧
  ∀ i c c', cs !! i = Some c → cs' !! i = Some c' →
    queued c' `suffix_of` queued c ∧ capacity c' = capacity c.

Inductive broker_step (allowed_policy : string → CommunicationPolicy → Prop) :
    Broker ch * gmap nat string → Broker ch * gmap nat string → Prop :=
| step_register id p w owners :
    allowed_policy id p →
    broker_step allowed_policy (w, owners) (register_sandbox id p w, owners)
| step_deregister id w owners :
    broker_step allowed_policy (w, owners) (deregister_sandbox id w, owners)
| step_publish now from topic body r w w' owners :
    publish now from topic body w = (r, w') →
    broker_step allowed_policy (w, owners) (w', owners)
| step_subscribe id topic i w w' owners :
    subscribe id topic w = (Ok i, w') →
    broker_step allowed_policy (w, owners) (w', <[i := id]> owners)
| step_subscribe_refused id topic e w w' owners :
    subscribe id topic w = (Err e, w') →
    broker_step allowed_policy (w, owners) (w', owners)
| step_receivers cs' w owners :
    receivers_move (chans w) cs' →
    broker_step allowed_policy (w, owners) (mkBroker (inner w) cs' (metrics w), owners).

Definition broker_reachable allowed_policy (x : Broker ch * gmap nat string) : Prop :=
  rtc (broker_step allowed_policy) (broker_new, ∅) x.

(** What holds of a broker at all times. *)
Record broker_inv (w : Broker ch) (owners : gmap nat string) : Prop := {
  bi_nodup topic subs : subscriptions (inner w) !! topic = Some subs → NoDup (tx <$> subs);
  bi_sub topic subs s : subscriptions (inner w) !! topic = Some subs → s ∈ subs →
    is_Some (policies (inner w) !! sandbox_id s) ∧
    is_Some (chans w !! tx s) ∧ owners !! tx s = Some (sandbox_id s);
  bi_owned : dom owners = dom (chans w);
  bi_log : log_bounded (log (inner w));
  bi_log_dom : dom (log (inner w)) ⊆ dom (policies (inner w));
}.

Lemma broker_inv_new : broker_inv broker_new ∅.
Proof. split; cbn; done. Qed.

Lemma register_inv id p w owners :
  broker_inv w owners → broker_inv (register_sandbox id p w) owners.
Proof.
  intros [Hn Hs Ho Hl Hd]. split; cbn; try done.
  - intros topic subs s Ht Hin. destruct (Hs topic subs s Ht Hin) as (? & ? & ?).
    rewrite lookup_insert_is_Some'. auto.
  - rewrite dom_insert. set_solver.
Qed.

Lemma deregister_lookup id (w : Broker ch) topic subs :
  subscriptions (inner (deregister_sandbox id w)) !! topic = Some subs ↔
  ∃ subs0, subscriptions (inner w) !! topic = Some subs0 ∧
    subs = filter (λ s, sandbox_id s ≠ id) subs0.
Proof.
  cbn. rewrite lookup_fmap, fmap_Some. naive_solver.
Qed.

Lemma NoDup_tx_filter (P : Subscription → Prop) `{!∀ s, Decision (P s)} l :
  NoDup (tx <$> l) → NoDup (tx <$> filter P l).
Proof. intros. eapply sublist_NoDup; [done|]. apply fmap_sublist, sublist_filter. Qed.

Lemma deregister_inv id w owners :
  broker_inv w owners → broker_inv (deregister_sandbox id w) owners.
Proof.
  intros [Hn Hs Ho Hl Hd]. split.
  - intros topic subs (subs0 & ? & ->)%deregister_lookup.
    eapply NoDup_tx_filter, Hn; eauto.
  - intros topic subs s (subs0 & ? & ->)%deregister_lookup [Hne Hin]%list_elem_of_filter.
    destruct (Hs topic subs0 s) as (? & ? & ?); [done..|]. cbn.
    by rewrite lookup_delete_ne.
  - done.
  - cbn. by apply map_Forall_delete.
  - cbn. rewrite !dom_delete. set_solver.
Qed.

Lemma subscribe_inv id topic i w w' owners :
  broker_inv w owners → subscribe id topic w = (Ok i, w') →
  broker_inv w' (<[i := id]> owners).
Proof.
  intros [Hn Hs Ho Hl Hd]. unfold subscribe.
  destruct (policies (inner w) !! id) as [p|] eqn:Hp; [|done].
  case_decide; [done|]. intros [= Hi <-].
  assert (i ∉ dom (chans w)) as Hfresh by (subst i; apply is_fresh).
  rewrite Hi. split; cbn -[fresh].
  - intros t subs [[-> <-]|[Hne Ht]]%lookup_insert_Some; [|by eapply Hn].
    rewrite fmap_app, NoDup_app. split_and!.
    + destruct (subscriptions (inner w) !! t) eqn:Ht; cbn; [by eapply Hn|constructor].
    + intros j (s & -> & Hin)%list_elem_of_fmap [Heq|[]%not_elem_of_nil]%elem_of_cons.
      cbn in Heq. destruct (subscriptions (inner w) !! t) eqn:Ht; cbn in Hin; [|set_solver].
      destruct (Hs _ _ _ Ht Hin) as (_ & Hc & _). rewrite Heq in Hc. by apply Hfresh, elem_of_dom.
    + apply NoDup_singleton.
  - assert (∀ t subs s, subscriptions (inner w) !! t = Some subs → s ∈ subs →
      is_Some (policies (inner w) !! sandbox_id s) ∧
      is_Some (<[i := mpsc_channel SUBSCRIBER_CHANNEL_BUFFER]> (chans w) !! tx s) ∧
      <[i := id]> owners !! tx s = Some (sandbox_id s)) as Hold.
    { intros t subs s Ht Hin. destruct (Hs t subs s Ht Hin) as (? & Hc & ?).
      assert (i ≠ tx s) by (intros ->; by apply Hfresh, elem_of_dom).
      by rewrite !lookup_insert_ne. }
    intros t subs s [[-> <-]|[Hne Ht]]%lookup_insert_Some; [|by eapply Hold].
    intros [Hin| ->%list_elem_of_singleton]%elem_of_app.
    + destruct (subscriptions (inner w) !! t) eqn:Ht; cbn in Hin; [by eapply Hold|set_solver].
    + cbn. rewrite !lookup_insert_eq. eauto.
  - rewrite !dom_insert_L. set_solver.
  - done.
  - done.
Qed.

(** ** Publishing *)

Definition topic_subs (w : Broker ch) (topic : string) : list Subscription :=
  default [] (subscriptions (inner w) !! topic).
Definition recipients (w : Broker ch) (pp : CommunicationPolicy) (topic : string)
    : list Subscription :=
  filter (λ s, receives (policies (inner w)) pp (chans w) s = true) (topic_subs w topic).
Definition droppers (w : Broker ch) (pp : CommunicationPolicy) (topic : string)
    : list Subscription :=
  filter (λ s, misses (policies (inner w)) pp (chans w) s = true ∧
               tx_closed (chans w) (tx s) = false) (topic_subs w topic).

Lemma room_open cs i : tx_room cs i = true → tx_closed cs i = false.
Proof.
  unfold tx_room, tx_closed, has_room. destruct (cs !! i) as [c|]; [|done].
  rewrite andb_true_iff, negb_true_iff. naive_solver.
Qed.

(** The candidates are the topic's open subscriptions. *)
Lemma reap_lookup topic cs subs :
  default [] (reap topic cs subs !! topic) =
  filter (λ s, tx_closed cs (tx s) = false) (default [] (subs !! topic)).
Proof. unfold reap. rewrite lookup_alter_eq. by destruct (subs !! topic). Qed.

Lemma reap_Some topic cs subs t l :
  reap topic cs subs !! t = Some l →
  ∃ l0, subs !! t = Some l0 ∧ l `sublist_of` l0.
Proof.
  unfold reap. destruct (decide (t = topic)) as [->|].
  - rewrite lookup_alter_eq, fmap_Some. intros (l0 & ? & ->). eauto using sublist_filter.
  - rewrite lookup_alter_ne by done. eauto.
Qed.

Lemma recipients_candidates w pp topic :
  filter (λ s, receives (policies (inner w)) pp (chans w) s = true)
    (filter (λ s, tx_closed (chans w) (tx s) = false) (topic_subs w topic)) =
  recipients w pp topic.
Proof.
  unfold recipients. rewrite list_filter_filter. apply list_filter_iff. intros s.
  split; [naive_solver|]. intros Hr. split; [done|]. apply room_open.
  by apply andb_true_iff in Hr as [_ ?].
Qed.

Lemma topic_subs_nodup w owners topic : broker_inv w owners → NoDup (tx <$> topic_subs w topic).
Proof.
  intros Hw. unfold topic_subs. destruct (_ !! topic) eqn:Ht; cbn; [by eapply bi_nodup|constructor].
Qed.

(** A publish by a sandbox in a group, as one equation and the fan-out's
    specification. *)
Lemma publish_group now from topic body w owners pp :
  broker_inv w owners → policies (inner w) !! from = Some pp → comm_mode pp = CommGroup →
  ∃ f,
    fan_spec (policies (inner w)) pp (mkMsg from topic body now)
      (filter (λ s, tx_closed (chans w) (tx s) = false) (topic_subs w topic))
      (mkFan (chans w) 0 0 []) f ∧
    publish now from topic body w =
      (Ok (delivered f),
       mkBroker
         (mkBrokerState (policies (inner w)) (reap topic (chans w) (subscriptions (inner w)))
            (push_log_entry
               (foldl (λ l e, push_log_entry l e.1 e.2) (log (inner w))
                  (per_subscriber_entries f))
               from (mkLog from topic true (delivered f) now)))
         (fan_chans f)
         (mkBrokerMetrics (S (publish_total (metrics w)))
            (deliver_total (metrics w) + delivered f)
            (drop_total (metrics w) + dropped f))).
Proof.
  intros Hw Hp Hg. unfold publish. rewrite Hp, decide_False by congruence.
  rewrite reap_lookup. fold (topic_subs w topic). eexists. split; [|done].
  apply fan_out_spec. eapply NoDup_tx_filter, topic_subs_nodup, Hw.
Qed.

(** The channels after the loop: every one has its old contents or one
    message more. *)
Lemma fan_spec_chan pols pp m cands acc f i :
  fan_spec pols pp m cands acc f →
  fan_chans f !! i = fan_chans acc !! i ∨
  ∃ s c c', s ∈ cands ∧ tx s = i ∧ eligible pols pp s = true ∧
    fan_chans acc !! i = Some c ∧ try_send c m = Some c' ∧ fan_chans f !! i = Some c'.
Proof.
  intros Hf. destruct (decide (Exists (λ s,
    receives pols pp (fan_chans acc) s = true ∧ tx s = i) cands))
    as [(s & Hs & Hr & <-)%Exists_exists|Hno].
  - right. destruct (fs_get _ _ _ _ _ _ Hf s Hs Hr) as (c & c' & ? & ? & ?).
    exists s, c, c'. split_and!; try done. by apply andb_true_iff in Hr as [? _].
  - left. apply (fs_keep _ _ _ _ _ _ Hf). intros s Hs Hr <-.
    apply Hno, Exists_exists. eauto.
Qed.

Lemma fan_spec_dom pols pp m cands acc f :
  fan_spec pols pp m cands acc f → dom (fan_chans f) = dom (fan_chans acc).
Proof.
  intros Hf. apply set_eq. intros i. rewrite !elem_of_dom.
  destruct (fan_spec_chan _ _ _ _ _ _ i Hf) as [->|(s & c & c' & _ & _ & _ & -> & _ & ->)]; [done|].
  split; eauto.
Qed.

Lemma fan_entries_registered w owners pp m topic f :
  broker_inv w owners →
  fan_spec (policies (inner w)) pp m
    (filter (λ s, tx_closed (chans w) (tx s) = false) (topic_subs w topic))
    (mkFan (chans w) 0 0 []) f →
  list_to_set (per_subscriber_entries f).*1 ⊆ dom (policies (inner w)).
Proof.
  intros Hw Hf. rewrite (fs_entries _ _ _ _ _ _ Hf). cbn [app per_subscriber_entries].
  intros id (e & -> & (s & -> & [_ [_ Hs]%list_elem_of_filter]%list_elem_of_filter)%list_elem_of_fmap)%elem_of_list_to_set%list_elem_of_fmap.
  unfold topic_subs in Hs. destruct (_ !! topic) eqn:Ht; cbn in Hs; [|set_solver].
  apply elem_of_dom. by eapply bi_sub.
Qed.

Lemma publish_inv now from topic body r w w' owners :
  broker_inv w owners → publish now from topic body w = (r, w') → broker_inv w' owners.
Proof.
  intros Hw. destruct (policies (inner w) !! from) as [pp|] eqn:Hp.
  2: { unfold publish. rewrite Hp. by intros [= <- <-]. }
  destruct (comm_mode pp) eqn:Hm.
  - unfold publish. rewrite Hp, decide_True by done. intros [= <- <-].
    destruct Hw as [Hn Hs Ho Hl Hd]. split; cbn; try done.
    + by apply push_log_entry_bounded.
    + rewrite push_log_entry_dom. apply elem_of_dom_2 in Hp. set_solver.
  - destruct (publish_group now from topic body w owners pp) as (f & Hf & ->); [done..|].
    intros [= <- <-].
    pose proof (fan_entries_registered _ _ _ _ _ _ Hw Hf) as Hent.
    pose proof (fan_spec_dom _ _ _ _ _ _ Hf) as Hdom. cbn in Hdom.
    destruct Hw as [Hn Hs Ho Hl Hd]. split; cbn.
    + intros t subs (l0 & ? & Hsub)%reap_Some.
      eapply sublist_NoDup; [by eapply Hn|]. by apply fmap_sublist.
    + intros t subs s (l0 & ? & Hsub)%reap_Some Hin.
      rewrite <- !elem_of_dom, Hdom, !elem_of_dom. eapply Hs; [done|]. by eapply elem_of_submseteq, sublist_submseteq.
    + congruence.
    + by apply push_log_entry_bounded, push_all_bounded.
    + rewrite push_log_entry_dom, push_all_dom. apply elem_of_dom_2 in Hp. set_solver.
Qed.

Lemma broker_step_inv ap w owners w' owners' :
  broker_step ap (w, owners) (w', owners') → broker_inv w owners → broker_inv w' owners'.
Proof.
  inversion 1 as [| |????????? Hpub|?????? Hsub|?????? Hsub|??? [Hdom _]]; subst; intros Hw.
  - by apply register_inv.
  - by apply deregister_inv.
  - by eapply publish_inv.
  - by eapply subscribe_inv.
  - unfold subscribe in Hsub. repeat case_match; simplify_eq; done.
  - destruct Hw as [Hn Hs Ho Hl Hd]. split; cbn; try done.
    + intros t subs s Ht Hin. destruct (Hs t subs s Ht Hin) as (? & ? & ?).
      by rewrite <- (elem_of_dom cs'), Hdom, elem_of_dom.
    + congruence.
Qed.

Lemma broker_reachable_inv ap w owners :
  broker_reachable ap (w, owners) → broker_inv w owners.
Proof.
  assert (∀ x, broker_reachable ap x → broker_inv x.1 x.2) as Hall.
  { intros x Hx. apply (rtc_ind_r (λ x, broker_inv x.1 x.2) (broker_new, ∅)) in Hx;
      [done|apply broker_inv_new|].
    intros [] [] _ Hstep Hinv. by eapply broker_step_inv. }
  apply (Hall (w, owners)).
Qed.

Lemma broker_log_pushed id e l pols subs cs mt :
  last (broker_log id (mkBroker (ch:=ch)
    (mkBrokerState pols subs (push_log_entry l id e)) cs mt)) = Some e.
Proof.
  unfold broker_log. destruct (push_log_entry_last l id e) as (q & Hq & Hl).
  cbn [inner log]. by rewrite Hq.
Qed.

(** ** Isolation

    [P] gives each sandbox the one policy it is ever registered with. *)

Record isolated (P : string → CommunicationPolicy) (w : Broker ch) (owners : gmap nat string)
    : Prop := {
  iso_policies id p : policies (inner w) !! id = Some p → p = P id;
  iso_queues i id c m : owners !! i = Some id → chans w !! i = Some c → m ∈ queued c →
    can_communicate (P (dm_from m)) (P id) = true;
}.

Lemma publish_isolated P now from topic body r w w' owners :
  broker_inv w owners → publish now from topic body w = (r, w') →
  isolated P w owners → isolated P w' owners.
Proof.
  intros Hw Hpub [Hp Hq]. destruct (policies (inner w) !! from) as [pp|] eqn:Hpp.
  2: { unfold publish in Hpub. rewrite Hpp in Hpub. by simplify_eq. }
  destruct (comm_mode pp) eqn:Hm.
  { unfold publish in Hpub. rewrite Hpp, decide_True in Hpub by done. by simplify_eq. }
  destruct (publish_group now from topic body w owners pp) as (f & Hf & Hr); [done..|].
  rewrite Hr in Hpub. injection Hpub as <- <-. split; cbn; [done|].
  intros i id c m Hi Hc Hin. destruct (fan_spec_chan _ _ _ _ _ _ i Hf)
    as [Hsame|(s & c0 & c' & Hs & <- & He & Hc0 & Hsend & Hc')]; cbn in *.
  { rewrite Hsame in Hc. by eapply Hq. }
  simplify_eq. rewrite (try_send_queued _ _ _ Hsend) in Hin.
  apply elem_of_app in Hin as [?| ->%list_elem_of_singleton]; [by eapply Hq|].
  apply list_elem_of_filter in Hs as [_ Hs]. unfold topic_subs in Hs.
  destruct (subscriptions _ !! topic) eqn:Ht; cbn in Hs; [|set_solver].
  destruct (bi_sub _ _ Hw _ _ _ Ht Hs) as (_ & _ & Ho). rewrite Hi in Ho. simplify_eq.
  unfold eligible in He. destruct (policies _ !! sandbox_id s) as [ps|] eqn:Hps; [|done].
  cbn. by rewrite <- (Hp _ _ Hpp), <- (Hp _ _ Hps).
Qed.

Lemma subscribe_isolated P id topic i w w' owners :
  broker_inv w owners → subscribe id topic w = (Ok i, w') →
  isolated P w owners → isolated P w' (<[i := id]> owners).
Proof.
  intros Hw Hsub [Hp Hq]. unfold subscribe in Hsub.
  destruct (policies (inner w) !! id) as [p|]; [|done]. case_decide; [done|].
  injection Hsub as Hi <-. rewrite Hi. split; cbn -[fresh]; [done|].
  intros j id' c m [[<- <-]|[? Hj]]%lookup_insert_Some; [|rewrite lookup_insert_ne by done; eauto].
  rewrite lookup_insert_eq. intros [= <-]. rewrite channel_empty. set_solver.
Qed.

Lemma step_isolated P w owners w' owners' :
  broker_step (λ id p, p = P id) (w, owners) (w', owners') →
  broker_inv w owners → isolated P w owners → isolated P w' owners'.
Proof.
  inversion 1 as [| |????????? Hpub|?????? Hsub|?????? Hsub|??? [Hdom Hmv]]; subst; intros Hw Hiso.
  - destruct Hiso as [Hp Hq]. split; cbn; [|done].
    intros id' p' [[<- <-]|[? ?]]%lookup_insert_Some; eauto.
  - destruct Hiso as [Hp Hq]. split; cbn; [|done].
    intros id' p' [? ?]%lookup_delete_Some; eauto.
  - by eapply publish_isolated.
  - by eapply subscribe_isolated.
  - unfold subscribe in Hsub. repeat case_match; simplify_eq; done.
  - destruct Hiso as [Hp Hq]. split; cbn; [done|].
    intros i id c m Hi Hc Hin.
    assert (is_Some (chans w !! i)) as [c0 Hc0]
      by (apply elem_of_dom; rewrite <- Hdom; by apply elem_of_dom_2 in Hc).
    destruct (Hmv i c0 c Hc0 Hc) as [[k Hk] _]. eapply Hq; [done..|]. rewrite Hk. set_solver.
Qed.

Lemma reachable_isolated P w owners :
  broker_reachable (λ id p, p = P id) (w, owners) → isolated P w owners.
Proof.
  assert (∀ x, broker_reachable (λ id p, p = P id) x →
    broker_inv x.1 x.2 ∧ isolated P x.1 x.2) as Hall.
  { intros x Hx. apply (rtc_ind_r (λ x, broker_inv x.1 x.2 ∧ isolated P x.1 x.2)
      (broker_new, ∅)) in Hx; [done| |].
    - split; [apply broker_inv_new|]. by split.
    - intros [] [] _ Hstep [Hinv Hiso].
      split; [by eapply broker_step_inv|by eapply step_isolated]. }
  apply (Hall (w, owners)).
Qed.

(** C17: Isolation of the message bus.  In every run in which each sandbox
    keeps the policy it was registered with, a message waiting in a channel
    handed to sandbox [id] comes from a sandbox that is, like [id], in group
    mode, and both name the same non-empty group. *)
Theorem broker_isolation P w owners i id c m :
  broker_reachable (λ id p, p = P id) (w, owners) →
  owners !! i = Some id → chans w !! i = Some c → m ∈ queued c →
  comm_mode (P (dm_from m)) = CommGroup ∧ comm_mode (P id) = CommGroup ∧
  ∃ g, g ≠ "" ∧ group (P (dm_from m)) = Some g ∧ group (P id) = Some g.
Proof.
  intros Hr Hi Hc Hm. apply can_communicate_spec.
  by eapply iso_queues; [apply reachable_isolated|..].
Qed.

(** Exact delivery.  A publish by a registered sandbox in group mode
    succeeds and returns the number of subscriptions of the topic whose
    sandbox shares the group and whose channel is open and not full; exactly
    their channels gain the message, at the end, every other channel is
    untouched, the counters account for each intended recipient, and the
    newest row of the publisher's audit log says how many got it. *)
Theorem publish_exact now from topic body w owners pp :
  broker_inv w owners → policies (inner w) !! from = Some pp → comm_mode pp = CommGroup →
  let msg := mkMsg from topic body now in
  let got := recipients w pp topic in
  ∃ w', publish now from topic body w = (Ok (length got), w') ∧
    (∀ s, s ∈ got → ∃ c c', chans w !! tx s = Some c ∧ chans w' !! tx s = Some c' ∧
       queued c' = queued c ++ [msg]) ∧
    (∀ i, i ∉ tx <$> got → chans w' !! i = chans w !! i) ∧
    deliver_total (metrics w') = deliver_total (metrics w) + length got ∧
    drop_total (metrics w') = drop_total (metrics w) + length (droppers w pp topic) ∧
    last (broker_log from w') = Some (mkLog from topic true (length got) now) ∧
    policies (inner w') = policies (inner w).
Proof.
  intros Hw Hp Hg msg got.
  destruct (publish_group now from topic body w owners pp) as (f & [Hd Hdr _ Hget Hkeep] & ->);
    [done..|]. cbn in *. rewrite recipients_candidates in Hd.
  assert (∀ s, s ∈ got ↔
    s ∈ filter (λ s, tx_closed (chans w) (tx s) = false) (topic_subs w topic) ∧
    receives (policies (inner w)) pp (chans w) s = true) as Hgot.
  { intros s. subst got. rewrite <- recipients_candidates, list_elem_of_filter. naive_solver. }
  rewrite Hd. eexists. split; [done|]. cbn. split_and!; try done.
  - intros s [Hs Hr]%Hgot. destruct (Hget s Hs Hr) as (c & c' & ? & Hsend & ?).
    exists c, c'. eauto using try_send_queued.
  - intros i Hi. apply Hkeep. intros s Hs Hr <-. apply Hi, list_elem_of_fmap_2, Hgot. done.
  - rewrite Hdr. unfold droppers. by rewrite list_filter_filter.
  - apply broker_log_pushed.
Qed.

(** Refused publishes.  An unregistered publisher is told so and nothing
    changes; a publisher in deny mode is refused, no channel, subscription,
    policy, counter or other audit row changes, and its own newest audit row
    records the refusal. *)
Theorem publish_refused now from topic body w :
  match policies (inner w) !! from with
  | None => publish now from topic body w = (Err (SandboxNotFound from), w)
  | Some pp =>
      comm_mode pp = CommDeny →
      ∃ e w', publish now from topic body w = (Err (InvalidRequest e), w') ∧
        chans w' = chans w ∧ metrics w' = metrics w ∧
        subscriptions (inner w') = subscriptions (inner w) ∧
        policies (inner w') = policies (inner w) ∧
        last (broker_log from w') = Some (mkLog from topic false 0 now) ∧
        ∀ id, id ≠ from → broker_log id w' = broker_log id w
  end.
Proof.
  unfold publish. destruct (policies (inner w) !! from) as [pp|]; [|done].
  intros Hd. rewrite decide_True by done. do 2 eexists. split; [done|]. cbn.
  split_and!; try done.
  - apply broker_log_pushed.
  - intros id Hid. unfold broker_log. cbn. by rewrite push_log_entry_other.
Qed.

(** Bookkeeping of the broker.  In every reachable state no audit row is
    longer than 256 entries, every subscription belongs to a registered
    sandbox and has a channel of its own, handed to that sandbox, and a
    sandbox that is not registered (never was, or was deregistered) has no
    subscription and no audit row left. *)
Theorem broker_bookkeeping allowed_policy w owners :
  broker_reachable allowed_policy (w, owners) →
  (∀ id, length (broker_log id w) ≤ MAX_LOG_ENTRIES_PER_SANDBOX) ∧
  (∀ topic, NoDup (tx <$> topic_subs w topic)) ∧
  (∀ topic s, s ∈ topic_subs w topic →
     is_Some (policies (inner w) !! sandbox_id s) ∧ owners !! tx s = Some (sandbox_id s)) ∧
  (∀ id, policies (inner w) !! id = None →
     broker_log id w = [] ∧ ∀ topic s, s ∈ topic_subs w topic → sandbox_id s ≠ id).
Proof.
  intros Hw%broker_reachable_inv.
  assert (∀ topic s, s ∈ topic_subs w topic →
     is_Some (policies (inner w) !! sandbox_id s) ∧ owners !! tx s = Some (sandbox_id s)) as Hs.
  { intros topic s. unfold topic_subs. destruct (_ !! topic) eqn:Ht; cbn; [|set_solver].
    intros Hin. destruct (bi_sub _ _ Hw _ _ _ Ht Hin) as (? & ? & ?). done. }
  split_and!; [|intros; by eapply topic_subs_nodup|done|].
  - intros id. unfold broker_log. destruct (log _ !! id) eqn:Hl; cbn; [|lia].
    by eapply (bi_log _ _ Hw).
  - intros id Hid. split.
    + unfold broker_log. destruct (log _ !! id) eqn:Hl; [|done].
      apply elem_of_dom_2, (bi_log_dom _ _ Hw), elem_of_dom in Hl. by rewrite Hid in Hl; destruct Hl.
    + intros topic s [Hreg _]%Hs <-. rewrite Hid in Hreg. by destruct Hreg.
Qed.
End broker_props.

(** ** A run with three sandboxes

    Two sandboxes share a group, the third is in another one; both others
    subscribe to the topic the first publishes on. *)

Definition demo_policy (id : string) : CommunicationPolicy :=
  mkComms CommGroup (Some (if decide (id = "c") then "red" else "blue")).
Definition demo_registered : Broker (ref_mpsc DeliveredMessage) :=
  register_sandbox "c" (demo_policy "c")
    (register_sandbox "b" (demo_policy "b")
       (register_sandbox "a" (demo_policy "a") broker_new)).
Definition demo_subscribed : Broker (ref_mpsc DeliveredMessage) :=
  (subscribe "c" "t" (subscribe "b" "t" demo_registered).2).2.
Definition demo_published : Broker (ref_mpsc DeliveredMessage) :=
  (publish 7 "a" "t" "hi" demo_subscribed).2.
Definition demo_owners : gmap nat string := <[1 := "c"]> (<[0 := "b"]> ∅).

Lemma demo_reachable_subscribed :
  broker_reachable (λ id p, p = demo_policy id) (demo_subscribed, demo_owners).
Proof.
  unfold broker_reachable.
  eapply rtc_l; [by apply step_register with (id := "a")|].
  eapply rtc_l; [by apply step_register with (id := "b")|].
  eapply rtc_l; [by apply step_register with (id := "c")|].
  eapply rtc_l; [by apply step_subscribe with (id := "b") (topic := "t") (i := 0)
    (w' := (subscribe "b" "t" demo_registered).2); vm_compute|].
  eapply rtc_l; [by apply step_subscribe with (id := "c") (topic := "t") (i := 1)
    (w' := demo_subscribed); vm_compute|].
  apply rtc_refl.
Qed.

Lemma demo_reachable_published :
  broker_reachable (λ id p, p = demo_policy id) (demo_published, demo_owners).
Proof.
  eapply rtc_r; [apply demo_reachable_subscribed|].
  eapply step_publish. apply surjective_pairing.
Qed.

Lemma broker_isolation_witness :
  comm_mode (demo_policy "a") = CommGroup ∧ comm_mode (demo_policy "b") = CommGroup ∧
  ∃ g, g ≠ "" ∧ group (demo_policy "a") = Some g ∧ group (demo_policy "b") = Some g.
Proof.
  apply (broker_isolation demo_policy demo_published demo_owners 0 "b"
    (RefMpsc SUBSCRIBER_CHANNEL_BUFFER [mkMsg "a" "t" "hi" 7] false) (mkMsg "a" "t" "hi" 7)).
  - apply demo_reachable_published.
  - vm_compute. reflexivity.
  - vm_compute. reflexivity.
  - apply list_elem_of_here.
Defined.

Lemma publish_exact_witness :
  recipients demo_subscribed (demo_policy "a") "t" = [mkSub "b" 0] ∧
  ∃ w', publish 7 "a" "t" "hi" demo_subscribed = (Ok 1, w').
Proof.
  assert (recipients demo_subscribed (demo_policy "a") "t" = [mkSub "b" 0]) as Hgot
    by (vm_compute; reflexivity).
  split; [exact Hgot|].
  destruct (publish_exact 7 "a" "t" "hi" demo_subscribed demo_owners (demo_policy "a"))
    as (w' & Hw' & _).
  - eapply broker_reachable_inv, demo_reachable_subscribed.
  - vm_compute. reflexivity.
  - reflexivity.
  - rewrite Hgot in Hw'. eauto.
Defined.

Lemma broker_bookkeeping_witness :
  (∀ id, length (broker_log id demo_published) ≤ 256) ∧ broker_log "a" demo_published ≠ [].
Proof.
  split.
  - apply (broker_bookkeeping _ demo_published demo_owners demo_reachable_published).
  - vm_compute. discriminate.
Defined.
