(* ===== verification/Validate.v ===== *)
(** * Validate: checks on request fields

    Models [ward-core/src/validate.rs], which runs at the API boundary.  The
    functions keep the names of the source; a [str]'s [len] is its number of
    bytes, kept in [Z] to compare it with the source's bounds. *)

From stdpp Require Import base list numbers option strings pretty gmap.
From Stdlib Require Import ZArith Lia Ascii.
From S2P Require Import Prelude Text Net Protocol Signal.

Local Open Scope Z_scope.

Definition len (s : string) : Z := Z.of_nat (str_len s).

Definition MAX_CPUS : Z := 64.
Definition MAX_MEMORY_MB : Z := 65536.
Definition MAX_PIDS : Z := 65536.
Definition MAX_TIMEOUT_SECONDS : Z := 2592000.
Definition MAX_VOLUME_SIZE_MB : Z := 1048576.
Definition MAX_TOPIC_LEN : Z := 128.
Definition MAX_GUEST_PATH_LEN : Z := 4096.
Definition MAX_GROUP_LEN : Z := 64.
Definition MAX_USER_SPEC_LEN : Z := 256.
Definition MAX_EGRESS_DOMAINS : Z := 256.
Definition MAX_DOMAIN_LEN : Z := 253.
Definition MAX_DOMAIN_LABEL_LEN : Z := 63.
Definition WILDCARD_PREFIX : string := "*.".
Definition MAX_SANDBOX_NAME_LEN : Z := 64.
Definition MAX_PUBLISH_PAYLOAD_BYTES : Z := 1048576.
Definition MAX_LABELS : Z := 128.
Definition MAX_LABEL_KEY_LEN : Z := 256.
Definition MAX_LABEL_VALUE_LEN : Z := 4096.
Definition MAX_HOSTNAME_LEN : Z := 64.
Definition ANONYMOUS_VOLUME_NAME_LEN : Z := 64.
Definition MAX_SECRETS : Z := 16.
Definition MAX_SECRET_BYTES : Z := 64 * 1024.
Definition MAX_SECRET_NAME_LEN : Z := 255.
Definition MAX_PUBLISHED_PORTS : Z := 64.

(** [return Err(ApiError::InvalidRequest(..))] when a condition holds. *)
Definition reject_if (bad : bool) (message : string) : result unit ApiError :=
  if bad then Err (InvalidRequest message) else Ok tt.

Definition image_ref (image : string) : result unit ApiError :=
  reject_if (is_empty image) "image reference must not be empty" ;?
  reject_if (len image >? 255) "image reference exceeds 255 characters" ;?
  reject_if (contains ".." image) "image reference must not contain '..'" ;?
  reject_if
    (negb (str_all (λ c, is_ascii_alphanumeric c ||
       one_of [":"; "/"; "."; "_"; "-"; "@"]%char c) image))
    "image reference contains characters outside the OCI grammar (allowed: alphanumerics, ':', '/', '.', '_', '-', '@')".

Definition resource_limits (cpus memory_mb pids_max timeout_seconds : Z)
    : result unit ApiError :=
  reject_if (cpus >? MAX_CPUS) ("cpus must be <= " +:+ pretty MAX_CPUS) ;?
  reject_if (memory_mb >? MAX_MEMORY_MB) ("memory_mb must be <= " +:+ pretty MAX_MEMORY_MB) ;?
  reject_if (pids_max >? MAX_PIDS) ("pids_max must be <= " +:+ pretty MAX_PIDS) ;?
  reject_if (timeout_seconds >? MAX_TIMEOUT_SECONDS)
    ("timeout_seconds must be <= " +:+ pretty MAX_TIMEOUT_SECONDS).

Definition exited_ttl (seconds : Z) : result unit ApiError :=
  reject_if (seconds >? MAX_TIMEOUT_SECONDS)
    ("exited_ttl_seconds must be <= " +:+ pretty MAX_TIMEOUT_SECONDS).

(** The entries of the label map, in the order the map yields them. *)
Definition labels (entries : list (string * string)) : result unit ApiError :=
  reject_if (Z.of_nat (length entries) >? MAX_LABELS)
    ("at most " +:+ pretty MAX_LABELS +:+ " labels are allowed") ;?
  try_for_each (λ '(key, value),
    reject_if (is_empty key || (len key >? MAX_LABEL_KEY_LEN) || has_control key)
      ("label key must be 1 to " +:+ pretty MAX_LABEL_KEY_LEN +:+
       " bytes without control characters") ;?
    reject_if (len value >? MAX_LABEL_VALUE_LEN)
      ("label value for '" +:+ key +:+ "' exceeds " +:+ pretty MAX_LABEL_VALUE_LEN +:+ " bytes"))
    entries.

Definition hostname (name : string) : result unit ApiError :=
  let first_ok := match chars name with [] => true | c :: _ => is_ascii_alphanumeric c end in
  let chars_ok :=
    str_all (λ c, is_ascii_alphanumeric c || one_of ["-"; "."; "_"]%char c) name in
  reject_if ((len name >? MAX_HOSTNAME_LEN) || negb first_ok || negb chars_ok)
    ("hostname must be at most " +:+ pretty MAX_HOSTNAME_LEN +:+
     " characters of letters, digits, '-', '.' and '_', starting with a letter or digit").

Definition stop_signal (signal : string) : result unit ApiError :=
  reject_if (negb (is_empty signal) && bool_decide (parse signal = None))
    ("invalid stop signal: " +:+ signal).

Definition stop_timeout (seconds : option Z) : result unit ApiError :=
  let in_range s :=
    (s =? -1) || match try_u64 s with Some s => s <=? MAX_TIMEOUT_SECONDS | None => false end in
  reject_if (match seconds with Some s => negb (in_range s) | None => false end)
    ("stop_timeout must be -1 or from 0 to " +:+ pretty MAX_TIMEOUT_SECONDS).

(** [pb::RestartPolicy]. *)
Record PbRestartPolicy := mkPbRestart { pb_name : string; maximum_retry_count : Z }.

Definition restart_policy (policy : option PbRestartPolicy) (auto_remove : bool)
    : result RestartPolicy ApiError :=
  let? policy := map_err InvalidRequest
    match policy with
    | None => Ok restart_default
    | Some p => from_parts (pb_name p) (maximum_retry_count p)
    end in
  reject_if (auto_remove && bool_decide (kind policy ≠ RestartNo))
    "conflicting options: a restart policy and auto_remove" ;?
  Ok policy.

Definition volume_name (name : string) : result unit ApiError :=
  reject_if (is_empty name) "volume name must not be empty" ;?
  reject_if (len name >? 64) "volume name exceeds 64 characters" ;?
  let starts_ok := starts_with_char is_ascii_alphanumeric name in
  reject_if
    (negb starts_ok ||
     negb (str_all (λ c, is_ascii_alphanumeric c || one_of ["-"; "_"; "."]%char c) name))
    (cat ["invalid volume name "; dquote; name; dquote;
      ": it must start with a letter or digit and contain only letters, digits, '-', '_' and '.'"]).

Definition is_lower_hex (c : ascii) : bool :=
  is_ascii_digit c || ((97 <=? byte_of c)%nat && (byte_of c <=? 102)%nat).

Definition anonymous_volume_name (name : string) : result unit ApiError :=
  let hex := (len name =? ANONYMOUS_VOLUME_NAME_LEN) && str_all is_lower_hex name in
  if hex then Ok tt
  else Err (InvalidRequest
    ("an anonymous volume needs a name of " +:+ pretty ANONYMOUS_VOLUME_NAME_LEN +:+
     " lowercase hex characters")).

Definition volume_size (size_mb : Z) : result unit ApiError :=
  reject_if (size_mb =? 0) "volume size_mb must be greater than 0" ;?
  reject_if (size_mb >? MAX_VOLUME_SIZE_MB)
    ("volume size_mb " +:+ pretty size_mb +:+ " exceeds maximum " +:+
     pretty MAX_VOLUME_SIZE_MB +:+ " MiB (1 TiB)").

Definition mount_path_shape (label path : string) : result unit ApiError :=
  reject_if (is_empty path) ("mount " +:+ label +:+ " must not be empty") ;?
  reject_if (negb (starts_with "/" path))
    ("mount " +:+ label +:+ " must be an absolute path: " +:+ path) ;?
  reject_if (bool_decide (".." ∈ split "/"%char path))
    ("mount " +:+ label +:+ " must not contain '..': " +:+ path).

Definition volume_mount (name target : string) : result unit ApiError :=
  volume_name name ;?
  mount_path_shape "target" target.

Definition ALLOWED : list string := ["/home/"; "/tmp/"; "/var/lib/ward/"].
Definition is_default_allowed_source (path : string) : bool :=
  bool_decide (path = "/tmp" ∨ path = "/var/lib/ward") ||
  existsb (λ prefix, starts_with prefix path) ALLOWED.

Definition SENSITIVE : list string :=
  ["/proc"; "/sys"; "/dev"; "/etc"; "/root"; "/boot"; "/usr"; "/run"; "/var/run"; "/lib";
   "/bin"; "/sbin"].
Definition is_sensitive_host_path (path : string) : bool :=
  existsb (λ root, bool_decide (path = root) || starts_with (root +:+ "/") path) SENSITIVE.

Definition mount (source target : string) (readonly allow_host : bool)
    : result unit ApiError :=
  mount_path_shape "source" source ;?
  mount_path_shape "target" target ;?
  reject_if (negb allow_host && negb (is_default_allowed_source source))
    ("mount source " +:+ source +:+ " is outside the default allowlist (/home/, /tmp/, /var/lib/ward/); set WARD_ALLOW_HOST_MOUNTS=1 on the daemon to permit arbitrary host paths") ;?
  reject_if (is_sensitive_host_path source && negb readonly)
    ("mount source " +:+ source +:+ " is a sensitive system path (/proc, /sys, /dev, /etc, /root, /boot, /usr, /run, /var/run, /lib, /bin, /sbin); readonly: true is required for these roots").

Definition is_reference_char (c : ascii) : bool :=
  is_ascii_alphanumeric c || one_of ["_"; "."; "-"]%char c.
Definition is_id_char (c : ascii) : bool := is_lower_hex c || one_of ["-"%char] c.

Definition entity_id (id entity : string) : result unit ApiError :=
  reject_if (is_empty id) (entity +:+ " ID must not be empty") ;?
  reject_if (len id >? 36) (entity +:+ " ID exceeds 36 characters") ;?
  reject_if (negb (str_all is_id_char id))
    (entity +:+ " ID contains invalid characters (allowed: lowercase hex digits and '-')").

Definition sandbox_name (name : string) : result unit ApiError :=
  reject_if (is_empty name) "sandbox name must not be empty" ;?
  reject_if (len name >? MAX_SANDBOX_NAME_LEN)
    ("sandbox name exceeds " +:+ pretty MAX_SANDBOX_NAME_LEN +:+ " characters") ;?
  reject_if (negb (starts_with_char is_ascii_alphanumeric name) ||
             negb (str_all is_reference_char name))
    "sandbox name must start with a letter or digit and contain only letters, digits, '_', '.' and '-'" ;?
  reject_if (str_all is_id_char name)
    "sandbox name must not be made only of lowercase hex digits and '-', because it could be an id or an id prefix".

Definition sandbox_reference (reference : string) : result unit ApiError :=
  reject_if (is_empty reference) "sandbox name or ID must not be empty" ;?
  reject_if (len reference >? MAX_SANDBOX_NAME_LEN)
    ("sandbox name or ID exceeds " +:+ pretty MAX_SANDBOX_NAME_LEN +:+ " characters") ;?
  reject_if (negb (str_all is_reference_char reference))
    "sandbox name or ID contains invalid characters".

Definition NUL : ascii := "000"%char.

Definition guest_path (path : string) : result unit ApiError :=
  reject_if (negb (starts_with "/" path)) "sandbox path must be absolute" ;?
  reject_if ((len path >? MAX_GUEST_PATH_LEN) || str_any (one_of [NUL]) path)
    ("sandbox path must be at most " +:+ pretty MAX_GUEST_PATH_LEN +:+ " bytes with no NUL").

Definition exec_command (command : list string) : result unit ApiError :=
  match command with
  | [] => Err (InvalidRequest "command must not be empty")
  | exe :: _ => reject_if (is_empty exe) "command executable must not be empty"
  end.

Definition user_spec (spec : string) : result unit ApiError :=
  reject_if ((len spec >? MAX_USER_SPEC_LEN) || has_control spec)
    ("user must be at most " +:+ pretty MAX_USER_SPEC_LEN +:+ " bytes with no control characters").

Definition secret_name (name : string) : result unit ApiError :=
  reject_if
    (is_empty name || (len name >? MAX_SECRET_NAME_LEN) ||
     str_all (one_of ["."%char]) name || str_any (one_of ["/"%char; NUL]) name ||
     has_control name)
    ("secret name must be 1 to " +:+ pretty MAX_SECRET_NAME_LEN +:+
     " bytes with no slash, control character, or only dots: " +:+ debug_str name).

(** [pb::SecretFile]; the content is a byte string. *)
Record SecretFile := mkSecret { secret_file_name : string; content : string }.

(** The loop of [secrets], with the names seen so far. *)
Fixpoint secrets_loop (seen : gset string) (files : list SecretFile) : result unit ApiError :=
  match files with
  | [] => Ok tt
  | file :: files =>
      secret_name (secret_file_name file) ;?
      reject_if (len (content file) >? MAX_SECRET_BYTES)
        ("secret " +:+ debug_str (secret_file_name file) +:+ " is over " +:+
         pretty MAX_SECRET_BYTES +:+ " bytes") ;?
      reject_if (bool_decide (secret_file_name file ∈ seen))
        ("secret " +:+ debug_str (secret_file_name file) +:+ " is given more than once") ;?
      secrets_loop ({[secret_file_name file]} ∪ seen) files
  end.
Definition secrets (files : list SecretFile) : result unit ApiError :=
  reject_if (Z.of_nat (length files) >? MAX_SECRETS)
    ("at most " +:+ pretty MAX_SECRETS +:+ " secrets can be given") ;?
  secrets_loop ∅ files.

(** [pb::PortMapping]; the ports are [u32]. *)
Record PortMapping := mkMapping {
  m_host_ip : string;
  m_host_port : Z;
  m_host_port_end : Z;
  m_container_port : Z;
  m_protocol : string;
}.

Definition published_port (m : PortMapping) : result PublishedPort ApiError :=
  let? protocol :=
    if decide (m_protocol m = "" ∨ m_protocol m = "tcp") then Ok Tcp
    else if decide (m_protocol m = "udp") then Ok Udp
    else Err (InvalidRequest (cat ["unsupported protocol "; dquote; m_protocol m; dquote;
           ": only tcp and udp ports can be published"])) in
  let? host_ip :=
    if is_empty (m_host_ip m) then Ok (V4 127 0 0 1)
    else ok_or (parse_ip (m_host_ip m))
           (InvalidRequest (cat ["invalid host address "; dquote; m_host_ip m; dquote])) in
  let? host_port := ok_or (try_u16 (m_host_port m))
    (InvalidRequest ("host port " +:+ pretty (m_host_port m) +:+ " is out of range")) in
  let? container_port :=
    ok_or (try_u16 (m_container_port m) ≫= λ port, if port =? 0 then None else Some port)
      (InvalidRequest ("container port " +:+ pretty (m_container_port m) +:+
        " must be between 1 and 65535")) in
  let? host_port_end := ok_or (try_u16 (m_host_port_end m))
    (InvalidRequest ("host port " +:+ pretty (m_host_port_end m) +:+ " is out of range")) in
  reject_if (negb (host_port_end =? 0) && ((host_port =? 0) || (host_port_end <? host_port)))
    ("invalid host port range " +:+ pretty host_port +:+ "-" +:+ pretty host_port_end) ;?
  Ok (mkPort host_ip host_port host_port_end container_port protocol).

(** A mapping that asks for one host port. *)
Definition fixed (port : PublishedPort) : bool :=
  negb (host_port port =? 0) && (host_port_end port =? 0).
Definition port_key (port : PublishedPort) : IpAddr * Z * PortProtocol :=
  (host_ip port, host_port port, protocol port).

(** The loop of [published_ports], with the host ports claimed so far. *)
Fixpoint claim_ports (claimed : list (IpAddr * Z * PortProtocol)) (ports : list PublishedPort)
    : result unit ApiError :=
  match ports with
  | [] => Ok tt
  | port :: ports =>
      reject_if (bool_decide (port_key port ∈ claimed))
        (cat ["host port "; ip_display (host_ip port); ":"; pretty (host_port port); "/";
              port_protocol_str (protocol port); " is published more than once"]) ;?
      claim_ports (port_key port :: claimed) ports
  end.

Definition published_ports (mappings : list PortMapping)
    : result (list PublishedPort) ApiError :=
  reject_if (Z.of_nat (length mappings) >? MAX_PUBLISHED_PORTS)
    ("at most " +:+ pretty MAX_PUBLISHED_PORTS +:+ " ports can be published") ;?
  let? ports := try_map published_port mappings in
  claim_ports [] (filter (λ p, fixed p = true) ports) ;?
  Ok ports.

Definition language_name (language : string) : result unit ApiError :=
  reject_if (is_empty language) "language must not be empty" ;?
  reject_if (negb (str_all (λ c, is_ascii_alphanumeric c || one_of ["_"%char] c) language))
    "language name contains invalid characters".

Definition topic_name (topic : string) : result unit ApiError :=
  reject_if (is_empty topic) "topic must not be empty" ;?
  reject_if (len topic >? MAX_TOPIC_LEN)
    ("topic exceeds " +:+ pretty MAX_TOPIC_LEN +:+ " characters") ;?
  reject_if
    (negb (str_all (λ c, is_ascii_alphanumeric c || one_of ["-"; "_"; "."]%char c) topic))
    "topic must contain only alphanumeric characters, dashes, underscores, and dots" ;?
  reject_if (starts_with "." topic || ends_with_char "."%char topic || contains ".." topic)
    "topic must not have leading, trailing, or consecutive dots".

Definition group_name (group : string) : result unit ApiError :=
  reject_if (is_empty group) "communication group must not be empty when mode is GROUP" ;?
  reject_if (len group >? MAX_GROUP_LEN)
    ("communication group exceeds " +:+ pretty MAX_GROUP_LEN +:+ " characters") ;?
  reject_if (negb (str_all (λ c, is_ascii_alphanumeric c || one_of ["-"; "_"]%char c) group))
    "communication group must contain only alphanumeric characters, dashes, and underscores".

Definition publish_payload (body : string) : result unit ApiError :=
  reject_if (len body >? MAX_PUBLISH_PAYLOAD_BYTES)
    ("publish payload exceeds " +:+ pretty MAX_PUBLISH_PAYLOAD_BYTES +:+ " bytes").

Definition label_ok (label : string) : bool :=
  (1 <=? len label) && (len label <=? MAX_DOMAIN_LABEL_LEN) &&
  negb (starts_with "-" label) && negb (ends_with_char "-"%char label) &&
  str_all (λ c, is_ascii_alphanumeric c || one_of ["-"; "_"]%char c) label.

Definition egress_domain (domain : string) : result unit ApiError :=
  let name := default domain (strip_prefix WILDCARD_PREFIX domain) in
  reject_if ((len domain >? MAX_DOMAIN_LEN) || negb (forallb label_ok (split "."%char name)))
    (debug_str domain +:+
     " is not a valid domain (use a DNS name such as api.example.com or *.example.com)").

Definition egress_domains (domains : list string) : result unit ApiError :=
  reject_if (bool_decide (domains = [])) "at least one domain is required" ;?
  reject_if (Z.of_nat (length domains) >? MAX_EGRESS_DOMAINS)
    ("at most " +:+ pretty MAX_EGRESS_DOMAINS +:+ " domains can be added at once") ;?
  try_for_each egress_domain domains.

(** ** Passing a chain of checks *)

Lemma reject_if_Ok b m : reject_if b m = Ok tt ↔ b = false.
Proof. by destruct b. Qed.

Lemma reject_if_then {A} b m (k : result A ApiError) a :
  (reject_if b m ;? k) = Ok a ↔ b = false ∧ k = Ok a.
Proof. destruct b; cbn; naive_solver. Qed.

(** Turn [check = Ok tt] into the facts the checks establish. *)
Ltac inv_checks :=
  inv_ok;
  repeat match goal with
  | H : reject_if _ _ = Ok _ |- _ => apply reject_if_Ok in H
  | H : (_ || _) = false |- _ => apply orb_false_iff in H as [? ?]
  | H : negb _ = false |- _ => apply negb_false_iff in H
  | H : bool_decide _ = false |- _ => apply bool_decide_eq_false in H
  | H : (_ >? _) = false |- _ => apply gtb_false in H
  | H : (_ =? _) = false |- _ => apply Z.eqb_neq in H
  end.

(** ** Names and references *)

Lemma id_char_reference c : is_id_char c = true → is_reference_char c = true.
Proof.
  unfold is_id_char, is_reference_char, is_lower_hex, is_ascii_alphanumeric, is_ascii_lowercase.
  rewrite !orb_true_iff, !andb_true_iff, !one_of_spec, !Nat.leb_le. intros [[?|?]|?]; try set_solver.
  left. right. lia.
Qed.

Lemma name_not_id_prefix name id entity :
  sandbox_name name = Ok tt → entity_id id entity = Ok tt → starts_with name id = false.
Proof.
  unfold sandbox_name, entity_id, MAX_SANDBOX_NAME_LEN. intros; inv_checks.
  apply not_true_iff_false. intros [r ->]%starts_with_spec.
  match goal with H : str_all is_id_char name = false |- _ => apply not_true_iff_false in H; apply H end.
  apply str_all_spec. intros c Hc.
  match goal with H : str_all _ (_ +:+ _) = true |- _ => apply (proj1 (str_all_spec _ _) H) end.
  rewrite chars_app. set_solver.
Qed.

Lemma id_is_reference id entity : entity_id id entity = Ok tt → sandbox_reference id = Ok tt.
Proof.
  unfold entity_id, sandbox_reference, MAX_SANDBOX_NAME_LEN. intros; inv_checks.
  rewrite !reject_if_then, reject_if_Ok, gtb_false. split_and!; [done|lia|].
  apply negb_false_iff, str_all_spec. intros c Hc. apply id_char_reference.
  match goal with H : str_all _ id = true |- _ => by apply (proj1 (str_all_spec _ _) H) end.
Qed.

(** Names and ids cannot be confused.  A sandbox name that passes
    validation is not a prefix of any valid id, in particular not an id, so a
    lookup that falls back to id prefixes never takes a name for one; and both
    valid names and valid ids pass the check a lookup makes. *)
Theorem sandbox_name_not_id_prefix name id entity :
  (sandbox_name name = Ok tt → entity_id id entity = Ok tt → starts_with name id = false) ∧
  (sandbox_name name = Ok tt → sandbox_reference name = Ok tt) ∧
  (entity_id id entity = Ok tt → sandbox_reference id = Ok tt).
Proof.
  split_and!; [apply name_not_id_prefix| |apply id_is_reference].
  unfold sandbox_name, sandbox_reference, MAX_SANDBOX_NAME_LEN. intros; inv_checks.
  rewrite !reject_if_then, reject_if_Ok, gtb_false, negb_false_iff. done.
Qed.

(** ** Mount paths

    The components of a path as the kernel walks it: empty components and
    [.] stand for the directory reached so far. *)
Definition components (path : string) : list string :=
  filter (λ c, c ≠ "" ∧ c ≠ ".") (split "/"%char path).
(** [path] is [root] or lies below it. *)
Definition under (root path : string) : Prop := components root `prefix_of` components path.
(** [path] is spelled without redundant components. *)
Definition canonical (path : string) : Prop := path = "/" +:+ join "/" (components path).
#[export] Instance under_dec root path : Decision (under root path).
Proof. unfold under. apply _. Defined.
#[export] Instance canonical_dec path : Decision (canonical path).
Proof. unfold canonical. apply _. Defined.

Lemma mount_path_shape_Ok label path :
  mount_path_shape label path = Ok tt →
  starts_with "/" path = true ∧ ".." ∉ split "/"%char path.
Proof. unfold mount_path_shape. intros. by inv_checks. Qed.

Lemma components_below dir rest :
  components (dir +:+ String "/" rest) = components dir ++ components rest.
Proof. unfold components. by rewrite split_sep_app, filter_app. Qed.

Lemma under_refl path : under path path.
Proof. by unfold under. Qed.
Lemma under_below root dir rest :
  components root = components dir → under root (dir +:+ String "/" rest).
Proof. intros Hr. unfold under. rewrite components_below, Hr. by apply prefix_app_r. Qed.

(** Mounts stay inside the shared roots.  Unless the daemon allows host
    mounts, an accepted bind mount's source lies in [/home], [/tmp] or
    [/var/lib/ward] once its path is walked, it has no [..] that could leave
    them, and its guest target is absolute and free of [..] too. *)
Theorem mount_confined source target readonly :
  mount source target readonly false = Ok tt →
  (under "/home" source ∨ under "/tmp" source ∨ under "/var/lib/ward" source) ∧
  ".." ∉ components source ∧ ".." ∉ components target ∧ starts_with "/" target = true.
Proof.
  unfold mount. intros. inv_checks.
  repeat match goal with
  | H : mount_path_shape _ _ = Ok _ |- _ => apply mount_path_shape_Ok in H as [? ?]
  | H : (negb false && _) = false |- _ => cbn [negb andb] in H; apply negb_false_iff in H
  end.
  assert (∀ p, ".." ∉ split "/"%char p → ".." ∉ components p) as Hc.
  { intros p Hp [_ ?]%list_elem_of_filter. done. }
  split_and!; [|by apply Hc..|done].
  unfold is_default_allowed_source in *.
  match goal with H : (bool_decide _ || _) = true |- _ => apply orb_true_iff in H as [Ht|Ha] end.
  - apply bool_decide_eq_true in Ht as [-> | ->]; auto using under_refl.
  - apply existsb_exists in Ha as (prefix & Hp & [r ->]%starts_with_spec).
    destruct Hp as [<-|[<-|[<-|[]]]].
    + left. by apply (under_below _ "/home").
    + right; left. by apply (under_below _ "/tmp").
    + right; right. by apply (under_below _ "/var/lib/ward").
Qed.

Lemma mount_confined_witness :
  mount "/home/alice//data" "/data" false false = Ok tt ∧
  (under "/home" "/home/alice//data" ∨ under "/tmp" "/home/alice//data" ∨
   under "/var/lib/ward" "/home/alice//data").
Proof.
  assert (mount "/home/alice//data" "/data" false false = Ok tt) as H by (vm_compute; reflexivity).
  split; [exact H|]. exact (proj1 (mount_confined _ _ _ H)).
Defined.

Lemma canonical_under root path :
  canonical root → canonical path → components root ≠ [] → under root path →
  path = root ∨ ∃ rest, path = root +:+ "/" +:+ rest.
Proof.
  unfold canonical, under. intros Hr Hp Hne [k Hk]. rewrite Hk in Hp.
  destruct k as [|x k]; [rewrite app_nil_r in Hp; left; congruence|].
  right. exists (join "/" (x :: k)). rewrite join_app in Hp by done.
  rewrite Hp. rewrite Hr at 2. by rewrite append_assoc.
Qed.

(** System directories are mounted read-only.  Whatever the daemon
    allows, a source path spelled canonically that is one of the system roots
    or lies below one is accepted only as a read-only mount. *)
Theorem mount_sensitive_readonly root source target readonly allow_host :
  root ∈ SENSITIVE → canonical source → under root source →
  mount source target readonly allow_host = Ok tt → readonly = true.
Proof.
  intros Hroot Hcan Hund. unfold mount. intros. inv_checks.
  assert (is_sensitive_host_path source = true) as Hs.
  { unfold is_sensitive_host_path. apply existsb_exists. exists root.
    split; [by apply list_elem_of_In|].
    assert (Forall (λ r, canonical r ∧ components r ≠ []) SENSITIVE) as Hall
      by (apply (bool_decide_eq_true_1 _); vm_compute; reflexivity).
    destruct (proj1 (Forall_forall _ _) Hall root Hroot) as [Hcr Hne].
    apply orb_true_iff. destruct (canonical_under root source) as [->|[r ->]]; [done..| |].
    - left. by apply bool_decide_eq_true.
    - right. rewrite <- append_assoc. apply starts_with_self. }
  match goal with H : (is_sensitive_host_path _ && _) = false |- _ => rewrite Hs in H end.
  cbn in *. by destruct readonly.
Qed.

Lemma mount_sensitive_readonly_witness :
  mount "/etc/ssl" "/certs" true true = Ok tt ∧ true = true.
Proof.
  split; [vm_compute; reflexivity|].
  apply (mount_sensitive_readonly "/etc" "/etc/ssl" "/certs" true true).
  - apply (bool_decide_eq_true_1 _). vm_compute. reflexivity.
  - vm_compute. reflexivity.
  - apply (bool_decide_eq_true_1 _). vm_compute. reflexivity.
  - vm_compute. reflexivity.
Defined.

(** The canonical spelling in the previous theorem is needed: with host
    mounts allowed, a second slash or a [.] component names the same system
    directory, and the writable mount is accepted; so is the whole root. *)
Lemma mount_sensitive_gap :
  under "/etc" "//etc" ∧ mount "//etc" "/x" false true = Ok tt ∧
  under "/usr" "/./usr" ∧ mount "/./usr" "/x" false true = Ok tt ∧
  mount "/" "/x" false true = Ok tt.
Proof. split_and!; first [reflexivity|by apply (bool_decide_eq_true_1 _)]. Qed.

(** ** Secrets *)

Lemma secret_name_component name :
  secret_name name = Ok tt → components name = [name] ∧ name ≠ "..".
Proof.
  unfold secret_name. intros. inv_checks.
  assert ("/"%char ∉ chars name) as Hslash.
  { intros Hin. match goal with H : str_any _ name = false |- _ =>
      apply not_true_iff_false in H; apply H, str_any_spec end.
    exists "/"%char. split; [done|]. apply one_of_spec. set_solver. }
  assert (∀ n, str_all (one_of ["."%char]) n = true → name ≠ n) as Hdots.
  { intros n Hn ->. congruence. }
  unfold components. rewrite split_none by done.
  rewrite filter_cons_True, filter_nil.
  - split; [done|]. by apply Hdots.
  - split; [|by apply Hdots]. by apply is_empty_false.
Qed.

Lemma secrets_loop_Ok seen files :
  secrets_loop seen files = Ok tt →
  NoDup (secret_file_name <$> files) ∧
  Forall (λ f, secret_name (secret_file_name f) = Ok tt ∧
               len (content f) ≤ MAX_SECRET_BYTES ∧ secret_file_name f ∉ seen) files.
Proof.
  revert seen. induction files as [|f files IH]; intros seen; [by split; constructor|].
  cbn [secrets_loop]. intros. inv_checks.
  match goal with H : secrets_loop _ files = _ |- _ => apply IH in H as [Hnd Hall] end.
  rewrite Forall_forall in Hall. cbn. split.
  - constructor; [|done]. intros (g & Heq & Hg)%list_elem_of_fmap.
    apply (Hall g Hg). rewrite Heq. set_solver.
  - constructor; [done|]. apply Forall_forall. intros g Hg.
    destruct (Hall g Hg) as (? & ? & ?). split_and!; [done..|set_solver].
Qed.

(** Secret files stay in their directory.  If the secrets of a request are
    accepted, their names are distinct, and writing each below [/run/secrets]
    creates an entry of that very directory: the path has the three
    components [run], [secrets] and the name, which is neither [.] nor [..];
    all contents together are at most 1 MiB. *)
Theorem secrets_stay_in_directory files :
  secrets files = Ok tt →
  NoDup (secret_file_name <$> files) ∧
  Forall (λ f, components ("/run/secrets/" +:+ secret_file_name f) =
                 ["run"; "secrets"; secret_file_name f] ∧
               secret_file_name f ≠ "..") files ∧
  Z.of_nat (sum_list_with (λ f, str_len (content f)) files) ≤ 1048576.
Proof.
  unfold secrets. intros. inv_checks.
  match goal with H : secrets_loop _ _ = _ |- _ => apply secrets_loop_Ok in H as [Hnd Hall] end.
  split_and!; [done| |].
  - eapply Forall_impl; [done|]. intros f (Hn & _).
    apply secret_name_component in Hn as [Hc ?]. split; [|done].
    change ("/run/secrets/" +:+ secret_file_name f)
      with ("/run/secrets" +:+ String "/" (secret_file_name f)).
    by rewrite components_below, Hc.
  - assert (Z.of_nat (sum_list_with (λ f, str_len (content f)) files) ≤
      MAX_SECRET_BYTES * Z.of_nat (length files)) as Hsum.
    { clear - Hall. induction Hall as [|f files (_ & Hf & _) _ IH]; [done|].
      unfold len in Hf. cbn [sum_list_with length]. lia. }
    unfold MAX_SECRET_BYTES, MAX_SECRETS in *. lia.
Qed.

Lemma secrets_stay_in_directory_witness :
  NoDup (secret_file_name <$> [mkSecret "key" "abc"; mkSecret "..key" "d"]).
Proof.
  refine (proj1 (secrets_stay_in_directory [mkSecret "key" "abc"; mkSecret "..key" "d"] _)).
  vm_compute. reflexivity.
Defined.

(** ** Published ports *)

Definition port_ok (p : PublishedPort) : Prop :=
  ip_ok (host_ip p) ∧ in_u16 (host_port p) ∧ in_u16 (host_port_end p) ∧
  in_u16 (container_port p) ∧ container_port p ≠ 0 ∧
  (host_port_end p ≠ 0 → 0 < host_port p ≤ host_port_end p).

Lemma ok_or_Ok {A} (o : option A) (e : ApiError) a : ok_or o e = Ok a ↔ o = Some a.
Proof. destruct o; cbn; naive_solver. Qed.

Lemma published_port_ok m p :
  published_port m = Ok p →
  port_ok p ∧ host_port p = m_host_port m ∧ container_port p = m_container_port m ∧
  host_port_end p = m_host_port_end m ∧
  (m_host_ip m = "" → host_ip p = LOCALHOST).
Proof.
  unfold published_port. intros H. inv_checks.
  repeat match goal with
  | H : ok_or _ _ = Ok _ |- _ => apply ok_or_Ok in H
  | H : try_u16 _ = Some _ |- _ => apply try_u16_Some in H as [-> ?]
  | H : (try_u16 _ ≫= _) = Some _ |- _ => apply bind_Some in H as (? & [-> ?]%try_u16_Some & ?)
  | H : (if ?b =? 0 then _ else _) = Some _ |- _ =>
      destruct (Z.eqb_spec b 0); [discriminate H|injection H as <-]
  end.
  subst. cbn. unfold port_ok. cbn.
  assert (ip_ok a0 ∧ (m_host_ip m = "" → a0 = LOCALHOST)) as [? ?].
  { destruct (is_empty (m_host_ip m)) eqn:He.
    - inv_ok. subst. split; [|done]. unfold ip_ok, octet. lia.
    - apply is_empty_false in He. split; [|done].
      match goal with H : ok_or (parse_ip _) _ = Ok _ |- _ => apply ok_or_Ok in H end.
      by eapply parse_ip_ok. }
  unfold in_u16 in *. split_and!; try done; lia.
Qed.

Lemma claim_ports_Ok claimed ports :
  claim_ports claimed ports = Ok tt →
  NoDup (port_key <$> ports) ∧ Forall (λ p, port_key p ∉ claimed) ports.
Proof.
  revert claimed. induction ports as [|p ports IH]; intros claimed; [by split; constructor|].
  cbn [claim_ports]. intros. inv_checks.
  match goal with H : claim_ports _ ports = _ |- _ => apply IH in H as [Hnd Hall] end.
  rewrite Forall_forall in Hall. cbn. split.
  - constructor; [|done]. intros (q & Heq & Hq)%list_elem_of_fmap.
    apply (Hall q Hq). rewrite Heq. set_solver.
  - constructor; [done|]. apply Forall_forall. intros q Hq.
    intros Hin. apply (Hall q Hq). set_solver.
Qed.

(** Published ports.  If the mappings of a request are accepted, at most
    64 of them are, in order; every resulting port fits in 16 bits, the guest
    port is not zero, a host range is non-empty and starts at a real port, a
    mapping without an address listens on the loopback address only, and no
    two mappings ask for the same fixed host port of one address and
    protocol. *)
Theorem published_ports_sound mappings ports :
  published_ports mappings = Ok ports →
  (length mappings ≤ 64)%nat ∧
  Forall port_ok ports ∧
  Forall2 (λ m p, host_port p = m_host_port m ∧ container_port p = m_container_port m ∧
                  host_port_end p = m_host_port_end m ∧
                  (m_host_ip m = "" → host_ip p = LOCALHOST)) mappings ports ∧
  NoDup (port_key <$> filter (λ p, fixed p = true) ports).
Proof.
  unfold published_ports. intros H. inv_checks. subst.
  match goal with H : claim_ports _ _ = _ |- _ => apply claim_ports_Ok in H as [Hnd _] end.
  match goal with H : try_map _ _ = _ |- _ => apply try_map_Ok in H as Hmap end.
  unfold MAX_PUBLISHED_PORTS in *.
  split_and!; [lia| | |done].
  - eapply Forall2_Forall_r; [done|]. apply Forall_true. by intros m p [? _]%published_port_ok.
  - eapply Forall2_impl; [done|]. by intros m p (_ & ? & ? & ? & ?)%published_port_ok.
Qed.

Lemma published_ports_sound_witness :
  Forall port_ok [mkPort LOCALHOST 8080 0 80 Tcp; mkPort (V4 0 0 0 0) 9000 9010 90 Udp].
Proof.
  refine (proj1 (proj2 (published_ports_sound
    [mkMapping "" 8080 0 80 ""; mkMapping "0.0.0.0" 9000 9010 90 "udp"] _ _))).
  vm_compute. reflexivity.
Defined.

(** ** Topics and labels *)

Definition topic_char (c : ascii) : bool :=
  is_ascii_alphanumeric c || one_of ["-"; "_"]%char c.

Lemma topic_chars_split topic :
  str_all (λ c, is_ascii_alphanumeric c || one_of ["-"; "_"; "."]%char c) topic = true ↔
  Forall (λ seg, str_all topic_char seg = true) (split "."%char topic).
Proof.
  rewrite str_all_spec, Forall_forall. setoid_rewrite str_all_spec.
  assert (∀ c, is_ascii_alphanumeric c || one_of ["-"; "_"; "."]%char c = true ↔
    c = "."%char ∨ topic_char c = true) as Hc.
  { intros c. unfold topic_char. rewrite !orb_true_iff, !one_of_spec. set_solver. }
  setoid_rewrite Hc. split.
  - intros H seg Hseg c Hin. pose proof (split_no_sep _ _ _ Hseg).
    destruct (decide (c = "."%char)) as [->|Hne]; [done|].
    destruct (H c) as [?|?]; [|done..]. apply (chars_split "."%char); eauto.
  - intros H c Hin. destruct (decide (c = "."%char)) as [?|Hne]; [by left|right].
    apply (chars_split "."%char) in Hin as (seg & ? & ?); [|done]. by eapply H.
Qed.

(** The topic grammar.  The accepted topics are exactly those of at most
    128 bytes that consist of dot-separated segments, each a non-empty word
    over letters, digits, dashes and underscores. *)
Theorem topic_name_grammar topic :
  topic_name topic = Ok tt ↔
  len topic ≤ 128 ∧
  Forall (λ seg, seg ≠ "" ∧ str_all topic_char seg = true) (split "."%char topic).
Proof.
  unfold topic_name, MAX_TOPIC_LEN.
  rewrite !reject_if_then, reject_if_Ok, gtb_false, negb_false_iff, topic_chars_split.
  rewrite Forall_and, is_empty_false.
  change (starts_with "." topic) with (starts_with (String "." "") topic).
  assert (Forall (λ seg, seg ≠ "") (split "."%char topic) ↔ "" ∉ split "."%char topic) as ->.
  { rewrite Forall_forall. set_solver. }
  split.
  - intros (Hne & ? & ? & Hdots). split_and!; [done| |done].
    rewrite <- (split_empty_piece _ _ Hne). by apply not_true_iff_false.
  - intros (? & Hseg & ?). assert (topic ≠ "") as Hne by (intros ->; set_solver).
    split_and!; try done. apply not_true_iff_false.
    by rewrite <- (split_empty_piece _ _ Hne) in Hseg.
Qed.

(** Label checks do not depend on the order in which the map yields its
    entries, although the error reported may: if one order is accepted, so is
    every other. *)
Theorem labels_order_irrelevant entries entries' :
  entries ≡ₚ entries' → labels entries = Ok tt ↔ labels entries' = Ok tt.
Proof.
  intros Hp. unfold labels. rewrite !reject_if_then, !try_for_each_Ok, Hp. done.
Qed.

Lemma labels_order_irrelevant_witness :
  labels [("a", "1"); ("b", "2")] = Ok tt ∧ labels [("b", "2"); ("a", "1")] = Ok tt.
Proof.
  assert (labels [("a", "1"); ("b", "2")] = Ok tt) as H by (vm_compute; reflexivity).
  split; [exact H|].
  refine (proj1 (labels_order_irrelevant [("a", "1"); ("b", "2")] _ _) H). constructor.
Defined.
