(* ===== verification/Egress.v ===== *)
(** * Egress: the per-sandbox proxy and the record of refusals

    Models [ward-core/src/egress/proxy.rs] (the policy check, its log, the
    CONNECT handler and the address filter) and [egress/blocked.rs] (the
    bounded record of refused hosts).  DNS and TCP belong to the operating
    system: a request is handled against a resolver and a dialler that are
    arguments.  The tunnel that follows a successful connect copies bytes and
    is not modelled. *)

From stdpp Require Import base list numbers option strings pretty gmap sorting.
From Stdlib Require Import ZArith Lia Ascii.
From S2P Require Import Prelude Text Net Protocol Validate.

(** ** Domain patterns *)

Definition matches_domain (pattern domain : string) : bool :=
  match strip_prefix "*." pattern with
  | Some suffix =>
      ends_with suffix domain &&
      (str_len suffix + 1 <? str_len domain) &&
      bool_decide (chars domain !! (str_len domain - str_len suffix - 1) = Some "."%char)
  | None => eq_ignore_ascii_case pattern domain
  end.

(** ** Addresses that must not be reached *)

Definition is_private (a b : Z) : bool :=
  (a =? 10)%Z || ((a =? 172)%Z && (16 <=? b)%Z && (b <=? 31)%Z) ||
  ((a =? 192)%Z && (b =? 168)%Z).

Definition is_private_or_local_v4 (a b c d : Z) : bool :=
  is_private a b ||
  (a =? 127)%Z ||
  ((a =? 169)%Z && (b =? 254)%Z) ||
  ((224 <=? a)%Z && (a <=? 239)%Z) ||
  is_unspecified (V4 a b c d) ||
  ((a =? 255)%Z && (b =? 255)%Z && (c =? 255)%Z && (d =? 255)%Z) ||
  (a =? 0)%Z ||
  ((a =? 100)%Z && (Z.land b 0xC0 =? 0x40)%Z) ||
  ((a =? 192)%Z && (b =? 0)%Z && (c =? 0)%Z) ||
  ((a =? 192)%Z && (b =? 0)%Z && (c =? 2)%Z) ||
  ((a =? 198)%Z && (b =? 51)%Z && (c =? 100)%Z) ||
  ((a =? 203)%Z && (b =? 0)%Z && (c =? 113)%Z) ||
  ((a =? 198)%Z && (Z.land b 0xFE =? 18)%Z) ||
  (240 <=? a)%Z.

(** [Ipv6Addr::to_ipv4_mapped]: [::ffff:a.b.c.d]. *)
Definition to_ipv4_mapped (segs : list Z) : option (Z * Z * Z * Z) :=
  match segs with
  | [0; 0; 0; 0; 0; 65535; ab; cd]%Z =>
      Some (Z.shiftr ab 8, Z.land ab 255, Z.shiftr cd 8, Z.land cd 255)
  | _ => None
  end.

Definition is_private_or_local (ip : IpAddr) : bool :=
  match ip with
  | V4 a b c d => is_private_or_local_v4 a b c d
  | V6 segs =>
      let seg (i : nat) := default 0%Z (segs !! i) in
      bool_decide (segs = [0; 0; 0; 0; 0; 0; 0; 1]%Z) ||
      is_unspecified (V6 segs) ||
      (Z.land (seg 0%nat) 0xFF00 =? 0xFF00)%Z ||
      (Z.land (seg 0%nat) 0xFFC0 =? 0xFE80)%Z ||
      (Z.land (seg 0%nat) 0xFE00 =? 0xFC00)%Z ||
      (seg 0%nat =? 0x2002)%Z ||
      ((seg 0%nat =? 0x0064)%Z && (seg 1%nat =? 0xFF9B)%Z) ||
      ((seg 0%nat =? 0x2001)%Z && (seg 1%nat =? 0)%Z) ||
      match to_ipv4_mapped segs with
      | Some (a, b, c, d) => is_private_or_local_v4 a b c d
      | None => false
      end
  end.

(** ** The record of refused hosts *)

Definition MAX_BLOCKED_HOSTS : nat := 256.

Record BlockedDestination := mkBlocked { host : string; count : Z; last_seen : Z }.
#[export] Instance BlockedDestination_eq_dec : EqDecision BlockedDestination.
Proof. solve_decision. Defined.

(** [Iterator::min_by_key]: the first of the least elements. *)
Fixpoint min_by_key {A} (key : A → Z) (l : list A) : option A :=
  match l with
  | [] => None
  | x :: l =>
      match min_by_key key l with
      | Some y => if (key x <=? key y)%Z then Some x else Some y
      | None => Some x
      end
  end.

(** The order of [snapshot]: newest first, then by name. *)
Definition snapshot_order (a b : BlockedDestination) : Prop :=
  (last_seen b < last_seen a)%Z ∨ (last_seen a = last_seen b ∧ str_le (host a) (host b)).
#[export] Instance snapshot_order_dec : RelDecision snapshot_order.
Proof. unfold snapshot_order. intros a b. apply _. Defined.

Section blocked.
(** The order in which a map yields its values is the map's own. *)
Context (values : gmap string BlockedDestination → list BlockedDestination).

Definition blocked_record (raw : string) (now : Z) (hosts : gmap string BlockedDestination)
    : gmap string BlockedDestination :=
  let h := to_ascii_lowercase raw in
  match hosts !! h with
  | Some seen => <[h := mkBlocked (host seen) ((count seen + 1) mod 2 ^ 64) now]> hosts
  | None =>
      let hosts' :=
        if MAX_BLOCKED_HOSTS <=? size hosts then
          match host <$> min_by_key last_seen (values hosts) with
          | Some oldest => delete oldest hosts
          | None => hosts
          end
        else hosts in
      <[h := mkBlocked h 1 now]> hosts'
  end.

(** [sort_by] is stable; the result is the sorted list. *)
Definition snapshot (hosts : gmap string BlockedDestination) : list BlockedDestination :=
  merge_sort snapshot_order (values hosts).
End blocked.

(** ** The proxy *)

Record EgressLogEntry := mkEgressLog {
  el_sandbox_id : string;
  el_domain : string;
  el_port : Z;
  el_allowed : bool;
  el_timestamp : Z;
}.

Record EgressProxy := mkProxy {
  px_sandbox_id : string;
  policy : EgressPolicy;
  px_log : list EgressLogEntry;
  log_capacity : nat;
  blocked : gmap string BlockedDestination;
  checks_allowed : nat;
  checks_denied : nat;
}.

Definition proxy_new (id : string) (p : EgressPolicy) : EgressProxy :=
  mkProxy id p [] 1000 ∅ 0 0.

Definition set_policy (p : EgressPolicy) (px : EgressProxy) : EgressProxy :=
  mkProxy (px_sandbox_id px) p (px_log px) (log_capacity px) (blocked px)
    (checks_allowed px) (checks_denied px).

(** Append the domains that are not in the list yet, one by one. *)
Definition add_domains (doms new : list string) : list string :=
  foldl (λ acc d, if decide (d ∈ acc) then acc else acc ++ [d]) doms new.

Definition allow_domains (new : list string) (px : EgressProxy) : EgressProxy :=
  set_policy (mkEgress (egress_mode (policy px)) (add_domains (domains (policy px)) new)) px.

Definition policy_allows (p : EgressPolicy) (domain : string) : bool :=
  match egress_mode p with
  | EgressDeny => false
  | EgressOpen => true
  | EgressAllowlist => existsb (λ pattern, matches_domain pattern domain) (domains p)
  end.

(** [record]: one entry makes room when the log is full. *)
Definition record_egress (domain : string) (port : Z) (ok : bool) (now : Z) (px : EgressProxy)
    : EgressProxy :=
  let log := if log_capacity px <=? length (px_log px) then tail (px_log px) else px_log px in
  mkProxy (px_sandbox_id px) (policy px)
    (log ++ [mkEgressLog (px_sandbox_id px) domain port ok now])
    (log_capacity px) (blocked px) (checks_allowed px) (checks_denied px).

(** What the client of the proxy sees. *)
Inductive ConnectOutcome :=
| BadRequest
| Forbidden
| BadGateway
| Tunnel (addr : IpAddr * Z)
| ClientIoError.

(** What a request makes the daemon do on the network, with the answer. *)
Inductive NetAction :=
| Lookup (host : string) (port : Z) (answer : option (list (IpAddr * Z)))
| Dial (addr : IpAddr * Z) (connected : bool).

Section proxy.
Context (values : gmap string BlockedDestination → list BlockedDestination).

Definition check (domain : string) (port now : Z) (px : EgressProxy) : bool * EgressProxy :=
  let ok := policy_allows (policy px) domain in
  let px1 :=
    mkProxy (px_sandbox_id px) (policy px) (px_log px) (log_capacity px)
      (if ok then blocked px else blocked_record values domain now (blocked px))
      (if ok then S (checks_allowed px) else checks_allowed px)
      (if ok then checks_denied px else S (checks_denied px)) in
  (ok, record_egress domain port ok now px1).

(** The client's side of the connection: the results of successive
    [read_line] calls, [None] for a failed read; the empty line is the end of
    the stream. *)
Definition read_line (input : list (option string)) : option string * list (option string) :=
  match input with
  | [] => (Some "", [])
  | r :: rest => (r, rest)
  end.

Definition MAX_HEADER_LINES : nat := 100.
Definition CRLF : string := String "013" (String "010" "").
Definition LF : string := String "010" "".

(** Drain the headers: [None] when a read fails. *)
Fixpoint drain_headers (lines : nat) (input : list (option string))
    : option (list (option string)) :=
  match lines with
  | 0 => Some input
  | S lines =>
      match read_line input with
      | (None, _) => None
      | (Some line, rest) =>
          if decide (line = "" ∨ line = CRLF ∨ line = LF) then Some rest
          else drain_headers lines rest
      end
  end.

(** The target of a request line. *)
Definition parse_connect (request_line : string) : option (string * Z) :=
  let parts := split_whitespace request_line in
  let method := default "" (parts !! 0) in
  let target := default "" (parts !! 1) in
  if negb (eq_ignore_ascii_case method "CONNECT") then None
  else
    match rsplit_once ":"%char target with
    | None => None
    | Some (host, port_str) =>
        match parse_u16 port_str with
        | None => None
        | Some port => if is_empty host then None else Some (host, port)
        end
    end.

(** The outer [None] is an I/O error, the inner one a malformed request. *)
Definition read_connect_target (input : list (option string)) : option (option (string * Z)) :=
  match read_line input with
  | (None, _) => None
  | (Some request_line, rest) =>
      if is_empty request_line then Some None
      else
        match drain_headers MAX_HEADER_LINES rest with
        | None => None
        | Some _ => Some (parse_connect request_line)
        end
  end.

(** The name without the brackets of an IPv6 address. *)
Definition connect_host (raw : string) : string := trim_end_char "]"%char (trim_start_char "["%char raw).

Section handle.
(** The network is a state of its own: two lookups of one name may differ, and
    so may two dials of one address.  [lookup] is [lookup_host] within its
    timeout, [dial] says whether a connection was made in time. *)
Context {Net : Type} (lookup : string → Z → Net → option (list (IpAddr * Z)) * Net).
Context (dial : IpAddr * Z → Net → bool * Net).

Fixpoint connect_first_reachable (addrs : list (IpAddr * Z)) (net : Net)
    : option (IpAddr * Z) * list NetAction * Net :=
  match addrs with
  | [] => (None, [], net)
  | sa :: rest =>
      let '(connected, net) := dial sa net in
      if connected : bool then (Some sa, [Dial sa true], net)
      else let '(r, acts, net) := connect_first_reachable rest net in (r, Dial sa false :: acts, net)
  end.

Definition handle_connect (input : list (option string)) (now : Z) (px : EgressProxy) (net : Net)
    : ConnectOutcome * list NetAction * EgressProxy * Net :=
  match read_connect_target input with
  | None => (ClientIoError, [], px, net)
  | Some None => (BadRequest, [], px, net)
  | Some (Some (raw, port)) =>
      let host := connect_host raw in
      let '(ok, px) := check host port now px in
      if negb ok then (Forbidden, [], px, net)
      else
        let '(answer, net) := lookup host port net in
        match answer with
        | None => (BadGateway, [Lookup host port answer], px, net)
        | Some resolved =>
            if existsb (λ sa, is_private_or_local sa.1) resolved
            then (Forbidden, [Lookup host port answer], px, net)
            else
              let '(reached, acts, net) := connect_first_reachable resolved net in
              (match reached with None => BadGateway | Some sa => Tunnel sa end,
               Lookup host port answer :: acts, px, net)
        end
  end.
End handle.
End proxy.

(** ** Patterns *)

Lemma ends_with_len suf s : ends_with suf s = true → str_len suf ≤ str_len s.
Proof. intros [r ->]%ends_with_spec. rewrite str_len_app. lia. Qed.

Lemma matches_wildcard suffix domain :
  matches_domain ("*." +:+ suffix) domain = true ↔
  ∃ label, label ≠ "" ∧ domain = label +:+ "." +:+ suffix.
Proof.
  unfold matches_domain. rewrite (proj2 (strip_prefix_Some _ _ suffix)) by done.
  rewrite !andb_true_iff, Nat.ltb_lt, bool_decide_eq_true. split.
  - intros [[[r ->]%ends_with_spec Hlen] Hdot]. rewrite str_len_app in *.
    replace (str_len r + str_len suffix - str_len suffix - 1) with (str_len r - 1) in Hdot by lia.
    rewrite chars_app, lookup_app_l in Hdot by (unfold str_len in *; lia).
    assert (ends_with_char "."%char r = true) as [label ->]%ends_with_char_spec.
    { unfold ends_with_char. rewrite last_lookup.
      replace (pred (length (chars r))) with (str_len r - 1) by (unfold str_len; lia).
      rewrite Hdot. by apply bool_decide_eq_true. }
    exists label. rewrite append_assoc. split; [|done].
    intros ->. rewrite append_nil_l in Hlen. change (str_len ".") with 1 in Hlen. lia.
  - intros (label & Hl & ->). rewrite !str_len_app. change (str_len ".") with 1.
    assert (0 < str_len label) by (destruct label; [done|unfold str_len; cbn; lia]).
    split_and!.
    + apply ends_with_spec. exists (label +:+ "."). by rewrite append_assoc.
    + lia.
    + rewrite chars_app.
      replace (str_len label + (1 + str_len suffix) - str_len suffix - 1)
        with (length (chars label) + 0) by (unfold str_len; lia).
      by rewrite lookup_app_r, Nat.add_comm, Nat.add_sub by lia.
Qed.

(** Domain patterns.  A pattern [*.suffix] matches exactly the names that
    put a non-empty part and a dot before the suffix, so never the suffix
    itself nor a name that merely ends with the same letters; any other
    pattern matches exactly the names equal to it up to ASCII case. *)
Theorem matches_domain_spec pattern domain :
  matches_domain pattern domain = true ↔
    (∃ suffix label, pattern = "*." +:+ suffix ∧ label ≠ "" ∧
       domain = label +:+ "." +:+ suffix) ∨
    (starts_with "*." pattern = false ∧
       to_ascii_lowercase pattern = to_ascii_lowercase domain).
Proof.
  destruct (starts_with "*." pattern) eqn:Hw.
  - pose proof Hw as [suffix ->]%starts_with_spec. rewrite matches_wildcard. split.
    + intros (label & ? & ?). left. exists suffix, label. done.
    + intros [(suf & label & Heq & ? & ?)|[? _]]; [|done].
      exists label. simplify_eq. done.
  - unfold matches_domain. destruct (strip_prefix "*." pattern) eqn:Hs.
    + apply strip_prefix_Some in Hs as ->. by rewrite starts_with_self in Hw.
    + unfold eq_ignore_ascii_case. rewrite bool_decide_eq_true. split; [by right|].
      intros [(suf & ? & -> & _)|[_ ?]]; [|done].
      by rewrite starts_with_self in Hw.
Qed.

(** The two branches treat case differently: the exact one ignores it, the
    wildcard one does not. *)
Lemma wildcard_case_sensitive :
  matches_domain "api.example.com" "API.EXAMPLE.COM" = true ∧
  matches_domain "*.example.com" "API.EXAMPLE.COM" = false.
Proof. split; reflexivity. Qed.

(** ** The address filter against the list of reserved blocks

    An IPv4 address as a 32-bit number, and membership in a CIDR block. *)

Definition ip4 (a b c d : Z) : Z := (a * 2 ^ 24 + b * 2 ^ 16 + c * 2 ^ 8 + d)%Z.
Definition in_block (block : Z * Z) (addr : Z) : Prop :=
  let '(base, len) := block in (addr / 2 ^ (32 - len) = base / 2 ^ (32 - len))%Z.
Definition RESERVED_V4 : list (Z * Z) :=
  [(ip4 0 0 0 0, 8%Z); (ip4 10 0 0 0, 8%Z); (ip4 100 64 0 0, 10%Z); (ip4 127 0 0 0, 8%Z);
   (ip4 169 254 0 0, 16%Z); (ip4 172 16 0 0, 12%Z); (ip4 192 0 0 0, 24%Z);
   (ip4 192 0 2 0, 24%Z); (ip4 192 168 0 0, 16%Z); (ip4 198 18 0 0, 15%Z);
   (ip4 198 51 100 0, 24%Z); (ip4 203 0 113 0, 24%Z); (ip4 224 0 0 0, 4%Z);
   (ip4 240 0 0 0, 4%Z)].

Lemma land_C0 b : octet b → (Z.land b 0xC0 = 0x40 ↔ 64 ≤ b < 128)%Z.
Proof. revert b. apply (octet_forall (λ b, Z.land b 0xC0 = 0x40 ↔ 64 ≤ b < 128)%Z). by vm_compute. Qed.
Lemma land_FE b : octet b → (Z.land b 0xFE = 18 ↔ 18 ≤ b < 20)%Z.
Proof. revert b. apply (octet_forall (λ b, Z.land b 0xFE = 18 ↔ 18 ≤ b < 20)%Z). by vm_compute. Qed.

(** The filter as ranges of octets. *)
Definition reserved_ranges (a b c d : Z) : Prop :=
  (a = 0 ∨ a = 10 ∨ (a = 100 ∧ 64 ≤ b < 128) ∨ a = 127 ∨ (a = 169 ∧ b = 254) ∨
   (a = 172 ∧ 16 ≤ b < 32) ∨ (a = 192 ∧ b = 0 ∧ c = 0) ∨ (a = 192 ∧ b = 0 ∧ c = 2) ∨
   (a = 192 ∧ b = 168) ∨ (a = 198 ∧ 18 ≤ b < 20) ∨ (a = 198 ∧ b = 51 ∧ c = 100) ∨
   (a = 203 ∧ b = 0 ∧ c = 113) ∨ 224 ≤ a < 240 ∨ 240 ≤ a)%Z.

(** Prove a disjunction of linear facts by finding the branch that holds. *)
Ltac pick_lia :=
  lazymatch goal with
  | |- _ ∨ _ => first [left; pick_lia | right; pick_lia]
  | |- _ => lia
  end.

Lemma filter_ranges a b c d :
  ip_ok (V4 a b c d) → is_private_or_local_v4 a b c d = true ↔ reserved_ranges a b c d.
Proof.
  intros (Ha & Hb & Hc & Hd). unfold is_private_or_local_v4, is_private, is_unspecified, reserved_ranges.
  rewrite !orb_true_iff, !andb_true_iff, !Z.eqb_eq, !Z.leb_le, (land_C0 b Hb), (land_FE b Hb).
  unfold octet in *. split; intros Hr; repeat destruct Hr as [Hr|Hr]; pick_lia.
Qed.

(** Membership in a block is linear arithmetic once the powers are numbers. *)
Ltac block_lia :=
  unfold in_block, ip4, ip_ok, octet in *;
  repeat match goal with
  | |- context [(2 ^ ?e)%Z] => let v := eval vm_compute in (2 ^ e)%Z in change (2 ^ e)%Z with v
  end;
  Z.to_euclidean_division_equations; lia.

Lemma in_block_8 a b c d k : ip_ok (V4 a b c d) → in_block (ip4 k 0 0 0, 8%Z) (ip4 a b c d) ↔ a = k.
Proof. intros; block_lia. Qed.
Lemma in_block_16 a b c d k l :
  ip_ok (V4 a b c d) → octet l →
  in_block (ip4 k l 0 0, 16%Z) (ip4 a b c d) ↔ a = k ∧ b = l.
Proof. intros; block_lia. Qed.
Lemma in_block_24 a b c d k l m :
  ip_ok (V4 a b c d) → octet l → octet m →
  in_block (ip4 k l m 0, 24%Z) (ip4 a b c d) ↔ a = k ∧ b = l ∧ c = m.
Proof. intros; block_lia. Qed.

Lemma blocks_ranges a b c d :
  ip_ok (V4 a b c d) →
  Exists (λ block, in_block block (ip4 a b c d)) RESERVED_V4 ↔ reserved_ranges a b c d.
Proof.
  intros Hip. unfold RESERVED_V4.
  rewrite !Exists_cons, Exists_nil.
  rewrite !in_block_8, !in_block_16, !in_block_24 by (try done; unfold octet; lia).
  assert (in_block (ip4 100 64 0 0, 10%Z) (ip4 a b c d) ↔ (a = 100 ∧ 64 ≤ b < 128)%Z) as ->.
  { block_lia. }
  assert (in_block (ip4 172 16 0 0, 12%Z) (ip4 a b c d) ↔ (a = 172 ∧ 16 ≤ b < 32)%Z) as ->.
  { block_lia. }
  assert (in_block (ip4 198 18 0 0, 15%Z) (ip4 a b c d) ↔ (a = 198 ∧ 18 ≤ b < 20)%Z) as ->.
  { block_lia. }
  assert (in_block (ip4 224 0 0 0, 4%Z) (ip4 a b c d) ↔ (224 ≤ a < 240)%Z) as ->.
  { block_lia. }
  assert (in_block (ip4 240 0 0 0, 4%Z) (ip4 a b c d) ↔ (240 ≤ a)%Z) as ->.
  { block_lia. }
  unfold reserved_ranges. tauto.
Qed.

Lemma mapped_v4 a b c d :
  ip_ok (V4 a b c d) →
  to_ipv4_mapped [0; 0; 0; 0; 0; 65535; a * 256 + b; c * 256 + d]%Z = Some (a, b, c, d).
Proof.
  intros (? & ? & ? & ?). unfold to_ipv4_mapped, octet in *.
  assert (∀ x y, 0 ≤ y < 256 → Z.shiftr (x * 256 + y) 8 = x ∧ Z.land (x * 256 + y) 255 = y)%Z as H8.
  { intros x y Hy. rewrite Z.shiftr_div_pow2 by lia.
    change 255%Z with (Z.ones 8). rewrite Z.land_ones by lia. change (2 ^ 8)%Z with 256%Z.
    Z.to_euclidean_division_equations. lia. }
  destruct (H8 a b), (H8 c d); [done..|]. by f_equal; repeat f_equal.
Qed.

(** The address filter is the published list.  On IPv4 the filter refuses
    exactly the addresses of the fourteen reserved CIDR blocks, loopback,
    private, link-local (with the cloud metadata address), carrier NAT, test,
    benchmark, multicast and future use among them; an IPv4 address wrapped in
    IPv6 gets the same verdict as the plain one. *)
Theorem private_or_local_exact a b c d :
  ip_ok (V4 a b c d) →
  (is_private_or_local (V4 a b c d) = true ↔
     Exists (λ block, in_block block (ip4 a b c d)) RESERVED_V4) ∧
  is_private_or_local (V6 [0; 0; 0; 0; 0; 65535; a * 256 + b; c * 256 + d]%Z) =
    is_private_or_local (V4 a b c d).
Proof.
  intros Hip. split; [by rewrite (blocks_ranges _ _ _ _ Hip), <- (filter_ranges _ _ _ _ Hip)|].
  unfold is_private_or_local. rewrite (mapped_v4 _ _ _ _ Hip).
  rewrite bool_decide_eq_false_2 by done. done.
Qed.

Lemma private_or_local_exact_witness :
  is_private_or_local (V4 169 254 169 254) = true ∧
  is_private_or_local (V6 [0; 0; 0; 0; 0; 65535; 169 * 256 + 254; 169 * 256 + 254]%Z) = true.
Proof.
  assert (ip_ok (V4 169 254 169 254)) as Hip by (unfold ip_ok, octet; lia).
  split; [reflexivity|].
  rewrite (proj2 (private_or_local_exact 169 254 169 254 Hip)). reflexivity.
Defined.

(** ** Connecting *)

(** The dials of one walk over the addresses: failed ones, and at the end the
    one that worked, if any did. *)
Definition dials (tried : list (IpAddr * Z)) (reached : option (IpAddr * Z)) : list NetAction :=
  ((λ sa, Dial sa false) <$> tried) ++ match reached with Some sa => [Dial sa true] | None => [] end.

Lemma connect_first_reachable_spec {Net} (dial : IpAddr * Z → Net → bool * Net) addrs net r acts net' :
  connect_first_reachable dial addrs net = (r, acts, net') →
  ∃ tried, acts = dials tried r ∧ match r with Some sa => tried ++ [sa] `prefix_of` addrs | None => tried = addrs end.
Proof.
  revert net r acts net'. induction addrs as [|sa rest IH]; intros net r acts net'; cbn [connect_first_reachable].
  { intros [= <- <- <-]. by exists []. }
  destruct (dial sa net) as [[] n1]. { intros [= <- <- <-]. exists []. split; [done|]. by exists rest. }
  destruct (connect_first_reachable dial rest n1) as [[r1 acts1] n2] eqn:Hc. intros [= <- <- <-].
  apply IH in Hc as (tried & -> & Hr). exists (sa :: tried). split; [done|].
  destruct r1; [by apply prefix_cons|by rewrite Hr].
Qed.

(** C19: What a CONNECT request can make the daemon do.  Nothing, unless the
    request names a target whose host, without brackets, the policy allows.
    Then it looks that host up, with the port of the request, once, and dials
    nothing that this one answer does not give: no address at all if one of
    them is private or local, and else the addresses of the answer in order,
    each once, up to the first that connects.  A tunnel is opened exactly to
    that one.  The resolver and the network may answer as they like, and
    differently each time they are asked; the policy stays as it was. *)
Theorem connect_respects_policy {Net} values lookup dial input now px (net : Net) :
  let '(out, acts, px', _) := handle_connect values lookup dial input now px net in
  policy px' = policy px ∧
  ((acts = [] ∧ ∀ sa, out ≠ Tunnel sa) ∨
   ∃ raw port, read_connect_target input = Some (Some (raw, port)) ∧
     let host := connect_host raw in
     let answer := (lookup host port net).1 in
     policy_allows (policy px) host = true ∧
     ((acts = [Lookup host port answer] ∧ ∀ sa, out ≠ Tunnel sa) ∨
      ∃ addrs tried reached, answer = Some addrs ∧ (∀ sa, sa ∈ addrs → is_private_or_local sa.1 = false) ∧
        acts = Lookup host port answer :: dials tried reached ∧
        match reached with
        | Some sa => out = Tunnel sa ∧ tried ++ [sa] `prefix_of` addrs
        | None => out = BadGateway ∧ tried = addrs
        end)).
Proof.
  unfold handle_connect. destruct (read_connect_target input) as [[[raw port]|]|];
    [|split; [done|by left]..].
  unfold check. cbn [policy record_egress].
  destruct (policy_allows (policy px) (connect_host raw)) eqn:Hok; cbn [negb]; [|split; [done|by left]].
  destruct (lookup (connect_host raw) port net) as [[addrs|] n1] eqn:Hl.
  2:{ split; [done|]. right. exists raw, port. split; [done|]. cbn zeta. rewrite Hl. split; [done|by left]. }
  destruct (existsb _ addrs) eqn:Hpriv.
  { split; [done|]. right. exists raw, port. split; [done|]. cbn zeta. rewrite Hl. split; [done|by left]. }
  destruct (connect_first_reachable dial addrs n1) as [[r acts] n2] eqn:Hc.
  apply connect_first_reachable_spec in Hc as (tried & -> & Hr). split; [done|]. right. exists raw, port.
  split; [done|]. cbn zeta. rewrite Hl. split; [done|]. right. exists addrs, tried, r. split_and!; [done| |done|].
  - intros sa Hin. apply not_true_iff_false. intros Hp. apply not_true_iff_false in Hpriv.
    apply Hpriv, existsb_exists. exists sa. split; [by apply list_elem_of_In|done].
  - by destruct r.
Qed.

(** A resolver that answers with a public address first and with the metadata
    service afterwards: the tunnel goes to the first answer. *)
Example rebinding_is_in_vain :
  let lookup (_ : string) (port : Z) (asked : nat) :=
    (Some [((if decide (asked = 0) then V4 93 184 216 34 else V4 169 254 169 254), port)], S asked) in
  let '(out, acts, _, _) := handle_connect (λ m, (map_to_list m).*2) lookup (λ _ n, (true, n))
    [Some ("CONNECT a.com:443 HTTP/1.1" +:+ CRLF); Some CRLF] 7 (proxy_new "s" (mkEgress EgressAllowlist ["a.com"])) 0 in
  out = Tunnel (V4 93 184 216 34, 443%Z) ∧
  acts = [Lookup "a.com" 443 (Some [(V4 93 184 216 34, 443%Z)]); Dial (V4 93 184 216 34, 443%Z) true].
Proof. vm_compute. auto. Qed.

(** ** Checks, the log and allowlist additions *)

Definition log_ok (px : EgressProxy) : Prop :=
  0 < log_capacity px ∧ length (px_log px) ≤ log_capacity px.

(** Every check is decided by the policy and recorded.  The answer is the
    policy's; the newest log entry names the destination and the decision;
    the log keeps within its capacity, dropping only its oldest entry; the
    policy does not change. *)
Theorem check_recorded values domain port now px :
  log_ok px →
  let '(ok, px') := check values domain port now px in
  ok = policy_allows (policy px) domain ∧ policy px' = policy px ∧ log_ok px' ∧
  last (px_log px') = Some (mkEgressLog (px_sandbox_id px) domain port ok now) ∧
  px_log px' = trim_front (log_capacity px)
    (px_log px ++ [mkEgressLog (px_sandbox_id px) domain port ok now]).
Proof.
  intros [Hcap Hlen]. unfold check, record_egress, log_ok. cbn.
  rewrite last_snoc, trim_front_drop, !length_app. cbn.
  destruct (Nat.leb_spec (log_capacity px) (length (px_log px))) as [Hge|Hlt].
  - destruct (px_log px) as [|e l]; cbn in *; [lia|].
    replace (S (length l + 1) - log_capacity px) with 1 by lia. cbn.
    split_and!; try done; lia.
  - replace (length (px_log px) + 1 - log_capacity px) with 0 by lia.
    split_and!; try done; lia.
Qed.

Lemma check_recorded_witness :
  let px := proxy_new "s" (mkEgress EgressAllowlist ["a.com"]) in
  policy (check (λ m, (map_to_list m).*2) "b.com" 443 7 px).2 = policy px.
Proof.
  intros px. assert (log_ok px) as Hok by (split; cbn; lia).
  exact (proj1 (proj2 (check_recorded (λ m, (map_to_list m).*2) "b.com" 443 7 px Hok))).
Defined.

Lemma add_domains_spec doms new :
  doms `prefix_of` add_domains doms new ∧
  (∀ d, d ∈ add_domains doms new ↔ d ∈ doms ∨ d ∈ new) ∧
  (NoDup doms → NoDup (add_domains doms new)).
Proof.
  unfold add_domains. revert doms. induction new as [|x new IH]; intros doms; cbn.
  { split_and!; [done|set_solver|done]. }
  case_decide as Hx.
  - destruct (IH doms) as (H1 & H2 & H3). split_and!; [done| |done].
    intros d. rewrite H2. set_solver.
  - destruct (IH (doms ++ [x])) as (H1 & H2 & H3). split_and!.
    + etrans; [by apply prefix_app_r|done].
    + intros d. rewrite H2. set_solver.
    + intros Hnd. apply H3, NoDup_app. split_and!; [done| |apply NoDup_singleton].
      by intros d Hd ->%list_elem_of_singleton.
Qed.

(** Allowlist additions.  Adding domains to a running proxy keeps its mode
    and the entries it has, in order and without duplicates; afterwards an
    allowlist admits a name exactly if it did before or a new pattern matches
    it, and a proxy in another mode decides as before. *)
Theorem allow_domains_extends new px domain :
  let px' := allow_domains new px in
  egress_mode (policy px') = egress_mode (policy px) ∧
  domains (policy px) `prefix_of` domains (policy px') ∧
  (NoDup (domains (policy px)) → NoDup (domains (policy px'))) ∧
  policy_allows (policy px') domain =
    policy_allows (policy px) domain ||
    (bool_decide (egress_mode (policy px) = EgressAllowlist) &&
     existsb (λ pattern, matches_domain pattern domain) new).
Proof.
  destruct (add_domains_spec (domains (policy px)) new) as (Hpre & Hin & Hnd).
  cbn. split_and!; [done..|]. unfold policy_allows. cbn.
  destruct (egress_mode (policy px)); cbn [orb]; [done| |done].
  rewrite bool_decide_eq_true_2 by done. cbn [andb].
  apply eq_true_iff_eq. rewrite orb_true_iff, !existsb_exists.
  setoid_rewrite <- list_elem_of_In. setoid_rewrite Hin.
  split; [intros (p & [?|?] & ?)|intros [(p & ? & ?)|(p & ? & ?)]]; eauto.
Qed.

(** ** The record of refused hosts *)

Section blocked_props.
Context (values : gmap string BlockedDestination → list BlockedDestination).
Context (values_spec : ∀ m, values m ≡ₚ (map_to_list m).*2).

Record blocked_ok (hosts : gmap string BlockedDestination) : Prop := {
  bo_size : size hosts ≤ MAX_BLOCKED_HOSTS;
  bo_keys k d : hosts !! k = Some d → host d = k ∧ to_ascii_lowercase k = k;
}.

Lemma min_by_key_spec {A} (key : A → Z) l :
  match min_by_key key l with
  | Some x => x ∈ l ∧ ∀ y, y ∈ l → (key x ≤ key y)%Z
  | None => l = []
  end.
Proof.
  induction l as [|x l IH]; cbn; [done|].
  destruct (min_by_key key l) as [y|].
  - destruct IH as [Hy Hmin]. destruct (Z.leb_spec (key x) (key y)).
    + split; [by left|]. intros z [->|Hz]%elem_of_cons; [lia|]. specialize (Hmin z Hz). lia.
    + split; [by right|]. intros z [->|Hz]%elem_of_cons; [lia|]. by apply Hmin.
  - subst. split; [by left|]. intros y ->%list_elem_of_singleton. lia.
Qed.

Lemma elem_of_values m d : d ∈ values m ↔ ∃ k, m !! k = Some d.
Proof.
  rewrite values_spec, list_elem_of_fmap. split.
  - intros ([k d'] & -> & ?%elem_of_map_to_list). eauto.
  - intros (k & ?). exists (k, d). by rewrite elem_of_map_to_list.
Qed.

Lemma oldest_spec hosts :
  blocked_ok hosts → hosts ≠ ∅ →
  ∃ k d, min_by_key last_seen (values hosts) = Some d ∧ host d = k ∧ hosts !! k = Some d ∧
    ∀ k' d', hosts !! k' = Some d' → (last_seen d ≤ last_seen d')%Z.
Proof.
  intros Hok Hne. pose proof (min_by_key_spec last_seen (values hosts)) as Hmin.
  destruct (min_by_key last_seen (values hosts)) as [d|].
  - destruct Hmin as [(k & Hk)%elem_of_values Hle].
    exists k, d. destruct (bo_keys _ Hok _ _ Hk) as [? _]. split_and!; [done..|].
    intros k' d' Hk'. apply Hle, elem_of_values. eauto.
  - exfalso. apply Hne, map_eq. intros k. rewrite lookup_empty.
    destruct (hosts !! k) as [d|] eqn:Hk; [|done].
    assert (d ∈ values hosts) as Hd by (apply elem_of_values; eauto).
    rewrite Hmin in Hd. by apply not_elem_of_nil in Hd.
Qed.

(** The map after room was made for a new host: one entry gone at most, and
    only the least recently seen. *)
Lemma make_room_spec hosts :
  blocked_ok hosts →
  let hosts' :=
    if MAX_BLOCKED_HOSTS <=? size hosts then
      match host <$> min_by_key last_seen (values hosts) with
      | Some oldest => delete oldest hosts
      | None => hosts
      end
    else hosts in
  hosts' ⊆ hosts ∧ size hosts' < MAX_BLOCKED_HOSTS ∧
  (∀ k d, hosts !! k = Some d → hosts' !! k = None →
     size hosts = MAX_BLOCKED_HOSTS ∧
     (∀ k' d', hosts !! k' = Some d' → (last_seen d ≤ last_seen d')%Z) ∧
     hosts' = delete k hosts).
Proof.
  intros Hok. destruct (Nat.leb_spec MAX_BLOCKED_HOSTS (size hosts)) as [Hfull|]; cbn.
  2: { split_and!; [done|lia|]. intros; congruence. }
  pose proof (bo_size _ Hok). assert (hosts ≠ ∅) as Hne.
  { intros ->. rewrite map_size_empty in Hfull. unfold MAX_BLOCKED_HOSTS in Hfull. lia. }
  destruct (oldest_spec hosts Hok Hne) as (k & d & -> & Hhost & Hk & Hmin). cbn. rewrite Hhost.
  split_and!.
  - apply delete_subseteq.
  - rewrite map_size_delete_Some by eauto. unfold MAX_BLOCKED_HOSTS in *. lia.
  - intros k' d' Hk' [->|?]%lookup_delete_None; simplify_eq. split_and!; [lia|done..].
Qed.

(** The record of refused hosts is bounded and keeps the newest.  After a
    refusal of [raw], the map holds at most 256 hosts under their lower-case
    names; the refused host is there, seen now, its counter one up or started
    at one; every other host still there is unchanged; and a host that was
    dropped was the only one, the map was full, and no remembered host had
    been seen longer ago. *)
Theorem blocked_record_bounded raw now hosts :
  blocked_ok hosts →
  let h := to_ascii_lowercase raw in
  let hosts' := blocked_record values raw now hosts in
  blocked_ok hosts' ∧
  hosts' !! h = Some (mkBlocked h
    (match hosts !! h with Some d => (count d + 1) mod 2 ^ 64 | None => 1 end) now) ∧
  (∀ k, k ≠ h → hosts' !! k = hosts !! k ∨
     ∃ d, hosts !! k = Some d ∧ hosts' = <[h := mkBlocked h 1 now]> (delete k hosts) ∧
       size hosts = MAX_BLOCKED_HOSTS ∧
       ∀ k' d', hosts !! k' = Some d' → (last_seen d ≤ last_seen d')%Z).
Proof.
  intros Hok h. unfold blocked_record. fold h.
  assert (to_ascii_lowercase h = h) as Hlow by apply to_ascii_lowercase_idemp.
  destruct (hosts !! h) as [seen|] eqn:Hh; cbv zeta.
  - destruct (bo_keys _ Hok _ _ Hh) as [-> _]. split_and!.
    + split; [rewrite map_size_insert_Some by eauto; apply Hok|].
      intros k d [[<- <-]|[_ Hk]]%lookup_insert_Some; [done|]. by eapply bo_keys.
    + by rewrite lookup_insert_eq.
    + intros k Hk. left. by rewrite lookup_insert_ne.
  - pose proof (make_room_spec hosts Hok) as (Hsub & Hsize & Hlost). cbv zeta in Hsub, Hsize, Hlost.
    set (hosts' := if _ <=? _ then _ else _) in *. clearbody hosts'.
    assert (hosts' !! h = None) as Hh' by (by eapply lookup_weaken_None).
    split_and!.
    + split; [rewrite map_size_insert_None by done; unfold MAX_BLOCKED_HOSTS in *; lia|].
      intros k d [[<- <-]|[_ Hk]]%lookup_insert_Some; [done|].
      eapply bo_keys; [done|]. by eapply lookup_weaken.
    + by rewrite lookup_insert_eq.
    + intros k Hk. rewrite lookup_insert_ne by done.
      destruct (hosts !! k) as [d|] eqn:Hkd.
      * destruct (hosts' !! k) as [d'|] eqn:Hkd'.
        { left. symmetry. rewrite <- Hkd. by eapply lookup_weaken. }
        right. destruct (Hlost k d Hkd Hkd') as (? & ? & ->). eauto.
      * left. by eapply lookup_weaken_None.
Qed.

#[local] Instance snapshot_order_total : Total snapshot_order.
Proof.
  intros a b. unfold snapshot_order. destruct (str_le_total (host a) (host b)); lia || idtac.
  all: destruct (Z.lt_trichotomy (last_seen a) (last_seen b)) as [|[|]]; tauto || naive_solver.
Qed.
#[local] Instance snapshot_order_trans : Transitive snapshot_order.
Proof.
  intros a b c. unfold snapshot_order. intros [?|[? ?]] [?|[? ?]]; try (left; lia).
  right. split; [congruence|]. by etrans.
Qed.

Lemma snapshot_sorted hosts : StronglySorted snapshot_order (snapshot values hosts).
Proof. apply (StronglySorted_merge_sort _). Qed.
Lemma snapshot_perm hosts : snapshot values hosts ≡ₚ (map_to_list hosts).*2.
Proof. unfold snapshot. by rewrite merge_sort_Permutation. Qed.
End blocked_props.

(** The snapshot of refused hosts is determined by the map alone: every
    remembered host once, newest first and then by name, whatever order the
    map yields its values in. *)
Theorem snapshot_deterministic values values' hosts :
  (∀ m, values m ≡ₚ (map_to_list m).*2) → (∀ m, values' m ≡ₚ (map_to_list m).*2) →
  blocked_ok hosts →
  snapshot values hosts = snapshot values' hosts ∧
  StronglySorted snapshot_order (snapshot values hosts) ∧
  snapshot values hosts ≡ₚ (map_to_list hosts).*2.
Proof.
  intros Hv Hv' Hok. split; [|by split; [apply snapshot_sorted|apply snapshot_perm]].
  assert (∀ d, d ∈ (map_to_list hosts).*2 → hosts !! host d = Some d) as Hkey.
  { intros d ([k d'] & -> & Hk%elem_of_map_to_list)%list_elem_of_fmap. cbn.
    by destruct (bo_keys _ Hok _ _ Hk) as [-> _]. }
  apply (StronglySorted_unique_strong snapshot_order).
  - intros x1 x2 Hx1 Hx2 H12 H21. rewrite snapshot_perm in Hx1, Hx2 by done.
    apply Hkey in Hx1, Hx2. assert (host x1 = host x2) as Heq; [|congruence].
    unfold snapshot_order in *. destruct H12 as [?|[? ?]], H21 as [?|[? ?]]; try lia.
    by apply (anti_symm str_le).
  - apply snapshot_sorted.
  - apply snapshot_sorted.
  - by rewrite !snapshot_perm.
Qed.

Lemma blocked_record_bounded_witness :
  blocked_ok (blocked_record (λ m, (map_to_list m).*2) "Example.com" 5 ∅).
Proof.
  refine (proj1 (blocked_record_bounded (λ m, (map_to_list m).*2) (λ m, reflexivity _)
    "Example.com" 5 ∅ _)).
  split; [rewrite map_size_empty; unfold MAX_BLOCKED_HOSTS; lia|]. intros k d. by rewrite lookup_empty.
Defined.

Lemma snapshot_deterministic_witness :
  let hosts := {[ "a" := mkBlocked "a" 1 5; "b" := mkBlocked "b" 2 5 ]} in
  StronglySorted snapshot_order (snapshot (λ m, (map_to_list m).*2) hosts).
Proof.
  intros hosts.
  refine (proj1 (proj2 (snapshot_deterministic (λ m, (map_to_list m).*2)
    (λ m, (map_to_list m).*2) hosts (λ m, reflexivity _) (λ m, reflexivity _) _))).
  split; [vm_compute; lia|].
  intros k d [[<- <-]|[_ [<- <-]%lookup_singleton_Some]]%lookup_insert_Some; split; reflexivity.
Defined.
