(* ===== verification/Store.v ===== *)
(** * Store: sandbox records on disk

    Models [ward-core/src/sandbox/store.rs]: the record of a sandbox, token
    hashes, and the atomic replacement of [meta.json].  The file system is
    modelled for one sandbox directory and its entry in the parent, with what a
    crash may do to them: data that was not synced may be anything, a rename
    that was not made durable may be undone, and so may the making of the
    directory.  JSON and SHA-256 are third-party code and hence arguments. *)

From stdpp Require Import base list numbers option strings pretty gmap.
From Stdlib Require Import ZArith Lia Ascii.
From S2P Require Import Prelude Text Net Protocol.

Record SandboxMeta := mkMeta {
  id : string;
  options : CreateOpts;
  created_at : Z;
  status : SandboxStatus;
  exit_code : option Z;
  started_at : option Z;
  finished_at : option Z;
  end_reason : option EndReason;
  token_hash : string;
  had_secrets : bool;
  restart_count : Z;
  manually_stopped : bool;
}.

Definition set_status (s : SandboxStatus) (m : SandboxMeta) : SandboxMeta :=
  mkMeta (id m) (options m) (created_at m) s (exit_code m) (started_at m) (finished_at m)
    (end_reason m) (token_hash m) (had_secrets m) (restart_count m) (manually_stopped m).

(** ** Tokens *)

(** [{byte:02x}]. *)
Definition hex_digit (n : Z) : ascii := ascii_of_nat (Z.to_nat (if (n <? 10)%Z then 48 + n else 87 + n)).
Definition hex_byte (b : Z) : string := String (hex_digit (b / 16)) (String (hex_digit (b mod 16)) "").

Definition hash_token (digest : string → list Z) (token : string) : string :=
  foldl (λ hex byte, hex +:+ hex_byte byte) "" (digest token).

(** [ct_eq] compares for equality, in constant time. *)
Definition token_hash_eq (a b : string) : bool := bool_decide (a = b).

(** ** One sandbox directory *)

Record File := mkFile { data : string; mode : Z; synced : bool }.
Record Dir := mkDir {
  dir_mode : Z;
  (** [meta.json] as processes see it, and as the disk has it. *)
  meta_file : option File;
  disk_meta : option File;
  (** [meta.json.tmp]. *)
  tmp_file : option File;
  rootfs : bool;
}.
Definition DIR_MODE : Z := 448.
Definition FILE_MODE : Z := 384.

Definition set_tmp (f : option File) (d : Dir) : Dir :=
  mkDir (dir_mode d) (meta_file d) (disk_meta d) f (rootfs d).

(** The system calls of [save], in order. *)
Inductive SaveOp :=
| SetDirMode
| OpenTmp
| SetTmpMode
| WriteTmp (text : string)
| SyncTmp
| RenameTmp
| SyncDir.

Definition save_ops (text : string) : list SaveOp :=
  [SetDirMode; OpenTmp; SetTmpMode; WriteTmp text; SyncTmp; RenameTmp; SyncDir].

(** What a call does when it succeeds; [None] if it cannot. *)
Definition op_ok (op : SaveOp) (d : Dir) : option Dir :=
  match op with
  | SetDirMode => Some (mkDir DIR_MODE (meta_file d) (disk_meta d) (tmp_file d) (rootfs d))
  | OpenTmp =>
      Some (set_tmp (Some (mkFile "" (match tmp_file d with Some f => mode f | None => FILE_MODE end)
                            false)) d)
  | SetTmpMode => f ← tmp_file d; Some (set_tmp (Some (mkFile (data f) FILE_MODE (synced f))) d)
  | WriteTmp text => f ← tmp_file d; Some (set_tmp (Some (mkFile (data f +:+ text) (mode f) false)) d)
  | SyncTmp => f ← tmp_file d; Some (set_tmp (Some (mkFile (data f) (mode f) true)) d)
  | RenameTmp => f ← tmp_file d; Some (mkDir (dir_mode d) (Some f) (disk_meta d) None (rootfs d))
  | SyncDir => Some (mkDir (dir_mode d) (meta_file d) (meta_file d) (tmp_file d) (rootfs d))
  end.

(** What a failed call may leave: a write may have stored any part of the
    text, the other calls leave the directory as it was. *)
Inductive op_fails : SaveOp → Dir → Dir → Prop :=
| op_fails_same op d : op_fails op d d
| op_fails_write text part f d :
    tmp_file d = Some f →
    op_fails (WriteTmp text) d (set_tmp (Some (mkFile (data f +:+ part) (mode f) false)) d).

(** The runs of a list of calls: [RDone] after all of them, [RFailed] when
    one returned an error, [RCrashed] when the machine stopped in between. *)
Inductive RunEnd := RDone | RFailed | RCrashed.
Inductive run_ops : list SaveOp → Dir → RunEnd → Dir → Prop :=
| run_done d : run_ops [] d RDone d
| run_step op ops d d' e d'' :
    op_ok op d = Some d' → run_ops ops d' e d'' → run_ops (op :: ops) d e d''
| run_failed op ops d d' : op_fails op d d' → run_ops (op :: ops) d RFailed d'
| run_crashed ops d : run_ops ops d RCrashed d.

(** The call sequence without faults, for running it. *)
Fixpoint exec_ops (ops : list SaveOp) (d : Dir) : option Dir :=
  match ops with
  | [] => Some d
  | op :: ops => d' ← op_ok op d; exec_ops ops d'
  end.

(** A crash: unsynced data may become anything, and the directory entry is
    the one processes saw or the one on disk. *)
Definition file_crash (f f' : option File) : Prop :=
  match f, f' with
  | Some f, Some f' => mode f' = mode f ∧ (synced f = true → data f' = data f)
  | None, None => True
  | _, _ => False
  end.
Inductive crash (d : Dir) : Dir → Prop :=
| crashed m m' tmp :
    m = meta_file d ∨ m = disk_meta d → file_crash m m' →
    crash d (mkDir (dir_mode d) m' m' tmp (rootfs d)).

Section store.
(** [serde_json::to_vec_pretty] and [from_str] for records. *)
Context (to_json : SandboxMeta → string) (from_json : string → option SandboxMeta).

(** The runs of [MetaStore::save] in an existing sandbox directory. *)
Definition save (meta : SandboxMeta) (d : Dir) (e : RunEnd) (d' : Dir) : Prop :=
  run_ops (save_ops (to_json meta)) d e d'.

(** The place of a sandbox directory in its parent, and whether that entry is
    on disk.  [create_dir_all] makes a missing directory and syncs nothing. *)
Record Place := mkPlace { place_dir : option Dir; place_durable : bool }.
Definition create_dir_all (umask_mode : Z) (p : Place) : Place :=
  match place_dir p with
  | Some _ => p
  | None => mkPlace (Some (mkDir umask_mode None None None false)) false
  end.

(** The runs of the whole [MetaStore::save]. *)
Inductive save_at (meta : SandboxMeta) : Place → RunEnd → Place → Prop :=
| save_no_dir p : save_at meta p RFailed p
| save_crashed p : save_at meta p RCrashed p
| save_in_dir umask_mode p d e d' :
    place_dir (create_dir_all umask_mode p) = Some d → save meta d e d' →
    save_at meta p e (mkPlace (Some d') (place_durable (create_dir_all umask_mode p))).

(** A crash may also lose a directory whose entry is not on disk. *)
Inductive crash_at : Place → Place → Prop :=
| crash_dir d d' durable : crash d d' → crash_at (mkPlace (Some d) durable) (mkPlace (Some d') true)
| crash_lost o : crash_at (mkPlace o false) (mkPlace None true)
| crash_none : crash_at (mkPlace None true) (mkPlace None true).

(** What [load_one] makes of a status found at startup. *)
Definition reconcile (s : SandboxStatus) : SandboxStatus :=
  match s with
  | Running => Stopped
  | Creating | Stopping => Failed
  | s => s
  end.

(** The outcome of [load_one]: the record to adopt, the record it writes
    back, and whether it removes the directory. *)
Record Loaded := mkLoaded {
  adopted : option SandboxMeta;
  write_back : option SandboxMeta;
  removes_dir : bool;
}.

(** [readable] tells whether reading an existing [meta.json] succeeds.  The
    write-back is attempted with [save]; its failure changes nothing here. *)
Definition load_one (readable : bool) (dir_name : string) (d : Dir) : Loaded :=
  match meta_file d with
  | None => mkLoaded None None (negb (rootfs d))
  | Some f =>
      if negb readable then mkLoaded None None false
      else
        match from_json (data f) with
        | None => mkLoaded None None false
        | Some meta =>
            if decide (id meta = dir_name) then
              if decide (reconcile (status meta) = status meta)
              then mkLoaded (Some meta) None false
              else let meta' := set_status (reconcile (status meta)) meta in
                   mkLoaded (Some meta') (Some meta') false
            else mkLoaded None None false
        end
  end.

(** [load_all] over the directories the scan yields. *)
Definition load_all (dirs : list (string * bool * Dir)) : list SandboxMeta :=
  omap (λ '(name, readable, d), adopted (load_one readable name d)) dirs.
End store.

(** ** Token hashes *)

Lemma hex_digit_inj m n : (0 ≤ m < 16)%Z → (0 ≤ n < 16)%Z → hex_digit m = hex_digit n → m = n.
Proof.
  assert (Forall (λ m, Forall (λ n, hex_digit m = hex_digit n → m = n) (seqZ 0 16)) (seqZ 0 16))
    as Hall by (apply (bool_decide_eq_true_1 _); vm_compute; reflexivity).
  intros Hm Hn. rewrite Forall_forall in Hall. setoid_rewrite Forall_forall in Hall.
  apply Hall; apply elem_of_seqZ; lia.
Qed.

Lemma hex_bytes_inj bs cs :
  Forall octet bs → Forall octet cs →
  foldr (λ b s, hex_byte b +:+ s) "" bs = foldr (λ b s, hex_byte b +:+ s) "" cs → bs = cs.
Proof.
  intros Hbs. revert cs. induction Hbs as [|b bs Hb _ IH]; intros cs Hcs; destruct Hcs as [|c cs Hc Hcs];
    cbn; try done.
  unfold hex_byte. rewrite !append_cons, !append_nil_l. intros [= H1 H2 Hrest].
  unfold octet in *. assert (b / 16 = c / 16 ∧ b mod 16 = c mod 16)%Z as [Hd Hm].
  { split; (apply hex_digit_inj; [Z.to_euclidean_division_equations; lia..|done]). }
  f_equal; [|by apply IH]. rewrite (Z.div_mod b 16), (Z.div_mod c 16) by lia. lia.
Qed.

Lemma hash_token_foldr digest token :
  hash_token digest token = foldr (λ b s, hex_byte b +:+ s) "" (digest token).
Proof.
  unfold hash_token. assert (∀ bs acc, foldl (λ hex byte, hex +:+ hex_byte byte) acc bs =
    acc +:+ foldr (λ b s, hex_byte b +:+ s) "" bs) as ->.
  { induction bs as [|b bs IH]; intros acc; cbn; [by rewrite append_nil_r|].
    by rewrite IH, append_assoc. }
  done.
Qed.

Lemma token_hash_eq_digest digest a b :
  (∀ t, Forall octet (digest t)) →
  token_hash_eq (hash_token digest a) (hash_token digest b) = bool_decide (digest a = digest b).
Proof.
  intros Hoct. unfold token_hash_eq. apply bool_decide_ext. rewrite !hash_token_foldr.
  split; [by apply hex_bytes_inj|by intros ->].
Qed.

(** Token hashes compare as digests.  The hexadecimal form loses nothing:
    two stored hashes are equal exactly when the digests of the tokens are,
    and the form has two characters per byte. *)
Theorem token_hash_faithful digest a b :
  (∀ t, Forall octet (digest t)) →
  (token_hash_eq (hash_token digest a) (hash_token digest b) = true ↔ digest a = digest b) ∧
  str_len (hash_token digest a) = 2 * length (digest a).
Proof.
  intros Hoct. rewrite token_hash_eq_digest, bool_decide_eq_true by done. split; [done|].
  rewrite hash_token_foldr. induction (digest a) as [|x l IH]; cbn [foldr length]; [done|].
  rewrite str_len_app, IH. unfold str_len. cbn. lia.
Qed.

Lemma token_hash_faithful_witness :
  token_hash_eq (hash_token (λ t, [Z.of_nat (str_len t) `mod` 256]%Z) "ab")
    (hash_token (λ t, [Z.of_nat (str_len t) `mod` 256]%Z) "cd") = true.
Proof.
  refine (proj2 (proj1 (token_hash_faithful (λ t, [Z.of_nat (str_len t) `mod` 256]%Z) "ab" "cd" _))
    eq_refl).
  intros t. constructor; [|constructor]. apply (Z.mod_pos_bound _ 256). lia.
Defined.

(** ** Atomic replacement *)

Section store_props.
Context (to_json : SandboxMeta → string) (from_json : string → option SandboxMeta).

(** The live and the durable entry are both a fully synced file with one of
    the given texts; [None] stands for no record. *)
Definition file_text (f : option File) (t : option string) : Prop :=
  match f, t with
  | Some f, Some t => data f = t ∧ synced f = true
  | None, None => True
  | _, _ => False
  end.
Definition settled (t : option string) (d : Dir) : Prop :=
  file_text (meta_file d) t ∧ file_text (disk_meta d) t.
Definition between (old : option string) (new : string) (d : Dir) : Prop :=
  (file_text (meta_file d) old ∨ file_text (meta_file d) (Some new)) ∧
  (file_text (disk_meta d) old ∨ file_text (disk_meta d) (Some new)).

Lemma op_fails_record op d d' :
  op_fails op d d' → meta_file d' = meta_file d ∧ disk_meta d' = disk_meta d.
Proof. by destruct 1. Qed.

Lemma run_ops_nil d e d' : run_ops [] d e d' → d' = d ∧ e ≠ RFailed.
Proof. by inversion 1; subst. Qed.

(** One call of a run: it stopped here, or went on. *)
Lemma run_ops_cons op ops d e d' :
  run_ops (op :: ops) d e d' →
  (e ≠ RDone ∧ meta_file d' = meta_file d ∧ disk_meta d' = disk_meta d) ∨
  ∃ d1, op_ok op d = Some d1 ∧ run_ops ops d1 e d'.
Proof.
  inversion 1; subst; [right; eauto|left..]; [|done].
  by split; [|eapply op_fails_record].
Qed.

Lemma save_runs meta d e d' :
  save to_json meta d e d' →
  ∀ old, settled old d →
  between old (to_json meta) d' ∧ (e = RDone → settled (Some (to_json meta)) d' ∧
    dir_mode d' = DIR_MODE ∧ (mode <$> meta_file d') = Some FILE_MODE ∧ tmp_file d' = None).
Proof.
  intros Hrun old [Hm Hd]. unfold save, save_ops in Hrun.
  assert (∀ d1 : Dir, meta_file d1 = meta_file d → disk_meta d1 = disk_meta d →
    between old (to_json meta) d1) as Hold.
  { intros d1 H1 H2. unfold between. rewrite H1, H2. split; by left. }
  do 5 (apply run_ops_cons in Hrun as [(He & Hm' & Hd')|(d1 & Hop & Hrun)];
    [split; [apply Hold; cbn in *; congruence|done]|cbn in Hop; injection Hop as <-]).
  apply run_ops_cons in Hrun as [(He & Hm' & Hd')|(d1 & Hop & Hrun)];
    [split; [apply Hold; cbn in *; congruence|done]|cbn in Hop; injection Hop as <-].
  apply run_ops_cons in Hrun as [(He & Hm' & Hd')|(d1 & Hop & Hrun)].
  - split; [|done]. cbn in Hm', Hd'. split; [right|left]; rewrite ?Hm', ?Hd'; done.
  - cbn in Hop. injection Hop as <-. apply run_ops_nil in Hrun as [-> _]. cbn.
    split; [split; right; done|]. intros _. done.
Qed.

Lemma crash_record old new d d' :
  between old new d → crash d d' →
  data <$> meta_file d' = old ∨ data <$> meta_file d' = Some new.
Proof.
  intros [Hm Hd] Hc. destruct Hc as [m m' tmp Hwhich Hfc]. cbn.
  assert (file_text m old ∨ file_text m (Some new)) as [Ht|Ht]
    by (destruct Hwhich as [-> | ->]; done); [left|right].
  all: destruct m as [f|], m' as [f'|]; cbn in *; try done.
  - destruct old; [|done]. destruct Ht as [<- Hs], Hfc as [_ Hsame]. cbn. by rewrite Hsame.
  - by destruct old.
  - destruct Ht as [<- Hs], Hfc as [_ Hsame]. cbn. by rewrite Hsame.
Qed.

(** The record a directory holds after a crash, as [load_one] reads it. *)
Definition record_text (d : Dir) : option string := data <$> meta_file d.

(** C24: Saving a record is atomic.  Let a sandbox directory hold a synced
    record, or none.  However [save] ends, with success, with an error of any
    of its calls, or cut short by a crash, a crash afterwards leaves exactly
    the old or exactly the new record to be loaded, never a mixture; after a
    successful save it is the new one, it is readable by its owner only, and
    the temporary file is gone. *)
Theorem save_atomic meta d e d1 d2 old :
  settled old d → save to_json meta d e d1 → crash d1 d2 →
  (record_text d2 = old ∨ record_text d2 = Some (to_json meta)) ∧
  (e = RDone → record_text d2 = Some (to_json meta) ∧
     dir_mode d1 = DIR_MODE ∧ (mode <$> meta_file d1) = Some FILE_MODE ∧ tmp_file d1 = None).
Proof.
  intros Hset Hsave Hcrash. destruct (save_runs _ _ _ _ Hsave old Hset) as [Hbet Hdone].
  split; [by eapply crash_record|]. intros He. destruct (Hdone He) as ([Hm Hd] & Hmodes).
  split; [|done]. destruct (crash_record (Some (to_json meta)) (to_json meta) d1 d2);
    [split; by left|done..].
Qed.

(** The record at a place. *)
Definition place_text (p : Place) : option string := place_dir p ≫= record_text.
Definition place_settled (old : option string) (p : Place) : Prop :=
  match place_dir p with Some d => settled old d ∧ place_durable p = true | None => old = None end.

Lemma crash_settled t d d' : settled t d → crash d d' → record_text d' = t.
Proof.
  intros [Hm Hd] Hc. destruct Hc as [m m' tmp Hw Hf]. unfold record_text. cbn.
  assert (file_text m t) as Ht by (destruct Hw as [-> | ->]; done).
  destruct m as [f|], m' as [f'|], t; cbn in *; try done. destruct Ht as [<- Hs], Hf as [_ Hsame]. by rewrite Hsame.
Qed.
Lemma crash_place old p p' : place_settled old p → crash_at p p' → place_text p' = old.
Proof.
  intros Hset Hc. destruct Hc as [d d' b Hc|o|]; unfold place_settled, place_text in *; cbn in *.
  - destruct Hset as [Hs _]. by eapply crash_settled.
  - destruct o; [by destruct Hset|done].
  - done.
Qed.

(** The whole [save], which makes the directory of a new sandbox: a crash
    leaves the old or the new record; after a success it is the new one if the
    directory was there before. *)
Theorem save_at_atomic meta p e p1 p2 old :
  place_settled old p → save_at to_json meta p e p1 → crash_at p1 p2 →
  (place_text p2 = old ∨ place_text p2 = Some (to_json meta)) ∧
  (e = RDone → is_Some (place_dir p) → place_text p2 = Some (to_json meta)).
Proof.
  intros Hset Hsave Hcrash. destruct Hsave as [p|p|u p d e d1 Hd Hrun].
  1, 2: split; [left; by eapply crash_place|done].
  assert (settled old d ∧ (is_Some (place_dir p) → place_durable (create_dir_all u p) = true) ∧
    (place_durable (create_dir_all u p) = false → old = None)) as (Hsd & Hdur & Hnew).
  { unfold place_settled, create_dir_all in *. destruct (place_dir p) as [d0|] eqn:Hp.
    - destruct Hset as [? Hdur]. rewrite Hp in Hd. injection Hd as <-. by rewrite Hdur.
    - injection Hd as <-. subst old. split_and!; [done|by intros []|done]. }
  destruct (save_runs _ _ _ _ Hrun old Hsd) as [Hbet Hdone]. inversion Hcrash as [d0 d2 b Hc| |]; subst.
  - split; [by eapply crash_record|]. intros He _. destruct (Hdone He) as [Hs _]. by eapply crash_settled.
  - split; [left; symmetry; by apply Hnew|]. intros _ Hex. specialize (Hdur Hex). congruence.
Qed.

(** ** Loading *)

(** Save, crash, restart.  A record whose save succeeded is adopted by the
    next daemon, with the fields it was saved with; only its status may
    differ, and no adopted record claims to be running, being created or
    stopping, since no such work survives a restart. *)
Theorem load_after_save meta d d1 d2 old :
  from_json (to_json meta) = Some meta →
  settled old d → save to_json meta d RDone d1 → crash d1 d2 →
  adopted (load_one from_json true (id meta) d2) =
    Some (set_status (reconcile (status meta)) meta) ∧
  (∀ readable name m, adopted (load_one from_json readable name d2) = Some m →
     id m = name ∧ status m ∉ [Running; Creating; Stopping]).
Proof.
  intros Hjson Hset Hsave Hcrash. destruct (save_runs _ _ _ _ Hsave old Hset) as [_ Hdone].
  destruct (Hdone eq_refl) as ([Hm Hd] & _).
  assert (data <$> meta_file d2 = Some (to_json meta)) as Ht.
  { destruct (crash_record (Some (to_json meta)) (to_json meta) d1 d2);
      [split; by left|done..]. }
  unfold load_one. destruct (meta_file d2) as [f|]; [|done]. injection Ht as ->.
  rewrite Hjson. split.
  - cbn. rewrite decide_True by done. case_decide as Hr; [|done]. cbn. rewrite Hr. by destruct meta.
  - intros readable name m. destruct readable; cbn; [|done].
    case_decide as Hid; [|done]. case_decide as Hr; cbn; intros [= <-]; (split; [done|]).
    + destruct (status meta); cbn in Hr; try done; set_solver.
    + destruct (status meta); cbn in *; try done; set_solver.
Qed.

(** Two directories never yield the same id. *)
Lemma load_all_ids dirs m :
  m ∈ load_all from_json dirs → id m ∈ dirs.*1.*1.
Proof.
  unfold load_all. rewrite list_elem_of_omap. intros ([[name r] d] & Hin & Hl).
  apply list_elem_of_fmap. exists (name, r). split.
  - unfold load_one in Hl. repeat (case_match; simplify_eq/=; try done).
  - apply list_elem_of_fmap. by exists (name, r, d).
Qed.
End store_props.

(** ** Witnesses *)

Definition demo_options : CreateOpts :=
  mkOpts "alpine" [] [] egress_default limits_default ∅ None comms_default
    (mkSpec "web" [] 0 "" "" false false [] "" ∅ "" "" None restart_default guest_default).
Definition demo_meta (n : string) (s : SandboxStatus) : SandboxMeta :=
  mkMeta n demo_options 0 s None None None None "" false 0 false.
Definition demo_dir : Dir := mkDir 448 None None None true.
(** A toy encoding that can tell the records of one run apart. *)
Definition demo_to_json (m : SandboxMeta) : string := status_str (status m).
Definition demo_saved : Dir :=
  mkDir 448 (Some (mkFile "running" 384 true)) (Some (mkFile "running" 384 true)) None true.

(** The record of a new sandbox is saved, and a crash takes it with its
    directory, whose entry in the parent was never synced. *)
Example new_directory_lost :
  ∃ p, save_at demo_to_json (demo_meta "a" Running) (mkPlace None true) RDone p ∧
    place_text p = Some "running" ∧ crash_at p (mkPlace None true).
Proof.
  eexists. split; [eapply (save_in_dir _ _ 493); [reflexivity|]|].
  - repeat (eapply run_step; [reflexivity|]). apply run_done.
  - split; [reflexivity|apply crash_lost].
Qed.

Lemma save_atomic_witness :
  record_text demo_saved = None ∨ record_text demo_saved = Some "running".
Proof.
  refine (proj1 (save_atomic demo_to_json (demo_meta "a" Running) demo_dir RDone demo_saved
    demo_saved None _ _ _)).
  - split; exact I.
  - unfold save. repeat (eapply run_step; [reflexivity|]). apply run_done.
  - apply (crashed demo_saved (meta_file demo_saved)); [by left|]. split; reflexivity.
Defined.

Lemma load_after_save_witness :
  adopted (load_one (λ t, if decide (t = "running") then Some (demo_meta "a" Running) else None)
    true "a" demo_saved) = Some (demo_meta "a" Stopped).
Proof.
  refine (proj1 (load_after_save demo_to_json _ (demo_meta "a" Running) demo_dir demo_saved
    demo_saved None _ _ _ _)).
  - reflexivity.
  - split; exact I.
  - unfold save. repeat (eapply run_step; [reflexivity|]). apply run_done.
  - apply (crashed demo_saved (meta_file demo_saved)); [by left|]. split; reflexivity.
Defined.
