(* ===== verification/Volume.v ===== *)
(** * Volume: the persistent volumes

    Models [ward-core/src/volume/manager.rs]: the table of volumes, their
    records on disk, the claims that hold a volume while a sandbox that names
    it is being created, and removal.  The table is only used under its lock,
    so each operation is one step here; the one operation that asks somebody
    else while it holds the lock, the removal, is interleaved with creations
    at the end of the file.

    JSON is third-party code and an argument.  A call to the file system may
    fail at any point: a queue of faults decides, and a failing call leaves
    the record file as it was, as the calls promise. *)

From stdpp Require Import base list numbers option strings pretty gmap sorting.
From Stdlib Require Import ZArith Lia Ascii.
From S2P Require Import Prelude Text Net Protocol Validate.

Definition VOLUMES_DIR : string := "volumes".
Definition DATA_DIR : string := "data".
Definition CREATING_HOLDER : string := "a sandbox being created".
Definition IMPLICIT_VOLUME_SIZE_MB : Z := 1024.

Record VolumeEntry := mkVolume {
  v_id : string;
  v_name : string;
  v_size_mb : Z;
  (** Nanoseconds since the Unix epoch. *)
  v_created_at : Z;
  v_dir : string;
  v_labels : gmap string string;
}.
Definition data_path (e : VolumeEntry) : string := v_dir e +:+ "/" +:+ DATA_DIR.

(** What is written to [volume.json]. *)
Record VolumeMeta := mkVolumeMeta {
  vm_id : string;
  vm_name : string;
  vm_size_mb : Z;
  vm_created_at_secs : Z;
  vm_labels : gmap string string;
}.

(** The volume a client is shown. *)
Record VolumeInfo := mkVolumeInfo {
  vi_id : string;
  vi_name : string;
  vi_size_mb : Z;
  (** Seconds and nanoseconds. *)
  vi_created_at : Z * Z;
  vi_mount_path : string;
  vi_labels : gmap string string;
}.
Definition NANOS : Z := 1000000000.
Definition entry_to_pb (e : VolumeEntry) : VolumeInfo :=
  let d := Z.max 0 (v_created_at e) in
  mkVolumeInfo (v_id e) (v_name e) (v_size_mb e) (d / NANOS, d mod NANOS)%Z (data_path e)
    (v_labels e).

Record CreateVolumeRequest := mkCreateVolume {
  cv_name : string;
  cv_size_mb : Z;
  cv_labels : list (string * string);
}.

(** A volume's own directory: the record file, the temporary file and whether
    the data directory is there. *)
Record VolDir := mkVolDir {
  vd_meta : option string;
  vd_temp : option string;
  vd_data : bool;
}.

Record VolumeManager := mkVolumes {
  volumes : gmap string VolumeEntry;
  claims : gmap string nat;
  vdisk : gmap string VolDir;
  (** The outcome of the next calls to the file system. *)
  vfaults : list (option IoError);
}.
Definition upd_volumes f (m : VolumeManager) := mkVolumes (f (volumes m)) (claims m) (vdisk m) (vfaults m).
Definition upd_claims f (m : VolumeManager) := mkVolumes (volumes m) (f (claims m)) (vdisk m) (vfaults m).
Definition upd_vdisk f (m : VolumeManager) := mkVolumes (volumes m) (claims m) (f (vdisk m)) (vfaults m).
Definition upd_vfaults f (m : VolumeManager) := mkVolumes (volumes m) (claims m) (vdisk m) (f (vfaults m)).

(** Operations on the manager's state, with the first error ending them. *)
Definition VSt (A : Type) : Type := VolumeManager → result A ApiError * VolumeManager.
Definition vret {A} (a : A) : VSt A := λ m, (Ok a, m).
Definition vlift {A} (r : result A ApiError) : VSt A := λ m, (r, m).
Definition vbind {A B} (x : VSt A) (k : A → VSt B) : VSt B := λ m,
  match x m with (Ok a, m) => k a m | (Err e, m) => (Err e, m) end.
Notation "'do!' x := c 'in' k" := (vbind c (λ x, k))
  (at level 10, x pattern, c at level 100, k at level 200) : ward_scope.
Notation "c ;; k" := (vbind c (λ _, k))
  (at level 100, k at level 200, right associativity) : ward_scope.

(** One call to the file system, with its effect when it succeeds. *)
Definition io_call (conv : IoError → ApiError)
    (effect : gmap string VolDir → gmap string VolDir) : VSt unit := λ m,
  match head (vfaults m) with
  | Some (Some e) => (Err (conv e), upd_vfaults tail m)
  | _ => (Ok tt, upd_vdisk effect (upd_vfaults tail m))
  end.

(** ** Claims *)

Definition claim (name : string) : VolumeManager → VolumeManager :=
  upd_claims (λ c, <[name := S (default 0 (c !! name))]> c).

(** Dropping a [VolumeClaim]. *)
Definition drop_claim (name : string) : VolumeManager → VolumeManager :=
  upd_claims (λ c, match c !! name with
                   | Some n => if decide (n - 1 = 0) then delete name c else <[name := n - 1]> c
                   | None => c
                   end).
Definition is_claimed (name : string) (m : VolumeManager) : bool :=
  bool_decide (is_Some (claims m !! name)).

Section manager.
Context (data_dir : string) (max_volumes : nat).
Context (order : gmap string VolumeEntry → list (string * VolumeEntry)).
Context (to_json : VolumeMeta → string) (from_json : string → option VolumeMeta).

(** [volumes.values().find(|v| v.name == name)]. *)
Definition find_volume (name : string) (m : gmap string VolumeEntry) : option VolumeEntry :=
  snd <$> head (filter (λ x, v_name x.2 = name) (order m)).

(** ** Creation *)

Definition volume_dir (id : string) : string := data_dir +:+ "/" +:+ VOLUMES_DIR +:+ "/" +:+ id.
Definition meta_of (e : VolumeEntry) : VolumeMeta :=
  mkVolumeMeta (v_id e) (v_name e) (v_size_mb e) (Z.max 0 (v_created_at e) / NANOS)%Z (v_labels e).

Definition alter_dir (id : string) (f : VolDir → VolDir) (d : gmap string VolDir) : gmap string VolDir :=
  alter f id d.

(** [write_volume]: the directories, the temporary file, its contents, the
    sync, the rename. *)
Definition write_volume (e : VolumeEntry) : VSt unit :=
  let write_err := from_io "write volume metadata" in
  io_call (from_io "create volume directory")
    (partial_alter (λ d, Some (match d with
                               | Some d => mkVolDir (vd_meta d) (vd_temp d) true
                               | None => mkVolDir None None true
                               end)) (v_id e)) ;;
  io_call write_err (alter_dir (v_id e) (λ d, mkVolDir (vd_meta d) (Some "") (vd_data d))) ;;
  io_call write_err
    (alter_dir (v_id e) (λ d, mkVolDir (vd_meta d) (Some (to_json (meta_of e))) (vd_data d))) ;;
  io_call write_err id ;;
  io_call write_err (alter_dir (v_id e) (λ d, mkVolDir (vd_temp d) None (vd_data d))).

Definition insert_volume (name : string) (size_mb : Z) (labels : gmap string string)
    (must_be_new : bool) (id : string) (now : Z) : VSt VolumeInfo := λ m,
  match find_volume name (volumes m) with
  | Some existing =>
      if must_be_new then (Err (InvalidRequest ("volume " +:+ name +:+ " already exists")), m)
      else (Ok (entry_to_pb existing), m)
  | None =>
      if decide (max_volumes ≤ size (volumes m)) then
        (Err (InvalidRequest ("volume limit reached (" +:+ pretty (size (volumes m)) +:+ "/" +:+
                              pretty max_volumes +:+ ")")), m)
      else
        let entry := mkVolume id name size_mb now (volume_dir id) labels in
        (write_volume entry ;;
         (λ m, (Ok (entry_to_pb entry), upd_volumes <[id := entry]> m))) m
  end.

Definition create_volume (req : CreateVolumeRequest) (id : string) (now : Z) : VSt VolumeInfo :=
  vlift (volume_name (cv_name req)) ;;
  vlift (volume_size (cv_size_mb req)) ;;
  vlift (Validate.labels (cv_labels req)) ;;
  insert_volume (cv_name req) (cv_size_mb req) (list_to_map (cv_labels req)) false id now.
Definition ensure (name id : string) (now : Z) : VSt VolumeInfo :=
  vlift (volume_name name) ;;
  insert_volume name IMPLICIT_VOLUME_SIZE_MB ∅ false id now.
Definition create_new (name id : string) (now : Z) : VSt VolumeInfo :=
  vlift (volume_name name) ;;
  insert_volume name IMPLICIT_VOLUME_SIZE_MB ∅ true id now.

(** ** Lookup *)

Definition get_volume (id : string) (m : VolumeManager) : result VolumeInfo ApiError :=
  entity_id id "volume" ;?
  ok_or (entry_to_pb <$> volumes m !! id) (VolumeNotFound id).
Definition list_volumes (m : VolumeManager) : list VolumeInfo :=
  entry_to_pb <$> (snd <$> order (volumes m)).

(** ** Removal *)

(** The part before the sandboxes are asked. *)
Definition find_removable (id : string) (m : VolumeManager) : result VolumeEntry ApiError :=
  entity_id id "volume" ;? ok_or (volumes m !! id) (VolumeNotFound id).

(** A missing record file is not an error, and an answer of [NotFound] says
    that it is missing. *)
Definition remove_record (id : string) : VSt unit := λ m,
  let gone d := mkVolDir None (vd_temp d) (vd_data d) in
  match head (vfaults m) with
  | Some (Some e) =>
      match io_kind e with
      | IoNotFound => (Ok tt, upd_vdisk (alter_dir id gone) (upd_vfaults tail m))
      | _ => (Err (from_io "remove volume metadata" e), upd_vfaults tail m)
      end
  | _ => (Ok tt, upd_vdisk (alter_dir id gone) (upd_vfaults tail m))
  end.

(** The decision after the answer. *)
Definition check_unused (e : VolumeEntry) (holders : list string) (m : VolumeManager) : result unit ApiError :=
  let holders := holders ++ (if is_claimed (v_name e) m then [CREATING_HOLDER] else []) in
  if negb (bool_decide (holders = [])) then
    Err (VolumeInUse ("remove " +:+ v_name e +:+ ": volume is in use - [" +:+ join ", " holders +:+ "]"))
  else Ok tt.
Definition remove_directory (id : string) : VSt unit := io_call (from_io "remove volume directory") (delete id).

(** The part after the answer, with the lock still held up to the deletion
    of the directory. *)
Definition finish_removal (e : VolumeEntry) (holders : list string) : VSt unit := λ m,
  match check_unused e holders m with
  | Err err => (Err err, m)
  | Ok _ =>
      (remove_record (v_id e) ;;
       (λ m, remove_directory (v_id e) (upd_volumes (delete (v_id e)) m))) m
  end.

Definition remove_if_unused (id : string) (users : string → list string) : VSt unit := λ m,
  match find_removable id m with
  | Err e => (Err e, m)
  | Ok e => finish_removal e (users (v_name e)) m
  end.
Definition remove_volume (id : string) : VSt unit := remove_if_unused id (λ _, []).

Definition remove_unused_by_name (name : string) (users : string → list string) : VSt bool := λ m,
  match find_volume name (volumes m) with
  | None => (Ok false, m)
  | Some e =>
      match remove_if_unused (v_id e) users m with
      | (Ok _, m) => (Ok true, m)
      | (Err (VolumeInUse _), m) | (Err (VolumeNotFound _), m) => (Ok false, m)
      | (Err e, m) => (Err e, m)
      end
  end.

(** ** Loading *)

(** [read_entry], given the directory's name and what reading its record
    gave. *)
Definition read_entry (dir_name : string) (text : option string) : option VolumeEntry :=
  match text ≫= from_json with
  | None => None
  | Some meta =>
      if decide (dir_name = vm_id meta) then
        if is_ok (volume_name (vm_name meta)) then
          Some (mkVolume (vm_id meta) (vm_name meta) (vm_size_mb meta)
                  (vm_created_at_secs meta * NANOS)%Z (volume_dir dir_name) (vm_labels meta))
        else None
      else None
  end.

(** One step of the loop over the sorted directories. *)
Definition load_step (read : string → option string) (loaded : gmap string VolumeEntry)
    (dir : string) : gmap string VolumeEntry :=
  match read_entry dir (read dir) with
  | None => loaded
  | Some e =>
      if decide (map_Exists (λ _ v, v_name v = v_name e) loaded) then loaded
      else <[v_id e := e]> loaded
  end.

(** [load_volumes]: [None] stands for a directory that cannot be listed. *)
Definition load_volumes (listing : option (list string)) (read : string → option string)
    : gmap string VolumeEntry :=
  match listing with
  | None => ∅
  | Some names => foldl (load_step read) ∅ (merge_sort str_le names)
  end.

(** [VolumeManager::new] on what an earlier daemon left. *)
Definition open_volumes (listing : option (list string)) (disk : gmap string VolDir)
    (faults : list (option IoError)) : VolumeManager :=
  mkVolumes (load_volumes listing (λ d, disk !! d ≫= vd_meta)) ∅ disk faults.
End manager.

(** ** The table and the disk agree *)

Section props.
Context (data_dir : string) (max_volumes : nat).
Context (order : gmap string VolumeEntry → list (string * VolumeEntry)).
Context (Horder : ∀ m, order m ≡ₚ map_to_list m).
Context (to_json : VolumeMeta → string) (from_json : string → option VolumeMeta).
Implicit Types (m : VolumeManager) (e : VolumeEntry).

(** The record of [id] that a load would read. *)
Definition recorded (id : string) (d : gmap string VolDir) : option string := d !! id ≫= vd_meta.

(** Every volume is recorded under its id, names are valid and unique, and
    the disk records no volume that the table does not have. *)
Record vol_inv m : Prop := {
  vi_entry id e : volumes m !! id = Some e →
    v_id e = id ∧ v_dir e = volume_dir data_dir id ∧ is_ok (volume_name (v_name e)) = true ∧
    recorded id (vdisk m) = Some (to_json (meta_of e));
  vi_unique id1 id2 e1 e2 : volumes m !! id1 = Some e1 → volumes m !! id2 = Some e2 →
    v_name e1 = v_name e2 → id1 = id2;
  vi_only id : volumes m !! id = None →
    read_entry data_dir from_json id (recorded id (vdisk m)) = None;
}.

Lemma find_volume_Some name (t : gmap string VolumeEntry) e :
  find_volume order name t = Some e → ∃ id, t !! id = Some e ∧ v_name e = name.
Proof.
  unfold find_volume. destruct (head _) as [[id e']|] eqn:Hh; [|done]. intros [= <-].
  apply head_Some_elem_of, list_elem_of_filter in Hh as [Hn Hin].
  rewrite Horder, elem_of_map_to_list in Hin. eauto.
Qed.

Lemma find_volume_None name (t : gmap string VolumeEntry) id e :
  find_volume order name t = None → t !! id = Some e → v_name e ≠ name.
Proof.
  unfold find_volume. intros Hh%fmap_None Hid Hn. apply head_None in Hh.
  assert ((id, e) ∈ filter (λ x, v_name x.2 = name) (order t)) as Hin.
  { apply list_elem_of_filter. rewrite Horder, elem_of_map_to_list. done. }
  rewrite Hh in Hin. by apply not_elem_of_nil in Hin.
Qed.

Lemma read_entry_None id : read_entry data_dir from_json id None = None.
Proof. done. Qed.

Lemma io_call_cases conv f m r m' :
  io_call conv f m = (r, m') →
  volumes m' = volumes m ∧ claims m' = claims m ∧
  match r with Ok _ => vdisk m' = f (vdisk m) | Err _ => vdisk m' = vdisk m end.
Proof. unfold io_call. repeat case_match; intros [= <- <-]; done. Qed.

(** A new record appears only if every call succeeded. *)
Lemma write_volume_cases e m r m' :
  vdisk m !! v_id e = None → write_volume to_json e m = (r, m') →
  volumes m' = volumes m ∧ claims m' = claims m ∧
  (∀ id, id ≠ v_id e → vdisk m' !! id = vdisk m !! id) ∧
  recorded (v_id e) (vdisk m') =
    match r with Ok _ => Some (to_json (meta_of e)) | Err _ => None end.
Proof.
  unfold write_volume, vbind, recorded. intros Hnew.
  repeat match goal with
  | |- context [io_call ?c ?f ?m] =>
      let r := fresh "r" in let m' := fresh "m" in let H := fresh "Hc" in
      destruct (io_call c f m) as [r m'] eqn:H; apply io_call_cases in H as (? & ? & H);
      destruct r as [[]|]
  end; intros [= <- <-];
  repeat match goal with H : vdisk _ = _ |- _ => rewrite H in *; clear H end;
  (split_and!; [congruence..| |]);
  unfold alter_dir, Datatypes.id;
  try (intros id Hid; by rewrite ?lookup_alter_ne, ?lookup_partial_alter_ne by done);
  by rewrite ?lookup_alter_eq, ?lookup_partial_alter_eq, Hnew.
Qed.

(** Extending the disk elsewhere does not touch the records. *)
Lemma vol_inv_disk m m' :
  vol_inv m → volumes m' = volumes m →
  (∀ id, recorded id (vdisk m') = recorded id (vdisk m)) → vol_inv m'.
Proof.
  intros [He Hu Ho] Hv Hd. split; rewrite Hv; [|done|].
  - intros id e Hid. rewrite Hd. by apply He.
  - intros id Hid. rewrite Hd. by apply Ho.
Qed.

Context (Hjson : ∀ v, from_json (to_json v) = Some v).

Lemma insert_volume_inv name size_mb labels must_be_new id now m r m' :
  is_ok (volume_name name) = true → vdisk m !! id = None → vol_inv m →
  insert_volume data_dir max_volumes order to_json name size_mb labels must_be_new id now m = (r, m') →
  vol_inv m' ∧ claims m' = claims m ∧
  match r with
  | Ok shown => vi_name shown = name ∧
      ((∃ e, volumes m !! v_id e = Some e ∧ shown = entry_to_pb e ∧ volumes m' = volumes m) ∨
       volumes m' = <[id := mkVolume id name size_mb now (volume_dir data_dir id) labels]> (volumes m) ∧
       size (volumes m) < max_volumes)
  | Err _ => volumes m' = volumes m
  end.
Proof.
  intros Hname Hnew Hinv. unfold insert_volume.
  destruct (find_volume order name (volumes m)) as [e|] eqn:Hf.
  { destruct must_be_new; intros [= <- <-]; [by auto|].
    apply find_volume_Some in Hf as (k & Hk & Hn). split_and!; [done..|]. left. exists e.
    destruct (vi_entry _ Hinv _ _ Hk) as [<- _]. done. }
  case_decide as Hmax; [intros [= <- <-]; by auto|]. unfold vbind.
  set (entry := mkVolume id name size_mb now (volume_dir data_dir id) labels).
  destruct (write_volume to_json entry m) as [[[]|err] m1] eqn:Hw;
    apply write_volume_cases in Hw as (Hv & Hc & Hd & Hrec); try done; intros [= <- <-]; cbn in *.
  - assert (volumes m !! id = None) as Hid.
    { destruct (volumes m !! id) eqn:Hid; [|done]. destruct (vi_entry _ Hinv _ _ Hid) as (_&_&_&Hr).
      unfold recorded in Hr. by rewrite Hnew in Hr. }
    split_and!; [|done|done|right; split; [by rewrite Hv|lia]].
    split; cbn; rewrite Hv.
    + intros k e [[<- <-]|[Hne Hk]]%lookup_insert_Some; [done|].
      unfold recorded. rewrite Hd by done. by apply Hinv.
    + intros k1 k2 e1 e2 [[<- <-]|[? H1]]%lookup_insert_Some [[<- <-]|[? H2]]%lookup_insert_Some; cbn.
      * done.
      * intros Hn. by destruct (find_volume_None _ _ _ _ Hf H2).
      * intros Hn. by destruct (find_volume_None _ _ _ _ Hf H1).
      * by apply Hinv.
    + intros k [Hk Hne]%lookup_insert_None. unfold recorded. rewrite Hd by done.
      by apply (vi_only _ Hinv).
  - split_and!; [|done..]. apply (vol_inv_disk m); [done..|]. intros k. unfold recorded in *.
    destruct (decide (k = id)) as [->|]; [by rewrite Hrec, Hnew|by rewrite Hd].
Qed.

Lemma remove_record_cases id m r m' :
  remove_record id m = (r, m') →
  volumes m' = volumes m ∧ claims m' = claims m ∧
  (∀ k, k ≠ id → vdisk m' !! k = vdisk m !! k) ∧
  recorded id (vdisk m') = match r with Ok _ => None | Err _ => recorded id (vdisk m) end ∧
  (is_Some (vdisk m !! id) → is_Some (vdisk m' !! id)).
Proof.
  unfold remove_record, recorded, alter_dir.
  repeat case_match; intros [= <- <-]; cbn; split_and!; try done;
    try (intros; by rewrite lookup_alter_ne by done);
    rewrite lookup_alter_eq; destruct (vdisk m !! id); cbn; try done; by intros [].
Qed.

Lemma check_unused_ok e holders m :
  check_unused e holders m = Ok tt → holders = [] ∧ is_claimed (v_name e) m = false.
Proof.
  unfold check_unused. case_bool_decide as Hh; cbn; [|done]. apply app_nil in Hh as [-> Hcl].
  by destruct (is_claimed (v_name e) m).
Qed.

(** The table without a volume that has no record any more. *)
Lemma vol_inv_unrecorded id m m' :
  vol_inv m → volumes m' = delete id (volumes m) →
  (∀ k, k ≠ id → recorded k (vdisk m') = recorded k (vdisk m)) → recorded id (vdisk m') = None → vol_inv m'.
Proof.
  intros Hinv Hv Hd Hr. split; rewrite Hv.
  - intros k f [Hne Hf]%lookup_delete_Some. rewrite Hd by done. by apply Hinv.
  - intros k1 k2 f1 f2 [_ H1]%lookup_delete_Some [_ H2]%lookup_delete_Some. by apply Hinv.
  - intros k. rewrite lookup_delete_None. destruct (decide (k = id)) as [->|Hne]; [by rewrite Hr|].
    rewrite Hd by done. intros [?|Hnone]; [done|]. by apply (vi_only _ Hinv).
Qed.

(** Whatever the file system does, a removal leaves the table and the records
    in step; it only ever takes the volume it names, and only if nobody holds
    it. *)
Lemma finish_removal_inv e holders m r m' :
  volumes m !! v_id e = Some e → vol_inv m →
  finish_removal e holders m = (r, m') →
  vol_inv m' ∧ claims m' = claims m ∧
  (volumes m' = volumes m ∧ (∃ err, r = Err err) ∨
   volumes m' = delete (v_id e) (volumes m) ∧ holders = [] ∧ is_claimed (v_name e) m = false).
Proof.
  intros Hid Hinv. unfold finish_removal.
  destruct (check_unused e holders m) as [[]|] eqn:Hcheck; [|intros [= <- <-]; eauto 6].
  apply check_unused_ok in Hcheck as [-> Hclaim].
  unfold vbind. destruct (remove_record (v_id e) m) as [[[]|err] m1] eqn:Hr;
    apply remove_record_cases in Hr as (Hv & Hc & Hd & Hrec & _).
  2: { intros [= <- <-]. split_and!; [|done|eauto].
       apply (vol_inv_disk m); [done..|]. intros k. unfold recorded in *.
       destruct (decide (k = v_id e)) as [->|]; [done|by rewrite Hd]. }
  unfold remove_directory. destruct (io_call _ _ _) as [r2 m2] eqn:Hio. intros [= <- <-].
  apply io_call_cases in Hio as (Hv2 & Hc2 & Hd2). cbn in *.
  split_and!; [|congruence|right; split; [congruence|done]]. rewrite Hv in Hv2.
  apply (vol_inv_unrecorded (v_id e) m); [done..| |]; unfold recorded in *.
  - intros k Hk. destruct r2; rewrite Hd2; [rewrite lookup_delete_ne by done|]; by rewrite Hd.
  - destruct r2; rewrite Hd2; [by rewrite lookup_delete_eq|done].
Qed.

(** The directory of what is no volume may go. *)
Lemma vol_inv_gone id m m' :
  vol_inv m → volumes m !! id = None → volumes m' = volumes m →
  (vdisk m' = vdisk m ∨ vdisk m' = delete id (vdisk m)) → vol_inv m'.
Proof.
  intros Hinv Hnone Hv [Hd|Hd]; [by apply (vol_inv_disk m); [..|intros k; rewrite Hd]|].
  split; rewrite ?Hv; [|apply Hinv|]; unfold recorded; rewrite Hd; intros k.
  - intros e Hk. rewrite lookup_delete_ne by congruence. by apply Hinv.
  - intros Hk. destruct (decide (k = id)) as [->|Hne]; [by rewrite lookup_delete_eq|].
    rewrite lookup_delete_ne by done. by apply (vi_only _ Hinv).
Qed.

Lemma remove_if_unused_inv id users m r m' :
  vol_inv m → remove_if_unused id users m = (r, m') →
  vol_inv m' ∧ claims m' = claims m ∧
  (volumes m' = volumes m ∧ (∃ err, r = Err err) ∨
   ∃ e, volumes m !! id = Some e ∧ volumes m' = delete id (volumes m) ∧
     users (v_name e) = [] ∧ is_claimed (v_name e) m = false).
Proof.
  intros Hinv. unfold remove_if_unused, find_removable.
  destruct (entity_id id "volume") as [[]|]; cbn; [|intros [= <- <-]; eauto 6].
  destruct (volumes m !! id) as [e|] eqn:Hid; cbn; [|intros [= <- <-]; eauto 6].
  destruct (vi_entry _ Hinv _ _ Hid) as [<- _].
  intros (? & ? & Hcase)%finish_removal_inv; [|done..].
  split_and!; [done..|]. destruct Hcase as [?|(? & ? & ?)]; [by left|right; eauto].
Qed.

Lemma vol_inv_claims f m : vol_inv m → vol_inv (upd_claims f m).
Proof. intros ?. by apply (vol_inv_disk m). Qed.

(** ** Loading *)

(** A record keeps the whole seconds of the creation time. *)
Definition whole_seconds e : VolumeEntry :=
  mkVolume (v_id e) (v_name e) (v_size_mb e) (Z.max 0 (v_created_at e) / NANOS * NANOS)%Z
    (v_dir e) (v_labels e).

Lemma meta_of_whole_seconds e : meta_of (whole_seconds e) = meta_of e.
Proof.
  unfold meta_of, whole_seconds; cbn. f_equal. unfold NANOS.
  rewrite Z.max_r, Z.div_mul; [done|lia|]. apply Z.mul_nonneg_nonneg; [|lia].
  apply Z.div_pos; lia.
Qed.

Lemma read_entry_recorded m id :
  vol_inv m →
  read_entry data_dir from_json id (recorded id (vdisk m)) = whole_seconds <$> volumes m !! id.
Proof.
  intros Hinv. destruct (volumes m !! id) as [e|] eqn:Hid; [|by apply vi_only].
  destruct (vi_entry _ Hinv _ _ Hid) as (<- & Hdir & Hname & ->). unfold read_entry. cbn -[volume_name].
  rewrite Hjson. cbn -[volume_name].
  rewrite decide_True, Hname by done. unfold whole_seconds. by rewrite Hdir.
Qed.

Lemma load_fold_spec (read : string → option string) (T : gmap string VolumeEntry) dirs acc :
  (∀ d, read_entry data_dir from_json d (read d) = T !! d) →
  (∀ id e, T !! id = Some e → v_id e = id) →
  (∀ i j e f, T !! i = Some e → T !! j = Some f → v_name e = v_name f → i = j) →
  acc ⊆ T →
  ∀ k, foldl (load_step data_dir from_json read) acc dirs !! k =
       if decide (k ∈ dirs) then T !! k else acc !! k.
Proof.
  intros Hread Hkey Huniq. revert acc. induction dirs as [|d dirs IH]; intros acc Hsub k; cbn [foldl].
  { rewrite decide_False; [done|]. apply not_elem_of_nil. }
  unfold load_step at 2. rewrite Hread. destruct (T !! d) as [e|] eqn:Hd.
  2: { rewrite IH by done. repeat case_decide; [done|set_solver| |done].
       assert (k = d) as -> by set_solver. rewrite Hd.
       destruct (acc !! d) eqn:Ha; [|done]. rewrite (lookup_weaken _ _ _ _ Ha Hsub) in Hd. done. }
  pose proof (Hkey _ _ Hd) as Hve. case_decide as Hdup.
  - destruct Hdup as (k' & v & Hv & Hvn). pose proof (lookup_weaken _ _ _ _ Hv Hsub) as HT.
    pose proof (Huniq _ _ _ _ HT Hd Hvn) as ->. rewrite IH by done.
    repeat case_decide; [done|set_solver| |done].
    assert (k = d) as -> by set_solver. by rewrite Hv, HT.
  - rewrite IH by (rewrite Hve; by apply insert_subseteq_l). rewrite Hve.
    repeat case_decide; [done|set_solver| |]; [assert (k = d) as -> by set_solver; by simplify_map_eq|].
    rewrite lookup_insert_ne; set_solver.
Qed.

Lemma open_volumes_inv m names faults :
  vol_inv m → (∀ id, is_Some (vdisk m !! id) → id ∈ names) →
  let m' := open_volumes data_dir from_json (Some names) (vdisk m) faults in
  volumes m' = whole_seconds <$> volumes m ∧ vol_inv m'.
Proof.
  intros Hinv Hnames. cbn zeta.
  assert (volumes (open_volumes data_dir from_json (Some names) (vdisk m) faults)
          = whole_seconds <$> volumes m) as Hv.
  { cbn. apply map_eq. intros k. rewrite (load_fold_spec _ (whole_seconds <$> volumes m)).
    - case_decide as Hk; [done|]. rewrite merge_sort_Permutation in Hk.
      rewrite lookup_empty, lookup_fmap. destruct (volumes m !! k) as [e|] eqn:He; [|done].
      destruct (vi_entry _ Hinv _ _ He) as (_&_&_&Hr). unfold recorded in Hr.
      destruct Hk. apply Hnames. destruct (vdisk m !! k); [eauto|done].
    - intros d. rewrite lookup_fmap. exact (read_entry_recorded m d Hinv).
    - intros id e (f & <- & Hf)%lookup_fmap_Some. by destruct (vi_entry _ Hinv _ _ Hf) as [? _].
    - intros i j e f (e' & <- & He)%lookup_fmap_Some (f' & <- & Hf)%lookup_fmap_Some.
      exact (vi_unique _ Hinv _ _ _ _ He Hf).
    - apply map_empty_subseteq. }
  split; [done|]. split; rewrite Hv; cbn.
  - intros id e (f & <- & Hf)%lookup_fmap_Some. rewrite meta_of_whole_seconds.
    exact (vi_entry _ Hinv _ _ Hf).
  - intros i j e f (e' & <- & He)%lookup_fmap_Some (f' & <- & Hf)%lookup_fmap_Some.
    exact (vi_unique _ Hinv _ _ _ _ He Hf).
  - intros id. rewrite lookup_fmap, fmap_None. by apply (vi_only _ Hinv).
Qed.

(** ** Every run *)

(** The operations of the manager, and a restart of the daemon.  Ids are
    fresh: no directory has them. *)
Inductive vol_step : VolumeManager → VolumeManager → Prop :=
| vs_create req id now r m m' :
    vdisk m !! id = None →
    create_volume data_dir max_volumes order to_json req id now m = (r, m') → vol_step m m'
| vs_ensure name id now r m m' :
    vdisk m !! id = None →
    ensure data_dir max_volumes order to_json name id now m = (r, m') → vol_step m m'
| vs_create_new name id now r m m' :
    vdisk m !! id = None →
    create_new data_dir max_volumes order to_json name id now m = (r, m') → vol_step m m'
| vs_remove id users r m m' : remove_if_unused id users m = (r, m') → vol_step m m'
| vs_remove_name name users r m m' :
    remove_unused_by_name order name users m = (r, m') → vol_step m m'
| vs_claim name m : vol_step m (claim name m)
| vs_drop name m : vol_step m (drop_claim name m)
| vs_restart names faults m :
    (∀ id, is_Some (vdisk m !! id) → id ∈ names) →
    vol_step m (open_volumes data_dir from_json (Some names) (vdisk m) faults).

Definition vol_reachable m : Prop := ∃ faults, rtc vol_step (mkVolumes ∅ ∅ ∅ faults) m.

Lemma checked_insert_inv name size_mb labels b id now m r m' :
  vdisk m !! id = None → vol_inv m →
  (vlift (volume_name name) ;;
   insert_volume data_dir max_volumes order to_json name size_mb labels b id now) m = (r, m') →
  vol_inv m'.
Proof.
  intros Hnew Hinv. unfold vbind, vlift. destruct (volume_name name) as [[]|] eqn:Hn; [|by intros [= <- <-]].
  intros Hi. by apply insert_volume_inv in Hi as [? _]; [|rewrite Hn|..].
Qed.

Lemma vol_step_inv m m' : vol_step m m' → vol_inv m → vol_inv m'.
Proof.
  destruct 1 as [req id now r m m' Hnew Hc|name id now r m m' Hnew Hc|name id now r m m' Hnew Hc
    |id users r m m' Hr|name users r m m' Hr|name m|name m|names faults m Hn]; intros Hinv.
  - unfold create_volume, vbind, vlift in Hc.
    destruct (volume_size (cv_size_mb req)) as [[]|], (Validate.labels (cv_labels req)) as [[]|].
    1: by apply checked_insert_inv in Hc.
    all: by destruct (volume_name (cv_name req)); injection Hc as <- <-.
  - by apply checked_insert_inv in Hc.
  - by apply checked_insert_inv in Hc.
  - by apply remove_if_unused_inv in Hr as [? _].
  - unfold remove_unused_by_name in Hr. destruct (find_volume order name (volumes m)) as [e|];
      [|by injection Hr as <- <-].
    destruct (remove_if_unused (v_id e) users m) as [r1 m1] eqn:H1.
    apply remove_if_unused_inv in H1 as [? _]; [|done]. by repeat case_match; injection Hr as <- <-.
  - by apply vol_inv_claims.
  - by apply vol_inv_claims.
  - by apply open_volumes_inv.
Qed.

Lemma vol_reachable_inv m : vol_reachable m → vol_inv m.
Proof.
  intros [faults Hr].
  assert (vol_inv (mkVolumes ∅ ∅ ∅ faults)) as H0 by (split; cbn; done).
  clear -Hr H0 Horder Hjson. induction Hr as [|m1 m2 m3 Hs _ IH]; [done|].
  apply IH. by apply (vol_step_inv m1).
Qed.

(** Volumes outlive the daemon.  In every state that any sequence of
    creations, removals, claims, failing file system calls and restarts can
    reach, names are valid and belong to one volume each; and a daemon started
    on the disk as it is has exactly the same volumes again, with the creation
    time cut to whole seconds, be it after a removal that stopped half-way or
    a creation that failed. *)
Theorem volumes_survive_restart m names faults :
  vol_reachable m → (∀ id, is_Some (vdisk m !! id) → id ∈ names) →
  volumes (open_volumes data_dir from_json (Some names) (vdisk m) faults) =
    whole_seconds <$> volumes m ∧
  (∀ id e, volumes m !! id = Some e → v_id e = id ∧ volume_name (v_name e) = Ok tt) ∧
  (∀ i j e f, volumes m !! i = Some e → volumes m !! j = Some f → v_name e = v_name f → i = j).
Proof.
  intros Hinv%vol_reachable_inv Hn. split_and!.
  - by apply open_volumes_inv.
  - intros id e He. destruct (vi_entry _ Hinv _ _ He) as (? & _ & Hok & _). split; [done|].
    by destruct (volume_name (v_name e)) as [[]|].
  - apply Hinv.
Qed.
End props.

(** ** Removal against creation

    A sandbox that is being created claims the volumes it names, makes sure
    they exist, enters the table of sandboxes, and drops its claims.  A
    removal holds the lock on the volumes while it asks which sandboxes mount
    the volume, then looks at the claims, then removes the record, and up to
    taking the volume from the table; the directory goes after that.  Those are
    the steps that can interleave. *)

(** A creation: the names it has claimed, and those of them it has seen to
    exist. *)
Record Creator := mkCreator { held : list string; ready : list string }.

(** A removal that holds the lock: before and after the sandboxes answered,
    after the decision to remove, and after the record is gone. *)
Inductive Remover :=
| RFound (e : VolumeEntry)
| RAsked (e : VolumeEntry) (holders : list string)
| RCleared (e : VolumeEntry)
| RUnrecorded (e : VolumeEntry).

Record VSys := mkVSys {
  vman : VolumeManager;
  (** The volumes that each recorded sandbox mounts. *)
  mounted : gmap string (list string);
  creators : gmap nat Creator;
  remover : option Remover;
  (** The volumes taken from the table whose directories are being deleted. *)
  deleting : list string;
}.

(** [volume_users] of the sandbox manager. *)
Definition users_of (name : string) (t : gmap string (list string)) : list string :=
  (filter (λ x : string * list string, name ∈ x.2) (map_to_list t)).*1.

(** The claims of a finished creation are dropped one by one. *)
Definition drop_claims (names : list string) (m : VolumeManager) : VolumeManager :=
  foldr drop_claim m names.

Section interleaving.
Context (data_dir : string) (max_volumes : nat).
Context (order : gmap string VolumeEntry → list (string * VolumeEntry)).
Context (to_json : VolumeMeta → string).

Inductive race_step : VSys → VSys → Prop :=
| r_start m t cs ds t' : cs !! t' = None →
    race_step (mkVSys m t cs None ds) (mkVSys m t (<[t' := mkCreator [] []]> cs) None ds)
| r_claim m t cs rm ds i c n : cs !! i = Some c →
    race_step (mkVSys m t cs rm ds)
      (mkVSys (claim n m) t (<[i := mkCreator (n :: held c) (ready c)]> cs) rm ds)
| r_ensure m t cs ds i c n (must_be_new : bool) id now shown m' :
    cs !! i = Some c → n ∈ held c → vdisk m !! id = None →
    (if must_be_new then create_new data_dir max_volumes order to_json n id now
     else ensure data_dir max_volumes order to_json n id now) m = (Ok shown, m') →
    race_step (mkVSys m t cs None ds)
      (mkVSys m' t (<[i := mkCreator (held c) (n :: ready c)]> cs) None ds)
| r_record m t cs rm ds i c sid : cs !! i = Some c → t !! sid = None →
    race_step (mkVSys m t cs rm ds) (mkVSys m (<[sid := held c]> t) cs rm ds)
| r_end m t cs rm ds i c : cs !! i = Some c →
    race_step (mkVSys m t cs rm ds) (mkVSys (drop_claims (held c) m) t (delete i cs) rm ds)
| r_forget m t cs rm ds sid : race_step (mkVSys m t cs rm ds) (mkVSys m (delete sid t) cs rm ds)
| r_find m t cs ds id e : find_removable id m = Ok e →
    race_step (mkVSys m t cs None ds) (mkVSys m t cs (Some (RFound e)) ds)
| r_ask m t cs ds e :
    race_step (mkVSys m t cs (Some (RFound e)) ds)
      (mkVSys m t cs (Some (RAsked e (users_of (v_name e) t))) ds)
| r_check m t cs ds e holders :
    race_step (mkVSys m t cs (Some (RAsked e holders)) ds)
      (mkVSys m t cs (if is_ok (check_unused e holders m) then Some (RCleared e) else None) ds)
| r_unrecord m t cs ds e r m' :
    remove_record (v_id e) m = (r, m') →
    race_step (mkVSys m t cs (Some (RCleared e)) ds)
      (mkVSys m' t cs (if is_ok r then Some (RUnrecorded e) else None) ds)
| r_take m t cs ds e :
    race_step (mkVSys m t cs (Some (RUnrecorded e)) ds)
      (mkVSys (upd_volumes (delete (v_id e)) m) t cs None (v_id e :: ds))
| r_rmdir m t cs rm ds id r m' : id ∈ ds → remove_directory id m = (r, m') →
    race_step (mkVSys m t cs rm ds) (mkVSys m' t cs rm (filter (λ k, k ≠ id) ds)).

(** A daemon with its volumes and sandboxes, and nothing in flight. *)
Context (from_json : string → option VolumeMeta).
Definition race_start (s : VSys) : Prop :=
  vol_inv data_dir to_json from_json (vman s) ∧ claims (vman s) = ∅ ∧
  creators s = ∅ ∧ remover s = None ∧ deleting s = [].
Definition race_reachable (s : VSys) : Prop := ∃ s0, race_start s0 ∧ rtc race_step s0 s.

(** How often a creation, and all of them, have claimed [n]. *)
Definition count_of (n : string) (l : list string) : nat := length (filter (λ x, x = n) l).
Definition claim_count (n : string) (cs : gmap nat Creator) : nat :=
  sum_list ((λ x, count_of n (held x.2)) <$> map_to_list cs).
Definition cnt (n : string) (m : VolumeManager) : nat := default 0 (claims m !! n).

Lemma claim_count_new n cs i c :
  cs !! i = None → claim_count n (<[i := c]> cs) = count_of n (held c) + claim_count n cs.
Proof. intros Hi. unfold claim_count. by rewrite map_to_list_insert. Qed.
Lemma claim_count_delete n cs i c :
  cs !! i = Some c → claim_count n cs = count_of n (held c) + claim_count n (delete i cs).
Proof.
  intros Hi. rewrite <- (insert_delete_id cs i c) at 1 by done.
  apply claim_count_new, lookup_delete_eq.
Qed.
Lemma claim_count_insert n cs i c c' :
  cs !! i = Some c →
  claim_count n (<[i := c']> cs) + count_of n (held c) = claim_count n cs + count_of n (held c').
Proof.
  intros Hi. rewrite (claim_count_delete n cs i c Hi), <- insert_delete_eq, claim_count_new
    by apply lookup_delete_eq. lia.
Qed.

Lemma count_of_cons n x l : count_of n (x :: l) = (if decide (x = n) then 1 else 0) + count_of n l.
Proof.
  unfold count_of. destruct (decide (x = n)); [by rewrite filter_cons_True|by rewrite filter_cons_False].
Qed.
Lemma count_of_pos n l : n ∈ l → 0 < count_of n l.
Proof.
  intros [l1 [l2 ->]]%list_elem_of_split. unfold count_of. rewrite filter_app, filter_cons_True by done.
  rewrite length_app. cbn. lia.
Qed.

(** A claim that is in the map counts at least one. *)
Definition no_zero (m : VolumeManager) : Prop := ∀ n, claims m !! n ≠ Some 0.

Lemma is_claimed_cnt n m : no_zero m → is_claimed n m = true ↔ 0 < cnt n m.
Proof.
  intros Hz. specialize (Hz n). unfold is_claimed, cnt. rewrite bool_decide_eq_true.
  destruct (claims m !! n) as [[|k]|]; cbn; [done|split; [lia|eauto]|].
  split; [by intros []|lia].
Qed.
Lemma cnt_claim n x m : cnt n (claim x m) = (if decide (x = n) then 1 else 0) + cnt n m.
Proof. unfold cnt, claim; cbn. case_decide; [subst; by rewrite lookup_insert_eq|by rewrite lookup_insert_ne]. Qed.
Lemma no_zero_claim x m : no_zero m → no_zero (claim x m).
Proof.
  intros Hz n. cbn. intros [[_ [=]]|[_ ?]]%lookup_insert_Some. by destruct (Hz n).
Qed.
Lemma cnt_drop n x m : no_zero m → cnt n (drop_claim x m) = cnt n m - (if decide (x = n) then 1 else 0).
Proof.
  intros Hz. unfold cnt, drop_claim; cbn. destruct (claims m !! x) as [k|] eqn:Hx.
  - repeat case_decide; subst; rewrite ?lookup_delete_eq, ?lookup_insert_eq, ?lookup_delete_ne,
      ?lookup_insert_ne, ?Hx by done; cbn; lia.
  - case_decide; [subst; by rewrite Hx|]. lia.
Qed.
Lemma no_zero_drop x m : no_zero m → no_zero (drop_claim x m).
Proof.
  intros Hz n. unfold drop_claim; cbn. destruct (claims m !! x) as [k|] eqn:Hx; [|apply Hz].
  case_decide; [intros [_ ?]%lookup_delete_Some; by destruct (Hz n)|].
  intros [[-> [= ?]]|[_ ?]]%lookup_insert_Some; [lia|by destruct (Hz n)].
Qed.
Lemma drop_claims_spec l m :
  no_zero m → no_zero (drop_claims l m) ∧ volumes (drop_claims l m) = volumes m ∧
  vdisk (drop_claims l m) = vdisk m ∧ ∀ n, cnt n (drop_claims l m) = cnt n m - count_of n l.
Proof.
  intros Hz. induction l as [|x l (IHz & IHv & IHd & IHc)]; cbn -[count_of].
  { split_and!; [done..|]. intros n. unfold count_of. cbn. lia. }
  split_and!; [by apply no_zero_drop|done..|].
  intros n. rewrite cnt_drop by done. fold (drop_claims l m). rewrite IHc, count_of_cons. lia.
Qed.

Context (Horder : ∀ t, order t ≡ₚ map_to_list t).

Definition exists_volume (n : string) (m : VolumeManager) : Prop :=
  ∃ id e, volumes m !! id = Some e ∧ v_name e = n.

(** What holds between the steps.  The volume whose record is gone does not
    count as one any more. *)
Definition target (rm : Remover) : VolumeEntry :=
  match rm with RFound e | RAsked e _ | RCleared e | RUnrecorded e => e end.
Definition cleared (rm : Remover) : bool :=
  match rm with RFound _ | RAsked _ _ => false | RCleared _ | RUnrecorded _ => true end.
Definition settled (s : VSys) : VolumeManager :=
  match remover s with
  | Some (RUnrecorded e) => upd_volumes (delete (v_id e)) (vman s)
  | _ => vman s
  end.
Record race_inv (s : VSys) : Prop := {
  ri_vol : vol_inv data_dir to_json from_json (settled s);
  ri_zero : no_zero (vman s);
  ri_count n : cnt n (vman s) = claim_count n (creators s);
  ri_ready i c n : creators s !! i = Some c → n ∈ ready c →
    n ∈ held c ∧ exists_volume n (vman s);
  ri_locked rm : remover s = Some rm →
    volumes (vman s) !! v_id (target rm) = Some (target rm) ∧ is_Some (vdisk (vman s) !! v_id (target rm));
  ri_cleared rm i c : remover s = Some rm → cleared rm = true → creators s !! i = Some c →
    v_name (target rm) ∉ ready c;
  ri_deleting id : id ∈ deleting s → volumes (vman s) !! id = None ∧ is_Some (vdisk (vman s) !! id);
}.

(** While a creation holds a claim, the removal of the volume is refused. *)
Lemma held_claimed s i c n :
  race_inv s → creators s !! i = Some c → n ∈ held c → is_claimed n (vman s) = true.
Proof.
  intros Hinv Hc Hn. apply is_claimed_cnt; [apply Hinv|]. rewrite ri_count by done.
  rewrite (claim_count_delete _ _ _ _ Hc). pose proof (count_of_pos _ _ Hn). lia.
Qed.

Lemma checked_insert_ok name size_mb labels b id now m shown m' :
  vdisk m !! id = None → vol_inv data_dir to_json from_json m →
  (vlift (volume_name name) ;;
   insert_volume data_dir max_volumes order to_json name size_mb labels b id now) m = (Ok shown, m') →
  vol_inv data_dir to_json from_json m' ∧ claims m' = claims m ∧
  (∀ n, exists_volume n m → exists_volume n m') ∧ exists_volume name m'.
Proof.
  intros Hnew Hinv. unfold vbind, vlift. destruct (volume_name name) as [[]|] eqn:Hn; [|done].
  intros Hi. eapply insert_volume_inv in Hi as (Hv & Hc & Hname & Hcase); [|done|by rewrite Hn|done..].
  split_and!; [done..| |].
  - intros n (k & e & Hk & He). unfold exists_volume.
    destruct Hcase as [(_ & _ & _ & ->)|[Hins _]]; [by exists k, e|]. rewrite Hins. destruct (decide (k = id)) as [->|Hne].
    + destruct (vi_entry _ _ _ _ Hinv _ _ Hk) as (_&_&_&Hr). unfold recorded in Hr. by rewrite Hnew in Hr.
    + exists k, e. by rewrite lookup_insert_ne.
  - destruct Hcase as [(e & He & -> & Hm)|[Hins _]].
    + exists (v_id e), e. rewrite Hm. done.
    + unfold exists_volume. rewrite Hins. exists id. eexists. by rewrite lookup_insert_eq.
Qed.

Lemma checked_insert_disk name size_mb labels b id now m r m' :
  vdisk m !! id = None →
  (vlift (volume_name name) ;;
   insert_volume data_dir max_volumes order to_json name size_mb labels b id now) m = (r, m') →
  (∀ k, k ≠ id → vdisk m' !! k = vdisk m !! k ∧ volumes m' !! k = volumes m !! k).
Proof.
  intros Hnew. unfold vbind, vlift. destruct (volume_name name) as [[]|]; [|by intros [= <- <-]].
  unfold insert_volume. destruct (find_volume _ _ _); [destruct b; by intros [= <- <-]|].
  case_decide; [by intros [= <- <-]|]. unfold vbind. destruct (write_volume _ _ m) as [[[]|] m1] eqn:Hw;
    apply write_volume_cases in Hw as (Hv & _ & Hd & _); try done; intros [= <- <-] k Hk; cbn in *.
  - by rewrite lookup_insert_ne, Hv, Hd.
  - by rewrite Hv, Hd.
Qed.

(** The steps of a creation. *)
Lemma claim_inv m t cs rm ds i c n :
  cs !! i = Some c → race_inv (mkVSys m t cs rm ds) →
  race_inv (mkVSys (claim n m) t (<[i := mkCreator (n :: held c) (ready c)]> cs) rm ds).
Proof.
  intros Hi [Hvol Hzero Hcnt Hready Hlock Hclear Hdel]. cbn in *. split; cbn; try done.
  - unfold settled in *. cbn in *. apply (vol_inv_claims _ _ _ (<[n := S (default 0 (claims m !! n))]>)) in Hvol.
    by destruct rm as [[]|].
  - by apply no_zero_claim.
  - intros x. rewrite cnt_claim, Hcnt. pose proof (claim_count_insert x cs i c
      (mkCreator (n :: held c) (ready c)) Hi) as Hx. cbn [held] in Hx. rewrite count_of_cons in Hx.
    case_decide; lia.
  - intros j c' x [[<- <-]|[_ Hj]]%lookup_insert_Some; cbn; [|eauto].
    intros [? ?]%(Hready _ _ _ Hi). split; [set_solver|done].
  - intros r j c' Hr Hc [[<- <-]|[_ Hj]]%lookup_insert_Some; cbn; eauto.
Qed.

Lemma ensured_inv m t cs ds i c n (b : bool) id now shown m' :
  cs !! i = Some c → n ∈ held c → vdisk m !! id = None →
  (if b then create_new data_dir max_volumes order to_json n id now
   else ensure data_dir max_volumes order to_json n id now) m = (Ok shown, m') →
  race_inv (mkVSys m t cs None ds) →
  race_inv (mkVSys m' t (<[i := mkCreator (held c) (n :: ready c)]> cs) None ds).
Proof.
  intros Hi Hn Hnew He [Hvol Hzero Hcnt Hready Hlock Hclear Hdel]. cbn in *.
  assert (vol_inv data_dir to_json from_json m' ∧ claims m' = claims m ∧
    (∀ x, exists_volume x m → exists_volume x m') ∧ exists_volume n m') as (Hv & Hc & Hmono & Hex)
    by (destruct b; by eapply checked_insert_ok).
  assert (∀ k, k ≠ id → vdisk m' !! k = vdisk m !! k ∧ volumes m' !! k = volumes m !! k) as Hother
    by (destruct b; by eapply checked_insert_disk).
  split; cbn; try done.
  - intros x. rewrite Hc. apply Hzero.
  - intros x. unfold cnt. rewrite Hc. pose proof (claim_count_insert x cs i c
      (mkCreator (held c) (n :: ready c)) Hi) as Hx. cbn [held] in Hx. specialize (Hcnt x). unfold cnt in Hcnt. lia.
  - intros j c' x [[<- <-]|[_ Hj]]%lookup_insert_Some; cbn.
    + intros [->|Hx]%elem_of_cons; [done|]. destruct (Hready _ _ _ Hi Hx). auto.
    + intros Hx. destruct (Hready _ _ _ Hj Hx). auto.
  - intros k Hk. destruct (Hdel k Hk) as [Hnone Hsome]. assert (k ≠ id) as Hne.
    { intros ->. rewrite Hnew in Hsome. by destruct Hsome. }
    destruct (Hother k Hne) as [-> ->]. done.
Qed.

Lemma ended_inv m t cs rm ds i c :
  cs !! i = Some c → race_inv (mkVSys m t cs rm ds) →
  race_inv (mkVSys (drop_claims (held c) m) t (delete i cs) rm ds).
Proof.
  intros Hi [Hvol Hzero Hcnt Hready Hlock Hclear Hdel]. cbn in *.
  destruct (drop_claims_spec (held c) m Hzero) as (Hz & Hv & Hd & Hn). split; cbn; rewrite ?Hv, ?Hd; try done.
  - apply (vol_inv_disk _ _ _ (settled (mkVSys m t cs rm ds))); [done|..]; unfold settled; cbn;
      destruct rm as [[]|]; cbn; intros; by rewrite ?Hv, ?Hd.
  - intros n. rewrite Hn, Hcnt, (claim_count_delete _ _ _ _ Hi). lia.
  - intros j c' n [_ Hj]%lookup_delete_Some Hx. destruct (Hready _ _ _ Hj Hx) as [? (k & e & Hk & He)].
    split; [done|]. exists k, e. by rewrite Hv.
  - intros r j c' Hr Hc [_ Hj]%lookup_delete_Some. eauto.
Qed.

(** The steps of a removal. *)
Lemma unrecorded_inv m t cs ds e r m' :
  remove_record (v_id e) m = (r, m') →
  race_inv (mkVSys m t cs (Some (RCleared e)) ds) →
  race_inv (mkVSys m' t cs (if is_ok r then Some (RUnrecorded e) else None) ds).
Proof.
  intros (Hv & Hc & Hd & Hrec & Hsome)%remove_record_cases [Hvol Hzero Hcnt Hready Hlock Hclear Hdel]. cbn in *.
  destruct (Hlock _ eq_refl) as [Hid Hdisk]. cbn in Hid, Hdisk.
  split; cbn; rewrite ?Hv; try done.
  - unfold settled in *. cbn in *. destruct r as [|err]; cbn.
    + apply (vol_inv_unrecorded _ _ _ (v_id e) m); [done|by cbn; rewrite Hv| |done].
      intros k Hk. unfold recorded. cbn. by rewrite Hd.
    + apply (vol_inv_disk _ _ _ m); [done..|]. intros k. unfold recorded in *.
      destruct (decide (k = v_id e)) as [->|]; [done|by rewrite Hd].
  - intros x. rewrite Hc. apply Hzero.
  - intros x. unfold cnt. rewrite Hc. apply Hcnt.
  - intros j c n Hj Hn. destruct (Hready _ _ _ Hj Hn) as [? (k & f & Hk & Hf)]. split; [done|]. exists k, f. by rewrite Hv.
  - intros rm Hrm. destruct r; [|done]. injection Hrm as <-. cbn. split; [done|by apply Hsome].
  - intros rm i c Hrm _. destruct r; [|done]. injection Hrm as <-. by apply (Hclear _ i c eq_refl).
  - intros k Hk. destruct (Hdel k Hk) as [Hnone Hk']. split; [done|].
    destruct (decide (k = v_id e)) as [->|]; [congruence|by rewrite Hd].
Qed.

Lemma taken_inv m t cs ds e :
  race_inv (mkVSys m t cs (Some (RUnrecorded e)) ds) →
  race_inv (mkVSys (upd_volumes (delete (v_id e)) m) t cs None (v_id e :: ds)).
Proof.
  intros [Hvol Hzero Hcnt Hready Hlock Hclear Hdel]. cbn in *.
  destruct (Hlock _ eq_refl) as [Hid Hdisk]. cbn in Hid, Hdisk. split; cbn; try done.
  - intros i c n Hi Hn. destruct (Hready _ _ _ Hi Hn) as [? (k & f & Hk & Hf)]. split; [done|].
    exists k, f. split; [|done]. cbn. rewrite lookup_delete_ne; [done|]. intros <-.
    apply (Hclear _ i c eq_refl eq_refl Hi). cbn. congruence.
  - intros k [->|Hk]%elem_of_cons; [by rewrite lookup_delete_eq|].
    destruct (Hdel k Hk) as [Hnone Hk']. split; [|done]. apply lookup_delete_None. by right.
Qed.

Lemma rmdir_inv m t cs rm ds id r m' :
  id ∈ ds → remove_directory id m = (r, m') →
  race_inv (mkVSys m t cs rm ds) → race_inv (mkVSys m' t cs rm (filter (λ k, k ≠ id) ds)).
Proof.
  intros Hin Hio [Hvol Hzero Hcnt Hready Hlock Hclear Hdel]. cbn in *.
  apply io_call_cases in Hio as (Hv & Hc & Hd). destruct (Hdel id Hin) as [Hnone _].
  assert (∀ k, k ≠ id → vdisk m' !! k = vdisk m !! k) as Hother.
  { intros k Hk. destruct r; rewrite Hd; [by rewrite lookup_delete_ne|done]. }
  split; cbn; rewrite ?Hv; try done.
  - apply (vol_inv_gone _ _ _ id (settled (mkVSys m t cs rm ds))); [done| |..]; unfold settled; cbn.
    all: destruct rm as [[]|]; cbn; rewrite ?Hv; try done; try (destruct r; rewrite Hd; auto).
    apply lookup_delete_None. by right.
  - intros x. rewrite Hc. apply Hzero.
  - intros x. unfold cnt. rewrite Hc. apply Hcnt.
  - intros i c n Hi Hn. destruct (Hready _ _ _ Hi Hn) as [? (k & f & Hk & Hf)]. split; [done|]. exists k, f. by rewrite Hv.
  - intros x Hx. destruct (Hlock x Hx) as [Hl Hs]. split; [done|]. rewrite Hother; [done|]. congruence.
  - intros k [Hk Hin']%list_elem_of_filter. rewrite Hother by done. by apply Hdel.
Qed.

Lemma race_step_inv s s' : race_step s s' → race_inv s → race_inv s'.
Proof.
  destruct 1 as [m t cs ds i Hi|m t cs rm ds i c n Hi|m t cs ds i c n b id now shown m' Hi Hn Hnew He
    |m t cs rm ds i c sid Hi Ht|m t cs rm ds i c Hi|m t cs rm ds sid|m t cs ds id e Hf|m t cs ds e
    |m t cs ds e hs|m t cs ds e r m' Hr|m t cs ds e|m t cs rm ds id r m' Hin Hr]; intros Hinv;
    [|by apply claim_inv|by eapply ensured_inv|by destruct Hinv|by apply ended_inv|by destruct Hinv|..
     |by eapply unrecorded_inv|by apply taken_inv|by eapply rmdir_inv];
    pose proof Hinv as [Hvol Hzero Hcnt Hready Hlock Hclear Hdel]; cbn in *; split; cbn; try done.
  - intros n. rewrite Hcnt, claim_count_new by done. done.
  - intros j c n [[<- <-]|[_ Hj]]%lookup_insert_Some; [set_solver|eauto].
  - intros rm [= <-]. cbn. unfold find_removable in Hf. inv_ok.
    destruct (volumes m !! id) as [g|] eqn:Hid; cbn in Hf; [|done]. injection Hf as ->.
    destruct (vi_entry _ _ _ _ Hvol _ _ Hid) as (-> & _ & _ & Hrec). split; [done|].
    unfold recorded in Hrec. cbn in Hrec. by destruct (vdisk m !! id).
  - by intros rm i c [= <-].
  - intros rm [= <-]. by apply (Hlock _ eq_refl).
  - by intros rm i c [= <-].
  - by destruct (is_ok _).
  - intros rm Hrm. destruct (is_ok _); [|done]. injection Hrm as <-. by apply (Hlock _ eq_refl).
  - intros rm i c Hrm _ Hi Hr. destruct (check_unused e hs m) as [[]|] eqn:Hu; cbn in Hrm; [|done]. injection Hrm as <-.
    cbn in Hr. apply check_unused_ok in Hu as [_ Hu]. destruct (Hready _ _ _ Hi Hr) as [Hheld _].
    pose proof (held_claimed _ _ _ _ Hinv Hi Hheld) as Hc. cbn in Hc. congruence.
Qed.

Lemma race_reachable_inv s : race_reachable s → race_inv s.
Proof.
  intros (s0 & (Hv & Hc & Hcs & Hr & Hds) & Hs).
  assert (race_inv s0) as H0.
  { split; unfold settled; rewrite ?Hr, ?Hds; try done.
    - intros n. by rewrite Hc.
    - intros n. unfold cnt. rewrite Hc, Hcs. done.
    - intros i c n. by rewrite Hcs.
    - by intros n ?%not_elem_of_nil. }
  clear -Hs H0 Horder. induction Hs as [|s1 s2 s3 Hs _ IH]; [done|]. apply IH. by apply (race_step_inv s1).
Qed.

(** C29: A claim holds its volume.  However creations, removals of sandboxes
    and a removal of a volume interleave, a volume counts as claimed exactly
    while some creation claims it, and every volume that a running creation
    has made sure of is there. *)
Theorem volume_claims_protect s :
  race_reachable s →
  (∀ n, is_claimed n (vman s) = true ↔ ∃ i c, creators s !! i = Some c ∧ n ∈ held c) ∧
  (∀ i c n, creators s !! i = Some c → n ∈ ready c → exists_volume n (vman s)).
Proof.
  intros Hinv%race_reachable_inv. split.
  - intros n. split; [|intros (i & c & Hi & Hn); by eapply held_claimed].
    rewrite is_claimed_cnt, ri_count by apply Hinv. unfold claim_count. intros Hpos.
    assert (∃ x, x ∈ map_to_list (creators s) ∧ n ∈ held x.2) as ([i c] & Hx & Hn).
    { clear -Hpos. induction (map_to_list (creators s)) as [|x l IH]; cbn in Hpos; [lia|].
      destruct (decide (n ∈ held x.2)) as [|Hn]; [exists x; split; [by left|done]|].
      destruct IH as (y & ? & ?); [|exists y; split; [by right|done]].
      assert (count_of n (held x.2) = 0); [|lia]. unfold count_of. apply length_zero_iff_nil.
      destruct (filter (λ y, y = n) (held x.2)) as [|y l'] eqn:Hf; [done|].
      assert (y ∈ filter (λ y, y = n) (held x.2)) as [-> ?]%list_elem_of_filter by (rewrite Hf; by left).
      done. }
    exists i, c. by rewrite <- elem_of_map_to_list.
  - intros i c n Hi Hn. by apply (ri_ready _ Hinv _ _ _ Hi).
Qed.
End interleaving.

(** A removal can take the volume of a sandbox that was just created.
    The removal asks for the sandboxes that mount the volume first and looks
    at the claims second; a creation that is recorded and drops its claim in
    between is seen by neither.  A state can be reached in which nothing is in
    flight and a recorded sandbox mounts a volume that is gone. *)
Theorem volume_removal_race :
  ∃ s, race_reachable "/d" 10 map_to_list (λ _, "") (λ _, None) s ∧
    creators s = ∅ ∧ remover s = None ∧ volumes (vman s) = ∅ ∧ mounted s = {["box" := ["data"]]}.
Proof.
  set (m0 := mkVolumes ∅ ∅ ∅ []).
  set (e := mkVolume "ab" "data" IMPLICIT_VOLUME_SIZE_MB 0 "/d/volumes/ab" ∅).
  set (m1 := (ensure "/d" 10 map_to_list (λ _, "") "data" "ab" 0 (claim "data" m0)).2).
  set (m2 := drop_claims ["data"] m1).
  set (cs := <[0 := mkCreator ["data"] ["data"]]>
    (<[0 := mkCreator ["data"] []]> (<[0 := mkCreator [] []]> ∅)) : gmap nat Creator).
  exists (mkVSys (finish_removal e [] m2).2 {["box" := ["data"]]} (delete 0 cs) None []).
  split; [|split_and!; vm_compute; reflexivity].
  exists (mkVSys m0 ∅ ∅ None []). split.
  { split_and!; [|done..]. split; cbn; done. }
  eapply rtc_l; [apply (r_start _ _ _ _ m0 ∅ ∅ _ 0); done|].
  eapply rtc_l; [apply (r_claim _ _ _ _ _ _ _ _ _ 0 (mkCreator [] []) "data"); reflexivity|].
  eapply rtc_l.
  { apply (r_ensure _ _ _ _ _ _ _ _ 0 (mkCreator ["data"] []) "data" false "ab" 0 (entry_to_pb e) m1);
      [reflexivity|by left|reflexivity|vm_compute; reflexivity]. }
  eapply rtc_l; [apply (r_find _ _ _ _ _ _ _ _ "ab" e); vm_compute; reflexivity|].
  eapply rtc_l; [apply r_ask|].
  eapply rtc_l.
  { apply (r_record _ _ _ _ _ _ _ _ _ 0 (mkCreator ["data"] ["data"]) "box"); vm_compute; reflexivity. }
  eapply rtc_l.
  { apply (r_end _ _ _ _ _ _ _ _ _ 0 (mkCreator ["data"] ["data"])). vm_compute. reflexivity. }
  eapply rtc_l; [apply (r_check _ _ _ _ m2 _ _ _ e [])|].
  eapply rtc_l; [apply (r_unrecord _ _ _ _ m2 _ _ _ e (Ok tt) (remove_record "ab" m2).2); vm_compute; reflexivity|].
  eapply rtc_l; [apply r_take|].
  eapply rtc_l; [eapply (r_rmdir _ _ _ _ _ _ _ _ _ "ab"); [by left|vm_compute; reflexivity]|].
  vm_compute. apply rtc_refl.
Qed.

(** ** Examples *)

(** A codec that meets the law the theorems ask of JSON: the number of a
    record, in binary. *)
Definition tuple_of (v : VolumeMeta) : string * string * Z * Z * gmap string string :=
  (vm_id v, vm_name v, vm_size_mb v, vm_created_at_secs v, vm_labels v).
Definition of_tuple (t : string * string * Z * Z * gmap string string) : VolumeMeta :=
  let '(i, n, s, c, l) := t in mkVolumeMeta i n s c l.
Fixpoint binary (p : positive) : string :=
  match p with
  | xH => ""
  | xO p => String "0" (binary p)
  | xI p => String "1" (binary p)
  end.
Fixpoint of_binary (s : string) : positive :=
  match s with
  | EmptyString => xH
  | String c s => if decide (c = "0"%char) then xO (of_binary s) else xI (of_binary s)
  end.
Definition binary_json (v : VolumeMeta) : string := binary (encode (tuple_of v)).
Definition binary_parse (s : string) : option VolumeMeta := of_tuple <$> decode (of_binary s).

Lemma of_binary_binary p : of_binary (binary p) = p.
Proof. induction p as [p IH|p IH|]; cbn; by rewrite ?IH. Qed.
Lemma binary_json_law v : binary_parse (binary_json v) = Some v.
Proof.
  unfold binary_parse, binary_json. rewrite of_binary_binary, decode_encode. by destruct v.
Qed.

Definition demo_volumes : VolumeManager :=
  (create_volume "/d" 10 map_to_list binary_json (mkCreateVolume "data" 64 []) "ab" 5
     (mkVolumes ∅ ∅ ∅ [])).2.

Lemma volumes_survive_restart_witness :
  (v_name <$> volumes demo_volumes !! "ab") = Some "data" ∧
  volumes (open_volumes "/d" binary_parse (Some ["ab"]) (vdisk demo_volumes) []) =
    whole_seconds <$> volumes demo_volumes.
Proof.
  split; [vm_compute; reflexivity|].
  refine (proj1 (volumes_survive_restart "/d" 10 map_to_list _ binary_json binary_parse
    binary_json_law demo_volumes ["ab"] [] _ _)).
  - done.
  - exists []. apply rtc_once. eapply (vs_create _ _ _ _ _ (mkCreateVolume "data" 64 []) "ab" 5);
      [done|apply surjective_pairing].
  - assert (dom (vdisk demo_volumes) = {["ab"]}) as Hdom by (vm_compute; reflexivity).
    intros id Hid%elem_of_dom. rewrite Hdom in Hid. set_solver.
Defined.

Lemma volume_claims_protect_witness :
  is_claimed "data" (claim "data" (mkVolumes ∅ ∅ ∅ [])) = true ∧
  ∃ i c, (<[0 := mkCreator ["data"] []]> (<[0 := mkCreator [] []]> ∅) : gmap nat Creator) !! i = Some c ∧
    "data" ∈ held c.
Proof.
  split; [reflexivity|].
  assert (race_reachable "/d" 10 map_to_list binary_json binary_parse
    (mkVSys (claim "data" (mkVolumes ∅ ∅ ∅ [])) ∅
       (<[0 := mkCreator ["data"] []]> (<[0 := mkCreator [] []]> ∅)) None [])) as Hr.
  { exists (mkVSys (mkVolumes ∅ ∅ ∅ []) ∅ ∅ None []). split.
    { split_and!; [|done..]. split; cbn; done. }
    eapply rtc_l; [apply (r_start _ _ _ _ _ ∅ ∅ _ 0); done|].
    apply rtc_once. apply (r_claim _ _ _ _ _ _ _ _ _ 0 (mkCreator [] []) "data"). reflexivity. }
  apply (proj1 (volume_claims_protect _ _ _ _ _ (λ t, reflexivity (map_to_list t)) _ Hr)).
  reflexivity.
Defined.
