(* ===== verification/Archive.v ===== *)
(** * Archive: checking tar archives

    Models [ward-archive/src/lib.rs]: the checks of an archive's entries
    ([check_entry], [SymlinkTrail], [scan] without a destination) and the guard
    that reads the blocks of the stream as they pass ([HeaderGuard]).  The
    parsers of the tar crate are arguments: an archive is the list of entries
    it yields, a header block what it reads from one.  Unpacking and packing
    call the file system and are not modelled. *)

From stdpp Require Import base list numbers option strings pretty gmap.
From Stdlib Require Import ZArith Lia Ascii.
From S2P Require Import Prelude Text Protocol.

Local Open Scope Z_scope.

(** ** Paths *)

(** [std::path::Component] on Unix. *)
Inductive Component := RootDir | CurDir | ParentDir | Normal (name : string).
#[export] Instance Component_eq_dec : EqDecision Component.
Proof. solve_decision. Defined.

Definition component_of (piece : string) : Component :=
  if decide (piece = "..") then ParentDir else Normal piece.

(** [Path::components]: empty pieces are skipped, and so is a dot, except one
    that starts a relative path. *)
Definition path_components (p : string) : list Component :=
  let pieces := filter (λ x, x ≠ "") (split "/"%char p) in
  let rest := component_of <$> filter (λ x, x ≠ ".") pieces in
  if starts_with "/" p then RootDir :: rest
  else if decide (head pieces = Some ".") then CurDir :: rest
  else rest.

Definition is_contained (c : Component) : bool :=
  match c with Normal _ | CurDir => true | RootDir | ParentDir => false end.

(** [normal_components]: the names of a path. *)
Definition normal_components (p : string) : list string :=
  omap (λ c, match c with Normal n => Some n | _ => None end) (path_components p).
Definition fold_case (names : list string) : list string := to_ascii_lowercase <$> names.

(** ** Limits and errors *)

Definition MAX_EXTENDED_HEADER_BYTES : Z := 1024 * 1024.
Definition BLOCK_SIZE : nat := 512.
Definition SETID_MODE_BITS : Z := 3072.
Definition U64_MAX : Z := 2 ^ 64 - 1.
Definition saturating_add (a b : Z) : Z := Z.min (a + b) U64_MAX.

Inductive Policy := Snapshot | Copy.
#[export] Instance Policy_eq_dec : EqDecision Policy.
Proof. solve_decision. Defined.

Record Limits := mkArchiveLimits {
  max_entries : Z;
  max_file_bytes : Z;
  max_total_bytes : Z;
  max_path_len : Z;
  max_depth : Z;
}.
Definition copy_limits : Limits :=
  mkArchiveLimits 100000 (4 * 1024 * 1024 * 1024) (8 * 1024 * 1024 * 1024) 4096 64.
Definition snapshot_limits : Limits :=
  mkArchiveLimits 2000000 (64 * 1024 * 1024 * 1024) (64 * 1024 * 1024 * 1024) 4096 4096.

Inductive ArchiveError :=
| UnsafePath (path : string)
| UnsafeLink (path : string)
| ForbiddenType (path : string)
| SetIdMode (path : string)
| ForbiddenHeader (what : string)
| LimitExceeded (what : string) (limit : Z)
| Unpack (path : string) (source : IoError)
| ArchiveIo (e : IoError).

Definition limit (what : string) (l : Z) : ArchiveError := LimitExceeded what l.

(** ** Entries *)

(** [tar::EntryType]. *)
Inductive EntryType :=
| TRegular | TLink | TSymlink | TChar | TBlock | TDirectory | TFifo | TContinuous
| TGnuLongName | TGnuLongLink | TGnuSparse | TXGlobalHeader | TXHeader | TOther (b : Z).
#[export] Instance EntryType_eq_dec : EqDecision EntryType.
Proof. solve_decision. Defined.

Definition is_plain_type (k : EntryType) : bool :=
  match k with
  | TRegular | TContinuous | TDirectory | TSymlink | TLink | TXGlobalHeader => true
  | _ => false
  end.

(** What the tar crate tells of an entry.  The fields that it may fail to
    decode are results. *)
Record TarEntry := mkTarEntry {
  t_path : result string IoError;
  t_kind : EntryType;
  t_size : Z;
  t_mode : result Z IoError;
  t_link : result (option string) IoError;
  t_raw_file_position : Z;
}.

Record Totals := mkTotals { entries_seen : Z; bytes_seen : Z }.
Definition totals_default : Totals := mkTotals 0 0.

Definition io_of {A} (r : result A IoError) : result A ArchiveError := map_err ArchiveIo r.
Definition contained (p : string) : bool := forallb is_contained (path_components p).

Definition check_entry (e : TarEntry) (path : string) (policy : Policy) (l : Limits) (t : Totals)
    : result Totals ArchiveError :=
  let entries := entries_seen t + 1 in
  refuse_if (entries >? max_entries l) (limit "entry count" (max_entries l)) ;?
  refuse_if (Z.of_nat (str_len path) >? max_path_len l) (limit "path length" (max_path_len l)) ;?
  refuse_if (negb (contained path)) (UnsafePath path) ;?
  refuse_if (Z.of_nat (length (normal_components path)) >? max_depth l)
    (limit "path depth" (max_depth l)) ;?
  refuse_if (t_size e >? max_file_bytes l) (limit "file size" (max_file_bytes l)) ;?
  let bytes := saturating_add (bytes_seen t) (t_size e) in
  refuse_if (bytes >? max_total_bytes l) (limit "total size" (max_total_bytes l)) ;?
  (if decide (t_kind e = TLink) then
     let? link := io_of (t_link e) in
     match link with
     | None => Err (UnsafeLink path)
     | Some target => refuse_if (negb (contained target)) (UnsafeLink path)
     end
   else Ok tt) ;?
  (if decide (policy = Copy) then
     refuse_if (negb (is_plain_type (t_kind e))) (ForbiddenType path) ;?
     let? mode := io_of (t_mode e) in
     refuse_if (negb (Z.land mode SETID_MODE_BITS =? 0)) (SetIdMode path)
   else Ok tt) ;?
  Ok (mkTotals entries bytes).

(** ** Symlinks seen so far *)

(** [SymlinkTrail]: the lower-cased names of the symlink entries. *)
Definition Trail : Type := gset (list string).

(** [path.ancestors().skip(1)]: the proper prefixes, the root included. *)
Definition proper_prefixes (names : list string) : list (list string) :=
  (λ k, take k names) <$> seq 0 (length names).
Definition crosses_symlink (links : Trail) (names : list string) : bool :=
  existsb (λ p, bool_decide (p ∈ links)) (proper_prefixes (fold_case names)).
Definition trail_record (names : list string) (links : Trail) : Trail :=
  {[fold_case names]} ∪ links.

(** [Path::display] of the names joined again. *)
Definition show_names (names : list string) : string := join "/" names.

Definition trail_check (links : Trail) (e : TarEntry) (path : string) : result Trail ArchiveError :=
  let names := normal_components path in
  refuse_if (crosses_symlink links names) (UnsafePath (show_names names)) ;?
  match t_kind e with
  | TSymlink => Ok (trail_record names links)
  | TLink =>
      let? link := io_of (t_link e) in
      match link with
      | None => Ok links
      | Some target =>
          let target := normal_components target in
          refuse_if (crosses_symlink links target) (UnsafeLink (show_names target)) ;?
          Ok (if decide (fold_case target ∈ links) then trail_record names links else links)
      end
  | _ => Ok links
  end.

(** ** The scan without a destination

    [entries] is what the iteration over the archive yields; an [Err] is an
    error of the iteration, already blamed on the guard when it refused.  The
    offsets passed to [passed] are returned, in order. *)
Fixpoint scan (entries : list (result TarEntry ArchiveError)) (policy : Policy) (l : Limits)
    (totals : Totals) (links : Trail) (passed : list Z) : result unit ArchiveError * list Z :=
  match entries with
  | [] => (Ok tt, passed)
  | Err e :: _ => (Err e, passed)
  | Ok e :: entries =>
      match (let? path := io_of (t_path e) in
             let? totals := check_entry e path policy l totals in
             let? links := trail_check links e path in
             Ok (totals, links)) with
      | Err err => (Err err, passed)
      | Ok (totals, links) =>
          scan entries policy l totals links
            (passed ++ [saturating_add (t_raw_file_position e) (t_size e)])
      end
  end.

(** [validate_with_progress]. *)
Definition validate_with_progress (entries : list (result TarEntry ArchiveError)) (policy : Policy)
    (l : Limits) : result unit ArchiveError * list Z :=
  scan entries policy l totals_default ∅ [].

(** ** The guard on the stream

    [HeaderGuard] sees the bytes of the stream as they pass, in chunks of any
    size, and refuses headers whose bodies the tar crate would buffer whole. *)

Definition EXT_SPARSE_IS_EXTENDED_OFFSET : nat := 504.
Definition CKSUM_FILL : Z := 32.
Definition in_cksum_field (i : nat) : bool := (148 <=? i)%nat && (i <? 156)%nat.
(** The bytes of [size]. *)
Definition PAX_SIZE_KEY : list Z := [115; 105; 122; 101].

Inductive GuardState :=
| GHeader
| GSparseExtension (body : Z)
| GBody (body_left data_left : Z) (pax : bool).

Record HeaderGuard := mkGuard {
  reject_sparse : bool;
  failed : bool;
  verdict : option ArchiveError;
  g_state : GuardState;
  g_block : list Z;
  g_filled : nat;
  g_pax : list Z;
}.
Definition guard_new (reject_sparse : bool) : HeaderGuard :=
  mkGuard reject_sparse false None GHeader (replicate BLOCK_SIZE 0) 0 [].
Definition set_guard_state (s : GuardState) (g : HeaderGuard) : HeaderGuard :=
  mkGuard (reject_sparse g) (failed g) (verdict g) s (g_block g) (g_filled g) (g_pax g).
Definition set_block (b : list Z) (filled : nat) (g : HeaderGuard) : HeaderGuard :=
  mkGuard (reject_sparse g) (failed g) (verdict g) (g_state g) b filled (g_pax g).
Definition set_pax (p : list Z) (g : HeaderGuard) : HeaderGuard :=
  mkGuard (reject_sparse g) (failed g) (verdict g) (g_state g) (g_block g) (g_filled g) p.
Definition set_failed (e : ArchiveError) (g : HeaderGuard) : HeaderGuard :=
  mkGuard (reject_sparse g) true (Some e) (g_state g) (g_block g) (g_filled g) (g_pax g).

(** [block[at..at + len].copy_from_slice(bytes)]. *)
Definition write_at (b : list Z) (i : nat) (bytes : list Z) : list Z :=
  take i b ++ bytes ++ drop (i + length bytes) b.

(** [size.div_ceil(512).saturating_mul(512)]. *)
Definition padded_size (size : Z) : Z :=
  Z.min (((size + (Z.of_nat BLOCK_SIZE - 1)) / Z.of_nat BLOCK_SIZE) * Z.of_nat BLOCK_SIZE) U64_MAX.

Definition start_body (size : Z) (pax : bool) (g : HeaderGuard) : HeaderGuard :=
  let padded := padded_size size in
  set_pax [] (set_guard_state (if padded =? 0 then GHeader else GBody padded size pax) g).

(** What the tar crate reads in a header block: the stored checksum, the size,
    the type and the flag of a GNU header that extended sparse blocks follow. *)
Record TarHeader := mkTarHeader {
  cksum : result Z IoError;
  entry_size : result Z IoError;
  entry_type : EntryType;
  is_extended : bool;
}.

Definition cksum_sum (block : list Z) : Z :=
  foldr Z.add 0 (imap (λ i b, if in_cksum_field i then CKSUM_FILL else b) block).
Definition checksum_matches (header : TarHeader) (block : list Z) : bool :=
  match cksum header with Ok stored => stored =? cksum_sum block | Err _ => false end.

Section Guard.
(** [Header::from_byte_slice], and the keys [PaxExtensions] finds. *)
Context (from_byte_slice : list Z → TarHeader).
Context (pax_keys : list Z → list (result (list Z) IoError)).

Definition finish_pax (g : HeaderGuard) : result HeaderGuard ArchiveError :=
  try_for_each (λ record,
    let? k := map_err (λ _, ForbiddenHeader "malformed PAX record") record in
    refuse_if (bool_decide (k = PAX_SIZE_KEY)) (ForbiddenHeader "PAX size override"))
    (pax_keys (g_pax g)) ;?
  Ok (set_pax [] g).

Definition is_pax (kind : EntryType) : bool :=
  match kind with TXHeader | TXGlobalHeader => true | _ => false end.

Definition finish_block (g : HeaderGuard) : result HeaderGuard ArchiveError :=
  match g_state g with
  | GSparseExtension body =>
      Ok (if negb (nth EXT_SPARSE_IS_EXTENDED_OFFSET (g_block g) 0 =? 1)
          then start_body body false g else g)
  | _ =>
      if forallb (λ b, b =? 0) (g_block g) then Ok g else
      let header := from_byte_slice (g_block g) in
      refuse_if (negb (checksum_matches header (g_block g)))
        (ForbiddenHeader "invalid header checksum") ;?
      let? size := map_err (λ _, ForbiddenHeader "unreadable size field") (entry_size header) in
      match entry_type header with
      | TGnuLongName | TGnuLongLink | TXHeader | TXGlobalHeader =>
          refuse_if (size >? MAX_EXTENDED_HEADER_BYTES)
            (limit "extended header size" MAX_EXTENDED_HEADER_BYTES) ;?
          Ok (start_body size (is_pax (entry_type header)) g)
      | TGnuSparse =>
          refuse_if (reject_sparse g) (ForbiddenType "GNU sparse file") ;?
          Ok (if is_extended header then set_guard_state (GSparseExtension size) g
              else start_body size false g)
      | _ => Ok (start_body size false g)
      end
  end.

(** One iteration of the loop of [observe]: what it takes, and the guard then. *)
Definition observe_step (g : HeaderGuard) (bytes : list Z)
    : nat * result HeaderGuard ArchiveError :=
  match g_state g with
  | GHeader | GSparseExtension _ =>
      let n := Nat.min (BLOCK_SIZE - g_filled g) (length bytes) in
      let g := set_block (write_at (g_block g) (g_filled g) (take n bytes)) (g_filled g + n) g in
      (n, if decide (g_filled g = BLOCK_SIZE) then finish_block (set_block (g_block g) 0 g)
          else Ok g)
  | GBody body_left data_left pax =>
      let n := Z.to_nat (Z.min body_left (Z.of_nat (length bytes))) in
      let data := if pax then Nat.min n (Z.to_nat data_left) else 0%nat in
      let g := if pax then set_pax (g_pax g ++ take data bytes) g else g in
      let body_left := body_left - Z.of_nat n in
      let g := set_guard_state (GBody body_left (data_left - Z.of_nat data) pax) g in
      (n, if body_left =? 0 then
            let g := set_guard_state GHeader g in
            if pax then finish_pax g else Ok g
          else Ok g)
  end.

(** [observe]: [None] stands for a loop that has not ended. *)
Fixpoint observe_loop (fuel : nat) (g : HeaderGuard) (bytes : list Z)
    : option (result HeaderGuard ArchiveError) :=
  match bytes with
  | [] => Some (Ok g)
  | _ =>
      match fuel with
      | O => None
      | S fuel =>
          match observe_step g bytes with
          | (_, Err e) => Some (Err e)
          | (n, Ok g) => observe_loop fuel g (drop n bytes)
          end
      end
  end.
Definition observe (g : HeaderGuard) (bytes : list Z) : option (result HeaderGuard ArchiveError) :=
  observe_loop (length bytes) g bytes.

(** [Read::read]: [r] is what the inner reader returned. *)
Definition guard_read (g : HeaderGuard) (r : result (list Z) IoError)
    : option (result (list Z) IoError * HeaderGuard) :=
  let refused := mkIo IoOther "archive refused" in
  if failed g then Some (Err refused, g) else
  match r with
  | Err e => Some (Err e, g)
  | Ok bytes =>
      match observe g bytes with
      | None => None
      | Some (Err refusal) => Some (Err refused, set_failed refusal g)
      | Some (Ok g) => Some (Ok bytes, g)
      end
  end.

(** ** A reader of the whole stream

    The reference for the guard: it looks at the stream as it is, one header
    or body at a time, and keeps nothing but what to expect next. *)
Inductive Expect := EHeader | ESparse (body : Z) | EBody (size : Z) (pax : bool).

Definition expect_body (size : Z) (pax : bool) : Expect :=
  if padded_size size =? 0 then EHeader else EBody size pax.

Definition read_header (reject : bool) (block : list Z) : result Expect ArchiveError :=
  if forallb (λ b, b =? 0) block then Ok EHeader else
  let header := from_byte_slice block in
  refuse_if (negb (checksum_matches header block)) (ForbiddenHeader "invalid header checksum") ;?
  let? size := map_err (λ _, ForbiddenHeader "unreadable size field") (entry_size header) in
  match entry_type header with
  | TGnuLongName | TGnuLongLink | TXHeader | TXGlobalHeader =>
      refuse_if (size >? MAX_EXTENDED_HEADER_BYTES)
        (limit "extended header size" MAX_EXTENDED_HEADER_BYTES) ;?
      Ok (expect_body size (is_pax (entry_type header)))
  | TGnuSparse =>
      refuse_if reject (ForbiddenType "GNU sparse file") ;?
      Ok (if is_extended header then ESparse size else expect_body size false)
  | _ => Ok (expect_body size false)
  end.

Definition read_pax (data : list Z) : result Expect ArchiveError :=
  try_for_each (λ record,
    let? k := map_err (λ _, ForbiddenHeader "malformed PAX record") record in
    refuse_if (bool_decide (k = PAX_SIZE_KEY)) (ForbiddenHeader "PAX size override"))
    (pax_keys data) ;?
  Ok EHeader.

Definition unit_len (x : Expect) : nat :=
  match x with EBody size _ => Z.to_nat (padded_size size) | _ => BLOCK_SIZE end.
Definition read_unit (reject : bool) (x : Expect) (data : list Z) : result Expect ArchiveError :=
  match x with
  | EHeader => read_header reject data
  | ESparse body =>
      Ok (if nth EXT_SPARSE_IS_EXTENDED_OFFSET data 0 =? 1 then x else expect_body body false)
  | EBody size pax => if pax then read_pax (take (Z.to_nat size) data) else Ok EHeader
  end.

Fixpoint read_stream (fuel : nat) (reject : bool) (x : Expect) (stream : list Z)
    : result unit ArchiveError :=
  match fuel with
  | O => Ok tt
  | S fuel =>
      if (length stream <? unit_len x)%nat then Ok tt else
      let? x' := read_unit reject x (take (unit_len x) stream) in
      read_stream fuel reject x' (drop (unit_len x) stream)
  end.

Definition parse_stream (reject : bool) (stream : list Z) : result unit ArchiveError :=
  read_stream (S (length stream)) reject EHeader stream.

(** The guard over the chunks of a stream. *)
Fixpoint observe_all (g : HeaderGuard) (chunks : list (list Z))
    : option (result HeaderGuard ArchiveError) :=
  match chunks with
  | [] => Some (Ok g)
  | c :: chunks =>
      match observe g c with
      | Some (Ok g) => observe_all g chunks
      | r => r
      end
  end.

(** *** Lemmas *)

(** The size field of the tar crate is a [u64]. *)
Hypothesis entry_size_u64 : ∀ block size,
  entry_size (from_byte_slice block) = Ok size → 0 ≤ size ≤ U64_MAX.

Definition expect_ok (x : Expect) : Prop :=
  match x with
  | EHeader => True
  | ESparse body => 0 ≤ body ≤ U64_MAX
  | EBody size pax =>
      0 < padded_size size ∧ 0 ≤ size ≤ padded_size size ∧
      (pax = true → size ≤ MAX_EXTENDED_HEADER_BYTES)
  end.

(** The guard has seen the bytes [seen] of the unit [x]. *)
Definition at_unit (reject : bool) (g : HeaderGuard) (x : Expect) (seen : list Z) : Prop :=
  reject_sparse g = reject ∧ failed g = false ∧ length (g_block g) = BLOCK_SIZE ∧ expect_ok x ∧
  (length seen < unit_len x)%nat ∧
  match x with
  | EHeader => g_state g = GHeader ∧ g_filled g = length seen ∧ take (length seen) (g_block g) = seen
  | ESparse body =>
      g_state g = GSparseExtension body ∧ g_filled g = length seen ∧
      take (length seen) (g_block g) = seen
  | EBody size pax =>
      g_filled g = 0%nat ∧ g_pax g = (if pax then take (Z.to_nat size) seen else []) ∧
      g_state g = GBody (padded_size size - Z.of_nat (length seen))
        (size - if pax then Z.of_nat (length (take (Z.to_nat size) seen)) else 0) pax
  end.

Lemma padded_size_ge size : 0 ≤ size ≤ U64_MAX → size ≤ padded_size size ≤ U64_MAX.
Proof.
  intros [H0 H1]. unfold padded_size. change (Z.of_nat BLOCK_SIZE) with 512.
  assert (size ≤ (size + (512 - 1)) / 512 * 512); [|lia].
  pose proof (Z.div_mod (size + (512 - 1)) 512 ltac:(lia)).
  pose proof (Z.mod_pos_bound (size + (512 - 1)) 512 ltac:(lia)). lia.
Qed.

Lemma expect_body_ok size pax :
  0 ≤ size ≤ U64_MAX → (pax = true → size ≤ MAX_EXTENDED_HEADER_BYTES) →
  expect_ok (expect_body size pax).
Proof.
  intros H Hp. unfold expect_body. pose proof (padded_size_ge size H).
  destruct (Z.eqb_spec (padded_size size) 0); cbn; [done|]. split_and!; [lia..|done].
Qed.

Lemma length_write_at b i bytes :
  (i + length bytes ≤ length b)%nat → length (write_at b i bytes) = length b.
Proof. intros H. unfold write_at. rewrite !length_app, length_take, length_drop. lia. Qed.
Lemma take_write_at b i bytes :
  (i ≤ length b)%nat → take (i + length bytes) (write_at b i bytes) = take i b ++ bytes.
Proof.
  intros H. unfold write_at. rewrite app_assoc. apply take_app_length'.
  rewrite length_app, length_take. lia.
Qed.

(** A guard between two units. *)
Definition fresh_at (g : HeaderGuard) : Prop :=
  failed g = false ∧ length (g_block g) = BLOCK_SIZE ∧ g_filled g = 0%nat.

Lemma start_body_at g size pax :
  fresh_at g → 0 ≤ size ≤ U64_MAX → (pax = true → size ≤ MAX_EXTENDED_HEADER_BYTES) →
  at_unit (reject_sparse g) (start_body size pax g) (expect_body size pax) [].
Proof.
  intros (Hf & Hb & Hn) Hs Hp. pose proof (expect_body_ok size pax Hs Hp) as Hok.
  unfold start_body, expect_body in *.
  destruct (padded_size size =? 0) eqn:E; unfold at_unit; cbn -[BLOCK_SIZE take] in *.
  - split_and!; try done. unfold BLOCK_SIZE; lia.
  - split_and!; try done; try lia; [by destruct pax; rewrite ?take_nil|].
    rewrite take_nil. cbn. f_equal; [lia|destruct pax; lia].
Qed.

Lemma header_at g : fresh_at g → g_state g = GHeader → at_unit (reject_sparse g) g EHeader [].
Proof. intros (Hf & Hb & Hn) Hs. unfold at_unit. cbn. split_and!; try done. unfold BLOCK_SIZE; lia. Qed.

Lemma sparse_at g body :
  fresh_at g → 0 ≤ body ≤ U64_MAX → g_state g = GSparseExtension body →
  at_unit (reject_sparse g) g (ESparse body) [].
Proof. intros (Hf & Hb & Hn) Hu Hs. unfold at_unit. cbn. split_and!; try done; unfold BLOCK_SIZE; lia. Qed.

(** The guard and the reference agree after a unit. *)
Definition agree (reject : bool) (r : result HeaderGuard ArchiveError) (x : result Expect ArchiveError)
    : Prop :=
  match r, x with
  | Ok g, Ok x => at_unit reject g x []
  | Err e, Err e' => e = e'
  | _, _ => False
  end.

Lemma agree_bind {A} reject (r : result A ArchiveError) k k' :
  (∀ a, r = Ok a → agree reject (k a) (k' a)) → agree reject (rbind r k) (rbind r k').
Proof. destruct r; cbn; auto. Qed.

Lemma finish_header_agree g :
  fresh_at g → g_state g = GHeader →
  agree (reject_sparse g) (finish_block g) (read_header (reject_sparse g) (g_block g)).
Proof.
  intros Hf Hs. unfold finish_block, read_header. rewrite Hs.
  destruct (forallb _ _); [by apply header_at|].
  apply agree_bind; intros _ _. apply agree_bind; intros size Hsize. apply map_err_Ok in Hsize.
  apply entry_size_u64 in Hsize.
  destruct (entry_type _);
    try (apply agree_bind; intros [] Hle; apply refuse_if_Ok in Hle);
    try destruct (is_extended _); cbn [agree];
    try (apply start_body_at; [done..|]; intros _; rewrite ?Z.gtb_ltb, ?Z.ltb_ge in Hle; first [done|lia]);
    try (apply start_body_at; done).
  apply (sparse_at (set_guard_state (GSparseExtension size) g)); done.
Qed.

Lemma finish_sparse_agree g body :
  fresh_at g → 0 ≤ body ≤ U64_MAX → g_state g = GSparseExtension body →
  agree (reject_sparse g) (finish_block g)
    (read_unit (reject_sparse g) (ESparse body) (g_block g)).
Proof.
  intros Hf Hu Hs. unfold finish_block, read_unit. rewrite Hs.
  destruct (_ =? 1); cbn [negb agree]; [by apply sparse_at|by apply start_body_at].
Qed.

Lemma finish_pax_agree g :
  fresh_at g → g_state g = GHeader → agree (reject_sparse g) (finish_pax g) (read_pax (g_pax g)).
Proof.
  intros Hf Hs. unfold finish_pax, read_pax. apply agree_bind; intros [] _.
  by apply (header_at (set_pax [] g)).
Qed.

(** What an iteration does while a block fills, and when it is full. *)
Lemma fill_block reject g x seen bytes :
  at_unit reject g x seen → unit_len x = BLOCK_SIZE → (x = EHeader ∨ ∃ b, x = ESparse b) →
  let n := Nat.min (BLOCK_SIZE - length seen) (length bytes) in
  let g' := set_block (write_at (g_block g) (g_filled g) (take n bytes)) (g_filled g + n) g in
  fst (observe_step g bytes) = n ∧
  snd (observe_step g bytes) =
    (if decide (g_filled g' = BLOCK_SIZE) then finish_block (set_block (g_block g') 0 g')
     else Ok g') ∧
  g_filled g' = (length seen + n)%nat ∧ length (g_block g') = BLOCK_SIZE ∧
  take (length seen + n) (g_block g') = seen ++ take n bytes.
Proof.
  intros (Hr & Hf & Hb & Hok & Hlt & Hx) Hu Hcase. cbn zeta. rewrite Hu in Hlt.
  assert (Hg : g_filled g = length seen ∧ take (length seen) (g_block g) = seen ∧
    (g_state g = GHeader ∨ ∃ b, g_state g = GSparseExtension b)).
  { destruct Hcase as [->|[b ->]]; cbn in Hx; destruct Hx as (? & ? & ?); eauto. }
  destruct Hg as (Hfill & Htake & Hst).
  set (n := Nat.min (BLOCK_SIZE - length seen) (length bytes)).
  assert (Hn : length (take n bytes) = n) by (rewrite length_take; lia).
  split_and!.
  - unfold observe_step. rewrite Hfill. by destruct Hst as [->|[b ->]].
  - unfold observe_step. rewrite Hfill. by destruct Hst as [->|[b ->]].
  - cbn. by rewrite Hfill.
  - cbn [g_block set_block]. rewrite length_write_at; [done|]. rewrite Hn, Hfill. lia.
  - cbn [g_block set_block]. rewrite <- Hn at 1. rewrite Hfill, take_write_at by lia.
    by rewrite Htake.
Qed.

(** One iteration of [observe] against the reference. *)
Definition step_agrees (reject : bool) (g : HeaderGuard) (x : Expect) (seen bytes : list Z) : Prop :=
  let need := (unit_len x - length seen)%nat in
  fst (observe_step g bytes) = Nat.min need (length bytes) ∧
  if (length bytes <? need)%nat
  then ∃ g', snd (observe_step g bytes) = Ok g' ∧ at_unit reject g' x (seen ++ bytes)
  else agree reject (snd (observe_step g bytes)) (read_unit reject x (seen ++ take need bytes)).

Lemma block_step reject g x seen bytes :
  at_unit reject g x seen → unit_len x = BLOCK_SIZE → (x = EHeader ∨ ∃ b, x = ESparse b) →
  step_agrees reject g x seen bytes.
Proof.
  intros Hat Hu Hcase. pose proof Hat as (Hr & Hf & Hb & Hok & Hlt & Hx).
  destruct (fill_block reject g x seen bytes Hat Hu Hcase) as (Hn & Hs & Hfill & Hlen & Htake).
  unfold step_agrees. rewrite Hu in *. split; [exact Hn|].
  revert Hs Hfill Hlen Htake.
  set (n := Nat.min (BLOCK_SIZE - length seen) (length bytes)).
  set (g' := set_block (write_at (g_block g) (g_filled g) (take n bytes)) (g_filled g + n) g).
  intros Hs Hfill Hlen Htake. rewrite Hs.
  destruct (Nat.ltb_spec (length bytes) (BLOCK_SIZE - length seen)).
  - rewrite decide_False by lia. exists g'. split; [done|].
    assert (n = length bytes) as En by lia. rewrite En, firstn_all in Htake. rewrite En in Hfill.
    rewrite <- length_app in Hfill, Htake.
    split_and!; [done..| |].
    + rewrite Hu, length_app. lia.
    + destruct Hcase as [->|[b ->]]; cbn in Hx; split_and!; try done; by destruct Hx.
  - rewrite decide_True by lia.
    assert (n = (BLOCK_SIZE - length seen)%nat) as En by lia.
    assert (Hblock : g_block g' = seen ++ take (BLOCK_SIZE - length seen) bytes).
    { rewrite <- En, <- Htake. symmetry. apply take_ge. lia. }
    rewrite <- Hblock. subst reject.
    assert (Hfresh : fresh_at (set_block (g_block g') 0 g')) by (split_and!; done).
    destruct Hcase as [->|[b ->]]; cbn in Hx, Hok.
    + apply (finish_header_agree (set_block (g_block g') 0 g') Hfresh). by destruct Hx.
    + apply (finish_sparse_agree (set_block (g_block g') 0 g') b Hfresh Hok). by destruct Hx.
Qed.

Lemma body_step reject g size pax seen bytes :
  at_unit reject g (EBody size pax) seen → step_agrees reject g (EBody size pax) seen bytes.
Proof.
  intros (Hr & Hf & Hb & (Hpos & Hsz & Hmax) & Hlt & Hfill & Hpax & Hst).
  unfold step_agrees, observe_step. rewrite Hst. cbn [fst snd unit_len] in *.
  set (n := Z.to_nat (Z.min (padded_size size - Z.of_nat (length seen)) (Z.of_nat (length bytes)))).
  assert (Hn : n = Nat.min (Z.to_nat (padded_size size) - length seen) (length bytes)) by lia.
  split; [exact Hn|]. set (sz := Z.to_nat size) in *.
  set (data := if pax then Nat.min n (Z.to_nat
    (size - (if pax then Z.of_nat (length (take sz seen)) else 0))) else 0%nat).
  set (g1 := if pax then set_pax (g_pax g ++ take data bytes) g else g).
  assert (Hg1 : g_pax g1 = if pax then take sz (seen ++ take n bytes) else []).
  { unfold g1, data. destruct pax; [|done]. cbn [g_pax set_pax]. rewrite Hpax, take_app, take_take.
    do 2 f_equal. rewrite length_take. lia. }
  assert (Hkeep : reject_sparse g1 = reject_sparse g ∧ failed g1 = false ∧
    length (g_block g1) = BLOCK_SIZE ∧ g_filled g1 = 0%nat) by (unfold g1; by destruct pax).
  destruct Hkeep as (Hr1 & Hf1 & Hb1 & Hfill1).
  destruct (Nat.ltb_spec (length bytes) (Z.to_nat (padded_size size) - length seen)).
  - assert (n = length bytes) as En by lia. rewrite En, firstn_all in Hg1.
    destruct (Z.eqb_spec (padded_size size - Z.of_nat (length seen) - Z.of_nat n) 0); [lia|].
    eexists. split; [done|]. unfold at_unit. cbn [unit_len].
    split_and!; try done; [exact (eq_trans Hr1 Hr)|rewrite length_app; lia|].
    cbn [g_state set_guard_state]. rewrite length_app. f_equal; [lia|].
    unfold data. destruct pax; [|lia]. rewrite !length_take, length_app. lia.
  - destruct (Z.eqb_spec (padded_size size - Z.of_nat (length seen) - Z.of_nat n) 0); [|lia].
    assert (Hfr : fresh_at (set_guard_state GHeader (set_guard_state
      (GBody (padded_size size - Z.of_nat (length seen) - Z.of_nat n)
        (size - (if pax then Z.of_nat (length (take sz seen)) else 0) - Z.of_nat data) pax) g1)))
      by (split_and!; done).
    rewrite <- Hr, <- Hr1. unfold read_unit. destruct pax.
    + fold sz. replace (_ - length seen)%nat with n by lia. rewrite <- Hg1.
      by apply (finish_pax_agree _ Hfr).
    + by apply (header_at _ Hfr).
Qed.

Lemma observe_step_agrees reject g x seen bytes :
  at_unit reject g x seen → step_agrees reject g x seen bytes.
Proof.
  intros H. destruct x; [apply block_step; eauto..|by apply body_step].
Qed.

Lemma read_unit_ok reject x data x' :
  expect_ok x → read_unit reject x data = Ok x' → expect_ok x'.
Proof.
  intros Hok H. destruct x as [|body|size pax]; cbn [read_unit] in H.
  - unfold read_header in H. destruct (forallb _ _); [by inv_ok; subst|]. inv_ok.
    match goal with H : entry_size _ = Ok _ |- _ => apply entry_size_u64 in H end.
    destruct (entry_type _); inv_ok; subst; try destruct (is_extended _); try done;
      apply expect_body_ok; try done;
      intros _; match goal with H : (_ >? _) = false |- _ => rewrite Z.gtb_ltb, Z.ltb_ge in H end;
      assumption.
  - inv_ok. subst. case_match; [done|]. by apply expect_body_ok.
  - unfold read_pax in H. destruct pax; inv_ok; by subst.
Qed.

Lemma unit_len_pos x : expect_ok x → (0 < unit_len x)%nat.
Proof. destruct x; cbn; unfold BLOCK_SIZE; lia. Qed.

(** More fuel than bytes is enough for the reference. *)
Lemma read_stream_fuel reject n m x stream :
  expect_ok x → (length stream < n)%nat → (length stream < m)%nat →
  read_stream n reject x stream = read_stream m reject x stream.
Proof.
  revert m x stream. induction n as [|n IH]; intros [|m] x stream Hok Hn Hm; try lia.
  cbn [read_stream]. destruct (Nat.ltb_spec (length stream) (unit_len x)); [done|].
  destruct (read_unit _ _ _) as [x'|] eqn:E; [|done]. cbn [rbind].
  pose proof (unit_len_pos x Hok). apply read_unit_ok in E; [|done].
  apply IH; [done|rewrite length_drop; lia..].
Qed.

Definition parse_from (reject : bool) (x : Expect) (stream : list Z) : result unit ArchiveError :=
  read_stream (S (length stream)) reject x stream.

Lemma parse_from_short reject x stream :
  (length stream < unit_len x)%nat → parse_from reject x stream = Ok tt.
Proof. intros H. unfold parse_from. cbn [read_stream]. by rewrite (proj2 (Nat.ltb_lt _ _) H). Qed.

Lemma parse_from_unit reject x data rest :
  expect_ok x → length data = unit_len x →
  parse_from reject x (data ++ rest) =
  (let? x' := read_unit reject x data in parse_from reject x' rest).
Proof.
  intros Hok Hl. unfold parse_from at 1. cbn [read_stream].
  rewrite (proj2 (Nat.ltb_ge _ _)) by (rewrite length_app; lia).
  rewrite take_app_length', drop_app_length' by done.
  destruct (read_unit _ _ _) as [x'|] eqn:E; [|done]. cbn [rbind].
  pose proof (unit_len_pos x Hok). apply read_unit_ok in E; [|done].
  apply read_stream_fuel; [done|rewrite ?length_app; lia..].
Qed.

(** The loop of [observe] ends, and leaves the guard where the reference is. *)
Lemma observe_loop_spec reject fuel g x seen bytes :
  at_unit reject g x seen → (length bytes ≤ fuel)%nat →
  ∃ r, observe_loop fuel g bytes = Some r ∧
    match r with
    | Err e => ∀ tail, parse_from reject x (seen ++ bytes ++ tail) = Err e
    | Ok g' => ∃ x' seen', at_unit reject g' x' seen' ∧
        ∀ tail, parse_from reject x (seen ++ bytes ++ tail) = parse_from reject x' (seen' ++ tail)
    end.
Proof.
  revert g x seen bytes. induction fuel as [|fuel IH]; intros g x seen bytes Hat Hfuel.
  { destruct bytes; [|cbn in Hfuel; lia]. exists (Ok g). split; [done|]. by exists x, seen. }
  destruct bytes as [|b bytes]; [exists (Ok g); split; [done|]; by exists x, seen|].
  cbn [observe_loop]. set (s := b :: bytes) in *.
  pose proof (observe_step_agrees reject g x seen s Hat) as [Hn Hstep].
  pose proof Hat as (_ & _ & _ & Hok & Hlt & _).
  destruct (observe_step g s) as [n r]. cbn [fst snd] in Hn, Hstep.
  set (need := (unit_len x - length seen)%nat) in *.
  destruct (Nat.ltb_spec (length s) need).
  - destruct Hstep as (g' & -> & Hat'). rewrite drop_ge by lia. exists (Ok g').
    split; [by destruct fuel|]. exists x, (seen ++ s). split; [done|]. intros tail. by rewrite app_assoc.
  - assert (Hdata : ∀ tail, parse_from reject x (seen ++ s ++ tail) =
      (let? x' := read_unit reject x (seen ++ take need s) in
       parse_from reject x' (drop need s ++ tail))).
    { intros tail. rewrite <- parse_from_unit, <- app_assoc, (app_assoc (take need s)), take_drop;
        [done..|]. rewrite length_app, length_take. lia. }
    destruct r as [g'|e], (read_unit reject x (seen ++ take need s)) as [x'|e'];
      cbn [agree rbind] in Hstep, Hdata; try done.
    + assert (n = need) as -> by lia.
      destruct (IH g' x' [] (drop need s) Hstep) as (r & -> & Hr).
      { rewrite length_drop. unfold need. lia. }
      exists r. split; [done|]. destruct r as [g''|e].
      * destruct Hr as (x'' & seen'' & Hat'' & Hr). exists x'', seen''. split; [done|].
        intros tail. rewrite Hdata. apply Hr.
      * intros tail. rewrite Hdata. apply Hr.
    + subst e'. by exists (Err e).
Qed.

Lemma observe_all_spec reject g x seen chunks :
  at_unit reject g x seen →
  ∃ r, observe_all g chunks = Some r ∧
    match r with
    | Err e => parse_from reject x (seen ++ concat chunks) = Err e
    | Ok g' => parse_from reject x (seen ++ concat chunks) = Ok tt ∧
        ∃ x' seen', at_unit reject g' x' seen'
    end.
Proof.
  revert g x seen. induction chunks as [|c chunks IH]; intros g x seen Hat; cbn [observe_all concat].
  { exists (Ok g). rewrite app_nil_r. pose proof Hat as (_ & _ & _ & _ & Hlt & _).
    split_and!; [done|by apply parse_from_short|by exists x, seen]. }
  destruct (observe_loop_spec reject (length c) g x seen c Hat) as (r & Hr & H); [done|].
  unfold observe. rewrite Hr. destruct r as [g'|e]; [|by exists (Err e)].
  destruct H as (x' & seen' & Hat' & H). rewrite H. by apply IH.
Qed.

Lemma guard_new_at reject : at_unit reject (guard_new reject) EHeader [].
Proof. apply (header_at (guard_new reject)); done. Qed.

Lemma at_unit_pax reject g x seen :
  at_unit reject g x seen → ∀ l d, g_state g = GBody l d true →
  Z.of_nat (length (g_pax g)) + d ≤ MAX_EXTENDED_HEADER_BYTES.
Proof.
  intros (_ & _ & _ & Hok & Hlt & Hx) l d Hs. destruct x as [| |size pax].
  1,2: destruct Hx; congruence.
  destruct Hx as (_ & Hp & Hst). rewrite Hst in Hs. injection Hs as _ Hd ->.
  destruct Hok as (_ & _ & Hmax). specialize (Hmax eq_refl). rewrite Hp. lia.
Qed.
End Guard.

(** ** What a validated archive may do

    The trees an archive can leave on a host.  A host may tell two names apart
    or not, as long as it identifies at most names that differ in ASCII case:
    [key] is the name it stores.  An unpacker creates a symlink only at the path
    of a symlink entry, or of a hardlink entry whose target is a symlink then;
    whether it replaces, keeps or removes what was there is left open. *)
Inductive Node := FileNode | DirNode | SymlinkNode.
#[export] Instance Node_eq_dec : EqDecision Node.
Proof. solve_decision. Defined.
Definition Tree : Type := gmap (list string) Node.

Section Unpacking.
Context (key : string → string).
Hypothesis key_folds : ∀ a b, key a = key b → to_ascii_lowercase a = to_ascii_lowercase b.

Definition host_path (names : list string) : list string := key <$> names.
Definition is_symlink (fs : Tree) (names : list string) : Prop :=
  fs !! host_path names = Some SymlinkNode.

(** The symlinks of the tree after an entry. *)
Definition unpacked (fs : Tree) (e : TarEntry) (fs' : Tree) : Prop :=
  ∀ p, fs' !! p = Some SymlinkNode →
    fs !! p = Some SymlinkNode ∨
    ∃ path, t_path e = Ok path ∧ p = host_path (normal_components path) ∧
      (t_kind e = TSymlink ∨
       ∃ target, t_kind e = TLink ∧ t_link e = Ok (Some target) ∧
         is_symlink fs (normal_components target)).

Inductive unpacks : Tree → list TarEntry → Tree → Prop :=
| unpacks_nil fs : unpacks fs [] fs
| unpacks_cons fs e fs1 l fs2 :
    unpacked fs e fs1 → unpacks fs1 l fs2 → unpacks fs (e :: l) fs2.

(** No proper prefix of the path is a symlink: the kernel resolves the path
    name by name, inside the directory the archive is unpacked into. *)
Definition stays_inside (fs : Tree) (p : string) : Prop :=
  contained p = true ∧
  ∀ k, (k < length (normal_components p))%nat → ¬ is_symlink fs (take k (normal_components p)).

(** Every symlink of the tree is in the trail. *)
Definition covers (links : Trail) (fs : Tree) : Prop :=
  ∀ names, is_symlink fs names → fold_case names ∈ links.

Lemma host_path_fold a b : host_path a = host_path b → fold_case a = fold_case b.
Proof.
  revert b; induction a as [|x a IH]; intros [|y b] H; try done.
  injection H as Hk H. cbn. f_equal; [by apply key_folds|by apply IH].
Qed.

Lemma crosses_symlink_spec links names :
  crosses_symlink links names = false ↔
  ∀ k, (k < length names)%nat → fold_case (take k names) ∉ links.
Proof.
  unfold crosses_symlink, proper_prefixes, fold_case. rewrite length_fmap. split.
  - intros H k Hk Hin. apply not_true_iff_false in H. apply H.
    apply existsb_exists. exists (take k (to_ascii_lowercase <$> names)). split.
    + apply list_elem_of_In, list_elem_of_fmap. exists k. split; [done|].
      apply list_elem_of_In, in_seq; lia.
    + apply bool_decide_eq_true. by rewrite <- fmap_take.
  - intros H. apply not_true_iff_false. intros (p & Hp & Hin)%existsb_exists.
    apply list_elem_of_In, list_elem_of_fmap in Hp as (k & -> & Hk).
    apply list_elem_of_In, in_seq in Hk. apply bool_decide_eq_true in Hin.
    rewrite <- fmap_take in Hin. eapply H; [|done]; lia.
Qed.

Lemma covers_stays links fs p :
  covers links fs → contained p = true → crosses_symlink links (normal_components p) = false →
  stays_inside fs p.
Proof.
  intros Hc Hp Hx. split; [done|]. intros k Hk Hs%Hc.
  exact (proj1 (crosses_symlink_spec _ _) Hx k Hk Hs).
Qed.

Lemma trail_check_Ok links e path links' :
  trail_check links e path = Ok links' →
  crosses_symlink links (normal_components path) = false ∧
  match t_kind e with
  | TSymlink => links' = trail_record (normal_components path) links
  | TLink =>
      ∃ link, t_link e = Ok link ∧
      match link with
      | None => links' = links
      | Some target =>
          crosses_symlink links (normal_components target) = false ∧
          links' = if decide (fold_case (normal_components target) ∈ links)
                   then trail_record (normal_components path) links else links
      end
  | _ => links' = links
  end.
Proof.
  unfold trail_check, io_of. intros H. inv_ok. split; [done|].
  destruct (t_kind e); inv_ok; try done.
  match goal with H : t_link e = Ok ?o |- _ => exists o; destruct o end; inv_ok; done.
Qed.

Lemma trail_check_grows links e path links' :
  trail_check links e path = Ok links' → links ⊆ links'.
Proof.
  intros [_ H]%trail_check_Ok. unfold trail_record in H.
  destruct (t_kind e); try (by subst); [|set_solver].
  destruct H as ([target|] & _ & H); [|by subst].
  destruct H as [_ ->]. case_decide; set_solver.
Qed.

Lemma covers_step links e path links' fs fs' :
  covers links fs → t_path e = Ok path → trail_check links e path = Ok links' →
  unpacked fs e fs' → covers links' fs'.
Proof.
  intros Hc Hp Ht Hu names Hs. destruct (Hu _ Hs) as [Hs'|(path' & Hp' & Hn & Hk)].
  { eapply trail_check_grows; [exact Ht|]. by apply Hc. }
  rewrite Hp in Hp'; injection Hp' as <-. apply host_path_fold in Hn. rewrite Hn.
  apply trail_check_Ok in Ht as [_ Ht]. unfold trail_record in Ht.
  destruct Hk as [Hk|(target & Hk & Hl & Ht')]; rewrite Hk in Ht.
  - set_solver.
  - destruct Ht as (link & Hl' & Ht). rewrite Hl in Hl'. injection Hl' as <-.
    destruct Ht as [_ ->]. rewrite decide_True by (by apply Hc). set_solver.
Qed.

(** The entries that passed, one step of the scan at a time. *)
Definition check_step (policy : Policy) (l : Limits) (s : Totals * Trail) (e : TarEntry)
    (s' : Totals * Trail) : Prop :=
  ∃ path, t_path e = Ok path ∧ check_entry e path policy l s.1 = Ok s'.1 ∧
    trail_check s.2 e path = Ok s'.2.

Lemma scan_cons_ok e entries policy l t links passed out :
  scan (Ok e :: entries) policy l t links passed = (Ok tt, out) →
  ∃ s', check_step policy l (t, links) e s' ∧
    scan entries policy l s'.1 s'.2
      (passed ++ [saturating_add (t_raw_file_position e) (t_size e)]) = (Ok tt, out).
Proof.
  cbn [scan]. intros H. destruct (t_path e) as [path|] eqn:Hp; [|done].
  cbn -[check_entry trail_check] in H.
  destruct (check_entry e path policy l t) as [t'|] eqn:Hc; [|done].
  cbn -[trail_check] in H. destruct (trail_check links e path) as [links'|] eqn:Ht; [|done].
  exists (t', links'). split; [by exists path|exact H].
Qed.

Lemma scan_prefix es1 e es2 policy l t links passed out fs0 fs :
  unpacks fs0 es1 fs → covers links fs0 →
  scan (Ok <$> (es1 ++ e :: es2)) policy l t links passed = (Ok tt, out) →
  ∃ s s', covers s.2 fs ∧ check_step policy l s e s'.
Proof.
  intros Hu. revert t links passed.
  induction Hu as [fs|fs e1 fs1 es1 fs2 Hstep _ IH]; intros t links passed Hc H.
  - apply scan_cons_ok in H as (s' & Hs & _). by exists (t, links), s'.
  - apply scan_cons_ok in H as ([t' links'] & (path & Hp & _ & Ht) & H).
    eapply (IH t' links'); [by eapply covers_step|exact H].
Qed.

Lemma check_entry_inv e path policy l t t' :
  check_entry e path policy l t = Ok t' →
  contained path = true ∧
  entries_seen t' = entries_seen t + 1 ∧ entries_seen t' ≤ max_entries l ∧
  bytes_seen t' = saturating_add (bytes_seen t) (t_size e) ∧ bytes_seen t' ≤ max_total_bytes l ∧
  Z.of_nat (str_len path) ≤ max_path_len l ∧
  Z.of_nat (length (normal_components path)) ≤ max_depth l ∧
  t_size e ≤ max_file_bytes l ∧
  (t_kind e = TLink → ∃ target, t_link e = Ok (Some target) ∧ contained target = true) ∧
  (policy = Copy → is_plain_type (t_kind e) = true ∧
     ∃ mode, t_mode e = Ok mode ∧ Z.land mode SETID_MODE_BITS = 0).
Proof.
  unfold check_entry, io_of. intros H. inv_ok.
  repeat match goal with
  | H : (_ >? _) = false |- _ => rewrite Z.gtb_ltb, Z.ltb_ge in H
  | H : negb _ = false |- _ => apply negb_false_iff in H
  | H : _ = t' |- _ => rewrite <- H; clear H
  end.
  cbn [entries_seen bytes_seen]. split_and!; try done.
  - intros Hk. match goal with H : (if decide (t_kind e = TLink) then _ else _) = _ |- _ =>
      rewrite decide_True in H by done end. inv_ok.
    match goal with o : option string |- _ => destruct o as [target|] end; inv_ok.
    exists target. split; [done|]. by apply negb_false_iff.
  - intros ->. match goal with H : (if decide (Copy = Copy) then _ else _) = _ |- _ =>
      rewrite decide_True in H by done end. inv_ok.
    split; [by apply negb_false_iff|]. eexists; split; [done|]. 
    by apply Z.eqb_eq, negb_false_iff.
Qed.
End Unpacking.

Lemma scan_all_ok entries policy l t links passed out :
  scan entries policy l t links passed = (Ok tt, out) → ∃ es, entries = Ok <$> es.
Proof.
  revert t links passed. induction entries as [|[e|] entries IH]; intros t links passed H; [by exists []| |done].
  apply scan_cons_ok in H as (s' & _ & (es & ->)%IH). by exists (e :: es).
Qed.

Lemma scan_totals es policy l t links passed out :
  scan (Ok <$> es) policy l t links passed = (Ok tt, out) →
  out = passed ++ ((λ e, saturating_add (t_raw_file_position e) (t_size e)) <$> es) ∧
  (es ≠ [] → entries_seen t + Z.of_nat (length es) ≤ max_entries l) ∧
  (es ≠ [] → max_total_bytes l < U64_MAX →
     bytes_seen t + foldr Z.add 0 (t_size <$> es) ≤ max_total_bytes l) ∧
  Forall (λ e, ∃ path, t_path e = Ok path ∧ Z.of_nat (str_len path) ≤ max_path_len l ∧
     Z.of_nat (length (normal_components path)) ≤ max_depth l ∧ t_size e ≤ max_file_bytes l) es.
Proof.
  revert t links passed. induction es as [|e es IH]; intros t links passed H.
  { injection H as <-. cbn. by rewrite app_nil_r. }
  apply scan_cons_ok in H as ([t' links'] & (path & Hp & Hc & _) & H).
  cbn [fst snd] in *. apply check_entry_inv in Hc as (_ & He & Hel & Hb & Hbl & Hpl & Hd & Hs & _).
  apply IH in H as (-> & Hn & Hsum & Hall). cbn [fmap list_fmap length foldr].
  unfold saturating_add in *. split_and!.
  - by rewrite <- app_assoc.
  - intros _. destruct es as [|e' es]; [cbn; lia|]. specialize (Hn ltac:(done)). cbn in *. lia.
  - intros _ Hmax. destruct es as [|e' es]; [cbn; lia|]. specialize (Hsum ltac:(done) Hmax). lia.
  - constructor; [|done]. by exists path.
Qed.

(** C14: when [validate_with_progress] accepts an archive, then however its
    entries are unpacked into a directory that holds no symlink, on a host that
    ignores ASCII case in names or not, the path of every entry, and the target
    of every hardlink, resolves inside that directory without crossing a symlink
    the archive created before; and under the copy policy every entry is a plain
    file, directory or link without the setuid and setgid bits. *)
Theorem validated_archive_contained (key : string → string) (policy : Policy) (l : Limits)
    (entries : list (result TarEntry ArchiveError)) (passed : list Z)
    (es1 es2 : list TarEntry) (e : TarEntry) (fs0 fs : Tree)
    (key_folds : ∀ a b, key a = key b → to_ascii_lowercase a = to_ascii_lowercase b)
    (accepted : validate_with_progress entries policy l = (Ok tt, passed))
    (split_at : entries = Ok <$> (es1 ++ e :: es2))
    (clean : ∀ names, ¬ is_symlink key fs0 names)
    (before : unpacks key fs0 es1 fs) :
  ∃ path, t_path e = Ok path ∧ stays_inside key fs path ∧
    (t_kind e = TLink → ∃ target, t_link e = Ok (Some target) ∧ stays_inside key fs target) ∧
    (policy = Copy → is_plain_type (t_kind e) = true ∧
       ∃ mode, t_mode e = Ok mode ∧ Z.land mode SETID_MODE_BITS = 0).
Proof.
  subst entries. unfold validate_with_progress in accepted.
  eapply scan_prefix in accepted as ([t links] & [t' links'] & Hc & path & Hp & He & Ht);
    [|done..|intros names H; by apply clean in H].
  apply check_entry_inv in He as (Hin & _ & _ & _ & _ & _ & _ & _ & Hl & Hcopy).
  apply trail_check_Ok in Ht as [Hx Ht]. exists path. split_and!; [done| | |done].
  - by eapply covers_stays.
  - intros Hk. destruct (Hl Hk) as (target & Hlink & Htin). exists target. split; [done|].
    rewrite Hk, Hlink in Ht. destruct Ht as (link & [= <-] & Htx & _). by eapply covers_stays.
Qed.

Definition archive_file (p : string) : TarEntry := mkTarEntry (Ok p) TRegular 3 (Ok 420) (Ok None) 512.
Definition archive_symlink (p : string) : TarEntry :=
  mkTarEntry (Ok p) TSymlink 0 (Ok 511) (Ok (Some "/etc")) 512.
Definition archive_hardlink (p target : string) : TarEntry :=
  mkTarEntry (Ok p) TLink 0 (Ok 420) (Ok (Some target)) 512.

Lemma validated_archive_contained_witness :
  ∃ path, t_path (archive_hardlink "b/h" "b/f") = Ok path ∧
    stays_inside id {[ ["b"; "l"] := SymlinkNode ]} path ∧
    (TLink = TLink → ∃ target, t_link (archive_hardlink "b/h" "b/f") = Ok (Some target) ∧
       stays_inside id {[ ["b"; "l"] := SymlinkNode ]} target) ∧
    (Copy = Copy → is_plain_type TLink = true ∧
       ∃ mode, Ok (E := IoError) 420 = Ok mode ∧ Z.land mode SETID_MODE_BITS = 0).
Proof.
  refine (validated_archive_contained id Copy copy_limits
    (Ok <$> [archive_file "b/f"; archive_symlink "b/l"; archive_hardlink "b/h" "b/f"]) _
    [archive_file "b/f"; archive_symlink "b/l"] [] (archive_hardlink "b/h" "b/f")
    ∅ {[ ["b"; "l"] := SymlinkNode ]} _ _ _ _ _).
  - intros a b H. exact (f_equal to_ascii_lowercase H).
  - vm_compute. reflexivity.
  - reflexivity.
  - intros names H. exact (lookup_empty_Some (M := gmap (list string)) _ _ H).
  - apply unpacks_cons with ∅; [by intros p H; left|].
    eapply unpacks_cons; [|constructor]. intros p H. right. exists "b/l".
    apply lookup_singleton_Some in H as [<- _]. split_and!; [done..|by left].
Defined.

(** An archive that [validate_with_progress] accepts is within every limit:
    the number of entries, the bytes of all of them together (their sum does not
    saturate, as long as the limit is below [u64::MAX]), the length and depth of
    each path and the size of each file; and the offsets reported on the way are
    the ends of the entries, one for each, in order. *)
Theorem validated_archive_bounded (policy : Policy) (l : Limits)
    (entries : list (result TarEntry ArchiveError)) (passed : list Z)
    (accepted : validate_with_progress entries policy l = (Ok tt, passed))
    (limits_ok : 0 ≤ max_entries l ∧ 0 ≤ max_total_bytes l < U64_MAX) :
  ∃ es, entries = Ok <$> es ∧
    Z.of_nat (length es) ≤ max_entries l ∧
    foldr Z.add 0 (t_size <$> es) ≤ max_total_bytes l ∧
    Forall (λ e, ∃ path, t_path e = Ok path ∧ Z.of_nat (str_len path) ≤ max_path_len l ∧
      Z.of_nat (length (normal_components path)) ≤ max_depth l ∧ t_size e ≤ max_file_bytes l) es ∧
    passed = (λ e, saturating_add (t_raw_file_position e) (t_size e)) <$> es.
Proof.
  unfold validate_with_progress in accepted.
  destruct (scan_all_ok _ _ _ _ _ _ _ accepted) as (es & ->).
  apply scan_totals in accepted as (-> & Hn & Hs & Hall). exists es.
  destruct limits_ok as (Hmax & Hpos & Hlt).
  destruct es as [|e es]; [cbn in *; split_and!; done|].
  specialize (Hn ltac:(done)). specialize (Hs ltac:(done) Hlt).
  cbn [entries_seen bytes_seen totals_default] in Hn, Hs. split_and!; try done; lia.
Qed.

Lemma validated_archive_bounded_witness :
  ∃ es, Ok (E := ArchiveError) <$> [archive_file "b/f"; archive_symlink "b/l"] = Ok <$> es ∧
    Z.of_nat (length es) ≤ max_entries copy_limits ∧
    foldr Z.add 0 (t_size <$> es) ≤ max_total_bytes copy_limits ∧
    Forall (λ e, ∃ path, t_path e = Ok path ∧
      Z.of_nat (str_len path) ≤ max_path_len copy_limits ∧
      Z.of_nat (length (normal_components path)) ≤ max_depth copy_limits ∧
      t_size e ≤ max_file_bytes copy_limits) es ∧
    [515; 512] = (λ e, saturating_add (t_raw_file_position e) (t_size e)) <$> es.
Proof.
  apply (validated_archive_bounded Copy copy_limits).
  - vm_compute. reflexivity.
  - vm_compute. split; [discriminate|split; [discriminate|reflexivity]].
Defined.

(** A write through a symlink, in another case of its name, is refused. *)
Example through_symlink_refused :
  validate_with_progress (Ok <$> [archive_symlink "a"; archive_file "A/x"]) Copy copy_limits =
  (Err (UnsafePath "A/x"), [512]).
Proof. reflexivity. Qed.

(** C31: however the stream is cut into chunks, the guard's loop ends on each of
    them and its verdict is the one a reader of the whole stream gives that
    takes one header or padded body at a time: it accepts what that reader
    accepts, and otherwise refuses with the same error, so no header is hidden
    from it; and while it collects a PAX body it never holds more than 1 MiB. *)
Theorem guard_reads_stream (from_byte_slice : list Z → TarHeader)
    (pax_keys : list Z → list (result (list Z) IoError)) (reject : bool) (chunks : list (list Z))
    (entry_size_u64 : ∀ block size,
      entry_size (from_byte_slice block) = Ok size → 0 ≤ size ≤ U64_MAX) :
  ∃ r, observe_all from_byte_slice pax_keys (guard_new reject) chunks = Some r ∧
    match r with
    | Err e => parse_stream from_byte_slice pax_keys reject (concat chunks) = Err e
    | Ok g =>
        parse_stream from_byte_slice pax_keys reject (concat chunks) = Ok tt ∧
        ∀ l d, g_state g = GBody l d true →
          Z.of_nat (length (g_pax g)) + d ≤ MAX_EXTENDED_HEADER_BYTES
    end.
Proof.
  destruct (observe_all_spec from_byte_slice pax_keys entry_size_u64 reject (guard_new reject)
    EHeader [] chunks (guard_new_at reject)) as (r & Hr & H).
  exists r. split; [done|]. destruct r as [g|e]; [|done].
  destruct H as (Hp & x & seen & Hat). split; [done|]. by eapply at_unit_pax.
Qed.

(** A parser that takes the type from the first byte and the size from the second. *)
Definition toy_header (block : list Z) : TarHeader :=
  mkTarHeader (Ok (cksum_sum block)) (Ok (Z.min (Z.abs (nth 1 block 0)) 255))
    (if nth 0 block 0 =? 120 then TXHeader else TRegular) false.
Definition toy_pax (data : list Z) : list (result (list Z) IoError) := [Ok data].
Definition toy_stream : list Z :=
  (120 :: 4 :: replicate 510 0) ++ PAX_SIZE_KEY ++ replicate 508 0.

Lemma guard_reads_stream_witness :
  (∃ r, observe_all toy_header toy_pax (guard_new true)
      [take 7 toy_stream; drop 7 toy_stream] = Some r ∧
    match r with
    | Err e => parse_stream toy_header toy_pax true
        (concat [take 7 toy_stream; drop 7 toy_stream]) = Err e
    | Ok g =>
        parse_stream toy_header toy_pax true
          (concat [take 7 toy_stream; drop 7 toy_stream]) = Ok tt ∧
        ∀ l d, g_state g = GBody l d true →
          Z.of_nat (length (g_pax g)) + d ≤ MAX_EXTENDED_HEADER_BYTES
    end) ∧
  parse_stream toy_header toy_pax true toy_stream = Err (ForbiddenHeader "PAX size override").
Proof.
  split; [|vm_compute; reflexivity]. apply guard_reads_stream.
  intros block size [= <-]. unfold U64_MAX. lia.
Defined.
