(* ===== verification/Events.v ===== *)
(** * Events: the lifecycle event log

    Models [ward-core/src/sandbox/events.rs]: a bounded history and a
    broadcast channel, written together under one lock, and readers that
    first replay the history and then follow the channel. *)

From stdpp Require Import base list numbers option strings gmap.
From Stdlib Require Import ZArith Lia.
From S2P Require Import Prelude Text Tokio Net Protocol Store.

Definition EVENT_BOUND : nat := 1024.

Inductive EventAction :=
| EvCreate | EvStart | EvDie | EvStop | EvDestroy | EvUpdate | EvRename | EvPause | EvUnpause
| EvHealthHealthy | EvHealthUnhealthy.
#[export] Instance EventAction_eq_dec : EqDecision EventAction.
Proof. solve_decision. Defined.

Definition action_str (a : EventAction) : string :=
  match a with
  | EvCreate => "create"
  | EvStart => "start"
  | EvDie => "die"
  | EvStop => "stop"
  | EvDestroy => "destroy"
  | EvUpdate => "update"
  | EvRename => "rename"
  | EvPause => "pause"
  | EvUnpause => "unpause"
  | EvHealthHealthy => "health_status: healthy"
  | EvHealthUnhealthy => "health_status: unhealthy"
  end.

Record SandboxEvent := mkEvent {
  action : EventAction;
  ev_sandbox_id : string;
  ev_name : string;
  ev_image : string;
  at_time : Z;
  ev_exit_code : option Z;
  reason : option EndReason;
  ev_labels : gmap string string;
}.

Definition event_new (a : EventAction) (meta : SandboxMeta) (now : Z) : SandboxEvent :=
  mkEvent a (id meta) (name (spec (options meta))) (image (options meta)) now None None
    (labels (spec (options meta))).
Definition with_exit_code (code : Z) (e : SandboxEvent) : SandboxEvent :=
  mkEvent (action e) (ev_sandbox_id e) (ev_name e) (ev_image e) (at_time e) (Some code) (reason e)
    (ev_labels e).
Definition stamp (t : Z) (e : SandboxEvent) : SandboxEvent :=
  mkEvent (action e) (ev_sandbox_id e) (ev_name e) (ev_image e) t (ev_exit_code e) (reason e)
    (ev_labels e).

(** The shared part of the log, and a reader. *)
Record EventLog (ch : Type) := mkEventLog { ev_tx : ch; history : list SandboxEvent; bound : nat }.
Arguments mkEventLog {ch}.
Arguments ev_tx {ch}.
Arguments history {ch}.
Arguments bound {ch}.
Record EventReader (rx : Type) := mkReader { backlog : list SandboxEvent; reader_rx : rx }.
Arguments mkReader {rx}.
Arguments backlog {rx}.
Arguments reader_rx {rx}.

Record Delivered := mkDelivered { event : SandboxEvent; missed : nat }.

Section events.
Context {ch rx : Type} `{HB : !Broadcast SandboxEvent ch rx}.

Definition with_bound (b : nat) : EventLog ch := mkEventLog (bc_channel b) [] b.
Definition event_log_default : EventLog ch := with_bound EVENT_BOUND.

Definition emit (e : SandboxEvent) (l : EventLog ch) : EventLog ch :=
  let e := match last (history l) with
           | Some prev => stamp (at_time e `max` at_time prev)%Z e
           | None => e
           end in
  let h := if decide (length (history l) = bound l) then tail (history l) else history l in
  mkEventLog (bc_send (ev_tx l) e) (h ++ [e]) (bound l).

Definition subscribe_events (since : option Z) (l : EventLog ch) : EventReader rx :=
  let backlog := match since with
                 | Some t => filter (λ e, (t ≤ at_time e)%Z) (history l)
                 | None => []
                 end in
  mkReader backlog (bc_subscribe (ev_tx l)).

(** The receive loop: [None] when it would wait for the next event, or the
    channel is closed.  A lagged receive is retried with the count kept. *)
Fixpoint recv_loop (fuel : nat) (c : ch) (r : rx) (dropped : nat) : option Delivered * rx :=
  match fuel with
  | 0 => (None, r)
  | S fuel =>
      match bc_try_recv c r with
      | (RecvOk e, r) => (Some (mkDelivered e dropped), r)
      | (RecvLagged n, r) => recv_loop fuel c r (dropped + n)
      | (RecvEmpty, r) | (RecvClosed, r) => (None, r)
      end
  end.

(** [EventReader::next].  Every lagged receive moves the cursor, so the
    length of the channel's history is enough fuel. *)
Definition next (l : EventLog ch) (rd : EventReader rx) : option Delivered * EventReader rx :=
  match backlog rd with
  | e :: rest => (Some (mkDelivered e 0), mkReader rest (reader_rx rd))
  | [] =>
      let '(d, r) := recv_loop (S (length (sent (ev_tx l)))) (ev_tx l) (reader_rx rd) 0 in
      (d, mkReader [] r)
  end.
End events.

(** ** The log *)

Section events_props.
Context {ch rx : Type} `{HB : !Broadcast SandboxEvent ch rx, !BroadcastLaws SandboxEvent ch rx}.
Implicit Types (l : EventLog ch) (rd : EventReader rx).

(** Events of one log never go back in time. *)
Definition ordered (es : list SandboxEvent) : Prop :=
  ∀ i j e e', i ≤ j → es !! i = Some e → es !! j = Some e' → (at_time e ≤ at_time e')%Z.

Record log_inv (l : EventLog ch) : Prop := {
  li_bound : 0 < bound l;
  li_history : history l = trim_front (bound l) (sent (ev_tx l));
  li_ordered : ordered (sent (ev_tx l));
}.

Lemma with_bound_inv b : 0 < b → log_inv (with_bound b).
Proof.
  intros Hb. split; cbn; [done| |]; rewrite bc_channel_sent; [done|].
  intros i j e e2 _ Hi. by rewrite lookup_nil in Hi.
Qed.

Lemma ordered_snoc es e :
  ordered es → (∀ p, last es = Some p → (at_time p ≤ at_time e)%Z) → ordered (es ++ [e]).
Proof.
  intros Hes Hlast i j a b Hij Ha Hb.
  destruct (decide (j < length es)) as [Hj|Hj].
  { rewrite lookup_app_l in Ha, Hb by lia. exact (Hes i j a b Hij Ha Hb). }
  assert (b = e) as -> .
  { rewrite lookup_app_r in Hb by lia. by apply list_lookup_singleton_Some in Hb as [_ ->]. }
  destruct (decide (i < length es)) as [Hi|Hi].
  - rewrite lookup_app_l in Ha by lia.
    destruct (last es) as [p|] eqn:Hp.
    + etrans; [|by apply Hlast]. rewrite last_lookup in Hp. eapply Hes; [|done..]. lia.
    + apply last_None in Hp. subst. cbn in Hi. lia.
  - rewrite lookup_app_r in Ha by lia. apply list_lookup_singleton_Some in Ha as [_ ->]. done.
Qed.

Lemma last_history l : log_inv l → last (history l) = last (sent (ev_tx l)).
Proof. intros []. rewrite li_history0. by apply last_trim_front. Qed.

Lemma emit_history e l :
  log_inv l → ∃ e', history (emit e l) = trim_front (bound l) (history l ++ [e']) ∧
    sent (ev_tx (emit e l)) = sent (ev_tx l) ++ [e'] ∧
    (∀ p, last (sent (ev_tx l)) = Some p → (at_time p ≤ at_time e')%Z) ∧
    (at_time e ≤ at_time e')%Z ∧ stamp (at_time e) e' = e.
Proof.
  intros Hl. eexists. unfold emit. cbn. rewrite bc_send_sent, (last_history l Hl).
  split_and!; [|done| | |].
  - destruct Hl as [Hb Hh _]. rewrite trim_front_drop, length_app. cbn [length].
    assert (length (history l) ≤ bound l) by (rewrite Hh, length_trim_front; lia).
    case_decide as Hfull.
    + replace (length (history l) + 1 - bound l) with 1 by lia.
      destruct (history l); cbn in *; [lia|done].
    + by replace (length (history l) + 1 - bound l) with 0 by lia.
  - intros p ->. cbn. lia.
  - destruct (last _); cbn; lia.
  - destruct (last _); by destruct e.
Qed.

Lemma emit_inv e l : log_inv l → log_inv (emit e l).
Proof.
  intros Hl. destruct (emit_history e l Hl) as (e' & Hh & Hs & Hp & _). destruct Hl as [Hb Hhl Ho].
  split; [done| |].
  - rewrite Hh, Hs, Hhl. apply trim_front_app.
  - rewrite Hs. by apply ordered_snoc.
Qed.

(** The event log.  Whatever is emitted into a log of bound [b], the
    channel carries every event once, in emission order, unchanged but for a
    time stamp that may have been raised so that time never goes backwards;
    and the history is exactly the newest [b] of them. *)
Theorem event_log_history b es :
  0 < b →
  let l := foldl (λ l e, emit e l) (with_bound b) es in
  ∃ out, sent (ev_tx l) = out ∧ ordered out ∧
    Forall2 (λ e e', (at_time e ≤ at_time e')%Z ∧ stamp (at_time e) e' = e) es out ∧
    history l = drop (length out - b) out.
Proof.
  intros Hb l. eexists. split; [done|].
  assert (log_inv l ∧ bound l = b ∧
    Forall2 (λ e e', (at_time e ≤ at_time e')%Z ∧ stamp (at_time e) e' = e) es (sent (ev_tx l)))
    as (Hl & Hbd & Hall).
  { subst l. induction es as [|e es IH] using rev_ind; cbn.
    { split_and!; [by apply with_bound_inv|done|]. rewrite bc_channel_sent. constructor. }
    rewrite foldl_snoc. destruct IH as (Hl & Hbd & Hall).
    destruct (emit_history e _ Hl) as (e' & _ & Hs & _ & ? & ?).
    split_and!; [by apply emit_inv|done|]. rewrite Hs. by apply Forall2_app; [|repeat constructor]. }
  split_and!; [apply Hl|done|]. rewrite (li_history _ Hl), trim_front_drop. congruence.
Qed.

(** ** Readers *)

Lemma recv_loop_spec fuel (c : ch) (r : rx) dropped :
  length (sent c) < fuel + cursor r →
  match recv_loop fuel c r dropped with
  | (Some d, r') => dropped ≤ missed d ∧
      sent c !! (cursor r + (missed d - dropped)) = Some (event d) ∧
      cursor r' = S (cursor r + (missed d - dropped))
  | (None, r') => length (sent c) ≤ cursor r' ∧ cursor r ≤ cursor r'
  end.
Proof.
  revert r dropped. induction fuel as [|fuel IH]; intros r dropped Hf; cbn; [lia|].
  destruct (bc_try_recv c r) as [[e|n| |] r1] eqn:Hr.
  - apply bc_recv_ok in Hr as [? ->]. cbn. rewrite Nat.sub_diag, Nat.add_0_r. done.
  - apply bc_recv_lagged in Hr as (Hn & Hc & _).
    specialize (IH r1 (dropped + n) ltac:(lia)).
    destruct (recv_loop fuel c r1 (dropped + n)) as [[d|] r2]; [|lia].
    destruct IH as (H1 & H2 & H3). rewrite Hc in H2, H3.
    replace (cursor r + (missed d - dropped)) with (cursor r + n + (missed d - (dropped + n))) by lia.
    split_and!; [lia|done|lia].
  - apply bc_recv_empty in Hr as [? ->]. lia.
  - apply bc_recv_closed in Hr as [? ->]. lia.
Qed.

(** The channel positions that the live deliveries of a reader claim, from a
    start position: each skips what it missed. *)
Fixpoint positions (p : nat) (ds : list Delivered) : list nat :=
  match ds with
  | [] => []
  | d :: ds => (p + missed d) :: positions (S (p + missed d)) ds
  end.
Fixpoint end_position (p : nat) (ds : list Delivered) : nat :=
  match ds with
  | [] => p
  | d :: ds => end_position (S (p + missed d)) ds
  end.

Lemma positions_snoc p ds d :
  positions p (ds ++ [d]) = positions p ds ++ [end_position p ds + missed d] ∧
  end_position p (ds ++ [d]) = S (end_position p ds + missed d).
Proof.
  revert p. induction ds as [|d' ds IH]; intros p; cbn; [done|].
  destruct (IH (S (p + missed d'))) as [-> ->]. done.
Qed.

(** A reader's life: the log goes on and the reader takes events. *)
Inductive reads (l0 : EventLog ch) (rd0 : EventReader rx)
    : list Delivered → EventLog ch → EventReader rx → Prop :=
| reads_start : reads l0 rd0 [] l0 rd0
| reads_emit ds l rd e : reads l0 rd0 ds l rd → reads l0 rd0 ds (emit e l) rd
| reads_next ds l rd d rd' :
    reads l0 rd0 ds l rd → next l rd = (Some d, rd') → reads l0 rd0 (ds ++ [d]) l rd'.

(** What a reader has seen: a part of its backlog, and then live events at
    increasing channel positions from where it subscribed. *)
Definition seen (start : nat) (back : list SandboxEvent) (ds : list Delivered)
    (l : EventLog ch) (rd : EventReader rx) : Prop :=
  ∃ old live, ds = ((λ e, mkDelivered e 0) <$> old) ++ live ∧
    back = old ++ backlog rd ∧ (live ≠ [] → backlog rd = []) ∧
    Forall2 (λ p d, sent (ev_tx l) !! p = Some (event d)) (positions start live) live ∧
    cursor (reader_rx rd) = end_position start live.

Lemma next_seen start back ds l rd d rd' :
  seen start back ds l rd → next l rd = (Some d, rd') → seen start back (ds ++ [d]) l rd'.
Proof.
  intros (old & live & -> & -> & Hlive & Hpos & Hcur) Hn. unfold next in Hn.
  destruct (backlog rd) as [|e rest] eqn:Hb.
  - pose proof (recv_loop_spec (S (length (sent (ev_tx l)))) (ev_tx l) (reader_rx rd) 0 ltac:(lia))
      as Hrecv.
    destruct (recv_loop _ _ _ _) as [[d'|] r']; [|done]. injection Hn as -> <-.
    destruct Hrecv as (_ & Hat & Hc). rewrite Nat.sub_0_r in Hat, Hc.
    destruct (positions_snoc start live d) as [Hp He].
    exists old, (live ++ [d]). cbn. rewrite app_assoc, Hp, He.
    split_and!; [done..| |congruence].
    apply Forall2_app; [done|]. repeat constructor. by rewrite <- Hcur.
  - injection Hn as <- <-. destruct live as [|d' live]; [|by specialize (Hlive ltac:(done))].
    exists (old ++ [e]), []. cbn. rewrite !app_nil_r, fmap_app, <- app_assoc. done.
Qed.

Lemma emit_seen start back ds e l rd :
  log_inv l → seen start back ds l rd → seen start back ds (emit e l) rd.
Proof.
  intros Hl (old & live & -> & -> & Hlive & Hpos & Hcur).
  destruct (emit_history e l Hl) as (e' & _ & Hs & _).
  exists old, live. split_and!; [done..| |done].
  eapply Forall2_impl; [done|]. intros p d Hp. rewrite Hs. by apply lookup_app_l_Some.
Qed.

(** A subscriber loses nothing silently and sees nothing twice.  A reader
    that subscribed from time [t] gets, in order, the history from [t] on
    (without gaps), and then, for each live delivery, the event that follows
    after skipping exactly the number of events it reports as dropped, the
    first of them being the first event emitted after the subscription. *)
Theorem reader_exact l0 t ds l rd :
  log_inv l0 →
  reads l0 (subscribe_events (Some t) l0) ds l rd →
  ∃ old live, ds = ((λ e, mkDelivered e 0) <$> old) ++ live ∧
    filter (λ e, (t ≤ at_time e)%Z) (history l0) = old ++ backlog rd ∧
    (live ≠ [] → backlog rd = []) ∧
    Forall2 (λ p d, sent (ev_tx l) !! p = Some (event d))
      (positions (length (sent (ev_tx l0))) live) live.
Proof.
  intros Hl0 Hreads.
  assert (log_inv l ∧ seen (length (sent (ev_tx l0)))
    (filter (λ e, (t ≤ at_time e)%Z) (history l0)) ds l rd) as [_ Hseen].
  { induction Hreads as [|ds l rd e _ [Hl IH]|ds l rd d rd' _ [Hl IH] Hn].
    - split; [done|]. exists [], []. cbn. rewrite bc_subscribe_cursor. split_and!; by constructor || done.
    - split; [by apply emit_inv|by apply emit_seen].
    - split; [done|by eapply next_seen]. }
  destruct Hseen as (old & live & ? & ? & ? & ? & _). by exists old, live.
Qed.

(** A reader never sleeps on an event.  When [next] has nothing to give,
    the reader has no backlog left and its position is at the end of the
    channel; in particular the receive loop always terminates. *)
Theorem next_waits_only_at_end l rd rd' :
  next l rd = (None, rd') →
  backlog rd = [] ∧ length (sent (ev_tx l)) ≤ cursor (reader_rx rd').
Proof.
  unfold next. destruct (backlog rd); [|done].
  pose proof (recv_loop_spec (S (length (sent (ev_tx l)))) (ev_tx l) (reader_rx rd) 0 ltac:(lia)).
  destruct (recv_loop _ _ _ _) as [[d|] r']; [done|]. intros [= <-]. naive_solver.
Qed.
End events_props.

(** ** Witnesses *)

Definition demo_event (a : EventAction) (t : Z) : SandboxEvent := mkEvent a "s" "web" "alpine" t None None ∅.
Definition demo_log : EventLog (ref_bc SandboxEvent) :=
  emit (demo_event EvStart 2) (emit (demo_event EvCreate 5) (with_bound 4)).

Lemma demo_log_inv : log_inv demo_log.
Proof. apply emit_inv, emit_inv, with_bound_inv. lia. Qed.

Lemma event_log_history_witness :
  ∃ out, sent (ev_tx demo_log) = out ∧ ordered out.
Proof.
  destruct (event_log_history (ch:=ref_bc SandboxEvent) (rx:=nat) 4
    [demo_event EvCreate 5; demo_event EvStart 2] ltac:(lia)) as (out & ? & ? & _).
  exists out. split; assumption.
Defined.

Lemma reader_exact_witness :
  ∃ old live, [mkDelivered (demo_event EvCreate 5) 0] = ((λ e, mkDelivered e 0) <$> old) ++ live.
Proof.
  destruct (reader_exact (ch:=ref_bc SandboxEvent) (rx:=nat) demo_log 3
    [mkDelivered (demo_event EvCreate 5) 0] (emit (demo_event EvDie 9) demo_log)
    (mkReader [demo_event EvStart 5] 2) demo_log_inv) as (old & live & ? & _).
  - apply reads_next with (ds := []) (rd := subscribe_events (Some 3%Z) demo_log).
    + apply reads_emit, reads_start.
    + vm_compute. reflexivity.
  - exists old, live. assumption.
Defined.

Lemma next_waits_only_at_end_witness :
  backlog (mkReader (rx:=nat) [] 2) = [] ∧ length (sent (ev_tx demo_log)) ≤ 2.
Proof.
  exact (next_waits_only_at_end (HB:=ref_bc_ops SandboxEvent) demo_log (mkReader [] 2)
    (mkReader [] 2) ltac:(vm_compute; reflexivity)).
Defined.
