(* ===== verification/Health.v ===== *)
(** * Health: health checks and their tracker

    Models [ward-core/src/sandbox/health.rs] and the output collector of
    [sandbox/manager/health_monitor.rs].  Durations and instants are counts of
    nanoseconds. *)

From stdpp Require Import base list numbers option strings gmap.
From Stdlib Require Import ZArith Lia Ascii.
From S2P Require Import Prelude Text Net Protocol.

Local Open Scope Z_scope.

Inductive HealthStatus := STATUS_STARTING | STATUS_HEALTHY | STATUS_UNHEALTHY.
#[export] Instance HealthStatus_eq_dec : EqDecision HealthStatus.
Proof. solve_decision. Defined.
Definition health_status_str (s : HealthStatus) : string :=
  match s with
  | STATUS_STARTING => "starting"
  | STATUS_HEALTHY => "healthy"
  | STATUS_UNHEALTHY => "unhealthy"
  end.

Definition DEFAULT_INTERVAL : Z := 30 * 1000000000.
Definition DEFAULT_TIMEOUT : Z := 30 * 1000000000.
Definition DEFAULT_RETRIES : Z := 3.
Definition MAX_LOG_ENTRIES : nat := 5.
Definition MAX_OUTPUT_BYTES : nat := 4096.
Definition MIN_DURATION : Z := 1000000.
Definition MAX_COMMAND_LEN : nat := 4096.
Definition FAILED_EXIT_CODE : Z := -1.

Record Check := mkCheck {
  argv : list string;
  interval : Z;
  timeout : Z;
  start_period : Z;
  check_retries : Z;
}.

Definition from_config (config : Healthcheck) : option Check :=
  let argv :=
    match test config with
    | [] => None
    | kind :: rest =>
        if decide (kind = "CMD-SHELL") then Some ["/bin/sh"; "-c"; join " " rest]
        else if decide (kind = "CMD") then Some rest
        else None
    end in
  let or_default ns def := if ns =? 0 then def else ns in
  argv ← argv;
  Some (mkCheck argv
    (or_default (interval_ns config) DEFAULT_INTERVAL)
    (or_default (timeout_ns config) DEFAULT_TIMEOUT)
    (start_period_ns config)
    (if retries config =? 0 then DEFAULT_RETRIES else retries config)).

Definition validate (config : Healthcheck) : result unit ApiError :=
  let invalid why := Err (InvalidRequest ("healthcheck: " +:+ why)) in
  let too_short ns := negb (ns =? 0) && (ns <? MIN_DURATION) in
  let durations :=
    if too_short (interval_ns config) || too_short (timeout_ns config) ||
       too_short (start_period_ns config)
    then invalid "interval, timeout and start period must be at least 1ms"
    else Ok tt in
  match test config with
  | [] => invalid "test is empty"
  | kind :: rest =>
      if decide (kind = "NONE") then
        match rest with [] => Ok tt | _ => invalid "NONE takes no command" end
      else if decide (kind = "CMD-SHELL" ∨ kind = "CMD") then
        let command := join " " rest in
        if trims_to_empty command || (MAX_COMMAND_LEN <? str_len command)%nat
        then invalid "the command is empty or too long"
        else durations
      else invalid "test must start with CMD, CMD-SHELL or NONE"
  end.

(** ** Output *)

(** [str::is_char_boundary]: not inside a multi-byte character. *)
Definition is_continuation (c : ascii) : bool :=
  ((128 <=? byte_of c) && (byte_of c <=? 191))%nat.
Definition is_char_boundary (text : string) (i : nat) : bool :=
  (i =? 0)%nat || (i =? str_len text)%nat ||
  match chars text !! i with Some c => negb (is_continuation c) | None => false end.

(** The loop that steps back to a boundary; position 0 is always one. *)
Fixpoint boundary_before (text : string) (stop : nat) : nat :=
  if is_char_boundary text stop then stop
  else match stop with 0%nat => 0%nat | S stop => boundary_before text stop end.

Definition cut_at (text : string) (max : nat) : string :=
  if (str_len text <=? max)%nat then text
  else of_chars (take (boundary_before text max) (chars text)).

Definition truncate_output (output : string) : string := cut_at output MAX_OUTPUT_BYTES.
Definition append_capped (output chunk : string) : string :=
  output +:+ cut_at chunk (MAX_OUTPUT_BYTES - str_len output)%nat.

(** The events [collect_output] reads: an exit, decoded data, or a line. *)
Inductive CheckEvent :=
| CheckExit (code : option Z)
| CheckData (text : string)
| CheckLine (line : string).

Definition newline : string := String (ascii_of_nat 10) "".

Fixpoint collect_output (events : list CheckEvent) (output : string) : Z * string :=
  match events with
  | [] => (FAILED_EXIT_CODE, output)
  | CheckExit code :: _ => (default FAILED_EXIT_CODE code, output)
  | CheckData text :: rest => collect_output rest (append_capped output text)
  | CheckLine line :: rest =>
      collect_output rest (append_capped (append_capped output line) newline)
  end.

(** ** The tracker *)

Record Probe := mkProbe { start : Z; end_ : Z; probe_code : Z; probe_output : string }.

Record Tracker := mkTracker {
  run_started : option Z;
  started : Z;
  health : HealthStatus;
  failing_streak : Z;
  health_log : list Probe;
  next_due : Z;
  in_flight : bool;
}.

Definition tracker_new (run : option Z) (started_at interval : Z) : Tracker :=
  mkTracker run started_at STATUS_STARTING 0 [] (started_at + interval) false.

Definition take_due (now : Z) (t : Tracker) : bool * Tracker :=
  if in_flight t || (now <? next_due t) then (false, t)
  else (true, mkTracker (run_started t) (started t) (health t) (failing_streak t) (health_log t)
                (next_due t) true).

Definition skip (check : Check) (now : Z) (t : Tracker) : Tracker :=
  mkTracker (run_started t) (started t) (health t) (failing_streak t) (health_log t)
    (now + interval check) false.

Definition record_probe (probe : Probe) (check : Check) (began now : Z) (t : Tracker)
    : option HealthStatus * Tracker :=
  let before := health t in
  let '(status, streak) :=
    if probe_code probe =? 0 then (STATUS_HEALTHY, 0)
    else if start_period check <=? Z.max 0 (began - started t) then
      let streak := (failing_streak t + 1) mod 2 ^ 32 in
      (if check_retries check <=? streak then STATUS_UNHEALTHY else before, streak)
    else (before, failing_streak t) in
  (if decide (status = before) then None else Some status,
   mkTracker (run_started t) (started t) status streak
     (trim_front MAX_LOG_ENTRIES (health_log t ++ [probe])) (now + interval check) false).

(** ** Truncation *)

Lemma boundary_before_spec text stop :
  (boundary_before text stop ≤ stop)%nat ∧
  is_char_boundary text (boundary_before text stop) = true ∧
  ∀ i, (i ≤ stop)%nat → is_char_boundary text i = true → (i ≤ boundary_before text stop)%nat.
Proof.
  induction stop as [|stop IH]; cbn [boundary_before].
  - rewrite (eq_refl : is_char_boundary text 0 = true). split_and!; [lia|done|lia].
  - destruct (is_char_boundary text (S stop)) eqn:Hb; [split_and!; [lia|done|lia]|].
    destruct IH as (? & ? & Hmax). split_and!; [lia|done|].
    intros i Hi Hbi. apply Hmax; [|done]. destruct (decide (i = S stop)) as [->|]; [congruence|lia].
Qed.

Lemma cut_at_len text max : (str_len (cut_at text max) ≤ max)%nat.
Proof.
  unfold cut_at. destruct (Nat.leb_spec (str_len text) max); [done|].
  unfold str_len. rewrite chars_of_chars, length_take.
  pose proof (boundary_before_spec text max). lia.
Qed.

(** Cutting text.  The result is a prefix of the text, at most [max] bytes
    long, it ends on a character boundary of the text, and no longer prefix
    that ends on one would fit. *)
Theorem cut_at_longest text max :
  ∃ n rest, text = cut_at text max +:+ rest ∧ str_len (cut_at text max) = n ∧
    (n ≤ max)%nat ∧ is_char_boundary text n = true ∧
    ∀ i, (i ≤ max)%nat → (i ≤ str_len text)%nat → is_char_boundary text i = true → (i ≤ n)%nat.
Proof.
  unfold cut_at. destruct (Nat.leb_spec (str_len text) max).
  - exists (str_len text), "". rewrite append_nil_r. split_and!; [done..| |done].
    unfold is_char_boundary. rewrite Nat.eqb_refl. by rewrite orb_true_r.
  - destruct (boundary_before_spec text max) as (Hle & Hb & Hmax).
    exists (boundary_before text max), (of_chars (drop (boundary_before text max) (chars text))).
    unfold str_len in *. rewrite chars_of_chars, length_take.
    split_and!; [|lia|done|done|auto].
    rewrite <- (of_chars_chars text) at 1.
    rewrite <- (of_chars_chars (_ +:+ _)), chars_app, !chars_of_chars. by rewrite take_drop.
Qed.

Lemma append_capped_len output chunk :
  (str_len output ≤ MAX_OUTPUT_BYTES)%nat →
  (str_len (append_capped output chunk) ≤ MAX_OUTPUT_BYTES)%nat.
Proof.
  intros. unfold append_capped. rewrite str_len_app.
  pose proof (cut_at_len chunk (MAX_OUTPUT_BYTES - str_len output)). lia.
Qed.

Lemma collect_output_len events output :
  (str_len output ≤ MAX_OUTPUT_BYTES)%nat →
  (str_len (collect_output events output).2 ≤ MAX_OUTPUT_BYTES)%nat.
Proof.
  revert output. induction events as [|[code|text|line] events IH]; intros output Ho; cbn; try done.
  - by apply IH, append_capped_len.
  - by apply IH, append_capped_len, append_capped_len.
Qed.

(** ** What a run of checks leads to *)

(** A check with the time it began and ended. *)
Record Run := mkRun { probe : Probe; began : Z; ended : Z }.

Definition record_run (check : Check) (t : Tracker) (r : Run) : Tracker :=
  (record_probe (probe r) check (began r) (ended r) t).2.

Definition succeeded (r : Run) : Prop := probe_code (probe r) = 0.
#[export] Instance succeeded_dec r : Decision (succeeded r).
Proof. unfold succeeded. apply _. Defined.
(** A failure that counts: begun after the start period. *)
Definition counts (check : Check) (started_at : Z) (r : Run) : Prop :=
  ¬ succeeded r ∧ start_period check ≤ Z.max 0 (began r - started_at).
#[export] Instance counts_dec check s r : Decision (counts check s r).
Proof. unfold counts. apply _. Defined.

(** The counted failures since the last success, newest run first. *)
Fixpoint streak_rev (check : Check) (s : Z) (rev_runs : list Run) : nat :=
  match rev_runs with
  | [] => 0
  | r :: rest =>
      if decide (succeeded r) then 0
      else if decide (counts check s r) then S (streak_rev check s rest)
      else streak_rev check s rest
  end.
Definition streak (check : Check) (s : Z) (runs : list Run) : nat :=
  streak_rev check s (reverse runs).

(** The status the documentation describes. *)
Definition expected_status (check : Check) (s : Z) (runs : list Run) : HealthStatus :=
  if decide (check_retries check ≤ Z.of_nat (streak check s runs)) then STATUS_UNHEALTHY
  else if decide (Exists succeeded runs) then STATUS_HEALTHY
  else STATUS_STARTING.

Lemma streak_snoc check s runs r :
  streak check s (runs ++ [r]) =
  if decide (succeeded r) then 0%nat
  else if decide (counts check s r) then S (streak check s runs) else streak check s runs.
Proof. unfold streak. by rewrite reverse_snoc. Qed.

Lemma streak_le check s runs : (streak check s runs ≤ length runs)%nat.
Proof.
  induction runs as [|r runs IH] using rev_ind; [done|].
  rewrite streak_snoc, length_app. cbn. repeat case_decide; lia.
Qed.

Lemma record_run_spec check run s runs :
  0 < check_retries check → Z.of_nat (length runs) < 2 ^ 32 →
  let t := foldl (record_run check) (tracker_new run s (interval check)) runs in
  started t = s ∧ run_started t = run ∧
  health t = expected_status check s runs ∧
  failing_streak t = Z.of_nat (streak check s runs) ∧
  health_log t = trim_front MAX_LOG_ENTRIES (probe <$> runs).
Proof.
  intros Hret. induction runs as [|r runs IH] using rev_ind; intros Hlen; cbv zeta.
  { split_and!; try done. unfold expected_status. rewrite decide_False by (cbn; lia).
    by rewrite decide_False by (rewrite Exists_nil; tauto). }
  rewrite length_app in Hlen. cbn in Hlen. rewrite foldl_snoc.
  destruct IH as (Hs & Hrun & Hh & Hf & Hl); [lia|].
  set (t := foldl _ _ _) in *. pose proof (streak_le check s runs).
  unfold record_run, record_probe. rewrite Hs, Hh, Hf.
  assert (trim_front MAX_LOG_ENTRIES (health_log t ++ [probe r]) =
    trim_front MAX_LOG_ENTRIES (probe <$> runs ++ [r])) as Hlog.
  { rewrite Hl, trim_front_app, fmap_app. done. }
  assert (Exists succeeded (runs ++ [r]) ↔ Exists succeeded runs ∨ succeeded r) as Hex.
  { rewrite Exists_app, Exists_cons, Exists_nil. tauto. }
  unfold expected_status. rewrite !streak_snoc.
  destruct (decide (succeeded r)) as [Hok|Hfail].
  - rewrite (proj2 (Z.eqb_eq _ _) Hok). cbn. rewrite decide_False by lia.
    rewrite decide_True by tauto. done.
  - rewrite (proj2 (Z.eqb_neq _ _) Hfail).
    destruct (decide (counts check s r)) as [Hc|Hc].
    + rewrite (proj2 (Z.leb_le _ _) (proj2 Hc)). cbn.
      rewrite Z.mod_small by lia.
      destruct (Z.leb_spec (check_retries check) (Z.of_nat (streak check s runs) + 1)).
      * rewrite decide_True by lia. split_and!; try done; lia.
      * split_and!; try done; [|lia]. repeat case_decide; try lia; tauto.
    + rewrite (proj2 (Z.leb_gt _ _)) by (destruct (Z.lt_ge_cases
        (Z.max 0 (began r - s)) (start_period check)); [done|exfalso; by apply Hc]).
      cbn. split_and!; try done. repeat case_decide; try lia; tauto.
Qed.

(** The health status is the documented one.  After any run of checks
    (fewer than 2^32) the tracker is unhealthy exactly if the counted failures
    since the last success reach the retries, where failures begun within the
    start period do not count; otherwise it is healthy if some check
    succeeded, and still starting if none did.  The streak it reports is that
    count, and its log is the last five checks. *)
Theorem tracker_status check run s runs :
  0 < check_retries check → Z.of_nat (length runs) < 2 ^ 32 →
  let t := foldl (record_run check) (tracker_new run s (interval check)) runs in
  health t = expected_status check s runs ∧
  failing_streak t = Z.of_nat (streak check s runs) ∧
  health_log t = drop (length runs - 5)%nat (probe <$> runs).
Proof.
  intros Hret Hlen. destruct (record_run_spec check run s runs Hret Hlen) as (_ & _ & ? & ? & Hl).
  split_and!; [done..|]. rewrite Hl, trim_front_drop, length_fmap. done.
Qed.

Definition demo_check : Check := mkCheck ["true"] 10 10 5 2.
Lemma tracker_status_witness :
  let runs := [mkRun (mkProbe 0 0 1 "") 3 4; mkRun (mkProbe 0 0 1 "") 13 14;
               mkRun (mkProbe 0 0 1 "") 23 24] in
  health (foldl (record_run demo_check) (tracker_new None 0 10) runs) =
    expected_status demo_check 0 runs ∧
  expected_status demo_check 0 runs = STATUS_UNHEALTHY.
Proof.
  intros runs. split; [|reflexivity].
  apply (tracker_status demo_check None 0 runs); [reflexivity|]. reflexivity.
Defined.

(** A change of status is reported, and only a change.  A recorded check
    frees the slot for the next one, which is due an interval later and not
    before; a check in flight keeps every other from starting. *)
Theorem record_probe_reports p check began now t t' r :
  record_probe p check began now t = (r, t') →
  (r = None ↔ health t' = health t) ∧ (∀ st, r = Some st → health t' = st) ∧
  in_flight t' = false ∧ next_due t' = now + interval check ∧
  (∀ later, (take_due later t').1 = true ↔ now + interval check ≤ later) ∧
  (∀ later again, (take_due later t').1 = true → (take_due again (take_due later t').2).1 = false).
Proof.
  unfold record_probe. destruct (if _ =? 0 then _ else _) as [st k]. intros [= <- <-].
  unfold take_due. cbn. split_and!; try done.
  - case_decide; naive_solver.
  - case_decide; naive_solver.
  - intros later. destruct (Z.ltb_spec later (now + interval check)); cbn; split; done || lia.
  - intros later again. destruct (Z.ltb_spec later (now + interval check)); done.
Qed.

Lemma record_probe_reports_witness :
  health (record_probe (mkProbe 0 0 0 "") demo_check 3 4 (tracker_new None 0 10)).2 = STATUS_HEALTHY.
Proof.
  refine (proj1 (proj2 (record_probe_reports (mkProbe 0 0 0 "") demo_check 3 4
    (tracker_new None 0 10) _ _ _)) STATUS_HEALTHY eq_refl).
  reflexivity.
Defined.

(** An accepted health check can run.  If the configuration passes
    validation, either it is the explicit [NONE], or it yields a check with a
    command to execute, an interval and a timeout of at least a millisecond,
    and at least one retry. *)
Theorem validated_check_runs config :
  validate config = Ok tt → 0 ≤ retries config →
  0 ≤ interval_ns config → 0 ≤ timeout_ns config →
  (test config = ["NONE"] ∧ from_config config = None) ∨
  ∃ check, from_config config = Some check ∧ argv check ≠ [] ∧
    MIN_DURATION ≤ interval check ∧ MIN_DURATION ≤ timeout check ∧ 0 < check_retries check.
Proof.
  unfold validate, from_config. intros Hv Hr Hi Ht. destruct (test config) as [|kind rest]; [done|].
  destruct (decide (kind = "NONE")) as [->|Hk].
  { destruct rest; [|done]. left. done. }
  destruct (decide (kind = "CMD-SHELL" ∨ kind = "CMD")) as [Hkind|]; [|done].
  destruct (trims_to_empty (join " " rest) || _) eqn:Hcmd; [done|].
  apply orb_false_iff in Hcmd as [Hempty _].
  destruct (_ || _) eqn:Hdur in Hv; [done|].
  apply orb_false_iff in Hdur as [[Hdi Hdt]%orb_false_iff _].
  right. assert (∃ argv, argv ≠ [] ∧
    (if decide (kind = "CMD-SHELL") then Some ["/bin/sh"; "-c"; join " " rest]
     else if decide (kind = "CMD") then Some rest else None) = Some argv) as (argv & Hne & ->).
  { destruct (decide (kind = "CMD-SHELL")) as [->|].
    { exists ["/bin/sh"; "-c"; join " " rest]. done. }
    exists rest. rewrite decide_True by tauto. split; [|done]. intros ->.
    discriminate Hempty. }
  eexists. split; [reflexivity|]. cbn [Health.argv interval timeout check_retries].
  unfold MIN_DURATION, DEFAULT_INTERVAL, DEFAULT_TIMEOUT, DEFAULT_RETRIES in *.
  split_and!; [done|..].
  - destruct (Z.eqb_spec (interval_ns config) 0); cbn [negb andb] in Hdi; [lia|]. apply Z.ltb_ge in Hdi. lia.
  - destruct (Z.eqb_spec (timeout_ns config) 0); cbn [negb andb] in Hdt; [lia|]. apply Z.ltb_ge in Hdt. lia.
  - destruct (Z.eqb_spec (retries config) 0); lia.
Qed.

Lemma validated_check_runs_witness :
  let config := mkHealthcheck ["CMD-SHELL"; "curl localhost"] 0 2000000 0 0 in
  (test config = ["NONE"] ∧ from_config config = None) ∨
  ∃ check, from_config config = Some check ∧ argv check ≠ [] ∧
    MIN_DURATION ≤ interval check ∧ MIN_DURATION ≤ timeout check ∧ 0 < check_retries check.
Proof.
  intros config. apply (validated_check_runs config); [vm_compute; reflexivity|..]; cbn; lia.
Defined.
