(* ===== verification/Launch.v ===== *)
(** * Launch: what the main process starts with

    Models [ward-core/src/sandbox/launch.rs], which combines a request with
    the configuration of the image the way [docker run] does. *)

From stdpp Require Import base list numbers option strings gmap.
From Stdlib Require Import Lia Ascii.
From S2P Require Import Prelude Text.

(** The fields of [backend::image::ImageConfig] that a launch reads. *)
Record ImageConfig := mkImageConfig {
  entrypoint : list string;
  cmd : list string;
  working_dir : string;
  image_user : string;
  image_env : list string;
}.

Record Launch := mkLaunch {
  l_command : list string;
  l_entrypoint_len : nat;
  l_workdir : string;
  l_user : string;
  l_env : gmap string string;
}.

Record Overrides := mkOverrides {
  o_entrypoint : option string;
  args : list string;
  o_workdir : string;
  o_user : string;
  o_env : gmap string string;
}.

Definition has_nul (s : string) : bool := str_any (one_of ["000"%char]) s.

(** The image's [KEY=VALUE] entries that can be passed to a process. *)
Definition image_pairs (env : list string) : list (string * string) :=
  filter (λ '(key, value),
      (negb (is_empty key) && negb (has_nul key) && negb (has_nul value)) = true)
    (omap (split_once "="%char) env).

(** [collect] into a map: later entries replace earlier ones. *)
Definition collect_env (pairs : list (string * string)) : gmap string string :=
  foldl (λ m '(k, v), <[k := v]> m) ∅ pairs.

Definition resolve_launch_config (image : ImageConfig) (given : Overrides) : Launch :=
  let entry :=
    match o_entrypoint given with
    | Some "" => []
    | Some program => [program]
    | None => entrypoint image
    end in
  let cmd :=
    if negb (bool_decide (args given = [])) then args given
    else if bool_decide (is_Some (o_entrypoint given)) then []
    else cmd image in
  mkLaunch (entry ++ cmd) (length entry)
    (if is_empty (o_workdir given) then working_dir image else o_workdir given)
    (if is_empty (o_user given) then image_user image else o_user given)
    (o_env given ∪ collect_env (image_pairs (image_env image))).

(** ** Environment *)

Lemma collect_env_snoc pairs k v :
  collect_env (pairs ++ [(k, v)]) = <[k := v]> (collect_env pairs).
Proof. unfold collect_env. by rewrite foldl_snoc. Qed.

Lemma collect_env_lookup pairs k v :
  collect_env pairs !! k = Some v →
  ∃ l1 l2, pairs = l1 ++ (k, v) :: l2 ∧ k ∉ l2.*1.
Proof.
  induction pairs as [|[k' v'] pairs IH] using rev_ind; [done|].
  rewrite collect_env_snoc. intros [[-> ->]|[Hne Hk]]%lookup_insert_Some.
  - exists pairs, []. split; [done|]. apply not_elem_of_nil.
  - destruct (IH Hk) as (l1 & l2 & -> & Hl2). exists l1, (l2 ++ [(k', v')]).
    rewrite <- app_assoc. split; [done|]. rewrite fmap_app. set_solver.
Qed.

Lemma collect_env_none pairs k : collect_env pairs !! k = None ↔ k ∉ pairs.*1.
Proof.
  induction pairs as [|[k' v'] pairs IH] using rev_ind; [cbn; set_solver|].
  rewrite collect_env_snoc, lookup_insert_None, IH, fmap_app. set_solver.
Qed.

(** The main process is what [docker run] would start.  The command is the
    entrypoint and then the arguments: an entrypoint given in the request
    replaces the image's (the empty one clears it) and discards the image's
    default command; arguments replace that command; without either the
    image's own entrypoint and command are used.  The recorded length splits
    the command there.  A variable has the request's value, or else the last
    one the image gives it, and no variable the image defines has an empty
    name or a NUL byte. *)
Theorem launch_spec image given :
  let l := resolve_launch_config image given in
  (drop (l_entrypoint_len l) (l_command l) =
     match args given, o_entrypoint given with
     | [], None => cmd image
     | [], Some _ => []
     | more, _ => more
     end) ∧
  (take (l_entrypoint_len l) (l_command l) =
     match o_entrypoint given with
     | Some p => if decide (p = "") then [] else [p]
     | None => entrypoint image
     end) ∧
  (∀ k v, l_env l !! k = Some v ↔
     o_env given !! k = Some v ∨
     (o_env given !! k = None ∧ collect_env (image_pairs (image_env image)) !! k = Some v)) ∧
  (∀ k v, o_env given !! k = None → l_env l !! k = Some v →
     k ≠ "" ∧ has_nul k = false ∧ has_nul v = false ∧
     ∃ l1 l2, omap (split_once "="%char) (image_env image) = l1 ++ (k, v) :: l2).
Proof.
  cbn. split_and!.
  - rewrite drop_app_length. case_bool_decide as Ha; cbn.
    + rewrite Ha. case_bool_decide as He.
      * destruct (o_entrypoint given); [done|]. by destruct He.
      * destruct (o_entrypoint given); [|done]. by destruct He.
    + by destruct (args given).
  - rewrite take_app_length. destruct (o_entrypoint given) as [p|]; [|done].
    case_decide as Hp; [by subst|]. by destruct p.
  - intros k v. rewrite lookup_union_Some_raw. done.
  - intros k v Hnone. rewrite lookup_union_r by done. intros (l1 & l2 & Heq & _)%collect_env_lookup.
    assert ((k, v) ∈ image_pairs (image_env image)) as [Hok Hin]%list_elem_of_filter
      by (rewrite Heq; set_solver).
    apply andb_true_iff in Hok as [[Hk Hnk]%andb_true_iff Hnv].
    apply negb_true_iff in Hk, Hnk, Hnv. apply list_elem_of_split in Hin as (? & ? & ?).
    split_and!; [by apply is_empty_false|done..|eauto].
Qed.
