(* ===== verification/Guest.v ===== *)
(** * Guest: options of the guest

    Models [ward-core/src/guest_limits.rs], [guest_network.rs] and
    [guest_options.rs]: the checks of the options a creation or an update
    asks for inside the guest, and the arguments and cgroup settings that
    apply them. *)

From stdpp Require Import base list numbers option strings pretty gmap.
From Stdlib Require Import ZArith Lia Ascii.
From S2P Require Import Prelude Text Net Protocol Validate Health.

Local Open Scope Z_scope.

(** ** Limits *)

Definition ULIMIT_NAMES : list string :=
  ["core"; "cpu"; "data"; "fsize"; "locks"; "memlock"; "msgqueue"; "nice"; "nofile"; "nproc";
   "rss"; "rtprio"; "rttime"; "sigpending"; "stack"].
Definition UNLIMITED : Z := -1.
Definition MAX_GROUPS : nat := 64.
Definition MAX_GROUP_NAME_LEN : nat := 32.
Definition MIN_CPU_SHARES : Z := 2.
Definition MAX_CPU_SHARES : Z := 262144.
Definition MIN_CPU_WEIGHT : Z := 1.
Definition MAX_CPU_WEIGHT : Z := 10000.
Definition MIN_CPU_PERIOD : Z := 1000.
Definition MAX_CPU_PERIOD : Z := 1000000.
Definition MIN_CPU_QUOTA : Z := 1000.
Definition DEFAULT_CPU_SHARES : Z := 1024.
Definition DEFAULT_CPU_PERIOD : Z := 100000.
Definition CPU_MAX_UNLIMITED : string := "max".

Definition ulimit_ok (u : Ulimit) : bool :=
  negb ((soft u <? UNLIMITED) || (hard u <? UNLIMITED)) &&
  negb (negb (hard u =? UNLIMITED) && ((soft u =? UNLIMITED) || (soft u >? hard u))).

(** The loop of [ulimits], with what was kept so far. *)
Fixpoint ulimits_loop (kept entries : list Ulimit) : result (list Ulimit) ApiError :=
  match entries with
  | [] => Ok kept
  | u :: entries =>
      if negb (bool_decide (ulimit_name u ∈ ULIMIT_NAMES)) then
        Err (InvalidRequest ("invalid ulimit type: " +:+ ulimit_name u))
      else if negb (ulimit_ok u) then
        Err (InvalidRequest ("ulimit " +:+ ulimit_name u +:+
          ": the soft limit must not exceed the hard limit, and -1 means unlimited"))
      else ulimits_loop (filter (λ k, ulimit_name k ≠ ulimit_name u) kept ++ [u]) entries
  end.
Definition ulimits (entries : list Ulimit) : result (list Ulimit) ApiError := ulimits_loop [] entries.

Definition group_char (c : ascii) : bool :=
  is_ascii_alphanumeric c || one_of ["-"%char; "_"%char; "."%char] c.
Definition group_add (groups : list string) : result unit ApiError :=
  reject_if (MAX_GROUPS <? length groups)%nat
    ("at most " +:+ pretty MAX_GROUPS +:+ " --group-add entries are allowed") ;?
  try_for_each (λ g,
    let numeric := bool_decide (is_Some (parse_u32 g)) in
    let named := negb (is_empty g) && (str_len g <=? MAX_GROUP_NAME_LEN)%nat && str_all group_char g in
    reject_if (negb numeric && negb named) ("invalid --group-add '" +:+ g +:+ "'")) groups.

Definition cpuset_range_ok (part : string) : bool :=
  match split_once "-"%char part with
  | Some (low, high) =>
      match parse_u32 low, parse_u32 high with
      | Some low, Some high => low <=? high
      | _, _ => false
      end
  | None => bool_decide (is_Some (parse_u32 part))
  end.
Definition cpuset (text : string) : result unit ApiError :=
  if is_empty text || forallb cpuset_range_ok (split ","%char text) then Ok tt
  else Err (InvalidRequest ("invalid --cpuset-cpus '" +:+ text +:+ "': use a list such as 0-1,3")).

Definition cgroup_check (limits : CgroupLimits) (memory_mb : Z) : result unit ApiError :=
  let memory := memory_mb * BYTES_PER_MIB in
  reject_if (negb (memory_swap_bytes limits =? 0) &&
             negb (memory_swap_bytes limits =? default 0 (try_i64 memory)))
    "--memory-swap: the guest has no swap, so only a value equal to --memory (no swap) is accepted" ;?
  reject_if (negb (memory_reservation_bytes limits =? 0) && negb (memory =? 0) &&
             (memory_reservation_bytes limits >? memory))
    ("--memory-reservation (" +:+ pretty (memory_reservation_bytes limits) +:+
     ") must not exceed --memory (" +:+ pretty memory +:+ ")") ;?
  let period := cpu_period limits in
  reject_if (negb (period =? 0) && negb ((MIN_CPU_PERIOD <=? period) && (period <=? MAX_CPU_PERIOD)))
    ("--cpu-period must be 0 or from " +:+ pretty MIN_CPU_PERIOD +:+ " to " +:+
     pretty MAX_CPU_PERIOD +:+ " microseconds") ;?
  let quota := cpu_quota limits in
  reject_if (((quota >? 0) && (quota <? MIN_CPU_QUOTA)) || (quota <? UNLIMITED))
    ("--cpu-quota must be -1, 0 or at least " +:+ pretty MIN_CPU_QUOTA +:+ " microseconds") ;?
  cpuset (cpuset_cpus limits).

Definition cpu_weight (shares : Z) : Z :=
  let shares := Z.max MIN_CPU_SHARES (Z.min shares MAX_CPU_SHARES) in
  MIN_CPU_WEIGHT + (shares - MIN_CPU_SHARES) * (MAX_CPU_WEIGHT - MIN_CPU_WEIGHT) /
                   (MAX_CPU_SHARES - MIN_CPU_SHARES).

Definition cpu_max (limits : CgroupLimits) : option (string * Z) :=
  if (cpu_quota limits <=? 0) && (cpu_period limits =? 0) then None
  else Some (if cpu_quota limits >? 0 then pretty (cpu_quota limits) else CPU_MAX_UNLIMITED,
             if cpu_period limits =? 0 then DEFAULT_CPU_PERIOD else cpu_period limits).
Definition cpu_max_removed : string * Z := (CPU_MAX_UNLIMITED, DEFAULT_CPU_PERIOD).

Record LiveSettings := mkLive {
  memory_low_bytes : option Z;
  live_cpu_weight : option Z;
  live_cpu_max : option (string * Z);
  live_cpuset_cpus : option string;
}.
Definition live_settings (update : CgroupUpdate) (merged : CgroupLimits) : LiveSettings :=
  let changes_cpu_max := bool_decide (is_Some (u_cpu_quota update)) || bool_decide (is_Some (u_cpu_period update)) in
  mkLive
    ((λ _, memory_reservation_bytes merged) <$> u_memory_reservation_bytes update)
    ((λ _, cpu_weight (if cpu_shares merged =? 0 then DEFAULT_CPU_SHARES else cpu_shares merged))
       <$> u_cpu_shares update)
    (if changes_cpu_max then Some (default cpu_max_removed (cpu_max merged)) else None)
    ((λ _, cpuset_cpus merged) <$> u_cpuset_cpus update).

Definition limits_agent_args (us : list Ulimit) (groups : list string) (limits : CgroupLimits)
    : list string :=
  mjoin ((λ u, ["--ulimit"; ulimit_name u; pretty (soft u); pretty (hard u)]) <$> us) ++
  mjoin ((λ g, ["--group-add"; g]) <$> groups) ++
  (if memory_reservation_bytes limits =? 0 then []
   else ["--memory-low"; pretty (memory_reservation_bytes limits)]) ++
  (if cpu_shares limits =? 0 then [] else ["--cpu-weight"; pretty (cpu_weight (cpu_shares limits))]) ++
  match cpu_max limits with Some (quota, period) => ["--cpu-max"; quota; pretty period] | None => [] end ++
  (if is_empty (cpuset_cpus limits) then [] else ["--cpuset-cpus"; cpuset_cpus limits]).

(** ** Name resolution in the guest *)

Definition HOST_GATEWAY : string := "host-gateway".
Definition GATEWAY_ADDRESS : string := "10.0.2.2".
Definition MAX_EXTRA_HOSTS : nat := 256.
Definition MAX_HOST_NAME_LEN : nat := 253.
Definition MAX_SEARCH_DOMAINS : nat := 6.
Definition MAX_SEARCH_CHARS : nat := 256.
Definition MAX_DNS_OPTIONS : nat := 32.
Definition MAX_OPTION_LEN : nat := 64.

Definition is_name_char (c : ascii) : bool :=
  is_ascii_alphanumeric c || one_of ["-"%char; "."%char; "_"%char] c.

Definition extra_host (entry : string) : result string ApiError :=
  let bad why := InvalidRequest ("invalid --add-host '" +:+ entry +:+ "': " +:+ why) in
  let? (name, address) := ok_or (split_once ":"%char entry) (bad "use HOST:IP") in
  if is_empty name || (MAX_HOST_NAME_LEN <? str_len name)%nat || negb (str_all is_name_char name) then
    Err (bad "the host name is empty, too long or has a bad character")
  else
    let address := trim_end_char "]"%char (trim_start_char "["%char address) in
    if decide (address = HOST_GATEWAY) then Ok (name +:+ ":" +:+ GATEWAY_ADDRESS)
    else let? ip := ok_or (parse_ip address) (bad "the address is not an IP") in
         Ok (name +:+ ":" +:+ ip_display ip).
Definition extra_hosts (entries : list string) : result (list string) ApiError :=
  reject_if (MAX_EXTRA_HOSTS <? length entries)%nat
    ("at most " +:+ pretty MAX_EXTRA_HOSTS +:+ " --add-host entries are allowed") ;?
  try_map extra_host entries.

Definition search_domains (domains : list string) : result unit ApiError :=
  let chars := sum_list ((λ d, str_len d + 1)%nat <$> domains) in
  reject_if ((MAX_SEARCH_DOMAINS <? length domains)%nat || (MAX_SEARCH_CHARS <? chars)%nat)
    ("--dns-search takes at most " +:+ pretty MAX_SEARCH_DOMAINS +:+ " domains and " +:+
     pretty MAX_SEARCH_CHARS +:+ " characters") ;?
  try_for_each (λ d,
    reject_if (is_empty d || (MAX_HOST_NAME_LEN <? str_len d)%nat || negb (str_all is_name_char d))
      ("invalid --dns-search '" +:+ d +:+ "'")) domains.

Definition option_char (c : ascii) : bool :=
  is_ascii_alphanumeric c || one_of [":"%char; "-"%char; "_"%char; "."%char] c.
Definition dns_options_check (options : list string) : result unit ApiError :=
  reject_if (MAX_DNS_OPTIONS <? length options)%nat
    ("at most " +:+ pretty MAX_DNS_OPTIONS +:+ " --dns-option entries are allowed") ;?
  try_for_each (λ o,
    reject_if (negb (negb (is_empty o) && (str_len o <=? MAX_OPTION_LEN)%nat && str_all option_char o))
      ("invalid --dns-option '" +:+ o +:+ "'")) options.

Definition network_agent_args (hosts search options : list string) : list string :=
  mjoin ((λ entry, match split_once ":"%char entry with
                   | Some (name, address) => ["--add-host"; name; address]
                   | None => []
                   end) <$> hosts) ++
  mjoin ((λ d, ["--dns-search"; d]) <$> search) ++
  mjoin ((λ o, ["--dns-option"; o]) <$> options).

(** ** Mounts in the guest *)

Definition MAX_TMPFS_MOUNTS : nat := 64.
Definition MAX_PATH_LEN : nat := 4096.
Definition RESERVED_ROOTS : list string := ["/proc"; "/sys"; "/dev"].
Definition SHM_PATH : string := "/dev/shm".
Definition TMPFS_FLAG_OPTIONS : list string :=
  ["ro"; "rw"; "suid"; "nosuid"; "dev"; "nodev"; "exec"; "noexec"; "sync"; "async"; "dirsync";
   "atime"; "noatime"; "diratime"; "nodiratime"; "relatime"; "norelatime"; "strictatime";
   "nostrictatime"].
Definition TMPFS_DATA_KEYS : list string := ["size"; "mode"; "nr_inodes"; "uid"; "gid"].
Definition MAX_TMPFS_MODE : Z := 4095.

Definition size_in_bytes (text : string) : option Z :=
  last_char ← last (chars text);
  let front := of_chars (removelast (chars text)) in
  let '(digits, unit) :=
    if one_of ["k"%char; "K"%char] last_char then (front, 2 ^ 10)
    else if one_of ["m"%char; "M"%char] last_char then (front, 2 ^ 20)
    else if one_of ["g"%char; "G"%char] last_char then (front, 2 ^ 30)
    else (text, 1) in
  if is_empty digits || negb (str_all is_ascii_digit digits) then None
  else
    n ← parse_u64 digits;
    let bytes := n * unit in
    if bytes <? 2 ^ 64 then Some bytes else None.

(** [u32::from_str_radix(_, 8)]. *)
Fixpoint octal_value (acc : Z) (l : list ascii) : option Z :=
  match l with
  | [] => Some acc
  | c :: l =>
      let d := Z.of_nat (byte_of c) - 48 in
      if (0 <=? d) && (d <? 8) then octal_value (8 * acc + d) l else None
  end.
Definition parse_octal_u32 (s : string) : option Z :=
  let digits := match chars s with "+"%char :: l => l | l => l end in
  match digits with
  | [] => None
  | _ => v ← octal_value 0 digits; if v <? 2 ^ 32 then Some v else None
  end.

Definition check_tmpfs_data (key value : string) : result unit string :=
  let verdict (ok : bool) :=
    if ok then Ok tt else Err ("invalid value '" +:+ value +:+ "' for tmpfs option '" +:+ key +:+ "'") in
  if decide (key = "size" ∨ key = "nr_inodes") then verdict (bool_decide (is_Some (size_in_bytes value)))
  else if decide (key = "mode") then
    verdict (match parse_octal_u32 value with Some m => m <=? MAX_TMPFS_MODE | None => false end)
  else if decide (key = "uid" ∨ key = "gid") then verdict (bool_decide (is_Some (parse_u32 value)))
  else Err ("invalid tmpfs option '" +:+ key +:+ "': use one of " +:+ join ", " TMPFS_DATA_KEYS).

Definition check_tmpfs_options (options : string) : result unit string :=
  try_for_each (λ option,
    match split_once "="%char option with
    | Some (key, value) => check_tmpfs_data key value
    | None => if bool_decide (option ∈ TMPFS_FLAG_OPTIONS) then Ok tt
              else Err ("invalid tmpfs option '" +:+ option +:+ "'")
    end)
    (filter (λ o, is_empty o = false) (split ","%char options)).

Definition clean_path (path : string) : result string string :=
  if negb (starts_with "/" path) || (MAX_PATH_LEN <? str_len path)%nat ||
     bool_decide (NUL ∈ chars path)
  then Err ("mount destination must be an absolute path: " +:+ path)
  else
    let parts := filter (λ p, is_empty p = false) (split "/"%char path) in
    try_for_each (λ part,
      if decide (part = ".." ∨ part = ".") then
        Err ("mount destination must not contain '" +:+ part +:+ "': " +:+ path)
      else Ok tt) parts ;?
    Ok ("/" +:+ join "/" parts).

Definition is_reserved (path : string) : bool :=
  bool_decide (path = SHM_PATH) ||
  existsb (λ root, bool_decide (path = root) || starts_with (root +:+ "/") path) RESERVED_ROOTS.

Record PbGuest := mkPbGuest {
  g_read_only_rootfs : bool;
  g_tmpfs : list TmpfsMount;
  g_shm_size_bytes : Z;
  g_extra_hosts : list string;
  g_dns_search : list string;
  g_dns_options : list string;
  g_ulimits : list Ulimit;
  g_group_add : list string;
  g_cgroup : option CgroupLimits;
  g_healthcheck : option Healthcheck;
}.

(** The loop over the tmpfs mounts: the destinations seen so far. *)
Fixpoint tmpfs_loop (seen : list string) (entries : list TmpfsMount)
    : result (list TmpfsMount) ApiError :=
  match entries with
  | [] => Ok []
  | entry :: entries =>
      let? path := map_err InvalidRequest (clean_path (tmpfs_path entry)) in
      reject_if (bool_decide (path = "/") || is_reserved path)
        ("mount destination " +:+ path +:+
         " is reserved by the guest; /dev/shm is sized with --shm-size") ;?
      map_err InvalidRequest (check_tmpfs_options (tmpfs_options entry)) ;?
      reject_if (bool_decide (path ∈ seen)) ("Duplicate mount point: " +:+ path) ;?
      let? rest := tmpfs_loop (seen ++ [path]) entries in
      Ok (mkTmpfs path (tmpfs_options entry) :: rest)
  end.

Definition guest_validate (guest : option PbGuest) (targets : list string) (memory_mb : Z)
    : result GuestOptions ApiError :=
  match guest with
  | None => Ok guest_default
  | Some g =>
      reject_if (MAX_TMPFS_MOUNTS <? length (g_tmpfs g))%nat
        ("at most " +:+ pretty MAX_TMPFS_MOUNTS +:+ " tmpfs mounts are allowed") ;?
      let? seen := try_map (λ t, map_err InvalidRequest (clean_path t)) targets in
      let? tmpfs := tmpfs_loop seen (g_tmpfs g) in
      search_domains (g_dns_search g) ;?
      dns_options_check (g_dns_options g) ;?
      let cg := default cgroup_default (g_cgroup g) in
      cgroup_check cg memory_mb ;?
      group_add (g_group_add g) ;?
      match g_healthcheck g with Some h => Health.validate h | None => Ok tt end ;?
      let? us := ulimits (g_ulimits g) in
      let? hosts := extra_hosts (g_extra_hosts g) in
      Ok (mkGuest (g_read_only_rootfs g) tmpfs (g_shm_size_bytes g) hosts (g_dns_search g)
            (g_dns_options g) us (g_group_add g) cg (g_healthcheck g))
  end.

(** [agent_args]: the arguments of the guest agent at boot. *)
Definition guest_agent_args (g : GuestOptions) : list string :=
  (if read_only_rootfs g then ["--read-only"] else []) ++
  mjoin ((λ m, ["--tmpfs"; tmpfs_path m; tmpfs_options m]) <$> tmpfs g) ++
  ["--shm-size"; pretty (shm_size g)] ++
  network_agent_args (Protocol.extra_hosts g) (dns_search g) (dns_options g) ++
  limits_agent_args (Protocol.ulimits g) (Protocol.group_add g) (cgroup g).

(** ** Paths in the guest *)

Lemma split_join sep l :
  l ≠ [] → Forall (λ p, sep ∉ chars p) l → split sep (join (String sep "") l) = l.
Proof.
  intros Hne Hl. induction Hl as [|p l Hp Hl IH]; [done|]. destruct l as [|q l].
  { by apply split_none. }
  change (join (String sep "") (p :: q :: l)) with
    (p +:+ String sep "" +:+ join (String sep "") (q :: l)).
  change (String sep "" +:+ join (String sep "") (q :: l)) with
    (String sep (join (String sep "") (q :: l))).
  by rewrite split_sep_app, IH, split_none.
Qed.

(** A cleaned path is the canonical spelling of the path that was given. *)
Lemma clean_path_normal p q :
  clean_path p = Ok q → canonical q ∧ components q = components p ∧ ".." ∉ components q.
Proof.
  unfold clean_path. destruct (_ || _); [done|]. intros ([] & Hparts & [= <-])%rbind_Ok.
  set (parts := filter (λ p, is_empty p = false) (split "/"%char p)) in *.
  apply try_for_each_Ok in Hparts.
  assert (∀ x, x ∈ parts → x ≠ "" ∧ x ≠ "." ∧ x ≠ ".." ∧ "/"%char ∉ chars x) as Hp.
  { intros x Hx. pose proof (proj1 (Forall_forall _ _) Hparts x Hx) as Hdots. cbn in Hdots.
    case_decide as Hd; [done|]. apply list_elem_of_filter in Hx as [Hne%is_empty_false Hx].
    apply split_no_sep in Hx. by split_and!; auto. }
  assert (components p = parts) as Hcp.
  { unfold components, parts. apply filter_ext_in. intros x Hx. rewrite is_empty_false.
    split; [tauto|]. intros Hne. split; [done|]. apply Hp, list_elem_of_filter.
    by rewrite is_empty_false. }
  assert (components ("/" +:+ join "/" parts) = parts) as Hcq.
  { destruct (decide (parts = [])) as [->|Hne]; [done|].
    unfold components. change ("/" +:+ join "/" parts) with ("" +:+ String "/" (join "/" parts)).
    rewrite split_sep_app, split_join; [|done|].
    2: { apply Forall_forall. intros x Hx. by apply Hp. }
    change (split "/"%char "") with [""]. cbn [app]. rewrite filter_cons_False by tauto.
    apply filter_all. intros x Hx. destruct (Hp x Hx) as (?&?&_). done. }
  unfold canonical. rewrite Hcq, Hcp. split_and!; [done..|]. by intros (_ & _ & ? & _)%Hp.
Qed.

(** The tmpfs mounts that pass: cleaned, outside the reserved trees, and on
    destinations that nothing else has. *)
Lemma tmpfs_loop_Ok seen entries l :
  tmpfs_loop seen entries = Ok l →
  NoDup (tmpfs_path <$> l) ∧
  Forall (λ m, canonical (tmpfs_path m) ∧ ".." ∉ components (tmpfs_path m) ∧ tmpfs_path m ≠ "/" ∧
               is_reserved (tmpfs_path m) = false ∧ tmpfs_path m ∉ seen) l.
Proof.
  revert seen l. induction entries as [|m entries IH]; intros seen l; cbn.
  { intros [= <-]. split; [constructor|done]. }
  intros (path & Hpath & ([] & Hres & ([] & Hopt & ([] & Hdup & (rest & Hrest & [= <-])%rbind_Ok)%rbind_Ok)
    %rbind_Ok)%rbind_Ok)%rbind_Ok.
  apply reject_if_Ok in Hres, Hdup. apply bool_decide_eq_false in Hdup.
  apply orb_false_iff in Hres as [Hroot%bool_decide_eq_false Hres].
  destruct (clean_path (tmpfs_path m)) as [q|] eqn:Hq; [|done]. injection Hpath as ->.
  apply clean_path_normal in Hq as (Hcan & _ & Hdd).
  apply IH in Hrest as [Hnd Hall]. rewrite Forall_forall in Hall. split.
  - cbn. apply NoDup_cons. split; [|done]. intros (m' & -> & Hm')%list_elem_of_fmap.
    destruct (Hall _ Hm') as (_ & _ & _ & _ & Hns). set_solver.
  - apply Forall_cons. split; [by split_and!|]. apply Forall_forall. intros m' Hm'.
    destruct (Hall _ Hm') as (?&?&?&?&?). split_and!; [done..|]. set_solver.
Qed.

Lemma reserved_under root path :
  root ∈ RESERVED_ROOTS → canonical path → under root path → is_reserved path = true.
Proof.
  intros Hroot Hcan Hund. unfold is_reserved. apply orb_true_iff. right.
  apply existsb_exists. exists root. split; [by apply list_elem_of_In|].
  assert (Forall (λ r, canonical r ∧ components r ≠ []) RESERVED_ROOTS) as Hall
    by (apply (bool_decide_eq_true_1 _); vm_compute; reflexivity).
  destruct (proj1 (Forall_forall _ _) Hall root Hroot) as [Hcr Hne].
  apply orb_true_iff. destruct (canonical_under root path) as [->|[r ->]]; [done..| |].
  - left. by apply bool_decide_eq_true.
  - right. rewrite <- append_assoc. apply starts_with_self.
Qed.

(** Mounts in the guest do not collide or cover its system trees.  Of the
    options that pass, the tmpfs mounts have pairwise different destinations,
    each spelled canonically without [..], none of them the root or inside
    [/proc], [/sys] or [/dev], and none the destination of one of the
    request's other mounts, however that one is spelled. *)
Theorem guest_mounts_distinct g targets memory o :
  guest_validate (Some g) targets memory = Ok o →
  NoDup (tmpfs_path <$> tmpfs o) ∧
  ∀ m, m ∈ tmpfs o →
    canonical (tmpfs_path m) ∧ ".." ∉ components (tmpfs_path m) ∧ tmpfs_path m ≠ "/" ∧
    (∀ root, root ∈ RESERVED_ROOTS → ~ under root (tmpfs_path m)) ∧
    (∀ t, t ∈ targets → components t ≠ components (tmpfs_path m)).
Proof.
  unfold guest_validate. intros ([] & _ & (seen & Hseen & (l & Hl & Hrest)%rbind_Ok)%rbind_Ok)%rbind_Ok.
  assert (tmpfs o = l) as ->.
  { inv_checks. by subst. }
  apply tmpfs_loop_Ok in Hl as [Hnd Hall]. rewrite Forall_forall in Hall. split; [done|].
  intros m Hm. destruct (Hall m Hm) as (Hcan & Hdd & Hroot & Hres & Hns). split_and!; try done.
  - intros root Hr Hu. by rewrite (reserved_under root) in Hres.
  - intros t Ht Heq. apply try_map_Ok in Hseen. destruct Hns.
    apply list_elem_of_lookup in Ht as [i Hi].
    destruct (Forall2_lookup_l _ _ _ _ _ Hseen Hi) as (q & Hq%list_elem_of_lookup_2 & Hcl).
    destruct (clean_path t) as [q'|] eqn:Hclean; [|done]. injection Hcl as ->.
    apply clean_path_normal in Hclean as (Hcanq & Hcomp & _).
    unfold canonical in Hcan, Hcanq. rewrite Hcan, <- Heq, <- Hcomp, <- Hcanq. done.
Qed.

(** ** Limits *)

(** Shares map onto the kernel's weights.  Every share value, in range or
    not, gives a weight from 1 to 10000, more shares never give less weight,
    and the ends of the range map to the ends. *)
Theorem cpu_weight_range s s' :
  1 ≤ cpu_weight s ≤ 10000 ∧ (s ≤ s' → cpu_weight s ≤ cpu_weight s') ∧
  cpu_weight 2 = 1 ∧ cpu_weight 262144 = 10000.
Proof.
  assert (∀ a b, a ≤ b → cpu_weight a ≤ cpu_weight b) as Hmono.
  { intros a b Hab. unfold cpu_weight, MIN_CPU_SHARES, MAX_CPU_SHARES, MIN_CPU_WEIGHT, MAX_CPU_WEIGHT.
    apply Zplus_le_compat_l, Z.div_le_mono; [lia|]. apply Z.mul_le_mono_nonneg_r; lia. }
  split_and!; [| |by apply Hmono|done..].
  - change 1 with (cpu_weight 2). destruct (Z.le_ge_cases 2 s); [by apply Hmono|].
    unfold cpu_weight, MIN_CPU_SHARES, MAX_CPU_SHARES. rewrite (Z.max_l 2 (Z.min s _)) by lia. done.
  - change 10000 with (cpu_weight 262144). destruct (Z.le_ge_cases s 262144); [by apply Hmono|].
    unfold cpu_weight, MAX_CPU_SHARES. rewrite (Z.min_r s) by done. done.
Qed.

Lemma ulimits_loop_Ok kept entries out :
  ulimits_loop kept entries = Ok out → NoDup (ulimit_name <$> kept) →
  NoDup (ulimit_name <$> out) ∧
  (∀ u, u ∈ out → (u ∈ kept ∧ ulimit_name u ∉ ulimit_name <$> entries) ∨
     (ulimit_name u ∈ ULIMIT_NAMES ∧ ulimit_ok u = true ∧
      ∃ before after, entries = before ++ u :: after ∧ ulimit_name u ∉ ulimit_name <$> after)) ∧
  (∀ n, n ∈ ulimit_name <$> kept ∨ n ∈ ulimit_name <$> entries → n ∈ ulimit_name <$> out).
Proof.
  revert kept. induction entries as [|x entries IH]; intros kept; cbn [ulimits_loop].
  { intros [= <-] Hnd. split_and!; [done|set_solver..]. }
  destruct (bool_decide _) eqn:Hn; cbn [negb]; [|done]. apply bool_decide_eq_true in Hn.
  destruct (ulimit_ok x) eqn:Hok; cbn [negb]; [|done]. intros Hl Hnd.
  apply IH in Hl as (Hnd' & Hsrc & Hall).
  - split_and!; [done| |].
    + intros u Hu. destruct (Hsrc u Hu) as [[Hk Hni]|(Hun & Huok & before & after & -> & Hni)].
      * apply elem_of_app in Hk as [[Hne Hk]%list_elem_of_filter|Hk%list_elem_of_singleton].
        -- left. split; [done|]. cbn. set_solver.
        -- subst u. right. split_and!; [done..|]. by exists [], entries.
      * right. split_and!; [done..|]. by exists (x :: before), after.
    + intros n Hin. apply Hall. rewrite fmap_app, elem_of_app.
      destruct (decide (n = ulimit_name x)) as [->|Hne]; [left; right; by left|].
      destruct Hin as [(k & -> & Hk)%list_elem_of_fmap|[?|?]%elem_of_cons]; [|done|by right].
      left. left. apply list_elem_of_fmap. exists k. split; [done|]. by apply list_elem_of_filter.
  - rewrite fmap_app. apply NoDup_app. split_and!; [| |apply NoDup_singleton].
    + clear -Hnd. induction kept as [|k kept IH]; [constructor|]. cbn in Hnd. apply NoDup_cons in Hnd as [Hk Hnd].
      rewrite filter_cons. case_decide; [|auto]. cbn. apply NoDup_cons. split; [|auto].
      intros (k' & Heq & [_ Hk']%list_elem_of_filter)%list_elem_of_fmap. apply Hk. rewrite Heq.
      by apply list_elem_of_fmap_2.
    + intros n (k & -> & [Hne _]%list_elem_of_filter)%list_elem_of_fmap Hx%list_elem_of_singleton. done.
Qed.

(** Each resource limit is set once, to the last value asked for.  Of the
    limits that pass, no name occurs twice, every requested name occurs, each
    is one of the known names, its value is the last that was given for
    it, and the soft limit does not exceed the hard one unless that is
    unlimited. *)
Theorem ulimits_last_wins entries out :
  ulimits entries = Ok out →
  NoDup (ulimit_name <$> out) ∧
  (∀ n, n ∈ ulimit_name <$> entries → n ∈ ulimit_name <$> out) ∧
  (∀ u, u ∈ out → ulimit_name u ∈ ULIMIT_NAMES ∧
     (hard u = -1 ∨ 0 ≤ soft u ≤ hard u) ∧
     ∃ before after, entries = before ++ u :: after ∧ ulimit_name u ∉ ulimit_name <$> after).
Proof.
  intros Hl. apply ulimits_loop_Ok in Hl as (Hnd & Hsrc & Hall); [|constructor]. split_and!; [done|auto|].
  intros u Hu. destruct (Hsrc u Hu) as [[[]%not_elem_of_nil _]|(Hn & Hok & Hx)]. split_and!; [done| |done].
  unfold ulimit_ok, UNLIMITED in Hok. apply andb_true_iff in Hok as [H1%negb_true_iff H2%negb_true_iff].
  apply orb_false_iff in H1 as [H1 H1'].
  destruct (hard u =? -1) eqn:Hh; [left; lia|right].
  cbn in H2. apply orb_false_iff in H2 as [H2 H2']. lia.
Qed.

(** ** Witnesses *)

Lemma guest_mounts_distinct_witness :
  let g := mkPbGuest false [mkTmpfs "/run//x/" "size=64m,noexec"] 0 [] [] [] [] [] None None in
  ∃ o, guest_validate (Some g) ["/data"] 512 = Ok o ∧ tmpfs_path <$> tmpfs o = ["/run/x"] ∧
    NoDup (tmpfs_path <$> tmpfs o).
Proof.
  intros g. assert (is_ok (guest_validate (Some g) ["/data"] 512) = true) as Hok by (vm_compute; reflexivity).
  destruct (guest_validate (Some g) ["/data"] 512) as [o|] eqn:H; [|discriminate Hok]. exists o.
  split; [reflexivity|]. split; [|exact (proj1 (guest_mounts_distinct g ["/data"] 512 o H))].
  vm_compute in H. injection H as <-. reflexivity.
Defined.

Lemma ulimits_last_wins_witness :
  let l := [mkUlimit "core" 0 5; mkUlimit "nofile" 1 2; mkUlimit "core" 1 1] in
  ∃ out, ulimits l = Ok out ∧ out = [mkUlimit "nofile" 1 2; mkUlimit "core" 1 1] ∧
    NoDup (ulimit_name <$> out).
Proof.
  intros l. exists [mkUlimit "nofile" 1 2; mkUlimit "core" 1 1].
  assert (ulimits l = Ok [mkUlimit "nofile" 1 2; mkUlimit "core" 1 1]) as H by (vm_compute; reflexivity).
  split; [exact H|]. split; [reflexivity|]. exact (proj1 (ulimits_last_wins l _ H)).
Defined.
