(* ===== verification/Manager.v ===== *)
(** * Manager: the sandbox manager's state and its atomic sections

    Models [ward-core/src/sandbox/manager.rs]: the table of sandboxes, the
    records kept on disk, name reservations, creation permits, and the
    operations that read and change them.  Every definition here is either a
    pure helper or one critical section of the manager, the code between
    taking and releasing the lock on [entries].  [Lifecycle] composes them
    into the manager's public operations, [Concurrency] interleaves them. *)

From stdpp Require Import base list numbers option strings pretty gmap sorting.
From Stdlib Require Import ZArith Lia Ascii.
From S2P Require Import Prelude Text Tokio Net Signal Restart Output Broker Egress Validate Store Events Health Launch Protocol.

(** ** Errors of the backend *)

Inductive BackendError :=
| BNotFound (id : string)
| BPathNotFound (path : string)
| BImage (message : string)
| BImageNotFound (message : string)
| BUnavailable (message : string)
| BSpawn (message : string)
| BExec (message : string)
| BIo (e : IoError)
| BInvalidArgument (message : string)
| BResourceExhausted (message : string)
| BInternal (message : string)
| BAddressInUse (address : string).

(** The [Display] of the errors that reach a client through [other]. *)
Definition backend_error_text (e : BackendError) : string :=
  match e with
  | BNotFound id => "sandbox not found: " +:+ id
  | BPathNotFound p => "path not found in the sandbox: " +:+ p
  | BImage m => "image error: " +:+ m
  | BSpawn m => "spawn failed: " +:+ m
  | BExec m => "exec failed: " +:+ m
  | BIo e => "io error: " +:+ io_text e
  | BInternal m => "internal: " +:+ m
  | BImageNotFound m | BUnavailable m | BInvalidArgument m | BResourceExhausted m
  | BAddressInUse m => m
  end.

Definition BACKEND_SPAWN_FAILED : string :=
  "the sandbox backend could not start the sandbox, check the daemon logs and that the host has enough memory and virtualization support".

Definition backend_err (e : BackendError) : ApiError :=
  match e with
  | BNotFound id => SandboxNotFound id
  | BInvalidArgument m => InvalidRequest m
  | BResourceExhausted m => ResourceExhausted m
  | BImageNotFound m => ImageNotFound m
  | BUnavailable m => Unavailable m
  | BAddressInUse a => AddressInUse a
  | BIo io => from_io "backend i/o" io
  | BSpawn _ => Unavailable BACKEND_SPAWN_FAILED
  | other => BackendErr (backend_error_text other)
  end.

Definition image_backend_err (e : BackendError) : ApiError :=
  match e with
  | BImage m => InvalidRequest m
  | other => backend_err other
  end.

Definition snapshot_backend_err (e : BackendError) : ApiError :=
  match e with
  | BNotFound id => SnapshotNotFound id
  | other => backend_err other
  end.

(** ** State *)

Record PortListener := mkListener { local_port : Z; listen_ip : IpAddr; guest_port : Z }.

Record SandboxEntry := mkEntry {
  egress_proxy : EgressProxy;
  (** Deadlines of the wall-time and exited-TTL timers. *)
  timeout_handle : option Z;
  ttl_handle : option Z;
  meta : SandboxMeta;
  listeners : list PortListener;
  tracker : option Tracker;
}.

(** A main process: [exit_raw] is the raw wait status once it ended. *)
Record MainProcess := mkMain {
  pid : string;
  has_control : bool;
  exit_raw : option Z;
  oom_killed : bool;
}.

(** A process started by [exec].  [p_output] names the shared cell its output
    receiver is taken from, [p_stdin] the channel of its standard input. *)
Record ProcessRecord := mkProcess {
  p_sandbox_id : string;
  p_output : nat;
  p_stdin : option nat;
}.

(** A save that fails, and whether the new record reached the disk anyway
    (the rename happened, the sync of the directory failed). *)
Record Fault := mkFault { fault_error : IoError; fault_written : bool }.

(** What a daemon is configured with. *)
Record Config := mkConfig {
  max_sandboxes : nat;
  allow_host_mounts : bool;
  smoltcp : bool;
  with_store : bool;
  default_exited_ttl : option Z;
  default_limits : DefaultLimits;
  stop_grace : Z;
}.

(** The manager with everything its operations reach: [env] is the backend,
    the port forwarder and the guests behind them, [faults] decides which of
    the coming saves fail, [clock] is the time the operations read. *)
Record World (E : Type) := mkWorld {
  entries : gmap string SandboxEntry;
  permits : nat;
  pending_names : gset string;
  disk : gmap string SandboxMeta;
  faults : list (option Fault);
  broker : BrokerState;
  mains : gmap string MainProcess;
  processes : gmap string ProcessRecord;
  events : list SandboxEvent;
  restarts : list RestartRequest;
  restart_delays : gmap string Z;
  active_gauge : Z;
  env : E;
  clock : Z;
}.
Arguments mkWorld {E}.
Arguments entries {E}.
Arguments permits {E}.
Arguments pending_names {E}.
Arguments disk {E}.
Arguments faults {E}.
Arguments broker {E}.
Arguments mains {E}.
Arguments processes {E}.
Arguments events {E}.
Arguments restarts {E}.
Arguments restart_delays {E}.
Arguments active_gauge {E}.
Arguments env {E}.
Arguments clock {E}.

Section setters.
Context {E : Type}.
Implicit Types (w : World E).

Definition upd_entries f w :=
  mkWorld (f (entries w)) (permits w) (pending_names w) (disk w) (faults w)
    (broker w) (mains w) (processes w) (events w)
    (restarts w) (restart_delays w) (active_gauge w) (env w) (clock w).
Definition upd_permits f w :=
  mkWorld (entries w) (f (permits w)) (pending_names w) (disk w) (faults w)
    (broker w) (mains w) (processes w) (events w)
    (restarts w) (restart_delays w) (active_gauge w) (env w) (clock w).
Definition upd_names f w :=
  mkWorld (entries w) (permits w) (f (pending_names w)) (disk w) (faults w)
    (broker w) (mains w) (processes w) (events w)
    (restarts w) (restart_delays w) (active_gauge w) (env w) (clock w).
Definition upd_disk f w :=
  mkWorld (entries w) (permits w) (pending_names w) (f (disk w)) (faults w)
    (broker w) (mains w) (processes w) (events w)
    (restarts w) (restart_delays w) (active_gauge w) (env w) (clock w).
Definition upd_faults f w :=
  mkWorld (entries w) (permits w) (pending_names w) (disk w) (f (faults w))
    (broker w) (mains w) (processes w) (events w)
    (restarts w) (restart_delays w) (active_gauge w) (env w) (clock w).
Definition upd_broker f w :=
  mkWorld (entries w) (permits w) (pending_names w) (disk w) (faults w) (f
    (broker w)) (mains w) (processes w) (events w)
    (restarts w) (restart_delays w) (active_gauge w) (env w) (clock w).
Definition upd_mains f w :=
  mkWorld (entries w) (permits w) (pending_names w) (disk w) (faults w)
    (broker w) (f (mains w)) (processes w) (events w)
    (restarts w) (restart_delays w) (active_gauge w) (env w) (clock w).
Definition upd_processes f w :=
  mkWorld (entries w) (permits w) (pending_names w) (disk w) (faults w)
    (broker w) (mains w) (f (processes w)) (events w)
    (restarts w) (restart_delays w) (active_gauge w) (env w) (clock w).
Definition upd_events f w :=
  mkWorld (entries w) (permits w) (pending_names w) (disk w) (faults w)
    (broker w) (mains w) (processes w) (f (events w))
    (restarts w) (restart_delays w) (active_gauge w) (env w) (clock w).
Definition upd_restarts f w :=
  mkWorld (entries w) (permits w) (pending_names w) (disk w) (faults w)
    (broker w) (mains w) (processes w) (events w) (f
    (restarts w)) (restart_delays w) (active_gauge w) (env w) (clock w).
Definition upd_delays f w :=
  mkWorld (entries w) (permits w) (pending_names w) (disk w) (faults w)
    (broker w) (mains w) (processes w) (events w)
    (restarts w) (f (restart_delays w)) (active_gauge w) (env w) (clock w).
Definition upd_gauge f w :=
  mkWorld (entries w) (permits w) (pending_names w) (disk w) (faults w)
    (broker w) (mains w) (processes w) (events w)
    (restarts w) (restart_delays w) (f (active_gauge w)) (env w) (clock w).
Definition upd_env (f : E → E) w :=
  mkWorld (entries w) (permits w) (pending_names w) (disk w) (faults w)
    (broker w) (mains w) (processes w) (events w)
    (restarts w) (restart_delays w) (active_gauge w) (f (env w)) (clock w).
Definition upd_clock f w :=
  mkWorld (entries w) (permits w) (pending_names w) (disk w) (faults w)
    (broker w) (mains w) (processes w) (events w)
    (restarts w) (restart_delays w) (active_gauge w) (env w) (f (clock w)).
End setters.

(** A fallible operation on the manager: [?] keeps the state reached. *)
Definition St (E A : Type) : Type := World E → result A ApiError * World E.
Definition sret {E A} (a : A) : St E A := λ w, (Ok a, w).
Definition sfail {E A} (e : ApiError) : St E A := λ w, (Err e, w).
Definition sbind {E A B} (m : St E A) (k : A → St E B) : St E B :=
  λ w, match m w with (Ok a, w') => k a w' | (Err e, w') => (Err e, w') end.
Definition lift {E A} (r : result A ApiError) : St E A := λ w, (r, w).
Definition modify {E} (f : World E → World E) : St E unit := λ w, (Ok tt, f w).
Definition read {E A} (f : World E → A) : St E A := λ w, (Ok (f w), w).

Notation "'let!' x := m 'in' k" := (sbind m (λ x, k))
  (at level 10, x pattern, m at level 100, k at level 200) : ward_scope.
Notation "m ;! k" := (sbind m (λ _, k))
  (at level 100, k at level 200, right associativity) : ward_scope.

(** ** Record updates *)

Definition set_meta (m : SandboxMeta) (e : SandboxEntry) : SandboxEntry :=
  mkEntry (egress_proxy e) (timeout_handle e) (ttl_handle e) m (listeners e) (tracker e).
Definition set_ttl (t : option Z) (e : SandboxEntry) : SandboxEntry :=
  mkEntry (egress_proxy e) (timeout_handle e) t (meta e) (listeners e) (tracker e).
Definition set_listeners (l : list PortListener) (e : SandboxEntry) : SandboxEntry :=
  mkEntry (egress_proxy e) (timeout_handle e) (ttl_handle e) (meta e) l (tracker e).

Definition set_manual (b : bool) (m : SandboxMeta) : SandboxMeta :=
  mkMeta (id m) (options m) (created_at m) (status m) (exit_code m) (started_at m) (finished_at m)
    (end_reason m) (token_hash m) (had_secrets m) (restart_count m) b.
Definition set_restart_count (n : Z) (m : SandboxMeta) : SandboxMeta :=
  mkMeta (id m) (options m) (created_at m) (status m) (exit_code m) (started_at m) (finished_at m)
    (end_reason m) (token_hash m) (had_secrets m) n (manually_stopped m).
Definition set_options (o : CreateOpts) (m : SandboxMeta) : SandboxMeta :=
  mkMeta (id m) o (created_at m) (status m) (exit_code m) (started_at m) (finished_at m)
    (end_reason m) (token_hash m) (had_secrets m) (restart_count m) (manually_stopped m).
Definition set_spec (s : SandboxSpec) (o : CreateOpts) : CreateOpts :=
  mkOpts (image o) (mounts o) (volume_ids o) (egress o) (resources o) (Protocol.env o)
    (from_snapshot o) (comms o) s.
Definition set_egress (p : EgressPolicy) (o : CreateOpts) : CreateOpts :=
  mkOpts (image o) (mounts o) (volume_ids o) p (resources o) (Protocol.env o)
    (from_snapshot o) (comms o) (spec o).
Definition set_name (n : string) (s : SandboxSpec) : SandboxSpec :=
  mkSpec n (command s) (entrypoint_len s) (workdir s) (user s) (tty s) (auto_remove s)
    (published_ports s) (image_digest s) (labels s) (hostname s) (stop_signal s) (stop_timeout s)
    (restart s) (guest s).

Definition spec_of (e : SandboxEntry) : SandboxSpec := spec (options (meta e)).
Definition name_of (e : SandboxEntry) : string := name (spec_of e).

(** ** Time stamps, timers and saved records *)

Definition NANOS_PER_SEC : Z := 1000000000.

Definition has_ended (s : SandboxStatus) : bool :=
  match s with Exited | Stopped => true | _ => false end.

Definition exited_ttl_of (r : ResourceLimits) (def : option Z) : option Z :=
  if (exited_ttl_seconds r =? 0)%Z then def else Some (exited_ttl_seconds r * NANOS_PER_SEC)%Z.

(** The deadline of the exited-TTL timer; one already past fires at once. *)
Definition rearm_exited_ttl (cfg : Config) (now ended_at : Z) (e : SandboxEntry) : SandboxEntry :=
  if negb (has_ended (status (meta e))) then set_ttl None e
  else
    match exited_ttl_of (resources (options (meta e))) (default_exited_ttl cfg) with
    | None => set_ttl None e
    | Some ttl => set_ttl (Some (Z.max now (ended_at + ttl))) e
    end.

Definition stamp_times (m : SandboxMeta) (next : SandboxStatus) (now : Z) : SandboxMeta :=
  let with_times started finished :=
    mkMeta (id m) (options m) (created_at m) (status m) (exit_code m) started finished
      (end_reason m) (token_hash m) (had_secrets m) (restart_count m) (manually_stopped m) in
  match next with
  | Running =>
      if bool_decide (status m ≠ Running) && negb (bool_decide (command (spec (options m)) = []))
      then with_times (Some now) (finished_at m) else m
  | Exited => with_times (started_at m) (Some now)
  | Stopped => with_times (started_at m) (Some (default now (finished_at m)))
  | _ => m
  end.

(** The record a commit writes. *)
Definition next_meta (m : SandboxMeta) (s : SandboxStatus) (code : option Z)
    (reason : option EndReason) (now : Z) : SandboxMeta :=
  let m := stamp_times m s now in
  mkMeta (id m) (options m) (created_at m) s code (started_at m) (finished_at m) reason
    (token_hash m) (had_secrets m) (restart_count m) (manually_stopped m).

Section sections.
Context {E : Type} (cfg : Config).
Implicit Types (w : World E).

(** [died.reason = reason]. *)
Definition with_reason (r : option EndReason) (ev : SandboxEvent) : SandboxEvent :=
  mkEvent (action ev) (ev_sandbox_id ev) (ev_name ev) (ev_image ev) (at_time ev) (ev_exit_code ev)
    r (ev_labels ev).

(** [persist_meta]: without a store nothing is written. *)
Definition persist_meta (m : SandboxMeta) : St E unit := λ w,
  if negb (with_store cfg) then (Ok tt, w)
  else
    let w' := upd_faults tail w in
    match head (faults w) with
    | Some (Some f) =>
        (Err (from_io ("persist sandbox " +:+ id m) (fault_error f)),
         if fault_written f then upd_disk <[id m := m]> w' else w')
    | _ => (Ok tt, upd_disk <[id m := m]> w')
    end.

Definition get_entry (id : string) : St E SandboxEntry := λ w,
  (ok_or (entries w !! id) (SandboxNotFound id), w).
Definition put_entry (id : string) (e : SandboxEntry) : St E unit :=
  modify (upd_entries <[id := e]>).

Definition emit_raw (ev : SandboxEvent) : World E → World E := upd_events (λ l, l ++ [ev]).

(** [commit_meta_ended]: the disk first, then memory. *)
Definition commit_meta_ended (id : string) (e : SandboxEntry) (s : SandboxStatus)
    (code : option Z) (reason : option EndReason) : St E unit := λ w,
  (let next := next_meta (meta e) s code reason (clock w) in
   persist_meta next ;!
   put_entry id (rearm_exited_ttl cfg (clock w) (clock w) (set_meta next e))) w.

(** [commit_meta]: a new run clears the reason, every other move keeps it. *)
Definition commit_meta (id : string) (e : SandboxEntry) (s : SandboxStatus) (code : option Z)
    : St E unit :=
  commit_meta_ended id e s code
    (match s with Creating => None | _ => end_reason (meta e) end).

(** [record_state], [record_ended] and [set_state]. *)
Definition record_state (id : string) (s : SandboxStatus) (code : option Z) : St E unit :=
  let! e := get_entry id in commit_meta id e s code.
Definition record_ended (id : string) (s : SandboxStatus) (code : option Z)
    (reason : option EndReason) : St E unit :=
  let! e := get_entry id in commit_meta_ended id e s code reason.
Definition set_state (id : string) (s : SandboxStatus) : St E unit :=
  let! e := get_entry id in commit_meta id e s (exit_code (meta e)).

Definition wrong_state (id : string) (s : SandboxStatus) (action : string) : ApiError :=
  InvalidRequest ("sandbox " +:+ id +:+ " is " +:+ status_str s +:+ ", cannot " +:+ action).
Definition not_running (id : string) : ApiError :=
  InvalidRequest ("Container " +:+ id +:+ " is not running").
Definition no_main_process (id : string) : ApiError :=
  InvalidRequest ("sandbox " +:+ id +:+ " has no main process").

(** Set [manually_stopped], commit, and undo it if the commit fails. *)
Definition commit_manual (id : string) (e : SandboxEntry) (manual : bool) (s : SandboxStatus)
    (code : option Z) : St E unit := λ w,
  let e' := set_meta (set_manual manual (meta e)) e in
  match commit_meta id e' s code w with
  | (Ok _, w') => (Ok tt, w')
  | (Err err, w') => (Err err, upd_entries <[id := e]> w')
  end.

(** [begin_stop]: the state left and the record from before. *)
Definition begin_stop (id : string) : St E (option (SandboxStatus * SandboxMeta)) :=
  let! e := get_entry id in
  let before := status (meta e) in
  match before with
  | Stopped => sret None
  | Running | Exited =>
      commit_manual id e true Stopping (exit_code (meta e)) ;!
      sret (Some (before, meta e))
  | other => sfail (wrong_state id other "stop")
  end.

(** [begin_start]: the policy to register once it runs. *)
Definition begin_start (id : string) : St E (option CommunicationPolicy) :=
  let! e := get_entry id in
  match status (meta e) with
  | Running => sret None
  | Stopped | Exited | Failed =>
      commit_manual id e false Creating None ;!
      sret (Some (comms (options (meta e))))
  | other => sfail (wrong_state id other "start")
  end.

(** [commit_running_and_register]. *)
Definition commit_running_and_register (id : string) (policy : CommunicationPolicy) : St E unit :=
  let! e := get_entry id in
  commit_meta id e Running (exit_code (meta e)) ;!
  modify (upd_broker (register_state id policy)).

Definition recorded_status (id : string) : St E SandboxStatus :=
  let! e := get_entry id in sret (status (meta e)).

Definition RESTART_WITHOUT_SECRETS : string :=
  "this sandbox was created with --secret; secrets are not kept across restarts, create it again with ward run".
Definition refuse_if_had_secrets (id : string) : St E unit := λ w,
  match entries w !! id with
  | Some e => if had_secrets (meta e) then (Err (InvalidRequest RESTART_WITHOUT_SECRETS), w)
              else (Ok tt, w)
  | None => (Ok tt, w)
  end.

(** Save a changed record and adopt it; a failed save changes nothing in
    memory.  A sandbox that is gone is left alone. *)
Definition save_change (id : string) (f : SandboxMeta → option SandboxMeta) : St E unit := λ w,
  match entries w !! id with
  | None => (Ok tt, w)
  | Some e =>
      match f (meta e) with
      | None => (Ok tt, w)
      | Some next => (persist_meta next ;! put_entry id (set_meta next e)) w
      end
  end.

Definition clear_restart_history (id : string) : St E unit :=
  modify (upd_delays (delete id)) ;!
  save_change id (λ m, if (restart_count m =? 0)%Z then None else Some (set_restart_count 0 m)).

Definition mark_manually_stopped (id : string) : St E unit :=
  save_change id (λ m, if manually_stopped m then None else Some (set_manual true m)).

(** [claim_restart]: whether the restart is still due, counted if so.  The
    count is a [u32]. *)
Definition claim_restart (req : RestartRequest) : World E → bool * World E := λ w,
  match entries w !! req_id req with
  | None => (false, upd_delays (delete (req_id req)) w)
  | Some e =>
      let m := meta e in
      let current :=
        bool_decide (status m = Exited) && negb (manually_stopped m) && negb (had_secrets m) &&
        bool_decide (finished_at m = req_finished_at req) in
      if negb current ||
         negb (wants_restart (restart (spec (options m))) (req_exit_code req) (restart_count m))
      then (false, w)
      else
        let next := set_restart_count ((restart_count m + 1) mod 2 ^ 32) m in
        match persist_meta next w with
        | (Ok _, w') => (true, upd_entries <[req_id req := set_meta next e]> w')
        | (Err _, w') => (false, w')
        end
  end.

(** [request_restart]: ask the supervisor, if the policy wants it. *)
Definition request_restart (e : SandboxEntry) (code : Z) : World E → World E := λ w,
  let m := meta e in
  if auto_remove (spec (options m)) ||
     negb (wants_restart (restart (spec (options m))) code (restart_count m))
  then w
  else
    let ran := match started_at m, finished_at m with
               | Some s, Some f => Z.max 0 (f - s)
               | _, _ => 0%Z
               end in
    upd_restarts (λ l, l ++ [mkRequest (id m) code ran (finished_at m)]) w.

(** [end_reason_of] a raw wait status. *)
Definition end_reason_of (raw : Z) (oom : bool) : EndReason :=
  let sig := Z.land raw 0x7f in
  if (sig =? 0)%Z then REExited
  else if (sig =? SIGKILL)%Z && oom then REOom
  else RESignal.

(** The critical section of [mark_exited_on_main_end]: the exit of process
    [p] with raw status [raw] is recorded only for the current run of a
    sandbox that runs.  The first component tells whether the task goes on to
    the automatic removal. *)
Definition record_main_end (sid p : string) (raw : Z) (oom : bool) : World E → bool * World E := λ w,
  match entries w !! sid with
  | None => (false, w)
  | Some e =>
      let same_run := match mains w !! sid with Some m => bool_decide (pid m = p) | None => false end in
      if negb same_run || bool_decide (status (meta e) ≠ Running) then (false, w)
      else
        let code := decode_wait_status raw in
        match commit_meta_ended sid e Exited (Some code) (Some (end_reason_of raw oom)) w with
        | (Err _, w') => (true, w')
        | (Ok _, w') =>
            match entries w' !! sid with
            | None => (true, w')
            | Some e' =>
                let died := with_reason (end_reason (meta e'))
                              (with_exit_code code (event_new EvDie (meta e') (clock w'))) in
                (true, request_restart e' code (emit_raw died w'))
            end
        end
  end.

(** ** Names and references *)

(** The order in which the table yields its entries is the table's own. *)
Context (order : gmap string SandboxEntry → list (string * SandboxEntry)).

(** [entries.iter().find(|(_, e)| e.name == n)]. *)
Definition find_name (n : string) (m : gmap string SandboxEntry) : option string :=
  fst <$> head (filter (λ x, name_of x.2 = n) (order m)).

Definition name_in_use (n : string) (holder : option string) : ApiError := NameInUse n holder.

(** [NameReservation::claim] and the release on drop. *)
Definition claim_name (n : string) : World E → bool * World E := λ w,
  (bool_decide (n ∉ pending_names w), upd_names (λ s, {[n]} ∪ s) w).
Definition release_name (n : string) : World E → World E := upd_names (λ s, s ∖ {[n]}).

(** [reserve_name]: [true] when a reservation is held.  A refused claim must
    not release the other holder's reservation; a found holder drops ours. *)
Definition reserve_name (n : string) : St E bool := λ w,
  if is_empty n then (Ok false, w)
  else
    match sandbox_name n with
    | Err e => (Err e, w)
    | Ok _ =>
        let '(claimed, w') := claim_name n w in
        if negb claimed then (Err (name_in_use n None), w')
        else
          match find_name n (entries w') with
          | Some holder => (Err (name_in_use n (Some holder)), release_name n w')
          | None => (Ok true, w')
          end
    end.

(** [matches.sort_unstable()] on distinct ids. *)
Definition sort_ids (l : list string) : list string := merge_sort str_le l.

Definition resolve (reference : string) : St E string := λ w,
  (sandbox_reference reference ;?
   match find_name reference (entries w) with
   | Some id => Ok id
   | None =>
       if decide (is_Some (entries w !! reference)) then Ok reference
       else
         match sort_ids (filter (λ id, starts_with reference id = true) (order (entries w)).*1) with
         | [] => Err (SandboxNotFound reference)
         | [id] => Ok id
         | several =>
             Err (AmbiguousReference (cat ["ID prefix "; dquote; reference; dquote;
               " matches several sandboxes: "; join ", " several]))
         end
   end, w).

Section authorize.
Context (digest : string → list Z).

Definition authorize (reference token : string) : St E unit :=
  let! id := resolve reference in
  let! e := get_entry id in
  if token_hash_eq (token_hash (meta e)) (hash_token digest token) then sret tt
  else sfail (PermissionDenied ("token does not match sandbox " +:+ id)).
End authorize.

(** The section of [rename] under the lock, after the new name was claimed. *)
Definition rename_section (sid new_name : string) : St E unit := λ w,
  match find_name new_name (entries w) with
  | Some holder =>
      if decide (holder = sid) then
        (Err (InvalidRequest ("sandbox " +:+ sid +:+ " is already named " +:+ new_name)), w)
      else (Err (name_in_use new_name (Some holder)), w)
  | None =>
      (let! e := get_entry sid in
       let next := set_options (set_spec (set_name new_name (spec_of e)) (options (meta e))) (meta e) in
       persist_meta next ;!
       put_entry sid (set_meta next e) ;!
       modify (λ w, emit_raw (event_new EvRename next (clock w)) w)) w
  end.

(** [rename]: the reservation is held for the section and then dropped. *)
Definition rename (reference new_name : string) : St E string :=
  lift (sandbox_name new_name) ;!
  let! sid := resolve reference in
  (λ w, let '(claimed, w1) := claim_name new_name w in
        if negb claimed then (Err (name_in_use new_name None), w1)
        else
          let '(r, w2) := rename_section sid new_name w1 in
          match r with
          | Ok _ => (Ok sid, release_name new_name w2)
          | Err e => (Err e, release_name new_name w2)
          end).

(** The domains of a request that are new, each once. *)
Definition new_domains (have want : list string) : list string :=
  foldl (λ added d, if decide (d ∈ have ∨ d ∈ added) then added else added ++ [d]) [] want.

(** [add_egress_allow] up to the record; [push] hands the new names to the
    running VM. *)
Definition add_egress_allow (push : string → list string → E → result unit BackendError * E)
    (reference : string) (doms : list string) : St E (list string) :=
  lift (egress_domains doms) ;!
  let! sid := resolve reference in
  let! e := get_entry sid in
  let policy := egress (options (meta e)) in
  match egress_mode policy with
  | EgressOpen => sret []
  | EgressDeny =>
      sfail (InvalidRequest "sandbox was created with egress deny; recreate it with --egress allowlist")
  | EgressAllowlist =>
      let added := new_domains (domains policy) doms in
      if decide (added = []) then sret []
      else if (Z.of_nat (length (domains policy) + length added) >? MAX_EGRESS_DOMAINS)%Z then
        sfail (InvalidRequest ("the allowlist is limited to " +:+ pretty MAX_EGRESS_DOMAINS +:+ " domains"))
      else
        let next := set_options
          (set_egress (mkEgress EgressAllowlist (domains policy ++ added)) (options (meta e))) (meta e) in
        persist_meta next ;!
        put_entry sid (set_meta next e) ;!
        (λ w, let '(r, env') := push sid added (env w) in
              (map_err backend_err r, upd_env (λ _, env') w)) ;!
        modify (λ w, emit_raw (event_new EvUpdate next (clock w)) w) ;!
        sret added
  end.

(** ** Removal *)

(** The part of a cleanup under the lock: the entry leaves the table, and
    with it its permit and its timers. *)
Definition detach (sid : string) : World E → option SandboxEntry * World E := λ w,
  match entries w !! sid with
  | None => (None, w)
  | Some e => (Some e, upd_permits S (upd_entries (delete sid) w))
  end.

(** The first half of [finish_cleanup]: what is tied to the sandbox goes. *)
Definition drop_tied (sid : string) : World E → World E := λ w,
  let w := upd_processes (filter (λ x, p_sandbox_id x.2 ≠ sid)) w in
  let w := upd_mains (delete sid) w in
  upd_broker (deregister_state sid) w.

(** Removing a running sandbox kills it. *)
Definition killed_event (m : SandboxMeta) (reason : option EndReason) (t : Z) : SandboxEvent :=
  with_reason reason
    (with_exit_code (default (SIGNAL_EXIT_BASE + SIGKILL)%Z (exit_code m)) (event_new EvDie m t)).

(** The last part of [finish_cleanup]: the counters and the events. *)
Definition report_removed (removed : option SandboxEntry) (reason : option EndReason)
    : World E → World E := λ w,
  match removed with
  | None => w
  | Some e =>
      let m := meta e in
      let w := upd_gauge (λ g, g - 1)%Z w in
      let w :=
        if decide (status m = Running) then emit_raw (killed_event m reason (clock w)) w else w in
      emit_raw (event_new EvDestroy m (clock w)) w
  end.
End sections.

(** ** References resolve to one sandbox *)

Section resolve_props.
Context {E : Type} (order : gmap string SandboxEntry → list (string * SandboxEntry)).
Context (order_spec : ∀ m, order m ≡ₚ map_to_list m).
Implicit Types (w : World E).

(** What the table of sandboxes satisfies: ids and names are valid, and no
    two sandboxes have the same name. *)
Record table_ok (m : gmap string SandboxEntry) : Prop := {
  to_ids sid e : m !! sid = Some e → entity_id sid "sandbox" = Ok tt;
  to_names sid e : m !! sid = Some e → name_of e = "" ∨ sandbox_name (name_of e) = Ok tt;
  to_unique s1 s2 e1 e2 : m !! s1 = Some e1 → m !! s2 = Some e2 →
    name_of e1 = name_of e2 → name_of e1 ≠ "" → s1 = s2;
}.

Lemma elem_of_order m sid e : (sid, e) ∈ order m ↔ m !! sid = Some e.
Proof. by rewrite order_spec, elem_of_map_to_list. Qed.

Lemma find_name_None n m : find_name order n m = None ↔ ∀ sid e, m !! sid = Some e → name_of e ≠ n.
Proof.
  unfold find_name. rewrite fmap_None, head_None. split.
  - intros Hnil sid e He <-.
    assert ((sid, e) ∈ filter (λ x, name_of x.2 = name_of e) (order m)) as Hin
      by (apply list_elem_of_filter; by rewrite elem_of_order).
    rewrite Hnil in Hin. by apply not_elem_of_nil in Hin.
  - intros Hno. destruct (filter _ _) as [|[sid e] l] eqn:Hf; [done|].
    assert ((sid, e) ∈ filter (λ x, name_of x.2 = n) (order m)) as [Hn Hin]%list_elem_of_filter
      by (rewrite Hf; by left).
    apply elem_of_order in Hin. by destruct (Hno sid e Hin).
Qed.

Lemma find_name_Some n m sid :
  find_name order n m = Some sid → ∃ e, m !! sid = Some e ∧ name_of e = n.
Proof.
  unfold find_name. destruct (filter _ _) as [|[sid' e] l] eqn:Hf; cbn; [done|]. intros [= ->].
  assert ((sid, e) ∈ filter (λ x, name_of x.2 = n) (order m)) as [Hn Hin]%list_elem_of_filter
    by (rewrite Hf; by left).
  exists e. by rewrite <- elem_of_order.
Qed.

Lemma find_name_unique n m sid e :
  table_ok m → n ≠ "" → m !! sid = Some e → name_of e = n → find_name order n m = Some sid.
Proof.
  intros Hm Hn He Hname. destruct (find_name order n m) as [sid'|] eqn:Hf.
  - apply find_name_Some in Hf as (e' & He' & Hname'). f_equal.
    eapply (to_unique _ Hm); eauto; congruence.
  - rewrite find_name_None in Hf. by destruct (Hf sid e He).
Qed.

(** The id of a sandbox resolves to itself. *)
Lemma resolve_id w sid :
  table_ok (entries w) → is_Some (entries w !! sid) → resolve order sid w = (Ok sid, w).
Proof.
  intros Hm [e He]. unfold resolve. pose proof (to_ids _ Hm _ _ He) as Hid.
  rewrite (id_is_reference _ _ Hid). cbn.
  assert (find_name order sid (entries w) = None) as ->.
  { apply find_name_None. intros s e' He' Hn. destruct (to_names _ Hm _ _ He') as [Hn'|Hok].
    - rewrite <- Hn, Hn' in Hid. by vm_compute in Hid.
    - rewrite Hn in Hok. apply (name_not_id_prefix _ _ _ Hok) in Hid.
      apply not_true_iff_false in Hid. apply Hid, starts_with_spec. exists "".
      by rewrite append_nil_r. }
  rewrite decide_True; [done|]. by exists e.
Qed.

(** The sandboxes whose id starts with the reference. *)
Lemma prefix_matches m r sid :
  sid ∈ sort_ids (filter (λ id, starts_with r id = true) (order m).*1) ↔
  is_Some (m !! sid) ∧ starts_with r sid = true.
Proof.
  unfold sort_ids. rewrite merge_sort_Permutation, list_elem_of_filter, list_elem_of_fmap.
  split.
  - intros (Hs & [s e] & -> & Hin%elem_of_order). eauto.
  - intros ([e He] & Hs). split; [done|]. exists (sid, e). by rewrite elem_of_order.
Qed.

Lemma prefix_matches_NoDup m r :
  NoDup (sort_ids (filter (λ id, starts_with r id = true) (order m).*1)).
Proof.
  unfold sort_ids. rewrite merge_sort_Permutation. apply NoDup_filter.
  rewrite order_spec. apply NoDup_fst_map_to_list.
Qed.

(** A reference resolves to at most one sandbox, the right one.  Resolving
    succeeds with [sid] exactly if the reference is well-formed, [sid] is in
    the table, and either it carries that name, or nobody does and it is that
    id, or else it is the only sandbox whose id starts with it.  The order in
    which the table is walked has no influence. *)
Theorem resolve_spec r w sid :
  table_ok (entries w) →
  resolve order r w = (Ok sid, w) ↔
  sandbox_reference r = Ok tt ∧
  ∃ e, entries w !! sid = Some e ∧
    (name_of e = r ∨
     (∀ s e', entries w !! s = Some e' → name_of e' ≠ r) ∧
     (sid = r ∨
      entries w !! r = None ∧ starts_with r sid = true ∧
      ∀ s, is_Some (entries w !! s) → starts_with r s = true → s = sid)).
Proof.
  intros Hm. unfold resolve. destruct (sandbox_reference r) as [[]|err] eqn:Hr; cbn; [|naive_solver].
  assert (r ≠ "") as Hne by (intros ->; by vm_compute in Hr).
  destruct (find_name order r (entries w)) as [s0|] eqn:Hf.
  { pose proof (find_name_Some _ _ _ Hf) as (e0 & He0 & Hn0). split.
    - intros [= ->]. split; [done|]. exists e0. auto.
    - intros (_ & e & He & [Hn|[Hno _]]); [|by destruct (Hno s0 e0 He0)].
      f_equal. f_equal. eapply (to_unique _ Hm); eauto; congruence. }
  rewrite find_name_None in Hf. case_decide as Hex.
  { split.
    - intros [= ->]. destruct Hex as [e He]. split; [done|]. exists e. auto.
    - intros (_ & e & He & [Hn|[_ [->|(Hnone & _)]]]); [by destruct (Hf sid e He)|done|].
      rewrite Hnone in Hex. by destruct Hex. }
  apply eq_None_not_Some in Hex.
  pose proof (prefix_matches (entries w) r) as Hmatch.
  pose proof (prefix_matches_NoDup (entries w) r) as Hnd.
  destruct (sort_ids _) as [|s1 [|s2 l]].
  - split; [done|]. intros (_ & e & He & [Hn|[_ [->|(_ & Hs & _)]]]);
      [by destruct (Hf sid e He)|congruence|].
    assert (sid ∈ ([] : list string)) as []%not_elem_of_nil by (apply Hmatch; eauto).
  - split.
    + intros [= ->]. assert (sid ∈ [sid]) as Hin by (by left).
      apply Hmatch in Hin as [[e He] Hs]. split; [done|]. exists e. split; [done|]. right.
      split; [done|]. right. split_and!; [done..|]. intros s Hsome Hpre.
      apply list_elem_of_singleton, Hmatch. done.
    + intros (_ & e & He & [Hn|[_ [->|(_ & Hs & _)]]]);
        [by destruct (Hf sid e He)|congruence|].
      assert (sid ∈ [s1]) as ->%list_elem_of_singleton by (apply Hmatch; eauto). done.
  - split; [done|]. intros (_ & e & He & [Hn|[_ [->|(_ & Hs & Hu)]]]);
      [by destruct (Hf sid e He)|congruence|].
    apply NoDup_cons in Hnd as [Hnd _]. destruct Hnd.
    assert (s1 ∈ s1 :: s2 :: l) as [H1 H1']%Hmatch by (by left).
    assert (s2 ∈ s1 :: s2 :: l) as [H2 H2']%Hmatch by (by right; left).
    rewrite (Hu s1 H1 H1'), (Hu s2 H2 H2'). by left.
Qed.
End resolve_props.

(** ** Authorization *)

Section authorize_props.
Context {E : Type} (order : gmap string SandboxEntry → list (string * SandboxEntry)).
Context (digest : string → list Z) (digest_octets : ∀ t, Forall octet (digest t)).
Implicit Types (w : World E).

(** Only the minted token opens a sandbox.  For a sandbox whose record
    holds the hash of the token [minted], a presented token is accepted
    exactly if it has the digest of [minted]; otherwise the answer is a
    refusal that names the sandbox, and in no case does anything change. *)
Theorem authorize_spec r token minted w sid e :
  resolve order r w = (Ok sid, w) → entries w !! sid = Some e →
  token_hash (meta e) = hash_token digest minted →
  authorize order digest r token w =
    (if decide (digest minted = digest token) then Ok tt
     else Err (PermissionDenied ("token does not match sandbox " +:+ sid)), w).
Proof.
  intros Hr He Hh. unfold authorize, sbind. rewrite Hr. unfold get_entry. rewrite He. cbn.
  rewrite Hh, token_hash_eq_digest by done.
  case_decide as Hd; [by rewrite bool_decide_eq_true_2|by rewrite bool_decide_eq_false_2].
Qed.
End authorize_props.

(** ** State changes *)

Section section_props.
Context {E : Type} (cfg : Config).
Implicit Types (w : World E).

(** Saves touch the disk and the queue of faults only. *)
Lemma persist_meta_frame m w r w' :
  persist_meta cfg m w = (r, w') →
  ∃ d f, w' = upd_faults (λ _, f) (upd_disk (λ _, d) w) ∧
    (d = disk w ∨ d = <[id m := m]> (disk w)) ∧
    (r = Ok tt → with_store cfg = true → d = <[id m := m]> (disk w)).
Proof.
  unfold persist_meta. destruct (with_store cfg); cbn.
  - destruct (head (faults w)) as [[[err []]|]|]; cbn; intros [= <- <-];
      match goal with |- ∃ d f, upd_disk ?g _ = _ ∧ _ => exists (g (disk w)) | _ => exists (disk w) end;
      exists (tail (faults w)); (split; [done|]); naive_solver.
  - intros [= <- <-]. exists (disk w), (faults w). split; [by destruct w|]. naive_solver.
Qed.

Lemma rearm_meta now t e : meta (rearm_exited_ttl cfg now t e) = meta e.
Proof. unfold rearm_exited_ttl. by repeat case_match. Qed.
Lemma rearm_listeners now t e : listeners (rearm_exited_ttl cfg now t e) = listeners e.
Proof. unfold rearm_exited_ttl. by repeat case_match. Qed.

Lemma stamp_times_options m s now : options (stamp_times m s now) = options m.
Proof. unfold stamp_times. by repeat case_match. Qed.
Lemma stamp_times_id m s now : id (stamp_times m s now) = id m.
Proof. unfold stamp_times. by repeat case_match. Qed.
Lemma stamp_times_manual m s now : manually_stopped (stamp_times m s now) = manually_stopped m.
Proof. unfold stamp_times. by repeat case_match. Qed.

(** A commit: the new record is on disk and in memory, or memory is as it
    was. *)
Lemma commit_meta_ended_spec sid e s code reason w r w' :
  commit_meta_ended cfg sid e s code reason w = (r, w') →
  let next := next_meta (meta e) s code reason (clock w) in
  ∃ d f, (d = disk w ∨ d = <[id next := next]> (disk w)) ∧
    match r with
    | Ok _ =>
        (with_store cfg = true → d = <[id next := next]> (disk w)) ∧
        w' = upd_entries <[sid := rearm_exited_ttl cfg (clock w) (clock w) (set_meta next e)]>
               (upd_faults (λ _, f) (upd_disk (λ _, d) w))
    | Err _ => w' = upd_faults (λ _, f) (upd_disk (λ _, d) w)
    end.
Proof.
  intros Hc next. unfold commit_meta_ended, sbind in Hc.
  destruct (persist_meta cfg _ w) as [[[]|err] w1] eqn:Hp;
    apply persist_meta_frame in Hp as (d & f & -> & Hd & Hok); cbn in Hc; injection Hc as <- <-.
  - exists d, f. auto.
  - exists d, f. auto.
Qed.

(** Everything but the table of sandboxes and the disk. *)
Definition frame (w w' : World E) : Prop :=
  permits w' = permits w ∧ pending_names w' = pending_names w ∧ broker w' = broker w ∧
  mains w' = mains w ∧ processes w' = processes w ∧ events w' = events w ∧
  restarts w' = restarts w ∧ restart_delays w' = restart_delays w ∧
  active_gauge w' = active_gauge w ∧ env w' = env w ∧ clock w' = clock w.

(** The entry a committed change leaves: only the record, and with it the
    exited-TTL timer, is new. *)
Record committed (w w' : World E) (sid : string) (e : SandboxEntry) (next : SandboxMeta) : Prop := {
  co_entry : ∃ e', entries w' = <[sid := e']> (entries w) ∧ meta e' = next ∧
    listeners e' = listeners e ∧
    (ttl_handle e' = None ∨ has_ended (status next) = true);
  co_frame : frame w w';
  co_disk : with_store cfg = true → disk w' = <[id next := next]> (disk w);
}.

Lemma commit_meta_ended_cases sid e s code reason w r w' :
  commit_meta_ended cfg sid e s code reason w = (r, w') →
  match r with
  | Ok _ => committed w w' sid e (next_meta (meta e) s code reason (clock w))
  | Err _ => entries w' = entries w ∧ frame w w'
  end.
Proof.
  intros Hc. apply commit_meta_ended_spec in Hc as (d & f & Hd & Hcase). destruct r as [[]|err].
  - destruct Hcase as [Hok ->]. split; [|done|done].
    eexists. split; [done|]. rewrite rearm_meta, rearm_listeners. split_and!; try done.
    unfold rearm_exited_ttl. cbn. destruct (has_ended s) eqn:Hs; [by right|left; reflexivity].
  - rewrite Hcase. done.
Qed.

Lemma commit_manual_cases sid e manual s code w r w' :
  entries w !! sid = Some e →
  commit_manual cfg sid e manual s code w = (r, w') →
  match r with
  | Ok _ => committed w w' sid e (next_meta (set_manual manual (meta e)) s code
      (match s with Creating => None | _ => end_reason (meta e) end) (clock w))
  | Err _ => entries w' = entries w ∧ frame w w'
  end.
Proof.
  intros He. unfold commit_manual, commit_meta.
  destruct (commit_meta_ended cfg sid _ s code _ w) as [[[]|err] w1] eqn:Hc;
    apply commit_meta_ended_cases in Hc; intros [= <- <-]; [by destruct Hc|].
  destruct Hc as [Hent Hf]. cbn. rewrite Hent, insert_id by done. done.
Qed.

(** Stopping begins only from a state that can be stopped.  An unknown
    sandbox and one that is being created, stopping or failed are refused
    with nothing changed; a stopped one needs nothing; a running or exited
    one moves to [Stopping], marked as stopped by hand, with its exit code,
    options and ports kept and no TTL timer left, on disk as in memory; and if
    the record cannot be saved, the table is as before. *)
Theorem begin_stop_spec sid w r w' :
  begin_stop cfg sid w = (r, w') →
  match entries w !! sid with
  | None => r = Err (SandboxNotFound sid) ∧ w' = w
  | Some e =>
      match status (meta e) with
      | Stopped => r = Ok None ∧ w' = w
      | Running | Exited =>
          (r = Ok (Some (status (meta e), meta e)) ∧
           (∃ e', entries w' = <[sid := e']> (entries w) ∧ status (meta e') = Stopping ∧
             manually_stopped (meta e') = true ∧ exit_code (meta e') = exit_code (meta e) ∧
             options (meta e') = options (meta e) ∧ listeners e' = listeners e ∧
             ttl_handle e' = None ∧
             (with_store cfg = true → disk w' !! id (meta e) = Some (meta e')))) ∨
          ((∃ err, r = Err err) ∧ entries w' = entries w)
      | other => r = Err (wrong_state sid other "stop") ∧ w' = w
      end
  end.
Proof.
  unfold begin_stop, sbind, get_entry. destruct (entries w !! sid) as [e|] eqn:He; cbn;
    [|by intros [= <- <-]].
  assert (∀ before, (commit_manual cfg sid e true Stopping (exit_code (meta e)) ;!
      sret (Some (before, meta e))) w = (r, w') →
    (r = Ok (Some (before, meta e)) ∧
     (∃ e', entries w' = <[sid := e']> (entries w) ∧ status (meta e') = Stopping ∧
       manually_stopped (meta e') = true ∧ exit_code (meta e') = exit_code (meta e) ∧
       options (meta e') = options (meta e) ∧ listeners e' = listeners e ∧
       ttl_handle e' = None ∧
       (with_store cfg = true → disk w' !! id (meta e) = Some (meta e')))) ∨
    ((∃ err, r = Err err) ∧ entries w' = entries w)) as Hcommit.
  { intros before. unfold sbind.
    destruct (commit_manual _ _ _ _ _ _ w) as [[[]|err] w1] eqn:Hc;
      apply commit_manual_cases in Hc; try done; intros [= <- <-]; [left|right; naive_solver].
    destruct Hc as [(e' & Hent & Hm & Hl & Httl) _ Hdisk]. split; [done|]. exists e'.
    rewrite Hm. cbn. split_and!; try done; [by destruct Httl|].
    intros Hs. rewrite Hdisk by done. apply lookup_insert_eq. }
  destruct (status (meta e)); try (by intros [= <- <-]); apply Hcommit.
Qed.

(** Starting begins only from a state that can be started.  A running
    sandbox needs nothing, one that is being created or stopping is refused
    with nothing changed; a stopped, exited or failed one moves to
    [Creating] with its exit code and end reason cleared, no longer marked as
    stopped by hand and without a TTL timer, on disk as in memory, and yields
    its recorded communication policy; a failed save leaves the table as
    before. *)
Theorem begin_start_spec sid w r w' :
  begin_start cfg sid w = (r, w') →
  match entries w !! sid with
  | None => r = Err (SandboxNotFound sid) ∧ w' = w
  | Some e =>
      match status (meta e) with
      | Running => r = Ok None ∧ w' = w
      | Stopped | Exited | Failed =>
          (r = Ok (Some (comms (options (meta e)))) ∧
           (∃ e', entries w' = <[sid := e']> (entries w) ∧ status (meta e') = Creating ∧
             manually_stopped (meta e') = false ∧ exit_code (meta e') = None ∧
             end_reason (meta e') = None ∧ options (meta e') = options (meta e) ∧
             ttl_handle e' = None ∧
             (with_store cfg = true → disk w' !! id (meta e) = Some (meta e')))) ∨
          ((∃ err, r = Err err) ∧ entries w' = entries w)
      | other => r = Err (wrong_state sid other "start") ∧ w' = w
      end
  end.
Proof.
  unfold begin_start, sbind, get_entry. destruct (entries w !! sid) as [e|] eqn:He; cbn;
    [|by intros [= <- <-]].
  assert ((commit_manual cfg sid e false Creating None ;!
      sret (Some (comms (options (meta e))))) w = (r, w') →
    (r = Ok (Some (comms (options (meta e)))) ∧
     (∃ e', entries w' = <[sid := e']> (entries w) ∧ status (meta e') = Creating ∧
       manually_stopped (meta e') = false ∧ exit_code (meta e') = None ∧
       end_reason (meta e') = None ∧ options (meta e') = options (meta e) ∧
       ttl_handle e' = None ∧
       (with_store cfg = true → disk w' !! id (meta e) = Some (meta e')))) ∨
    ((∃ err, r = Err err) ∧ entries w' = entries w)) as Hcommit.
  { unfold sbind.
    destruct (commit_manual _ _ _ _ _ _ w) as [[[]|err] w1] eqn:Hc;
      apply commit_manual_cases in Hc; try done; intros [= <- <-]; [left|right; naive_solver].
    destruct Hc as [(e' & Hent & Hm & Hl & Httl) _ Hdisk]. split; [done|]. exists e'.
    rewrite Hm. cbn. split_and!; try done; [by destruct Httl|].
    intros Hs. rewrite Hdisk by done. apply lookup_insert_eq. }
  destruct (status (meta e)); try (by intros [= <- <-]); apply Hcommit.
Qed.

(** Restarts are counted and limited.  A claimed restart belongs to the run
    it was asked for, of a sandbox that is exited, was not stopped by hand
    and holds no secrets; it raises the saved count by one, and an
    [on-failure] policy with a limit is never exceeded; a refused claim leaves
    the table alone. *)
Theorem claim_restart_limited req w b w' :
  claim_restart cfg req w = (b, w') →
  if b then
    ∃ e e', entries w !! req_id req = Some e ∧
      entries w' = <[req_id req := e']> (entries w) ∧
      status (meta e) = Exited ∧ manually_stopped (meta e) = false ∧
      had_secrets (meta e) = false ∧ finished_at (meta e) = req_finished_at req ∧
      (in_u32 (restart_count (meta e)) → (restart_count (meta e) < 2 ^ 32 - 1)%Z →
        restart_count (meta e') = (restart_count (meta e) + 1)%Z) ∧
      (kind (restart (spec_of e)) = OnFailure → (0 < max_retries (restart (spec_of e)))%Z →
       (restart_count (meta e) < max_retries (restart (spec_of e)))%Z) ∧
      (with_store cfg = true → disk w' !! id (meta e) = Some (meta e'))
  else entries w' = entries w.
Proof.
  unfold claim_restart. destruct (entries w !! req_id req) as [e|] eqn:He;
    [|by intros [= <- <-]].
  destruct (negb _ || negb _) eqn:Hcond; [by intros [= <- <-]|].
  apply orb_false_iff in Hcond as [Hcur%negb_false_iff Hwant%negb_false_iff].
  repeat match goal with
  | H : (_ && _) = true |- _ => apply andb_true_iff in H as [? ?]
  | H : bool_decide _ = true |- _ => apply bool_decide_eq_true in H
  | H : negb _ = true |- _ => apply negb_true_iff in H
  end.
  destruct (persist_meta cfg _ w) as [[[]|err] w1] eqn:Hp; intros [= <- <-];
    apply persist_meta_frame in Hp as (d & f & -> & Hd & Hok); [|done].
  exists e. eexists. split_and!; try done.
  - cbn. intros Hu Hlt. unfold in_u32 in Hu. apply Z.mod_small. lia.
  - intros Hk Hmax. unfold wants_restart in Hwant. fold (spec_of e) in Hwant. rewrite Hk in Hwant.
    apply andb_true_iff in Hwant as [_ [Hz|Hlt]%orb_true_iff]; lia.
  - intros Hs. cbn. rewrite Hok by done. apply lookup_insert_eq.
Qed.
End section_props.

#[export] Hint Rewrite stamp_times_options stamp_times_id stamp_times_manual : stamp.

(** ** Extending an allowlist *)

Lemma new_domains_spec have want :
  NoDup (new_domains have want) ∧
  (∀ d, d ∈ new_domains have want ↔ d ∈ want ∧ d ∉ have).
Proof.
  unfold new_domains. induction want as [|x want IH] using rev_ind; cbn.
  { split; [constructor|]. set_solver. }
  rewrite foldl_snoc. destruct IH as [Hnd Hin]. case_decide as Hx.
  - split; [done|]. intros d. rewrite Hin. destruct Hx as [Hx|Hx%Hin]; set_solver.
  - apply Decidable.not_or in Hx as [Hx1 Hx2]. split.
    + apply NoDup_app. split_and!; [done| |apply NoDup_singleton].
      by intros d Hd ->%list_elem_of_singleton.
    + intros d. rewrite !elem_of_app, Hin, !list_elem_of_singleton. set_solver.
Qed.

Section egress_allow_props.
Context {E : Type} (cfg : Config).
Context (order : gmap string SandboxEntry → list (string * SandboxEntry)).
Context (push : string → list string → E → result unit BackendError * E).
Implicit Types (w : World E).

(** Allowlists grow only by valid, new domains and stay bounded.  Whatever
    the outcome of adding domains, either the table is unchanged, or exactly
    one sandbox in allowlist mode has its recorded domains extended at the
    end by the requested ones it lacked, each a valid pattern, none twice,
    and at most 256 in all.  If the call succeeds in allowlist mode, every
    requested domain is recorded, and on disk too. *)
Theorem add_egress_allow_spec r doms w res w' :
  add_egress_allow cfg order push r doms w = (res, w') →
  (entries w' = entries w ∨
   ∃ sid e e', entries w !! sid = Some e ∧ entries w' = <[sid := e']> (entries w) ∧
     let old := egress (options (meta e)) in
     let new := egress (options (meta e')) in
     egress_mode old = EgressAllowlist ∧ egress_mode new = EgressAllowlist ∧
     domains new = domains old ++ new_domains (domains old) doms ∧
     (length (domains new) ≤ 256)%nat ∧
     (NoDup (domains old) → NoDup (domains new)) ∧
     Forall (λ d, egress_domain d = Ok tt) (new_domains (domains old) doms)) ∧
  (∀ added, res = Ok added → ∃ sid e e', entries w !! sid = Some e ∧ entries w' !! sid = Some e' ∧
     (egress_mode (egress (options (meta e))) = EgressOpen ∧ added = [] ∨
      egress_mode (egress (options (meta e))) = EgressAllowlist ∧
      ∀ d, d ∈ doms → d ∈ domains (egress (options (meta e'))))).
Proof.
  unfold add_egress_allow, sbind, lift.
  destruct (egress_domains doms) as [[]|err] eqn:Hdoms; [|intros [= <- <-]; split; [by left|done]].
  assert (∀ r', ∃ x, resolve order r' w = (x, w)) as Hres by (intros; by eexists).
  destruct (Hres r) as [x Hx]. rewrite Hx. destruct x as [sid|err]; [|intros [= <- <-]; split; [by left|done]].
  unfold get_entry. destruct (entries w !! sid) as [e|] eqn:He; cbn [ok_or];
    [|intros [= <- <-]; split; [by left|done]].
  set (old := egress (options (meta e))).
  destruct (egress_mode old) eqn:Hmode.
  { intros [= <- <-]. split; [by left|done]. }
  2: { intros [= <- <-]. split; [by left|]. intros added [= <-]. exists sid, e, e. auto. }
  destruct (new_domains_spec (domains old) doms) as [Hnd Hin].
  case_decide as Hempty.
  { intros [= <- <-]. split; [by left|]. intros added [= <-]. exists sid, e, e. split_and!; [done..|].
    right. split; [done|]. intros d Hd. destruct (decide (d ∈ domains old)); [done|].
    assert (d ∈ new_domains (domains old) doms) as Hd' by (by apply Hin).
    rewrite Hempty in Hd'. by apply not_elem_of_nil in Hd'. }
  destruct (_ >? _)%Z eqn:Hbig; [intros [= <- <-]; split; [by left|done]|].
  apply gtb_false in Hbig. unfold MAX_EGRESS_DOMAINS in Hbig.
  set (next := set_options _ _).
  destruct (persist_meta cfg next w) as [[[]|err] w1] eqn:Hp;
    apply persist_meta_frame in Hp as (dk & f & -> & _ & _); [|intros [= <- <-]; split; [by left|done]].
  cbn -[next]. destruct (push sid _ _) as [pr env'].
  assert (Forall (λ d, egress_domain d = Ok tt) (new_domains (domains old) doms)) as Hvalid.
  { unfold egress_domains in Hdoms. apply reject_if_then in Hdoms as [_ Hdoms].
    apply reject_if_then in Hdoms as [_ Hdoms]. apply try_for_each_Ok in Hdoms.
    rewrite Forall_forall in *. intros d [Hd _]%Hin. by apply Hdoms. }
  assert (entries w !! sid = Some e ∧
     let new := egress (options next) in
     egress_mode old = EgressAllowlist ∧ egress_mode new = EgressAllowlist ∧
     domains new = domains old ++ new_domains (domains old) doms ∧
     (length (domains new) ≤ 256)%nat ∧
     (NoDup (domains old) → NoDup (domains new)) ∧
     Forall (λ d, egress_domain d = Ok tt) (new_domains (domains old) doms)) as [_ Hnew].
  { split; [done|]. cbn. split_and!; try done.
    - rewrite length_app. lia.
    - intros. apply NoDup_app. split_and!; [done| |done]. intros d ? [_ ?]%Hin. done. }
  destruct pr as [[]|be]; cbn -[next]; intros [= <- <-]; cbn -[next].
  - split; [right; by exists sid, e, (set_meta next e)|]. intros added [= <-].
    exists sid, e, (set_meta next e). rewrite lookup_insert_eq. split_and!; [done..|]. right.
    split; [done|]. cbn. intros d Hd. apply elem_of_app. rewrite Hin.
    destruct (decide (d ∈ domains old)); auto.
  - split; [right; by exists sid, e, (set_meta next e)|done].
Qed.
End egress_allow_props.

(** ** Witnesses *)

Definition demo_config : Config :=
  mkConfig 4 false true true None (mkDefaults 1 512 0) (10 * NANOS_PER_SEC).
Definition demo_digest (t : string) : list Z := [(Z.of_nat (str_len t) mod 256)%Z].
Definition demo_spec (n : string) (policy : RestartPolicy) : SandboxSpec :=
  mkSpec n ["sleep"] 0 "" "" false false [] "" ∅ "" "" None policy guest_default.
Definition demo_entry (sid : string) (s : SandboxStatus) : SandboxEntry :=
  mkEntry (proxy_new sid egress_default) None None
    (mkMeta sid
       (mkOpts "alpine" [] [] (mkEgress EgressAllowlist ["a.example"]) limits_default ∅ None
          (mkComms CommGroup (Some "team")) (demo_spec "web" (mkRestart OnFailure 3)))
       0 s None (Some 1%Z) (Some 2%Z) None (hash_token demo_digest "key") false 1 false)
    [] None.
Definition demo_world {E : Type} (en : E) (s : SandboxStatus) : World E :=
  mkWorld {["a1" := demo_entry "a1" s]} 3 ∅ {["a1" := meta (demo_entry "a1" s)]} []
    (register_state "a1" (mkComms CommGroup (Some "team")) broker_default)
    {["a1" := mkMain "7" true None false]} {["p" := mkProcess "a1" 0 None]} [] [] ∅ 1 en 100.

Lemma demo_table_ok en s : table_ok (entries (demo_world (E:=unit) en s)).
Proof.
  split; cbn.
  - by intros sid e [<- <-]%lookup_singleton_Some.
  - intros sid e [<- <-]%lookup_singleton_Some. by right.
  - by intros s1 s2 e1 e2 [<- <-]%lookup_singleton_Some [<- <-]%lookup_singleton_Some.
Qed.

Lemma resolve_spec_witness :
  resolve map_to_list "web" (demo_world tt Running) = (Ok "a1", demo_world tt Running).
Proof.
  apply (resolve_spec map_to_list (λ _, reflexivity _) "web" (demo_world tt Running) "a1").
  - apply demo_table_ok.
  - split; [reflexivity|]. exists (demo_entry "a1" Running). split; [reflexivity|]. by left.
Defined.

Lemma authorize_spec_witness :
  authorize map_to_list demo_digest "a1" "other" (demo_world tt Running) =
    (Err (PermissionDenied "token does not match sandbox a1"), demo_world tt Running).
Proof.
  refine (authorize_spec map_to_list demo_digest _ "a1" "other" "key" (demo_world tt Running)
    "a1" (demo_entry "a1" Running) _ _ _); [|reflexivity..].
  intros t. apply Forall_singleton. unfold octet. apply Z.mod_pos_bound. lia.
Defined.

Lemma begin_stop_spec_witness :
  (begin_stop demo_config "a1" (demo_world tt Creating)).1 =
    Err (InvalidRequest "sandbox a1 is creating, cannot stop").
Proof.
  exact (proj1 (begin_stop_spec demo_config "a1" (demo_world tt Creating) _ _ eq_refl)).
Defined.

Lemma begin_start_spec_witness :
  (begin_start demo_config "a1" (demo_world tt Running)).1 = Ok None.
Proof.
  exact (proj1 (begin_start_spec demo_config "a1" (demo_world tt Running) _ _ eq_refl)).
Defined.

Lemma claim_restart_limited_witness :
  (claim_restart demo_config (mkRequest "a1" 1 1 (Some 2%Z)) (demo_world tt Exited)).1 = true ∧
  (restart_count (meta (demo_entry "a1" Exited)) < max_retries (mkRestart OnFailure 3))%Z.
Proof.
  split; [reflexivity|].
  destruct (claim_restart_limited demo_config (mkRequest "a1" 1 1 (Some 2%Z))
    (demo_world tt Exited) true _ eq_refl) as (e & e' & He & _ & _ & _ & _ & _ & _ & Hmax & _).
  injection He as <-. apply Hmax; reflexivity.
Defined.

Lemma add_egress_allow_spec_witness :
  ∃ sid e e', entries (demo_world tt Running) !! sid = Some e ∧
    entries (add_egress_allow demo_config map_to_list (λ _ _ en, (Ok tt, en)) "web"
      ["b.example"] (demo_world tt Running)).2 !! sid = Some e'.
Proof.
  destruct (add_egress_allow_spec demo_config map_to_list (λ _ _ en, (Ok tt, en)) "web"
    ["b.example"] (demo_world tt Running) _ _ (surjective_pairing _)) as [_ H].
  destruct (H ["b.example"] ltac:(vm_compute; reflexivity)) as (sid & e & e' & ? & ? & _). by exists sid, e, e'.
Defined.
