(* ===== verification/Relay.v ===== *)
(** * Relay: a guest's tar on its way to a client

    Models [ward-core/src/sandbox/copy.rs]: [HoldBack], the reader that hands
    the guest's chunks to the checker and forwards to the client only what the
    checker has passed, the check of what follows the archive, and the mapping
    of failures to API errors.  The checker ([Archive.validate_with_progress]
    over the tar crate) is a tree of the reads it makes and the offsets it
    reports: every theorem holds for every such tree. *)

From stdpp Require Import base list numbers option strings pretty sets.
From Stdlib Require Import ZArith Lia.
From S2P Require Import Prelude Text Protocol Archive Manager.

Local Open Scope Z_scope.

Definition TRAILER_LIMIT_BYTES : nat := 16 * BLOCK_SIZE.

(** ** Errors *)

Record GuestTarget := mkGuestTarget { target_container : string; target_path : string }.

Definition missing (t : GuestTarget) : ApiError :=
  PathNotFound ("Could not find the file " +:+ target_path t +:+ " in container " +:+ target_container t).

Definition backend_failure (t : GuestTarget) (e : BackendError) : ApiError :=
  match e with
  | BNotFound id => SandboxNotFound id
  | BPathNotFound _ => missing t
  | BInvalidArgument detail => InvalidRequest detail
  | BExec detail => GuestIo detail
  | other => BackendErr (backend_error_text other)
  end.

(** The [Display] of an [ArchiveError]. *)
Definition archive_error_text (e : ArchiveError) : string :=
  match e with
  | UnsafePath p => "archive entry has an unsafe path: " +:+ p
  | UnsafeLink p => "archive entry has a link target outside the root: " +:+ p
  | ForbiddenType p => "archive entry type is not allowed by the copy policy: " +:+ p
  | SetIdMode p => "archive entry sets the setuid or setgid bit: " +:+ p
  | ForbiddenHeader what => "archive header is not allowed: " +:+ what
  | LimitExceeded what l => "archive passes the " +:+ what +:+ " limit of " +:+ pretty l
  | Unpack p source => "cannot unpack archive entry " +:+ p +:+ ": " +:+ io_text source
  | ArchiveIo e => "archive io error: " +:+ io_text e
  end.

Definition relay_failure (t : GuestTarget) (e : ArchiveError) : ApiError :=
  match e with
  | ArchiveIo io =>
      match io_kind io with
      | IoNotFound => missing t
      | IoInvalidInput => InvalidRequest (io_text io)
      | IoOther => GuestIo (io_text io)
      | _ => BackendErr ("copy from sandbox: " +:+ io_text io)
      end
  | refused => InvalidRequest ("cannot copy from the sandbox: " +:+ archive_error_text refused)
  end.

(** ** The reader that holds back *)

(** What the next wait for the guest ends with; the end of the list is the end
    of the stream. *)
Inductive Arrival :=
| Chunk (bytes : list Z)
| ChunkError (e : IoError)
| Idle
| ClientGone.

(** [client] is the number of sends the client still takes before it leaves;
    [sent] are the chunks it has been sent. *)
Record HoldBack := mkHoldBack {
  source : list Arrival;
  client : nat;
  sent : list (list Z);
  hb_passed : Z;
  held : list Z;
  cursor : nat;
  forwarded : Z;
}.
Definition hold_back_new (src : list Arrival) (client : nat) : HoldBack :=
  mkHoldBack src client [] 0 [] 0 0.

Definition gone : IoError := mkIo IoBrokenPipe "client went away".
(** [{:?}] of the deadline of 30 seconds. *)
Definition idle_error : IoError := mkIo IoTimedOut "guest sent nothing for 30s".

Definition set_cursor (n : nat) (h : HoldBack) : HoldBack :=
  mkHoldBack (source h) (client h) (sent h) (hb_passed h) (held h) n (forwarded h).
Definition set_passed (p : Z) (h : HoldBack) : HoldBack :=
  mkHoldBack (source h) (client h) (sent h) p (held h) (cursor h) (forwarded h).

Definition forward (len : nat) (h : HoldBack) : result unit IoError * HoldBack :=
  if decide (len = 0%nat) then (Ok tt, h) else
  let chunk := take len (held h) in
  let h' := λ client sent, mkHoldBack (source h) client sent (hb_passed h) (drop len (held h))
    (cursor h - len) (forwarded h + Z.of_nat len) in
  match client h with
  | O => (Err gone, h' O (sent h))
  | S n => (Ok tt, h' n (sent h ++ [chunk]))
  end.

Definition forward_passed (h : HoldBack) : result unit IoError * HoldBack :=
  let read := forwarded h + Z.of_nat (cursor h) in
  let upto := Z.min (hb_passed h) read in
  forward (Z.to_nat (Z.max 0 (upto - forwarded h))) h.

(** [receive], with the rest of the source. *)
Definition receive (h : HoldBack) : result bool IoError * HoldBack :=
  let h' := λ src held, mkHoldBack src (client h) (sent h) (hb_passed h) held (cursor h) (forwarded h) in
  match source h with
  | [] => (Ok false, h)
  | Chunk b :: src => (Ok true, h' src (held h ++ b))
  | ChunkError e :: src => (Err e, h' src (held h))
  | Idle :: src => (Err idle_error, h' src (held h))
  | ClientGone :: src => (Err gone, h' src (held h))
  end.

(** The loop of [read]: every turn but the last takes one arrival. *)
Fixpoint read_loop (fuel : nat) (h : HoldBack) : result unit IoError * HoldBack :=
  if decide (cursor h = length (held h)) then
    match forward_passed h with
    | (Err e, h) => (Err e, h)
    | (Ok _, h) =>
        match receive h with
        | (Err e, h) => (Err e, h)
        | (Ok false, h) => (Ok tt, h)
        | (Ok true, h) => match fuel with O => (Ok tt, h) | S fuel => read_loop fuel h end
        end
    end
  else (Ok tt, h).

Definition hold_back_read (len : nat) (h : HoldBack) : result (list Z) IoError * HoldBack :=
  match read_loop (length (source h)) h with
  | (Err e, h) => (Err e, h)
  | (Ok _, h) =>
      let n := Nat.min len (length (held h) - cursor h) in
      (Ok (take n (drop (cursor h) (held h))), set_cursor (cursor h + n) h)
  end.

(** [finish]. *)
Fixpoint finish_loop (fuel : nat) (trailing : nat) (h : HoldBack) : result unit ArchiveError * HoldBack :=
  let rest := drop (cursor h) (held h) in
  if existsb (λ b, negb (b =? 0)) rest then
    (Err (ForbiddenHeader "data follows the end of the archive"), h)
  else
    let trailing := (trailing + length rest)%nat in
    if (TRAILER_LIMIT_BYTES <? trailing)%nat then
      (Err (LimitExceeded "trailing bytes" (Z.of_nat TRAILER_LIMIT_BYTES)), h)
    else
      let h := set_cursor (length (held h)) h in
      match receive h with
      | (Err e, h) => (Err (ArchiveIo e), h)
      | (Ok false, h) =>
          let (r, h) := forward (length (held h)) h in (map_err ArchiveIo r, h)
      | (Ok true, h) => match fuel with O => (Ok tt, h) | S fuel => finish_loop fuel trailing h end
      end.
Definition finish (h : HoldBack) : result unit ArchiveError * HoldBack :=
  finish_loop (length (source h)) 0 h.

(** ** The checker and the relay *)

Inductive Checker :=
| Done (r : result unit ArchiveError)
| Passed (offset : Z) (k : Checker)
| ReadInto (len : nat) (k : result (list Z) IoError → Checker).

Fixpoint run_checker (c : Checker) (h : HoldBack) : result unit ArchiveError * HoldBack :=
  match c with
  | Done r => (r, h)
  | Passed offset k => run_checker k (set_passed offset h)
  | ReadInto len k => let (r, h) := hold_back_read len h in run_checker (k r) h
  end.

(** The body of the task [relay_within] spawns. *)
Definition relay (c : Checker) (h : HoldBack) : result unit ArchiveError * HoldBack :=
  match run_checker c h with
  | (Err e, h) => (Err e, h)
  | (Ok _, h) => finish h
  end.

(** What the client reads: chunks, then the failure if there is one (and the
    client is still there). *)
Definition relayed (t : GuestTarget) (c : Checker) (src : list Arrival) (client : nat)
    : list (result (list Z) ApiError) :=
  let (r, h) := relay c (hold_back_new src client) in
  (Ok <$> sent h) ++
  match r with
  | Err e => match Relay.client h with O => [] | S _ => [Err (relay_failure t e)] end
  | Ok _ => []
  end.

(** ** What reaches the client *)

(** The bytes of the guest's chunks. *)
Definition stream (src : list Arrival) : list Z :=
  concat (omap (λ a, match a with Chunk b => Some b | _ => None end) src).

(** What the checker is given and what it reports, in order. *)
Fixpoint checker_log (c : Checker) (h : HoldBack) : list (result (list Z) IoError) * list Z :=
  match c with
  | Done _ => ([], [])
  | Passed offset k => let (reads, offsets) := checker_log k (set_passed offset h) in
      (reads, offset :: offsets)
  | ReadInto len k =>
      let (r, h) := hold_back_read len h in
      let (reads, offsets) := checker_log (k r) h in (r :: reads, offsets)
  end.
Definition bytes_read (reads : list (result (list Z) IoError)) : list Z :=
  concat (omap (λ r, match r with Ok b => Some b | Err _ => None end) reads).
Definition highest (offsets : list Z) : Z := foldr Z.max 0 offsets.

(** [flushed] are the bytes that left [held], of which the client was sent all,
    or a prefix when it went away; [given] is what the checker has read, and no
    byte past [bound] has left. *)
Record HeldWith (src : list Arrival) (bound : Z) (given : list Z) (lost : bool)
    (used : list Arrival) (flushed : list Z) (h : HoldBack) : Prop := mkHeldWith {
  held_source : src = used ++ source h;
  held_stream : stream used = flushed ++ held h;
  held_forwarded : forwarded h = Z.of_nat (length flushed);
  held_cursor : (cursor h ≤ length (held h))%nat;
  held_given : given = flushed ++ take (cursor h) (held h);
  held_passed : hb_passed h ≤ bound;
  held_bound : Z.of_nat (length flushed) ≤ bound;
  held_sent : concat (sent h) `prefix_of` flushed;
  held_all : lost = false → concat (sent h) = flushed;
  held_lost : lost = true → client h = 0%nat;
}.
Definition Held src bound given lost h : Prop :=
  ∃ used flushed, HeldWith src bound given lost used flushed h.

Lemma stream_app a b : stream (a ++ b) = stream a ++ stream b.
Proof. unfold stream. by rewrite omap_app, concat_app. Qed.

Lemma held_new src n : Held src 0 [] false (hold_back_new src n).
Proof. exists [], []. by constructor. Qed.

Lemma held_prefix src bound given lost h :
  Held src bound given lost h → given `prefix_of` stream src ∧ concat (sent h) `prefix_of` stream src.
Proof.
  intros (used & flushed & [-> Hs _ _ -> _ _ Hsent _ _]). rewrite stream_app, Hs.
  assert (flushed `prefix_of` (flushed ++ held h) ++ stream (source h)) as Hpre
    by (rewrite <- app_assoc; by apply prefix_app_r).
  split; [|by etrans].
  rewrite <- (take_drop (cursor h) (held h)) at 2. rewrite app_assoc, <- app_assoc. by apply prefix_app_r.
Qed.

Lemma held_weaken src bound bound' given lost h :
  bound ≤ bound' → Held src bound given lost h → Held src bound' given lost h.
Proof. intros Hle (used & flushed & []). exists used, flushed. constructor; try done; lia. Qed.

(** Forwarding what the checker has read. *)
Lemma forward_held src bound given lost len h r h' :
  Held src bound given lost h → (len ≤ cursor h)%nat → forwarded h + Z.of_nat len ≤ bound →
  forward len h = (r, h') →
  source h' = source h ∧ hb_passed h' = hb_passed h ∧
  length (held h') = (length (held h) - len)%nat ∧ cursor h' = (cursor h - len)%nat ∧
  match r with
  | Ok _ => Held src bound given lost h'
  | Err e => e = gone ∧ Held src bound given true h'
  end.
Proof.
  intros (used & flushed & [Hsrc Hs Hf Hc Hg Hp Hb Hsent Hall Hlost]) Hlen Hbound H.
  unfold forward in H. destruct (decide (len = 0%nat)) as [->|Hpos].
  { injection H as <- <-. split_and!; try done; try lia. exists used, flushed. by constructor. }
  assert (Hflush : (flushed ++ take len (held h)) ++ drop len (held h) = flushed ++ held h)
    by (by rewrite <- app_assoc, take_drop).
  assert (Hgiven : given = (flushed ++ take len (held h)) ++
      take (cursor h - len) (drop len (held h))).
  { rewrite <- app_assoc, take_take_drop, Hg. do 2 f_equal. lia. }
  assert (Hl : length (flushed ++ take len (held h)) = (length flushed + len)%nat)
    by (rewrite length_app, length_take; lia).
  destruct (client h) as [|n] eqn:Ecl; injection H as <- <-;
    cbn [source hb_passed held cursor]; split_and!; try done; try (by rewrite length_drop);
    exists used, (flushed ++ take len (held h)); constructor;
    cbn [source hb_passed held cursor forwarded client sent];
    rewrite ?Hflush, ?Hl, ?length_drop, ?concat_app; try done; try lia.
  - by apply prefix_app_r.
  - cbn [concat]. rewrite app_nil_r. destruct lost; [by specialize (Hlost eq_refl)|].
    by rewrite (Hall eq_refl).
  - intros ->. cbn [concat]. by rewrite app_nil_r, (Hall eq_refl).
  - intros ->. by specialize (Hlost eq_refl).
Qed.

Lemma forward_passed_held src bound given lost h r h' :
  Held src bound given lost h → forward_passed h = (r, h') →
  source h' = source h ∧
  (length (held h') - cursor h' = length (held h) - cursor h)%nat ∧
  match r with
  | Ok _ => Held src bound given lost h'
  | Err e => e = gone ∧ Held src bound given true h'
  end.
Proof.
  intros HH H. pose proof HH as (used & flushed & [Hsrc Hs Hf Hc Hg Hp Hb Hsent Hall Hlost]).
  unfold forward_passed in H.
  eapply forward_held in H as (-> & _ & -> & -> & Hr); [|done|lia|lia]. split_and!; try done. lia.
Qed.

Lemma receive_held src bound given lost h r h' :
  Held src bound given lost h → receive h = (r, h') →
  Held src bound given lost h' ∧ cursor h' = cursor h ∧
  (r = Ok true → length (source h) = S (length (source h'))) ∧
  (r = Ok false → h' = h ∧ source h = []).
Proof.
  intros HH H. pose proof HH as (used & flushed & [Hsrc Hs Hf Hc Hg Hp Hb Hsent Hall Hlost]).
  unfold receive in H. destruct (source h) as [|a src'] eqn:Esrc.
  { injection H as <- <-. split_and!; done. }
  assert (Hnext : ∀ b, stream [a] = b →
    Held src bound given lost (mkHoldBack src' (client h) (sent h) (hb_passed h)
      (held h ++ b) (cursor h) (forwarded h))).
  { intros b Hb'. exists (used ++ [a]), flushed. constructor; cbn; try done.
    - by rewrite Hsrc, <- app_assoc.
    - by rewrite stream_app, Hs, Hb', <- app_assoc.
    - rewrite length_app. lia.
    - by rewrite Hg, take_app_le by lia. }
  destruct a; injection H as <- <-; cbn [cursor source]; split_and!; try done;
    first [apply Hnext; cbn; by rewrite app_nil_r | rewrite <- (app_nil_r (held h)); by apply Hnext].
Qed.

(** The loop of [read] runs until there is something to hand out or the stream
    has ended. *)
Lemma read_loop_held src bound given lost fuel h r h' :
  Held src bound given lost h → (length (source h) ≤ fuel)%nat → read_loop fuel h = (r, h') →
  match r with
  | Ok _ => Held src bound given lost h' ∧
      (source h' = [] ∨ (cursor h' < length (held h'))%nat)
  | Err e => Held src bound given lost h' ∨ e = gone ∧ Held src bound given true h'
  end.
Proof.
  revert h. induction fuel as [|fuel IH]; intros h HH Hfuel H; cbn [read_loop] in H;
    pose proof HH as (used & flushed & HW); pose proof (held_cursor _ _ _ _ _ _ _ HW);
    (destruct (decide _) as [Heq|Hne];
      [|injection H as <- <-; split; [done|right; lia]]);
    destruct (forward_passed h) as [[[]|e] h1] eqn:E1;
    apply (forward_passed_held _ _ _ _ _ _ _ HH) in E1 as (Es1 & El1 & H1);
    try (injection H as <- <-; by right);
    destruct (receive h1) as [[[]|e] h2] eqn:E2;
    apply (receive_held _ _ _ _ _ _ _ H1) in E2 as (H2 & Ec2 & Htrue & Hfalse);
    try (injection H as <- <-; by left);
    try (injection H as <- <-; destruct (Hfalse eq_refl) as [-> Hnil]; split; [done|by left]);
    specialize (Htrue eq_refl); rewrite Es1 in Htrue.
  - lia.
  - apply (IH h2); [done|lia|done].
Qed.

Lemma read_held src bound given lost len h r h' :
  Held src bound given lost h → hold_back_read len h = (r, h') →
  match r with
  | Ok bytes => Held src bound (given ++ bytes) lost h'
  | Err e => Held src bound given lost h' ∨ e = gone ∧ Held src bound given true h'
  end.
Proof.
  intros HH H. unfold hold_back_read in H.
  destruct (read_loop _ h) as [[[]|e] h1] eqn:E; apply (read_loop_held _ _ _ _ _ _ _ _ HH) in E;
    [|done| |done]; injection H as <- <-; [|done].
  destruct E as [(used & flushed & [Hsrc Hs Hf Hc Hg Hp Hb Hsent Hall Hlost]) _].
  exists used, flushed. constructor; cbn; try done; [lia|].
  rewrite Hg, <- app_assoc. f_equal. rewrite take_take_drop. f_equal.
Qed.

Lemma run_checker_held src bound given lost c h r h' reads offsets :
  Held src bound given lost h → 0 ≤ bound →
  run_checker c h = (r, h') → checker_log c h = (reads, offsets) →
  ∃ lost', Held src (Z.max bound (highest offsets)) (given ++ bytes_read reads) lost' h' ∧
    (lost' = true → lost = true ∨ Err gone ∈ reads).
Proof.
  revert bound given lost h reads offsets.
  induction c as [r0|offset c IH|len k IH]; intros bound given lost h reads offsets HH H0 Hrun Hlog;
    cbn [run_checker checker_log] in Hrun, Hlog.
  - injection Hrun as <- <-. injection Hlog as <- <-. exists lost. cbn. rewrite app_nil_r.
    split; [|by left]. eapply held_weaken; [|done]. lia.
  - destruct (checker_log c _) as [reads' offsets'] eqn:Elog. injection Hlog as <- <-.
    eapply (IH (Z.max bound offset) given lost) in Hrun as (lost' & HH' & Hl); [|clear IH|lia|done].
    + exists lost'. split; [|done]. eapply held_weaken; [|done]. unfold highest. cbn [foldr]. lia.
    + destruct HH as (used & flushed & []). exists used, flushed. constructor; cbn; try done; lia.
  - destruct (hold_back_read len h) as [rd h1] eqn:Erd.
    destruct (checker_log (k rd) h1) as [reads' offsets'] eqn:Elog. injection Hlog as <- <-.
    apply (read_held _ _ _ _ _ _ _ _ HH) in Erd. destruct rd as [bytes|e].
    + eapply IH in Hrun as (lost' & HH' & Hl); [|done..]. exists lost'. split.
      * unfold bytes_read in *. cbn. by rewrite app_assoc.
      * intros Hlt. destruct (Hl Hlt); [by left|right; set_solver].
    + assert (∃ lost1, Held src bound given lost1 h1 ∧ (lost1 = true → lost = true ∨ e = gone))
        as (lost1 & HH1 & Hl1).
      { destruct Erd as [?|[? ?]]; [exists lost; by eauto|exists true; by eauto]. }
      eapply IH in Hrun as (lost' & HH' & Hl); [|done..]. exists lost'. split; [done|].
      intros Hlt. destruct (Hl Hlt) as [Hlt1|]; [|right; set_solver].
      destruct (Hl1 Hlt1) as [?| ->]; [by left|right; set_solver].
Qed.

Lemma zeros_of rest :
  existsb (λ b : Z, negb (b =? 0)) rest = false → rest = replicate (length rest) 0.
Proof.
  induction rest as [|b rest IH]; [done|]. cbn. rewrite orb_false_iff, negb_false_iff, Z.eqb_eq.
  intros [-> H]. f_equal. by apply IH.
Qed.

Lemma held_err src bound given lost h :
  Held src bound given lost h →
  concat (sent h) `prefix_of` stream src ∧ Z.of_nat (length (concat (sent h))) ≤ bound.
Proof.
  intros HH. split; [by eapply held_prefix|]. destruct HH as (used & flushed & []).
  apply prefix_length in held_sent0. lia.
Qed.

(** Reading to the end of what is held. *)
Lemma held_to_end src bound given lost h :
  Held src bound given lost h →
  Held src bound (given ++ drop (cursor h) (held h)) lost (set_cursor (length (held h)) h).
Proof.
  intros (used & flushed & [Hsrc Hs Hf Hc Hg Hp Hb Hsent Hall Hlost]).
  exists used, flushed. constructor; cbn; try done.
  by rewrite Hg, <- app_assoc, take_drop, firstn_all.
Qed.

(** The last forward: all that was read goes to the client, or nothing. *)
Lemma flush_held src bound given lost h r h' :
  Held src bound given lost h → cursor h = length (held h) → source h = [] →
  forward (length (held h)) h = (r, h') →
  given = stream src ∧
  match r with
  | Ok _ => concat (sent h') `prefix_of` stream src ∧ (lost = false → concat (sent h') = stream src)
  | Err _ => sent h' = sent h
  end.
Proof.
  intros HH Hc Hnil H. pose proof HH as (used & flushed & [Hsrc Hs Hf _ Hg _ _ _ Hall Hlost]).
  rewrite Hnil, app_nil_r in Hsrc. rewrite <- Hsrc in Hs.
  rewrite Hc, firstn_all, <- Hs in Hg. split; [done|].
  unfold forward in H. destruct (decide _) as [Hz|Hz].
  - injection H as <- <-. split; [by eapply held_prefix|].
    apply length_zero_iff_nil in Hz. rewrite Hz, app_nil_r in Hs.
    intros ->. by rewrite Hs, (Hall eq_refl).
  - destruct (client h) as [|m] eqn:Ecl; injection H as <- <-; [done|].
    destruct lost; [by specialize (Hlost eq_refl)|].
    cbn [sent]. rewrite concat_app. cbn. by rewrite app_nil_r, firstn_all, (Hall eq_refl), Hs.
Qed.

(** [finish] after the checker has read [given]; [n] zeros have been read since. *)
Lemma finish_held src bound given lost n fuel h r h' :
  Held src bound (given ++ replicate n 0) lost h → (length (source h) ≤ fuel)%nat →
  (n ≤ TRAILER_LIMIT_BYTES)%nat → finish_loop fuel n h = (r, h') →
  match r with
  | Err _ => concat (sent h') `prefix_of` stream src ∧ Z.of_nat (length (concat (sent h'))) ≤ bound
  | Ok _ => concat (sent h') `prefix_of` stream src ∧ (lost = false → concat (sent h') = stream src) ∧
      ∃ m, (m ≤ TRAILER_LIMIT_BYTES)%nat ∧ stream src = given ++ replicate m 0
  end.
Proof.
  revert n h. induction fuel as [|fuel IH]; intros n h HH Hfuel Hn H; cbn [finish_loop] in H;
    (destruct (existsb _ _) eqn:Ez; [injection H as <- <-; by eapply held_err|]);
    apply zeros_of in Ez; apply held_to_end in HH as HE;
    (destruct (Nat.ltb_spec TRAILER_LIMIT_BYTES (n + length (drop (cursor h) (held h))));
      [injection H as <- <-; by eapply held_err|]);
    rewrite Ez, <- app_assoc, <- replicate_add in HE;
    set (h1 := set_cursor (length (held h)) h) in *;
    destruct (receive h1) as [[[]|e] h2] eqn:E2;
    apply (receive_held _ _ _ _ _ _ _ HE) in E2 as (H2 & Ec2 & Htrue & Hfalse);
    try (injection H as <- <-; by eapply held_err).
  2,4: destruct (Hfalse eq_refl) as [-> Hnil];
    destruct (forward (length (held h1)) h1) as [[[]|e] h3] eqn:E3;
    apply (flush_held _ _ _ _ _ _ _ HE eq_refl Hnil) in E3 as [Hg Hr];
    injection H as <- <-; [destruct Hr; split_and!; [done..|by eexists]|rewrite Hr; by eapply held_err].
  all: specialize (Htrue eq_refl); change (source h1) with (source h) in Htrue.
  - lia.
  - apply (IH (n + length (drop (cursor h) (held h)))%nat h2); [done|lia|lia|done].
Qed.

(** Every send takes one of the client's turns. *)
Definition turns (h : HoldBack) : nat := (client h + length (sent h))%nat.

Lemma forward_turns len h : turns (forward len h).2 = turns h.
Proof.
  unfold forward, turns. destruct (decide _); [done|].
  destruct (client h) eqn:E; cbn [snd client sent]; rewrite ?length_app; cbn; lia.
Qed.
Lemma receive_turns h : turns (receive h).2 = turns h.
Proof. unfold receive. by destruct (source h) as [|[] ?]. Qed.
Lemma read_loop_turns fuel h : turns (read_loop fuel h).2 = turns h.
Proof.
  revert h. induction fuel as [|fuel IH]; intros h; cbn [read_loop]; (destruct (decide _); [|done]);
    pose proof (forward_turns (Z.to_nat (Z.max 0 (Z.min (hb_passed h)
      (forwarded h + Z.of_nat (cursor h)) - forwarded h))) h) as Hf;
    fold (forward_passed h) in Hf; destruct (forward_passed h) as [[] h1]; cbn [snd] in Hf; try done;
    pose proof (receive_turns h1) as Hr; destruct (receive h1) as [[[]|] h2]; cbn [snd] in *;
    try rewrite IH; congruence.
Qed.
Lemma run_checker_turns c h : turns (run_checker c h).2 = turns h.
Proof.
  revert h. induction c as [r|offset c IH|len k IH]; intros h; cbn [run_checker]; [done|by rewrite IH|].
  destruct (hold_back_read len h) as [r h1] eqn:E. rewrite IH.
  unfold hold_back_read in E. pose proof (read_loop_turns (length (source h)) h) as Ht.
  destruct (read_loop _ h) as [[] h2]; by injection E as <- <-.
Qed.
Lemma finish_turns fuel n h : turns (finish_loop fuel n h).2 = turns h.
Proof.
  revert n h. induction fuel as [|fuel IH]; intros n h; cbn [finish_loop];
    (destruct (existsb _ _); [done|]); (destruct (_ <? _)%nat; [done|]);
    set (h1 := set_cursor _ h); pose proof (receive_turns h1) as Hr;
    destruct (receive h1) as [[[]|] h2]; cbn [snd] in *; try rewrite IH; try done;
    pose proof (forward_turns (length (held h2)) h2) as Hf;
    destruct (forward _ h2) as [? h3]; cbn [snd] in *; by rewrite Hf.
Qed.
Lemma relay_turns c h : turns (relay c h).2 = turns h.
Proof.
  unfold relay. pose proof (run_checker_turns c h) as Hc.
  destruct (run_checker c h) as [[] h1]; cbn [snd] in *; [|done].
  unfold finish. by rewrite finish_turns.
Qed.


Lemma finish_client fuel n h : (client (finish_loop fuel n h).2 ≤ client h)%nat.
Proof.
  revert n h. induction fuel as [|fuel IH]; intros n h; cbn [finish_loop];
    (destruct (existsb _ _); [done|]); (destruct (_ <? _)%nat; [done|]);
    set (h1 := set_cursor _ h);
    assert (Hr : client (receive h1).2 = client h) by (unfold receive; by destruct (source h1) as [|[] ?]);
    destruct (receive h1) as [[[]|] h2]; cbn [snd] in *; rewrite <- Hr; try apply IH; try lia;
    unfold forward; (destruct (decide _); [done|]); destruct (client h2); cbn; lia.
Qed.

(** How a relay ends. *)
Lemma relay_outcome c src n r h reads offsets :
  relay c (hold_back_new src n) = (r, h) → checker_log c (hold_back_new src n) = (reads, offsets) →
  concat (sent h) `prefix_of` stream src ∧ bytes_read reads `prefix_of` stream src ∧
  match r with
  | Err _ => Z.of_nat (length (concat (sent h))) ≤ highest offsets
  | Ok _ =>
      (Err gone ∉ reads ∨ client h ≠ 0%nat → concat (sent h) = stream src) ∧
      ∃ n, (n ≤ TRAILER_LIMIT_BYTES)%nat ∧ stream src = bytes_read reads ++ replicate n 0
  end.
Proof.
  intros Er El. unfold relay in Er. destruct (run_checker c _) as [r1 h1] eqn:Ec.
  destruct (run_checker_held src 0 [] false c _ _ _ _ _ (held_new src n) ltac:(lia) Ec El)
    as (lost & HH & Hlost). cbn [app] in HH.
  assert (0 ≤ highest offsets) as H0 by (unfold highest; clear; induction offsets; cbn; lia).
  rewrite Z.max_r in HH by done. pose proof (held_prefix _ _ _ _ _ HH) as [Hgiven _].
  destruct r1 as [[]|e]; [|injection Er as <- <-; by apply held_err in HH as [? ?]].
  pose proof (finish_client (length (source h1)) 0 h1) as Hle. unfold finish in Er.
  rewrite Er in Hle. cbn in Hle.
  assert (Hkeep : Err gone ∉ reads ∨ client h ≠ 0%nat → lost = false).
  { intros Hno. destruct lost; [|done]. destruct (Hlost eq_refl) as [?|?]; [done|].
    destruct HH as (? & ? & []). specialize (held_lost0 eq_refl). destruct Hno; [done|lia]. }
  rewrite <- (app_nil_r (bytes_read reads)) in HH. change [] with (replicate 0 0) in HH.
  apply (finish_held _ _ _ _ 0 _ _ _ _ HH) in Er; [|done|unfold TRAILER_LIMIT_BYTES; lia].
  destruct r as [[]|e]; [|by destruct Er]. destruct Er as (Hpre & Hall & Htail).
  split_and!; [done..| |done]. intros Hno. by apply Hall, Hkeep.
Qed.

(** C26: whatever the checker does and however the guest's chunks arrive, what
    the client gets and what the checker reads are both prefixes of the guest's
    stream.  When the relay fails, nothing past the highest offset the checker
    passed has left.  When it succeeds, the client has been sent the whole
    stream (unless a read already told the checker that the client was gone),
    and what follows the bytes the checker read is at most 16 blocks of zeros. *)
Theorem relay_holds_back (c : Checker) (src : list Arrival) (client : nat) :
  let h0 := hold_back_new src client in
  let (r, h) := relay c h0 in
  let (reads, offsets) := checker_log c h0 in
  concat (sent h) `prefix_of` stream src ∧ bytes_read reads `prefix_of` stream src ∧
  match r with
  | Err _ => Z.of_nat (length (concat (sent h))) ≤ highest offsets
  | Ok _ =>
      (Err gone ∉ reads → concat (sent h) = stream src) ∧
      ∃ n, (n ≤ TRAILER_LIMIT_BYTES)%nat ∧ stream src = bytes_read reads ++ replicate n 0
  end.
Proof.
  cbn zeta. destruct (relay c _) as [r h] eqn:Er. destruct (checker_log c _) as [reads offsets] eqn:El.
  destruct (relay_outcome _ _ _ _ _ _ _ Er El) as (? & ? & Hr). destruct r; [|done].
  destruct Hr as [Hall Htail]. split_and!; [done..| |done]. intros Hno. apply Hall. by left.
Qed.

(** C32: a client that keeps listening always learns how the copy ended: either
    it is sent chunks that make up the whole stream of the guest, or a prefix of
    it followed by exactly one error, the API error of the failure. *)
Theorem relayed_complete_or_error (t : GuestTarget) (c : Checker) (src : list Arrival) (client : nat)
    (listening : (length (relayed t c src client) < client)%nat) :
  ∃ chunks, 
    relayed t c src client = Ok <$> chunks ∧ concat chunks = stream src ∨
    ∃ e, relayed t c src client = (Ok <$> chunks) ++ [Err (relay_failure t e)] ∧
      concat chunks `prefix_of` stream src.
Proof.
  pose proof (relay_turns c (hold_back_new src client)) as Ht. unfold relayed in *.
  destruct (relay c _) as [r h] eqn:Er. destruct (checker_log c (hold_back_new src client)) eqn:El.
  destruct (relay_outcome _ _ _ _ _ _ _ Er El) as (Hpre & _ & Hr).
  cbn [snd] in Ht. unfold turns in Ht. cbn in Ht. exists (sent h).
  rewrite length_app, length_fmap in listening.
  assert (Relay.client h ≠ 0%nat) as Hopen by lia. destruct r as [[]|e].
  - left. rewrite app_nil_r. split; [done|]. apply Hr. by right.
  - right. exists e. by destruct (Relay.client h).
Qed.

(** A checker that reads two bytes, passes one of them and stops. *)
Definition toy_checker (r : result unit ArchiveError) : Checker :=
  ReadInto 2 (λ _, Passed 1 (ReadInto 2 (λ _, Done r))).

Lemma relayed_complete_or_error_witness :
  ∃ chunks,
    relayed (mkGuestTarget "c1" "/data") (toy_checker (Ok tt)) [Chunk [7; 8]; Chunk [9; 0; 0]] 9 =
      Ok <$> chunks ∧ concat chunks = stream [Chunk [7; 8]; Chunk [9; 0; 0]] ∨
    ∃ e, relayed (mkGuestTarget "c1" "/data") (toy_checker (Ok tt)) [Chunk [7; 8]; Chunk [9; 0; 0]] 9 =
        (Ok <$> chunks) ++ [Err (relay_failure (mkGuestTarget "c1" "/data") e)] ∧
      concat chunks `prefix_of` stream [Chunk [7; 8]; Chunk [9; 0; 0]].
Proof.
  apply (relayed_complete_or_error (mkGuestTarget "c1" "/data") (toy_checker (Ok tt))
    [Chunk [7; 8]; Chunk [9; 0; 0]] 9).
  vm_compute. lia.
Defined.

Example relay_refused :
  relayed (mkGuestTarget "c1" "/data") (toy_checker (Err (UnsafePath "../x"))) [Chunk [7; 8]; Chunk [9]] 9 =
  [Ok [7]; Err (InvalidRequest
    "cannot copy from the sandbox: archive entry has an unsafe path: ../x")].
Proof. reflexivity. Qed.
Example relay_trailing_data :
  relayed (mkGuestTarget "c1" "/data") (toy_checker (Ok tt)) [Chunk [7; 8]; Chunk [9; 0; 3]] 9 =
  [Ok [7]; Err (InvalidRequest
    "cannot copy from the sandbox: archive header is not allowed: data follows the end of the archive")].
Proof. reflexivity. Qed.
