(* ===== verification/Lifecycle.v ===== *)
(** * Lifecycle: the manager's public operations

    Models the operations of [ward-core/src/sandbox/manager.rs] and
    [sandbox/manager/pause.rs] that talk to the backend: stopping, starting,
    removing, pausing, publishing ports and the end of a main process, composed
    of the sections of [Manager].  The operations run here without
    interference; [Concurrency] interleaves them.

    The backend trait, the port forwarder, the guest and the volume manager
    are the interface [Backend]; the theorems hold for every implementation. *)

From stdpp Require Import base list numbers option strings pretty gmap sorting.
From Stdlib Require Import ZArith Lia Ascii.
From S2P Require Import Prelude Text Net Signal Restart Output Broker Egress Validate Store Events Health Launch Protocol Manager.

(** ** What the manager calls *)

(** [HealthState] and [SandboxInfo]; the mounts and the health, which the
    source keeps inside the spec, are empty in a record and set by
    [recorded_state] only. *)
Record HealthState := mkHealthState { h_status : HealthStatus; h_streak : Z; h_log : list Probe }.

Record SandboxInfo := mkInfo {
  i_id : string;
  i_status : SandboxStatus;
  i_image : string;
  i_created_at : Z;
  i_ip_address : option string;
  i_resources : ResourceLimits;
  i_expires_at : option Z;
  i_token : string;
  i_spec : SandboxSpec;
  i_mounts : list Mount;
  i_health : option HealthState;
  i_exit_code : option Z;
  i_started_at : option Z;
  i_finished_at : option Z;
  i_end_reason : option EndReason;
  i_restart_count : Z;
  i_paused : bool;
}.

Record ProcessHandle := mkHandle { handle_pid : string; handle_control : bool }.

Class Backend (E : Type) := {
  be_create : string → CreateOpts → E → result SandboxInfo BackendError * E;
  be_get : string → E → result SandboxInfo BackendError * E;
  (** The flag: the directory with the saved record was deleted. *)
  be_remove : string → E → (result unit BackendError * bool) * E;
  be_stop : string → E → result unit BackendError * E;
  be_start : string → E → result unit BackendError * E;
  be_adopt : SandboxMeta → E → result unit BackendError * E;
  be_exec : string → list string → E → result ProcessHandle BackendError * E;
  be_put_secrets : string → string → list SecretFile → E → result unit BackendError * E;
  be_update_limits : string → LimitsUpdate → E → result unit BackendError * E;
  be_image_config : string → E → result ImageConfig BackendError * E;
  be_resolve_image : string → Z → E → result (option string) BackendError * E;
  be_snapshot_owner : string → E → result string BackendError * E;
  be_pause : string → E → result unit BackendError * E;
  be_unpause : string → E → result unit BackendError * E;
  (** [PortForwarder::open], which returns the local port, and [close]. *)
  fwd_open : string → IpAddr → Z → Z → PortProtocol → E → result Z BackendError * E;
  fwd_close : PortListener → E → E;
  (** Sending a signal to a process, and waiting for its end: the raw status
      and whether the OOM killer was active, or [None] after the grace. *)
  guest_signal : string → Z → E → bool * E;
  guest_await : string → option Z → E → option (Z * bool) * E;
  (** [claim_volume]: the host path of a named volume. *)
  volume_path : string → bool → E → result string ApiError * E;
  (** [remove_unused_by_name], with the function that finds the users. *)
  volume_remove_unused : string → (string → list string) → E → E;
}.

Section lifecycle.
Context {E : Type} `{HBE : !Backend E} (cfg : Config).
Context (order : gmap string SandboxEntry → list (string * SandboxEntry)).
Implicit Types (w : World E).

(** A call of the backend, with its own error or with the API's. *)
Definition call {A} (f : E → result A BackendError * E) : World E → result A BackendError * World E :=
  λ w, let '(r, env') := f (env w) in (r, upd_env (λ _, env') w).
Definition callE {A} (f : E → result A BackendError * E) (conv : BackendError → ApiError) : St E A :=
  λ w, let '(r, w') := call f w in (map_err conv r, w').

Definition event_with_code (a : EventAction) (m : SandboxMeta) (code : option Z) (t : Z)
    : SandboxEvent :=
  let ev := event_new a m t in
  match code with Some c => with_exit_code c ev | None => ev end.

Definition emit_event (sid : string) (a : EventAction) (code : option Z) (w : World E) : World E :=
  match entries w !! sid with
  | None => w
  | Some e =>
      emit_raw (event_with_code a (meta e) code (clock w)) w
  end.
Definition emit_for (m : SandboxMeta) (a : EventAction) (code : option Z) (w : World E) : World E :=
  emit_raw (event_with_code a m code (clock w)) w.
Definition emit_die_if_was_running (m : SandboxMeta) (before : SandboxStatus) (code : option Z)
    (w : World E) : World E :=
  if decide (before = Running) then emit_for m EvDie code w else w.

(** [backend.remove_sandbox]. *)
Definition backend_remove (sid : string) (w : World E) : result unit BackendError * World E :=
  let '((r, gone), env') := be_remove sid (env w) in
  (r, upd_env (λ _, env') (if (gone : bool) then upd_disk (delete sid) w else w)).

(** ** What a client is shown *)

Definition tracker_state (t : Tracker) : HealthState :=
  mkHealthState (health t) (failing_streak t) (health_log t).
Definition starting_state : HealthState := mkHealthState STATUS_STARTING 0 [].

Definition health_shown (e : SandboxEntry) : option HealthState :=
  let current := t ← tracker e;
                 if decide (run_started t = started_at (meta e)) then Some (tracker_state t) else None in
  match current with
  | Some s => Some s
  | None =>
      let checked := match healthcheck (guest (spec_of e)) ≫= from_config with
                     | Some _ => true | None => false end in
      if checked && bool_decide (status (meta e) = Running) then Some starting_state else None
  end.

(** [recorded_state]: what the manager recorded wins. *)
Definition recorded_state (table : gmap string SandboxEntry) (i : SandboxInfo) : SandboxInfo :=
  match table !! i_id i with
  | None => i
  | Some e =>
      let m := meta e in
      let s := spec_of e in
      mkInfo (i_id i) (status m) (i_image i) (i_created_at i) (i_ip_address i) (i_resources i)
        (i_expires_at i) (i_token i)
        (mkSpec (name s) (command (i_spec i)) (entrypoint_len (i_spec i)) (workdir (i_spec i))
           (user (i_spec i)) (tty (i_spec i)) (auto_remove (i_spec i)) (published_ports s)
           (image_digest s) (labels s) (hostname s) (stop_signal s) (stop_timeout s) (restart s)
           (guest s))
        (mounts (options m)) (health_shown e) (exit_code m) (started_at m) (finished_at m)
        (end_reason m) (restart_count m) (i_paused i && bool_decide (status m = Running))
  end.

Definition redact_token (i : SandboxInfo) : SandboxInfo :=
  mkInfo (i_id i) (i_status i) (i_image i) (i_created_at i) (i_ip_address i) (i_resources i)
    (i_expires_at i) "" (i_spec i) (i_mounts i) (i_health i) (i_exit_code i) (i_started_at i)
    (i_finished_at i) (i_end_reason i) (i_restart_count i) (i_paused i).

Definition info (sid : string) : St E SandboxInfo :=
  let! i := callE (be_get sid) backend_err in
  let! table := read entries in
  sret (recorded_state table (redact_token i)).

(** ** Volumes *)

Definition volume_users_in (table : gmap string SandboxEntry) (v : string) : list string :=
  (filter (λ x, existsb (λ m, bool_decide (volume m = Some v)) (mounts (options (meta x.2))) = true)
     (order table)).*1.

Definition release_anonymous_volumes (ms : list Mount) (w : World E) : World E :=
  let names := omap (λ m, if anonymous m then volume m else None) ms in
  upd_env (λ env, foldl (λ env v, volume_remove_unused v (volume_users_in (entries w)) env) env names) w.

(** ** Ports *)

Definition close_all (ls : list PortListener) (w : World E) : World E :=
  upd_env (λ env, foldl (λ env l, fwd_close l env) env ls) w.

Definition close_listeners (sid : string) (w : World E) : World E :=
  match entries w !! sid with
  | None => w
  | Some e => close_all (listeners e) (upd_entries <[sid := set_listeners [] e]> w)
  end.

(** [open_in_range]: [above] counts the host ports of the range above the one
    being tried. *)
Fixpoint open_in_range (above : nat) (sid : string) (ip : IpAddr) (hport cport : Z)
    (proto : PortProtocol) (env : E) : result Z BackendError * E :=
  match fwd_open sid ip hport cport proto env, above with
  | (Err (BAddressInUse _), env'), S above =>
      open_in_range above sid ip (hport + 1) cport proto env'
  | r, _ => r
  end.
Definition open_port (sid : string) (p : PublishedPort) (env : E) : result Z BackendError * E :=
  let last := Z.max (host_port_end p) (host_port p) in
  open_in_range (Z.to_nat (last - host_port p)) sid (host_ip p) (host_port p) (container_port p)
    (protocol p) env.

(** [open_listeners]: fixed host ports before ranges, the order kept within
    each; the listeners opened so far are closed on an error. *)
Definition open_order (ports : list PublishedPort) : list nat :=
  let idx := seq 0 (length ports) in
  let range i := match ports !! i with Some p => negb (host_port_end p =? 0)%Z | None => false end in
  filter (λ i, range i = false) idx ++ filter (λ i, range i = true) idx.

Fixpoint open_ports (sid : string) (idx : list nat) (ports : list PublishedPort)
    (opened : list PortListener) (w : World E)
    : result (list PortListener * list PublishedPort) ApiError * World E :=
  match idx with
  | [] => (Ok (opened, ports), w)
  | i :: idx =>
      match ports !! i with
      | None => open_ports sid idx ports opened w
      | Some p =>
          match call (open_port sid p) w with
          | (Err e, w') => (Err (backend_err e), close_all opened w')
          | (Ok local, w') =>
              let p' := mkPort (host_ip p) local 0 (container_port p) (protocol p) in
              open_ports sid idx (<[i := p']> ports)
                (opened ++ [mkListener local (host_ip p) (container_port p)]) w'
          end
      end
  end.
Definition open_listeners (sid : string) (ports : list PublishedPort)
    : St E (list PortListener * list PublishedPort) :=
  λ w, open_ports sid (open_order ports) ports [] w.

Definition reopen_listeners (sid : string) : St E unit := λ w,
  match entries w !! sid with
  | None => (Ok tt, w)
  | Some e =>
      match open_listeners sid (published_ports (spec_of e)) w with
      | (Err err, w') => (Err err, w')
      | (Ok (ls, _), w') =>
          (Ok tt, upd_entries (alter (set_listeners ls) sid) w')
      end
  end.

(** ** Pausing *)

Definition is_paused (sid : string) : St E bool :=
  let! s := recorded_status sid in
  if decide (s ≠ Running) then sret false else let! i := callE (be_get sid) backend_err in sret (i_paused i).

Definition thaw (sid : string) : St E unit :=
  callE (be_unpause sid) backend_err ;!
  modify (emit_event sid EvUnpause None).

Definition thaw_if_paused (sid : string) : St E unit :=
  let! p := is_paused sid in
  if (p : bool) then thaw sid else sret tt.

Definition require_running (sid : string) : St E unit :=
  let! s := recorded_status sid in
  if decide (s ≠ Running) then sfail (not_running sid) else sret tt.

Definition pause (reference : string) : St E SandboxInfo :=
  let! sid := resolve order reference in
  require_running sid ;!
  let! p := is_paused sid in
  if (p : bool) then sfail (InvalidRequest ("Container " +:+ sid +:+ " is already paused"))
  else
    callE (be_pause sid) backend_err ;!
    modify (emit_event sid EvPause None) ;!
    info sid.

Definition unpause (reference : string) : St E SandboxInfo :=
  let! sid := resolve order reference in
  require_running sid ;!
  let! p := is_paused sid in
  if (p : bool) then thaw sid ;! info sid
  else sfail (InvalidRequest ("Container " +:+ sid +:+ " is not paused")).

(** ** Main processes *)

Inductive MainEnd :=
| NoMain
| MainExited (code : Z) (reason : EndReason)
| MainUnknown.

Definition grace_period (seconds : option Z) : option Z :=
  match seconds with
  | None => Some (stop_grace cfg)
  | Some s => (λ s, s * NANOS_PER_SEC)%Z <$> try_u64 s
  end.
Definition grace_for (sid : string) (requested : option Z) (w : World E) : option Z :=
  let recorded := entries w !! sid ≫= λ e, stop_timeout (spec_of e) in
  grace_period (match requested with Some s => Some s | None => recorded end).
Definition stop_signal_of (sid : string) (w : World E) : Z :=
  default SIGTERM (entries w !! sid ≫= λ e, parse (stop_signal (spec_of e))).

Definition parse_stop_override (sig : option string) : result (option Z) ApiError :=
  match sig with
  | None => Ok None
  | Some text =>
      if is_empty text then Ok None
      else let? n := ok_or (parse text) (InvalidRequest ("invalid stop signal: " +:+ text)) in
           Ok (Some n)
  end.

(** Waiting for the main process of [sid]: one that ended already is seen at
    once, and an end that arrives is published in [mains]. *)
Definition await_main (sid : string) (grace : option Z) (w : World E) : bool * World E :=
  match mains w !! sid with
  | None => (false, w)
  | Some m =>
      match exit_raw m with
      | Some _ => (true, w)
      | None =>
          let '(r, env') := guest_await (pid m) grace (env w) in
          let w := upd_env (λ _, env') w in
          match r with
          | None => (false, w)
          | Some (raw, oom) =>
              (true, upd_mains <[sid := mkMain (pid m) (has_control m) (Some raw) oom]> w)
          end
      end
  end.

Definition send_signal (m : MainProcess) (sig : Z) (w : World E) : World E :=
  if has_control m then upd_env (λ env, (guest_signal (pid m) sig env).2) w else w.

Definition end_main_process (sid : string) (grace : option Z) (sig : option Z) (w : World E)
    : MainEnd * World E :=
  match mains w !! sid with
  | None => (NoMain, w)
  | Some m =>
      let w := send_signal m (default (stop_signal_of sid w) sig) w in
      let '(ended, w) := await_main sid grace w in
      let w := if (ended : bool) then w
               else (await_main sid (Some (stop_grace cfg)) (send_signal m SIGKILL w)).2 in
      (match mains w !! sid ≫= exit_raw with
       | None => MainUnknown
       | Some raw =>
           MainExited (decode_wait_status raw)
             (end_reason_of raw (match mains w !! sid with Some m => oom_killed m | None => false end))
       end, w)
  end.

Definition spawn_main (sid : string) : St E unit :=
  let! e := get_entry sid in
  if bool_decide (command (spec_of e) = []) then sret tt
  else
    let! h := callE (be_exec sid (command (spec_of e))) backend_err in
    let! _ := get_entry sid in
    modify (upd_mains <[sid := mkMain (handle_pid h) (handle_control h) None false]>).

(** ** Stop *)

(** Record a failed transition; a save that fails is only logged. *)
Definition mark_failed (sid : string) (w : World E) : World E :=
  (set_state cfg sid Failed (close_listeners sid w)).2.

Definition stop_resolved (sid : string) (grace sig : option Z) : St E unit := λ w,
  match begin_stop cfg sid w with
  | (Err e, w) => (Err e, w)
  | (Ok None, w) => (Ok tt, w)
  | (Ok (Some (before, m)), w) =>
      let w := (thaw_if_paused sid w).2 in
      let w := close_listeners sid w in
      let '(main_end, w) := end_main_process sid grace sig w in
      let died_with := match main_end with
                       | NoMain => Some 0%Z
                       | MainExited code _ => Some code
                       | MainUnknown => None
                       end in
      match call (be_stop sid) w with
      | (Err e, w) =>
          (Err (backend_err e), emit_die_if_was_running m before died_with (mark_failed sid w))
      | (Ok _, w) =>
          let w := upd_processes (filter (λ x, p_sandbox_id x.2 ≠ sid)) w in
          let w := upd_broker (deregister_state sid) w in
          let recorded :=
            match main_end with
            | NoMain => set_state cfg sid Stopped w
            | MainExited _ reason => record_ended cfg sid Stopped died_with (Some reason) w
            | MainUnknown => record_state cfg sid Stopped died_with w
            end in
          match recorded with
          | (Err e, w) => (Err e, w)
          | (Ok _, w) =>
              (Ok tt, emit_for m EvStop None (emit_die_if_was_running m before died_with w))
          end
      end
  end.

(** ** Removal *)

(** [finish_cleanup] of an entry that has left the table. *)
Definition finish_cleanup (removed : option SandboxEntry) (sid : string) (reason : option EndReason)
    (w : World E) : result unit BackendError * World E :=
  let w := drop_tied sid w in
  let w := match removed with Some e => close_all (listeners e) w | None => w end in
  let '(r, w) := backend_remove sid w in
  let w := match removed with
           | Some e => if auto_remove (spec_of e)
                       then release_anonymous_volumes (mounts (options (meta e))) w else w
           | None => w
           end in
  (r, report_removed removed reason w).

(** [cleanup_sandbox_inner]. *)
Definition cleanup_sandbox (sid : string) (from_timeout : bool) (w : World E)
    : result unit BackendError * World E :=
  let '(removed, w) := detach sid w in
  finish_cleanup removed sid (if from_timeout then Some RETimeout else None) w.

Definition remove_with_volumes (reference : string) (with_volumes : bool) : St E unit := λ w,
  match resolve order reference w with
  | (Err e, w) => (Err e, w)
  | (Ok sid, w) =>
      let ms := match entries w !! sid with
                | Some e => if with_volumes then mounts (options (meta e)) else []
                | None => []
                end in
      match cleanup_sandbox sid false w with
      | (Err e, w) => (Err (backend_err e), w)
      | (Ok _, w) => (Ok tt, release_anonymous_volumes ms w)
      end
  end.
Definition remove (reference : string) : St E unit := remove_with_volumes reference false.

(** The timer tasks: wall time, exited TTL, and the end of an auto-remove
    run. *)
Definition fire_timeout (sid : string) (w : World E) : World E := (cleanup_sandbox sid true w).2.
Definition remove_if_still_ended (sid : string) (w : World E) : World E :=
  match entries w !! sid with
  | None => w
  | Some e => if has_ended (status (meta e)) then (cleanup_sandbox sid false w).2 else w
  end.
Definition auto_remove_ended (sid p : string) (w : World E) : World E :=
  let exited := match entries w !! sid with
                | Some e => bool_decide (status (meta e) = Exited) | None => false end in
  let same_run := match mains w !! sid with
                  | Some m => bool_decide (pid m = p) | None => false end in
  if exited && same_run then (cleanup_sandbox sid false w).2 else w.

(** [mark_exited_on_main_end], once process [p] ended with [raw]. *)
Definition mark_exited_on_main_end (sid p : string) (raw : Z) (oom autoremove : bool) (w : World E)
    : World E :=
  let '(go_on, w) := record_main_end cfg sid p raw oom w in
  if go_on && autoremove then auto_remove_ended sid p w else w.

Definition stop_with_signal (reference : string) (seconds : option Z) (sig : option string)
    : St E SandboxInfo :=
  let! sig := lift (parse_stop_override sig) in
  let! sid := resolve order reference in
  let! grace := read (grace_for sid seconds) in
  stop_resolved sid grace sig ;!
  let! i := info sid in
  let! auto := read (λ w, match entries w !! sid with
                          | Some e => auto_remove (spec_of e) | None => false end) in
  (if (auto : bool) then remove sid else sret tt) ;!
  sret i.

(** ** Start *)

Definition recorded_limits (sid : string) : St E ResourceLimits :=
  let! e := get_entry sid in sret (resources (options (meta e))).

Definition reapply_cpu_quota (sid : string) : St E unit :=
  let! limits := recorded_limits sid in
  if (nano_cpus limits =? 0)%Z then sret tt
  else
    callE (be_update_limits sid
             (mkLimitsUpdate None (Some (nano_cpus limits)) None cgroup_update_default))
      (λ e, Internal ("cannot apply the CPU limit of " +:+ pretty (nano_cpus limits) +:+
                      " nano CPUs: " +:+ backend_error_text e)).

(** [true] when the failure was recorded. *)
Definition fail_main_start (sid : string) (w : World E) : bool * World E :=
  match entries w !! sid with
  | None => (false, w)
  | Some e =>
      if decide (status (meta e) ≠ Running) then (false, w)
      else
        let w := (commit_meta cfg sid e Failed (exit_code (meta e)) w).2 in
        let w := close_listeners sid w in
        (true, emit_event sid EvDie (Some 126%Z) w)
  end.

Definition release_failed_start (sid : string) (w : World E) : World E :=
  let '(_, w) := call (be_stop sid) w in
  upd_broker (deregister_state sid) w.

Definition start_resolved (sid : string) : St E unit := λ w,
  match begin_start cfg sid w with
  | (Err e, w) => (Err e, w)
  | (Ok None, w) => (Ok tt, w)
  | (Ok (Some policy), w) =>
      let w := close_listeners sid w in
      match call (be_start sid) w with
      | (Err e, w) => (Err (backend_err e), mark_failed sid w)
      | (Ok _, w) =>
          match reopen_listeners sid w with
          | (Err e, w) => (Err e, mark_failed sid (call (be_stop sid) w).2)
          | (Ok _, w) =>
              match reapply_cpu_quota sid w with
              | (Err e, w) => (Err e, mark_failed sid (call (be_stop sid) w).2)
              | (Ok _, w) =>
                  match commit_running_and_register cfg sid policy w with
                  | (Err e, w) => (Err e, w)
                  | (Ok _, w) =>
                      match spawn_main sid (emit_event sid EvStart None w) with
                      | (Ok _, w) => (Ok tt, w)
                      | (Err e, w) =>
                          let '(recorded, w) := fail_main_start sid w in
                          (Err e, if (recorded : bool) then release_failed_start sid w else w)
                      end
                  end
              end
          end
      end
  end.

Definition start_sandbox (reference : string) : St E SandboxInfo :=
  let! sid := resolve order reference in
  let! s := recorded_status sid in
  (if decide (s ≠ Running) then refuse_if_had_secrets sid else sret tt) ;!
  clear_restart_history cfg sid ;!
  start_resolved sid ;!
  info sid.

Definition restart_with_signal (reference : string) (seconds : option Z) (sig : option string)
    : St E SandboxInfo :=
  let! sig := lift (parse_stop_override sig) in
  let! sid := resolve order reference in
  refuse_if_had_secrets sid ;!
  let! s := recorded_status sid in
  (if decide (s = Failed) then sret tt
   else let! grace := read (grace_for sid seconds) in stop_resolved sid grace sig) ;!
  clear_restart_history cfg sid ;!
  start_resolved sid ;!
  info sid.

(** [restart_after_exit], once the back-off has passed. *)
Definition back_off (req : RestartRequest) (w : World E) : Z * World E :=
  let d := next_delay (restart_delays w !! req_id req) (ran_for req) in
  (d, upd_delays <[req_id req := d]> w).
Definition restart_after_delay (req : RestartRequest) (w : World E) : World E :=
  let '(claimed, w) := claim_restart cfg req w in
  if (claimed : bool) then (start_resolved (req_id req) w).2 else w.

(** [signal_main_process]. *)
Definition signal_main_process (reference : string) (sig : Z) : St E unit :=
  if negb ((0 <=? sig)%Z && (sig <=? MAX_SIGNAL)%Z)
  then sfail (InvalidRequest ("invalid signal: " +:+ pretty sig))
  else
    let! sid := resolve order reference in
    let! s := recorded_status sid in
    if decide (s ≠ Running) then sfail (not_running sid)
    else
      let! m := (λ w, (ok_or (mains w !! sid) (no_main_process sid), w)) in
      if negb (has_control m) then sfail (no_main_process sid)
      else if bool_decide (is_Some (exit_raw m)) then sfail (not_running sid)
      else
        let sig := if (sig =? 0)%Z then SIGKILL else sig in
        let! stop_sig := read (stop_signal_of sid) in
        let ends_main := (sig =? SIGKILL)%Z || (sig =? stop_sig)%Z in
        (if ends_main then mark_manually_stopped cfg sid else sret tt) ;!
        (λ w, let '(sent, env') := guest_signal (pid m) sig (env w) in
              (if (sent : bool) then Ok tt else Err (ProcessNotFound "0"), upd_env (λ _, env') w)) ;!
        (if ends_main then thaw_if_paused sid else sret tt).
End lifecycle.

(** ** What the steps of an operation touch *)

Section frames.
Context {E : Type} `{HBE : !Backend E} (cfg : Config).
Context (order : gmap string SandboxEntry → list (string * SandboxEntry)).
Implicit Types (w : World E).

Lemma call_env {A} (f : E → result A BackendError * E) w r w' :
  call f w = (r, w') → ∃ en, w' = upd_env (λ _, en) w.
Proof. unfold call. destruct (f (env w)) as [r' en]. intros [= <- <-]. by exists en. Qed.

Lemma callE_env {A} (f : E → result A BackendError * E) conv w r w' :
  callE f conv w = (r, w') → ∃ en, w' = upd_env (λ _, en) w.
Proof.
  unfold callE. destruct (call f w) as [r1 w1] eqn:Hc. intros [= <- <-]. by eapply call_env.
Qed.

Lemma close_listeners_env sid e w :
  entries w !! sid = Some e →
  ∃ en, close_listeners sid w = upd_env (λ _, en) (upd_entries <[sid := set_listeners [] e]> w).
Proof. intros He. unfold close_listeners, close_all. rewrite He. by eexists. Qed.




Lemma open_ports_env sid idx ports opened w r w' :
  open_ports sid idx ports opened w = (r, w') → ∃ en, w' = upd_env (λ _, en) w.
Proof.
  revert ports opened w. induction idx as [|i idx IH]; intros ports opened w; cbn.
  { intros [= <- <-]. exists (env w). by destruct w. }
  destruct (ports !! i) as [p|]; [|apply IH].
  destruct (call _ w) as [[l|err] w1] eqn:Hc; apply call_env in Hc as [en ->].
  - intros [en2 ->]%IH. by exists en2.
  - intros [= <- <-]. by eexists.
Qed.

Lemma reopen_listeners_env sid e w r w' :
  entries w !! sid = Some e → reopen_listeners sid w = (r, w') →
  ∃ en, match r with
        | Ok _ => ∃ ls, w' = upd_env (λ _, en) (upd_entries <[sid := set_listeners ls e]> w)
        | Err _ => w' = upd_env (λ _, en) w
        end.
Proof.
  intros He. unfold reopen_listeners. rewrite He.
  destruct (open_listeners _ _ w) as [[[ls ps]|err] w1] eqn:Ho; apply open_ports_env in Ho as [en ->];
    intros [= <- <-]; exists en; [|done].
  exists ls. unfold upd_env, upd_entries. cbn. f_equal. apply map_eq. intros k.
  destruct (decide (k = sid)) as [->|Hk];
    [by rewrite lookup_alter_eq, He, lookup_insert_eq|by rewrite lookup_alter_ne, lookup_insert_ne].
Qed.

(** A thaw reaches the backend only while the record says [Running]. *)
Lemma thaw_only_running sid e w :
  entries w !! sid = Some e → status (meta e) ≠ Running → thaw_if_paused sid w = (Ok tt, w).
Proof.
  intros He Hs. unfold thaw_if_paused, is_paused, recorded_status, sbind, get_entry. rewrite He. cbn.
  by rewrite decide_True by done.
Qed.


(** The recorded end of a stop. *)
Lemma set_state_ended sid s w :
  set_state cfg sid s w =
  match entries w !! sid with
  | None => (Err (SandboxNotFound sid), w)
  | Some e => commit_meta_ended cfg sid e s (exit_code (meta e))
                (match s with Creating => None | _ => end_reason (meta e) end) w
  end.
Proof. unfold set_state, commit_meta, sbind, get_entry. by destruct (entries w !! sid). Qed.

Lemma begin_stop_commit sid e w r w' :
  entries w !! sid = Some e → status (meta e) = Running ∨ status (meta e) = Exited →
  begin_stop cfg sid w = (r, w') →
  (r = Ok (Some (status (meta e), meta e)) ∧
   committed cfg w w' sid e (next_meta (set_manual true (meta e)) Stopping (exit_code (meta e))
     (end_reason (meta e)) (clock w))) ∨
  (∃ err, r = Err err ∧ entries w' = entries w ∧ frame w w').
Proof.
  intros He Hs. unfold begin_stop, sbind, get_entry. rewrite He. cbn.
  destruct Hs as [-> | ->]; destruct (commit_manual _ _ _ _ _ _ w) as [[[]|err] w1] eqn:Hc;
    apply (commit_manual_cases _ _ _ _ _ _ _ _ _ He) in Hc; intros [= <- <-]; eauto.
Qed.

Lemma mark_failed_cases sid e w :
  entries w !! sid = Some e →
  ∃ e', entries (mark_failed cfg sid w) = <[sid := e']> (entries w) ∧
    options (meta e') = options (meta e) ∧ listeners e' = [] ∧
    manually_stopped (meta e') = manually_stopped (meta e) ∧
    (status (meta e') = Failed ∨ meta e' = meta e) ∧
    ∃ en d f, mark_failed cfg sid w =
      upd_entries <[sid := e']> (upd_faults (λ _, f) (upd_disk (λ _, d) (upd_env (λ _, en) w))).
Proof.
  intros He. unfold mark_failed. destruct (close_listeners_env sid e w He) as [en ->].
  rewrite set_state_ended. cbn. rewrite lookup_insert_eq.
  set (w1 := upd_env _ _). destruct (commit_meta_ended _ _ _ _ _ _ w1) as [rr w2] eqn:Hc.
  apply commit_meta_ended_spec in Hc as (d & f & Hd & Hcase). cbn in *.
  destruct rr as [[]|err]; [destruct Hcase as [_ ->]|subst w2].
  - eexists. split; [cbn; by rewrite insert_insert_eq|].
    cbn. split_and!; try done; [by left|].
    exists en, d, f. cbn. unfold upd_entries; cbn. by rewrite insert_insert_eq.
  - exists (set_listeners [] e). split; [done|]. cbn. split_and!; try done; [by right|].
    by exists en, d, f.
Qed.
End frames.

(** ** Stopping *)

Section stop.
Context {E : Type} `{HBE : !Backend E} (cfg : Config).
Implicit Types (w : World E).

(** The exit code and the code of the [die] event that a stop reports. *)
Definition died_with (main_end : MainEnd) : option Z :=
  match main_end with NoMain => Some 0%Z | MainExited code _ => Some code | MainUnknown => None end.


Definition untouched (w w' : World E) : Prop :=
  permits w' = permits w ∧ pending_names w' = pending_names w ∧ active_gauge w' = active_gauge w.


End stop.

Section stop_paused.
Context {E : Type}.
Implicit Types (w : World E).

(** The same backend with another way to unpause. *)
Definition with_unpause (B : Backend E) (f : string → E → result unit BackendError * E) : Backend E := {|
  be_create := be_create; be_get := be_get; be_remove := be_remove; be_stop := be_stop;
  be_start := be_start; be_adopt := be_adopt; be_exec := be_exec; be_put_secrets := be_put_secrets;
  be_update_limits := be_update_limits; be_image_config := be_image_config;
  be_resolve_image := be_resolve_image; be_snapshot_owner := be_snapshot_owner;
  be_pause := be_pause; be_unpause := f; fwd_open := fwd_open; fwd_close := fwd_close;
  guest_signal := guest_signal; guest_await := guest_await; volume_path := volume_path;
  volume_remove_unused := volume_remove_unused |}.

(** Stopping never thaws a paused sandbox.  The call of [thaw_if_paused] in
    a stop comes after the record was moved to [Stopping], where the sandbox
    does not count as paused any more: whatever the backend does to unpause a
    sandbox, even failing, makes no difference to a stop and to the state it
    leaves. *)
Theorem stop_never_thaws (B : Backend E) cfg f sid grace sig w :
  stop_resolved (HBE := with_unpause B f) cfg sid grace sig w = stop_resolved cfg sid grace sig w.
Proof.
  unfold stop_resolved. destruct (begin_stop cfg sid w) as [[[[before m]|]|err] w1] eqn:Hb; [|done..].
  assert (∃ e1, entries w1 !! sid = Some e1 ∧ status (meta e1) ≠ Running) as (e1 & He1 & Hs1).
  { destruct (entries w !! sid) as [e|] eqn:He;
      [|unfold begin_stop, sbind, get_entry in Hb; by rewrite He in Hb].
    assert (status (meta e) = Running ∨ status (meta e) = Exited) as Hlive.
    { unfold begin_stop, sbind, get_entry in Hb. rewrite He in Hb. cbn in Hb.
      destruct (status (meta e)); try done; auto. }
    eapply begin_stop_commit in Hb as [[_ [(e1 & -> & Hm & _)]]|(? & ? & _)]; [|done..].
    exists e1. by rewrite lookup_insert_eq, Hm. }
  by rewrite !(thaw_only_running _ e1 w1).
Qed.
End stop_paused.

(** ** Removing *)

Section removing.
Context {E : Type} `{HBE : !Backend E} (cfg : Config).
Context (order : gmap string SandboxEntry → list (string * SandboxEntry)).
Implicit Types (w : World E).

Lemma backend_remove_form sid w :
  ∃ en d, (backend_remove sid w).2 = upd_env (λ _, en) (upd_disk (λ _, d) w).
Proof.
  unfold backend_remove. destruct (be_remove sid (env w)) as [[r gone] en]. exists en.
  destruct gone; [by exists (delete sid (disk w))|exists (disk w); by destruct w].
Qed.

(** A cleanup but for what it does outside: the entry leaves, what is tied to
    it goes, and the removal is reported. *)
Lemma cleanup_world sid from_timeout w :
  ∃ en d, (cleanup_sandbox order sid from_timeout w).2 =
    report_removed (entries w !! sid) (if from_timeout then Some RETimeout else None)
      (upd_env (λ _, en) (upd_disk (λ _, d) (drop_tied sid (detach sid w).2))).
Proof.
  unfold cleanup_sandbox.
  assert (detach sid w = (entries w !! sid, (detach sid w).2)) as Hd
    by (unfold detach; by destruct (entries w !! sid)).
  rewrite Hd. cbn [snd]. unfold finish_cleanup. generalize (detach sid w).2 as w1. clear Hd. intros w1.
  generalize (drop_tied sid w1) as w2. intros w2.
  assert (∃ en, match entries w !! sid with Some e => close_all (listeners e) w2 | None => w2 end =
    upd_env (λ _, en) w2) as [en ->].
  { destruct (entries w !! sid); [by eexists|]. exists (env w2). by destruct w2. }
  destruct (backend_remove sid (upd_env (λ _, en) w2)) as [r w3] eqn:Hb.
  destruct (backend_remove_form sid (upd_env (λ _, en) w2)) as (en3 & d & Hw3).
  rewrite Hb in Hw3. cbn [snd] in Hw3. subst w3. clear Hb.
  destruct (entries w !! sid) as [e|]; [destruct (auto_remove (spec_of e))|].
  - unfold release_anonymous_volumes. eexists _, d. reflexivity.
  - by exists en3, d.
  - by exists en3, d.
Qed.

(** C9: Removal leaves nothing behind.  Whatever the backend answers, after the
    cleanup of [sid] by a client or by the wall-time timer the sandbox is out
    of the table, has no main process, no process record, no broker policy
    and log and no subscription on any topic; every other entry and main
    process is as before.  If there was a sandbox, one permit is free again,
    the gauge counts one less, and the events are [die] if it was running and
    then [destroy]; if there was none, these are unchanged. *)
Theorem cleanup_complete sid from_timeout w :
  let w' := (cleanup_sandbox order sid from_timeout w).2 in
  entries w' = delete sid (entries w) ∧
  mains w' = delete sid (mains w) ∧
  processes w' = filter (λ x, p_sandbox_id x.2 ≠ sid) (processes w) ∧
  policies (broker w') = delete sid (policies (broker w)) ∧
  log (broker w') !! sid = None ∧
  (∀ topic subs s, subscriptions (broker w') !! topic = Some subs → s ∈ subs → sandbox_id s ≠ sid) ∧
  pending_names w' = pending_names w ∧
  match entries w !! sid with
  | None => permits w' = permits w ∧ active_gauge w' = active_gauge w ∧ events w' = events w
  | Some e =>
      permits w' = S (permits w) ∧ active_gauge w' = (active_gauge w - 1)%Z ∧
      events w' = events w ++
        (if decide (status (meta e) = Running)
         then [killed_event (meta e) (if from_timeout then Some RETimeout else None) (clock w)]
         else []) ++
        [event_new EvDestroy (meta e) (clock w)]
  end.
Proof.
  cbn zeta.
  assert (∀ topic subs s, (filter (λ s, sandbox_id s ≠ sid) <$> subscriptions (broker w)) !! topic
    = Some subs → s ∈ subs → sandbox_id s ≠ sid) as Hsubs.
  { intros topic subs s Hl Hs. rewrite lookup_fmap in Hl.
    destruct (subscriptions (broker w) !! topic); [|done]. injection Hl as <-.
    by apply list_elem_of_filter in Hs as [? _]. }
  destruct (cleanup_world sid from_timeout w) as (en & d & ->). unfold detach, report_removed.
  destruct (entries w !! sid) as [e|] eqn:He; cbn; [case_decide|]; cbn;
    rewrite ?lookup_delete_eq, ?(delete_id (entries w)) by done; split_and!; try done.
  by rewrite <- app_assoc.
Qed.
End removing.

(** ** Publishing ports *)

(** What the port forwarder promises: a port asked for by number is the one
    opened, and the listeners that hold a host port are those opened and not
    closed. *)
Class ForwarderLaws (E : Type) `{!Backend E} := {
  bound : E → list PortListener;
  fwd_open_ok sid ip hp cp proto env l env' :
    fwd_open sid ip hp cp proto env = (Ok l, env') →
    (hp ≠ 0%Z → l = hp) ∧ bound env' ≡ₚ mkListener l ip cp :: bound env;
  fwd_open_err sid ip hp cp proto env err env' :
    fwd_open sid ip hp cp proto env = (Err err, env') → bound env' ≡ₚ bound env;
  fwd_close_ok l env rest :
    bound env ≡ₚ l :: rest → bound (fwd_close l env) ≡ₚ rest;
}.

Section ports.
Context {E : Type} `{HBE : !Backend E} `{HF : !ForwarderLaws E}.
Implicit Types (w : World E).

Lemma open_in_range_spec above sid ip hp cp proto en r en' :
  open_in_range above sid ip hp cp proto en = (r, en') →
  match r with
  | Ok l => ((0 < hp)%Z → (hp ≤ l ≤ hp + Z.of_nat above)%Z) ∧ bound en' ≡ₚ mkListener l ip cp :: bound en
  | Err _ => bound en' ≡ₚ bound en
  end.
Proof.
  revert hp en. induction above as [|above IH]; intros hp en; cbn;
    destruct (fwd_open sid ip hp cp proto en) as [[l|err] en1] eqn:Ho.
  - intros [= <- <-]. apply fwd_open_ok in Ho as [Hl Hb]. split; [|done]. intros. rewrite Hl; lia.
  - apply fwd_open_err in Ho. destruct err; by intros [= <- <-].
  - intros [= <- <-]. apply fwd_open_ok in Ho as [Hl Hb]. split; [|done]. intros. rewrite Hl; lia.
  - apply fwd_open_err in Ho.
    destruct err; intros Hr; try (injection Hr as <- <-; done).
    apply IH in Hr. destruct r as [l|err]; [|by rewrite Hr].
    destruct Hr as [Hl Hb]. split; [|by rewrite Hb, Ho]. intros. specialize (Hl ltac:(lia)). lia.
Qed.

Lemma close_all_bound ls en rest :
  bound en ≡ₚ ls ++ rest → bound (foldl (λ en l, fwd_close l en) en ls) ≡ₚ rest.
Proof.
  revert en. induction ls as [|l ls IH]; intros en Hb; cbn; [done|].
  apply IH. by apply fwd_close_ok.
Qed.

(** A port as it is recorded once it is open. *)
Definition port_opened (p p' : PublishedPort) : Prop :=
  host_ip p' = host_ip p ∧ container_port p' = container_port p ∧ protocol p' = protocol p ∧
  host_port_end p' = 0%Z ∧
  ((0 < host_port p)%Z →
    (host_port p ≤ host_port p' ≤ Z.max (host_port_end p) (host_port p))%Z).
Definition listener_of (p : PublishedPort) : PortListener :=
  mkListener (host_port p) (host_ip p) (container_port p).

Lemma open_ports_spec sid idx ports opened w r w' :
  (∀ i, i ∈ idx → i < length ports) → NoDup idx →
  open_ports sid idx ports opened w = (r, w') →
  match r with
  | Err _ => ∀ rest, bound (env w) ≡ₚ opened ++ rest → bound (env w') ≡ₚ rest
  | Ok (ls, ports') =>
      ∃ new, ls = opened ++ new ∧ bound (env w') ≡ₚ new ++ bound (env w) ∧
        length ports' = length ports ∧
        (∀ i, i ∉ idx → ports' !! i = ports !! i) ∧
        (∀ i p, i ∈ idx → ports !! i = Some p → ∃ p', ports' !! i = Some p' ∧ port_opened p p') ∧
        Some <$> new = (λ i, listener_of <$> ports' !! i) <$> idx
  end.
Proof.
  revert ports opened w. induction idx as [|i idx IH]; intros ports opened w Hin Hnd; cbn.
  { intros [= <- <-]. exists []. rewrite app_nil_r. split_and!; try done. by intros ? ? ?%not_elem_of_nil. }
  apply NoDup_cons in Hnd as [Hni Hnd].
  destruct (lookup_lt_is_Some_2 ports i) as [p Hp]; [apply Hin; by left|]. rewrite Hp.
  unfold call, open_port. destruct (open_in_range _ _ _ _ _ _ _) as [[l|err] en1] eqn:Ho;
    apply open_in_range_spec in Ho.
  2: { intros [= <- <-]. intros rest Hb. cbn. apply close_all_bound.
       cbn. by rewrite Ho. }
  destruct Ho as [Hl Hb]. set (p' := mkPort _ _ _ _ _).
  intros Hr. apply IH in Hr; [|intros j Hj; rewrite length_insert; apply Hin; by right|done].
  destruct r as [[ls ports']|err].
  - destruct Hr as (new & -> & Hb2 & Hlen & Hother & Hopen & Hls). cbn in *.
    assert (ports' !! i = Some p') as Hpi.
    { rewrite Hother by done. apply list_lookup_insert_eq. apply Hin. by left. }
    exists (mkListener l (host_ip p) (container_port p) :: new).
    split_and!.
    + by rewrite <- app_assoc.
    + rewrite Hb2, Hb. cbn. by rewrite Permutation_middle.
    + by rewrite Hlen, length_insert.
    + intros j Hj. rewrite Hother by set_solver. apply list_lookup_insert_ne. set_solver.
    + intros j q [->|Hj]%elem_of_cons Hq.
      * exists p'. split; [done|]. replace q with p by congruence. unfold port_opened, p'. cbn.
        split_and!; try done. intros Hpos. specialize (Hl Hpos). lia.
      * apply Hopen; [done|]. rewrite list_lookup_insert_ne; [done|]. intros ->. done.
    + cbn. rewrite Hpi, Hls. done.
  - intros rest Hrest. apply Hr. cbn. rewrite Hb, Hrest. rewrite <- app_assoc. cbn.
    apply Permutation_middle.
Qed.

Lemma split_by_perm {A} (f : A → bool) (l : list A) :
  filter (λ i, f i = false) l ++ filter (λ i, f i = true) l ≡ₚ l.
Proof.
  induction l as [|i l IH]; [done|]. rewrite !filter_cons. destruct (f i) eqn:Hr.
  - rewrite decide_False, decide_True by done. by rewrite <- Permutation_middle, IH.
  - rewrite decide_True, decide_False by done. cbn. by rewrite IH.
Qed.

Lemma open_order_perm ports : open_order ports ≡ₚ seq 0 (length ports).
Proof. apply (split_by_perm (λ i, match ports !! i with Some p => _ | None => _ end)). Qed.

Lemma fmap_Some_Permutation {A} (l k : list A) : Some <$> l ≡ₚ Some <$> k → l ≡ₚ k.
Proof.
  assert (∀ m : list A, omap (λ x, x) (Some <$> m) = m) as Hm
    by (intros m; induction m as [|? ? IH]; cbn; [done|by rewrite IH]).
  intros Hp. rewrite <- (Hm l), <- (Hm k). by rewrite Hp.
Qed.

(** Publishing ports is all or nothing.  If opening the ports of a sandbox
    fails, exactly the host ports bound before are bound after: those opened
    on the way were closed.  If it succeeds, every mapping is recorded with a
    single host port, the one it asked for or one from its range, with its
    address, guest port and protocol unchanged, and the listeners returned are
    those of the recorded mappings, one each, and are what is bound in
    addition. *)
Theorem open_listeners_spec sid ports w r w' :
  open_listeners sid ports w = (r, w') →
  match r with
  | Err _ => bound (env w') ≡ₚ bound (env w)
  | Ok (ls, ports') =>
      Forall2 port_opened ports ports' ∧
      ls ≡ₚ listener_of <$> ports' ∧
      bound (env w') ≡ₚ ls ++ bound (env w)
  end.
Proof.
  unfold open_listeners. pose proof (open_order_perm ports) as Hperm. intros Hr.
  apply open_ports_spec in Hr;
    [|intros i; rewrite Hperm, elem_of_seq; lia|rewrite Hperm; apply NoDup_seq].
  destruct r as [[ls ports']|err]; [|by apply Hr].
  destruct Hr as (new & -> & Hb & Hlen & _ & Hopen & Hls). cbn [app] in *.
  split_and!; [| |done].
  - apply Forall2_same_length_lookup_2; [done|]. intros i p p' Hp Hp'.
    destruct (Hopen i p) as (q & Hq & Hpo); [|done|congruence].
    rewrite Hperm, elem_of_seq. apply lookup_lt_Some in Hp. lia.
  - apply fmap_Some_Permutation. rewrite Hls, Hperm, <- Hlen. clear.
    induction ports' as [|p ports' IH]; [done|]. cbn. rewrite <- fmap_S_seq, <- list_fmap_compose.
    by constructor.
Qed.
End ports.

(** ** Starting *)

Section start.
Context {E : Type} `{HBE : !Backend E} (cfg : Config).
Implicit Types (w : World E).

(** No coming save fails. *)
Definition no_faults w : Prop := Forall (λ f, f = None) (faults w).

Lemma commit_no_faults sid e s code reason w r w' :
  no_faults w → commit_meta_ended cfg sid e s code reason w = (r, w') → r = Ok tt ∧ no_faults w'.
Proof.
  unfold no_faults, commit_meta_ended, persist_meta, sbind. intros Hf.
  destruct (with_store cfg); cbn; [|by intros [= <- <-]].
  destruct (faults w) as [|f fs] eqn:Hw; cbn; [|apply Forall_cons in Hf as [-> Hf]];
    intros [= <- <-]; (split; [done|]); cbn; by rewrite Hw.
Qed.

(** A start in progress: [ek] is the entry of [sid] in [wk]. *)
Record starting w (sid : string) (e : SandboxEntry) (wk : World E) (ek : SandboxEntry)
    (s : SandboxStatus) : Prop := {
  sg_entries : entries wk = <[sid := ek]> (entries w);
  sg_options : options (meta ek) = options (meta e);
  sg_id : id (meta ek) = id (meta e);
  sg_manual : manually_stopped (meta ek) = false;
  sg_code : exit_code (meta ek) = None;
  sg_status : status (meta ek) = s;
  sg_untouched : untouched w wk;
  sg_clock : clock wk = clock w;
  sg_events : events wk = events w;
  sg_faults : no_faults w → no_faults wk;
}.

Lemma starting_env w sid e wk ek s en :
  starting w sid e wk ek s → starting w sid e (upd_env (λ _, en) wk) ek s.
Proof. intros []. by split. Qed.

Lemma starting_listeners w sid e wk ek s ls en :
  starting w sid e wk ek s →
  starting w sid e (upd_env (λ _, en) (upd_entries <[sid := set_listeners ls ek]> wk))
    (set_listeners ls ek) s.
Proof. intros [Hent ?????????]. split; try done. cbn. by rewrite Hent, insert_insert_eq. Qed.

Lemma starting_lookup w sid e wk ek s : starting w sid e wk ek s → entries wk !! sid = Some ek.
Proof. intros [-> _ _ _ _ _ _ _ _ _]. apply lookup_insert_eq. Qed.

Lemma begin_start_commit sid e w r w' :
  entries w !! sid = Some e →
  status (meta e) = Stopped ∨ status (meta e) = Exited ∨ status (meta e) = Failed →
  begin_start cfg sid w = (r, w') →
  (r = Ok (Some (comms (options (meta e)))) ∧ ∃ e', starting w sid e w' e' Creating) ∨
  (∃ err, r = Err err ∧ entries w' = entries w ∧ untouched w w').
Proof.
  intros He Hs. unfold begin_start, sbind, get_entry. rewrite He. cbn.
  assert (∀ r1 w1, commit_manual cfg sid e false Creating None w = (r1, w1) →
    match r1 with
    | Ok _ => ∃ e', starting w sid e w1 e' Creating
    | Err _ => entries w1 = entries w ∧ untouched w w1
    end) as Hcases.
  { intros r1 w1 Hc. pose proof Hc as Hcm.
    apply (commit_manual_cases _ _ _ _ _ _ _ _ _ He) in Hcm. destruct r1 as [[]|err].
    - destruct Hcm as [(e' & Hent & Hm & _ & _) (?&?&?&?&?&?&?&?&?&?&?) _].
      exists e'. split; rewrite ?Hm; try done.
      intros Hf. unfold commit_manual, commit_meta in Hc.
      destruct (commit_meta_ended _ _ _ _ _ _ w) as [[[]|?] w2] eqn:Hce; [|done].
      injection Hc as <-. by eapply commit_no_faults in Hce as [_ ?].
    - destruct Hcm as [? (?&?&_&_&_&_&_&_&?&_)]. done. }
  destruct Hs as [->|[->| ->]]; destruct (commit_manual _ _ _ _ _ _ w) as [[[]|err] w1];
    specialize (Hcases _ _ eq_refl); intros [= <- <-]; eauto.
Qed.

(** What a start promises for its outcome. *)
Definition start_outcome w (sid : string) (e : SandboxEntry) (r : result unit ApiError)
    (w' : World E) : Prop :=
  ∃ e', entries w' = <[sid := e']> (entries w) ∧ options (meta e') = options (meta e) ∧
    manually_stopped (meta e') = false ∧
    match r with
    | Ok _ =>
        status (meta e') = Running ∧ exit_code (meta e') = None ∧
        policies (broker w') !! sid = Some (comms (options (meta e))) ∧
        (command (spec_of e) ≠ [] → ∃ m, mains w' !! sid = Some m ∧ exit_raw m = None) ∧
        (with_store cfg = true → disk w' !! id (meta e) = Some (meta e')) ∧
        events w' = events w ++ [event_with_code EvStart (meta e') None (clock w)]
    | Err _ => no_faults w → status (meta e') = Failed ∧ listeners e' = []
    end.

(** A start that gives up before the record says [Running]. *)
Lemma mark_failed_outcome w sid e wk ek err :
  starting w sid e wk ek Creating →
  untouched w (mark_failed cfg sid wk) ∧ start_outcome w sid e (Err err) (mark_failed cfg sid wk).
Proof.
  intros Hsg. pose proof (starting_lookup _ _ _ _ _ _ Hsg) as Hek.
  destruct Hsg as [Hent Hopt Hid Hman Hcode Hst Hun Hclk Hev Hf].
  destruct (mark_failed_cases cfg sid ek wk Hek)
    as (e' & _ & Hopt' & Hls & Hman' & _ & en & d & f & Hmf).
  split; [by rewrite Hmf|].
  exists e'. rewrite Hmf. cbn. rewrite Hent, insert_insert_eq. split_and!; [done|congruence..|].
  intros Hnf%Hf. split; [|done].
  destruct (close_listeners_env sid ek wk Hek) as [en1 Hcl]. unfold mark_failed in Hmf.
  rewrite Hcl, set_state_ended in Hmf. cbn in Hmf. rewrite lookup_insert_eq in Hmf.
  destruct (commit_meta_ended _ _ _ _ _ _ _) as [rr w2] eqn:Hc.
  pose proof Hc as Hc'. eapply commit_no_faults in Hc' as [-> _]; [|done].
  apply commit_meta_ended_cases in Hc as [(e2 & Hent2 & Hm2 & _)]. cbn in *. subst w2. cbn in Hent2.
  rewrite insert_insert_eq in Hent2. apply (f_equal (lookup sid)) in Hent2.
  rewrite !lookup_insert_eq in Hent2. injection Hent2 as ->. by rewrite Hm2.
Qed.

Lemma commit_running_cases w sid e wk ek policy r w' :
  starting w sid e wk ek Creating →
  commit_running_and_register cfg sid policy wk = (r, w') →
  match r with
  | Ok _ => ∃ ek', starting w sid e w' ek' Running ∧ policies (broker w') !! sid = Some policy ∧
      (with_store cfg = true → disk w' !! id (meta e) = Some (meta ek'))
  | Err _ => starting w sid e w' ek Creating ∧ ~ no_faults w
  end.
Proof.
  intros Hsg. pose proof (starting_lookup _ _ _ _ _ _ Hsg) as Hek.
  destruct Hsg as [Hent Hopt Hid Hman Hcode Hst (Hp & Hn & Hg) Hclk Hev Hf].
  unfold commit_running_and_register, commit_meta, sbind, get_entry. rewrite Hek. cbn.
  destruct (commit_meta_ended _ _ _ _ _ _ wk) as [[[]|err] w1] eqn:Hc; intros [= <- <-];
    pose proof (λ H, commit_no_faults _ _ _ _ _ _ _ _ H Hc) as Hnf; apply commit_meta_ended_cases in Hc.
  - destruct Hc as [(e' & Hent' & Hm' & _ & _) (?&?&?&?&?&?&?&?&?&?&?) Hdisk].
    exists e'. split_and!.
    + split; cbn; rewrite ?Hm'; cbn -[stamp_times]; autorewrite with stamp; try done; try congruence.
      * by rewrite Hent', Hent, insert_insert_eq.
      * unfold untouched. cbn. split_and!; congruence.
      * intros Hw. by apply Hnf, Hf.
    + cbn. apply lookup_insert_eq.
    + cbn. intros Hs. rewrite (Hdisk Hs). cbn -[stamp_times]. autorewrite with stamp. rewrite Hid, Hm'. apply lookup_insert_eq.
  - destruct Hc as [Hent' (?&?&?&?&?&?&?&?&?&?&?)]. split; [|by intros Hw; destruct (Hnf (Hf Hw))].
    split; try congruence; [unfold untouched; split_and!; congruence|].
    intros Hw. by destruct (Hnf (Hf Hw)).
Qed.

Lemma spawn_main_cases sid e w r w' :
  entries w !! sid = Some e → spawn_main sid w = (r, w') →
  ∃ en, match r with
        | Ok _ => ∃ mm, w' = upd_env (λ _, en) (upd_mains (λ _, mm) w) ∧
            (command (spec_of e) ≠ [] → ∃ m, mm !! sid = Some m ∧ exit_raw m = None)
        | Err _ => w' = upd_env (λ _, en) w
        end.
Proof.
  intros He. unfold spawn_main, sbind, get_entry. rewrite He. cbn.
  case_bool_decide; cbn.
  { intros [= <- <-]. exists (env w), (mains w). by destruct w. }
  destruct (callE _ _ w) as [[h|err] w1] eqn:Hc; apply callE_env in Hc as [en ->]; cbn;
    [|intros [= <- <-]; by exists en].
  rewrite He. cbn. intros [= <- <-]. exists en.
  exists (<[sid := mkMain (handle_pid h) (handle_control h) None false]> (mains w)).
  split; [reflexivity|]. intros _. eexists. split; [apply lookup_insert_eq|done].
Qed.

(** The main process of a running sandbox could not be spawned. *)
Lemma fail_main_start_cases sid e w recorded w' :
  entries w !! sid = Some e → status (meta e) = Running →
  fail_main_start cfg sid w = (recorded, w') →
  recorded = true ∧ untouched w w' ∧ broker w' = broker w ∧
  ∃ e', entries w' = <[sid := e']> (entries w) ∧ options (meta e') = options (meta e) ∧
    manually_stopped (meta e') = manually_stopped (meta e) ∧ listeners e' = [] ∧
    (no_faults w → status (meta e') = Failed).
Proof.
  intros He Hst. unfold fail_main_start. rewrite He, decide_False by (rewrite Hst; auto).
  unfold commit_meta. destruct (commit_meta_ended _ _ _ _ _ _ w) as [rr w2] eqn:Hc.
  pose proof (λ H, commit_no_faults _ _ _ _ _ _ _ _ H Hc) as Hnf. apply commit_meta_ended_cases in Hc.
  assert (∃ e2, entries w2 = <[sid := e2]> (entries w) ∧ frame w w2 ∧
    options (meta e2) = options (meta e) ∧ manually_stopped (meta e2) = manually_stopped (meta e) ∧
    (no_faults w → status (meta e2) = Failed)) as (e2 & Hent2 & (?&?&?&_&_&_&_&_&?&_) & Hopt2 & Hman2 & Hst2).
  { destruct rr as [[]|err2].
    - destruct Hc as [(e2 & Hent2 & Hm2 & _) Hfr _]. exists e2. by rewrite Hent2, Hm2.
    - destruct Hc as [Hent2 Hfr]. exists e. rewrite Hent2, insert_id by done. split_and!; try done.
      intros Hw. by destruct (Hnf Hw). }
  assert (entries w2 !! sid = Some e2) as He2 by (by rewrite Hent2, lookup_insert_eq).
  cbn [snd]. destruct (close_listeners_env sid e2 w2 He2) as [en ->]. unfold emit_event. cbn.
  rewrite lookup_insert_eq. intros [= <- <-]. split_and!; try done.
  exists (set_listeners [] e2). cbn. rewrite Hent2, insert_insert_eq. by split_and!.
Qed.

Lemma failed_main_outcome w sid e wk ek ev err :
  starting w sid e wk ek Running →
  let '(recorded, w') := fail_main_start cfg sid (upd_events ev wk) in
  let w' := if (recorded : bool) then release_failed_start sid w' else w' in
  untouched w w' ∧ start_outcome w sid e (Err err) w'.
Proof.
  intros Hsg. pose proof (starting_lookup _ _ _ _ _ _ Hsg) as Hek.
  destruct Hsg as [Hent Hopt Hid Hman Hcode Hst Hun Hclk Hev Hf].
  destruct (fail_main_start _ _ _) as [recorded w1] eqn:Hfm.
  eapply fail_main_start_cases in Hfm as (-> & (?&?&?) & _ & e2 & Hent2 & Hopt2 & Hman2 & Hls2 & Hst2);
    [|done..]. cbn in *. unfold release_failed_start.
  destruct (call _ _) as [? w5] eqn:Hcall. apply call_env in Hcall as [en5 ->].
  destruct Hun as (?&?&?). split; [unfold untouched; split_and!; cbn; congruence|].
  exists e2. cbn. rewrite Hent2, Hent, insert_insert_eq. split_and!; try congruence. auto.
Qed.

(** C8: Starting a sandbox that is down ends in one of two ways.  On success its
    record is [Running] with no exit code and not marked as stopped by hand, in
    memory and on disk, the broker holds exactly its recorded policy, its
    main process, if it has a command, is running, and the one event added is
    [start].  On an error either the table is as before, or, unless a save
    failed, the record is [Failed] and no port is open.  Its options, every
    other sandbox, the permits, the names and the gauge stay as they are. *)
Theorem start_resolved_spec sid e w r w' :
  entries w !! sid = Some e →
  status (meta e) = Stopped ∨ status (meta e) = Exited ∨ status (meta e) = Failed →
  start_resolved cfg sid w = (r, w') →
  untouched w w' ∧
  ((entries w' = entries w ∧ ∃ err, r = Err err) ∨ start_outcome w sid e r w').
Proof.
  intros He Hdown. unfold start_resolved.
  destruct (begin_start cfg sid w) as [r0 w1] eqn:Hb.
  apply (begin_start_commit _ _ _ _ _ He Hdown) in Hb as [[-> [e1 Hsg]]|(err & -> & Hent & Hf)];
    [|intros [= <- <-]; eauto].
  pose proof (starting_lookup _ _ _ _ _ _ Hsg) as He1.
  destruct (close_listeners_env sid e1 w1 He1) as [en ->].
  apply (starting_listeners _ _ _ _ _ _ [] en) in Hsg. set (e2 := set_listeners [] e1) in *.
  destruct (call (be_start sid) _) as [[[]|be] w3] eqn:Hc; apply call_env in Hc as [en3 ->];
    apply (starting_env _ _ _ _ _ _ en3) in Hsg.
  2: { intros [= <- <-]. destruct (mark_failed_outcome _ _ _ _ _ (backend_err be) Hsg). auto. }
  pose proof (starting_lookup _ _ _ _ _ _ Hsg) as He2.
  destruct (reopen_listeners sid _) as [[[]|err] w4] eqn:Hc; apply (reopen_listeners_env _ _ _ _ _ He2) in Hc as [en4 Hc];
    [destruct Hc as [ls ->]; apply (starting_listeners _ _ _ _ _ _ ls en4) in Hsg|subst w4].
  2: { destruct (call _ _) as [? w5] eqn:Hc. apply call_env in Hc as [en5 ->].
       intros [= <- <-]. apply (starting_env _ _ _ _ _ _ en4), (starting_env _ _ _ _ _ _ en5) in Hsg.
       destruct (mark_failed_outcome _ _ _ _ _ err Hsg). auto. }
  set (e4 := set_listeners ls e2) in *. pose proof (starting_lookup _ _ _ _ _ _ Hsg) as He4.
  set (w4 := upd_env (λ _, en4) _) in *. clearbody w4.
  destruct (reapply_cpu_quota sid w4) as [rq w5] eqn:Hq.
  assert (∃ en5, w5 = upd_env (λ _, en5) w4) as [en5 ->].
  { unfold reapply_cpu_quota, recorded_limits, sbind, get_entry in Hq. rewrite He4 in Hq. cbn in Hq.
    case_match; [injection Hq as <- <-; exists (env w4); by destruct w4|by apply callE_env in Hq]. }
  apply (starting_env _ _ _ _ _ _ en5) in Hsg. destruct rq as [[]|err].
  2: { destruct (call _ _) as [? w6] eqn:Hc. apply call_env in Hc as [en6 ->].
       intros [= <- <-]. apply (starting_env _ _ _ _ _ _ en6) in Hsg.
       destruct (mark_failed_outcome _ _ _ _ _ err Hsg). auto. }
  destruct (commit_running_and_register _ _ _ _) as [[[]|err] w6] eqn:Hc;
    apply (commit_running_cases _ _ _ _ _ _ _ _ Hsg) in Hc.
  2: { destruct Hc as [[Hent Hopt _ Hman _ _ Hun _ _ _] Hnf]. intros [= <- <-]. split; [done|].
       right. exists e4. by split_and!. }
  destruct Hc as (e6 & Hsg6 & Hpol & Hdisk). clear Hsg.
  pose proof (starting_lookup _ _ _ _ _ _ Hsg6) as He6. unfold emit_event, emit_raw. rewrite He6.
  destruct (spawn_main sid _) as [rs w7] eqn:Hsp. apply (spawn_main_cases _ e6) in Hsp as [en7 Hsp]; [|done].
  destruct rs as [[]|err].
  - destruct Hsp as (mm & -> & Hmain). intros [= <- <-].
    destruct Hsg6 as [Hent Hopt Hid Hman Hcode Hst Hun Hclk Hev Hf]. split; [done|]. right.
    exists e6. cbn. split_and!; try done.
    + unfold spec_of in *. by rewrite <- Hopt.
    + by rewrite Hev, Hclk.
  - subst w7. apply (starting_env _ _ _ _ _ _ en7) in Hsg6.
    pose proof (failed_main_outcome _ _ _ _ _
      (λ l, l ++ [event_with_code EvStart (meta e6) None (clock w6)]) err Hsg6) as Hout.
    revert Hout. cbn. destruct (fail_main_start _ _ _) as [rec w9].
    intros [Hun Hout] [= <- <-]. auto.
Qed.
End start.

(** ** Witnesses *)

#[export] Instance PortListener_eq_dec : EqDecision PortListener.
Proof. solve_decision. Defined.

(** A backend for examples: every call succeeds, a main process ends at the
    first signal, and the environment is the list of open listeners. *)
Definition demo_info (sid : string) : SandboxInfo :=
  mkInfo sid Running "alpine" 100 None limits_default None "" (demo_spec "web" restart_default)
    [] None None None None None 0 false.
Definition demo_open (ip : IpAddr) (hp cp : Z) (en : list PortListener)
    : result Z BackendError * list PortListener :=
  let port := if (hp =? 0)%Z then 40000%Z else hp in
  if existsb (λ l, local_port l =? port)%Z en then (Err (BAddressInUse "in use"), en)
  else (Ok port, mkListener port ip cp :: en).
Fixpoint remove_one (l : PortListener) (en : list PortListener) : list PortListener :=
  match en with
  | [] => []
  | x :: en => if decide (x = l) then en else x :: remove_one l en
  end.
#[export] Instance demo_backend : Backend (list PortListener) := {|
  be_create sid _ en := (Ok (demo_info sid), en);
  be_get sid en := (Ok (demo_info sid), en);
  be_remove _ en := ((Ok tt, true), en);
  be_stop _ en := (Ok tt, en);
  be_start _ en := (Ok tt, en);
  be_adopt _ en := (Ok tt, en);
  be_exec _ _ en := (Ok (mkHandle "8" true), en);
  be_put_secrets _ _ _ en := (Ok tt, en);
  be_update_limits _ _ en := (Ok tt, en);
  be_image_config _ en := (Ok (mkImageConfig [] ["sh"] "" "" []), en);
  be_resolve_image _ _ en := (Ok (Some "sha256:00"), en);
  be_snapshot_owner _ en := (Ok "a1", en);
  be_pause _ en := (Ok tt, en);
  be_unpause _ en := (Ok tt, en);
  fwd_open _ ip hp cp _ en := demo_open ip hp cp en;
  fwd_close l en := remove_one l en;
  guest_signal _ _ en := (true, en);
  guest_await _ _ en := (Some (15%Z, false), en);
  volume_path v _ en := (Ok ("/vol/" +:+ v), en);
  volume_remove_unused _ _ en := en |}.

Lemma remove_one_perm l en : l ∈ en → en ≡ₚ l :: remove_one l en.
Proof.
  induction en as [|x en IH]; [by intros ?%not_elem_of_nil|]. cbn. case_decide as Hx; [by subst|].
  intros [->|Hin]%elem_of_cons; [done|]. rewrite (IH Hin) at 1. constructor.
Qed.

#[export] Program Instance demo_forwarder : ForwarderLaws (list PortListener) := {| bound := λ en, en |}.
Next Obligation.
  intros sid ip hp cp proto en l en'. cbn. unfold demo_open.
  case_match; [done|]. intros [= <- <-]. split; [|done]. intros Hne.
  by rewrite (proj2 (Z.eqb_neq _ _) Hne).
Qed.
Next Obligation.
  intros sid ip hp cp proto en l en'. cbn. unfold demo_open. case_match; by intros [= <- <-].
Qed.
Next Obligation.
  intros l en rest Hb. cbn. assert (l ∈ en) as Hin by (rewrite Hb; by left).
  apply (Permutation_cons_inv (a := l)). by rewrite <- remove_one_perm.
Qed.

Lemma open_listeners_spec_witness :
  let p := mkPort LOCALHOST 80 82 8080 Tcp in
  let w := demo_world [mkListener 80 LOCALHOST 1] Running in
  ∃ ports', (open_listeners "a1" [p] w).1 = Ok ([mkListener 81 LOCALHOST 8080], ports') ∧
    Forall2 port_opened [p] ports'.
Proof.
  set (p := mkPort _ _ _ _ _). set (w := demo_world _ _). exists [mkPort LOCALHOST 81 0 8080 Tcp].
  split; [reflexivity|].
  exact (proj1 (open_listeners_spec "a1" [p] w
    (Ok ([mkListener 81 LOCALHOST 8080], [mkPort LOCALHOST 81 0 8080 Tcp])) _ eq_refl)).
Defined.


Lemma start_resolved_spec_witness :
  let w := demo_world (E:=list PortListener) [] Stopped in
  policies (broker (start_resolved demo_config "a1" w).2) !! "a1" = Some (mkComms CommGroup (Some "team")).
Proof.
  intros w.
  assert ((start_resolved demo_config "a1" w).1 = Ok tt) as Hr by (vm_compute; reflexivity).
  destruct (start_resolved demo_config "a1" w) as [r w'] eqn:Hs. cbn in Hr |- *. subst r.
  destruct (start_resolved_spec demo_config "a1" (demo_entry "a1" Stopped) w (Ok tt) w'
    eq_refl (or_introl eq_refl) Hs) as [_ [[_ [err Herr]]|(e' & _ & _ & _ & _ & _ & Hpol & _)]];
    [discriminate Herr|exact Hpol].
Defined.

(** A start whose last save fails leaves the VM up and the record at
    [Creating], from where the sandbox can be neither stopped nor started. *)
Lemma start_save_failure_is_stuck :
  let w := upd_faults (λ _, [None; Some (mkFault (mkIo StorageFull "full") false)])
             (demo_world (E:=list PortListener) [] Stopped) in
  let '(r, w') := start_resolved demo_config "a1" w in
  (∃ err, r = Err err) ∧
  (begin_stop demo_config "a1" w').1 = Err (wrong_state "a1" Creating "stop") ∧
  (begin_start demo_config "a1" w').1 = Err (wrong_state "a1" Creating "start").
Proof. vm_compute. split; [by eexists|]. done. Qed.
