(* ===== verification/Image.v ===== *)
(** * Image: the cache of images

    Models the cache of [ward-core/src/backend/image.rs] and
    [ward-core/src/backend/image/manage.rs]: the directory of images with the
    references that name them, the sandboxes that hold them, the room a pull
    has, eviction, and the operations on them.  Every operation runs under the
    install lock from its first look at the directory on, and is one function
    here; the puller, the parser of references and the file system's failures
    are arguments. *)

From stdpp Require Import base list numbers option strings pretty gmap sets sorting.
From Stdlib Require Import ZArith Lia Ascii.
From S2P Require Import Prelude Text Protocol Archive Launch Manager.

Local Open Scope Z_scope.

(** ** Cache entries *)

Definition DIGEST_ALGORITHM_PREFIX : string := "sha256:".

Record HistoryEntry := mkHistory {
  h_created : option Z;
  h_created_by : string;
  h_comment : string;
  h_empty_layer : bool;
  h_size : Z;
}.
(** [ImageConfig] with its build steps. *)
Record StoredConfig := mkStoredConfig { sc_config : ImageConfig; sc_history : list HistoryEntry }.

Record CacheMeta := mkCacheMeta {
  image_ref : string;
  digest : string;
  size_bytes : Z;
  last_used_at : Z;
  c_config : option StoredConfig;
  c_created_at : option Z;
  author : option string;
  comment : option string;
  committed : bool;
  aliases : list string;
}.

Definition has_ref (m : CacheMeta) (reference : string) : bool :=
  bool_decide (digest m = reference) || bool_decide (image_ref m = reference) ||
  existsb (λ a, bool_decide (a = reference)) (aliases m).
Definition is_untagged (m : CacheMeta) : bool := bool_decide (image_ref m = digest m).
Definition refs (m : CacheMeta) : list string := image_ref m :: aliases m.

Definition set_refs (r : string) (l : list string) (m : CacheMeta) : CacheMeta :=
  mkCacheMeta r (digest m) (size_bytes m) (last_used_at m) (c_config m) (c_created_at m) (author m)
    (comment m) (committed m) l.
Definition set_used (t : Z) (m : CacheMeta) : CacheMeta :=
  mkCacheMeta (image_ref m) (digest m) (size_bytes m) t (c_config m) (c_created_at m) (author m)
    (comment m) (committed m) (aliases m).
Definition set_config (c : option StoredConfig) (m : CacheMeta) : CacheMeta :=
  mkCacheMeta (image_ref m) (digest m) (size_bytes m) (last_used_at m) c (c_created_at m) (author m)
    (comment m) (committed m) (aliases m).

Definition add_ref (reference : string) (m : CacheMeta) : CacheMeta :=
  if has_ref m reference then m
  else if is_untagged m then set_refs reference (aliases m) m
  else set_refs (image_ref m) (aliases m ++ [reference]) m.

Definition without_ref (reference : string) (m : CacheMeta) : CacheMeta :=
  let rest := filter (λ a, a ≠ reference) (aliases m) in
  if decide (image_ref m = reference) then
    match rest with
    | [] => set_refs (digest m) [] m
    | a :: rest => set_refs a rest m
    end
  else set_refs (image_ref m) rest m.

(** [digest.replace(':', "-")]. *)
Fixpoint digest_to_dir_name (d : string) : string :=
  match d with
  | EmptyString => EmptyString
  | String c d => String (if decide (c = ":"%char) then "-"%char else c) (digest_to_dir_name d)
  end.

(** ** The store *)

(** An operation of the file system that fails; a removal may have deleted the
    record before it failed. *)
Record IoFault := mkIoFault { io_fault : IoError; io_partial : bool }.

(** [dirs] are the directories of the cache, staging ones aside; one without a
    readable [meta.json] is [None] and is not empty.  [faults] decides which of
    the coming file operations fail. *)
Record Store := mkStore {
  dirs : gmap string (option CacheMeta);
  holders : gmap string string;
  io_faults : list (option IoFault);
}.
Record StoreConfig := mkStoreConfig {
  max_cached_images : nat;
  max_pull_bytes : Z;
  max_cache_bytes : Z;
}.

Definition ISt (A : Type) : Type := Store → result A BackendError * Store.
Definition iret {A} (a : A) : ISt A := λ s, (Ok a, s).
Definition ifail {A} (e : BackendError) : ISt A := λ s, (Err e, s).
Definition ibind {A B} (m : ISt A) (k : A → ISt B) : ISt B := λ s,
  match m s with (Ok a, s') => k a s' | (Err e, s') => (Err e, s') end.
Notation "'let*' x := m 'in' k" := (ibind m (λ x, k))
  (at level 10, x pattern, m at level 100, k at level 200) : ward_scope.
Notation "m ;* k" := (ibind m (λ _, k))
  (at level 100, k at level 200, right associativity) : ward_scope.

Definition set_dirs (d : gmap string (option CacheMeta)) (s : Store) : Store :=
  mkStore d (holders s) (io_faults s).
Definition next_fault (s : Store) : option IoFault * Store :=
  (mjoin (head (io_faults s)), mkStore (dirs s) (holders s) (tail (io_faults s))).

(** A file operation that changes the directories when it succeeds. *)
Definition io_op (f : gmap string (option CacheMeta) → gmap string (option CacheMeta)) : ISt unit := λ s,
  match next_fault s with
  | (Some e, s) => (Err (BIo (io_fault e)), s)
  | (None, s) => (Ok tt, set_dirs (f (dirs s)) s)
  end.

Definition write_meta_json (dir : string) (m : CacheMeta) : ISt unit := io_op <[dir := Some m]>.
(** [remove_dir_all]. *)
Definition remove_dir (dir : string) : ISt unit := λ s,
  match next_fault s with
  | (Some e, s) =>
      (Err (BIo (io_fault e)),
       if io_partial e then set_dirs (alter (λ _, None) dir (dirs s)) s else s)
  | (None, s) => (Ok tt, set_dirs (delete dir (dirs s)) s)
  end.
(** [rename] of a filled staging directory: one that exists is in the way. *)
Definition NOT_EMPTY : IoError := mkIo IoElse "Directory not empty (os error 39)".
Definition rename_to (dir : string) (m : option CacheMeta) : ISt unit := λ s,
  match dirs s !! dir with
  | Some _ => (Err (BIo NOT_EMPTY), s)
  | None => io_op <[dir := m]> s
  end.

Definition read_meta (dir : string) (s : Store) : option CacheMeta := mjoin (dirs s !! dir).

(** The entries with a readable record, in the order of their paths. *)
Definition entry_le (a b : string * CacheMeta) : Prop := str_le a.1 b.1.
#[export] Instance entry_le_dec : RelDecision entry_le := λ a b, decide (str_le a.1 b.1).
Definition entries_of (d : gmap string (option CacheMeta)) : list (string * CacheMeta) :=
  merge_sort entry_le (omap (λ x, (λ m, (x.1, m)) <$> x.2) (map_to_list d)).
Definition scan_cache_entries : ISt (list (string * CacheMeta)) := λ s,
  match next_fault s with
  | (Some e, s) => (Err (BIo (io_fault e)), s)
  | (None, s) => (Ok (entries_of (dirs s)), s)
  end.

(** [Iterator::find]. *)
Definition find_first {A} (p : A → bool) (l : list A) : option A := head (filter (λ x, p x = true) l).
Definition find_cache_entry_by_ref (reference : string) : ISt (option (string * CacheMeta)) :=
  let* l := scan_cache_entries in
  iret (find_first (λ x, has_ref x.2 reference) l).

(** ** Holders *)

Definition hold_digest (sandbox dig : string) (s : Store) : Store :=
  mkStore (dirs s) (<[sandbox := dig]> (holders s)) (io_faults s).
Definition hold_for (holder : option string) (dig : string) (s : Store) : Store :=
  match holder with Some sandbox => hold_digest sandbox dig s | None => s end.
Definition is_held (dig : string) (s : Store) : bool :=
  existsb (λ x, bool_decide (x.2 = dig)) (map_to_list (holders s)).
Definition is_protected (m : CacheMeta) (s : Store) : bool := committed m || is_held (digest m) s.

(** ** Room *)

Inductive OnFull := OnFullFail | OnFullEvict.
#[export] Instance OnFull_eq_dec : EqDecision OnFull.
Proof. solve_decision. Defined.

Record PullSession := mkPullSession { max_bytes : Z; cache_room : Z; used : Z }.

Definition total_size (l : list (string * CacheMeta)) : Z :=
  foldr Z.add 0 ((λ x, size_bytes x.2) <$> l).

Definition check_cache_room (p : PullSession) (bytes : Z) : result unit BackendError :=
  refuse_if (bytes >? cache_room p)
    (BResourceExhausted ("image cache is full: " +:+ pretty bytes +:+ " bytes do not fit in the " +:+
       pretty (cache_room p) +:+ " bytes left")).
Definition pull_charge (bytes : Z) (p : PullSession) : result unit BackendError * PullSession :=
  let p := mkPullSession (max_bytes p) (cache_room p) (saturating_add (used p) bytes) in
  (refuse_if (used p >? max_bytes p)
     (BResourceExhausted ("image layers exceed the pull limit of " +:+ pretty (max_bytes p) +:+ " bytes")) ;?
   check_cache_room p (used p), p).

(** [sort_by_key]: stable, lowest key first. *)
Fixpoint insert_by_key {A} (key : A → Z) (x : A) (l : list A) : list A :=
  match l with
  | [] => [x]
  | y :: l => if key x <=? key y then x :: y :: l else y :: insert_by_key key x l
  end.
Definition sort_by_key {A} (key : A → Z) (l : list A) : list A := foldr (insert_by_key key) [] l.

Section store.
Context (cfg : StoreConfig).
(** [validate_reference] followed by [whole], and the time of the call. *)
Context (whole : string → option string).

Definition validate_reference (reference : string) : result string BackendError :=
  ok_or (whole reference) (BInvalidArgument ("invalid reference format: " +:+ reference)).

Definition session (on_full : OnFull) : ISt PullSession :=
  let* l := scan_cache_entries in
  λ s,
    let kept := filter (λ x, (bool_decide (on_full = OnFullFail) || is_protected x.2 s) = true) l in
    (Ok (mkPullSession (max_pull_bytes cfg) (Z.max 0 (max_cache_bytes cfg - total_size kept)) 0), s).

(** [self.session(None, on_full)?.check_cache_room(size)]. *)
Definition require_room (on_full : OnFull) (size : Z) : ISt unit :=
  let* ps := session on_full in λ s, (check_cache_room ps size, s).

(** ** Eviction *)

Fixpoint evict_loop (needed : Z) (l : list (string * CacheMeta)) (u : Z) (s : Store) : Z * Store :=
  match l with
  | [] => (u, s)
  | (dir, m) :: l =>
      if saturating_add u needed <=? max_cache_bytes cfg then (u, s) else
      match remove_dir dir s with
      | (Ok _, s) => evict_loop needed l (Z.max 0 (u - size_bytes m)) s
      | (Err _, s) => evict_loop needed l u s
      end
  end.
Definition evictable (keep : string → bool) (l : list (string * CacheMeta)) (s : Store)
    : list (string * CacheMeta) :=
  sort_by_key (λ x, last_used_at x.2)
    (filter (λ x, (negb (is_protected x.2 s) && negb (keep (digest x.2))) = true) l).

Definition evict_for (needed : Z) : ISt unit :=
  let* l := scan_cache_entries in
  λ s,
    let '(u, s) := evict_loop needed (evictable (λ _, false) l s) (total_size l) s in
    (refuse_if (saturating_add u needed >? max_cache_bytes cfg)
      (BResourceExhausted ("image cache is full: " +:+ pretty needed +:+ " bytes do not fit in the " +:+
         pretty (Z.max 0 (max_cache_bytes cfg - u)) +:+ " bytes left")), s).

(** Remove each of the directories; a failure is only logged. *)
Definition remove_all (l : list (string * CacheMeta)) (s : Store) : Store :=
  foldl (λ s x, (remove_dir x.1 s).2) s l.
Definition run_lru_eviction (keep : string) : ISt unit :=
  let* l := scan_cache_entries in
  λ s,
    if (max_cached_images cfg =? 0)%nat || (length l <=? max_cached_images cfg)%nat then (Ok tt, s) else
    let to_evict := (length l - max_cached_images cfg)%nat in
    (Ok tt, remove_all (take to_evict (evictable (λ d, bool_decide (d = keep)) l s)) s).

(** ** Tags *)

Fixpoint untag_loop (reference dig : string) (l : list (string * CacheMeta)) : ISt unit :=
  match l with
  | [] => iret tt
  | (dir, m) :: l =>
      (if negb (bool_decide (digest m = dig)) && has_ref m reference
       then write_meta_json dir (without_ref reference m) else iret tt) ;*
      untag_loop reference dig l
  end.
Definition untag_others (reference dig : string) : ISt unit :=
  let* l := scan_cache_entries in untag_loop reference dig l.

(** ** Installing a pulled image *)

Record PulledImage := mkPulled { pulled_digest : string; pulled_config : StoredConfig; pulled_size : Z }.

Definition fresh_meta (p : PulledImage) (now : Z) : CacheMeta :=
  mkCacheMeta (pulled_digest p) (pulled_digest p) (pulled_size p) now None (Some now) None None false [].


(** The first part of an install: the record to go on with. *)
Definition find_or_rename (p : PulledImage) (on_full : OnFull) (now : Z) : ISt CacheMeta := λ s,
  let dir := digest_to_dir_name (pulled_digest p) in
  match read_meta dir s with
  | Some existing => (Ok existing, s)
  | None =>
      ((match on_full with
        | OnFullFail => require_room on_full (pulled_size p)
        | OnFullEvict => evict_for (pulled_size p)
        end) ;*
       rename_to dir None ;*
       iret (fresh_meta p now)) s
  end.

Definition install_entry (reference : string) (p : PulledImage) (on_full : OnFull)
    (holder : option string) (now : Z) : ISt CacheMeta :=
  let* m := find_or_rename p on_full now in
  untag_others reference (digest m) ;*
  let m := set_used now (set_config (Some (pulled_config p)) (add_ref reference m)) in
  write_meta_json (digest_to_dir_name (pulled_digest p)) m ;*
  (λ s, (Ok tt, hold_for holder (digest m) s)) ;*
  run_lru_eviction (digest m) ;*
  iret m.

(** ** Removing and tagging *)

(** [ImageStore::remove]. *)
Definition remove (reference : string) : ISt unit :=
  let* found := find_cache_entry_by_ref reference in
  match found with
  | None => ifail (BImageNotFound ("No such image: " +:+ reference))
  | Some (dir, m) =>
      let rest := without_ref reference m in
      if negb (bool_decide (reference = digest m)) && negb (is_untagged rest)
      then write_meta_json dir rest
      else λ s,
        if is_held (digest m) s
        then (Err (BInvalidArgument ("conflict: unable to remove " +:+ reference +:+
                ", a container is using its image")), s)
        else remove_dir dir s
  end.

Inductive Matched := MatchedTag (tag : string) | MatchedId.
Definition Found : Type := string * CacheMeta * Matched.

Definition same_reference (a b : string) : bool :=
  match whole a, whole b with Some a, Some b => bool_decide (a = b) | _, _ => false end.

Definition SHORT_ID_LEN : nat := 12.
Definition short (i : string) : string :=
  if (SHORT_ID_LEN <=? str_len i)%nat then String.substring 0 SHORT_ID_LEN i else i.
Definition short_image_id (dig : string) : string :=
  short (default dig (strip_prefix DIGEST_ALGORITHM_PREFIX dig)).

Definition is_hex_digit (c : ascii) : bool :=
  is_ascii_digit c || one_of ["a"; "b"; "c"; "d"; "e"; "f"; "A"; "B"; "C"; "D"; "E"; "F"]%char c.

Definition find_named (name : string) : ISt (option Found) :=
  let* l := scan_cache_entries in
  match find_first (λ x, has_ref x.2 name) l with
  | Some (dir, m) =>
      iret (Some (dir, m, if decide (digest m = name) then MatchedId else MatchedTag name))
  | None =>
      match head (omap (λ x, (λ stored, (x.1, x.2, MatchedTag stored)) <$>
                    find_first (λ stored, same_reference stored name) (refs x.2)) l) with
      | Some f => iret (Some f)
      | None =>
          let prefix := to_ascii_lowercase (default name (strip_prefix DIGEST_ALGORITHM_PREFIX name)) in
          if is_empty prefix || negb (forallb is_hex_digit (chars prefix)) then iret None
          else
            match filter (λ x, match strip_prefix DIGEST_ALGORITHM_PREFIX (digest x.2) with
                               | Some hex => starts_with prefix hex | None => false end = true) l with
            | [] => iret None
            | [(dir, m)] => iret (Some (dir, m, MatchedId))
            | _ => ifail (BInvalidArgument ("multiple IDs found with provided prefix: " +:+ prefix))
            end
      end
  end.
Definition require_named (name : string) : ISt Found :=
  let* f := find_named name in
  match f with
  | Some f => iret f
  | None => ifail (BImageNotFound ("No such image: " +:+ name))
  end.

Definition sandboxes_using (dig : string) (s : Store) : list string :=
  merge_sort str_le (filter (λ x, x.2 = dig) (map_to_list (holders s))).*1.

Record ImageRemoval := mkRemoval { untagged : list string; deleted : list string }.

(** The second half of [remove_image]: the image goes, unless it is in use. *)
Definition delete_named (f : Found) (force : bool) (running : gset string) : ISt ImageRemoval := λ s,
  let '(dir, m, matched) := f in
  let i := short_image_id (digest m) in
  let tags := filter (λ r, r ≠ digest m) (refs m) in
  let users := sandboxes_using (digest m) s in
  if match matched with MatchedId => (1 <? length tags)%nat && negb force | _ => false end
  then (Err (BInvalidArgument ("conflict: unable to delete " +:+ i +:+
          " (must be forced) - image is referenced in multiple repositories")), s)
  else
    match find_first (λ u, bool_decide (u ∈ running)) users with
    | Some u =>
        (Err (BInvalidArgument ("conflict: unable to delete " +:+ i +:+
           " (cannot be forced) - image is being used by running container " +:+ short u)), s)
    | None =>
        match head users, force with
        | Some u, false =>
            (Err (BInvalidArgument ("conflict: unable to delete " +:+ i +:+
               " (must be forced) - image is being used by stopped container " +:+ short u)), s)
        | _, _ => (remove_dir dir ;* iret (mkRemoval tags [digest m])) s
        end
    end.

(** [ImageStore::remove_image]. *)
Definition remove_named (name : string) (force : bool) (running : gset string) : ISt ImageRemoval :=
  let* f := require_named name in
  let '(dir, m, matched) := f in
  match matched with
  | MatchedTag tag =>
      let rest := without_ref tag m in
      if negb (is_untagged rest) then write_meta_json dir rest ;* iret (mkRemoval [tag] [])
      else delete_named f force running
  | MatchedId => delete_named f force running
  end.

Definition tag_image (src target : string) : ISt unit :=
  match validate_reference target with
  | Err e => ifail e
  | Ok _ =>
      let* f := require_named src in
      let '(dir, m, _) := f in
      if has_ref m target then iret tt else
      untag_others target (digest m) ;*
      write_meta_json dir (add_ref target m)
  end.

(** ** Committing a sandbox *)


End store.

(** ** What the store keeps *)

Definition is_digest (r : string) : bool := starts_with DIGEST_ALGORITHM_PREFIX r.

(** The references of an image: tags, none of them a digest and none twice, or
    the image's own digest when it has no tag. *)
Definition meta_ok (m : CacheMeta) : Prop :=
  is_digest (digest m) = true ∧ 0 ≤ size_bytes m ∧
  Forall (λ r, is_digest r = false) (aliases m) ∧ NoDup (refs m) ∧
  (image_ref m = digest m ∧ aliases m = [] ∨ is_digest (image_ref m) = false).

Definition dsize (o : option CacheMeta) : Z := match o with Some m => size_bytes m | None => 0 end.
Definition total_dirs (d : gmap string (option CacheMeta)) : Z := map_fold (λ _ o acc, dsize o + acc) 0 d.

(** Every image is where its digest says, and a reference names at most one. *)
Record DirsOk (d : gmap string (option CacheMeta)) : Prop := mkDirsOk {
  ok_dir : ∀ dir m, d !! dir = Some (Some m) → dir = digest_to_dir_name (digest m);
  ok_meta : ∀ dir m, d !! dir = Some (Some m) → meta_ok m;
  ok_unique : ∀ dir1 dir2 m1 m2 r, d !! dir1 = Some (Some m1) → d !! dir2 = Some (Some m2) →
    r ∈ refs m1 → r ∈ refs m2 → dir1 = dir2;
}.

Lemma has_ref_spec m r : has_ref m r = true ↔ r = digest m ∨ r ∈ refs m.
Proof.
  unfold has_ref, refs. rewrite !orb_true_iff, !bool_decide_eq_true, elem_of_cons, existsb_exists.
  setoid_rewrite bool_decide_eq_true. setoid_rewrite <- list_elem_of_In. naive_solver.
Qed.

Lemma ref_not_digest m r : meta_ok m → r ∈ refs m → is_digest r = true → r = digest m.
Proof.
  intros (_ & _ & Hal & _ & Hor) Hr Hd. unfold refs in Hr.
  rewrite Forall_forall in Hal. apply elem_of_cons in Hr as [->|Hr].
  - destruct Hor as [[? _]|?]; congruence.
  - specialize (Hal r Hr). cbn in Hal. congruence.
Qed.

(** Names are unique: by tag, and by digest. *)
Lemma has_ref_unique d dir1 dir2 m1 m2 r :
  DirsOk d → d !! dir1 = Some (Some m1) → d !! dir2 = Some (Some m2) →
  has_ref m1 r = true → has_ref m2 r = true → dir1 = dir2.
Proof.
  intros Hok H1 H2 Hr1 Hr2. pose proof (ok_meta d Hok _ _ H1) as Hm1.
  pose proof (ok_meta d Hok _ _ H2) as Hm2.
  rewrite (ok_dir d Hok _ _ H1), (ok_dir d Hok _ _ H2).
  apply has_ref_spec in Hr1 as [->|Hr1]; apply has_ref_spec in Hr2 as [Hr2|Hr2].
  - by rewrite Hr2.
  - f_equal. apply (ref_not_digest m2); [done..|]. apply Hm1.
  - subst r. f_equal. symmetry. apply (ref_not_digest m1); [done..|]. apply Hm2.
  - rewrite <- (ok_dir d Hok _ _ H1), <- (ok_dir d Hok _ _ H2). by eapply (ok_unique d Hok).
Qed.

Lemma elem_of_without r m x :
  NoDup (refs m) → x ∈ refs (without_ref r m) → x ≠ r ∧ x ∈ refs m ∨ x = digest m ∧ aliases (without_ref r m) = [].
Proof.
  unfold without_ref, refs. intros Hnd Hx. apply NoDup_cons in Hnd as [Hni _]. case_decide as Hr.
  - subst r. destruct (filter _ (aliases m)) as [|a rest] eqn:Ef; cbn in Hx.
    + right. set_solver.
    + left. rewrite <- Ef in Hx. apply list_elem_of_filter in Hx as [? ?]. split; [done|]. by right.
  - cbn in Hx. left. apply elem_of_cons in Hx as [->|Hx]; [split; [done|by left]|].
    apply list_elem_of_filter in Hx as [? ?]. split; [done|by right].
Qed.

Lemma without_ref_same r m :
  digest (without_ref r m) = digest m ∧ size_bytes (without_ref r m) = size_bytes m ∧
  committed (without_ref r m) = committed m.
Proof. unfold without_ref. case_decide; [|done]. by destruct (filter _ _). Qed.

Lemma without_ref_ok r m : meta_ok m → meta_ok (without_ref r m).
Proof.
  intros (Hd & Hs & Hal & Hnd & Hor). unfold meta_ok. destruct (without_ref_same r m) as (-> & -> & _).
  unfold refs in *. apply NoDup_cons in Hnd as [Hni Hnd].
  assert (Hnf : NoDup (filter (λ a, a ≠ r) (aliases m))) by (by apply NoDup_filter).
  assert (Haf : Forall (λ a, is_digest a = false) (filter (λ a, a ≠ r) (aliases m))).
  { rewrite Forall_forall in *. intros x [_ Hx]%list_elem_of_filter. by apply Hal. }
  unfold without_ref. case_decide as Hr.
  - destruct (filter _ _) as [|a rest]; cbn.
    + split_and!; [done..|apply NoDup_singleton|by left].
    + apply Forall_cons in Haf as [Ha Haf]. split_and!; [done..|by right].
  - cbn. split_and!; [done..| |].
    + constructor; [|done]. intros [_ ?]%list_elem_of_filter. done.
    + destruct Hor as [[? ->]|?]; [by left|by right].
Qed.

Lemma add_ref_spec r m :
  digest (add_ref r m) = digest m ∧ size_bytes (add_ref r m) = size_bytes m ∧
  committed (add_ref r m) = committed m ∧
  (meta_ok m → is_digest r = false → meta_ok (add_ref r m) ∧ r ∈ refs (add_ref r m) ∧
   ∀ x, x ∈ refs (add_ref r m) → x = r ∨ x ∈ refs m).
Proof.
  unfold add_ref. destruct (has_ref m r) eqn:Eh.
  - split_and!; [done..|]. intros Hok Hr. apply has_ref_spec in Eh. split_and!; [done| |by right].
    destruct Eh as [->|?]; [|done]. destruct Hok as (Hd & _). congruence.
  - assert (Hni : r ∉ refs m) by (intros Hin; apply not_true_iff_false in Eh; apply Eh, has_ref_spec; by right).
    unfold is_untagged. case_bool_decide as Eu; (split_and!; [done..|]); intros (Hd & Hs & Hal & Hnd & Hor) Hr;
      unfold meta_ok, refs in *; cbn; apply NoDup_cons in Hnd as [Hnot Hnd].
    + split_and!; [done..| |by right|by left|set_solver].
      constructor; [|done]. set_solver.
    + split_and!; [done..| | | |set_solver|set_solver].
      * apply Forall_app. by repeat constructor.
      * apply NoDup_cons. split; [set_solver|]. apply NoDup_app. split_and!; [done| |apply NoDup_singleton].
        set_solver.
      * destruct Hor as [[? _]|?]; [done|by right].
Qed.

(** *** Sizes *)

Lemma total_dirs_insert d dir o :
  d !! dir = None → total_dirs (<[dir := o]> d) = dsize o + total_dirs d.
Proof. intros H. unfold total_dirs. rewrite map_fold_insert_L; [done| |done]. intros. lia. Qed.
Lemma total_dirs_delete d dir o :
  d !! dir = Some o → total_dirs d = dsize o + total_dirs (delete dir d).
Proof. intros H. unfold total_dirs. rewrite (map_fold_delete_L _ _ dir o); [done| |done]. intros. lia. Qed.
Lemma total_dirs_set d dir o o' :
  d !! dir = Some o → total_dirs (<[dir := o']> d) = total_dirs d - dsize o + dsize o'.
Proof.
  intros H. rewrite <- insert_delete_eq, total_dirs_insert by apply lookup_delete_eq.
  rewrite (total_dirs_delete d dir o H). lia.
Qed.
Lemma total_entries d : total_size (entries_of d) = total_dirs d.
Proof.
  unfold total_size, entries_of.
  assert (Hp : ∀ l1 l2 : list (string * CacheMeta), l1 ≡ₚ l2 →
    foldr Z.add 0 ((λ x, size_bytes x.2) <$> l1) = foldr Z.add 0 ((λ x, size_bytes x.2) <$> l2)).
  { induction 1; cbn; lia. }
  rewrite (Hp _ _ (merge_sort_Permutation entry_le _)).
  unfold total_dirs. rewrite map_fold_foldr. induction (map_to_list d) as [|[dir [m|]] l IH]; cbn in *; lia.
Qed.

Lemma elem_entries d dir m : (dir, m) ∈ entries_of d ↔ d !! dir = Some (Some m).
Proof.
  unfold entries_of. rewrite (merge_sort_Permutation entry_le), list_elem_of_omap. split.
  - intros ([dir' o] & Hin & Hx). apply elem_of_map_to_list in Hin. destruct o as [m'|]; [|done].
    by injection Hx as -> ->.
  - intros H. exists (dir, Some m). split; [by apply elem_of_map_to_list|done].
Qed.
Lemma NoDup_entries d : NoDup (entries_of d).*1.
Proof.
  unfold entries_of.
  rewrite (merge_sort_Permutation entry_le).
  pose proof (NoDup_fst_map_to_list d) as Hnd. revert Hnd.
  induction (map_to_list d) as [|[dir [m|]] l IH]; cbn; [constructor|..]; rewrite NoDup_cons; intros [Hni Hnd].
  - constructor; [|by apply IH]. intros ([x m'] & -> & (y & Hy & Hm)%list_elem_of_omap)%list_elem_of_fmap.
    destruct y as [x' [m''|]]; [|done]. injection Hm as <- <-. apply Hni.
    apply list_elem_of_fmap. by exists (x', Some m'').
  - by apply IH.
Qed.

(** *** Changes of the directories *)

Definition nonneg_sizes (d : gmap string (option CacheMeta)) : Prop :=
  ∀ dir o, d !! dir = Some o → 0 ≤ dsize o.
Lemma dirs_ok_nonneg d : DirsOk d → nonneg_sizes d.
Proof. intros Hok dir [m|] H; [|done]. by apply (ok_meta d Hok) in H as (_ & ? & _). Qed.

Lemma total_dirs_nonneg d : nonneg_sizes d → 0 ≤ total_dirs d.
Proof.
  unfold total_dirs. apply (map_fold_weak_ind (M := gmap string) (λ acc d, nonneg_sizes d → 0 ≤ acc)); [lia|].
  intros i o d' acc Hi IH Hd. assert (0 ≤ dsize o) by (apply (Hd i); apply lookup_insert_eq).
  assert (0 ≤ acc); [|lia]. apply IH. intros j o' Hj. apply (Hd j).
  rewrite lookup_insert_ne; [done|congruence].
Qed.

Lemma dirs_ok_delete d dir :
  DirsOk d → DirsOk (delete dir d) ∧ total_dirs (delete dir d) ≤ total_dirs d.
Proof.
  intros Hok. split.
  - destruct Hok as [H1 H2 H3]. constructor; intros *; rewrite ?lookup_delete_Some; naive_solver.
  - destruct (d !! dir) as [o|] eqn:E; [|by rewrite delete_id].
    rewrite (total_dirs_delete d dir o E). pose proof (dirs_ok_nonneg d Hok dir o E). lia.
Qed.
Lemma dirs_ok_orphan d dir :
  DirsOk d → DirsOk (<[dir := None]> d) ∧ total_dirs (<[dir := None]> d) ≤ total_dirs d.
Proof.
  intros Hok. split.
  - destruct Hok as [H1 H2 H3]. constructor; intros *; rewrite ?lookup_insert_Some; naive_solver.
  - destruct (d !! dir) as [o|] eqn:E.
    + rewrite (total_dirs_set d dir o None E). pose proof (dirs_ok_nonneg d Hok dir o E). cbn. lia.
    + rewrite total_dirs_insert by done. cbn. lia.
Qed.
Lemma dirs_ok_alter d dir :
  DirsOk d → DirsOk (alter (λ _, None) dir d) ∧ total_dirs (alter (λ _, None) dir d) ≤ total_dirs d.
Proof.
  intros Hok. destruct (d !! dir) as [o|] eqn:E.
  - replace (alter (λ _, None) dir d) with (<[dir := None]> d); [by apply dirs_ok_orphan|].
    apply map_eq. intros i. destruct (decide (i = dir)) as [->|Hne].
    + by rewrite lookup_insert_eq, lookup_alter_eq, E.
    + by rewrite lookup_insert_ne, lookup_alter_ne by done.
  - replace (alter (λ _, None) dir d) with d; [done|]. apply map_eq. intros i.
    destruct (decide (i = dir)) as [->|Hne]; [by rewrite lookup_alter_eq, E|by rewrite lookup_alter_ne].
Qed.

(** Writing a record whose references no other image has. *)
Lemma dirs_ok_write d dir m :
  DirsOk d → dir = digest_to_dir_name (digest m) → meta_ok m →
  (∀ dir' m' r, dir' ≠ dir → d !! dir' = Some (Some m') → r ∈ refs m → r ∉ refs m') →
  DirsOk (<[dir := Some m]> d).
Proof.
  intros [H1 H2 H3] Hdir Hok Hnew. constructor.
  - intros dir' m'. rewrite lookup_insert_Some. naive_solver.
  - intros dir' m'. rewrite lookup_insert_Some. naive_solver.
  - intros d1 d2 m1 m2 r. rewrite !lookup_insert_Some.
    intros [[<- [= <-]]|[Hn1 Hd1]] [[<- [= <-]]|[Hn2 Hd2]] Hr1 Hr2; [done|..|by eapply H3].
    + exfalso. by eapply (Hnew d2 m2 r).
    + exfalso. by eapply (Hnew d1 m1 r).
Qed.

(** Dropping a reference from an image. *)
Lemma dirs_ok_without d dir m r :
  DirsOk d → d !! dir = Some (Some m) →
  DirsOk (<[dir := Some (without_ref r m)]> d) ∧
  total_dirs (<[dir := Some (without_ref r m)]> d) = total_dirs d.
Proof.
  intros Hok Hm. destruct (without_ref_same r m) as (Ed & Es & _). split.
  - pose proof (ok_meta d Hok _ _ Hm) as Hmok. apply dirs_ok_write; [done| |by apply without_ref_ok|].
    + rewrite Ed. by apply (ok_dir d Hok).
    + intros dir' m' x Hne Hm' Hx Hx'. pose proof Hmok as (Hdig & _ & _ & Hnd & _).
      apply elem_of_without in Hx as [[_ Hx]|[-> _]]; [|..|done].
      * by apply Hne, (ok_unique d Hok _ _ _ _ x Hm' Hm).
      * apply Hne. apply (has_ref_unique d _ _ m' m (digest m) Hok Hm' Hm); apply has_ref_spec; auto.
  - rewrite (total_dirs_set d dir (Some m)) by done. cbn. lia.
Qed.

Lemma find_first_Some {A} (p : A → bool) l x : find_first p l = Some x → x ∈ l ∧ p x = true.
Proof.
  unfold find_first. intros H. assert (Hin : x ∈ filter (λ x, p x = true) l).
  { destruct (filter _ l); [done|]. injection H as ->. by left. }
  apply list_elem_of_filter in Hin. naive_solver.
Qed.
Lemma find_first_None {A} (p : A → bool) l : find_first p l = None → ∀ x, x ∈ l → p x = false.
Proof.
  unfold find_first. intros H x Hx. apply not_true_iff_false. intros Hp.
  assert (Hin : x ∈ filter (λ x, p x = true) l) by (by apply list_elem_of_filter).
  destruct (filter _ l); [by apply not_elem_of_nil in Hin|done].
Qed.

(** *** Assertions on the directories and the holders *)

Definition DPred : Type := gmap string (option CacheMeta) → gmap string string → Prop.

(** [m] run where [P] holds ends with [Q], or with [X] when it fails. *)
Definition triple {A} (P : DPred) (m : ISt A) (Q : A → DPred) (X : DPred) : Prop :=
  ∀ s, P (dirs s) (holders s) →
    match m s with
    | (Ok a, s') => Q a (dirs s') (holders s')
    | (Err _, s') => X (dirs s') (holders s')
    end.

Section triples.
Context {A B : Type}.
Implicit Types (P X : DPred).

Lemma triple_ret (a : A) P (Q : A → DPred) X : (∀ d h, P d h → Q a d h) → triple P (iret a) Q X.
Proof. intros H s Hs. by apply H. Qed.
Lemma triple_fail e P (Q : A → DPred) X : (∀ d h, P d h → X d h) → triple P (ifail e) Q X.
Proof. intros H s Hs. by apply H. Qed.
Lemma triple_bind P (m : ISt A) (k : A → ISt B) R Q X :
  triple P m R X → (∀ a, triple (R a) (k a) Q X) → triple P (ibind m k) Q X.
Proof.
  intros Hm Hk s Hs. unfold ibind. specialize (Hm s Hs).
  destruct (m s) as [[a|e] s']; [|done]. by apply Hk.
Qed.
Lemma triple_conseq P P' (m : ISt A) (Q Q' : A → DPred) X X' :
  triple P' m Q' X' → (∀ d h, P d h → P' d h) → (∀ a d h, Q' a d h → Q a d h) →
  (∀ d h, X' d h → X d h) → triple P m Q X.
Proof.
  intros Hm HP HQ HX s Hs. specialize (Hm s (HP _ _ Hs)).
  destruct (m s) as [[a|e] s']; auto.
Qed.
(** A read of the state that changes neither. *)
Lemma triple_pure P (m : ISt A) (Q : A → DPred) X :
  (∀ s, P (dirs s) (holders s) → (m s).2 = s ∧
    match (m s).1 with Ok a => Q a (dirs s) (holders s) | Err _ => X (dirs s) (holders s) end) →
  triple P m Q X.
Proof.
  intros H s Hs. destruct (H s Hs) as [H2 H1]. destruct (m s) as [[a|e] s']; cbn in *; by subst.
Qed.
Lemma triple_io_op P f :
  triple P (io_op f) (λ _ d h, ∃ d0, P d0 h ∧ d = f d0) P.
Proof. intros s Hs. unfold io_op, next_fault. destruct (mjoin _); cbn; eauto. Qed.
Lemma triple_scan P :
  triple P scan_cache_entries (λ l d h, P d h ∧ l = entries_of d) P.
Proof. intros s Hs. unfold scan_cache_entries, next_fault. destruct (mjoin _); cbn; eauto. Qed.
Lemma triple_rename P dir o :
  triple P (rename_to dir o) (λ _ d h, ∃ d0, P d0 h ∧ d0 !! dir = None ∧ d = <[dir := o]> d0) P.
Proof.
  intros s Hs. unfold rename_to. destruct (dirs s !! dir) eqn:E; [done|].
  unfold io_op, next_fault. destruct (mjoin _); cbn; eauto.
Qed.
End triples.

Lemma triple_find (P : DPred) r :
  triple P (find_cache_entry_by_ref r)
    (λ o d h, P d h ∧ o = find_first (λ x, has_ref x.2 r) (entries_of d)) P.
Proof.
  unfold find_cache_entry_by_ref. eapply triple_bind; [apply triple_scan|]. intros l. apply triple_ret. intros d h [? ->]. done.
Qed.
Lemma insert_by_key_Permutation {A} (key : A → Z) x l : insert_by_key key x l ≡ₚ x :: l.
Proof. induction l as [|y l IH]; [done|]. cbn. case_match; [done|]. rewrite IH. constructor. Qed.
Lemma sort_by_key_Permutation {A} (key : A → Z) l : sort_by_key key l ≡ₚ l.
Proof. induction l as [|x l IH]; [done|]. cbn. by rewrite insert_by_key_Permutation, IH. Qed.

Section kept.
Context (cfg : StoreConfig).

(** A committed image, or one that a sandbox other than [ex] holds. *)
Context (ex : option string).
Definition guarded (m : CacheMeta) (h : gmap string string) : Prop :=
  committed m = true ∨ ∃ sandbox, Some sandbox ≠ ex ∧ h !! sandbox = Some (digest m).
Definition Kept (dig : string) : DPred := λ d h,
  ∃ m, d !! digest_to_dir_name dig = Some (Some m) ∧ digest m = dig ∧ guarded m h.
(** The store within its limit, with the images [K] in it and guarded. *)
Definition Good (K : gset string) : DPred := λ d h,
  DirsOk d ∧ total_dirs d ≤ max_cache_bytes cfg ∧ ∀ dig, dig ∈ K → Kept dig d h.

Lemma is_held_spec dig s : is_held dig s = true ↔ ∃ sandbox, holders s !! sandbox = Some dig.
Proof.
  unfold is_held. rewrite existsb_exists. setoid_rewrite bool_decide_eq_true. split.
  - intros ([sb x] & Hin & <-). exists sb. by apply elem_of_map_to_list, list_elem_of_In.
  - intros (sb & H). exists (sb, dig). split; [|done]. by apply list_elem_of_In, elem_of_map_to_list.
Qed.
Lemma guarded_protected m s : guarded m (holders s) → is_protected m s = true.
Proof.
  unfold is_protected, guarded. rewrite orb_true_iff, is_held_spec. intros [?|(sb & _ & ?)]; eauto.
Qed.

(** Removing directories of images that are not guarded. *)
Lemma good_removed K d h dir :
  Good K d h → (∀ dig, dig ∈ K → dir ≠ digest_to_dir_name dig) →
  Good K (delete dir d) h ∧ Good K (alter (λ _, None) dir d) h.
Proof.
  intros (Hok & Hsz & HK) Hne.
  destruct (dirs_ok_delete d dir Hok) as [Hd1 Hs1], (dirs_ok_alter d dir Hok) as [Hd2 Hs2].
  split; (split_and!; [done|lia|]); intros dig Hin; destruct (HK dig Hin) as (m & Hm & Hr); exists m.
  - rewrite lookup_delete_ne by (by apply Hne). done.
  - rewrite lookup_alter_ne by (by apply Hne). done.
Qed.

Lemma remove_dir_good K dir s r s' :
  Good K (dirs s) (holders s) → (∀ dig, dig ∈ K → dir ≠ digest_to_dir_name dig) →
  remove_dir dir s = (r, s') →
  Good K (dirs s') (holders s') ∧ holders s' = holders s ∧ total_dirs (dirs s') ≤ total_dirs (dirs s) ∧
  (∀ dir', dir' ≠ dir → dirs s' !! dir' = dirs s !! dir') ∧
  (r = Ok tt → dirs s' = delete dir (dirs s)).
Proof.
  intros HG Hne H. destruct (good_removed K _ _ dir HG Hne) as [H1 H2]. pose proof HG as (Hok & _ & _).
  unfold remove_dir, next_fault in H.
  destruct (mjoin (head (io_faults s))) as [f|]; [destruct (io_partial f)|]; injection H as <- <-; cbn.
  - split_and!; [done|done|by apply dirs_ok_alter|by intros; apply lookup_alter_ne|done].
  - done.
  - split_and!; [done|done|by apply dirs_ok_delete|by intros; apply lookup_delete_ne|done].
Qed.

(** The images that may go are not the guarded ones. *)
Lemma evictable_spec keep d s x :
  x ∈ evictable keep (entries_of d) s →
  x ∈ entries_of d ∧ ¬ guarded x.2 (holders s) ∧ keep (digest x.2) = false.
Proof.
  unfold evictable. rewrite sort_by_key_Permutation, list_elem_of_filter. intros [Hp Hin].
  apply andb_true_iff in Hp as [Hp Hk]. split_and!; [done| |by apply negb_true_iff].
  intros Hg%guarded_protected. rewrite Hg in Hp. done.
Qed.
Lemma NoDup_evictable keep d s : NoDup (evictable keep (entries_of d) s).*1.
Proof.
  unfold evictable. rewrite sort_by_key_Permutation.
  eapply sublist_NoDup; [exact (NoDup_entries d)|]. apply fmap_sublist, sublist_filter.
Qed.

(** Directories of evictable images are not those of guarded ones. *)
Lemma evictable_not_kept K keep d s x dig :
  Good K d (holders s) → dig ∈ K → x ∈ evictable keep (entries_of d) s → x.1 ≠ digest_to_dir_name dig.
Proof.
  intros (_ & _ & HK) Hin Hx Heq. destruct (HK dig Hin) as (m & Hm & _ & Hg).
  apply evictable_spec in Hx as (He & Hng & _). destruct x as [dir m']. cbn in *. subst dir.
  apply elem_entries in He. rewrite Hm in He. by injection He as ->.
Qed.

Lemma evict_loop_good K needed l u s u' s' :
  Good K (dirs s) (holders s) → NoDup l.*1 →
  (∀ x, x ∈ l → dirs s !! x.1 = Some (Some x.2) ∧ ∀ dig, dig ∈ K → x.1 ≠ digest_to_dir_name dig) →
  total_dirs (dirs s) ≤ u → evict_loop cfg needed l u s = (u', s') →
  Good K (dirs s') (holders s') ∧ holders s' = holders s ∧ total_dirs (dirs s') ≤ u'.
Proof.
  revert u s. induction l as [|[dir m] l IH]; intros u s HG Hnd Hl Hu H; cbn [evict_loop] in H.
  { by injection H as <- <-. }
  destruct (_ <=? _); [by injection H as <- <-|].
  apply NoDup_cons in Hnd as [Hni Hnd]. destruct (Hl (dir, m)) as [Hm Hne]; [by left|]. cbn in Hm, Hne.
  destruct (remove_dir dir s) as [r s1] eqn:E.
  destruct (remove_dir_good K dir s r s1 HG Hne E) as (HG1 & Hh1 & Ht1 & Hsame & Hdel).
  assert (Hl1 : ∀ x, x ∈ l → dirs s1 !! x.1 = Some (Some x.2) ∧
      ∀ dig, dig ∈ K → x.1 ≠ digest_to_dir_name dig).
  { intros x Hx. destruct (Hl x) as [Hx1 Hx2]; [by right|]. split; [|done].
    rewrite Hsame; [done|]. intros Heq. apply Hni. rewrite <- Heq. apply list_elem_of_fmap. by exists x. }
  destruct r as [[]|e]; (eapply IH in H as (? & ? & ?); [|done..|]); try (split_and!; [done|congruence|done]).
  - rewrite (Hdel eq_refl). pose proof (total_dirs_nonneg (dirs s1) (dirs_ok_nonneg _ (proj1 HG1))) as Hpos.
    rewrite (Hdel eq_refl) in Hpos.
    pose proof (total_dirs_delete (dirs s) dir (Some m) Hm) as Ht. cbn in Ht. lia.
  - lia.
Qed.

Lemma remove_all_good K l s :
  Good K (dirs s) (holders s) → (∀ x dig, x ∈ l → dig ∈ K → x.1 ≠ digest_to_dir_name dig) →
  Good K (dirs (remove_all l s)) (holders (remove_all l s)) ∧ holders (remove_all l s) = holders s ∧
  ∀ dir, dir ∉ l.*1 → dirs (remove_all l s) !! dir = dirs s !! dir.
Proof.
  unfold remove_all. revert s. induction l as [|x l IH]; intros s HG Hl; [done|]. cbn [foldl].
  destruct (remove_dir x.1 s) as [r s1] eqn:E. cbn [snd].
  destruct (remove_dir_good K x.1 s r s1 HG) as (HG1 & Hh1 & _ & Hsame & _);
    [intros dig; apply Hl; by left|done|].
  destruct (IH s1 HG1) as (HG2 & Hh2 & Hd2); [intros y dig Hy; apply Hl; by right|].
  split_and!; [done|congruence|]. intros dir Hdir. cbn in Hdir. rewrite Hd2, Hsame; [done|set_solver..].
Qed.

Lemma triple_evict_for K needed :
  max_cache_bytes cfg < U64_MAX →
  triple (Good K) (evict_for cfg needed)
    (λ _ d h, Good K d h ∧ total_dirs d + needed ≤ max_cache_bytes cfg) (Good K).
Proof.
  intros Hmax. unfold evict_for. eapply triple_bind; [apply triple_scan|]. intros l s [HG ->].
  destruct (evict_loop _ _ _ _ s) as [u s'] eqn:E.
  eapply (evict_loop_good K) in E as (HG' & _ & Hu);
    [|done|apply NoDup_evictable| |by rewrite total_entries].
  - unfold refuse_if. destruct (_ >? _) eqn:Eg; [done|]. split; [done|].
    rewrite Z.gtb_ltb, Z.ltb_ge in Eg. unfold saturating_add in Eg. lia.
  - intros x Hx. split.
    + apply evictable_spec in Hx as [Hx _]. by destruct x; apply elem_entries.
    + intros dig Hin. by eapply evictable_not_kept.
Qed.

Lemma triple_run_lru K m :
  triple (λ d h, Good K d h ∧ d !! digest_to_dir_name (digest m) = Some (Some m))
    (run_lru_eviction cfg (digest m))
    (λ _ d h, Good K d h ∧ d !! digest_to_dir_name (digest m) = Some (Some m)) (Good K).
Proof.
  unfold run_lru_eviction. eapply triple_bind.
  { eapply triple_conseq; [apply (triple_scan (λ d h, Good K d h ∧
      d !! digest_to_dir_name (digest m) = Some (Some m)))|by intros d h H|intros a d h H; exact H|
      by intros d h [? _]]. }
  intros l s [[HG Hm] ->]. destruct (_ || _); [done|]. cbn zeta.
  set (n := (_ - _)%nat). set (keep := λ d, bool_decide (d = digest m)).
  assert (Hsub : ∀ x, x ∈ take n (evictable keep (entries_of (dirs s)) s) →
    x ∈ evictable keep (entries_of (dirs s)) s).
  { intros x Hx. rewrite <- (take_drop n). apply elem_of_app. by left. }
  destruct (remove_all_good K (take n (evictable keep (entries_of (dirs s)) s)) s HG) as (HG' & _ & Hd).
  { intros x dig Hx Hin. eapply evictable_not_kept; [done..|by apply Hsub]. }
  split; [done|]. rewrite Hd; [done|].
  intros (x & Hx1 & Hx%Hsub)%list_elem_of_fmap. apply evictable_spec in Hx as (He & _ & Hk).
  destruct x as [dir m']. cbn in *. subst dir. apply elem_entries in He. rewrite Hm in He.
  injection He as <-. unfold keep in Hk. by rewrite bool_decide_eq_true_2 in Hk.
Qed.

(** Replacing a record by one of the same image. *)
Lemma good_write K d h dir m m' :
  Good K d h → d !! dir = Some (Some m) → digest m' = digest m → committed m' = committed m →
  size_bytes m' = size_bytes m → DirsOk (<[dir := Some m']> d) →
  Good K (<[dir := Some m']> d) h ∧ total_dirs (<[dir := Some m']> d) = total_dirs d.
Proof.
  intros (Hok & Hsz & HK) Hm Ed Ec Es Hok'.
  assert (Ht : total_dirs (<[dir := Some m']> d) = total_dirs d).
  { rewrite (total_dirs_set d dir (Some m)) by done. cbn. lia. }
  split; [|done]. split_and!; [done|lia|]. intros dig Hin. destruct (HK dig Hin) as (m0 & Hm0 & Hd0 & Hg0).
  destruct (decide (dir = digest_to_dir_name dig)) as [->|Hne].
  - rewrite Hm in Hm0. injection Hm0 as <-. exists m'. rewrite lookup_insert_eq. split_and!; [done|congruence|].
    unfold guarded in *. by rewrite Ec, Ed.
  - exists m0. by rewrite lookup_insert_ne.
Qed.

Lemma good_without K d h dir m r :
  Good K d h → d !! dir = Some (Some m) →
  Good K (<[dir := Some (without_ref r m)]> d) h ∧
  total_dirs (<[dir := Some (without_ref r m)]> d) = total_dirs d.
Proof.
  intros HG Hm. destruct (without_ref_same r m) as (Ed & Es & Ec).
  apply (good_write K d h dir m); try done. by apply dirs_ok_without; [apply HG|].
Qed.

Lemma ref_gone r m : meta_ok m → is_digest r = false → r ∉ refs (without_ref r m).
Proof.
  intros (Hd & _ & _ & Hnd & _) Hr Hin. apply elem_of_without in Hin as [[? _]|[-> _]]; [done|congruence|done].
Qed.

(** Entries still to be looked at while a tag moves. *)
Definition Untagging (K : gset string) (T : Z) (r dig dir0 : string) (o0 : option CacheMeta)
    (rest : list (string * CacheMeta)) : DPred := λ d h,
  Good K d h ∧ total_dirs d = T ∧ d !! dir0 = Some o0 ∧
  (∀ x, x ∈ rest → d !! x.1 = Some (Some x.2)) ∧
  ∀ dir m, d !! dir = Some (Some m) → (dir, m) ∈ rest ∨ digest m = dig ∨ r ∉ refs m.

Lemma triple_untag_loop K T r dig dir0 o0 rest :
  is_digest r = false → (∀ m, o0 = Some m → digest m = dig) → NoDup rest.*1 →
  triple (Untagging K T r dig dir0 o0 rest) (untag_loop r dig rest)
    (λ _, Untagging K T r dig dir0 o0 []) (Good K).
Proof.
  intros Hr Ho. induction rest as [|[dir m] rest IH]; intros Hnd; cbn [untag_loop].
  { by apply triple_ret. }
  apply NoDup_cons in Hnd as [Hni Hnd]. apply (triple_bind _ _ _ (λ _, Untagging K T r dig dir0 o0 rest));
    [clear IH|intros _; by apply IH].
  destruct (negb _ && has_ref m r) eqn:Ew.
  - apply andb_true_iff in Ew as [Hne%negb_true_iff _]. apply bool_decide_eq_false in Hne.
    eapply triple_conseq; [apply (triple_io_op (Untagging K T r dig dir0 o0 ((dir, m) :: rest)))|done| |by intros d h []].
    intros [] d h (d0 & (HG & HT & H0 & Hrest & Hall) & ->).
    assert (Hm : d0 !! dir = Some (Some m)) by (apply (Hrest (dir, m)); by left).
    destruct (good_without K d0 h dir m r HG Hm) as [HG' HT'].
    split_and!; [done|lia| | |].
    + rewrite lookup_insert_ne; [done|]. intros ->. rewrite Hm in H0. injection H0 as <-. by apply Hne, Ho.
    + intros x Hx. rewrite lookup_insert_ne; [apply Hrest; by right|]. intros ->. apply Hni.
      apply list_elem_of_fmap. by exists x.
    + intros dir' m'. rewrite lookup_insert_Some. intros [[<- [= <-]]|[Hn Hm']].
      * right; right. apply ref_gone; [|done]. by apply (ok_meta d0 (proj1 HG) dir).
      * destruct (Hall _ _ Hm') as [Hin|?]; [|by right].
        apply elem_of_cons in Hin as [[= -> ->]|Hin]; [done|by left].
  - apply triple_ret. intros d h (HG & HT & H0 & Hrest & Hall). split_and!; [done..| |].
    + intros x Hx. apply Hrest. by right.
    + intros dir' m' Hm'. destruct (Hall _ _ Hm') as [Hin|?]; [|by right].
      apply elem_of_cons in Hin as [[= -> ->]|Hin]; [|by left]. right.
      apply andb_false_iff in Ew as [Ew|Ew].
      * left. apply negb_false_iff in Ew. by apply bool_decide_eq_true in Ew.
      * right. intros Hin. apply not_true_iff_false in Ew. apply Ew, has_ref_spec. by right.
Qed.

Lemma triple_untag K T r dig dir0 o0 :
  is_digest r = false → (∀ m, o0 = Some m → digest m = dig) →
  triple (λ d h, Good K d h ∧ total_dirs d = T ∧ d !! dir0 = Some o0) (untag_others r dig)
    (λ _, Untagging K T r dig dir0 o0 []) (Good K).
Proof.
  intros Hr Ho. unfold untag_others. eapply triple_bind.
  { eapply triple_conseq; [apply (triple_scan (λ d h, Good K d h ∧ total_dirs d = T ∧ d !! dir0 = Some o0))
      |by intros d h H|intros a d h H; exact H|by intros d h [? _]]. }
  intros l s [(HG & HT & H0) ->].
  apply (triple_untag_loop K T r dig dir0 o0 _ Hr Ho (NoDup_entries (dirs s)) s).
  split_and!; [done..| |].
  - intros [dir m] Hx. by apply elem_entries.
  - intros dir m Hm. left. by apply elem_entries.
Qed.

Lemma filter_true {A} (p : A → bool) (l : list A) : (∀ x, p x = true) → filter (λ x, p x = true) l = l.
Proof. intros H. induction l as [|x l IH]; [done|]. by rewrite filter_cons_True, IH. Qed.

Lemma triple_session_room K on_full size :
  triple (Good K) (require_room cfg on_full size)
    (λ _ d h, Good K d h ∧ (on_full = OnFullFail → total_dirs d + size ≤ max_cache_bytes cfg)) (Good K).
Proof.
  unfold require_room, session. intros s HG. unfold ibind, scan_cache_entries, next_fault.
  destruct (mjoin _); [done|]. cbn -[check_cache_room entries_of].
  unfold check_cache_room, refuse_if. cbn. destruct (_ >? _) eqn:Eg; [done|]. split; [done|].
  intros ->. rewrite Z.gtb_ltb, Z.ltb_ge in Eg. rewrite bool_decide_eq_true_2 in Eg by done.
  rewrite filter_true, total_entries in Eg by done.
  destruct HG as (Hok & Hsz & _). cbn in *. lia.
Qed.

(** A holder added for [ex] takes no guard away. *)
Lemma good_hold K d h s dig :
  Good K d h → d = dirs s → h = holders s → Good K (dirs (hold_for ex dig s)) (holders (hold_for ex dig s)).
Proof.
  intros (Hok & Hsz & HK) -> ->. unfold hold_for. destruct ex as [sandbox|] eqn:Eex; [|done]. cbn.
  split_and!; [done..|]. intros dig' Hin. destruct (HK dig' Hin) as (m & Hm & Hd & Hg). exists m.
  split_and!; [done..|]. destruct Hg as [?|(sb & Hne & Hsb)]; [by left|right].
  exists sb. split; [done|]. rewrite lookup_insert_ne; [done|]. rewrite Eex in Hne. congruence.
Qed.

(** The directory [dir] is ready for the record of [m]: it has it, or it is new
    and there is room. *)
Definition Ready (K : gset string) (dir : string) (m : CacheMeta) : DPred := λ d h,
  Good K d h ∧ meta_ok m ∧ dir = digest_to_dir_name (digest m) ∧
  ∃ o, d !! dir = Some o ∧
    (o = Some m ∨
     o = None ∧ refs m = [digest m] ∧ total_dirs d + size_bytes m ≤ max_cache_bytes cfg).

Lemma ready_write K dir m r f d h :
  is_digest r = false →
  (∀ m, digest (f m) = digest m ∧ committed (f m) = committed m ∧ size_bytes (f m) = size_bytes m ∧
    refs (f m) = refs m ∧ aliases (f m) = aliases m ∧ image_ref (f m) = image_ref m) →
  Ready K dir m d h → (∀ dir' m', d !! dir' = Some (Some m') → digest m' ≠ digest m → r ∉ refs m') →
  Good K (<[dir := Some (f (add_ref r m))]> d) h.
Proof.
  intros Hr Hf (HG & Hmok & Hdir & o & Ho & Hcase) Hothers.
  destruct (Hf (add_ref r m)) as (Fd & Fc & Fs & Fr & Fa & Fi).
  destruct (add_ref_spec r m) as (Ad & As & Ac & Hadd). destruct (Hadd Hmok Hr) as (Haok & _ & Hsub).
  assert (Hfok : meta_ok (f (add_ref r m))).
  { unfold meta_ok. by rewrite Fd, Fs, Fr, Fa, Fi. }
  pose proof HG as (Hok & Hsz & HK).
  assert (Hd' : DirsOk (<[dir := Some (f (add_ref r m))]> d)).
  { apply dirs_ok_write; [done|by rewrite Fd, Ad|done|]. intros dir' m' x Hne Hm' Hx Hx'.
    assert (Hdig : digest m' ≠ digest m).
    { intros Heq. apply Hne. rewrite (ok_dir d Hok _ _ Hm'), Hdir. by rewrite Heq. }
    rewrite Fr in Hx. apply Hsub in Hx as [->|Hx]; [by eapply Hothers|].
    destruct Hcase as [->|(-> & Hrefs & _)].
    - by apply Hne, (ok_unique d Hok _ _ _ _ x Hm' Ho).
    - rewrite Hrefs in Hx. apply list_elem_of_singleton in Hx as ->. apply Hdig. symmetry.
      apply (ref_not_digest m'); [by apply (ok_meta d Hok dir')|done|apply Hmok]. }
  destruct Hcase as [->|(-> & Hrefs & Hroom)].
  - apply (good_write K d h dir m); try done; congruence.
  - split_and!; [done| |].
    + rewrite (total_dirs_set d dir None) by done. cbn. lia.
    + intros dig Hin. destruct (HK dig Hin) as (m0 & Hm0 & Hrest). exists m0.
      rewrite lookup_insert_ne; [done|]. intros ->. congruence.
Qed.

Lemma fresh_meta_ok p now :
  is_digest (pulled_digest p) = true → 0 ≤ pulled_size p → meta_ok (fresh_meta p now).
Proof. intros Hd Hs. split_and!; [done..|apply NoDup_singleton|by left]. Qed.

Lemma triple_make_room K on_full size :
  max_cache_bytes cfg < U64_MAX →
  triple (Good K)
    (match on_full with
     | OnFullFail => require_room cfg on_full size
     | OnFullEvict => evict_for cfg size
     end)
    (λ _ d h, Good K d h ∧ total_dirs d + size ≤ max_cache_bytes cfg) (Good K).
Proof.
  intros Hmax. destruct on_full; [|by apply triple_evict_for].
  eapply triple_conseq; [apply triple_session_room|by intros d h H| |by intros d h H].
  intros [] d h [HG Hroom]. split; [done|]. by apply Hroom.
Qed.

Lemma triple_find_or_rename K p on_full now :
  is_digest (pulled_digest p) = true → 0 ≤ pulled_size p → max_cache_bytes cfg < U64_MAX →
  triple (Good K) (find_or_rename cfg p on_full now)
    (λ m, Ready K (digest_to_dir_name (pulled_digest p)) m) (Good K).
Proof.
  intros Hpd Hps Hmax s HG. unfold find_or_rename. set (dir := digest_to_dir_name (pulled_digest p)).
  destruct (read_meta dir s) as [m|] eqn:Em.
  - unfold read_meta in Em. destruct (dirs s !! dir) as [[m'|]|] eqn:Ed; [|done..].
    injection Em as ->. pose proof HG as (Hok & _). split_and!; [done|by apply (ok_meta _ Hok dir)|
      by apply (ok_dir _ Hok)|]. exists (Some m). split; [done|by left].
  - refine (triple_bind _ _ _ (λ _ d h, Good K d h ∧ total_dirs d + pulled_size p ≤ max_cache_bytes cfg)
      _ _ (triple_make_room K on_full _ Hmax) _ s HG). intros _.
    eapply (triple_bind _ _ _ (λ _, Ready K dir (fresh_meta p now))); [|intros []; by apply triple_ret].
    eapply triple_conseq; [apply (triple_rename (λ d h, Good K d h ∧
      total_dirs d + pulled_size p ≤ max_cache_bytes cfg) dir None)|by intros d h H| |by intros d h []].
    intros [] d h (d0 & [(Hok & Hsz & HK) Hroom] & Hnone & ->).
    destruct (dirs_ok_orphan d0 dir Hok) as [Hok' Hle]. split_and!; [|by apply fresh_meta_ok|done|].
    + split_and!; [done|lia|]. intros dig Hin. destruct (HK dig Hin) as (m0 & Hm0 & Hrest). exists m0.
      rewrite lookup_insert_ne; [done|]. intros Heq. rewrite Heq in Hnone. congruence.
    + exists None. rewrite lookup_insert_eq. split; [done|]. right. split_and!; [done..|].
      rewrite total_dirs_insert by done. cbn. lia.
Qed.

(** No image but the one of [m] has the reference. *)
Definition Moved (r : string) (m : CacheMeta) : DPred := λ d _,
  ∀ dir' m', d !! dir' = Some (Some m') → digest m' ≠ digest m → r ∉ refs m'.

Lemma triple_move_tag K dir m r :
  is_digest r = false →
  triple (Ready K dir m) (untag_others r (digest m)) (λ _ d h, Ready K dir m d h ∧ Moved r m d h) (Good K).
Proof.
  intros Hr s (HG & Hmok & Hdir & o & Ho & Hcase).
  assert (Hod : ∀ m', o = Some m' → digest m' = digest m)
    by (intros m' ->; destruct Hcase as [[= ->]|[? _]]; done).
  pose proof (triple_untag K (total_dirs (dirs s)) r (digest m) dir o Hr Hod s) as Ht.
  specialize (Ht (conj HG (conj eq_refl Ho))).
  destruct (untag_others r (digest m) s) as [[[]|e] s']; [|done].
  destruct Ht as (HG' & HT & Ho' & _ & Hall). split.
  - split_and!; [done..|]. exists o. split; [done|]. by rewrite HT.
  - intros dir' m' Hm' Hne. destruct (Hall dir' m' Hm') as [?%not_elem_of_nil|[?|?]]; done.
Qed.

(** The record is written under its tag. *)
Definition Recorded (K : gset string) (dir r : string) (m : CacheMeta) : DPred := λ d h,
  Good K d h ∧ d !! dir = Some (Some m) ∧ dir = digest_to_dir_name (digest m) ∧ r ∈ refs m.

Lemma triple_record K dir m r f :
  is_digest r = false →
  (∀ m, digest (f m) = digest m ∧ committed (f m) = committed m ∧ size_bytes (f m) = size_bytes m ∧
    refs (f m) = refs m ∧ aliases (f m) = aliases m ∧ image_ref (f m) = image_ref m) →
  triple (λ d h, Ready K dir m d h ∧ Moved r m d h) (write_meta_json dir (f (add_ref r m)))
    (λ _, Recorded K dir r (f (add_ref r m))) (Good K).
Proof.
  intros Hr Hf. eapply triple_conseq; [apply (triple_io_op (λ d h, Ready K dir m d h ∧ Moved r m d h))
    |by intros d h H| |by intros d h [[] _]].
  intros [] d h (d0 & [HR Hall] & ->). pose proof HR as (_ & Hmok & Hdir & _).
  destruct (add_ref_spec r m) as (Ad & _ & _ & Hadd). destruct (Hf (add_ref r m)) as (Fd & _ & _ & Fr & _).
  split_and!; [by apply (ready_write K dir m r f)|by rewrite lookup_insert_eq|by rewrite Fd, Ad|].
  rewrite Fr. by apply Hadd.
Qed.

Lemma remove_all_holders l s : holders (remove_all l s) = holders s.
Proof.
  unfold remove_all. revert s. induction l as [|x l IH]; intros s; [done|]. cbn [foldl]. rewrite IH.
  unfold remove_dir, next_fault. destruct (mjoin _) as [f|]; [by destruct (io_partial f)|done].
Qed.
Lemma run_lru_holders dig s : holders (run_lru_eviction cfg dig s).2 = holders s.
Proof.
  unfold run_lru_eviction, ibind, scan_cache_entries, next_fault. destruct (mjoin _); [done|].
  destruct (_ || _); [done|]. cbn [snd]. by rewrite remove_all_holders.
Qed.

Lemma triple_install K reference p on_full now :
  is_digest reference = false → is_digest (pulled_digest p) = true → 0 ≤ pulled_size p →
  max_cache_bytes cfg < U64_MAX →
  triple (Good K) (install_entry cfg reference p on_full ex now)
    (λ m d h, Good K d h ∧ d !! digest_to_dir_name (digest m) = Some (Some m) ∧
       digest_to_dir_name (digest m) = digest_to_dir_name (pulled_digest p) ∧
       reference ∈ refs m ∧ ∀ sandbox, ex = Some sandbox → h !! sandbox = Some (digest m))
    (Good K).
Proof.
  intros Hr Hpd Hps Hmax. unfold install_entry.
  eapply triple_bind; [by apply triple_find_or_rename|]. intros m.
  eapply triple_bind; [by apply triple_move_tag|]. intros []. cbn zeta.
  set (m2 := set_used now (set_config (Some (pulled_config p)) (add_ref reference m))).
  eapply triple_bind; [by apply (triple_record K _ m reference
    (λ m, set_used now (set_config (Some (pulled_config p)) m)))|]. intros [].
  apply (triple_bind _ _ _ (λ _ d h, Recorded K (digest_to_dir_name (pulled_digest p)) reference m2 d h ∧
    ∀ sandbox, ex = Some sandbox → h !! sandbox = Some (digest m2))).
  { intros s (HG & Hm & Hdir & Hin). split; [split_and!; [by eapply good_hold| |done|done]|].
    - unfold hold_for. by destruct ex.
    - intros sandbox Hex. rewrite Hex. cbn. apply lookup_insert_eq. }
  intros [] s ((HG & Hm & Hdir & Hin) & Hhold). unfold ibind. rewrite Hdir in Hm.
  pose proof (triple_run_lru K m2 s (conj HG Hm)) as Ht. pose proof (run_lru_holders (digest m2) s) as Hh.
  destruct (run_lru_eviction cfg (digest m2) s) as [[[]|e] s']; [|done]. cbn in Hh.
  destruct Ht as [HG' Hm']. rewrite <- Hh in Hhold. cbn. split_and!; done.
Qed.


Lemma find_ref_Some d r dir m :
  find_first (λ x, has_ref x.2 r) (entries_of d) = Some (dir, m) →
  d !! dir = Some (Some m) ∧ has_ref m r = true.
Proof. intros [Hin Hr]%find_first_Some. by apply elem_entries in Hin. Qed.


Lemma triple_find_named K whole name :
  triple (Good K) (find_named whole name)
    (λ o d h, Good K d h ∧ ∀ f, o = Some f → d !! f.1.1 = Some (Some f.1.2)) (Good K).
Proof.
  unfold find_named. eapply triple_bind; [apply triple_scan|]. intros l.
  destruct (find_first _ l) as [[dir m]|] eqn:Ef.
  { apply triple_ret. intros d h [HG ->]. split; [done|]. intros f [= <-]. cbn. by apply find_ref_Some in Ef as [? _]. }
  destruct (head (omap _ l)) as [[[dir m] t]|] eqn:Eo.
  { apply triple_ret. intros d h [HG ->]. split; [done|]. intros f [= <-]. cbn.
    assert (Hin : (dir, m, t) ∈ omap (λ x, (λ stored, (x.1, x.2, MatchedTag stored)) <$>
      find_first (λ stored, same_reference whole stored name) (refs x.2)) (entries_of d)).
    { destruct (omap _ _); [done|]. injection Eo as ->. by left. }
    apply list_elem_of_omap in Hin as ([dir' m'] & Hin & Hx).
    cbn [fst snd] in Hx. destruct (find_first _ (refs m')); [|done]. injection Hx as <- <- _.
    by apply elem_entries. }
  destruct (_ || _); [apply triple_ret; by intros d h [? _]|].
  destruct (filter _ l) as [|[dir m] [|]] eqn:Efl.
  - apply triple_ret. by intros d h [? _].
  - apply triple_ret. intros d h [HG ->]. split; [done|]. intros f [= <-]. cbn.
    assert (Hin : (dir, m) ∈ [(dir, m)]) by (by left). rewrite <- Efl in Hin.
    apply list_elem_of_filter in Hin as [_ Hin]. by apply elem_entries.
  - apply triple_fail. by intros d h [? _].
Qed.

Lemma require_named_holders whole name s : holders (require_named whole name s).2 = holders s.
Proof.
  unfold require_named, find_named, ibind, scan_cache_entries, next_fault.
  destruct (mjoin _) as [f|]; [done|]. cbn -[entries_of find_first filter].
  destruct (find_first _ _) as [[? ?]|]; [done|]. destruct (head _); [done|].
  destruct (_ || _); [done|]. by destruct (filter _ _) as [|[? ?] [|]].
Qed.

Lemma triple_require_named K whole name :
  triple (Good K) (require_named whole name) (λ f d h, Good K d h ∧ d !! f.1.1 = Some (Some f.1.2)) (Good K).
Proof.
  unfold require_named. eapply triple_bind; [apply triple_find_named|]. intros [f|].
  - apply triple_ret. intros d h [HG Hf]. split; [done|]. by apply Hf.
  - apply triple_fail. by intros d h [? _].
Qed.


(** Deleting the directory of an image that is not among [K]. *)
Lemma triple_remove_dir K dir m :
  (∀ dig, dig ∈ K → dig ≠ digest m) →
  triple (λ d h, Good K d h ∧ d !! dir = Some (Some m)) (remove_dir dir) (λ _, Good K) (Good K).
Proof.
  intros Hno s [HG Hm]. destruct (remove_dir dir s) as [r s'] eqn:E.
  destruct (remove_dir_good K dir s r s' HG) as (HG' & _); [|done|by destruct r].
  intros dig Hin Heq. destruct (proj2 (proj2 HG) dig Hin) as (m0 & Hm0 & Hd0 & _).
  rewrite <- Heq, Hm in Hm0. injection Hm0 as <-. by apply (Hno dig Hin).
Qed.

Lemma triple_drop_ref K dir m r :
  triple (λ d h, Good K d h ∧ d !! dir = Some (Some m)) (write_meta_json dir (without_ref r m))
    (λ _, Good K) (Good K).
Proof.
  eapply triple_conseq; [apply triple_io_op|intros d h H; exact H| |by intros d h [? _]].
  intros [] d h (d0 & [HG Hm] & ->). by apply good_without.
Qed.

(** [remove] deletes no image that a sandbox holds. *)
Lemma triple_remove K reference :
  triple (λ d h, Good K d h ∧ ∀ dig, dig ∈ K → ∃ sandbox, h !! sandbox = Some dig)
    (remove reference) (λ _, Good K) (Good K).
Proof.
  unfold remove. eapply triple_bind.
  { eapply triple_conseq; [apply triple_find|intros d h H; exact H|intros x d h H; exact H|by intros d h [? _]]. }
  intros [[dir m]|]; [|apply triple_fail; by intros d h [[? _] _]]. cbn zeta.
  destruct (_ && _).
  - eapply triple_conseq; [apply (triple_drop_ref K dir m reference)| |intros x d h H; exact H|intros d h H; exact H].
    intros d h [[HG _] Hf]. symmetry in Hf. by apply find_ref_Some in Hf as [? _].
  - intros s [[HG Hheld] Hf]. symmetry in Hf. apply find_ref_Some in Hf as [Hm _].
    destruct (is_held (digest m) s) eqn:Eh; [done|].
    apply (triple_remove_dir K dir m); [|done]. intros dig Hin ->.
    apply not_true_iff_false in Eh. apply Eh, is_held_spec. by apply Hheld.
Qed.

Lemma elem_sandboxes_using dig s sandbox :
  sandbox ∈ sandboxes_using dig s ↔ holders s !! sandbox = Some dig.
Proof.
  unfold sandboxes_using. rewrite (merge_sort_Permutation str_le), list_elem_of_fmap. split.
  - intros ([sb x] & -> & [Hx Hin]%list_elem_of_filter). cbn in *. subst x. by apply elem_of_map_to_list.
  - intros H. exists (sandbox, dig). split; [done|]. apply list_elem_of_filter. split; [done|].
    by apply elem_of_map_to_list.
Qed.

(** What may not be deleted: images of running sandboxes, and without [force]
    those of any sandbox. *)
Definition InUse (K : gset string) (force : bool) (running : gset string) (h : gmap string string) : Prop :=
  ∀ dig, dig ∈ K → ∃ sandbox, h !! sandbox = Some dig ∧ (sandbox ∈ running ∨ force = false).

Lemma triple_delete_named K dir m matched force running :
  triple (λ d h, (Good K d h ∧ d !! dir = Some (Some m)) ∧ InUse K force running h)
    (delete_named (dir, m, matched) force running) (λ _, Good K) (Good K).
Proof.
  intros s [[HG Hm] Huse]. unfold delete_named. cbn zeta.
  destruct (match matched with MatchedTag _ => _ | MatchedId => _ end); [done|].
  destruct (find_first _ (sandboxes_using (digest m) s)) eqn:Ef; [done|].
  assert (Hno : (head (sandboxes_using (digest m) s) = None ∨ force = true) → ∀ dig, dig ∈ K → dig ≠ digest m).
  { intros Hcase dig Hin ->. destruct (Huse _ Hin) as (sb & Hsb & Hr).
    apply elem_sandboxes_using in Hsb. destruct Hr as [Hr|Hr].
    - apply (find_first_None _ _ Ef) in Hsb. by rewrite bool_decide_eq_true_2 in Hsb.
    - destruct Hcase as [Hh|?]; [|congruence].
      destruct (sandboxes_using (digest m) s); [by apply not_elem_of_nil in Hsb|done]. }
  assert (Hdel : (∀ dig, dig ∈ K → dig ≠ digest m) → triple (λ d h, Good K d h ∧ d !! dir = Some (Some m))
    (remove_dir dir ;* iret (mkRemoval (filter (λ r, r ≠ digest m) (refs m)) [digest m])) (λ _, Good K) (Good K)).
  { intros Hn. eapply triple_bind; [by apply (triple_remove_dir K dir m)|]. intros []. by apply triple_ret. }
  destruct (head _) eqn:Eh; [destruct force; [|done]|]; (apply Hdel; [apply Hno; auto|done]).
Qed.

(** [remove_image] deletes no image that a running sandbox holds, nor, unless it
    is forced, one that any sandbox holds. *)
Lemma triple_remove_named K whole name force running :
  triple (λ d h, Good K d h ∧ InUse K force running h)
    (remove_named whole name force running) (λ _, Good K) (Good K).
Proof.
  intros s [HG Huse]. unfold remove_named, ibind at 1.
  pose proof (triple_require_named K whole name s HG) as Ht.
  assert (Hh : holders (require_named whole name s).2 = holders s).
  { apply require_named_holders. }
  destruct (require_named whole name s) as [[[[dir m] matched]|e] s1]; [|done].
  cbn [fst snd] in Ht, Hh. rewrite <- Hh in Huse.
  destruct matched as [tag|]; [|by apply triple_delete_named]. cbn zeta.
  destruct (negb _); [|by apply triple_delete_named].
  refine (triple_bind (λ d h, Good K d h ∧ d !! dir = Some (Some m)) _ _ (λ _, Good K) (λ _, Good K) _
    (triple_drop_ref K dir m tag) _ s1 Ht). intros []. by apply triple_ret.
Qed.

(** A record that a commit writes: one reference, the tag or the digest. *)
Definition commit_ok (reference : option string) (m : CacheMeta) : Prop :=
  meta_ok m ∧ aliases m = [] ∧ image_ref m = default (digest m) reference ∧
  (∀ r, reference = Some r → is_digest r = false).





End kept.

(** ** Histories of the store

    Every section under the install lock, in any order: the tasks of the daemon
    interleave only between them. *)
Inductive StoreOp :=
| OpInstall (reference : string) (p : PulledImage) (on_full : OnFull) (holder : option string) (now : Z)
| OpTouch (reference : string) (config : option StoredConfig) (holder : option string) (now : Z)
| OpHold (sandbox reference : string)
| OpRelease (sandbox : string)
| OpRemove (reference : string)
| OpRemoveImage (name : string) (force : bool) (running : gset string)
| OpTag (src target : string)
| OpCommit (reference : option string) (m : CacheMeta) (cancelled : bool).

Section history.
Context (cfg : StoreConfig) (whole : string → option string).


(** Tags are not spelled like digests, digests are, and sizes are sizes. *)
Definition store_op_ok (op : StoreOp) : Prop :=
  match op with
  | OpInstall r p _ _ _ => is_digest r = false ∧ is_digest (pulled_digest p) = true ∧ 0 ≤ pulled_size p
  | OpTag _ target => is_digest target = false
  | OpCommit r m _ => commit_ok r m
  | _ => True
  end.

Lemma triple_state {A} (P : DPred) (m : ISt A) (Q : A → DPred) (X R : DPred) s :
  triple P m Q X → P (dirs s) (holders s) → (∀ a d h, Q a d h → R d h) → (∀ d h, X d h → R d h) →
  R (dirs (m s).2) (holders (m s).2).
Proof. intros H Hs HQ HX. specialize (H s Hs). destruct (m s) as [[a|e] s']; cbn; eauto. Qed.



End history.


(** C13: a pull or a create that installs an image spares what is in use: every
    committed image, and every image that another sandbox holds, is still in the
    cache afterwards whether the install succeeds or fails part way; and when it
    succeeds the reference names the installed image, which is in the cache, and
    the sandbox it was installed for holds it. *)
Theorem install_spares_in_use (cfg : StoreConfig) (s s' : Store) (reference : string)
    (p : PulledImage) (on_full : OnFull) (holder : option string) (now : Z)
    (r : result CacheMeta BackendError) (dir : string) (m : CacheMeta)
    (below : max_cache_bytes cfg < U64_MAX)
    (start : DirsOk (dirs s) ∧ total_dirs (dirs s) ≤ max_cache_bytes cfg)
    (pull_ok : store_op_ok (OpInstall reference p on_full holder now))
    (cached : dirs s !! dir = Some (Some m))
    (in_use : committed m = true ∨
       ∃ sandbox, Some sandbox ≠ holder ∧ holders s !! sandbox = Some (digest m))
    (installed : install_entry cfg reference p on_full holder now s = (r, s')) :
  (∃ m', dirs s' !! dir = Some (Some m') ∧ digest m' = digest m) ∧
  match r with
  | Err _ => True
  | Ok new =>
      dirs s' !! digest_to_dir_name (digest new) = Some (Some new) ∧ reference ∈ refs new ∧
      find_first (λ x, has_ref x.2 reference) (entries_of (dirs s')) =
        Some (digest_to_dir_name (digest new), new) ∧
      ∀ sandbox, holder = Some sandbox → holders s' !! sandbox = Some (digest new)
  end.
Proof.
  destruct start as [Hok Hsz], pull_ok as (Hr & Hp & Hs).
  assert (Hdir : dir = digest_to_dir_name (digest m)) by (by apply (ok_dir _ Hok)).
  assert (HG : Good cfg holder {[digest m]} (dirs s) (holders s)).
  { split_and!; [done..|]. intros dig ->%elem_of_singleton. exists m. rewrite <- Hdir. done. }
  pose proof (triple_install cfg holder {[digest m]} reference p on_full now Hr Hp Hs below s HG) as Ht.
  rewrite installed in Ht.
  assert (Hkept : Good cfg holder {[digest m]} (dirs s') (holders s')) by (destruct r; [by destruct Ht|done]).
  split.
  - destruct (proj2 (proj2 Hkept) (digest m)) as (m' & Hm' & Hd' & _); [set_solver|].
    exists m'. by rewrite Hdir.
  - destruct r as [new|]; [|done]. destruct Ht as (_ & Hnew & Hsame & Hin & Hhold). split_and!; try done.
    destruct (find_first _ _) as [[dir' m']|] eqn:Ef.
    + apply find_ref_Some in Ef as [Hm' Hhas].
      assert (Hrn : has_ref new reference = true) by (apply has_ref_spec; by right).
      pose proof (has_ref_unique _ _ _ _ _ reference (proj1 Hkept) Hm' Hnew Hhas Hrn) as ->. congruence.
    + apply elem_entries in Hnew. apply (find_first_None _ _ Ef), not_true_iff_false in Hnew.
      exfalso. apply Hnew, has_ref_spec. by right.
Qed.

(** Removing an image never takes it from a sandbox that needs it: [remove]
    keeps every image a sandbox holds, and [remove_image] every image that a
    running sandbox holds and, without force, every image that any sandbox
    holds. *)
Theorem removal_respects_holders (cfg : StoreConfig) (whole : string → option string) (s : Store)
    (name sandbox dir : string) (m : CacheMeta) (force : bool) (running : gset string)
    (start : DirsOk (dirs s) ∧ total_dirs (dirs s) ≤ max_cache_bytes cfg)
    (cached : dirs s !! dir = Some (Some m))
    (held : holders s !! sandbox = Some (digest m)) :
  (∃ m', dirs (remove name s).2 !! dir = Some (Some m') ∧ digest m' = digest m) ∧
  (sandbox ∈ running ∨ force = false →
   ∃ m', dirs (remove_named whole name force running s).2 !! dir = Some (Some m') ∧ digest m' = digest m).
Proof.
  destruct start as [Hok Hsz]. assert (Hdir : dir = digest_to_dir_name (digest m)) by (by apply (ok_dir _ Hok)).
  assert (HG : Good cfg None {[digest m]} (dirs s) (holders s)).
  { split_and!; [done..|]. intros dig ->%elem_of_singleton. exists m. rewrite <- Hdir.
    split_and!; [done..|]. right. by exists sandbox. }
  assert (Hfin : ∀ s', Good cfg None {[digest m]} (dirs s') (holders s') →
    ∃ m', dirs s' !! dir = Some (Some m') ∧ digest m' = digest m).
  { intros s' (_ & _ & HK). destruct (HK (digest m)) as (m' & Hm' & Hd' & _); [set_solver|].
    exists m'. by rewrite Hdir. }
  split; [|intros Hr]; apply Hfin.
  - eapply triple_state; [apply (triple_remove cfg None {[digest m]})| |done..].
    split; [done|]. intros dig ->%elem_of_singleton. by exists sandbox.
  - eapply triple_state; [apply (triple_remove_named cfg None {[digest m]} whole name force running)| |done..].
    split; [done|]. intros dig ->%elem_of_singleton. by exists sandbox.
Qed.

(** *** A directory without a record *)

Lemma remove_dir_other dir dir' s : dir' ≠ dir → dirs (remove_dir dir s).2 !! dir' = dirs s !! dir'.
Proof.
  intros Hne. unfold remove_dir, next_fault. destruct (mjoin _) as [f|]; [destruct (io_partial f)|]; cbn;
    [by apply lookup_alter_ne|done|by apply lookup_delete_ne].
Qed.
Lemma evict_loop_other cfg needed l u s dir :
  dir ∉ l.*1 → dirs (evict_loop cfg needed l u s).2 !! dir = dirs s !! dir.
Proof.
  revert u s. induction l as [|[dir' m] l IH]; intros u s Hni; [done|]. cbn [evict_loop].
  destruct (_ <=? _); [done|]. pose proof (remove_dir_other dir' dir s) as Hs. cbn in Hni.
  destruct (remove_dir dir' s) as [[]  s1]; cbn [snd] in Hs; rewrite IH, Hs; set_solver.
Qed.
Lemma evict_for_orphan cfg needed s dir :
  dirs s !! dir = Some None → dirs (evict_for cfg needed s).2 !! dir = Some None.
Proof.
  intros Ho. unfold evict_for, ibind, scan_cache_entries, next_fault. destruct (mjoin _); [done|].
  match goal with |- context [evict_loop cfg needed ?l ?u ?s] =>
    pose proof (evict_loop_other cfg needed l u s dir) as He; destruct (evict_loop cfg needed l u s) as [u' s'] end.
  cbn in *. rewrite He; [done|]. intros (x & -> & Hx)%list_elem_of_fmap.
  unfold evictable in Hx. rewrite sort_by_key_Permutation in Hx. apply list_elem_of_filter in Hx as [_ Hx].
  destruct x as [dir m]. apply elem_entries in Hx. cbn in *. congruence.
Qed.

(** An install that moved the pulled files into place and then failed to
    write their record leaves a directory that every later install of the same
    image runs into: whatever the reference, the room made and the moment, it
    fails, and the directory stays as it is. *)
Theorem orphan_blocks_installs (cfg : StoreConfig) (s : Store) (reference : string) (p : PulledImage)
    (on_full : OnFull) (holder : option string) (now : Z)
    (orphan : dirs s !! digest_to_dir_name (pulled_digest p) = Some None) :
  ∃ e s', install_entry cfg reference p on_full holder now s = (Err e, s') ∧
    dirs s' !! digest_to_dir_name (pulled_digest p) = Some None.
Proof.
  unfold install_entry, find_or_rename. set (dir := digest_to_dir_name (pulled_digest p)) in *.
  set (room := match on_full with OnFullFail => _ | OnFullEvict => _ end).
  assert (Hroom : dirs (room s).2 !! dir = Some None).
  { subst room. destruct on_full; [|by apply evict_for_orphan].
    unfold require_room, session, ibind, scan_cache_entries, next_fault. by destruct (mjoin _). }
  unfold ibind at 1, read_meta at 1. rewrite orphan. cbn. unfold ibind.
  destruct (room s) as [[[]|e] s1]; cbn in Hroom; [|by exists e, s1].
  unfold rename_to. rewrite Hroom. by eexists _, s1.
Qed.

(** *** Witnesses *)

Definition demo_store_config : StoreConfig := mkStoreConfig 64 1000 1000.
Definition demo_pulled (d : string) : PulledImage :=
  mkPulled ("sha256:" +:+ d) (mkStoredConfig (mkImageConfig [] [] "" "" []) []) 100.
Definition demo_meta (d tag : string) : CacheMeta :=
  mkCacheMeta tag ("sha256:" +:+ d) 900 5 None None None None false [].
(** An image that sandbox [s1] holds; it leaves room for one of 100 bytes. *)
Definition demo_store : Store :=
  mkStore {["sha256-aa" := Some (demo_meta "aa" "alpine:3")]} {["s1" := "sha256:aa"]} [].
Definition no_space : IoFault := mkIoFault (mkIo StorageFull "No space left on device") false.

Lemma demo_store_ok : DirsOk (dirs demo_store) ∧ total_dirs (dirs demo_store) ≤ max_cache_bytes demo_store_config.
Proof.
  split.
  - constructor; cbn.
    + by intros dir m [<- [= <-]]%lookup_singleton_Some.
    + intros dir m [<- [= <-]]%lookup_singleton_Some. split_and!; [done|done|constructor|apply NoDup_singleton|by right].
    + by intros dir1 dir2 m1 m2 r [<- [= <-]]%lookup_singleton_Some [<- [= <-]]%lookup_singleton_Some.
  - vm_compute. discriminate.
Qed.


Lemma install_spares_in_use_witness :
  ∃ m', dirs (install_entry demo_store_config "debian:12" (demo_pulled "bb") OnFullEvict (Some "s2") 7 demo_store).2
    !! "sha256-aa" = Some (Some m') ∧ digest m' = "sha256:aa".
Proof.
  refine (proj1 (install_spares_in_use demo_store_config demo_store _ "debian:12" (demo_pulled "bb") OnFullEvict
    (Some "s2") 7 _ "sha256-aa" (demo_meta "aa" "alpine:3") _ demo_store_ok _ _ _ (surjective_pairing _))).
  - vm_compute. reflexivity.
  - split; [reflexivity|]. split; [reflexivity|]. vm_compute. discriminate.
  - reflexivity.
  - right. exists "s1". split; [discriminate|reflexivity].
Defined.

Lemma removal_respects_holders_witness :
  (∃ m', dirs (remove "alpine:3" demo_store).2 !! "sha256-aa" = Some (Some m') ∧ digest m' = "sha256:aa") ∧
  ("s1" ∈ ({["s1"]} : gset string) ∨ true = false →
   ∃ m', dirs (remove_named Some "aa" true {["s1"]} demo_store).2 !! "sha256-aa" = Some (Some m') ∧
     digest m' = "sha256:aa").
Proof.
  split.
  - apply (removal_respects_holders demo_store_config Some demo_store "alpine:3" "s1" "sha256-aa"
      (demo_meta "aa" "alpine:3") true {["s1"]} demo_store_ok); reflexivity.
  - apply (removal_respects_holders demo_store_config Some demo_store "aa" "s1" "sha256-aa"
      (demo_meta "aa" "alpine:3") true {["s1"]} demo_store_ok); reflexivity.
Defined.

(** The disk fills up between the move and the record, then has room again. *)
Definition demo_orphaned : Store :=
  let s := (install_entry demo_store_config "debian:12" (demo_pulled "bb") OnFullEvict None 7
    (mkStore (dirs demo_store) ∅ [None; None; None; Some no_space])).2 in
  mkStore (dirs s) (holders s) [].

Lemma orphan_blocks_installs_witness :
  ∃ e s', install_entry demo_store_config "debian:12" (demo_pulled "bb") OnFullEvict None 9 demo_orphaned = (Err e, s') ∧
    dirs s' !! "sha256-bb" = Some None.
Proof.
  apply (orphan_blocks_installs demo_store_config demo_orphaned "debian:12" (demo_pulled "bb") OnFullEvict None 9).
  vm_compute. reflexivity.
Defined.
Example orphan_error :
  (install_entry demo_store_config "debian:12" (demo_pulled "bb") OnFullEvict None 9 demo_orphaned).1 =
  Err (BIo NOT_EMPTY).
Proof. vm_compute. reflexivity. Qed.

(** A tag spelled like the digest of another image names two images. *)
Example tag_like_a_digest :
  let s := (tag_image Some "alpine:3" "sha256:bb"
    (mkStore (<["sha256-bb" := Some (demo_meta "bb" "debian:12")]> (dirs demo_store)) ∅ [])).2 in
  (λ x, has_ref x.2 "sha256:bb") <$> entries_of (dirs s) = [true; true].
Proof. vm_compute. reflexivity. Qed.
