(* ===== verification/Layer.v ===== *)
(** * Layer: unpacking the layers of an image

    Models the layer code of [ward-core/src/backend/image.rs]: the whiteout
    markers ([classify_entry], [apply_whiteout], [apply_opaque_whiteout]), the
    resolution of a path inside the root file system ([resolve_in_root],
    [safe_join]), the loop of [unpack_into] and its bound on the bytes read.
    The host's file system is a tree of nodes by absolute path, and its calls
    follow symlinks the way the kernel does; the tar crate is an argument, and
    so is what the system refuses ([Refusals]): to look up a path, to list a
    directory, to remove.  [resolves] says independently of the code what
    resolving in a chroot means. *)

From stdpp Require Import base list numbers option strings pretty gmap.
From Stdlib Require Import ZArith Lia Ascii.
From S2P Require Import Prelude Text Utf8 Protocol Archive Manager.

(** ** The host's file system *)

Inductive HostNode := HostFile | HostDir | HostSymlink (target : string).
#[export] Instance HostNode_eq_dec : EqDecision HostNode.
Proof. solve_decision. Defined.
Abbreviation Host := (gmap (list string) HostNode).

(** The names of a symlink's target: [..] stays, the root and dots go. *)
Definition target_names (t : string) : list string :=
  omap (λ c, match c with Normal n => Some n | ParentDir => Some ".." | _ => None end) (path_components t).
Definition is_absolute (p : string) : bool := starts_with "/" p.

(** Walking [pending] from the directory [at_]: a symlink is followed, at most
    [budget] of them, [..] goes up and stops at the top.  [node] tells what is
    at a path. *)
Fixpoint walk (node : list string → option HostNode) (budget : nat)
    : list string → list string → option (list string) :=
  fix go (pending at_ : list string) : option (list string) :=
    match pending with
    | [] => Some at_
    | name :: rest =>
        if decide (name = "..") then go rest (removelast at_) else
        match node (at_ ++ [name]) with
        | Some HostDir => go rest (at_ ++ [name])
        | Some (HostSymlink t) =>
            match budget with
            | O => None
            | S budget =>
                walk node budget (target_names t ++ rest) (if is_absolute t then [] else at_)
            end
        | Some HostFile | None => None
        end
    end.

Definition MAX_SYMLINK_HOPS : nat := 40.

(** The kernel's lookups of an absolute path: all but the last name are
    resolved, the last one is not followed. *)
Definition lstat_path (host : Host) (path : list string) : option (list string) :=
  match last path with
  | None => Some []
  | Some name => (λ dir, dir ++ [name]) <$> walk (host !!.) MAX_SYMLINK_HOPS (removelast path) []
  end.
Definition symlink_metadata (host : Host) (path : list string) : option HostNode :=
  match path with [] => Some HostDir | _ => p ← lstat_path host path; host !! p end.

(** What the system refuses.  [os_stat]: [symlink_metadata] of a path fails,
    whatever is there; a [read_link] that fails counts as the failed [stat] of
    its link, since the code stops at either.  [os_list], [os_child]: reading a
    directory fails, at once or when it comes to a name.  [os_rm]: a removal
    fails, with its error and which of the paths were already gone. *)
Record RmFault := mkRmFault { rm_error : IoError; rm_gone : list string → bool }.
Record Refusals := mkRefusals {
  os_stat : Host → list string → option IoError;
  os_list : Host → list string → option IoError;
  os_child : Host → list string → string → option IoError;
  os_rm : Host → list string → option RmFault;
}.

Section os.
Context (os : Refusals).

(** [std::fs::symlink_metadata]. *)
Definition lstat (host : Host) (path : list string) : result HostNode IoError :=
  match os_stat os host path with
  | Some e => Err e
  | None => ok_or (symlink_metadata host path) (mkIo IoNotFound "No such file or directory")
  end.
Definition lstat_ok (host : Host) (path : list string) : option HostNode :=
  match lstat host path with Ok n => Some n | Err _ => None end.

(** ** Resolving inside a root *)

Definition safe_join (rel : string) : bool :=
  forallb (λ c, match c with Normal _ | CurDir => true | RootDir | ParentDir => false end)
    (path_components rel).

(** [resolve_in_root]: the path below [root] it finds. *)
Definition resolve_in_root (host : Host) (root : list string) (rel : string) (follow_last : bool)
    : option (list string) :=
  if negb (safe_join rel) then None else
  let names := normal_components rel in
  let pending := if follow_last then names else removelast names in
  let last := if follow_last then None else last names in
  (λ resolved, root ++ resolved ++ option_list last) <$>
    walk (λ p, lstat_ok host (root ++ p)) MAX_SYMLINK_HOPS pending [].
End os.

(** ** Whiteouts *)

Inductive EntryKind := OpaqueWhiteout (dir : string) | Whiteout (target : string) | NormalEntry.

Definition WHITEOUT_PREFIX : string := ".wh.".
Definition OPAQUE_WHITEOUT : string := ".wh..wh..opq".

(** The path of a tar entry as [unpack_into] sees it: its names, with [..]. *)
Definition entry_names (path : string) : list string := target_names path.

(** [classify_entry] on the names of a path.  A path that ends in [..] has no
    file name, and a name that is not UTF-8 marks nothing. *)
Definition classify_entry (names : list string) : EntryKind :=
  match last names with
  | None => NormalEntry
  | Some name =>
      if decide (name = "..") then NormalEntry else
      if from_utf8 (chars name) then NormalEntry else
      let parent := removelast names in
      if decide (name = OPAQUE_WHITEOUT) then OpaqueWhiteout (join "/" parent)
      else
        match strip_prefix WHITEOUT_PREFIX name with
        | Some removed =>
            if decide (removed = "" ∨ removed = "." ∨ removed = "..") then NormalEntry
            else Whiteout (join "/" (parent ++ [removed]))
        | None => NormalEntry
        end
  end.

Definition below (p q : list string) : bool := bool_decide (p `prefix_of` q).

Section whiteouts.
Context (os : Refusals).

(** [remove_file] and [remove_dir_all] of a path: what is at it and below it
    goes; a symlink on the way is followed, one at the path is not. *)
Definition remove_tree (host : Host) (path : list string) : result unit BackendError * Host :=
  match lstat_path host path with
  | Some p =>
      match os_rm os host p with
      | None => (Ok tt, filter (λ x, below p x.1 = false) host)
      | Some e => (Err (BIo (rm_error e)), filter (λ x, below p x.1 && rm_gone e x.1 = false) host)
      end
  | None => (Ok tt, host)
  end.
Definition remove_path (host : Host) (path : list string) : result unit BackendError * Host :=
  match lstat os host path with
  | Err e => (match io_kind e with IoNotFound => Ok tt | _ => Err (BIo e) end, host)
  | Ok _ => remove_tree host path
  end.

Definition apply_whiteout (host : Host) (root : list string) (target : string)
    : result unit BackendError * Host :=
  match resolve_in_root os host root target false with
  | None => (Ok tt, host)
  | Some full => remove_path host full
  end.

(** [read_dir]: the names in a directory, in some order. *)
Definition children (host : Host) (dir : list string) : list string :=
  omap (λ x, if decide (removelast x.1 = dir) then last x.1 else None) (map_to_list host).
Fixpoint remove_children (host : Host) (dir names : list string) : result unit BackendError * Host :=
  match names with
  | [] => (Ok tt, host)
  | name :: names =>
      match os_child os host dir name with
      | Some e => (Err (BIo e), host)
      | None =>
          match remove_path host (dir ++ [name]) with
          | (Ok _, host) => remove_children host dir names
          | (Err e, host) => (Err e, host)
          end
      end
  end.

Definition apply_opaque_whiteout (host : Host) (root : list string) (dir : string)
    : result unit BackendError * Host :=
  match resolve_in_root os host root dir true with
  | None => (Ok tt, host)
  | Some full =>
      if decide (lstat_ok os host full = Some HostDir) then
        match os_list os host full with
        | Some e => (Err (BIo e), host)
        | None => remove_children host full (children host full)
        end
      else (Ok tt, host)
  end.
End whiteouts.

(** ** Unpacking *)

Definition GIB : Z := 1024 * 1024 * 1024.
Definition MAX_UNPACKED_IMAGE_BYTES : Z := 10 * GIB.
Definition unpack_limit_message : string :=
  "decompressed image exceeds " +:+ pretty (MAX_UNPACKED_IMAGE_BYTES / GIB)%Z +:+
  " GiB limit; refusing to unpack".

(** [too_large]: the error is of the kind [FileTooLarge]. *)
Definition unpack_error (context : string) (too_large : bool) : BackendError :=
  if too_large then BResourceExhausted unpack_limit_message else BInternal (context +:+ " failed").

(** [BoundedReader::read]: the bytes of one read and the total after it. *)
Record BoundedReader := mkBounded { br_limit : Z; br_total : Z }.
Definition bounded_read (b : BoundedReader) (bytes : list Z) : result (list Z) unit * BoundedReader :=
  let b := mkBounded (br_limit b) (br_total b + Z.of_nat (length bytes))%Z in
  (if (br_total b >? br_limit b)%Z then Err tt else Ok bytes, b).

(** What the tar crate yields for a layer: entries, each with its path, or an
    error of the iteration or of the decoding of a path. *)
Inductive LayerItem (entry : Type) :=
| LayerEntry (path : string) (e : entry)
| LayerError (context : string) (too_large : bool).
Arguments LayerEntry {entry}.
Arguments LayerError {entry}.

Section unpack.
Context {entry : Type}.
(** [Entry::unpack_in] of the tar crate: one that fails, here with whether its
    error is [FileTooLarge], may have written something. *)
Context (unpack_in : entry → list string → Host → result unit bool * Host).
Context (os : Refusals).

Definition unpack_entry (path : string) (e : entry) (root : list string) (host : Host)
    : result unit BackendError * Host :=
  match classify_entry (entry_names path) with
  | OpaqueWhiteout dir => apply_opaque_whiteout os host root dir
  | Whiteout target => apply_whiteout os host root target
  | NormalEntry =>
      let '(r, host) := unpack_in e root host in
      (map_err (unpack_error "unpack tar entry") r, host)
  end.

Fixpoint unpack_into (items : list (LayerItem entry)) (root : list string) (host : Host)
    : result unit BackendError * Host :=
  match items with
  | [] => (Ok tt, host)
  | LayerError context too_large :: _ => (Err (unpack_error context too_large), host)
  | LayerEntry path e :: items =>
      match unpack_entry path e root host with
      | (Ok _, host) => unpack_into items root host
      | (Err e, host) => (Err e, host)
      end
  end.
End unpack.

(** ** Lemmas *)

(** A path whose every part is a directory, reached through no symlink. *)
Definition real (host : Host) (p : list string) : Prop :=
  ".." ∉ p ∧ ∀ q, q ≠ [] → q `prefix_of` p → host !! q = Some HostDir.

Lemma real_prefix host p q : real host p → q `prefix_of` p → real host q.
Proof.
  intros [Hd Hr] Hq. split.
  - intros Hin. apply Hd. destruct Hq as [k ->]. apply elem_of_app. by left.
  - intros q' Hne Hq'. apply Hr; [done|]. by etrans.
Qed.

Lemma real_snoc host p name :
  real host p → name ≠ ".." → host !! (p ++ [name]) = Some HostDir → real host (p ++ [name]).
Proof.
  intros [Hd Hr] Hn Hl. split; [set_solver|]. intros q Hne Hq.
  destruct (decide (q = p ++ [name])) as [->|Hneq]; [done|]. apply Hr; [done|].
  destruct Hq as [k Hk]. destruct k as [|x k] using rev_ind.
  - by rewrite app_nil_r in Hk.
  - rewrite app_assoc in Hk. apply app_inj_tail in Hk as [-> _]. by apply prefix_app_r.
Qed.

Lemma removelast_snoc {A} (l : list A) x : removelast (l ++ [x]) = l.
Proof. apply removelast_last. Qed.
Lemma removelast_prefix {A} (l : list A) : removelast l `prefix_of` l.
Proof.
  induction l as [|x l IH] using rev_ind; [done|]. rewrite removelast_snoc. by apply prefix_app_r.
Qed.

(** The kernel walks a real path name by name. *)
Lemma walk_real host budget pending at_ :
  real host (at_ ++ pending) → walk (host !!.) budget pending at_ = Some (at_ ++ pending).
Proof.
  revert at_. induction pending as [|name pending IH]; intros at_ Hr.
  { destruct budget; cbn; by rewrite app_nil_r. }
  assert (Hn : name ≠ "..") by (destruct Hr as [Hd _]; set_solver).
  assert (Hl : host !! (at_ ++ [name]) = Some HostDir).
  { apply Hr; [by destruct at_|]. apply prefix_app. by exists pending. }
  assert (Hgo : walk (host !!.) budget (name :: pending) at_ = walk (host !!.) budget pending (at_ ++ [name])).
  { destruct budget; cbn; rewrite decide_False by done; by rewrite Hl. }
  rewrite Hgo, IH; by rewrite <- app_assoc.
Qed.

Lemma lstat_real host p name : real host p → lstat_path host (p ++ [name]) = Some (p ++ [name]).
Proof.
  intros Hr. unfold lstat_path. rewrite last_snoc, removelast_snoc.
  by rewrite (walk_real host MAX_SYMLINK_HOPS p []).
Qed.
Lemma metadata_real host p name : real host p → symlink_metadata host (p ++ [name]) = host !! (p ++ [name]).
Proof.
  intros Hr. unfold symlink_metadata. rewrite lstat_real by done.
  destruct (p ++ [name]) eqn:E; [by destruct p|done].
Qed.

(** What is at a path, if the system does not refuse to say. *)
Definition visible (os : Refusals) (host : Host) (path : list string) : option HostNode :=
  if os_stat os host path then None else host !! path.
Lemma lstat_ok_real os host p name : real host p → lstat_ok os host (p ++ [name]) = visible os host (p ++ [name]).
Proof.
  intros Hr. unfold lstat_ok, lstat, visible. destruct (os_stat os host _); [done|]. rewrite metadata_real by done.
  by destruct (host !! _).
Qed.
Lemma visible_Some os host p n : visible os host p = Some n → host !! p = Some n.
Proof. unfold visible. by destruct (os_stat os host p). Qed.

(** The walk of [resolve_in_root] is the kernel's in a tree that starts at the
    root, and ends in a real directory. *)
Lemma walk_chroot os host root budget pending at_ :
  real host (root ++ at_) →
  walk (λ p, lstat_ok os host (root ++ p)) budget pending at_ =
    walk (λ p, visible os host (root ++ p)) budget pending at_ ∧
  ∀ q, walk (λ p, visible os host (root ++ p)) budget pending at_ = Some q → real host (root ++ q).
Proof.
  revert pending at_. induction budget as [|budget IHb]; intros pending;
    induction pending as [|name pending IHp]; intros at_ Hr;
    try (by (split; [done|intros q [= <-]])).
  all: assert (Hup : real host (root ++ removelast at_))
    by (eapply real_prefix; [done|]; apply prefix_app, removelast_prefix).
  all: cbn [walk]; destruct (decide (name = "..")) as [->|Hn]; [by apply IHp|].
  all: rewrite app_assoc, lstat_ok_real by done.
  all: destruct (visible os host ((root ++ at_) ++ [name])) as [[| |t]|] eqn:El; try (by split).
  all: try (apply IHp; rewrite app_assoc; apply real_snoc; by try eapply visible_Some).
  apply IHb. destruct (is_absolute t); [|done]. rewrite app_nil_r.
  eapply real_prefix; [done|]. by apply prefix_app_r.
Qed.

(** *** Changes stay below the root *)

Definition strictly_below (root p : list string) : Prop := root `prefix_of` p ∧ p ≠ root.
Definition same_outside (root : list string) (h h' : Host) : Prop :=
  ∀ p, ¬ strictly_below root p → h' !! p = h !! p.

Lemma same_outside_refl root h : same_outside root h h.
Proof. by intros p _. Qed.
Lemma same_outside_trans root h1 h2 h3 :
  same_outside root h1 h2 → same_outside root h2 h3 → same_outside root h1 h3.
Proof. intros H12 H23 p Hp. by rewrite H23, H12. Qed.

(** A change strictly below [q] leaves [q] real. *)
Lemma real_same root q h h' : q `prefix_of` root → same_outside root h h' → real h q → real h' q.
Proof.
  intros Hq Hs [Hd Hr]. split; [done|]. intros x Hne Hx. rewrite Hs; [by apply Hr|].
  intros [Hpre Hneq]. apply Hneq. apply (anti_symm prefix); [by etrans|done].
Qed.

Section outside.
Context (os : Refusals).

Lemma remove_path_keeps host p name x :
  real host p → ¬ p ++ [name] `prefix_of` x → (remove_path os host (p ++ [name])).2 !! x = host !! x.
Proof.
  intros Hr Hx. unfold remove_path, remove_tree. destruct (lstat os host _); [|done]. rewrite lstat_real by done.
  destruct (os_rm os host (p ++ [name])) as [e|]; cbn [snd]; rewrite map_lookup_filter;
    (destruct (host !! x); [|done]); cbn; unfold below; rewrite bool_decide_eq_false_2 by done; done.
Qed.

Lemma remove_path_outside host root q name :
  real host (root ++ q) →
  same_outside (root ++ q) host (remove_path os host ((root ++ q) ++ [name])).2 ∧
  same_outside root host (remove_path os host ((root ++ q) ++ [name])).2.
Proof.
  intros Hr. split; intros p Hp; (apply remove_path_keeps; [done|]); intros Hpre; apply Hp; (split; [|intros ->]).
  - etrans; [|done]. by apply prefix_app_r.
  - apply prefix_length in Hpre. rewrite length_app in Hpre. cbn in Hpre. lia.
  - etrans; [|done]. rewrite <- app_assoc. by apply prefix_app_r.
  - apply prefix_length in Hpre. rewrite !length_app in Hpre. cbn in Hpre. lia.
Qed.

(** What [resolve_in_root] finds lies in a real directory below the root. *)
Lemma resolve_real host root rel follow_last full :
  real host root → resolve_in_root os host root rel follow_last = Some full →
  ∃ q, real host (root ++ q) ∧
    full = (root ++ q) ++ option_list (if follow_last then None else last (normal_components rel)).
Proof.
  intros Hr H. unfold resolve_in_root in H. destruct (safe_join rel); [|done]. cbn [negb] in H.
  destruct (walk_chroot os host root MAX_SYMLINK_HOPS
    (if follow_last then normal_components rel else removelast (normal_components rel)) [])
    as [Hw Hreal]; [by rewrite app_nil_r|].
  rewrite Hw in H. destruct (walk _ _ _ _) as [q|]; [|done]. injection H as <-.
  exists q. split; [by apply Hreal|]. by rewrite app_assoc.
Qed.

Lemma apply_whiteout_outside host root target :
  real host root → normal_components target ≠ [] → same_outside root host (apply_whiteout os host root target).2.
Proof.
  intros Hr Hne. unfold apply_whiteout. destruct (resolve_in_root _ _ _ _ _) as [full|] eqn:E;
    [|apply same_outside_refl].
  apply resolve_real in E as (q & Hq & ->); [|done].
  destruct (last (normal_components target)) as [name|] eqn:El; [|by apply last_None in El].
  by apply remove_path_outside.
Qed.

Lemma remove_children_outside host root q names :
  real host (root ++ q) → same_outside root host (remove_children os host (root ++ q) names).2.
Proof.
  revert host. induction names as [|name names IH]; intros host Hr; cbn [remove_children];
    [apply same_outside_refl|].
  destruct (os_child os host _ name); [apply same_outside_refl|].
  destruct (remove_path_outside host root q name Hr) as [Hin Hout].
  destruct (remove_path _ _ _) as [[[]|e] h]; [|done].
  eapply same_outside_trans; [exact Hout|]. apply IH. by eapply (real_same (root ++ q)).
Qed.

Lemma apply_opaque_outside host root dir :
  real host root → same_outside root host (apply_opaque_whiteout os host root dir).2.
Proof.
  intros Hr. unfold apply_opaque_whiteout. destruct (resolve_in_root _ _ _ _ _) as [full|] eqn:E;
    [|apply same_outside_refl].
  apply resolve_real in E as (q & Hq & ->); [|done]. cbn. rewrite app_nil_r.
  case_decide; [|apply same_outside_refl]. destruct (os_list os host _); [apply same_outside_refl|].
  by apply remove_children_outside.
Qed.

End outside.

Lemma split_join_cons y z l : split "/" (join "/" (y :: z :: l)) = split "/" y ++ split "/" (join "/" (z :: l)).
Proof. exact (split_sep_app "/" y (join "/" (z :: l))). Qed.

Lemma elem_split_join x l : x ∈ l → "/"%char ∉ chars x → x ∈ split "/" (join "/" l).
Proof.
  induction l as [|y l IH]; intros Hin Hx; [by apply not_elem_of_nil in Hin|].
  destruct l as [|z l].
  - apply list_elem_of_singleton in Hin as ->. cbn [join]. rewrite split_none by done. by left.
  - rewrite split_join_cons. apply elem_of_app. apply elem_of_cons in Hin as [->|Hin].
    + left. rewrite split_none by done. by left.
    + right. by apply IH.
Qed.

Lemma elem_normal x p :
  x ∈ split "/" p → x ≠ "" → x ≠ "." → x ≠ ".." → x ∈ normal_components p.
Proof.
  intros Hin H1 H2 H3. unfold normal_components. apply list_elem_of_omap. exists (Normal x).
  split; [|done]. unfold path_components. cbn zeta.
  assert (Hx : Normal x ∈ component_of <$> filter (λ x, x ≠ ".") (filter (λ x, x ≠ "") (split "/" p))).
  { apply list_elem_of_fmap. exists x. split; [unfold component_of; by rewrite decide_False|].
    by repeat (apply list_elem_of_filter; split; [done|]). }
  destruct (starts_with _ _); [by right|]. case_decide; [by right|done].
Qed.

Lemma target_names_pieces t x : x ∈ target_names t → "/"%char ∉ chars x.
Proof.
  unfold target_names. intros (c & Hc & Hx)%list_elem_of_omap.
  assert (Hpieces : ∀ y, Normal y ∈ path_components t → "/"%char ∉ chars y).
  { intros y Hy. unfold path_components in Hy. cbn zeta in Hy.
    assert (Hy' : Normal y ∈ component_of <$> filter (λ x, x ≠ ".") (filter (λ x, x ≠ "") (split "/" t))).
    { destruct (starts_with _ _); [|case_decide; [|done]]; by apply elem_of_cons in Hy as [?|?]. }
    apply list_elem_of_fmap in Hy' as (z & Hz & Hin). unfold component_of in Hz. case_decide; [done|].
    injection Hz as ->. apply list_elem_of_filter in Hin as [_ Hin].
    apply list_elem_of_filter in Hin as [_ Hin]. by eapply split_no_sep. }
  destruct c as [| | |y]; try done; injection Hx as <-; [|by apply Hpieces].
  vm_compute. intros H. repeat (apply elem_of_cons in H as [H|H]; [done|]). by apply not_elem_of_nil in H.
Qed.

(** A whiteout names something below its directory. *)
Lemma whiteout_named path target :
  classify_entry (entry_names path) = Whiteout target → normal_components target ≠ [].
Proof.
  unfold classify_entry, entry_names. intros H.
  destruct (last (target_names path)) as [name|] eqn:El; [|done].
  destruct (decide (name = "..")); [done|]. destruct (from_utf8 (chars name)); [done|].
  destruct (decide (name = OPAQUE_WHITEOUT)); [done|].
  destruct (strip_prefix WHITEOUT_PREFIX name) as [removed|] eqn:Es; [|done].
  destruct (decide _) as [|Hr]; [done|]. injection H as <-.
  assert (Hname : "/"%char ∉ chars name).
  { apply (target_names_pieces path). apply last_Some in El as (l & ->). set_solver. }
  apply strip_prefix_Some in Es as ->. rewrite chars_app in Hname.
  assert (Hin : removed ∈ normal_components (join "/" (removelast (target_names path) ++ [removed]))).
  { apply elem_normal; [|naive_solver..]. apply elem_split_join; [set_solver|].
    intros Hx. apply Hname, elem_of_app. by right. }
  intros Hnil. rewrite Hnil in Hin. by apply not_elem_of_nil in Hin.
Qed.

(** C15: unpacking a layer touches nothing outside the root file system it is
    unpacked into: for every layer, whatever its whiteout markers name and
    whatever symlinks the root already holds and whatever the system refuses to
    look up, list or remove, the rest of the host's file system is the same
    afterwards, also when the layer is refused half way; the tar
    crate's own writes are assumed to stay inside. *)
Theorem layer_confined {entry : Type}
    (unpack_in : entry → list string → Host → result unit bool * Host)
    (os : Refusals)
    (items : list (LayerItem entry)) (root : list string) (host : Host)
    (writes_inside : ∀ e h, real h root → same_outside root h (unpack_in e root h).2)
    (real_root : real host root) :
  same_outside root host (unpack_into unpack_in os items root host).2.
Proof.
  revert host real_root. induction items as [|[path e|context too_large] items IH]; intros host Hr;
    cbn [unpack_into]; [apply same_outside_refl| |apply same_outside_refl].
  assert (Hstep : same_outside root host (unpack_entry unpack_in os path e root host).2).
  { unfold unpack_entry. destruct (classify_entry (entry_names path)) as [dir|target|] eqn:Ec.
    - by apply apply_opaque_outside.
    - apply apply_whiteout_outside; [done|]. by eapply whiteout_named.
    - pose proof (writes_inside e host Hr) as Hw. by destruct (unpack_in e root host). }
  destruct (unpack_entry _ _ _ _ _ _) as [[[]|err] h]; [|done].
  eapply same_outside_trans; [exact Hstep|]. apply IH. by eapply (real_same root).
Qed.

(** *** Resolution in a chroot *)

(** What resolving [names] from the directory [d] means, by the rule that each
    name calls for: [..] goes up one directory and stays at the top when there
    is none, a directory is entered, a relative symlink stands for its target
    from where it is and an absolute one for its target from the top.  The
    number counts the symlinks followed. *)
Inductive resolves (node : list string → option HostNode)
    : list string → list string → list string → nat → Prop :=
| resolves_nil d : resolves node d [] d 0
| resolves_top rest q h : resolves node [] rest q h → resolves node [] (".." :: rest) q h
| resolves_up d x rest q h : resolves node d rest q h → resolves node (d ++ [x]) (".." :: rest) q h
| resolves_dir d name rest q h :
    name ≠ ".." → node (d ++ [name]) = Some HostDir →
    resolves node (d ++ [name]) rest q h → resolves node d (name :: rest) q h
| resolves_relative d name t rest d' q h h' :
    name ≠ ".." → node (d ++ [name]) = Some (HostSymlink t) → is_absolute t = false →
    resolves node d (target_names t) d' h → resolves node d' rest q h' →
    resolves node d (name :: rest) q (S (h + h'))
| resolves_absolute d name t rest d' q h h' :
    name ≠ ".." → node (d ++ [name]) = Some (HostSymlink t) → is_absolute t = true →
    resolves node [] (target_names t) d' h → resolves node d' rest q h' →
    resolves node d (name :: rest) q (S (h + h')).

Section resolves.
Context (node : list string → option HostNode).

Lemma resolves_split d l1 l2 q h :
  resolves node d (l1 ++ l2) q h →
  ∃ d' h1 h2, resolves node d l1 d' h1 ∧ resolves node d' l2 q h2 ∧ h = h1 + h2.
Proof.
  intros H. remember (l1 ++ l2) as l eqn:El. revert l1 El.
  induction H as [d|rest q h H IH|d x rest q h H IH|d name rest q h Hn Hd H IH
    |d name t rest d' q h h' Hn Hl Ha Ht _ H IH|d name t rest d' q h h' Hn Hl Ha Ht _ H IH]; intros l1 El;
    (destruct l1 as [|y l1]; [cbn in El; subst l2; eexists _, 0, _; split_and!; [constructor|by econstructor|done]|]);
    try done; injection El as <- ->; destruct (IH l1 eq_refl) as (d0 & k1 & k2 & H1 & H2 & ->);
    eexists d0, _, k2; (split_and!; [by econstructor|done|lia]).
Qed.

Lemma resolves_walk d names q h :
  resolves node d names q h →
  ∀ budget rest, walk node (h + budget) (names ++ rest) d = walk node budget rest q.
Proof.
  induction 1 as [d|rest q h _ IH|d x rest q h _ IH|d name rest q h Hn Hd _ IH
    |d name t rest d' q h h' Hn Hl Ha _ IH1 _ IH2|d name t rest d' q h h' Hn Hl Ha _ IH1 _ IH2];
    intros budget rest'; [done|..].
  1-3: rewrite <- IH; destruct (h + budget); cbn; rewrite ?removelast_snoc; try done;
    rewrite decide_False by done; by rewrite Hd.
  all: cbn; rewrite decide_False by done; rewrite Hl, Ha, <- Nat.add_assoc, IH1; apply IH2.
Qed.

Lemma walk_resolves budget names d q :
  walk node budget names d = Some q → ∃ h, h ≤ budget ∧ resolves node d names q h.
Proof.
  revert names d. induction budget as [|budget IHb]; intros names;
    induction names as [|name names IHn]; intros d H;
    try (injection H as <-; exists 0; split; [lia|constructor]).
  all: cbn [walk] in H; destruct (decide (name = "..")) as [->|Hn].
  1, 3: apply IHn in H as (h & Hh & H); exists h; split; [done|];
    destruct d as [|x d _] using rev_ind; [by constructor|]; rewrite removelast_snoc in H; by constructor.
  all: destruct (node (d ++ [name])) as [[| |t]|] eqn:El; try done.
  1, 2: apply IHn in H as (h & Hh & H); exists h; split; [done|]; by constructor.
  apply IHb in H as (h & Hh & H). apply resolves_split in H as (d' & h1 & h2 & H1 & H2 & ->).
  exists (S (h1 + h2)). split; [lia|]. destruct (is_absolute t) eqn:Ea; by econstructor.
Qed.

Lemma walk_iff names d q budget :
  walk node budget names d = Some q ↔ ∃ h, h ≤ budget ∧ resolves node d names q h.
Proof.
  split; [apply walk_resolves|]. intros (h & Hh & H).
  pose proof (resolves_walk _ _ _ _ H (budget - h) []) as Hw. rewrite app_nil_r in Hw.
  replace (h + (budget - h)) with budget in Hw by lia. rewrite Hw. by destruct (budget - h).
Qed.
End resolves.

(** C33: a path in a layer is resolved as a chroot into the root file system
    would resolve it.  [resolve_in_root] finds a path exactly when the name is
    one [safe_join] accepts and the rules of [resolves] lead from the top of the
    root through its directories with at most 40 symlinks followed: a symlink
    met on the way is followed inside the root, an absolute target starts at the
    root again, [..] goes up one directory and stops at the root, and a file, a
    missing name or one the system refuses to look up ends the search with
    nothing.  What it finds lies in a directory below the root that is reached
    through no symlink, so the host's own resolution of it does not leave the
    root. *)
Theorem resolve_as_chroot (os : Refusals) (host : Host) (root : list string) (rel : string) (follow_last : bool)
    (real_root : real host root) :
  let names := normal_components rel in
  let last := if follow_last then None else last names in
  (∀ full, resolve_in_root os host root rel follow_last = Some full ↔
     safe_join rel = true ∧
     ∃ q hops, hops ≤ 40 ∧ full = root ++ q ++ option_list last ∧
       resolves (λ p, visible os host (root ++ p)) [] (if follow_last then names else removelast names) q hops) ∧
  ∀ full, resolve_in_root os host root rel follow_last = Some full →
    ∃ q, full = (root ++ q) ++ option_list last ∧
      real host (root ++ q) ∧ (follow_last = false → full ≠ root ++ q → lstat_path host full = Some full).
Proof.
  cbn zeta. split.
  - intros full. unfold resolve_in_root. destruct (safe_join rel); cbn [negb]; [|naive_solver].
    rewrite (proj1 (walk_chroot os host root MAX_SYMLINK_HOPS _ [] ltac:(by rewrite app_nil_r))).
    rewrite fmap_Some. setoid_rewrite walk_iff. unfold MAX_SYMLINK_HOPS. naive_solver.
  - intros full H. apply resolve_real in H as (q & Hq & ->); [|done]. exists q. split_and!; [done..|].
    intros ->. destruct (last _) as [name|]; cbn [option_list]; [|by rewrite app_nil_r].
    intros _. by apply lstat_real.
Qed.

(** *** Witnesses: a root with a symlink to the host's [/etc] *)

Definition demo_host : Host :=
  {[ ["r"] := HostDir; ["r"; "l"] := HostSymlink "/etc"; ["r"; "d"] := HostDir; ["r"; "d"; "f"] := HostFile;
     ["r"; "d"; "up"] := HostSymlink "../../e"; ["r"; "e"] := HostDir;
     ["etc"] := HostDir; ["etc"; "passwd"] := HostFile ]}.
Definition toy_unpack (name : string) (root : list string) (h : Host) : result unit bool * Host :=
  (Ok tt, <[root ++ [name] := HostFile]> h).
(** The system keeps one file. *)
Definition toy_os : Refusals := mkRefusals (λ _ _, None) (λ _ _, None) (λ _ _ _, None)
  (λ _ p, if decide (p = ["r"; "k"]) then Some (mkRmFault (mkIo IoPermissionDenied "denied") (λ _, false)) else None).
Definition demo_layer : list (LayerItem string) :=
  [LayerEntry "l/.wh.passwd" ""; LayerEntry "./d/.wh..wh..opq" ""; LayerEntry "../.wh.etc" "";
   LayerEntry "new" "new"].

Lemma demo_root_real : real demo_host ["r"].
Proof.
  split.
  - intros H%list_elem_of_singleton. discriminate.
  - intros q Hne [k Hk]. destruct q as [|x [|y q]]; [done| |done]. injection Hk as <- <-. reflexivity.
Qed.

Lemma layer_confined_witness :
  same_outside ["r"] demo_host (unpack_into toy_unpack toy_os demo_layer ["r"] demo_host).2 ∧
  (unpack_into toy_unpack toy_os demo_layer ["r"] demo_host).2 !! ["etc"; "passwd"] = Some HostFile ∧
  (unpack_into toy_unpack toy_os demo_layer ["r"] demo_host).2 !! ["r"; "d"; "f"] = None.
Proof.
  split; [|split; vm_compute; reflexivity].
  apply layer_confined; [|exact demo_root_real].
  intros e h _ p Hp. cbn. apply lookup_insert_ne. intros <-. apply Hp. split; [|done].
  by exists [e].
Defined.

(** The names that [..] and the links lead to: [l] points to the host's [/etc],
    which the root does not have, and [d/up] to the [e] of the root. *)
Example demo_resolved :
  resolve_in_root toy_os demo_host ["r"] "l/passwd" false = None ∧
  resolve_in_root toy_os demo_host ["r"] "d/up/x" false = Some ["r"; "e"; "x"] ∧
  resolve_in_root toy_os demo_host ["r"] "d/l" false = Some ["r"; "d"; "l"].
Proof. vm_compute. done. Qed.

Lemma resolve_as_chroot_witness :
  (resolve_in_root toy_os demo_host ["r"] "d/up/x" false = Some ["r"; "e"; "x"] ↔
    safe_join "d/up/x" = true ∧
    ∃ q hops, hops ≤ 40 ∧ ["r"; "e"; "x"] = ["r"] ++ q ++ ["x"] ∧
      resolves (λ p, visible toy_os demo_host (["r"] ++ p)) [] ["d"; "up"] q hops) ∧
  lstat_path demo_host ["r"; "e"; "x"] = Some ["r"; "e"; "x"].
Proof.
  destruct (resolve_as_chroot toy_os demo_host ["r"] "d/up/x" false demo_root_real) as [Hiff Hreal].
  split; [exact (Hiff _)|].
  destruct (Hreal ["r"; "e"; "x"]) as (q & Hfull & _ & Hl); [vm_compute; reflexivity|].
  apply Hl; [reflexivity|]. intros Hq. rewrite <- Hq in Hfull. discriminate Hfull.
Defined.
