(* ===== verification/Create.v ===== *)
(** * Create: the creation of a sandbox

    Models [SandboxManager::create] of [ward-core/src/sandbox/manager.rs] with
    its helpers [inherit_mounts], [resolve_launch] and [resolve_image], and
    [adopt_persisted], which brings a record back after a restart.  Fresh UUIDs
    are arguments.  Values held by scope guards in the source (the
    name reservation and the creation permit) are given back on every path
    that leaves the scope. *)

From stdpp Require Import base list numbers option strings pretty gmap.
From Stdlib Require Import ZArith Lia Ascii.
From S2P Require Import Prelude Text Net Signal Restart Output Broker Egress Validate Store Events Health Launch Guest Protocol Manager Lifecycle.

(** ** Requests *)

Inductive PbEgressMode := PbEgressUnspecified | PbEgressDeny | PbEgressAllowlist | PbEgressOpen.
Inductive PbCommMode := PbCommUnspecified | PbCommDeny | PbCommGroup.
#[export] Instance PbCommMode_eq_dec : EqDecision PbCommMode.
Proof. solve_decision. Defined.

Record PbMount := mkPbMount {
  pm_source : string;
  pm_target : string;
  pm_readonly : bool;
  pm_volume : string;
  pm_anonymous : bool;
}.

Record CreateRequest := mkRequestC {
  r_image : string;
  r_mounts : list PbMount;
  r_volume_ids : list string;
  r_egress : option (PbEgressMode * list string);
  r_resources : option ResourceLimits;
  r_env : gmap string string;
  r_from_snapshot : string;
  r_comms : option (PbCommMode * string);
  r_name : string;
  r_command : list string;
  r_workdir : string;
  r_tty : bool;
  r_auto_remove : bool;
  r_use_image_config : bool;
  r_entrypoint : option string;
  r_require_command : bool;
  r_user : string;
  r_published_ports : list PortMapping;
  r_pull_policy : Z;
  r_secrets : list SecretFile;
  r_labels : list (string * string);
  r_hostname : string;
  r_stop_signal : string;
  r_stop_timeout : option Z;
  r_restart_policy : option PbRestartPolicy;
  r_guest : option PbGuest;
  r_volumes_from : list string;
}.

Definition pb_egress_to_protocol (p : PbEgressMode * list string) : EgressPolicy :=
  mkEgress
    (match p.1 with
     | PbEgressDeny | PbEgressUnspecified => EgressDeny
     | PbEgressAllowlist => EgressAllowlist
     | PbEgressOpen => EgressOpen
     end) p.2.

Definition pb_comms_to_protocol (p : PbCommMode * string) : CommunicationPolicy :=
  mkComms
    (match p.1 with PbCommGroup => CommGroup | PbCommDeny | PbCommUnspecified => CommDeny end)
    (if is_empty p.2 then None else Some p.2).

Section create.
Context {E : Type} `{HBE : !Backend E} (cfg : Config).
Context (order : gmap string SandboxEntry → list (string * SandboxEntry)).
Context (digest : string → list Z).
Implicit Types (w : World E).

(** ** Checks of the request alone *)

Definition create_checks (req : CreateRequest) : result (RestartPolicy * GuestOptions) ApiError :=
  image_ref (r_image req) ;?
  user_spec (r_user req) ;?
  secrets (r_secrets req) ;?
  Validate.labels (r_labels req) ;?
  Validate.hostname (r_hostname req) ;?
  Validate.stop_signal (r_stop_signal req) ;?
  Validate.stop_timeout (r_stop_timeout req) ;?
  let? restart := restart_policy (r_restart_policy req) (r_auto_remove req) in
  let? guest := guest_validate (r_guest req) (pm_target <$> r_mounts req)
                  (match r_resources req with Some r => memory_mb r | None => 0%Z end) in
  reject_if (negb (bool_decide (r_secrets req = [])) && bool_decide (kind restart ≠ RestartNo))
    RESTART_WITHOUT_SECRETS ;?
  match r_resources req with
  | Some r =>
      resource_limits (cpus r) (memory_mb r) (pids_max r) (timeout_seconds r) ;?
      Validate.exited_ttl (exited_ttl_seconds r)
  | None => Ok tt
  end ;?
  match r_comms req with
  | Some (PbCommGroup, g) => group_name g
  | _ => Ok tt
  end ;?
  Ok (restart, guest).

(** ** Mounts *)

Definition convert_mount (m : PbMount) : St E Mount :=
  if is_empty (pm_volume m) then
    lift (Validate.mount (pm_source m) (pm_target m) (pm_readonly m) (allow_host_mounts cfg)) ;!
    sret (mkMount (pm_source m) (pm_target m) (pm_readonly m) None false)
  else
    lift (volume_mount (pm_volume m) (pm_target m)) ;!
    lift (if pm_anonymous m then anonymous_volume_name (pm_volume m) else Ok tt) ;!
    let! source := (λ w, let '(r, env') := volume_path (pm_volume m) (pm_anonymous m) (env w) in
                         (r, upd_env (λ _, env') w)) in
    sret (mkMount source (pm_target m) (pm_readonly m) (Some (pm_volume m)) (pm_anonymous m)).

Fixpoint convert_mounts (ms : list PbMount) : St E (list Mount) :=
  match ms with
  | [] => sret []
  | m :: ms => let! x := convert_mount m in let! xs := convert_mounts ms in sret (x :: xs)
  end.

(** One entry of [volumes_from]: the reference and whether it is read-only. *)
Definition volumes_from_spec (text : string) : result (string * bool) ApiError :=
  match split_once ":"%char text with
  | None => Ok (text, false)
  | Some (reference, mode) =>
      if decide (mode = "rw") then Ok (reference, false)
      else if decide (mode = "ro") then Ok (reference, true)
      else Err (InvalidRequest (cat ["invalid volumes-from mode "; dquote; mode; dquote; " in ";
                  dquote; text; dquote; ": use ro or rw"]))
  end.

(** The mounts of one source that are not taken yet, appended to [acc]. *)
Definition inherit_from (taken : gset string) (ro : bool) (source_mounts acc : list Mount)
    : list Mount :=
  foldl (λ acc m,
    if decide (target m ∈ taken ∨ target m ∈ target <$> acc) then acc
    else acc ++ [mkMount (source m) (target m) (readonly m || ro) (volume m) (anonymous m)])
    acc source_mounts.

Fixpoint inherit_mounts (specs : list string) (taken : gset string) (acc : list Mount)
    : St E (list Mount) :=
  match specs with
  | [] => sret acc
  | text :: specs =>
      let! spec := lift (volumes_from_spec text) in
      let! sid := resolve order spec.1 in
      let! e := (λ w, (ok_or (entries w !! sid) (SandboxNotFound spec.1), w)) in
      inherit_mounts specs taken (inherit_from taken spec.2 (mounts (options (meta e))) acc)
  end.

Definition check_inherited (ms : list Mount) : result unit ApiError :=
  try_for_each (λ m, match volume m with
                     | None => Validate.mount (source m) (target m) (readonly m) (allow_host_mounts cfg)
                     | Some _ => Ok tt
                     end) ms.

Definition create_mounts (req : CreateRequest) : St E (list Mount) :=
  let! own := convert_mounts (r_mounts req) in
  let tmpfs_paths := match r_guest req with Some g => tmpfs_path <$> g_tmpfs g | None => [] end in
  let taken := list_to_set (target <$> own) ∪ list_to_set tmpfs_paths in
  let! inherited := inherit_mounts (r_volumes_from req) taken [] in
  lift (check_inherited inherited) ;!
  sret (own ++ inherited).

(** ** Image and command *)

Definition resolve_image (req : CreateRequest) : St E string :=
  if is_empty (r_image req) || negb (is_empty (r_from_snapshot req)) then sret ""
  else if negb ((0 <=? r_pull_policy req)%Z && (r_pull_policy req <=? 4)%Z) then
    sfail (InvalidRequest ("unknown pull policy " +:+ pretty (r_pull_policy req)))
  else
    let! d := callE (be_resolve_image (r_image req) (r_pull_policy req)) image_backend_err in
    sret (default "" d).

Definition resolve_launch (req : CreateRequest) : St E Launch :=
  let consult := r_use_image_config req && is_empty (r_from_snapshot req) in
  let! image :=
    if consult && negb (is_empty (r_image req))
    then callE (be_image_config (r_image req)) backend_err
    else sret (mkImageConfig [] [] "" "" []) in
  let entry := if r_use_image_config req then r_entrypoint req else None in
  let launch := resolve_launch_config image
    (mkOverrides entry (r_command req) (r_workdir req) (r_user req) (r_env req)) in
  lift (reject_if (r_require_command req && bool_decide (l_command launch = []))
          "no command specified") ;!
  lift (user_spec (l_user launch)) ;!
  sret launch.

(** ** Admission *)

(** The semaphore that caps the number of sandboxes. *)
Definition acquire_permit : St E unit := λ w,
  match permits w with
  | 0 => (Err (InvalidRequest ("sandbox limit reached (" +:+ pretty (size (entries w)) +:+ "/" +:+
                               pretty (max_sandboxes cfg) +:+ ")")), w)
  | S n => (Ok tt, upd_permits (λ _, n) w)
  end.
Definition release_permit : World E → World E := upd_permits S.

(** The checks between the name reservation and the permit. *)
Definition create_policy_checks (req : CreateRequest) (presented_token : string)
    : St E EgressPolicy :=
  let policy := match r_egress req with
                | Some p => pb_egress_to_protocol p | None => egress_default end in
  lift (reject_if (bool_decide (egress_mode policy = EgressAllowlist) && negb (smoltcp cfg))
    "egress mode Allowlist requires the smoltcp network backend (WARD_NETWORK_BACKEND=smoltcp); the configured backend (None) has no datapath to enforce it") ;!
  (if is_empty (r_from_snapshot req) then sret tt
   else
     let! owner := callE (be_snapshot_owner (r_from_snapshot req)) snapshot_backend_err in
     authorize order digest owner presented_token) ;!
  sret policy.

(** ** Boot *)

Definition create_options (req : CreateRequest) (restart : RestartPolicy) (guest : GuestOptions)
    (ms : list Mount) (ports : list PublishedPort) (policy : EgressPolicy) (image_digest : string)
    (launch : Launch) : CreateOpts :=
  mkOpts (r_image req) ms (r_volume_ids req) policy
    (with_defaults (default limits_default (r_resources req)) (default_limits cfg))
    (l_env launch)
    (if is_empty (r_from_snapshot req) then None else Some (r_from_snapshot req))
    (match r_comms req with Some c => pb_comms_to_protocol c | None => comms_default end)
    (mkSpec (r_name req) (l_command launch) (l_entrypoint_len launch) (l_workdir launch)
       (l_user launch) (r_tty req) (r_auto_remove req) ports image_digest
       (list_to_map (r_labels req)) (r_hostname req) (r_stop_signal req) (r_stop_timeout req)
       restart guest).

Definition set_ports (ports : list PublishedPort) (s : SandboxSpec) : SandboxSpec :=
  mkSpec (name s) (command s) (entrypoint_len s) (workdir s) (user s) (tty s) (auto_remove s)
    ports (image_digest s) (labels s) (hostname s) (stop_signal s) (stop_timeout s)
    (restart s) (guest s).

(** The record and the entry of a booted sandbox. *)
Definition new_meta (sid token : string) (opts : CreateOpts) (created : Z) (secret : bool)
    : SandboxMeta :=
  mkMeta sid opts created Running None
    (if bool_decide (command (spec opts) = []) then None else Some created)
    None None (hash_token digest token) secret 0 false.
Definition new_entry (m : SandboxMeta) (ls : list PortListener) (timeout : Z) (now : Z)
    : SandboxEntry :=
  mkEntry (proxy_new (id m) (egress (options m)))
    (if (0 <? timeout)%Z then Some (now + timeout * NANOS_PER_SEC)%Z else None) None m ls None.

(** The answer to the client: the backend's, with what the manager knows and
    the token, which is shown this once. *)
Definition created_info (i : SandboxInfo) (m : SandboxMeta) (token : string) : SandboxInfo :=
  mkInfo (i_id i) Running (i_image i) (i_created_at i) (i_ip_address i) (i_resources i)
    (i_expires_at i) token
    (set_ports (published_ports (spec (options m))) (i_spec i))
    (i_mounts i) (i_health i) (i_exit_code i) (started_at m) (i_finished_at i) (i_end_reason i)
    (i_restart_count i) (i_paused i).

(** From the backend's boot to the saved record: an error takes back what was
    done.  The result is the entry to insert. *)
Definition create_boot (sid token : string) (opts : CreateOpts) (secret : bool)
    : St E (SandboxEntry * SandboxInfo) := λ w,
  match callE (be_create sid opts) backend_err w with
  | (Err e, w) => (Err e, w)
  | (Ok info, w) =>
      match open_listeners sid (published_ports (spec opts)) w with
      | (Err e, w) => (Err e, (backend_remove sid w).2)
      | (Ok (ls, ports), w) =>
          let opts := set_spec (set_ports ports (spec opts)) opts in
          let m := new_meta sid token opts (i_created_at info) secret in
          match persist_meta cfg m w with
          | (Err e, w) => (Err e, (backend_remove sid (close_all ls w)).2)
          | (Ok _, w) => (Ok (new_entry m ls (timeout_seconds (i_resources info)) (clock w),
                            created_info info m token), w)
          end
      end
  end.

(** Everything that holds the permit but has not inserted the entry. *)
Definition create_prepare (req : CreateRequest) (sid token : string) (restart : RestartPolicy)
    (guest : GuestOptions) (ms : list Mount) (ports : list PublishedPort) (policy : EgressPolicy)
    : St E (SandboxEntry * SandboxInfo) :=
  let! image_digest := resolve_image req in
  let! launch := resolve_launch req in
  create_boot sid token (create_options req restart guest ms ports policy image_digest launch)
    (negb (bool_decide (r_secrets req = []))).

(** The entry enters the table and the permit with it. *)
Definition insert_entry (sid : string) (e : SandboxEntry) : World E → World E :=
  upd_entries <[sid := e]>.

(** After the entry is visible: register, report, start the main process. *)
Definition create_finish (req : CreateRequest) (sid : string) (e : SandboxEntry)
    (shown : SandboxInfo) : St E SandboxInfo := λ w,
  let w := upd_broker (register_state sid (comms (options (meta e)))) w in
  let w := upd_gauge (λ g, g + 1)%Z w in
  let w := emit_event sid EvStart None (emit_event sid EvCreate None w) in
  let started :=
    (if bool_decide (r_secrets req = []) then spawn_main sid
     else callE (be_put_secrets sid (user (spec_of e)) (r_secrets req)) backend_err ;!
          spawn_main sid) w in
  match started with
  | (Err err, w) =>
      let w := (fail_main_start cfg sid w).2 in
      (Err err, (remove order sid w).2)
  | (Ok _, w) => (Ok shown, upd_gauge (λ g, g + 1)%Z w)
  end.

(** From the name reservation on; the reservation is dropped once the entry
    carries the name, and on every error. *)
Definition create_reserved (req : CreateRequest) (sid token presented : string)
    (restart : RestartPolicy) (guest : GuestOptions) (ms : list Mount)
    (ports : list PublishedPort) : St E (SandboxEntry * SandboxInfo) :=
  let! policy := create_policy_checks req presented in
  acquire_permit ;!
  (λ w, match create_prepare req sid token restart guest ms ports policy w with
        | (Err e, w) => (Err e, release_permit w)
        | (Ok (e, shown), w) => (Ok (e, shown), insert_entry sid e w)
        end).

Definition drop_reservation (held : bool) (n : string) (w : World E) : World E :=
  if held then release_name n w else w.

Definition create (req : CreateRequest) (sid token presented : string) : St E SandboxInfo :=
  let! checked := lift (create_checks req) in
  let! ms := create_mounts req in
  lift (try_for_each (λ v, entity_id v "volume") (r_volume_ids req)) ;!
  let! ports := lift (Validate.published_ports (r_published_ports req)) in
  let! held := reserve_name order (r_name req) in
  (λ w, match create_reserved req sid token presented checked.1 checked.2 ms ports w with
        | (Err e, w) => (Err e, drop_reservation held (r_name req) w)
        | (Ok (e, shown), w) =>
            create_finish req sid e shown (drop_reservation held (r_name req) w)
        end).

(** ** Records of an earlier daemon *)

(** [MetaStore::delete]; one that fails is only logged. *)
Definition delete_record (sid : string) (w : World E) : World E :=
  let w' := upd_faults tail w in
  match head (faults w) with
  | Some (Some f) => if fault_written f then upd_disk (delete sid) w' else w'
  | _ => upd_disk (delete sid) w'
  end.

(** [adopt_persisted]: expired and finished auto-remove sandboxes are deleted
    from disk instead. *)
Definition adopt_persisted (m : SandboxMeta) (w : World E) : World E :=
  if negb (with_store cfg) then w
  else
    let now := clock w in
    let timeout := timeout_seconds (resources (options m)) in
    let expires := if (0 <? timeout)%Z then Some (created_at m + timeout * NANOS_PER_SEC)%Z else None in
    let expired := match expires with Some at_ => (at_ <? now)%Z | None => false end in
    let finished_auto := auto_remove (spec (options m)) && bool_decide (status m ≠ Running) in
    if expired || finished_auto then delete_record (id m) w
    else
      match permits w with
      | 0 => w
      | S n =>
          let w1 := upd_permits (λ _, n) w in
          match call (be_adopt m) w1 with
          | (Err _, w2) => upd_permits S w2
          | (Ok _, w2) =>
              let e := mkEntry (proxy_new (id m) (egress (options m))) expires None m [] None in
              let e := rearm_exited_ttl cfg now (default now (finished_at m)) e in
              upd_entries <[id m := e]> w2
          end
      end.
End create.

(** ** Steps that only reach outside

    Most of a creation leaves the manager's own state alone: it talks to the
    backend, writes records and consults the table. *)

Create HintDb steady.

Section steady.
Context {E : Type} `{HBE : !Backend E} (cfg : Config).
Context (order : gmap string SandboxEntry → list (string * SandboxEntry)).
Context (digest : string → list Z).
Implicit Types (w : World E).

Definition steady w w' : Prop :=
  ∃ en d f, w' = upd_env (λ _, en) (upd_disk (λ _, d) (upd_faults (λ _, f) w)).
#[global] Instance steady_refl : Reflexive steady.
Proof. intros w. exists (env w), (disk w), (faults w). by destruct w. Qed.
#[global] Instance steady_trans : Transitive steady.
Proof. intros w1 w2 w3 (?&?&?&->) (en&d&f&->). by exists en, d, f. Qed.

Lemma steady_env w en : steady w (upd_env (λ _, en) w).
Proof. exists en, (disk w), (faults w). by destruct w. Qed.

Definition Steady {A} (m : St E A) : Prop := ∀ w r w', m w = (r, w') → steady w w'.

Lemma Steady_ret {A} (a : A) : Steady (sret a).
Proof. by intros w r w' [= <- <-]. Qed.
Lemma Steady_fail {A} err : Steady (sfail (A:=A) err).
Proof. by intros w r w' [= <- <-]. Qed.
Lemma Steady_lift {A} (x : result A ApiError) : Steady (lift x).
Proof. by intros w r w' [= <- <-]. Qed.
Lemma Steady_bind {A B} (m : St E A) (k : A → St E B) :
  Steady m → (∀ a, Steady (k a)) → Steady (sbind m k).
Proof.
  intros Hm Hk w r w'. unfold sbind. destruct (m w) as [[a|err] w1] eqn:Hw; apply Hm in Hw.
  - intros ?%Hk. by etrans.
  - by intros [= <- <-].
Qed.
Lemma Steady_callE {A} (f : E → result A BackendError * E) conv : Steady (callE f conv).
Proof. intros w r w' Hc. apply callE_env in Hc as [en ->]. apply steady_env. Qed.
Lemma Steady_resolve reference : Steady (resolve (E:=E) order reference).
Proof. by intros w r w' [= <- <-]. Qed.
Lemma Steady_get sid : Steady (get_entry (E:=E) sid).
Proof. by intros w r w' [= <- <-]. Qed.
Lemma Steady_lookup {A} (f : World E → result A ApiError) : Steady (λ w, (f w, w)).
Proof. by intros w r w' [= <- <-]. Qed.
Lemma Steady_volume v b : Steady (λ w, let '(r, env') := volume_path v b (env w) in (r, upd_env (λ _, env') w)).
Proof. intros w r w'. destruct (volume_path _ _ _) as [? en]. intros [= <- <-]. apply steady_env. Qed.
Lemma Steady_persist m : Steady (persist_meta (E:=E) cfg m).
Proof. intros w r w' Hp. apply persist_meta_frame in Hp as (d & f & -> & _). by exists (env w), d, f. Qed.
End steady.

#[export] Hint Resolve Steady_ret Steady_fail Steady_lift Steady_bind Steady_callE Steady_resolve
  Steady_get Steady_lookup Steady_volume Steady_persist : steady.

Ltac steady_step :=
  match goal with
  | |- Steady (if ?b then _ else _) => destruct b
  | |- Steady (match ?x with _ => _ end) => destruct x
  | |- Steady (let _ := _ in _) => cbn zeta
  | |- ∀ _, _ => intros ?
  | |- Steady (sbind _ _) => apply Steady_bind
  | |- Steady _ => solve [auto with steady]
  end.

Section create_steady.
Context {E : Type} `{HBE : !Backend E} (cfg : Config).
Context (order : gmap string SandboxEntry → list (string * SandboxEntry)).
Context (digest : string → list Z).
Implicit Types (w : World E).

Lemma Steady_convert_mounts ms : Steady (convert_mounts cfg ms).
Proof. induction ms; cbn; unfold convert_mount; repeat steady_step. Qed.
Lemma Steady_inherit_mounts specs taken acc : Steady (inherit_mounts (E:=E) order specs taken acc).
Proof. revert acc. induction specs; intros acc; cbn; repeat steady_step. Qed.
Lemma Steady_create_mounts req : Steady (create_mounts cfg order req).
Proof.
  unfold create_mounts. pose proof Steady_convert_mounts. pose proof Steady_inherit_mounts.
  repeat steady_step.
Qed.
Lemma Steady_resolve_image req : Steady (resolve_image (E:=E) req).
Proof. unfold resolve_image. repeat steady_step. Qed.
Lemma Steady_resolve_launch req : Steady (resolve_launch (E:=E) req).
Proof. unfold resolve_launch. repeat steady_step. Qed.
Lemma Steady_policy_checks req token : Steady (create_policy_checks (E:=E) cfg order digest req token).
Proof. unfold create_policy_checks, authorize. repeat steady_step. Qed.
End create_steady.

(** ** All or nothing *)

Section create_props.
Context {E : Type} `{HBE : !Backend E} (cfg : Config).
Context (order : gmap string SandboxEntry → list (string * SandboxEntry)).
Context (order_spec : ∀ m, order m ≡ₚ map_to_list m).
Context (digest : string → list Z).
Implicit Types (w : World E).

Lemma backend_remove_steady sid w : steady w (backend_remove sid w).2.
Proof.
  unfold backend_remove. destruct (be_remove sid (env w)) as [[r []] en]; cbn.
  - exists en, (delete sid (disk w)), (faults w). by destruct w.
  - apply steady_env.
Qed.

(** The policy a request is created with. *)
Definition requested_policy (req : CreateRequest) : EgressPolicy :=
  match r_egress req with Some p => pb_egress_to_protocol p | None => egress_default end.

(** The entry of a booted sandbox. *)
Record booted (sid token : string) (req : CreateRequest) (policy : RestartPolicy) (ms : list Mount)
    (e : SandboxEntry) (shown : SandboxInfo) : Prop := {
  bo_id : id (meta e) = sid;
  bo_status : status (meta e) = Running;
  bo_name : name_of e = r_name req;
  bo_token : token_hash (meta e) = hash_token digest token;
  bo_secret : had_secrets (meta e) = negb (bool_decide (r_secrets req = []));
  bo_mounts : mounts (options (meta e)) = ms;
  bo_egress : egress (options (meta e)) = requested_policy req;
  bo_restart : restart (spec_of e) = policy;
  bo_comms : comms (options (meta e)) =
    match r_comms req with Some c => pb_comms_to_protocol c | None => comms_default end;
  bo_shown : i_token shown = token ∧ i_status shown = Running;
}.

Lemma create_boot_cases sid token req restart guest ms ports image_digest launch w r w' :
  create_boot cfg digest sid token
    (create_options cfg req restart guest ms ports (requested_policy req) image_digest launch)
    (negb (bool_decide (r_secrets req = []))) w = (r, w') →
  steady w w' ∧
  match r with
  | Ok (e, shown) => booted sid token req restart ms e shown ∧
      (with_store cfg = true → disk w' !! sid = Some (meta e))
  | Err _ => True
  end.
Proof.
  unfold create_boot. destruct (callE _ _ w) as [[i|err] w1] eqn:Hc; apply Steady_callE in Hc;
    [|by intros [= <- <-]].
  destruct (open_listeners _ _ w1) as [[[ls ps]|err] w2] eqn:Ho; apply open_ports_env in Ho as [en ->];
    pose proof (steady_env w1 en).
  2: { intros [= <- <-]. split; [|done]. etrans; [done|]. etrans; [done|]. apply backend_remove_steady. }
  destruct (persist_meta _ _ _) as [[[]|err] w3] eqn:Hp; pose proof Hp as Hp'; apply Steady_persist in Hp'.
  - intros [= <- <-]. split; [by etrans; [done|]; etrans|]. split; [by split|].
    apply persist_meta_frame in Hp as (d & f & -> & _ & Hok). intros Hs. cbn.
    rewrite (Hok eq_refl Hs). apply lookup_insert_eq.
  - intros [= <- <-]. split; [|done]. etrans; [done|]. etrans; [done|]. etrans; [done|].
    etrans; [|apply backend_remove_steady]. apply steady_env.
Qed.

Lemma create_prepare_cases req sid token restart guest ms ports w r w' :
  create_prepare cfg digest req sid token restart guest ms ports (requested_policy req) w = (r, w') →
  steady w w' ∧
  match r with
  | Ok (e, shown) => booted sid token req restart ms e shown ∧
      (with_store cfg = true → disk w' !! sid = Some (meta e))
  | Err _ => True
  end.
Proof.
  unfold create_prepare, sbind.
  destruct (resolve_image req w) as [[img|err] w1] eqn:Hi; apply Steady_resolve_image in Hi;
    [|by intros [= <- <-]].
  destruct (resolve_launch req w1) as [[launch|err] w2] eqn:Hl; apply Steady_resolve_launch in Hl;
    [|intros [= <- <-]; split; [by etrans|done]].
  intros [Hs Hr]%create_boot_cases. split; [|done]. by etrans; [done|]; etrans.
Qed.

Lemma policy_checks_Ok req token w policy w' :
  create_policy_checks cfg order digest req token w = (Ok policy, w') →
  policy = requested_policy req ∧ (egress_mode policy = EgressAllowlist → smoltcp cfg = true).
Proof.
  unfold create_policy_checks, sbind, lift. fold (requested_policy req).
  destruct (reject_if _ _) as [[]|] eqn:Hr; [|done]. intros Hp.
  apply reject_if_Ok in Hr.
  assert (policy = requested_policy req) as ->.
  { revert Hp. destruct (is_empty _); cbn -[authorize]; [by intros [= <- _]|].
    destruct (callE _ _ w) as [[owner|] w1]; cbn -[authorize]; [|done].
    destruct (authorize _ _ _ _ w1) as [[] w2]; cbn; [by intros [= <- _]|done]. }
  split; [done|]. intros Hm. rewrite bool_decide_eq_true_2 in Hr by done.
  by apply negb_false_iff in Hr.
Qed.

(** Up to the insertion: the entry is in and holds a permit, or nothing of
    the manager's own state has changed. *)
Lemma create_reserved_cases req sid token presented restart guest ms ports w r w' :
  create_reserved cfg order digest req sid token presented restart guest ms ports w = (r, w') →
  match r with
  | Ok (e, shown) =>
      ∃ w1, steady w w1 ∧ S (permits w') = permits w ∧
        w' = upd_entries <[sid := e]> (upd_permits (λ _, permits w') w1) ∧
        booted sid token req restart ms e shown ∧
        (egress_mode (requested_policy req) = EgressAllowlist → smoltcp cfg = true) ∧
        (with_store cfg = true → disk w' !! sid = Some (meta e))
  | Err _ => steady w w'
  end.
Proof.
  unfold create_reserved, sbind.
  destruct (create_policy_checks _ _ _ _ _ w) as [[policy|err] w1] eqn:Hp;
    pose proof (Steady_policy_checks _ _ _ _ _ _ _ _ Hp) as Hs; [|by intros [= <- <-]].
  apply policy_checks_Ok in Hp as [-> Hsm].
  unfold acquire_permit. assert (permits w1 = permits w) as Hperm by (by destruct Hs as (?&?&?&->)).
  destruct (permits w1) as [|n] eqn:Hn; [by intros [= <- <-]|].
  destruct (create_prepare _ _ _ _ _ _ _ _ _ _ _) as [[[e shown]|err] w2] eqn:Hc;
    apply create_prepare_cases in Hc as [(en & d & f & ->) Hr].
  - intros [= <- <-]. destruct Hr as [Hbo Hdisk].
    exists (upd_env (λ _, en) (upd_disk (λ _, d) (upd_faults (λ _, f) w1))). split_and!; try done.
    etrans; [done|]. by exists en, d, f.
  - intros [= <- <-]. etrans; [done|]. exists en, d, f. unfold release_permit, upd_permits. cbn.
    by rewrite <- Hn.
Qed.

Lemma upd_names_id w (s : gset string) : pending_names w = s → upd_names (λ _, s) w = w.
Proof. intros <-. by destruct w. Qed.

Lemma release_claimed n w :
  n ∉ pending_names w → release_name n (upd_names (λ s, {[n]} ∪ s) w) = w.
Proof.
  intros Hin. rewrite <- (upd_names_id w (pending_names w)) at 2 by done.
  unfold release_name, upd_names. cbn. f_equal. set_solver.
Qed.

Lemma reserve_name_cases n w r w' :
  reserve_name order n w = (r, w') →
  match r with
  | Ok held =>
      drop_reservation held n w' = w ∧ entries w' = entries w ∧
      w' = upd_names (λ _, pending_names w') w ∧
      (held = true → n ∈ pending_names w') ∧
      (n = "" ∨ sandbox_name n = Ok tt ∧ n ∉ pending_names w ∧
                ∀ s e, entries w !! s = Some e → name_of e ≠ n)
  | Err _ => w' = w
  end.
Proof.
  unfold reserve_name. destruct (is_empty n) eqn:Hn.
  { intros [= <- <-]. apply is_empty_spec in Hn as ->. split_and!; try done; [by destruct w|by left]. }
  destruct (sandbox_name n) as [[]|err]; [|by intros [= <- <-]].
  unfold claim_name. case_bool_decide as Hin; cbn.
  - destruct (find_name order n (entries w)) as [holder|] eqn:Hf; intros [= <- <-].
    + by apply release_claimed.
    + rewrite (find_name_None order order_spec) in Hf.
      split_and!; try done; [by apply release_claimed|cbn; set_solver|by right].
  - intros [= <- <-].
    rewrite <- (upd_names_id w (pending_names w)) at 2 by done.
    unfold upd_names. cbn. f_equal. set_solver.
Qed.

Lemma table_ok_insert m sid e :
  table_ok m → entity_id sid "sandbox" = Ok tt →
  (name_of e = "" ∨ sandbox_name (name_of e) = Ok tt) →
  (∀ s e', s ≠ sid → m !! s = Some e' → name_of e' = name_of e → name_of e = "") →
  table_ok (<[sid := e]> m).
Proof.
  intros [Hids Hnames Huni] Hid Hn Hfresh. split.
  - intros s e' [[<- <-]|[_ ?]]%lookup_insert_Some; eauto.
  - intros s e' [[<- <-]|[_ ?]]%lookup_insert_Some; eauto.
  - intros s1 s2 e1 e2 [[<- <-]|[Hs1 H1]]%lookup_insert_Some [[<- <-]|[Hs2 H2]]%lookup_insert_Some Heq Hne;
      eauto; exfalso; apply Hne.
    + by apply (Hfresh s2 e2).
    + rewrite Heq. by apply (Hfresh s1 e1).
Qed.

Lemma remove_own sid w :
  table_ok (entries w) → is_Some (entries w !! sid) →
  ∃ en d, (remove order sid w).2 =
    report_removed (entries w !! sid) None
      (upd_env (λ _, en) (upd_disk (λ _, d) (drop_tied sid (detach sid w).2))).
Proof.
  intros Htab Hsid. unfold remove, remove_with_volumes.
  rewrite (resolve_id order order_spec w sid) by done.
  destruct (cleanup_world order sid false w) as (en & d & Hw).
  destruct (cleanup_sandbox order sid false w) as [[] w1]; cbn [snd] in *; subst w1; [|by exists en, d].
  exists en, d. replace (match entries w !! sid with Some _ => _ | None => _ end) with (@nil Mount)
    by (by destruct (entries w !! sid)).
  unfold release_anonymous_volumes. cbn [omap list_omap foldl].
  generalize (report_removed (entries w !! sid) None
    (upd_env (λ _, en) (upd_disk (λ _, d) (drop_tied sid (detach sid w).2)))) as w2.
  intros w2. by destruct w2.
Qed.

(** After the insertion: the sandbox runs, or it is gone again. *)
Lemma create_finish_cases req sid e shown w r w' :
  entries w !! sid = Some e → status (meta e) = Running → table_ok (entries w) →
  create_finish cfg order req sid e shown w = (r, w') →
  pending_names w' = pending_names w ∧
  match r with
  | Ok s =>
      s = shown ∧ entries w' = entries w ∧ permits w' = permits w ∧
      policies (broker w') = <[sid := comms (options (meta e))]> (policies (broker w)) ∧
      disk w' = disk w ∧ active_gauge w' = (active_gauge w + 2)%Z ∧
      events w' = events w ++ [event_with_code EvCreate (meta e) None (clock w);
                               event_with_code EvStart (meta e) None (clock w)]
  | Err _ =>
      entries w' = delete sid (entries w) ∧ permits w' = S (permits w) ∧
      policies (broker w') = delete sid (policies (broker w)) ∧
      active_gauge w' = active_gauge w
  end.
Proof.
  intros He Hst Htab. unfold create_finish, emit_event.
  cbn -[remove event_with_code]. rewrite He. cbn -[remove event_with_code]. rewrite He.
  set (w1 := emit_raw _ _).
  set (m := if bool_decide _ then _ else _). destruct (m w1) as [rs w2] eqn:Hm.
  assert (∃ en mm, w2 = upd_env (λ _, en) (upd_mains (λ _, mm) w1)) as (en & mm & ->).
  { subst m. assert (entries w1 !! sid = Some e) as He1 by done. clearbody w1. revert Hm.
    case_bool_decide; unfold sbind.
    - intros Hs. apply (spawn_main_cases _ _ _ _ _ He1) in Hs as [en Hs].
      destruct rs; [destruct Hs as (mm & -> & _); by exists en, mm|]. exists en, (mains w1). by destruct w1.
    - destruct (callE _ _ w1) as [[u|err] w3] eqn:Hc; apply callE_env in Hc as [en3 ->].
      + intros Hs. apply (spawn_main_cases _ e) in Hs as [en Hs]; [|done].
        destruct rs; [destruct Hs as (mm & -> & _); by exists en, mm|].
        exists en, (mains w1). by destruct w1.
      + intros [= <- <-]. exists en3, (mains w1). by destruct w1. }
  destruct rs as [[]|err]; intros [= <- <-].
  - cbn. split_and!; try done; [lia|by rewrite <- app_assoc].
  - destruct (fail_main_start _ _ _) as [rec w4] eqn:Hfm.
    eapply fail_main_start_cases in Hfm as (-> & (Hp4 & Hn4 & Hg4) & Hb4 & e4 & Hent4 & Hopt4 & _);
      [|done..]. cbn in Hp4, Hn4, Hg4, Hb4, Hent4.
    assert (name_of e4 = name_of e) as Hname by (unfold name_of, spec_of; by rewrite Hopt4).
    assert (table_ok (entries w4)) as Htab4.
    { rewrite Hent4. apply table_ok_insert; [done|by eapply to_ids|rewrite Hname; by eapply to_names|].
      rewrite Hname. intros s e' Hs He' Hn. destruct (decide (name_of e = "")); [done|].
      destruct Hs. eapply (to_unique _ Htab); eauto; congruence. }
    destruct (remove_own sid w4 Htab4) as (en5 & d5 & Hw5); [rewrite Hent4, lookup_insert_eq; eauto|].
    cbn [snd]. rewrite Hw5. unfold detach, report_removed. rewrite Hent4, lookup_insert_eq.
    case_decide; cbn; rewrite Hent4, Hb4; cbn; rewrite !delete_insert_eq;
      split_and!; try done; try congruence; rewrite Hg4; lia.
Qed.

(** ** What was checked *)

(** A mount of the host's file system that may be attached. *)
Definition mount_checked (m : Mount) : Prop :=
  volume m = None → Validate.mount (source m) (target m) (readonly m) (allow_host_mounts cfg) = Ok tt.

Lemma convert_mounts_checked ms w l w' :
  convert_mounts cfg ms w = (Ok l, w') → Forall mount_checked l.
Proof.
  revert l w w'. induction ms as [|m ms IH]; intros l w w'; [by intros [= <- <-]|].
  cbn [convert_mounts]. unfold sbind.
  destruct (convert_mount cfg m w) as [[x|] w1] eqn:Hm; [|done].
  destruct (convert_mounts cfg ms w1) as [[xs|] w2] eqn:Hms; [|done].
  intros [= <- <-]. apply Forall_cons. split; [|by eapply IH].
  unfold convert_mount, sbind, lift in Hm. destruct (is_empty (pm_volume m)).
  - destruct (Validate.mount _ _ _ _) as [[]|] eqn:Hv; [|done]. injection Hm as <- _. by intros _.
  - destruct (volume_mount _ _) as [[]|]; [|done].
    destruct (if pm_anonymous m then _ else _) as [[]|]; [|done].
    destruct (volume_path _ _ _) as [[src|] en]; [|done]. by injection Hm as <- _.
Qed.

Lemma create_mounts_checked req w l w' :
  create_mounts cfg order req w = (Ok l, w') → Forall mount_checked l.
Proof.
  unfold create_mounts, sbind, lift.
  destruct (convert_mounts cfg _ w) as [[own|] w1] eqn:Hown; [|done].
  destruct (inherit_mounts _ _ _ _ w1) as [[inh|] w2]; [|done].
  destruct (check_inherited cfg inh) as [[]|] eqn:Hchk; [|done]. intros [= <- <-].
  apply Forall_app. split; [by eapply convert_mounts_checked|].
  unfold check_inherited in Hchk. apply try_for_each_Ok in Hchk.
  eapply Forall_impl; [done|]. cbn. intros m Hm Hv. revert Hm. by rewrite Hv.
Qed.

(** A creation that gets past its checks, up to its last part. *)
Record admitted (req : CreateRequest) (sid token : string) (e : SandboxEntry) (shown : SandboxInfo)
    w (w2 : World E) : Prop := {
  ad_checks : ∃ restart guest ms, create_checks req = Ok (restart, guest) ∧
    booted sid token req restart ms e shown;
  ad_mounts : Forall mount_checked (mounts (options (meta e)));
  ad_egress : egress_mode (egress (options (meta e))) = EgressAllowlist → smoltcp cfg = true;
  ad_name : r_name req = "" ∨ sandbox_name (r_name req) = Ok tt ∧
    ∀ s e', entries w !! s = Some e' → name_of e' ≠ r_name req;
  ad_entries : entries w2 = <[sid := e]> (entries w);
  ad_permits : S (permits w2) = permits w;
  ad_names : pending_names w2 = pending_names w;
  ad_rest : broker w2 = broker w ∧ active_gauge w2 = active_gauge w ∧ events w2 = events w ∧
    clock w2 = clock w;
  ad_disk : with_store cfg = true → disk w2 !! sid = Some (meta e);
}.

Lemma create_cases req sid token presented w r w' :
  create cfg order digest req sid token presented w = (r, w') →
  (steady w w' ∧ ∃ err, r = Err err) ∨
  ∃ e shown w2, admitted req sid token e shown w w2 ∧
    create_finish cfg order req sid e shown w2 = (r, w').
Proof.
  unfold create, sbind, lift.
  destruct (create_checks _) as [[restart guest]|err] eqn:Hchk; [|intros [= <- <-]; left; split; [done|eauto]].
  destruct (create_mounts _ _ _ w) as [[ms|err] w1] eqn:Hms;
    pose proof (Steady_create_mounts _ _ _ _ _ _ Hms) as Hs1; [|intros [= <- <-]; left; eauto].
  apply create_mounts_checked in Hms.
  destruct (try_for_each _ _) as [[]|err]; [|intros [= <- <-]; left; eauto].
  destruct (Validate.published_ports _) as [ports|err]; [|intros [= <- <-]; left; eauto].
  destruct (reserve_name _ _ w1) as [[held|err] w2] eqn:Hrn; apply reserve_name_cases in Hrn;
    [|subst w2; intros [= <- <-]; left; eauto].
  destruct Hrn as (Hdrop & Hent & Hw2 & Hheld & Hname). cbn [fst snd].
  destruct Hs1 as (en1 & d1 & f1 & Hw1).
  destruct (create_reserved _ _ _ _ _ _ _ _ _ _ _ w2) as [[[e shown]|err] w3] eqn:Hcr;
    apply create_reserved_cases in Hcr.
  2: { intros [= <- <-]. left. split; [|eauto]. destruct Hcr as (en & d & f & ->).
       transitivity w1; [rewrite Hw1; by exists en1, d1, f1|]. exists en, d, f. rewrite <- Hdrop.
       by destruct held. }
  destruct Hcr as (w4 & (en & d & f & Hw4) & Hperm & Hw3 & Hbo & Hsm & Hdisk). intros Hfin. right.
  assert (drop_reservation held (r_name req) w3 =
    upd_entries <[sid := e]> (upd_permits (λ _, permits w3) (upd_env (λ _, en) (upd_disk (λ _, d)
      (upd_faults (λ _, f) w1))))) as Hd3.
  { rewrite Hw3, Hw4, <- Hdrop. by destruct held. }
  exists e, shown, (drop_reservation held (r_name req) w3). split; [|done]. rewrite Hd3.
  assert (permits w2 = permits w1) as Hp2 by (by rewrite Hw2).
  split; cbn; try (by rewrite Hw1); try done.
  - eauto.
  - by rewrite (bo_mounts _ _ _ _ _ _ _ Hbo).
  - by rewrite (bo_egress _ _ _ _ _ _ _ Hbo).
  - destruct Hname as [|(? & _ & Hn)]; [by left|right; split; [done|]]. by rewrite Hw1 in Hn.
  - rewrite Hperm, Hp2, Hw1. done.
  - rewrite Hw3, Hw4 in Hdisk. cbn in Hdisk. done.
Qed.

Lemma admitted_table req sid token e shown w w2 :
  admitted req sid token e shown w w2 → table_ok (entries w) → entity_id sid "sandbox" = Ok tt →
  table_ok (entries w2).
Proof.
  intros [(?&?&?&_&Hbo) _ _ Hname Hent _ _ _ _] Htab Hid. rewrite Hent.
  pose proof (bo_name _ _ _ _ _ _ _ Hbo) as Hn.
  apply table_ok_insert; [done..| |]; rewrite Hn; [naive_solver|].
  intros s e' _ He' Heq. destruct Hname as [|[_ Hfree]]; [done|]. by destruct (Hfree _ _ He').
Qed.

(** C5: Creating a sandbox is all or nothing.  If it succeeds, the table has
    exactly one more sandbox, under the new id, running, with the requested
    name, which no other sandbox has, and the hash of the token shown to the
    client; it holds one permit; its policy is registered with the broker; its
    record is on disk; and the two events [create] and [start] were added.  If
    it fails, at whatever point, the table, the permits, the gauge and the
    policies are as before.  In both cases no name stays reserved, and the
    table stays well-formed. *)
Theorem create_all_or_nothing req sid token presented w r w' :
  table_ok (entries w) → entity_id sid "sandbox" = Ok tt →
  entries w !! sid = None → policies (broker w) !! sid = None →
  create cfg order digest req sid token presented w = (r, w') →
  pending_names w' = pending_names w ∧ table_ok (entries w') ∧
  match r with
  | Ok shown =>
      ∃ e, entries w' = <[sid := e]> (entries w) ∧
        status (meta e) = Running ∧ name_of e = r_name req ∧
        i_token shown = token ∧ token_hash (meta e) = hash_token digest token ∧
        S (permits w') = permits w ∧
        policies (broker w') = <[sid := comms (options (meta e))]> (policies (broker w)) ∧
        (with_store cfg = true → disk w' !! sid = Some (meta e)) ∧
        events w' = events w ++ [event_with_code EvCreate (meta e) None (clock w);
                                 event_with_code EvStart (meta e) None (clock w)]
  | Err _ =>
      entries w' = entries w ∧ permits w' = permits w ∧ active_gauge w' = active_gauge w ∧
      policies (broker w') = policies (broker w)
  end.
Proof.
  intros Htab Hid Hfresh Hpol. intros [[(en & d & f & ->) [err ->]]|(e & shown & w2 & Had & Hfin)]%create_cases;
    [done|].
  pose proof (admitted_table _ _ _ _ _ _ _ Had Htab Hid) as Htab2.
  destruct Had as [(?&?&?&_&Hbo) _ _ _ Hent Hperm Hnames (Hb & Hg & Hev & Hclk) Hdisk].
  apply create_finish_cases in Hfin as [Hn Hr];
    [|by rewrite Hent, lookup_insert_eq|apply Hbo|done]. destruct r as [s|err].
  - destruct Hr as (-> & Hent' & Hp' & Hpol' & Hd' & _ & Hev'). rewrite Hent', Hn. split_and!; [done..|].
    exists e. rewrite Hent, Hp', Hpol', Hd', Hev', Hb, Hev, Hclk.
    destruct Hbo as [_ ? ? ? _ _ _ _ _ [? ?]]. by split_and!.
  - destruct Hr as (-> & -> & -> & ->). rewrite Hn, Hent, Hb, Hperm, delete_insert_eq.
    by rewrite !delete_id.
Qed.

(** C6: What a created sandbox may do was checked.  Of a sandbox that was
    created, every mount of the host's file system, its own or inherited from
    another sandbox, passed the mount check with the daemon's setting; a policy
    that needs enforcement is only accepted with the network stack that
    enforces it; in group mode it has a group with a valid name; and if it was
    given secrets it is never restarted automatically. *)
Theorem create_admission req sid token presented w shown w' e :
  table_ok (entries w) → entity_id sid "sandbox" = Ok tt →
  create cfg order digest req sid token presented w = (Ok shown, w') →
  entries w' !! sid = Some e →
  Forall mount_checked (mounts (options (meta e))) ∧
  (egress_mode (egress (options (meta e))) = EgressAllowlist → smoltcp cfg = true) ∧
  (comm_mode (comms (options (meta e))) = CommGroup →
    ∃ g, group (comms (options (meta e))) = Some g ∧ group_name g = Ok tt) ∧
  (had_secrets (meta e) = true → kind (restart (spec_of e)) = RestartNo).
Proof.
  intros Htab Hid. intros [[_ [err ?]]|(e0 & shown0 & w2 & Had & Hfin)]%create_cases; [done|].
  pose proof (admitted_table _ _ _ _ _ _ _ Had Htab Hid) as Htab2.
  destruct Had as [(restart & guest & ms & Hchk & Hbo) Hms Heg _ Hent _ _ _ _].
  apply create_finish_cases in Hfin as [_ (_ & Hent' & _)];
    [|by rewrite Hent, lookup_insert_eq|apply Hbo|done].
  rewrite Hent', Hent, lookup_insert_eq. intros [= <-].
  unfold create_checks in Hchk. inv_checks. split_and!; [done..| |].
  - rewrite (bo_comms _ _ _ _ _ _ _ Hbo). destruct (r_comms req) as [[mode g]|]; [|done].
    destruct mode; try done. cbn. intros _. exists g. split; [|done].
    destruct (is_empty g) eqn:Hg; [|done]. apply is_empty_spec in Hg as ->. done.
  - rewrite (bo_secret _ _ _ _ _ _ _ Hbo), (bo_restart _ _ _ _ _ _ _ Hbo). intros Hsec.
    rewrite Hsec in *. cbn in *.
    match goal with H : bool_decide _ = false |- _ => apply bool_decide_eq_false in H; apply dec_stable in H end.
    by subst.
Qed.

(** The gauge of active sandboxes drifts up.  Creating a sandbox and
    removing it again leaves the gauge one higher than before, because a
    successful creation counts it twice and a removal once. *)
Theorem create_remove_gauge req sid token presented w shown w' from_timeout :
  table_ok (entries w) → entity_id sid "sandbox" = Ok tt →
  create cfg order digest req sid token presented w = (Ok shown, w') →
  active_gauge (cleanup_sandbox order sid from_timeout w').2 = (active_gauge w + 1)%Z.
Proof.
  intros Htab Hid. intros [[_ [err ?]]|(e & shown0 & w2 & Had & Hfin)]%create_cases; [done|].
  pose proof (admitted_table _ _ _ _ _ _ _ Had Htab Hid) as Htab2.
  destruct Had as [(?&?&?&_&Hbo) _ _ _ Hent _ _ (_ & Hg & _) _].
  apply create_finish_cases in Hfin as [_ (_ & Hent' & _ & _ & _ & Hg' & _)];
    [|by rewrite Hent, lookup_insert_eq|apply Hbo|done].
  destruct (cleanup_world order sid from_timeout w') as (en & d & ->).
  unfold report_removed, detach. rewrite Hent', Hent, lookup_insert_eq.
  case_decide; cbn; rewrite Hg', Hg; lia.
Qed.
End create_props.

(** ** Witnesses *)

Definition demo_create_request : CreateRequest :=
  mkRequestC "alpine" [mkPbMount "/tmp/x" "/data" true "" false] []
    (Some (PbEgressAllowlist, ["a.example"])) None ∅ "" (Some (PbCommGroup, "team")) "store" ["sleep"] ""
    false false false None false "" [] 0 [mkSecret "key" "value"] [] "" "" None None None ["web:ro"].
Definition demo_create : St (list PortListener) SandboxInfo :=
  create demo_config map_to_list demo_digest demo_create_request "b2" "secret" "".

(** The request is accepted. *)
Lemma demo_create_ok :
  ∃ shown w', demo_create (demo_world [] Running) = (Ok shown, w') ∧
    is_Some (entries w' !! "b2") ∧ policies (broker (demo_world ([] : list PortListener) Running)) !! "b2" = None.
Proof.
  destruct (demo_create (demo_world [] Running)) as [r w'] eqn:H.
  assert (match r with Ok _ => true | Err _ => false end = true ∧
    match entries w' !! "b2" with Some _ => true | None => false end = true) as [Hr He].
  { replace r with (demo_create (demo_world [] Running)).1 by (by rewrite H).
    replace w' with (demo_create (demo_world [] Running)).2 by (by rewrite H).
    split; vm_compute; reflexivity. }
  destruct r as [shown|]; [|done]. exists shown, w'. split; [reflexivity|]. split; [|reflexivity].
  destruct (entries w' !! "b2"); [eauto|discriminate He].
Qed.

Lemma demo_table (en : list PortListener) s : table_ok (entries (demo_world en s)).
Proof. exact (demo_table_ok tt s). Qed.

Lemma create_all_or_nothing_witness :
  ∃ shown w', demo_create (demo_world [] Running) = (Ok shown, w') ∧ pending_names w' = ∅.
Proof.
  destruct demo_create_ok as (shown & w' & H & _ & Hpol). exists shown, w'. split; [exact H|].
  exact (proj1 (create_all_or_nothing demo_config map_to_list (λ _, reflexivity _) demo_digest
    demo_create_request "b2" "secret" "" (demo_world [] Running) (Ok shown) w'
    (demo_table [] Running) eq_refl eq_refl Hpol H)).
Defined.

Lemma create_admission_witness :
  ∃ shown w' e, demo_create (demo_world [] Running) = (Ok shown, w') ∧
    entries w' !! "b2" = Some e ∧ Forall (mount_checked demo_config) (mounts (options (meta e))).
Proof.
  destruct demo_create_ok as (shown & w' & H & [e He] & _). exists shown, w', e.
  split; [exact H|]. split; [exact He|].
  exact (proj1 (create_admission demo_config map_to_list (λ _, reflexivity _) demo_digest
    demo_create_request "b2" "secret" "" (demo_world [] Running) shown w' e
    (demo_table [] Running) eq_refl H He)).
Defined.

Lemma create_remove_gauge_witness :
  ∃ w', active_gauge (cleanup_sandbox (E:=list PortListener) map_to_list "b2" false w').2 = 2%Z.
Proof.
  destruct demo_create_ok as (shown & w' & H & _). exists w'.
  exact (create_remove_gauge demo_config map_to_list (λ _, reflexivity _) demo_digest
    demo_create_request "b2" "secret" "" (demo_world [] Running) shown w' false
    (demo_table [] Running) eq_refl H).
Defined.
