(* ===== verification/Concurrency.v ===== *)
(** * Concurrency: operations that interleave

    The manager serves its clients concurrently: [ward-core]'s gRPC handlers,
    the timers and the watchers of main processes all run against one
    [SandboxManager].  Between two awaits an operation owns the lock it took,
    so what can interleave are the critical sections of
    [sandbox/manager.rs].  Here a thread is an operation between two of its
    sections, a step is one section, taken from [Manager], [Lifecycle] or
    [Create], and a run is any sequence of steps of any number of threads.
    Between the sections the backend, the clock, the disk and the broker may
    change in any way that leaves the table and the policies alone. *)

From stdpp Require Import base list numbers option strings gmap relations.
From Stdlib Require Import ZArith Lia.
From S2P Require Import Prelude Text Restart Output Broker Egress Validate Store Events Protocol Manager Lifecycle Create.

(** ** Threads *)

Inductive Thread :=
(** [create]: a name is claimed, but the table not yet searched for it *)
| TClaimed (n : string)
(** the name is reserved ([""] for a sandbox without a name) *)
| TReserved (n : string)
(** the creation permit is held too *)
| TAdmitted (n : string)
(** the entry is in the table, the reservation still held *)
| TNamed (n sid : string) (policy : CommunicationPolicy)
(** the reservation is dropped, the broker not told yet *)
| TUnregistered (sid : string) (policy : CommunicationPolicy)
(** [rename]: the new name is claimed; the section is over *)
| TRenaming (n sid : string)
| TRenamed (n : string)
(** [stop_resolved] and [start_resolved] after their first section *)
| TStopping (sid : string)
| TStarting (sid : string) (policy : CommunicationPolicy)
(** a cleanup whose entry has left the table *)
| TRemoving (sid : string).

(** The name a thread has reserved. *)
Definition held_name (th : Thread) : option string :=
  match th with
  | TClaimed n | TRenaming n _ | TRenamed n => Some n
  | TReserved n | TAdmitted n | TNamed n _ _ => if is_empty n then None else Some n
  | _ => None
  end.
(** A name that no sandbox has yet. *)
Definition free_name (th : Thread) : option string :=
  match th with
  | TReserved n | TAdmitted n => if is_empty n then None else Some n
  | _ => None
  end.
(** The sandbox whose state a thread is changing, and the state meanwhile. *)
Definition works_on (th : Thread) : option (string * SandboxStatus) :=
  match th with
  | TStopping sid => Some (sid, Stopping)
  | TStarting sid _ => Some (sid, Creating)
  | _ => None
  end.
Definition admitted_thread (th : Thread) : bool :=
  match th with TAdmitted _ => true | _ => false end.

Record Sys (E : Type) := mkSys { world : World E; threads : gmap nat Thread }.
Arguments mkSys {E}.
Arguments world {E}.
Arguments threads {E}.

Section concurrency.
Context {E : Type} `{HBE : !Backend E} (cfg : Config).
Context (order : gmap string SandboxEntry → list (string * SandboxEntry)).
Context (order_spec : ∀ m, order m ≡ₚ map_to_list m).
Implicit Types (w : World E).

Definition release_held (n : string) : World E → World E := drop_reservation (negb (is_empty n)) n.

(** ** Sections that belong to no thread *)

Inductive quiet w : World E → Prop :=
| q_main_end sid p raw oom b w' :
    record_main_end cfg sid p raw oom w = (b, w') → quiet w w'
| q_fail_main sid e r w' :
    entries w !! sid = Some e → status (meta e) = Running →
    commit_meta cfg sid e Failed (exit_code (meta e)) w = (r, w') → quiet w w'
| q_claim_restart req b w' : claim_restart cfg req w = (b, w') → quiet w w'
| q_clear_history sid r w' : clear_restart_history cfg sid w = (r, w') → quiet w w'
| q_mark_stopped sid r w' : mark_manually_stopped cfg sid w = (r, w') → quiet w w'
| q_listeners sid ls : quiet w (upd_entries (alter (set_listeners ls) sid) w)
| q_refused_stop sid r w' :
    begin_stop cfg sid w = (r, w') → (∀ x, r ≠ Ok (Some x)) → quiet w w'
| q_refused_start sid r w' :
    begin_start cfg sid w = (r, w') → (∀ p, r ≠ Ok (Some p)) → quiet w w'
| q_outside w' :
    entries w' = entries w → permits w' = permits w → pending_names w' = pending_names w →
    policies (broker w') = policies (broker w) → quiet w w'.

(** ** Steps of threads *)

Inductive step : Sys E → Sys E → Prop :=
| s_quiet w w' ths : quiet w w' → step (mkSys w ths) (mkSys w' ths)
(* create *)
| s_unnamed w ths t : ths !! t = None → step (mkSys w ths) (mkSys w (<[t := TReserved ""]> ths))
| s_claim w ths t n w' :
    ths !! t = None → sandbox_name n = Ok tt → claim_name n w = (true, w') →
    step (mkSys w ths) (mkSys w' (<[t := TClaimed n]> ths))
| s_name_free w ths t n :
    ths !! t = Some (TClaimed n) → find_name order n (entries w) = None →
    step (mkSys w ths) (mkSys w (<[t := TReserved n]> ths))
| s_name_taken w ths t n holder :
    ths !! t = Some (TClaimed n) → find_name order n (entries w) = Some holder →
    step (mkSys w ths) (mkSys (release_name n w) (delete t ths))
| s_permit w ths t n w' :
    ths !! t = Some (TReserved n) → acquire_permit cfg w = (Ok tt, w') →
    step (mkSys w ths) (mkSys w' (<[t := TAdmitted n]> ths))
| s_refused w ths t n :
    ths !! t = Some (TReserved n) →
    step (mkSys w ths) (mkSys (release_held n w) (delete t ths))
| s_boot_failed w ths t n :
    ths !! t = Some (TAdmitted n) →
    step (mkSys w ths) (mkSys (release_held n (release_permit w)) (delete t ths))
| s_insert w ths t n sid e :
    ths !! t = Some (TAdmitted n) →
    entity_id sid "sandbox" = Ok tt → entries w !! sid = None →
    (∀ t' th s, ths !! t' = Some th → works_on th ≠ Some (sid, s)) →
    name_of e = n → status (meta e) = Running →
    step (mkSys w ths)
      (mkSys (insert_entry sid e w) (<[t := TNamed n sid (comms (options (meta e)))]> ths))
| s_drop_reservation w ths t n sid policy :
    ths !! t = Some (TNamed n sid policy) →
    step (mkSys w ths) (mkSys (release_held n w) (<[t := TUnregistered sid policy]> ths))
| s_register w ths t sid policy :
    ths !! t = Some (TUnregistered sid policy) →
    step (mkSys w ths) (mkSys (upd_broker (register_state sid policy) w) (delete t ths))
(* rename *)
| s_rename_claim w ths t n sid w' :
    ths !! t = None → sandbox_name n = Ok tt → claim_name n w = (true, w') →
    step (mkSys w ths) (mkSys w' (<[t := TRenaming n sid]> ths))
| s_rename w ths t n sid r w' :
    ths !! t = Some (TRenaming n sid) → rename_section cfg order sid n w = (r, w') →
    step (mkSys w ths) (mkSys w' (<[t := TRenamed n]> ths))
| s_rename_drop w ths t n :
    ths !! t = Some (TRenamed n) →
    step (mkSys w ths) (mkSys (release_name n w) (delete t ths))
(* stop and start *)
| s_stop_begin w ths t sid x w' :
    ths !! t = None → begin_stop cfg sid w = (Ok (Some x), w') →
    step (mkSys w ths) (mkSys w' (<[t := TStopping sid]> ths))
| s_stop_end w ths t sid s code reason r w' :
    ths !! t = Some (TStopping sid) → s = Stopped ∨ s = Failed →
    set_state cfg sid s w = (r, w') ∨ record_state cfg sid s code w = (r, w') ∨
      record_ended cfg sid s code reason w = (r, w') →
    step (mkSys w ths) (mkSys w' (delete t ths))
| s_start_begin w ths t sid policy w' :
    ths !! t = None → begin_start cfg sid w = (Ok (Some policy), w') →
    step (mkSys w ths) (mkSys w' (<[t := TStarting sid policy]> ths))
| s_start_running w ths t sid policy r w' :
    ths !! t = Some (TStarting sid policy) →
    commit_running_and_register cfg sid policy w = (r, w') →
    step (mkSys w ths) (mkSys w' (delete t ths))
| s_start_failed w ths t sid policy r w' :
    ths !! t = Some (TStarting sid policy) → set_state cfg sid Failed w = (r, w') →
    step (mkSys w ths) (mkSys w' (delete t ths))
(* remove, the timers and the automatic removal *)
| s_detach w ths t sid x w' :
    ths !! t = None → detach sid w = (x, w') →
    step (mkSys w ths) (mkSys w' (<[t := TRemoving sid]> ths))
| s_drop_tied w ths t sid :
    ths !! t = Some (TRemoving sid) →
    step (mkSys w ths) (mkSys (drop_tied sid w) (delete t ths)).

(** Before the first client: the records reloaded from disk are in the table
    and hold permits, nothing is in flight. *)
Definition initial (s : Sys E) : Prop :=
  table_ok (entries (world s)) ∧
  permits (world s) + size (entries (world s)) = max_sandboxes cfg ∧
  pending_names (world s) = ∅ ∧ threads s = ∅.
Definition reachable (s : Sys E) : Prop := ∃ s0, initial s0 ∧ rtc step s0 s.

(** ** What a section does to the table *)

(** At most the entry of [sid] is replaced, by one of the same name, with
    [edge] between the states. *)
Definition change (sid : string) (edge : SandboxStatus → SandboxStatus → Prop) w w' : Prop :=
  permits w' = permits w ∧ pending_names w' = pending_names w ∧
  (entries w' = entries w ∨
   ∃ e e', entries w !! sid = Some e ∧ entries w' = <[sid := e']> (entries w) ∧
     name_of e' = name_of e ∧ edge (status (meta e)) (status (meta e'))).

Lemma change_commit sid e s code reason (edge : SandboxStatus → SandboxStatus → Prop) w r w' :
  entries w !! sid = Some e → edge (status (meta e)) s →
  commit_meta_ended cfg sid e s code reason w = (r, w') → change sid edge w w'.
Proof.
  intros He Hedge Hc%commit_meta_ended_cases. destruct r as [[]|err].
  - destruct Hc as [(e' & Hent & Hm & _) (?&?&_) _]. split_and!; [done..|]. right. exists e, e'.
    unfold name_of, spec_of. rewrite Hm. cbn -[stamp_times]. autorewrite with stamp. done.
  - destruct Hc as [Hent (?&?&_)]. split_and!; auto.
Qed.

Lemma change_manual sid e b s code (edge : SandboxStatus → SandboxStatus → Prop) w r w' :
  entries w !! sid = Some e → edge (status (meta e)) s →
  commit_manual cfg sid e b s code w = (r, w') → change sid edge w w'.
Proof.
  intros He Hedge Hc. apply (commit_manual_cases _ _ _ _ _ _ _ _ _ He) in Hc. destruct r as [[]|err].
  - destruct Hc as [(e' & Hent & Hm & _) (?&?&_) _]. split_and!; [done..|]. right. exists e, e'.
    unfold name_of, spec_of. rewrite Hm. cbn -[stamp_times]. autorewrite with stamp. done.
  - destruct Hc as [Hent (?&?&_)]. split_and!; auto.
Qed.

Lemma change_same sid edge w w' :
  entries w' = entries w → permits w' = permits w → pending_names w' = pending_names w →
  change sid edge w w'.
Proof. intros. split_and!; auto. Qed.

Lemma change_save sid f edge w r w' :
  (∀ s, edge s s) →
  (∀ m next, f m = Some next → options next = options m ∧ status next = status m) →
  save_change cfg sid f w = (r, w') → change sid edge w w'.
Proof.
  intros Hrefl Hf. unfold save_change. destruct (entries w !! sid) as [e|] eqn:He;
    [|intros [= <- <-]; by apply change_same].
  destruct (f (meta e)) as [next|] eqn:Hn; [|intros [= <- <-]; by apply change_same].
  apply Hf in Hn as [Hopt Hst]. unfold sbind.
  destruct (persist_meta cfg next w) as [[[]|err] w1] eqn:Hp;
    apply persist_meta_frame in Hp as (d & g & -> & _); intros [= <- <-]; [|by apply change_same].
  split_and!; try done. right. exists e, (set_meta next e). unfold name_of, spec_of. cbn.
  rewrite Hopt, Hst. done.
Qed.

Definition stop_edge (s s' : SandboxStatus) : Prop := (s = Running ∨ s = Exited) ∧ s' = Stopping.
Definition start_edge (s s' : SandboxStatus) : Prop :=
  (s = Stopped ∨ s = Exited ∨ s = Failed) ∧ s' = Creating.
(** What can happen to a sandbox that no thread works on. *)
Definition quiet_edge (s s' : SandboxStatus) : Prop :=
  s' = s ∨ s = Running ∧ (s' = Exited ∨ s' = Failed).

Lemma begin_stop_change sid w r w' :
  begin_stop cfg sid w = (r, w') →
  change sid stop_edge w w' ∧
  match r with
  | Ok (Some _) => ∃ e e', entries w !! sid = Some e ∧ (status (meta e) = Running ∨ status (meta e) = Exited) ∧
      entries w' !! sid = Some e' ∧ status (meta e') = Stopping
  | _ => entries w' = entries w
  end.
Proof.
  unfold begin_stop, sbind, get_entry. destruct (entries w !! sid) as [e|] eqn:He; cbn;
    [|intros [= <- <-]; split; [by apply change_same|done]].
  destruct (status (meta e)) eqn:Hst;
    try (intros [= <- <-]; split; [by apply change_same|done]);
    destruct (commit_manual _ _ _ _ _ _ w) as [[[]|err] w1] eqn:Hc; intros [= <- <-];
    (split; [eapply change_manual; [done| |done]; rewrite Hst; split; auto|]);
    apply (commit_manual_cases _ _ _ _ _ _ _ _ _ He) in Hc; try apply Hc;
    destruct Hc as [(e' & -> & Hm & _) _ _]; exists e, e'; rewrite lookup_insert_eq, Hm, Hst; auto.
Qed.

Lemma begin_start_change sid w r w' :
  begin_start cfg sid w = (r, w') →
  change sid start_edge w w' ∧
  match r with
  | Ok (Some _) => ∃ e e', entries w !! sid = Some e ∧
      (status (meta e) = Stopped ∨ status (meta e) = Exited ∨ status (meta e) = Failed) ∧
      entries w' !! sid = Some e' ∧ status (meta e') = Creating
  | _ => entries w' = entries w
  end.
Proof.
  unfold begin_start, sbind, get_entry. destruct (entries w !! sid) as [e|] eqn:He; cbn;
    [|intros [= <- <-]; split; [by apply change_same|done]].
  destruct (status (meta e)) eqn:Hst;
    try (intros [= <- <-]; split; [by apply change_same|done]);
    destruct (commit_manual _ _ _ _ _ _ w) as [[[]|err] w1] eqn:Hc; intros [= <- <-];
    (split; [eapply change_manual; [done| |done]; rewrite Hst; split; auto|]);
    apply (commit_manual_cases _ _ _ _ _ _ _ _ _ He) in Hc; try apply Hc;
    destruct Hc as [(e' & -> & Hm & _) _ _]; exists e, e'; rewrite lookup_insert_eq, Hm, Hst; auto.
Qed.

Lemma request_restart_frame e code w :
  entries (request_restart e code w) = entries w ∧ permits (request_restart e code w) = permits w ∧
  pending_names (request_restart e code w) = pending_names w.
Proof. unfold request_restart. by case_match. Qed.

Lemma record_main_end_change sid p raw oom w b w' :
  record_main_end cfg sid p raw oom w = (b, w') → change sid quiet_edge w w'.
Proof.
  unfold record_main_end. destruct (entries w !! sid) as [e|] eqn:He;
    [|intros [= <- <-]; by apply change_same].
  destruct (negb _ || _) eqn:Hg; [intros [= <- <-]; by apply change_same|].
  apply orb_false_iff in Hg as [_ Hrun%bool_decide_eq_false]. apply dec_stable in Hrun.
  destruct (commit_meta_ended _ _ _ _ _ _ w) as [rc w1] eqn:Hc.
  eapply (change_commit _ _ _ _ _ quiet_edge) in Hc; [|done|by right; auto].
  destruct rc as [[]|err]; [|by intros [= <- <-]].
  destruct (entries w1 !! sid) as [e1|]; intros [= <- <-]; [|done].
  destruct (request_restart_frame e1 (decode_wait_status raw) (emit_raw
    (with_reason (end_reason (meta e1)) (with_exit_code (decode_wait_status raw)
       (event_new EvDie (meta e1) (clock w1)))) w1)) as (H1 & H2 & H3).
  unfold change in *. by rewrite H1, H2, H3.
Qed.

Lemma quiet_change w w' : quiet w w' → ∃ sid, change sid quiet_edge w w'.
Proof.
  assert (∀ s, quiet_edge s s) as Hrefl by (by left).
  destruct 1 as [sid p raw oom b w' H|sid e r w' He Hst H|req b w' H|sid r w' H|sid r w' H|sid ls
    |sid r w' H Hr|sid r w' H Hr|w' He Hp Hn Hb].
  - exists sid. by eapply record_main_end_change.
  - exists sid. eapply change_commit; [done| |done]. right. auto.
  - exists (req_id req). unfold claim_restart in H. destruct (entries w !! req_id req) as [e|] eqn:He.
    2: { injection H as <- <-. by apply change_same. }
    destruct (_ || _); [injection H as <- <-; by apply change_same|].
    destruct (persist_meta _ _ w) as [[[]|] w1] eqn:Hp; apply persist_meta_frame in Hp as (d & f & -> & _);
      injection H as <- <-; [|by apply change_same].
    split_and!; try done. right. eexists e, _. split_and!; [done|reflexivity|done|by left].
  - exists sid. unfold clear_restart_history, sbind, modify in H.
    apply (change_save _ _ quiet_edge) in H; [done..|].
    intros m next. case_match; [done|]. by intros [= <-].
  - exists sid. apply (change_save _ _ quiet_edge) in H; [done..|].
    intros m next. case_match; [done|]. by intros [= <-].
  - exists sid. split_and!; try done. cbn. destruct (entries w !! sid) as [e|] eqn:He.
    + right. exists e, (set_listeners ls e). split_and!; try done.
      apply map_eq. intros k. destruct (decide (k = sid)) as [->|];
        [by rewrite lookup_alter_eq, He, lookup_insert_eq|by rewrite lookup_alter_ne, lookup_insert_ne].
    + left. apply map_eq. intros k. destruct (decide (k = sid)) as [->|];
        [by rewrite lookup_alter_eq, He|by rewrite lookup_alter_ne].
  - exists sid. apply begin_stop_change in H as [(Hp & Hn & _) H].
    apply change_same; [|done..]. destruct r as [[x|]|]; try done. by destruct (Hr x).
  - exists sid. apply begin_start_change in H as [(Hp & Hn & _) H].
    apply change_same; [|done..]. destruct r as [[x|]|]; try done. by destruct (Hr x).
  - exists "". by apply change_same.
Qed.

(** ** The invariant *)

Definition permits_held (ths : gmap nat Thread) : nat := size (filter (λ x, admitted_thread x.2 = true) ths).

(** A reserved name is pending, valid and reserved once, and the table is in
    order. *)
Record names_inv w (ths : gmap nat Thread) : Prop := {
  ni_table : table_ok (entries w);
  ni_held t th n : ths !! t = Some th → held_name th = Some n →
    n ∈ pending_names w ∧ sandbox_name n = Ok tt;
  ni_once t1 t2 th1 th2 n : ths !! t1 = Some th1 → ths !! t2 = Some th2 →
    held_name th1 = Some n → held_name th2 = Some n → t1 = t2;
  ni_free t th n sid e : ths !! t = Some th → free_name th = Some n →
    entries w !! sid = Some e → name_of e ≠ n;
}.

(** Every permit is free, held by a sandbox or held by a creation. *)
Definition permits_inv w (ths : gmap nat Thread) : Prop :=
  permits w + size (entries w) + permits_held ths = max_sandboxes cfg.

(** One thread at a time changes the state of a sandbox. *)
Record works_inv w (ths : gmap nat Thread) : Prop := {
  wi_state t th sid st e : ths !! t = Some th → works_on th = Some (sid, st) →
    entries w !! sid = Some e → status (meta e) = st;
  wi_mutex t1 t2 th1 th2 sid st1 st2 : ths !! t1 = Some th1 → ths !! t2 = Some th2 →
    works_on th1 = Some (sid, st1) → works_on th2 = Some (sid, st2) →
    is_Some (entries w !! sid) → t1 = t2;
}.

Definition inv (s : Sys E) : Prop :=
  names_inv (world s) (threads s) ∧ permits_inv (world s) (threads s) ∧
  works_inv (world s) (threads s).

Lemma permits_held_insert ths t th :
  permits_held (<[t := th]> ths) + (if (from_option admitted_thread false (ths !! t)) then 1 else 0) =
  permits_held ths + (if admitted_thread th then 1 else 0).
Proof.
  unfold permits_held. set (P := λ x : nat * Thread, admitted_thread x.2 = true).
  assert (filter P ths !! t = (if from_option admitted_thread false (ths !! t) then ths !! t else None)) as Ht.
  { rewrite map_lookup_filter. destruct (ths !! t) as [th0|]; cbn; [|done].
    case_guard as Hg; unfold P in Hg; cbn in *; [by rewrite Hg|].
    by apply not_true_is_false in Hg as ->. }
  assert (size (delete t (filter P ths)) + (if from_option admitted_thread false (ths !! t) then 1 else 0)
    = size (filter P ths)) as Hd.
  { rewrite map_size_delete, Ht. destruct (from_option admitted_thread false (ths !! t)) eqn:Hb; [|cbn; lia].
    destruct (ths !! t) as [th0|] eqn:Hth; [|done].
    assert (size (filter P ths) ≠ 0); [|lia]. intros Hz%map_size_empty_inv.
    by rewrite Hz, lookup_empty in Ht. }
  destruct (admitted_thread th) eqn:Hth.
  - rewrite map_filter_insert_True by done. rewrite <- insert_delete_eq, map_size_insert_None
      by apply lookup_delete_eq. lia.
  - rewrite map_filter_insert_False by (unfold P; cbn; congruence).
    rewrite map_filter_delete. lia.
Qed.

Lemma permits_held_delete ths t th :
  ths !! t = Some th →
  permits_held (delete t ths) + (if admitted_thread th then 1 else 0) = permits_held ths.
Proof.
  intros Ht. pose proof (permits_held_insert (delete t ths) t th) as H.
  rewrite insert_delete_id, lookup_delete_eq in H by done. cbn in H. lia.
Qed.

(** *** Names *)

Lemma free_held th n : free_name th = Some n → held_name th = Some n ∧ n ≠ "".
Proof.
  destruct th; cbn; try done; destruct (is_empty _) eqn:Hn; try done; intros [= <-];
    by apply is_empty_false in Hn.
Qed.

(** A step of thread [t], which becomes [o]: its names stay in order if the
    reservations of other threads are kept, a new one was not pending, and
    new names in the table are those the thread had reserved. *)
Lemma names_step w ths w' t (o : option Thread) :
  let mine := ths !! t ≫= held_name in
  names_inv w ths → table_ok (entries w') →
  (∀ n, n ∈ pending_names w → mine ≠ Some n → n ∈ pending_names w') →
  (∀ n, o ≫= held_name = Some n →
     n ∈ pending_names w' ∧ sandbox_name n = Ok tt ∧ (mine = Some n ∨ n ∉ pending_names w)) →
  (∀ s e, entries w' !! s = Some e → name_of e = "" ∨ mine = Some (name_of e) ∨
     ∃ s0 e0, entries w !! s0 = Some e0 ∧ name_of e0 = name_of e) →
  (∀ n s e, o ≫= free_name = Some n → entries w' !! s = Some e → name_of e ≠ n) →
  names_inv w' (partial_alter (λ _, o) t ths).
Proof.
  intros mine [Htab Hheld Honce Hfree] Htab' Hpend Hnew Hnames Hfree'.
  assert (∀ t' th n, t' ≠ t → ths !! t' = Some th → held_name th = Some n → mine ≠ Some n) as Hother.
  { intros t' th n Hne Ht' Hn Hm. unfold mine in Hm. destruct (ths !! t) as [th0|] eqn:Ht; [|done].
    destruct Hne. by eapply Honce. }
  assert (∀ t' th, partial_alter (λ _, o) t ths !! t' = Some th →
    (t' = t ∧ o = Some th) ∨ (t' ≠ t ∧ ths !! t' = Some th)) as Hlk.
  { intros t' th. destruct (decide (t' = t)) as [->|Hne].
    - rewrite lookup_partial_alter_eq. auto.
    - rewrite lookup_partial_alter_ne by done. auto. }
  split; [done| | |].
  - intros t' th n [[-> Ho]|[Hne Ht']]%Hlk Hn.
    + destruct (Hnew n) as (?&?&_); [by rewrite Ho|done].
    + destruct (Hheld _ _ _ Ht' Hn). split; [|done]. apply Hpend; [done|by eapply Hother].
  - assert (∀ t2 th2 n, t2 ≠ t → ths !! t2 = Some th2 → held_name th2 = Some n →
      o ≫= held_name = Some n → False) as Hx.
    { intros t2 th2 n Hne Ht2 Hn2 Ho. destruct (Hnew n Ho) as (_ & _ & [Hm|Hni]).
      - by eapply Hother. - by destruct (Hheld _ _ _ Ht2 Hn2). }
    intros t1 t2 th1 th2 n [[-> Ho1]|[Hne1 H1]]%Hlk [[-> Ho2]|[Hne2 H2]]%Hlk Hn1 Hn2; [done|..].
    + destruct (Hx t2 th2 n); [done..|]. by rewrite Ho1.
    + destruct (Hx t1 th1 n); [done..|]. by rewrite Ho2.
    + by eapply Honce.
  - intros t' th n s e [[-> Ho]|[Hne Ht']]%Hlk Hf He.
    + eapply Hfree'; [|done]. by rewrite Ho.
    + destruct (free_held _ _ Hf) as [Hh Hne']. intros <-.
      destruct (Hnames _ _ He) as [?|[Hm|(s0 & e0 & He0 & Hn0)]]; [done|by eapply Hother|].
      by destruct (Hfree _ _ _ _ _ Ht' Hf He0).
Qed.

Lemma change_names sid edge w w' :
  change sid edge w w' →
  (∀ s e', entries w' !! s = Some e' → ∃ e, entries w !! s = Some e ∧ name_of e = name_of e') ∧
  (table_ok (entries w) → table_ok (entries w')) ∧ size (entries w') = size (entries w).
Proof.
  intros (_ & _ & [->|(e & e' & He & -> & Hn & _)]); [eauto|].
  assert (∀ s x', <[sid := e']> (entries w) !! s = Some x' →
    ∃ x, entries w !! s = Some x ∧ name_of x = name_of x') as Hold.
  { intros s x' [[<- <-]|[? ?]]%lookup_insert_Some; eauto. }
  split; [done|]. split; [|by rewrite map_size_insert, He].
  intros [Hids Hnames Huni]. split.
  - intros s x (?&?&_)%Hold. eauto.
  - intros s x (?&?&<-)%Hold. eauto.
  - intros s1 s2 x1 x2 (?&?&<-)%Hold (?&?&<-)%Hold. eauto.
Qed.

(** A section that changes no name, with the thread's next stage [o]. *)
Lemma names_change w ths w' t o sid edge :
  names_inv w ths → change sid edge w w' →
  (∀ n, o ≫= held_name = Some n → ths !! t ≫= held_name = Some n) →
  (∀ n, o ≫= free_name = Some n → ths !! t ≫= free_name = Some n) →
  names_inv w' (partial_alter (λ _, o) t ths).
Proof.
  intros Hinv Hch Hh Hf. pose proof Hinv as [Htab Hheld _ Hfree].
  destruct (change_names _ _ _ _ Hch) as (Hold & Htab' & _). destruct Hch as (_ & Hp & _).
  apply (names_step w); try done.
  - by apply Htab'.
  - by rewrite Hp.
  - intros n Hn%Hh. rewrite Hp. destruct (ths !! t) as [th|] eqn:Ht; [|done].
    destruct (Hheld _ _ _ Ht Hn). auto.
  - intros s e He. right. right. destruct (Hold _ _ He) as (e0 & ? & ?). eauto.
  - intros n s e Hn%Hf He. destruct (ths !! t) as [th|] eqn:Ht; [|done].
    destruct (Hold _ _ He) as (e0 & He0 & <-). by eapply Hfree.
Qed.

(** *** States *)

(** A step of thread [t], which becomes [o]. *)
Lemma works_step w ths w' t (o : option Thread) :
  works_inv w ths →
  (∀ t' th sid st e', t' ≠ t → ths !! t' = Some th → works_on th = Some (sid, st) →
     entries w' !! sid = Some e' →
     ∃ e, entries w !! sid = Some e ∧ (status (meta e) = st → status (meta e') = st)) →
  (∀ sid st e', o ≫= works_on = Some (sid, st) → entries w' !! sid = Some e' →
     status (meta e') = st ∧
     ∀ t' th st', t' ≠ t → ths !! t' = Some th → works_on th ≠ Some (sid, st')) →
  works_inv w' (partial_alter (λ _, o) t ths).
Proof.
  intros [Hst Hmx] Hother Hnew.
  assert (∀ t' th, partial_alter (λ _, o) t ths !! t' = Some th →
    (t' = t ∧ o = Some th) ∨ (t' ≠ t ∧ ths !! t' = Some th)) as Hlk.
  { intros t' th. destruct (decide (t' = t)) as [->|Hne].
    - rewrite lookup_partial_alter_eq. auto.
    - rewrite lookup_partial_alter_ne by done. auto. }
  split.
  - intros t' th sid st e [[-> Ho]|[Hne Ht']]%Hlk Hw He.
    + by apply (Hnew sid st e); [rewrite Ho|].
    + destruct (Hother _ _ _ _ _ Hne Ht' Hw He) as (e0 & He0 & Hs). apply Hs. by eapply Hst.
  - intros t1 t2 th1 th2 sid st1 st2 [[-> Ho1]|[Hne1 H1]]%Hlk [[-> Ho2]|[Hne2 H2]]%Hlk Hw1 Hw2 [e He];
      [done|..].
    + destruct (Hnew sid st1 e) as [_ Hno]; [by rewrite Ho1|done|]. by destruct (Hno _ _ st2 Hne2 H2).
    + destruct (Hnew sid st2 e) as [_ Hno]; [by rewrite Ho2|done|]. by destruct (Hno _ _ st1 Hne1 H1).
    + destruct (Hother _ _ _ _ _ Hne1 H1 Hw1 He) as (e0 & He0 & _). eapply Hmx; eauto.
Qed.

(** A section with an edge that leaves sandboxes alone that others work on. *)
Lemma works_change w ths w' t o sid edge :
  works_inv w ths → change sid edge w w' →
  (∀ s s', edge s s' → s' = s ∨ s ≠ Stopping ∧ s ≠ Creating) →
  (∀ s st e', o ≫= works_on = Some (s, st) → entries w' !! s = Some e' →
     status (meta e') = st ∧
     ∀ t' th st', t' ≠ t → ths !! t' = Some th → works_on th ≠ Some (s, st')) →
  works_inv w' (partial_alter (λ _, o) t ths).
Proof.
  intros Hinv (_ & _ & Hent) Hedge Hnew. apply (works_step w); [done| |done].
  intros t' th s st e' Hne Ht' Hw He'. destruct Hent as [Hent|(e & e1 & He & Hent & _ & He1)];
    rewrite Hent in He'; [eauto|].
  apply lookup_insert_Some in He' as [[<- <-]|[? ?]]; [|eauto]. exists e. split; [done|]. intros Hs.
  destruct (Hedge _ _ He1) as [->|[Hn1 Hn2]]; [done|]. destruct th; try done; injection Hw as _ <-; done.
Qed.

(** The last section of a stop or a start, by the thread that began it. *)
Lemma works_end w ths w' t th sid st edge :
  works_inv w ths → ths !! t = Some th → works_on th = Some (sid, st) → change sid edge w w' →
  works_inv w' (delete t ths).
Proof.
  intros Hinv Ht Hw (_ & _ & Hent). apply (works_step w _ _ t None); [done| |done].
  intros t' th' s st' e' Hne Ht' Hw' He'.
  destruct Hent as [Hent|(e & e1 & He & Hent & _ & _)]; rewrite Hent in He'; [eauto|].
  apply lookup_insert_Some in He' as [[<- <-]|[? ?]]; [|eauto].
  destruct Hne. eapply (wi_mutex _ _ Hinv); eauto.
Qed.

(** Nobody works on a sandbox that is neither stopping nor being created. *)
Lemma works_idle w ths sid e :
  works_inv w ths → entries w !! sid = Some e → status (meta e) ≠ Stopping → status (meta e) ≠ Creating →
  ∀ t th st, ths !! t = Some th → works_on th ≠ Some (sid, st).
Proof.
  intros Hinv He Hn1 Hn2 t th st Ht Hw. pose proof (wi_state _ _ Hinv _ _ _ _ _ Ht Hw He).
  destruct th; try done; injection Hw as _ <-; done.
Qed.

Lemma rename_section_cases sid n w r w' :
  rename_section cfg order sid n w = (r, w') →
  permits w' = permits w ∧ pending_names w' = pending_names w ∧
  (entries w' = entries w ∨
   ∃ e e', entries w !! sid = Some e ∧ entries w' = <[sid := e']> (entries w) ∧
     name_of e' = n ∧ status (meta e') = status (meta e) ∧
     ∀ s x, entries w !! s = Some x → name_of x ≠ n).
Proof.
  unfold rename_section. destruct (find_name order n (entries w)) as [holder|] eqn:Hf.
  { case_decide; intros [= <- <-]; auto. }
  rewrite (find_name_None order order_spec) in Hf. unfold sbind, get_entry.
  destruct (entries w !! sid) as [e|] eqn:He; cbn; [|intros [= <- <-]; auto].
  set (next := set_options _ _). destruct (persist_meta cfg next w) as [[[]|err] w1] eqn:Hp;
    apply persist_meta_frame in Hp as (d & f & -> & _); intros [= <- <-]; [|auto].
  split_and!; try done. right. by exists e, (set_meta next e).
Qed.

(** The sections that end a stop or a start. *)
Definition ends_in (s : SandboxStatus) (_ s' : SandboxStatus) : Prop := s' = s.

Lemma record_change sid s code reason w r w' :
  set_state cfg sid s w = (r, w') ∨ record_state cfg sid s code w = (r, w') ∨
    record_ended cfg sid s code reason w = (r, w') → change sid (ends_in s) w w'.
Proof.
  unfold set_state, record_state, record_ended, commit_meta, sbind, get_entry.
  destruct (entries w !! sid) as [e|] eqn:He; cbn.
  - intros [H|[H|H]]; by eapply change_commit in H.
  - intros [H|[H|H]]; injection H as <- <-; by apply change_same.
Qed.

Lemma commit_running_change sid policy w r w' :
  commit_running_and_register cfg sid policy w = (r, w') → change sid (ends_in Running) w w'.
Proof.
  unfold commit_running_and_register, commit_meta, sbind, get_entry.
  destruct (entries w !! sid) as [e|] eqn:He; cbn; [|intros [= <- <-]; by apply change_same].
  destruct (commit_meta_ended _ _ _ _ _ _ w) as [rc w1] eqn:Hc.
  eapply (change_commit _ _ _ _ _ (ends_in Running)) in Hc; [|done..].
  destruct rc as [[]|]; by intros [= <- <-].
Qed.

Lemma claim_frame n w w' :
  claim_name n w = (true, w') → n ∉ pending_names w ∧ w' = upd_names (λ s, {[n]} ∪ s) w.
Proof. unfold claim_name. case_bool_decide; intros [= <-]. done. Qed.

Lemma release_held_frame n w :
  release_held n w = upd_names (λ _, pending_names (release_held n w)) w ∧
  (∀ x, x ∈ pending_names w → held_name (TReserved n) ≠ Some x → x ∈ pending_names (release_held n w)).
Proof.
  unfold release_held, drop_reservation. cbn. destruct (is_empty n); cbn; [by destruct w|].
  split; [done|]. intros x Hx Hn. assert (x ≠ n) by congruence. set_solver.
Qed.

Lemma detach_cases sid w x w' :
  detach sid w = (x, w') →
  pending_names w' = pending_names w ∧ entries w' = delete sid (entries w) ∧
  permits w' + size (entries w') = permits w + size (entries w).
Proof.
  unfold detach. destruct (entries w !! sid) as [e|] eqn:He; intros [= <- <-]; cbn.
  - split_and!; [done..|]. rewrite map_size_delete, He.
    assert (size (entries w) ≠ 0); [|lia]. intros Hz%map_size_empty_inv. by rewrite Hz, lookup_empty in He.
  - by rewrite delete_id.
Qed.

(** ** Every step keeps the invariant *)

Lemma permits_new ths t th :
  ths !! t = None → permits_held (<[t := th]> ths) = permits_held ths + (if admitted_thread th then 1 else 0).
Proof. intros Ht. pose proof (permits_held_insert ths t th) as H. rewrite Ht in H. cbn in H. lia. Qed.
Lemma permits_move ths t th0 th :
  ths !! t = Some th0 → permits_held (<[t := th]> ths) + (if admitted_thread th0 then 1 else 0) =
    permits_held ths + (if admitted_thread th then 1 else 0).
Proof. intros Ht. pose proof (permits_held_insert ths t th) as H. by rewrite Ht in H. Qed.
Lemma permits_change sid edge w w' :
  change sid edge w w' → permits w' = permits w ∧ size (entries w') = size (entries w).
Proof. intros Hc. pose proof (change_names _ _ _ _ Hc) as (_ & _ & ?). by destruct Hc. Qed.

Lemma permits_step s s' :
  step s s' → permits_inv (world s) (threads s) → permits_inv (world s') (threads s').
Proof.
  unfold permits_inv. intros Hstep Hinv.
  destruct Hstep as [w w' ths Hq|w ths t Ht|w ths t n w' Ht _ Hc|w ths t n Ht _|w ths t n h Ht _
    |w ths t n w' Ht Hp|w ths t n Ht|w ths t n Ht|w ths t n sid e Ht _ He _ _ _|w ths t n sid p Ht
    |w ths t sid p Ht|w ths t n sid w' Ht _ Hc|w ths t n sid r w' Ht Hr|w ths t n Ht
    |w ths t sid x w' Ht Hb|w ths t sid st code reason r w' Ht _ Hr|w ths t sid p w' Ht Hb
    |w ths t sid p r w' Ht Hr|w ths t sid p r w' Ht Hr|w ths t sid x w' Ht Hd|w ths t sid Ht]; cbn in *.
  - apply quiet_change in Hq as [sid [? ?]%permits_change]. lia.
  - rewrite permits_new by done. cbn. lia.
  - rewrite permits_new by done. apply claim_frame in Hc as [_ ->]. cbn. lia.
  - pose proof (permits_move _ _ _ (TReserved n) Ht). cbn in *. lia.
  - pose proof (permits_held_delete _ _ _ Ht). cbn in *. lia.
  - pose proof (permits_move _ _ _ (TAdmitted n) Ht). unfold acquire_permit in Hp.
    destruct (permits w) eqn:Hw; [done|]. injection Hp as <-. cbn in *. lia.
  - pose proof (permits_held_delete _ _ _ Ht). destruct (release_held_frame n w) as [-> _]. cbn in *. lia.
  - pose proof (permits_held_delete _ _ _ Ht). destruct (release_held_frame n (release_permit w)) as [-> _].
    cbn in *. lia.
  - pose proof (permits_move _ _ _ (TNamed n sid (comms (options (meta e)))) Ht).
    rewrite map_size_insert_None by done. cbn in *. lia.
  - pose proof (permits_move _ _ _ (TUnregistered sid p) Ht). destruct (release_held_frame n w) as [-> _].
    cbn in *. lia.
  - pose proof (permits_held_delete _ _ _ Ht). cbn in *. lia.
  - rewrite permits_new by done. apply claim_frame in Hc as [_ ->]. cbn. lia.
  - pose proof (permits_move _ _ _ (TRenamed n) Ht).
    apply rename_section_cases in Hr as (-> & _ & [->|(e & e' & He & -> & _)]); cbn in *; [lia|].
    rewrite map_size_insert, He. cbn. lia.
  - pose proof (permits_held_delete _ _ _ Ht). cbn in *. lia.
  - rewrite permits_new by done. apply begin_stop_change in Hb as [[? ?]%permits_change _]. cbn. lia.
  - pose proof (permits_held_delete _ _ _ Ht). apply record_change, permits_change in Hr as [? ?]. cbn in *. lia.
  - rewrite permits_new by done. apply begin_start_change in Hb as [[? ?]%permits_change _]. cbn. lia.
  - pose proof (permits_held_delete _ _ _ Ht). apply commit_running_change, permits_change in Hr as [? ?].
    cbn in *. lia.
  - pose proof (permits_held_delete _ _ _ Ht).
    pose proof (record_change sid Failed None None _ _ _ (or_introl Hr)) as [? ?]%permits_change.
    cbn in *. lia.
  - rewrite permits_new by done. apply detach_cases in Hd as (_ & _ & ?). cbn. lia.
  - pose proof (permits_held_delete _ _ _ Ht). cbn in *. lia.
Qed.

Lemma names_quiet w w' ths sid edge : names_inv w ths → change sid edge w w' → names_inv w' ths.
Proof.
  intros Hinv Hch. rewrite <- (partial_alter_self ths 0). eapply names_change; [done..|auto|auto].
Qed.

(** A fresh reservation. *)
Lemma names_claim w ths t n w' th :
  names_inv w ths → ths !! t = None → sandbox_name n = Ok tt → claim_name n w = (true, w') →
  held_name th = Some n → free_name th = None → names_inv w' (<[t := th]> ths).
Proof.
  intros Hinv Ht Hn [Hfresh ->]%claim_frame Hh Hf. apply (names_step w); cbn; try rewrite Ht; cbn; try done.
  - apply Hinv.
  - set_solver.
  - rewrite Hh. intros n' [= <-]. split_and!; [set_solver|done|by right].
  - eauto 6.
  - by rewrite Hf.
Qed.

(** A reservation is dropped. *)
Lemma names_release w ths w' t th o :
  names_inv w ths → ths !! t = Some th → entries w' = entries w →
  (∀ x, x ∈ pending_names w → held_name th ≠ Some x → x ∈ pending_names w') →
  o ≫= held_name = None → o ≫= free_name = None → names_inv w' (partial_alter (λ _, o) t ths).
Proof.
  intros Hinv Ht Hent Hp Hh Hf. apply (names_step w); rewrite ?Ht, ?Hh, ?Hf, ?Hent; try done.
  - apply Hinv.
  - eauto 6.
Qed.

Lemma names_insert w ths t n sid e :
  names_inv w ths → ths !! t = Some (TAdmitted n) → entity_id sid "sandbox" = Ok tt →
  entries w !! sid = None → name_of e = n →
  names_inv (insert_entry sid e w) (<[t := TNamed n sid (comms (options (meta e)))]> ths).
Proof.
  intros Hinv Ht Hid Hfresh Hn. pose proof Hinv as [Htab Hheld _ Hfree].
  assert (n = "" ∨ held_name (TAdmitted n) = Some n ∧ sandbox_name n = Ok tt ∧ n ∈ pending_names w ∧
    (∀ s x, entries w !! s = Some x → name_of x ≠ n)) as Hname.
  { destruct (is_empty n) eqn:Hemp; [left; by apply is_empty_spec|right].
    assert (held_name (TAdmitted n) = Some n) as Hh by (cbn; by rewrite Hemp).
    destruct (Hheld _ _ _ Ht Hh). split_and!; [done..|]. intros s x. apply (Hfree _ _ _ _ _ Ht).
    cbn. by rewrite Hemp. }
  apply (names_step w); rewrite ?Ht; try done.
  - cbn. apply table_ok_insert; [done..| |]; rewrite Hn; [naive_solver|].
    intros s x _ Hx Heq. destruct Hname as [|(_ & _ & _ & Hno)]; [done|]. by destruct (Hno _ _ Hx).
  - cbn. intros n' Hn'. destruct (is_empty n) eqn:Hemp; [done|]. injection Hn' as <-.
    destruct Hname as [->|(_ & ? & ? & _)]; [done|]. auto.
  - change (entries (insert_entry sid e w)) with (<[sid := e]> (entries w)).
    cbn [mbind option_bind]. intros s x [[<- <-]|[? ?]]%lookup_insert_Some; [|eauto 6].
    rewrite Hn. destruct Hname as [|(? & _)]; auto.
Qed.

Lemma names_rename w ths t n sid r w' :
  names_inv w ths → ths !! t = Some (TRenaming n sid) → rename_section cfg order sid n w = (r, w') →
  names_inv w' (<[t := TRenamed n]> ths).
Proof.
  intros Hinv Ht (Hp & Hpn & Hent)%rename_section_cases. pose proof Hinv as [Htab Hheld _ _].
  destruct (Hheld _ _ n Ht eq_refl) as [Hpend Hvalid].
  apply (names_step w); rewrite ?Ht, ?Hpn; try done.
  - destruct Hent as [->|(e & e' & He & -> & Hn & _ & Hno)]; [done|].
    apply table_ok_insert; [done|by eapply to_ids|rewrite Hn; by right|].
    rewrite Hn. intros s x _ Hx Heq. by destruct (Hno _ _ Hx).
  - cbn. intros n' [= <-]. auto.
  - destruct Hent as [->|(e & e' & He & -> & Hn & _ & Hno)]; [eauto 6|].
    intros s x [[<- <-]|[? ?]]%lookup_insert_Some; [|eauto 6]. right. left. cbn. by rewrite Hn.
Qed.

Lemma names_preserved s s' :
  step s s' → names_inv (world s) (threads s) → names_inv (world s') (threads s').
Proof.
  intros Hstep Hinv.
  destruct Hstep as [w w' ths Hq|w ths t Ht|w ths t n w' Ht Hn Hc|w ths t n Ht Hf|w ths t n h Ht _
    |w ths t n w' Ht Hp|w ths t n Ht|w ths t n Ht|w ths t n sid e Ht Hid He _ Hn _|w ths t n sid p Ht
    |w ths t sid p Ht|w ths t n sid w' Ht Hn Hc|w ths t n sid r w' Ht Hr|w ths t n Ht
    |w ths t sid x w' Ht Hb|w ths t sid st code reason r w' Ht _ Hr|w ths t sid p w' Ht Hb
    |w ths t sid p r w' Ht Hr|w ths t sid p r w' Ht Hr|w ths t sid x w' Ht Hd|w ths t sid Ht]; cbn in Hinv |- *.
  - apply quiet_change in Hq as [sid Hch]. by eapply names_quiet.
  - apply (names_change w _ _ _ _ "" quiet_edge); [done|by apply change_same|done..].
  - by eapply names_claim.
  - apply (names_step w); rewrite ?Ht; try done; [apply Hinv| |eauto 6|].
    + cbn. intros x Hx. destruct (is_empty n); [done|]. injection Hx as <-.
      destruct (ni_held _ _ Hinv _ _ n Ht eq_refl). auto.
    + cbn. intros x s e Hx. destruct (is_empty n); [done|]. injection Hx as <-.
      by apply (find_name_None order order_spec).
  - apply (names_release w _ _ _ _ None Hinv Ht); try done. cbn. intros x Hx Hne.
    assert (x ≠ n) by congruence. set_solver.
  - unfold acquire_permit in Hp. destruct (permits w) as [|k]; [done|]. injection Hp as <-.
    assert (names_inv (upd_permits (λ _, k) w) ths) as Hinv' by (by destruct Hinv).
    apply (names_change _ _ _ _ _ "" quiet_edge Hinv'); [by apply change_same|by rewrite Ht..].
  - apply (names_release w _ _ _ _ None Hinv Ht); try done;
      destruct (release_held_frame n w) as [Heq Hx]; [by rewrite Heq|exact Hx].
  - apply (names_release w _ _ _ _ None Hinv Ht); try done;
      destruct (release_held_frame n (release_permit w)) as [Heq Hx]; [by rewrite Heq|exact Hx].
  - by apply names_insert.
  - apply (names_release w _ _ _ _ (Some _) Hinv Ht); try done;
      destruct (release_held_frame n w) as [Heq Hx]; [by rewrite Heq|exact Hx].
  - apply (names_release w _ _ _ _ None Hinv Ht); done.
  - by eapply names_claim.
  - by eapply names_rename.
  - apply (names_release w _ _ _ _ None Hinv Ht); try done. cbn. intros x Hx Hne.
    assert (x ≠ n) by congruence. set_solver.
  - apply begin_stop_change in Hb as [Hch _]. eapply names_change; [done..| |]; done.
  - apply record_change in Hr. eapply (names_change w _ _ _ None); [done..| |]; done.
  - apply begin_start_change in Hb as [Hch _]. eapply names_change; [done..| |]; done.
  - apply commit_running_change in Hr. eapply (names_change w _ _ _ None); [done..| |]; done.
  - pose proof (record_change sid Failed None None _ _ _ (or_introl Hr)).
    eapply (names_change w _ _ _ None); [done..| |]; done.
  - apply detach_cases in Hd as (Hpn & Hent & _).
    apply (names_step w); rewrite ?Ht, ?Hpn; try done.
    + rewrite Hent. destruct (ni_table _ _ Hinv) as [H1 H2 H3].
      split; [intros s e [_ ?]%lookup_delete_Some; eauto..|].
      intros s1 s2 e1 e2 [_ ?]%lookup_delete_Some [_ ?]%lookup_delete_Some. eauto.
    + rewrite Hent. intros s e [_ ?]%lookup_delete_Some. eauto 6.
  - apply (names_release w _ _ _ _ None Hinv Ht); done.
Qed.

(** A step that neither changes a state nor begins work. *)
Lemma works_same w ths w' t o :
  works_inv w ths → (∀ sid e', entries w' !! sid = Some e' →
    ∃ e, entries w !! sid = Some e ∧ status (meta e') = status (meta e)) →
  o ≫= works_on = None → works_inv w' (partial_alter (λ _, o) t ths).
Proof.
  intros Hinv Hold Ho. apply (works_step w); [done| |by rewrite Ho].
  intros t' th sid st e' _ _ _ (e & He & Hs)%Hold. exists e. split; [done|congruence].
Qed.

Lemma works_frame w ths w' t o :
  works_inv w ths → entries w' = entries w → o ≫= works_on = None →
  works_inv w' (partial_alter (λ _, o) t ths).
Proof. intros Hinv He Ho. apply (works_same w); [done| |done]. rewrite He. eauto. Qed.

Lemma works_preserved s s' :
  step s s' → works_inv (world s) (threads s) → works_inv (world s') (threads s').
Proof.
  intros Hstep Hinv.
  destruct Hstep as [w w' ths Hq|w ths t Ht|w ths t n w' Ht Hn Hc|w ths t n Ht Hf|w ths t n h Ht _
    |w ths t n w' Ht Hp|w ths t n Ht|w ths t n Ht|w ths t n sid e Ht Hid He Hnew Hn Hst|w ths t n sid p Ht
    |w ths t sid p Ht|w ths t n sid w' Ht Hn Hc|w ths t n sid r w' Ht Hr|w ths t n Ht
    |w ths t sid x w' Ht Hb|w ths t sid st code reason r w' Ht _ Hr|w ths t sid p w' Ht Hb
    |w ths t sid p r w' Ht Hr|w ths t sid p r w' Ht Hr|w ths t sid x w' Ht Hd|w ths t sid Ht]; cbn in Hinv |- *;
    try (by apply (works_frame w _ _ _ (Some _))); try (by apply (works_frame w _ _ _ None)).
  - apply quiet_change in Hq as [sid Hch]. rewrite <- (partial_alter_self ths (fresh (dom ths))).
    eapply works_change; [done..| |].
    + intros s s' [->|[-> _]]; auto.
    + rewrite (not_elem_of_dom_1 ths (fresh (dom ths))) by apply is_fresh. done.
  - apply claim_frame in Hc as [_ ->]. by apply (works_frame w).
  - apply (works_frame w); [done| |done]. unfold acquire_permit in Hp. destruct (permits w); [done|].
    by injection Hp as <-.
  - apply (works_frame w _ _ _ None); [done| |done]. by destruct (release_held_frame n w) as [-> _].
  - apply (works_frame w _ _ _ None); [done| |done].
    by destruct (release_held_frame n (release_permit w)) as [-> _].
  - apply (works_step w); [done| |done]. intros t' th s st e' _ Ht' Hw He'.
    change (entries (insert_entry sid e w)) with (<[sid := e]> (entries w)) in He'.
    apply lookup_insert_Some in He' as [[<- <-]|[? ?]]; [by destruct (Hnew _ _ st Ht')|eauto].
  - apply (works_frame w _ _ _ (Some _)); [done| |done]. by destruct (release_held_frame n w) as [-> _].
  - apply claim_frame in Hc as [_ ->]. by apply (works_frame w).
  - apply rename_section_cases in Hr as (_ & _ & Hent). apply (works_same w _ _ _ (Some _)); [done| |done].
    destruct Hent as [->|(e & e' & He & -> & _ & Hst & _)]; [eauto|].
    intros s x [[<- <-]|[? ?]]%lookup_insert_Some; eauto.
  - apply begin_stop_change in Hb as [Hch (e & e' & He & Hs & He' & Hs')].
    eapply works_change; [done..| |].
    + intros s s' [[->| ->] _]; auto.
    + cbn. intros s st e1 [= <- <-] He1. split; [congruence|]. intros t' th st' _.
      eapply works_idle; [done..| |]; destruct Hs as [->| ->]; done.
  - apply record_change in Hr. by eapply works_end.
  - apply begin_start_change in Hb as [Hch (e & e' & He & Hs & He' & Hs')].
    eapply works_change; [done..| |].
    + intros s s' [[->|[->| ->]] _]; auto.
    + cbn. intros s st e1 [= <- <-] He1. split; [congruence|]. intros t' th st' _.
      eapply works_idle; [done..| |]; destruct Hs as [->|[->| ->]]; done.
  - apply commit_running_change in Hr. by eapply works_end.
  - pose proof (record_change sid Failed None None _ _ _ (or_introl Hr)). by eapply works_end.
  - apply detach_cases in Hd as (_ & Hent & _). apply (works_same w _ _ _ (Some _)); [done| |done].
    rewrite Hent. intros s e [_ ?]%lookup_delete_Some. eauto.
Qed.

Lemma inv_step s s' : step s s' → inv s → inv s'.
Proof.
  intros Hstep (Hn & Hp & Hw). split_and!;
    [by eapply names_preserved|by eapply permits_step|by eapply works_preserved].
Qed.

Lemma reachable_inv s : reachable s → inv s.
Proof.
  intros (s0 & (Htab & Hp & Hpn & Hths) & Hrun). assert (inv s0) as Hinv.
  { split_and!.
    - split; rewrite ?Hths; try done.
    - unfold permits_inv, permits_held. rewrite Hths, map_filter_empty, map_size_empty. lia.
    - split; by rewrite Hths. }
  clear -Hrun Hinv order_spec. induction Hrun as [|s1 s2 s3 Hstep _ IH]; [done|]. apply IH. by eapply inv_step.
Qed.

(** C2: Names stay unique under every interleaving.  In every state that any
    number of concurrent creations, renames, removals, starts and stops can
    reach, all ids and names in the table are valid, no two sandboxes have the
    same name, no name is reserved by two operations, and a name reserved
    for a sandbox that is being created is not in the table. *)
Theorem names_unique s :
  reachable s →
  table_ok (entries (world s)) ∧
  (∀ t1 t2 th1 th2 n, threads s !! t1 = Some th1 → threads s !! t2 = Some th2 →
     held_name th1 = Some n → held_name th2 = Some n → t1 = t2) ∧
  (∀ t th n sid e, threads s !! t = Some th → free_name th = Some n →
     entries (world s) !! sid = Some e → name_of e ≠ n).
Proof. intros ([Htab _ Honce Hfree] & _ & _)%reachable_inv. by split_and!. Qed.

(** C3: The sandbox limit holds under every interleaving.  In every reachable
    state the free permits, the sandboxes and the creations that hold a permit
    add up to the configured maximum, so the table never exceeds it and no
    permit is lost. *)
Theorem sandbox_limit s :
  reachable s →
  permits (world s) + size (entries (world s)) + permits_held (threads s) = max_sandboxes cfg ∧
  size (entries (world s)) ≤ max_sandboxes cfg.
Proof. intros (_ & Hp & _)%reachable_inv. unfold permits_inv in Hp. lia. Qed.

(** The moves between states. *)
Definition allowed_edge (s s' : SandboxStatus) : Prop :=
  match s, s' with
  | Running, (Stopping | Exited | Failed) => True
  | Exited, (Stopping | Creating) => True
  | Stopping, (Stopped | Failed) => True
  | (Stopped | Failed), Creating => True
  | Creating, (Running | Failed) => True
  | _, _ => s = s'
  end.

Lemma change_edge sid edge w w' s e e' :
  change sid edge w w' → (∀ x y, edge x y → allowed_edge x y) →
  entries w !! s = Some e → entries w' !! s = Some e' → allowed_edge (status (meta e)) (status (meta e')).
Proof.
  assert (∀ x, allowed_edge x x) as Hrefl by (by intros []).
  intros (_ & _ & Hent) Hedge He He'. destruct Hent as [Hent|(e0 & e1 & He0 & Hent & _ & H1)];
    rewrite Hent in He'; [by simplify_eq|].
  apply lookup_insert_Some in He' as [[<- <-]|[_ ?]]; simplify_eq; auto.
Qed.

(** The end of a stop or a start, of a sandbox in the state it began with. *)
Lemma change_end_edge sid st st' w w' s e e' :
  change sid (ends_in st') w w' → allowed_edge st st' →
  (∀ x, entries w !! sid = Some x → status (meta x) = st) →
  entries w !! s = Some e → entries w' !! s = Some e' → allowed_edge (status (meta e)) (status (meta e')).
Proof.
  intros Hch Hedge Hst. eapply (change_edge sid (λ x y, x = st ∧ y = st' ∨ x = y)).
  - destruct Hch as (? & ? & [?|(x & y & Hx & Hy & Hn & Hend)]); split_and!; auto.
    right. exists x, y. split_and!; try done. left. split; [by apply Hst|done].
  - intros x y [[-> ->]| ->]; [done|by destruct y].
Qed.

(** C4: A sandbox only moves along the lifecycle.  Whatever operations
    interleave, a step changes the state of a sandbox at most along an edge of
    the lifecycle: a running one stops, exits or fails, a stopped, exited or
    failed one is started through [Creating], and so on; and no two operations
    stop or start the same sandbox at once: the thread that began owns the
    state until it ends. *)
Theorem lifecycle_edges s s' :
  reachable s → step s s' →
  (∀ sid e e', entries (world s) !! sid = Some e → entries (world s') !! sid = Some e' →
     allowed_edge (status (meta e)) (status (meta e'))) ∧
  (∀ t1 t2 th1 th2 sid st1 st2, threads s' !! t1 = Some th1 → threads s' !! t2 = Some th2 →
     works_on th1 = Some (sid, st1) → works_on th2 = Some (sid, st2) →
     is_Some (entries (world s') !! sid) → t1 = t2).
Proof.
  intros Hinv%reachable_inv Hstep. split; [|apply (inv_step _ _ Hstep Hinv)].
  destruct Hinv as (_ & _ & Hw). intros s0 e e' He He'.
  assert (∀ x, allowed_edge x x) as Hrefl by (by intros []).
  assert (∀ a b : World E, entries b = entries a → entries a !! s0 = Some e → entries b !! s0 = Some e' →
    allowed_edge (status (meta e)) (status (meta e'))) as Hsame by (intros ? ? Heq ? H; rewrite Heq in H; by simplify_eq).
  destruct Hstep as [w w' ths Hq|w ths t Ht|w ths t n w' Ht Hn Hc|w ths t n Ht Hf|w ths t n h Ht _
    |w ths t n w' Ht Hp|w ths t n Ht|w ths t n Ht|w ths t n sid x Ht Hid Hx Hnew Hn Hst|w ths t n sid p Ht
    |w ths t sid p Ht|w ths t n sid w' Ht Hn Hc|w ths t n sid r w' Ht Hr|w ths t n Ht
    |w ths t sid x w' Ht Hb|w ths t sid st code reason r w' Ht Hor Hr|w ths t sid p w' Ht Hb
    |w ths t sid p r w' Ht Hr|w ths t sid p r w' Ht Hr|w ths t sid x w' Ht Hd|w ths t sid Ht]; cbn in He, He', Hw;
    try (by eapply (Hsame w)).
  - apply quiet_change in Hq as [sid Hch]. eapply (change_edge _ _ _ _ _ _ _ Hch); [|done..].
    intros x y [->|[-> [->| ->]]]; done.
  - apply claim_frame in Hc as [_ ->]. by eapply (Hsame w).
  - eapply (Hsame w); [|done..]. unfold acquire_permit in Hp. destruct (permits w); [done|].
    by injection Hp as <-.
  - eapply (Hsame w); [|done..]. by destruct (release_held_frame n w) as [-> _].
  - eapply (Hsame w); [|done..]. by destruct (release_held_frame n (release_permit w)) as [-> _].
  - change (entries (insert_entry sid x w)) with (<[sid := x]> (entries w)) in He'.
    apply lookup_insert_Some in He' as [[<- <-]|[_ ?]]; simplify_eq; auto.
  - eapply (Hsame w); [|done..]. by destruct (release_held_frame n w) as [-> _].
  - apply claim_frame in Hc as [_ ->]. by eapply (Hsame w).
  - apply rename_section_cases in Hr as (_ & _ & [Hent|(x & y & Hx & Hent & _ & Hst & _)]); rewrite Hent in He';
      [by simplify_eq|]. apply lookup_insert_Some in He' as [[<- <-]|[_ ?]]; simplify_eq; [by rewrite Hst|auto].
  - apply begin_stop_change in Hb as [Hch _]. eapply (change_edge _ _ _ _ _ _ _ Hch); [|done..].
    by intros a b [[->| ->] ->].
  - apply record_change in Hr. eapply (change_end_edge _ Stopping _ _ _ _ _ _ Hr); [|..|done|done].
    + by destruct Hor as [->| ->].
    + intros y Hy. by eapply (wi_state _ _ Hw).
  - apply begin_start_change in Hb as [Hch _]. eapply (change_edge _ _ _ _ _ _ _ Hch); [|done..].
    by intros a b [[->|[->| ->]] ->].
  - apply commit_running_change in Hr. eapply (change_end_edge _ Creating _ _ _ _ _ _ Hr); [done|..|done|done].
    intros y Hy. by eapply (wi_state _ _ Hw).
  - pose proof (record_change sid Failed None None _ _ _ (or_introl Hr)) as Hch.
    eapply (change_end_edge _ Creating _ _ _ _ _ _ Hch); [done|..|done|done].
    intros y Hy. by eapply (wi_state _ _ Hw).
  - apply detach_cases in Hd as (_ & Hent & _). rewrite Hent in He'.
    apply lookup_delete_Some in He' as [_ He']. simplify_eq. auto.
Qed.
End concurrency.
(** ** A race *)

Definition race_entry : SandboxEntry :=
  mkEntry (proxy_new "b2" egress_default) None None
    (mkMeta "b2"
       (mkOpts "alpine" [] [] egress_default limits_default ∅ None (mkComms CommGroup (Some "team"))
          (demo_spec "" restart_default))
       0 Running None None None None "" false 0 false)
    [] None.
Definition race_start : World unit :=
  mkWorld ∅ 4 ∅ ∅ [] broker_default ∅ ∅ [] [] ∅ 0 tt 0.

(** A removal that overtakes a creation leaks a broker policy.  From an
    empty daemon a state can be reached in which nothing is in flight and no
    sandbox exists, while the broker holds a policy of a sandbox that was
    removed: the creation inserts its entry and registers the policy in two
    separate sections, and a removal fits in between. *)
Theorem create_register_race :
  ∃ s, reachable (E:=unit) demo_config map_to_list s ∧ threads s = ∅ ∧ entries (world s) = ∅ ∧
    policies (broker (world s)) !! "b2" = Some (mkComms CommGroup (Some "team")).
Proof.
  set (p := mkComms CommGroup (Some "team")).
  set (w1 := upd_permits (λ _, 3) race_start).
  set (w2 := insert_entry "b2" race_entry w1).
  set (w3 := (detach "b2" w2).2).
  exists (mkSys (upd_broker (register_state "b2" p) (drop_tied "b2" w3)) ∅). split_and!; [|done..].
  exists (mkSys race_start ∅). split.
  { split_and!; try done. }
  eapply rtc_l; [apply (s_unnamed _ _ _ _ 0); done|].
  eapply rtc_l; [apply (s_permit _ _ _ _ 0 "" w1); done|].
  eapply rtc_l; [apply (s_insert _ _ _ _ 0 "" "b2" race_entry); try done|].
  { intros t' th s. rewrite insert_insert_eq. by intros [[<- <-]|[_ ?]]%lookup_insert_Some. }
  eapply rtc_l; [apply (s_drop_reservation _ _ _ _ 0 "" "b2" p); done|].
  eapply rtc_l; [apply (s_detach _ _ _ _ 1 "b2" (Some race_entry) w3); done|].
  eapply rtc_l; [apply (s_drop_tied _ _ _ _ 1 "b2"); done|].
  eapply rtc_l; [apply (s_register _ _ _ _ 0 "b2" p); done|].
  apply rtc_refl.
Qed.

(** ** Witnesses *)

Lemma demo_reachable :
  reachable (E:=unit) demo_config map_to_list (mkSys (demo_world tt Running) ∅).
Proof. exists (mkSys (demo_world tt Running) ∅). split; [|apply rtc_refl]. split_and!; [apply demo_table_ok|done..]. Qed.

Lemma names_unique_witness : table_ok (entries (demo_world tt Running)).
Proof.
  exact (proj1 (names_unique demo_config map_to_list (λ _, reflexivity _)
    (mkSys (demo_world tt Running) ∅) demo_reachable)).
Defined.

Lemma sandbox_limit_witness : size (entries (demo_world tt Running)) ≤ 4.
Proof.
  exact (proj2 (sandbox_limit demo_config map_to_list (λ _, reflexivity _)
    (mkSys (demo_world tt Running) ∅) demo_reachable)).
Defined.

Lemma lifecycle_edges_witness :
  ∃ e e', entries (demo_world tt Running) !! "a1" = Some e ∧
    entries (begin_stop demo_config "a1" (demo_world tt Running)).2 !! "a1" = Some e' ∧
    allowed_edge (status (meta e)) (status (meta e')).
Proof.
  destruct (begin_stop demo_config "a1" (demo_world tt Running)) as [r w'] eqn:Hb.
  assert (r = Ok (Some (Running, meta (demo_entry "a1" Running))) ∧
    ∃ e', entries w' !! "a1" = Some e') as [-> [e' He']].
  { revert Hb. vm_compute. intros [= <- <-]. split; [done|]. by eexists. }
  exists (demo_entry "a1" Running), e'. split; [reflexivity|]. split; [exact He'|].
  exact (proj1 (lifecycle_edges demo_config map_to_list (λ _, reflexivity _)
    (mkSys (demo_world tt Running) ∅) (mkSys w' {[0 := TStopping "a1"]}) demo_reachable
    (s_stop_begin demo_config map_to_list (demo_world tt Running) ∅ 0 "a1" _ w' eq_refl Hb)) "a1" (demo_entry "a1" Running) e' eq_refl He').
Defined.
