(* ===== verification/Update.v ===== *)
(** * Update: changing the limits of a sandbox that exists

    Models [ward-core/src/sandbox/manager/update.rs]: a running sandbox gets
    the new limits at once, the record keeps them for the next boot, and a
    record that cannot be written puts the old limits back.  Updates of one
    sandbox are serialised by a lock of their own, so an update is a sequence
    of sections here as well. *)

From stdpp Require Import base list numbers option strings pretty gmap.
From Stdlib Require Import ZArith Lia.
From S2P Require Import Prelude Text Restart Broker Egress Validate Store Events Health Guest Protocol Manager Lifecycle Create.

(** The [Display] of an API error. *)
Definition api_error_text (e : ApiError) : string :=
  match e with
  | SandboxNotFound id => "sandbox not found: " +:+ id
  | VolumeNotFound id => "volume not found: " +:+ id
  | SnapshotNotFound id => "snapshot not found: " +:+ id
  | ProcessNotFound p => "process not found: " +:+ p
  | InvalidRequest m => "invalid request: " +:+ m
  | GuestIo m => "sandbox i/o error: " +:+ m
  | BackendErr m => "backend error: " +:+ m
  | Internal m => "internal error: " +:+ m
  | NameInUse n _ => cat ["sandbox name "; dquote; n; dquote; " is already in use"]
  | PermissionDenied m => "permission denied: " +:+ m
  | AmbiguousReference m => "ambiguous sandbox reference: " +:+ m
  | ResourceExhausted m => "resource exhausted: " +:+ m
  | AddressInUse a => "address already in use: " +:+ a
  | VolumeInUse m | ImageNotFound m | Unavailable m | PathNotFound m => m
  end.

Record UpdateRequest := mkUpdate {
  up_id : string;
  up_memory_mb : option Z;
  up_nano_cpus : option Z;
  up_pids_max : option Z;
  up_cgroup : CgroupUpdate;
  up_restart_policy : option PbRestartPolicy;
}.

Definition NOTHING_TO_UPDATE : string :=
  "You must provide one or more flags when using this command.".

Definition requested_limits (req : UpdateRequest) : LimitsUpdate :=
  mkLimitsUpdate (up_memory_mb req) (up_nano_cpus req) (up_pids_max req) (up_cgroup req).

(** A recorded swap limit follows a new memory limit unless the request names
    one of its own. *)
Definition follow_swap (limits : LimitsUpdate) (previous : CgroupLimits) : LimitsUpdate :=
  match u_memory_mb limits with
  | Some mb =>
      if bool_decide (u_memory_swap_bytes (u_cgroup limits) = None) &&
         negb (memory_swap_bytes previous =? 0)%Z
      then
        let c := u_cgroup limits in
        mkLimitsUpdate (u_memory_mb limits) (u_nano_cpus limits) (u_pids_max limits)
          (mkCgroupUpdate (Some (default (2 ^ 63 - 1)%Z (try_i64 (mb * BYTES_PER_MIB))))
             (u_memory_reservation_bytes c) (u_cpu_shares c) (u_cpuset_cpus c) (u_cpu_period c)
             (u_cpu_quota c))
      else limits
  | None => limits
  end.

Definition set_cgroup (c : CgroupLimits) (g : GuestOptions) : GuestOptions :=
  mkGuest (read_only_rootfs g) (tmpfs g) (shm_size_bytes g) (Protocol.extra_hosts g) (dns_search g)
    (dns_options g) (Protocol.ulimits g) (Protocol.group_add g) c (healthcheck g).
Definition set_limits (r : ResourceLimits) (o : CreateOpts) : CreateOpts :=
  mkOpts (image o) (mounts o) (volume_ids o) (egress o) r (Protocol.env o) (from_snapshot o) (comms o) (spec o).
Definition set_guest_restart (g : GuestOptions) (p : RestartPolicy) (s : SandboxSpec) : SandboxSpec :=
  mkSpec (name s) (command s) (entrypoint_len s) (workdir s) (user s) (tty s) (auto_remove s)
    (published_ports s) (image_digest s) (labels s) (hostname s) (stop_signal s) (stop_timeout s) p g.

(** The record an update writes. *)
Definition updated_meta (limits : LimitsUpdate) (policy : option RestartPolicy) (m : SandboxMeta)
    : SandboxMeta :=
  let o := options m in
  let s := spec o in
  set_options
    (set_limits (limits_updated (resources o) limits)
       (set_spec (set_guest_restart
          (set_cgroup (cgroup_updated (cgroup (guest s)) (u_cgroup limits)) (guest s))
          (default (restart s) policy) s) o)) m.

Section update.
Context {E : Type} `{HBE : !Backend E} (cfg : Config).
Context (order : gmap string SandboxEntry → list (string * SandboxEntry)).
Implicit Types (w : World E).

Definition recorded_cgroup (sid : string) : St E CgroupLimits :=
  let! e := get_entry sid in sret (cgroup (guest (spec_of e))).

Definition checked_restart (sid : string) (policy : option PbRestartPolicy)
    : St E (option RestartPolicy) :=
  match policy with
  | None => sret None
  | Some _ =>
      let! e := get_entry sid in
      let! r := lift (restart_policy policy (auto_remove (spec_of e))) in
      if had_secrets (meta e) && bool_decide (kind r ≠ RestartNo)
      then sfail (InvalidRequest RESTART_WITHOUT_SECRETS)
      else sret (Some r)
  end.

(** [restore_limits]: the backend's answer decides the message only. *)
Definition restore_limits (sid : string) (limits : LimitsUpdate) (previous : ResourceLimits)
    (previous_cgroup : CgroupLimits) (w : World E) : result unit BackendError * World E :=
  let undo := limits_undo limits previous previous_cgroup in
  if limits_update_is_empty undo then (Ok tt, w) else call (be_update_limits sid undo) w.

Definition record_update (sid : string) (limits : LimitsUpdate) (policy : option RestartPolicy)
    : St E unit :=
  let! e := get_entry sid in
  let next := updated_meta limits policy (meta e) in
  persist_meta cfg next ;!
  put_entry sid (set_meta next e) ;!
  modify (λ w, emit_raw (event_new EvUpdate next (clock w)) w).

(** The part of [update] that tells the VM. *)
Definition apply_limits (sid : string) (limits : LimitsUpdate) (previous : ResourceLimits)
    (previous_cgroup : CgroupLimits) : St E unit :=
  if limits_update_is_empty limits then sret tt
  else
    let next := limits_updated previous limits in
    lift (resource_limits (cpus next) (memory_mb next) (pids_max next) (timeout_seconds next)) ;!
    lift (cgroup_check (cgroup_updated previous_cgroup (u_cgroup limits)) (memory_mb next)) ;!
    (λ w, match call (be_update_limits sid limits) w with
          | (Ok _, w) => (Ok tt, w)
          | (Err e, w) =>
              (Err (backend_err e), (restore_limits sid limits previous previous_cgroup w).2)
          end).

Definition update (req : UpdateRequest) : St E SandboxInfo :=
  let! sid := resolve order (up_id req) in
  let limits := requested_limits req in
  if limits_update_is_empty limits && bool_decide (up_restart_policy req = None)
  then sfail (InvalidRequest NOTHING_TO_UPDATE)
  else
    let! policy := checked_restart sid (up_restart_policy req) in
    let! previous := recorded_limits sid in
    let! previous_cgroup := recorded_cgroup sid in
    let limits := follow_swap limits previous_cgroup in
    apply_limits sid limits previous previous_cgroup ;!
    (λ w, match record_update sid limits policy w with
          | (Ok _, w) => info sid w
          | (Err e, w) =>
              let '(restored, w) := restore_limits sid limits previous previous_cgroup w in
              (Err (match restored with
                    | Ok _ => e
                    | Err stuck =>
                        Internal (api_error_text e +:+
                          "; the old limits could not be put back, so the running sandbox may differ from its record: "
                          +:+ backend_error_text stuck)
                    end), w)
          end).
End update.

(** ** What an update changes *)

Section update_props.
Context {E : Type} `{HBE : !Backend E} (cfg : Config).
Context (order : gmap string SandboxEntry → list (string * SandboxEntry)).
Implicit Types (w : World E).

Lemma restore_limits_env sid limits previous cg w r w' :
  restore_limits sid limits previous cg w = (r, w') → ∃ en, w' = upd_env (λ _, en) w.
Proof.
  unfold restore_limits. case_match; [|apply call_env].
  intros [= <- <-]. exists (env w). by destruct w.
Qed.

Lemma apply_limits_env sid limits previous cg w r w' :
  apply_limits sid limits previous cg w = (r, w') →
  (∃ en, w' = upd_env (λ _, en) w) ∧
  (r = Ok tt → limits_update_is_empty limits = false →
   let next := limits_updated previous limits in
   resource_limits (cpus next) (memory_mb next) (pids_max next) (timeout_seconds next) = Ok tt ∧
   cgroup_check (cgroup_updated cg (u_cgroup limits)) (memory_mb next) = Ok tt).
Proof.
  assert (∃ en, w = upd_env (λ _, en) w) as Hrefl by (exists (env w); by destruct w).
  unfold apply_limits. destruct (limits_update_is_empty limits); [by intros [= <- <-]|].
  unfold sbind, lift. destruct (resource_limits _ _ _ _) as [[]|]; [|by intros [= <- <-]].
  destruct (cgroup_check _ _) as [[]|]; [|by intros [= <- <-]].
  destruct (call _ w) as [[[]|be] w1] eqn:Hc; apply call_env in Hc as [en ->].
  - intros [= <- <-]. eauto.
  - destruct (restore_limits _ _ _ _ _) as [rr w2] eqn:Hr. apply restore_limits_env in Hr as [en2 ->].
    intros [= <- <-]. split; [by exists en2|done].
Qed.

(** C39: An update changes exactly the limits and the restart policy.  Either
    the table is as before and the call reports an error, or the sandbox that
    the request's reference resolves to has the record with the requested
    limits, and the swap limit that follows them, merged into the recorded
    ones, and with the restart policy the request states, read for a sandbox
    with that auto-remove setting, or the old policy when it states none; the
    record is on disk, one [update] event was added, and nothing else of the
    record, no other sandbox and no state of its lifecycle changed.  Limits
    that change passed the checks for the merged values, and a sandbox that
    was given secrets does not get a policy that restarts it. *)
Theorem update_spec req w r w' :
  update cfg order req w = (r, w') →
  (entries w' = entries w ∧ events w' = events w ∧ ∃ err, r = Err err) ∨
  ∃ sid e policy, resolve order (up_id req) w = (Ok sid, w) ∧ entries w !! sid = Some e ∧
    let limits := follow_swap (requested_limits req) (cgroup (guest (spec_of e))) in
    let next := updated_meta limits policy (meta e) in
    entries w' = <[sid := set_meta next e]> (entries w) ∧
    (with_store cfg = true → disk w' !! id (meta e) = Some next) ∧
    events w' = events w ++ [event_new EvUpdate next (clock w)] ∧
    permits w' = permits w ∧ pending_names w' = pending_names w ∧ broker w' = broker w ∧
    match up_restart_policy req with
    | None => policy = None
    | Some p => ∃ q, restart_policy (Some p) (auto_remove (spec_of e)) = Ok q ∧ policy = Some q ∧
        (had_secrets (meta e) = true → kind q = RestartNo)
    end ∧
    (limits_update_is_empty limits = false →
     let res := resources (options next) in
     resource_limits (cpus res) (memory_mb res) (pids_max res) (timeout_seconds res) = Ok tt ∧
     cgroup_check (cgroup (guest (spec (options next)))) (memory_mb res) = Ok tt).
Proof.
  unfold update, sbind. destruct (resolve order (up_id req) w) as [rs w0] eqn:Hres.
  assert (w0 = w) as -> by (unfold resolve in Hres; congruence).
  destruct rs as [sid|err]; [|intros [= <- <-]; left; eauto].
  case_match; [intros [= <- <-]; left; eauto|].
  destruct (checked_restart sid _ w) as [rp w1] eqn:Hcr.
  assert (w1 = w ∧ match rp with
    | Ok policy => ∀ e, entries w !! sid = Some e →
        match up_restart_policy req with
        | None => policy = None
        | Some p => ∃ q, restart_policy (Some p) (auto_remove (spec_of e)) = Ok q ∧ policy = Some q ∧
            (had_secrets (meta e) = true → kind q = RestartNo)
        end
    | Err _ => True end) as [-> Hpol].
  { unfold checked_restart, sbind, get_entry, lift in Hcr.
    destruct (up_restart_policy req) as [p|]; [|injection Hcr as <- <-; split_and!; done].
    destruct (entries w !! sid) as [e|]; cbn in Hcr; [|by injection Hcr as <- <-].
    destruct (restart_policy _ _) as [p0|] eqn:Hrp; [|by injection Hcr as <- <-].
    destruct (had_secrets (meta e)) eqn:Hs; cbn in Hcr.
    - case_bool_decide as Hk; injection Hcr as <- <-; [done|]. split; [done|].
      intros e' [= <-]. exists p0. split_and!; [done..|]. intros _. by destruct (kind p0); [|destruct Hk..].
    - injection Hcr as <- <-. split; [done|]. intros e' [= <-]. exists p0. split_and!; [done..|]. congruence. }
  destruct rp as [policy|err]; [|intros [= <- <-]; left; eauto].
  unfold recorded_limits, recorded_cgroup, sbind, get_entry.
  destruct (entries w !! sid) as [e|] eqn:He; cbn [ok_or sret]; [|intros [= <- <-]; left; eauto].
  unfold sret. rewrite ?He. cbn [ok_or].
  set (limits := follow_swap _ _).
  destruct (apply_limits _ _ _ _ w) as [ra w2] eqn:Hap.
  apply apply_limits_env in Hap as [[en ->] Hchk]. destruct ra as [[]|err]; [|intros [= <- <-]; left; eauto].
  unfold record_update, sbind, get_entry. cbn [entries upd_env]. rewrite He. cbn [ok_or].
  set (next := updated_meta limits policy (meta e)).
  destruct (persist_meta cfg next _) as [[[]|err] w3] eqn:Hp;
    apply persist_meta_frame in Hp as (d & f & -> & _ & Hdisk).
  2: { destruct (restore_limits _ _ _ _ _) as [rr w4] eqn:Hr. apply restore_limits_env in Hr as [en4 ->].
       intros [= <- <-]. left. split_and!; [done..|]. eauto. }
  unfold put_entry, modify. intros Hinfo. right. exists sid, e, policy. split; [done|]. split; [done|]. cbn zeta.
  fold limits. fold next.
  assert (∃ en', w' = upd_env (λ _, en') (emit_raw (event_new EvUpdate next (clock w))
    (upd_entries <[sid := set_meta next e]> (upd_faults (λ _, f) (upd_disk (λ _, d) (upd_env (λ _, en) w))))))
    as [en' ->].
  { unfold info, sbind in Hinfo. destruct (callE _ _ _) as [[i|] w5] eqn:Hc; apply callE_env in Hc as [en5 ->];
      injection Hinfo as <- <-; by exists en5. }
  split_and!; try done.
  - intros Hs. cbn. rewrite (Hdisk eq_refl Hs). apply lookup_insert_eq.
  - by apply Hpol.
  - intros Hne. by apply Hchk.
Qed.
End update_props.

(** ** Witnesses *)

Lemma update_spec_witness :
  let req := mkUpdate "web" (Some 256%Z) None None cgroup_update_default None in
  let w := demo_world (E:=list PortListener) [] Running in
  ∃ e', entries (update demo_config map_to_list req w).2 !! "a1" = Some e' ∧
    memory_mb (resources (options (meta e'))) = 256%Z.
Proof.
  intros req w.
  assert (is_ok (update demo_config map_to_list req w).1 = true) as Hok by (vm_compute; reflexivity).
  destruct (update demo_config map_to_list req w) as [r w'] eqn:Hu. cbn in Hok |- *.
  destruct (update_spec demo_config map_to_list req w r w' Hu)
    as [(_ & _ & [err ->])|(sid & e & policy & _ & He & Hent & _)]; [discriminate Hok|].
  change (entries w) with ({["a1" := demo_entry "a1" Running]} : gmap string SandboxEntry) in He.
  apply lookup_singleton_Some in He as [<- <-]. rewrite Hent, lookup_insert_eq. eexists. split; reflexivity.
Defined.
