(* ===== verification/Exec.v ===== *)
(** * Exec: processes started in a sandbox, and waiting for the main one

    Models the process operations of [ward-core/src/sandbox/manager.rs]:
    [exec], [stream_output] with its task [reap_on_exit], [kill_process],
    [write_stdin], the pump of the main process's output and [wait].  The
    table of processes is the manager's ([Manager.processes]); what its records
    share with tasks and clients, the cells the output receivers are taken
    from, the standard inputs and the running bridges, is kept beside it. *)

From stdpp Require Import base list numbers option strings pretty gmap.
From Stdlib Require Import ZArith Lia.
From S2P Require Import Prelude Text Tokio Net Signal Restart Output Broker Egress Validate Store Events Health Launch Protocol Manager Lifecycle.

(** ** Events *)

Inductive StreamEventKind :=
| KStdout
| KStderr
| KExit
| KData (s : RawStream) (b : bytes).

Record StreamEvent := mkStreamEvent {
  se_kind : StreamEventKind;
  se_line : string;
  se_exit_code : option Z;
  se_wait_status : option Z;
  se_oom_kills : Z;
}.
Definition is_exit (ev : StreamEvent) : bool :=
  match se_kind ev with KExit => true | _ => false end.

(** [event_chunk]; [now] is the time of the call. *)
Definition event_chunk (now : Z) (ev : StreamEvent) : option OutputChunk :=
  let line := String.list_byte_of_string (se_line ev +:+ newline) in
  match se_kind ev with
  | KData s b => Some (mkChunk s b now)
  | KStdout => Some (mkChunk Stdout line now)
  | KStderr => Some (mkChunk Stderr line now)
  | KExit => None
  end.

Section pump.
Context {ch rx : Type} `{Broadcast SeqChunk ch rx}.

(** What the pump writes: the buffer, the published status ([None] before
    anything is published) and the flag of the OOM killer. *)
Record Pumped := mkPumped {
  pumped_output : BufferState ch;
  pumped_exit : option (option Z);
  pumped_oom : bool;
}.

(** [pump_main_output] over the events of the channel, each with its time. *)
Fixpoint pump_main_output (cap : nat) (evs : list (Z * StreamEvent)) (p : Pumped) : Pumped :=
  match evs with
  | [] => p
  | (now, ev) :: evs =>
      match event_chunk now ev with
      | Some chunk =>
          pump_main_output cap evs
            (mkPumped (push cap (pumped_output p) chunk) (pumped_exit p) (pumped_oom p))
      | None =>
          mkPumped (pumped_output p)
            (Some (event_wait_status (se_wait_status ev) (se_exit_code ev)))
            (Z.gtb (se_oom_kills ev) 0)
      end
  end.
End pump.

(** ** The state around the process table *)

(** A running [reap_on_exit]: the events it has still to read and those it has
    forwarded, whether the client holds the other end, whether it is over. *)
Record Bridge := mkBridge {
  br_pid : string;
  br_cell : nat;
  br_source : list StreamEvent;
  br_sent : list StreamEvent;
  br_open : bool;
  br_done : bool;
}.

(** [cells]: the receiver in [Arc<Mutex<Option<Receiver>>>], given by the
    events it will yield.  [stdins]: the bytes sent to an open standard input,
    [None] for one whose reader is gone. *)
Record Procs (E : Type) := mkProcs {
  pw : World E;
  cells : gmap nat (option (list StreamEvent));
  stdins : gmap nat (option (list bytes));
  bridges : list Bridge;
  fresh_id : nat;
}.
Arguments mkProcs {E}.
Arguments pw {E}.
Arguments cells {E}.
Arguments stdins {E}.
Arguments bridges {E}.
Arguments fresh_id {E}.

Record ExecMode := mkExecMode { mode_tty : bool; mode_raw : bool; mode_user : string }.
Record ExecRequest := mkExecRequest {
  e_sandbox_id : string;
  e_command : list string;
  e_env : gmap string string;
  e_working_dir : string;
  e_user : string;
  e_secrets : list SecretFile;
}.
Record ProcessInfo := mkProcessInfo { pi_pid : string; pi_sandbox_id : string; pi_status : string }.

(** The handle [exec] of the backend returns; a channel may be missing. *)
Record ExecHandle := mkExecHandle {
  eh_pid : string;
  eh_output : option (list StreamEvent);
  eh_stdin : bool;
}.

Class ExecBackend (E : Type) := {
  eb_exec : string → list string → option string → gmap string string → ExecMode → E →
    result ExecHandle BackendError * E;
  eb_kill : string → string → E → result unit BackendError * E;
}.

Section exec.
Context {E : Type} `{HBE : !Backend E} `{HXE : !ExecBackend E} (cfg : Config).
Context (order : gmap string SandboxEntry → list (string * SandboxEntry)).
Implicit Types (w : World E) (p : Procs E).

(** An operation of the manager, in the wider state. *)
Definition on_world {A} (m : St E A) : Procs E → result A ApiError * Procs E := λ p,
  let '(r, w) := m (pw p) in
  (r, mkProcs w (cells p) (stdins p) (bridges p) (fresh_id p)).
Definition PSt (A : Type) : Type := Procs E → result A ApiError * Procs E.
Definition pbind {A B} (m : PSt A) (k : A → PSt B) : PSt B := λ p,
  match m p with (Ok a, p') => k a p' | (Err e, p') => (Err e, p') end.
Definition pret {A} (a : A) : PSt A := λ p, (Ok a, p).

(** ** Starting a process *)

(** [user_for]. *)
Definition user_for (sid requested : string) : St E string :=
  lift (user_spec requested) ;!
  if negb (is_empty requested) then sret requested
  else let! e := get_entry sid in sret (user (spec_of e)).

(** [put_secrets] and [put_exec_secrets]. *)
Definition put_secrets (sid u : string) (files : list SecretFile) : St E unit :=
  match files with
  | [] => sret tt
  | _ => callE (be_put_secrets sid u files) backend_err
  end.
Definition put_exec_secrets (sid requested : string) (files : list SecretFile) : St E unit :=
  lift (secrets files) ;!
  match files with
  | [] => sret tt
  | _ => let! u := user_for sid requested in put_secrets sid u files
  end.

Definition refuse_if_paused (sid : string) : St E unit :=
  let! paused := is_paused sid in
  if (paused : bool)
  then sfail (InvalidRequest ("Container " +:+ sid +:+ " is paused, unpause the container before exec"))
  else sret tt.

(** The part of [exec] before the record: checks, secrets and the start. *)
Definition exec_start (req : ExecRequest) : St E (string * ExecHandle) :=
  let! sid := resolve order (e_sandbox_id req) in
  lift (exec_command (e_command req)) ;!
  refuse_if_paused sid ;!
  let! u := user_for sid (e_user req) in
  put_exec_secrets sid (e_user req) (e_secrets req) ;!
  let! h := callE (eb_exec sid (e_command req)
    (if is_empty (e_working_dir req) then None else Some (e_working_dir req))
    (e_env req) (mkExecMode false false u)) backend_err in
  sret (sid, h).

(** The record, with a new cell and a new standard input. *)
Definition exec_park (sid : string) (h : ExecHandle) : Procs E → Procs E := λ p,
  let n := fresh_id p in
  let record := mkProcess sid n (if eh_stdin h then Some n else None) in
  mkProcs (upd_processes <[eh_pid h := record]> (pw p))
    (<[n := eh_output h]> (cells p))
    (if eh_stdin h then <[n := Some []]> (stdins p) else stdins p)
    (bridges p) (S n).

Definition exec (req : ExecRequest) : PSt ProcessInfo :=
  pbind (on_world (exec_start req)) (λ '(sid, h) p,
    (Ok (mkProcessInfo (eh_pid h) sid "running"), exec_park sid h p)).

(** [spawn_attached]: the handle goes to the client and is not recorded. *)
Definition spawn_attached (sid : string) (cmd : list string) (wd : option string)
    (vars : gmap string string) (tty : bool) (u : string) : St E ExecHandle :=
  lift (exec_command cmd) ;!
  refuse_if_paused sid ;!
  let! u := user_for sid u in
  callE (eb_exec sid cmd wd vars (mkExecMode tty true u)) backend_err.

(** ** Reading its output *)

(** The record of a process, addressed through the sandbox that owns it. *)
Definition owned_record (sid pid : string) : St E ProcessRecord := λ w,
  (let? r := ok_or (processes w !! pid) (ProcessNotFound pid) in
   refuse_if (negb (bool_decide (p_sandbox_id r = sid))) (ProcessNotFound pid) ;?
   Ok r, w).

(** The two sections of [stream_output]: the record is looked up under the lock
    of the table, its receiver taken under the lock of the cell. *)
Definition stream_lookup (reference pid : string) : St E nat :=
  let! sid := resolve order reference in
  lift (entity_id pid "process") ;!
  let! r := owned_record sid pid in
  sret (p_output r).

Definition stream_take (pid : string) (cell : nat) : PSt nat := λ p,
  match cells p !! cell with
  | Some (Some evs) =>
      (Ok (length (bridges p)),
       mkProcs (pw p) (<[cell := None]> (cells p)) (stdins p)
         (bridges p ++ [mkBridge pid cell evs [] true false]) (fresh_id p))
  | _ => (Err (InvalidRequest "output stream already consumed"), p)
  end.

Definition stream_output (reference pid : string) : PSt nat :=
  pbind (on_world (stream_lookup reference pid)) (stream_take pid).

(** One turn of [reap_on_exit]; a turn that ends it removes the record. *)
Definition reap_turn (b : Bridge) : Bridge :=
  match br_source b with
  | [] => mkBridge (br_pid b) (br_cell b) [] (br_sent b) (br_open b) true
  | ev :: evs =>
      if br_open b
      then mkBridge (br_pid b) (br_cell b) evs (br_sent b ++ [ev]) true (is_exit ev)
      else mkBridge (br_pid b) (br_cell b) evs (br_sent b) false true
  end.
Definition reap_step (i : nat) : Procs E → Procs E := λ p,
  match bridges p !! i with
  | Some b =>
      if br_done b then p else
      let b' := reap_turn b in
      mkProcs (if br_done b' then upd_processes (delete (br_pid b)) (pw p) else pw p)
        (cells p) (stdins p) (<[i := b']> (bridges p)) (fresh_id p)
  | None => p
  end.
(** The client drops its end of a bridge. *)
Definition drop_bridge (i : nat) : Procs E → Procs E := λ p,
  mkProcs (pw p) (cells p) (stdins p)
    (alter (λ b, mkBridge (br_pid b) (br_cell b) (br_source b) (br_sent b) false (br_done b)) i (bridges p))
    (fresh_id p).

(** ** Killing it, writing to it *)

Definition kill_process (reference pid : string) : St E unit :=
  let! sid := resolve order reference in
  lift (entity_id pid "process") ;!
  let! _ := owned_record sid pid in
  callE (eb_kill sid pid) backend_err ;!
  modify (upd_processes (delete pid)).

Definition send_stdin (pid : string) (n : nat) (b : bytes) : PSt unit := λ p,
  match stdins p !! n with
  | Some (Some sent) =>
      (Ok tt, mkProcs (pw p) (cells p) (<[n := Some (sent ++ [b])]> (stdins p)) (bridges p) (fresh_id p))
  | _ => (Err (ProcessNotFound pid), p)
  end.
Definition stdin_lookup (reference pid : string) : St E nat :=
  let! sid := resolve order reference in
  lift (entity_id pid "process") ;!
  let! r := owned_record sid pid in
  lift (ok_or (p_stdin r) (InvalidRequest "process does not accept stdin")).
Definition write_stdin (reference pid : string) (b : bytes) : PSt unit :=
  pbind (on_world (stdin_lookup reference pid)) (λ n, send_stdin pid n b).

End exec.

(** ** Ownership *)

Section ownership.
Context {E : Type} `{HBE : !Backend E} `{HXE : !ExecBackend E}.
Context (order : gmap string SandboxEntry → list (string * SandboxEntry)).
Implicit Types (w : World E) (p : Procs E).

Lemma resolve_world reference w r w' : resolve order reference w = (r, w') → w' = w.
Proof. unfold resolve. by intros [= _ <-]. Qed.

Lemma owned_record_none sid pid w :
  (∀ r, processes w !! pid = Some r → p_sandbox_id r ≠ sid) →
  owned_record sid pid w = (Err (ProcessNotFound pid), w).
Proof.
  intros Hno. unfold owned_record. destruct (processes w !! pid) as [r|]; [|done].
  cbn. by rewrite bool_decide_eq_false_2 by (by apply Hno).
Qed.

(** A process that was started was started by the backend. *)
Lemma exec_started req w sid h w' :
  exec_start order req w = (Ok (sid, h), w') →
  ∃ cmd wd vars mode en en', eb_exec sid cmd wd vars mode en = (Ok h, en').
Proof.
  assert (∀ A B (m : St E A) k (x : B) w0 w2, sbind m k w0 = (Ok x, w2) → ∃ a w1, m w0 = (Ok a, w1) ∧ k a w1 = (Ok x, w2)) as Hb.
  { intros A B m k x w0 w2. unfold sbind. destruct (m w0) as [[a|err] w1]; [eauto|done]. }
  unfold exec_start. intros H. do 5 (apply Hb in H as (? & ? & _ & H)). apply Hb in H as (? & ? & Hc & H). injection H as <- <- <-.
  unfold callE, Lifecycle.call in Hc. destruct (eb_exec _ _ _ _ _ _) as [[h'|e] en'] eqn:Hx; [|done]. injection Hc as <- _.
  by eexists _, _, _, _, _, _.
Qed.

(** An address that names a process of another sandbox, or none, is refused. *)
Lemma addressed_none {A} (k : string → ProcessRecord → St E A) reference sid pid w :
  resolve order reference w = (Ok sid, w) → entity_id pid "process" = Ok tt →
  (∀ r, processes w !! pid = Some r → p_sandbox_id r ≠ sid) →
  (let! sid := resolve order reference in
   lift (entity_id pid "process") ;!
   let! r := owned_record sid pid in k sid r) w = (Err (ProcessNotFound pid), w).
Proof.
  intros Hr Hid Hno. unfold sbind, lift. rewrite Hr, Hid. by rewrite owned_record_none.
Qed.
End ownership.

(** A process can be reached only through the sandbox that owns it: when no
    process of that id belongs to the sandbox the caller names, reading its
    output, killing it and writing to it all answer that there is no such
    process, and nothing changes: the backend is not called, no receiver is
    taken and no byte is written. *)
Theorem process_isolation {E : Type} `{!Backend E} `{!ExecBackend E}
    (order : gmap string SandboxEntry → list (string * SandboxEntry))
    (p : Procs E) (reference sid pid : string) (b : bytes)
    (named : resolve order reference (pw p) = (Ok sid, pw p))
    (valid : entity_id pid "process" = Ok tt)
    (foreign : ∀ r, processes (pw p) !! pid = Some r → p_sandbox_id r ≠ sid) :
  stream_output order reference pid p = (Err (ProcessNotFound pid), p) ∧
  kill_process order reference pid (pw p) = (Err (ProcessNotFound pid), pw p) ∧
  write_stdin order reference pid b p = (Err (ProcessNotFound pid), p).
Proof.
  split_and!.
  - unfold stream_output, pbind, on_world, stream_lookup.
    rewrite (addressed_none order (λ _ r, sret (p_output r)) reference sid); [by destruct p|done..].
  - unfold kill_process. apply (addressed_none order (λ sid _,
      callE (eb_kill sid pid) backend_err ;! modify (upd_processes (delete pid))) reference sid); done.
  - unfold write_stdin, pbind, on_world, stdin_lookup.
    rewrite (addressed_none order (λ _ r, lift (ok_or (p_stdin r)
      (InvalidRequest "process does not accept stdin"))) reference sid); [by destruct p|done..].
Qed.

(** ** Every reader of a process's output

    The tasks and clients of the manager, one critical section at a time.  The
    configuration adds the calls of [stream_output] between their two sections,
    and for every process ever started the cell and the events of its output. *)

Record Conf (E : Type) := mkConf {
  procs : Procs E;
  looked : list (string * nat);
  started : gmap string (nat * option (list StreamEvent));
}.
Arguments mkConf {E}.
Arguments procs {E}.
Arguments looked {E}.
Arguments started {E}.

(** The events up to the first exit. *)
Fixpoint upto_exit (evs : list StreamEvent) : list StreamEvent :=
  match evs with
  | [] => []
  | ev :: evs => ev :: (if is_exit ev then [] else upto_exit evs)
  end.

Section readers.
Context {E : Type}.
Implicit Types (p : Procs E) (c : Conf E).

Definition set_world (w : World E) p : Procs E :=
  mkProcs w (cells p) (stdins p) (bridges p) (fresh_id p).

(** Process ids are random UUIDs: one that is started is new. *)
Inductive pstep : Conf E → Conf E → Prop :=
| ps_park sid h c :
    started c !! eh_pid h = None →
    pstep c (mkConf (exec_park sid h (procs c)) (looked c)
      (<[eh_pid h := (fresh_id (procs c), eh_output h)]> (started c)))
| ps_lookup sid pid r c :
    owned_record sid pid (pw (procs c)) = (Ok r, pw (procs c)) →
    pstep c (mkConf (procs c) ((pid, p_output r) :: looked c) (started c))
| ps_take pid cell r p' c :
    (pid, cell) ∈ looked c → stream_take pid cell (procs c) = (r, p') →
    pstep c (mkConf p' (looked c) (started c))
| ps_reap i c : pstep c (mkConf (reap_step i (procs c)) (looked c) (started c))
| ps_drop i c : pstep c (mkConf (drop_bridge i (procs c)) (looked c) (started c))
| ps_world w c :
    processes w ⊆ processes (pw (procs c)) →
    pstep c (mkConf (set_world w (procs c)) (looked c) (started c)).

Inductive reached : Conf E → Prop :=
| reached_init w : processes w = ∅ → reached (mkConf (mkProcs w ∅ ∅ [] 0) [] ∅)
| reached_step c c' : reached c → pstep c c' → reached c'.

(** What a bridge owes its reader. *)
Definition bridge_ok (evs : list StreamEvent) (b : Bridge) : Prop :=
  if br_done b
  then br_sent b `prefix_of` upto_exit evs ∧ (br_open b = true → br_sent b = upto_exit evs)
  else evs = br_sent b ++ br_source b ∧ Forall (λ ev, is_exit ev = false) (br_sent b).

Record CInv (c : Conf E) : Prop := mkCInv {
  inv_records : ∀ pid r, processes (pw (procs c)) !! pid = Some r →
    ∃ evs, started c !! pid = Some (p_output r, evs);
  inv_looked : ∀ pid cell, (pid, cell) ∈ looked c → ∃ evs, started c !! pid = Some (cell, evs);
  inv_fresh : ∀ pid cell evs, started c !! pid = Some (cell, evs) → cell < fresh_id (procs c);
  inv_owner : ∀ pid pid' cell evs evs', started c !! pid = Some (cell, evs) →
    started c !! pid' = Some (cell, evs') → pid = pid';
  inv_cells : ∀ pid cell evs, started c !! pid = Some (cell, evs) →
    ∀ evs', cells (procs c) !! cell = Some (Some evs') →
    evs = Some evs' ∧ cell ∉ br_cell <$> bridges (procs c);
  inv_bridges : Forall (λ b, ∃ evs, started c !! br_pid b = Some (br_cell b, Some evs) ∧
    bridge_ok evs b) (bridges (procs c));
  inv_single : NoDup (br_cell <$> bridges (procs c));
  inv_reaped : Forall (λ b, br_done b = true → processes (pw (procs c)) !! br_pid b = None)
    (bridges (procs c));
}.

Lemma upto_exit_app sent rest :
  Forall (λ ev, is_exit ev = false) sent → upto_exit (sent ++ rest) = sent ++ upto_exit rest.
Proof. induction 1 as [|ev sent Hev _ IH]; [done|]. cbn. by rewrite Hev, IH. Qed.

Lemma bridge_ok_turn evs b : br_done b = false → bridge_ok evs b → bridge_ok evs (reap_turn b).
Proof.
  unfold bridge_ok, reap_turn. intros -> [-> Hno].
  destruct (br_source b) as [|ev rest]; cbn.
  - rewrite upto_exit_app, app_nil_r by done. done.
  - destruct (br_open b); cbn.
    + destruct (is_exit ev) eqn:Eev; cbn.
      * rewrite upto_exit_app by done. cbn. by rewrite Eev.
      * rewrite <- app_assoc. split; [done|]. apply Forall_app. by repeat constructor.
    + rewrite upto_exit_app by done. split; [by apply prefix_app_r|done].
Qed.

Lemma cinv_init w : processes w = ∅ → CInv (mkConf (mkProcs w ∅ ∅ [] 0) [] ∅).
Proof. intros Hw. constructor; cbn; try rewrite Hw; try done; try constructor; set_solver. Qed.

Lemma cinv_park sid h c :
  CInv c → started c !! eh_pid h = None →
  CInv (mkConf (exec_park sid h (procs c)) (looked c)
    (<[eh_pid h := (fresh_id (procs c), eh_output h)]> (started c))).
Proof.
  intros [Hrec Hlook Hfresh Hown Hcell Hbr Hone Hreap] Hnew.
  assert (Hkeep : ∀ pid x, started c !! pid = Some x →
    <[eh_pid h := (fresh_id (procs c), eh_output h)]> (started c) !! pid = Some x).
  { intros pid x Hx. rewrite lookup_insert_ne; [done|congruence]. }
  constructor; cbn.
  - intros pid r. rewrite lookup_insert_Some. intros [[<- <-]|[Hne Hr]].
    + rewrite lookup_insert_eq. by eexists.
    + destruct (Hrec _ _ Hr) as (evs & Hs). eauto.
  - intros pid cell Hin. destruct (Hlook _ _ Hin) as (evs & Hs). eauto.
  - intros pid cell evs. rewrite lookup_insert_Some. intros [[_ [= <- _]]|[_ Hs%Hfresh]]; lia.
  - intros pid pid' cell evs evs'. rewrite !lookup_insert_Some.
    intros [[<- H1]|[? H1]] [[<- H2]|[? H2]]; simplify_eq; [done|..|by eapply Hown].
    all: first [apply Hfresh in H1 | apply Hfresh in H2]; lia.
  - intros pid cell evs. rewrite lookup_insert_Some. intros [[<- [= <- <-]]|[Hne Hs]] evs'.
    + rewrite lookup_insert_eq. intros [= ->]. split; [done|].
      intros (b & Eb & Hb)%list_elem_of_fmap. rewrite Forall_forall in Hbr.
      destruct (Hbr b Hb) as (evs & Hs & _). apply Hfresh in Hs. lia.
    + pose proof (Hfresh _ _ _ Hs). rewrite lookup_insert_ne by lia. by eapply Hcell.
  - eapply Forall_impl; [exact Hbr|]. intros b (evs & Hs & Hok). cbn. eauto.
  - done.
  - rewrite Forall_forall in *. intros b Hb Hd. cbn. rewrite lookup_insert_ne; [by apply Hreap|].
    intros Heq. destruct (Hbr b Hb) as (evs & Hs & _). by rewrite <- Heq, Hnew in Hs.
Qed.

Lemma cinv_take pid cell r p' c :
  CInv c → (pid, cell) ∈ looked c → stream_take pid cell (procs c) = (r, p') →
  CInv (mkConf p' (looked c) (started c)).
Proof.
  intros [Hrec Hlook Hfresh Hown Hcell Hbr Hone Hreap] Hin Htake. unfold stream_take in Htake.
  destruct (cells (procs c) !! cell) as [[evs|]|] eqn:Ec;
    try (injection Htake as _ <-; by constructor).
  injection Htake as _ <-. destruct (Hlook _ _ Hin) as (evs0 & Hs).
  destruct (Hcell _ _ _ Hs _ Ec) as [-> Hnot].
  constructor; cbn; try done.
  - intros pid' cell' evs1 Hs1 evs2. rewrite lookup_insert_Some.
    intros [[_ ?]|[Hne Hc]]; [done|]. destruct (Hcell _ _ _ Hs1 _ Hc) as [-> Hn1].
    split; [done|]. rewrite fmap_app, elem_of_app. cbn. set_solver.
  - apply Forall_app. split; [done|]. repeat constructor. exists evs. by repeat constructor.
  - rewrite fmap_app. apply NoDup_app. split_and!; [done| |apply NoDup_singleton].
    intros x Hx. cbn. set_solver.
  - apply Forall_app. split; [done|]. by repeat constructor.
Qed.

Lemma cinv_reap i c : CInv c → CInv (mkConf (reap_step i (procs c)) (looked c) (started c)).
Proof.
  intros [Hrec Hlook Hfresh Hown Hcell Hbr Hone Hreap]. unfold reap_step.
  destruct (bridges (procs c) !! i) as [b|] eqn:Eb; [|by constructor].
  destruct (br_done b) eqn:Ed; [by constructor|].
  assert (Hid : br_pid (reap_turn b) = br_pid b ∧ br_cell (reap_turn b) = br_cell b)
    by (unfold reap_turn; destruct (br_source b); [done|by destruct (br_open b)]).
  destruct Hid as [Epid Ecell].
  assert (Ecells : br_cell <$> <[i:=reap_turn b]> (bridges (procs c)) = br_cell <$> bridges (procs c)).
  { rewrite list_fmap_insert, Ecell. apply list_insert_id. by rewrite list_lookup_fmap, Eb. }
  assert (Hsub : processes (if br_done (reap_turn b) then upd_processes (delete (br_pid b)) (pw (procs c))
    else pw (procs c)) ⊆ processes (pw (procs c))).
  { destruct (br_done (reap_turn b)); cbn; [apply delete_subseteq|done]. }
  constructor; cbn [procs looked started cells bridges pw fresh_id]; try done.
  - intros pid r Hr. eapply Hrec. by eapply lookup_weaken.
  - intros pid cell evs Hs evs' Hc. rewrite Ecells. by eapply Hcell.
  - apply Forall_insert; [done|]. rewrite Epid, Ecell.
    destruct (proj1 (Forall_lookup _ _) Hbr i b Eb) as (evs & Hs & Hok).
    exists evs. split; [done|]. by apply bridge_ok_turn.
  - by rewrite Ecells.
  - apply Forall_insert.
    + eapply Forall_impl; [exact Hreap|]. intros b' Hb' Hd'. cbn in Hb'.
      eapply lookup_weaken_None; [by apply Hb'|done].
    + rewrite Epid. intros Hd. rewrite Hd. cbn. apply lookup_delete_eq.
Qed.

Lemma cinv_drop i c : CInv c → CInv (mkConf (drop_bridge i (procs c)) (looked c) (started c)).
Proof.
  intros [Hrec Hlook Hfresh Hown Hcell Hbr Hone Hreap].
  set (f := λ b, mkBridge (br_pid b) (br_cell b) (br_source b) (br_sent b) false (br_done b)).
  assert (Ecells : br_cell <$> alter f i (bridges (procs c)) = br_cell <$> bridges (procs c)).
  { apply list_eq. intros j. rewrite !list_lookup_fmap.
    destruct (decide (i = j)) as [<-|Hne]; [|by rewrite list_lookup_alter_ne by done].
    rewrite list_lookup_alter_eq. by destruct (bridges (procs c) !! i). }
  constructor; cbn [procs looked started cells bridges pw fresh_id drop_bridge]; try done.
  - intros pid cell evs Hs evs' Hc. fold f. rewrite Ecells. by eapply Hcell.
  - apply Forall_alter; [done|]. intros b Eb (evs & Hs & Hok). exists evs. split; [done|].
    unfold bridge_ok in *. cbn. by destruct (br_done b); [destruct Hok|].
  - fold f. by rewrite Ecells.
  - apply Forall_alter; [done|]. intros b Eb Hb. done.
Qed.

Lemma cinv_world w c :
  processes w ⊆ processes (pw (procs c)) → CInv c →
  CInv (mkConf (set_world w (procs c)) (looked c) (started c)).
Proof.
  intros Hsub [Hrec Hlook Hfresh Hown Hcell Hbr Hone Hreap]. constructor; cbn; try done.
  - intros pid r Hr. eapply Hrec. by eapply lookup_weaken.
  - eapply Forall_impl; [exact Hreap|]. intros b Hb Hd. eapply lookup_weaken_None; [by apply Hb|done].
Qed.

Lemma reached_inv c : reached c → CInv c.
Proof.
  induction 1 as [w Hw|c c' _ IH Hstep]; [by apply cinv_init|].
  destruct Hstep as [sid h c Hnew|sid pid r c Hr|pid cell r p' c Hin Ht|i c|i c|w c Hsub].
  - by apply cinv_park.
  - destruct IH as [Hrec Hlook Hfresh Hown Hcell Hbr Hone Hreap]. constructor; try done.
    cbn. intros pid' cell. rewrite elem_of_cons. intros [[= -> ->]|Hin]; [|by eauto].
    apply (Hrec pid r). unfold owned_record in Hr.
    destruct (processes _ !! pid) as [r'|]; [|done]. injection Hr as Hr. cbn in Hr. inv_ok. by subst.
  - by eapply cinv_take.
  - by apply cinv_reap.
  - by apply cinv_drop.
  - by apply cinv_world.
Qed.
End readers.

Lemma NoDup_fmap_finer {A B C : Type} (f : A → B) (g : A → C) (l : list A) :
  (∀ x y, x ∈ l → y ∈ l → f x = f y → g x = g y) → NoDup (g <$> l) → NoDup (f <$> l).
Proof.
  induction l as [|x l IH]; intros H Hg; [constructor|]. cbn in *. apply NoDup_cons in Hg as [Hx Hg].
  constructor; [|apply IH; [|done]; intros; apply H; set_solver].
  intros (y & Hy & Hin)%list_elem_of_fmap. apply Hx, list_elem_of_fmap. exists y.
  split; [|done]. apply H; set_solver.
Qed.

Section reader_theorems.
Context {E : Type}.
Implicit Types (p : Procs E) (c : Conf E).

Lemma bridge_sent_prefix evs b : bridge_ok evs b → br_sent b `prefix_of` upto_exit evs.
Proof.
  unfold bridge_ok. destruct (br_done b); [by intros []|]. intros [-> Hno].
  rewrite upto_exit_app by done. by apply prefix_app_r.
Qed.

(** Whatever the interleaving of starts, reads, kills, removals and
    clients that leave, the output of a process is handed to at most one
    reader; that reader gets the events of this process, in order, none missing
    and none after the first exit; and when the hand-over ends the record of the
    process is gone, with every event up to the exit delivered if the reader
    stayed. *)
Theorem output_read_once (c : Conf E) (run : reached c) :
  NoDup (br_pid <$> bridges (procs c)) ∧
  ∀ b, b ∈ bridges (procs c) →
    ∃ cell evs, started c !! br_pid b = Some (cell, Some evs) ∧
      br_sent b `prefix_of` upto_exit evs ∧
      (br_done b = true →
        processes (pw (procs c)) !! br_pid b = None ∧
        (br_open b = true → br_sent b = upto_exit evs)).
Proof.
  apply reached_inv in run as [Hrec Hlook Hfresh Hown Hcell Hbr Hone Hreap].
  rewrite Forall_forall in Hbr, Hreap. split.
  - eapply NoDup_fmap_finer; [|exact Hone]. intros x y Hx Hy Heq.
    destruct (Hbr x Hx) as (ex & Hsx & _), (Hbr y Hy) as (ey & Hsy & _).
    rewrite Heq in Hsx. rewrite Hsx in Hsy. by injection Hsy as ->.
  - intros b Hb. destruct (Hbr b Hb) as (evs & Hs & Hok). exists (br_cell b), evs.
    split_and!; [done|by apply bridge_sent_prefix|]. intros Hd. split; [by apply Hreap|].
    unfold bridge_ok in Hok. rewrite Hd in Hok. by destruct Hok.
Qed.

Lemma reap_turn_done b :
  br_done (reap_turn b) = false → length (br_source b) = S (length (br_source (reap_turn b))).
Proof. unfold reap_turn. destruct (br_source b); [done|]. by destruct (br_open b). Qed.

(** The task that forwards a process's output ends: after at most one turn
    more than there are events left it is over, whether the process exits, its
    channel closes or the reader leaves, and the record of the process has been
    removed. *)
Theorem reap_terminates (p : Procs E) (i : nat) (b : Bridge)
    (running : bridges p !! i = Some b) (busy : br_done b = false) :
  ∃ n b', n ≤ S (length (br_source b)) ∧
    bridges (Nat.iter n (reap_step i) p) !! i = Some b' ∧ br_done b' = true ∧
    processes (pw (Nat.iter n (reap_step i) p)) !! br_pid b = None.
Proof.
  remember (length (br_source b)) as m eqn:Hm. revert p b running busy Hm.
  induction m as [m IH] using lt_wf_ind. intros p b Hb Hd ->.
  assert (Hi : i < length (bridges p)) by (by eapply lookup_lt_Some).
  destruct (br_done (reap_turn b)) eqn:E1.
  - exists 1, (reap_turn b). cbn [Nat.iter nat_rect]. unfold reap_step. rewrite Hb, Hd, E1. cbn.
    split_and!; [lia|by apply list_lookup_insert_eq|done|apply lookup_delete_eq].
  - pose proof (reap_turn_done b E1) as Hlen.
    assert (Hstep : bridges (reap_step i p) !! i = Some (reap_turn b)).
    { unfold reap_step. rewrite Hb, Hd, E1. cbn. by apply list_lookup_insert_eq. }
    destruct (IH (length (br_source (reap_turn b))) ltac:(lia) _ _ Hstep E1 eq_refl)
      as (n & b' & Hn & Hb' & Hd' & Hp).
    exists (S n), b'. rewrite Nat.iter_succ_r. split_and!; [lia|done|done|].
    by replace (br_pid b) with (br_pid (reap_turn b))
      by (unfold reap_turn; destruct (br_source b); [done|by destruct (br_open b)]).
Qed.
End reader_theorems.

(** *** A process that prints a line and exits *)

Definition demo_events : list StreamEvent :=
  [mkStreamEvent KStdout "hi" None None 0; mkStreamEvent KExit "" (Some 0%Z) None 0].
Definition demo_handle : ExecHandle := mkExecHandle "f1" (Some demo_events) true.
Definition demo_procs : Procs unit :=
  mkProcs (upd_processes (λ _, ∅) (demo_world tt Running)) ∅ ∅ [] 0.
Definition demo_parked : Procs unit := exec_park "a1" demo_handle demo_procs.
Definition demo_bridged : Procs unit := (stream_take "f1" 0 demo_parked).2.
Definition demo_conf : Conf unit :=
  mkConf (Nat.iter 2 (reap_step 0) demo_bridged) [("f1", 0)] {["f1" := (0, Some demo_events)]}.

Lemma demo_conf_reached : reached demo_conf.
Proof.
  set (s := <["f1" := (0, Some demo_events)]> ∅ : gmap string (nat * option (list StreamEvent))).
  assert (H0 : reached (mkConf demo_parked [] s)).
  { eapply reached_step; [exact (reached_init (upd_processes (λ _, ∅) (demo_world tt Running)) eq_refl)|].
    apply (ps_park "a1" demo_handle (mkConf demo_procs [] ∅)). reflexivity. }
  assert (H1 : reached (mkConf demo_parked [("f1", 0)] s)).
  { eapply reached_step; [exact H0|].
    apply (ps_lookup "a1" "f1" (mkProcess "a1" 0 (Some 0)) (mkConf demo_parked [] s)).
    vm_compute. reflexivity. }
  assert (H2 : reached (mkConf demo_bridged [("f1", 0)] s)).
  { eapply reached_step; [exact H1|].
    apply (ps_take "f1" 0 (Ok 0) demo_bridged (mkConf demo_parked [("f1", 0)] s)).
    - by left.
    - vm_compute. reflexivity. }
  eapply reached_step; [eapply reached_step; [exact H2|exact (ps_reap 0 _)]|exact (ps_reap 0 _)].
Qed.

Lemma output_read_once_witness :
  (NoDup (br_pid <$> bridges (procs demo_conf)) ∧
   ∀ b, b ∈ bridges (procs demo_conf) →
     ∃ cell evs, started demo_conf !! br_pid b = Some (cell, Some evs) ∧
       br_sent b `prefix_of` upto_exit evs ∧
       (br_done b = true →
         processes (pw (procs demo_conf)) !! br_pid b = None ∧
         (br_open b = true → br_sent b = upto_exit evs))) ∧
  bridges (procs demo_conf) = [mkBridge "f1" 0 [] demo_events true true].
Proof.
  split; [exact (output_read_once demo_conf demo_conf_reached)|]. vm_compute. reflexivity.
Defined.

Lemma reap_terminates_witness :
  ∃ n b', n ≤ 3 ∧ bridges (Nat.iter n (reap_step 0) demo_bridged) !! 0 = Some b' ∧ br_done b' = true ∧
    processes (pw (Nat.iter n (reap_step 0) demo_bridged)) !! "f1" = None.
Proof.
  exact (reap_terminates demo_bridged 0 (mkBridge "f1" 0 demo_events [] true false) eq_refl eq_refl).
Defined.

#[export] Instance demo_exec_backend : ExecBackend (list PortListener) := {|
  eb_exec _ _ _ _ _ en := (Ok demo_handle, en);
  eb_kill _ _ en := (Ok tt, en);
|}.
(** The process of [demo_handle], owned by another sandbox than [a1]. *)
Definition demo_foreign : Procs (list PortListener) :=
  exec_park "b2" demo_handle (mkProcs (demo_world [] Running) ∅ ∅ [] 0).

Lemma process_isolation_witness :
  stream_output map_to_list "web" "f1" demo_foreign = (Err (ProcessNotFound "f1"), demo_foreign) ∧
  kill_process map_to_list "web" "f1" (pw demo_foreign) =
    (Err (ProcessNotFound "f1"), pw demo_foreign) ∧
  write_stdin map_to_list "web" "f1" [] demo_foreign = (Err (ProcessNotFound "f1"), demo_foreign).
Proof.
  apply (process_isolation map_to_list demo_foreign "web" "a1" "f1" []).
  - vm_compute. reflexivity.
  - vm_compute. reflexivity.
  - intros r Hr. vm_compute in Hr. injection Hr as <-. discriminate.
Defined.

(** The owner reaches it. *)
Example owner_reads_output :
  (stream_output map_to_list "web" "f1"
    (exec_park "a1" demo_handle (mkProcs (demo_world [] Running : World (list PortListener)) ∅ ∅ [] 0))).1 = Ok 0.
Proof. vm_compute. reflexivity. Qed.

(** ** Waiting for the main process

    [wait] looks at the manager's state again and again.  A look reads the
    table and, for a sandbox that runs, the watch of its main process, each
    under its own lock; a watch that was cloned is read later, when the sandbox
    may be gone.  A watch is known by the id of its process. *)

Definition UNKNOWN_EXIT : Z := 255.

Record Look (E : Type) := mkLook {
  look_entries : World E;
  look_mains : World E;
  look_exit : string → option Z;
}.
Arguments mkLook {E}.
Arguments look_entries {E}.
Arguments look_mains {E}.
Arguments look_exit {E}.

Section wait.
Context {E : Type} (order : gmap string SandboxEntry → list (string * SandboxEntry)).

(** [running_main_exit]: the watch of a main process that still runs. *)
Definition running_main_exit (sid : string) (w : World E) : option string :=
  m ← mains w !! sid; match exit_raw m with None => Some (pid m) | Some _ => None end.

(** One turn of the loop: the answer, or the watch to keep. *)
Definition wait_turn (sid : string) (live : option string) (l : Look E)
    : result Z ApiError + option string :=
  match entries (look_entries l) !! sid with
  | None =>
      inl match live with
          | None => Err (SandboxNotFound sid)
          | Some p => Ok (match look_exit l p with
                          | Some raw => decode_wait_status raw
                          | None => (SIGNAL_EXIT_BASE + SIGKILL)%Z
                          end)
          end
  | Some e =>
      match status (meta e) with
      | Exited | Stopped =>
          let missing := if bool_decide (command (spec_of e) = []) then 0%Z else UNKNOWN_EXIT in
          inl (Ok (default missing (exit_code (meta e))))
      | Failed => inl (Err (InvalidRequest ("Container " +:+ sid +:+ " failed to start")))
      | Running =>
          inr (match live with Some p => Some p | None => running_main_exit sid (look_mains l) end)
      | Creating | Stopping => inr live
      end
  end.

(** The loop over the looks it makes; [None] while it still waits. *)
Fixpoint wait_loop (sid : string) (live : option string) (looks : list (Look E))
    : option (result Z ApiError) :=
  match looks with
  | [] => None
  | l :: looks =>
      match wait_turn sid live l with
      | inl r => Some r
      | inr live => wait_loop sid live looks
      end
  end.
Definition wait (reference : string) (w0 : World E) (looks : list (Look E))
    : option (result Z ApiError) :=
  match resolve order reference w0 with
  | (Err e, _) => Some (Err e)
  | (Ok sid, _) => wait_loop sid None looks
  end.






End wait.


(** A sandbox that is removed after its process was seen running. *)
Definition demo_look (w : World unit) : Look unit :=
  mkLook w w (λ p, if decide (p = "6") then Some 0%Z else if decide (p = "7") then Some 9%Z else None).


(** A restarted sandbox: [wait] saw the process [6] of the first run, which
    ended with code 0; the second run, process [7], still ran when the sandbox
    was removed.  The answer is the first run's code, where the sandbox's
    [die] event says 137. *)
Example wait_reports_an_earlier_run :
  let run p := mkWorld (entries (demo_world tt Running)) 3 ∅ ∅ [] broker_default
                 {["a1" := mkMain p true None false]} ∅ [] [] ∅ 1 tt 100 in
  wait map_to_list "web" (run "6")
    [demo_look (run "6"); demo_look (run "7"); demo_look (upd_entries (delete "a1") (run "7"))] = Some (Ok 0%Z) ∧
  ev_exit_code (killed_event (meta (demo_entry "a1" Running)) None 100) = Some 137%Z.
Proof. split; vm_compute; reflexivity. Qed.
