(* ===== verification/Calls.v ===== *)
(** * Calls: what the manager passes on to the backend

    Models the operations of [ward-core/src/sandbox/manager.rs] that resolve a
    reference, check the sandbox and call the backend: statistics, the process
    list, copies, differences, snapshots and the removal of images.  The backend
    is the interface [CallBackend]. *)

From stdpp Require Import base list numbers option strings pretty gmap sets.
From Stdlib Require Import ZArith Lia.
From S2P Require Import Prelude Text Tokio Net Signal Restart Output Broker Egress Validate Store Archive Events Health Launch Protocol Manager Relay Lifecycle Image.

Local Open Scope Z_scope.

(** ** Data *)

Record GuestStats := mkGuestStats {
  g_cpu_nanos : Z;
  g_online_cpus : Z;
  g_mem_total : Z;
  g_mem_available : Z;
  g_pids : Z;
  g_mem_peak : Z;
  g_block_read : Z;
  g_block_write : Z;
}.
Record SandboxStats := mkStats {
  s_cpu_nanos : Z;
  s_online_cpus : Z;
  s_mem_used : Z;
  s_mem_limit : Z;
  s_pids : Z;
  s_read_at : Z;
  s_mem_peak : Z;
  s_block_read : Z;
  s_block_write : Z;
  s_net_rx : Z;
  s_net_tx : Z;
}.
Record SnapshotInfo := mkSnapshot {
  snapshot_id : string;
  sn_sandbox_id : string;
  sn_label : string;
  sn_created_at : Z;
  sn_size_bytes : Z;
}.
(** The table [ps] printed in the guest. *)
Record ProcessTable := mkTable { titles : list string; rows : list (list string) }.
Definition saturating_mul (a b : Z) : Z := Z.min (a * b) U64_MAX.

Class CallBackend (E : Type) := {
  cb_stats : string → E → result GuestStats BackendError * E;
  cb_net_bytes : string → E → result (Z * Z) BackendError * E;
  cb_top : string → list string → E → result ProcessTable BackendError * E;
  cb_copy_to : string → string → list (list Z) → E → result unit BackendError * E;
  cb_copy_from : string → string → E → result (list Arrival) BackendError * E;
  cb_create_snapshot : string → string → E → result SnapshotInfo BackendError * E;
  cb_restore_snapshot : string → string → E → result unit BackendError * E;
  cb_list_snapshots : string → E → result (list SnapshotInfo) BackendError * E;
  cb_list : E → result (list SandboxInfo) BackendError * E;
  cb_remove_image : string → bool → gset string → E → result ImageRemoval BackendError * E;
}.

Section calls.
Context {E : Type} `{HBE : !Backend E} `{HCB : !CallBackend E}.
Context (order : gmap string SandboxEntry → list (string * SandboxEntry)).
Implicit Types (w : World E).

(** ** Statistics *)

(** The entry of a sandbox that runs, read under the lock. *)
Definition running_entry (sid : string) : St E SandboxEntry :=
  let! e := get_entry sid in
  if decide (status (meta e) = Running) then sret e else sfail (not_running sid).

Definition stats_failure (sid : string) (err : BackendError) (w : World E) : ApiError :=
  match recorded_status sid w with
  | (Ok s, _) => if decide (s ≠ Running) then not_running sid else backend_err err
  | _ => backend_err err
  end.

Definition stats_of (memory : Z) (read_at : Z) (g : GuestStats) (net : Z * Z) : SandboxStats :=
  let configured := saturating_mul memory BYTES_PER_MIB in
  mkStats (g_cpu_nanos g) (g_online_cpus g)
    (Z.max 0 (g_mem_total g - g_mem_available g))
    (if configured >? 0 then configured else g_mem_total g)
    (g_pids g) read_at (g_mem_peak g) (g_block_read g) (g_block_write g) net.1 net.2.

(** [between] is what other tasks do while the guest is asked. *)
Definition stats (between : World E → World E) (reference : string) : St E SandboxStats :=
  let! sid := resolve order reference in
  let! e := running_entry sid in
  let! read_at := read clock in
  λ w,
    let '(r, w) := call (cb_stats sid) w in
    let w := between w in
    match r with
    | Err err => (Err (stats_failure sid err w), w)
    | Ok g =>
        let '(net, w) := call (cb_net_bytes sid) w in
        (Ok (stats_of (memory_mb (resources (options (meta e)))) read_at g
               (match net with Ok n => n | Err _ => (0, 0) end)), w)
    end.

(** ** Processes and copies *)

Definition top (reference : string) (ps_args : list string) : St E ProcessTable :=
  let! sid := resolve order reference in
  require_running sid ;!
  callE (cb_top sid ps_args) backend_err.

Definition copy_target (reference path : string) : St E string :=
  lift (guest_path path) ;!
  let! sid := resolve order reference in
  require_running sid ;!
  sret sid.

Definition copy_to (reference path : string) (chunks : list (list Z)) : St E unit :=
  let! sid := copy_target reference path in
  callE (cb_copy_to sid path chunks) (backend_failure (mkGuestTarget reference path)).

(** The chunks the client will get; [check] is the checker of the archive. *)
Definition copy_from (check : Limits → Checker) (listening : nat) (reference path : string)
    : St E (list (result (list Z) ApiError)) :=
  let! sid := copy_target reference path in
  let! source := callE (cb_copy_from sid path) (backend_failure (mkGuestTarget reference path)) in
  sret (relayed (mkGuestTarget reference path) (check copy_limits) source listening).

(** ** Snapshots *)

Definition create_snapshot (reference label : string) : St E SnapshotInfo :=
  let! sid := resolve order reference in
  callE (cb_create_snapshot sid label) backend_err.
Definition restore_snapshot (reference snapshot : string) : St E unit :=
  let! sid := resolve order reference in
  lift (entity_id snapshot "snapshot") ;!
  callE (cb_restore_snapshot sid snapshot) snapshot_backend_err.
Definition list_snapshots (reference : string) : St E (list SnapshotInfo) :=
  let! sid := resolve order reference in
  callE (cb_list_snapshots sid) backend_err.

(** ** Images *)

(** [list], before its conversion to the wire: the sandboxes of the backend with
    the state the manager recorded. *)
Definition list_all : St E (list SandboxInfo) :=
  let! infos := callE cb_list backend_err in
  let! table := read entries in
  sret ((λ i, recorded_state table (redact_token i)) <$> infos).

Definition holds_image (s : SandboxStatus) : bool :=
  match s with Running | Creating | Stopping => true | _ => false end.
(** [remove_image]: the sandboxes whose image may not go. *)
Definition running_ids (infos : list SandboxInfo) : gset string :=
  list_to_set (i_id <$> filter (λ i, holds_image (i_status i) = true) infos).
Definition remove_image (name : string) (force : bool) : St E ImageRemoval :=
  let! infos := list_all in
  callE (cb_remove_image name force (running_ids infos)) image_backend_err.

End calls.

Section call_theorems.
Context {E : Type} `{HBE : !Backend E} `{HCB : !CallBackend E}.
Context (order : gmap string SandboxEntry → list (string * SandboxEntry)).
Implicit Types (w : World E).

Lemma require_running_not sid e w :
  entries w !! sid = Some e → status (meta e) ≠ Running →
  require_running sid w = (Err (not_running sid), w).
Proof.
  intros He Hs. unfold require_running, recorded_status, sbind, get_entry. rewrite He. cbn.
  by rewrite decide_True.
Qed.

(** The calls that need a guest to answer are refused for a sandbox that
    does not run, whatever state it is in, with Docker's message that it is not
    running; nothing changes and the backend is not asked. *)
Theorem guest_calls_need_running (reference sid path : string) (e : SandboxEntry) (w : World E)
    (between : World E → World E) (args : list string) (chunks : list (list Z))
    (check : Limits → Checker) (listening : nat)
    (named : resolve order reference w = (Ok sid, w))
    (found : entries w !! sid = Some e)
    (idle : status (meta e) ≠ Running)
    (valid : guest_path path = Ok tt) :
  stats order between reference w = (Err (not_running sid), w) ∧
  top order reference args w = (Err (not_running sid), w) ∧
  copy_to order reference path chunks w = (Err (not_running sid), w) ∧
  copy_from order check listening reference path w = (Err (not_running sid), w).
Proof.
  pose proof (require_running_not sid e w found idle) as Hr.
  unfold stats, top, copy_to, copy_from, copy_target, sbind, lift. rewrite named, valid, Hr. cbn.
  split_and!; try done. unfold running_entry, sbind, get_entry. rewrite found. cbn.
  by rewrite decide_False.
Qed.

(** The image of a live sandbox is not removed under it: whatever the
    backend reports of the sandboxes it lists, the set of ids [remove_image]
    passes on holds every listed sandbox that the manager has recorded as
    running, starting or stopping, and none it has recorded otherwise. *)
Theorem image_removal_spares_live (w : World E) (infos : list SandboxInfo) (sid : string)
    (e : SandboxEntry) (listed : sid ∈ i_id <$> infos) (recorded : entries w !! sid = Some e) :
  sid ∈ running_ids ((λ i, recorded_state (entries w) (redact_token i)) <$> infos) ↔
  holds_image (status (meta e)) = true.
Proof.
  unfold running_ids. rewrite elem_of_list_to_set, list_elem_of_fmap.
  assert (Hst : ∀ i, i_id i = sid →
    i_id (recorded_state (entries w) (redact_token i)) = sid ∧
    i_status (recorded_state (entries w) (redact_token i)) = status (meta e)).
  { intros i <-. unfold recorded_state. cbn [i_id redact_token]. by rewrite recorded. }
  assert (Hid : ∀ i, i_id (recorded_state (entries w) (redact_token i)) = i_id i).
  { intros i. unfold recorded_state. cbn. by destruct (entries w !! i_id i). }
  split.
  - intros (j & Hj & [Hh Hin]%list_elem_of_filter). apply list_elem_of_fmap in Hin as (i & -> & Hi).
    rewrite Hid in Hj. destruct (Hst i (eq_sym Hj)) as [_ Hs]. by rewrite <- Hs.
  - intros Hh. apply list_elem_of_fmap in listed as (i & -> & Hi).
    exists (recorded_state (entries w) (redact_token i)). split; [by rewrite Hid|].
    apply list_elem_of_filter. destruct (Hst i eq_refl) as [_ Hs]. rewrite Hs. split; [done|].
    apply list_elem_of_fmap. by exists i.
Qed.
End call_theorems.

#[export] Instance demo_calls : CallBackend (list PortListener) := {|
  cb_stats _ en := (Ok (mkGuestStats 1 1 100 40 1 0 0 0), en);
  cb_net_bytes _ en := (Ok (0, 0), en);
  cb_top _ _ en := (Ok (mkTable [] []), en);
  cb_copy_to _ _ _ en := (Ok tt, en);
  cb_copy_from _ _ en := (Ok [], en);
  cb_create_snapshot sid label en := (Ok (mkSnapshot "s1" sid label 0 0), en);
  cb_restore_snapshot _ _ en := (Ok tt, en);
  cb_list_snapshots _ en := (Ok [], en);
  cb_list en := (Ok [], en);
  cb_remove_image _ _ _ en := (Ok (mkRemoval [] []), en);
|}.
Definition demo_stopped : World (list PortListener) := demo_world [] Stopped.

Lemma guest_calls_need_running_witness :
  stats map_to_list (λ w, w) "web" demo_stopped = (Err (not_running "a1"), demo_stopped) ∧
  top map_to_list "web" [] demo_stopped = (Err (not_running "a1"), demo_stopped) ∧
  copy_to map_to_list "web" "/data" [] demo_stopped = (Err (not_running "a1"), demo_stopped) ∧
  copy_from map_to_list (λ _, toy_checker (Ok tt)) 9 "web" "/data" demo_stopped =
    (Err (not_running "a1"), demo_stopped).
Proof.
  apply (guest_calls_need_running map_to_list "web" "a1" "/data" (demo_entry "a1" Stopped)).
  - unfold resolve. f_equal.
  - reflexivity.
  - discriminate.
  - reflexivity.
Defined.

Definition demo_info (sid : string) : SandboxInfo :=
  mkInfo sid Exited "alpine" 0 None limits_default None "" (demo_spec "web" (mkRestart OnFailure 3))
    [] None None None None None 0 false.
Lemma image_removal_spares_live_witness :
  "a1" ∈ running_ids ((λ i, recorded_state (entries (demo_world tt Running)) (redact_token i)) <$> [demo_info "a1"])
  ↔ holds_image (status (meta (demo_entry "a1" Running))) = true.
Proof.
  apply (image_removal_spares_live (demo_world tt Running) [demo_info "a1"] "a1" (demo_entry "a1" Running)).
  - by left.
  - reflexivity.
Defined.

(** The memory a guest uses is what it has less what is free, never below zero,
    and the limit shown is the configured one. *)
Example stats_shown :
  let s := stats_of 2 7 (mkGuestStats 1 1 100 40 1 0 0 0) (0, 0) in
  (s_mem_used s, s_mem_limit s) = (60, 2097152).
Proof. reflexivity. Qed.
