(* ===== verification/Agent.v ===== *)
(** * Agent: the daemon's side of the guest agent protocol

    Models [ward-core/src/backend/agent.rs]: the frames of the wire, the two
    tasks that [drive_exec] bridges a process with, and the calls that send
    one request and read its answer.  The messages are those of
    [proto/ward_agent.proto]; their encoding is generated code, so it is a
    parameter with the laws protobuf promises. *)

From stdpp Require Import base list numbers option strings pretty gmap.
From Stdlib Require Import ZArith Lia.
From S2P Require Import Prelude Text Tokio Protocol Output Validate Guest Manager Exec Calls.

Local Open Scope Z_scope.

(** ** Bytes of an integer *)

Definition byte_Z (b : Byte.byte) : Z := Z.of_N (Byte.to_N b).
Definition Z_byte (z : Z) : Byte.byte := default Byte.x00 (Byte.of_N (Z.to_N (z mod 256))).

(** [u32::to_be_bytes] and [u32::from_be_bytes]. *)
Definition to_be_bytes (n : Z) : bytes :=
  [Z_byte (n / 2 ^ 24); Z_byte (n / 2 ^ 16); Z_byte (n / 2 ^ 8); Z_byte n].
Definition from_be_bytes (l : bytes) : Z := foldl (λ acc b, acc * 256 + byte_Z b) 0 l.

(** ** The connection *)

(** What will arrive, and the error after it; [None] is the end of the stream. *)
Record Reader := mkReader { rd_bytes : bytes; rd_end : option IoError }.
(** What was written.  A fault says how many bytes of a frame go out before
    the connection fails, for each of the coming frames. *)
Record Writer := mkWriter { wr_bytes : bytes; wr_faults : list (option (IoError * nat)) }.
Record Conn := mkConn { c_reader : Reader; c_writer : Writer }.

Definition EOF : IoError := mkIo IoUnexpectedEof "early eof".
Definition read_exact (n : nat) (r : Reader) : result bytes IoError * Reader :=
  if decide (n ≤ length (rd_bytes r))%nat
  then (Ok (take n (rd_bytes r)), mkReader (drop n (rd_bytes r)) (rd_end r))
  else (Err (default EOF (rd_end r)), mkReader [] (rd_end r)).
Definition write_all (l : bytes) (w : Writer) : result unit IoError * Writer :=
  match wr_faults w with
  | Some (e, n) :: faults => (Err e, mkWriter (wr_bytes w ++ take n l) faults)
  | _ => (Ok tt, mkWriter (wr_bytes w ++ l) (tail (wr_faults w)))
  end.

(** ** Frames *)

Definition MAX_FRAME_BYTES : Z := 2 * 1024 * 1024.

Definition read_frame (r : Reader) : result (option bytes) IoError * Reader :=
  match read_exact 4 r with
  | (Err e, r) => (if decide (io_kind e = IoUnexpectedEof) then Ok None else Err e, r)
  | (Ok len_buf, r) =>
      let len := from_be_bytes len_buf in
      if len =? 0 then (Err (mkIo IoInvalidData "frame length must be non-zero"), r)
      else if len >? MAX_FRAME_BYTES then
        (Err (mkIo IoInvalidData ("frame too large: " +:+ pretty len +:+ " bytes (max " +:+
                                  pretty MAX_FRAME_BYTES +:+ ")")), r)
      else
        match read_exact (Z.to_nat len) r with
        | (Err e, r) => (Err e, r)
        | (Ok buf, r) => (Ok (Some buf), r)
        end
  end.

(** The header and the payload; the checks come before anything is sent. *)
Definition frame_of (payload : bytes) : bytes := to_be_bytes (Z.of_nat (length payload)) ++ payload.
Definition frame_error (payload : bytes) : result unit IoError :=
  refuse_if (bool_decide (payload = [])) (mkIo IoInvalidInput "frame payload must be non-empty") ;?
  let? len := ok_or (try_u32 (Z.of_nat (length payload))) (mkIo IoInvalidInput "frame exceeds u32") in
  refuse_if (len >? MAX_FRAME_BYTES)
    (mkIo IoInvalidInput ("frame too large to write: " +:+ pretty len +:+ " bytes (max " +:+
                          pretty MAX_FRAME_BYTES +:+ ")")).
Definition write_frame (payload : bytes) (w : Writer) : result unit IoError * Writer :=
  match frame_error payload with
  | Err e => (Err e, w)
  | Ok _ => write_all (frame_of payload) w
  end.

(** ** Messages *)

Record ExecMessage := mkExecMessage {
  x_command : list string;
  x_working_dir : string;
  x_env : gmap string string;
  x_tty : bool;
  x_user : string;
  x_raw : bool;
}.
Record SetLimits := mkSetLimits {
  sl_memory_bytes : option Z;
  sl_nano_cpus : option Z;
  sl_pids_max : option Z;
  sl_memory_low_bytes : option Z;
  sl_cpu_weight : option Z;
  sl_cpu_max_quota : option string;
  sl_cpu_max_period : option Z;
  sl_cpuset_cpus : option string;
}.

(** The kinds of a [Request]; a request without one is [None]. *)
Inductive RequestKind :=
| RExec (e : ExecMessage)
| RStdin (data : bytes)
| RKill
| RPing
| RResize (rows cols : Z)
| RSignal (signo : Z)
| RPutArchive (path : string)
| RGetArchive (path : string)
| RArchiveChunk (data : bytes)
| RArchiveEnd
| RTop (ps_args : list string)
| RStats
| RPutSecrets (u : string) (files : list SecretFile)
| RSetLimits (l : SetLimits)
| RFreeze (frozen : bool).

(** The kinds of an [Event]; enum fields are their numbers. *)
Inductive EventKind :=
| EvStdout (text : string)
| EvStderr (text : string)
| EvExited (code wait_status oom_kills : Z)
| EvPong
| EvData (stream : Z) (data : bytes)
| EvArchiveChunk (data : bytes)
| EvArchiveDone
| EvArchiveError (message : string) (kind : Z)
| EvProcesses (titles : list string) (rows : list (list string))
| EvTopError (message : string)
| EvStatsSample (sample : GuestStats).

(** The generated encoder and decoder of the messages. *)
Class Codec := {
  encode_request : option RequestKind → bytes;
  decode_request : bytes → option (option RequestKind);
  encode_event : option EventKind → bytes;
  decode_event : bytes → option (option EventKind);
}.
(** What protobuf promises of them: a message decodes to what was encoded, one
    with a kind is not empty, a byte field costs its bytes and a few more, and a
    few numbers of 32 bits a few bytes each. *)
Class CodecLaws (C : Codec) : Prop := {
  request_decodes k : decode_request (encode_request (Some k)) = Some (Some k);
  event_decodes k : decode_event (encode_event (Some k)) = Some (Some k);
  request_nonempty k : encode_request (Some k) ≠ [];
  event_nonempty k : encode_event (Some k) ≠ [];
  request_chunk_size d : Z.of_nat (length d) ≤ MAX_FRAME_BYTES →
    (length (encode_request (Some (RArchiveChunk d))) ≤ length d + 32)%nat;
  request_stdin_size d : Z.of_nat (length d) ≤ MAX_FRAME_BYTES →
    (length (encode_request (Some (RStdin d))) ≤ length d + 32)%nat;
  request_resize_size rows cols : in_u32 rows → in_u32 cols →
    (length (encode_request (Some (RResize rows cols))) ≤ 64)%nat;
  request_signal_size n : in_i32 n → (length (encode_request (Some (RSignal n))) ≤ 64)%nat;
  event_chunk_size d : Z.of_nat (length d) ≤ MAX_FRAME_BYTES →
    (length (encode_event (Some (EvArchiveChunk d))) ≤ length d + 32)%nat;
  exited_size code status kills : in_i32 code → in_i32 status → in_u64 kills →
    (length (encode_event (Some (EvExited code status kills))) ≤ 64)%nat;
  data_size s d : in_i32 s → Z.of_nat (length d) ≤ MAX_FRAME_BYTES →
    (length (encode_event (Some (EvData s d))) ≤ length d + 32)%nat;
}.

(** ** A process over one connection *)

Inductive ProcessControl := Resize (rows cols : Z) | SignalNumber (signo : Z).

Definition control_request (c : ProcessControl) : RequestKind :=
  match c with Resize rows cols => RResize rows cols | SignalNumber n => RSignal n end.
Definition raw_stream (tag : Z) : option RawStream :=
  if tag =? 1 then Some Stdout else if tag =? 2 then Some Stderr else None.
Definition raw_wait_status (code wait_status : Z) : option Z :=
  if negb (wait_status =? 0) || (code =? 0) then Some wait_status else None.

(** The event an agent's event becomes; [None] when it is dropped. *)
Definition inbound_event (k : option EventKind) : option StreamEvent :=
  match k with
  | Some (EvStdout text) => Some (mkStreamEvent KStdout text None None 0)
  | Some (EvStderr text) => Some (mkStreamEvent KStderr text None None 0)
  | Some (EvData tag data) => (λ s, mkStreamEvent (KData s data) "" None None 0) <$> raw_stream tag
  | Some (EvExited code wait_status oom_kills) =>
      Some (mkStreamEvent KExit "" (Some code) (raw_wait_status code wait_status) oom_kills)
  | _ => None
  end.

(** What the outbound task receives, in the order its [select!] takes it. *)
Inductive OutEvent :=
| OutStdin (b : bytes)
| OutStdinClosed
| OutControl (c : ProcessControl)
| OutControlClosed
| OutKill
| OutKillDropped.

Record Outbound := mkOutbound {
  ob_writer : Writer;
  ob_stdin_open : bool;
  ob_control_open : bool;
  ob_done : bool;
}.

Section client.
Context `{C : Codec}.

(** The opening [Exec]; the tasks run on the connection it leaves. *)
Definition drive_exec (cmd : list string) (wd : option string) (vars : gmap string string)
    (mode : ExecMode) (w : Writer) : result unit IoError * Writer :=
  write_frame (encode_request (Some (RExec
    (mkExecMessage cmd (default "" wd) vars (mode_tty mode) (mode_user mode) (mode_raw mode))))) w.

Definition outbound_send (k : RequestKind) (s : Outbound) : result unit IoError * Outbound :=
  let '(r, w) := write_frame (encode_request (Some k)) (ob_writer s) in
  (r, mkOutbound w (ob_stdin_open s) (ob_control_open s) (ob_done s)).
Definition outbound_end (s : Outbound) : Outbound :=
  mkOutbound (ob_writer s) (ob_stdin_open s) (ob_control_open s) true.
(** One turn of the outbound loop; a disabled branch takes nothing. *)
Definition outbound_step (s : Outbound) (e : OutEvent) : Outbound :=
  let sent k := match outbound_send k s with (Ok _, s) => s | (Err _, s) => outbound_end s end in
  if ob_done s then s else
  match e with
  | OutStdin b => if ob_stdin_open s then sent (RStdin b) else s
  | OutStdinClosed =>
      if ob_stdin_open s then
        let s := (outbound_send (RStdin []) s).2 in
        mkOutbound (ob_writer s) false (ob_control_open s) (ob_done s)
      else s
  | OutControl c => if ob_control_open s then sent (control_request c) else s
  | OutControlClosed => mkOutbound (ob_writer s) (ob_stdin_open s) false (ob_done s)
  | OutKill => outbound_end (outbound_send RKill s).2
  | OutKillDropped => outbound_end s
  end.
Definition outbound (evs : list OutEvent) (w : Writer) : Outbound :=
  foldl outbound_step (mkOutbound w true true false) evs.

(** The inbound loop; [listening] events still find a consumer.  The fuel
    bounds the frames: each takes bytes. *)
Fixpoint inbound_loop (fuel : nat) (r : Reader) (listening : nat) (sent : list StreamEvent)
    : list StreamEvent :=
  match fuel with
  | O => sent
  | S fuel =>
      match read_frame r with
      | (Ok (Some frame), r) =>
          match decode_event frame with
          | None => sent
          | Some kind =>
              match inbound_event kind with
              | None => inbound_loop fuel r listening sent
              | Some ev =>
                  match listening with
                  | O => sent
                  | S listening =>
                      if is_exit ev then sent ++ [ev]
                      else inbound_loop fuel r listening (sent ++ [ev])
                  end
              end
          end
      | _ => sent
      end
  end.
Definition inbound (r : Reader) (listening : nat) : list StreamEvent :=
  inbound_loop (length (rd_bytes r)) r listening [].

(** ** Calls with one answer *)

Definition ARCHIVE_CHUNK_BYTES : nat := Z.to_nat (1024 * 1024).
Definition protocol_error (message : string) : IoError := mkIo IoInvalidData message.
(** An unknown number reads as [Unspecified]. *)
Definition agent_failure (message : string) (kind : Z) : IoError :=
  mkIo (if kind =? 1 then IoNotFound else if kind =? 2 then IoInvalidInput else IoOther)
    ("guest agent: " +:+ message).

Definition send_request (k : RequestKind) (c : Conn) : result unit IoError * Conn :=
  let '(r, w) := write_frame (encode_request (Some k)) (c_writer c) in (r, mkConn (c_reader c) w).
(** The answer's frame, [closed] when there is none. *)
Definition read_reply (closed : IoError) (c : Conn) : result bytes IoError * Conn :=
  let '(r, rd) := read_frame (c_reader c) in
  (match r with Ok (Some f) => Ok f | Ok None => Err closed | Err e => Err e end, mkConn rd (c_writer c)).
Definition ask (closed : IoError) (k : RequestKind) (c : Conn) : result bytes IoError * Conn :=
  match send_request k c with
  | (Err e, c) => (Err e, c)
  | (Ok _, c) => read_reply closed c
  end.
Definition closed_early : IoError := protocol_error "agent closed the connection before answering".

Definition ping (c : Conn) : result unit IoError * Conn :=
  let '(r, c) := ask (mkIo IoUnexpectedEof "agent closed the connection before replying") RPing c in
  (let? frame := r in
   match decode_event frame with
   | Some (Some EvPong) => Ok tt
   | _ => Err (mkIo IoInvalidData "agent reply to Ping was not Pong")
   end, c).

(** The answer to a request that is done or refused. *)
Definition acknowledged (what : string) (frame : bytes) : result unit IoError :=
  match decode_event frame with
  | Some (Some EvArchiveDone) => Ok tt
  | Some (Some (EvArchiveError message kind)) => Err (agent_failure message kind)
  | _ => Err (protocol_error ("agent answered a " +:+ what +:+ " with another event"))
  end.
Definition ask_done (what : string) (k : RequestKind) (c : Conn) : result unit IoError * Conn :=
  let '(r, c) := ask closed_early k c in (let? frame := r in acknowledged what frame, c).

Definition put_secrets_call (u : string) (files : list SecretFile) : Conn → result unit IoError * Conn :=
  ask_done "PutSecrets" (RPutSecrets u files).
Definition set_limits_message (update : LimitsUpdate) (cgroup : LiveSettings) : SetLimits :=
  mkSetLimits ((λ mb, mb * BYTES_PER_MIB) <$> u_memory_mb update) (u_nano_cpus update) (u_pids_max update)
    (memory_low_bytes cgroup) (live_cpu_weight cgroup)
    (fst <$> live_cpu_max cgroup) (snd <$> live_cpu_max cgroup) (live_cpuset_cpus cgroup).
Definition set_limits_call (update : LimitsUpdate) (cgroup : LiveSettings)
    : Conn → result unit IoError * Conn :=
  ask_done "SetLimits" (RSetLimits (set_limits_message update cgroup)).
Definition freeze_call (frozen : bool) : Conn → result unit IoError * Conn :=
  ask_done "Freeze" (RFreeze frozen).

(** ** Archives *)

(** [slice::chunks]. *)
Fixpoint chunks_of (fuel n : nat) (l : bytes) : list bytes :=
  match fuel, l with
  | S fuel, _ :: _ => take n l :: chunks_of fuel n (drop n l)
  | _, _ => []
  end.
Fixpoint send_chunks (pieces : list bytes) (c : Conn) : result unit IoError * Conn :=
  match pieces with
  | [] => (Ok tt, c)
  | p :: pieces =>
      match send_request (RArchiveChunk p) c with
      | (Err e, c) => (Err e, c)
      | (Ok _, c) => send_chunks pieces c
      end
  end.
Definition pieces_of (chunks : list bytes) : list bytes :=
  chunks ≫= λ chunk, chunks_of (length chunk) ARCHIVE_CHUNK_BYTES chunk.
Definition put_archive (path : string) (chunks : list bytes) (c : Conn) : result unit IoError * Conn :=
  match send_request (RPutArchive path) c with
  | (Err e, c) => (Err e, c)
  | (Ok _, c) =>
      match send_chunks (pieces_of chunks) c with
      | (Err e, c) => (Err e, c)
      | (Ok _, c) => ask_done "PutArchive" RArchiveEnd c
      end
  end.

(** The chunks passed on, while [listening] of them find a consumer, and how
    the relay ended. *)
Fixpoint relay_loop (fuel : nat) (r : Reader) (listening : nat) (out : list bytes)
    : result unit IoError * list bytes :=
  match read_frame r with
  | (Err e, _) => (Err e, out)
  | (Ok None, _) => (Err (protocol_error "agent closed the connection mid-archive"), out)
  | (Ok (Some frame), r) =>
      match decode_event frame with
      | Some (Some (EvArchiveChunk data)) =>
          match fuel, listening with
          | S fuel, S listening => relay_loop fuel r listening (out ++ [data])
          | _, _ => (Ok tt, out)
          end
      | Some (Some EvArchiveDone) => (Ok tt, out)
      | Some (Some (EvArchiveError message kind)) => (Err (agent_failure message kind), out)
      | _ => (Err (protocol_error "agent answered a GetArchive with another event"), out)
      end
  end.
Definition relay_archive (path : string) (listening : nat) (c : Conn)
    : result unit IoError * list bytes :=
  match send_request (RGetArchive path) c with
  | (Err e, _) => (Err e, [])
  | (Ok _, c) => relay_loop (length (rd_bytes (c_reader c))) (c_reader c) listening []
  end.
Definition get_archive (path : string) (listening : nat) (c : Conn) : list (result bytes IoError) :=
  let '(r, out) := relay_archive path listening c in
  (Ok <$> out) ++ match r with
                  | Err e => if (length out <? listening)%nat then [Err e] else []
                  | Ok _ => []
                  end.

(** ** Tables *)

Definition top_call (ps_args : list string) (c : Conn)
    : result (list string * list (list string)) BackendError :=
  match ask closed_early (RTop ps_args) c with
  | (Err e, _) => Err (BIo e)
  | (Ok frame, _) =>
      match decode_event frame with
      | Some (Some (EvProcesses titles rows)) => Ok (titles, rows)
      | Some (Some (EvTopError message)) => Err (BInvalidArgument message)
      | _ => Err (BIo (protocol_error "agent answered a Top with another event"))
      end
  end.

(** [in_time]: the answer came before the deadline. *)
Definition stats_call (in_time : bool) (c : Conn) : result GuestStats BackendError :=
  match send_request RStats c with
  | (Err e, _) => Err (BIo e)
  | (Ok _, c) =>
      if negb in_time then Err (BIo (mkIo IoTimedOut "agent did not answer")) else
      match read_reply closed_early c with
      | (Err e, _) => Err (BIo e)
      | (Ok frame, _) =>
          match decode_event frame with
          | Some (Some (EvStatsSample sample)) => Ok sample
          | _ => Err (BIo (protocol_error "agent answered a Stats with another event"))
          end
      end
  end.
End client.

(** ** Lemmas on bytes and frames *)

Lemma byte_Z_range b : 0 ≤ byte_Z b < 256.
Proof. unfold byte_Z. pose proof (Byte.to_N_bounded b). lia. Qed.
Lemma byte_Z_Z_byte z : byte_Z (Z_byte z) = z mod 256.
Proof.
  unfold byte_Z, Z_byte. pose proof (Z.mod_pos_bound z 256 ltac:(lia)) as Hz.
  destruct (Byte.of_N (Z.to_N (z mod 256))) as [b|] eqn:Hb; cbn [default from_option id].
  - apply Byte.to_of_N in Hb. rewrite Hb. lia.
  - apply Byte.of_N_None_iff in Hb. lia.
Qed.
Lemma Z_byte_byte_Z b : Z_byte (byte_Z b) = b.
Proof.
  unfold Z_byte. rewrite Z.mod_small by apply byte_Z_range. unfold byte_Z. rewrite N2Z.id.
  by rewrite Byte.of_to_N.
Qed.

Lemma Z_byte_digit q b : Z_byte (q * 256 + byte_Z b) = b.
Proof.
  rewrite <- (Z_byte_byte_Z b) at 2. unfold Z_byte. rewrite Z.add_comm, Z.mod_add by lia. done.
Qed.

Lemma from_to_be_bytes n : in_u32 n → from_be_bytes (to_be_bytes n) = n.
Proof.
  intros Hn. unfold in_u32 in Hn. unfold from_be_bytes, to_be_bytes. cbn [foldl]. rewrite !byte_Z_Z_byte.
  change (2 ^ 24) with (256 * 256 * 256). change (2 ^ 16) with (256 * 256). change (2 ^ 8) with 256.
  rewrite <- !Z.div_div by lia.
  pose proof (Z.div_mod n 256 ltac:(lia)). pose proof (Z.div_mod (n / 256) 256 ltac:(lia)).
  pose proof (Z.div_mod (n / 256 / 256) 256 ltac:(lia)).
  rewrite (Z.mod_small (n / 256 / 256 / 256)); [lia|].
  rewrite !Z.div_div by lia. split; [apply Z.div_pos; lia|]. apply Z.div_lt_upper_bound; lia.
Qed.
Lemma to_from_be_bytes l : length l = 4%nat → to_be_bytes (from_be_bytes l) = l.
Proof.
  destruct l as [|a [|b [|c [|d [|]]]]]; try done. intros _.
  unfold from_be_bytes, to_be_bytes. cbn [foldl]. rewrite Z.add_0_l.
  pose proof (byte_Z_range a). pose proof (byte_Z_range b). pose proof (byte_Z_range c). pose proof (byte_Z_range d).
  set (ab := byte_Z a * 256 + byte_Z b). set (abc := ab * 256 + byte_Z c).
  assert (Hd3 : (abc * 256 + byte_Z d) / 2 ^ 8 = abc) by (symmetry; apply Z.div_unique with (byte_Z d); lia).
  assert (Hd2 : (abc * 256 + byte_Z d) / 2 ^ 16 = ab).
  { symmetry. apply Z.div_unique with (byte_Z c * 256 + byte_Z d); subst abc; lia. }
  assert (Hd1 : (abc * 256 + byte_Z d) / 2 ^ 24 = byte_Z a).
  { symmetry. apply Z.div_unique with (byte_Z b * 65536 + byte_Z c * 256 + byte_Z d); subst abc ab; lia. }
  rewrite Hd1, Hd2, Hd3, Z_byte_byte_Z, Z_byte_digit. subst abc ab. by rewrite !Z_byte_digit.
Qed.
Lemma from_be_bytes_range l : length l = 4%nat → in_u32 (from_be_bytes l).
Proof.
  destruct l as [|a [|b [|c [|d [|]]]]]; try done. intros _. unfold from_be_bytes, in_u32. cbn [foldl].
  pose proof (byte_Z_range a). pose proof (byte_Z_range b). pose proof (byte_Z_range c). pose proof (byte_Z_range d).
  lia.
Qed.

(** A payload that fits a frame. *)
Definition frame_ok (p : bytes) : Prop := p ≠ [] ∧ Z.of_nat (length p) ≤ MAX_FRAME_BYTES.

Lemma frame_error_Ok p u : frame_error p = Ok u ↔ frame_ok p.
Proof.
  destruct u. unfold frame_error, frame_ok, MAX_FRAME_BYTES. split.
  - intros H. inv_ok. unfold try_u32 in *. case_bool_decide; [done|].
    repeat case_match; simplify_eq/=; inv_ok. split; [done|]. apply gtb_false. congruence.
  - intros [Hne Hle]. rewrite bool_decide_eq_false_2 by done. cbn [refuse_if rbind].
    unfold try_u32. case_match; [|lia]. cbn [ok_or rbind]. rewrite (proj2 (gtb_false _ _)) by lia. done.
Qed.

Lemma length_to_be_bytes n : length (to_be_bytes n) = 4%nat.
Proof. done. Qed.
Lemma length_frame_of p : length (frame_of p) = (4 + length p)%nat.
Proof. unfold frame_of. by rewrite length_app, length_to_be_bytes. Qed.

Lemma read_exact_app n a b e : length a = n → read_exact n (mkReader (a ++ b) e) = (Ok a, mkReader b e).
Proof.
  intros <-. unfold read_exact. cbn [rd_bytes rd_end]. rewrite decide_True by (rewrite length_app; lia).
  by rewrite take_app_length, drop_app_length.
Qed.
Lemma read_exact_Ok n r l r' :
  read_exact n r = (Ok l, r') → rd_bytes r = l ++ rd_bytes r' ∧ rd_end r' = rd_end r ∧ length l = n.
Proof.
  unfold read_exact. case_decide; intros [= <- <-]. cbn. split; [by rewrite take_drop|].
  split; [done|]. rewrite length_take. lia.
Qed.

Lemma read_frame_of p rest e :
  frame_ok p → read_frame (mkReader (frame_of p ++ rest) e) = (Ok (Some p), mkReader rest e).
Proof.
  intros [Hne Hle]. unfold read_frame, frame_of. rewrite <- app_assoc, read_exact_app by done.
  assert (Hlen : (0 < length p)%nat) by (destruct p; cbn; [done|lia]).
  rewrite from_to_be_bytes by (unfold in_u32, MAX_FRAME_BYTES in *; lia). cbn zeta.
  rewrite (proj2 (Z.eqb_neq _ _)), (proj2 (gtb_false _ _)) by lia.
  by rewrite Nat2Z.id, read_exact_app.
Qed.

(** A frame is read exactly when the stream starts with one. *)
Lemma read_frame_Some r p r' :
  read_frame r = (Ok (Some p), r') ↔
  rd_bytes r = frame_of p ++ rd_bytes r' ∧ rd_end r' = rd_end r ∧ frame_ok p.
Proof.
  split.
  - unfold read_frame. destruct (read_exact 4 r) as [[l|e] r1] eqn:H4; [|by case_decide].
    apply read_exact_Ok in H4 as (Hb & He & Hl). cbn zeta.
    destruct (_ =? 0) eqn:H0; [done|]. destruct (_ >? _) eqn:Hm; [done|].
    destruct (read_exact _ r1) as [[buf|e] r2] eqn:Hp; [|done]. intros [= <- <-].
    apply read_exact_Ok in Hp as (Hb2 & He2 & Hl2). pose proof (from_be_bytes_range l Hl) as Hr.
    unfold in_u32 in Hr. apply gtb_false in Hm. apply Z.eqb_neq in H0.
    split; [|split; [congruence|split; [intros ->; cbn in Hl2; lia|lia]]].
    unfold frame_of. rewrite Hl2, Z2Nat.id, to_from_be_bytes by (done || lia).
    by rewrite <- app_assoc, <- Hb2.
  - destruct r as [b e], r' as [b' e']. cbn. intros (-> & -> & Hp). by apply read_frame_of.
Qed.

(** ** The frames of a stream *)

Fixpoint frames_loop (fuel : nat) (r : Reader) : list bytes :=
  match fuel with
  | O => []
  | S fuel =>
      match read_frame r with
      | (Ok (Some p), r) => p :: frames_loop fuel r
      | _ => []
      end
  end.
Definition frames_of (r : Reader) : list bytes := frames_loop (length (rd_bytes r)) r.
(** The messages of frames, up to the first that does not decode. *)
Fixpoint decoded {A} (decode : bytes → option A) (l : list bytes) : list A :=
  match l with
  | [] => []
  | p :: l => match decode p with Some a => a :: decoded decode l | None => [] end
  end.

Lemma read_frame_shrinks r p r' :
  read_frame r = (Ok (Some p), r') → (length (rd_bytes r') < length (rd_bytes r))%nat.
Proof. intros (-> & _)%read_frame_Some. rewrite length_app, length_frame_of. lia. Qed.
Lemma frames_loop_enough fuel r :
  (length (rd_bytes r) ≤ fuel)%nat → frames_loop fuel r = frames_of r.
Proof.
  unfold frames_of. remember (length (rd_bytes r)) as n eqn:Hn. assert (Hle : (length (rd_bytes r) ≤ n)%nat) by lia.
  clear Hn. revert r n Hle. induction fuel as [|fuel IH]; intros r n Hle Hf.
  { by replace n with O by lia. }
  destruct n as [|n]; cbn [frames_loop]; (destruct (read_frame r) as [[[p|]|e] r'] eqn:Hr; [|done..]);
    apply read_frame_shrinks in Hr; [lia|].
  f_equal. apply IH; lia.
Qed.

Lemma frames_of_app l rest e :
  Forall frame_ok l →
  frames_of (mkReader (concat (frame_of <$> l) ++ rest) e) = l ++ frames_of (mkReader rest e).
Proof.
  induction 1 as [|p l Hp Hl IH]; [done|]. rewrite fmap_cons. cbn [concat app].
  rewrite <- IH, <- app_assoc. set (tl := concat _ ++ rest).
  rewrite <- (frames_loop_enough (S (length (frame_of p ++ tl)))) by (cbn; lia). cbn [frames_loop].
  rewrite read_frame_of by done. f_equal. apply frames_loop_enough. cbn [rd_bytes]. rewrite length_app. lia.
Qed.
Lemma frames_of_frames l e : Forall frame_ok l → frames_of (mkReader (concat (frame_of <$> l)) e) = l.
Proof.
  intros Hl. rewrite <- (app_nil_r (concat _)), frames_of_app by done. by rewrite app_nil_r.
Qed.

Lemma decoded_fmap {A B} (decode : bytes → option A) (encode : B → bytes) (f : B → A) l :
  (∀ b, b ∈ l → decode (encode b) = Some (f b)) → decoded decode (encode <$> l) = f <$> l.
Proof.
  induction l as [|b l IH]; intros H; [done|]. rewrite !fmap_cons. cbn [decoded].
  rewrite H by (by left). f_equal. apply IH. intros b' Hb'. apply H. by right.
Qed.

(** C34: the frames of the wire are a prefix code: what one end writes, the
    other reads back in order and whole, and a frame is read exactly when the
    stream starts with one, of at least one byte and at most the cap; a header
    outside that range is refused before anything after it is read. *)
Theorem frames_prefix_code :
  (∀ l rest e, Forall frame_ok l →
    frames_of (mkReader (concat (frame_of <$> l) ++ rest) e) = l ++ frames_of (mkReader rest e)) ∧
  (∀ r p r', read_frame r = (Ok (Some p), r') ↔
    rd_bytes r = frame_of p ++ rd_bytes r' ∧ rd_end r' = rd_end r ∧ frame_ok p) ∧
  (∀ r header, take 4 (rd_bytes r) = header → length header = 4%nat →
    from_be_bytes header = 0 ∨ MAX_FRAME_BYTES < from_be_bytes header →
    ∃ e, read_frame r = (Err e, mkReader (drop 4 (rd_bytes r)) (rd_end r)) ∧ io_kind e = IoInvalidData).
Proof.
  split; [intros; by apply frames_of_app|]. split; [apply read_frame_Some|].
  intros r header Hh Hl Hbad. unfold read_frame.
  assert (Hr : read_exact 4 r = (Ok header, mkReader (drop 4 (rd_bytes r)) (rd_end r))).
  { unfold read_exact. rewrite decide_True; [by rewrite Hh|]. rewrite <- Hh, length_take in Hl. lia. }
  rewrite Hr. cbn zeta. destruct (from_be_bytes header =? 0) eqn:H0; [by eexists|].
  rewrite (proj2 (Z.gtb_lt _ _)) by lia. by eexists.
Qed.

(** ** What the daemon makes of an agent's bytes *)

Lemma upto_exit_last l before ev after rest :
  upto_exit l = before ++ ev :: after ++ rest → is_exit ev = true → after = [].
Proof.
  revert before. induction l as [|x l IH]; intros before H He; [by destruct before|]. cbn [upto_exit] in H.
  destruct before as [|y before]; cbn in H; injection H as -> H.
  - rewrite He in H. by destruct after.
  - destruct (is_exit y); [by destruct before|]. by apply IH in H.
Qed.

Section inbound.
Context `{C : Codec}.

Lemma inbound_loop_eq fuel r n sent :
  inbound_loop fuel r n sent =
  sent ++ take n (upto_exit (omap inbound_event (decoded decode_event (frames_loop fuel r)))).
Proof.
  revert r n sent. induction fuel as [|fuel IH]; intros r n sent; cbn [inbound_loop frames_loop decoded omap].
  { cbn. by rewrite take_nil, app_nil_r. }
  destruct (read_frame r) as [[[p|]|e] r']; cbn [decoded]; [|by cbn; rewrite take_nil, app_nil_r..].
  destruct (decode_event p) as [k|]; [|by cbn; rewrite take_nil, app_nil_r].
  cbn. destruct (inbound_event k) as [ev|]; [|by rewrite IH].
  cbn [upto_exit]. destruct n as [|n]; [by rewrite take_0, app_nil_r|]. destruct (is_exit ev) eqn:He.
  - cbn. by rewrite take_nil.
  - rewrite IH, <- app_assoc. done.
Qed.

(** Whatever bytes an agent sends, hostile ones included, the reader of its
    events ends, and a client gets exactly the events its frames decode to, in
    order, up to the first exit, to the first frame that is malformed or does
    not decode, or to the last one the client listens for: an exit is always the
    last event. *)
Theorem inbound_exact (r : Reader) (n : nat) :
  inbound r n = take n (upto_exit (omap inbound_event (decoded decode_event (frames_of r)))) ∧
  ∀ before ev after, inbound r n = before ++ ev :: after → is_exit ev = true → after = [].
Proof.
  assert (Heq : inbound r n = take n (upto_exit (omap inbound_event (decoded decode_event (frames_of r))))).
  { unfold inbound. by rewrite inbound_loop_eq. }
  split; [done|]. intros before ev after H He. rewrite Heq in H.
  apply (upto_exit_last (omap inbound_event (decoded decode_event (frames_of r))) before ev after
    (drop n (upto_exit (omap inbound_event (decoded decode_event (frames_of r)))))); [|done].
  rewrite <- (take_drop n (upto_exit _)) at 1. rewrite H. by rewrite <- app_assoc.
Qed.
End inbound.

(** ** What the daemon sends *)

Section sends.
Context `{C : Codec}.

Lemma write_frame_ok p w :
  frame_ok p → wr_faults w = [] → write_frame p w = (Ok tt, mkWriter (wr_bytes w ++ frame_of p) []).
Proof.
  intros Hp Hw. unfold write_frame. rewrite (proj2 (frame_error_Ok p tt) Hp). unfold write_all. by rewrite Hw.
Qed.

(** A request that fits a frame. *)
Definition fits (k : RequestKind) : Prop := frame_ok (encode_request (Some k)).
Definition request_frames (l : list RequestKind) : bytes :=
  concat (frame_of <$> (encode_request ∘ Some <$> l)).
Lemma request_frames_cons k l :
  request_frames (k :: l) = frame_of (encode_request (Some k)) ++ request_frames l.
Proof. done. Qed.
Lemma request_frames_app l k : request_frames (l ++ k) = request_frames l ++ request_frames k.
Proof. unfold request_frames. by rewrite !fmap_app, concat_app. Qed.

Lemma frames_of_requests l e :
  Forall fits l → frames_of (mkReader (request_frames l) e) = encode_request ∘ Some <$> l.
Proof. intros Hl. apply frames_of_frames. by rewrite Forall_fmap. Qed.

(** The requests of a sequence of what the outbound task receives. *)
Fixpoint out_requests (stdin control : bool) (evs : list OutEvent) : list RequestKind :=
  match evs with
  | [] => []
  | OutStdin b :: evs => (if stdin then [RStdin b] else []) ++ out_requests stdin control evs
  | OutStdinClosed :: evs => (if stdin then [RStdin []] else []) ++ out_requests false control evs
  | OutControl c :: evs => (if control then [control_request c] else []) ++ out_requests stdin control evs
  | OutControlClosed :: evs => out_requests stdin false evs
  | OutKill :: _ => [RKill]
  | OutKillDropped :: _ => []
  end.

Lemma outbound_done evs s : ob_done s = true → foldl outbound_step s evs = s.
Proof.
  intros Hs. induction evs as [|ev evs IH]; [done|]. cbn. unfold outbound_step at 2. by rewrite Hs.
Qed.
Lemma outbound_send_ok k s :
  fits k → wr_faults (ob_writer s) = [] →
  outbound_send k s = (Ok tt, mkOutbound (mkWriter (wr_bytes (ob_writer s) ++ frame_of (encode_request (Some k))) [])
                               (ob_stdin_open s) (ob_control_open s) (ob_done s)).
Proof. intros Hk Hw. unfold outbound_send. by rewrite write_frame_ok. Qed.

Lemma outbound_writes evs bytes stdin control :
  Forall fits (out_requests stdin control evs) →
  wr_bytes (ob_writer (foldl outbound_step (mkOutbound (mkWriter bytes []) stdin control false) evs)) =
  bytes ++ request_frames (out_requests stdin control evs).
Proof.
  revert bytes stdin control. induction evs as [|ev evs IH]; intros bytes stdin control Hf.
  { cbn. by rewrite app_nil_r. }
  cbn [foldl]. unfold outbound_step at 2. cbn [ob_done ob_stdin_open ob_control_open].
  destruct ev as [b| |c| | |]; cbn [out_requests] in Hf |- *.
  - destruct stdin; [|by apply IH]. apply Forall_cons in Hf as [Hb Hf].
    rewrite outbound_send_ok by done. cbn [ob_writer ob_stdin_open ob_control_open ob_done wr_bytes].
    rewrite IH by done. cbn [app]. by rewrite request_frames_cons, app_assoc.
  - destruct stdin; [|by apply IH]. apply Forall_cons in Hf as [Hb Hf].
    rewrite outbound_send_ok by done. cbn [snd ob_writer ob_stdin_open ob_control_open ob_done wr_bytes].
    rewrite IH by done. cbn [app]. by rewrite request_frames_cons, app_assoc.
  - destruct control; [|by apply IH]. apply Forall_cons in Hf as [Hb Hf].
    rewrite outbound_send_ok by done. cbn [ob_writer ob_stdin_open ob_control_open ob_done wr_bytes].
    rewrite IH by done. cbn [app]. by rewrite request_frames_cons, app_assoc.
  - by apply IH.
  - apply Forall_cons in Hf as [Hb _]. rewrite outbound_send_ok by done. rewrite outbound_done by done.
    cbn. by rewrite app_nil_r.
  - rewrite outbound_done by done. cbn. by rewrite app_nil_r.
Qed.

(** *** Uploads *)

Lemma send_request_ok k r bytes :
  fits k → send_request k (mkConn r (mkWriter bytes [])) =
    (Ok tt, mkConn r (mkWriter (bytes ++ frame_of (encode_request (Some k))) [])).
Proof. intros Hk. unfold send_request. cbn. by rewrite write_frame_ok. Qed.
Lemma send_chunks_ok pieces r bytes :
  Forall (fits ∘ RArchiveChunk) pieces →
  send_chunks pieces (mkConn r (mkWriter bytes [])) =
    (Ok tt, mkConn r (mkWriter (bytes ++ request_frames (RArchiveChunk <$> pieces)) [])).
Proof.
  intros Hp. revert bytes. induction Hp as [|p pieces Hp Hps IH]; intros bytes; cbn [send_chunks].
  { cbn. by rewrite app_nil_r. }
  rewrite send_request_ok by done. rewrite IH. by rewrite fmap_cons, request_frames_cons, app_assoc.
Qed.

Lemma chunks_of_spec fuel n l :
  (0 < n)%nat → (length l ≤ fuel)%nat →
  concat (chunks_of fuel n l) = l ∧ Forall (λ p, (length p ≤ n)%nat) (chunks_of fuel n l).
Proof.
  intros Hn. revert l. induction fuel as [|fuel IH]; intros l Hl; [destruct l; [done|cbn in Hl; lia]|].
  destruct l as [|b l]; [done|]. cbn [chunks_of]. destruct (IH (drop n (b :: l))) as [Hc Hf].
  { rewrite length_drop. cbn in *. lia. }
  cbn [concat]. split; [by rewrite Hc, take_drop|]. constructor; [|done]. rewrite length_take. lia.
Qed.
Lemma ARCHIVE_CHUNK_BYTES_Z : Z.of_nat ARCHIVE_CHUNK_BYTES = 1048576.
Proof. unfold ARCHIVE_CHUNK_BYTES. by rewrite Z2Nat.id. Qed.
Lemma pieces_of_spec chunks :
  concat (pieces_of chunks) = concat chunks ∧
  Forall (λ p, (length p ≤ ARCHIVE_CHUNK_BYTES)%nat) (pieces_of chunks).
Proof.
  unfold pieces_of. induction chunks as [|c chunks [IHc IHf]]; [done|]. rewrite bind_cons, concat_app.
  destruct (chunks_of_spec (length c) ARCHIVE_CHUNK_BYTES c) as [Hc Hf];
    [pose proof ARCHIVE_CHUNK_BYTES_Z; lia|lia|].
  cbn [concat]. rewrite Hc, IHc. split; [done|]. apply Forall_app. by split.
Qed.

Context `{!CodecLaws C}.

Lemma chunk_fits p : (length p ≤ ARCHIVE_CHUNK_BYTES)%nat → fits (RArchiveChunk p).
Proof.
  intros Hp. split; [apply request_nonempty|]. pose proof ARCHIVE_CHUNK_BYTES_Z as Hz.
  pose proof (request_chunk_size p) as Hs. unfold MAX_FRAME_BYTES in *. lia.
Qed.
End sends.
