(* ===== verification/User.v ===== *)
(** * User: who a process in the guest runs as

    Models [ward-agent/src/user.rs]: a user spec [name|uid[:group|gid]] is
    resolved against the guest's passwd and group files, and the new process
    drops to that identity before it runs.  The system calls act on a record
    of the process's credentials, with the kernel's rule that only root may
    change its groups. *)

From stdpp Require Import base list numbers option strings pretty sets.
From Stdlib Require Import ZArith Lia Ascii.
From S2P Require Import Prelude Text.

Local Open Scope Z_scope.

(** ** The user and group files *)

(** [str::lines]: a line ends at a newline, with a carriage return before it
    dropped; an empty rest is no line. *)
Definition strip_cr (s : string) : string :=
  match rsplit_once "013" s with Some (line, rest) => if is_empty rest then line else s | None => s end.
Fixpoint line_pieces (l : list string) : list string :=
  match l with
  | [] => []
  | [rest] => if is_empty rest then [] else [rest]
  | line :: l => strip_cr line :: line_pieces l
  end.
Definition lines (s : string) : list string := line_pieces (split "010" s).

Definition DEFAULT_GID : Z := 0.
Definition DEFAULT_HOME : string := "/".

Inductive UserError :=
| InvalidSpec (spec : string)
| UserNotFound (u : string)
| GroupNotFound (g : string)
| FileTooLarge (file : string).
Definition user_error_text (e : UserError) : string :=
  match e with
  | InvalidSpec spec => "invalid user spec " +:+ debug_str spec
  | UserNotFound u => "unable to find user " +:+ u +:+ ": no matching entries in passwd file"
  | GroupNotFound g => "unable to find group " +:+ g +:+ ": no matching entries in group file"
  | FileTooLarge file => file +:+ " file too large"
  end.

Record Identity := mkIdentity { uid : Z; gid : Z; groups : list Z; home : string }.

Inductive Reference := RefId (n : Z) | RefName (name : string).
Definition reference_parse (text : string) : Reference :=
  match parse_u32 text with Some n => RefId n | None => RefName text end.
Definition reference_text (r : Reference) : string :=
  match r with RefId n => pretty n | RefName name => name end.

Record PasswdEntry := mkPasswd { pw_name : string; pw_uid : Z; pw_gid : Z; pw_home : string }.
Record GroupEntry := mkGroup { gr_name : string; gr_gid : Z; gr_members : string }.

Definition passwd_entry (line : string) : option PasswdEntry :=
  let fields := split ":" line in
  if decide (length fields < 6)%nat then None else
  u ← parse_u32 (nth 2 fields ""); g ← parse_u32 (nth 3 fields "");
  Some (mkPasswd (nth 0 fields "") u g (nth 5 fields "")).
Definition passwd_entries (passwd : string) : list PasswdEntry := omap passwd_entry (lines passwd).
Definition group_entry (line : string) : option GroupEntry :=
  let fields := split ":" line in
  if decide (length fields < 3)%nat then None else
  g ← parse_u32 (nth 2 fields "");
  Some (mkGroup (nth 0 fields "") g (nth 3 fields "")).
Definition group_entries (group : string) : list GroupEntry := omap group_entry (lines group).

(** ** Resolving a spec *)

Definition split_spec (spec : string) : result (Reference * option Reference) UserError :=
  let '(u, g) := match split_once ":" spec with Some (u, g) => (u, Some g) | None => (spec, None) end in
  let unusable part := is_empty part || contains ":" part in
  refuse_if (unusable u || match g with Some g => unusable g | None => false end) (InvalidSpec spec) ;?
  Ok (reference_parse u, reference_parse <$> g).

Definition names_user (r : Reference) (e : PasswdEntry) : bool :=
  match r with RefId n => pw_uid e =? n | RefName name => bool_decide (pw_name e = name) end.
Definition find_user (r : Reference) (passwd : string) : option PasswdEntry :=
  head (filter (λ e, names_user r e = true) (passwd_entries passwd)).
Definition find_group (name : string) (group : string) : option GroupEntry :=
  head (filter (λ e, gr_name e = name) (group_entries group)).

(** The loop over the group file: the groups that list the user, once each. *)
Definition is_member (name : string) (g : GroupEntry) : bool :=
  bool_decide (name ∈ split "," (gr_members g)).
Definition push_group (l : list Z) (n : Z) : list Z := if decide (n ∈ l) then l else l ++ [n].
Definition member_groups (name : string) (groups : list Z) (entries : list GroupEntry) : list Z :=
  foldl (λ l g, if is_member name g then push_group l (gr_gid g) else l) groups entries.

Definition resolve_user (spec passwd group : string) : result Identity UserError :=
  let? (user_ref, group_ref) := split_spec spec in
  let entry := find_user user_ref passwd in
  let? (u, default_gid) :=
    match entry, user_ref with
    | Some e, _ => Ok (pw_uid e, pw_gid e)
    | None, RefId n => Ok (n, DEFAULT_GID)
    | None, RefName _ => Err (UserNotFound (reference_text user_ref))
    end in
  let? g :=
    match group_ref with
    | None => Ok default_gid
    | Some (RefId n) => Ok n
    | Some (RefName name) => ok_or (gr_gid <$> find_group name group) (GroupNotFound name)
    end in
  Ok (mkIdentity u g
        (match entry, group_ref with
         | Some e, None => member_groups (pw_name e) [g] (group_entries group)
         | _, _ => [g]
         end)
        (match entry with
         | Some e => if is_empty (pw_home e) then DEFAULT_HOME else pw_home e
         | None => DEFAULT_HOME
         end)).

Definition resolve_group_add (specs : list string) (group : string) : result (list Z) UserError :=
  try_map (λ spec, match parse_u32 spec with
                   | Some n => Ok n
                   | None => ok_or (gr_gid <$> find_group spec group) (GroupNotFound spec)
                   end) specs.
Definition add_groups (i : Identity) (extra : list Z) : Identity :=
  mkIdentity (uid i) (gid i) (foldl push_group (groups i) extra) (home i).

(** ** Dropping privileges *)

(** The credentials of a process, and where it is. *)
Record Creds := mkCreds { cr_uid : Z; cr_gid : Z; cr_groups : list Z; cr_dir : string }.

(** An error of a system call is its number. *)
Definition EPERM : Z := 1.
Definition EINVAL : Z := 22.
(** The id that no user or group may have. *)
Definition NO_ID : Z := 2 ^ 32 - 1.
Definition set_groups (l : list Z) (c : Creds) : result unit Z * Creds :=
  if cr_uid c =? 0 then (Ok tt, mkCreds (cr_uid c) (cr_gid c) l (cr_dir c)) else (Err EPERM, c).
Definition set_gid (n : Z) (c : Creds) : result unit Z * Creds :=
  if n =? NO_ID then (Err EINVAL, c) else
  if (cr_uid c =? 0) || (cr_gid c =? n)
  then (Ok tt, mkCreds (cr_uid c) n (cr_groups c) (cr_dir c)) else (Err EPERM, c).
Definition set_uid (n : Z) (c : Creds) : result unit Z * Creds :=
  if n =? NO_ID then (Err EINVAL, c) else
  if (cr_uid c =? 0) || (cr_uid c =? n)
  then (Ok tt, mkCreds n (cr_gid c) (cr_groups c) (cr_dir c)) else (Err EPERM, c).

Inductive Step := StepSetGroups | StepSetGid | StepSetUid | StepChangeDir.
#[export] Instance Step_eq_dec : EqDecision Step.
Proof. solve_decision. Defined.
Definition step_number (s : Step) : Z :=
  match s with StepSetGroups => 1 | StepSetGid => 2 | StepSetUid => 3 | StepChangeDir => 4 end.
Definition step_name (s : Step) : string :=
  match s with
  | StepSetGroups => "setgroups" | StepSetGid => "setgid" | StepSetUid => "setuid" | StepChangeDir => "chdir"
  end.
Definition ALL_STEPS : list Step := [StepSetGroups; StepSetGid; StepSetUid; StepChangeDir].

Definition STEP_SHIFT : Z := 16.
Definition ERRNO_MASK : Z := Z.shiftl 1 STEP_SHIFT - 1.
Definition tag (s : Step) (errno : Z) : Z := Z.lor (Z.shiftl (step_number s) STEP_SHIFT) errno.
Definition untag (code : Z) : option Step * Z :=
  match head (filter (λ s, step_number s = Z.shiftr code STEP_SHIFT) ALL_STEPS) with
  | Some s => (Some s, Z.land code ERRNO_MASK)
  | None => (None, code)
  end.

(** A call whose failure is marked with its step and ends the sequence. *)
Definition marked {A} (s : Step) (call : Creds → result unit Z * Creds)
    (next : Creds → result A Z * Creds) (c : Creds) : result A Z * Creds :=
  match call c with
  | (Ok _, c) => next c
  | (Err e, c) => (Err (tag s e), c)
  end.
Definition drop_privileges (i : Identity) : Creds → result unit Z * Creds :=
  marked StepSetGroups (set_groups (groups i))
    (marked StepSetGid (set_gid (gid i))
      (marked StepSetUid (set_uid (uid i)) (λ c, (Ok tt, c)))).

(** [chdir] of the guest: which directories a user may enter. *)
Definition enter_as (change_dir : string → Creds → result unit Z * Creds) (i : Identity)
    (workdir : option string) (c : Creds) : result unit Z * Creds :=
  match drop_privileges i c with
  | (Err e, c) => (Err e, c)
  | (Ok _, c) =>
      match workdir with
      | None => (Ok tt, c)
      | Some dir => marked StepChangeDir (change_dir dir) (λ c, (Ok tt, c)) c
      end
  end.

(** ** Lemmas *)

Lemma head_filter_Some {A} (P : A → Prop) `{∀ x, Decision (P x)} (l : list A) x :
  head (filter P l) = Some x → x ∈ l ∧ P x.
Proof.
  intros Hx. assert (Hin : x ∈ filter P l) by (destruct (filter P l); [done|injection Hx as ->; by left]).
  apply list_elem_of_filter in Hin. naive_solver.
Qed.

Lemma elem_of_push_group l n x : x ∈ push_group l n ↔ x ∈ l ∨ x = n.
Proof. unfold push_group. case_decide; set_solver. Qed.
Lemma NoDup_push_group l n : NoDup l → NoDup (push_group l n).
Proof.
  unfold push_group. intros Hl. case_decide; [done|]. apply NoDup_app. split_and!; [done| |apply NoDup_singleton].
  intros x Hx ->%list_elem_of_singleton. done.
Qed.
Lemma head_push_group l n x : head l = Some x → head (push_group l n) = Some x.
Proof. unfold push_group. case_decide; [done|]. by destruct l. Qed.

(** What holds of a list of groups to which members' groups are added. *)
Lemma member_groups_spec name entries l :
  NoDup l →
  NoDup (member_groups name l entries) ∧
  (∀ x, head l = Some x → head (member_groups name l entries) = Some x) ∧
  ∀ x, x ∈ member_groups name l entries ↔
    x ∈ l ∨ ∃ g, g ∈ entries ∧ is_member name g = true ∧ gr_gid g = x.
Proof.
  revert l. induction entries as [|g entries IH]; intros l Hl; cbn [member_groups foldl].
  { split_and!; [done|done|]. setoid_rewrite elem_of_nil. naive_solver. }
  destruct (is_member name g) eqn:Hm.
  - destruct (IH (push_group l (gr_gid g)) (NoDup_push_group _ _ Hl)) as (H1 & H2 & H3).
    split_and!; [done|intros x Hx; by apply H2, head_push_group|].
    intros x. etrans; [apply H3|]. rewrite elem_of_push_group. split.
    + intros [[?| ->]|(g' & Hg' & ?)]; [by left|right; exists g; by split; [left|]|].
      right. exists g'. by split; [right|].
    + intros [?|(g' & [->|Hg']%elem_of_cons & ? & <-)]; [by left; left|by left; right|].
      right. by exists g'.
  - destruct (IH l Hl) as (H1 & H2 & H3). split_and!; [done..|].
    intros x. etrans; [apply H3|]. split.
    + intros [?|(g' & Hg' & ?)]; [by left|]. right. exists g'. by split; [right|].
    + intros [?|(g' & [->|Hg']%elem_of_cons & Hm' & ?)]; [by left|congruence|]. right. by exists g'.
Qed.

Lemma passwd_entries_ids passwd e :
  e ∈ passwd_entries passwd → in_u32 (pw_uid e) ∧ in_u32 (pw_gid e).
Proof.
  unfold passwd_entries. intros (line & _ & He)%list_elem_of_omap. unfold passwd_entry in He.
  cbn zeta in He. destruct (decide (length (split ":" line) < 6)%nat) as [|_]; [done|].
  destruct (parse_u32 (nth 2 _ _)) as [u|] eqn:Hu; [|done].
  destruct (parse_u32 (nth 3 _ _)) as [g|] eqn:Hg; [|done].
  injection He as <-. cbn. split; by eapply parse_u32_range.
Qed.
Lemma group_entries_ids group ge : ge ∈ group_entries group → in_u32 (gr_gid ge).
Proof.
  unfold group_entries. intros (line & _ & Hg)%list_elem_of_omap. unfold group_entry in Hg.
  cbn zeta in Hg. destruct (decide (length (split ":" line) < 3)%nat) as [|_]; [done|].
  destruct (parse_u32 (nth 2 _ _)) as [n|] eqn:Hn; [|done]. injection Hg as <-. by eapply parse_u32_range.
Qed.
Lemma reference_parse_id text n : reference_parse text = RefId n → in_u32 n.
Proof.
  unfold reference_parse. destruct (parse_u32 text) as [m|] eqn:Hm; [|done].
  intros [= <-]. by eapply parse_u32_range.
Qed.

Lemma split_spec_Ok spec u g :
  split_spec spec = Ok (u, g) →
  (∀ n, u = RefId n → in_u32 n) ∧ (∀ n, g = Some (RefId n) → in_u32 n).
Proof.
  unfold split_spec. destruct (split_once ":" spec) as [[a b]|]; intros H; inv_ok; simplify_eq;
    (split; intros n Hn; [by eapply reference_parse_id|]); cbn in Hn; [|done].
  injection Hn as Hn. by eapply reference_parse_id.
Qed.

(** ** Theorems *)

(** The identity of a user spec is what the guest's files say: a name must
    have a passwd entry, a number without one gets group 0; the primary group is
    the first of the groups, no group is listed twice, and the others are exactly
    the groups that list the user, only when the spec names no group, so no group
    of the agent leaks to the process; all ids fit 32 bits. *)
Theorem resolved_identity (spec passwd group : string) (i : Identity)
    (resolved : resolve_user spec passwd group = Ok i) :
  in_u32 (uid i) ∧ in_u32 (gid i) ∧ head (groups i) = Some (gid i) ∧ NoDup (groups i) ∧
  ∃ u g, split_spec spec = Ok (u, g) ∧
    match find_user u passwd with
    | Some e =>
        uid i = pw_uid e ∧ (g = None → gid i = pw_gid e) ∧
        ∀ n, n ∈ groups i ↔
          n = gid i ∨ g = None ∧ ∃ e', e' ∈ group_entries group ∧ is_member (pw_name e) e' = true ∧ gr_gid e' = n
    | None => u = RefId (uid i) ∧ (g = None → gid i = 0) ∧ groups i = [gid i] ∧ home i = DEFAULT_HOME
    end.
Proof.
  unfold resolve_user in resolved. destruct (split_spec spec) as [[u g]|e] eqn:Hs; [|done]. cbn [rbind] in resolved.
  destruct (split_spec_Ok _ _ _ Hs) as [Hu Hg]. cbn zeta in resolved.
  set (entry := find_user u passwd) in *.
  match type of resolved with rbind ?r _ = _ => destruct r as [[n default_gid]|] eqn:Hn; [|done] end.
  cbn [rbind] in resolved.
  match type of resolved with rbind ?r _ = _ => destruct r as [m|] eqn:Hm; [|done] end.
  cbn [rbind] in resolved. injection resolved as <-. cbn [uid gid groups home].
  assert (Hids : in_u32 n ∧ in_u32 default_gid).
  { destruct entry as [e|] eqn:He.
    - injection Hn as <- <-. apply passwd_entries_ids with passwd. by apply head_filter_Some in He as [? _].
    - destruct u as [k|]; [|done]. injection Hn as <- <-. split; [by apply Hu|]. unfold DEFAULT_GID, in_u32. lia. }
  assert (Hm32 : in_u32 m).
  { destruct g as [[k|name]|]; [injection Hm as <-; by apply Hg| |injection Hm as <-; apply Hids].
    destruct (find_group name group) as [ge|] eqn:Hge; [|done]. injection Hm as <-.
    apply group_entries_ids with group. by apply head_filter_Some in Hge as [? _]. }
  destruct entry as [e|] eqn:He.
  - injection Hn as <- <-. split; [apply Hids|]. split; [done|].
    destruct g as [r|].
    + split; [done|]. split; [apply NoDup_singleton|]. exists u, (Some r). split; [done|].
      fold entry. rewrite He. split_and!; [done|done|]. setoid_rewrite list_elem_of_singleton. naive_solver.
    + destruct (member_groups_spec (pw_name e) (group_entries group) [m] (NoDup_singleton m)) as (H1 & H2 & H3).
      split; [by apply H2|]. split; [done|]. exists u, None. split; [done|]. fold entry. rewrite He.
      split_and!; [done|by injection Hm as <-|]. intros k. rewrite H3, list_elem_of_singleton. naive_solver.
  - destruct u as [k|]; [|done]. injection Hn as <- <-. split; [apply Hids|]. split; [done|].
    split; [done|]. split; [apply NoDup_singleton|]. exists (RefId k), g. split; [done|].
    fold entry. rewrite He. split_and!; [done| |done|done]. intros ->. by injection Hm as <-.
Qed.

Lemma tag_value s errno : 0 ≤ errno < 2 ^ 16 → tag s errno = step_number s * 2 ^ 16 + errno.
Proof.
  intros He. unfold tag, STEP_SHIFT. rewrite Z.shiftl_mul_pow2 by lia.
  rewrite <- Z.add_lor_land, Z.add_comm. replace (Z.land _ _) with 0; [lia|]. symmetry.
  rewrite <- (Z.mod_small errno (2 ^ 16)) by done. rewrite <- Z.land_ones by lia.
  rewrite Z.land_assoc, (Z.land_comm _ errno), <- Z.land_assoc, Z.land_ones by lia.
  by rewrite Z.mod_mul, Z.land_0_r by lia.
Qed.

Lemma untag_marked s errno : 0 ≤ errno < 2 ^ 16 → untag (tag s errno) = (Some s, errno).
Proof.
  intros He. unfold untag. rewrite tag_value by done. unfold ERRNO_MASK, STEP_SHIFT.
  replace (Z.shiftl 1 16 - 1) with (Z.ones 16) by reflexivity.
  rewrite Z.shiftr_div_pow2, Z.land_ones by lia.
  rewrite Z.div_add_l, (Z.div_small errno) by lia.
  rewrite Z.add_0_r, (Z.add_comm (_ * _)), Z.mod_add, Z.mod_small by lia. by destruct s.
Qed.

(** The step of a privilege drop that failed survives the way through the
    error number: [untag] gives back the step and the error that [tag] joined,
    for every error number of 16 bits, and leaves an unmarked one alone. *)
Theorem untag_tag (s : Step) (errno : Z) (small : 0 ≤ errno < 2 ^ 16) :
  untag (tag s errno) = (Some s, errno) ∧ untag errno = (None, errno).
Proof.
  split; [by apply untag_marked|]. unfold untag, STEP_SHIFT.
  by rewrite Z.shiftr_div_pow2, Z.div_small by lia.
Qed.

(** A process that drops to an identity ends with exactly that user, group
    and list of groups, whoever it was before; if a call fails it still is the
    user it was, and the error names the call; root can drop to every identity
    with real ids. *)
Theorem drop_exact (i : Identity) (c : Creds) :
  match drop_privileges i c with
  | (Ok _, c') => c' = mkCreds (uid i) (gid i) (groups i) (cr_dir c)
  | (Err code, c') => cr_uid c' = cr_uid c ∧ ∃ s errno, untag code = (Some s, errno)
  end ∧
  (cr_uid c = 0 → uid i ≠ NO_ID → gid i ≠ NO_ID → (drop_privileges i c).1 = Ok tt).
Proof.
  assert (Htag : ∀ s e, e = EPERM ∨ e = EINVAL → ∃ s' errno, untag (tag s e) = (Some s', errno)).
  { intros s e He. exists s, e. apply untag_marked. destruct He as [-> | ->]; unfold EPERM, EINVAL; lia. }
  unfold drop_privileges, marked, set_groups, set_gid, set_uid.
  destruct (cr_uid c =? 0) eqn:H0; cbn [cr_uid cr_gid cr_groups cr_dir]; rewrite ?H0; cbn [orb];
    [|split; [split; [done|by eauto]|]; lia].
  destruct (gid i =? NO_ID) eqn:Hg; [split; [split; [done|by eauto]|]; lia|].
  cbn [cr_uid cr_gid cr_groups cr_dir]. rewrite H0. cbn [orb].
  destruct (uid i =? NO_ID) eqn:Hu; [split; [split; [done|by eauto]|]; lia|]. by split.
Qed.

(** Any other order fails for a process that must not stay root. *)
Example uid_first_cannot_drop_groups :
  let c := (set_uid 1000 (mkCreds 0 0 [0] "/")).2 in
  set_gid 1000 c = (Err EPERM, c) ∧ set_groups [1000] c = (Err EPERM, c).
Proof. vm_compute. done. Qed.

(** *** Witnesses *)

Definition nl : string := String "010" "".
Definition demo_passwd : string := "root:x:0:0:root:/root:/bin/sh" +:+ nl +:+ "app:x:1000:1000::/home/app:/bin/sh" +:+ nl.
Definition demo_group : string := "root:x:0:" +:+ nl +:+ "audio:x:29:app,other" +:+ nl +:+ "app:x:1000:" +:+ nl.

Lemma resolved_identity_witness :
  let i := mkIdentity 1000 1000 [1000; 29] "/home/app" in
  in_u32 (uid i) ∧ in_u32 (gid i) ∧ head (groups i) = Some (gid i) ∧ NoDup (groups i) ∧
  ∃ u g, split_spec "app" = Ok (u, g) ∧
    match find_user u demo_passwd with
    | Some e =>
        uid i = pw_uid e ∧ (g = None → gid i = pw_gid e) ∧
        ∀ n, n ∈ groups i ↔
          n = gid i ∨ g = None ∧ ∃ e', e' ∈ group_entries demo_group ∧ is_member (pw_name e) e' = true ∧ gr_gid e' = n
    | None => u = RefId (uid i) ∧ (g = None → gid i = 0) ∧ groups i = [gid i] ∧ home i = DEFAULT_HOME
    end.
Proof. apply (resolved_identity "app" demo_passwd demo_group). vm_compute. reflexivity. Defined.

Lemma untag_tag_witness : untag (tag StepSetGid 13) = (Some StepSetGid, 13) ∧ untag 13 = (None, 13).
Proof. apply (untag_tag StepSetGid 13). lia. Defined.
