(* ===== verification/Codec.v ===== *)
(** * Codec: an encoding of the agent's messages

    The generated encoder is not part of the sources; this file gives one that
    keeps the promises of [Agent.CodecLaws], so that the theorems about both
    ends apply to a concrete encoder.  Bulk data is copied behind a short
    header, everything else is numbered by the library's encodings. *)

From stdpp Require Import base list numbers option strings gmap countable.
From Stdlib Require Import ZArith Lia.
From S2P Require Import Prelude Text Output Validate Manager Exec Calls Agent.

Local Open Scope Z_scope.

#[export] Instance byte_countable : Countable Byte.byte.
Proof. apply (inj_countable Byte.to_N Byte.of_N). apply Byte.of_to_N. Defined.

(** ** Numbering the messages *)

Abbreviation StatsTuple := (Z * Z * Z * Z * Z * Z * Z * Z)%type.
Definition stats_tuple (g : GuestStats) : StatsTuple :=
  (g_cpu_nanos g, g_online_cpus g, g_mem_total g, g_mem_available g, g_pids g, g_mem_peak g,
   g_block_read g, g_block_write g).
Definition tuple_stats (t : StatsTuple) : GuestStats :=
  let '(a, b, c, d, e, f, g, h) := t in mkGuestStats a b c d e f g h.

Abbreviation EventSum := (string + (string + (Z * Z * Z + (unit + (Z * bytes + (bytes + (unit +
  (string * Z + (list string * list (list string) + (string + StatsTuple))))))))))%type.
Definition event_sum (k : EventKind) : EventSum :=
  match k with
  | EvStdout t => inl t
  | EvStderr t => inr (inl t)
  | EvExited a b c => inr (inr (inl (a, b, c)))
  | EvPong => inr (inr (inr (inl tt)))
  | EvData s d => inr (inr (inr (inr (inl (s, d)))))
  | EvArchiveChunk d => inr (inr (inr (inr (inr (inl d)))))
  | EvArchiveDone => inr (inr (inr (inr (inr (inr (inl tt))))))
  | EvArchiveError m n => inr (inr (inr (inr (inr (inr (inr (inl (m, n))))))))
  | EvProcesses t r => inr (inr (inr (inr (inr (inr (inr (inr (inl (t, r)))))))))
  | EvTopError m => inr (inr (inr (inr (inr (inr (inr (inr (inr (inl m)))))))))
  | EvStatsSample g => inr (inr (inr (inr (inr (inr (inr (inr (inr (inr (stats_tuple g))))))))))
  end.
Definition sum_event (x : EventSum) : EventKind :=
  match x with
  | inl t => EvStdout t
  | inr (inl t) => EvStderr t
  | inr (inr (inl (a, b, c))) => EvExited a b c
  | inr (inr (inr (inl _))) => EvPong
  | inr (inr (inr (inr (inl (s, d))))) => EvData s d
  | inr (inr (inr (inr (inr (inl d))))) => EvArchiveChunk d
  | inr (inr (inr (inr (inr (inr (inl _)))))) => EvArchiveDone
  | inr (inr (inr (inr (inr (inr (inr (inl (m, n)))))))) => EvArchiveError m n
  | inr (inr (inr (inr (inr (inr (inr (inr (inl (t, r))))))))) => EvProcesses t r
  | inr (inr (inr (inr (inr (inr (inr (inr (inr (inl m))))))))) => EvTopError m
  | inr (inr (inr (inr (inr (inr (inr (inr (inr (inr g))))))))) => EvStatsSample (tuple_stats g)
  end.
Lemma sum_event_sum k : sum_event (event_sum k) = k.
Proof. by destruct k as [| | | | | | | | | |[]]. Qed.

Abbreviation ExecTuple := (list string * string * gmap string string * bool * string * bool)%type.
Abbreviation LimitsTuple := (option Z * option Z * option Z * option Z * option Z * option string *
  option Z * option string)%type.
Abbreviation RequestSum := (ExecTuple + (bytes + (unit + (unit + (Z * Z + (Z + (string + (string + (bytes +
  (unit + (list string + (unit + (string * list (string * string) + (LimitsTuple + bool))))))))))))))%type.
Definition request_sum (k : RequestKind) : RequestSum :=
  match k with
  | RExec (mkExecMessage a b c d e f) => inl (a, b, c, d, e, f)
  | RStdin d => inr (inl d)
  | RKill => inr (inr (inl tt))
  | RPing => inr (inr (inr (inl tt)))
  | RResize r c => inr (inr (inr (inr (inl (r, c)))))
  | RSignal n => inr (inr (inr (inr (inr (inl n)))))
  | RPutArchive p => inr (inr (inr (inr (inr (inr (inl p))))))
  | RGetArchive p => inr (inr (inr (inr (inr (inr (inr (inl p)))))))
  | RArchiveChunk d => inr (inr (inr (inr (inr (inr (inr (inr (inl d))))))))
  | RArchiveEnd => inr (inr (inr (inr (inr (inr (inr (inr (inr (inl tt)))))))))
  | RTop l => inr (inr (inr (inr (inr (inr (inr (inr (inr (inr (inl l))))))))))
  | RStats => inr (inr (inr (inr (inr (inr (inr (inr (inr (inr (inr (inl tt)))))))))))
  | RPutSecrets u fs => inr (inr (inr (inr (inr (inr (inr (inr (inr (inr (inr (inr (inl
      (u, (λ f, (secret_file_name f, content f)) <$> fs)))))))))))))
  | RSetLimits (mkSetLimits a b c d e f g h) =>
      inr (inr (inr (inr (inr (inr (inr (inr (inr (inr (inr (inr (inr (inl (a, b, c, d, e, f, g, h))))))))))))))
  | RFreeze b => inr (inr (inr (inr (inr (inr (inr (inr (inr (inr (inr (inr (inr (inr b)))))))))))))
  end.
Definition sum_request (x : RequestSum) : RequestKind :=
  match x with
  | inl (a, b, c, d, e, f) => RExec (mkExecMessage a b c d e f)
  | inr (inl d) => RStdin d
  | inr (inr (inl _)) => RKill
  | inr (inr (inr (inl _))) => RPing
  | inr (inr (inr (inr (inl (r, c))))) => RResize r c
  | inr (inr (inr (inr (inr (inl n))))) => RSignal n
  | inr (inr (inr (inr (inr (inr (inl p)))))) => RPutArchive p
  | inr (inr (inr (inr (inr (inr (inr (inl p))))))) => RGetArchive p
  | inr (inr (inr (inr (inr (inr (inr (inr (inl d)))))))) => RArchiveChunk d
  | inr (inr (inr (inr (inr (inr (inr (inr (inr (inl _))))))))) => RArchiveEnd
  | inr (inr (inr (inr (inr (inr (inr (inr (inr (inr (inl l)))))))))) => RTop l
  | inr (inr (inr (inr (inr (inr (inr (inr (inr (inr (inr (inl _))))))))))) => RStats
  | inr (inr (inr (inr (inr (inr (inr (inr (inr (inr (inr (inr (inl (u, fs))))))))))))) =>
      RPutSecrets u ((λ f, mkSecret f.1 f.2) <$> fs)
  | inr (inr (inr (inr (inr (inr (inr (inr (inr (inr (inr (inr (inr (inl (a, b, c, d, e, f, g, h)))))))))))))) =>
      RSetLimits (mkSetLimits a b c d e f g h)
  | inr (inr (inr (inr (inr (inr (inr (inr (inr (inr (inr (inr (inr (inr b))))))))))))) => RFreeze b
  end.
Lemma sum_request_sum k : sum_request (request_sum k) = k.
Proof.
  destruct k as [[]| | | | | | | | | | | |u fs|[]|]; try done. cbn. f_equal. rewrite <- list_fmap_compose.
  induction fs as [|[] fs IH]; [done|]. cbn. by rewrite IH.
Qed.

(** The binary digits of a number, as bytes. *)
Fixpoint pos_bytes (p : positive) : bytes :=
  match p with
  | xH => []
  | xO p => Byte.x00 :: pos_bytes p
  | xI p => Byte.x01 :: pos_bytes p
  end.
Fixpoint bytes_pos (l : bytes) : positive :=
  match l with
  | [] => xH
  | Byte.x00 :: l => xO (bytes_pos l)
  | _ :: l => xI (bytes_pos l)
  end.
Lemma bytes_pos_bytes p : bytes_pos (pos_bytes p) = p.
Proof. induction p as [p IH|p IH|]; cbn; by rewrite ?IH. Qed.

(** ** The encoder *)

Definition to_unsigned (z : Z) : Z := z mod 2 ^ 32.
Definition to_signed (z : Z) : Z := if z <? 2 ^ 31 then z else z - 2 ^ 32.
Lemma to_signed_unsigned z : in_i32 z → to_signed (to_unsigned z) = z.
Proof.
  unfold in_i32, to_signed, to_unsigned. intros Hz. destruct (decide (0 ≤ z)).
  - rewrite Z.mod_small by lia. rewrite (proj2 (Z.ltb_lt _ _)) by lia. done.
  - replace (z mod 2 ^ 32) with (z + 2 ^ 32) by (rewrite <- (Z.mod_add z 1), Z.mod_small by lia; lia).
    rewrite (proj2 (Z.ltb_ge _ _)) by lia. lia.
Qed.
Definition i32_bytes (z : Z) : bytes := to_be_bytes (to_unsigned z).
Definition bytes_i32 (l : bytes) : Z := to_signed (from_be_bytes l).
Lemma bytes_i32_bytes z : in_i32 z → bytes_i32 (i32_bytes z) = z.
Proof.
  intros Hz. unfold bytes_i32, i32_bytes. rewrite from_to_be_bytes; [by apply to_signed_unsigned|].
  unfold in_u32, to_unsigned. apply Z.mod_pos_bound. lia.
Qed.
Definition u64_bytes (z : Z) : bytes := to_be_bytes (z / 2 ^ 32) ++ to_be_bytes (z mod 2 ^ 32).
Definition bytes_u64 (l : bytes) : Z := from_be_bytes (take 4 l) * 2 ^ 32 + from_be_bytes (drop 4 l).
Lemma bytes_u64_bytes z : in_u64 z → bytes_u64 (u64_bytes z) = z.
Proof.
  unfold in_u64. intros Hz. unfold bytes_u64, u64_bytes. rewrite take_app_length', drop_app_length' by done.
  rewrite !from_to_be_bytes.
  - pose proof (Z.div_mod z (2 ^ 32)). lia.
  - unfold in_u32. apply Z.mod_pos_bound. lia.
  - unfold in_u32. split; [apply Z.div_pos; lia|]. apply Z.div_lt_upper_bound; lia.
Qed.

Definition is_i32 (z : Z) : bool := (- 2 ^ 31 <=? z) && (z <? 2 ^ 31).
Definition is_u32 (z : Z) : bool := (0 <=? z) && (z <? 2 ^ 32).
Definition is_u64 (z : Z) : bool := (0 <=? z) && (z <? 2 ^ 64).
Lemma is_i32_spec z : is_i32 z = true ↔ in_i32 z.
Proof. unfold is_i32, in_i32. lia. Qed.
Lemma is_u32_spec z : is_u32 z = true ↔ in_u32 z.
Proof. unfold is_u32, in_u32. lia. Qed.
Lemma is_u64_spec z : is_u64 z = true ↔ in_u64 z.
Proof. unfold is_u64, in_u64. lia. Qed.

Definition plain_request (k : option RequestKind) : bytes :=
  Byte.x00 :: pos_bytes (encode (option_map request_sum k)).
Definition code_request (k : option RequestKind) : bytes :=
  match k with
  | Some (RArchiveChunk d) => Byte.x01 :: d
  | Some (RStdin d) => Byte.x02 :: d
  | Some (RResize r c) =>
      if is_u32 r && is_u32 c then Byte.x03 :: to_be_bytes r ++ to_be_bytes c else plain_request k
  | Some (RSignal n) => if is_i32 n then Byte.x04 :: i32_bytes n else plain_request k
  | _ => plain_request k
  end.
Definition read_request (l : bytes) : option (option RequestKind) :=
  match l with
  | Byte.x00 :: l => option_map (option_map sum_request) (decode (A := option RequestSum) (bytes_pos l))
  | Byte.x01 :: l => Some (Some (RArchiveChunk l))
  | Byte.x02 :: l => Some (Some (RStdin l))
  | Byte.x03 :: l => Some (Some (RResize (from_be_bytes (take 4 l)) (from_be_bytes (drop 4 l))))
  | Byte.x04 :: l => Some (Some (RSignal (bytes_i32 l)))
  | _ => None
  end.

Definition plain_event (k : option EventKind) : bytes := Byte.x00 :: pos_bytes (encode (option_map event_sum k)).
Definition code_event (k : option EventKind) : bytes :=
  match k with
  | Some (EvArchiveChunk d) => Byte.x01 :: d
  | Some (EvData s d) => if is_i32 s then Byte.x02 :: i32_bytes s ++ d else plain_event k
  | Some (EvExited a b c) =>
      if is_i32 a && is_i32 b && is_u64 c then Byte.x03 :: i32_bytes a ++ i32_bytes b ++ u64_bytes c
      else plain_event k
  | _ => plain_event k
  end.
Definition read_event (l : bytes) : option (option EventKind) :=
  match l with
  | Byte.x00 :: l => option_map (option_map sum_event) (decode (A := option EventSum) (bytes_pos l))
  | Byte.x01 :: l => Some (Some (EvArchiveChunk l))
  | Byte.x02 :: l => Some (Some (EvData (bytes_i32 (take 4 l)) (drop 4 l)))
  | Byte.x03 :: l =>
      Some (Some (EvExited (bytes_i32 (take 4 l)) (bytes_i32 (take 4 (drop 4 l))) (bytes_u64 (drop 8 l))))
  | _ => None
  end.

#[export] Instance plain_codec : Codec := {
  encode_request := code_request;
  decode_request := read_request;
  encode_event := code_event;
  decode_event := read_event;
}.

Lemma plain_request_reads k : read_request (plain_request k) = Some k.
Proof.
  cbn. rewrite bytes_pos_bytes, decode_encode. cbn. destruct k as [k|]; [|done]. cbn. by rewrite sum_request_sum.
Qed.
Lemma plain_event_reads k : read_event (plain_event k) = Some k.
Proof.
  cbn. rewrite bytes_pos_bytes, decode_encode. cbn. destruct k as [k|]; [|done]. cbn. by rewrite sum_event_sum.
Qed.

#[export] Instance plain_codec_laws : CodecLaws plain_codec.
Proof.
  split; cbn [encode_request decode_request encode_event decode_event plain_codec].
  - intros k. destruct k as [| | | |r c|n| | | | | | | | |]; try (apply plain_request_reads || done); cbn [code_request].
    + destruct (is_u32 r && is_u32 c) eqn:H; [|apply plain_request_reads].
      apply andb_true_iff in H as [Hr%is_u32_spec Hc%is_u32_spec].
      unfold read_request. rewrite take_app_length', drop_app_length' by done. by rewrite !from_to_be_bytes.
    + destruct (is_i32 n) eqn:H; [|apply plain_request_reads]. apply is_i32_spec in H.
      unfold read_request. by rewrite bytes_i32_bytes.
  - intros k. destruct k as [| |a b c| |s d| | | | | |]; try (apply plain_event_reads || done); cbn [code_event].
    + destruct (is_i32 a && is_i32 b && is_u64 c) eqn:H; [|apply plain_event_reads].
      apply andb_true_iff in H as [[Ha%is_i32_spec Hb%is_i32_spec]%andb_true_iff Hc%is_u64_spec].
      unfold read_event. rewrite take_app_length', drop_app_length' by done.
      rewrite take_app_length' by done.
      assert (drop 8 (i32_bytes a ++ i32_bytes b ++ u64_bytes c) = u64_bytes c) as -> by done.
      by rewrite !bytes_i32_bytes, bytes_u64_bytes.
    + destruct (is_i32 s) eqn:H; [|apply plain_event_reads]. apply is_i32_spec in H.
      unfold read_event. rewrite take_app_length', drop_app_length' by done. by rewrite bytes_i32_bytes.
  - intros k. destruct k; try done; cbn [code_request]; by case_match.
  - intros k. destruct k; try done; cbn [code_event]; by case_match.
  - intros d _. cbn. lia.
  - intros d _. cbn. lia.
  - intros r c Hr%is_u32_spec Hc%is_u32_spec. cbn [code_request]. rewrite Hr, Hc. cbn. lia.
  - intros n Hn%is_i32_spec. cbn [code_request]. rewrite Hn. cbn. lia.
  - intros d _. cbn. lia.
  - intros a b c Ha%is_i32_spec Hb%is_i32_spec Hc%is_u64_spec. cbn [code_event]. rewrite Ha, Hb, Hc. cbn. lia.
  - intros s d Hs%is_i32_spec _. cbn [code_event]. rewrite Hs. cbn. lia.
Qed.
