(* ===== verification/GuestAgent.v ===== *)
(** * GuestAgent: the agent inside the guest, and both ends together

    Models the connection handling of [ward-agent/src/lib.rs] and the transfer
    loops of [ward-agent/src/archive.rs]: the frames (the agent has its own
    copy), what it does with the frames of a process, what it reports of its
    output and exit, and how uploads and downloads are cut into chunks.  The
    child, the file system and the kernel are arguments.  The theorems run it
    against the daemon's side of file Agent. *)

From stdpp Require Import base list numbers option strings pretty gmap.
From Stdlib Require Import ZArith Lia Ascii.
From S2P Require Import Prelude Text Utf8 Tokio Protocol Output Validate Archive Guest Manager Relay Exec Calls Agent Codec User.

Local Open Scope Z_scope.

(** ** Frames *)

Definition GUEST_MAX_FRAME_BYTES : Z := 2 * 1024 * 1024.
Definition guest_read_frame (r : Reader) : result (option bytes) IoError * Reader :=
  match read_exact 4 r with
  | (Err e, r) => (if decide (io_kind e = IoUnexpectedEof) then Ok None else Err e, r)
  | (Ok len_buf, r) =>
      let len := from_be_bytes len_buf in
      if len =? 0 then (Err (mkIo IoInvalidData "frame length must be non-zero"), r)
      else if len >? GUEST_MAX_FRAME_BYTES then
        (Err (mkIo IoInvalidData ("frame too large: " +:+ pretty len +:+ " bytes (max " +:+
                                  pretty GUEST_MAX_FRAME_BYTES +:+ ")")), r)
      else
        match read_exact (Z.to_nat len) r with
        | (Err e, r) => (Err e, r)
        | (Ok buf, r) => (Ok (Some buf), r)
        end
  end.
Definition guest_write_frame (payload : bytes) (w : Writer) : result unit IoError * Writer :=
  if bool_decide (payload = []) then (Err (mkIo IoInvalidInput "frame payload must be non-empty"), w) else
  match try_u32 (Z.of_nat (length payload)) with
  | None => (Err (mkIo IoInvalidInput "frame exceeds u32"), w)
  | Some len =>
      if len >? GUEST_MAX_FRAME_BYTES then
        (Err (mkIo IoInvalidInput ("frame too large to write: " +:+ pretty len +:+ " bytes (max " +:+
                                   pretty GUEST_MAX_FRAME_BYTES +:+ ")")), w)
      else write_all (to_be_bytes len ++ payload) w
  end.

(** ** Events *)

Definition READ_CHUNK_BYTES : Z := 16 * 1024.
Definition OOM_REREADS : nat := 5.
Definition EXIT_NOT_INVOKABLE : Z := 126.
Definition EXIT_NOT_FOUND : Z := 127.
Definition EXIT_UNKNOWN : Z := -1.
Definition WAIT_STATUS_CODE_SHIFT : Z := 8.

Definition stream_tag (s : RawStream) : Z := match s with Stdout => 1 | Stderr => 2 end.
Definition line_event (s : RawStream) (text : string) : EventKind :=
  match s with Stderr => EvStderr text | Stdout => EvStdout text end.
Definition data_event (s : RawStream) (data : bytes) : EventKind := EvData (stream_tag s) data.
Definition stderr_event (text : string) : EventKind := line_event Stderr text.
Definition exited_event (code wait_status : Z) : EventKind := EvExited code wait_status 0.
Definition synthetic_exit_event (code : Z) : EventKind :=
  exited_event code (Z.shiftl (Z.land code 255) WAIT_STATUS_CODE_SHIFT).

(** [ExitStatus::code] and [ExitStatus::signal] of a raw wait status. *)
Definition status_code (raw : Z) : option Z :=
  if Z.land raw 127 =? 0 then Some (Z.land (Z.shiftr raw 8) 255) else None.
Definition status_signal (raw : Z) : option Z :=
  let s := Z.land raw 127 in if (s =? 0) || (s =? 127) then None else Some s.

Definition exit_event (status : option Z) (oom_kills : Z) : EventKind :=
  match status with
  | Some raw => EvExited (default EXIT_UNKNOWN (status_code raw)) raw oom_kills
  | None =>
      match synthetic_exit_event EXIT_UNKNOWN with
      | EvExited code wait_status _ => EvExited code wait_status oom_kills
      | e => e
      end
  end.

(** The loop of [settled_oom_kills]: the kills counted by one reading, and by
    the readings that may follow. *)
Fixpoint settle (rereads : nat) (killed : bool) (kills : Z) (later : list Z) : Z :=
  match rereads with
  | O => kills
  | S rereads =>
      if (kills >? 0) || negb killed then kills
      else match later with [] => kills | k :: later => settle rereads killed k later end
  end.
Definition settled_oom_kills (first : Z) (later : list Z) (status : option Z) : Z :=
  settle OOM_REREADS (bool_decide (status ≫= status_signal = Some 9)) first later.

(** ** Starting a process *)

Section start.
(** Which paths exist, and which are directories. *)
Context (path_exists is_dir : string → bool) (agent_path : option string).

Definition command_file_exists (e : ExecMessage) : bool :=
  let cmd := hd "" (x_command e) in
  if contains "/" cmd then path_exists cmd else
  let path := default (default "" agent_path) (x_env e !! "PATH") in
  existsb (λ dir, path_exists (if is_empty dir then cmd else dir +:+ "/" +:+ cmd)) (split ":" path).

Definition spawn_failure_exit_code (e : ExecMessage) (err : IoError) : Z :=
  if negb (bool_decide (io_kind err = IoNotFound)) then EXIT_NOT_INVOKABLE else
  let workdir_missing := negb (is_empty (x_working_dir e)) && negb (is_dir (x_working_dir e)) in
  if workdir_missing || command_file_exists e then EXIT_NOT_INVOKABLE else EXIT_NOT_FOUND.
End start.

Definition load_identity (spec : string) (passwd group : result string UserError)
    : result (option Identity) UserError :=
  if is_empty spec then Ok None else
  let? p := passwd in let? g := group in
  let? i := resolve_user spec p g in Ok (Some i).
Definition with_group_add (names : list string) (group : result string UserError) (i : option Identity)
    : result (option Identity * list Z) UserError :=
  match names with
  | [] => Ok (i, [])
  | _ =>
      let? g := group in
      let? gids := resolve_group_add names g in
      Ok (match i with Some i => (Some (add_groups i gids), []) | None => (None, gids) end)
  end.

(** A child that runs: what reading its outputs gives, [None] for an error and
    [Some []] at the end, how much of it a pty lets drain, its wait status and
    the counts of OOM kills. *)
Record Child := mkChild {
  ch_stdout : list (option bytes);
  ch_stderr : list (option bytes);
  ch_drained : nat;
  ch_status : option Z;
  ch_oom : Z;
  ch_oom_later : list Z;
}.
(** A spawn fails with an error number, perhaps marked with a step, or with an
    error that has none. *)
Inductive SpawnError := SpawnOs (code : Z) | SpawnOther (e : IoError).

(** ** Output *)

Fixpoint pump_raw (s : RawStream) (reads : list (option bytes)) : list EventKind :=
  match reads with
  | Some (b :: data) :: reads => data_event s (b :: data) :: pump_raw s reads
  | _ => []
  end.
(** The bytes up to the end or an error. *)
Fixpoint read_to_end (reads : list (option bytes)) : bytes :=
  match reads with
  | Some (b :: data) :: reads => (b :: data) ++ read_to_end reads
  | _ => []
  end.
(** [Lines::next_line] until it has none: a line that is not UTF-8 is an error
    and ends the pump. *)
Fixpoint valid_lines (l : list string) : list string :=
  match l with
  | line :: l =>
      match from_utf8 (chars line) with None => line :: valid_lines l | Some _ => [] end
  | [] => []
  end.
Definition pump_lines (s : RawStream) (reads : list (option bytes)) : list EventKind :=
  line_event s <$> valid_lines (lines (String.string_of_list_byte (read_to_end reads))).
Definition pump_output (s : RawStream) (raw : bool) (reads : list (option bytes)) : list EventKind :=
  if raw then pump_raw s reads else pump_lines s reads.

(** The order in which the two pumps send: [true] is the first one's turn. *)
Fixpoint merge {A} (turns : list bool) (l k : list A) : list A :=
  match turns, l, k with
  | true :: turns, x :: l, _ => x :: merge turns l k
  | false :: turns, _, y :: k => y :: merge turns l k
  | true :: turns, [], _ | false :: turns, _, [] => merge turns l k
  | [], _, _ => l ++ k
  end.

(** ** The run of a process *)

Section run.
Context (path_exists is_dir : string → bool) (agent_path : option string).
(** What the system says of an error number. *)
Context (os_error : Z → IoError).
Context (passwd group : result string UserError) (child_groups : list string).
Context (spawn : ExecMessage → option Identity → list Z → result Child SpawnError).

Definition end_without_process (message : string) (code : Z) : list EventKind :=
  [stderr_event message; synthetic_exit_event code].

Definition spawn_failed (e : ExecMessage) (err : SpawnError) : list EventKind :=
  let '(step, err) := match err with
                      | SpawnOs code => let '(s, n) := untag code in (s, os_error n)
                      | SpawnOther err => (None, err)
                      end in
  end_without_process
    (match step with
     | Some s => "spawn failed at " +:+ step_name s +:+ ": " +:+ io_text err
     | None => "spawn failed: " +:+ io_text err
     end) (spawn_failure_exit_code path_exists is_dir agent_path e err).

(** The output, drained, and then the exit. *)
Definition child_events (e : ExecMessage) (ch : Child) (turns : list bool) : list EventKind :=
  let raw := x_tty e || x_raw e in
  (if x_tty e then take (ch_drained ch) (pump_output Stdout raw (ch_stdout ch))
   else merge turns (pump_output Stdout raw (ch_stdout ch)) (pump_output Stderr raw (ch_stderr ch))) ++
  [exit_event (ch_status ch) (settled_oom_kills (ch_oom ch) (ch_oom_later ch) (ch_status ch))].

(** What [run_process] sends to its writer. *)
Definition process_events (e : ExecMessage) (turns : list bool) : list EventKind :=
  match x_command e with
  | [] => end_without_process "empty command" EXIT_UNKNOWN
  | _ =>
      match load_identity (x_user e) passwd group with
      | Err err => end_without_process (user_error_text err) EXIT_NOT_INVOKABLE
      | Ok i =>
          match with_group_add child_groups group i with
          | Err err => end_without_process (user_error_text err) EXIT_NOT_INVOKABLE
          | Ok (i, root_groups) =>
              match spawn e i root_groups with
              | Err err => spawn_failed e err
              | Ok ch => child_events e ch turns
              end
          end
      end
  end.

Context `{C : Codec}.

(** The writer task: the first frame that cannot be written ends it. *)
Fixpoint write_events (evs : list EventKind) (w : Writer) : Writer :=
  match evs with
  | [] => w
  | ev :: evs =>
      match guest_write_frame (encode_event (Some ev)) w with
      | (Ok _, w) => write_events evs w
      | (Err _, w) => w
      end
  end.
Definition run_process (e : ExecMessage) (turns : list bool) (w : Writer) : Writer :=
  write_events (process_events e turns) w.

End run.

(** ** Frames for a running process *)

(** What the frames did: chunks queued for its input, signals sent to its
    group, sizes set on its pty. *)
Record Control := mkControl { queued : list bytes; signals : list Z; sizes : list (Z * Z) }.

Section control.
Context `{C : Codec}.
(** Signal numbers the system names, and whether the process has a pty. *)
Context (named : Z → bool) (pty : bool).

Definition apply_request (k : RequestKind) (c : Control) : Control :=
  match k with
  | RStdin data => mkControl (queued c ++ [data]) (signals c) (sizes c)
  | RKill => mkControl (queued c) (signals c ++ [9]) (sizes c)
  | RSignal n => if named n then mkControl (queued c) (signals c ++ [n]) (sizes c) else c
  | RResize rows cols => if pty then mkControl (queued c) (signals c) (sizes c ++ [(rows, cols)]) else c
  | _ => c
  end.

(** The frame task; the fuel bounds the frames. *)
Fixpoint frame_loop (fuel : nat) (r : Reader) (c : Control) : Control :=
  match fuel with
  | O => c
  | S fuel =>
      match guest_read_frame r with
      | (Ok (Some frame), r) =>
          match decode_request frame with
          | None => c
          | Some None => frame_loop fuel r c
          | Some (Some k) => frame_loop fuel r (apply_request k c)
          end
      | _ => c
      end
  end.
Definition frame_task (r : Reader) : Control := frame_loop (length (rd_bytes r)) r (mkControl [] [] []).
End control.

(** [spawn_stdin_writer]: what reaches the child, and whether its input was
    closed; [accepts] chunks are written before the child's input fails. *)
Fixpoint stdin_writer (accepts : nat) (queue : list bytes) (written : bytes) {struct queue} : bytes * bool :=
  match queue with
  | [] => (written, false)
  | [] :: _ => (written, true)
  | chunk :: queue =>
      match accepts with
      | O => (written, false)
      | S accepts => stdin_writer accepts queue (written ++ chunk)
      end
  end.

(** ** Transfers *)

Definition CHUNK_BYTES : Z := 256 * 1024.

(** [Scope::locate]: the path below the root of the transfers. *)
Definition locate (path : string) : result (list string) IoError :=
  refuse_if (negb (starts_with "/" path) ||
             existsb (λ c, match c with ParentDir => true | _ => false end) (path_components path))
    (mkIo IoInvalidInput ("guest path must be absolute without `..`: " +:+ path)) ;?
  Ok (normal_components path).

(** The number of an [ArchiveErrorKind]. *)
Definition error_kind (e : IoError) : Z :=
  match io_kind e with
  | IoNotFound => 1
  | IoInvalidInput | IoInvalidData => 2
  | _ => 3
  end.
Definition archive_io (e : ArchiveError) : IoError :=
  match e with
  | ArchiveIo source => source
  | Unpack _ _ => mkIo IoOther (archive_error_text e)
  | refused => mkIo IoInvalidData (archive_error_text refused)
  end.
Definition finish_event (outcome : result unit IoError) : EventKind :=
  match outcome with
  | Ok _ => EvArchiveDone
  | Err e => EvArchiveError (io_text e) (error_kind e)
  end.
(** The answer to [PutSecrets], [SetLimits] and [Freeze] gives no kind. *)
Definition answer_event (outcome : result unit IoError) : EventKind :=
  match outcome with
  | Ok _ => EvArchiveDone
  | Err e => EvArchiveError (io_text e) 0
  end.

Section transfer.
Context `{C : Codec}.

(** [feed]: the chunks that reach the unpacker, of which it takes [accepts]
    before it is done, and how the upload ended. *)
Fixpoint feed_loop (fuel : nat) (r : Reader) (accepts : nat) (got : list bytes)
    : result unit IoError * list bytes * Reader :=
  match guest_read_frame r with
  | (Err e, r) => (Err e, got, r)
  | (Ok None, r) => (Err (mkIo IoInvalidInput "archive upload ended without an end frame"), got, r)
  | (Ok (Some frame), r) =>
      match decode_request frame with
      | None => (Err (mkIo IoInvalidData "failed to decode Protobuf message"), got, r)
      | Some (Some (RArchiveChunk data)) =>
          match fuel, accepts with
          | S fuel, S accepts => feed_loop fuel r accepts (got ++ [data])
          | _, _ => (Ok tt, got, r)
          end
      | Some (Some RArchiveEnd) => (Ok tt, got, r)
      | _ => (Err (mkIo IoInvalidInput "unexpected frame during archive upload"), got, r)
      end
  end.
Definition feed (r : Reader) (accepts : nat) : result unit IoError * list bytes * Reader :=
  feed_loop (length (rd_bytes r)) r accepts [].

(** [receive]: what the unpacker made of the chunks wins over the feed. *)
Definition receive_upload (unpack : list bytes → result unit ArchiveError) (accepts : nat) (r : Reader)
    : result unit IoError * Reader :=
  let '(fed, got, r) := feed r accepts in
  (match unpack got with Err e => Err (archive_io e) | Ok _ => fed end, r).

(** [ChunkReader::read]: the chunks not yet read, the current one and the
    position in it; an empty answer is the end. *)
Fixpoint chunk_read (n : nat) (queue : list bytes) (current : bytes) : bytes * list bytes * bytes :=
  match current with
  | _ :: _ => (take n current, queue, drop n current)
  | [] =>
      match queue with
      | [] => ([], [], [])
      | next :: queue => chunk_read n queue next
      end
  end.

(** [ChunkWriter::write]: the chunks it sends and the bytes it still buffers. *)
Definition flush_chunk (buf : bytes) : list bytes * bytes :=
  match buf with [] => ([], []) | _ => ([buf], []) end.
Fixpoint write_parts (parts : list bytes) (buf : bytes) (sent : list bytes) : list bytes * bytes :=
  match parts with
  | [] => (sent, buf)
  | part :: parts =>
      let buf := buf ++ part in
      if CHUNK_BYTES <=? Z.of_nat (length buf)
      then let '(chunk, buf) := flush_chunk buf in write_parts parts buf (sent ++ chunk)
      else write_parts parts buf sent
  end.
Definition chunk_write (data buf : bytes) : list bytes * bytes :=
  write_parts (chunks_of (length data) (Z.to_nat CHUNK_BYTES) data) buf [].
(** A packer's writes, then the flush at its end. *)
Fixpoint pack_chunks (writes : list bytes) (buf : bytes) : list bytes :=
  match writes with
  | [] => (flush_chunk buf).1
  | data :: writes => let '(sent, buf) := chunk_write data buf in sent ++ pack_chunks writes buf
  end.
(** [transmit] and [get]: the chunks, then how the packer ended. *)
Definition get_events (writes : list bytes) (outcome : result unit IoError) : list EventKind :=
  (EvArchiveChunk <$> pack_chunks writes []) ++ [finish_event outcome].
End transfer.

(** ** The two copies of the frames agree *)

Lemma guest_read_frame_eq r : guest_read_frame r = read_frame r.
Proof. reflexivity. Qed.
Lemma guest_write_frame_eq p w : guest_write_frame p w = write_frame p w.
Proof.
  unfold guest_write_frame, write_frame, frame_error, frame_of. case_bool_decide; [done|]. cbn [refuse_if rbind].
  destruct (try_u32 _) as [n|] eqn:Hn; [|done]. cbn [ok_or rbind].
  assert (n = Z.of_nat (length p)) as -> by (unfold try_u32 in Hn; case_match; congruence).
  unfold GUEST_MAX_FRAME_BYTES, MAX_FRAME_BYTES. by case_match.
Qed.

(** ** Exit codes

    What a shell would report of a wait status. *)
Definition shell_code (raw : Z) : Z := default (128 + Z.land raw 127) (status_code raw).
(** The code the daemon reports for an event of the agent. *)
Definition reported_code (k : EventKind) : option Z :=
  ev ← inbound_event (Some k); decode_wait_status <$> event_wait_status (se_wait_status ev) (se_exit_code ev).

(** The exit code a client sees is the one the process left in the guest:
    its own code when it exited, 128 and the signal when one ended it, whatever
    the wait status; 126 and 127 for a command that could not be started; 255
    when the agent could not learn the status or was given no command. *)
Theorem exit_code_end_to_end :
  (∀ raw kills, reported_code (exit_event (Some raw) kills) = Some (shell_code raw)) ∧
  (∀ kills, reported_code (exit_event None kills) = Some 255) ∧
  (∀ code, -256 < code < 256 → reported_code (synthetic_exit_event code) = Some (code mod 256)).
Proof.
  split; [|split].
  - intros raw kills. unfold reported_code, exit_event, inbound_event, raw_wait_status. cbn.
    assert (Hn : raw ≠ 0 ∨ default EXIT_UNKNOWN (status_code raw) = 0).
    { destruct (decide (raw = 0)) as [->|]; [by right|by left]. }
    destruct (negb (raw =? 0) || (default EXIT_UNKNOWN (status_code raw) =? 0)) eqn:Hb; cbn.
    + f_equal. unfold decode_wait_status, shell_code, status_code.
      unfold WAIT_STATUS_SIGNAL_MASK, WAIT_STATUS_EXIT_SHIFT, WAIT_STATUS_EXIT_MASK, SIGNAL_EXIT_BASE.
      by destruct (Z.land raw 127 =? 0).
    + apply orb_false_iff in Hb as [Hb1 Hb2]. apply negb_false_iff in Hb1. lia.
  - intros kills. vm_compute. reflexivity.
  - intros code Hc. unfold reported_code, synthetic_exit_event, exited_event, inbound_event, raw_wait_status.
    assert (Hl : Z.land code 255 = code mod 256) by (change 255 with (Z.ones 8); by rewrite Z.land_ones).
    rewrite Hl. unfold WAIT_STATUS_CODE_SHIFT. rewrite Z.shiftl_mul_pow2 by lia.
    pose proof (Z.mod_pos_bound code 256 ltac:(lia)) as Hm. change (2 ^ 8) with 256. cbn.
    assert (Hd : ∀ z, 0 ≤ z < 256 → decode_wait_status (z * 256) = z).
    { intros z Hz. unfold decode_wait_status, WAIT_STATUS_SIGNAL_MASK, WAIT_STATUS_EXIT_SHIFT, WAIT_STATUS_EXIT_MASK.
      change 127 with (Z.ones 7). change 255 with (Z.ones 8).
      rewrite Z.land_ones, Z.shiftr_div_pow2, Z.land_ones by lia. change (2 ^ 8) with 256. change (2 ^ 7) with 128.
      replace (z * 256) with (z * 2 * 128) at 1 by lia. rewrite Z.mod_mul, Z.div_mul, Z.mod_small by lia. done. }
    destruct (negb (code mod 256 * 256 =? 0) || (code =? 0)) eqn:Hb; cbn; [by rewrite Hd|].
    apply orb_false_iff in Hb as [Hb1%negb_false_iff Hb2]. exfalso.
    assert (code mod 256 = 0) by lia. apply Z.mod_divide in H as [k Hk]; [|lia]. lia.
Qed.

(** ** Output *)

Section end_to_end.
Context `{C : Codec} `{!CodecLaws C}.

Definition event_fits (k : EventKind) : Prop := frame_ok (encode_event (Some k)).

Lemma write_events_ok evs w :
  wr_faults w = [] → Forall event_fits evs →
  wr_bytes (write_events evs w) = wr_bytes w ++ concat (frame_of <$> (encode_event ∘ Some <$> evs)).
Proof.
  intros Hw Hf. revert w Hw. induction Hf as [|ev evs Hev Hevs IH]; intros w Hw; cbn [write_events].
  { cbn. by rewrite app_nil_r. }
  rewrite guest_write_frame_eq, write_frame_ok by done. rewrite IH by done.
  rewrite !fmap_cons. cbn [wr_bytes concat]. by rewrite app_assoc.
Qed.

(** What the daemon's reader makes of the events an agent wrote. *)
Lemma written_events evs n :
  Forall event_fits evs →
  inbound (mkReader (wr_bytes (write_events evs (mkWriter [] []))) None) n =
  take n (upto_exit (omap (inbound_event ∘ Some) evs)).
Proof.
  intros Hf. rewrite write_events_ok by done. cbn [wr_bytes app].
  unfold inbound. rewrite inbound_loop_eq. fold (frames_of (mkReader (concat (frame_of <$> (encode_event ∘ Some <$> evs))) None)).
  rewrite frames_of_frames by (by rewrite Forall_fmap).
  rewrite (decoded_fmap decode_event (encode_event ∘ Some) Some) by (intros; apply event_decodes).
  cbn [app]. do 2 f_equal. induction evs as [|ev evs IH]; [done|]. rewrite fmap_cons. cbn.
  apply Forall_cons in Hf as [_ Hf]. by rewrite IH.
Qed.

(** The bytes of one stream in what a client gets. *)
Definition output_of (s : RawStream) (evs : list StreamEvent) : bytes :=
  evs ≫= λ ev, match se_kind ev with KData s' b => if decide (s' = s) then b else [] | _ => [] end.

Lemma merge_Forall {A} (P : A → Prop) turns l k : Forall P l → Forall P k → Forall P (merge turns l k).
Proof.
  revert l k. induction turns as [|[] turns IH]; intros l k Hl Hk; cbn [merge].
  - by apply Forall_app.
  - destruct l as [|x l]; [by apply IH|]. apply Forall_cons in Hl as [Hx Hl]. constructor; [done|]. by apply IH.
  - destruct k as [|y k]; [by apply IH|]. apply Forall_cons in Hk as [Hy Hk]. constructor; [done|]. by apply IH.
Qed.
Lemma bind_nothing {A B} (f : A → list B) l : Forall (λ x, f x = []) l → l ≫= f = [].
Proof. induction 1 as [|x l Hx Hl IH]; [done|]. by rewrite bind_cons, Hx, IH. Qed.
(** Taking one side's share out of a merge. *)
Lemma merge_bind_l {A B} (f : A → list B) turns l k :
  Forall (λ x, f x = []) k → merge turns l k ≫= f = l ≫= f.
Proof.
  revert l k. induction turns as [|[] turns IH]; intros l k Hk; cbn [merge].
  - by rewrite bind_app, (bind_nothing f k), app_nil_r.
  - destruct l as [|x l]; [by apply IH|]. rewrite !bind_cons. by rewrite IH.
  - destruct k as [|y k]; [by apply IH|]. apply Forall_cons in Hk as [Hy Hk]. rewrite bind_cons, Hy. by apply IH.
Qed.
Lemma merge_bind_r {A B} (f : A → list B) turns l k :
  Forall (λ x, f x = []) l → merge turns l k ≫= f = k ≫= f.
Proof.
  revert l k. induction turns as [|[] turns IH]; intros l k Hl; cbn [merge].
  - by rewrite bind_app, (bind_nothing f l).
  - destruct l as [|x l]; [by apply IH|]. apply Forall_cons in Hl as [Hx Hl]. rewrite bind_cons, Hx. by apply IH.
  - destruct k as [|y k]; [by apply IH|]. rewrite !bind_cons. by rewrite IH.
Qed.
Lemma length_merge {A} turns (l k : list A) : length (merge turns l k) = (length l + length k)%nat.
Proof.
  revert l k. induction turns as [|[] turns IH]; intros l k; cbn [merge]; [apply length_app|..].
  - destruct l as [|x l]; [by rewrite IH|]. cbn. by rewrite IH.
  - destruct k as [|y k]; [by rewrite IH|]. cbn. rewrite IH. cbn. lia.
Qed.

(** Data of some stream. *)
Definition is_data (k : EventKind) : Prop := ∃ s d, k = data_event s d.
Definition data_of (s : RawStream) (k : EventKind) : bytes :=
  match k with EvData t d => if decide (t = stream_tag s) then d else [] | _ => [] end.

Lemma pump_raw_spec s reads :
  Forall is_data (pump_raw s reads) ∧ (length (pump_raw s reads) ≤ length reads)%nat ∧
  pump_raw s reads ≫= data_of s = read_to_end reads ∧
  ∀ s', s' ≠ s → Forall (λ k, data_of s' k = []) (pump_raw s reads).
Proof.
  induction reads as [|[[|b d]|] reads (IH1 & IH2 & IH3 & IH4)]; cbn [pump_raw read_to_end];
    try (split_and!; [constructor|cbn; lia|done|intros; constructor]).
  split_and!; [by constructor; [eexists _, _|]|cbn; lia| |].
  - rewrite bind_cons, IH3. unfold data_of at 1, data_event. by rewrite decide_True.
  - intros s' Hs'. constructor; [|by apply IH4]. unfold data_of, data_event. rewrite decide_False; [done|].
    by destruct s, s'.
Qed.
Lemma pump_raw_fits s reads :
  (∀ b, Some b ∈ reads → Z.of_nat (length b) ≤ READ_CHUNK_BYTES) → Forall event_fits (pump_raw s reads).
Proof.
  induction reads as [|[[|b d]|] reads IH]; intros Hr; cbn [pump_raw]; try done.
  constructor; [|apply IH; intros; apply Hr; by right].
  split; [apply event_nonempty|]. pose proof (Hr (b :: d) ltac:(by left)) as Hl.
  pose proof (data_size (stream_tag s) (b :: d) ltac:(destruct s; done)) as Hs.
  unfold data_event, MAX_FRAME_BYTES, READ_CHUNK_BYTES in *. specialize (Hs ltac:(lia)). lia.
Qed.
Lemma exit_event_fits status kills :
  (∀ raw, status = Some raw → in_i32 raw) → in_u64 kills → event_fits (exit_event status kills).
Proof.
  intros Hs Hk.
  assert (∃ c w, exit_event status kills = EvExited c w kills ∧ in_i32 c ∧ in_i32 w) as (c & w & -> & Hc & Hw).
  { destruct status as [raw|]; [|by eexists _, _; split; [done|by vm_compute]].
    eexists _, raw. split; [done|]. split; [|by apply Hs]. unfold status_code, EXIT_UNKNOWN, in_i32.
    change 255 with (Z.ones 8). rewrite Z.land_ones by lia.
    pose proof (Z.mod_pos_bound (Z.shiftr raw 8) (2 ^ 8) ltac:(lia)). destruct (_ =? 0); cbn; lia. }
  split; [apply event_nonempty|]. pose proof (exited_size c w kills Hc Hw Hk) as Hl. unfold MAX_FRAME_BYTES. lia.
Qed.

(** The client's view of a run of data. *)
Lemma inbound_data evs :
  Forall is_data evs →
  Forall (λ ev, is_exit ev = false) (omap (inbound_event ∘ Some) evs) ∧
  length (omap (inbound_event ∘ Some) evs) = length evs ∧
  ∀ s, output_of s (omap (inbound_event ∘ Some) evs) = evs ≫= data_of s.
Proof.
  induction 1 as [|k evs (s & d & ->) Hevs (IH1 & IH2 & IH3)]; [done|].
  assert (omap (inbound_event ∘ Some) (data_event s d :: evs) =
    mkStreamEvent (KData s d) "" None None 0 :: omap (inbound_event ∘ Some) evs) as -> by (by destruct s).
  split_and!; [by constructor|cbn; by rewrite IH2|]. intros s'. rewrite bind_cons.
  unfold output_of. rewrite bind_cons. cbn [se_kind]. fold (output_of s' (omap (inbound_event ∘ Some) evs)).
  rewrite IH3. f_equal. unfold data_of, data_event. by destruct s, s'.
Qed.

(** C21: a client gets the output of a process as it was written: when the agent
    streams raw bytes, each of the two outputs arrives whole and in order,
    whatever the reads were, however the two interleave and whatever the bytes,
    and the exit comes after all of them, once and last. *)
Theorem exec_output_end_to_end (path_exists is_dir : string → bool) (agent_path : option string)
    (os_error : Z → IoError) (passwd group : result string UserError) (child_groups : list string)
    (spawn : ExecMessage → option Identity → list Z → result Child SpawnError)
    (e : ExecMessage) (ch : Child) (turns : list bool) (n : nat)
    (started : process_events path_exists is_dir agent_path os_error passwd group child_groups spawn e turns =
      child_events e ch turns)
    (raw : x_raw e = true) (no_tty : x_tty e = false)
    (reads_small : ∀ b, Some b ∈ ch_stdout ch ++ ch_stderr ch → Z.of_nat (length b) ≤ READ_CHUNK_BYTES)
    (wait_status : ∀ raw, ch_status ch = Some raw → in_i32 raw)
    (oom_count : in_u64 (settled_oom_kills (ch_oom ch) (ch_oom_later ch) (ch_status ch)))
    (listens : (length (ch_stdout ch) + length (ch_stderr ch) < n)%nat) :
  let got := inbound (mkReader (wr_bytes (run_process path_exists is_dir agent_path os_error passwd group
    child_groups spawn e turns (mkWriter [] []))) None) n in
  output_of Stdout got = read_to_end (ch_stdout ch) ∧
  output_of Stderr got = read_to_end (ch_stderr ch) ∧
  ∃ body ev, got = body ++ [ev] ∧ Forall (λ x, is_exit x = false) body ∧ is_exit ev = true ∧
    inbound_event (Some (exit_event (ch_status ch)
      (settled_oom_kills (ch_oom ch) (ch_oom_later ch) (ch_status ch)))) = Some ev.
Proof.
  cbn zeta. unfold run_process. rewrite started. unfold child_events. rewrite raw, no_tty. cbn [orb pump_output].
  set (exit := exit_event _ _). set (body := merge turns _ _).
  destruct (pump_raw_spec Stdout (ch_stdout ch)) as (Ho1 & Ho2 & Ho3 & Ho4).
  destruct (pump_raw_spec Stderr (ch_stderr ch)) as (He1 & He2 & He3 & He4).
  assert (Hbody : Forall is_data body) by (by apply merge_Forall).
  assert (Hfit : Forall event_fits (body ++ [exit])).
  { apply Forall_app. split; [|constructor; [by apply exit_event_fits|done]].
    apply merge_Forall; apply pump_raw_fits; intros b Hb; apply reads_small, elem_of_app; auto. }
  destruct (inbound_data body Hbody) as (Hb1 & Hb2 & Hb3).
  assert (∃ ev, inbound_event (Some exit) = Some ev ∧ is_exit ev = true) as (ev & Hev & Hexit).
  { subst exit. destruct (ch_status ch); by eexists. }
  rewrite written_events by done. rewrite omap_app.
  assert (omap (inbound_event ∘ Some) [exit] = [ev]) as -> by (cbn -[inbound_event]; by rewrite Hev).
  rewrite upto_exit_app by done. cbn [upto_exit]. rewrite Hexit.
  rewrite take_ge.
  2:{ rewrite length_app, Hb2. subst body. rewrite length_merge. cbn. lia. }
  assert (Hout : ∀ s, output_of s (omap (inbound_event ∘ Some) body ++ [ev]) = body ≫= data_of s).
  { intros s. unfold output_of at 1. rewrite bind_app. fold (output_of s (omap (inbound_event ∘ Some) body)).
    rewrite Hb3. cbn. destruct (se_kind ev) eqn:Hk; unfold is_exit in Hexit; rewrite Hk in Hexit; try done.
    by rewrite !app_nil_r. }
  rewrite !Hout. split; [|split].
  - subst body. by rewrite merge_bind_l, Ho3 by (by apply He4).
  - subst body. by rewrite merge_bind_r, He3 by (by apply Ho4).
  - by exists (omap (inbound_event ∘ Some) body), ev.
Qed.

(** ** Input and control *)

Lemma frame_loop_eq named pty fuel r c :
  frame_loop named pty fuel r c =
  foldl (λ c k, match k with Some k => apply_request named pty k c | None => c end) c
    (decoded decode_request (frames_loop fuel r)).
Proof.
  revert r c. induction fuel as [|fuel IH]; intros r c; cbn [frame_loop frames_loop]; [done|].
  rewrite guest_read_frame_eq. destruct (read_frame r) as [[[p|]|err] r']; [|done..]. cbn [decoded].
  destruct (decode_request p) as [[k|]|]; [apply IH..|done].
Qed.

Lemma sent_requests named pty l :
  Forall fits l →
  frame_task named pty (mkReader (request_frames l) None) =
  foldl (λ c k, apply_request named pty k c) (mkControl [] [] []) l.
Proof.
  intros Hl. unfold frame_task. rewrite frame_loop_eq. fold (frames_of (mkReader (request_frames l) None)).
  rewrite frames_of_requests by done.
  rewrite (decoded_fmap decode_request (encode_request ∘ Some) Some) by (intros; apply request_decodes).
  by rewrite foldl_fmap.
Qed.

Definition stdin_of (k : RequestKind) : list bytes := match k with RStdin b => [b] | _ => [] end.
Lemma queued_requests named pty l c :
  queued (foldl (λ c k, apply_request named pty k c) c l) = queued c ++ (l ≫= stdin_of).
Proof.
  revert c. induction l as [|k l IH]; intros c; cbn [foldl]; [by rewrite app_nil_r|].
  rewrite IH, bind_cons, app_assoc. f_equal. destruct k; cbn; rewrite ?app_nil_r; try done; by case_match.
Qed.

Lemma stdin_writer_chunks accepts chunks rest written :
  Forall (λ b, b ≠ []) chunks → (length chunks ≤ accepts)%nat →
  ∃ left, stdin_writer accepts (chunks ++ rest) written = stdin_writer left rest (written ++ concat chunks).
Proof.
  intros Hc. revert accepts written. induction Hc as [|b chunks Hb Hc IH]; intros accepts written Ha.
  { exists accepts. cbn. by rewrite app_nil_r. }
  destruct b as [|x b]; [done|]. destruct accepts as [|accepts]; cbn in Ha; [lia|].
  destruct (IH accepts (written ++ x :: b)) as [left Hleft]; [lia|]. exists left.
  cbn [app stdin_writer]. rewrite Hleft. cbn [concat]. by rewrite <- app_assoc.
Qed.

Definition is_chunk (ev : OutEvent) : bool := match ev with OutStdin _ => true | _ => false end.
Lemma out_requests_stdin evs :
  Forall (λ ev, ev ≠ OutStdinClosed ∧ ev ≠ OutKill ∧ ev ≠ OutKillDropped) evs →
  ∀ control rest, out_requests true control (evs ++ rest) ≫= stdin_of =
    (evs ≫= λ ev, match ev with OutStdin b => [b] | _ => [] end) ++
    (out_requests true (control && forallb (λ ev, match ev with OutControlClosed => false | _ => true end) evs)
       rest ≫= stdin_of).
Proof.
  induction 1 as [|ev evs (H1 & H2 & H3) Hevs IH]; intros control rest.
  { cbn. by rewrite andb_true_r. }
  destruct ev as [b| |c| | |]; try done; cbn [app out_requests forallb]; rewrite bind_cons.
  - cbn [app]. rewrite bind_cons. cbn [stdin_of app]. by rewrite IH, andb_true_l.
  - rewrite bind_app, IH. cbn [app andb]. destruct control; [|done]. by destruct c.
  - rewrite IH. by rewrite !andb_false_r.
Qed.

(** The largest message a client can send to the daemon: its server decodes no
    larger one. *)
Definition MAX_DECODE_BYTES : Z := 1572864.
(** What the types of the fields say of a control request. *)
Definition control_ok (c : ProcessControl) : Prop :=
  match c with Resize rows cols => in_u32 rows ∧ in_u32 cols | SignalNumber n => in_i32 n end.
Definition event_ok (ev : OutEvent) : Prop :=
  match ev with
  | OutStdin b => b ≠ [] ∧ Z.of_nat (length b) ≤ MAX_DECODE_BYTES
  | OutControl c => control_ok c
  | OutControlClosed => True
  | OutStdinClosed | OutKill | OutKillDropped => False
  end.

Lemma stdin_fits b : Z.of_nat (length b) ≤ MAX_DECODE_BYTES → fits (RStdin b).
Proof.
  intros Hb. split; [apply request_nonempty|]. pose proof (request_stdin_size b) as Hs.
  unfold MAX_FRAME_BYTES, MAX_DECODE_BYTES in *. lia.
Qed.
Lemma control_fits c : control_ok c → fits (control_request c).
Proof.
  intros Hc. split; [apply request_nonempty|].
  assert (length (encode_request (Some (control_request c))) ≤ 64)%nat as Hs.
  { destruct c as [rows cols|n]; [destruct Hc; by apply request_resize_size|by apply request_signal_size]. }
  unfold MAX_FRAME_BYTES. lia.
Qed.
Lemma out_requests_fit evs rest stdin control :
  Forall event_ok evs → (∀ control, Forall fits (out_requests stdin control rest)) →
  Forall fits (out_requests stdin control (evs ++ rest)).
Proof.
  intros He Hrest. revert control. induction He as [|ev evs Hev He IH]; intros control; [apply Hrest|].
  destruct ev as [b| |c| | |]; try done; cbn [app out_requests]; [| |apply IH].
  - apply Forall_app. split; [|apply IH]. destruct stdin; [|done]. constructor; [by apply stdin_fits, Hev|done].
  - apply Forall_app. split; [|apply IH]. destruct control; [|done]. constructor; [by apply control_fits|done].
Qed.
Lemma event_ok_open evs :
  Forall event_ok evs → Forall (λ ev, ev ≠ OutStdinClosed ∧ ev ≠ OutKill ∧ ev ≠ OutKillDropped) evs.
Proof. intros H. eapply Forall_impl; [exact H|]. by intros []. Qed.

Definition stdin_chunks (evs : list OutEvent) : list bytes := evs ≫= λ ev, match ev with OutStdin b => [b] | _ => [] end.
Definition written_by (evs : list OutEvent) : bytes := evs ≫= λ ev, match ev with OutStdin b => b | _ => [] end.
Lemma stdin_chunks_ok evs :
  Forall event_ok evs →
  Forall (λ b, b ≠ []) (stdin_chunks evs) ∧ (length (stdin_chunks evs) ≤ length evs)%nat ∧ concat (stdin_chunks evs) = written_by evs.
Proof.
  unfold stdin_chunks, written_by. induction 1 as [|ev evs Hev _ (IH1 & IH2 & IH3)]; [done|].
  rewrite !bind_cons, concat_app, length_app, IH3. split_and!.
  - apply Forall_app. split; [|done]. destruct ev; [|done..]. constructor; [by apply Hev|done].
  - destruct ev; cbn; lia.
  - destruct ev; cbn; by rewrite ?app_nil_r.
Qed.

(** C22: what a client writes to a process is what the process reads.  Chunks of
    any number, each at least one byte and no longer than the largest message
    the daemon's server takes from a client (1.5 MiB; the frame to the guest
    holds 2 MiB), reach the child's input whole and in order, whatever resizes
    and signals come between them, as long as the child reads them all; and
    closing the client's end closes the child's input after the last byte.  (For
    an empty chunk see [empty_write_closes_input], for a larger one, which only
    an embedder of the library can send, [oversized_chunk_ends_input].) *)
Theorem exec_input_end_to_end (named : Z → bool) (pty : bool) (evs : list OutEvent) (accepts : nat)
    (events : Forall event_ok evs) (child_reads : (length evs ≤ accepts)%nat) :
  let sent := wr_bytes (ob_writer (outbound (evs ++ [OutStdinClosed]) (mkWriter [] []))) in
  stdin_writer accepts (queued (frame_task named pty (mkReader sent None))) [] = (written_by evs, true).
Proof.
  cbn zeta. assert (Hfit : Forall fits (out_requests true true (evs ++ [OutStdinClosed]))).
  { apply out_requests_fit; [done|]. intros control. cbn. constructor; [by apply stdin_fits|done]. }
  unfold outbound. rewrite outbound_writes by done. cbn [app]. rewrite sent_requests by done.
  rewrite queued_requests, out_requests_stdin by by apply event_ok_open. cbn [app out_requests queued].
  fold (stdin_chunks evs). destruct (stdin_chunks_ok evs events) as (Hne & Hlen & Hconcat).
  destruct (stdin_writer_chunks accepts (stdin_chunks evs) [[]] [] Hne ltac:(lia)) as [left Hleft].
  change ([RStdin []] ≫= stdin_of) with [@nil Byte.byte]. rewrite Hleft, <- Hconcat. done.
Qed.

(** A chunk too large for a frame ends the outbound task: that chunk and
    everything the client writes, resizes, signals or kills after it is lost,
    and the child's input is not closed. *)
Theorem oversized_chunk_ends_input (named : Z → bool) (pty : bool) (evs rest : list OutEvent) (b : bytes) (accepts : nat)
    (events : Forall event_ok evs) (child_reads : (length evs ≤ accepts)%nat)
    (oversized : MAX_FRAME_BYTES < Z.of_nat (length (encode_request (Some (RStdin b))))) :
  let sent := wr_bytes (ob_writer (outbound (evs ++ OutStdin b :: rest) (mkWriter [] []))) in
  stdin_writer accepts (queued (frame_task named pty (mkReader sent None))) [] = (written_by evs, false).
Proof.
  cbn zeta. assert (Hsent : wr_bytes (ob_writer (outbound (evs ++ OutStdin b :: rest) (mkWriter [] []))) =
    request_frames (out_requests true true evs)).
  { unfold outbound. assert (∀ evs' bytes stdin control, Forall event_ok evs' → stdin = true →
      wr_bytes (ob_writer (foldl outbound_step (mkOutbound (mkWriter bytes []) stdin control false) (evs' ++ OutStdin b :: rest))) =
      bytes ++ request_frames (out_requests stdin control evs')) as H; [|by rewrite H].
    clear -oversized CodecLaws0. intros evs bytes stdin control He ->. revert bytes control.
    induction He as [|ev evs Hev He IH]; intros bytes control; cbn [app foldl]; unfold outbound_step at 2;
      cbn [ob_done ob_stdin_open ob_control_open].
    - unfold outbound_send, write_frame. cbn [ob_writer]. destruct (frame_error _) as [u|err] eqn:Hfe.
      { apply frame_error_Ok in Hfe as [_ Hle]. lia. }
      rewrite outbound_done by done. cbn. by rewrite app_nil_r.
    - destruct ev as [b'| |c| | |]; try done; cbn [out_requests].
      + rewrite outbound_send_ok by (try done; by apply stdin_fits, Hev).
        cbn [ob_writer ob_stdin_open ob_control_open ob_done wr_bytes]. rewrite IH. cbn [app].
        by rewrite request_frames_cons, app_assoc.
      + destruct control; [|by apply IH]. rewrite outbound_send_ok by (try done; by apply control_fits).
        cbn [ob_writer ob_stdin_open ob_control_open ob_done wr_bytes]. rewrite IH. cbn [app].
        by rewrite request_frames_cons, app_assoc.
      + apply IH. }
  rewrite Hsent. assert (Hfit : Forall fits (out_requests true true evs)).
  { rewrite <- (app_nil_r evs). by apply out_requests_fit. }
  rewrite sent_requests by done. rewrite queued_requests.
  rewrite <- (app_nil_r evs), out_requests_stdin by by apply event_ok_open. rewrite app_nil_r.
  cbn [app out_requests queued]. fold (stdin_chunks evs). destruct (stdin_chunks_ok evs events) as (Hne & Hlen & Hconcat).
  destruct (stdin_writer_chunks accepts (stdin_chunks evs) [] [] Hne ltac:(lia)) as [left Hleft].
  rewrite app_nil_r in Hleft. rewrite Hleft, app_nil_r, <- Hconcat. by destruct left.
Qed.

(** An empty write is the end of the input: everything written after it is
    lost, although the daemon calls an empty write a valid no-op. *)
Theorem empty_write_closes_input (named : Z → bool) (pty : bool) (evs : list OutEvent) (accepts : nat)
    (requests_fit : Forall fits (out_requests true true (OutStdin [] :: evs))) :
  let sent := wr_bytes (ob_writer (outbound (OutStdin [] :: evs) (mkWriter [] []))) in
  stdin_writer accepts (queued (frame_task named pty (mkReader sent None))) [] = ([], true).
Proof.
  cbn zeta. unfold outbound. rewrite outbound_writes by done. cbn [app]. rewrite sent_requests by done.
  rewrite queued_requests. by cbn [app out_requests queued mbind list_bind stdin_of stdin_writer].
Qed.

(** An event too large for a frame ends the writer: the rest of the output and
    the exit are lost, and the client sees the stream close without one. *)
Theorem oversized_line_hides_exit (text : string) (rest : list EventKind) (n : nat)
    (oversized : MAX_FRAME_BYTES < Z.of_nat (length (encode_event (Some (EvStdout text))))) :
  inbound (mkReader (wr_bytes (write_events (EvStdout text :: rest) (mkWriter [] []))) None) n = [].
Proof.
  cbn [write_events]. rewrite guest_write_frame_eq. unfold write_frame.
  destruct (frame_error _) as [u|err] eqn:He; [|done].
  apply frame_error_Ok in He as [_ Hle]. lia.
Qed.

(** ** Transfers *)

(** What the daemon makes of the agent's closing frame. *)
Definition host_result (outcome : result unit IoError) : result unit IoError :=
  map_err (λ e, agent_failure (io_text e) (error_kind e)) outcome.
Lemma finish_acknowledged what outcome :
  acknowledged what (encode_event (Some (finish_event outcome))) = host_result outcome.
Proof. unfold acknowledged. rewrite event_decodes. by destruct outcome as [[]|]. Qed.

Lemma feed_chunks pieces fuel accepts got :
  Forall (fits ∘ RArchiveChunk) pieces → fits RArchiveEnd →
  (length pieces ≤ fuel)%nat → (length pieces ≤ accepts)%nat →
  ∃ r, feed_loop fuel (mkReader (request_frames ((RArchiveChunk <$> pieces) ++ [RArchiveEnd])) None) accepts got =
    (Ok tt, got ++ pieces, r).
Proof.
  intros Hp Hend. revert fuel accepts got. induction Hp as [|p pieces Hp Hps IH]; intros fuel accepts got Hf Ha.
  - rewrite fmap_nil. cbn [app]. rewrite request_frames_cons. eexists.
    destruct fuel; cbn [feed_loop]; rewrite guest_read_frame_eq, read_frame_of by done;
      rewrite request_decodes, app_nil_r; done.
  - rewrite fmap_cons. cbn [app]. rewrite request_frames_cons.
    destruct fuel as [|fuel], accepts as [|accepts]; cbn in Hf, Ha; try lia.
    cbn [feed_loop]. rewrite guest_read_frame_eq, read_frame_of, request_decodes by done.
    destruct (IH fuel accepts (got ++ [p])) as [r Hr]; [lia..|]. exists r. rewrite Hr. by rewrite <- app_assoc.
Qed.

(** An upload reaches the guest's unpacker as it was sent: the bytes of its
    chunks are those the client gave, in order, the frames never exceed the cap
    however large the client's chunks are, the guest reports what the unpacker
    said, and the daemon tells a missing path and a refusal from a failure. *)
Theorem upload_end_to_end (unpack : list bytes → result unit ArchiveError) (path : string)
    (chunks : list bytes) (accepts : nat) (outcome : result unit IoError)
    (opening_fits : fits (RPutArchive path)) (ending_fits : fits RArchiveEnd)
    (reply_fits : event_fits (finish_event outcome))
    (unpacker_reads : (length (pieces_of chunks) ≤ accepts)%nat) :
  let reply := mkReader (frame_of (encode_event (Some (finish_event outcome)))) None in
  ∃ body c,
    put_archive path chunks (mkConn reply (mkWriter [] [])) = (host_result outcome, c) ∧
    wr_bytes (c_writer c) = frame_of (encode_request (Some (RPutArchive path))) ++ body ∧
    concat (pieces_of chunks) = concat chunks ∧
    (receive_upload unpack accepts (mkReader body None)).1 = map_err archive_io (unpack (pieces_of chunks)).
Proof.
  cbn zeta. destruct (pieces_of_spec chunks) as [Hconcat Hsmall].
  assert (Hfit : Forall (fits ∘ RArchiveChunk) (pieces_of chunks)).
  { eapply Forall_impl; [exact Hsmall|]. intros p Hp. by apply chunk_fits. }
  set (body := request_frames ((RArchiveChunk <$> pieces_of chunks) ++ [RArchiveEnd])). eexists body, _.
  split; [|split; [|split; [done|]]].
  - unfold put_archive. rewrite send_request_ok by done. cbn [app]. rewrite send_chunks_ok by done.
    unfold ask_done, ask. rewrite send_request_ok by done. unfold read_reply. cbn [c_reader c_writer].
    rewrite <- (app_nil_r (frame_of (encode_event _))), read_frame_of by done. cbn [rbind].
    by rewrite finish_acknowledged.
  - cbn [c_writer wr_bytes]. subst body. rewrite request_frames_app, app_assoc. unfold request_frames at 3. cbn.
    by rewrite app_nil_r.
  - unfold receive_upload, feed. cbn [rd_bytes].
    destruct (feed_chunks (pieces_of chunks) (length body) accepts []) as [r Hr]; [done|done| |done|].
    { subst body. rewrite request_frames_app, length_app.
      assert (Hl : ∀ l, (length l ≤ length (request_frames (RArchiveChunk <$> l)))%nat).
      { induction l as [|p l IH]; [done|]. rewrite fmap_cons, request_frames_cons, length_app, length_frame_of. cbn. lia. }
      pose proof (Hl (pieces_of chunks)). lia. }
    subst body. rewrite Hr. cbn. by destruct (unpack _) as [[]|].
Qed.

(** A chunk the writer sends, and what it keeps. *)
Definition chunk_ok (p : bytes) : Prop := Z.of_nat (length p) < 2 * CHUNK_BYTES.
Definition buffered (buf : bytes) : Prop := Z.of_nat (length buf) < CHUNK_BYTES.
Lemma write_parts_spec parts buf sent sent' buf' :
  Forall (λ p, Z.of_nat (length p) ≤ CHUNK_BYTES) parts → buffered buf → Forall chunk_ok sent →
  write_parts parts buf sent = (sent', buf') →
  buffered buf' ∧ Forall chunk_ok sent' ∧ concat sent' ++ buf' = concat sent ++ buf ++ concat parts.
Proof.
  unfold buffered, CHUNK_BYTES. intros Hp. revert buf sent.
  induction Hp as [|p parts Hp Hps IH]; intros buf sent Hb Hs H; cbn [write_parts] in H.
  { injection H as <- <-. split_and!; [exact Hb|exact Hs|]. cbn [concat]. by rewrite app_nil_r. }
  unfold CHUNK_BYTES in H. destruct (_ <=? _) eqn:Hle.
  - destruct (buf ++ p) as [|x l] eqn:Hbp; rewrite ?Hbp in Hle; rewrite ?Hbp in H; cbn [flush_chunk] in H;
      [apply Z.leb_le in Hle; cbn in Hle; lia|].
    apply IH in H as (H1 & H2 & H3); [|cbn; lia|].
    + split_and!; [done|done|]. rewrite H3, concat_app. cbn. by rewrite app_nil_r, <- Hbp, <- !app_assoc.
    + apply Forall_app. split; [done|]. constructor; [|done]. unfold chunk_ok, CHUNK_BYTES.
      rewrite <- Hbp, length_app. lia.
  - apply Z.leb_gt in Hle. apply IH in H as (H1 & H2 & H3); [|done|done].
    split_and!; [done|done|]. rewrite H3. cbn [concat]. by rewrite <- app_assoc.
Qed.
Lemma pack_chunks_spec writes buf :
  buffered buf →
  concat (pack_chunks writes buf) = buf ++ concat writes ∧ Forall chunk_ok (pack_chunks writes buf).
Proof.
  revert buf. induction writes as [|data writes IH]; intros buf Hb; cbn [pack_chunks].
  - destruct buf as [|x buf]; cbn [flush_chunk fst concat]; [done|]. split; [by rewrite !app_nil_r|].
    constructor; [|done]. unfold buffered, chunk_ok, CHUNK_BYTES in *. lia.
  - unfold chunk_write. destruct (write_parts _ _ _) as [sent buf'] eqn:Hw.
    destruct (chunks_of_spec (length data) (Z.to_nat CHUNK_BYTES) data) as [Hc Hf]; [unfold CHUNK_BYTES; lia|lia|].
    apply write_parts_spec in Hw as (H1 & H2 & H3); [|eapply Forall_impl; [exact Hf|]; intros p Hp; cbn beta in *; unfold CHUNK_BYTES in *; lia|done|done].
    destruct (IH buf' H1) as [IH1 IH2].
    rewrite concat_app, IH1. cbn [concat app] in *. rewrite Hc in H3. split; [by rewrite app_assoc, H3, <- app_assoc|].
    apply Forall_app. by split.
Qed.

Definition event_frames (evs : list EventKind) : bytes := concat (frame_of <$> (encode_event ∘ Some <$> evs)).
Lemma relay_chunks pieces last fuel n out outcome :
  Forall (event_fits ∘ EvArchiveChunk) pieces → last = finish_event outcome → event_fits last →
  (length pieces ≤ fuel)%nat → (length pieces ≤ n)%nat →
  relay_loop fuel (mkReader (event_frames ((EvArchiveChunk <$> pieces) ++ [last])) None) n out =
    (host_result outcome, out ++ pieces).
Proof.
  intros Hp Hlast Hfin. revert fuel n out. induction Hp as [|p pieces Hp Hps IH]; intros fuel n out Hf Hn.
  - rewrite fmap_nil. cbn [app]. change (event_frames [last]) with (frame_of (encode_event (Some last)) ++ []).
    destruct fuel; cbn [relay_loop]; rewrite read_frame_of, event_decodes, Hlast, app_nil_r by done;
      by destruct outcome as [[]|].
  - rewrite fmap_cons. cbn [app].
    change (event_frames (EvArchiveChunk p :: ?l)) with (frame_of (encode_event (Some (EvArchiveChunk p))) ++ event_frames l).
    destruct fuel as [|fuel], n as [|n]; cbn in Hf, Hn; try lia.
    cbn [relay_loop]. rewrite read_frame_of, event_decodes by done. rewrite IH by lia. by rewrite <- app_assoc.
Qed.

(** A download reaches the daemon as the guest packed it: the chunks it
    passes on are the packer's bytes in order, every frame is within the cap
    however the packer writes, and the relay ends as the packer did, with an
    error after the chunks when the walk failed midway. *)
Theorem download_end_to_end (writes : list bytes) (outcome : result unit IoError) (n : nat)
    (reply_fits : event_fits (finish_event outcome))
    (listens : (length (pack_chunks writes []) ≤ n)%nat) :
  let sent := wr_bytes (write_events (get_events writes outcome) (mkWriter [] [])) in
  ∃ out, relay_loop (length sent) (mkReader sent None) n [] = (host_result outcome, out) ∧
    concat out = concat writes.
Proof.
  cbn zeta. destruct (pack_chunks_spec writes []) as [Hconcat Hsmall]; [done|].
  assert (Hfit : Forall (event_fits ∘ EvArchiveChunk) (pack_chunks writes [])).
  { eapply Forall_impl; [exact Hsmall|]. intros p Hp. split; [apply event_nonempty|].
    unfold chunk_ok, CHUNK_BYTES in Hp. pose proof (event_chunk_size p) as Hs. unfold MAX_FRAME_BYTES in *.
    specialize (Hs ltac:(lia)). lia. }
  unfold get_events. rewrite write_events_ok; [|done|].
  2:{ apply Forall_app. split; [by rewrite Forall_fmap|by constructor]. }
  cbn [wr_bytes app]. fold (event_frames ((EvArchiveChunk <$> pack_chunks writes []) ++ [finish_event outcome])).
  exists (pack_chunks writes []). split; [|done]. apply relay_chunks; [done|done|done| |done].
  unfold event_frames. rewrite !fmap_app, concat_app, length_app.
  assert (Hl : ∀ l : list bytes,
    (length l ≤ length (concat (frame_of <$> (encode_event ∘ Some <$> (EvArchiveChunk <$> l)))))%nat).
  { induction l as [|p l IH]; [done|]. rewrite !fmap_cons. cbn [concat length]. rewrite length_app, length_frame_of. lia. }
  pose proof (Hl (pack_chunks writes [])). lia.
Qed.

End end_to_end.

(** *** Witnesses *)

Definition demo_bytes (s : string) : bytes := String.list_byte_of_string s.
Definition demo_run : ExecMessage := mkExecMessage ["sh"] "" ∅ false "" true.
Definition demo_child : Child :=
  mkChild [Some (demo_bytes "ab"); Some (demo_bytes "c"); Some []] [Some (demo_bytes "x"); None] 0 (Some 9) 0 [0; 1].
Definition demo_spawn (e : ExecMessage) (i : option Identity) (l : list Z) : result Child SpawnError := Ok demo_child.
Definition demo_turns : list bool := [true; false; true].
Definition demo_received (n : nat) : list StreamEvent :=
  inbound (mkReader (wr_bytes (run_process (λ _, false) (λ _, false) None (λ _, EOF) (Ok "") (Ok "") []
    demo_spawn demo_run demo_turns (mkWriter [] []))) None) n.

Lemma exec_output_end_to_end_witness :
  output_of Stdout (demo_received 9) = demo_bytes "abc" ∧ output_of Stderr (demo_received 9) = demo_bytes "x" ∧
  ∃ body ev, demo_received 9 = body ++ [ev] ∧ Forall (λ x, is_exit x = false) body ∧ is_exit ev = true ∧
    inbound_event (Some (exit_event (ch_status demo_child)
      (settled_oom_kills (ch_oom demo_child) (ch_oom_later demo_child) (ch_status demo_child)))) = Some ev.
Proof.
  refine (exec_output_end_to_end (λ _, false) (λ _, false) None (λ _, EOF) (Ok "") (Ok "") [] demo_spawn
    demo_run demo_child demo_turns 9 _ _ _ _ _ _ _); try reflexivity.
  - intros b Hb. repeat (apply elem_of_cons in Hb as [Hb|Hb];
      [first [discriminate Hb | injection Hb as ->; vm_compute; discriminate]|]).
    by apply not_elem_of_nil in Hb.
  - intros raw [= <-]. by vm_compute.
  - by vm_compute.
  - vm_compute. lia.
Defined.

Definition demo_input : list OutEvent :=
  [OutStdin (demo_bytes "ab"); OutControl (Resize 24 80); OutStdin (demo_bytes "c")].
Lemma exec_input_end_to_end_witness :
  let sent := wr_bytes (ob_writer (outbound (demo_input ++ [OutStdinClosed]) (mkWriter [] []))) in
  stdin_writer 3 (queued (frame_task (λ _, true) true (mkReader sent None))) [] = (demo_bytes "abc", true).
Proof.
  refine (exec_input_end_to_end (λ _, true) true demo_input 3 _ _).
  - repeat constructor; vm_compute; discriminate.
  - vm_compute. lia.
Defined.

Definition demo_refusal : result unit IoError := Err (mkIo IoNotFound "no such directory").
Lemma upload_end_to_end_witness :
  let reply := mkReader (frame_of (encode_event (Some (finish_event demo_refusal)))) None in
  ∃ body c,
    put_archive "/data" [demo_bytes "tar"; demo_bytes "end"] (mkConn reply (mkWriter [] [])) =
      (host_result demo_refusal, c) ∧
    wr_bytes (c_writer c) = frame_of (encode_request (Some (RPutArchive "/data"))) ++ body ∧
    concat (pieces_of [demo_bytes "tar"; demo_bytes "end"]) = demo_bytes "tarend" ∧
    (receive_upload (λ _, Ok tt) 4 (mkReader body None)).1 =
      map_err archive_io (Ok tt).
Proof.
  refine (upload_end_to_end (λ _, Ok tt) "/data" [demo_bytes "tar"; demo_bytes "end"] 4 demo_refusal _ _ _ _);
    [split; vm_compute; discriminate..|]. vm_compute. lia.
Defined.

Lemma download_end_to_end_witness :
  let sent := wr_bytes (write_events (get_events [demo_bytes "tar"; demo_bytes "end"] (Ok tt)) (mkWriter [] [])) in
  ∃ out, relay_loop (length sent) (mkReader sent None) 5 [] = (host_result (Ok tt), out) ∧
    concat out = demo_bytes "tarend".
Proof.
  refine (download_end_to_end [demo_bytes "tar"; demo_bytes "end"] (Ok tt) 5 _ _).
  - split; vm_compute; discriminate.
  - vm_compute. lia.
Defined.

(** A line that is not UTF-8 ends the output of a process that is not raw: the
    line after it never leaves the guest. *)
Example invalid_line_ends_output :
  pump_output Stdout false [Some (demo_bytes "ok" ++ [Byte.x0a; Byte.xff; Byte.x0a] ++ demo_bytes "lost")] =
    [EvStdout "ok"] ∧
  pump_output Stdout true [Some [Byte.xff]] = [EvData 1 [Byte.xff]].
Proof. vm_compute. done. Qed.
