(* ===== verification/Diff.v ===== *)
(** * Diff: the paths of a sandbox that differ from its image

    Models [ward-core/src/backend/diff.rs].  Both trees are walked through
    directory handles while the guest may change the sandbox's one, so the
    file system is an interface, the class [DiffOs]: every call answers what it
    likes and may change the state behind it.  The walk is in the state monad
    [W] over the record [Walk] and that state.

    [diff_bounded] is about every file system, however it behaves; file
    [DiffStill] is about one that holds still. *)

From stdpp Require Import base list numbers option strings pretty gmap sorting.
From Stdlib Require Import ZArith Lia.
From S2P Require Import Prelude Text Protocol Output Archive Manager.
Local Open Scope Z_scope.

(** ** The file system the walk sees *)

Record Stat := mkStat {
  st_mode : Z; st_uid : Z; st_gid : Z; st_size : Z; st_rdev : Z; st_mtime : Z; st_mtime_nsec : Z;
}.
#[export] Instance Stat_eq_dec : EqDecision Stat.
Proof. solve_decision. Defined.

Inductive FileType :=
| FtRegularFile | FtDirectory | FtSymlink | FtFifo | FtSocket | FtCharacterDevice | FtBlockDevice | FtUnknown.
#[export] Instance FileType_eq_dec : EqDecision FileType.
Proof. solve_decision. Defined.

Inductive Errno := NOENT | ACCESS | LOOP | NOTDIR | OtherErrno (n : Z).
#[export] Instance Errno_eq_dec : EqDecision Errno.
Proof. solve_decision. Defined.

(** What the walk calls: the operating system by way of [rustix], the clock,
    the reading of an open file, whose offset is part of the state. *)
Class DiffOs (OS Fd File : Type) := {
  from_raw_mode : Z → FileType;
  errno_io : Errno → IoError;
  openat_root : string → OS → result Fd Errno * OS;
  openat_dir : Fd → string → OS → result Fd Errno * OS;
  openat_file : Fd → string → OS → result File Errno * OS;
  read_entries : Fd → OS → result (list string) Errno * OS;
  statat : Fd → string → OS → result Stat Errno * OS;
  readlinkat : Fd → string → OS → result bytes Errno * OS;
  fstat : File → OS → result Stat Errno * OS;
  file_read : File → Z → OS → result bytes Errno * OS;
  clock : OS → Z;
}.

(** ** Data *)

Definition MAX_DIFF_ENTRIES : Z := 500000.
Definition MAX_DIFF_DEPTH : nat := 64.
Definition MAX_COMPARE_BYTES : Z := 1024 * 1024 * 1024.
Definition COMPARE_DEADLINE : Z := 60.
Definition COMPARE_CHUNK_BYTES : Z := 64 * 1024.
Definition PERMISSION_BITS : Z := 4095.

Inductive ChangeKind := Added | Modified | Deleted.
#[export] Instance ChangeKind_eq_dec : EqDecision ChangeKind.
Proof. solve_decision. Defined.

(** A path of the guest by its names from the root. *)
Abbreviation Path := (list string).
Record FsChange := mkFsChange { fc_kind : ChangeKind; fc_path : Path }.

Record DiffLimits := mkDiffLimits {
  max_entries : Z; diff_max_depth : nat; max_compare_bytes : Z; compare_deadline : Z;
}.
Definition default_diff_limits : DiffLimits :=
  mkDiffLimits MAX_DIFF_ENTRIES MAX_DIFF_DEPTH MAX_COMPARE_BYTES COMPARE_DEADLINE.

Inductive Verdict := Same | Changed | Gone.
#[export] Instance Verdict_eq_dec : EqDecision Verdict.
Proof. solve_decision. Defined.
Inductive Opened (Fd : Type) := OpenedDir (fd : Fd) | OpenedGone | OpenedDenied | OpenedSwapped.
Arguments OpenedDir {Fd} fd.
Arguments OpenedGone {Fd}.
Arguments OpenedDenied {Fd}.
Arguments OpenedSwapped {Fd}.

Record Walk := mkWalk {
  compared_bytes : Z; visited : Z; changes : gmap Path ChangeKind;
}.

Definition verdict (same : bool) : Verdict := if same then Same else Changed.
Definition mode_bits (s : Stat) : Z := Z.land (st_mode s) PERMISSION_BITS.
Definition owner (s : Stat) : Z * Z := (st_uid s, st_gid s).
Definition same_mtime (a b : Stat) : bool :=
  (st_mtime a =? st_mtime b) && (st_mtime_nsec a =? st_mtime_nsec b).

(** ** The monad of the walk

    A walk that needs more fuel than it was given is told apart from one that
    fails. *)

Inductive WalkError := WError (e : BackendError) | WOutOfFuel.

Section monad.
Context {OS : Type}.
Definition W (A : Type) : Type := Walk * OS → result A WalkError * (Walk * OS).
Definition wret {A} (a : A) : W A := λ s, (Ok a, s).
Definition wfail {A} (e : WalkError) : W A := λ s, (Err e, s).
Definition wbind {A B} (m : W A) (k : A → W B) : W B := λ s,
  match m s with (Ok a, s) => k a s | (Err e, s) => (Err e, s) end.
(** A call to the operating system. *)
Definition call {A} (f : OS → A * OS) : W A := λ '(w, os), let '(a, os) := f os in (Ok a, (w, os)).
Definition walk_get : W (Walk * OS) := λ s, (Ok s, s).
Definition walk_upd (f : Walk → Walk) : W unit := λ '(w, os), (Ok tt, (f w, os)).
Fixpoint for_each {A} (f : A → W unit) (l : list A) : W unit :=
  match l with [] => wret tt | x :: l => wbind (f x) (λ _, for_each f l) end.
End monad.
Arguments W : clear implicits.
Notation "'let%' x := m 'in' k" := (wbind m (λ x, k))
  (at level 10, x pattern, m at level 100, k at level 200) : ward_scope.
Notation "m ;% k" := (wbind m (λ _, k))
  (at level 100, k at level 200, right associativity) : ward_scope.

(** [BTreeSet::from] of names: sorted, once each. *)
Definition btree_set (l : list string) : list string := merge_sort str_le (remove_dups l).

(** ** The walk *)

Section walk.
Context {OS Fd File : Type} `{DiffOs OS Fd File}.
Abbreviation W := (W OS).

Definition file_type (s : Stat) : FileType := from_raw_mode (st_mode s).
Definition is_dir_stat (s : Stat) : bool := bool_decide (file_type s = FtDirectory).

Definition io_fail {A} (e : Errno) : W A := wfail (WError (BIo (errno_io e))).
(** [map_err(std::io::Error::from)?]. *)
Definition or_io {A} (r : result A Errno) : W A :=
  match r with Ok a => wret a | Err e => io_fail e end.

Definition open_root (path : string) : W Fd := let% r := call (openat_root path) in or_io r.
Definition open_dir (parent : Fd) (name : string) : W (Opened Fd) :=
  let% r := call (openat_dir parent name) in
  match r with
  | Ok fd => wret (OpenedDir fd)
  | Err NOENT => wret OpenedGone
  | Err ACCESS => wret OpenedDenied
  | Err (LOOP | NOTDIR) => wret OpenedSwapped
  | Err e => io_fail e
  end.
Definition open_file (parent : Fd) (name : string) : W (result File Errno) := call (openat_file parent name).
Definition stat_at (dir : Fd) (name : string) : W (result (option Stat) Errno) :=
  let% r := call (statat dir name) in
  wret match r with Ok s => Ok (Some s) | Err NOENT => Ok None | Err e => Err e end.
Definition list_names (dir : Fd) : W (list string) :=
  let% r := call (read_entries dir) in
  let% l := or_io r in
  wret (btree_set (filter (λ n, n ≠ "." ∧ n ≠ "..") l)).
Definition is_regular (f : File) : W (result bool Errno) :=
  let% r := call (fstat f) in
  wret match r with Ok s => Ok (bool_decide (file_type s = FtRegularFile)) | Err e => Err e end.

(** [Read::read_exact]: reads until the buffer of [n] bytes is full. *)
Fixpoint read_exact_loop (fuel : nat) (f : File) (n : nat) (got : bytes) : W (result bytes unit) :=
  match n, fuel with
  | O, _ => wret (Ok got)
  | _, O => wret (Err tt)
  | S _, S fuel =>
      let% r := call (file_read f (Z.of_nat n)) in
      match r with
      | Err _ | Ok [] => wret (Err tt)
      | Ok b => read_exact_loop fuel f (n - length b) (got ++ b)
      end
  end.
Definition file_read_exact (f : File) (n : nat) : W (result bytes unit) := read_exact_loop n f n [].

Section limited.
Context (limits : DiffLimits) (skip : list string) (started : Z).

Definition over_budget : W bool :=
  let% (w, os) := walk_get in
  wret ((max_compare_bytes limits <=? compared_bytes w) || (compare_deadline limits <=? clock os - started)).

Definition is_skipped (rel : Path) : bool :=
  existsb (λ skipped, bool_decide (path_components skipped = RootDir :: (Normal <$> rel))) skip.

Definition record (rel : Path) (kind : ChangeKind) : W unit :=
  walk_upd (λ w, mkWalk (compared_bytes w) (visited w) (<[rel := kind]> (changes w))).

Definition visit (depth : nat) : W unit :=
  if (diff_max_depth limits <? depth)%nat
  then wfail (WError (BResourceExhausted ("the filesystem nests deeper than " +:+
         pretty (diff_max_depth limits) +:+ " directories"))) else
  walk_upd (λ w, mkWalk (compared_bytes w) (visited w + 1) (changes w)) ;%
  let% (w, _) := walk_get in
  if visited w >? max_entries limits
  then wfail (WError (BResourceExhausted ("the filesystem has more than " +:+
         pretty (max_entries limits) +:+ " entries to compare"))) else wret tt.

(** One round of the loop of [same_content]: the next round, or the verdict. *)
Definition content_round (old new : File) (by_mtime : Verdict) : W (option (result Verdict Errno)) :=
  let% over := over_budget in
  if over : bool then wret (Some (Ok by_mtime)) else
  let% r := call (file_read old COMPARE_CHUNK_BYTES) in
  match r with
  | Err e => wret (Some (Err e))
  | Ok old_data =>
      walk_upd (λ w, mkWalk (compared_bytes w + Z.of_nat (length old_data)) (visited w) (changes w)) ;%
      match old_data with
      | [] =>
          let% r := call (file_read new COMPARE_CHUNK_BYTES) in
          wret (Some match r with Err e => Err e | Ok new_data => Ok (verdict (bool_decide (new_data = []))) end)
      | _ =>
          let% r := file_read_exact new (length old_data) in
          wret match r with
               | Err _ => Some (Ok Changed)
               | Ok new_data => if decide (old_data = new_data) then None else Some (Ok Changed)
               end
      end
  end.
(** Every round but the last reads at least one byte, and the bytes read are
    within the budget before every round: so many rounds are enough. *)
Definition content_loop (old new : File) (by_mtime : Verdict) : W (result Verdict Errno) := λ s,
  let step s :=
    match content_round old new by_mtime s with
    | (Ok None, s) => inl s
    | (Ok (Some v), s) => inr (Ok v, s)
    | (Err e, s) => inr (Err e, s)
    end in
  match loop_pos (Z.to_pos (max_compare_bytes limits - compared_bytes s.1 + 1)) step s with
  | inr r => r
  | inl s => (Err WOutOfFuel, s)
  end.
Definition same_content (old new : File) (by_mtime : Verdict) : W (result Verdict Errno) :=
  let% a := is_regular old in
  match a with
  | Err e => wret (Err e)
  | Ok false => wret (Ok Changed)
  | Ok true =>
      let% b := is_regular new in
      match b with
      | Err e => wret (Err e)
      | Ok false => wret (Ok Changed)
      | Ok true => content_loop old new by_mtime
      end
  end.

Definition compare_file (base cur : Fd) (name : string) (before after : Stat) : W Verdict :=
  if negb (mode_bits before =? mode_bits after) || negb (st_size before =? st_size after) then wret Changed else
  let by_mtime := verdict (same_mtime before after) in
  let% over := over_budget in
  if over : bool then wret by_mtime else
  let% old := open_file base name in
  let% new := open_file cur name in
  match old, new with
  | Ok old, Ok new =>
      let% v := same_content old new by_mtime in
      wret match v with Ok v => v | Err _ => Changed end
  | _, Err NOENT => wret Gone
  | Err ACCESS, _ | _, Err ACCESS => wret by_mtime
  | _, _ => wret Changed
  end.

Definition compare_leaf (base cur : Fd) (name : string) (before after : Stat) : W Verdict :=
  let kind := file_type after in
  if negb (bool_decide (file_type before = kind)) || negb (bool_decide (owner before = owner after))
  then wret Changed else
  match kind with
  | FtSymlink =>
      let% old := call (readlinkat base name) in
      let% new := call (readlinkat cur name) in
      wret match old, new with
           | _, Err NOENT => Gone
           | Ok old, Ok new => verdict (bool_decide (old = new))
           | _, _ => Changed
           end
  | FtRegularFile => compare_file base cur name before after
  | _ => wret (verdict (st_rdev before =? st_rdev after))
  end.

(** The fuel bounds the nesting. *)
Fixpoint record_children (fuel : nat) (parent : Fd) (name : string) (rel : Path) (depth : nat)
    (kind : ChangeKind) : W unit :=
  match fuel with
  | O => wfail WOutOfFuel
  | S fuel =>
      let% opened := open_dir parent name in
      match opened with
      | OpenedDir dir =>
          let% names := list_names dir in
          for_each (λ entry,
            let child := rel ++ [entry] in
            if is_skipped child then wret tt else
            visit depth ;%
            let% r := stat_at dir entry in
            match r with
            | Ok (Some stat) =>
                record child kind ;%
                if is_dir_stat stat then record_children fuel dir entry child (S depth) kind else wret tt
            | _ => wret tt
            end) names
      | _ => wret tt
      end
  end.

(** The walk below a pair of directories, as [compare_subdirs] calls it. *)
Abbreviation Descend := (Fd → Fd → Path → nat → W unit).

Definition compare_subdirs (descend : Descend) (base cur : Fd) (name : string) (child : Path)
    (before after : Stat) (depth : nat) : W unit :=
  (if decide (owner before = owner after) then wret tt else record child Modified) ;%
  let% old := open_dir base name in
  let% new := open_dir cur name in
  match old, new with
  | _, OpenedGone => record child Deleted
  | OpenedDir old, OpenedDir new => descend old new child (S depth)
  | OpenedDenied, _ | _, OpenedDenied => wret tt
  | _, _ => record child Modified
  end.

Definition compare_entry (fuel : nat) (descend : Descend) (base cur : Fd) (name : string) (child : Path)
    (before after : Stat) (depth : nat) : W unit :=
  let was_dir := is_dir_stat before in
  let is_dir := is_dir_stat after in
  if was_dir && is_dir then compare_subdirs descend base cur name child before after depth else
  let% v := compare_leaf base cur name before after in
  match v with
  | Same => wret tt
  | Gone => record child Deleted
  | Changed =>
      record child Modified ;%
      (if is_dir then record_children fuel cur name child (S depth) Added else wret tt) ;%
      (if was_dir && negb is_dir then record_children fuel base name child (S depth) Deleted else wret tt)
  end.

Definition compare_name (fuel : nat) (descend : Descend) (base cur : Fd) (rel : Path) (depth : nat)
    (name : string) : W unit :=
  let child := rel ++ [name] in
  if is_skipped child then wret tt else
  visit depth ;%
  let% before := stat_at base name in
  let% after := stat_at cur name in
  match before, after with
  | Ok before, Ok after =>
      match before, after with
      | None, None => wret tt
      | None, Some after =>
          record child Added ;%
          if is_dir_stat after then record_children fuel cur name child (S depth) Added else wret tt
      | Some _, None => record child Deleted
      | Some before, Some after => compare_entry fuel descend base cur name child before after depth
      end
  | _, _ => record child Modified
  end.

Fixpoint compare_dir (fuel : nat) (base cur : Fd) (rel : Path) (depth : nat) : W unit :=
  match fuel with
  | O => wfail WOutOfFuel
  | S fuel =>
      let% old := list_names base in
      let% new := list_names cur in
      for_each (compare_name fuel (compare_dir fuel) base cur rel depth) (btree_set (old ++ new))
  end.
End limited.

(** [path.ancestors().skip(1)] without the root. *)
Definition parents_of (p : Path) : list Path := (λ k, take k p) <$> rev (seq 1 (length p - 1)).
Definition add_parent_directories (m : gmap Path ChangeKind) : gmap Path ChangeKind :=
  foldl (λ m parent, match m !! parent with Some _ => m | None => <[parent := Modified]> m end) m
    ((map_to_list m).*1 ≫= parents_of).

(** [PathBuf]'s [Ord]: name by name. *)
Fixpoint path_leb (p q : Path) : bool :=
  match p, q with
  | [], _ => true
  | _ :: _, [] => false
  | a :: p, b :: q => if decide (a = b) then path_leb p q else str_leb a b
  end.
Definition path_le (p q : Path) : Prop := path_leb p q = true.
#[export] Instance path_le_dec : RelDecision path_le.
Proof. unfold path_le. intros p q. apply _. Defined.
Definition change_le (x y : Path * ChangeKind) : Prop := path_le x.1 y.1.
#[export] Instance change_le_dec : RelDecision change_le.
Proof. unfold change_le. intros x y. apply _. Defined.

(** The changes as they are returned, from the map of what was recorded. *)
Definition report (m : gmap Path ChangeKind) : list FsChange :=
  (λ x, mkFsChange x.2 x.1) <$> merge_sort change_le (map_to_list (add_parent_directories m)).

Definition diff_walk (base current : string) (skip : list string) (limits : DiffLimits) (started : Z) : W unit :=
  let% b := open_root base in
  let% c := open_root current in
  compare_dir limits skip started (S (diff_max_depth limits)) b c [] 1.
Definition diff_trees (base current : string) (skip : list string) (limits : DiffLimits) (os : OS)
    : result (list FsChange) WalkError :=
  match diff_walk base current skip limits (clock os) (mkWalk 0 0 ∅, os) with
  | (Err e, _) => Err e
  | (Ok _, (w, _)) => Ok (report (changes w))
  end.
End walk.

(** ** Reasoning about a walk *)

Section wp.
Context {OS : Type}.
Abbreviation W := (W OS).

(** The walk ends in [Q], or fails with an error of [E]. *)
Definition wp {A} (E : WalkError → Prop) (m : W A) (Q : A → Walk * OS → Prop) (s : Walk * OS) : Prop :=
  match m s with (Ok a, s') => Q a s' | (Err e, _) => E e end.

Context (E : WalkError → Prop).

Lemma wp_mono {A} (m : W A) (Q Q' : A → Walk * OS → Prop) s :
  wp E m Q s → (∀ a s', Q a s' → Q' a s') → wp E m Q' s.
Proof. unfold wp. destruct (m s) as [[a|e] s']; auto. Qed.

Lemma wp_bind {A B} (m : W A) (k : A → W B) Q s :
  wp E m (λ a s', wp E (k a) Q s') s → wp E (wbind m k) Q s.
Proof. unfold wp, wbind. by destruct (m s) as [[a|e] s']. Qed.

Lemma wp_ret {A} (a : A) (Q : A → Walk * OS → Prop) s : Q a s → wp E (wret a) Q s.
Proof. done. Qed.

Lemma wp_call {A} (f : OS → A * OS) (Q : A → Walk * OS → Prop) s :
  Q (f s.2).1 (s.1, (f s.2).2) → wp E (call f) Q s.
Proof. destruct s as [w os]. unfold wp, call. cbn. by destruct (f os). Qed.

Lemma wp_upd (f : Walk → Walk) (Q : unit → Walk * OS → Prop) s : Q tt (f s.1, s.2) → wp E (walk_upd f) Q s.
Proof. by destruct s. Qed.

Lemma wp_for_each {A} (f : A → W unit) l (I : list A → Walk * OS → Prop) s :
  (∀ before x after s, l = before ++ x :: after → I before s → wp E (f x) (λ _, I (before ++ [x])) s) →
  I [] s → wp E (for_each f l) (λ _, I l) s.
Proof.
  intros Hf. enough (Hgo : ∀ rest before s, l = before ++ rest → I before s → wp E (for_each f rest) (λ _, I l) s)
    by (by apply (Hgo l [])).
  induction rest as [|x rest IH]; intros before s0 Hl HI; cbn [for_each].
  - rewrite app_nil_r in Hl. by subst.
  - apply wp_bind. eapply wp_mono; [by eapply Hf|]. intros [] s1 H1. apply (IH (before ++ [x])); [|done].
    by rewrite <- app_assoc.
Qed.
End wp.

(** ** Any file system

    What a walk keeps true whatever the calls answer. *)

(** The names of [p] and of the directories above it are not skipped. *)
Definition kept (skip : list string) (p : Path) : Prop :=
  ∀ k, (1 ≤ k ≤ length p)%nat → is_skipped skip (take k p) = false.

Lemma kept_app skip p n : kept skip (p ++ [n]) ↔ kept skip p ∧ is_skipped skip (p ++ [n]) = false.
Proof.
  unfold kept. rewrite length_app. cbn [length]. split.
  - intros H. split.
    + intros k Hk. specialize (H k ltac:(lia)). by rewrite take_app_le in H by lia.
    + specialize (H (length p + 1)%nat ltac:(lia)). by rewrite take_ge in H by (rewrite length_app; cbn; lia).
  - intros [H1 H2] k Hk. destruct (decide (k ≤ length p)%nat).
    + rewrite take_app_le by lia. apply H1. lia.
    + by rewrite take_ge by (rewrite length_app; cbn; lia).
Qed.

(** The walk had enough fuel and failed for a limit or an error of a call. *)
Definition refused (e : WalkError) : Prop :=
  match e with WError (BResourceExhausted _ | BIo _) => True | _ => False end.

Section any.
Context {OS Fd File : Type} `{DiffOs OS Fd File}.
Context (limits : DiffLimits) (skip : list string) (started : Z).
Abbreviation W := (W OS).
Abbreviation wp := (wp refused).

Definition reportable (p : Path) : Prop := p ≠ [] ∧ (length p ≤ diff_max_depth limits)%nat ∧ kept skip p.
(** What was recorded is within the limits. *)
Definition within (w : Walk) : Prop :=
  visited w ≤ max_entries limits ∧ Z.of_nat (size (changes w)) ≤ visited w ∧
  ∀ p k, changes w !! p = Some k → reportable p.
(** The walk is at [child], which it has counted. *)
Definition at_child (child : Path) (w : Walk) : Prop :=
  within w ∧ reportable child ∧ Z.of_nat (size (delete child (changes w))) < visited w.

Lemma at_child_record child kind (s : Walk * OS) :
  at_child child s.1 → wp (record child kind) (λ _ s', at_child child s'.1) s.
Proof.
  intros ((Hv & Hs & Hr) & Hc & Hd). apply wp_upd. unfold at_child, within. cbn [visited changes fst].
  rewrite delete_insert_eq. split_and!; [done| | |done..].
  - destruct (changes (s.1) !! child) as [k|] eqn:Hk.
    + rewrite map_size_insert_Some; [done|by eexists].
    + rewrite map_size_insert_None by done. rewrite delete_id in Hd by done. lia.
  - intros p k. rewrite lookup_insert_Some. intros [[<- _]|[_ Hp]]; [done|by eapply Hr].
Qed.

(** A part of the walk that records nothing. *)
Definition quiet {A} (m : W A) : Prop :=
  ∀ w os, wp m (λ _ s', visited s'.1 = visited w ∧ changes s'.1 = changes w) (w, os).

Lemma within_quiet w w' : visited w' = visited w → changes w' = changes w → within w → within w'.
Proof. unfold within. by intros -> ->. Qed.
Lemma at_child_quiet child w w' :
  visited w' = visited w → changes w' = changes w → at_child child w → at_child child w'.
Proof. unfold at_child, within. by intros -> ->. Qed.

Lemma quiet_ret {A} (a : A) : quiet (wret a).
Proof. done. Qed.
Lemma quiet_io {A} e : quiet (A:=A) (io_fail e).
Proof. done. Qed.
Lemma quiet_call {A} (f : OS → A * OS) : quiet (call f).
Proof. intros w os. by apply wp_call. Qed.
Lemma quiet_bind {A B} (m : W A) (k : A → W B) : quiet m → (∀ a, quiet (k a)) → quiet (wbind m k).
Proof.
  intros Hm Hk w os. apply wp_bind. eapply wp_mono; [apply Hm|]. intros a [w1 os1] [H1 H2]. cbn in H1, H2.
  eapply wp_mono; [apply Hk|]. intros b s2 [H3 H4]. by rewrite H3, H4.
Qed.
Lemma quiet_budget : quiet (over_budget limits started).
Proof. done. Qed.

(** Splits the cases of a part of the walk until each is one of the above. *)
Ltac quiet :=
  repeat lazymatch goal with
  | |- quiet (wbind _ _) => apply quiet_bind; [|intros ?]
  | |- quiet (wret _) => apply quiet_ret
  | |- quiet (io_fail _) => apply quiet_io
  | |- quiet (call _) => apply quiet_call
  | |- quiet (over_budget _ _) => apply quiet_budget
  | |- quiet (match ?x with _ => _ end) => destruct x
  end.

Lemma quiet_open_root path : quiet (open_root path).
Proof. unfold open_root, or_io. quiet. Qed.
Lemma quiet_open_dir parent name : quiet (open_dir parent name).
Proof. unfold open_dir. quiet. Qed.
Lemma quiet_list_names dir : quiet (list_names dir).
Proof. unfold list_names, or_io. quiet. Qed.
Lemma quiet_stat_at dir name : quiet (stat_at dir name).
Proof. unfold stat_at. quiet. Qed.
Lemma quiet_read_exact fuel f n got : quiet (read_exact_loop fuel f n got).
Proof. revert n got. induction fuel as [|fuel IH]; intros [|n] got; cbn [read_exact_loop]; quiet. apply IH. Qed.
Lemma quiet_content_round old new by_mtime : quiet (content_round limits started old new by_mtime).
Proof.
  unfold content_round. quiet; [done|apply quiet_read_exact].
Qed.
(** A round that goes on was within the budget and has read something. *)
Lemma content_round_reads old new by_mtime s s' :
  content_round limits started old new by_mtime s = (Ok None, s') →
  compared_bytes s.1 < max_compare_bytes limits ∧ compared_bytes s.1 < compared_bytes s'.1.
Proof.
  destruct s as [w os]. unfold content_round, over_budget, wbind, walk_get, wret, call, walk_upd. cbn [fst].
  destruct ((_ <=? compared_bytes w) || _) eqn:Hb; [done|]. apply orb_false_iff in Hb as [Hb _].
  destruct (file_read old _ os) as [[data|] os1]; [|done]. destruct data as [|b data]; [by repeat case_match|].
  set (w1 := mkWalk _ _ _).
  destruct (file_read_exact new (length (b :: data)) (w1, os1)) as [[r|] [w2 os2]] eqn:Hx; [|done].
  intros Heq. injection Heq as _ <-. cbn [fst].
  assert (Hsame : ∀ fuel n got w os, match read_exact_loop fuel new n got (w, os) with (_, (w', _)) => w' = w end).
  { induction fuel as [|fuel IH]; intros [|n] got w0 os0; cbn [read_exact_loop]; [done..|].
    unfold wbind, call. destruct (file_read new _ os0) as [[[|c l]|] os3]; [done| |done]. apply IH. }
  specialize (Hsame (length (b :: data)) (length (b :: data)) [] w1 os1).
  unfold file_read_exact in Hx. rewrite Hx in Hsame. subst w2. subst w1. cbn [compared_bytes length]. lia.
Qed.

Lemma quiet_content_loop old new by_mtime : quiet (content_loop limits started old new by_mtime).
Proof.
  intros w os. unfold content_loop, Diff.wp. cbn [fst].
  match goal with |- context [loop_pos ?q ?f _] => set (p := q); set (step := f) end.
  pose proof (loop_pos_inv step (λ s, visited s.1 = visited w ∧ changes s.1 = changes w)
    (λ r, match r with
          | (Ok _, s') => visited s'.1 = visited w ∧ changes s'.1 = changes w
          | (Err e, _) => refused e
          end) p (w, os)) as Hinv.
  pose proof (loop_pos_ends step (λ s, max_compare_bytes limits - compared_bytes s.1) p (w, os)) as Hend.
  destruct (loop_pos p step (w, os)) as [s'|r].
  - exfalso. destruct (Hend s'); [|done|subst p; cbn in *; lia].
    intros s s1. subst step. cbn beta. destruct (content_round _ _ _ _ _ s) as [[[v|]|e] s2] eqn:Hr; [done| |done].
    intros Heq. injection Heq as <-. apply content_round_reads in Hr. lia.
  - destruct r as [[v|e] s']; apply Hinv; try done; intros [w1 os1] [H1 H2]; subst step; cbn beta;
      pose proof (quiet_content_round old new by_mtime w1 os1) as Hq; unfold Diff.wp in Hq; cbn in H1, H2;
      destruct (content_round _ _ _ _ _ (w1, os1)) as [[[v'|]|e'] s2]; cbn; try done; by rewrite <- H1, <- H2.
Qed.

Lemma quiet_compare_leaf base cur name before after : quiet (compare_leaf limits started base cur name before after).
Proof.
  unfold compare_leaf, compare_file, open_file, same_content, is_regular.
  quiet; apply quiet_content_loop.
Qed.

Lemma wp_quiet {A B} (m : W A) (k : A → W B) Q w os :
  quiet m → (∀ a w' os', visited w' = visited w → changes w' = changes w → wp (k a) Q (w', os')) →
  wp (wbind m k) Q (w, os).
Proof.
  intros Hm Hk. apply wp_bind. eapply wp_mono; [apply Hm|]. intros a [w' os'] [H1 H2]. by apply Hk.
Qed.

Lemma wp_visit child depth (s : Walk * OS) :
  within s.1 → child ≠ [] → depth = length child → kept skip child →
  wp (visit limits depth) (λ _ s', at_child child s'.1) s.
Proof.
  intros (Hv & Hs & Hr) Hne -> Hk. unfold visit. destruct (_ <? _)%nat eqn:Hd; [done|]. apply Nat.ltb_ge in Hd.
  apply wp_bind, wp_upd. unfold Diff.wp, wbind, walk_get. cbn [fst visited]. destruct (_ >? _) eqn:Hm; [done|]. cbn.
  unfold at_child, within, reportable. cbn [visited changes].
  pose proof (map_size_delete child (changes s.1)) as Hsize. split_and!; try done; try lia.
  destruct (changes s.1 !! child); cbn in Hsize; lia.
Qed.

Lemma wp_record child kind Q (s : Walk * OS) :
  at_child child s.1 → (∀ s', at_child child s'.1 → Q tt s') → wp (record child kind) Q s.
Proof.
  intros Hs HQ. eapply wp_mono; [by apply at_child_record|]. intros []; auto.
Qed.

Lemma record_children_within fuel parent name rel depth kind s :
  within s.1 → kept skip rel → depth = S (length rel) → (diff_max_depth limits + 2 ≤ fuel + depth)%nat →
  (depth ≤ S (diff_max_depth limits))%nat →
  wp (record_children limits skip fuel parent name rel depth kind) (λ _ s', within s'.1) s.
Proof.
  revert parent name rel depth s. induction fuel as [|fuel IH]; intros parent name rel depth [w os] Hw Hk Hd Hf Hm;
    [lia|]. cbn [record_children]. apply wp_quiet; [apply quiet_open_dir|]. intros o w1 os1 Hv1 Hc1.
  apply (within_quiet _ _ Hv1 Hc1) in Hw. destruct o as [dir| | |]; [|done..].
  apply wp_quiet; [apply quiet_list_names|]. intros names w2 os2 Hv2 Hc2. apply (within_quiet _ _ Hv2 Hc2) in Hw.
  apply wp_for_each with (I := λ _ s, within s.1); [|done]. clear w w1 os os1 w2 os2 Hv1 Hc1 Hv2 Hc2 Hw.
  intros _ entry _ [w os] _ Hw. destruct (is_skipped skip (rel ++ [entry])) eqn:Hskip; [done|].
  assert (Hkc : kept skip (rel ++ [entry])) by by apply kept_app.
  apply wp_bind. eapply wp_mono.
  { apply (wp_visit (rel ++ [entry])); [done|by destruct rel| |done]. rewrite length_app. cbn. lia. }
  intros [] [w1 os1] Hat. apply wp_quiet; [apply quiet_stat_at|]. intros r w2 os2 Hv2 Hc2.
  apply (at_child_quiet _ _ _ Hv2 Hc2) in Hat. destruct r as [[stat|]|]; [|by destruct Hat..].
  apply wp_bind, wp_record; [done|]. intros s3 Hat3. destruct (is_dir_stat stat); [|by destruct Hat3].
  destruct Hat3 as (Hw3 & (_ & Hlen & _) & _). rewrite length_app in Hlen. cbn in Hlen.
  apply IH; [done|done| |lia|lia]. rewrite length_app. cbn. lia.
Qed.

(** What [compare_dir] may assume of the walk below a child. *)
Definition descends (n : nat) (descend : Fd → Fd → Path → nat → W unit) : Prop :=
  ∀ old new child s, within s.1 → reportable child → length child = n →
    wp (descend old new child (S n)) (λ _ s', within s'.1) s.

Lemma compare_subdirs_within descend base cur name child before after depth s :
  descends depth descend → at_child child s.1 → length child = depth →
  wp (compare_subdirs descend base cur name child before after depth) (λ _ s', within s'.1) s.
Proof.
  intros Hdesc Hat Hd. unfold compare_subdirs. apply wp_bind.
  apply wp_mono with (λ _ s', at_child child s'.1).
  { destruct (decide _); [done|]. by apply wp_record. }
  intros [] [w1 os1] H1. apply wp_quiet; [apply quiet_open_dir|]. intros old w2 os2 Hv2 Hc2.
  apply wp_quiet; [apply quiet_open_dir|]. intros new w3 os3 Hv3 Hc3.
  apply (at_child_quiet _ _ _ Hv2 Hc2), (at_child_quiet _ _ _ Hv3 Hc3) in H1.
  assert (Hrec : ∀ kind, wp (record child kind) (λ _ s', within s'.1) (w3, os3)).
  { intros kind. apply wp_record; [done|]. by intros s' [? _]. }
  destruct H1 as (? & ? & _). destruct old, new; try done; try apply Hrec. by apply Hdesc.
Qed.

Lemma compare_name_within fuel descend base cur rel depth name s :
  descends depth descend → within s.1 → kept skip rel → depth = S (length rel) →
  (diff_max_depth limits + 1 ≤ fuel + depth)%nat →
  wp (compare_name limits skip started fuel descend base cur rel depth name) (λ _ s', within s'.1) s.
Proof.
  intros Hdesc Hw Hk Hd Hf. unfold compare_name. destruct (is_skipped skip (rel ++ [name])) eqn:Hskip; [done|].
  assert (Hkc : kept skip (rel ++ [name])) by by apply kept_app.
  assert (Hlen : length (rel ++ [name]) = depth) by (rewrite length_app; cbn; lia).
  apply wp_bind. eapply wp_mono; [by apply (wp_visit (rel ++ [name])); [|destruct rel| |]|].
  intros [] [w1 os1] H1. apply wp_quiet; [apply quiet_stat_at|]. intros before w2 os2 Hv2 Hc2.
  apply wp_quiet; [apply quiet_stat_at|]. intros after w3 os3 Hv3 Hc3.
  apply (at_child_quiet _ _ _ Hv2 Hc2), (at_child_quiet _ _ _ Hv3 Hc3) in H1.
  clear w1 os1 w2 os2 Hv2 Hc2 Hv3 Hc3.
  assert (Hrec : ∀ kind, wp (record (rel ++ [name]) kind) (λ _ s', within s'.1) (w3, os3)).
  { intros kind. apply wp_record; [done|]. by intros s' [? _]. }
  assert (Hdepth : (depth ≤ diff_max_depth limits)%nat) by (destruct H1 as (_ & (_ & ? & _) & _); lia).
  assert (Hch : ∀ parent kind s, within s.1 →
    wp (record_children limits skip fuel parent name (rel ++ [name]) (S depth) kind) (λ _ s', within s'.1) s).
  { intros parent kind s' Hs'. apply record_children_within; [done|done|lia|lia|lia]. }
  destruct before as [before|], after as [after|]; [|by apply Hrec..].
  destruct before as [before|], after as [after|]; [|by apply Hrec| |by destruct H1].
  - unfold compare_entry. destruct (is_dir_stat before && is_dir_stat after); [by apply compare_subdirs_within|].
    apply wp_quiet; [apply quiet_compare_leaf|]. intros v w4 os4 Hv4 Hc4. apply (at_child_quiet _ _ _ Hv4 Hc4) in H1.
    assert (Hrec4 : ∀ kind, wp (record (rel ++ [name]) kind) (λ _ s', within s'.1) (w4, os4)).
    { intros kind. apply wp_record; [done|]. by intros s' [? _]. }
    destruct v; [by destruct H1| |by apply Hrec4].
    apply wp_bind. eapply wp_mono; [apply Hrec4|]. intros [] s5 H5.
    apply wp_bind. apply wp_mono with (λ _ s', within s'.1); [destruct (is_dir_stat after); [by apply Hch|done]|].
    intros [] s6 H6. destruct (_ && _); [by apply Hch|done].
  - apply wp_bind. eapply wp_mono; [apply Hrec|]. intros [] s5 H5. destruct (is_dir_stat after); [by apply Hch|done].
Qed.

Lemma compare_dir_within fuel base cur rel depth s :
  within s.1 → kept skip rel → depth = S (length rel) → (depth ≤ S (diff_max_depth limits))%nat →
  (diff_max_depth limits + 2 ≤ fuel + depth)%nat →
  wp (compare_dir limits skip started fuel base cur rel depth) (λ _ s', within s'.1) s.
Proof.
  revert base cur rel depth s. induction fuel as [|fuel IH]; intros base cur rel depth [w os] Hw Hk Hd Hm Hf; [lia|].
  cbn [compare_dir]. apply wp_quiet; [apply quiet_list_names|]. intros old w1 os1 Hv1 Hc1.
  apply wp_quiet; [apply quiet_list_names|]. intros new w2 os2 Hv2 Hc2.
  apply (within_quiet _ _ Hv1 Hc1), (within_quiet _ _ Hv2 Hc2) in Hw.
  apply wp_for_each with (I := λ _ s, within s.1); [|done]. intros _ name _ s _ Hs.
  apply compare_name_within; [|done|done|done|lia].
  intros old' new' child s' Hs' (? & ? & ?) Hl. apply IH; [done|done|lia|lia|lia].
Qed.
End any.


(** ** The report *)

(** [q] is in the directory [p] or further down. *)
Definition below (p q : Path) : Prop := ∃ r, r ≠ [] ∧ q = p ++ r.

Lemma parents_of_spec p q : p ∈ parents_of q ↔ p ≠ [] ∧ below p q.
Proof.
  unfold parents_of, below. rewrite list_elem_of_fmap. split.
  - intros (k & -> & Hk). rewrite <- in_rev, elem_of_list_In, in_seq in Hk || (apply list_elem_of_In, in_rev, in_seq in Hk).
    split.
    + destruct q, k; cbn in *; try done; lia.
    + exists (drop k q). split; [|by rewrite take_drop]. intros Hnil. apply (f_equal length) in Hnil.
      rewrite length_drop in Hnil. cbn in Hnil. lia.
  - intros (Hp & r & Hr & ->). exists (length p). split; [by rewrite take_app_length|].
    apply list_elem_of_In, in_rev. rewrite rev_involutive. apply in_seq. rewrite length_app.
    destruct p, r; cbn; try done. lia.
Qed.

Lemma add_parents_fold (l : list Path) (m : gmap Path ChangeKind) p k :
  foldl (λ m parent, match m !! parent with Some _ => m | None => <[parent := Modified]> m end) m l !! p = Some k ↔
  m !! p = Some k ∨ m !! p = None ∧ k = Modified ∧ p ∈ l.
Proof.
  revert m. induction l as [|x l IH]; intros m; cbn [foldl].
  - split; [by left|]. intros [?|(_ & _ & Hin)]; [done|]. by apply not_elem_of_nil in Hin.
  - rewrite IH. clear IH. destruct (m !! x) as [kx|] eqn:Hx.
    + rewrite elem_of_cons. naive_solver.
    + destruct (decide (x = p)) as [->|Hne]; [rewrite lookup_insert_eq|rewrite lookup_insert_ne by done];
        rewrite elem_of_cons; naive_solver.
Qed.

Lemma add_parents_lookup m p k :
  add_parent_directories m !! p = Some k ↔
  m !! p = Some k ∨ m !! p = None ∧ k = Modified ∧ p ≠ [] ∧ ∃ q, is_Some (m !! q) ∧ below p q.
Proof.
  unfold add_parent_directories. rewrite add_parents_fold. f_equiv. f_equiv. f_equiv.
  rewrite list_elem_of_bind. setoid_rewrite parents_of_spec. setoid_rewrite list_elem_of_fmap. split.
  - intros (q & [Hp Hb] & [q' k'] & -> & Hin%elem_of_map_to_list). split; [done|]. exists q'. eauto.
  - intros (Hp & q & [k' Hk'] & Hb). exists q. split; [done|]. exists (q, k'). split; [done|].
    by apply elem_of_map_to_list.
Qed.

#[export] Instance path_le_total : Total path_le.
Proof.
  intros p. unfold path_le. induction p as [|a p IH]; intros [|b q]; cbn [path_leb]; try by auto.
  destruct (decide (a = b)) as [->|Hne]; [by rewrite decide_True|]. rewrite (decide_False (P:=b = a)) by congruence.
  apply str_le_total.
Qed.
#[export] Instance path_le_trans : Transitive path_le.
Proof.
  intros p. unfold path_le. induction p as [|a p IH]; intros [|b q] [|c r]; cbn [path_leb]; try done.
  destruct (decide (a = b)) as [->|Hab].
  { destruct (decide (b = c)) as [->|]; [apply IH|done]. }
  destruct (decide (b = c)) as [->|Hbc]; [by rewrite decide_False by done|].
  intros H1 H2. destruct (decide (a = c)) as [->|]; [|by eapply str_le_trans].
  exfalso. apply Hab. by apply (anti_symm str_le).
Qed.
#[export] Instance change_le_total : Total change_le.
Proof. intros x y. apply path_le_total. Qed.
#[export] Instance change_le_trans : Transitive change_le.
Proof. intros x y z. apply path_le_trans. Qed.

Lemma elem_of_report m p k : mkFsChange k p ∈ report m ↔ add_parent_directories m !! p = Some k.
Proof.
  unfold report. rewrite list_elem_of_fmap. setoid_rewrite merge_sort_Permutation. split.
  - intros ([q k'] & [= -> ->] & Hin). by apply elem_of_map_to_list in Hin.
  - intros Hk. exists (p, k). split; [done|]. by apply elem_of_map_to_list.
Qed.

Lemma report_paths m : NoDup (fc_path <$> report m) ∧ StronglySorted path_le (fc_path <$> report m).
Proof.
  unfold report. rewrite <- list_fmap_compose. cbn. set (l := merge_sort _ _). split.
  - change (NoDup (l.*1)). subst l. rewrite merge_sort_Permutation. apply NoDup_fst_map_to_list.
  - assert (Hs : StronglySorted change_le l).
    { apply Sorted_StronglySorted; [apply _|]. apply Sorted_merge_sort; apply _. }
    induction Hs as [|x l' Hs IH Hall]; cbn; constructor; [done|]. by apply Forall_fmap.
Qed.

Lemma length_report m n :
  (∀ p k, m !! p = Some k → p ≠ [] ∧ length p ≤ n)%nat → (length (report m) ≤ size m * n)%nat.
Proof.
  intros Hm. assert (Hl : length (report m) = length (fc_path <$> report m)) by by rewrite length_fmap.
  rewrite Hl. set (all := (map_to_list m).*1 ≫= λ q, q :: parents_of q).
  transitivity (length all).
  - apply submseteq_length, NoDup_submseteq; [apply report_paths|]. intros p Hp.
    apply list_elem_of_fmap in Hp as ([k q] & -> & Hin%elem_of_report). cbn [fc_path].
    apply list_elem_of_bind. apply add_parents_lookup in Hin as [Hq|(_ & _ & Hne & q' & [k' Hq'] & Hb)].
    + exists q. split; [by left|]. apply list_elem_of_fmap. exists (q, k). by rewrite elem_of_map_to_list.
    + exists q'. split; [right; by apply parents_of_spec|].
      apply list_elem_of_fmap. exists (q', k'). by rewrite elem_of_map_to_list.
  - subst all. rewrite <- length_map_to_list. rewrite <- (length_fmap fst).
    assert (Hall : Forall (λ q, q ≠ [] ∧ length q ≤ n)%nat (map_to_list m).*1).
    { apply Forall_fmap, Forall_forall. intros [q k] Hin%elem_of_map_to_list. by eapply Hm. }
    induction Hall as [|q l [Hne Hq] _ IH]; [done|]. rewrite bind_cons, length_app. cbn [length].
    unfold parents_of at 1. rewrite length_fmap, length_rev, length_seq. destruct q; cbn in *; [done|lia].
Qed.

(** C36: whatever the file system answers and however it changes during the walk,
    the walk ends: it fails for a limit or an error of a call, or reports a
    sorted list without duplicates, no longer than the limits allow, in which
    no path is skipped, lies below a skipped one or nests too deep, and which
    has every directory above a reported path. *)
Theorem diff_bounded {OS Fd File : Type} `{DiffOs OS Fd File} (base current : string) (skip : list string)
    (limits : DiffLimits) (os : OS) (counts : 0 ≤ max_entries limits) :
  match diff_trees base current skip limits os with
  | Ok l =>
      Z.of_nat (length l) ≤ max_entries limits * Z.of_nat (diff_max_depth limits) ∧
      NoDup (fc_path <$> l) ∧ StronglySorted path_le (fc_path <$> l) ∧
      ∀ k p, mkFsChange k p ∈ l → reportable limits skip p ∧
        ∀ q, q ≠ [] → below q p → ∃ k', mkFsChange k' q ∈ l
  | Err e => refused e
  end.
Proof.
  assert (Hwalk : wp refused (diff_walk base current skip limits (clock os)) (λ _ s', within limits skip s'.1)
    (mkWalk 0 0 ∅, os)).
  { unfold diff_walk. apply wp_quiet; [apply quiet_open_root|]. intros b w1 os1 Hv1 Hc1.
    apply wp_quiet; [apply quiet_open_root|]. intros c w2 os2 Hv2 Hc2.
    apply compare_dir_within; [|intros k; cbn; lia|done|lia|lia].
    apply (within_quiet _ _ _ _ Hv2 Hc2), (within_quiet _ _ _ _ Hv1 Hc1). split; [done|]. split; [done|].
    intros p k. cbn. by rewrite lookup_empty. }
  unfold wp in Hwalk. unfold diff_trees. destruct (diff_walk _ _ _ _ _ _) as [[u|e] [w os']]; [|done].
  cbn [fst] in Hwalk. destruct Hwalk as (Hv & Hs & Hr). split; [|split; [|split]].
  - assert (Hl : (length (report (changes w)) ≤ size (changes w) * diff_max_depth limits)%nat).
    { apply length_report. intros p k Hk. destruct (Hr p k Hk) as (? & ? & _). done. }
    nia.
  - apply report_paths.
  - apply report_paths.
  - intros k p Hp. apply elem_of_report, add_parents_lookup in Hp. split.
    + destruct Hp as [Hp|(_ & _ & Hne & q & [k' Hq] & r & _ & ->)]; [by eapply Hr|].
      destruct (Hr _ _ Hq) as (_ & Hlen & Hk). rewrite length_app in Hlen. split; [done|]. split; [lia|].
      intros i Hi. specialize (Hk i). rewrite length_app, take_app_le in Hk by lia. apply Hk. lia.
    + intros q Hq Hb. assert (Hdeep : ∃ q', is_Some (changes w !! q') ∧ below q q').
      { destruct Hp as [Hp|(_ & _ & _ & q' & Hq' & r & Hr' & ->)]; [by eauto|]. exists (p ++ r). split; [done|].
        destruct Hb as (r' & ? & ->). exists (r' ++ r). rewrite <- app_assoc. split; [by destruct r'|done]. }
      destruct (changes w !! q) as [k'|] eqn:Hk'.
      * exists k'. apply elem_of_report, add_parents_lookup. by left.
      * exists Modified. apply elem_of_report, add_parents_lookup. right. done.
Qed.
