(* ===== verification/DiffStill.v ===== *)
(** * DiffStill: a diff of two trees that hold still

    An instance of the file system of [Diff] in which nothing changes during
    the walk, and the theorem [diff_exact], which says which paths are reported
    without reference to the walk.  Paths, directories and limits are shared
    out between the parts of the walk: [covers m R] says that the part [m]
    records how the paths of the region [R] change and uses up no more of the
    limits than they cost. *)

From stdpp Require Import base list numbers option strings pretty gmap sorting.
From Stdlib Require Import ZArith Lia.
From S2P Require Import Prelude Text Protocol Output Archive Manager Diff.
Local Open Scope Z_scope.

(** ** A file system that holds still

    A tree of nodes per root directory, the open files with what is left to
    read of them, and a clock that stands.  Opening, listing and reading follow
    POSIX.  [n_open] says of a file whether the daemon may read it, and of a
    directory whether it may list and search it; the daemon may stat every
    entry of a directory it could open. *)

Record Node := mkNode { n_stat : Stat; n_data : bytes; n_open : bool }.
Abbreviation Tree := (gmap Path Node).
Record Still := mkStill {
  still_trees : gmap string Tree; still_files : list (Stat * bytes); still_clock : Z;
}.

(** The name of [q] in the directory [p]. *)
Definition child_name (p q : Path) : option string :=
  match drop (length p) q with
  | [n] => if decide (take (length p) q = p) then Some n else None
  | _ => None
  end.

Lemma child_name_Some p q n : child_name p q = Some n ↔ q = p ++ [n].
Proof.
  unfold child_name. split.
  - intros H. rewrite <- (take_drop (length p) q). destruct (drop _ q) as [|m [|]]; [done| |done].
    case_decide as Hp; [|done]. injection H as ->. by rewrite Hp.
  - intros ->. by rewrite drop_app_length, take_app_length, decide_True.
Qed.

Section still.
Context (frm : Z → FileType) (eio : Errno → IoError).

Definition node_at (os : Still) (fd : string * Path) (name : string) : option Node :=
  still_trees os !! fd.1 ≫= λ t, t !! (fd.2 ++ [name]).
Definition node_type (n : Node) : FileType := frm (st_mode (n_stat n)).

Definition still_read (f : nat) (n : nat) (os : Still) : result bytes Errno * Still :=
  match still_files os !! f with
  | None => (Err (OtherErrno 9), os)
  | Some (st, data) =>
      (Ok (take n data), mkStill (still_trees os) (<[f := (st, drop n data)]> (still_files os)) (still_clock os))
  end.

#[local] Instance still_os : DiffOs Still (string * Path) nat := {|
  from_raw_mode := frm;
  errno_io := eio;
  openat_root root os :=
    (match still_trees os !! root with
     | None => Err NOENT
     | Some t => match t !! [] with Some n => if n_open n then Ok (root, []) else Err ACCESS | None => Err NOENT end
     end, os);
  openat_dir fd name os :=
    (match node_at os fd name with
     | None => Err NOENT
     | Some n =>
         match node_type n with
         | FtDirectory => if n_open n then Ok (fd.1, fd.2 ++ [name]) else Err ACCESS
         | FtSymlink => Err LOOP
         | _ => Err NOTDIR
         end
     end, os);
  openat_file fd name os :=
    match node_at os fd name with
    | None => (Err NOENT, os)
    | Some n =>
        match node_type n with
        | FtSymlink => (Err LOOP, os)
        | _ =>
            if n_open n
            then (Ok (length (still_files os)),
                  mkStill (still_trees os) (still_files os ++ [(n_stat n, n_data n)]) (still_clock os))
            else (Err ACCESS, os)
        end
    end;
  read_entries fd os :=
    (match still_trees os !! fd.1 with
     | None => Err NOENT
     | Some t => Ok ("." :: ".." :: omap (child_name fd.2) (map_to_list t).*1)
     end, os);
  statat fd name os := (match node_at os fd name with None => Err NOENT | Some n => Ok (n_stat n) end, os);
  readlinkat fd name os :=
    (match node_at os fd name with
     | None => Err NOENT
     | Some n => match node_type n with FtSymlink => Ok (n_data n) | _ => Err (OtherErrno 22) end
     end, os);
  fstat f os := (match still_files os !! f with None => Err (OtherErrno 9) | Some x => Ok x.1 end, os);
  file_read f n os := still_read f (Z.to_nat n) os;
  clock os := still_clock os;
|}.

(** A tree is a tree: its root is a directory that can be opened, what is in it
    is in a directory of it, and a regular file is as long as its size says. *)
Definition is_dir_node (n : Node) : bool := bool_decide (node_type n = FtDirectory).
Definition dir_at (t : Tree) (p : Path) : bool := match t !! p with Some n => is_dir_node n | None => false end.
Definition node_ok (t : Tree) (p : Path) (n : Node) : Prop :=
  (p ≠ [] → dir_at t (removelast p) = true) ∧ List.last p "" ≠ "." ∧ List.last p "" ≠ ".." ∧
  (node_type n = FtRegularFile → st_size (n_stat n) = Z.of_nat (length (n_data n))).
(** A directory the daemon may not open. *)
Definition shut (t : Tree) (p : Path) : bool :=
  match t !! p with Some n => is_dir_node n && negb (n_open n) | None => false end.
Definition tree_ok (t : Tree) : Prop := dir_at t [] = true ∧ shut t [] = false ∧ map_Forall (node_ok t) t.

(** ** What differs

    Two entries of which at most one is a directory.  The contents of a file
    that cannot be read are taken to be the same when size and mtime are. *)
Definition leaf_differs (x y : Node) : bool :=
  negb (bool_decide (node_type x = node_type y)) || negb (bool_decide (owner (n_stat x) = owner (n_stat y))) ||
  match node_type y with
  | FtSymlink => negb (bool_decide (n_data x = n_data y))
  | FtRegularFile =>
      negb (mode_bits (n_stat x) =? mode_bits (n_stat y)) ||
      (if n_open x && n_open y then negb (bool_decide (n_data x = n_data y))
       else negb (st_size (n_stat x) =? st_size (n_stat y)) || negb (same_mtime (n_stat x) (n_stat y)))
  | _ => negb (st_rdev (n_stat x) =? st_rdev (n_stat y))
  end.

(** A directory above [p] has become something else. *)
Definition replaced_above (c : Tree) (p : Path) : bool :=
  existsb (λ k, match c !! take k p with Some n => negb (is_dir_node n) | None => false end) (seq 1 (length p)).

(** Nothing is seen of a path that is skipped or is below one that is, nor of
    what is below a directory that cannot be opened in one of the trees. *)
Definition in_sight (skip : list string) (b c : Tree) (p : Path) : bool :=
  forallb (λ k, negb (is_skipped skip (take k p))) (seq 1 (length p)) &&
  forallb (λ k, negb (shut b (take k p) || shut c (take k p))) (seq 0 (length p)).

(** How [p] itself differs: what is new, what is gone from a directory that is
    still there or has become something else, and what is there in both. *)
Definition change_at (skip : list string) (b c : Tree) (p : Path) : option ChangeKind :=
  if in_sight skip b c p && bool_decide (p ≠ []) then
    match b !! p, c !! p with
    | None, None => None
    | None, Some _ => Some Added
    | Some _, None => if dir_at c (removelast p) || replaced_above c p then Some Deleted else None
    | Some x, Some y =>
        if is_dir_node x && is_dir_node y
        then if decide (owner (n_stat x) = owner (n_stat y)) then None else Some Modified
        else if leaf_differs x y then Some Modified else None
    end
  else None.

(** ** The walk over a still file system *)

Abbreviation W := (W Still).

Lemma file_type_node n : file_type (n_stat n) = node_type n.
Proof. done. Qed.
Lemma is_dir_stat_node n : is_dir_stat (n_stat n) = is_dir_node n.
Proof. done. Qed.

(** A tree is closed under taking the directory of a path. *)
Lemma tree_ok_parent t p n : tree_ok t → is_Some (t !! (p ++ [n])) → dir_at t p = true.
Proof.
  intros (_ & _ & Hall) [x Hx]. destruct (Hall _ _ Hx) as [Hd _]. rewrite removelast_last in Hd.
  apply Hd. by destruct p.
Qed.
Lemma dir_at_Some t p : dir_at t p = true → ∃ n, t !! p = Some n ∧ is_dir_node n = true.
Proof. unfold dir_at. destruct (t !! p); [by eauto|done]. Qed.
Lemma tree_ok_below t p r : tree_ok t → r ≠ [] → is_Some (t !! (p ++ r)) → dir_at t p = true.
Proof.
  intros Ht. induction r as [|n r IH] using rev_ind; [done|]. intros _. rewrite app_assoc. intros Hs.
  apply (tree_ok_parent _ _ _ Ht) in Hs. destruct r as [|a r]; [by rewrite app_nil_r in Hs|].
  apply IH; [done|]. apply dir_at_Some in Hs as (x & -> & _). by eexists.
Qed.
Lemma tree_ok_leaf t p r n :
  tree_ok t → t !! p = Some n → is_dir_node n = false → r ≠ [] → t !! (p ++ r) = None.
Proof.
  intros Ht Hp Hn Hr. destruct (t !! (p ++ r)) eqn:Hs; [|done].
  assert (Hd : dir_at t p = true) by (apply (tree_ok_below _ _ r); [done..|by rewrite Hs]).
  unfold dir_at in Hd. rewrite Hp, Hn in Hd. done.
Qed.
Lemma tree_ok_absent t p r : tree_ok t → t !! p = None → t !! (p ++ r) = None.
Proof.
  intros Ht Hp. destruct r as [|a r]; [by rewrite app_nil_r|]. destruct (t !! (p ++ a :: r)) eqn:Hs; [|done].
  assert (Hd : dir_at t p = true) by (apply (tree_ok_below _ _ (a :: r)); [done..|by rewrite Hs]).
  unfold dir_at in Hd. by rewrite Hp in Hd.
Qed.

(** *** Reading files *)

(** The call leaves the trees and the clock as they are. *)
Definition steady (os os' : Still) : Prop :=
  still_trees os' = still_trees os ∧ still_clock os' = still_clock os.

Lemma read_exact_still f n got w os st data :
  still_files os !! f = Some (st, data) →
  read_exact_loop n f n got (w, os) =
    if decide (n ≤ length data)%nat
    then (Ok (Ok (got ++ take n data)), (w, mkStill (still_trees os) (<[f := (st, drop n data)]> (still_files os)) (still_clock os)))
    else (Ok (Err tt), (w, mkStill (still_trees os) (<[f := (st, [])]> (still_files os)) (still_clock os))).
Proof.
  intros Hf. destruct n as [|n].
  { cbn. rewrite decide_True by lia. rewrite take_0, app_nil_r, drop_0, list_insert_id by done. by destruct os. }
  cbn [read_exact_loop]. unfold wbind, call. cbn [file_read still_os]. unfold still_read. rewrite Hf, Nat2Z.id.
  destruct data as [|b data]; [rewrite take_nil, drop_nil; by rewrite decide_False by (cbn; lia)|].
  cbn [take]. change (b :: take n data) with (take (S n) (b :: data)).
  set (all := b :: data) in *. destruct (decide (S n ≤ length all)%nat) as [Hle|Hgt].
  - rewrite length_take_le by done. replace (S n - S n)%nat with 0%nat by lia. destruct n; reflexivity.
  - rewrite (take_ge all) by lia. rewrite (drop_ge all) by lia.
    destruct n as [|n]; [subst all; cbn in Hgt; lia|]. destruct (S (S n) - length all)%nat as [|m] eqn:Hm; [lia|].
    cbn [read_exact_loop]. unfold wbind, call. cbn [file_read still_os]. unfold still_read. cbn [still_files].
    rewrite list_lookup_insert_eq by (by apply lookup_lt_Some in Hf). rewrite take_nil, drop_nil.
    cbn [still_trees still_clock]. by rewrite list_insert_insert_eq.
Qed.

Section exact.
Context (skip : list string) (limits : DiffLimits) (rb rc : string) (b c : Tree) (started : Z).
Context (Hb : tree_ok b) (Hc : tree_ok c) (deadline : 0 < compare_deadline limits).

(** The state of the file system during the walk. *)
Definition here (os : Still) : Prop :=
  still_trees os !! rb = Some b ∧ still_trees os !! rc = Some c ∧ still_clock os = started.

Abbreviation wp := (wp (λ _, False)).

(** What a comparison of two files leaves: nothing recorded, at most [n] more
    bytes read. *)
Definition compared (n : Z) (w : Walk) (s : Walk * Still) : Prop :=
  here s.2 ∧ visited s.1 = visited w ∧ changes s.1 = changes w ∧
  compared_bytes w ≤ compared_bytes s.1 ≤ compared_bytes w + n.

Lemma over_budget_still w os :
  here os → compared_bytes w < max_compare_bytes limits → over_budget limits started (w, os) = (Ok false, (w, os)).
Proof.
  intros (_ & _ & Hclock) Hw. unfold over_budget, wbind, walk_get, wret. cbn [clock still_os].
  rewrite Hclock, Z.sub_diag. rewrite (proj2 (Z.leb_gt _ _)), (proj2 (Z.leb_gt _ _)) by done. done.
Qed.

Section content.
Context (f1 f2 : nat) (st1 st2 : Stat) (x y : bytes) (w0 : Walk) (by_mtime : Verdict).
Context (Hf : f1 ≠ f2) (Hbudget : compared_bytes w0 + Z.of_nat (length x) < max_compare_bytes limits).

(** Some bytes [z] of both files were read and are equal. *)
Definition comparing (s : Walk * Still) : Prop :=
  ∃ z x' y', x = z ++ x' ∧ y = z ++ y' ∧
    still_files s.2 !! f1 = Some (st1, x') ∧ still_files s.2 !! f2 = Some (st2, y') ∧
    here s.2 ∧ visited s.1 = visited w0 ∧ changes s.1 = changes w0 ∧
    compared_bytes s.1 = compared_bytes w0 + Z.of_nat (length z).

Lemma content_round_still s :
  comparing s →
  match content_round limits started f1 f2 by_mtime s with
  | (Ok None, s') => comparing s'
  | (Ok (Some r), s') => r = Ok (verdict (bool_decide (x = y))) ∧ compared (Z.of_nat (length x)) w0 s'
  | (Err _, _) => False
  end.
Proof.
  destruct s as [w os]. intros (z & x' & y' & Hx & Hy & H1 & H2 & Hh & Hv & Hch & Hcb). cbn [fst snd] in *.
  assert (Hlen : Z.of_nat (length x) = Z.of_nat (length z) + Z.of_nat (length x')) by (rewrite Hx, length_app; lia).
  assert (Heq : bool_decide (x = y) = bool_decide (x' = y')).
  { apply bool_decide_ext. rewrite Hx, Hy. split; [apply app_inv_head|by intros ->]. }
  rewrite Heq. clear Heq.
  unfold content_round. unfold wbind at 1. rewrite over_budget_still by (done || lia).
  unfold wbind at 1, call at 1. cbn [file_read still_os]. unfold still_read. rewrite H1.
  set (n := Z.to_nat COMPARE_CHUNK_BYTES).
  assert (Hn : (0 < n)%nat) by (subst n; unfold COMPARE_CHUNK_BYTES; lia). clearbody n.
  unfold wbind at 1, walk_upd. destruct x' as [|a x'].
  - rewrite take_nil, drop_nil, list_insert_id by done. unfold wbind, call, wret. cbn [file_read still_os still_files].
    unfold still_read. cbn [still_files]. rewrite H2. split.
    + destruct y' as [|e y']; [by rewrite take_nil|]. destruct n as [|n']; [lia|]. done.
    + unfold compared, here. cbn in *. split_and!; try done; try apply Hh; lia.
  - destruct n as [|n']; [lia|]. cbn [take]. change (a :: take n' x') with (take (S n') (a :: x')).
    set (all := a :: x') in *. set (k := length (take (S n') all)).
    assert (Hk : k = (S n' `min` length all)%nat) by apply length_take.
    unfold wbind at 1, file_read_exact.
    rewrite (read_exact_still f2 k [] _ _ st2 y') by (cbn [still_files]; by rewrite list_lookup_insert_ne).
    cbn [still_files still_trees still_clock].
    assert (Hneq : ∀ l, (length l < k)%nat → l ≠ all).
    { intros l Hl ->. lia. }
    destruct (decide (k ≤ length y')%nat) as [Hle|Hgt].
    + unfold wret. cbn [app]. destruct (decide (take (S n') all = take k y')) as [Ht|Ht].
      * exists (z ++ take (S n') all), (drop (S n') all), (drop k y'). cbn [fst snd still_files still_trees still_clock].
        rewrite !app_assoc_reverse, take_drop, Ht, take_drop. split_and!; try done.
        -- rewrite list_lookup_insert_ne by done. apply list_lookup_insert_eq. by apply lookup_lt_Some in H1.
        -- rewrite list_lookup_insert_eq; [done|]. rewrite length_insert. by apply lookup_lt_Some in H2.
        -- cbn [compared_bytes]. rewrite Hcb, length_app, <- Ht. fold k. lia.
      * split.
        -- f_equal. rewrite bool_decide_eq_false_2; [done|]. intros ->. apply Ht. subst k.
           rewrite length_take. destruct (decide (S n' ≤ length y')%nat);
             [by rewrite Nat.min_l|rewrite Nat.min_r, !take_ge by lia; done].
        -- unfold compared, here. cbn in *. split_and!; try done; try apply Hh; lia.
    + unfold wret. split.
      * f_equal. rewrite bool_decide_eq_false_2; [done|]. intros <-. apply (Hneq all); [lia|done].
      * unfold compared, here. cbn in *. split_and!; try done; try apply Hh; lia.
Qed.

Lemma content_loop_still s :
  comparing s → compared_bytes s.1 = compared_bytes w0 →
  wp (content_loop limits started f1 f2 by_mtime)
    (λ r s', r = Ok (verdict (bool_decide (x = y))) ∧ compared (Z.of_nat (length x)) w0 s') s.
Proof.
  intros Hs _. unfold Diff.wp, content_loop.
  match goal with |- context [loop_pos ?q ?f _] => set (p := q); set (step := f) end.
  pose proof (loop_pos_ends step (λ s, max_compare_bytes limits - compared_bytes s.1) p s) as Hend.
  pose proof (loop_pos_inv step comparing
    (λ r, match r with
          | (Ok r, s') => r = Ok (verdict (bool_decide (x = y))) ∧ compared (Z.of_nat (length x)) w0 s'
          | _ => False
          end) p s) as Hinv.
  destruct (loop_pos p step s) as [s'|r].
  - destruct (Hend s'); [|done|subst p; lia]. intros s1 s2. subst step. cbn beta.
    destruct (content_round limits started f1 f2 by_mtime s1) as [[[v|]|e] s3] eqn:Hr; [done| |done].
    intros Heq. injection Heq as <-. apply content_round_reads in Hr. lia.
  - assert (Hr : match r with
      | (Ok r, s') => r = Ok (verdict (bool_decide (x = y))) ∧ compared (Z.of_nat (length x)) w0 s'
      | _ => False
      end); [|by destruct r as [[v|e] s']].
    apply Hinv; [|done]. intros s1 H1. apply content_round_still in H1. subst step. cbn beta.
    by destruct (content_round limits started f1 f2 by_mtime s1) as [[[v|]|e] s3].
Qed.
End content.

(** *** Comparing two entries *)

Lemma node_at_base os p n : here os → node_at os (rb, p) n = b !! (p ++ [n]).
Proof. intros (H & _). unfold node_at. cbn. by rewrite H. Qed.
Lemma node_at_cur os p n : here os → node_at os (rc, p) n = c !! (p ++ [n]).
Proof. intros (_ & H & _). unfold node_at. cbn. by rewrite H. Qed.

Lemma compared_refl n w os : 0 ≤ n → here os → compared n w (w, os).
Proof. intros Hn Hh. unfold compared. cbn. split_and!; [done..|lia|lia]. Qed.

Lemma compare_file_still p name x y w os :
  here os → b !! (p ++ [name]) = Some x → c !! (p ++ [name]) = Some y →
  node_type x = FtRegularFile → node_type y = FtRegularFile →
  compared_bytes w + Z.of_nat (length (n_data x)) < max_compare_bytes limits →
  wp (compare_file limits started (rb, p) (rc, p) name (n_stat x) (n_stat y))
    (λ v s', v = verdict (negb (negb (mode_bits (n_stat x) =? mode_bits (n_stat y)) ||
       (if n_open x && n_open y then negb (bool_decide (n_data x = n_data y))
        else negb (st_size (n_stat x) =? st_size (n_stat y)) || negb (same_mtime (n_stat x) (n_stat y))))) ∧
             compared (Z.of_nat (length (n_data x))) w s') (w, os).
Proof.
  intros Hh Hx Hy Htx Hty Hw. unfold compare_file.
  destruct (mode_bits (n_stat x) =? mode_bits (n_stat y)); cbn [negb orb];
    [|split; [done|apply compared_refl; [lia|done]]].
  assert (Hsx : st_size (n_stat x) = Z.of_nat (length (n_data x))) by (destruct Hb as (_ & _ & H); by apply (H _ _ Hx)).
  assert (Hsy : st_size (n_stat y) = Z.of_nat (length (n_data y))) by (destruct Hc as (_ & _ & H); by apply (H _ _ Hy)).
  destruct (st_size (n_stat x) =? st_size (n_stat y)) eqn:Hs; cbn [negb orb].
  2:{ split; [|apply compared_refl; [lia|done]]. destruct (n_open x && n_open y); [|done].
      rewrite bool_decide_eq_false_2; [done|]. intros Heq. rewrite Heq in Hsx. lia. }
  apply wp_bind. unfold Diff.wp at 1. rewrite over_budget_still by (done || lia).
  unfold open_file. apply wp_bind, wp_call. cbn [openat_file still_os fst snd]. rewrite node_at_base, Hx, Htx by done.
  destruct (n_open x) eqn:Hox; cbn [andb].
  2:{ apply wp_bind, wp_call. cbn [openat_file still_os fst snd]. rewrite node_at_cur, Hy, Hty by done.
      rewrite negb_involutive. by destruct (n_open y); split; [|apply compared_refl; [lia|]|..|apply compared_refl; [lia|]]. }
  destruct (n_open y) eqn:Hoy.
  2:{ apply wp_bind, wp_call. cbn [openat_file still_os fst snd]. rewrite node_at_cur, Hy, Hty, Hoy by done.
      rewrite negb_involutive. by split; [|apply compared_refl; [lia|]]. }
  cbn [fst snd]. set (f1 := length (still_files os)). set (os1 := mkStill _ _ _).
  assert (Hh1 : here os1) by done.
  apply wp_bind, wp_call. cbn [openat_file still_os fst snd]. rewrite node_at_cur, Hy, Hty, Hoy by done. cbn [fst snd].
  set (f2 := length (still_files os1)). set (os2 := mkStill _ _ _).
  assert (Hf1 : still_files os2 !! f1 = Some (n_stat x, n_data x)).
  { subst os2 os1 f1. cbn [still_files]. rewrite lookup_app_l by (rewrite length_app; cbn; lia). by apply list_lookup_middle. }
  assert (Hf2 : still_files os2 !! f2 = Some (n_stat y, n_data y)).
  { subst os2 f2. cbn [still_files]. by apply list_lookup_middle. }
  assert (Hne : f1 ≠ f2) by (subst f1 f2 os1; cbn [still_files]; rewrite length_app; cbn; lia).
  apply wp_bind. unfold same_content, is_regular.
  apply wp_bind, wp_bind, wp_call. cbn [fstat still_os fst snd]. rewrite Hf1. apply wp_ret. cbn [fst].
  rewrite file_type_node, Htx, bool_decide_true by done. apply wp_bind, wp_bind, wp_call. cbn [fstat still_os fst snd]. rewrite Hf2.
  apply wp_ret. cbn [fst]. rewrite file_type_node, Hty. rewrite bool_decide_true by done.
  eapply wp_mono.
  { apply (content_loop_still f1 f2 (n_stat x) (n_stat y) (n_data x) (n_data y) w); [done|done| |done].
    exists [], (n_data x), (n_data y). cbn [fst snd length]. split_and!; try done. lia. }
  intros v s' [-> Hs']. split; [|done]. by rewrite negb_involutive.
Qed.

Lemma compare_leaf_still p name x y w os :
  here os → b !! (p ++ [name]) = Some x → c !! (p ++ [name]) = Some y →
  compared_bytes w + Z.of_nat (length (n_data x)) < max_compare_bytes limits →
  wp (compare_leaf limits started (rb, p) (rc, p) name (n_stat x) (n_stat y))
    (λ v s', v = verdict (negb (leaf_differs x y)) ∧ compared (Z.of_nat (length (n_data x))) w s') (w, os).
Proof.
  intros Hh Hx Hy Hw. unfold compare_leaf, leaf_differs. rewrite !file_type_node.
  destruct (bool_decide (node_type x = node_type y)) eqn:Ht; cbn [negb orb];
    [|split; [done|apply compared_refl; [lia|done]]]. apply bool_decide_eq_true in Ht.
  destruct (bool_decide (owner _ = _)); cbn [negb orb]; [|split; [done|apply compared_refl; [lia|done]]].
  destruct (node_type y) eqn:Hty;
    try (split; [by rewrite negb_involutive|apply compared_refl; [lia|done]]).
  - by apply compare_file_still.
  - apply wp_bind, wp_call. cbn [readlinkat still_os fst snd]. rewrite node_at_base, Hx, Ht by done.
    apply wp_bind, wp_call. cbn [readlinkat still_os fst snd]. rewrite node_at_cur, Hy, Hty by done.
    split; [by rewrite negb_involutive|apply compared_refl; [lia|done]].
Qed.

(** *** Which paths change below an entry *)

Abbreviation change := (change_at skip b c).

Definition seen (p : Path) : Prop :=
  kept skip p ∧ ∀ k, (k < length p)%nat → shut b (take k p) = false ∧ shut c (take k p) = false.

Lemma in_sight_spec p : in_sight skip b c p = true ↔ seen p.
Proof.
  unfold in_sight, seen, kept. rewrite andb_true_iff, !forallb_forall. split; intros [H1 H2]; split; intros k Hk.
  - apply negb_true_iff, H1, in_seq. lia.
  - apply orb_false_iff, negb_true_iff, H2, in_seq. lia.
  - apply in_seq in Hk. apply negb_true_iff, H1. lia.
  - apply in_seq in Hk. apply negb_true_iff, orb_false_iff, H2. lia.
Qed.

Lemma change_seen p : p ≠ [] → seen p →
  change p =
    match b !! p, c !! p with
    | None, None => None
    | None, Some _ => Some Added
    | Some _, None => if dir_at c (removelast p) || replaced_above c p then Some Deleted else None
    | Some x, Some y =>
        if is_dir_node x && is_dir_node y
        then if decide (owner (n_stat x) = owner (n_stat y)) then None else Some Modified
        else if leaf_differs x y then Some Modified else None
    end.
Proof.
  intros Hp Hk. unfold change_at. by rewrite (proj2 (in_sight_spec p) Hk), bool_decide_true.
Qed.
Lemma change_not_seen p : ¬ seen p → change p = None.
Proof.
  intros Hk. unfold change_at. destruct (in_sight _ _ _ _) eqn:H; [|done]. by apply in_sight_spec in H.
Qed.

Lemma seen_app p n :
  seen (p ++ [n]) ↔ seen p ∧ shut b p = false ∧ shut c p = false ∧ is_skipped skip (p ++ [n]) = false.
Proof.
  unfold seen. rewrite kept_app, length_app. cbn [length]. split.
  - intros [[Hk Hs] Ho]. pose proof (Ho (length p) ltac:(lia)) as Hp. rewrite take_app_length in Hp.
    split_and!; try done; try apply Hp; intros k Hlt; specialize (Ho k ltac:(lia)); by rewrite take_app_le in Ho by lia.
  - intros ([Hk Ho] & Hp1 & Hp2 & Hs). split; [done|]. intros k Hlt. rewrite take_app_le by lia.
    destruct (decide (k = length p)) as [->|]; [by rewrite firstn_all|apply Ho; lia].
Qed.
Lemma seen_prefix p r : seen (p ++ r) → seen p.
Proof.
  intros [H H']; split; intros k Hk; [specialize (H k)|specialize (H' k)];
    rewrite length_app, take_app_le in * by lia; [apply H|apply H']; lia.
Qed.
(** Nothing is seen below a directory that cannot be opened. *)
Lemma shut_unseen p r : shut b p = true ∨ shut c p = true → r ≠ [] → change (p ++ r) = None.
Proof.
  intros Hs Hr. apply change_not_seen. intros [_ H]. specialize (H (length p)). rewrite length_app, take_app_length in H.
  destruct r; [done|]. destruct Hs, H; cbn; (congruence || lia).
Qed.

(** Nothing below in either tree. *)
Lemma change_absent p : b !! p = None → c !! p = None → change p = None.
Proof. intros H1 H2. unfold change_at. rewrite H1, H2. by destruct (_ && _). Qed.

(** All that [t] has below [child] changes in the same way. *)
Definition uniform (t : Tree) (child : Path) (kind : ChangeKind) : Prop :=
  ∀ r, r ≠ [] → seen (child ++ r) → change (child ++ r) = if t !! (child ++ r) then Some kind else None.

Lemma uniform_added child : (∀ r, r ≠ [] → b !! (child ++ r) = None) → uniform c child Added.
Proof.
  intros Hnone r Hr Hk. rewrite change_seen by (done || by destruct child). rewrite Hnone by done.
  by destruct (c !! (child ++ r)).
Qed.

Lemma uniform_replaced child n :
  child ≠ [] → c !! child = Some n → is_dir_node n = false → uniform b child Deleted.
Proof.
  intros Hne Hn Hd r Hr Hk. rewrite change_seen by (done || by destruct child).
  rewrite (tree_ok_leaf c child r n) by done. destruct (b !! (child ++ r)); [|done].
  replace (replaced_above c (child ++ r)) with true; [by rewrite orb_true_r|]. symmetry. apply existsb_exists.
  exists (length child). split; [|by rewrite take_app_length, Hn, Hd].
  apply in_seq. rewrite length_app. destruct child, r; cbn in *; try done. lia.
Qed.

Lemma dir_above t p k : tree_ok t → dir_at t p = true → dir_at t (take k p) = true.
Proof.
  intros Ht Hd. destruct (decide (length p ≤ k)%nat); [by rewrite take_ge|].
  apply (tree_ok_below _ _ (drop k p)); [done| |].
  - intros Hnil. apply (f_equal length) in Hnil. rewrite length_drop in Hnil. cbn in Hnil. lia.
  - rewrite take_drop. apply dir_at_Some in Hd as (? & -> & _). by eexists.
Qed.

(** A deleted directory is reported alone. *)
Lemma change_below_deleted p n r :
  dir_at c p = true → c !! (p ++ [n]) = None → r ≠ [] → change ((p ++ [n]) ++ r) = None.
Proof.
  intros Hd Hn Hr. assert (Habs : ∀ r', c !! ((p ++ [n]) ++ r') = None) by (intros; by apply tree_ok_absent).
  unfold change_at. destruct (_ && _); [|done]. rewrite Habs. destruct (b !! _); [|done].
  rewrite removelast_app by done.
  unfold dir_at at 1. rewrite Habs. cbn [orb]. destruct (replaced_above c _) eqn:Hrep; [|done].
  apply existsb_exists in Hrep as (k & _ & Hk). destruct (decide (k ≤ length p)%nat).
  - rewrite <- app_assoc, take_app_le in Hk by lia. pose proof (dir_above c p k Hc Hd) as Hdk.
    unfold dir_at in Hdk. destruct (c !! take k p); [|done]. by rewrite Hdk in Hk.
  - rewrite take_app_ge, Habs in Hk; [done|]. rewrite length_app. cbn. lia.
Qed.

(** *** What is left of the limits *)

Abbreviation U := (elements (dom b ∪ dom c) : list Path).
Context (deep : ∀ p, p ∈ U → (length p ≤ diff_max_depth limits)%nat).

Definition total (cost : Path → Z) (X : Path → bool) : Z := foldr (λ p n, (if X p then cost p else 0) + n) 0 U.
Definition one (_ : Path) : Z := 1.
Definition base_bytes (p : Path) : Z := match b !! p with Some n => Z.of_nat (length (n_data n)) | None => 0 end.
Definition less (X R : Path → bool) : Path → bool := λ p, X p && negb (R p).
Definition is_path (q p : Path) : bool := bool_decide (p = q).

(** The entries of [X] and the bytes of their files can still be compared. *)
Definition affords (X : Path → bool) (w : Walk) : Prop :=
  visited w + total one X ≤ max_entries limits ∧ compared_bytes w + total base_bytes X < max_compare_bytes limits.

Lemma cost_pos p : 0 ≤ one p ∧ 0 ≤ base_bytes p.
Proof. unfold one, base_bytes. destruct (b !! p); lia. Qed.

Lemma total_mono cost X Y :
  (∀ p, 0 ≤ cost p) → (∀ p, X p = true → Y p = true) → total cost X ≤ total cost Y.
Proof.
  clear deep. intros Hc0 Hxy. unfold total. induction U as [|p l IH]; cbn [foldr]; [lia|]. specialize (Hc0 p). specialize (Hxy p).
  revert Hxy. destruct (X p), (Y p); intros Hxy; [lia|by specialize (Hxy eq_refl)|lia|lia].
Qed.

Lemma total_pos cost X : (∀ p, 0 ≤ cost p) → 0 ≤ total cost X.
Proof.
  clear deep. intros Hc0. unfold total. induction U as [|p l IH]; cbn [foldr]; [lia|]. specialize (Hc0 p).
  destruct (X p); lia.
Qed.

Lemma total_remove cost X p :
  (∀ p, 0 ≤ cost p) → p ∈ U → X p = true → total cost (less X (is_path p)) + cost p ≤ total cost X.
Proof.
  intros Hc0 Hin Hp. unfold total.
  assert (Hle : ∀ l : list Path, foldr (λ q n, (if less X (is_path p) q then cost q else 0) + n) 0 l ≤
                  foldr (λ q n, (if X q then cost q else 0) + n) 0 l).
  { induction l as [|q l IH]; cbn [foldr]; [lia|]. unfold less at 1. specialize (Hc0 q).
    destruct (X q), (is_path p q); cbn; lia. }
  clear deep. revert Hin. induction U as [|q l IH]; cbn [foldr]; [by intros ?%not_elem_of_nil|].
  intros [<-|Hin]%elem_of_cons.
  - unfold less at 1, is_path at 1. rewrite bool_decide_true, Hp by done. cbn [negb andb]. specialize (Hle l). lia.
  - specialize (IH Hin). specialize (Hc0 q). unfold less at 1. destruct (X q), (is_path p q); cbn [negb andb]; lia.
Qed.

Lemma affords_mono X Y w : (∀ p, X p = true → Y p = true) → affords Y w → affords X w.
Proof.
  intros Hxy [H1 H2]. split.
  - pose proof (total_mono one X Y (λ p, proj1 (cost_pos p)) Hxy). lia.
  - pose proof (total_mono base_bytes X Y (λ p, proj2 (cost_pos p)) Hxy). lia.
Qed.

(** *** Parts of the walk *)

(** [m] walks the paths of [R]: it records how they change, nothing else, and
    uses up no more than they cost. *)
Definition covered (w : Walk) (X R : Path → bool) (s : Walk * Still) : Prop :=
  here s.2 ∧ affords (less X R) s.1 ∧ ∀ p, changes s.1 !! p = if R p then change p else changes w !! p.
Definition covers (m : W unit) (R : Path → bool) : Prop :=
  ∀ w os X, here os → affords X w → (∀ p, R p = true → X p = true ∧ changes w !! p = None) →
    wp m (λ _, covered w X R) (w, os).

Lemma covers_weaken m R R' :
  covers m R → (∀ p, R p = true → R' p = true) → (∀ p, R' p = true → R p = false → change p = None) → covers m R'.
Proof.
  intros Hm Hsub Hnone w os X Hh HX HR. eapply wp_mono; [apply Hm; [done|done|auto]|].
  intros _ s' (Hs & Ha & Hch). split; [done|]. split.
  - eapply affords_mono; [|exact Ha]. intros p. unfold less. rewrite !andb_true_iff, !negb_true_iff. intros [? Hp].
    split; [done|]. destruct (R p) eqn:HRp; [|done]. by rewrite Hsub in Hp.
  - intros p. rewrite Hch. destruct (R p) eqn:HRp; [by rewrite Hsub|].
    destruct (R' p) eqn:HR'p; [|done]. rewrite (Hnone p) by done. by apply HR.
Qed.

Lemma covers_ret R : (∀ p, R p = true → change p = None) → covers (wret tt) R.
Proof.
  intros Hnone. apply covers_weaken with (λ _, false); [|done|auto]. intros w os X Hh HX _. split; [done|]. split; [|done].
  eapply affords_mono; [|exact HX]. intros p. unfold less. by rewrite andb_true_r.
Qed.

Lemma covers_seq (m : W unit) (k : unit → W unit) R1 R2 :
  covers m R1 → covers (k tt) R2 → (∀ p, R1 p = true → R2 p = false) →
  covers (wbind m k) (λ p, R1 p || R2 p).
Proof.
  intros H1 H2 Hdisj w os X Hh HX HR. apply wp_bind. eapply wp_mono.
  { apply H1; [done|done|]. intros p Hp. apply HR. by rewrite Hp. }
  intros [] [w1 os1] (Hh1 & Ha1 & Hc1). cbn [fst snd] in *. eapply wp_mono.
  { apply H2; [done|exact Ha1|]. intros p Hp. destruct (R1 p) eqn:H1p; [by rewrite Hdisj in Hp|].
    rewrite Hc1, H1p. unfold less. rewrite H1p, andb_true_r. apply HR. by rewrite Hp, orb_true_r. }
  intros _ s' (Hh2 & Ha2 & Hc2). split; [done|]. split.
  - eapply affords_mono; [|exact Ha2]. intros p. unfold less. destruct (X p), (R1 p), (R2 p); done.
  - intros p. rewrite Hc2, Hc1. by destruct (R1 p), (R2 p).
Qed.

Definition under (q p : Path) : bool := bool_decide (q `prefix_of` p).
Definition inside (q p : Path) : bool := under q p && negb (is_path q p).

Lemma under_Some q p : under q p = true ↔ ∃ r, p = q ++ r.
Proof. unfold under. by rewrite bool_decide_eq_true. Qed.
Lemma inside_Some q p : inside q p = true ↔ ∃ r, r ≠ [] ∧ p = q ++ r.
Proof.
  unfold inside, is_path. rewrite andb_true_iff, under_Some, negb_true_iff, bool_decide_eq_false. split.
  - intros [[r ->] Hne]. exists r. split; [|done]. intros ->. by rewrite app_nil_r in Hne.
  - intros (r & Hr & ->). split; [by eexists|]. intros Heq. apply Hr, (app_inv_head q). by rewrite app_nil_r.
Qed.

Lemma covers_for_each (f : string → W unit) rel names :
  NoDup names → (∀ n, n ∈ names → covers (f n) (under (rel ++ [n]))) →
  covers (for_each f names) (λ p, existsb (λ n, under (rel ++ [n]) p) names).
Proof.
  induction names as [|n names IH]; intros Hnd Hf; cbn [for_each existsb]; [by apply covers_ret|].
  apply NoDup_cons in Hnd as [Hn Hnd].
  apply covers_seq; [apply Hf; by left|apply IH; [done|intros; apply Hf; by right]|].
  intros p [r ->]%under_Some. destruct (existsb _ names) eqn:He; [|done].
  apply existsb_exists in He as (m & Hm%list_elem_of_In & [r' Heq]%under_Some).
  rewrite <- !app_assoc in Heq. apply app_inv_head in Heq. by injection Heq as ->.
Qed.

(** *** One entry *)

(** The calls on a directory of the tree [t] kept below the root [r]. *)
Section side.
Context (r : string) (t : Tree) (side : ∀ os, here os → still_trees os !! r = Some t).

Lemma stat_at_still p n w os Q :
  here os → Q (Ok (n_stat <$> t !! (p ++ [n]))) (w, os) → wp (stat_at (r, p) n) Q (w, os).
Proof.
  intros Hh HQ. unfold stat_at. apply wp_bind, wp_call. cbn [statat still_os fst snd]. unfold node_at. cbn [fst snd].
  rewrite (side _ Hh). cbn. by destruct (t !! (p ++ [n])).
Qed.
Lemma open_dir_still p n x w os Q :
  here os → t !! (p ++ [n]) = Some x → is_dir_node x = true →
  Q (if n_open x then OpenedDir (r, p ++ [n]) else OpenedDenied) (w, os) →
  wp (open_dir (r, p) n) Q (w, os).
Proof.
  intros Hh Hx Hd%bool_decide_eq_true HQ. unfold open_dir. apply wp_bind, wp_call. cbn [openat_dir still_os fst snd].
  unfold node_at. cbn [fst snd]. rewrite (side _ Hh). cbn [mbind option_bind]. rewrite Hx, Hd. by destruct (n_open x).
Qed.
Lemma list_names_still p w os (Q : list string → Walk * Still → Prop) :
  here os → tree_ok t →
  (∀ l, NoDup l → (∀ n, n ∈ l ↔ is_Some (t !! (p ++ [n]))) → Q l (w, os)) → wp (list_names (r, p)) Q (w, os).
Proof.
  intros Hh (_ & _ & Ht) HQ. unfold list_names, or_io. apply wp_bind, wp_call. cbn [read_entries still_os fst snd].
  rewrite (side _ Hh). apply wp_bind, wp_ret, wp_ret. apply HQ.
  - unfold btree_set. rewrite merge_sort_Permutation. apply NoDup_remove_dups.
  - intros n. unfold btree_set. rewrite merge_sort_Permutation, elem_of_remove_dups, list_elem_of_filter.
    rewrite !elem_of_cons, list_elem_of_omap. setoid_rewrite child_name_Some. split.
    + intros [[? ?] [->|[->|(q & Hq & ->)]]]; [done..|]. apply list_elem_of_fmap in Hq as ([q' x] & -> & Hq).
      apply elem_of_map_to_list in Hq. by exists x.
    + intros [x Hx]. destruct (Ht _ _ Hx) as (_ & H1 & H2 & _). rewrite last_last in H1, H2. split; [done|].
      right. right. exists (p ++ [n]). split; [|done]. apply list_elem_of_fmap. exists (p ++ [n], x).
      by rewrite elem_of_map_to_list.
Qed.
End side.

Lemma side_base os : here os → still_trees os !! rb = Some b.
Proof. by intros (? & _). Qed.
Lemma side_cur os : here os → still_trees os !! rc = Some c.
Proof. by intros (_ & ? & _). Qed.

(** [child] is paid for and nothing is recorded about it yet. *)
Definition examined (child : Path) (w : Walk) (X : Path → bool) (s : Walk * Still) : Prop :=
  here s.2 ∧ changes s.1 = changes w ∧ affords (less X (is_path child)) s.1.
(** [child] is counted, its bytes may still be read. *)
Definition counted (child : Path) (w : Walk) (X : Path → bool) (s : Walk * Still) : Prop :=
  here s.2 ∧ changes s.1 = changes w ∧ visited s.1 + total one (less X (is_path child)) ≤ max_entries limits ∧
  compared_bytes s.1 + total base_bytes X < max_compare_bytes limits.

Lemma visit_still child depth w os X :
  here os → affords X w → child ∈ U → X child = true → depth = length child →
  wp (visit limits depth) (λ _, counted child w X) (w, os).
Proof.
  intros Hh [HX1 HX2] HU Hx ->. unfold visit. rewrite (proj2 (Nat.ltb_ge _ _)) by by apply deep.
  apply wp_bind, wp_upd. unfold Diff.wp, wbind, walk_get. cbn [fst snd visited].
  pose proof (total_remove one X child (λ p, proj1 (cost_pos p)) HU Hx) as Hrem. unfold one in Hrem at 2.
  pose proof (total_pos one (less X (is_path child)) (λ p, proj1 (cost_pos p))) as Hpos.
  destruct (_ >? _) eqn:Hm; [lia|]. unfold counted. cbn. split_and!; try done. lia.
Qed.

Lemma counted_compared child w X s s' :
  child ∈ U → X child = true → counted child w X s → compared (base_bytes child) s.1 s' → examined child w X s'.
Proof.
  intros HU Hx (Hh & Hch & Hv & Hcb) (Hh' & Hv' & Hch' & Hcb'). split; [done|]. split; [congruence|]. split; [lia|].
  pose proof (total_remove base_bytes X child (λ p, proj2 (cost_pos p)) HU Hx). lia.
Qed.
Lemma counted_examined child w X s :
  child ∈ U → X child = true → counted child w X s → examined child w X s.
Proof.
  intros HU Hx Hs. eapply counted_compared; [done|done|exact Hs|]. destruct s as [w1 os1].
  apply compared_refl; [apply cost_pos|]. by destruct Hs.
Qed.

Lemma examined_record child k w X s :
  examined child w X s → change child = Some k → wp (record child k) (λ _, covered w X (is_path child)) s.
Proof.
  intros (Hh & Hch & Ha) Hk. apply wp_upd. split; [done|]. split; [done|]. intros p. cbn [fst changes]. unfold is_path.
  case_bool_decide as Hp; [subst; by rewrite lookup_insert_eq, Hk|by rewrite lookup_insert_ne, Hch].
Qed.
Lemma examined_same child w X s :
  examined child w X s → change child = None → changes w !! child = None → covered w X (is_path child) s.
Proof.
  intros (Hh & Hch & Ha) Hk Hw. split; [done|]. split; [done|]. intros p. rewrite Hch. unfold is_path.
  case_bool_decide as Hp; [subst; by rewrite Hw, Hk|done].
Qed.

(** The entry and then what is below it. *)
Lemma covered_rest child (m : W unit) w X s :
  covers m (inside child) → covered w X (is_path child) s →
  (∀ p, under child p = true → X p = true ∧ changes w !! p = None) →
  wp m (λ _, covered w X (under child)) s.
Proof.
  intros Hm (Hh & Ha & Hch) HR. destruct s as [w1 os1]. cbn [fst snd] in *. eapply wp_mono.
  { apply Hm; [done|exact Ha|]. intros p. unfold inside. rewrite andb_true_iff, negb_true_iff. intros [H1 H2].
    rewrite Hch, H2. unfold less. rewrite H2, andb_true_r. by apply HR. }
  assert (Hself : under child child = true) by (apply under_Some; exists []; by rewrite app_nil_r).
  intros _ s' (Hh' & Ha' & Hch'). split; [done|]. split.
  - eapply affords_mono; [|exact Ha']. intros p. unfold less, inside.
    destruct (X p), (under child p) eqn:Hu, (is_path child p) eqn:Hp; try done.
    apply bool_decide_eq_true in Hp. by rewrite Hp, Hself in Hu.
  - intros p. rewrite Hch', Hch. unfold inside. destruct (is_path child p) eqn:Hp; [|by rewrite andb_true_r].
    apply bool_decide_eq_true in Hp as ->. by rewrite Hself.
Qed.

(** *** Directories *)

(** Names that [f] walks cover everything below a directory. *)
Lemma covers_names (f : string → W unit) rel names :
  NoDup names → (∀ n, is_Some (b !! (rel ++ [n])) ∨ is_Some (c !! (rel ++ [n])) → n ∈ names ∨ change (rel ++ [n]) = None ∧
    ∀ r, change ((rel ++ [n]) ++ r) = None) →
  (∀ n, n ∈ names → covers (f n) (under (rel ++ [n]))) →
  covers (for_each f names) (inside rel).
Proof.
  intros Hnd Hall Hf. eapply covers_weaken; [by apply covers_for_each|..].
  - intros p (n & _ & [r ->]%under_Some)%existsb_exists. apply inside_Some. exists ([n] ++ r).
    split; [done|]. by rewrite app_assoc.
  - intros p ([|n r] & Hr & ->)%inside_Some Hnot; [done|]. change (n :: r) with ([n] ++ r). rewrite app_assoc.
    destruct (b !! (rel ++ [n])) eqn:Hbn, (c !! (rel ++ [n])) eqn:Hcn.
    4:{ apply change_absent; by apply tree_ok_absent. }
    all: destruct (Hall n) as [Hin|[_ Hnone]]; [rewrite ?Hbn, ?Hcn; eauto| |by apply Hnone].
    all: exfalso; enough (existsb (λ n0, under (rel ++ [n0]) (rel ++ n :: r)) names = true) by congruence.
    all: apply existsb_exists; exists n; split; [by apply list_elem_of_In|]; apply under_Some; exists r.
    all: by rewrite <- app_assoc.
Qed.

Lemma record_children_still r t fuel p name kind :
  (∀ os, here os → still_trees os !! r = Some t) → tree_ok t → dom t ⊆ dom b ∪ dom c →
  dir_at t (p ++ [name]) = true → seen (p ++ [name]) → uniform t (p ++ [name]) kind →
  (∀ r', shut b ((p ++ [name]) ++ r') || shut c ((p ++ [name]) ++ r') = shut t ((p ++ [name]) ++ r')) →
  (∀ r', t !! ((p ++ [name]) ++ r') = None → change ((p ++ [name]) ++ r') = None) →
  (diff_max_depth limits + 1 ≤ fuel + length (p ++ [name]))%nat →
  covers (record_children limits skip fuel (r, p) name (p ++ [name]) (S (length (p ++ [name]))) kind)
    (inside (p ++ [name])).
Proof.
  intros Hside Ht Hdom. revert p name. induction fuel as [|fuel IH]; intros p name Hd Hk Hu Hsh Habs Hf.
  { exfalso. assert (Hin : p ++ [name] ∈ U).
    { apply elem_of_elements, Hdom, elem_of_dom. apply dir_at_Some in Hd as (? & -> & _). by eexists. }
    apply deep in Hin. lia. }
  set (dir := p ++ [name]) in *. intros w os X Hh HX HR. cbn [record_children]. apply wp_bind.
  destruct (dir_at_Some _ _ Hd) as (x & Hx & Hxd). eapply open_dir_still; [done|done|exact Hx|done|].
  change (p ++ [name]) with dir.
  assert (Hshut : shut b dir || shut c dir = negb (n_open x)).
  { specialize (Hsh []). rewrite app_nil_r in Hsh. rewrite Hsh. unfold shut. change (t !! dir = Some x) in Hx.
    by rewrite Hx, Hxd. }
  destruct (n_open x); cbn [negb] in Hshut.
  2:{ revert w os X Hh HX HR. apply covers_ret. intros q (r' & Hr' & ->)%inside_Some.
      apply shut_unseen; [by apply orb_true_iff|done]. }
  apply orb_false_iff in Hshut as [Hsb Hsc].
  apply wp_bind. apply (list_names_still r t); [done|done|done|]. intros names Hnd Hnames.
  eapply covers_names; [done| | |done|done|done].
  - intros n _. destruct (t !! (dir ++ [n])) eqn:Hn.
    + left. apply Hnames. eexists. exact Hn.
    + right. split; [by apply Habs|]. intros r'. rewrite <- app_assoc. apply Habs. rewrite app_assoc.
      by apply tree_ok_absent.
  - clear w os X Hh HX HR. intros n Hn. apply Hnames in Hn as [y Hy]. change (t !! (dir ++ [n]) = Some y) in Hy.
    assert (HU : dir ++ [n] ∈ U) by (apply elem_of_elements, Hdom, elem_of_dom; by eexists).
    destruct (is_skipped skip (dir ++ [n])) eqn:Hskip.
    { apply covers_ret. intros q [r' ->]%under_Some. apply change_not_seen. intros Hk'.
      apply seen_prefix, seen_app in Hk' as (_ & _ & _ & Hk'). congruence. }
    assert (Hkn : seen (dir ++ [n])) by by apply seen_app.
    intros w os X Hh HX HR. apply wp_bind.
    destruct (HR (dir ++ [n])) as [HXn Hwn]; [apply under_Some; exists []; by rewrite app_nil_r|].
    eapply wp_mono; [apply (visit_still (dir ++ [n])); [done..|rewrite length_app; cbn; lia]|].
    intros [] [w1 os1] Hc1. assert (Hh1 : here os1) by by destruct Hc1.
    apply wp_bind. apply (stat_at_still r t); [done|done|]. rewrite Hy. cbn [fmap option_fmap option_map].
    apply wp_bind. eapply wp_mono.
    { apply examined_record; [by apply counted_examined|].
      pose proof (Hu [n] ltac:(done) Hkn) as Hun. rewrite Hy in Hun. exact Hun. }
    intros [] s2 Hs2. rewrite is_dir_stat_node. eapply covered_rest; [|exact Hs2|exact HR].
    assert (Hlen : length (dir ++ [n]) = S (length dir)) by (rewrite length_app; cbn; lia).
    destruct (is_dir_node y) eqn:Hyd.
    + rewrite <- Hlen. apply IH; [unfold dir_at; by rewrite Hy|done| | | |lia].
      * intros r' Hr' Hk'. rewrite <- app_assoc in *. by apply Hu.
      * intros r'. rewrite <- app_assoc. apply Hsh.
      * intros r' Hr'. rewrite <- app_assoc in *. by apply Habs.
    + apply covers_ret. intros q (r' & Hr' & ->)%inside_Some. rewrite <- app_assoc. apply Habs. rewrite app_assoc.
      by apply (tree_ok_leaf _ _ _ y).
Qed.

Lemma not_dir_not_shut t p : dir_at t p = false → shut t p = false.
Proof. unfold dir_at, shut. by destruct (t !! p) as [n|]; [intros ->|]. Qed.

(** Everything that is new below an entry. *)
Lemma added_still fuel p n y :
  c !! (p ++ [n]) = Some y → seen (p ++ [n]) → dir_at b (p ++ [n]) = false →
  (∀ r, r ≠ [] → b !! ((p ++ [n]) ++ r) = None) →
  (diff_max_depth limits + 1 ≤ fuel + length (p ++ [n]))%nat →
  covers (if is_dir_node y then record_children limits skip fuel (rc, p) n (p ++ [n]) (S (length (p ++ [n]))) Added
          else wret tt) (inside (p ++ [n])).
Proof.
  intros Hy Hk Hnd Hnone Hf. destruct (is_dir_node y) eqn:Hd.
  - assert (Habs : ∀ r, r ≠ [] → c !! ((p ++ [n]) ++ r) = None → change ((p ++ [n]) ++ r) = None).
    { intros r Hr Hcr. apply change_absent; [by apply Hnone|done]. }
    apply (record_children_still rc c); [apply side_cur|done|set_solver|unfold dir_at; by rewrite Hy|done| | | |done].
    + by apply uniform_added.
    + intros r. replace (shut b _) with false; [done|]. symmetry. destruct r as [|a r].
      * rewrite app_nil_r. by apply not_dir_not_shut.
      * unfold shut. by rewrite Hnone.
    + intros [|a r]; [rewrite app_nil_r; congruence|by apply Habs].
  - apply covers_ret. intros q (r & Hr & ->)%inside_Some. apply change_absent; [by apply Hnone|].
    by apply (tree_ok_leaf _ _ _ y).
Qed.

(** Everything below a directory that has become something else. *)
Lemma replaced_still fuel p n x y :
  b !! (p ++ [n]) = Some x → c !! (p ++ [n]) = Some y → is_dir_node y = false → seen (p ++ [n]) →
  (diff_max_depth limits + 1 ≤ fuel + length (p ++ [n]))%nat →
  covers (if is_dir_node x && negb (is_dir_node y)
          then record_children limits skip fuel (rb, p) n (p ++ [n]) (S (length (p ++ [n]))) Deleted
          else wret tt) (inside (p ++ [n])).
Proof.
  intros Hx Hy Hd Hk Hf. rewrite Hd. cbn [negb]. rewrite andb_true_r.
  assert (Habs : ∀ r, r ≠ [] → b !! ((p ++ [n]) ++ r) = None → change ((p ++ [n]) ++ r) = None).
  { intros r Hr Hbr. apply change_absent; [done|]. by apply (tree_ok_leaf _ _ _ y). }
  destruct (is_dir_node x) eqn:Hxd.
  - apply (record_children_still rb b); [apply side_base|done|set_solver|unfold dir_at; by rewrite Hx|done| | | |done].
    + apply (uniform_replaced _ y); [by destruct p|done|done].
    + intros r. replace (shut c _) with false; [by rewrite orb_false_r|]. symmetry. destruct r as [|a r].
      * rewrite app_nil_r. apply not_dir_not_shut. unfold dir_at. by rewrite Hy.
      * unfold shut. by rewrite (tree_ok_leaf c _ _ y).
    + intros [|a r]; [rewrite app_nil_r; congruence|by apply Habs].
  - apply covers_ret. intros q (r & Hr & ->)%inside_Some. apply Habs; [done|]. by apply (tree_ok_leaf _ _ _ x).
Qed.

(** An entry that is not a directory on both sides. *)
Lemma leaf_still fuel p n x y w X s :
  b !! (p ++ [n]) = Some x → c !! (p ++ [n]) = Some y → is_dir_node x && is_dir_node y = false →
  seen (p ++ [n]) → (diff_max_depth limits + 1 ≤ fuel + length (p ++ [n]))%nat →
  p ++ [n] ∈ U → counted (p ++ [n]) w X s →
  (∀ q, under (p ++ [n]) q = true → X q = true ∧ changes w !! q = None) →
  wp (let% v := compare_leaf limits started (rb, p) (rc, p) n (n_stat x) (n_stat y) in
      match v with
      | Same => wret tt
      | Gone => record (p ++ [n]) Deleted
      | Changed =>
          record (p ++ [n]) Modified ;%
          (if is_dir_node y then record_children limits skip fuel (rc, p) n (p ++ [n]) (S (length (p ++ [n]))) Added
           else wret tt) ;%
          (if is_dir_node x && negb (is_dir_node y)
           then record_children limits skip fuel (rb, p) n (p ++ [n]) (S (length (p ++ [n]))) Deleted else wret tt)
      end) (λ _, covered w X (under (p ++ [n]))) s.
Proof.
  intros Hx Hy Hdirs Hk Hf HU Hs HR. destruct s as [w1 os1].
  destruct (HR (p ++ [n])) as [HX Hw]; [apply under_Some; exists []; by rewrite app_nil_r|].
  assert (Hbb : base_bytes (p ++ [n]) = Z.of_nat (length (n_data x))) by (unfold base_bytes; by rewrite Hx).
  assert (Hchange : change (p ++ [n]) = if leaf_differs x y then Some Modified else None).
  { rewrite change_seen by (done || by destruct p). by rewrite Hx, Hy, Hdirs. }
  apply wp_bind. eapply wp_mono.
  { apply compare_leaf_still; [by destruct Hs|done|done|]. destruct Hs as (_ & _ & _ & Hcb). cbn [fst] in Hcb.
    pose proof (total_remove base_bytes X (p ++ [n]) (λ p, proj2 (cost_pos p)) HU HX) as Hrem. rewrite Hbb in Hrem.
    pose proof (total_pos base_bytes (less X (is_path (p ++ [n]))) (λ p, proj2 (cost_pos p))). lia. }
  intros v s2 [-> Hs2]. rewrite <- Hbb in Hs2. apply (counted_compared (p ++ [n]) w X (w1, os1)) in Hs2; [|done..].
  destruct (leaf_differs x y) eqn:Hdiff; cbn [negb verdict].
  - apply wp_bind. eapply wp_mono; [by apply examined_record|]. intros [] s3 Hs3.
    destruct (is_dir_node y) eqn:Hyd.
    + rewrite andb_true_r in Hdirs. rewrite Hdirs. cbn [andb].
      apply wp_bind, (wp_mono _ _ (λ _, covered w X (under (p ++ [n])))); [|by intros []].
      eapply covered_rest; [|exact Hs3|done].
      pose proof (added_still fuel p n y Hy Hk) as Hadd. rewrite Hyd in Hadd. apply Hadd; [unfold dir_at; by rewrite Hx| |done].
      intros r Hr. by apply (tree_ok_leaf _ _ _ x).
    + apply wp_bind, wp_ret. eapply covered_rest; [|exact Hs3|done].
      pose proof (replaced_still fuel p n x y Hx Hy Hyd Hk Hf) as Hrep. by rewrite Hyd in Hrep.
  - eapply covered_rest; [|by apply examined_same|done]. apply covers_ret. intros q (r & Hr & ->)%inside_Some.
    assert (Htype : node_type x = node_type y).
    { unfold leaf_differs in Hdiff. apply orb_false_iff in Hdiff as [Hdiff _]. apply orb_false_iff in Hdiff as [Hdiff _].
      apply negb_false_iff in Hdiff. by apply bool_decide_eq_true in Hdiff. }
    assert (Hsame : is_dir_node x = is_dir_node y) by (unfold is_dir_node; by rewrite Htype).
    rewrite Hsame, andb_diag in Hdirs. rewrite Hdirs in Hsame.
    apply change_absent; [by apply (tree_ok_leaf _ _ _ x)|by apply (tree_ok_leaf _ _ _ y)].
Qed.

(** A path in sight at which neither tree has a closed directory. *)
Definition clear (p : Path) : Prop := seen p ∧ shut b p = false ∧ shut c p = false.

Lemma compare_name_still fuel descend p n :
  (∀ child, length child = S (length p) → dir_at b child = true → dir_at c child = true → clear child →
    covers (descend (rb, child) (rc, child) child (S (length child))) (inside child)) →
  dir_at b p = true → dir_at c p = true → clear p →
  is_Some (b !! (p ++ [n])) ∨ is_Some (c !! (p ++ [n])) →
  (diff_max_depth limits + 1 ≤ fuel + S (length p))%nat →
  covers (compare_name limits skip started fuel descend (rb, p) (rc, p) p (S (length p)) n) (under (p ++ [n])).
Proof.
  intros Hdesc Hdb Hdc (Hk & Hsb & Hsc) Hin Hf. unfold compare_name. set (child := p ++ [n]) in *.
  assert (Hlen : length child = S (length p)) by (unfold child; rewrite length_app; cbn; lia).
  destruct (is_skipped skip child) eqn:Hskip.
  { apply covers_ret. intros q [r ->]%under_Some. apply change_not_seen. intros Hk'.
    apply seen_prefix, seen_app in Hk' as (_ & _ & _ & Hk'). unfold child in Hskip. congruence. }
  assert (Hkc : seen child) by by apply seen_app.
  assert (HU : child ∈ U) by (apply elem_of_elements, elem_of_union; rewrite !elem_of_dom; done).
  intros w os X Hh HX HR. destruct (HR child) as [HXc Hwc]; [apply under_Some; exists []; by rewrite app_nil_r|].
  apply wp_bind. eapply wp_mono; [by apply (visit_still child)|]. intros [] [w1 os1] Hc1.
  assert (Hh1 : here os1) by by destruct Hc1.
  apply wp_bind, (stat_at_still rb b); [apply side_base|done|].
  apply wp_bind, (stat_at_still rc c); [apply side_cur|done|]. fold child.
  assert (Hne : child ≠ []) by (unfold child; by destruct p). pose proof (change_seen child Hne Hkc) as Hch.
  apply counted_examined in Hc1 as He1; [|done..].
  destruct (b !! child) as [x|] eqn:Hx, (c !! child) as [y|] eqn:Hy; cbn [fmap option_fmap option_map].
  - unfold compare_entry. rewrite !is_dir_stat_node. destruct (is_dir_node x && is_dir_node y) eqn:Hdirs.
    + apply andb_true_iff in Hdirs as [Hxd Hyd]. unfold compare_subdirs. apply wp_bind.
      apply wp_mono with (λ _, covered w X (is_path child)).
      { destruct (decide (owner (n_stat x) = owner (n_stat y))); [by apply examined_same|by apply examined_record]. }
      intros [] [w2 os2] Hs2. assert (Hh2 : here os2) by by destruct Hs2.
      apply wp_bind. eapply (open_dir_still rb b side_base); [done|exact Hx|done|].
      apply wp_bind. eapply (open_dir_still rc c side_cur); [done|exact Hy|done|]. fold child.
      assert (Hshx : shut b child = negb (n_open x)) by (unfold shut; by rewrite Hx, Hxd).
      assert (Hshy : shut c child = negb (n_open y)) by (unfold shut; by rewrite Hy, Hyd).
      destruct (n_open x && n_open y) eqn:Hopen.
      * apply andb_true_iff in Hopen as [Hox Hoy]. rewrite Hox, Hoy in *.
        eapply covered_rest; [|exact Hs2|done]. rewrite <- Hlen.
        apply Hdesc; [done|unfold dir_at; by rewrite Hx|unfold dir_at; by rewrite Hy|done].
      * assert (covers (wret tt) (inside child)) as Hnone.
        { apply covers_ret. intros q (r & Hr & ->)%inside_Some. apply shut_unseen; [|done].
          rewrite Hshx, Hshy. destruct (n_open x), (n_open y); (by left) || (by right) || done. }
        pose proof (covered_rest child (wret tt) w X (w2, os2) Hnone Hs2 HR) as Hrest.
        by destruct (n_open x), (n_open y).
    + rewrite <- Hlen. apply leaf_still; try done. change (p ++ [n]) with child. lia.
  - eapply wp_mono; [apply examined_record; [done|]|].
    { rewrite Hch. unfold child at 1. by rewrite removelast_last, Hdc. }
    intros [] s2 Hs2. eapply (covered_rest child (wret tt)); [|exact Hs2|done].
    apply covers_ret. intros q (r & Hr & ->)%inside_Some. by apply change_below_deleted.
  - apply wp_bind. eapply wp_mono; [by apply examined_record|]. intros [] s2 Hs2. rewrite is_dir_stat_node.
    eapply covered_rest; [|exact Hs2|done]. rewrite <- Hlen. apply added_still; [done|done| | |unfold child in Hlen; lia].
    { unfold dir_at. change (p ++ [n]) with child. by rewrite Hx. }
    intros r Hr. by apply tree_ok_absent.
  - by destruct Hin as [[? ?]|[? ?]].
Qed.

Lemma compare_dir_still fuel p :
  dir_at b p = true → dir_at c p = true → clear p → (diff_max_depth limits + 1 ≤ fuel + length p)%nat →
  covers (compare_dir limits skip started fuel (rb, p) (rc, p) p (S (length p))) (inside p).
Proof.
  revert p. induction fuel as [|fuel IH]; intros p Hdb Hdc Hk Hf.
  { exfalso. assert (Hin : p ∈ U).
    { apply elem_of_elements, elem_of_union. left. apply elem_of_dom. apply dir_at_Some in Hdb as (? & -> & _). by eexists. }
    apply deep in Hin. lia. }
  cbn [compare_dir]. intros w os X Hh HX HR.
  apply wp_bind, (list_names_still rb b); [apply side_base|done|done|]. intros old _ Hold.
  apply wp_bind, (list_names_still rc c); [apply side_cur|done|done|]. intros new _ Hnew.
  assert (Hnames : ∀ n, n ∈ btree_set (old ++ new) ↔ is_Some (b !! (p ++ [n])) ∨ is_Some (c !! (p ++ [n]))).
  { intros n. unfold btree_set. by rewrite merge_sort_Permutation, elem_of_remove_dups, elem_of_app, Hold, Hnew. }
  eapply covers_names; [|intros n Hn; left; by apply Hnames| |done|done|done].
  - unfold btree_set. rewrite merge_sort_Permutation. apply NoDup_remove_dups.
  - intros n Hn%Hnames. apply compare_name_still; [|done|done|done|done|lia].
    intros child Hlen Hd1 Hd2 Hkc. apply IH; [done|done|done|lia].
Qed.
End exact.

(** The bytes of a tree's files. *)
Definition sum_with {A} (f : A → Z) (l : list A) : Z := foldr (λ x n, f x + n) 0 l.
Definition tree_bytes (t : Tree) : Z := sum_with (λ x, Z.of_nat (length (n_data x.2))) (map_to_list t).

Lemma sum_with_submseteq {A} (f : A → Z) l k : (∀ x, 0 ≤ f x) → l ⊆+ k → sum_with f l ≤ sum_with f k.
Proof.
  intros Hf. unfold sum_with.
  induction 1 as [|x l k _ IH|x y l|x l k _ IH|l k m _ IH1 _ IH2]; cbn [foldr]; try (pose proof (Hf x)); lia.
Qed.

Lemma base_bytes_bound b (l : list Path) : NoDup l → sum_with (base_bytes b) l ≤ tree_bytes b.
Proof.
  intros Hnd. transitivity (sum_with (base_bytes b) (filter (λ p, is_Some (b !! p)) l)).
  - clear. unfold sum_with. induction l as [|p l IH]; [done|]. rewrite filter_cons.
    case_decide as Hp; cbn [foldr]; [lia|].
    unfold base_bytes at 1. destruct (b !! p); [by destruct Hp|lia].
  - transitivity (sum_with (base_bytes b) (map_to_list b).*1).
    + apply sum_with_submseteq; [apply cost_pos|]. apply NoDup_submseteq; [by apply NoDup_filter|].
      intros p [[n Hn] _]%list_elem_of_filter. apply list_elem_of_fmap. exists (p, n). by rewrite elem_of_map_to_list.
    + unfold tree_bytes. apply Z.eq_le_incl.
      assert (Hall : Forall (λ x, b !! x.1 = Some x.2) (map_to_list b)).
      { apply Forall_forall. intros [p n]. apply elem_of_map_to_list. }
      unfold sum_with. induction Hall as [|[p n] k Hp _ IH]; [done|]. cbn [fmap list_fmap foldr fst snd] in *.
      unfold base_bytes at 1. rewrite Hp. lia.
Qed.

(** C16: when nothing changes during the walk, both roots can be opened, every
    entry of an opened directory can be statted, the limits cover both trees and
    the deadline is not reached (the clock stands), the walk succeeds and
    reports exactly what differs: an entry of its own, by [change_at], and
    otherwise as modified a directory with a change below.  By [change_at] the
    contents of two files are compared where both can be read, and else their
    sizes and mtimes; and nothing is reported below a directory that cannot be
    opened in one of the trees, or of a skipped path. *)
Theorem diff_exact (os : Still) (base current : string) (b c : Tree) (skip : list string) (limits : DiffLimits)
    (image_tree : still_trees os !! base = Some b) (sandbox_tree : still_trees os !! current = Some c)
    (base_ok : tree_ok b) (current_ok : tree_ok c)
    (depth : ∀ p, p ∈ dom b ∪ dom c → (length p ≤ diff_max_depth limits)%nat)
    (entries : Z.of_nat (size (dom b ∪ dom c)) ≤ max_entries limits + 1)
    (contents : tree_bytes b < max_compare_bytes limits) (deadline : 0 < compare_deadline limits) :
  ∃ l, diff_trees base current skip limits os = Ok l ∧
    ∀ k p, mkFsChange k p ∈ l ↔
      change_at skip b c p = Some k ∨
      change_at skip b c p = None ∧ k = Modified ∧ p ≠ [] ∧ ∃ q, below p q ∧ is_Some (change_at skip b c q).
Proof.
  assert (Hdeep : ∀ p, p ∈ (elements (dom b ∪ dom c) : list Path) → (length p ≤ diff_max_depth limits)%nat).
  { intros p Hp%elem_of_elements. by apply depth. }
  pose proof (compare_dir_still skip limits base current b c (still_clock os) base_ok current_ok deadline Hdeep
    (S (diff_max_depth limits)) []) as Hwalk.
  assert (Haff : affords limits b c (inside []) (mkWalk 0 0 ∅)).
  { pose proof (total_remove b c one (λ _, true) [] ltac:(intros; unfold one; lia)) as Hone.
    assert (Hin : [] ∈ (elements (dom b ∪ dom c) : list Path)).
    { apply elem_of_elements, elem_of_union_l, elem_of_dom. destruct base_ok as [Hd _].
      apply dir_at_Some in Hd as (? & -> & _). by eexists. }
    specialize (Hone Hin eq_refl). unfold one at 2 in Hone.
    assert (Hsub : total b c one (inside []) ≤ total b c one (less (λ _, true) (is_path []))).
    { apply total_mono; [intros; unfold one; lia|]. unfold inside, less. intros p Hp.
      by apply andb_true_iff in Hp as [_ ->]. }
    assert (Hlen : total b c one (λ _, true) = Z.of_nat (size (dom b ∪ dom c))).
    { unfold total, size, set_size, compose. generalize (elements (dom b ∪ dom c) : list Path). intros l.
      induction l as [|p l IH]; [done|]. cbn [foldr length]. unfold one at 1. lia. }
    split; cbn [visited compared_bytes]; [lia|].
    pose proof (base_bytes_bound b (elements (dom b ∪ dom c)) (NoDup_elements _)) as Hbytes.
    assert (Htot : total b c (base_bytes b) (inside []) ≤ sum_with (base_bytes b) (elements (dom b ∪ dom c))).
    { apply (total_mono b c (base_bytes b) (inside []) (λ _, true)); [apply cost_pos|done]. }
    lia. }
  destruct base_ok as (Hrb & Hsb & _), current_ok as (Hrc & Hsc & _).
  assert (Hclear : clear skip b c []).
  { split; [|done]. split; intros k Hk; cbn in Hk; lia. }
  specialize (Hwalk Hrb Hrc Hclear ltac:(cbn; lia) (mkWalk 0 0 ∅) os (inside [])
    ltac:(by split) Haff ltac:(intros p Hp; split; [done|apply lookup_empty])).
  unfold wp in Hwalk. unfold diff_trees, diff_walk, open_root, wbind, call, or_io, wret.
  apply dir_at_Some in Hrb as (nb & Hnb & Hdb), Hrc as (nc & Hnc & Hdc).
  unfold shut in Hsb, Hsc. rewrite Hnb, Hdb in Hsb. rewrite Hnc, Hdc in Hsc.
  apply negb_false_iff in Hsb, Hsc.
  cbn [openat_root clock still_os fst snd]. rewrite image_tree, Hnb, Hsb.
  cbn [openat_root clock still_os fst snd]. rewrite sandbox_tree, Hnc, Hsc.
  cbn [length] in Hwalk. destruct (compare_dir _ _ _ _ _ _ _ _ _) as [[u|e] [w os']]; [|done].
  destruct Hwalk as (_ & _ & Hch). cbn [fst snd changes] in Hch.
  assert (Hchanges : ∀ p, changes w !! p = change_at skip b c p).
  { intros [|n p].
    - rewrite Hch. unfold change_at. rewrite andb_false_r. by rewrite lookup_empty; case_match.
    - rewrite Hch. replace (inside [] (n :: p)) with true; [done|]. symmetry. apply inside_Some. by exists (n :: p). }
  eexists. split; [done|]. intros k p. rewrite elem_of_report, add_parents_lookup, Hchanges.
  setoid_rewrite Hchanges. naive_solver.
Qed.
End still.

(** ** An image and a sandbox *)

(** The file type bits of a mode. *)
Definition posix_file_type (mode : Z) : FileType :=
  let t := Z.land mode 61440 in
  if t =? 32768 then FtRegularFile else if t =? 16384 then FtDirectory else if t =? 40960 then FtSymlink
  else if t =? 4096 then FtFifo else if t =? 49152 then FtSocket else if t =? 8192 then FtCharacterDevice
  else if t =? 24576 then FtBlockDevice else FtUnknown.
Definition demo_errno (e : Errno) : IoError :=
  mkIo (match e with NOENT => IoNotFound | ACCESS => IoPermissionDenied | _ => IoElse end) "".
Definition demo_node (mode mtime : Z) (data : bytes) : Node :=
  mkNode (mkStat mode 0 0 (Z.of_nat (length data)) 0 mtime 0) data true.
Definition closed (n : Node) : Node := mkNode (n_stat n) (n_data n) false.
Definition demo_dir : Node := demo_node 16877 5 [].
Definition demo_file (data : bytes) : Node := demo_node 33188 5 data.

Definition demo_image_tree : Tree :=
  list_to_map [([], demo_dir); (["etc"], demo_dir); (["etc"; "hosts"], demo_file [Byte.x61; Byte.x62]);
               (["etc"; "motd"], demo_file [Byte.x61]); (["bin"], demo_dir); (["bin"; "sh"], demo_file [Byte.x7f]);
               (["lib"], demo_dir); (["lib"; "a"], demo_file []); (["init"], demo_file [Byte.x01]);
               (["root"], closed demo_dir); (["shadow"], closed (demo_file [Byte.x01]));
               (["sudoers"], closed (demo_file [Byte.x01]))].
Definition demo_sandbox_tree : Tree :=
  list_to_map [([], demo_dir); (["etc"], demo_dir); (["etc"; "hosts"], demo_file [Byte.x61; Byte.x63]);
               (["etc"; "motd"], demo_node 33188 9 [Byte.x61]); (["tmp"], demo_dir); (["tmp"; "x"], demo_file []);
               (["lib"], demo_node 41471 5 [Byte.x2f]); (["init"], demo_file [Byte.x02]);
               (["root"], demo_dir); (["root"; "x"], demo_file []); (["shadow"], closed (demo_file [Byte.x02]));
               (["sudoers"], demo_node 33188 9 [Byte.x01])].
Definition demo_still : Still :=
  mkStill (list_to_map [("/images/a", demo_image_tree); ("/sandboxes/b", demo_sandbox_tree)]) [] 100.
#[local] Instance demo_os : DiffOs Still (string * Path) nat := still_os posix_file_type demo_errno.

Example demo_diff :
  diff_trees "/images/a" "/sandboxes/b" ["/init"] default_diff_limits demo_still =
  Ok [mkFsChange Deleted ["bin"]; mkFsChange Modified ["etc"]; mkFsChange Modified ["etc"; "hosts"];
      mkFsChange Modified ["lib"]; mkFsChange Deleted ["lib"; "a"]; mkFsChange Modified ["sudoers"];
      mkFsChange Added ["tmp"]; mkFsChange Added ["tmp"; "x"]].
Proof. vm_compute. reflexivity. Qed.

#[export] Instance node_ok_dec t p n : Decision (node_ok posix_file_type t p n).
Proof. unfold node_ok. apply _. Defined.
#[export] Instance tree_ok_dec t : Decision (tree_ok posix_file_type t).
Proof. unfold tree_ok. apply _. Defined.

Lemma diff_exact_witness :
  ∃ l, diff_trees "/images/a" "/sandboxes/b" ["/init"] default_diff_limits demo_still = Ok l ∧
    ∀ k p, mkFsChange k p ∈ l ↔
      change_at posix_file_type ["/init"] demo_image_tree demo_sandbox_tree p = Some k ∨
      change_at posix_file_type ["/init"] demo_image_tree demo_sandbox_tree p = None ∧ k = Modified ∧ p ≠ [] ∧
        ∃ q, below p q ∧ is_Some (change_at posix_file_type ["/init"] demo_image_tree demo_sandbox_tree q).
Proof.
  apply (diff_exact posix_file_type demo_errno demo_still "/images/a" "/sandboxes/b" demo_image_tree demo_sandbox_tree).
  - reflexivity.
  - reflexivity.
  - apply (bool_decide_unpack _). vm_compute. exact I.
  - apply (bool_decide_unpack _). vm_compute. exact I.
  - change (set_Forall (λ p : Path, (length p ≤ diff_max_depth default_diff_limits)%nat)
      (dom demo_image_tree ∪ dom demo_sandbox_tree)).
    apply (bool_decide_unpack _). vm_compute. exact I.
  - vm_compute. discriminate.
  - vm_compute. reflexivity.
  - reflexivity.
Defined.

Lemma diff_bounded_witness :
  0 ≤ max_entries default_diff_limits ∧
  match diff_trees "/images/a" "/sandboxes/b" ["/init"] default_diff_limits demo_still with
  | Ok l => Z.of_nat (length l) ≤ max_entries default_diff_limits * Z.of_nat (diff_max_depth default_diff_limits)
  | Err e => refused e
  end.
Proof.
  split; [vm_compute; discriminate|].
  pose proof (diff_bounded "/images/a" "/sandboxes/b" ["/init"] default_diff_limits demo_still
    ltac:(vm_compute; discriminate)) as H.
  destruct (diff_trees _ _ _ _ _) as [l|e]; [exact (proj1 H)|exact H].
Defined.
