(* ===== verification/Commit.v ===== *)
(** * Commit: a sandbox's files as a new image

    Models [ward-core/src/backend/commit.rs] and [commit_meta.rs].  The source
    tree belongs to a guest that may change it while it is copied, so the file
    system is an interface, as in [Diff]: every call answers what it likes.
    What the copy does to its destination is a list of operations, each of
    which may fail; [trace] keeps those that succeeded. *)

From stdpp Require Import base list numbers option strings pretty gmap sorting.
From Stdlib Require Import ZArith Lia Ascii.
From S2P Require Import Prelude Text Protocol Output Archive Manager Launch Diff.
Local Open Scope Z_scope.

(** ** Data *)

Definition MAX_COMMIT_ENTRIES : Z := 500000.
Definition MAX_COMMIT_DEPTH : nat := 64.
Definition MAX_COMMIT_BYTES : Z := 10 * 1024 * 1024 * 1024.
Definition COPY_CHUNK_BYTES : Z := 64 * 1024.
(** [Mode::SUID | Mode::SGID], [Mode::RWXU] and [Mode::RUSR | Mode::WUSR]. *)
Definition PRIVILEGE_BITS : Z := 3072.
Definition RWXU : Z := 448.
Definition RW_USER : Z := 384.
Definition USER_XATTR_PREFIX : string := "user.".
Definition CAPABILITY_XATTR : string := "security.capability".
Definition PERM : Errno := OtherErrno 1.
Definition NXIO : Errno := OtherErrno 6.
Definition INVAL : Errno := OtherErrno 22.
Definition NOSYS : Errno := OtherErrno 38.
Definition OPNOTSUPP : Errno := OtherErrno 95.

Record CopyLimits := mkCopyLimits { max_entries : Z; max_depth : nat; max_bytes : Z }.
Definition default_copy_limits : CopyLimits := mkCopyLimits MAX_COMMIT_ENTRIES MAX_COMMIT_DEPTH MAX_COMMIT_BYTES.
(** A run that needs more rounds than it was given is told apart. *)
Inductive CopyError := TooLarge | Cancelled | CopyBackend (e : BackendError) | CopyOutOfFuel.

Record LinkInfo := mkLinkInfo { st_nlink : Z; st_dev : Z; st_ino : Z }.
Abbreviation InodeId := (Z * Z)%type.
Definition inode_id (l : LinkInfo) : InodeId := (st_dev l, st_ino l).

(** What is done to the destination; a path is below its root. *)
Inductive DstOp :=
| MkDir (p : Path) (mode : Z)
| OpenDst (p : Path)
| CreateFile (p : Path) (mode : Z)
| WriteAt (p : Path) (at_ : Z) (data : bytes)
| SetLen (p : Path) (len : Z)
| Chown (p : Path) (uid gid : Z)
| SetXattr (p : Path) (name : string) (value : bytes)
| Chmod (p : Path) (mode : Z)
| SetTimes (p : Path) (mtime : Z)
| SymlinkAt (target : bytes) (p : Path)
| LinkAt (first p : Path)
| MkNod (p : Path) (kind : FileType) (mode : Z) (device : Z).

(** What the copy calls beside the operations of a diff; an inode is a
    directory or a file. *)
Class CommitOs (OS Fd File : Type) := {
  commit_diff :: DiffOs OS Fd File;
  dst_call : DstOp → OS → result unit Errno * OS;
  fstat_dir : Fd → OS → result Stat Errno * OS;
  fstat_link : File → OS → result (Stat * LinkInfo) Errno * OS;
  seek_data : File → Z → OS → result Z Errno * OS;
  seek_hole : File → Z → OS → result Z Errno * OS;
  read_at : File → Z → Z → OS → result bytes Errno * OS;
  list_xattr : Fd + File → OS → result (list string) Errno * OS;
  get_xattr : Fd + File → string → OS → result bytes Errno * OS;
  cancelled : OS → bool;
}.

Record Copy := mkCopy {
  linked : gmap InodeId Path;
  copy_visited : Z;
  copied_bytes : Z;
  trace : list DstOp;
}.

(** ** The monad of the copy *)

Section monad.
Context {OS : Type}.
Definition K (A : Type) : Type := Copy * OS → result A CopyError * (Copy * OS).
Definition kret {A} (a : A) : K A := λ s, (Ok a, s).
Definition kfail {A} (e : CopyError) : K A := λ s, (Err e, s).
Definition kbind {A B} (m : K A) (k : A → K B) : K B := λ s,
  match m s with (Ok a, s) => k a s | (Err e, s) => (Err e, s) end.
Definition kcall {A} (f : OS → A * OS) : K A := λ '(c, os), let '(a, os) := f os in (Ok a, (c, os)).
Definition kget : K (Copy * OS) := λ s, (Ok s, s).
Definition kupd (f : Copy → Copy) : K unit := λ '(c, os), (Ok tt, (f c, os)).
Fixpoint k_each {A} (f : A → K unit) (l : list A) : K unit :=
  match l with [] => kret tt | x :: l => kbind (f x) (λ _, k_each f l) end.
End monad.
Arguments K : clear implicits.
Notation "'let^' x := m 'in' k" := (kbind m (λ x, k))
  (at level 10, x pattern, m at level 100, k at level 200) : ward_scope.
Notation "m ;^ k" := (kbind m (λ _, k))
  (at level 100, k at level 200, right associativity) : ward_scope.

Section copy.
Context {OS Fd File : Type} `{HC : !CommitOs OS Fd File}.
Abbreviation K := (K OS).

(** [unreadable]. *)
Definition unreadable (rel : Path) (e : Errno) : CopyError :=
  let e := errno_io e in
  CopyBackend (BIo (mkIo (io_kind e) (cat ["cannot copy /"; join "/" rel; ": "; io_text e]))).
Definition or_unreadable {A} (rel : Path) (r : result A Errno) : K A :=
  match r with Ok a => kret a | Err e => kfail (unreadable rel e) end.

(** An operation on the destination. *)
Definition dst (op : DstOp) : K (result unit Errno) := λ '(c, os),
  match dst_call op os with
  | (Ok _, os) => (Ok (Ok tt), (mkCopy (linked c) (copy_visited c) (copied_bytes c) (trace c ++ [op]), os))
  | (Err e, os) => (Ok (Err e), (c, os))
  end.
Definition must (rel : Path) (op : DstOp) : K unit := let^ r := dst op in or_unreadable rel r.
Definition try_dst (op : DstOp) : K unit := let^ _ := dst op in kret tt.

Definition no_privilege (s : Stat) : Z := Z.ldiff (mode_bits s) PRIVILEGE_BITS.
Definition is_preserved_xattr (name : string) : bool :=
  starts_with USER_XATTR_PREFIX name || bool_decide (name = CAPABILITY_XATTR).
Definition copy_xattrs (from : Fd + File) (rel : Path) : K unit :=
  let^ names := kcall (list_xattr from) in
  match names with
  | Err _ => kret tt
  | Ok names =>
      k_each (λ name,
        if negb (is_preserved_xattr name) then kret tt else
        let^ value := kcall (get_xattr from name) in
        match value with Err _ => kret tt | Ok value => try_dst (SetXattr rel name value) end)
        (filter (λ n, n ≠ "") names)
  end.
Definition restore_metadata (from : Fd + File) (rel : Path) (s : Stat) : K unit :=
  try_dst (Chown rel (st_uid s) (st_gid s)) ;^
  copy_xattrs from rel ;^
  must rel (Chmod rel (no_privilege s)) ;^
  must rel (SetTimes rel (st_mtime s)).

(** [next_data_run]. *)
Definition next_data_run (f : File) (pos size : Z) : K (result (option (Z * Z)) Errno) :=
  if size <=? pos then kret (Ok None) else
  let^ r := kcall (seek_data f pos) in
  match r with
  | Err e =>
      kret (if decide (e = NXIO) then Ok None
            else if decide (e = INVAL ∨ e = OPNOTSUPP ∨ e = NOSYS) then Ok (Some (pos, size))
            else Err e)
  | Ok start =>
      if size <=? start then kret (Ok None) else
      let^ hole := kcall (seek_hole f start) in
      kret (Ok (Some (start, match hole with Ok e => Z.min e size | Err _ => size end)))
  end.

(** [make_special]. *)
Definition make_special (rel : Path) (kind : FileType) (s : Stat) : K bool :=
  let^ r := dst (MkNod rel kind (no_privilege s) (st_rdev s)) in
  match r with
  | Err e => if decide (e = PERM ∨ e = ACCESS) then kret false else kfail (unreadable rel e)
  | Ok _ => must rel (Chmod rel (no_privilege s)) ;^ kret true
  end.

Section limited.
Context (limits : CopyLimits) (skip : list string).

Definition check_cancelled : K unit := let^ (_, os) := kget in if cancelled os then kfail Cancelled else kret tt.
Definition copy_visit (depth : nat) : K unit :=
  check_cancelled ;^
  if (max_depth limits <? depth)%nat
  then kfail (CopyBackend (BResourceExhausted ("the filesystem nests deeper than " +:+
         pretty (max_depth limits) +:+ " directories"))) else
  kupd (λ c, mkCopy (linked c) (copy_visited c + 1) (copied_bytes c) (trace c)) ;^
  let^ (c, _) := kget in
  if copy_visited c >? max_entries limits
  then kfail (CopyBackend (BResourceExhausted ("the filesystem has more than " +:+
         pretty (max_entries limits) +:+ " entries to commit"))) else kret tt.

(** The reads of one run: every one but the last takes a byte, so the bytes
    still allowed bound them. *)
Definition run_round (f : File) (rel : Path) (end_ at_ : Z) : K (option Z) :=
  if end_ <=? at_ then kret None else
  check_cancelled ;^
  let^ r := kcall (read_at f at_ (Z.min COPY_CHUNK_BYTES (end_ - at_))) in
  let^ data := or_unreadable rel r in
  match data with
  | [] => kret None
  | _ =>
      kupd (λ c, mkCopy (linked c) (copy_visited c) (copied_bytes c + Z.of_nat (length data)) (trace c)) ;^
      let^ (c, _) := kget in
      if copied_bytes c >? max_bytes limits then kfail TooLarge else
      must rel (WriteAt rel at_ data) ;^
      kret (Some (at_ + Z.of_nat (length data)))
  end.
(** A loop of rounds of [f], each of which names the next or ends. *)
Definition k_loop {A} (p : positive) (f : A → K (option A)) (a : A) : K unit := λ s,
  let step '(a, s) :=
    match f a s with
    | (Ok (Some a), s) => inl (a, s)
    | (Ok None, s) => inr (Ok tt, s)
    | (Err e, s) => inr (Err e, s)
    end in
  match loop_pos p step (a, s) with inr r => r | inl (_, s) => (Err CopyOutOfFuel, s) end.
Definition copy_run (f : File) (rel : Path) (start end_ : Z) : K unit :=
  let^ (c, _) := kget in
  k_loop (Z.to_pos (max_bytes limits - copied_bytes c + 1)) (run_round f rel end_) start.
(** One data run; the next starts at its end. *)
Definition data_round (f : File) (rel : Path) (size pos : Z) : K (option Z) :=
  let^ r := next_data_run f pos size in
  let^ run := or_unreadable rel r in
  match run with
  | None => kret None
  | Some (start, end_) => copy_run f rel start end_ ;^ kret (Some end_)
  end.
Definition copy_data (f : File) (size : Z) (rel : Path) : K unit :=
  let size := Z.max 0 size in
  k_loop (Z.to_pos (size + 1)) (data_round f rel size) 0 ;^
  must rel (SetLen rel size).

Definition copy_file (src : Fd) (name : string) (rel : Path) : K unit :=
  let^ r := kcall (openat_file src name) in
  match r with
  | Err (NOENT | LOOP) => kret tt
  | Err e => kfail (unreadable rel e)
  | Ok input =>
      let^ r := kcall (fstat_link input) in
      let^ (s, l) := or_unreadable rel r in
      if negb (bool_decide (file_type s = FtRegularFile)) then kret tt else
      let^ (c, _) := kget in
      match (if st_nlink l >? 1 then linked c !! inode_id l else None) with
      | Some first => must rel (LinkAt first rel)
      | None =>
          must rel (CreateFile rel RW_USER) ;^
          copy_data input (st_size s) rel ;^
          restore_metadata (inr input) rel s ;^
          if st_nlink l >? 1
          then kupd (λ c, mkCopy (<[inode_id l := rel]> (linked c)) (copy_visited c) (copied_bytes c) (trace c))
          else kret tt
      end
  end.
Definition copy_link (src : Fd) (name : string) (rel : Path) (s : Stat) : K unit :=
  let^ r := kcall (readlinkat src name) in
  match r with
  | Err e => if decide (e = NOENT ∨ e = INVAL) then kret tt else kfail (unreadable rel e)
  | Ok target =>
      must rel (SymlinkAt target rel) ;^
      try_dst (Chown rel (st_uid s) (st_gid s)) ;^
      try_dst (SetTimes rel (st_mtime s))
  end.
Definition copy_special (rel : Path) (kind : FileType) (s : Stat) : K unit :=
  let^ made := make_special rel kind s in
  if made : bool then
    try_dst (Chown rel (st_uid s) (st_gid s)) ;^
    must rel (SetTimes rel (st_mtime s))
  else kret tt.

(** The copy of the directories below, as [copy_subdir] calls it. *)
Abbreviation Descend := (Fd → Path → nat → K unit).
Definition copy_subdir (descend : Descend) (src : Fd) (name : string) (rel : Path) (depth : nat) : K unit :=
  let^ r := kcall (openat_dir src name) in
  match r with
  | Err (NOENT | LOOP | NOTDIR) => kret tt
  | Err e => kfail (unreadable rel e)
  | Ok inner =>
      let^ r := kcall (fstat_dir inner) in
      let^ s := or_unreadable rel r in
      must rel (MkDir rel RWXU) ;^
      must rel (OpenDst rel) ;^
      descend inner rel (S depth) ;^
      restore_metadata (inl inner) rel s
  end.
(** [list_names], in the copy's monad. *)
Definition copy_names (src : Fd) : K (list string) :=
  let^ r := kcall (read_entries src) in
  match r with
  | Err e => kfail (CopyBackend (BIo (errno_io e)))
  | Ok l => kret (btree_set (filter (λ n, n ≠ "." ∧ n ≠ "..") l))
  end.
Definition copy_entry (descend : Descend) (src : Fd) (rel : Path) (depth : nat) (name : string) : K unit :=
  let child := rel ++ [name] in
  if is_skipped skip child then kret tt else
  copy_visit depth ;^
  let^ r := kcall (statat src name) in
  match r with
  | Err NOENT => kret tt
  | Err e => kfail (unreadable child e)
  | Ok s =>
      match file_type s with
      | FtDirectory => copy_subdir descend src name child depth
      | FtRegularFile => copy_file src name child
      | FtSymlink => copy_link src name child s
      | (FtFifo | FtCharacterDevice | FtBlockDevice) as kind => copy_special child kind s
      | _ => kret tt
      end
  end.
(** The fuel bounds the nesting. *)
Fixpoint copy_dir (fuel : nat) (src : Fd) (rel : Path) (depth : nat) : K unit :=
  match fuel with
  | O => kfail CopyOutOfFuel
  | S fuel =>
      let^ names := copy_names src in
      k_each (copy_entry (copy_dir fuel) src rel depth) names
  end.
End limited.

(** [copy_tree]: the bytes copied, and what was done. *)
Definition copy_tree (src : string) (skip : list string) (limits : CopyLimits) (os : OS) : result Z CopyError * list DstOp :=
  let '(r, (c, _)) :=
    (let^ r := kcall (openat_root src) in
     match r with
     | Err e => kfail (CopyBackend (BIo (errno_io e)))
     | Ok root =>
         let^ r := dst (OpenDst []) in
         match r with
         | Err e => kfail (CopyBackend (BIo (errno_io e)))
         | Ok _ =>
             copy_dir limits skip (max_depth limits + 2) root [] 1 ;^
             let^ (c, _) := kget in kret (copied_bytes c)
         end
     end) (mkCopy ∅ 0 0 [], os) in
  (r, trace c).
End copy.

(** ** What a copy can do

    Against any file system, whatever the guest does to the source meanwhile. *)

Definition op_path (op : DstOp) : Path :=
  match op with
  | MkDir p _ | OpenDst p | CreateFile p _ | WriteAt p _ _ | SetLen p _ | Chown p _ _ | SetXattr p _ _ | Chmod p _
  | SetTimes p _ | SymlinkAt _ p | LinkAt _ p | MkNod p _ _ _ => p
  end.
(** The mode an operation sets gives no privilege. *)
Definition mode_ok (op : DstOp) : Prop :=
  match op with
  | MkDir _ m | CreateFile _ m | Chmod _ m | MkNod _ _ m _ => Z.land m PRIVILEGE_BITS = 0
  | _ => True
  end.
Definition creates (op : DstOp) : Z :=
  match op with MkDir _ _ | CreateFile _ _ | SymlinkAt _ _ | LinkAt _ _ | MkNod _ _ _ _ => 1 | _ => 0 end.
Definition writes (op : DstOp) : Z := match op with WriteAt _ _ b => Z.of_nat (length b) | _ => 0 end.
Definition sum_of (f : DstOp → Z) (l : list DstOp) : Z := foldr (λ op n, f op + n) 0 l.
Lemma sum_of_app f l l' : sum_of f (l ++ l') = sum_of f l + sum_of f l'.
Proof. unfold sum_of. induction l as [|op l IH]; [done|]. cbn [app foldr]. rewrite IH. lia. Qed.

(** The directory of [p] is the root or one the copy has made before. *)
Definition parent_made (before : list DstOp) (p : Path) : Prop :=
  removelast p = [] ∨ ∃ m, MkDir (removelast p) m ∈ before.
(** An operation keeps to the copy: it works on a path within the limits and
    not left out, in a directory the copy made; a hard link names a file it made. *)
Definition op_contained (limits : CopyLimits) (skip : list string) (before : list DstOp) (op : DstOp) : Prop :=
  let p := op_path op in
  op = OpenDst [] ∨
  (1 ≤ length p ≤ max_depth limits)%nat ∧ (∀ k, (k < length p)%nat → is_skipped skip (take (S k) p) = false) ∧ parent_made before p ∧ mode_ok op ∧
  match op with LinkAt first _ => ∃ m, CreateFile first m ∈ before | _ => True end.
Definition trace_contained (limits : CopyLimits) (skip : list string) (l : list DstOp) : Prop :=
  ∀ i op, l !! i = Some op → op_contained limits skip (take i l) op.

Section contained.
Context {OS Fd File : Type} `{HC : !CommitOs OS Fd File} (limits : CopyLimits) (skip : list string).
Abbreviation K := (K OS).

Record copy_ok (c : Copy) : Prop := {
  co_trace : trace_contained limits skip (trace c);
  co_written : sum_of writes (trace c) ≤ copied_bytes c;
  co_bytes : sum_of writes (trace c) ≤ Z.max 0 (max_bytes limits);
  co_created : sum_of creates (trace c) ≤ copy_visited c;
  co_entries : sum_of creates (trace c) ≤ Z.max 0 (max_entries limits);
  co_linked id p : linked c !! id = Some p → ∃ m, CreateFile p m ∈ trace c;
}.
Definition grows (c c' : Copy) : Prop := trace c `prefix_of` trace c'.
#[local] Instance grows_preorder : PreOrder grows.
Proof. split; [by intros c; unfold grows|]. intros c1 c2 c3. unfold grows. by etrans. Qed.
Definition hoare {A} (P : Copy → Prop) (m : K A) (Q : A → Copy → Prop) : Prop :=
  ∀ s r s', m s = (r, s') → copy_ok s.1 → P s.1 →
  copy_ok s'.1 ∧ grows s.1 s'.1 ∧ match r with Ok a => Q a s'.1 | Err _ => True end.

Lemma hoare_ret {A} (P : Copy → Prop) (a : A) (Q : A → Copy → Prop) : (∀ c, P c → Q a c) → hoare P (kret a) Q.
Proof. intros HQ s r s' [= <- <-] Hok HP. split_and!; [done|done|by apply HQ]. Qed.
Lemma hoare_fail {A} P e (Q : A → Copy → Prop) : hoare P (kfail e) Q.
Proof. intros s r s' [= <- <-] Hok HP. by split_and!. Qed.
Lemma hoare_bind {A B} P (m : K A) (k : A → K B) Q R :
  hoare P m Q → (∀ a, hoare (Q a) (k a) R) → hoare P (kbind m k) R.
Proof.
  intros Hm Hk s r s'. unfold kbind. destruct (m s) as [[a|e] s1] eqn:H1; intros H2 Hok HP;
    destruct (Hm s _ s1 H1 Hok HP) as (Hok1 & G1 & HQ).
  - destruct (Hk a s1 r s' H2 Hok1 HQ) as (? & G2 & ?). split_and!; [done|by etrans|done].
  - injection H2 as <- <-. by split_and!.
Qed.
Lemma hoare_pre {A} (P P' : Copy → Prop) (m : K A) Q : (∀ c, copy_ok c → P c → P' c) → hoare P' m Q → hoare P m Q.
Proof. intros HP Hm s r s' H Hok Hp. apply (Hm s r s' H Hok). by apply HP. Qed.
Lemma hoare_post {A} P (m : K A) (Q Q' : A → Copy → Prop) : hoare P m Q → (∀ a c, Q a c → Q' a c) → hoare P m Q'.
Proof. intros Hm HQ s r s' H Hok Hp. destruct (Hm s r s' H Hok Hp) as (? & ? & ?). split_and!; [done..|]. destruct r; auto. Qed.
(** What only the source's side does. *)
Lemma hoare_call {A} P (f : OS → A * OS) : hoare P (kcall f) (λ _, P).
Proof. intros [c os] r s'. cbn. destruct (f os) as [a os']. intros [= <- <-] Hok HP. by split_and!. Qed.
Lemma hoare_get P : hoare P kget (λ s c, s.1 = c ∧ P c).
Proof. intros s r s' [= <- <-] Hok HP. by split_and!. Qed.
(** What stays true while the trace grows stays true. *)
Definition stable (R : Copy → Prop) : Prop := ∀ c c', grows c c' → R c → R c'.
Lemma hoare_frame {A} P (m : K A) Q R : stable R → hoare P m Q → hoare (λ c, P c ∧ R c) m (λ a c, Q a c ∧ R c).
Proof.
  intros HR Hm s r s' H Hok [HP HRs]. destruct (Hm s r s' H Hok HP) as (? & Hg & ?). split_and!; [done..|]. destruct r; [|done].
  split; [done|by eapply HR].
Qed.
Lemma hoare_lift {A} P rel (r : result A Errno) : hoare P (or_unreadable rel r) (λ _, P).
Proof. destruct r; [by apply hoare_ret|apply hoare_fail]. Qed.
Lemma hoare_each {A} P (f : A → K unit) l : (∀ a, hoare P (f a) (λ _, P)) → hoare P (k_each f l) (λ _, P).
Proof.
  intros Hf. induction l as [|a l IH]; cbn; [by apply hoare_ret|]. eapply hoare_bind; [apply Hf|]. intros ?. exact IH.
Qed.
Lemma hoare_loop {A} P (f : A → K (option A)) p a : (∀ a, hoare P (f a) (λ _, P)) → hoare P (k_loop p f a) (λ _, P).
Proof.
  intros Hf s r s' H Hok HP. unfold k_loop in H.
  match type of H with context [loop_pos _ ?g _] => set (step := g) in H end.
  set (I := λ x : A * (Copy * OS), copy_ok x.2.1 ∧ grows s.1 x.2.1 ∧ P x.2.1).
  set (J := λ x : result unit CopyError * (Copy * OS), copy_ok x.2.1 ∧ grows s.1 x.2.1 ∧ match x.1 with Ok _ => P x.2.1 | Err _ => True end).
  assert (match loop_pos p step (a, s) with inl x => I x | inr x => J x end) as Hinv.
  { apply loop_pos_inv; [|by split_and!]. intros [b sb] (Hb & Gb & Pb). unfold step, I, J.
    destruct (f b sb) as [[[b'|]|e] sb'] eqn:Hfb; destruct (Hf b _ _ _ Hfb Hb Pb) as (? & ? & ?); cbn; split_and!; try done; by etrans. }
  destruct (loop_pos p step (a, s)) as [[a' s1]|[r1 s1]]; injection H as <- <-; destruct Hinv as (? & ? & ?); by split_and!.
Qed.

(** *** Operations on the destination *)

Definition placed (rel : Path) (c : Copy) : Prop :=
  (1 ≤ length rel ≤ max_depth limits)%nat ∧ (∀ k, (k < length rel)%nat → is_skipped skip (take (S k) rel) = false) ∧ parent_made (trace c) rel.
(** One more entry may be made. *)
Definition room (c : Copy) : Prop := sum_of creates (trace c) < copy_visited c ≤ max_entries limits.
Definition made (op : DstOp) (c : Copy) : Prop := op ∈ trace c.

Lemma made_stable op : stable (made op).
Proof. intros c c' [k Hk]. unfold made. rewrite Hk. set_solver. Qed.
Lemma placed_stable rel : stable (placed rel).
Proof.
  intros c c' [k Hk] (Hl & Hs & Hp). split; [done|]. split; [done|]. destruct Hp as [|[m Hm]]; [by left|]. right. exists m. rewrite Hk. set_solver.
Qed.
Lemma trace_snoc l op : trace_contained limits skip l → op_contained limits skip l op → trace_contained limits skip (l ++ [op]).
Proof.
  intros Hl Ho i x Hi. apply lookup_app_Some in Hi as [Hi|[Hge Hi]].
  - rewrite take_app_le by (apply lookup_lt_Some in Hi; lia). by apply Hl.
  - apply list_lookup_singleton_Some in Hi as [Hz <-]. by rewrite take_app_length' by lia.
Qed.
(** The operation is of this kind, and the copy has what it needs for it. *)
Definition fits (op : DstOp) (c : Copy) : Prop :=
  placed (op_path op) c ∧ mode_ok op ∧ (creates op = 0 ∨ creates op = 1 ∧ room c) ∧
  (writes op = 0 ∨ sum_of writes (trace c) + writes op ≤ copied_bytes c ≤ max_bytes limits) ∧
  match op with LinkAt first _ => ∃ m, made (CreateFile first m) c | _ => True end.
Lemma hoare_dst op : hoare (fits op) (dst op) (λ r c, match r with Ok _ => made op c | Err _ => fits op c end).
Proof.
  intros [c os] r s'. cbn. destruct (dst_call op os) as [[[]|e] os']; intros [= <- <-] Hok Hf; [|by split_and!].
  destruct Hok as [Ht Hw Hb Hc He Hl], Hf as (Hp & Hm & Hcr & Hwr & Hlk). cbn [fst].
  split_and!; [|by exists [op]|unfold made; cbn; set_solver]. split; cbn [trace linked copied_bytes copy_visited];
    rewrite ?sum_of_app; cbn [sum_of foldr]; unfold room in *; try lia.
  - apply trace_snoc; [done|]. right. destruct Hp as (? & ? & ?). split; [done|]. split; [done|]. split; [done|]. split; [done|]. by destruct op.
  - intros id p [m Hin]%Hl. exists m. set_solver.
Qed.
Lemma hoare_must rel op : hoare (fits op) (must rel op) (λ _, made op).
Proof.
  unfold must. eapply hoare_bind; [apply hoare_dst|]. intros [[]|e]; [by apply hoare_ret|apply hoare_fail].
Qed.
Lemma hoare_try op : hoare (fits op) (try_dst op) (λ _ _, True).
Proof. unfold try_dst. eapply hoare_bind; [apply hoare_dst|]. intros r. by apply hoare_ret. Qed.

(** An operation that neither makes nor writes. *)
Definition plain (op : DstOp) : Prop := creates op = 0 ∧ writes op = 0 ∧ mode_ok op ∧ match op with LinkAt _ _ => False | _ => True end.
Lemma plain_fits op c : plain op → placed (op_path op) c → fits op c.
Proof. intros (? & ? & ? & ?) Hp. split_and!; auto. by destruct op. Qed.
Lemma hoare_plain rel op : plain op → op_path op = rel → hoare (placed rel) (must rel op) (λ _, placed rel).
Proof.
  intros Hpl <-. eapply hoare_pre; [intros c _ Hc; exact (conj (plain_fits _ _ Hpl Hc) Hc)|].
  eapply hoare_post; [apply hoare_frame; [apply placed_stable|apply hoare_must]|]. by intros ? ? [_ ?].
Qed.
Lemma hoare_plain_try rel op : plain op → op_path op = rel → hoare (placed rel) (try_dst op) (λ _, placed rel).
Proof.
  intros Hpl <-. eapply hoare_pre; [intros c _ Hc; exact (conj (plain_fits _ _ Hpl Hc) Hc)|].
  eapply hoare_post; [apply hoare_frame; [apply placed_stable|apply hoare_try]|]. by intros ? ? [_ ?].
Qed.
(** An operation that makes an entry. *)
Lemma hoare_makes rel op :
  creates op = 1 → writes op = 0 → mode_ok op → op_path op = rel → match op with LinkAt _ _ => False | _ => True end →
  hoare (λ c, placed rel c ∧ room c) (must rel op) (λ _ c, made op c ∧ placed rel c).
Proof.
  intros Hcr Hw Hm <- Hl. eapply hoare_pre with (P' := λ c, fits op c ∧ placed (op_path op) c).
  { intros c _ [Hp Hr]. split; [|done]. split_and!; auto. by destruct op. }
  apply hoare_frame; [apply placed_stable|apply hoare_must].
Qed.
Lemma no_privilege_ok s : Z.land (no_privilege s) PRIVILEGE_BITS = 0.
Proof. unfold no_privilege. by rewrite Z.land_ldiff. Qed.

(** *** The parts of the copy *)

Lemma hoare_cancelled P : hoare P check_cancelled (λ _, P).
Proof.
  unfold check_cancelled. eapply hoare_bind; [apply hoare_get|]. intros [c os]. destruct (cancelled os); [apply hoare_fail|].
  apply hoare_ret. by intros c' [_ ?].
Qed.
Lemma hoare_xattrs from rel : hoare (placed rel) (copy_xattrs from rel) (λ _, placed rel).
Proof.
  unfold copy_xattrs. eapply hoare_bind; [apply hoare_call|]. intros [names|e]; [|by apply hoare_ret].
  apply hoare_each. intros name. destruct (negb _); [by apply hoare_ret|].
  eapply hoare_bind; [apply hoare_call|]. intros [value|e]; [by apply hoare_plain_try|by apply hoare_ret].
Qed.
Lemma hoare_metadata from rel st : hoare (placed rel) (restore_metadata from rel st) (λ _, placed rel).
Proof.
  unfold restore_metadata. eapply hoare_bind; [by apply hoare_plain_try|]. intros ?. eapply hoare_bind; [apply hoare_xattrs|]. intros ?.
  eapply hoare_bind; [|intros ?; by apply hoare_plain]. apply hoare_plain; [|done]. split_and!; try done. apply no_privilege_ok.
Qed.
Lemma hoare_next_run P f pos size : hoare P (next_data_run f pos size) (λ _, P).
Proof.
  unfold next_data_run. destruct (size <=? pos); [by apply hoare_ret|]. eapply hoare_bind; [apply hoare_call|].
  intros [start|e]; [|by apply hoare_ret]. destruct (size <=? start); [by apply hoare_ret|].
  eapply hoare_bind; [apply hoare_call|]. intros hole. by apply hoare_ret.
Qed.
(** The bytes counted before they are written. *)
Lemma hoare_count rel n :
  0 ≤ n →
  hoare (placed rel) (kupd (λ c, mkCopy (linked c) (copy_visited c) (copied_bytes c + n) (trace c)))
    (λ _ c, placed rel c ∧ sum_of writes (trace c) + n ≤ copied_bytes c).
Proof.
  intros Hn [c os] r s' [= <- <-] [Ht Hw Hb Hc He Hl] Hp. split; [|split; [by unfold grows|split; [exact Hp|cbn [fst trace copied_bytes] in *; lia]]].
  split; cbn [fst trace copied_bytes linked copy_visited] in *; try done. lia.
Qed.
Lemma hoare_run_round f rel end_ at_ : hoare (placed rel) (run_round limits f rel end_ at_) (λ _, placed rel).
Proof.
  unfold run_round. destruct (end_ <=? at_); [by apply hoare_ret|]. eapply hoare_bind; [apply hoare_cancelled|]. intros ?.
  eapply hoare_bind; [apply hoare_call|]. intros r. eapply hoare_bind; [apply hoare_lift|]. intros [|b data]; [by apply hoare_ret|].
  eapply hoare_bind; [apply hoare_count; lia|]. intros ?. eapply hoare_bind; [apply hoare_get|]. intros [c os].
  destruct (copied_bytes c >? max_bytes limits) eqn:Hmax; [apply hoare_fail|].
  eapply hoare_bind with (Q := λ _ c', made (WriteAt rel at_ (b :: data)) c' ∧ placed rel c'); [|intros ?; apply hoare_ret; by intros ? [_ ?]].
  eapply hoare_pre; [|apply hoare_frame; [apply placed_stable|apply hoare_must]].
  intros c' _ (Hc & Hp & Hs). cbn in Hc. subst c'. rewrite Z.gtb_ltb in Hmax. apply Z.ltb_ge in Hmax.
  split; [|done]. split_and!; [done|done|by left|right; cbn in *; lia|done].
Qed.
Lemma hoare_data f size rel : hoare (placed rel) (copy_data limits f size rel) (λ _, placed rel).
Proof.
  unfold copy_data. eapply hoare_bind; [|intros ?; by apply hoare_plain]. apply hoare_loop. intros pos. unfold data_round.
  eapply hoare_bind; [apply hoare_next_run|]. intros r. eapply hoare_bind; [apply hoare_lift|]. intros [[start end_]|]; [|by apply hoare_ret].
  eapply hoare_bind with (Q := λ _, placed rel); [|intros ?; by apply hoare_ret]. unfold copy_run. eapply hoare_bind; [apply hoare_get|]. intros [c os].
  eapply hoare_pre; [|apply hoare_loop; intros a; apply hoare_run_round]. by intros c' _ [_ ?].
Qed.
Lemma hoare_remember id rel m :
  hoare (made (CreateFile rel m)) (kupd (λ c, mkCopy (<[id := rel]> (linked c)) (copy_visited c) (copied_bytes c) (trace c))) (λ _ _, True).
Proof.
  intros [c os] r s' [= <- <-] [Ht Hw Hb Hc He Hl] Hm. split; [|split; [by unfold grows|done]]. split; cbn in *; try done.
  intros id' p [[<- <-]|[_ Hp]]%lookup_insert_Some; eauto.
Qed.
Abbreviation anything := (λ _ _, True).
Lemma hoare_file src name rel : hoare (λ c, placed rel c ∧ room c) (copy_file limits src name rel) anything.
Proof.
  unfold copy_file. eapply hoare_bind; [apply hoare_call|].
  intros [input|e]; [|destruct e; first [apply hoare_fail|by apply hoare_ret]].
  eapply hoare_bind; [apply hoare_call|]. intros r. eapply hoare_bind; [apply hoare_lift|]. intros [st l].
  destruct (negb _); [by apply hoare_ret|]. eapply hoare_bind; [apply hoare_get|]. intros [c os].
  destruct (if st_nlink l >? 1 then linked c !! inode_id l else None) as [first|] eqn:Hl.
  - eapply hoare_post; [|by intros; exact I]. eapply hoare_pre; [|apply hoare_must].
    intros c' Hok (Hc & Hp & Hr). cbn in Hc. subst c'. destruct (st_nlink l >? 1); [|done].
    split_and!; [done|done|by right|by left|]. apply (co_linked _ Hok _ _ Hl).
  - eapply hoare_bind with (Q := λ _ c', made (CreateFile rel RW_USER) c' ∧ placed rel c').
    { eapply hoare_pre; [|by apply hoare_makes]. by intros c' _ [_ ?]. }
    intros ?. eapply hoare_bind with (Q := λ _ c', placed rel c' ∧ made (CreateFile rel RW_USER) c').
    { eapply hoare_pre; [|apply hoare_frame; [apply made_stable|apply hoare_data]]. by intros c' _ [? ?]. }
    intros ?. eapply hoare_bind; [apply hoare_frame; [apply made_stable|apply hoare_metadata]|]. intros ?. cbv beta.
    destruct (st_nlink l >? 1); [|by apply hoare_ret]. eapply hoare_pre; [|apply hoare_remember]. by intros c' _ [_ ?].
Qed.
Lemma hoare_link src name rel st : hoare (λ c, placed rel c ∧ room c) (copy_link src name rel st) anything.
Proof.
  unfold copy_link. eapply hoare_bind; [apply hoare_call|]. intros [target|e]; [|case_decide; [by apply hoare_ret|apply hoare_fail]].
  eapply hoare_bind; [by apply hoare_makes|]. intros ?. eapply hoare_pre; [intros c _ [_ Hp]; exact Hp|].
  eapply hoare_bind; [by apply hoare_plain_try|]. intros ?. eapply hoare_post; [by apply hoare_plain_try|done].
Qed.
Lemma hoare_special rel kind st : hoare (λ c, placed rel c ∧ room c) (copy_special rel kind st) anything.
Proof.
  unfold copy_special. eapply hoare_bind with (Q := λ b c, placed rel c).
  - unfold make_special. eapply hoare_bind.
    + eapply hoare_pre with (P' := λ c, fits (MkNod rel kind (no_privilege st) (st_rdev st)) c ∧ placed rel c).
      { intros c _ [Hp Hr]. split; [|done]. split_and!; [done|apply no_privilege_ok|by right|by left|done]. }
      apply hoare_frame; [apply placed_stable|apply hoare_dst].
    + intros [[]|e]; [|case_decide; [apply hoare_ret; by intros ? [_ ?]|apply hoare_fail]].
      eapply hoare_pre; [intros c _ [_ Hp]; exact Hp|]. eapply hoare_bind with (Q := λ _, placed rel); [|intros ?; by apply hoare_ret].
      apply hoare_plain; [|done]. split_and!; try done. apply no_privilege_ok.
  - intros []; [|by apply hoare_ret]. eapply hoare_bind; [by apply hoare_plain_try|]. intros ?.
    eapply hoare_post; [by apply hoare_plain|done].
Qed.

(** A directory the copy fills, [depth] levels down. *)
Definition filling (rel : Path) (depth : nat) (c : Copy) : Prop :=
  depth = S (length rel) ∧ (∀ k, (k < length rel)%nat → is_skipped skip (take (S k) rel) = false) ∧ (rel = [] ∨ ∃ m, made (MkDir rel m) c).
Lemma filling_stable rel depth : stable (filling rel depth).
Proof.
  intros c c' Hg (? & ? & Hm). split; [done|]. split; [done|]. destruct Hm as [|[m Hm]]; [by left|]. right. exists m. by eapply made_stable.
Qed.
Lemma hoare_visit P depth :
  (∀ c n, P c → P (mkCopy (linked c) n (copied_bytes c) (trace c))) →
  hoare P (copy_visit limits depth) (λ _ c, (P c ∧ (depth ≤ max_depth limits)%nat) ∧ room c).
Proof.
  intros HP. unfold copy_visit. eapply hoare_bind; [apply hoare_cancelled|]. intros ?.
  destruct (max_depth limits <? depth)%nat eqn:Hd; [apply hoare_fail|]. apply Nat.ltb_ge in Hd.
  eapply hoare_bind with (Q := λ _ c, P c ∧ sum_of creates (trace c) < copy_visited c).
  { intros [c os] r s' [= <- <-] [Ht Hw Hb Hc He Hl] Hp. split; [|split; [by unfold grows|split; [by apply HP|cbn [fst trace copy_visited] in *; lia]]].
    split; cbn [fst trace copied_bytes linked copy_visited] in *; try done. lia. }
  intros ?. eapply hoare_bind; [apply hoare_get|]. intros [c os]. destruct (copy_visited c >? max_entries limits) eqn:Hm; [apply hoare_fail|].
  apply hoare_ret. intros c' (Hc & Hp & Hs). cbn in Hc. subst c'. rewrite Z.gtb_ltb in Hm. apply Z.ltb_ge in Hm.
  split; [done|]. unfold room. lia.
Qed.
Lemma filling_visited rel depth c n : filling rel depth c → filling rel depth (mkCopy (linked c) n (copied_bytes c) (trace c)).
Proof. done. Qed.
(** An entry of a directory that is being filled. *)
Lemma filling_placed rel name depth c :
  filling rel depth c → is_skipped skip (rel ++ [name]) = false → (depth ≤ max_depth limits)%nat → placed (rel ++ [name]) c.
Proof.
  intros (Hd & Hs & Hm) Hn Hle. split; [rewrite length_app; cbn; lia|]. split.
  - intros k _. destruct (decide (S k ≤ length rel)%nat).
    + rewrite take_app_le by done. by apply Hs.
    + by rewrite take_ge by (rewrite length_app; cbn; lia).
  - unfold parent_made. rewrite removelast_last. destruct Hm as [->|[m Hm]]; [by left|right; by exists m].
Qed.
Lemma hoare_subdir descend src name rel depth :
  (∀ fd, hoare (filling rel (S depth)) (descend fd rel (S depth)) anything) → depth = length rel →
  hoare (λ c, placed rel c ∧ room c) (copy_subdir descend src name rel depth) anything.
Proof.
  intros Hd Hdepth. unfold copy_subdir. eapply hoare_bind; [apply hoare_call|].
  intros [inner|e]; [|destruct e; first [apply hoare_fail|by apply hoare_ret]].
  eapply hoare_bind; [apply hoare_call|]. intros r. eapply hoare_bind; [apply hoare_lift|]. intros st.
  eapply hoare_bind; [by apply hoare_makes|]. intros ?.
  eapply hoare_bind with (Q := λ _ c, placed rel c ∧ made (MkDir rel RWXU) c).
  { eapply hoare_pre; [|apply hoare_frame; [apply made_stable|by apply hoare_plain]]. by intros c _ [? ?]. }
  intros ?. eapply hoare_bind with (Q := λ _ c, True ∧ placed rel c).
  - eapply hoare_pre; [|apply hoare_frame; [apply placed_stable|apply Hd]]. intros c _ [Hp Hm]. split; [|done].
    destruct Hp as (? & ? & ?). split; [by rewrite Hdepth|]. split; [done|]. right. by eexists.
  - intros ?. eapply hoare_pre; [intros c _ [_ Hp]; exact Hp|]. eapply hoare_post; [apply hoare_metadata|done].
Qed.
Lemma hoare_entry descend src rel depth name :
  (∀ fd p d, hoare (filling p d) (descend fd p d) anything) →
  hoare (filling rel depth) (copy_entry limits skip descend src rel depth name) (λ _, filling rel depth).
Proof.
  intros Hd. eapply hoare_post; [eapply hoare_pre; [intros c _ Hc; exact (conj Hc Hc)|]; apply hoare_frame; [apply filling_stable|]|].
  2: { by intros ? ? [_ ?]. }
  instantiate (1 := anything). unfold copy_entry. destruct (is_skipped skip (rel ++ [name])) eqn:Hs; [by apply hoare_ret|].
  eapply hoare_bind; [apply hoare_visit, filling_visited|]. intros ?.
  eapply hoare_pre with (P' := λ c, (placed (rel ++ [name]) c ∧ room c) ∧ depth = length (rel ++ [name])).
  { intros c _ [[Hf Hle] Hr]. split; [split; [by eapply filling_placed|done]|]. destruct Hf as [-> _]. rewrite length_app. cbn. lia. }
  eapply hoare_bind; [apply hoare_call|]. intros [st|e]; [|destruct e; first [apply hoare_fail|by apply hoare_ret]]. cbv beta.
  intros s0 r s' H Hok [Hp Hdepth]. revert s0 r s' H Hok Hp.
  match goal with |- ∀ s0 r s', ?m s0 = _ → _ => change (hoare (λ c, placed (rel ++ [name]) c ∧ room c) m anything) end.
  destruct (file_type st); try first [by apply hoare_ret|apply hoare_file|apply hoare_link|apply hoare_special].
  apply hoare_subdir; [intros fd; apply Hd|done].
Qed.
Lemma hoare_dir fuel src rel depth : hoare (filling rel depth) (copy_dir limits skip fuel src rel depth) anything.
Proof.
  revert src rel depth. induction fuel as [|fuel IH]; intros src rel depth; cbn [copy_dir]; [apply hoare_fail|].
  eapply hoare_bind with (Q := λ _, filling rel depth).
  { unfold copy_names. eapply hoare_bind; [apply hoare_call|]. intros [l|e]; [by apply hoare_ret|apply hoare_fail]. }
  intros names. eapply hoare_post; [apply hoare_each; intros name; by apply hoare_entry|done].
Qed.

(** C23: a commit stays in the new image, whatever the guest does.  However the
    source changes during the copy and whatever its calls answer, everything
    done to the destination is done below a directory that the copy itself has
    made there before, so through no symbolic link; no path that is left out,
    or below one, is touched; no mode it sets has a setuid or setgid bit; a
    hard link is to a file the copy made; and it makes no more entries, nests no
    deeper and writes no more bytes than the limits allow. *)
Theorem commit_contained (src : string) (os : OS) :
  let '(r, l) := copy_tree src skip limits os in
  trace_contained limits skip l ∧
  sum_of creates l ≤ Z.max 0 (max_entries limits) ∧
  sum_of writes l ≤ Z.max 0 (max_bytes limits) ∧
  (∀ n, r = Ok n → sum_of writes l ≤ n).
Proof.
  unfold copy_tree. assert (copy_ok (mkCopy ∅ 0 0 [])) as H0.
  { split; cbn; try lia; [intros i op Hi; by rewrite lookup_nil in Hi|done]. }
  match goal with |- context [?m (mkCopy ∅ 0 0 [], os)] =>
    assert (hoare (λ c, c = mkCopy ∅ 0 0 []) m (λ n c, n = copied_bytes c)) as Hm; [|destruct (m (mkCopy ∅ 0 0 [], os)) as [r [c os']] eqn:Hr] end.
  - eapply hoare_bind; [apply hoare_call|]. intros [root|e]; [|apply hoare_fail].
    eapply hoare_bind with (Q := λ _, filling [] 1).
    { intros [c os0] r s'. cbn. destruct (dst_call _ os0) as [[[]|e] os1]; intros [= <- <-] Hok ->; cbn [fst];
        (split; [|split; [by apply prefix_app_r || by unfold grows|split; [done|split; [intros k Hk; cbn in Hk; lia|by left]]]]); [|done].
      destruct Hok as [Ht Hw Hb Hc He Hl]. split; cbn in *; try lia; [|done]. apply (trace_snoc [] (OpenDst [])); [done|by left]. }
    intros [[]|e]; [|apply hoare_fail]. eapply hoare_bind; [apply hoare_dir|]. intros ?. eapply hoare_bind; [apply hoare_get|].
    intros [c os0]. apply hoare_ret. by intros c' [<- _].
  - destruct (Hm _ _ _ Hr H0 eq_refl) as ([Ht Hw Hb Hc He Hl] & _ & Hn). cbn [fst] in *. split_and!; [done..|]. by intros n ->; subst.
Qed.
End contained.

(** ** A copy ends *)

Section ends.
Context {OS Fd File : Type} `{HC : !CommitOs OS Fd File} (limits : CopyLimits) (skip : list string).
Abbreviation K := (K OS).
(** [lseek] of a file: the next data is not before the position, and a hole
    after data is past it. *)
Context (data_forward : ∀ f pos os start os', seek_data f pos os = (Ok start, os') → pos ≤ start).
Context (hole_forward : ∀ f pos os end_ os', seek_hole f pos os = (Ok end_, os') → pos < end_).

Definition ends {A} (m : K A) : Prop := ∀ s, (m s).1 ≠ Err CopyOutOfFuel.
Lemma ends_ret {A} (a : A) : ends (kret a).
Proof. done. Qed.
Lemma ends_bind {A B} (m : K A) (k : A → K B) : ends m → (∀ a, ends (k a)) → ends (kbind m k).
Proof.
  intros Hm Hk s. unfold kbind. specialize (Hm s). destruct (m s) as [[a|e] s1]; [apply Hk|]. cbn in *. congruence.
Qed.
Lemma ends_call {A} (f : OS → A * OS) : ends (kcall f).
Proof. intros [c os]. cbn. by destruct (f os). Qed.
Lemma ends_dst op : ends (dst op).
Proof. intros [c os]. cbn. by destruct (dst_call op os) as [[] ?]. Qed.
Lemma ends_lift {A} rel (r : result A Errno) : ends (or_unreadable rel r).
Proof. by destruct r. Qed.
Lemma ends_must rel op : ends (must rel op).
Proof. apply ends_bind; [apply ends_dst|]. intros r. apply ends_lift. Qed.
Lemma ends_try op : ends (try_dst op).
Proof. apply ends_bind; [apply ends_dst|]. done. Qed.
Lemma ends_each {A} (f : A → K unit) l : (∀ a, ends (f a)) → ends (k_each f l).
Proof. intros Hf. induction l as [|a l IH]; cbn; [done|]. by apply ends_bind. Qed.
Lemma ends_cancelled : ends check_cancelled.
Proof. apply ends_bind; [done|]. intros [c os]. by destruct (cancelled os). Qed.
(** A loop whose rounds use up [left]. *)
Lemma ends_loop {A} (left : A → Copy * OS → Z) p (f : A → K (option A)) a s :
  (∀ a s a' s', f a s = (Ok (Some a'), s') → 0 < left a s ∧ left a' s' < left a s) → (∀ a, ends (f a)) →
  left a s < Zpos p → (k_loop p f a s).1 ≠ Err CopyOutOfFuel.
Proof.
  intros Hleft Hf Hp. unfold k_loop. set (step := λ x : A * (Copy * OS), _).
  pose proof (loop_pos_ends step (λ x, left x.1 x.2) p (a, s)) as Hend.
  pose proof (loop_pos_inv step (λ _, True) (λ x, x.1 ≠ Err CopyOutOfFuel) p (a, s)) as Hinv.
  destruct (loop_pos p step (a, s)) as [[a' s1]|[r s1]].
  - destruct (Hend (a', s1)) as [Hle _]; [|done|cbn in Hle; lia]. intros [b sb] [b' sb']. unfold step.
    destruct (f b sb) as [[[b1|]|e] s2] eqn:Hfb; intros [= <- <-]. by apply Hleft in Hfb.
  - apply Hinv; [|done]. intros [b sb] _. unfold step. specialize (Hf b sb).
    destruct (f b sb) as [[[b1|]|e] s2]; cbn in *; [done|done|congruence].
Qed.
Lemma run_round_ends f rel end_ at_ : ends (run_round limits f rel end_ at_).
Proof.
  unfold run_round. destruct (end_ <=? at_); [done|]. apply ends_bind; [apply ends_cancelled|]. intros _.
  apply ends_bind; [apply ends_call|]. intros r. apply ends_bind; [apply ends_lift|]. intros [|b data]; [done|].
  apply ends_bind; [by intros [c os]|]. intros _. apply ends_bind; [done|]. intros [c os].
  destruct (copied_bytes c >? max_bytes limits); [done|]. apply ends_bind; [apply ends_must|]. done.
Qed.
(** A round of a run that goes on has copied some of what is allowed. *)
Lemma run_round_left f rel end_ at_ s at' s' :
  run_round limits f rel end_ at_ s = (Ok (Some at'), s') →
  copied_bytes s.1 < copied_bytes s'.1 ≤ max_bytes limits.
Proof.
  destruct s as [c os]. unfold run_round. destruct (end_ <=? at_); [done|]. unfold kbind, check_cancelled, kget. cbn.
  destruct (cancelled os); [done|]. cbn. destruct (read_at f at_ _ os) as [[[|b data]|e] os1]; cbn; [done| |done].
  destruct (copied_bytes c + Z.of_nat (S (length data)) >? max_bytes limits) eqn:Hm; [done|].
  rewrite Z.gtb_ltb in Hm. apply Z.ltb_ge in Hm. unfold must, kbind, dst. cbn.
  destruct (dst_call _ os1) as [[[]|e] os2]; cbn; intros [= <- <-]. cbn. lia.
Qed.
Lemma copy_run_ends f rel start end_ : ends (copy_run limits f rel start end_).
Proof.
  intros s. unfold copy_run, kbind, kget. destruct s as [c os].
  apply (ends_loop (λ _ s, max_bytes limits - copied_bytes s.1)); [|apply run_round_ends|cbn; lia].
  intros a s a' s' H. apply run_round_left in H. lia.
Qed.
Lemma data_round_ends f rel size pos : ends (data_round limits f rel size pos).
Proof.
  unfold data_round. apply ends_bind.
  - unfold next_data_run. destruct (size <=? pos); [done|]. apply ends_bind; [apply ends_call|]. intros [start|e]; [|done].
    destruct (size <=? start); [done|]. apply ends_bind; [apply ends_call|]. done.
  - intros r. apply ends_bind; [apply ends_lift|]. intros [[start end_]|]; [|done]. apply ends_bind; [apply copy_run_ends|done].
Qed.
Lemma next_run_left f pos size s start end_ s' :
  next_data_run f pos size s = (Ok (Ok (Some (start, end_))), s') → pos < end_ ≤ size.
Proof.
  unfold next_data_run. destruct (size <=? pos) eqn:Hp; [done|]. apply Z.leb_gt in Hp. destruct s as [c os].
  unfold kbind at 1. cbn [kcall]. destruct (seek_data f pos os) as [[st|e] os1] eqn:Hd.
  - apply data_forward in Hd. destruct (size <=? st) eqn:Hs; [done|]. apply Z.leb_gt in Hs. unfold kbind. cbn [kcall].
    destruct (seek_hole f st os1) as [hole os2] eqn:Hh. intros [= -> <- _]. destruct hole as [e|e]; [apply hole_forward in Hh|]; lia.
  - unfold kret. repeat case_decide; intros [=]. subst. lia.
Qed.
Lemma data_round_left f rel size pos s pos' s' :
  data_round limits f rel size pos s = (Ok (Some pos'), s') → pos < pos' ≤ size.
Proof.
  unfold data_round, kbind at 1. destruct (next_data_run f pos size s) as [[[[[start end_]|]|e]|e] s1] eqn:Hn; try done.
  apply next_run_left in Hn. unfold or_unreadable, kbind, kret. destruct (copy_run _ _ _ _ _ _) as [[u|e] s2]; [|done].
  by intros [= <- _].
Qed.
Ltac ends_step :=
  match goal with
  | |- ends (kbind _ _) => apply ends_bind; [|intros ?]
  | |- ends (kret _) => done
  | |- ends (kfail _) => done
  | |- ends kget => done
  | |- ends (kupd _) => by intros [? ?]
  | |- ends (kcall _) => apply ends_call
  | |- ends (must _ _) => apply ends_must
  | |- ends (try_dst _) => apply ends_try
  | |- ends (dst _) => apply ends_dst
  | |- ends (or_unreadable _ _) => apply ends_lift
  | |- ends check_cancelled => apply ends_cancelled
  | |- ends (match ?x with _ => _ end) => destruct x
  end.
Ltac ends_auto := repeat ends_step.
Lemma ends_data f size rel : ends (copy_data limits f size rel).
Proof.
  unfold copy_data. apply ends_bind; [|intros _; apply ends_must]. intros s.
  apply (ends_loop (λ pos _, Z.max 0 size - pos)); [|apply data_round_ends|lia].
  intros pos s0 pos' s' H. apply data_round_left in H. lia.
Qed.
Lemma ends_xattrs from rel : ends (copy_xattrs from rel).
Proof. unfold copy_xattrs. ends_auto. apply ends_each. intros name. ends_auto. Qed.
Lemma ends_metadata from rel st : ends (restore_metadata from rel st).
Proof. unfold restore_metadata. ends_auto. apply ends_xattrs. Qed.
Lemma ends_file src name rel : ends (copy_file limits src name rel).
Proof. unfold copy_file. ends_auto; first [apply ends_data|apply ends_metadata]. Qed.
Lemma ends_link src name rel st : ends (copy_link src name rel st).
Proof. unfold copy_link. ends_auto. Qed.
Lemma ends_special rel kind st : ends (copy_special rel kind st).
Proof. unfold copy_special, make_special. ends_auto. Qed.
Lemma ends_visit depth : ends (copy_visit limits depth).
Proof. unfold copy_visit. ends_auto. Qed.
Lemma ends_subdir descend src name rel depth :
  (∀ fd, ends (descend fd rel (S depth))) → ends (copy_subdir descend src name rel depth).
Proof. intros Hd. unfold copy_subdir. ends_auto; first [apply Hd|apply ends_metadata]. Qed.
(** The fuel covers the directories the limit allows: one level deeper every
    entry is refused. *)
Lemma ends_dir fuel src rel depth : (max_depth limits + 2 ≤ depth + fuel)%nat → (1 ≤ fuel)%nat → ends (copy_dir limits skip fuel src rel depth).
Proof.
  revert src rel depth. induction fuel as [|fuel IH]; intros src rel depth Hf H1; [lia|]. cbn [copy_dir].
  unfold copy_names. ends_auto. apply ends_each. intros name. unfold copy_entry. destruct (is_skipped _ _); [done|].
  destruct (decide (depth ≤ max_depth limits)%nat) as [Hle|Hgt].
  - ends_auto; try first [apply ends_visit|apply ends_file|apply ends_link|apply ends_special].
    apply ends_subdir. intros fd. apply IH; lia.
  - intros s. unfold kbind at 1. unfold copy_visit, kbind at 1. pose proof (ends_cancelled s) as Hc.
    destruct (check_cancelled s) as [[u|e] s1]; [|cbn in *; congruence].
    by rewrite (proj2 (Nat.ltb_lt _ _)) by lia.
Qed.

(** A commit always ends: if the system reports the data and the holes of a
    file in order, the copy stops by itself, with its result or one of its
    errors, whatever else the file system does. *)
Theorem commit_ends (src : string) (os : OS) : (copy_tree src skip limits os).1 ≠ Err CopyOutOfFuel.
Proof.
  unfold copy_tree.
  match goal with |- context [?m (mkCopy ∅ 0 0 [], os)] => assert (ends m) as Hm; [|specialize (Hm (mkCopy ∅ 0 0 [], os)); by destruct (m _) as [r [c os']]] end.
  ends_auto. apply ends_dir; lia.
Qed.
End ends.

(** ** The configuration of the new image *)

Definition SHELL_FORM : list string := ["/bin/sh"; "-c"].

(** [str::trim] and [split_once(char::is_whitespace)]; a character is at most
    one unit of fuel per byte. *)
Fixpoint trim_start_white (fuel : nat) (l : list ascii) : list ascii :=
  match fuel, strip_whitespace_char l with
  | S fuel, Some rest => trim_start_white fuel rest
  | _, _ => l
  end.
Fixpoint trim_end_white (fuel : nat) (white l : list ascii) : list ascii :=
  match fuel, l with
  | S fuel, c :: rest =>
      match strip_whitespace_char l with
      | Some rest => trim_end_white fuel (white ++ take (length l - length rest)%nat l) rest
      | None => white ++ c :: trim_end_white fuel [] rest
      end
  | _, _ => []
  end.
Definition trim (s : string) : string :=
  let l := trim_start_white (str_len s) (chars s) in of_chars (trim_end_white (length l) [] l).
Fixpoint split_once_white (fuel : nat) (before l : list ascii) : option (string * string) :=
  match fuel, l with
  | S fuel, c :: rest =>
      match strip_whitespace_char l with
      | Some after => Some (of_chars before, of_chars after)
      | None => split_once_white fuel (before ++ [c]) rest
      end
  | _, _ => None
  end.
Definition split_white (s : string) : option (string * string) := split_once_white (str_len s) [] (chars s).
(** [Path::join] on texts. *)
Definition path_join (base rest : string) : string :=
  if starts_with "/" rest || is_empty base then rest
  else if ends_with "/" base then base +:+ rest else base +:+ "/" +:+ rest.

Definition put_env (env : list string) (key value : string) : list string :=
  filter (λ e, starts_with (key +:+ "=") e = false) env ++ [key +:+ "=" +:+ value].
Definition set_image_env (env : list string) (c : ImageConfig) : ImageConfig :=
  mkImageConfig (entrypoint c) (cmd c) (working_dir c) (image_user c) env.

Section changes.
(** [serde_json::from_str] of a list of texts, and [shlex::split]. *)
Context (from_json : string → result (list string) string) (shlex_split : string → option (list string)).

Definition set_env (env : list string) (text : string) : option (list string) :=
  words ← shlex_split text;
  first ← head words;
  pairs ← (if contains "=" first then mapM (split_once "="%char) words else p ← split_white text; Some [p]);
  foldl (λ env '(key, value), env ← env; if is_empty key then None else Some (put_env env key (trim value))) (Some env) pairs.
Definition command_words (text : string) : result (list string) BackendError :=
  if starts_with "[" text
  then map_err (λ e, BInvalidArgument ("command is not a JSON array of strings: " +:+ e)) (from_json text)
  else Ok (SHELL_FORM ++ [text]).
(** One change; [cmd_set] tells whether one before it set the command. *)
Definition apply_change (config : ImageConfig) (cmd_set : bool) (change : string) : result (ImageConfig * bool) BackendError :=
  let unsupported := BInvalidArgument ("unsupported change: " +:+ change) in
  let? (keyword, rest) := ok_or (split_white (trim change)) unsupported in
  let rest := trim rest in
  if is_empty rest then Err unsupported else
  let keyword := to_ascii_uppercase keyword in
  let '(mkImageConfig entry cmd dir user env) := config in
  if String.eqb keyword "CMD" then
    let? words := command_words rest in Ok (mkImageConfig entry words dir user env, true)
  else if String.eqb keyword "ENTRYPOINT" then
    let? words := command_words rest in Ok (mkImageConfig words (if cmd_set then cmd else []) dir user env, cmd_set)
  else if String.eqb keyword "ENV" then
    let? env := ok_or (set_env env rest) unsupported in Ok (mkImageConfig entry cmd dir user env, cmd_set)
  else if String.eqb keyword "WORKDIR" then
    Ok (mkImageConfig entry cmd (path_join (path_join "/" dir) rest) user env, cmd_set)
  else if String.eqb keyword "USER" then Ok (mkImageConfig entry cmd dir rest env, cmd_set)
  else Err unsupported.
Fixpoint apply_all (config : ImageConfig) (cmd_set : bool) (changes : list string) : result ImageConfig BackendError :=
  match changes with
  | [] => Ok config
  | change :: changes => let? (config, cmd_set) := apply_change config cmd_set change in apply_all config cmd_set changes
  end.
Definition apply_changes (config : ImageConfig) (changes : list string) : result ImageConfig BackendError := apply_all config false changes.
End changes.

(** [vars.sort()]: the keys are distinct. *)
Definition key_le (x y : string * string) : Prop := str_le x.1 y.1.
#[export] Instance key_le_dec : RelDecision key_le.
Proof. intros x y. unfold key_le. apply _. Defined.
Definition sorted_env (env : gmap string string) : list (string * string) := merge_sort key_le (map_to_list env).
Definition overlay_sandbox (config : ImageConfig) (spec : SandboxSpec) (env : gmap string string) : ImageConfig :=
  let n := Nat.min (entrypoint_len spec) (length (command spec)) in
  let given := negb (bool_decide (command spec = [])) in
  mkImageConfig
    (if given then take n (command spec) else entrypoint config)
    (if given then drop n (command spec) else cmd config)
    (if is_empty (workdir spec) then working_dir config else workdir spec)
    (if is_empty (user spec) then image_user config else user spec)
    (foldl (λ l x, put_env l x.1 x.2) (image_env config) (sorted_env env)).

(** *** The committed image starts what the sandbox runs *)

(** A name and a value that a variable can have. *)
Definition env_ok (key value : string) : Prop :=
  key ≠ "" ∧ "="%char ∉ chars key ∧ has_nul key = false ∧ has_nul value = false.
Lemma split_pair key value : "="%char ∉ chars key → split_once "="%char (key +:+ "=" +:+ value) = Some (key, value).
Proof. intros Hk. apply split_once_Some. done. Qed.
(** The variables an entry sets. *)
Lemma image_pairs_app l l' : image_pairs (l ++ l') = image_pairs l ++ image_pairs l'.
Proof. unfold image_pairs. by rewrite omap_app, filter_app. Qed.
Lemma image_pairs_one key value : env_ok key value → image_pairs [key +:+ "=" +:+ value] = [(key, value)].
Proof.
  intros (Hk & He & Hn & Hv). unfold image_pairs. cbn [omap list_omap]. rewrite split_pair by done. rewrite filter_cons_True; [done|].
  rewrite Hn, Hv. destruct key; done.
Qed.
Lemma collect_env_app l l' : collect_env (l ++ l') = foldl (λ m '(k, v), <[k := v]> m) (collect_env l) l'.
Proof. unfold collect_env. by rewrite foldl_app. Qed.
(** Without the entries of a key the other variables are as before. *)
Lemma collect_env_without env key k :
  k ≠ key → "="%char ∉ chars key → collect_env (image_pairs (filter (λ e, starts_with (key +:+ "=") e = false) env)) !! k = collect_env (image_pairs env) !! k.
Proof.
  intros Hne Hkey. induction env as [|e env IH] using rev_ind; [done|]. rewrite filter_app, !image_pairs_app, !collect_env_app.
  assert (∀ m m' : gmap string string, m !! k = m' !! k → ∀ l, foldl (λ m '(k, v), <[k := v]> m) m l !! k = foldl (λ m '(k, v), <[k := v]> m) m' l !! k) as Hfold.
  { intros m m' Hm l. revert m m' Hm. induction l as [|[a b] l IHl]; intros m m' Hm; [done|]. cbn. apply IHl.
    destruct (decide (a = k)) as [->|Ha]; [by rewrite !lookup_insert_eq|by rewrite !lookup_insert_ne]. }
  rewrite filter_cons. case_decide as Hs; [by apply Hfold|]. change (image_pairs (filter _ [])) with (@nil (string * string)).
  cbn [foldl]. rewrite IH. apply not_false_is_true, starts_with_spec in Hs as [r ->].
  assert ((key +:+ "=") +:+ r = key +:+ "=" +:+ r) as -> by apply append_assoc.
  unfold image_pairs. cbn [omap list_omap]. rewrite split_pair by done. rewrite filter_cons. case_decide; [|done].
  cbn. by rewrite lookup_insert_ne.
Qed.
Lemma put_env_collect env key value :
  env_ok key value → collect_env (image_pairs (put_env env key value)) = <[key := value]> (collect_env (image_pairs env)).
Proof.
  intros Hok. unfold put_env. rewrite image_pairs_app, image_pairs_one, collect_env_snoc by done. apply map_eq. intros k.
  destruct (decide (k = key)) as [->|Hk]; [by rewrite !lookup_insert_eq|]. rewrite !lookup_insert_ne by done.
  apply collect_env_without; [done|apply Hok].
Qed.
Lemma put_all_collect l env :
  NoDup l.*1 → Forall (λ x, env_ok x.1 x.2) l →
  collect_env (image_pairs (foldl (λ l x, put_env l x.1 x.2) env l)) = list_to_map l ∪ collect_env (image_pairs env).
Proof.
  induction l as [|[k v] l IH] using rev_ind; intros Hnd Hok; [cbn; by rewrite (left_id_L ∅ (∪))|].
  rewrite fmap_app in Hnd. apply NoDup_app in Hnd as (Hnd & Hdis & _). apply Forall_app in Hok as [Hok [Hkv _]%Forall_cons].
  rewrite foldl_snoc, put_env_collect, IH by done. rewrite list_to_map_app. cbn. apply map_eq. intros x.
  assert ((list_to_map l : gmap string string) !! k = None) as Hnone.
  { apply not_elem_of_list_to_map_1. intros Hin. apply (Hdis _ Hin). by left. }
  destruct (decide (x = k)) as [->|Hx]; rewrite !lookup_union.
  - rewrite Hnone, !lookup_insert_eq. by destruct (collect_env _ !! k).
  - rewrite !lookup_insert_ne, !lookup_union, lookup_empty by done. by destruct (list_to_map l !! x).
Qed.

(** A container of the committed image runs what the sandbox ran.  With no
    settings of its own it gets the sandbox's command, split into entry point
    and arguments as there, its user and its directory, or else the image's;
    each variable of the sandbox has its value, and the others the image's. *)
Theorem committed_starts_same (config : ImageConfig) (s : SandboxSpec) (env : gmap string string)
    (variables : map_Forall env_ok env) :
  let l := resolve_launch_config (overlay_sandbox config s env) (mkOverrides None [] "" "" ∅) in
  let n := l_entrypoint_len l in
  (command s ≠ [] → l_command l = command s ∧ n = Nat.min (entrypoint_len s) (length (command s))) ∧
  (command s = [] → l_command l = entrypoint config ++ cmd config) ∧
  l_workdir l = (if is_empty (workdir s) then working_dir config else workdir s) ∧
  l_user l = (if is_empty (user s) then image_user config else user s) ∧
  l_env l = env ∪ collect_env (image_pairs (image_env config)).
Proof.
  cbv zeta. unfold overlay_sandbox, resolve_launch_config.
  cbn [l_entrypoint_len l_command l_workdir l_user l_env o_entrypoint args o_workdir o_user o_env entrypoint cmd working_dir image_user image_env].
  split_and!.
  - intros Hc. rewrite (bool_decide_eq_false_2 _ Hc). cbn. rewrite take_drop. split; [done|]. rewrite length_take. lia.
  - intros Hc. by rewrite (bool_decide_eq_true_2 _ Hc).
  - done.
  - done.
  - rewrite (left_id_L ∅ (∪)), put_all_collect.
    + f_equal. unfold sorted_env. transitivity (list_to_map (map_to_list env) : gmap string string); [|apply list_to_map_to_list].
      apply list_to_map_proper; [|apply merge_sort_Permutation]. rewrite merge_sort_Permutation. apply NoDup_fst_map_to_list.
    + unfold sorted_env. rewrite merge_sort_Permutation. apply NoDup_fst_map_to_list.
    + unfold sorted_env. rewrite merge_sort_Permutation. apply Forall_forall. intros [k v] Hin%elem_of_map_to_list. by apply variables.
Qed.

(** ** Witnesses *)

(** A source with one program of two bytes that is setuid. *)
#[local] Instance demo_source_diff : DiffOs unit unit unit := {|
  from_raw_mode m := if m >=? 32768 then FtRegularFile else FtDirectory;
  errno_io _ := mkIo IoOther "error";
  openat_root _ os := (Ok tt, os);
  openat_dir _ _ os := (Err NOTDIR, os);
  openat_file _ _ os := (Ok tt, os);
  read_entries _ os := (Ok ["."; ".."; "su"; "etc"], os);
  statat _ _ os := (Ok (mkStat (32768 + 2541) 0 0 2 0 7 0), os);
  readlinkat _ _ os := (Err INVAL, os);
  fstat _ os := (Ok (mkStat (32768 + 2541) 0 0 2 0 7 0), os);
  file_read _ _ os := (Ok [], os);
  Diff.clock _ := 0;
|}.
#[local] Instance demo_source : CommitOs unit unit unit := {|
  dst_call _ os := (Ok tt, os);
  fstat_dir _ os := (Err NOENT, os);
  fstat_link _ os := (Ok (mkStat (32768 + 2541) 0 0 2 0 7 0, mkLinkInfo 1 0 5), os);
  seek_data _ pos os := (Ok pos, os);
  seek_hole _ pos os := (Ok (pos + 2), os);
  read_at _ at_ want os := (Ok (take (Z.to_nat want) (drop (Z.to_nat at_) [Byte.x68; Byte.x69])), os);
  list_xattr _ os := (Ok ["user.a"; "trusted.b"], os);
  get_xattr _ _ os := (Ok [], os);
  cancelled _ := false;
|}.
(** The copy has the bytes, the mode without the setuid bit, the user's
    attribute, and not the path that is left out. *)
Example demo_commit :
  copy_tree "/sandbox" ["/etc"] default_copy_limits tt =
  (Ok 2, [OpenDst []; CreateFile ["su"] 384; WriteAt ["su"] 0 [Byte.x68; Byte.x69]; SetLen ["su"] 2; Chown ["su"] 0 0;
          SetXattr ["su"] "user.a" []; Chmod ["su"] 493; SetTimes ["su"] 7]).
Proof. vm_compute. reflexivity. Qed.
Lemma commit_ends_witness : (copy_tree "/sandbox" ["/etc"] default_copy_limits tt).1 ≠ Err CopyOutOfFuel.
Proof.
  apply (commit_ends (File := unit) default_copy_limits ["/etc"]).
  - intros f pos os start os' [= -> _]. lia.
  - intros f pos os end_ os' [= <- _]. lia.
Defined.
Definition demo_spec : SandboxSpec :=
  mkSpec "web" ["sh"; "-c"; "true"] 1 "/srv" "" false false [] "" ∅ "" "" None (mkRestart RestartNo 0) guest_default.
Lemma committed_starts_same_witness :
  l_command (resolve_launch_config (overlay_sandbox (mkImageConfig [] ["ls"] "/" "root" ["A=0"]) demo_spec {["A" := "1"]})
    (mkOverrides None [] "" "" ∅)) = ["sh"; "-c"; "true"].
Proof.
  apply (committed_starts_same (mkImageConfig [] ["ls"] "/" "root" ["A=0"]) demo_spec {["A" := "1"]}); [|discriminate].
  apply map_Forall_singleton. split_and!; [done| |done|done]. intros H%list_elem_of_In. by destruct H as [[=]|[]].
Defined.
Example demo_changes :
  apply_changes (λ _, Ok ["ls"; "-l"]) (λ _, Some ["B=x y"]) (mkImageConfig ["sh"] ["a"] "/srv" "" ["B=1"; "C=2"])
    ["  workdir app "; "ENV B='x y'"; "CMD [...]"; "ENTRYPOINT run"] =
  Ok (mkImageConfig ["/bin/sh"; "-c"; "run"] ["ls"; "-l"] "/srv/app" "" ["C=2"; "B=x y"]).
Proof. vm_compute. reflexivity. Qed.
