(* ===== verification/Ports.v ===== *)
(** * Ports: the published ports a user asks for

    Models [ward-cli/src/ports.rs] and [ward-cli/src/publish_all.rs]: the values
    of [-p], [--expose] and [-P], and which ports [ward port] shows.  The
    mappings go to the daemon, which checks them with
    [Validate.published_ports]. *)

From stdpp Require Import base list numbers option strings pretty gmap.
From Stdlib Require Import ZArith Lia Ascii.
From S2P Require Import Prelude Text Net Protocol Signal Validate.

Local Open Scope Z_scope.

Definition PROTOCOL : string := "tcp".
Definition UDP : string := "udp".
Definition NOTHING_TO_PUBLISH : string :=
  "-P has no ports to publish: Ward does not read the image's EXPOSE, so name them with --expose PORT or use -p".

Record PortRange := mkRange { first : Z; last : Z }.
Definition range_len (r : PortRange) : nat := S (Z.to_nat (last r - first r)).
Definition is_single (r : PortRange) : bool := first r =? last r.
(** [first..=last]. *)
Definition range_ports (r : PortRange) : list Z := (λ i, first r + Z.of_nat i) <$> seq 0 (range_len r).

(** [s.split_once(sep)] for a separator of several characters. *)
Fixpoint split_once_str (sep s : string) : option (string * string) :=
  match strip_prefix sep s with
  | Some rest => Some (EmptyString, rest)
  | None =>
      match s with
      | EmptyString => None
      | String c s => match split_once_str sep s with Some (a, b) => Some (String c a, b) | None => None end
      end
  end.

(** ** Parsing *)

Definition invalid_publish (spec why : string) : string := cat ["invalid publish value "; dquote; spec; dquote; ": "; why].
Definition parse_port (text spec : string) : result Z string :=
  match parse_u16 text with
  | None => Err (invalid_publish spec (cat [dquote; text; dquote; " is not a port"]))
  | Some port => if port =? 0 then Err (invalid_publish spec "ports must be between 1 and 65535") else Ok port
  end.
Definition parse_range (text spec : string) : result PortRange string :=
  match split_once "-"%char text with
  | None => let? port := parse_port text spec in Ok (mkRange port port)
  | Some (f, l) =>
      let? f := parse_port f spec in
      let? l := parse_port l spec in
      if l <? f then Err (invalid_publish spec (cat ["the port range "; text; " runs backwards"])) else Ok (mkRange f l)
  end.
Definition parse_host_range (text spec : string) : result (option PortRange) string :=
  if is_empty text || bool_decide (text = "0") then Ok None else let? r := parse_range text spec in Ok (Some r).
Definition split_protocol (spec : string) : result (string * string) string :=
  match rsplit_once "/"%char spec with
  | None => Ok (spec, PROTOCOL)
  | Some (body, protocol) =>
      if bool_decide (protocol ≠ PROTOCOL) && bool_decide (protocol ≠ UDP)
      then Err (cat ["unsupported protocol "; dquote; protocol; dquote; " in "; dquote; spec; dquote; ": use tcp or udp"])
      else Ok (body, protocol)
  end.
Definition split_host_ip (body spec : string) : result (string * string) string :=
  match strip_prefix "[" body with
  | Some rest =>
      match split_once_str "]:" rest with
      | Some (ip, ports) => Ok (ip, ports)
      | None => Err (invalid_publish spec "unclosed '['")
      end
  | None =>
      match split_once ":"%char body with
      | Some (ip, ports) => if contains ":" ports then Ok (ip, ports) else Ok (EmptyString, body)
      | None => Ok (EmptyString, body)
      end
  end.
Definition split_ports (ports spec : string) : result (option PortRange * PortRange) string :=
  match split ":"%char ports with
  | [container] => let? c := parse_range container spec in Ok (None, c)
  | [host; container] =>
      let? h := parse_host_range host spec in let? c := parse_range container spec in Ok (h, c)
  | _ => Err (invalid_publish spec "expected [HOST_IP:][HOST_PORT:]CONTAINER_PORT")
  end.
Definition parse_publish (spec : string) : result (list PortMapping) string :=
  let? bp := split_protocol spec in
  let '(body, protocol) := bp in
  let? ip := split_host_ip body spec in
  let '(host_ip, ports) := ip in
  let? hc := split_ports ports spec in
  let '(host, container) := hc in
  if (Z.to_nat MAX_PUBLISHED_PORTS <? range_len container)%nat
  then Err (invalid_publish spec (cat ["a range holds "; pretty (range_len container); " ports and at most "; pretty MAX_PUBLISHED_PORTS; " can be published"]))
  else
  let mapping h h_end c := mkMapping host_ip h h_end c protocol in
  match host with
  | None => Ok (mapping 0 0 <$> range_ports container)
  | Some host =>
      if is_single host then
        if negb (is_single container)
        then Err (invalid_publish spec "a container port range needs a host range of the same length")
        else Ok [mapping (first host) 0 (first container)]
      else if is_single container then Ok [mapping (first host) (last host) (first container)]
      else if (range_len host =? range_len container)%nat
      then Ok ((λ '(h, c), mapping h 0 c) <$> zip (range_ports host) (range_ports container))
      else Err (invalid_publish spec "the host and container port ranges differ in length")
  end.
Definition parse_all (specs : list string) : result (list PortMapping) string :=
  let? all := try_map parse_publish specs in Ok (concat all).
Definition is_unspecified (ip : IpAddr) : bool :=
  match ip with V4 a b c d => bool_decide ((a, b, c, d) = (0, 0, 0, 0)) | V6 segs => bool_decide (segs = replicate 8 0) end.
Definition binds_all_interfaces (m : PortMapping) : bool :=
  match parse_ip (m_host_ip m) with Some ip => is_unspecified ip | None => false end.

(** ** Exposed ports *)

Record PublishAllFlags := mkFlags { publish_all : bool; expose : list string }.
Definition same_port (a b : PortMapping) : bool :=
  (m_container_port a =? m_container_port b) && bool_decide (m_protocol a = m_protocol b).
Definition parse_expose (spec : string) : result (list PortMapping) string :=
  if contains ":" spec
  then Err (cat ["invalid --expose value "; dquote; spec; dquote; ": expected PORT[-PORT][/tcp|/udp]"])
  else parse_publish spec.
Definition add_exposed (published added : list PortMapping) (m : PortMapping) : list PortMapping :=
  if existsb (λ a, same_port a m) (published ++ added) then added else added ++ [m].
Definition exposed_mappings (flags : PublishAllFlags) (published : list PortMapping) : result (list PortMapping) string :=
  let? exposed := try_map parse_expose (expose flags) in
  let exposed := concat exposed in
  if negb (publish_all flags) then Ok []
  else match exposed with
       | [] => Err NOTHING_TO_PUBLISH
       | _ => Ok (foldl (add_exposed published) [] exposed)
       end.

(** ** Showing a port *)

Definition parse_private_port (text : string) : result (Z * string) string :=
  let? bp := split_protocol text in
  let? port := parse_port bp.1 text in Ok (port, bp.2).
Definition protocol_of (m : PortMapping) : string := if is_empty (m_protocol m) then PROTOCOL else m_protocol m.
Definition matches_private (m : PortMapping) (port : Z) (protocol : string) : bool :=
  (m_container_port m =? port) && bool_decide (protocol_of m = protocol).
Definition host_address (m : PortMapping) : string :=
  if contains ":" (m_host_ip m) then cat ["["; m_host_ip m; "]:"; pretty (m_host_port m)]
  else cat [m_host_ip m; ":"; pretty (m_host_port m)].
Definition mapping_line (m : PortMapping) (address_only : bool) : string :=
  if address_only then host_address m
  else cat [pretty (m_container_port m); "/"; protocol_of m; " -> "; host_address m].
Definition is_wanted (wanted : option (Z * string)) (m : PortMapping) : bool :=
  match wanted with None => true | Some (port, protocol) => matches_private m port protocol end.
(** The rows of [ward port], for what the daemon answered. *)
Definition shown_ports (reference : string) (port : option string) (published : list PortMapping) : result (list PortMapping) string :=
  let? wanted := match port with None => Ok None | Some text => let? p := parse_private_port text in Ok (Some p) end in
  let shown := filter (λ m, is_wanted wanted m = true) published in
  match wanted, shown with
  | Some (port, protocol), [] => Err (cat ["No public port '"; pretty port; "/"; protocol; "' published for "; reference])
  | _, _ => Ok shown
  end.

Example publish_examples :
  parse_publish "8080:80" = Ok [mkMapping "" 8080 0 80 "tcp"] ∧
  parse_publish "[::1]:53:5353/udp" = Ok [mkMapping "::1" 53 0 5353 "udp"] ∧
  parse_publish "0.0.0.0:8000-8010:80" = Ok [mkMapping "0.0.0.0" 8000 8010 80 "tcp"] ∧
  parse_publish "90-91:80-81" = Ok [mkMapping "" 90 0 80 "tcp"; mkMapping "" 91 0 81 "tcp"].
Proof. vm_compute. done. Qed.

(** ** What a value stands for *)

(** [n] mappings on consecutive ports of the guest; [step] is 1 if the host's
    ports go with them and 0 if not. *)
Record shape (spec : string) (ms : list PortMapping) (ip proto : string) : Type := {
  sh_n : nat; sh_host : Z; sh_step : Z; sh_end : Z; sh_port : Z;
  sh_ms : ms = (λ i : nat, mkMapping ip (sh_host + sh_step * Z.of_nat i) sh_end (sh_port + Z.of_nat i) proto) <$> seq 0 sh_n;
  sh_count : (1 ≤ sh_n ≤ 64)%nat;
  sh_ports : 1 ≤ sh_port ∧ sh_port + Z.of_nat sh_n <= 65536;
  sh_step_ok : sh_step = 0 ∨ (sh_step = 1 ∧ 1 <= sh_host);
  sh_hosts : 0 <= sh_host ∧ sh_host + sh_step * Z.of_nat sh_n <= 65536 ∧ sh_host <= 65535;
  sh_ends : sh_end = 0 ∨ (1 <= sh_host <= sh_end ∧ sh_end <= 65535 ∧ sh_step = 0);
  sh_single : sh_step = 0 → sh_host = 0 ∨ sh_n = 1%nat;
  sh_proto : proto = "tcp" ∨ proto = "udp";
}.

Definition range_ok (r : PortRange) : Prop := 1 <= first r <= last r ∧ last r <= 65535.
Lemma parse_port_ok text spec p : parse_port text spec = Ok p → 1 <= p <= 65535.
Proof.
  unfold parse_port. destruct (parse_u16 text) as [v|] eqn:Hv; [|done]. apply parse_unsigned_range in Hv.
  destruct (Z.eqb_spec v 0); [done|]. intros [= <-]. lia.
Qed.
Lemma parse_range_ok text spec r : parse_range text spec = Ok r → range_ok r.
Proof.
  unfold parse_range. intros H. destruct (split_once _ text) as [[f l]|]; inv_checks;
    try match goal with H : (if ?b <? ?a then _ else _) = Ok _ |- _ => destruct (Z.ltb_spec b a); [done|injection H as <-] end; subst;
    repeat match goal with H : parse_port _ _ = Ok _ |- _ => apply parse_port_ok in H end; unfold range_ok; cbn; lia.
Qed.
Lemma range_len_Z r : range_ok r → Z.of_nat (range_len r) = last r - first r + 1.
Proof. unfold range_ok, range_len. lia. Qed.
Lemma zip_fmap_same {A B C} (f : A → B) (g : A → C) l : zip (f <$> l) (g <$> l) = (λ x, (f x, g x)) <$> l.
Proof. induction l as [|x l IH]; [done|]. cbn. by rewrite IH. Qed.
Lemma split_ports_ok ports spec h c : split_ports ports spec = Ok (h, c) → range_ok c ∧ match h with Some h => range_ok h | None => True end.
Proof.
  unfold split_ports, parse_host_range. intros H. destruct (split _ ports) as [|x [|y [|? ?]]]; inv_checks; subst;
    repeat match goal with H : parse_range _ _ = Ok _ |- _ => apply parse_range_ok in H end; try done.
  destruct (is_empty x || bool_decide (x = "0")); inv_checks; subst; [done|].
  repeat match goal with H : parse_range _ _ = Ok _ |- _ => apply parse_range_ok in H end; done.
Qed.
Lemma split_protocol_ok spec body proto : split_protocol spec = Ok (body, proto) → proto = "tcp" ∨ proto = "udp".
Proof.
  unfold split_protocol, PROTOCOL, UDP. destruct (rsplit_once _ spec) as [[b p]|]; [|intros [= _ <-]; by left].
  repeat case_bool_decide; cbn; intros [=]; subst; naive_solver.
Qed.

Lemma Ok_inj {A E} (x y : A) : @Ok A E x = Ok y → x = y.
Proof. by intros [= ->]. Qed.
Local Ltac steps H := cbn -[range_len Z.to_nat Nat.ltb MAX_PUBLISHED_PORTS range_ports Nat.eqb is_single zip] in H.
Lemma publish_shape spec ms :
  parse_publish spec = Ok ms →
  ∃ body ip ports proto, split_protocol spec = Ok (body, proto) ∧ split_host_ip body spec = Ok (ip, ports) ∧ inhabited (shape spec ms ip proto).
Proof.
  unfold parse_publish. intros H.
  destruct (split_protocol spec) as [[body proto]|] eqn:Hp; [|done]. steps H.
  destruct (split_host_ip body spec) as [[ip ports]|] eqn:Hi; [|done]. steps H.
  destruct (split_ports ports spec) as [[h c]|] eqn:Hc; [|done]. steps H. exists body, ip, ports, proto. split_and!; [done..|].
  apply split_protocol_ok in Hp. apply split_ports_ok in Hc as [Hc Hh]. pose proof (range_len_Z c Hc) as Hn.
  change (Z.to_nat MAX_PUBLISHED_PORTS) with 64%nat in H. destruct (Nat.ltb_spec 64 (range_len c)) as [|Hle]; [done|]. assert (1 ≤ range_len c)%nat as H1 by (unfold range_len; lia).
  destruct Hc as [Hc1 Hc2]. destruct h as [h|].
  2: { injection H as <-. constructor. apply (Build_shape _ _ _ _ (range_len c) 0 0 0 (first c)); try lia.
       - unfold range_ports. rewrite <- list_fmap_compose. done.
       - done. }
  pose proof (range_len_Z h Hh) as Hhn. destruct Hh as [Hh1 Hh2]. unfold is_single in H.
  destruct (Z.eqb_spec (first h) (last h)) as [Hs|Hs], (Z.eqb_spec (first c) (last c)) as [Hs'|Hs']; steps H; try done.
  - injection H as <-. constructor. apply (Build_shape _ _ _ _ 1 (first h) 0 0 (first c)); try lia; [|done]. cbn. by rewrite !Z.add_0_r.
  - injection H as <-. constructor. apply (Build_shape _ _ _ _ 1 (first h) 0 (last h) (first c)); try lia; [|done]. cbn. by rewrite !Z.add_0_r.
  - destruct (Nat.eqb_spec (range_len h) (range_len c)) as [He|]; [|done]. apply Ok_inj in H as <-. constructor.
    apply (Build_shape _ _ _ _ (range_len c) (first h) 1 0 (first c)); try lia; [|done].
    unfold range_ports. rewrite He, zip_fmap_same, <- list_fmap_compose. apply list_fmap_ext. intros _ i _. cbn. by rewrite Z.mul_1_l.
Qed.

(** ** The daemon takes it *)

Lemma claim_ports_distinct claimed ports :
  NoDup (port_key <$> ports) → Forall (λ p, port_key p ∉ claimed) ports → claim_ports claimed ports = Ok tt.
Proof.
  revert claimed. induction ports as [|p ports IH]; intros claimed; [done|]. rewrite fmap_cons. intros [Hp Hnd]%NoDup_cons [Hc Hall]%Forall_cons.
  cbn [claim_ports]. rewrite bool_decide_eq_false_2 by done. cbn. apply IH; [done|]. apply Forall_forall. intros q Hq.
  rewrite Forall_forall in Hall. intros [Heq|Hin]%elem_of_cons; [|by apply (Hall q)]. apply Hp. rewrite <- Heq. by apply list_elem_of_fmap_2.
Qed.
Definition host_address_of (ip : string) : option IpAddr := if is_empty ip then Some LOCALHOST else parse_ip ip.
Definition protocol_named (proto : string) : PortProtocol := if decide (proto = "udp") then Udp else Tcp.
Lemma published_port_mk ip addr h e c proto :
  host_address_of ip = Some addr → 0 <= h <= 65535 → 0 <= e <= 65535 → 1 <= c <= 65535 → proto = "tcp" ∨ proto = "udp" →
  (e = 0 ∨ (1 <= h <= e)) → published_port (mkMapping ip h e c proto) = Ok (mkPort addr h e c (protocol_named proto)).
Proof.
  intros Ha Hh He Hc Hp Hr. assert (∀ z, 0 <= z <= 65535 → try_u16 z = Some z) as Htry.
  { intros z Hz. apply try_u16_Some. unfold in_u16. lia. }
  unfold published_port. cbn [m_protocol m_host_ip m_host_port m_container_port m_host_port_end].
  rewrite !Htry by lia. unfold host_address_of in Ha.
  assert ((negb (e =? 0) && ((h =? 0) || (e <? h)))%bool = false) as Hrej by (destruct Hr; lia).
  destruct Hp as [->| ->]; cbn; (destruct (is_empty ip); [injection Ha as <-|rewrite Ha]); cbn;
    (destruct (Z.eqb_spec c 0); [lia|]); cbn; rewrite Hrej; done.
Qed.

(** The mappings as the daemon reads them. *)
Definition port_of (addr : IpAddr) (m : PortMapping) : PublishedPort :=
  mkPort addr (m_host_port m) (m_host_port_end m) (m_container_port m) (protocol_named (m_protocol m)).
Lemma try_map_all {A B E} (f : A → result B E) (g : A → B) l : (∀ x, x ∈ l → f x = Ok (g x)) → try_map f l = Ok (g <$> l).
Proof.
  induction l as [|x l IH]; intros H; [done|]. cbn [try_map]. rewrite (H x) by set_solver. cbn. rewrite IH by set_solver. done.
Qed.
Lemma shape_published spec ms ip proto addr :
  shape spec ms ip proto → host_address_of ip = Some addr → published_ports ms = Ok (port_of addr <$> ms).
Proof.
  intros [n h step e c Hms Hn Hc Hst Hh He Hsi Hp] Ha. subst ms. set (mk := λ i : nat, _) in *.
  assert (∀ i, i ∈ seq 0 n → (i < n)%nat) as Hlt by (intros i Hi%elem_of_seq; lia).
  assert (∀ m, m ∈ mk <$> seq 0 n → published_port m = Ok (port_of addr m)) as Hone.
  { intros m (i & -> & Hi%Hlt)%list_elem_of_fmap. apply published_port_mk; [done|..|done|]; destruct Hst as [->|[-> ?]], He as [->|?]; cbn; lia. }
  unfold published_ports. rewrite length_fmap, length_seq. unfold MAX_PUBLISHED_PORTS.
  destruct (Z.gtb_spec (Z.of_nat n) 64); [lia|]. cbn -[fmap list_fmap seq claim_ports try_map filter]. rewrite (try_map_all _ (port_of addr)) by done.
  cbn -[fmap list_fmap seq claim_ports filter]. rewrite claim_ports_distinct; [done| |by apply Forall_true; intros ? ?%not_elem_of_nil].
  apply NoDup_fmap_2_strong.
  - intros x y [Hx (mx & -> & (i & -> & Hi%Hlt)%list_elem_of_fmap)%list_elem_of_fmap]%list_elem_of_filter
      [Hy (my & -> & (j & -> & Hj%Hlt)%list_elem_of_fmap)%list_elem_of_fmap]%list_elem_of_filter Hkey.
    unfold fixed in Hx. cbn in Hx, Hkey. injection Hkey as Hkey.
    assert (i = j) as ->; [|done]. destruct Hst as [->|[-> ?]]; [|lia]. destruct (Hsi eq_refl) as [->| ->]; [done|lia].
  - apply NoDup_filter. rewrite <- list_fmap_compose. apply NoDup_fmap_2_strong; [|apply NoDup_seq].
    intros i j _ _ Hij. cbn in Hij. injection Hij. lia.
Qed.

(** A publish value the client takes, the daemon takes too, unless its address
    is none.  It stands for one to 64 mappings, on consecutive ports of the
    guest and of one protocol; the daemon turns them into as many published
    ports, on that address, or on the loopback address where the value names
    none. *)
Theorem publish_accepted (spec : string) (ms : list PortMapping) (parsed : parse_publish spec = Ok ms) :
  ∃ body ip ports proto,
    split_protocol spec = Ok (body, proto) ∧ split_host_ip body spec = Ok (ip, ports) ∧
    (1 ≤ length ms ≤ 64)%nat ∧
    (∃ c, m_container_port <$> ms = (λ i, c + Z.of_nat i) <$> seq 0 (length ms)) ∧
    match host_address_of ip with
    | Some addr => published_ports ms = Ok (port_of addr <$> ms)
    | None => ∃ e, published_ports ms = Err (InvalidRequest e)
    end.
Proof.
  destruct (publish_shape spec ms parsed) as (body & ip & ports & proto & Hp & Hi & [Hsh]). exists body, ip, ports, proto.
  split_and!; [done|done| | | |].
  1, 2: destruct Hsh as [n h step e c -> Hn]; rewrite length_fmap, length_seq; lia.
  { destruct Hsh as [n h step e c -> Hn]. exists c. rewrite length_fmap, length_seq, <- list_fmap_compose. by apply list_fmap_ext. }
  destruct (host_address_of ip) as [addr|] eqn:Ha; [by eapply shape_published|].
  destruct Hsh as [n h step e c -> Hn Hc Hst Hh He Hsi Hpr]. unfold published_ports. rewrite length_fmap, length_seq. unfold MAX_PUBLISHED_PORTS.
  destruct (Z.gtb_spec (Z.of_nat n) 64); [lia|]. cbn -[fmap list_fmap seq claim_ports try_map filter]. destruct n as [|n]; [lia|]. cbn [seq fmap list_fmap try_map].
  unfold published_port at 1. cbn [m_protocol m_host_ip]. unfold host_address_of in Ha. destruct (is_empty ip); [done|]. rewrite Ha.
  destruct Hpr as [->| ->]; cbn; by eexists.
Qed.

(** ** Exposed ports *)

Definition port_name (m : PortMapping) : Z * string := (m_container_port m, m_protocol m).
Lemma same_port_name a b : same_port a b = true ↔ port_name a = port_name b.
Proof. unfold same_port, port_name. rewrite andb_true_iff, Z.eqb_eq, bool_decide_eq_true. split; [intros [-> ->]; done|by intros [= -> ->]]. Qed.
Lemma taken_name l m : existsb (λ a, same_port a m) l = true ↔ port_name m ∈ port_name <$> l.
Proof.
  rewrite existsb_exists, list_elem_of_fmap. split; intros (a & H1 & H2); exists a.
  - apply list_elem_of_In in H1. apply same_port_name in H2. by rewrite H2.
  - rewrite <- list_elem_of_In, same_port_name. by rewrite H1.
Qed.
Lemma added_names published exposed added :
  NoDup (port_name <$> added) → (∀ m, m ∈ added → port_name m ∉ port_name <$> published) →
  let all := foldl (add_exposed published) added exposed in
  NoDup (port_name <$> all) ∧ (∀ m, m ∈ all → port_name m ∉ port_name <$> published) ∧
  (∀ m, m ∈ all → m ∈ added ∨ m ∈ exposed) ∧ (∀ m, m ∈ added → m ∈ all) ∧
  (∀ m, m ∈ exposed → port_name m ∈ port_name <$> published ++ all).
Proof.
  revert added. induction exposed as [|m exposed IH]; intros added Hnd Hout; cbn [foldl].
  { split_and!; [done..|auto|done|by intros ? ?%not_elem_of_nil]. }
  assert (∃ added', add_exposed published added m = added' ∧ NoDup (port_name <$> added') ∧
    (∀ x, x ∈ added' → port_name x ∉ port_name <$> published) ∧ (∀ x, x ∈ added' → x ∈ added ∨ x = m) ∧ (∀ x, x ∈ added → x ∈ added') ∧
    port_name m ∈ port_name <$> published ++ added') as (added' & -> & H1 & H2 & H3 & H4 & H5).
  { eexists. split; [reflexivity|]. unfold add_exposed. destruct (existsb _ _) eqn:He.
    { apply taken_name in He. split_and!; auto. }
    apply not_true_iff_false in He. rewrite taken_name, fmap_app, elem_of_app in He. rewrite fmap_app. split_and!.
    - apply NoDup_app. split_and!; [done| |apply NoDup_singleton]. intros x Hx ->%list_elem_of_singleton. naive_solver.
    - intros x [Hx|Hx]%elem_of_app; [by apply Hout|]. apply list_elem_of_singleton in Hx as ->. naive_solver.
    - intros x [Hx|Hx]%elem_of_app; [by left|]. apply list_elem_of_singleton in Hx as ->. by right.
    - set_solver.
    - rewrite !fmap_app. cbn. set_solver. }
  destruct (IH added' H1 H2) as (G1 & G2 & G3 & G4 & G5). split_and!; [done..| | |].
  - intros x [Hx|Hx]%G3; [apply H3 in Hx as [?| ->]|]; set_solver.
  - auto.
  - intros x [->|Hx]%elem_of_cons; [|by apply G5]. rewrite fmap_app, elem_of_app in H5 |- *. destruct H5 as [?|(y & -> & Hy)%list_elem_of_fmap]; [by left|right].
    apply list_elem_of_fmap. eauto.
Qed.

(** ** An exposed port has no host side *)

Lemma contains_colon s : contains ":" s = false → ":"%char ∉ chars s.
Proof.
  intros Hc Hin. apply not_true_iff_false in Hc. destruct Hc. revert Hin. induction s as [|c s IH]; cbn [chars]; [by intros ?%not_elem_of_nil|].
  intros [<-|Hin]%elem_of_cons; cbn [contains]; apply orb_true_iff; [left; by apply starts_with_spec; exists s|right; by apply IH].
Qed.
Lemma split_once_str_colon rest : ":"%char ∉ chars rest → split_once_str "]:" rest = None.
Proof.
  induction rest as [|c rest IH]; [done|]. cbn [chars]. intros [Hc Hr]%not_elem_of_cons. cbn [split_once_str].
  destruct (strip_prefix "]:" (String c rest)) as [r|] eqn:Hs; [|by rewrite IH].
  apply strip_prefix_Some in Hs. injection Hs as -> ->. destruct Hr. cbn. set_solver.
Qed.
Lemma rsplit_once_parts sep s a b x : rsplit_once sep s = Some (a, b) → x ∈ chars a → x ∈ chars s.
Proof.
  revert a b. induction s as [|c s IH]; intros a b; [done|]. cbn [rsplit_once chars].
  destruct (rsplit_once sep s) as [[a' b']|]; [intros [= <- <-]; cbn [chars]|].
  - intros [->|Hx]%elem_of_cons; [by left|right; by eapply IH].
  - case_decide; [|done]. intros [= <- <-]. by intros ?%not_elem_of_nil.
Qed.
Lemma exposed_shape spec ms :
  parse_expose spec = Ok ms → Forall (λ m, m_host_ip m = "" ∧ m_host_port m = 0 ∧ m_host_port_end m = 0) ms ∧ ms ≠ [].
Proof.
  unfold parse_expose. destruct (contains ":" spec) eqn:Hc; [done|]. apply contains_colon in Hc. unfold parse_publish. intros H.
  destruct (split_protocol spec) as [[body proto]|] eqn:Hp; [|done].
  assert (":"%char ∉ chars body) as Hb.
  { unfold split_protocol in Hp. destruct (rsplit_once "/"%char spec) as [[b p]|] eqn:Hr; [|by injection Hp as <- <-].
    destruct (_ && _); [done|]. injection Hp as -> ->. intros Hin. apply Hc. by eapply rsplit_once_parts. }
  assert (split_once ":"%char body = None) as Hn.
  { destruct (split_once ":"%char body) as [[a b]|] eqn:Hs; [|done]. apply split_once_Some in Hs as [-> _]. destruct Hb. rewrite chars_app. cbn. set_solver. }
  steps H. unfold split_host_ip in H. rewrite Hn in H. destruct (strip_prefix "[" body) as [rest|] eqn:Hs.
  { apply strip_prefix_Some in Hs as ->. rewrite split_once_str_colon in H; [done|]. cbn in Hb. set_solver. }
  steps H. unfold split_ports in H. rewrite split_none in H by done. destruct (parse_range body spec) as [c|]; [|done]. steps H.
  destruct (_ <? _)%nat; [done|]. apply Ok_inj in H as <-. split; [|done]. apply Forall_fmap, Forall_true. done.
Qed.

(** [-P] publishes every exposed port once.  The mappings it adds are exposed
    ports, on any free port of the loopback address; each exposed port is then
    published, by [-p] or by one of them; and none is published twice. *)
Theorem publish_all_exact (flags : PublishAllFlags) (published added : list PortMapping)
    (all : publish_all flags = true) (ran : exposed_mappings flags published = Ok added) :
  ∃ exposed, try_map parse_expose (expose flags) = Ok exposed ∧ concat exposed ≠ [] ∧
    (∀ m, m ∈ added → m ∈ concat exposed) ∧
    Forall (λ m, m_host_ip m = "" ∧ m_host_port m = 0 ∧ m_host_port_end m = 0) added ∧
    (∀ m, m ∈ concat exposed → port_name m ∈ port_name <$> published ++ added) ∧
    NoDup (port_name <$> added) ∧ (∀ m, m ∈ added → port_name m ∉ port_name <$> published).
Proof.
  unfold exposed_mappings in ran. destruct (try_map parse_expose (expose flags)) as [exposed|] eqn:Hm; [|done]. cbn [rbind] in ran.
  rewrite all in ran. cbn [negb] in ran. exists exposed.
  assert (Forall (λ m, m_host_ip m = "" ∧ m_host_port m = 0 ∧ m_host_port_end m = 0) (concat exposed)) as Hshape.
  { apply try_map_Ok in Hm. clear ran. induction Hm as [|spec ms specs exposed Hs _ IH]; [done|]. cbn. apply Forall_app. split; [|done].
    by apply exposed_shape in Hs as [? _]. }
  destruct (concat exposed) as [|m ms]; [done|]. apply Ok_inj in ran as <-.
  destruct (added_names published (m :: ms) []) as (G1 & G2 & G3 & _ & G5); [constructor|by intros ? ?%not_elem_of_nil|].
  assert (∀ x, x ∈ foldl (add_exposed published) [] (m :: ms) → x ∈ m :: ms) as Hin by (intros x [?%not_elem_of_nil|?]%G3; done).
  split_and!; try done. apply Forall_forall. intros x Hx%Hin. rewrite Forall_forall in Hshape. by apply Hshape.
Qed.

(** [ward port] shows the published ports asked for, in order, or says that
    there is none. *)
Theorem shown_ports_spec (reference text : string) (published : list PortMapping) (p : Z) (proto : string)
    (asked : parse_private_port text = Ok (p, proto)) :
  match shown_ports reference (Some text) published with
  | Ok shown => shown = filter (λ m, m_container_port m = p ∧ protocol_of m = proto) published ∧ shown ≠ []
  | Err _ => ∀ m, m ∈ published → ¬ (m_container_port m = p ∧ protocol_of m = proto)
  end.
Proof.
  unfold shown_ports. rewrite asked. cbn [rbind is_wanted].
  assert (filter (λ m, matches_private m p proto = true) published = filter (λ m, m_container_port m = p ∧ protocol_of m = proto) published) as ->.
  { apply list_filter_iff. intros m. unfold matches_private. by rewrite andb_true_iff, Z.eqb_eq, bool_decide_eq_true. }
  destruct (filter _ published) as [|m ms] eqn:Hf; [|done]. intros m Hm Hy. apply (not_elem_of_nil m). rewrite <- Hf.
  by apply list_elem_of_filter.
Qed.

(** ** Witnesses *)

Lemma publish_accepted_witness :
  ∃ body ip ports proto,
    split_protocol "8000-8002:80-82/udp" = Ok (body, proto) ∧ split_host_ip body "8000-8002:80-82/udp" = Ok (ip, ports) ∧
    (1 ≤ length [mkMapping "" 8000 0 80 "udp"; mkMapping "" 8001 0 81 "udp"; mkMapping "" 8002 0 82 "udp"] ≤ 64)%nat ∧
    (∃ c, m_container_port <$> [mkMapping "" 8000 0 80 "udp"; mkMapping "" 8001 0 81 "udp"; mkMapping "" 8002 0 82 "udp"] =
       (λ i, c + Z.of_nat i) <$> seq 0 3) ∧
    match host_address_of ip with
    | Some addr => published_ports [mkMapping "" 8000 0 80 "udp"; mkMapping "" 8001 0 81 "udp"; mkMapping "" 8002 0 82 "udp"] =
        Ok (port_of addr <$> [mkMapping "" 8000 0 80 "udp"; mkMapping "" 8001 0 81 "udp"; mkMapping "" 8002 0 82 "udp"])
    | None => ∃ e, published_ports [mkMapping "" 8000 0 80 "udp"; mkMapping "" 8001 0 81 "udp"; mkMapping "" 8002 0 82 "udp"] = Err (InvalidRequest e)
    end.
Proof. apply (publish_accepted "8000-8002:80-82/udp"). vm_compute. reflexivity. Defined.
Lemma publish_all_exact_witness :
  NoDup (port_name <$> [mkMapping "" 0 0 81 "tcp"]).
Proof.
  destruct (publish_all_exact (mkFlags true ["80-81"; "81"]) [mkMapping "" 8080 0 80 "tcp"] [mkMapping "" 0 0 81 "tcp"])
    as (_ & _ & _ & _ & _ & _ & H & _).
  - reflexivity.
  - vm_compute. reflexivity.
  - exact H.
Defined.
Lemma shown_ports_spec_witness :
  match shown_ports "web" (Some "80") [mkMapping "127.0.0.1" 8080 0 80 ""] with
  | Ok shown => shown = filter (λ m, m_container_port m = 80 ∧ protocol_of m = "tcp") [mkMapping "127.0.0.1" 8080 0 80 ""] ∧ shown ≠ []
  | Err _ => ∀ m, m ∈ [mkMapping "127.0.0.1" 8080 0 80 ""] → ¬ (m_container_port m = 80 ∧ protocol_of m = "tcp")
  end.
Proof. apply (shown_ports_spec "web" "80"). vm_compute. reflexivity. Defined.
