(* ===== verification/Smoltcp.v ===== *)
(** * Smoltcp: the interfaces of the TCP/IP stack

    The network task builds on the crate [smoltcp], which is not part of the
    repository: a TCP and a UDP socket are type classes with the operations
    the sources call, abstract views of what the documentation talks about
    (the bytes received and not yet read, the bytes accepted for sending, the
    datagrams queued) and their documented laws.  The parsers of packets are
    a class without laws.  A reference instance of each shows that the laws
    can be met. *)

From stdpp Require Import base list numbers option strings gmap.
From Stdlib Require Import ZArith Lia.
From S2P Require Import Prelude Text Net Output.
Local Open Scope Z_scope.

Abbreviation Endpoint := (IpAddr * Z)%type.

(** The states of a TCP socket: the closed one, those of an opening handshake,
    and those of an established connection up to its end. *)
Inductive TcpState := TcpClosed | TcpListen | TcpSynSent | TcpSynReceived | TcpOpened.
#[export] Instance TcpState_eq_dec : EqDecision TcpState.
Proof. solve_decision. Defined.

(** ** TCP sockets

    An operation that can fail is [None] then and leaves the socket as it
    was. *)
Class TcpApi (T : Type) := {
  tcp_new : T;
  tcp_listen : Endpoint → T → option T;
  tcp_connect : Endpoint → Endpoint → T → option T;
  tcp_state : T → TcpState;
  tcp_is_open : T → bool;
  tcp_is_active : T → bool;
  tcp_can_recv : T → bool;
  tcp_may_recv : T → bool;
  tcp_can_send : T → bool;
  tcp_may_send : T → bool;
  tcp_recv : T → option (bytes * T);
  tcp_send : bytes → T → option (nat * T);
  tcp_close : T → T;
  tcp_abort : T → T;
  (** What has arrived and was not read, and all that was ever accepted. *)
  tcp_received : T → bytes;
  tcp_accepted : T → bytes;
}.

(** The handshake is still under way. *)
Definition tcp_opening {T} `{TcpApi T} (t : T) : bool :=
  match tcp_state t with TcpListen | TcpSynSent | TcpSynReceived => true | TcpClosed | TcpOpened => false end.

Class TcpLaws (T : Type) `{TcpApi T} : Prop := {
  tcp_new_empty : tcp_received tcp_new = [] ∧ tcp_accepted tcp_new = [];
  tcp_listen_keeps e t t' : tcp_listen e t = Some t' →
    tcp_received t' = tcp_received t ∧ tcp_accepted t' = tcp_accepted t;
  tcp_connect_keeps r l t t' : tcp_connect r l t = Some t' →
    tcp_received t' = tcp_received t ∧ tcp_accepted t' = tcp_accepted t;
  tcp_can_recv_spec t : tcp_can_recv t = true ↔ tcp_received t ≠ [];
  tcp_recv_takes t c t' : tcp_recv t = Some (c, t') →
    tcp_received t = c ++ tcp_received t' ∧ tcp_accepted t' = tcp_accepted t;
  tcp_send_takes b t n t' : tcp_send b t = Some (n, t') →
    (n ≤ length b)%nat ∧ tcp_accepted t' = tcp_accepted t ++ take n b ∧ tcp_received t' = tcp_received t;
  tcp_close_keeps t : tcp_received (tcp_close t) = tcp_received t ∧ tcp_accepted (tcp_close t) = tcp_accepted t;
  (** [connect] starts a handshake; only the network takes it further. *)
  tcp_connect_state r l t t' : tcp_connect r l t = Some t' → tcp_state t' = TcpSynSent;
  tcp_recv_state t c t' : tcp_recv t = Some (c, t') → tcp_state t' = tcp_state t;
  tcp_send_state b t n t' : tcp_send b t = Some (n, t') → tcp_state t' = tcp_state t;
  tcp_close_opening t : tcp_opening t = false → tcp_opening (tcp_close t) = false;
  (** Receiving is over for good once a connection that was opened says so. *)
  tcp_send_may b t n t' : tcp_send b t = Some (n, t') → tcp_may_recv t = false → tcp_may_recv t' = false;
  tcp_close_may t : tcp_opening t = false → tcp_may_recv t = false → tcp_may_recv (tcp_close t) = false;
}.

(** ** UDP sockets *)
Class UdpApi (U : Type) := {
  udp_new : U;
  udp_bind : Z → U → option U;
  udp_recv : U → option (bytes * Endpoint * U);
  udp_send : bytes → Endpoint → U → option U;
  udp_queue : U → list (bytes * Endpoint);
}.
Class UdpLaws (U : Type) `{UdpApi U} : Prop := {
  udp_recv_takes u d m u' : udp_recv u = Some (d, m, u') → udp_queue u = (d, m) :: udp_queue u';
  udp_send_keeps d m u u' : udp_send d m u = Some u' → udp_queue u' = udp_queue u;
}.
Definition udp_can_recv {U} `{UdpApi U} (u : U) : bool := match udp_queue u with [] => false | _ => true end.

(** ** The socket set

    A handle names a slot; adding a socket takes a free one, and removing or
    using a handle that names no socket of the kind panics. *)
Inductive Socket (T U : Type) := STcp (t : T) | SUdp (u : U).
Arguments STcp {T U} t.
Arguments SUdp {T U} u.
Class SlotPick (T U : Type) := slot_pick : gmap nat (Socket T U) → nat.
Class SlotPickLaws (T U : Type) `{SlotPick T U} : Prop := slot_pick_free m : m !! slot_pick m = None.

Section set.
Context {T U : Type} `{SlotPick T U}.
Abbreviation SocketSet := (gmap nat (Socket T U)).

Definition set_add (s : Socket T U) (m : SocketSet) : nat * SocketSet :=
  let h := slot_pick m in (h, <[h := s]> m).
Definition get_tcp (h : nat) (m : SocketSet) : option T :=
  match m !! h with Some (STcp t) => Some t | _ => None end.
Definition get_udp (h : nat) (m : SocketSet) : option U :=
  match m !! h with Some (SUdp u) => Some u | _ => None end.
Definition set_remove (h : nat) (m : SocketSet) : option SocketSet :=
  match m !! h with Some _ => Some (delete h m) | None => None end.
End set.

(** ** Packets

    The parsers and the DHCP encoder of [smoltcp::wire]. *)
Abbreviation Mac := (list Z).
Inductive DhcpMessageType := DhcpDiscover | DhcpOffer | DhcpRequest | DhcpAck | DhcpOtherType.
#[export] Instance DhcpMessageType_eq_dec : EqDecision DhcpMessageType.
Proof. solve_decision. Defined.
Record DhcpRepr := mkDhcpRepr {
  d_message_type : DhcpMessageType; d_transaction_id : Z; d_secs : Z; d_client_hardware_address : Mac;
  d_client_ip : IpAddr; d_your_ip : IpAddr; d_server_ip : IpAddr; d_router : option IpAddr;
  d_subnet_mask : option IpAddr; d_relay_agent_ip : IpAddr; d_broadcast : bool; d_requested_ip : option IpAddr;
  d_client_identifier : option Mac; d_server_identifier : option IpAddr; d_parameter_request_list : option bytes;
  d_dns_servers : option (list IpAddr); d_max_size : option Z; d_lease_duration : option Z;
  d_renew_duration : option Z; d_rebind_duration : option Z;
}.

(** The control flags of a TCP segment, as far as they matter. *)
Inductive TcpControl := CtlSyn | CtlOther.
#[export] Instance TcpControl_eq_dec : EqDecision TcpControl.
Proof. solve_decision. Defined.

Class Wire := {
  (** Is the frame an IPv4 one, and its payload. *)
  eth_frame : bytes → option (bool * bytes);
  (** Is the packet a TCP one, and its payload. *)
  ipv4_packet : bytes → option (bool * bytes);
  ipv4_addresses : bytes → option (IpAddr * IpAddr);
  tcp_header_ok : bytes → bool;
  (** Control flags, acknowledgement, source and destination port. *)
  tcp_segment : bytes → IpAddr → IpAddr → option (TcpControl * option Z * Z * Z);
  (** Transaction id and payload; raw name and length of the question. *)
  dns_packet : bytes → option (Z * bytes);
  dns_question : bytes → option (bytes * nat);
  dhcp_packet_ok : bytes → bool;
  dhcp_parse : bytes → option DhcpRepr;
  dhcp_emit : DhcpRepr → bytes;
}.

(** ** Reference instances *)

(** A TCP socket as the bytes on both sides, the room left in the send buffer
    and the flags. *)
Record RefTcp := mkRefTcp {
  rt_state : TcpState; rt_received : bytes; rt_accepted : bytes; rt_room : nat; rt_peer_closed : bool; rt_closed : bool;
}.
Definition ref_open (t : RefTcp) : bool := bool_decide (rt_state t = TcpOpened).
Definition ref_empty (t : RefTcp) : bool := bool_decide (rt_received t = []).
Definition ref_set (state : TcpState) (t : RefTcp) : RefTcp :=
  mkRefTcp state (rt_received t) (rt_accepted t) (rt_room t) (rt_peer_closed t) (rt_closed t).
#[export] Instance ref_tcp : TcpApi RefTcp := {|
  tcp_new := mkRefTcp TcpClosed [] [] 16 false false;
  tcp_listen _ t := Some (ref_set TcpListen t);
  tcp_connect _ _ t := Some (ref_set TcpSynSent t);
  tcp_state := rt_state;
  tcp_is_open t := negb (bool_decide (rt_state t = TcpClosed));
  tcp_is_active t := negb (bool_decide (rt_state t = TcpClosed)) && negb (bool_decide (rt_state t = TcpListen));
  tcp_can_recv t := negb (ref_empty t);
  tcp_may_recv t := (ref_open t && negb (rt_peer_closed t)) || negb (ref_empty t);
  tcp_can_send t := ref_open t && negb (rt_closed t) && negb (bool_decide (rt_room t = 0%nat));
  tcp_may_send t := ref_open t && negb (rt_closed t);
  tcp_recv t :=
    if (ref_open t && negb (rt_peer_closed t)) || negb (ref_empty t)
    then Some (rt_received t, mkRefTcp (rt_state t) [] (rt_accepted t) (rt_room t) (rt_peer_closed t) (rt_closed t))
    else None;
  tcp_send b t :=
    let n := (rt_room t `min` length b)%nat in
    if ref_open t && negb (rt_closed t)
    then Some (n, mkRefTcp (rt_state t) (rt_received t) (rt_accepted t ++ take n b) (rt_room t - n) (rt_peer_closed t) (rt_closed t))
    else None;
  tcp_close t :=
    let state :=
      match rt_state t with TcpSynReceived | TcpOpened => TcpOpened | TcpClosed | TcpListen | TcpSynSent => TcpClosed end in
    mkRefTcp state (rt_received t) (rt_accepted t) (rt_room t) (rt_peer_closed t) true;
  tcp_abort t := mkRefTcp TcpClosed [] (rt_accepted t) (rt_room t) true true;
  tcp_received := rt_received;
  tcp_accepted := rt_accepted;
|}.
#[export] Instance ref_tcp_laws : TcpLaws RefTcp.
Proof.
  split.
  - done.
  - by intros e t t' [= <-].
  - by intros r l t t' [= <-].
  - intros t. cbn. unfold ref_empty. rewrite negb_true_iff, bool_decide_eq_false. done.
  - intros t c t'. cbn. case_match; [|done]. intros [= <- <-]. cbn. by rewrite app_nil_r.
  - intros b t n t'. cbn. case_match; [|done]. intros [= <- <-]. cbn. split_and!; [lia|done|done].
  - done.
  - by intros r l t t' [= <-].
  - intros t c t'. cbn. case_match; [|done]. by intros [= <- <-].
  - intros b t n t'. cbn. case_match; [|done]. by intros [= <- <-].
  - intros t. unfold tcp_opening. cbn. by destruct (rt_state t).
  - intros b t n t'. cbn. case_match; [|done]. by intros [= <- <-].
  - intros t. unfold tcp_opening. cbn. unfold ref_open, ref_empty. cbn. by destruct (rt_state t).
Qed.

(** A UDP socket as its queue and what it sent. *)
Record RefUdp := mkRefUdp { ru_queue : list (bytes * Endpoint); ru_sent : list (bytes * Endpoint) }.
#[export] Instance ref_udp : UdpApi RefUdp := {|
  udp_new := mkRefUdp [] [];
  udp_bind _ u := Some u;
  udp_recv u := match ru_queue u with [] => None | x :: q => Some (x.1, x.2, mkRefUdp q (ru_sent u)) end;
  udp_send d m u := Some (mkRefUdp (ru_queue u) (ru_sent u ++ [(d, m)]));
  udp_queue := ru_queue;
|}.
#[export] Instance ref_udp_laws : UdpLaws RefUdp.
Proof.
  split.
  - intros u d m u'. cbn. destruct (ru_queue u) as [|[d0 m0] q] eqn:Hq; [done|]. by intros [= <- <- <-].
  - by intros d m u u' [= <-].
Qed.

#[export] Instance ref_pick {T U} : SlotPick T U := λ m, fresh (dom m).
#[export] Instance ref_pick_laws {T U} : SlotPickLaws T U.
Proof. intros m. apply not_elem_of_dom. apply is_fresh. Qed.
