(* ===== verification/Inbound.v ===== *)
(** * Inbound: host connections relayed to the guest

    Models [ward-net/src/inbound.rs] and [ward-net/src/inbound_udp.rs]: the
    local ports of connections toward the guest, a relayed TCP connection with
    the task that owns its host side, and a relayed UDP peer.  The sockets
    toward the guest are the interfaces of [Smoltcp]. *)

From stdpp Require Import base list numbers option strings gmap.
From Stdlib Require Import ZArith Lia.
From S2P Require Import Prelude Text Net Output Smoltcp.
Local Open Scope Z_scope.

Definition MAX_INBOUND_PER_LISTENER : nat := 64.
Definition MAX_INBOUND_TOTAL : nat := 256.
Definition INBOUND_CONNECT_TIMEOUT : Z := 10.
Definition HALF_CLOSE_TIMEOUT : Z := 60.
Definition CHANNEL_CAPACITY : nat := 16.
Definition EPHEMERAL_PORT_START : Z := 49152.
Definition EPHEMERAL_PORT_COUNT : Z := 65535 - EPHEMERAL_PORT_START + 1.
Definition RECENT_PORTS : nat := 64.

Record InboundTuning := mkTuning { half_close_timeout : Z; connect_timeout : Z }.
Definition default_tuning : InboundTuning := mkTuning HALF_CLOSE_TIMEOUT INBOUND_CONNECT_TIMEOUT.

(** ** Local ports *)

Record LocalPorts := mkLocalPorts { cursor : Z; recent : list Z }.
Definition starting_at (c : Z) : LocalPorts := mkLocalPorts c [].
(** [LocalPorts::new]; the hash is an argument. *)
Definition new_ports (hash : Z) : LocalPorts := starting_at (EPHEMERAL_PORT_START + hash mod EPHEMERAL_PORT_COUNT).

Definition next_port (port : Z) : Z := if port =? 65535 then EPHEMERAL_PORT_START else port + 1.
(** One round of the loop of [allocate]. *)
Definition try_port (in_use : Z → bool) (p : LocalPorts) : LocalPorts + Z * LocalPorts :=
  let port := cursor p in
  let p := mkLocalPorts (next_port port) (recent p) in
  if negb (in_use port) && negb (bool_decide (port ∈ recent p)) then inr (port, p) else inl p.
(** [None] when a whole turn around the range found nothing: the code would
    go on for ever. *)
Definition allocate (in_use : Z → bool) (p : LocalPorts) : option (Z * LocalPorts) :=
  match loop_pos (Z.to_pos EPHEMERAL_PORT_COUNT) (try_port in_use) p with inr r => Some r | inl _ => None end.
Definition retire (port : Z) (p : LocalPorts) : LocalPorts :=
  let kept := if (length (recent p) =? RECENT_PORTS)%nat then tail (recent p) else recent p in
  mkLocalPorts (cursor p) (kept ++ [port]).

(** ** The host side of a connection

    The task of [spawn_host_io] owns the host's stream.  Its state here is the
    contents of its two channels, the chunk it has taken and not written yet,
    the message it has read and not sent yet, how far it got, and the bytes it
    has read from and written to the stream. *)

Inductive ToHost := ToData (b : bytes) | ToFin.
Inductive FromHost := FromData (b : bytes) | FromEof.
#[export] Instance ToHost_eq_dec : EqDecision ToHost.
Proof. solve_decision. Defined.
#[export] Instance FromHost_eq_dec : EqDecision FromHost.
Proof. solve_decision. Defined.

Record HostIo := mkHostIo {
  to_host : list ToHost; writing : option bytes; from_host : list FromHost; held : option FromHost;
  writer_done : bool; reader_done : bool; io_over : bool;
  io_read : bytes; io_written : bytes;
}.
Definition new_io : HostIo := mkHostIo [] None [] None false false false [] [].

(** One turn of [write_loop]: it takes the next message, or the write it is at
    ends: in time, or it fails after some bytes.  [closed] tells that the flow
    dropped its sender. *)
Inductive HostWrite := Written | WriteFailed (n : nat).
Definition write_turn (r : HostWrite) (closed : bool) (io : HostIo) : HostIo :=
  if io_over io || writer_done io then io else
  let '(mkHostIo th w fh h _ rd _ rb wb) := io in
  match w with
  | Some b =>
      match r with
      | Written => mkHostIo th None fh h false rd false rb (wb ++ b)
      | WriteFailed n => mkHostIo th None fh h false rd true rb (wb ++ take n b)
      end
  | None =>
      match th with
      | ToData b :: th => mkHostIo th (Some b) fh h false rd false rb wb
      | ToFin :: th => mkHostIo th None fh h true rd rd rb wb
      | [] => if closed then mkHostIo [] None fh h false rd true rb wb else io
      end
  end.

(** What a read of the stream returns. *)
Inductive HostRead := ReadData (b : bytes) | ReadEof | ReadError.
(** One turn of [read_loop]: it sends the message it holds as soon as its
    channel has room, or reads the stream. *)
Definition read_turn (r : HostRead) (io : HostIo) : HostIo :=
  if io_over io || reader_done io then io else
  let '(mkHostIo th w fh h wd _ _ rb wb) := io in
  match h with
  | Some m =>
      if (CHANNEL_CAPACITY <=? length fh)%nat then io else
      let eof := bool_decide (m = FromEof) in
      mkHostIo th w (fh ++ [m]) None wd eof (eof && wd) rb wb
  | None =>
      match r with
      | ReadData b => mkHostIo th w fh (Some (FromData b)) wd false false (rb ++ b) wb
      | ReadEof => mkHostIo th w fh (Some FromEof) wd false false rb wb
      | ReadError => mkHostIo th w fh None wd false true rb wb
      end
  end.

(** [Sender::try_reserve], and [permit.send]. *)
Definition can_reserve (io : HostIo) : bool := negb (io_over io) && (length (to_host io) <? CHANNEL_CAPACITY)%nat.
Definition push_to_host (m : ToHost) (io : HostIo) : HostIo :=
  mkHostIo (to_host io ++ [m]) (writing io) (from_host io) (held io) (writer_done io) (reader_done io) (io_over io) (io_read io) (io_written io).
Definition pop_from_host (io : HostIo) : HostIo :=
  mkHostIo (to_host io) (writing io) (tail (from_host io)) (held io) (writer_done io) (reader_done io) (io_over io) (io_read io) (io_written io).

(** ** A relayed connection *)

Record InboundFlow := mkInboundFlow {
  if_handle : nat; if_local_port : Z; if_io : HostIo; if_pending : option bytes; host_eof : bool;
  fin_to_host : bool; fin_to_guest : bool; started : Z; half_closed : bool; last_activity : Z; moved : bool;
  if_listener : nat;
}.
(** [InboundFlow::new]. *)
Definition new_inbound_flow (listener handle : nat) (local_port now : Z) : InboundFlow :=
  mkInboundFlow handle local_port new_io None false false false now false now false listener.

Definition set_io (io : HostIo) (f : InboundFlow) : InboundFlow :=
  mkInboundFlow (if_handle f) (if_local_port f) io (if_pending f) (host_eof f) (fin_to_host f) (fin_to_guest f)
    (started f) (half_closed f) (last_activity f) (moved f) (if_listener f).
Definition set_pending (p : option bytes) (f : InboundFlow) : InboundFlow :=
  mkInboundFlow (if_handle f) (if_local_port f) (if_io f) p (host_eof f) (fin_to_host f) (fin_to_guest f)
    (started f) (half_closed f) (last_activity f) (moved f) (if_listener f).
Definition set_host_eof (f : InboundFlow) : InboundFlow :=
  mkInboundFlow (if_handle f) (if_local_port f) (if_io f) (if_pending f) true (fin_to_host f) (fin_to_guest f)
    (started f) (half_closed f) (last_activity f) (moved f) (if_listener f).
Definition set_fin_to_host (f : InboundFlow) : InboundFlow :=
  mkInboundFlow (if_handle f) (if_local_port f) (if_io f) (if_pending f) (host_eof f) true (fin_to_guest f)
    (started f) true (last_activity f) (moved f) (if_listener f).
Definition set_fin_to_guest (f : InboundFlow) : InboundFlow :=
  mkInboundFlow (if_handle f) (if_local_port f) (if_io f) (if_pending f) (host_eof f) (fin_to_host f) true
    (started f) true (last_activity f) (moved f) (if_listener f).
Definition mark_moved (now : Z) (f : InboundFlow) : InboundFlow :=
  mkInboundFlow (if_handle f) (if_local_port f) (if_io f) (if_pending f) (host_eof f) (fin_to_host f) (fin_to_guest f)
    (started f) (half_closed f) now true (if_listener f).
Definition take_moved (f : InboundFlow) : bool * InboundFlow :=
  (moved f,
   mkInboundFlow (if_handle f) (if_local_port f) (if_io f) (if_pending f) (host_eof f) (fin_to_host f) (fin_to_guest f)
     (started f) (half_closed f) (last_activity f) false (if_listener f)).

Section flow.
Context {T : Type} `{TcpApi T}.

Definition guest_to_host (now : Z) (f : InboundFlow) (s : T) : InboundFlow * T :=
  if can_reserve (if_io f) then
    if tcp_can_recv s then
      match tcp_recv s with
      | Some (chunk, s) => (mark_moved now (set_io (push_to_host (ToData chunk) (if_io f)) f), s)
      | None => (f, s)
      end
    else if negb (tcp_may_recv s) && negb (fin_to_host f)
    then (set_fin_to_host (set_io (push_to_host ToFin (if_io f)) f), s)
    else (f, s)
  else (f, s).

(** The three parts of [host_to_guest]: take a chunk, hand it on, close.  The
    flag tells that the flow must be torn down. *)
Definition take_chunk (now : Z) (f : InboundFlow) : bool * InboundFlow :=
  match if_pending f, host_eof f with
  | None, false =>
      match from_host (if_io f) with
      | FromData chunk :: _ => (false, mark_moved now (set_pending (Some chunk) (set_io (pop_from_host (if_io f)) f)))
      | FromEof :: _ => (false, set_host_eof (set_io (pop_from_host (if_io f)) f))
      | [] => (io_over (if_io f), f)
      end
  | _, _ => (false, f)
  end.
Definition hand_on (now : Z) (f : InboundFlow) (s : T) : bool * InboundFlow * T :=
  match if_pending f with
  | Some chunk =>
      if tcp_can_send s then
        match tcp_send chunk s with
        | None => (true, f, s)
        | Some (sent, s) =>
            let f := set_pending (if (sent =? length chunk)%nat then None else Some (drop sent chunk)) f in
            (false, if (0 <? sent)%nat then mark_moved now f else f, s)
        end
      else (false, f, s)
  | None => (false, f, s)
  end.
Definition pass_fin (f : InboundFlow) (s : T) : InboundFlow * T :=
  match if_pending f with
  | None =>
      if host_eof f && negb (fin_to_guest f) && tcp_may_send s then (set_fin_to_guest f, tcp_close s) else (f, s)
  | Some _ => (f, s)
  end.
Definition host_to_guest (now : Z) (f : InboundFlow) (s : T) : bool * InboundFlow * T :=
  let '(down, f) := take_chunk now f in
  if down then (true, f, s) else
  let '(down, f, s) := hand_on now f s in
  if down then (true, f, s) else
  let '(f, s) := pass_fin f s in (false, f, s).

Definition pump (now : Z) (tuning : InboundTuning) (alive : nat → bool) (f : InboundFlow) (s : T)
    : bool * InboundFlow * T :=
  if negb (alive (if_listener f)) then (true, f, s) else
  match tcp_state s with
  | TcpClosed => (true, f, s)
  | TcpSynSent => (connect_timeout tuning <=? now - started f, f, s)
  | _ =>
      let '(f, s) := guest_to_host now f s in
      let '(down, f, s) := host_to_guest now f s in
      if down then (true, f, s) else
      if half_closed f && (half_close_timeout tuning <=? now - last_activity f) then (true, f, s) else
      (fin_to_host f && fin_to_guest f && negb (tcp_is_active s), f, s)
  end.
End flow.

(** ** A relayed UDP peer *)

Definition MAX_UDP_FLOWS : nat := 256.
Definition MAX_UDP_FLOWS_PER_HOST : nat := 16.
Definition MAX_UDP_PAYLOAD_BYTES : Z := 1472.
Definition UDP_IDLE_TIMEOUT : Z := 60.

(** The host socket a datagram came through is known by a number. *)
Record NewDatagram := mkNewDatagram {
  dg_host : nat; dg_peer : Endpoint; dg_guest_port : Z; dg_payload : bytes;
}.
Record UdpFlow := mkUdpFlow {
  uf_handle : nat; uf_local_port : Z; uf_host : nat; uf_peer : Endpoint; uf_guest_port : Z; uf_last_activity : Z;
}.
Definition new_udp_flow (handle : nat) (local_port : Z) (first : NewDatagram) (now : Z) : UdpFlow :=
  mkUdpFlow handle local_port (dg_host first) (dg_peer first) (dg_guest_port first) now.
Definition serves (f : UdpFlow) (d : NewDatagram) : bool :=
  bool_decide (uf_peer f = dg_peer d) && (uf_guest_port f =? dg_guest_port d) && (uf_host f =? dg_host d)%nat.
Definition touch_udp (now : Z) (f : UdpFlow) : UdpFlow :=
  mkUdpFlow (uf_handle f) (uf_local_port f) (uf_host f) (uf_peer f) (uf_guest_port f) now.

Section udp.
Context {U : Type} `{UdpApi U}.

Definition send_to_guest (now : Z) (guest : IpAddr) (payload : bytes) (f : UdpFlow) (u : U) : bool * UdpFlow * U :=
  match udp_send payload (guest, uf_guest_port f) u with
  | Some u => (true, touch_udp now f, u)
  | None => (false, touch_udp now f, u)
  end.

(** The replies go out through the host socket to the peer; the fuel is the
    number of queued datagrams. *)
Fixpoint udp_replies (fuel : nat) (now : Z) (f : UdpFlow) (u : U) (out : list (nat * Endpoint * bytes))
    : UdpFlow * U * list (nat * Endpoint * bytes) :=
  match fuel with
  | O => (f, u, out)
  | S fuel =>
      match udp_recv u with
      | None => (f, u, out)
      | Some (payload, _, u) => udp_replies fuel now (touch_udp now f) u (out ++ [(uf_host f, uf_peer f, payload)])
      end
  end.
Definition udp_pump (now : Z) (alive : nat → bool) (f : UdpFlow) (u : U)
    : bool * UdpFlow * U * list (nat * Endpoint * bytes) :=
  let '(f, u, out) := udp_replies (length (udp_queue u)) now f u [] in
  (negb (alive (uf_host f)) || (UDP_IDLE_TIMEOUT <=? now - uf_last_activity f), f, u, out).
End udp.

(** ** Local ports *)

Lemma next_port_range port :
  EPHEMERAL_PORT_START ≤ port ≤ 65535 → EPHEMERAL_PORT_START ≤ next_port port ≤ 65535.
Proof. unfold next_port, EPHEMERAL_PORT_START. intros. destruct (port =? 65535) eqn:?; lia. Qed.

(** The port [k] steps on from [c]. *)
Lemma next_port_iter c k :
  EPHEMERAL_PORT_START ≤ c ≤ 65535 →
  Nat.iter k next_port c = EPHEMERAL_PORT_START + (c - EPHEMERAL_PORT_START + Z.of_nat k) mod EPHEMERAL_PORT_COUNT.
Proof.
  unfold EPHEMERAL_PORT_COUNT, EPHEMERAL_PORT_START. change (65535 - 49152 + 1) with 16384.
  intros Hc. induction k as [|k IH].
  - rewrite Z.mod_small by lia. cbn. lia.
  - rewrite Nat.iter_succ, IH. unfold next_port, EPHEMERAL_PORT_START.
    set (x := c - 49152 + Z.of_nat k). replace (c - 49152 + Z.of_nat (S k)) with (x + 1) by lia.
    pose proof (Z.mod_pos_bound x 16384 ltac:(lia)) as Hb. pose proof (Z.div_mod x 16384 ltac:(lia)) as Hd.
    destruct (49152 + x mod 16384 =? 65535) eqn:He.
    + rewrite <- (Z.mod_unique (x + 1) 16384 (x / 16384 + 1) 0); lia.
    + rewrite <- (Z.mod_unique (x + 1) 16384 (x / 16384) (x mod 16384 + 1)); lia.
Qed.

Lemma allocate_loop (used : list Z) p :
  EPHEMERAL_PORT_START ≤ cursor p ≤ 65535 →
  Z.of_nat (length used + length (recent p)) < EPHEMERAL_PORT_COUNT →
  allocate (λ port, bool_decide (port ∈ used)) p ≠ None.
Proof.
  intros Hc Hn. unfold allocate. destruct (loop_pos _ _ p) as [p'|r] eqn:Hl; [|done]. exfalso.
  apply (loop_pos_states _ (λ p, mkLocalPorts (next_port (cursor p)) (recent p))
    (λ p, cursor p ∈ used ++ recent p)) in Hl as [_ Hall].
  2:{ intros q q' Hq. unfold try_port in Hq. destruct (negb _ && negb _) eqn:Hb; [done|]. injection Hq as <-.
      split; [done|]. apply elem_of_app. rewrite andb_false_iff, !negb_false_iff, !bool_decide_eq_true in Hb. done. }
  assert (Hit : ∀ k, Nat.iter k (λ p, mkLocalPorts (next_port (cursor p)) (recent p)) p =
                mkLocalPorts (Nat.iter k next_port (cursor p)) (recent p)).
  { induction k as [|k IH]; [by destruct p|]. by rewrite !Nat.iter_succ, IH. }
  set (n := Pos.to_nat (Z.to_pos EPHEMERAL_PORT_COUNT)) in *.
  assert (Hn' : Z.of_nat n = EPHEMERAL_PORT_COUNT) by (unfold n, EPHEMERAL_PORT_COUNT, EPHEMERAL_PORT_START; lia).
  assert (Hsub : (λ k, Nat.iter k next_port (cursor p)) <$> seq 0 n ⊆ used ++ recent p).
  { intros x Hx. apply list_elem_of_fmap in Hx as (k & -> & Hk%elem_of_seq). specialize (Hall k ltac:(lia)).
    rewrite Hit in Hall. done. }
  assert (Hnd : NoDup ((λ k, Nat.iter k next_port (cursor p)) <$> seq 0 n)).
  { apply NoDup_fmap_2_strong; [|apply NoDup_seq]. intros i j Hi%elem_of_seq Hj%elem_of_seq Heq.
    rewrite !next_port_iter in Heq by done. unfold EPHEMERAL_PORT_COUNT in *.
    set (m := 65535 - EPHEMERAL_PORT_START + 1) in *. assert (Hm : 0 < m) by (unfold m, EPHEMERAL_PORT_START; lia).
    set (d := cursor p - EPHEMERAL_PORT_START) in *. clearbody m d.
    apply Z.add_reg_l in Heq.
    pose proof (Z.div_mod (d + Z.of_nat i) m ltac:(lia)) as Hi'. pose proof (Z.div_mod (d + Z.of_nat j) m ltac:(lia)) as Hj'.
    rewrite Heq in Hi'. revert Hi' Hj'. generalize ((d + Z.of_nat i) / m), ((d + Z.of_nat j) / m), ((d + Z.of_nat j) mod m).
    intros qi qj r Hi' Hj'. assert (Hq : m * (qi - qj) = Z.of_nat i - Z.of_nat j) by lia.
    clear - Hq Hi Hj Hn'. assert (qi - qj = 0) by nia. nia. }
  apply (NoDup_submseteq _ _ Hnd), submseteq_length in Hsub.
  rewrite length_fmap, length_seq, length_app in Hsub. lia.
Qed.

(** A local port is found as long as fewer ports are taken than the range has;
    it is in the range, not in use and not among the ports retired last. *)
Theorem allocate_spec (used : list Z) (p : LocalPorts)
    (in_range : EPHEMERAL_PORT_START ≤ cursor p ≤ 65535)
    (room : Z.of_nat (length used + length (recent p)) < EPHEMERAL_PORT_COUNT) :
  ∃ port p', allocate (λ x, bool_decide (x ∈ used)) p = Some (port, p') ∧
    EPHEMERAL_PORT_START ≤ port ≤ 65535 ∧ port ∉ used ∧ port ∉ recent p ∧
    recent p' = recent p ∧ EPHEMERAL_PORT_START ≤ cursor p' ≤ 65535.
Proof.
  pose proof (allocate_loop used p in_range room) as Hne. unfold allocate in *.
  pose proof (loop_pos_inv (try_port (λ x, bool_decide (x ∈ used)))
    (λ q, EPHEMERAL_PORT_START ≤ cursor q ≤ 65535 ∧ recent q = recent p)
    (λ r, EPHEMERAL_PORT_START ≤ r.1 ≤ 65535 ∧ r.1 ∉ used ∧ r.1 ∉ recent p ∧
          recent r.2 = recent p ∧ EPHEMERAL_PORT_START ≤ cursor r.2 ≤ 65535)
    (Z.to_pos EPHEMERAL_PORT_COUNT) p) as Hinv.
  destruct (loop_pos _ _ p) as [p'|[port p']]; [done|]. exists port, p'. split; [done|]. apply Hinv; [|done].
  intros q [Hq Hr]. unfold try_port. destruct (negb _ && negb _) eqn:Hb; cbn [recent cursor] in *.
  - rewrite andb_true_iff, !negb_true_iff, !bool_decide_eq_false in Hb. destruct Hb as [Hb1 Hb2]. rewrite Hr in *.
    cbn [fst snd cursor recent]. split_and!; try done; try lia; by apply next_port_range.
  - split; [by apply next_port_range|done].
Qed.

(** ** What a relayed connection carries *)



Section carries.
Context {T : Type} `{TcpApi T, !TcpLaws T}.























End carries.

(** ** Examples *)

Lemma allocate_spec_witness :
  ∃ port p', allocate (λ x, bool_decide (x ∈ [65535])) (mkLocalPorts 65535 [49152]) = Some (port, p') ∧
    EPHEMERAL_PORT_START ≤ port ≤ 65535 ∧ port ∉ [65535] ∧ port ∉ [49152] ∧
    recent p' = [49152] ∧ EPHEMERAL_PORT_START ≤ cursor p' ≤ 65535.
Proof.
  apply (allocate_spec [65535] (mkLocalPorts 65535 [49152])); vm_compute; [split; discriminate|reflexivity].
Defined.
Example allocate_wraps :
  allocate (λ x, bool_decide (x ∈ [65535])) (mkLocalPorts 65535 [49152]) = Some (49153, mkLocalPorts 49154 [49152]).
Proof. vm_compute. reflexivity. Qed.

(** A request of two bytes, an answer of one, and both ends close: the guest
    answers the connection request, and then its byte and its end arrive. *)
Definition demo_flow0 : InboundFlow := new_inbound_flow 1 3 49152 0.
Definition demo_socket0 : RefTcp := mkRefTcp TcpSynSent [] [] 16 false false.
Definition demo_socket2 : RefTcp := mkRefTcp TcpOpened [Byte.x70] [] 16 true false.
Definition on_io (f : HostIo → HostIo) (x : InboundFlow * RefTcp) : InboundFlow * RefTcp :=
  (set_io (f (if_io x.1)) x.1, x.2).
Definition pumped (x : InboundFlow * RefTcp) : InboundFlow * RefTcp :=
  let '(_, f, s) := pump 1 default_tuning (λ _, true) x.1 x.2 in (f, s).
Definition arrive (s : RefTcp) (x : InboundFlow * RefTcp) : InboundFlow * RefTcp := (x.1, s).
Definition demo_reads : list (HostIo → HostIo) :=
  [read_turn (ReadData [Byte.x61; Byte.x62]); read_turn ReadEof; read_turn ReadEof; read_turn ReadEof].
Definition demo_writes : list (HostIo → HostIo) := [write_turn Written false; write_turn Written false; write_turn Written false].
Definition demo_run (socket : RefTcp) : list (InboundFlow * RefTcp → InboundFlow * RefTcp) :=
  (on_io <$> demo_reads) ++ [arrive socket; pumped; pumped] ++ (on_io <$> demo_writes).
Definition demo_end : InboundFlow * RefTcp := foldl (λ x f, f x) (demo_flow0, demo_socket0) (demo_run demo_socket2).

Example demo_relayed :
  tcp_accepted demo_end.2 = [Byte.x61; Byte.x62] ∧ io_written (if_io demo_end.1) = [Byte.x70] ∧
  fin_to_guest demo_end.1 = true ∧ writer_done (if_io demo_end.1) = true.
Proof. vm_compute. done. Qed.

(** In a simultaneous open the client is told that the guest has ended before
    the guest has said anything, and what the guest then sends is not written. *)
Example simultaneous_open_ends_early :
  let received := foldl (λ x f, f x) (demo_flow0, demo_socket0)
    ([arrive (mkRefTcp TcpSynReceived [] [] 16 false false); pumped] ++ (on_io <$> demo_writes)) in
  let opened := foldl (λ x f, f x) received ([arrive demo_socket2; pumped] ++ (on_io <$> demo_writes)) in
  writer_done (if_io received.1) = true ∧ io_written (if_io received.1) = [] ∧
  io_written (if_io opened.1) = [] ∧ to_host (if_io opened.1) = [ToData [Byte.x70]].
Proof. vm_compute. done. Qed.

