(* ===== verification/NetStack.v ===== *)
(** * NetStack: the network of a sandbox

    Models [ward-net/src/smoltcp_backend.rs]: the guest's TCP
    flows, the DNS relay, the DHCP server, the host connections and datagrams
    relayed to the guest.  The packet stack is the interface of [Smoltcp]; the
    egress check is [Egress.check], as [backend/krunvm.rs] wires it in.

    The tasks the stack spawns are part of the state: a connection attempt and
    a name lookup each have a stage that steps of their own advance.  An
    operation is [None] where the code would panic: on a socket handle that
    names no socket, and on a local port that is never found. *)

From stdpp Require Import base list numbers option strings pretty gmap.
From Stdlib Require Import ZArith Lia Ascii.
From S2P Require Import Prelude Text Utf8 Net Protocol Output Egress Smoltcp Inbound.
Local Open Scope Z_scope.

#[export] Instance IpAddr_countable : Countable IpAddr.
Proof.
  apply (inj_countable' (λ ip, match ip with V4 a b c d => inl (a, b, c, d) | V6 l => inr l end)
    (λ x : Z * Z * Z * Z + list Z, match x with inl (a, b, c, d) => V4 a b c d | inr l => V6 l end)).
  by intros [].
Defined.

Definition MAX_FRAME_LEN : nat := 1514.
Definition MIN_ETHERNET_FRAME_LEN : nat := 14.
Definition DNS_SERVER_PORT : Z := 53.
Definition DHCP_CLIENT_PORT : Z := 68.
Definition DNS_ANSWER_TTL_SECS : Z := 60.
Definition DNS_RCODE_REFUSED : Z := 5.
Definition MAX_RESOLVED_ENTRIES : nat := 4096.
Definition MAX_PENDING_DNS_QUERIES : nat := 4096.
Definition MAX_FLOW_ENTRIES : nat := 1024.
Definition GATEWAY_ADDR : IpAddr := V4 10 0 2 2.
Definition DHCP_SUBNET_MASK : IpAddr := V4 255 255 255 0.
Definition DHCP_POOL_START : IpAddr := V4 10 0 2 15.
Definition DHCP_POOL_SIZE : nat := 32.
Definition DHCP_LEASE_DURATION_SECS : Z := 3600.
Definition CONNECT_TIMEOUT : Z := 10.
Definition HOST_WRITER_CHANNEL_CAPACITY : nat := 16.
Definition HOST_READER_CHANNEL_CAPACITY : nat := 16.

(** ** Destinations *)

Definition private_or_local_v4 (a b c d : Z) : bool :=
  is_private a b || (a =? 127) || ((a =? 169) && (b =? 254)) || ((224 <=? a) && (a <=? 239)) ||
  is_unspecified (V4 a b c d) || ((a =? 255) && (b =? 255) && (c =? 255) && (d =? 255)) ||
  (a =? 0) || ((a =? 100) && (Z.land b 0xC0 =? 0x40)) || ((a =? 192) && (b =? 0) && (c =? 0)) ||
  ((a =? 192) && (b =? 0) && (c =? 2)) || ((a =? 198) && (b =? 51) && (c =? 100)) ||
  ((a =? 203) && (b =? 0) && (c =? 113)) || ((a =? 198) && (Z.land b 0xFE =? 18)) || (240 <=? a).
Definition private_or_local (ip : IpAddr) : bool :=
  match ip with
  | V4 a b c d => private_or_local_v4 a b c d
  | V6 segs =>
      let seg (i : nat) := default 0 (segs !! i) in
      bool_decide (segs = [0; 0; 0; 0; 0; 0; 0; 1]) || is_unspecified (V6 segs) || (Z.land (seg 0%nat) 0xFF00 =? 0xFF00) ||
      (Z.land (seg 0%nat) 0xFFC0 =? 0xFE80) || (Z.land (seg 0%nat) 0xFE00 =? 0xFC00) || (seg 0%nat =? 0x2002) ||
      ((seg 0%nat =? 0x0064) && (seg 1%nat =? 0xFF9B)) || ((seg 0%nat =? 0x2001) && (seg 1%nat =? 0)) ||
      match to_ipv4_mapped segs with Some (a, b, c, d) => private_or_local_v4 a b c d | None => false end
  end.
Definition is_flow_destination_safe (dst : IpAddr) : bool := negb (private_or_local dst).

(** ** DNS messages *)

Definition label_text (b : bytes) : option string :=
  let l := ascii_of_byte <$> b in
  match from_utf8 l with None => Some (of_chars l) | Some _ => None end.

(** The loop over the labels; the fuel is the length of the name. *)
Fixpoint dns_labels (fuel : nat) (raw : bytes) : option (list string) :=
  match fuel, raw with
  | _, [] => Some []
  | O, _ => Some []
  | S fuel, len :: rest =>
      let n := N.to_nat (Byte.to_N len) in
      if (n =? 0)%nat then Some [] else
      if (length rest <? n)%nat then None else
      label ← label_text (take n rest); labels ← dns_labels fuel (drop n rest); Some (label :: labels)
  end.
Definition decode_dns_name (raw : bytes) : option string :=
  join "." <$> dns_labels (length raw) raw.

Record ParsedDnsQuery := mkParsedDnsQuery { q_transaction_id : Z; q_domain : string; q_question : bytes }.
Definition parse_dns_query `{Wire} (payload : bytes) : option ParsedDnsQuery :=
  '(id, body) ← dns_packet payload;
  '(name, len) ← dns_question body;
  domain ← decode_dns_name name;
  if (len <=? length body)%nat then Some (mkParsedDnsQuery id domain (take len body)) else None.

(** [u16::to_be_bytes] and [u32::to_be_bytes]. *)
Definition byte_at (n shift : Z) : Byte.byte := default Byte.x00 (Byte.of_N (Z.to_N (Z.land (Z.shiftr n shift) 255))).
Definition be16 (n : Z) : bytes := [byte_at n 8; byte_at n 0].
Definition be32 (n : Z) : bytes := [byte_at n 24; byte_at n 16; byte_at n 8; byte_at n 0].

(** A RESPONSE with recursion desired and available. *)
Definition DNS_RESPONSE_FLAGS : Z := 0x8180.
Definition NAME_POINTER_TO_QUESTION : bytes := [Byte.xc0; Byte.x0c].
Definition ipv4_only (l : list IpAddr) : list (Z * Z * Z * Z) :=
  omap (λ ip, match ip with V4 a b c d => Some (a, b, c, d) | V6 _ => None end) l.
Definition dns_answer (ip : Z * Z * Z * Z) : bytes :=
  let '(a, b, c, d) := ip in
  NAME_POINTER_TO_QUESTION ++ be16 1 ++ be16 1 ++ be32 DNS_ANSWER_TTL_SECS ++ be16 4 ++
  [byte_at a 0; byte_at b 0; byte_at c 0; byte_at d 0].
Definition build_dns_response (id : Z) (question : bytes) (answers : list IpAddr) (rcode : Z) : bytes :=
  let v4 := ipv4_only answers in
  be16 id ++ be16 (Z.lor DNS_RESPONSE_FLAGS rcode) ++ be16 1 ++ be16 (Z.of_nat (length v4) mod 65536) ++
  be16 0 ++ be16 0 ++ question ++ (v4 ≫= dns_answer).

(** ** State *)

(** The task of a connection attempt, and of a name lookup. *)
Inductive ConnectStage := ConnectChecking | Dialing | ConnectDone (connected : bool) | ConnectLost.
Record ConnectTask := mkConnectTask { ct_domain : string; ct_addr : Endpoint; ct_deadline : Z; ct_stage : ConnectStage }.
Inductive DnsStage := DnsChecking | DnsResolving | DnsAnswered (answers : option (list IpAddr)) | DnsLost.
Record DnsTask := mkDnsTask { dt_domain : string; dt_stage : DnsStage }.

(** The task of [spawn_host_io] with its two channels, the chunk it has taken
    and not written yet and the one it has read and not sent yet. *)
Record OutIo := mkOutIo {
  oi_to : list bytes; oi_writing : option bytes; oi_from : list bytes; oi_held : option bytes; oi_over : bool;
  oi_read : bytes; oi_written : bytes;
}.

Inductive FlowState :=
| Connecting (task : nat)
| Established (io : OutIo) (pending_from_host : option bytes) (host_closed : bool) (fin_sent_at : option Z).
Record Flow := mkFlow { fl_handle : nat; fl_state : FlowState }.
Abbreviation FlowKey := (Endpoint * Endpoint)%type.

Record PendingDnsQuery := mkPending {
  pq_transaction_id : Z; pq_question : bytes; pq_domain : string; pq_remote : Endpoint; pq_task : nat;
}.

(** A host connection accepted and not yet seen by the stack. *)
Record NewInbound := mkNewInbound { ni_listener : nat; ni_guest_port : Z }.

Section stack.
Context {T U : Type} `{TcpApi T} `{UdpApi U} `{SlotPick T U} `{Wire}.

Record Stack := mkStack {
  sockets : gmap nat (Socket T U);
  flows : gmap FlowKey Flow;
  sockets_pending_removal : list nat;
  dns_handle : nat;
  dhcp_handle : nat;
  pending_dns : list PendingDnsQuery;
  connect_tasks : gmap nat ConnectTask;
  dns_tasks : gmap nat DnsTask;
  next_task : nat;
  dhcp_leases : gmap Mac IpAddr;
  resolved : gmap IpAddr string;
  resolved_order : list IpAddr;
  inbound : list InboundFlow;
  udp_flows : list UdpFlow;
  inbound_ports : LocalPorts;
  inbound_active_at : option Z;
  guest_addr : option IpAddr;
}.

Definition set_sockets (m : gmap nat (Socket T U)) (s : Stack) : Stack :=
  mkStack m (flows s) (sockets_pending_removal s) (dns_handle s) (dhcp_handle s) (pending_dns s) (connect_tasks s)
    (dns_tasks s) (next_task s) (dhcp_leases s) (resolved s) (resolved_order s) (inbound s) (udp_flows s)
    (inbound_ports s) (inbound_active_at s) (guest_addr s).
Definition set_flows (m : gmap FlowKey Flow) (s : Stack) : Stack :=
  mkStack (sockets s) m (sockets_pending_removal s) (dns_handle s) (dhcp_handle s) (pending_dns s) (connect_tasks s)
    (dns_tasks s) (next_task s) (dhcp_leases s) (resolved s) (resolved_order s) (inbound s) (udp_flows s)
    (inbound_ports s) (inbound_active_at s) (guest_addr s).
Definition set_removal (l : list nat) (s : Stack) : Stack :=
  mkStack (sockets s) (flows s) l (dns_handle s) (dhcp_handle s) (pending_dns s) (connect_tasks s)
    (dns_tasks s) (next_task s) (dhcp_leases s) (resolved s) (resolved_order s) (inbound s) (udp_flows s)
    (inbound_ports s) (inbound_active_at s) (guest_addr s).
Definition set_pending_dns (l : list PendingDnsQuery) (s : Stack) : Stack :=
  mkStack (sockets s) (flows s) (sockets_pending_removal s) (dns_handle s) (dhcp_handle s) l (connect_tasks s)
    (dns_tasks s) (next_task s) (dhcp_leases s) (resolved s) (resolved_order s) (inbound s) (udp_flows s)
    (inbound_ports s) (inbound_active_at s) (guest_addr s).
Definition set_connect_tasks (m : gmap nat ConnectTask) (s : Stack) : Stack :=
  mkStack (sockets s) (flows s) (sockets_pending_removal s) (dns_handle s) (dhcp_handle s) (pending_dns s) m
    (dns_tasks s) (next_task s) (dhcp_leases s) (resolved s) (resolved_order s) (inbound s) (udp_flows s)
    (inbound_ports s) (inbound_active_at s) (guest_addr s).
Definition set_dns_tasks (m : gmap nat DnsTask) (s : Stack) : Stack :=
  mkStack (sockets s) (flows s) (sockets_pending_removal s) (dns_handle s) (dhcp_handle s) (pending_dns s) (connect_tasks s)
    m (next_task s) (dhcp_leases s) (resolved s) (resolved_order s) (inbound s) (udp_flows s)
    (inbound_ports s) (inbound_active_at s) (guest_addr s).
Definition bump_task (s : Stack) : Stack :=
  mkStack (sockets s) (flows s) (sockets_pending_removal s) (dns_handle s) (dhcp_handle s) (pending_dns s) (connect_tasks s)
    (dns_tasks s) (S (next_task s)) (dhcp_leases s) (resolved s) (resolved_order s) (inbound s) (udp_flows s)
    (inbound_ports s) (inbound_active_at s) (guest_addr s).
Definition set_leases (m : gmap Mac IpAddr) (g : option IpAddr) (s : Stack) : Stack :=
  mkStack (sockets s) (flows s) (sockets_pending_removal s) (dns_handle s) (dhcp_handle s) (pending_dns s) (connect_tasks s)
    (dns_tasks s) (next_task s) m (resolved s) (resolved_order s) (inbound s) (udp_flows s)
    (inbound_ports s) (inbound_active_at s) g.
Definition set_resolved (m : gmap IpAddr string) (l : list IpAddr) (s : Stack) : Stack :=
  mkStack (sockets s) (flows s) (sockets_pending_removal s) (dns_handle s) (dhcp_handle s) (pending_dns s) (connect_tasks s)
    (dns_tasks s) (next_task s) (dhcp_leases s) m l (inbound s) (udp_flows s)
    (inbound_ports s) (inbound_active_at s) (guest_addr s).
Definition set_inbound (l : list InboundFlow) (p : LocalPorts) (s : Stack) : Stack :=
  mkStack (sockets s) (flows s) (sockets_pending_removal s) (dns_handle s) (dhcp_handle s) (pending_dns s) (connect_tasks s)
    (dns_tasks s) (next_task s) (dhcp_leases s) (resolved s) (resolved_order s) l (udp_flows s)
    p (inbound_active_at s) (guest_addr s).
Definition set_udp_flows (l : list UdpFlow) (p : LocalPorts) (s : Stack) : Stack :=
  mkStack (sockets s) (flows s) (sockets_pending_removal s) (dns_handle s) (dhcp_handle s) (pending_dns s) (connect_tasks s)
    (dns_tasks s) (next_task s) (dhcp_leases s) (resolved s) (resolved_order s) (inbound s) l
    p (inbound_active_at s) (guest_addr s).
Definition set_active (now : Z) (s : Stack) : Stack :=
  mkStack (sockets s) (flows s) (sockets_pending_removal s) (dns_handle s) (dhcp_handle s) (pending_dns s) (connect_tasks s)
    (dns_tasks s) (next_task s) (dhcp_leases s) (resolved s) (resolved_order s) (inbound s) (udp_flows s)
    (inbound_ports s) (Some now) (guest_addr s).

(** [Stack::new]: the DNS and the DHCP socket; [None] when a bind fails. *)
Definition stack_new (hash : Z) : option Stack :=
  u ← udp_bind DNS_SERVER_PORT udp_new;
  let '(dns, m) := set_add (SUdp u) ∅ in
  v ← udp_bind 67 udp_new;
  let '(dhcp, m) := set_add (SUdp v) m in
  Some (mkStack m ∅ [] dns dhcp [] ∅ ∅ 0 ∅ ∅ [] [] [] (new_ports hash) None None).

(** [spawn_for_sandbox]: the guest configures the first address of the pool
    itself, so the stack need not wait for a lease. *)
Definition spawn_for_sandbox (s : Stack) : Stack :=
  set_leases (dhcp_leases s) (Some (default DHCP_POOL_START (guest_addr s))) s.

(** ** Guest TCP flows *)

Definition peek_guest_syn (frame : bytes) : option FlowKey :=
  let n := length frame in
  if (n <? MIN_ETHERNET_FRAME_LEN)%nat || (MAX_FRAME_LEN <? n)%nat then None else
  '(is_ipv4, packet) ← eth_frame frame;
  if negb is_ipv4 then None else
  '(is_tcp, segment) ← ipv4_packet packet;
  if negb is_tcp then None else
  '(src, dst) ← ipv4_addresses packet;
  if negb (tcp_header_ok segment) then None else
  '(control, ack, src_port, dst_port) ← tcp_segment segment src dst;
  if negb (bool_decide (control = CtlSyn)) || bool_decide (is_Some ack) then None else
  Some ((src, src_port), (dst, dst_port)).

Definition flow_table_is_full (s : Stack) : bool := (MAX_FLOW_ENTRIES <=? size (flows s))%nat.
Definition resolved_domain_for (ip : IpAddr) (s : Stack) : option string := resolved s !! ip.

(** [frame] is the datagram the device has queued next. *)
Definition poll_flows (frame : bytes) (now : Z) (s : Stack) : Stack :=
  match peek_guest_syn frame with
  | None => s
  | Some (src, dst) =>
      if bool_decide (is_Some (flows s !! (src, dst))) then s else
      if flow_table_is_full s then s else
      if negb (is_flow_destination_safe dst.1) then s else
      let domain := default (ip_display dst.1) (resolved_domain_for dst.1 s) in
      match tcp_listen dst tcp_new with
      | None => s
      | Some t =>
          let '(handle, m) := set_add (STcp t) (sockets s) in
          let task := next_task s in
          bump_task (set_connect_tasks
            (<[task := mkConnectTask domain dst (now + CONNECT_TIMEOUT) ConnectChecking]> (connect_tasks s))
            (set_flows (<[(src, dst) := mkFlow handle (Connecting task)]> (flows s)) (set_sockets m s)))
      end
  end.

(** The host task of an established flow; its loops end together. *)
Definition out_io_new : OutIo := mkOutIo [] None [] None false [] [].
Definition out_write_turn (r : HostWrite) (closed : bool) (io : OutIo) : OutIo :=
  if oi_over io then io else
  let '(mkOutIo to w from h _ rb wb) := io in
  match w, to with
  | Some b, _ =>
      match r with
      | Written => mkOutIo to None from h false rb (wb ++ b)
      | WriteFailed n => mkOutIo to None from h true rb (wb ++ take n b)
      end
  | None, b :: to => mkOutIo to (Some b) from h false rb wb
  | None, [] => if closed then mkOutIo [] None from h true rb wb else io
  end.
Definition out_read_turn (r : HostRead) (io : OutIo) : OutIo :=
  if oi_over io then io else
  let '(mkOutIo to w from h _ rb wb) := io in
  match h with
  | Some b =>
      if (HOST_READER_CHANNEL_CAPACITY <=? length from)%nat then io
      else mkOutIo to w (from ++ [b]) None false rb wb
  | None =>
      match r with
      | ReadData b => mkOutIo to w from (Some b) false (rb ++ b) wb
      | ReadEof | ReadError => mkOutIo to w from None true rb wb
      end
  end.

(** The parts of [pump_flows] for an established flow: guest to host, taking a
    chunk, handing it on, closing.  The last parts also tell how often the
    flow was put on the list of flows to remove. *)
Definition out_guest_to_host (io : OutIo) (t : T) : OutIo * T :=
  if negb (oi_over io) && (length (oi_to io) <? HOST_WRITER_CHANNEL_CAPACITY)%nat && tcp_can_recv t then
    match tcp_recv t with
    | Some (chunk, t) =>
        (if bool_decide (chunk = []) then io
         else mkOutIo (oi_to io ++ [chunk]) (oi_writing io) (oi_from io) (oi_held io) (oi_over io) (oi_read io) (oi_written io), t)
    | None => (io, t)
    end
  else (io, t).
Definition out_take_chunk (io : OutIo) (pending : option bytes) (host_closed : bool) : OutIo * option bytes * bool :=
  match pending, host_closed with
  | None, false =>
      match oi_from io with
      | chunk :: q =>
          (mkOutIo (oi_to io) (oi_writing io) q (oi_held io) (oi_over io) (oi_read io) (oi_written io), Some chunk, false)
      | [] => (io, None, oi_over io)
      end
  | _, _ => (io, pending, host_closed)
  end.
Definition out_hand_on (pending : option bytes) (t : T) : option bytes * T * nat :=
  match pending with
  | Some chunk =>
      if tcp_can_send t then
        match tcp_send chunk t with
        | Some (sent, t) => (if (sent =? length chunk)%nat then None else Some (drop sent chunk), t, 0%nat)
        | None => (pending, t, 1%nat)
        end
      else (pending, t, 0%nat)
  | None => (None, t, 0%nat)
  end.
Definition out_close (now half_close : Z) (pending : option bytes) (host_closed : bool) (fin_sent_at : option Z) (t : T)
    : T * option Z * nat :=
  match pending with
  | None =>
      if host_closed then
        let '(t, fin_sent_at) :=
          if tcp_is_open t then (tcp_close t, Some (default now fin_sent_at)) else (t, fin_sent_at) in
        let timed_out := match fin_sent_at with Some sent => half_close <=? now - sent | None => false end in
        (t, fin_sent_at, if negb (tcp_is_active t) || timed_out then 1%nat else 0%nat)
      else (t, fin_sent_at, 0%nat)
  | Some _ => (t, fin_sent_at, 0%nat)
  end.
Definition pump_established (now half_close : Z) (io : OutIo) (pending : option bytes) (host_closed : bool)
    (fin_sent_at : option Z) (t : T) : FlowState * T * nat :=
  let '(io, t) := out_guest_to_host io t in
  let '(io, pending, host_closed) := out_take_chunk io pending host_closed in
  let '(pending, t, failed) := out_hand_on pending t in
  let '(t, fin_sent_at, ended) := out_close now half_close pending host_closed fin_sent_at t in
  let reset := if decide (tcp_state t = TcpClosed) then 1%nat else 0%nat in
  (Established io pending host_closed fin_sent_at, t, (failed + ended + reset)%nat).

(** One flow of the loop: the flow afterwards, the sockets, the tasks and how
    often it was marked for removal. *)
Definition pump_flow (now half_close : Z) (f : Flow) (m : gmap nat (Socket T U)) (tasks : gmap nat ConnectTask)
    : option (Flow * gmap nat (Socket T U) * gmap nat ConnectTask * nat) :=
  match fl_state f with
  | Connecting task =>
      match ct_stage <$> tasks !! task with
      | Some (ConnectDone true) => Some (mkFlow (fl_handle f) (Established out_io_new None false None), m, delete task tasks, 0%nat)
      | Some (ConnectDone false) => Some (f, m, delete task tasks, 1%nat)
      | Some ConnectLost | None => Some (f, m, tasks, 1%nat)
      | Some (ConnectChecking | Dialing) => Some (f, m, tasks, 0%nat)
      end
  | Established io pending host_closed fin_sent_at =>
      t ← get_tcp (fl_handle f) m;
      let '(st, t, marks) := pump_established now half_close io pending host_closed fin_sent_at t in
      Some (mkFlow (fl_handle f) st, <[fl_handle f := STcp t]> m, tasks, marks)
  end.

(** The order in which the flows are walked. *)
Context (walk : gmap FlowKey Flow → list (FlowKey * Flow)).

Fixpoint pump_loop (now half_close : Z) (l : list (FlowKey * Flow)) (s : Stack) (to_remove : list (FlowKey * nat))
    : option (Stack * list (FlowKey * nat)) :=
  match l with
  | [] => Some (s, to_remove)
  | (key, f) :: l =>
      '(f', m, tasks, marks) ← pump_flow now half_close f (sockets s) (connect_tasks s);
      pump_loop now half_close l
        (set_connect_tasks tasks (set_sockets m (set_flows (<[key := f']> (flows s)) s)))
        (to_remove ++ replicate marks (key, fl_handle f))
  end.
(** The flows marked for removal, once each. *)
Fixpoint remove_loop (l : list (FlowKey * nat)) (removed : list FlowKey) (s : Stack) : option Stack :=
  match l with
  | [] => Some s
  | (key, handle) :: l =>
      if decide (key ∈ removed) then remove_loop l removed s else
      t ← get_tcp handle (sockets s);
      remove_loop l (key :: removed)
        (set_flows (delete key (flows s))
          (set_removal (sockets_pending_removal s ++ [handle])
            (set_sockets (<[handle := STcp (tcp_abort t)]> (sockets s)) s)))
  end.
Fixpoint free_sockets (l : list nat) (m : gmap nat (Socket T U)) : option (gmap nat (Socket T U)) :=
  match l with [] => Some m | h :: l => m ← set_remove h m; free_sockets l m end.
Definition pump_flows (now half_close : Z) (s : Stack) : option Stack :=
  m ← free_sockets (sockets_pending_removal s) (sockets s);
  '(s, to_remove) ← pump_loop now half_close (walk (flows s)) (set_removal [] (set_sockets m s)) [];
  remove_loop to_remove [] s.

(** ** DNS *)

Definition record_resolved (ip : IpAddr) (domain : string) (s : Stack) : Stack :=
  let s :=
    match resolved s !! ip with
    | Some _ => s
    | None =>
        let s :=
          if (MAX_RESOLVED_ENTRIES <=? length (resolved_order s))%nat then
            match resolved_order s with
            | oldest :: order => set_resolved (delete oldest (resolved s)) order s
            | [] => s
            end
          else s in
        set_resolved (resolved s) (resolved_order s ++ [ip]) s
    end in
  set_resolved (<[ip := domain]> (resolved s)) (resolved_order s) s.

Definition push_pending_dns_query (q : PendingDnsQuery) (s : Stack) : Stack :=
  let l := if (MAX_PENDING_DNS_QUERIES <=? length (pending_dns s))%nat then tail (pending_dns s) else pending_dns s in
  set_pending_dns (l ++ [q]) s.

(** The fuel is the number of queued datagrams. *)
Fixpoint relay_loop_dns (fuel : nat) (s : Stack) : option Stack :=
  match fuel with
  | O => Some s
  | S fuel =>
      u ← get_udp (dns_handle s) (sockets s);
      match udp_recv u with
      | None => Some s
      | Some (payload, remote, u) =>
          let s := set_sockets (<[dns_handle s := SUdp u]> (sockets s)) s in
          match parse_dns_query payload with
          | None => relay_loop_dns fuel s
          | Some q =>
              let task := next_task s in
              let s := bump_task (set_dns_tasks (<[task := mkDnsTask (q_domain q) DnsChecking]> (dns_tasks s)) s) in
              relay_loop_dns fuel
                (push_pending_dns_query (mkPending (q_transaction_id q) (q_question q) (q_domain q) remote task) s)
          end
      end
  end.
Definition relay_dns_queries (s : Stack) : option Stack :=
  u ← get_udp (dns_handle s) (sockets s); relay_loop_dns (length (udp_queue u)) s.

Fixpoint deliver_loop (l still : list PendingDnsQuery) (s : Stack) : option Stack :=
  match l with
  | [] => Some (set_pending_dns still s)
  | q :: l =>
      match dt_stage <$> dns_tasks s !! pq_task q with
      | Some (DnsAnswered answers) =>
          let rcode := match answers with Some _ => 0 | None => DNS_RCODE_REFUSED end in
          let answers := default [] answers in
          let response := build_dns_response (pq_transaction_id q) (pq_question q) answers rcode in
          let s := set_dns_tasks (delete (pq_task q) (dns_tasks s)) s in
          let s := foldl (λ s ip, match ip with V4 _ _ _ _ => record_resolved ip (pq_domain q) s | V6 _ => s end) s answers in
          u ← get_udp (dns_handle s) (sockets s);
          let s := match udp_send response (pq_remote q) u with
                   | Some u => set_sockets (<[dns_handle s := SUdp u]> (sockets s)) s
                   | None => s
                   end in
          deliver_loop l still s
      | Some (DnsChecking | DnsResolving) => deliver_loop l (still ++ [q]) s
      | Some DnsLost | None => deliver_loop l still s
      end
  end.
Definition deliver_dns_answers (s : Stack) : option Stack := deliver_loop (pending_dns s) [] (set_pending_dns [] s).

(** ** DHCP *)

Definition lease_for (mac : Mac) (s : Stack) : option IpAddr * Stack :=
  match dhcp_leases s !! mac with
  | Some ip => (Some ip, s)
  | None =>
      let offset := size (dhcp_leases s) in
      if (DHCP_POOL_SIZE <=? offset)%nat then (None, s) else
      let ip := match DHCP_POOL_START with V4 a b c d => V4 a b c ((d + Z.of_nat offset) mod 256) | V6 l => V6 l end in
      (Some ip, set_leases (<[mac := ip]> (dhcp_leases s)) (Some (default ip (guest_addr s))) s)
  end.

Definition dhcp_reply (discover : DhcpRepr) (your_ip : IpAddr) (kind : DhcpMessageType) : DhcpRepr :=
  mkDhcpRepr kind (d_transaction_id discover) 0 (d_client_hardware_address discover) (V4 0 0 0 0) your_ip
    GATEWAY_ADDR (Some GATEWAY_ADDR) (Some DHCP_SUBNET_MASK) (V4 0 0 0 0) (d_broadcast discover) None
    (d_client_identifier discover) (Some GATEWAY_ADDR) None (Some [GATEWAY_ADDR]) None
    (Some DHCP_LEASE_DURATION_SECS) None None.
Definition build_dhcp_reply (discover : DhcpRepr) (your_ip : IpAddr) (kind : DhcpMessageType) : bytes :=
  dhcp_emit (dhcp_reply discover your_ip kind).

(** What is answered to one datagram. *)
Definition answer_dhcp (payload : bytes) (s : Stack) : option bytes * Stack :=
  if negb (dhcp_packet_ok payload) then (None, s) else
  match dhcp_parse payload with
  | None => (None, s)
  | Some d =>
      let lease kind :=
        match lease_for (d_client_hardware_address d) s with
        | (None, s) => (None, s)
        | (Some ip, s) => (Some (build_dhcp_reply d ip kind), s)
        end in
      match d_message_type d with
      | DhcpDiscover => lease DhcpOffer
      | DhcpRequest => lease DhcpAck
      | _ => (None, s)
      end
  end.
Fixpoint dhcp_loop (fuel : nat) (s : Stack) : option Stack :=
  match fuel with
  | O => Some s
  | S fuel =>
      u ← get_udp (dhcp_handle s) (sockets s);
      match udp_recv u with
      | None => Some s
      | Some (payload, _, u) =>
          let s := set_sockets (<[dhcp_handle s := SUdp u]> (sockets s)) s in
          match answer_dhcp payload s with
          | (None, s) => dhcp_loop fuel s
          | (Some reply, s) =>
              u ← get_udp (dhcp_handle s) (sockets s);
              dhcp_loop fuel
                match udp_send reply (V4 255 255 255 255, DHCP_CLIENT_PORT) u with
                | Some u => set_sockets (<[dhcp_handle s := SUdp u]> (sockets s)) s
                | None => s
                end
          end
      end
  end.
Definition serve_dhcp (s : Stack) : option Stack :=
  u ← get_udp (dhcp_handle s) (sockets s); dhcp_loop (length (udp_queue u)) s.

(** ** Host connections and datagrams *)

(** The flag tells that the host's client was reset. *)
Definition accept_inbound (new : NewInbound) (now : Z) (s : Stack) : option (bool * Stack) :=
  match guest_addr s with
  | None => Some (true, s)
  | Some guest =>
      '(port, ports) ← allocate (λ p, bool_decide (p ∈ if_local_port <$> inbound s)) (inbound_ports s);
      match tcp_connect (guest, ni_guest_port new) (GATEWAY_ADDR, port) tcp_new with
      | None => Some (true, set_inbound (inbound s) (retire port ports) s)
      | Some t =>
          let '(handle, m) := set_add (STcp t) (sockets s) in
          let f := new_inbound_flow (ni_listener new) handle port now in
          Some (false, set_active now (set_inbound (inbound s ++ [f]) ports (set_sockets m s)))
      end
  end.

(** Hands the payload to the socket of the flow at [index]. *)
Definition deliver_udp (index : nat) (guest : IpAddr) (payload : bytes) (now : Z) (s : Stack) : option Stack :=
  f ← udp_flows s !! index;
  u ← get_udp (uf_handle f) (sockets s);
  let '(_, f, u) := send_to_guest now guest payload f u in
  Some (set_active now (set_udp_flows (<[index := f]> (udp_flows s)) (inbound_ports s)
    (set_sockets (<[uf_handle f := SUdp u]> (sockets s)) s))).
Definition accept_udp (d : NewDatagram) (now : Z) (s : Stack) : option Stack :=
  match guest_addr s with
  | None => Some s
  | Some guest =>
      if MAX_UDP_PAYLOAD_BYTES <? Z.of_nat (length (dg_payload d)) then Some s else
      match list_find (λ f, serves f d = true) (udp_flows s) with
      | Some (index, _) => deliver_udp index guest (dg_payload d) now s
      | None =>
          if (MAX_UDP_FLOWS <=? length (udp_flows s))%nat then Some s else
          if (MAX_UDP_FLOWS_PER_HOST <=? length (filter (λ f, (uf_peer f).1 = (dg_peer d).1) (udp_flows s)))%nat
          then Some s else
          '(port, ports) ← allocate (λ p, bool_decide (p ∈ uf_local_port <$> udp_flows s)) (inbound_ports s);
          match udp_bind port udp_new with
          | None => Some (set_udp_flows (udp_flows s) (retire port ports) s)
          | Some u =>
              let '(handle, m) := set_add (SUdp u) (sockets s) in
              let s := set_udp_flows (udp_flows s ++ [new_udp_flow handle port d now]) ports (set_sockets m s) in
              deliver_udp (length (udp_flows s) - 1) guest (dg_payload d) now s
          end
      end
  end.

Fixpoint pump_inbound_loop (now : Z) (tuning : InboundTuning) (alive : nat → bool) (l kept : list InboundFlow)
    (any : bool) (s : Stack) : option (bool * Stack) :=
  match l with
  | [] => Some (any, set_inbound kept (inbound_ports s) s)
  | f :: l =>
      t ← get_tcp (if_handle f) (sockets s);
      let '(down, f, t) := pump now tuning alive f t in
      let '(was_moved, f) := take_moved f in
      if down : bool then
        pump_inbound_loop now tuning alive l kept (any || was_moved)
          (set_inbound (inbound s) (retire (if_local_port f) (inbound_ports s))
            (set_removal (sockets_pending_removal s ++ [if_handle f])
              (set_sockets (<[if_handle f := STcp (tcp_abort t)]> (sockets s)) s)))
      else
        pump_inbound_loop now tuning alive l (kept ++ [f]) (any || was_moved)
          (set_sockets (<[if_handle f := STcp t]> (sockets s)) s)
  end.
Definition pump_inbound (now : Z) (tuning : InboundTuning) (alive : nat → bool) (s : Stack) : option Stack :=
  '(any, s) ← pump_inbound_loop now tuning alive (inbound s) [] false s;
  Some (if any : bool then set_active now s else s).

Fixpoint pump_udp_loop (now : Z) (alive : nat → bool) (l kept : list UdpFlow) (any : bool) (s : Stack)
    : option (bool * Stack) :=
  match l with
  | [] => Some (any, set_udp_flows kept (inbound_ports s) s)
  | f :: l =>
      u ← get_udp (uf_handle f) (sockets s);
      let any := any || udp_can_recv u in
      let '(down, f, u, _) := udp_pump now alive f u in
      if down : bool then
        m ← set_remove (uf_handle f) (<[uf_handle f := SUdp u]> (sockets s));
        pump_udp_loop now alive l kept any
          (set_udp_flows (udp_flows s) (retire (uf_local_port f) (inbound_ports s)) (set_sockets m s))
      else pump_udp_loop now alive l (kept ++ [f]) any (set_sockets (<[uf_handle f := SUdp u]> (sockets s)) s)
  end.
Definition pump_udp_flows (now : Z) (alive : nat → bool) (s : Stack) : option Stack :=
  '(any, s) ← pump_udp_loop now alive (udp_flows s) [] false s;
  Some (if any : bool then set_active now s else s).

(** The part of [poll] after the packets. *)
Definition poll_tail (now half_close : Z) (tuning : InboundTuning) (alive : nat → bool) (s : Stack) : option Stack :=
  s ← pump_flows now half_close s;
  s ← pump_inbound now tuning alive s;
  s ← pump_udp_flows now alive s;
  s ← relay_dns_queries s;
  s ← deliver_dns_answers s;
  serve_dhcp s.

(** ** The network task and the tasks it spawned *)

(** What leaves the host, with the decision of the egress policy [p]. *)
Inductive NetEvent :=
| Checked (name : string) (port : Z) (p : EgressPolicy) (allowed : bool)
| Resolved (name : string) (addrs : list IpAddr)
| Dialed (addr : Endpoint).

Record NetWorld := mkNetWorld {
  w_stack : Stack; w_proxy : EgressProxy; w_log : list NetEvent; w_in_flight : list NewInbound;
}.

Context (values : gmap string BlockedDestination → list BlockedDestination).

(** The connection attempt: the egress check, then the dial. *)
Definition connect_check (task : nat) (now : Z) (w : NetWorld) : NetWorld :=
  let s := w_stack w in
  match connect_tasks s !! task with
  | Some (mkConnectTask domain addr deadline ConnectChecking) =>
      let '(ok, px) := check values domain addr.2 now (w_proxy w) in
      let next := if ok then Dialing else ConnectDone false in
      mkNetWorld (set_connect_tasks (<[task := mkConnectTask domain addr deadline next]> (connect_tasks s)) s) px
        (w_log w ++ Checked domain addr.2 (policy (w_proxy w)) ok :: if ok then [Dialed addr] else []) (w_in_flight w)
  | _ => w
  end.
(** The dial ended, by a connection, an error or the deadline. *)
Definition connect_done (task : nat) (connected : bool) (w : NetWorld) : NetWorld :=
  let s := w_stack w in
  match connect_tasks s !! task with
  | Some (mkConnectTask domain addr deadline Dialing) =>
      mkNetWorld (set_connect_tasks (<[task := mkConnectTask domain addr deadline (ConnectDone connected)]> (connect_tasks s)) s)
        (w_proxy w) (w_log w) (w_in_flight w)
  | _ => w
  end.
(** The lookup: the egress check, then the resolver. *)
Definition dns_check (task : nat) (now : Z) (w : NetWorld) : NetWorld :=
  let s := w_stack w in
  match dns_tasks s !! task with
  | Some (mkDnsTask domain DnsChecking) =>
      let '(ok, px) := check values domain DNS_SERVER_PORT now (w_proxy w) in
      let next := if ok then DnsResolving else DnsAnswered None in
      mkNetWorld (set_dns_tasks (<[task := mkDnsTask domain next]> (dns_tasks s)) s) px
        (w_log w ++ [Checked domain DNS_SERVER_PORT (policy (w_proxy w)) ok]) (w_in_flight w)
  | _ => w
  end.
Definition dns_resolved (task : nat) (addrs : list IpAddr) (w : NetWorld) : NetWorld :=
  let s := w_stack w in
  match dns_tasks s !! task with
  | Some (mkDnsTask domain DnsResolving) =>
      mkNetWorld (set_dns_tasks (<[task := mkDnsTask domain (DnsAnswered (Some addrs))]> (dns_tasks s)) s) (w_proxy w)
        (w_log w ++ [Resolved domain addrs]) (w_in_flight w)
  | _ => w
  end.
(** A task that ended without an answer. *)
Definition task_lost (task : nat) (w : NetWorld) : NetWorld :=
  let s := w_stack w in
  let s := match connect_tasks s !! task with
           | Some t => set_connect_tasks (<[task := mkConnectTask (ct_domain t) (ct_addr t) (ct_deadline t) ConnectLost]> (connect_tasks s)) s
           | None => s
           end in
  let s := match dns_tasks s !! task with
           | Some t => set_dns_tasks (<[task := mkDnsTask (dt_domain t) DnsLost]> (dns_tasks s)) s
           | None => s
           end in
  mkNetWorld s (w_proxy w) (w_log w) (w_in_flight w).

(** The permits a connection holds are given back when it is dropped, so what
    is held is what exists. *)
Definition inbound_in_use (w : NetWorld) : nat := (length (w_in_flight w) + length (inbound (w_stack w)))%nat.
Definition listener_in_use (l : nat) (w : NetWorld) : nat :=
  (length (filter (λ n, ni_listener n = l) (w_in_flight w)) +
   length (filter (λ f, if_listener f = l) (inbound (w_stack w))))%nat.
(** The accept loop of [start_listener]. *)
Definition accept_host (l : nat) (guest_port : Z) (w : NetWorld) : NetWorld :=
  if (listener_in_use l w <? MAX_INBOUND_PER_LISTENER)%nat && (inbound_in_use w <? MAX_INBOUND_TOTAL)%nat
  then mkNetWorld (w_stack w) (w_proxy w) (w_log w) (w_in_flight w ++ [mkNewInbound l guest_port]) else w.

Definition upd_stack (s : Stack) (w : NetWorld) : NetWorld := mkNetWorld s (w_proxy w) (w_log w) (w_in_flight w).

(** A turn of a host task of a guest flow, or of a relayed connection. *)
Definition flow_io (key : FlowKey) (turn : OutIo → OutIo) (s : Stack) : Stack :=
  match flows s !! key with
  | Some (mkFlow h (Established io pending closed fin)) =>
      set_flows (<[key := mkFlow h (Established (turn io) pending closed fin)]> (flows s)) s
  | _ => s
  end.
Definition inbound_io (index : nat) (turn : HostIo → HostIo) (s : Stack) : Stack :=
  set_inbound (alter (λ f, set_io (turn (if_io f)) f) index (inbound s)) (inbound_ports s) s.

Inductive NetOp :=
| OpFrame (frame : bytes) (now : Z)
| OpWire (m : gmap nat (Socket T U))
| OpTail (now half_close : Z) (tuning : InboundTuning) (alive : nat → bool)
| OpConnectCheck (task : nat) (now : Z)
| OpConnectDone (task : nat) (connected : bool)
| OpDnsCheck (task : nat) (now : Z)
| OpDnsResolved (task : nat) (addrs : list IpAddr)
| OpTaskLost (task : nat)
| OpFlowWrite (key : FlowKey) (r : HostWrite)
| OpFlowRead (key : FlowKey) (r : HostRead)
| OpInboundWrite (index : nat) (r : HostWrite)
| OpInboundRead (index : nat) (r : HostRead)
| OpAccept (listener : nat) (guest_port : Z)
| OpInbound (now : Z)
| OpUdp (d : NewDatagram) (now : Z)
| OpPolicy (p : EgressPolicy).

Definition run_op (op : NetOp) (w : NetWorld) : option NetWorld :=
  let s := w_stack w in
  match op with
  | OpFrame frame now => Some (upd_stack (poll_flows frame now s) w)
  | OpWire m => Some (upd_stack (set_sockets m s) w)
  | OpTail now half_close tuning alive => (λ s, upd_stack s w) <$> poll_tail now half_close tuning alive s
  | OpConnectCheck task now => Some (connect_check task now w)
  | OpConnectDone task connected => Some (connect_done task connected w)
  | OpDnsCheck task now => Some (dns_check task now w)
  | OpDnsResolved task addrs => Some (dns_resolved task addrs w)
  | OpTaskLost task => Some (task_lost task w)
  | OpFlowWrite key r => Some (upd_stack (flow_io key (out_write_turn r false) s) w)
  | OpFlowRead key r => Some (upd_stack (flow_io key (out_read_turn r) s) w)
  | OpInboundWrite index r => Some (upd_stack (inbound_io index (write_turn r false) s) w)
  | OpInboundRead index r => Some (upd_stack (inbound_io index (read_turn r) s) w)
  | OpAccept l port => Some (accept_host l port w)
  | OpInbound now =>
      match w_in_flight w with
      | [] => Some w
      | new :: rest =>
          '(_, s) ← accept_inbound new now s; Some (mkNetWorld s (w_proxy w) (w_log w) rest)
      end
  | OpUdp d now => (λ s, upd_stack s w) <$> accept_udp d now s
  | OpPolicy p => Some (mkNetWorld s (set_policy p (w_proxy w)) (w_log w) (w_in_flight w))
  end.

(** Packet processing changes the sockets and neither adds nor removes one. *)
Definition kind (m : gmap nat (Socket T U)) (h : nat) : option bool :=
  (λ s, match s with STcp _ => true | SUdp _ => false end) <$> m !! h.
Definition legal (op : NetOp) (w : NetWorld) : Prop :=
  match op with OpWire m => ∀ h, kind m h = kind (sockets (w_stack w)) h | _ => True end.
Definition net_step (w w' : NetWorld) : Prop := ∃ op, legal op w ∧ run_op op w = Some w'.
(** A network starts with an empty log.  [spawn_for_sandbox] presets the
    guest's address, [spawn_for_sandbox_with_tuning] alone waits for a lease. *)
Definition net_start (w : NetWorld) : Prop :=
  w_log w = [] ∧ w_in_flight w = [] ∧
  ∃ hash s, stack_new hash = Some s ∧ (w_stack w = s ∨ w_stack w = spawn_for_sandbox s).
End stack.
Arguments Stack : clear implicits.
Arguments NetWorld : clear implicits.
Arguments NetOp : clear implicits.
