(* ===== verification/NetGuard.v ===== *)
(** * NetGuard: what the network of a sandbox guarantees

    Theorems about the step relation of [NetStack], in which guest frames,
    packet processing, spawned tasks, host connections and policy changes
    interleave in any order: the network task never panics, its tables keep to
    their bounds, and what leaves the host was allowed. *)

From stdpp Require Import base list numbers option strings pretty gmap.
From Stdlib Require Import ZArith Lia Ascii.
From S2P Require Import Prelude Text Utf8 Net Protocol Output Egress Smoltcp Inbound NetStack.
Local Open Scope Z_scope.

(** ** Kinds of sockets and handles of flows *)

Section kinds.
Context {T U : Type}.
Implicit Types (m : gmap nat (Socket T U)) (h : nat).

Lemma kind_tcp m h : kind m h = Some true ↔ ∃ t, get_tcp h m = Some t.
Proof. unfold kind, get_tcp. destruct (m !! h) as [[]|]; naive_solver. Qed.
Lemma kind_udp m h : kind m h = Some false ↔ ∃ u, get_udp h m = Some u.
Proof. unfold kind, get_udp. destruct (m !! h) as [[]|]; naive_solver. Qed.
Lemma kind_insert m h s h' :
  kind (<[h := s]> m) h' = if decide (h = h') then Some (match s with STcp _ => true | SUdp _ => false end) else kind m h'.
Proof. unfold kind. destruct (decide (h = h')) as [->|]; by rewrite ?lookup_insert_eq, ?lookup_insert_ne. Qed.
Lemma kind_put_tcp m h t h' : kind m h = Some true → kind (<[h := STcp t]> m) h' = kind m h'.
Proof. intros Hk. rewrite kind_insert. by destruct (decide (h = h')) as [->|]. Qed.
Lemma kind_put_udp m h u h' : kind m h = Some false → kind (<[h := SUdp u]> m) h' = kind m h'.
Proof. intros Hk. rewrite kind_insert. by destruct (decide (h = h')) as [->|]. Qed.
Lemma kind_delete m h h' : kind (delete h m) h' = if decide (h = h') then None else kind m h'.
Proof. unfold kind. destruct (decide (h = h')) as [->|]; by rewrite ?lookup_delete_eq, ?lookup_delete_ne. Qed.
Lemma kind_None m h : kind m h = None ↔ m !! h = None.
Proof. unfold kind. by rewrite fmap_None. Qed.

Lemma free_sockets_spec l m :
  NoDup l → (∀ h, h ∈ l → kind m h ≠ None) →
  ∃ m', free_sockets l m = Some m' ∧ ∀ h, kind m' h = if decide (h ∈ l) then None else kind m h.
Proof.
  revert m. induction l as [|h l IH]; intros m Hnd Hin.
  - exists m. split; [done|]. intros h. destruct (decide _) as [Hh|]; [by apply not_elem_of_nil in Hh|done].
  - apply NoDup_cons in Hnd as [Hh Hnd]. cbn [free_sockets]. unfold set_remove.
    assert (Hk : kind m h ≠ None) by (apply Hin; by left). rewrite kind_None in Hk. destruct (m !! h) eqn:Hm; [|done]. cbn.
    destruct (IH (delete h m) Hnd) as (m' & -> & Hm').
    + intros h' Hh'. rewrite kind_delete. destruct (decide (h = h')) as [->|]; [done|]. apply Hin. by right.
    + exists m'. split; [done|]. intros h'. rewrite Hm', kind_delete.
      destruct (decide (h' ∈ l)), (decide (h = h')) as [->|], (decide (h' ∈ _)) as [Hc|Hc];
        rewrite ?elem_of_cons in Hc; naive_solver.
Qed.
End kinds.

Definition handles (m : gmap FlowKey Flow) : list nat := (λ x, fl_handle x.2) <$> map_to_list m.

Lemma handles_new m k f : m !! k = None → handles (<[k := f]> m) ≡ₚ fl_handle f :: handles m.
Proof. intros Hk. unfold handles. by rewrite map_to_list_insert. Qed.
Lemma handles_delete m k f : m !! k = Some f → handles m ≡ₚ fl_handle f :: handles (delete k m).
Proof.
  intros Hk. rewrite <- (insert_delete_id m k f) at 1 by done. apply handles_new. by rewrite lookup_delete_eq.
Qed.
Lemma handles_same m k f f' :
  m !! k = Some f → fl_handle f' = fl_handle f → handles (<[k := f']> m) ≡ₚ handles m.
Proof.
  intros Hk Hh. rewrite (handles_delete m k f) by done. rewrite <- insert_delete_eq, handles_new, Hh; [done|].
  by rewrite lookup_delete_eq.
Qed.
Lemma elem_of_handles m h : h ∈ handles m ↔ ∃ k f, m !! k = Some f ∧ fl_handle f = h.
Proof.
  unfold handles. rewrite list_elem_of_fmap. split.
  - intros ([k f] & -> & Hin%elem_of_map_to_list). eauto.
  - intros (k & f & Hk & <-). exists (k, f). by rewrite elem_of_map_to_list.
Qed.

(** The network task and the proxy refuse the same addresses. *)
Lemma filters_agree ip : private_or_local ip = is_private_or_local ip.
Proof. by destruct ip. Qed.

Section guard.
Context {T U : Type} {HT : TcpApi T} {HU : UdpApi U} {HUL : UdpLaws U} {HS : SlotPick T U} {HSL : SlotPickLaws T U} {HW : Wire}.
Context (walk : gmap FlowKey Flow → list (FlowKey * Flow)) (walk_lists : ∀ m, walk m ≡ₚ map_to_list m).
Context (values : gmap string BlockedDestination → list BlockedDestination).
Abbreviation Stack := (Stack T U).
Abbreviation NetWorld := (NetWorld T U).
Implicit Types (s : Stack) (log : list NetEvent) (fl : list NewInbound).

(** ** The invariant

    Every handle names a socket of the kind its owner expects, and has one
    owner. *)

Definition owned s : list nat :=
  handles (flows s) ++ (if_handle <$> inbound s) ++ (uf_handle <$> udp_flows s) ++ sockets_pending_removal s ++
  [dns_handle s; dhcp_handle s].

Record sock_ok s : Prop := {
  so_dns : kind (sockets s) (dns_handle s) = Some false;
  so_dhcp : kind (sockets s) (dhcp_handle s) = Some false;
  so_flows h : h ∈ handles (flows s) → kind (sockets s) h = Some true;
  so_inbound h : h ∈ if_handle <$> inbound s → kind (sockets s) h = Some true;
  so_udp h : h ∈ uf_handle <$> udp_flows s → kind (sockets s) h = Some false;
  so_removal h : h ∈ sockets_pending_removal s → kind (sockets s) h ≠ None;
  so_nodup : NoDup (owned s);
}.

(** The local ports, and the tables of relayed connections; [fl] are the
    connections that the stack has yet to see. *)
Record ports_ok fl s : Prop := {
  po_cursor : EPHEMERAL_PORT_START ≤ cursor (inbound_ports s) ≤ 65535;
  po_recent : (length (recent (inbound_ports s)) ≤ RECENT_PORTS)%nat;
  po_inbound : NoDup (if_local_port <$> inbound s);
  po_udp : NoDup (uf_local_port <$> udp_flows s);
  po_total : (length fl + length (inbound s) ≤ MAX_INBOUND_TOTAL)%nat;
  po_listener l : (length (filter (λ n, ni_listener n = l) fl) +
    length (filter (λ f, if_listener f = l) (inbound s)) ≤ MAX_INBOUND_PER_LISTENER)%nat;
  po_udp_total : (length (udp_flows s) ≤ MAX_UDP_FLOWS)%nat;
  po_udp_host ip : (length (filter (λ f, (uf_peer f).1 = ip) (udp_flows s)) ≤ MAX_UDP_FLOWS_PER_HOST)%nat;
}.

Record tables_ok s : Prop := {
  to_flows : (size (flows s) ≤ MAX_FLOW_ENTRIES)%nat;
  to_pending : (length (pending_dns s) ≤ MAX_PENDING_DNS_QUERIES)%nat;
  to_order : NoDup (resolved_order s);
  to_resolved ip : ip ∈ resolved_order s ↔ is_Some (resolved s !! ip);
  to_order_len : (length (resolved_order s) ≤ MAX_RESOLVED_ENTRIES)%nat;
  to_leases : (size (dhcp_leases s) ≤ DHCP_POOL_SIZE)%nat;
  to_lease mac ip : dhcp_leases s !! mac = Some ip →
    ∃ k, (k < size (dhcp_leases s))%nat ∧ ip = V4 10 0 2 (15 + Z.of_nat k);
  to_lease_one mac mac' ip : dhcp_leases s !! mac = Some ip → dhcp_leases s !! mac' = Some ip → mac = mac';
}.

(** [name] was looked up, and [ip] was in the answer. *)
Definition looked_up log (name : string) (ip : IpAddr) : Prop := ∃ addrs, Resolved name addrs ∈ log ∧ ip ∈ addrs.
Definition names_target log (name : string) (ip : IpAddr) : Prop := name = ip_display ip ∨ looked_up log name ip.
(** The check of [name] was asked and allowed. *)
Definition allowed_before log (name : string) (port : Z) : Prop :=
  ∃ p, Checked name port p true ∈ log ∧ policy_allows p name = true.

Record backed log s : Prop := {
  ba_resolved ip name : resolved s !! ip = Some name → looked_up log name ip;
  ba_connect k t : connect_tasks s !! k = Some t →
    is_flow_destination_safe (ct_addr t).1 = true ∧ names_target log (ct_domain t) (ct_addr t).1;
  ba_dns k t : dns_tasks s !! k = Some t →
    match dt_stage t with
    | DnsResolving => allowed_before log (dt_domain t) DNS_SERVER_PORT
    | DnsAnswered (Some addrs) => Resolved (dt_domain t) addrs ∈ log
    | _ => True
    end;
  ba_pending q t : q ∈ pending_dns s → dns_tasks s !! pq_task q = Some t → dt_domain t = pq_domain q;
  ba_fresh q : q ∈ pending_dns s → (pq_task q < next_task s)%nat;
}.

Record Inv log fl s : Prop := {
  in_sock : sock_ok s; in_ports : ports_ok fl s; in_tables : tables_ok s; in_backed : backed log s;
}.

(** ** Changes that keep the invariant *)

(** Only fields outside the group changed. *)
Lemma sock_ok_same s s' :
  (∀ h, kind (sockets s') h = kind (sockets s) h) → dns_handle s' = dns_handle s → dhcp_handle s' = dhcp_handle s →
  handles (flows s') ≡ₚ handles (flows s) → if_handle <$> inbound s' = if_handle <$> inbound s →
  uf_handle <$> udp_flows s' = uf_handle <$> udp_flows s → sockets_pending_removal s' = sockets_pending_removal s →
  sock_ok s → sock_ok s'.
Proof.
  intros Hk Hd Hh Hf Hi Hu Hr [S1 S2 S3 S4 S5 S6 S7]. split.
  - by rewrite Hk, Hd.
  - by rewrite Hk, Hh.
  - intros h. rewrite Hf, Hk. apply S3.
  - intros h. rewrite Hi, Hk. apply S4.
  - intros h. rewrite Hu, Hk. apply S5.
  - intros h. rewrite Hr, Hk. apply S6.
  - unfold owned. by rewrite Hf, Hi, Hu, Hr, Hd, Hh.
Qed.

Lemma owned_kind s h : sock_ok s → h ∈ owned s → kind (sockets s) h ≠ None.
Proof.
  intros [S1 S2 S3 S4 S5 S6 _]. unfold owned. rewrite !elem_of_app, !elem_of_cons, elem_of_nil.
  intros [Hh|[Hh|[Hh|[Hh|[->|[->|[]]]]]]]; [rewrite S3|rewrite S4|rewrite S5|by apply S6|rewrite S1|rewrite S2]; done.
Qed.

Lemma kind_extend (m : gmap nat (Socket T U)) x h b :
  kind m h = b → b ≠ None → kind (set_add x m).2 h = b.
Proof.
  intros Hk Hb. cbn. rewrite kind_insert. destruct (decide _) as [He|]; [|done].
  exfalso. subst b h. apply Hb. apply kind_None, slot_pick_free.
Qed.
Lemma kind_added (m : gmap nat (Socket T U)) x :
  kind (set_add x m).2 (set_add x m).1 = Some (match x with STcp _ => true | SUdp _ => false end).
Proof. cbn. rewrite kind_insert. by rewrite decide_True. Qed.
Lemma added_unowned s x : sock_ok s → (set_add x (sockets s)).1 ∉ owned s.
Proof. intros Hs Hin. apply (owned_kind s _ Hs Hin). apply kind_None, slot_pick_free. Qed.

(** A new socket with an owner. *)
Lemma sock_ok_add s s' x :
  sock_ok s → sockets s' = (set_add x (sockets s)).2 → dns_handle s' = dns_handle s → dhcp_handle s' = dhcp_handle s →
  sockets_pending_removal s' = sockets_pending_removal s →
  (let h := (set_add x (sockets s)).1 in
   match x with
   | STcp _ => (handles (flows s') ≡ₚ h :: handles (flows s) ∧ if_handle <$> inbound s' = if_handle <$> inbound s ∨
                handles (flows s') ≡ₚ handles (flows s) ∧ if_handle <$> inbound s' = (if_handle <$> inbound s) ++ [h]) ∧
               uf_handle <$> udp_flows s' = uf_handle <$> udp_flows s
   | SUdp _ => handles (flows s') ≡ₚ handles (flows s) ∧ if_handle <$> inbound s' = if_handle <$> inbound s ∧
               uf_handle <$> udp_flows s' = (uf_handle <$> udp_flows s) ++ [h]
   end) →
  sock_ok s'.
Proof.
  intros Hs Hm Hd Hh Hr Ho. pose proof (added_unowned s x Hs) as Hnew. pose proof (kind_added (sockets s) x) as Hk.
  pose proof (λ h b, kind_extend (sockets s) x h b) as He. cbn zeta in Ho.
  set (h := (set_add x (sockets s)).1) in *. rewrite <- Hm in Hk. rewrite <- Hm in He. clear Hm.
  destruct Hs as [S1 S2 S3 S4 S5 S6 S7].
  assert (Hown : owned s' ≡ₚ h :: owned s).
  { unfold owned. rewrite Hd, Hh, Hr. destruct x; [destruct Ho as [[[-> ->]|[-> ->]] ->]|destruct Ho as (-> & -> & ->)]; [done|..].
    - rewrite <- !app_assoc. cbn [app]. by rewrite <- !Permutation_middle.
    - rewrite <- !app_assoc. cbn [app]. by rewrite <- !Permutation_middle. }
  split.
  - rewrite Hd. by apply He.
  - rewrite Hh. by apply He.
  - intros h' Hin. destruct x; [destruct Ho as [[[Hf _]|[Hf _]] _]|destruct Ho as (Hf & _ & _)]; rewrite Hf in Hin;
      [apply elem_of_cons in Hin as [->|Hin]; [done|]|..]; apply He; auto.
  - intros h' Hin. destruct x; [destruct Ho as [[[_ Hi]|[_ Hi]] _]|destruct Ho as (_ & Hi & _)]; rewrite Hi in Hin;
      [|apply elem_of_app in Hin as [Hin|Hin%list_elem_of_singleton]; [|by rewrite Hin]|]; apply He; auto.
  - intros h' Hin. destruct x; [destruct Ho as [_ Hu]|destruct Ho as (_ & _ & Hu)]; rewrite Hu in Hin;
      [|apply elem_of_app in Hin as [Hin|Hin%list_elem_of_singleton]; [|by rewrite Hin]]; apply He; auto.
  - intros h' Hin. rewrite Hr in Hin. specialize (S6 h' Hin). by rewrite (He h' (kind (sockets s) h')).
  - rewrite Hown. by apply NoDup_cons.
Qed.

Lemma tables_same s s' :
  (size (flows s') ≤ size (flows s))%nat → (length (pending_dns s') ≤ length (pending_dns s))%nat →
  resolved_order s' = resolved_order s → resolved s' = resolved s → dhcp_leases s' = dhcp_leases s →
  tables_ok s → tables_ok s'.
Proof. intros Hf Hp Ho Hr Hl [B1 B2 B3 B4 B5 B6 B7 B8]. split; rewrite ?Ho, ?Hr, ?Hl; eauto; lia. Qed.

Lemma backed_same log s s' :
  resolved s' = resolved s → connect_tasks s' ⊆ connect_tasks s → dns_tasks s' ⊆ dns_tasks s →
  pending_dns s' ⊆ pending_dns s → next_task s' = next_task s → backed log s → backed log s'.
Proof.
  intros Hr Hc Hd Hp Hn [B1 B2 B3 B4 B5]. split.
  - by rewrite Hr.
  - intros k t Hk. by apply (B2 k), (lookup_weaken (connect_tasks s')).
  - intros k t Hk. by apply (B3 k), (lookup_weaken (dns_tasks s')).
  - intros q t Hq Hk. apply B4; [by apply Hp|by apply (lookup_weaken (dns_tasks s'))].
  - intros q Hq. rewrite Hn. by apply B5, Hp.
Qed.

Lemma inv_sockets log fl s m :
  (∀ h, kind m h = kind (sockets s) h) → Inv log fl s → Inv log fl (set_sockets m s).
Proof. intros Hk [Is Ip It Ib]. split; [|by destruct Ip|by destruct It|by destruct Ib]. by eapply sock_ok_same. Qed.
Lemma inv_put_tcp log fl s h t :
  kind (sockets s) h = Some true → Inv log fl s → Inv log fl (set_sockets (<[h := STcp t]> (sockets s)) s).
Proof. intros Hk. apply inv_sockets. intros h'. by apply kind_put_tcp. Qed.
Lemma inv_put_udp log fl s h u :
  kind (sockets s) h = Some false → Inv log fl s → Inv log fl (set_sockets (<[h := SUdp u]> (sockets s)) s).
Proof. intros Hk. apply inv_sockets. intros h'. by apply kind_put_udp. Qed.
Lemma inv_active log fl now s : Inv log fl s → Inv log fl (set_active now s).
Proof. intros [[] [] [] []]. by split. Qed.

(** A guest's SYN. *)
Lemma poll_flows_inv log fl frame now s : Inv log fl s → Inv log fl (poll_flows frame now s).
Proof.
  intros HI. unfold poll_flows. destruct (peek_guest_syn frame) as [[src dst]|]; [|done].
  case_bool_decide as Hex; [done|]. destruct (flow_table_is_full s) eqn:Hfull; [done|].
  destruct (is_flow_destination_safe dst.1) eqn:Hsafe; [|done]. cbn [negb].
  destruct (tcp_listen dst tcp_new) as [t|]; [|done].
  assert (Hnone : flows s !! (src, dst) = None) by by apply eq_None_not_Some.
  apply Nat.leb_gt in Hfull. destruct HI as [Is Ip It Ib]. cbn [set_add]. split.
  - apply (sock_ok_add s _ (STcp t)); try done. cbn zeta. split; [|done]. left. split; [|done].
    cbn -[handles]. by rewrite handles_new.
  - by destruct Ip.
  - destruct It. split; try done. cbn. rewrite map_size_insert_None; [lia|done].
  - destruct Ib as [B1 B2 B3 B4 B5]. split; try done.
    + intros k c. cbn. rewrite lookup_insert_Some. intros [[_ <-]|[_ Hk]]; [|by apply (B2 k)]. cbn. split; [done|].
      unfold resolved_domain_for. destruct (resolved s !! dst.1) eqn:Hr; cbn; [right; by apply B1|by left].
    + intros q Hq. cbn. specialize (B5 q Hq). lia.
Qed.
(** ** Guest flows *)

Definition names_flow s (key : FlowKey) (h : nat) : Prop := ∃ f, flows s !! key = Some f ∧ fl_handle f = h.

Lemma names_flow_kind s key h : sock_ok s → names_flow s key h → kind (sockets s) h = Some true.
Proof. intros Hs (f & Hf & <-). apply so_flows; [done|]. apply elem_of_handles. eauto. Qed.

Lemma pump_flow_spec now half_close f (m : gmap nat (Socket T U)) tasks :
  kind m (fl_handle f) = Some true →
  ∃ f' m' tasks' n, pump_flow now half_close f m tasks = Some (f', m', tasks', n) ∧
    fl_handle f' = fl_handle f ∧ (∀ h, kind m' h = kind m h) ∧ tasks' ⊆ tasks.
Proof.
  intros Hk. unfold pump_flow. destruct (fl_state f) as [task|io pending closed fin].
  - destruct (ct_stage <$> tasks !! task) as [[| |[]|]|]; do 4 eexists; (split; [done|]); split_and!;
      try done; apply delete_subseteq.
  - apply kind_tcp in Hk as Ht. destruct Ht as [t ->]. cbn.
    destruct (pump_established _ _ _ _ _ _ t) as [[st t'] n]. do 4 eexists. split; [done|].
    split_and!; [done| |done]. intros h. by apply kind_put_tcp.
Qed.

Lemma inv_flow_step log fl s key f f' m tasks :
  Inv log fl s → names_flow s key (fl_handle f) → fl_handle f' = fl_handle f → (∀ h, kind m h = kind (sockets s) h) →
  tasks ⊆ connect_tasks s →
  Inv log fl (set_connect_tasks tasks (set_sockets m (set_flows (<[key := f']> (flows s)) s))).
Proof.
  intros [Is Ip It Ib] (f0 & Hf0 & Hh0) Hh Hm Ht. split.
  - apply (sock_ok_same s); try done. cbn -[handles]. apply (handles_same _ _ f0); congruence.
  - by destruct Ip.
  - apply (tables_same s); try done. cbn. rewrite map_size_insert_Some by done. done.
  - by apply (backed_same _ s).
Qed.

Lemma pump_loop_inv log fl now half_close l s marked :
  Inv log fl s → (∀ key f, (key, f) ∈ l → names_flow s key (fl_handle f)) →
  (∀ key h, (key, h) ∈ marked → names_flow s key h) →
  ∃ s' marked', pump_loop now half_close l s marked = Some (s', marked') ∧ Inv log fl s' ∧
    ∀ key h, (key, h) ∈ marked' → names_flow s' key h.
Proof.
  revert s marked. induction l as [|[key f] l IH]; intros s marked HI Hl Hm; [by eexists _, _|].
  cbn [pump_loop]. assert (Hn : names_flow s key (fl_handle f)) by (apply Hl; by left).
  destruct (pump_flow_spec now half_close f (sockets s) (connect_tasks s)) as (f' & m & tasks & n & -> & Hh & Hk & Ht).
  { by eapply names_flow_kind; [apply HI|]. }
  cbn [mbind option_bind]. apply IH.
  - by eapply inv_flow_step.
  - assert (Hkeep : ∀ key' h, names_flow s key' h →
      names_flow (set_connect_tasks tasks (set_sockets m (set_flows (<[key := f']> (flows s)) s))) key' h).
    { intros key' h (f0 & Hf0 & <-). unfold names_flow. cbn. destruct (decide (key = key')) as [->|].
      - rewrite lookup_insert_eq. exists f'. split; [done|]. destruct Hn as (f1 & Hf1 & ?). congruence.
      - rewrite lookup_insert_ne by done. eauto. }
    intros key' f1 Hin. apply Hkeep, Hl. by right.
  - intros key' h [Hin|Hin%elem_of_replicate_inv]%elem_of_app.
    + destruct (Hm _ _ Hin) as (f0 & Hf0 & <-). unfold names_flow. cbn. destruct (decide (key = key')) as [->|].
      * rewrite lookup_insert_eq. exists f'. split; [done|]. destruct Hn as (f1 & Hf1 & ?). congruence.
      * rewrite lookup_insert_ne by done. eauto.
    + injection Hin as -> ->. exists f'. cbn. by rewrite lookup_insert_eq.
Qed.

Lemma inv_remove_flow log fl s key h t :
  Inv log fl s → names_flow s key h →
  Inv log fl (set_flows (delete key (flows s)) (set_removal (sockets_pending_removal s ++ [h])
    (set_sockets (<[h := STcp t]> (sockets s)) s))).
Proof.
  intros HI Hn. pose proof (names_flow_kind s key h (in_sock _ _ _ HI) Hn) as Hk.
  apply (inv_put_tcp _ _ _ h t Hk) in HI. set (s1 := set_sockets _ s) in *. destruct Hn as (f & Hf & Hh).
  assert (Hp : handles (flows s) ≡ₚ h :: handles (delete key (flows s))) by (rewrite (handles_delete _ key f) by done; by rewrite Hh).
  destruct HI as [[S1 S2 S3 S4 S5 S6 S7] Ip It Ib]. split.
  - split; try done.
    + intros h' Hin. apply S3. cbn -[handles]. rewrite Hp. by right.
    + intros h' [Hin|Hin%list_elem_of_singleton]%elem_of_app; [by apply S6|]. rewrite Hin.
      cbn. by rewrite kind_put_tcp, Hk.
    + revert S7. unfold owned. cbn -[handles]. rewrite Hp. rewrite <- !app_assoc. cbn [app].
      by rewrite <- !Permutation_middle.
  - by destruct Ip.
  - apply (tables_same s1); try done. cbn. rewrite map_size_delete. destruct (flows s !! key); cbn; lia.
  - by apply (backed_same _ s1).
Qed.

Lemma remove_loop_inv log fl l removed s :
  Inv log fl s → (∀ key h, (key, h) ∈ l → key ∈ removed ∨ names_flow s key h) →
  ∃ s', remove_loop l removed s = Some s' ∧ Inv log fl s'.
Proof.
  revert removed s. induction l as [|[key h] l IH]; intros removed s HI Hl; [by eexists|].
  cbn [remove_loop]. destruct (decide (key ∈ removed)) as [Hr|Hr].
  - apply IH; [done|]. intros key' h' Hin. apply Hl. by right.
  - destruct (Hl key h) as [?|Hn]; [by left|done|].
    pose proof (names_flow_kind s key h (in_sock _ _ _ HI) Hn) as Hk. apply kind_tcp in Hk as [t ->]. cbn [mbind option_bind].
    apply IH; [by apply inv_remove_flow|]. intros key' h' Hin. destruct (decide (key' = key)) as [->|]; [left; by left|].
    destruct (Hl key' h') as [?|(f & Hf & Hh)]; [by right|left; by right|]. right. exists f. cbn.
    by rewrite lookup_delete_ne.
Qed.

Lemma inv_removed log fl s :
  Inv log fl s → ∃ m, free_sockets (sockets_pending_removal s) (sockets s) = Some m ∧ Inv log fl (set_removal [] (set_sockets m s)).
Proof.
  intros [Is Ip It Ib]. pose proof Is as [S1 S2 S3 S4 S5 S6 S7].
  destruct (free_sockets_spec (sockets_pending_removal s) (sockets s)) as (m & -> & Hm); [|done|].
  { unfold owned in S7. rewrite !NoDup_app in S7. tauto. }
  exists m. split; [done|].
  assert (Hout : ∀ h, h ∈ handles (flows s) ++ (if_handle <$> inbound s) ++ (uf_handle <$> udp_flows s) ++ [dns_handle s; dhcp_handle s] →
    kind m h = kind (sockets s) h).
  { intros h Hin. rewrite Hm. rewrite decide_False; [done|]. intros Hr. unfold owned in S7.
    rewrite !NoDup_app in S7. rewrite !elem_of_app in Hin. set_solver. }
  split; [|by destruct Ip|by destruct It|by destruct Ib].
  split; cbn -[handles]; intros; rewrite ?Hout by (rewrite !elem_of_app, !elem_of_cons; tauto); auto.
  - by apply not_elem_of_nil in H.
  - revert S7. unfold owned. cbn -[handles]. rewrite !NoDup_app. set_solver.
Qed.

Lemma pump_flows_inv log fl now half_close s :
  Inv log fl s → ∃ s', pump_flows walk now half_close s = Some s' ∧ Inv log fl s'.
Proof.
  intros HI. unfold pump_flows. destruct (inv_removed log fl s HI) as (m & -> & HI'). cbn [mbind option_bind].
  destruct (pump_loop_inv log fl now half_close (walk (flows s)) _ [] HI') as (s' & marked & -> & HI'' & Hm).
  - intros key f. rewrite walk_lists, elem_of_map_to_list. intros Hf. by exists f.
  - by intros key h ?%not_elem_of_nil.
  - cbn [mbind option_bind]. apply remove_loop_inv; [done|]. auto.
Qed.
(** ** Host connections *)

(** What a pump does not change. *)
Definition same_flow (f f' : InboundFlow) : Prop :=
  if_handle f' = if_handle f ∧ if_local_port f' = if_local_port f ∧ if_listener f' = if_listener f.

Lemma pump_same now tuning alive f (t : T) down f' t' :
  pump now tuning alive f t = (down, f', t') → same_flow f f'.
Proof.
  unfold pump. destruct (negb (alive _)); [by intros [= _ <- _]|].
  assert (Hg : same_flow f (guest_to_host now f t).1).
  { unfold guest_to_host. repeat case_match; done. }
  destruct (guest_to_host now f t) as [f1 t1]. cbn [fst] in Hg.
  assert (Hh : same_flow f1 (host_to_guest now f1 t1).1.2).
  { unfold host_to_guest. assert (Hc : same_flow f1 (take_chunk now f1).2) by (unfold take_chunk; repeat case_match; done).
    destruct (take_chunk now f1) as [[] f2]; [done|]. cbn [snd] in Hc.
    assert (Ho : same_flow f2 (hand_on now f2 t1).1.2) by (unfold hand_on; repeat case_match; done).
    destruct (hand_on now f2 t1) as [[[] f3] t3]; cbn [fst snd] in Ho; [unfold same_flow in *; cbn; intuition congruence|].
    assert (Hp : same_flow f3 (pass_fin f3 t3).1) by (unfold pass_fin; repeat case_match; done).
    destruct (pass_fin f3 t3) as [f4 t4]. unfold same_flow in *. cbn in *. intuition congruence. }
  destruct (host_to_guest now f1 t1) as [[d2 f2] t2]. cbn [fst snd] in Hh. unfold same_flow in *.
  destruct (tcp_state t); try (by intros [= _ <- _]).
  all: destruct d2; [|destruct (half_closed f2 && _)]; intros [= _ <- _]; intuition congruence.
Qed.

Lemma retire_ok port p :
  EPHEMERAL_PORT_START ≤ cursor p ≤ 65535 → (length (recent p) ≤ RECENT_PORTS)%nat →
  EPHEMERAL_PORT_START ≤ cursor (retire port p) ≤ 65535 ∧ (length (recent (retire port p)) ≤ RECENT_PORTS)%nat.
Proof.
  intros Hc Hr. split; [done|]. cbn. rewrite length_app. cbn [length].
  destruct (length (recent p) =? RECENT_PORTS)%nat eqn:He; [apply Nat.eqb_eq in He|apply Nat.eqb_neq in He];
    destruct (recent p); cbn in *; unfold RECENT_PORTS in *; lia.
Qed.

Lemma inv_inbound_keep log fl kept f f' l t s :
  same_flow f f' → Inv log fl (set_inbound (kept ++ f :: l) (inbound_ports s) s) →
  Inv log fl (set_inbound (kept ++ f' :: l) (inbound_ports s) (set_sockets (<[if_handle f' := STcp t]> (sockets s)) s)).
Proof.
  intros (Hh & Hp & Hl) [Is [P1 P2 P3 P4 P5 P6 P7 P8] It Ib]. split; [|split; try done|by destruct It|by destruct Ib].
  - apply (sock_ok_same (set_inbound (kept ++ f :: l) (inbound_ports s) s)); try done.
    + intros h. apply kind_put_tcp. apply (so_inbound _ Is). cbn. rewrite fmap_app. cbn. rewrite Hh.
      apply elem_of_app. right. by left.
    + cbn. by rewrite !fmap_app, !fmap_cons, Hh.
  - revert P3. cbn. by rewrite !fmap_app, !fmap_cons, Hp.
  - revert P5. cbn. by rewrite !length_app.
  - intros l'. specialize (P6 l'). revert P6. cbn. rewrite !filter_app, !filter_cons, Hl.
    destruct (decide _); by rewrite !length_app.
Qed.

Lemma inv_inbound_drop log fl kept f l t s :
  Inv log fl (set_inbound (kept ++ f :: l) (inbound_ports s) s) →
  Inv log fl (set_inbound (kept ++ l) (retire (if_local_port f) (inbound_ports s))
    (set_removal (sockets_pending_removal s ++ [if_handle f]) (set_sockets (<[if_handle f := STcp t]> (sockets s)) s))).
Proof.
  intros [Is [P1 P2 P3 P4 P5 P6 P7 P8] It Ib]. destruct (retire_ok (if_local_port f) _ P1 P2) as [R1 R2].
  split; [|split; try done|by destruct It|by destruct Ib].
  - destruct Is as [S1 S2 S3 S4 S5 S6 S7].
    assert (Hk : kind (sockets s) (if_handle f) = Some true).
    { apply S4. cbn. rewrite fmap_app. apply elem_of_app. right. by left. }
    assert (Hput : ∀ h, kind (<[if_handle f := STcp t]> (sockets s)) h = kind (sockets s) h) by (intros; by apply kind_put_tcp).
    split; cbn -[handles]; intros; rewrite ?Hput; auto.
    + apply S4. cbn. rewrite fmap_app in *. apply elem_of_app in H as [?|?]; apply elem_of_app; [by left|right; by right].
    + apply elem_of_app in H as [?|Hx%list_elem_of_singleton]; [by apply S6|by rewrite Hx, Hk].
    + revert S7. unfold owned. cbn -[handles]. rewrite !fmap_app, fmap_cons, <- !app_assoc. cbn [app].
      by rewrite <- !Permutation_middle.
  - revert P3. cbn. rewrite !fmap_app, fmap_cons, <- Permutation_middle, NoDup_cons. tauto.
  - revert P5. cbn. rewrite !length_app. cbn. lia.
  - intros l'. specialize (P6 l'). revert P6. cbn. rewrite !filter_app, filter_cons, !length_app. destruct (decide _); cbn; lia.
Qed.

Lemma pump_inbound_loop_inv log fl now tuning alive l kept any s :
  Inv log fl (set_inbound (kept ++ l) (inbound_ports s) s) →
  ∃ any' s', pump_inbound_loop now tuning alive l kept any s = Some (any', s') ∧ Inv log fl s'.
Proof.
  revert kept any s. induction l as [|f l IH]; intros kept any s HI; cbn [pump_inbound_loop].
  { rewrite app_nil_r in HI. by eexists _, _. }
  assert (Hk : kind (sockets s) (if_handle f) = Some true).
  { apply (so_inbound _ (in_sock _ _ _ HI)). cbn. rewrite fmap_app. apply elem_of_app. right. by left. }
  apply kind_tcp in Hk as [t ->]. cbn [mbind option_bind].
  destruct (pump now tuning alive f t) as [[down f'] t'] eqn:Hp. apply pump_same in Hp.
  assert (Hs : same_flow f (take_moved f').2) by done. destruct (take_moved f') as [moved f2]. cbn [snd] in Hs.
  destruct down; apply IH.
  - cbn. apply (inv_inbound_keep _ _ _ _ f2 l (tcp_abort t')) in HI; [|done].
    pose proof (inv_inbound_drop log fl kept f2 l (tcp_abort t')
      (set_sockets (<[if_handle f2 := STcp (tcp_abort t')]> (sockets s)) s) HI) as HI'. cbn in HI'.
    by rewrite insert_insert_eq in HI'.
  - rewrite <- app_assoc. cbn. by eapply inv_inbound_keep.
Qed.

Lemma pump_inbound_inv log fl now tuning alive s :
  Inv log fl s → ∃ s', pump_inbound now tuning alive s = Some s' ∧ Inv log fl s'.
Proof.
  intros HI. unfold pump_inbound.
  destruct (pump_inbound_loop_inv log fl now tuning alive (inbound s) [] false s) as (any & s' & -> & HI').
  { by destruct s. }
  cbn [mbind option_bind]. eexists. split; [done|]. destruct any; [by apply inv_active|done].
Qed.
Lemma accept_inbound_inv log fl new now s :
  Inv log (new :: fl) s → ∃ r s', accept_inbound new now s = Some (r, s') ∧ Inv log fl s'.
Proof.
  intros [Is [P1 P2 P3 P4 P5 P6 P7 P8] It Ib].
  assert (Hfewer : ports_ok fl s).
  { split; try done; [cbn in P5; lia|]. intros l. specialize (P6 l). rewrite filter_cons in P6.
    destruct (decide _); cbn in P6; lia. }
  unfold accept_inbound. destruct (guest_addr s) as [guest|]; [|by eexists _, _].
  destruct (allocate_spec (if_local_port <$> inbound s) (inbound_ports s) P1) as (port & p' & -> & Hport & Hnew & _ & Hrec & Hcur).
  { rewrite length_fmap. cbn in P5. unfold MAX_INBOUND_TOTAL, RECENT_PORTS, EPHEMERAL_PORT_COUNT, EPHEMERAL_PORT_START in *. lia. }
  cbn [mbind option_bind]. destruct (tcp_connect _ _ tcp_new) as [t|].
  - eexists _, _. split; [done|]. apply inv_active. split.
    + apply (sock_ok_add s _ (STcp t)); try done. cbn zeta. split; [|done]. right. split; [done|]. cbn. by rewrite fmap_app.
    + split; try done.
      * cbn. by rewrite Hrec.
      * cbn. rewrite fmap_app. apply NoDup_app. split_and!; [done| |apply NoDup_singleton].
        intros x Hx Hx'. apply list_elem_of_singleton in Hx'. by subst.
      * cbn in *. rewrite length_app. cbn. lia.
      * intros l. specialize (P6 l). cbn. rewrite filter_cons in P6. rewrite filter_app, filter_cons, filter_nil, length_app. cbn.
        destruct (decide (ni_listener new = l)); cbn in *; lia.
    + by destruct It.
    + by destruct Ib.
  - eexists _, _. split; [done|]. destruct (retire_ok port p') as [R1 R2]; [done|by rewrite Hrec|].
    split; [by destruct Is|by destruct Hfewer; split|by destruct It|by destruct Ib].
Qed.

(** ** Host datagrams *)

Definition same_udp (f f' : UdpFlow) : Prop :=
  uf_handle f' = uf_handle f ∧ uf_local_port f' = uf_local_port f ∧ uf_peer f' = uf_peer f.

Lemma udp_replies_same fuel now f (u : U) out : same_udp f (udp_replies fuel now f u out).1.1.
Proof.
  revert f u out. induction fuel as [|fuel IH]; intros f u out; [done|]. cbn [udp_replies].
  destruct (udp_recv u) as [[[payload m] u']|]; [|done]. apply (IH (touch_udp now f)).
Qed.
Lemma udp_pump_same now alive f (u : U) : same_udp f (udp_pump now alive f u).1.1.2.
Proof.
  unfold udp_pump. pose proof (udp_replies_same (length (udp_queue u)) now f u []) as Hs.
  by destruct (udp_replies _ _ _ _ _) as [[f' u'] out].
Qed.

Lemma inv_udp_keep log fl kept f f' l u p s :
  same_udp f f' → p = inbound_ports s → Inv log fl (set_udp_flows (kept ++ f :: l) p s) →
  Inv log fl (set_udp_flows (kept ++ f' :: l) p (set_sockets (<[uf_handle f' := SUdp u]> (sockets s)) s)).
Proof.
  intros (Hh & Hp & Hl) -> [Is [P1 P2 P3 P4 P5 P6 P7 P8] It Ib]. split; [|split; try done|by destruct It|by destruct Ib].
  - apply (sock_ok_same (set_udp_flows (kept ++ f :: l) (inbound_ports s) s)); try done.
    + intros h. apply kind_put_udp. apply (so_udp _ Is). cbn. rewrite fmap_app. cbn. rewrite Hh.
      apply elem_of_app. right. by left.
    + cbn. by rewrite !fmap_app, !fmap_cons, Hh.
  - revert P4. cbn. by rewrite !fmap_app, !fmap_cons, Hp.
  - revert P7. cbn. by rewrite !length_app.
  - intros ip. specialize (P8 ip). revert P8. cbn. rewrite !filter_app, !filter_cons, Hl.
    destruct (decide _); by rewrite !length_app.
Qed.

Lemma inv_udp_drop log fl kept f l s :
  Inv log fl (set_udp_flows (kept ++ f :: l) (inbound_ports s) s) →
  Inv log fl (set_udp_flows (kept ++ l) (retire (uf_local_port f) (inbound_ports s))
    (set_sockets (delete (uf_handle f) (sockets s)) s)).
Proof.
  intros [Is [P1 P2 P3 P4 P5 P6 P7 P8] It Ib]. destruct (retire_ok (uf_local_port f) _ P1 P2) as [R1 R2].
  split; [|split; try done|by destruct It|by destruct Ib].
  - destruct Is as [S1 S2 S3 S4 S5 S6 S7].
    set (s' := set_udp_flows (kept ++ l) (retire (uf_local_port f) (inbound_ports s)) (set_sockets (delete (uf_handle f) (sockets s)) s)).
    assert (Hown : owned (set_udp_flows (kept ++ f :: l) (inbound_ports s) s) ≡ₚ uf_handle f :: owned s').
    { unfold owned. cbn -[handles]. rewrite !fmap_app, fmap_cons, <- !app_assoc. cbn [app]. by rewrite <- !Permutation_middle. }
    rewrite Hown, NoDup_cons in S7. destruct S7 as [Hnot Hnd].
    assert (Hk : ∀ h, h ∈ owned s' → kind (sockets s') h = kind (sockets s) h).
    { intros h Hin. cbn. rewrite kind_delete, decide_False; [done|]. by intros <-. }
    assert (Hsub : ∀ h, h ∈ uf_handle <$> udp_flows s' → h ∈ uf_handle <$> (kept ++ f :: l)).
    { intros h. cbn. rewrite !fmap_app, !elem_of_app, fmap_cons, elem_of_cons. tauto. }
    split; try done; intros; rewrite ?Hk by (unfold owned; rewrite !elem_of_app, !elem_of_cons; tauto); auto.
  - revert P4. cbn. rewrite !fmap_app, fmap_cons, <- Permutation_middle, NoDup_cons. tauto.
  - revert P7. cbn. rewrite !length_app. cbn. lia.
  - intros ip. specialize (P8 ip). revert P8. cbn. rewrite !filter_app, filter_cons, !length_app. destruct (decide _); cbn; lia.
Qed.

Lemma pump_udp_loop_inv log fl now alive l kept any s :
  Inv log fl (set_udp_flows (kept ++ l) (inbound_ports s) s) →
  ∃ any' s', pump_udp_loop now alive l kept any s = Some (any', s') ∧ Inv log fl s'.
Proof.
  revert kept any s. induction l as [|f l IH]; intros kept any s HI; cbn [pump_udp_loop].
  { rewrite app_nil_r in HI. by eexists _, _. }
  assert (Hk : kind (sockets s) (uf_handle f) = Some false).
  { apply (so_udp _ (in_sock _ _ _ HI)). cbn. rewrite fmap_app. apply elem_of_app. right. by left. }
  apply kind_udp in Hk as [u ->]. cbn [mbind option_bind].
  pose proof (udp_pump_same now alive f u) as Hs. destruct (udp_pump now alive f u) as [[[down f'] u'] out]. cbn [fst snd] in Hs.
  apply (inv_udp_keep _ _ _ _ f' l u') in HI; [|done..]. destruct down.
  - unfold set_remove. rewrite lookup_insert_eq. cbn [mbind option_bind]. apply IH.
    exact (inv_udp_drop log fl kept f' l (set_sockets (<[uf_handle f' := SUdp u']> (sockets s)) s) HI).
  - apply IH. by rewrite <- app_assoc.
Qed.

Lemma pump_udp_inv log fl now alive s :
  Inv log fl s → ∃ s', pump_udp_flows now alive s = Some s' ∧ Inv log fl s'.
Proof.
  intros HI. unfold pump_udp_flows.
  destruct (pump_udp_loop_inv log fl now alive (udp_flows s) [] false s) as (any & s' & -> & HI').
  { by destruct s. }
  cbn [mbind option_bind]. eexists. split; [done|]. destruct any; [by apply inv_active|done].
Qed.

Lemma deliver_udp_inv log fl index guest payload now s :
  Inv log fl s → (index < length (udp_flows s))%nat →
  ∃ s', deliver_udp index guest payload now s = Some s' ∧ Inv log fl s'.
Proof.
  intros HI Hlt. unfold deliver_udp. destruct (udp_flows s !! index) as [f|] eqn:Hf; [|apply lookup_ge_None in Hf; lia].
  cbn [mbind option_bind]. pose proof (list_elem_of_lookup_2 _ _ _ Hf) as Hin.
  assert (Hk : kind (sockets s) (uf_handle f) = Some false) by (apply (so_udp _ (in_sock _ _ _ HI)), list_elem_of_fmap; eauto).
  apply kind_udp in Hk as [u ->]. cbn [mbind option_bind].
  assert (Hs : same_udp f (send_to_guest now guest payload f u).1.2) by (unfold send_to_guest; by case_match).
  destruct (send_to_guest now guest payload f u) as [[ok f'] u']. cbn [fst snd] in Hs.
  eexists. split; [done|]. apply inv_active.
  rewrite insert_take_drop by done. apply (inv_udp_keep _ _ _ f); [done|done|].
  rewrite take_drop_middle by done. by destruct s.
Qed.

Lemma accept_udp_inv log fl d now s : Inv log fl s → ∃ s', accept_udp d now s = Some s' ∧ Inv log fl s'.
Proof.
  intros HI. unfold accept_udp. destruct (guest_addr s) as [guest|]; [|by eexists].
  destruct (_ <? _); [by eexists|]. destruct (list_find _ _) as [[index f]|] eqn:Hfind.
  { apply list_find_Some in Hfind as (Hi & _). apply deliver_udp_inv; [done|]. by eapply lookup_lt_Some. }
  destruct (_ <=? _)%nat eqn:Htot; [by eexists|]. destruct (MAX_UDP_FLOWS_PER_HOST <=? _)%nat eqn:Hhost; [by eexists|].
  apply Nat.leb_gt in Htot, Hhost. pose proof HI as [Is [P1 P2 P3 P4 P5 P6 P7 P8] It Ib].
  destruct (allocate_spec (uf_local_port <$> udp_flows s) (inbound_ports s) P1) as (port & p' & -> & Hport & Hnew & _ & Hrec & Hcur).
  { rewrite length_fmap. unfold MAX_UDP_FLOWS, RECENT_PORTS, EPHEMERAL_PORT_COUNT, EPHEMERAL_PORT_START in *. lia. }
  cbn [mbind option_bind]. destruct (udp_bind port udp_new) as [u|].
  - cbn [set_add]. apply deliver_udp_inv; [|cbn; rewrite length_app; cbn; lia]. split.
    + apply (sock_ok_add s _ (SUdp u)); try done. cbn zeta. split_and!; [done|done|]. cbn. by rewrite fmap_app.
    + split; try done.
      * cbn. by rewrite Hrec.
      * cbn. rewrite fmap_app. apply NoDup_app. split_and!; [done| |apply NoDup_singleton].
        intros x Hx Hx'. apply list_elem_of_singleton in Hx'. by subst.
      * cbn in *. rewrite length_app. cbn. lia.
      * intros ip. specialize (P8 ip). cbn. rewrite filter_app, filter_cons, filter_nil, length_app. cbn.
        destruct (decide _) as [He|]; cbn; [|lia]. rewrite He in Hhost. lia.
    + by destruct It.
    + by destruct Ib.
  - eexists. split; [done|]. destruct (retire_ok port p') as [R1 R2]; [done|by rewrite Hrec|].
    split; [by destruct Is|by split|by destruct It|by destruct Ib].
Qed.
(** ** DNS *)

(** The table of resolved addresses, with its queue. *)
Lemma inv_set_resolved log fl m order s :
  Inv log fl s → NoDup order → (length order ≤ MAX_RESOLVED_ENTRIES)%nat → (∀ ip, ip ∈ order ↔ is_Some (m !! ip)) →
  (∀ ip name, m !! ip = Some name → looked_up log name ip) → Inv log fl (set_resolved m order s).
Proof.
  intros [Is Ip It Ib] Hnd Hlen Hin Hl. split; [by destruct Is|by destruct Ip|..]; [destruct It|destruct Ib]; by split.
Qed.

Lemma record_resolved_inv log fl ip name s :
  Inv log fl s → looked_up log name ip → Inv log fl (record_resolved ip name s).
Proof.
  intros HI Hl. unfold record_resolved.
  assert (Hput : ∀ s', Inv log fl s' → is_Some (resolved s' !! ip) →
    Inv log fl (set_resolved (<[ip := name]> (resolved s')) (resolved_order s') s')).
  { intros s' HI' Hsome. pose proof (in_tables _ _ _ HI') as [_ _ B1 B2 B3 _ _ _].
    apply inv_set_resolved; [done..| |].
    - intros ip'. rewrite B2. destruct (decide (ip = ip')) as [->|]; [rewrite lookup_insert_eq|by rewrite lookup_insert_ne].
      split; [by eauto|done].
    - intros ip' n'. rewrite lookup_insert_Some. intros [[<- <-]|[_ Hn]]; [done|by apply (ba_resolved _ _ (in_backed _ _ _ HI'))]. }
  destruct (resolved s !! ip) as [old|] eqn:Hold; [apply Hput; [done|by rewrite Hold]|].
  set (s1 := if (_ <=? _)%nat then _ else s).
  assert (H1 : Inv log fl s1 ∧ resolved s1 !! ip = None ∧ (length (resolved_order s1) < MAX_RESOLVED_ENTRIES)%nat).
  { unfold s1. pose proof (in_tables _ _ _ HI) as [_ _ B1 B2 B3 _ _ _].
    destruct (_ <=? _)%nat eqn:Hfull; [|apply Nat.leb_gt in Hfull; done].
    apply Nat.leb_le in Hfull. destruct (resolved_order s) as [|oldest order] eqn:Ho.
    { cbn in Hfull. unfold MAX_RESOLVED_ENTRIES in Hfull. lia. }
    rewrite NoDup_cons in B1. destruct B1 as [Hno Hnd]. split; [|split].
    - apply inv_set_resolved; [done|done|cbn in B3; lia| |].
      + intros ip'. specialize (B2 ip'). rewrite elem_of_cons in B2. destruct (decide (oldest = ip')) as [<-|Hne].
        * rewrite lookup_delete_eq. split; [done|]. by intros [].
        * rewrite lookup_delete_ne by done. rewrite <- B2. naive_solver.
      + intros ip' n'. rewrite lookup_delete_Some. intros [_ Hn]. by apply (ba_resolved _ _ (in_backed _ _ _ HI)).
    - cbn. rewrite lookup_delete_None. by right.
    - cbn in *. lia. }
  clearbody s1. destruct H1 as (HI1 & Hnone & Hroom). cbn [resolved resolved_order set_resolved].
  pose proof (in_tables _ _ _ HI1) as [_ _ B1 B2 B3 _ _ _].
  change (Inv log fl (set_resolved (<[ip := name]> (resolved s1)) (resolved_order s1 ++ [ip]) s1)).
  assert (Hnew : ip ∉ resolved_order s1) by (rewrite B2, Hnone; by intros []).
  apply inv_set_resolved; [done|..].
  - apply NoDup_app. split_and!; [done| |apply NoDup_singleton]. intros x Hx Hx'%list_elem_of_singleton. by subst.
  - rewrite length_app. cbn. lia.
  - intros ip'. rewrite elem_of_app, list_elem_of_singleton, B2. destruct (decide (ip = ip')) as [->|Hne].
    + rewrite lookup_insert_eq. naive_solver.
    + rewrite lookup_insert_ne by done. naive_solver.
  - intros ip' n'. rewrite lookup_insert_Some. intros [[<- <-]|[_ Hn]]; [done|by apply (ba_resolved _ _ (in_backed _ _ _ HI1))].
Qed.

Abbreviation record_answers domain :=
  (foldl (λ s ip, match ip with V4 _ _ _ _ => record_resolved ip domain s | V6 _ => s end)).

Lemma record_resolved_pending ip name l s :
  record_resolved ip name (set_pending_dns l s) = set_pending_dns l (record_resolved ip name s).
Proof.
  unfold record_resolved. cbn [resolved resolved_order set_pending_dns]. destruct (resolved s !! ip); [done|].
  destruct (MAX_RESOLVED_ENTRIES <=? _)%nat; [|done]. by destruct (resolved_order s).
Qed.
Lemma record_answers_pending domain answers l s :
  record_answers domain (set_pending_dns l s) answers = set_pending_dns l (record_answers domain s answers).
Proof.
  revert s. induction answers as [|ip answers IH]; intros s; [done|]. cbn [foldl].
  destruct ip; [rewrite record_resolved_pending|]; apply IH.
Qed.
Lemma record_answers_inv log fl domain answers s :
  Inv log fl s → (∀ ip, ip ∈ answers → looked_up log domain ip) → Inv log fl (record_answers domain s answers).
Proof.
  revert s. induction answers as [|ip answers IH]; intros s HI Ha; [done|]. cbn [foldl].
  assert (Ha' : ∀ ip, ip ∈ answers → looked_up log domain ip) by (intros; apply Ha; by right).
  destruct ip; apply IH; try done. apply record_resolved_inv; [done|]. apply Ha. by left.
Qed.

Lemma inv_query log fl q s :
  Inv log fl s → pq_task q = next_task s →
  Inv log fl (push_pending_dns_query q
    (bump_task (set_dns_tasks (<[next_task s := mkDnsTask (pq_domain q) DnsChecking]> (dns_tasks s)) s))).
Proof.
  intros [Is Ip It [B1 B2 B3 B4 B5]] Hq. unfold push_pending_dns_query. cbn [pending_dns bump_task set_dns_tasks].
  set (l := if (_ <=? _)%nat then _ else _).
  assert (Hl : l ⊆ pending_dns s ∧ (length l < MAX_PENDING_DNS_QUERIES)%nat).
  { unfold l. destruct It as [_ T2 _ _ _ _ _ _]. destruct (_ <=? _)%nat eqn:Hfull; [|apply Nat.leb_gt in Hfull; done].
    destruct (pending_dns s); cbn in *; unfold MAX_PENDING_DNS_QUERIES in *; split; [done|lia|set_solver|lia]. }
  clearbody l. destruct Hl as [Hsub Hlen]. split; [by destruct Is|by destruct Ip|..].
  - destruct It. split; try done. cbn. rewrite length_app. cbn. lia.
  - split; cbn; try done.
    + intros k t. rewrite lookup_insert_Some. intros [[_ <-]|[_ Hk]]; [done|by apply (B3 k)].
    + intros q' t [Hin| ->%list_elem_of_singleton]%elem_of_app.
      * pose proof (B5 _ (Hsub _ Hin)) as Hlt. rewrite lookup_insert_ne by lia. by apply B4, Hsub.
      * rewrite Hq, lookup_insert_eq. by intros [= <-].
    + intros q' [Hin| ->%list_elem_of_singleton]%elem_of_app; [pose proof (B5 _ (Hsub _ Hin))|]; lia.
Qed.

Lemma relay_loop_dns_inv log fl fuel s : Inv log fl s → ∃ s', relay_loop_dns fuel s = Some s' ∧ Inv log fl s'.
Proof.
  revert s. induction fuel as [|fuel IH]; intros s HI; [by eexists|]. cbn [relay_loop_dns].
  pose proof (so_dns _ (in_sock _ _ _ HI)) as Hk. apply kind_udp in Hk as Hu. destruct Hu as [u ->]. cbn [mbind option_bind].
  destruct (udp_recv u) as [[[payload remote] u']|]; [|by eexists].
  apply (inv_put_udp _ _ _ _ u' Hk) in HI. destruct (parse_dns_query payload) as [q|]; [|by apply IH].
  apply IH. by apply (inv_query _ _ (mkPending _ _ _ _ _)).
Qed.
Lemma relay_dns_inv log fl s : Inv log fl s → ∃ s', relay_dns_queries s = Some s' ∧ Inv log fl s'.
Proof.
  intros HI. unfold relay_dns_queries. pose proof (so_dns _ (in_sock _ _ _ HI)) as Hk. apply kind_udp in Hk as [u ->].
  by apply relay_loop_dns_inv.
Qed.

Lemma deliver_loop_inv log fl l still s :
  Inv log fl (set_pending_dns (still ++ l) s) → ∃ s', deliver_loop l still s = Some s' ∧ Inv log fl s'.
Proof.
  revert still s. induction l as [|q l IH]; intros still s HI; cbn [deliver_loop].
  { rewrite app_nil_r in HI. by eexists. }
  assert (Hdrop : ∀ tasks, tasks ⊆ dns_tasks s → Inv log fl (set_pending_dns (still ++ l) (set_dns_tasks tasks s))).
  { intros tasks Ht. destruct HI as [Is Ip It Ib]. split; [by destruct Is|by destruct Ip|..].
    - eapply tables_same; [..|exact It]; try done. cbn. rewrite !length_app. cbn. lia.
    - eapply backed_same; [..|exact Ib]; try done. cbn. set_solver. }
  destruct (dns_tasks s !! pq_task q) as [t|] eqn:Ht; cbn [fmap option_fmap option_map].
  2:{ apply IH. specialize (Hdrop (dns_tasks s)). destruct s. by apply Hdrop. }
  destruct (dt_stage t) as [| |answers|] eqn:Hst.
  - apply IH. by rewrite <- app_assoc.
  - apply IH. by rewrite <- app_assoc.
  - specialize (Hdrop _ (delete_subseteq (dns_tasks s) (pq_task q))).
    apply (record_answers_inv _ _ (pq_domain q) (default [] answers)) in Hdrop.
    2:{ intros ip Hin. destruct answers as [addrs|]; [|by apply not_elem_of_nil in Hin]. exists addrs. split; [|done].
        pose proof (in_backed _ _ _ HI) as [_ _ B3 B4 _]. specialize (B3 _ _ Ht). rewrite Hst in B3.
        rewrite <- (B4 q t); [done| |done]. cbn. apply elem_of_app. right. by left. }
    rewrite record_answers_pending in Hdrop. set (s1 := foldl _ _ _) in *. clearbody s1.
    pose proof (so_dns _ (in_sock _ _ _ Hdrop)) as Hk. apply kind_udp in Hk as Hu. destruct Hu as [u Hu]. cbn in Hu. rewrite Hu.
    cbn [mbind option_bind]. apply IH. destruct (udp_send _ _ u) as [u'|]; [|done].
    exact (inv_put_udp _ _ _ _ u' Hk Hdrop).
  - apply IH. specialize (Hdrop (dns_tasks s)). destruct s. by apply Hdrop.
Qed.
Lemma deliver_dns_inv log fl s : Inv log fl s → ∃ s', deliver_dns_answers s = Some s' ∧ Inv log fl s'.
Proof. intros HI. apply deliver_loop_inv. by destruct s. Qed.

(** ** DHCP *)

Lemma lease_for_inv log fl mac s : Inv log fl s → Inv log fl (lease_for mac s).2.
Proof.
  intros [Is Ip [B1 B2 B3 B4 B5 B6 B7 B8] Ib]. unfold lease_for. destruct (dhcp_leases s !! mac) eqn:Hm; [done|].
  destruct (_ <=? _)%nat eqn:Hfull; [done|]. apply Nat.leb_gt in Hfull.
  set (n := size (dhcp_leases s)) in *. cbn [snd DHCP_POOL_START]. split; [by destruct Is|by destruct Ip| |by destruct Ib].
  assert (Hn : (15 + Z.of_nat n) mod 256 = 15 + Z.of_nat n) by (apply Z.mod_small; unfold DHCP_POOL_SIZE in Hfull; lia).
  rewrite Hn. assert (Hsize : size (<[mac := V4 10 0 2 (15 + Z.of_nat n)]> (dhcp_leases s)) = S n) by by rewrite map_size_insert_None.
  split; try done; cbn.
  - rewrite Hsize. lia.
  - intros mac' ip. rewrite Hsize, lookup_insert_Some. intros [[_ <-]|[_ Hl]]; [exists n; split; [lia|done]|].
    destruct (B7 _ _ Hl) as (k & Hk & ->). exists k. split; [lia|done].
  - intros mac1 mac2 ip. rewrite !lookup_insert_Some. intros [[<- <-]|[_ Hl1]] [[<- He]|[_ Hl2]]; try done.
    + destruct (B7 _ _ Hl2) as (k & Hk & Heq). injection Heq. lia.
    + subst ip. destruct (B7 _ _ Hl1) as (k & Hk & Heq). injection Heq. lia.
    + by eapply B8.
Qed.
Lemma answer_dhcp_inv log fl payload s : Inv log fl s → Inv log fl (answer_dhcp payload s).2.
Proof.
  intros HI. unfold answer_dhcp. destruct (negb _); [done|]. destruct (dhcp_parse payload) as [d|]; [|done].
  pose proof (lease_for_inv log fl (d_client_hardware_address d) s HI) as Hl.
  destruct (lease_for _ s) as [[ip|] s']; by destruct (d_message_type d).
Qed.
Lemma dhcp_loop_inv log fl fuel s : Inv log fl s → ∃ s', dhcp_loop fuel s = Some s' ∧ Inv log fl s'.
Proof.
  revert s. induction fuel as [|fuel IH]; intros s HI; [by eexists|]. cbn [dhcp_loop].
  pose proof (so_dhcp _ (in_sock _ _ _ HI)) as Hk. apply kind_udp in Hk as Hu. destruct Hu as [u ->]. cbn [mbind option_bind].
  destruct (udp_recv u) as [[[payload remote] u']|]; [|by eexists].
  apply (inv_put_udp _ _ _ _ u' Hk), (answer_dhcp_inv _ _ payload) in HI.
  destruct (answer_dhcp _ _) as [[reply|] s2]; cbn [snd] in HI; [|by apply IH].
  clear Hk. pose proof (so_dhcp _ (in_sock _ _ _ HI)) as Hk. apply kind_udp in Hk as Hu. destruct Hu as [u2 ->].
  cbn [mbind option_bind]. apply IH. destruct (udp_send _ _ u2) as [u3|]; [by apply inv_put_udp|done].
Qed.
Lemma serve_dhcp_inv log fl s : Inv log fl s → ∃ s', serve_dhcp s = Some s' ∧ Inv log fl s'.
Proof.
  intros HI. unfold serve_dhcp. pose proof (so_dhcp _ (in_sock _ _ _ HI)) as Hk. apply kind_udp in Hk as [u ->].
  by apply dhcp_loop_inv.
Qed.

Lemma poll_tail_inv log fl now half_close tuning alive s :
  Inv log fl s → ∃ s', poll_tail walk now half_close tuning alive s = Some s' ∧ Inv log fl s'.
Proof.
  intros HI. unfold poll_tail.
  destruct (pump_flows_inv log fl now half_close s HI) as (s1 & -> & HI1). cbn [mbind option_bind].
  destruct (pump_inbound_inv log fl now tuning alive s1 HI1) as (s2 & -> & HI2). cbn [mbind option_bind].
  destruct (pump_udp_inv log fl now alive s2 HI2) as (s3 & -> & HI3). cbn [mbind option_bind].
  destruct (relay_dns_inv log fl s3 HI3) as (s4 & -> & HI4). cbn [mbind option_bind].
  destruct (deliver_dns_inv log fl s4 HI4) as (s5 & -> & HI5). cbn [mbind option_bind].
  by apply serve_dhcp_inv.
Qed.
(** ** The network task and its tasks *)

(** Why an event may happen after [pre]. *)
Definition justified (pre : list NetEvent) (e : NetEvent) : Prop :=
  match e with
  | Checked name port p ok => policy_allows p name = ok
  | Resolved name addrs => allowed_before pre name DNS_SERVER_PORT
  | Dialed addr =>
      is_flow_destination_safe addr.1 = true ∧ ∃ name, allowed_before pre name addr.2 ∧ names_target pre name addr.1
  end.
Definition sound log : Prop := ∀ pre e post, log = pre ++ e :: post → justified pre e.

Lemma sound_snoc log e : sound log → justified log e → sound (log ++ [e]).
Proof.
  intros Hs He pre e' post Heq. destruct post as [|x post _] using rev_ind.
  - apply app_inj_tail in Heq as [<- <-]. done.
  - rewrite app_comm_cons, app_assoc in Heq. apply app_inj_tail in Heq as [-> _]. by eapply Hs.
Qed.

Lemma looked_up_grows log l name ip : looked_up log name ip → looked_up (log ++ l) name ip.
Proof. intros (addrs & Hin & Hip). exists addrs. split; [apply elem_of_app; by left|done]. Qed.
Lemma names_target_grows log l name ip : names_target log name ip → names_target (log ++ l) name ip.
Proof. intros [->|Hl]; [by left|right; by apply looked_up_grows]. Qed.
Lemma allowed_before_grows log l name port : allowed_before log name port → allowed_before (log ++ l) name port.
Proof. intros (p & Hin & Hp). exists p. split; [apply elem_of_app; by left|done]. Qed.

Lemma backed_grows log l s : backed log s → backed (log ++ l) s.
Proof.
  intros [B1 B2 B3 B4 B5]. split; [|..|done|done].
  - intros ip name Hr. by apply looked_up_grows, B1.
  - intros k t Hk. destruct (B2 k t Hk). split; [done|]. by apply names_target_grows.
  - intros k t Hk. specialize (B3 k t Hk). destruct (dt_stage t) as [| |[addrs|]|]; try done.
    + by apply allowed_before_grows.
    + apply elem_of_app. by left.
Qed.
Lemma inv_grows log l fl s : Inv log fl s → Inv (log ++ l) fl s.
Proof. intros []. split; try done. by apply backed_grows. Qed.

(** A task moves to its next stage. *)
Lemma inv_connect_task log fl s k t st :
  Inv log fl s → connect_tasks s !! k = Some t →
  Inv log fl (set_connect_tasks (<[k := mkConnectTask (ct_domain t) (ct_addr t) (ct_deadline t) st]> (connect_tasks s)) s).
Proof.
  intros [Is Ip It [B1 B2 B3 B4 B5]] Hk. split; [by destruct Is|by destruct Ip|by destruct It|]. split; try done.
  intros k' t'. cbn. rewrite lookup_insert_Some. intros [[_ <-]|[_ Hk']]; [by apply (B2 k t)|by apply (B2 k')].
Qed.
Lemma inv_dns_task log fl s k t st :
  Inv log fl s → dns_tasks s !! k = Some t →
  match st with
  | DnsResolving => allowed_before log (dt_domain t) DNS_SERVER_PORT
  | DnsAnswered (Some addrs) => Resolved (dt_domain t) addrs ∈ log
  | _ => True
  end →
  Inv log fl (set_dns_tasks (<[k := mkDnsTask (dt_domain t) st]> (dns_tasks s)) s).
Proof.
  intros [Is Ip It [B1 B2 B3 B4 B5]] Hk Hst. split; [by destruct Is|by destruct Ip|by destruct It|]. split; try done.
  - intros k' t'. cbn. rewrite lookup_insert_Some. intros [[_ <-]|[_ Hk']]; [done|by apply (B3 k')].
  - intros q t' Hq. cbn. rewrite lookup_insert_Some. intros [[He <-]|[_ Hk']]; [|by apply B4]. cbn.
    apply B4; [done|]. by rewrite <- He.
Qed.

Definition world_ok (w : NetWorld) : Prop := Inv (w_log w) (w_in_flight w) (w_stack w) ∧ sound (w_log w).

Lemma connect_check_ok task now w : world_ok w → world_ok (connect_check values task now w).
Proof.
  intros [HI Hs]. unfold connect_check. destruct (connect_tasks (w_stack w) !! task) as [[d a dl st]|] eqn:Ht; [|done].
  destruct st; try done. cbn [check]. unfold check. cbn zeta. set (ok := policy_allows _ d).
  destruct (ba_connect _ _ (in_backed _ _ _ HI) task _ Ht) as [Hsafe Hname]. cbn [ct_addr ct_domain] in *.
  pose proof (sound_snoc _ (Checked d a.2 (policy (w_proxy w)) ok) Hs eq_refl) as Hs1. unfold world_ok. cbn [w_log w_in_flight w_stack].
  split.
  - apply inv_grows. by apply (inv_connect_task _ _ _ _ (mkConnectTask d a dl ConnectChecking)).
  - destruct ok eqn:Hok; [|done]. change (Checked ?n ?p ?q ?b :: [?e]) with ([Checked n p q b] ++ [e]).
    rewrite app_assoc. apply sound_snoc; [done|]. split; [done|]. exists d. split.
    + exists (policy (w_proxy w)). split; [|done]. apply elem_of_app. right. by left.
    + by apply names_target_grows.
Qed.
Lemma connect_done_ok task connected w : world_ok w → world_ok (connect_done task connected w).
Proof.
  intros [HI Hs]. unfold connect_done. destruct (connect_tasks (w_stack w) !! task) as [[d a dl st]|] eqn:Ht; [|done].
  destruct st; try done. split; [|done]. by apply (inv_connect_task _ _ _ _ (mkConnectTask d a dl Dialing)).
Qed.
Lemma dns_check_ok task now w : world_ok w → world_ok (dns_check values task now w).
Proof.
  intros [HI Hs]. unfold dns_check. destruct (dns_tasks (w_stack w) !! task) as [[d st]|] eqn:Ht; [|done].
  destruct st; try done. unfold check. cbn zeta. set (ok := policy_allows _ d). unfold world_ok. cbn [w_log w_in_flight w_stack].
  split; [|by apply sound_snoc].
  apply (inv_dns_task _ _ _ _ (mkDnsTask d DnsChecking)); [by apply inv_grows|done|].
  destruct ok eqn:Hok; [|done]. exists (policy (w_proxy w)). split; [|done]. apply elem_of_app. right. by left.
Qed.
Lemma dns_resolved_ok task addrs w : world_ok w → world_ok (dns_resolved task addrs w).
Proof.
  intros [HI Hs]. unfold dns_resolved. destruct (dns_tasks (w_stack w) !! task) as [[d st]|] eqn:Ht; [|done].
  destruct st; try done. pose proof (ba_dns _ _ (in_backed _ _ _ HI) task _ Ht) as Hall. cbn in Hall.
  unfold world_ok. cbn [w_log w_in_flight w_stack]. split; [|by apply sound_snoc].
  apply (inv_dns_task _ _ _ _ (mkDnsTask d DnsResolving)); [by apply inv_grows|done|]. apply elem_of_app. right. by left.
Qed.
Lemma task_lost_ok task w : world_ok w → world_ok (task_lost task w).
Proof.
  intros [HI Hs]. unfold task_lost. split; [|done]. cbn [w_log w_in_flight w_stack].
  set (s1 := match connect_tasks _ !! task with Some _ => _ | None => _ end).
  assert (H1 : Inv (w_log w) (w_in_flight w) s1).
  { unfold s1. destruct (connect_tasks (w_stack w) !! task) eqn:Ht; [by apply inv_connect_task|done]. }
  clearbody s1. destruct (dns_tasks s1 !! task) eqn:Ht; [by apply inv_dns_task|done].
Qed.
Lemma accept_host_ok l port w : world_ok w → world_ok (accept_host l port w).
Proof.
  intros [[Is [P1 P2 P3 P4 P5 P6 P7 P8] It Ib] Hs]. unfold accept_host. destruct (_ && _) eqn:Hc; [|done].
  apply andb_true_iff in Hc as [Hl%Nat.ltb_lt Ht%Nat.ltb_lt]. unfold listener_in_use, inbound_in_use in *.
  split; [|done]. split; try done. cbn [w_in_flight w_stack]. split; try done.
  - rewrite length_app. cbn. lia.
  - intros l'. specialize (P6 l'). rewrite filter_app, filter_cons, filter_nil, length_app. cbn.
    destruct (decide (l = l')) as [<-|]; cbn; lia.
Qed.

Lemma flow_io_inv log fl key turn s : Inv log fl s → Inv log fl (flow_io key turn s).
Proof.
  intros HI. unfold flow_io. destruct (flows s !! key) as [[h [|io p c fin]]|] eqn:Hf; try done.
  pose proof (inv_flow_step log fl s key (mkFlow h (Established io p c fin)) (mkFlow h (Established (turn io) p c fin))
    (sockets s) (connect_tasks s) HI) as Hstep.
  destruct s. apply Hstep; try done. by eexists.
Qed.
Lemma alter_keeps {A B} (g : A → B) (f : A → A) (i : nat) (l : list A) : (∀ x, g (f x) = g x) → g <$> alter f i l = g <$> l.
Proof.
  intros Hg. revert i. induction l as [|x l IH]; intros [|i]; cbn; [done|done|by rewrite Hg|]. f_equal. apply IH.
Qed.
Lemma listeners_alter (f : InboundFlow → InboundFlow) (i k : nat) (l : list InboundFlow) :
  (∀ x, if_listener (f x) = if_listener x) →
  length (filter (λ x, if_listener x = k) (alter f i l)) = length (filter (λ x, if_listener x = k) l).
Proof.
  intros Hf. revert i. induction l as [|x l IH]; intros [|i]; cbn [alter list_alter]; [done|done|..]; rewrite !filter_cons.
  - by rewrite Hf; destruct (decide _).
  - specialize (IH i). cbn in IH. destruct (decide _); cbn [length]; by rewrite IH.
Qed.
Lemma inbound_io_inv log fl index turn s : Inv log fl s → Inv log fl (inbound_io index turn s).
Proof.
  intros [Is [P1 P2 P3 P4 P5 P6 P7 P8] It Ib]. unfold inbound_io.
  split; [|split; try done|by destruct It|by destruct Ib]; cbn [inbound set_inbound].
  - apply (sock_ok_same s); try done. by apply alter_keeps.
  - by rewrite alter_keeps.
  - by rewrite length_alter.
  - intros l. by rewrite listeners_alter.
Qed.

Lemma run_op_ok op w : world_ok w → legal op w → ∃ w', run_op walk values op w = Some w' ∧ world_ok w'.
Proof.
  intros Hw Hlegal. pose proof Hw as [HI Hs]. destruct op; cbn [run_op].
  - eexists. split; [done|]. split; [by apply poll_flows_inv|done].
  - eexists. split; [done|]. split; [by apply inv_sockets|done].
  - destruct (poll_tail_inv (w_log w) (w_in_flight w) now half_close tuning alive (w_stack w) HI) as (s' & -> & HI').
    by eexists.
  - eexists. split; [done|]. by apply connect_check_ok.
  - eexists. split; [done|]. by apply connect_done_ok.
  - eexists. split; [done|]. by apply dns_check_ok.
  - eexists. split; [done|]. by apply dns_resolved_ok.
  - eexists. split; [done|]. by apply task_lost_ok.
  - eexists. split; [done|]. split; [by apply flow_io_inv|done].
  - eexists. split; [done|]. split; [by apply flow_io_inv|done].
  - eexists. split; [done|]. split; [by apply inbound_io_inv|done].
  - eexists. split; [done|]. split; [by apply inbound_io_inv|done].
  - eexists. split; [done|]. by apply accept_host_ok.
  - destruct (w_in_flight w) as [|new rest] eqn:Hf; [by eexists|].
    destruct (accept_inbound_inv (w_log w) rest new now (w_stack w)) as (r & s' & -> & HI'); [done|]. by eexists.
  - destruct (accept_udp_inv (w_log w) (w_in_flight w) d now (w_stack w) HI) as (s' & -> & HI'). by eexists.
  - by eexists.
Qed.

Lemma start_inv hash s g : stack_new hash = Some s → Inv [] [] (set_leases (dhcp_leases s) g s).
Proof.
  unfold stack_new.
  destruct (udp_bind DNS_SERVER_PORT udp_new) as [u|]; [|done]. cbn [mbind option_bind].
  destruct (udp_bind 67 udp_new) as [v|]; [|by destruct (set_add _ _)]. cbn [mbind option_bind set_add].
  set (h1 := slot_pick ∅). set (m1 := <[h1 := SUdp u]> ∅). set (h2 := slot_pick m1). intros [= <-].
  assert (Hne : h1 ≠ h2).
  { intros He. pose proof (slot_pick_free m1) as Hfree. fold h2 in Hfree. rewrite <- He in Hfree. unfold m1 in Hfree.
    by rewrite lookup_insert_eq in Hfree. }
  split.
  - split; cbn -[handles]; try (by intros h ?%not_elem_of_nil).
    + rewrite kind_insert, decide_False by done. unfold m1. by rewrite kind_insert, decide_True.
    + by rewrite kind_insert, decide_True.
    + unfold owned. cbn. repeat constructor; set_solver.
  - split; cbn; try lia; try done; try constructor; try (unfold RECENT_PORTS, MAX_INBOUND_PER_LISTENER, MAX_INBOUND_TOTAL, MAX_UDP_FLOWS,
      MAX_UDP_FLOWS_PER_HOST; lia).
    all: unfold EPHEMERAL_PORT_COUNT, EPHEMERAL_PORT_START; pose proof (Z.mod_pos_bound hash (65535 - 49152 + 1)); lia.
  - split; cbn; try (by rewrite ?map_size_empty; apply Nat.le_0_l); try done; try constructor.
    + by intros ?%not_elem_of_nil.
    + rewrite lookup_empty. by intros [].
  - split; cbn; try done. by intros q ?%not_elem_of_nil.
Qed.

Lemma start_ok w : net_start w → world_ok w.
Proof.
  intros (Hlog & Hfl & hash & s & Hnew & Hst). unfold world_ok. rewrite Hlog, Hfl. split; [|by intros [] ? ? ?].
  destruct Hst as [->| ->]; [|by eapply start_inv].
  replace s with (set_leases (dhcp_leases s) (guest_addr s) s) by by destruct s. by eapply start_inv.
Qed.

(** The states of a network task, from its start on. *)
Definition net_reachable (w : NetWorld) : Prop := ∃ w0, net_start w0 ∧ rtc (net_step walk values) w0 w.

Lemma reachable_ok w : net_reachable w → world_ok w.
Proof.
  intros (w0 & Hstart & Hrun). apply start_ok in Hstart. refine (rtc_ind_r (λ w, world_ok w) w0 Hstart _ w Hrun).
  intros y z _ (op & Hlegal & Hop) Hy. destruct (run_op_ok op y Hy Hlegal) as (w' & Hw' & Hok). congruence.
Qed.
(** C11: the network task of a sandbox never panics: in every state that guest
    frames, packet processing, spawned tasks, host clients and policy changes
    can lead to, in any order, every operation returns.  No socket handle is
    used after its socket was removed, and a local port is always found. *)
Theorem stack_never_panics (w : NetWorld) (op : NetOp T U) (reached : net_reachable w) (may_run : legal op w) :
  ∃ w', run_op walk values op w = Some w'.
Proof.
  destruct (run_op_ok op w (reachable_ok w reached) may_run) as (w' & Hw' & _). by exists w'.
Qed.

(** C37: the guest cannot grow the tables of the network task: at most 1024 flows,
    4096 pending queries, 4096 resolved names, 32 leases with an address each
    in 10.0.2.15 to 10.0.2.46, and at most 256 relayed connections, 64 for each
    listener, and 256 relayed peers, 16 for each host, on distinct ports. *)
Theorem stack_bounded (w : NetWorld) (reached : net_reachable w) :
  let s := w_stack w in
  (size (flows s) ≤ 1024)%nat ∧ (length (pending_dns s) ≤ 4096)%nat ∧ (size (resolved s) ≤ 4096)%nat ∧
  ((size (dhcp_leases s) ≤ 32)%nat ∧
   (∀ mac ip, dhcp_leases s !! mac = Some ip → ∃ n, 15 ≤ n ≤ 46 ∧ ip = V4 10 0 2 n) ∧
   (∀ mac mac' ip, dhcp_leases s !! mac = Some ip → dhcp_leases s !! mac' = Some ip → mac = mac')) ∧
  ((inbound_in_use w ≤ 256)%nat ∧ (∀ l, (listener_in_use l w ≤ 64)%nat) ∧ NoDup (if_local_port <$> inbound s)) ∧
  ((length (udp_flows s) ≤ 256)%nat ∧ (∀ ip, (length (filter (λ f, (uf_peer f).1 = ip) (udp_flows s)) ≤ 16)%nat) ∧
   NoDup (uf_local_port <$> udp_flows s)).
Proof.
  destruct (reachable_ok w reached) as [[_ [P1 P2 P3 P4 P5 P6 P7 P8] [B1 B2 B3 B4 B5 B6 B7 B8] _] _].
  cbn zeta. split_and!; try done.
  - assert (He : dom (resolved (w_stack w)) = list_to_set (resolved_order (w_stack w))).
    { apply set_eq. intros ip. rewrite elem_of_dom, elem_of_list_to_set. by rewrite B4. }
    rewrite <- size_dom, He, size_list_to_set by done. done.
  - intros mac ip Hl. destruct (B7 _ _ Hl) as (k & Hk & ->). exists (15 + Z.of_nat k). split; [|done].
    unfold DHCP_POOL_SIZE in B6. lia.
Qed.

(** C10: what leaves the host was allowed: an address is dialed only when it is
    public and the policy allowed, under a name for it, that name and the
    port; the name is the address itself or one whose lookup answered with the
    address after the policy allowed the lookup.  This holds whatever the
    guest sends and however the policy changes meanwhile. *)
Theorem egress_guard (w : NetWorld) (pre post : list NetEvent) (addr : Endpoint)
    (reached : net_reachable w) (dialed : w_log w = pre ++ Dialed addr :: post) :
  private_or_local addr.1 = false ∧
  ∃ name p, Checked name addr.2 p true ∈ pre ∧ policy_allows p name = true ∧
    (name = ip_display addr.1 ∨
     ∃ before addrs after p', pre = before ++ Resolved name addrs :: after ∧ addr.1 ∈ addrs ∧
       Checked name 53 p' true ∈ before ∧ policy_allows p' name = true).
Proof.
  destruct (reachable_ok w reached) as [_ Hs]. destruct (Hs _ _ _ dialed) as (Hsafe & name & (p & Hin & Hp) & Hname).
  split; [by apply negb_true_iff|]. exists name, p. split_and!; [done|done|]. destruct Hname as [->|(addrs & Hres & Hip)]; [by left|].
  right. apply list_elem_of_split in Hres as (before & after & ->).
  destruct (Hs before (Resolved name addrs) (after ++ Dialed addr :: post)) as (p' & Hin' & Hp').
  { by rewrite dialed, <- app_assoc. }
  by exists before, addrs, after, p'.
Qed.
End guard.

(** ** An example run

    A guest gets its address, looks up a name and connects to the address it
    was told; then a host client connects to the guest. *)

#[local] Instance demo_wire : Wire := {|
  eth_frame f := Some (true, f);
  ipv4_packet p := Some (true, p);
  ipv4_addresses _ := Some (V4 10 0 2 15, V4 93 184 216 34);
  tcp_header_ok _ := true;
  tcp_segment _ _ _ := Some (CtlSyn, None, 40000, 443);
  dns_packet p := Some (7, p);
  dns_question b := Some (b, length b);
  dhcp_packet_ok _ := true;
  dhcp_parse _ := Some (mkDhcpRepr DhcpDiscover 9 0 [2; 0; 0; 0; 0; 1] (V4 0 0 0 0) (V4 0 0 0 0) (V4 0 0 0 0) None None
    (V4 0 0 0 0) true None None None None None None None None None);
  dhcp_emit _ := [];
|}.
Definition demo_values (m : gmap string BlockedDestination) : list BlockedDestination := (map_to_list m).*2.
Definition demo_policy : EgressPolicy := mkEgress EgressAllowlist ["ab.c"%string].
Definition demo_stack : Stack RefTcp RefUdp :=
  spawn_for_sandbox (default (mkStack ∅ ∅ [] 0 0 [] ∅ ∅ 0 ∅ ∅ [] [] [] (new_ports 0) None None) (stack_new 5)).
Definition demo_world : NetWorld RefTcp RefUdp := mkNetWorld demo_stack (proxy_new "s1" demo_policy) [] [].
(** The name [ab.c] of a query. *)
Definition demo_query : bytes := [Byte.x02; Byte.x61; Byte.x62; Byte.x01; Byte.x63; Byte.x00].
Definition demo_queried (w : NetWorld RefTcp RefUdp) : gmap nat (Socket RefTcp RefUdp) :=
  <[dhcp_handle (w_stack w) := SUdp (mkRefUdp [([], (V4 0 0 0 0, 68))] [])]>
    (<[dns_handle (w_stack w) := SUdp (mkRefUdp [(demo_query, (V4 10 0 2 15, 5000))] [])]> (sockets (w_stack w))).
Definition demo_tail : NetOp RefTcp RefUdp := OpTail 1 60 default_tuning (λ _, true).
Definition demo_run (op : NetOp RefTcp RefUdp) (w : NetWorld RefTcp RefUdp) : NetWorld RefTcp RefUdp :=
  default w (run_op map_to_list demo_values op w).
Definition demo_ops : list (NetOp RefTcp RefUdp) :=
  [demo_tail; OpDnsCheck 0 1; OpDnsResolved 0 [V4 93 184 216 34]; demo_tail; OpFrame (replicate 60 Byte.x00) 2;
   OpConnectCheck 1 2; OpConnectDone 1 true; demo_tail; OpAccept 3 8080; OpInbound 3].
Definition demo_queried_world : NetWorld RefTcp RefUdp := demo_run (OpWire (demo_queried demo_world)) demo_world.
Definition demo_final : NetWorld RefTcp RefUdp := foldl (λ w op, demo_run op w) demo_queried_world demo_ops.

Example demo_log :
  w_log demo_final =
    [Checked "ab.c" 53 demo_policy true; Resolved "ab.c" [V4 93 184 216 34];
     Checked "ab.c" 443 demo_policy true; Dialed (V4 93 184 216 34, 443)] ∧
  size (flows (w_stack demo_final)) = 1%nat ∧ length (inbound (w_stack demo_final)) = 1%nat.
Proof. vm_compute. done. Qed.

Lemma demo_start : net_start demo_world.
Proof. split_and!; [done|done|]. eexists 5, _. split; [vm_compute; reflexivity|]. right. vm_compute. reflexivity. Qed.
Lemma demo_step op w :
  legal op w → bool_decide (is_Some (run_op map_to_list demo_values op w)) = true →
  net_step map_to_list demo_values w (demo_run op w).
Proof.
  intros Hl [w' Hw]%bool_decide_eq_true. exists op. split; [done|]. unfold demo_run. by rewrite Hw.
Qed.
Fixpoint demo_fine (ops : list (NetOp RefTcp RefUdp)) (w : NetWorld RefTcp RefUdp) : bool :=
  match ops with
  | [] => true
  | op :: ops =>
      match op with OpWire _ => false | _ => true end && bool_decide (is_Some (run_op map_to_list demo_values op w)) &&
      demo_fine ops (demo_run op w)
  end.
Lemma demo_steps ops w :
  demo_fine ops w = true → rtc (net_step map_to_list demo_values) w (foldl (λ w op, demo_run op w) w ops).
Proof.
  revert w. induction ops as [|op ops IH]; intros w Hf; [apply rtc_refl|]. cbn [demo_fine] in Hf.
  apply andb_true_iff in Hf as [[Hl Hr]%andb_true_iff Hf]. eapply rtc_l; [|by apply IH].
  apply demo_step; [by destruct op|done].
Qed.
Lemma demo_reached : net_reachable map_to_list demo_values demo_final.
Proof.
  exists demo_world. split; [apply demo_start|].
  eapply rtc_l; [apply (demo_step (OpWire (demo_queried demo_world))); [|vm_compute; reflexivity]|].
  { intros h. unfold demo_queried. rewrite !kind_put_udp; [reflexivity|vm_compute; reflexivity..]. }
  apply demo_steps. vm_compute. reflexivity.
Qed.

Lemma stack_never_panics_witness :
  ∃ w', run_op map_to_list demo_values (OpUdp (mkNewDatagram 9 (V4 192 168 1 7, 4000) 53 [Byte.x61]) 4) demo_final = Some w'.
Proof.
  apply (stack_never_panics map_to_list (λ m, reflexivity _) demo_values demo_final _ demo_reached). exact I.
Defined.
Lemma stack_bounded_witness : (size (resolved (w_stack demo_final)) ≤ 4096)%nat ∧ resolved (w_stack demo_final) !! V4 93 184 216 34 = Some "ab.c"%string.
Proof.
  destruct (stack_bounded map_to_list (λ m, reflexivity _) demo_values demo_final demo_reached)
    as (_ & _ & Hr & _).
  split; [exact Hr|]. vm_compute. reflexivity.
Defined.
Lemma egress_guard_witness : private_or_local (V4 93 184 216 34) = false.
Proof.
  apply (egress_guard map_to_list (λ m, reflexivity _) demo_values demo_final
    [Checked "ab.c" 53 demo_policy true; Resolved "ab.c" [V4 93 184 216 34]; Checked "ab.c" 443 demo_policy true] []
    (V4 93 184 216 34, 443) demo_reached).
  vm_compute. reflexivity.
Defined.
