(* ===== verification/Template.v ===== *)
(** * Template: the format templates of the command line

    Models the lexer, the parser and the checks of
    [ward-cli/src/template.rs], the part of Go's text/template that the
    [--format] flags accept.  Text is a list of characters, each its code
    point.  The Unicode tables and the reading of floating point numbers are
    classes; the errors are constructors that stand for the messages. *)

From stdpp Require Import base list numbers option strings gmap.
From Stdlib Require Import ZArith Lia Ascii.
From S2P Require Import Prelude Text.
Local Open Scope Z_scope.

Abbreviation Str := (list Z).
Definition ch (c : ascii) : Z := Z.of_N (N_of_ascii c).
(** A literal of the sources; all of them are ASCII. *)
Definition lit (s : string) : Str := ch <$> chars s.

(** ** Characters *)

Class Unicode := {
  is_alphanumeric : Z → bool;
  to_upper : Z → Str;
  str_lower : Str → Str;
}.
Definition ascii_digit (c : Z) : bool := (48 <=? c) && (c <=? 57).
Definition ascii_letter (c : Z) : bool := ((65 <=? c) && (c <=? 90)) || ((97 <=? c) && (c <=? 122)).

(** [char::is_whitespace]. *)
Definition is_white (c : Z) : bool :=
  ((9 <=? c) && (c <=? 13)) || (c =? 32) || (c =? 0x85) || (c =? 0xA0) || (c =? 0x1680) ||
  ((0x2000 <=? c) && (c <=? 0x200A)) || (c =? 0x2028) || (c =? 0x2029) || (c =? 0x202F) || (c =? 0x205F) || (c =? 0x3000).

Class UnicodeLaws `{Unicode} : Prop := {
  alphanumeric_ascii c : 0 ≤ c < 128 → is_alphanumeric c = ascii_digit c || ascii_letter c;
  alphanumeric_not_white c : is_alphanumeric c = true → is_white c = false;
}.

(** [str::trim_start], [trim_end], [trim] and [trim_start_matches(c)]. *)
Fixpoint drop_while (f : Z → bool) (s : Str) : Str :=
  match s with [] => [] | c :: r => if f c then drop_while f r else s end.
Definition trim_start (s : Str) : Str := drop_while is_white s.
Definition trim_end (s : Str) : Str := rev (drop_while is_white (rev s)).
Definition trim (s : Str) : Str := trim_end (trim_start s).

Fixpoint take_while (f : Z → bool) (s : Str) : Str * Str :=
  match s with
  | [] => ([], [])
  | c :: r => if f c then let '(a, b) := take_while f r in (c :: a, b) else ([], s)
  end.

(** [str::strip_prefix], [starts_with], [ends_with] and [split_once]. *)
Fixpoint strip (p s : Str) : option Str :=
  match p, s with
  | [], _ => Some s
  | a :: p, b :: s => if a =? b then strip p s else None
  | _ :: _, [] => None
  end.
Definition begins (p s : Str) : bool := match strip p s with Some _ => true | None => false end.
Definition finishes (p s : Str) : bool := begins (rev p) (rev s).
Fixpoint cut (p s : Str) : option (Str * Str) :=
  match strip p s with
  | Some rest => Some ([], rest)
  | None =>
      match s with
      | [] => None
      | c :: s => match cut p s with Some (a, b) => Some (c :: a, b) | None => None end
      end
  end.
(** [str::replace]; the pattern is not empty, the fuel is the length. *)
Fixpoint replace_all (fuel : nat) (p by_ s : Str) : Str :=
  match fuel with
  | O => s
  | S fuel => match cut p s with Some (a, b) => a ++ by_ ++ replace_all fuel p by_ b | None => s end
  end.
Definition replace (p by_ s : Str) : Str := replace_all (S (length s)) p by_ s.
(** [[..].join(sep)]. *)
Fixpoint join_str (sep : Str) (l : list Str) : Str :=
  match l with [] => [] | [s] => s | s :: l => s ++ sep ++ join_str sep l end.

(** ** Values *)

Class F64 := {
  F : Type;
  f64_parse : Str → option F;
  f64_show : F → Str;
  f64_whole : F → option Str;
  f64_fixed : nat → F → Str;
  f64_zero : F → bool;
  f64_of_int : Z → F;
  f64_compare : F → F → option comparison;
  f64_eq_dec : EqDecision F;
}.
#[export] Existing Instance f64_eq_dec.

(** [serde_json::Number]: an integer of 64 bits, signed or not, or a float. *)
Inductive Num `{F64} := NInt (z : Z) | NFloat (f : F).
(** [serde_json::Value]; an object lists its keys in order. *)
Inductive Value `{F64} :=
| VNull
| VBool (b : bool)
| VNumber (n : Num)
| VString (s : Str)
| VArray (l : list Value)
| VObject (m : list (Str * Value)).

Section syntax.
Context `{HF : F64}.
#[export] Instance Num_eq_dec : EqDecision Num.
Proof. solve_decision. Defined.

(** A literal token holds a string, a number, a truth value or null. *)
Inductive Token :=
| TWord (name : Str)
| TDot
| TField (path : list Str)
| TChain (path : list Str)
| TVariable (name : Str) (path : list Str)
| TLiteral (v : Value)
| TOpen | TClose | TPipe | TComma | TDeclare.

Inductive Operand : Type :=
| ODot
| OField (path : list Str)
| OVariable (name : Str) (path : list Str)
| OLiteral (v : Value)
| OFunction (name : Str)
| OGroup (inner : Pipeline) (path : list Str)
with Pipeline : Type := mkPipeline (p_variables : list Str) (p_commands : list (list Operand)).

Definition p_variables (p : Pipeline) : list Str := let 'mkPipeline v _ := p in v.
Definition p_commands (p : Pipeline) : list (list Operand) := let 'mkPipeline _ c := p in c.

(** [Branch] is spelled out in the three nodes that have one. *)
Inductive Node :=
| NText (text : Str)
| NAction (p : Pipeline)
| NIf (p : Pipeline) (then_ otherwise : list Node)
| NWith (p : Pipeline) (then_ otherwise : list Node)
| NRange (p : Pipeline) (then_ otherwise : list Node).

Inductive Stop := StopEnd | StopElse (rest : list Token) | StopEof.
Inductive Piece := PText (text : Str) | PAction (tokens : list Token).

Inductive TemplateError :=
| UnclosedAction
| Unexpected
| UnterminatedString
| BadCharacter
| BadNumber
| TooDeep
| MissingValue
| NonExecutable
| NotAFunction (name : Str)
| UnclosedParen
| Unsupported (word : Str)
| RangeVariables
| MissingEnd
| UnexpectedElse
| UnexpectedStop
| UnknownField (name : Str)
(** The fuel of a loop ran out; shown not to happen. *)
| OutOfFuel.

Definition FUNCTIONS : list Str :=
  lit <$> ["and"; "or"; "not"; "eq"; "ne"; "lt"; "le"; "gt"; "ge"; "index"; "len"; "slice"; "join"; "split"; "lower"; "upper";
           "title"; "truncate"; "json"; "print"; "println"; "printf"]%string.
Definition is_function (name : Str) : bool := bool_decide (name ∈ FUNCTIONS).

(** ** Lexing *)

Context `{HU : Unicode}.

Definition is_word_char (c : Z) : bool := is_alphanumeric c || (c =? ch "_").
Definition word (s : Str) : Str * Str := take_while is_word_char s.

(** The path at the start of the text; the fuel is its length. *)
Fixpoint field_path (fuel : nat) (s : Str) : list Str * Str :=
  match fuel, s with
  | S fuel, d :: c :: r =>
      if (d =? ch ".") && is_word_char c then
        let '(name, rest) := word (c :: r) in
        let '(path, rest) := field_path fuel rest in (name :: path, rest)
      else ([], s)
  | _, _ => ([], s)
  end.

Definition unescape (c : Z) : Z :=
  if c =? ch "n" then 10 else if c =? ch "t" then 9 else if c =? ch "r" then 13 else c.

(** The text after the opening quote. *)
Fixpoint quoted (s : Str) : result (Str * Str) TemplateError :=
  match s with
  | [] => Err UnterminatedString
  | c :: r =>
      if c =? 34 then Ok ([], r)
      else if c =? 92 then
        match r with
        | [] => Err UnterminatedString
        | e :: r => let? x := quoted r in Ok (unescape e :: x.1, x.2)
        end
      else let? x := quoted r in Ok (c :: x.1, x.2)
  end.

(** The text after the opening quote. *)
Definition char_literal (s : Str) : result (Z * Str) TemplateError :=
  let? x :=
    match s with
    | c :: r =>
        match r with
        | e :: r' => if c =? 92 then Ok (unescape e, r') else if c =? 39 then Err BadCharacter else Ok (c, r)
        | [] => if c =? 39 then Err BadCharacter else Ok (c, r)
        end
    | [] => Err BadCharacter
    end in
  match x.2 with
  | q :: r => if q =? 39 then Ok (x.1, r) else Err BadCharacter
  | [] => Err BadCharacter
  end.

(** [str::parse::<i64>] on a text that starts with a digit or a minus. *)
Fixpoint digits (acc : Z) (s : Str) : option Z :=
  match s with
  | [] => Some acc
  | c :: s => if ascii_digit c then digits (acc * 10 + (c - 48)) s else None
  end.
Definition parse_i64 (s : Str) : option Z :=
  z ← match s with
      | [] => None
      | c :: r => if c =? ch "-" then match r with [] => None | _ => Z.opp <$> digits 0 r end else digits 0 s
      end;
  if (- 2 ^ 63 <=? z) && (z <? 2 ^ 63) then Some z else None.
Definition parse_number (s : Str) : result Value TemplateError :=
  match parse_i64 s with
  | Some z => Ok (VNumber (NInt z))
  | None => match f64_parse s with Some f => Ok (VNumber (NFloat f)) | None => Err BadNumber end
  end.

Definition word_token (name : Str) : Token :=
  if bool_decide (name = lit "true") then TLiteral (VBool true)
  else if bool_decide (name = lit "false") then TLiteral (VBool false)
  else if bool_decide (name = lit "nil") then TLiteral VNull
  else TWord name.

(** One token, or white space, at the start of [c :: r]; [prev] is the
    character before it and [last] the token before it. *)
Definition lex_one (prev : option Z) (last : option Token) (c : Z) (r : Str) : result (option Token * Str) TemplateError :=
  if is_white c then Ok (None, r)
  else if c =? ch "(" then Ok (Some TOpen, r)
  else if c =? ch ")" then Ok (Some TClose, r)
  else if c =? ch "|" then Ok (Some TPipe, r)
  else if c =? ch "," then Ok (Some TComma, r)
  else if (c =? ch ":") && match r with e :: _ => e =? ch "=" | [] => false end then Ok (Some TDeclare, tail r)
  else if c =? 34 then let? x := quoted r in Ok (Some (TLiteral (VString x.1)), x.2)
  else if c =? ch "`" then
    match cut (lit "`") r with
    | Some (text, rest) => Ok (Some (TLiteral (VString text)), rest)
    | None => Err UnterminatedString
    end
  else if c =? 39 then let? x := char_literal r in Ok (Some (TLiteral (VNumber (NInt x.1))), x.2)
  else if c =? ch "$" then
    let '(name, rest) := word r in
    let '(path, rest) := field_path (length rest) rest in Ok (Some (TVariable (c :: name) path), rest)
  else if c =? ch "." then
    match field_path (S (length r)) (c :: r) with
    | ([], _) => Ok (Some TDot, r)
    | (path, rest) =>
        match last, prev with
        | Some TClose, Some b => Ok (Some (if b =? ch ")" then TChain path else TField path), rest)
        | _, _ => Ok (Some (TField path), rest)
        end
    end
  else if ascii_digit c || ((c =? ch "-") && match r with e :: _ => ascii_digit e | [] => false end) then
    let '(more, rest) := take_while (λ d, ascii_digit d || (d =? ch ".")) r in
    let? v := parse_number (c :: more) in Ok (Some (TLiteral v), rest)
  else if is_word_char c then
    let '(name, rest) := word (c :: r) in Ok (Some (word_token name), rest)
  else Err Unexpected.

(** The character before the rest of [c :: r]. *)
Definition before (c : Z) (r rest : Str) : option Z := last (take (length (c :: r) - length rest) (c :: r)).
(** The fuel is the length of the text. *)
Fixpoint lex_loop (fuel : nat) (prev : option Z) (last : option Token) (s : Str) : result (list Token) TemplateError :=
  match s, fuel with
  | [], _ => Ok []
  | _, O => Err OutOfFuel
  | c :: r, S fuel =>
      let? x := lex_one prev last c r in
      match x.1 with
      | None => lex_loop fuel (before c r x.2) last x.2
      | Some t => let? ts := lex_loop fuel (before c r x.2) (Some t) x.2 in Ok (t :: ts)
      end
  end.
Definition lex (action : Str) : result (list Token) TemplateError := lex_loop (length action) None None action.

(** ** Splitting *)

Definition ACTION_OPEN : Str := lit "{{".
Definition ACTION_CLOSE : Str := lit "}}".
Definition COMMENT_OPEN : Str := lit "/*".
Definition COMMENT_CLOSE : Str := lit "*/".

Definition trim_marked_leading (action : Str) : option Str :=
  match action with m :: c :: r => if (m =? ch "-") && is_white c then Some (c :: r) else None | _ => None end.
Definition trim_marked_trailing (action : Str) : option Str :=
  match rev action with m :: c :: r => if (m =? ch "-") && is_white c then Some (rev (c :: r)) else None | _ => None end.

(** The scan for the closing braces: the action and what follows them. *)
Fixpoint scan_action (quote : option Z) (s : Str) : option (Str * Str) :=
  match s with
  | [] => None
  | c :: r =>
      match quote with
      | Some q =>
          if ((q =? 34) || (q =? 39)) && (c =? 92) then
            match r with
            | [] => None
            | e :: r => '(a, b) ← scan_action quote r; Some (c :: e :: a, b)
            end
          else '(a, b) ← scan_action (if c =? q then None else quote) r; Some (c :: a, b)
      | None =>
          if (c =? 34) || (c =? ch "`") || (c =? 39) then '(a, b) ← scan_action (Some c) r; Some (c :: a, b)
          else match strip ACTION_CLOSE s with
               | Some rest => Some ([], rest)
               | None => '(a, b) ← scan_action None r; Some (c :: a, b)
               end
      end
  end.
(** [action_end], with the two parts it separates. *)
Definition action_end (tail : Str) : option (Str * Str) :=
  let body := trim_start (drop_while (λ c, c =? ch "-") tail) in
  let skipped := take (length tail - length body) tail in
  if begins COMMENT_OPEN body then
    '(comment, rest) ← cut COMMENT_CLOSE body;
    '(more, after) ← cut ACTION_CLOSE rest;
    Some (skipped ++ comment ++ COMMENT_CLOSE ++ more, after)
  else '(a, b) ← scan_action None body; Some (skipped ++ a, b).

(** The fuel is the length of the text. *)
Fixpoint split_pieces (fuel : nat) (trim_next : bool) (rest : Str) : result (list Piece) TemplateError :=
  match cut ACTION_OPEN rest, fuel with
  | None, _ => Ok [PText (if trim_next then trim_start rest else rest)]
  | Some _, O => Err OutOfFuel
  | Some (text, tail), S fuel =>
      match action_end tail with
      | None => Err UnclosedAction
      | Some (action, after) =>
          let text := if trim_next then trim_start text else text in
          let '(text, action) :=
            match trim_marked_leading action with Some stripped => (trim_end text, stripped) | None => (text, action) end in
          let '(trim_next, action) :=
            match trim_marked_trailing action with Some stripped => (true, stripped) | None => (false, action) end in
          let action := trim action in
          let? here :=
            if begins COMMENT_OPEN action && finishes COMMENT_CLOSE action then Ok []
            else let? tokens := lex action in Ok [PAction tokens] in
          let? more := split_pieces fuel trim_next after in
          Ok (PText text :: here ++ more)
      end
  end.
Definition split_template (body : Str) : result (list Piece) TemplateError := split_pieces (length body) false body.

(** ** Parsing

    The position in the tokens is the list of those that follow.  The fuel of
    the mutual recursion is discussed with [parse_enough]. *)

Definition MAX_NESTING_DEPTH : nat := 200.
Definition MAX_RANGE_VARIABLES : nat := 2.
Definition check_depth (depth : nat) : result unit TemplateError :=
  if (MAX_NESTING_DEPTH <? depth)%nat then Err TooDeep else Ok tt.

(** [$a :=] or [$a, $b :=]: the names and the tokens after it. *)
Fixpoint declaration (ts : list Token) : option (list Str * list Token) :=
  match ts with
  | TVariable name [] :: TComma :: ts => '(names, rest) ← declaration ts; Some (name :: names, rest)
  | TVariable name [] :: TDeclare :: ts => Some ([name], ts)
  | _ => None
  end.

Fixpoint parse_pipeline (fuel depth : nat) (ts : list Token) : result (Pipeline * list Token) TemplateError :=
  match fuel with
  | O => Err OutOfFuel
  | S fuel =>
      check_depth depth ;?
      let '(variables, ts) := match declaration ts with Some x => x | None => ([], ts) end in
      let? x := parse_commands fuel depth ts in
      Ok (mkPipeline variables x.1, x.2)
  end
with parse_commands (fuel depth : nat) (ts : list Token) : result (list (list Operand) * list Token) TemplateError :=
  match fuel with
  | O => Err OutOfFuel
  | S fuel =>
      let? x := parse_command fuel depth ts in
      match x.1 with
      | [] => Err MissingValue
      | OLiteral _ :: _ :: _ => Err NonExecutable
      | _ =>
          match x.2 with
          | TPipe :: ts => let? y := parse_commands fuel depth ts in Ok (x.1 :: y.1, y.2)
          | ts => Ok ([x.1], ts)
          end
      end
  end
with parse_command (fuel depth : nat) (ts : list Token) : result (list Operand * list Token) TemplateError :=
  match fuel with
  | O => Err OutOfFuel
  | S fuel =>
      match ts with
      | [] | TPipe :: _ | TClose :: _ => Ok ([], ts)
      | t :: ts =>
          let? x := parse_operand fuel depth t ts in
          let? y := parse_command fuel depth x.2 in
          Ok (x.1 :: y.1, y.2)
      end
  end
with parse_operand (fuel depth : nat) (t : Token) (ts : list Token) : result (Operand * list Token) TemplateError :=
  match fuel with
  | O => Err OutOfFuel
  | S fuel =>
      match t with
      | TDot => Ok (ODot, ts)
      | TField path | TChain path => Ok (OField path, ts)
      | TVariable name path => Ok (OVariable name path, ts)
      | TLiteral v => Ok (OLiteral v, ts)
      | TWord name => if is_function name then Ok (OFunction name, ts) else Err (NotAFunction name)
      | TOpen =>
          let? x := parse_pipeline fuel (S depth) ts in
          match x.2 with
          | TClose :: TChain path :: ts => Ok (OGroup x.1 path, ts)
          | TClose :: ts => Ok (OGroup x.1 [], ts)
          | _ => Err UnclosedParen
          end
      | _ => Err Unexpected
      end
  end.
Definition parse_pipeline_tokens (ts : list Token) (depth : nat) : result Pipeline TemplateError :=
  let? x := parse_pipeline (4 * length ts + 4) depth ts in
  match x.2 with [] => Ok x.1 | _ => Err Unexpected end.

Definition branch_node (keyword : Str) : Pipeline → list Node → list Node → Node :=
  if bool_decide (keyword = lit "if") then NIf else if bool_decide (keyword = lit "with") then NWith else NRange.
Definition is_branch_word (w : Str) : bool := bool_decide (w ∈ lit <$> ["if"; "with"; "range"]%string).
Definition is_unsupported (w : Str) : bool :=
  bool_decide (w ∈ lit <$> ["define"; "template"; "block"; "break"; "continue"]%string).

(** How an action starts. *)
Inductive Head := HEnd | HElse (rest : list Token) | HBranch (keyword : Str) (rest : list Token) | HUnsupported (w : Str) | HAction | HEmpty.
Definition action_head (tokens : list Token) : Head :=
  match tokens with
  | TWord w :: rest =>
      if bool_decide (w = lit "end") then HEnd
      else if bool_decide (w = lit "else") then HElse rest
      else if is_branch_word w then HBranch w rest
      else if is_unsupported w then HUnsupported w
      else HAction
  | _ :: _ => HAction
  | [] => HEmpty
  end.

Fixpoint parse_block (fuel depth : nat) (ps : list Piece) : result (list Node * Stop * list Piece) TemplateError :=
  match fuel with
  | O => Err OutOfFuel
  | S fuel => check_depth depth ;? block_loop fuel depth ps
  end
with block_loop (fuel depth : nat) (ps : list Piece) : result (list Node * Stop * list Piece) TemplateError :=
  match fuel with
  | O => Err OutOfFuel
  | S fuel =>
      match ps with
      | [] => Ok ([], StopEof, [])
      | PText text :: ps =>
          let? x := block_loop fuel depth ps in
          Ok (if bool_decide (text = []) then x.1.1 else NText text :: x.1.1, x.1.2, x.2)
      | PAction tokens :: ps =>
          match action_head tokens with
          | HEnd => Ok ([], StopEnd, ps)
          | HElse rest => Ok ([], StopElse rest, ps)
          | HBranch keyword rest =>
              let? x := parse_branch fuel keyword rest ps (S depth) in
              let? y := block_loop fuel depth x.2 in
              Ok (x.1 :: y.1.1, y.1.2, y.2)
          | HUnsupported w => Err (Unsupported w)
          | HAction =>
              let? p := parse_pipeline_tokens tokens depth in
              let? y := block_loop fuel depth ps in
              Ok (NAction p :: y.1.1, y.1.2, y.2)
          | HEmpty => Err MissingValue
          end
      end
  end
with parse_branch (fuel : nat) (keyword : Str) (tokens : list Token) (ps : list Piece) (depth : nat)
    : result (Node * list Piece) TemplateError :=
  match fuel with
  | O => Err OutOfFuel
  | S fuel =>
      check_depth depth ;?
      let? p := parse_pipeline_tokens tokens depth in
      if bool_decide (keyword = lit "range") && (MAX_RANGE_VARIABLES <? length (p_variables p))%nat then Err RangeVariables else
      let? x := parse_block fuel depth ps in
      let? y :=
        match x.1.2 with
        | StopEnd => Ok ([], x.2)
        | StopEof => Err MissingEnd
        | StopElse [] =>
            let? z := parse_block fuel depth x.2 in
            match z.1.2 with
            | StopEnd => Ok (z.1.1, z.2)
            | StopElse _ => Err UnexpectedElse
            | StopEof => Err MissingEnd
            end
        | StopElse (TWord w :: tail) =>
            if bool_decide (w = keyword) && negb (bool_decide (keyword = lit "range")) then
              let? z := parse_branch fuel keyword tail x.2 (S depth) in Ok ([z.1], z.2)
            else Err UnexpectedElse
        | StopElse _ => Err UnexpectedElse
        end in
      Ok (branch_node keyword p x.1.1 y.1, y.2)
  end.
Definition parse_pieces (ps : list Piece) : result (list Node) TemplateError :=
  let? x := parse_block (3 * length ps + 3) 0 ps in
  match x.1.2 with StopEof => Ok x.1.1 | _ => Err UnexpectedStop end.

(** ** Templates and their checks *)

Definition TABLE_PREFIX : Str := lit "table ".
Definition JSON_SHORTHAND : Str := lit "json".
Definition JSON_TEMPLATE : Str := lit "{{json .}}".
Definition ANY_FIELD : Str := lit "*".
Definition LABELS_FIELD : Str := lit "Labels".
Definition LABEL_METHOD : Str := lit "Label".

Record Template := mkTemplate { table : bool; t_nodes : list Node; columns : list (Str * Str) }.

Definition names_field (column name : Str) : bool :=
  bool_decide (column = ANY_FIELD) || bool_decide (column = name) || (finishes (lit ".") column && begins column name).
(** The text after the last dot. *)
Fixpoint rsplit_last (s : Str) : Str :=
  match s with
  | [] => []
  | c :: r => if existsb (λ d, d =? ch ".") r then rsplit_last r else if c =? ch "." then r else s
  end.
Definition title_of (cols : list (Str * Str)) (name : Str) : option Str :=
  '(_, (column, title)) ← list_find (λ c, names_field c.1 name = true) cols;
  Some (if bool_decide (column = ANY_FIELD) then rsplit_last name ≫= to_upper else title).

Definition check_field (cols : list (Str * Str)) (path : list Str) (is_head : bool) : result unit TemplateError :=
  let name := join_str (lit ".") path in
  if is_head && bool_decide (name = LABEL_METHOD) then
    if existsb (λ c, bool_decide (c.1 = LABELS_FIELD)) cols then Ok tt else Err (UnknownField name)
  else match title_of cols name with Some _ => Ok tt | None => Err (UnknownField name) end.

Definition seq_all {A} (f : A → result unit TemplateError) : list A → result unit TemplateError :=
  fix go l := match l with [] => Ok tt | x :: l => f x ;? go l end.

Fixpoint check_operand (cols : list (Str * Str)) (at_root is_head : bool) (o : Operand) : result unit TemplateError :=
  match o with
  | OField path => if at_root then check_field cols path is_head else Ok tt
  | OGroup inner _ => check_pipeline cols at_root inner
  | _ => Ok tt
  end
with check_pipeline (cols : list (Str * Str)) (at_root : bool) (p : Pipeline) : result unit TemplateError :=
  match p with
  | mkPipeline _ commands =>
      seq_all (λ command, match command with
                          | [] => Ok tt
                          | o :: rest => check_operand cols at_root true o ;? seq_all (check_operand cols at_root false) rest
                          end) commands
  end.
Fixpoint check_node (cols : list (Str * Str)) (at_root : bool) (n : Node) : result unit TemplateError :=
  match n with
  | NText _ => Ok tt
  | NAction p => check_pipeline cols at_root p
  | NIf p a b =>
      check_pipeline cols at_root p ;? seq_all (check_node cols at_root) a ;? seq_all (check_node cols at_root) b
  | NWith p a b | NRange p a b =>
      check_pipeline cols at_root p ;? seq_all (check_node cols false) a ;? seq_all (check_node cols at_root) b
  end.
Definition check_nodes (cols : list (Str * Str)) (at_root : bool) : list Node → result unit TemplateError :=
  seq_all (check_node cols at_root).

Definition template_parse (format : Str) (cols : list (Str * Str)) : result Template TemplateError :=
  let '(table, body) := match strip TABLE_PREFIX format with Some body => (true, body) | None => (false, format) end in
  let body := if bool_decide (body = JSON_SHORTHAND) then JSON_TEMPLATE else body in
  let body := replace (lit "\n") [10] (replace (lit "\t") [9] body) in
  let? pieces := split_template body in
  let? nodes := parse_pieces pieces in
  check_nodes cols true nodes ;?
  Ok (mkTemplate table nodes cols).
End syntax.
