(* ===== verification/TemplateParse.v ===== *)
(** * TemplateParse: what the template parser accepts

    The syntax trees the parser can return, a printer for them, and the
    lemmas that relate the two; the fuel of the parser is enough. *)

From stdpp Require Import base list numbers option strings gmap.
From Stdlib Require Import ZArith Lia Ascii.
From S2P Require Import Prelude Text Template.
Local Open Scope nat_scope.

Section parse.
Context `{HF : F64} `{HU : Unicode}.
Implicit Types (o : Operand) (p : Pipeline) (n : Node) (ts : list Token) (ps : list Piece).

(** ** Induction on trees *)

Section nested.
Context (P : Operand → Prop) (Q : Pipeline → Prop).
Context (HDot : P ODot) (HField : ∀ path, P (OField path)) (HVar : ∀ name path, P (OVariable name path))
  (HLit : ∀ v, P (OLiteral v)) (HFun : ∀ name, P (OFunction name)) (HGroup : ∀ inner path, Q inner → P (OGroup inner path))
  (HPipe : ∀ vs cs, Forall (Forall P) cs → Q (mkPipeline vs cs)).
Fixpoint operand_nested o : P o :=
  match o with
  | ODot => HDot
  | OField path => HField path
  | OVariable name path => HVar name path
  | OLiteral v => HLit v
  | OFunction name => HFun name
  | OGroup inner path => HGroup inner path (pipeline_nested inner)
  end
with pipeline_nested p : Q p :=
  match p with
  | mkPipeline vs cs =>
      HPipe vs cs
        ((fix go cs : Forall (Forall P) cs :=
            match cs with
            | [] => Forall_nil_2 _
            | c :: cs =>
                Forall_cons_2 _ c cs
                  ((fix go c : Forall P c :=
                      match c with [] => Forall_nil_2 _ | o :: c => Forall_cons_2 _ o c (operand_nested o) (go c) end) c)
                  (go cs)
            end) cs)
  end.
End nested.

Section nested_nodes.
Context (P : Node → Prop).
Context (HText : ∀ t, P (NText t)) (HAction : ∀ p, P (NAction p))
  (HIf : ∀ p a b, Forall P a → Forall P b → P (NIf p a b))
  (HWith : ∀ p a b, Forall P a → Forall P b → P (NWith p a b))
  (HRange : ∀ p a b, Forall P a → Forall P b → P (NRange p a b)).
Fixpoint node_nested n : P n :=
  let all := fix all l : Forall P l :=
    match l with [] => Forall_nil_2 _ | n :: l => Forall_cons_2 _ n l (node_nested n) (all l) end in
  match n with
  | NText t => HText t
  | NAction p => HAction p
  | NIf p a b => HIf p a b (all a) (all b)
  | NWith p a b => HWith p a b (all a) (all b)
  | NRange p a b => HRange p a b (all a) (all b)
  end.
End nested_nodes.

(** ** Well-formed trees *)

Definition command_ok (c : list Operand) : bool :=
  match c with [] => false | OLiteral _ :: _ :: _ => false | _ => true end.
Fixpoint operand_ok (depth : nat) o : bool :=
  match o with
  | OFunction name => is_function name
  | OGroup inner _ => pipeline_ok (S depth) inner
  | _ => true
  end
with pipeline_ok (depth : nat) p : bool :=
  match p with
  | mkPipeline _ cs =>
      (depth <=? MAX_NESTING_DEPTH) && match cs with [] => false | _ => true end &&
      forallb command_ok cs && forallb (forallb (operand_ok depth)) cs
  end.
Fixpoint node_ok (depth : nat) n : bool :=
  match n with
  | NText t => negb (bool_decide (t = []))
  | NAction p => pipeline_ok depth p
  | NIf p a b | NWith p a b => pipeline_ok (S depth) p && forallb (node_ok (S depth)) a && forallb (node_ok (S depth)) b
  | NRange p a b =>
      pipeline_ok (S depth) p && (length (p_variables p) <=? MAX_RANGE_VARIABLES) &&
      forallb (node_ok (S depth)) a && forallb (node_ok (S depth)) b
  end.
Definition tree_ok (ns : list Node) : bool := forallb (node_ok 0) ns.

(** ** Printing *)

Fixpoint show_variables (vs : list Str) : list Token :=
  match vs with
  | [] => []
  | [v] => [TVariable v []; TDeclare]
  | v :: vs => TVariable v [] :: TComma :: show_variables vs
  end.
Fixpoint join_pipes (l : list (list Token)) : list Token :=
  match l with [] => [] | [c] => c | c :: l => c ++ TPipe :: join_pipes l end.
Fixpoint show_operand o : list Token :=
  match o with
  | ODot => [TDot]
  | OField path => [TField path]
  | OVariable name path => [TVariable name path]
  | OLiteral v => [TLiteral v]
  | OFunction name => [TWord name]
  | OGroup inner path => TOpen :: show_pipeline inner ++ TClose :: match path with [] => [] | _ => [TChain path] end
  end
with show_pipeline p : list Token :=
  match p with mkPipeline vs cs => show_variables vs ++ join_pipes (List.map (List.flat_map show_operand) cs) end.
Abbreviation show_command := (List.flat_map show_operand).
Abbreviation show_commands cs := (join_pipes (List.map show_command cs)).

Definition show_branch (show : list Node → list Piece) (keyword : string) (p : Pipeline) (a b : list Node) : list Piece :=
  PAction (TWord (lit keyword) :: show_pipeline p) :: show a ++
  match b with [] => [] | _ => PAction [TWord (lit "else")] :: show b end ++ [PAction [TWord (lit "end")]].
Fixpoint show_node n : list Piece :=
  match n with
  | NText t => [PText t]
  | NAction p => [PAction (show_pipeline p)]
  | NIf p a b => show_branch (List.flat_map show_node) "if" p a b
  | NWith p a b => show_branch (List.flat_map show_node) "with" p a b
  | NRange p a b => show_branch (List.flat_map show_node) "range" p a b
  end.
Definition show_nodes (ns : list Node) : list Piece := List.flat_map show_node ns.

(** ** The parser reads what the printer wrote *)

Definition starts_operand (t : Token) : bool :=
  match t with TClose | TPipe | TComma | TDeclare | TChain _ => false | _ => true end.
Definition stops_command (ts : list Token) : bool :=
  match ts with [] | TPipe :: _ | TClose :: _ => true | _ => false end.

Lemma show_operand_head o : ∃ t ts, show_operand o = t :: ts ∧ starts_operand t = true.
Proof. destruct o; cbn; by do 2 eexists. Qed.

Lemma check_depth_ok depth : depth ≤ MAX_NESTING_DEPTH → check_depth depth = Ok tt.
Proof. intros Hd. unfold check_depth. destruct (_ <? _) eqn:He; [apply Nat.ltb_lt in He; lia|done]. Qed.
Lemma check_depth_Ok depth u : check_depth depth = Ok u → depth ≤ MAX_NESTING_DEPTH.
Proof. unfold check_depth. destruct (_ <? _) eqn:He; [done|]. intros _. by apply Nat.ltb_ge in He. Qed.

Lemma declaration_shown v vs ts : declaration (show_variables (v :: vs) ++ ts) = Some (v :: vs, ts).
Proof.
  revert v. induction vs as [|w vs IH]; intros v; [done|].
  change (show_variables (v :: w :: vs)) with (TVariable v [] :: TComma :: show_variables (w :: vs)).
  cbn [app declaration]. by rewrite IH.
Qed.
(** A pipeline without variables does not look like a declaration. *)
Lemma declaration_none c rest :
  c ≠ [] → match rest with TComma :: _ | TDeclare :: _ => False | _ => True end →
  declaration (show_command c ++ rest) = None.
Proof.
  destruct c as [|o c]; [done|]. intros _ Hrest. cbn [List.flat_map].
  assert (Hnext : ∀ t r, show_command c ++ rest = t :: r → t ≠ TComma ∧ t ≠ TDeclare).
  { intros t r Heq. destruct c as [|o' c]; cbn [List.flat_map app] in Heq.
    - subst rest. destruct t; done.
    - destruct (show_operand_head o') as (t' & r' & Hs & Hst). rewrite Hs in Heq. injection Heq as <- _. by destruct t'. }
  destruct o as [|path|name [|]|v|name|inner path]; try done. cbn [show_operand app declaration].
  destruct (show_command c ++ rest) as [|t r] eqn:Hr; [done|]. destruct (Hnext t r eq_refl). by destruct t.
Qed.

Lemma join_pipes_cons c cs : cs ≠ [] → join_pipes (c :: cs) = c ++ TPipe :: join_pipes cs.
Proof. by destruct cs. Qed.

(** What the printed operand asks of the parser. *)
Definition reads_operand o : Prop :=
  ∀ depth fuel rest, operand_ok depth o = true → 4 * length (show_operand o) + 1 ≤ fuel →
    match rest with TChain _ :: _ => False | _ => True end →
    ∃ t ts, show_operand o ++ rest = t :: ts ∧ starts_operand t = true ∧ parse_operand fuel depth t ts = Ok (o, rest).
Definition reads_pipeline p : Prop :=
  ∀ depth fuel rest, pipeline_ok depth p = true → 4 * length (show_pipeline p) + 4 ≤ fuel →
    match rest with [] | TClose :: _ => True | _ => False end →
    parse_pipeline fuel depth (show_pipeline p ++ rest) = Ok (p, rest).

Lemma command_reads c depth fuel rest :
  Forall reads_operand c → forallb (operand_ok depth) c = true → 4 * length (show_command c) + 2 ≤ fuel →
  stops_command rest = true →
  parse_command fuel depth (show_command c ++ rest) = Ok (c, rest).
Proof.
  intros Hall. revert fuel rest. induction Hall as [|o c Ho Hc IH]; intros fuel rest Hok Hf Hs.
  - destruct fuel as [|fuel]; [lia|]. cbn. by destruct rest as [|[] ?].
  - cbn [List.flat_map forallb] in *. apply andb_true_iff in Hok as [Hok1 Hok2]. rewrite length_app in Hf.
    rewrite <- app_assoc. destruct fuel as [|fuel]; [lia|].
    destruct (Ho depth fuel (show_command c ++ rest)) as (t & ts & Heq & Hst & Hp); [done|lia| |].
    { destruct c as [|o' c]; cbn [List.flat_map app]; [by destruct rest as [|[] ?]|].
      destruct (show_operand_head o') as (t' & r' & -> & Hst'). by destruct t'. }
    rewrite Heq. cbn [parse_command].
    assert (Hgo : parse_command (S fuel) depth (t :: ts) =
      (let? x := parse_operand fuel depth t ts in let? y := parse_command fuel depth x.2 in Ok (x.1 :: y.1, y.2)))
      by (by destruct t).
    cbn [parse_command] in Hgo. rewrite Hgo, Hp. cbn [rbind fst snd]. rewrite IH; [done|done| |done].
    assert (1 ≤ length (show_operand o)) by (destruct (show_operand_head o) as (? & ? & -> & _); cbn; lia). lia.
Qed.

Lemma commands_read cs depth fuel rest :
  cs ≠ [] → Forall (Forall reads_operand) cs → forallb command_ok cs = true →
  forallb (forallb (operand_ok depth)) cs = true → 4 * length (show_commands cs) + 3 ≤ fuel →
  match rest with [] | TClose :: _ => True | _ => False end →
  parse_commands fuel depth (show_commands cs ++ rest) = Ok (cs, rest).
Proof.
  intros Hne Hall. revert fuel Hne. induction Hall as [|c cs Hc Hcs IH]; intros fuel Hne Hcok Hok Hf Hrest; [done|].
  cbn [forallb] in Hcok, Hok. apply andb_true_iff in Hcok as [Hc1 Hc2]. apply andb_true_iff in Hok as [Ho1 Ho2].
  destruct fuel as [|fuel]; [lia|]. cbn [parse_commands].
  assert (Hstep : ∀ r, stops_command r = true → 4 * length (show_command c) + 2 ≤ fuel →
    parse_command fuel depth (show_command c ++ r) = Ok (c, r)).
  { intros r Hr Hlen. by apply command_reads. }
  destruct cs as [|c' cs].
  - cbn [List.map join_pipes] in *. rewrite Hstep by (destruct rest as [|[] ?]; done || lia). cbn [rbind fst snd].
    destruct c as [|[] [|]]; try done; by destruct rest as [|[] ?].
  - cbn [List.map] in *. rewrite join_pipes_cons in Hf |- * by done. rewrite length_app in Hf. cbn [length] in Hf.
    rewrite <- app_assoc. cbn [app]. rewrite Hstep; [|done|lia]. cbn [rbind fst snd].
    rewrite (IH fuel); [|done|done|done|cbn [List.map]; lia|done].
    destruct c as [|[] [|]]; done.
Qed.

Lemma pipeline_reads p : reads_pipeline p.
Proof.
  refine (pipeline_nested reads_operand reads_pipeline _ _ _ _ _ _ _ p);
    try (intros; intros depth fuel rest Hok Hf Hrest; destruct fuel; [lia|]; do 2 eexists; split_and!; [done|done|];
         cbn; cbn in Hok; by rewrite ?Hok).
  - intros inner path IH depth fuel rest Hok Hf Hrest. cbn [show_operand] in *.
    exists TOpen, ((show_pipeline inner ++ TClose :: match path with [] => [] | _ => [TChain path] end) ++ rest).
    split_and!; [done|done|]. cbn [length] in Hf. rewrite length_app in Hf. cbn [length] in Hf. destruct fuel as [|fuel]; [lia|]. cbn [parse_operand].
    rewrite <- app_assoc. cbn [app]. rewrite IH; [|done|lia|done]. cbn [rbind fst snd].
    destruct path; cbn [app]; [by destruct rest as [|[] ?]|done].
  - intros vs cs IH depth fuel rest Hok Hf Hrest. cbn [pipeline_ok show_pipeline] in *.
    apply andb_true_iff in Hok as [[[Hd%Nat.leb_le Hne]%andb_true_iff Hc]%andb_true_iff Ho].
    destruct cs as [|c cs]; [done|]. destruct fuel as [|fuel]; [lia|]. cbn [parse_pipeline].
    rewrite check_depth_ok by done. cbn [rbind]. rewrite length_app in Hf. rewrite <- app_assoc.
    assert (Hread : parse_commands fuel depth (show_commands (c :: cs) ++ rest) = Ok (c :: cs, rest)).
    { apply commands_read; try done. destruct vs; cbn [show_variables length] in Hf; lia. }
    destruct vs as [|v vs].
    + cbn [show_variables app]. assert (Hnone : declaration (show_commands (c :: cs) ++ rest) = None).
      { cbn [forallb] in Hc. apply andb_true_iff in Hc as [Hc1 _]. assert (c ≠ []) by by destruct c.
        destruct cs as [|c' cs]; cbn [List.map].
        - apply declaration_none; [done|by destruct rest as [|[] ?]].
        - rewrite join_pipes_cons by done. rewrite <- app_assoc. by apply declaration_none. }
      rewrite Hnone, Hread. done.
    + rewrite declaration_shown, Hread. done.
Qed.

Lemma pipeline_tokens_read p depth : pipeline_ok depth p = true → parse_pipeline_tokens (show_pipeline p) depth = Ok p.
Proof.
  intros Hok. unfold parse_pipeline_tokens. rewrite <- (app_nil_r (show_pipeline p)) at 2.
  rewrite pipeline_reads; [done|done|lia|done].
Qed.

(** ** Blocks *)

(** With at least this much fuel the loop gives the result. *)
Definition loops_to (enough depth : nat) ps (r : list Node * Stop * list Piece) : Prop :=
  ∀ fuel, enough ≤ fuel → block_loop fuel depth ps = Ok r.
Definition reads_node n : Prop :=
  ∀ depth enough ps ns stop rest, node_ok depth n = true → loops_to enough depth ps (ns, stop, rest) →
    loops_to (enough + 3 * length (show_node n)) depth (show_node n ++ ps) (n :: ns, stop, rest).

Lemma nodes_read l depth enough ps ns stop rest :
  Forall reads_node l → forallb (node_ok depth) l = true → loops_to enough depth ps (ns, stop, rest) →
  loops_to (enough + 3 * length (show_nodes l)) depth (show_nodes l ++ ps) (l ++ ns, stop, rest).
Proof.
  intros Hall Hok Hps. induction Hall as [|n l Hn Hl IH].
  - intros fuel Hf. apply Hps. lia.
  - cbn [forallb] in Hok. apply andb_true_iff in Hok as [Hok1 Hok2]. specialize (IH Hok2).
    cbn [show_nodes List.flat_map app]. change (List.flat_map show_node l) with (show_nodes l). rewrite <- app_assoc.
    intros fuel Hf. rewrite length_app in Hf. apply (Hn depth _ _ _ _ _ Hok1 IH). lia.
Qed.

Definition keyword_ok (w : string) : Prop := w = "if"%string ∨ w = "with"%string ∨ w = "range"%string.

Lemma branch_head w ts : keyword_ok w → action_head (TWord (lit w) :: ts) = HBranch (lit w) ts.
Proof. by intros [->|[->| ->]]. Qed.

Lemma block_of l depth stop ps fuel rest :
  depth ≤ MAX_NESTING_DEPTH → Forall reads_node l → forallb (node_ok depth) l = true →
  loops_to 1 depth ps ([], stop, rest) → 3 * length (show_nodes l) + 2 ≤ fuel →
  parse_block fuel depth (show_nodes l ++ ps) = Ok (l, stop, rest).
Proof.
  intros Hd Hall Hok Hps Hf. destruct fuel as [|fuel]; [lia|]. cbn [parse_block]. rewrite check_depth_ok by done. cbn [rbind].
  rewrite (nodes_read l depth 1 ps [] stop rest Hall Hok Hps) by lia. by rewrite app_nil_r.
Qed.

Lemma branch_reads w p a b depth enough ps ns stop rest :
  keyword_ok w → pipeline_ok (S depth) p = true →
  bool_decide (lit w = lit "range") && (MAX_RANGE_VARIABLES <? length (p_variables p)) = false →
  Forall reads_node a → Forall reads_node b → forallb (node_ok (S depth)) a = true → forallb (node_ok (S depth)) b = true →
  loops_to enough depth ps (ns, stop, rest) →
  loops_to (enough + 3 * length (show_branch show_nodes w p a b)) depth (show_branch show_nodes w p a b ++ ps)
    (branch_node (lit w) p a b :: ns, stop, rest).
Proof.
  intros Hw Hp Hvars Ha Hb Hoka Hokb Hps fuel Hf. unfold show_branch in *.
  assert (Hd : S depth ≤ MAX_NESTING_DEPTH).
  { destruct p. cbn [pipeline_ok] in Hp. apply andb_true_iff in Hp as [[[Hd%Nat.leb_le _]%andb_true_iff _]%andb_true_iff _]. done. }
  cbn [length] in Hf. rewrite !length_app in Hf. cbn [length] in Hf.
  destruct fuel as [|fuel]; [lia|]. cbn [app block_loop]. rewrite branch_head by done.
  destruct fuel as [|fuel]; [lia|]. cbn [parse_branch]. rewrite check_depth_ok by done. cbn [rbind].
  rewrite pipeline_tokens_read by done. cbn [rbind]. rewrite Hvars. rewrite <- !app_assoc.
  assert (Hend : ∀ ps', loops_to 1 (S depth) ([PAction [TWord (lit "end")]] ++ ps') ([], StopEnd, ps')).
  { intros ps' f Hf'. by destruct f; [lia|]. }
  destruct b as [|b1 b].
  - cbn [app]. rewrite (block_of a (S depth) StopEnd _ fuel ps); [|done|done|done|apply Hend|lia]. cbn [rbind fst snd].
    rewrite Hps by lia. done.
  - cbn [length] in Hf. cbn [app].
    rewrite (block_of a (S depth) (StopElse []) _ fuel (show_nodes (b1 :: b) ++ [PAction [TWord (lit "end")]] ++ ps));
      [|done|done|done| |lia].
    2:{ intros f Hf'. destruct f; [lia|]. done. }
    cbn [rbind fst snd]. rewrite (block_of (b1 :: b) (S depth) StopEnd _ fuel ps); [|done|done|done|apply Hend|lia].
    cbn [rbind fst snd]. rewrite Hps by lia. done.
Qed.

Lemma node_reads n : reads_node n.
Proof.
  refine (node_nested reads_node _ _ _ _ _ n).
  - intros t depth enough ps ns stop rest Hok Hps fuel Hf. cbn in *. destruct fuel as [|fuel]; [lia|].
    cbn [block_loop]. rewrite Hps by lia. cbn. case_bool_decide; [done|]. done.
  - intros p depth enough ps ns stop rest Hok Hps fuel Hf. cbn [show_node length node_ok app] in *.
    destruct fuel as [|fuel]; [lia|]. cbn [block_loop].
    assert (Hh : action_head (show_pipeline p) = HAction).
    { destruct p as [vs cs]. destruct vs as [|v [|]]; [|done..]. cbn [show_pipeline show_variables app pipeline_ok] in *.
      apply andb_true_iff in Hok as [[[_ Hne]%andb_true_iff Hc]%andb_true_iff Ho].
      destruct cs as [|[|o c] cs]; [done|done|]. cbn [forallb] in Ho. apply andb_true_iff in Ho as [[Ho _]%andb_true_iff _].
      assert (Hfirst : ∃ r, show_commands ((o :: c) :: cs) = show_operand o ++ r).
      { destruct cs; cbn [List.map List.flat_map]; [by eexists|]. rewrite join_pipes_cons by done. rewrite <- app_assoc. by eexists. }
      destruct Hfirst as [r ->]. destruct o; try done. cbn [show_operand app operand_ok] in *.
      unfold is_function in Ho. apply bool_decide_eq_true in Ho. clear -Ho.
      unfold FUNCTIONS in Ho. apply list_elem_of_fmap in Ho as (w & -> & Hin).
      repeat (apply elem_of_cons in Hin as [->|Hin]; [done|]). by apply not_elem_of_nil in Hin. }
    rewrite Hh, pipeline_tokens_read by done. cbn [rbind]. rewrite Hps by lia. done.
  - intros p a b Ha Hb depth enough ps ns stop rest Hok Hps. cbn [node_ok] in Hok.
    apply andb_true_iff in Hok as [[Hp Hoka]%andb_true_iff Hokb].
    apply (branch_reads "if"); try done. by left.
  - intros p a b Ha Hb depth enough ps ns stop rest Hok Hps. cbn [node_ok] in Hok.
    apply andb_true_iff in Hok as [[Hp Hoka]%andb_true_iff Hokb].
    apply (branch_reads "with"); try done. by right; left.
  - intros p a b Ha Hb depth enough ps ns stop rest Hok Hps. cbn [node_ok] in Hok.
    apply andb_true_iff in Hok as [[[Hp Hv%Nat.leb_le]%andb_true_iff Hoka]%andb_true_iff Hokb].
    apply (branch_reads "range"); try done; [by right; right|].
    destruct (_ <? _) eqn:He; [apply Nat.ltb_lt in He; lia|]. by rewrite andb_false_r.
Qed.

Lemma pieces_read ns : tree_ok ns = true → parse_pieces (show_nodes ns) = Ok ns.
Proof.
  intros Hok. unfold parse_pieces. rewrite <- (app_nil_r (show_nodes ns)) at 2.
  rewrite (block_of ns 0 StopEof [] _ []); [done|lia|by apply Forall_true; intros; apply node_reads|done| |lia].
  intros fuel Hf. by destruct fuel; [lia|].
Qed.

(** ** What the parser returns is well formed *)

Lemma parsed_pipelines fuel :
  (∀ depth ts p rest, parse_pipeline fuel depth ts = Ok (p, rest) → pipeline_ok depth p = true) ∧
  (∀ depth ts cs rest, parse_commands fuel depth ts = Ok (cs, rest) →
     cs ≠ [] ∧ forallb command_ok cs = true ∧ forallb (forallb (operand_ok depth)) cs = true) ∧
  (∀ depth ts c rest, parse_command fuel depth ts = Ok (c, rest) → forallb (operand_ok depth) c = true) ∧
  (∀ depth t ts o rest, parse_operand fuel depth t ts = Ok (o, rest) → operand_ok depth o = true).
Proof.
  induction fuel as [|fuel (IHp & IHcs & IHc & IHo)]; [by split_and!|]. split_and!.
  - intros depth ts p rest. cbn [parse_pipeline]. destruct (check_depth depth) eqn:Hd; [|done]. cbn [rbind].
    apply check_depth_Ok in Hd. destruct (match declaration ts with Some x => x | None => _ end) as [vs ts'].
    destruct (parse_commands fuel depth ts') as [[cs r]|] eqn:Hcs; [|done]. intros [= <- <-].
    destruct (IHcs _ _ _ _ Hcs) as (Hne & Hc & Ho). cbn. rewrite Hc, Ho. apply Nat.leb_le in Hd. rewrite Hd. by destruct cs.
  - intros depth ts cs rest. cbn [parse_commands]. destruct (parse_command fuel depth ts) as [[c r]|] eqn:Hc; [|done].
    apply IHc in Hc. cbn [rbind fst snd].
    intros Hx. assert (Hcok : command_ok c = true) by (by destruct c as [|[] [|]]).
    assert (Hcs : ∃ cs', cs = c :: cs' ∧ (cs' = [] ∨ ∃ ts', parse_commands fuel depth ts' = Ok (cs', rest))).
    { destruct c as [|[] [|]]; try done; destruct r as [|[] r]; try (injection Hx as <- <-; by eauto);
        cbn in Hx; (destruct (parse_commands fuel depth r) as [[cs' r']|] eqn:Hcs; [|done]); injection Hx as <- <-; by eauto 6. }
    destruct Hcs as (cs' & -> & [->|[ts' Hcs]]); cbn [forallb]; rewrite Hc, Hcok; [by split_and!|].
    destruct (IHcs _ _ _ _ Hcs) as (_ & -> & ->). by split_and!.
  - intros depth ts c rest. cbn [parse_command].
    assert (Hgo : ∀ t ts', (let? x := parse_operand fuel depth t ts' in let? y := parse_command fuel depth x.2 in Ok (x.1 :: y.1, y.2)) =
      Ok (c, rest) → forallb (operand_ok depth) c = true).
    { intros t ts'. destruct (parse_operand fuel depth t ts') as [[o r]|] eqn:Ho; [|done]. cbn [rbind fst snd].
      destruct (parse_command fuel depth r) as [[c' r']|] eqn:Hc; [|done]. intros [= <- <-]. cbn.
      by rewrite (IHo _ _ _ _ _ Ho), (IHc _ _ _ _ Hc). }
    destruct ts as [|t ts]; [by intros [= <- _]|]. destruct t; try (by apply Hgo); by intros [= <- _].
  - intros depth t ts o rest. cbn [parse_operand]. destruct t; try (by intros [= <- _]); try done.
    + destruct (is_function name) eqn:Hf; [|done]. by intros [= <- _].
    + destruct (parse_pipeline fuel (S depth) ts) as [[p r]|] eqn:Hp; [|done]. apply IHp in Hp. cbn [rbind fst snd].
      destruct r as [|[] [|[] r]]; try done; by intros [= <- _].
Qed.
Lemma parsed_tokens ts depth p : parse_pipeline_tokens ts depth = Ok p → pipeline_ok depth p = true.
Proof.
  unfold parse_pipeline_tokens. destruct (parse_pipeline _ depth ts) as [[p' r]|] eqn:Hp; [|done]. cbn [rbind fst snd].
  destruct r; [|done]. intros [= <-]. by apply parsed_pipelines in Hp.
Qed.

Lemma branch_node_ok keyword depth p a b :
  is_branch_word keyword = true → pipeline_ok (S depth) p = true →
  bool_decide (keyword = lit "range") && (MAX_RANGE_VARIABLES <? length (p_variables p)) = false →
  forallb (node_ok (S depth)) a = true → forallb (node_ok (S depth)) b = true →
  node_ok depth (branch_node keyword p a b) = true.
Proof.
  intros Hw Hp Hv Ha Hb. unfold is_branch_word in Hw. apply bool_decide_eq_true in Hw.
  apply list_elem_of_fmap in Hw as (w & -> & Hin). rewrite !elem_of_cons, elem_of_nil in Hin.
  destruct Hin as [->|[->|[->|[]]]].
  - change (node_ok depth (NIf p a b) = true). cbn [node_ok]. by rewrite Hp, Ha, Hb.
  - change (node_ok depth (NWith p a b) = true). cbn [node_ok]. by rewrite Hp, Ha, Hb.
  - change (node_ok depth (NRange p a b) = true). cbn [node_ok]. rewrite Hp, Ha, Hb.
    apply andb_false_iff in Hv as [Hv|Hv%Nat.ltb_ge]; [done|]. apply Nat.leb_le in Hv. by rewrite Hv.
Qed.

Lemma parsed_blocks fuel :
  (∀ depth ps ns stop rest, parse_block fuel depth ps = Ok (ns, stop, rest) → forallb (node_ok depth) ns = true) ∧
  (∀ depth ps ns stop rest, block_loop fuel depth ps = Ok (ns, stop, rest) → forallb (node_ok depth) ns = true) ∧
  (∀ keyword ts ps depth n rest, is_branch_word keyword = true → parse_branch fuel keyword ts ps (S depth) = Ok (n, rest) →
     node_ok depth n = true).
Proof.
  induction fuel as [|fuel (IHb & IHl & IHn)]; [by split_and!|]. split_and!.
  - intros depth ps ns stop rest. cbn [parse_block]. destruct (check_depth depth); [|done]. apply IHl.
  - intros depth ps ns stop rest. cbn [block_loop]. destruct ps as [|[text|tokens] ps].
    + by intros [= <- _ _].
    + destruct (block_loop fuel depth ps) as [[[ns' st] r]|] eqn:Hl; [|done]. apply IHl in Hl. cbn [rbind fst snd].
      intros [= <- _ _]. case_bool_decide as Ht; [done|]. cbn. rewrite bool_decide_eq_false_2 by done. done.
    + destruct (action_head tokens) as [|rest'|keyword rest'|w| |] eqn:Hh; try done; try (by intros [= <- _ _]).
      * assert (Hw : is_branch_word keyword = true).
        { destruct tokens as [|[] ?]; try done. cbn in Hh. repeat case_bool_decide; try done.
          destruct (is_branch_word name) eqn:Hb; [by injection Hh as <- _|]. by destruct (is_unsupported name). }
        destruct (parse_branch fuel keyword rest' ps (S depth)) as [[n r]|] eqn:Hn; [|done]. apply IHn in Hn; [|done].
        cbn [rbind fst snd]. destruct (block_loop fuel depth r) as [[[ns' st] r']|] eqn:Hl; [|done]. apply IHl in Hl.
        intros [= <- _ _]. cbn. by rewrite Hn.
      * destruct (parse_pipeline_tokens tokens depth) as [p|] eqn:Hp; [|done]. apply parsed_tokens in Hp. cbn [rbind].
        destruct (block_loop fuel depth ps) as [[[ns' st] r]|] eqn:Hl; [|done]. apply IHl in Hl.
        intros [= <- _ _]. cbn -[pipeline_ok]. by rewrite Hp.
  - intros keyword ts ps depth n rest Hw. cbn [parse_branch]. destruct (check_depth (S depth)) as [u|]; [|done]. cbn [rbind].
    destruct (parse_pipeline_tokens ts (S depth)) as [p|] eqn:Hp; [|done]. apply parsed_tokens in Hp. cbn [rbind].
    destruct (bool_decide (keyword = lit "range") && _) eqn:Hv; [done|].
    destruct (parse_block fuel (S depth) ps) as [[[a st] r]|] eqn:Ha; [|done]. apply IHb in Ha. cbn [rbind fst snd].
    assert (Hgo : ∀ b r', forallb (node_ok (S depth)) b = true → Ok (branch_node keyword p a b, r') =@{result _ TemplateError} Ok (n, rest) → node_ok depth n = true).
    { intros b r' Hb [= <- _]. by apply branch_node_ok. }
    destruct st as [|ts'|]; [by apply (Hgo [])| |done]. destruct ts' as [|[] tail]; try done.
    + destruct (parse_block fuel (S depth) r) as [[[b st] r']|] eqn:Hb; [|done]. apply IHb in Hb. cbn [rbind fst snd].
      destruct st; try done. by apply (Hgo b).
    + destruct (bool_decide (name = keyword) && _) eqn:Hk; cbn [rbind]; [|done]. destruct (parse_branch fuel keyword tail r (S (S depth))) as [[n' r']|] eqn:Hn; [|done].
      apply IHn in Hn; [|done]. cbn [rbind fst snd]. apply (Hgo [n']). cbn. by rewrite Hn.
Qed.

(** ** Nesting *)

Definition list_max (l : list nat) : nat := foldr Nat.max 0 l.
Fixpoint operand_nesting o : nat :=
  match o with OGroup inner _ => pipeline_nesting inner | _ => 0 end
with pipeline_nesting p : nat :=
  match p with mkPipeline _ cs => S (list_max (List.map (λ c, list_max (List.map operand_nesting c)) cs)) end.
Fixpoint node_nesting n : nat :=
  match n with
  | NText _ => 0
  | NAction p => pipeline_nesting p
  | NIf p a b | NWith p a b | NRange p a b =>
      S (pipeline_nesting p `max` (list_max (List.map node_nesting a) `max` list_max (List.map node_nesting b)))
  end.
Definition nesting (ns : list Node) : nat := list_max (List.map node_nesting ns).

Lemma list_max_le l k : (∀ x, x ∈ l → x ≤ k) → list_max l ≤ k.
Proof.
  intros Hl. induction l as [|x l IH]; cbn; [lia|].
  pose proof (Hl x ltac:(by left)). assert (list_max l ≤ k) by (apply IH; intros; apply Hl; by right). unfold list_max in *. lia.
Qed.
Lemma list_max_map {A} (f : A → nat) l k : Forall (λ x, f x ≤ k) l → list_max (List.map f l) ≤ k.
Proof. intros Hl. apply list_max_le. intros x (y & -> & Hin)%list_elem_of_fmap. by eapply (proj1 (Forall_forall _ _) Hl). Qed.

Lemma pipeline_ok_nesting p depth : pipeline_ok depth p = true → depth + pipeline_nesting p ≤ S MAX_NESTING_DEPTH.
Proof.
  revert depth. refine (pipeline_nested (λ o, ∀ depth, depth ≤ MAX_NESTING_DEPTH → operand_ok depth o = true →
    S depth + operand_nesting o ≤ S MAX_NESTING_DEPTH)
    (λ p, ∀ depth, pipeline_ok depth p = true → depth + pipeline_nesting p ≤ S MAX_NESTING_DEPTH) _ _ _ _ _ _ _ p);
    try (intros; cbn; lia).
  - intros inner path IH depth Hd Hok. cbn [operand_ok operand_nesting] in *. by apply IH in Hok.
  - intros vs cs IH depth Hok. cbn [pipeline_ok pipeline_nesting] in *.
    apply andb_true_iff in Hok as [[[Hd%Nat.leb_le _]%andb_true_iff _]%andb_true_iff Ho].
    assert (list_max (List.map (λ c, list_max (List.map operand_nesting c)) cs) ≤ MAX_NESTING_DEPTH - depth); [|lia].
    apply list_max_map. apply Forall_forall. intros c Hc. apply list_max_map.
    apply Forall_forall. intros o Hin. rewrite Forall_forall in IH. specialize (IH c Hc). rewrite Forall_forall in IH.
    rewrite forallb_forall in Ho. specialize (Ho c (proj1 (list_elem_of_In _ _) Hc)). rewrite forallb_forall in Ho.
    pose proof (IH o Hin depth Hd (Ho o (proj1 (list_elem_of_In _ _) Hin))). lia.
Qed.

Definition shallow n : Prop :=
  ∀ depth, depth ≤ MAX_NESTING_DEPTH → node_ok depth n = true → depth + node_nesting n ≤ S MAX_NESTING_DEPTH.
Lemma shallow_list l depth :
  Forall shallow l → depth ≤ MAX_NESTING_DEPTH → forallb (node_ok depth) l = true →
  depth + list_max (List.map node_nesting l) ≤ S MAX_NESTING_DEPTH.
Proof.
  intros Hl Hd Hok. assert (list_max (List.map node_nesting l) ≤ S MAX_NESTING_DEPTH - depth); [|lia].
  apply list_max_map, Forall_forall. intros n Hin. rewrite Forall_forall in Hl. rewrite forallb_forall in Hok.
  pose proof (Hl n Hin depth Hd (Hok n (proj1 (list_elem_of_In _ _) Hin))). lia.
Qed.
Lemma shallow_branch p a b depth :
  Forall shallow a → Forall shallow b → pipeline_ok (S depth) p = true → forallb (node_ok (S depth)) a = true →
  forallb (node_ok (S depth)) b = true →
  depth + S (pipeline_nesting p `max` (list_max (List.map node_nesting a) `max` list_max (List.map node_nesting b)))
    ≤ S MAX_NESTING_DEPTH.
Proof.
  intros Ha Hb Hp Hoa Hob. pose proof (pipeline_ok_nesting p _ Hp) as Hpn.
  assert (Hd : S depth ≤ MAX_NESTING_DEPTH).
  { destruct p. cbn [pipeline_ok] in Hp. by apply andb_true_iff in Hp as [[[Hd%Nat.leb_le _]%andb_true_iff _]%andb_true_iff _]. }
  pose proof (shallow_list a _ Ha Hd Hoa). pose proof (shallow_list b _ Hb Hd Hob). lia.
Qed.
Lemma node_ok_nesting n : shallow n.
Proof.
  refine (node_nested shallow _ _ _ _ _ n).
  - intros t depth Hd _. cbn. lia.
  - intros p depth Hd Hok. by apply pipeline_ok_nesting.
  - intros p a b Ha Hb depth Hd Hok. cbn [node_ok] in Hok. apply andb_true_iff in Hok as [[Hp Hoa]%andb_true_iff Hob].
    by apply shallow_branch.
  - intros p a b Ha Hb depth Hd Hok. cbn [node_ok] in Hok. apply andb_true_iff in Hok as [[Hp Hoa]%andb_true_iff Hob].
    by apply shallow_branch.
  - intros p a b Ha Hb depth Hd Hok. cbn [node_ok] in Hok.
    apply andb_true_iff in Hok as [[[Hp _]%andb_true_iff Hoa]%andb_true_iff Hob]. by apply shallow_branch.
Qed.

(** ** The fuel is enough *)

(** The call did not run out of fuel, and left at most [k] elements. *)
Definition ends {A B} (k : nat) (r : result (A * list B) TemplateError) : Prop :=
  match r with Ok (_, rest) => length rest ≤ k | Err e => e ≠ OutOfFuel end.

Lemma declaration_shrinks ts vs rest : declaration ts = Some (vs, rest) → length rest ≤ length ts.
Proof.
  remember (length ts) as n eqn:Hn. assert (Hlen : length ts ≤ n) by lia. clear Hn. revert ts vs rest Hlen.
  induction n as [n IH] using lt_wf_ind. intros ts vs rest Hlen.
  destruct ts as [|[| | | |name [|]| | | | | |] [|[] ts]]; try done; cbn [declaration length] in *.
  - destruct (declaration ts) as [[vs' rest']|] eqn:Hd; [|done]. intros [= <- <-].
    apply (IH (length ts)) in Hd; lia.
  - intros [= <- <-]. lia.
Qed.

Lemma parse_enough fuel :
  (∀ depth ts, 4 * length ts + 4 ≤ fuel → ends (length ts) (parse_pipeline fuel depth ts)) ∧
  (∀ depth ts, 4 * length ts + 3 ≤ fuel → ends (length ts) (parse_commands fuel depth ts)) ∧
  (∀ depth ts, 4 * length ts + 2 ≤ fuel → ends (length ts) (parse_command fuel depth ts)) ∧
  (∀ depth t ts, 4 * length ts + 5 ≤ fuel → ends (length ts) (parse_operand fuel depth t ts)).
Proof.
  induction fuel as [|fuel (IHp & IHcs & IHc & IHo)]; [split_and!; intros; lia|]. split_and!.
  - intros depth ts Hf. cbn [parse_pipeline]. unfold check_depth. destruct (_ <? _); [done|]. cbn [rbind].
    assert (Hts : ∃ vs ts', match declaration ts with Some x => x | None => ([], ts) end = (vs, ts') ∧ length ts' ≤ length ts).
    { destruct (declaration ts) as [[vs ts']|] eqn:Hd; [apply declaration_shrinks in Hd|]; eauto. }
    destruct Hts as (vs & ts' & -> & Hlen). specialize (IHcs depth ts' ltac:(lia)).
    destruct (parse_commands fuel depth ts') as [[cs r]|]; cbn in *; [lia|done].
  - intros depth ts Hf. cbn [parse_commands]. specialize (IHc depth ts ltac:(lia)).
    destruct (parse_command fuel depth ts) as [[c r]|]; cbn [rbind ends fst snd] in *; [|done].
    assert (Hgo : ends (length ts) (match r with
        | TPipe :: ts => let? y := parse_commands fuel depth ts in Ok (c :: y.1, y.2) | ts => Ok ([c], ts) end)).
    { destruct r as [|[] r]; cbn [ends length] in *; try lia. specialize (IHcs depth r ltac:(lia)).
      destruct (parse_commands fuel depth r) as [[cs r']|]; cbn in *; [lia|done]. }
    destruct c as [|[] [|]]; try done; by destruct r as [|[] r].
  - intros depth ts Hf. cbn [parse_command]. destruct ts as [|t ts]; [cbn; lia|]. cbn [length] in Hf.
    assert (Hgo : ends (length (t :: ts)) (let? x := parse_operand fuel depth t ts in
        let? y := parse_command fuel depth x.2 in Ok (x.1 :: y.1, y.2))).
    { specialize (IHo depth t ts ltac:(lia)). destruct (parse_operand fuel depth t ts) as [[o r]|]; cbn [rbind ends fst snd] in *; [|done].
      specialize (IHc depth r ltac:(lia)). destruct (parse_command fuel depth r) as [[c r']|]; cbn in *; [lia|done]. }
    destruct t; try exact Hgo; cbn; lia.
  - intros depth t ts Hf. cbn [parse_operand]. destruct t; try (cbn; lia); try done.
    + destruct (is_function name); cbn; [lia|done].
    + specialize (IHp (S depth) ts ltac:(lia)). destruct (parse_pipeline fuel (S depth) ts) as [[p r]|]; cbn [rbind ends fst snd] in *; [|done].
      destruct r as [|[] [|[] r]]; cbn in *; try done; lia.
Qed.
Lemma tokens_enough ts depth : parse_pipeline_tokens ts depth ≠ Err OutOfFuel.
Proof.
  unfold parse_pipeline_tokens. pose proof (proj1 (parse_enough (4 * length ts + 4)) depth ts ltac:(lia)) as He.
  destruct (parse_pipeline _ depth ts) as [[p r]|e]; cbn in *; [by destruct r|congruence].
Qed.

(** A block that a keyword ended took its action. *)
Definition block_ends (k : nat) (r : result (list Node * Stop * list Piece) TemplateError) : Prop :=
  match r with
  | Ok (_, StopEof, rest) => length rest ≤ k
  | Ok (_, _, rest) => length rest < k
  | Err e => e ≠ OutOfFuel
  end.
Lemma blocks_enough fuel :
  (∀ depth ps, 3 * length ps + 3 ≤ fuel → block_ends (length ps) (parse_block fuel depth ps)) ∧
  (∀ depth ps, 3 * length ps + 2 ≤ fuel → block_ends (length ps) (block_loop fuel depth ps)) ∧
  (∀ keyword ts ps depth, 3 * length ps + 4 ≤ fuel → ends (length ps) (parse_branch fuel keyword ts ps depth)).
Proof.
  induction fuel as [|fuel (IHb & IHl & IHn)]; [split_and!; intros; lia|]. split_and!.
  - intros depth ps Hf. cbn [parse_block]. unfold check_depth. destruct (_ <? _); [done|]. apply IHl. lia.
  - intros depth ps Hf. cbn [block_loop]. destruct ps as [|[text|tokens] ps]; cbn [length] in *; [cbn; lia|..].
    + specialize (IHl depth ps ltac:(lia)). destruct (block_loop fuel depth ps) as [[[ns st] r]|]; cbn [rbind block_ends fst snd] in *; [|done].
      destruct st; lia.
    + assert (Hmore : ∀ r n, length r ≤ length ps → block_ends (S (length ps))
        (let? y := block_loop fuel depth r in Ok (n :: y.1.1, y.1.2, y.2))).
      { intros r n Hr. specialize (IHl depth r ltac:(lia)).
        destruct (block_loop fuel depth r) as [[[ns st] r']|]; cbn [rbind block_ends fst snd] in *; [|done]. destruct st; lia. }
      destruct (action_head tokens) as [|rest'|keyword rest'|w| |]; try done; try (cbn; lia).
      * specialize (IHn keyword rest' ps (S depth) ltac:(lia)).
        destruct (parse_branch fuel keyword rest' ps (S depth)) as [[n r]|]; cbn [rbind ends fst snd] in *; [by apply Hmore|done].
      * pose proof (tokens_enough tokens depth) as Ht. destruct (parse_pipeline_tokens tokens depth) as [p|e]; cbn [rbind];
          [by apply Hmore|cbn; congruence].
  - intros keyword ts ps depth Hf. cbn [parse_branch]. unfold check_depth. destruct (_ <? _); [done|]. cbn [rbind].
    pose proof (tokens_enough ts depth) as Ht. destruct (parse_pipeline_tokens ts depth) as [p|e]; cbn [rbind]; [|cbn; congruence].
    destruct (bool_decide (keyword = lit "range") && _); [done|]. specialize (IHb depth ps ltac:(lia)) as Hb.
    destruct (parse_block fuel depth ps) as [[[a st] r]|]; cbn [rbind block_ends ends fst snd] in *; [|done].
    destruct st as [|ts'|]; [cbn; lia| |done]. destruct ts' as [|[] tail]; try done.
    + specialize (IHb depth r ltac:(lia)). destruct (parse_block fuel depth r) as [[[b st] r']|]; cbn [rbind block_ends fst snd] in *; [|done].
      destruct st; cbn; try done; lia.
    + destruct (bool_decide (name = keyword) && _); cbn [rbind]; [|done]. specialize (IHn keyword tail r (S depth) ltac:(lia)).
      destruct (parse_branch fuel keyword tail r (S depth)) as [[n r']|]; cbn [rbind ends fst snd] in *; [lia|done].
Qed.
Lemma pieces_enough ps : parse_pieces ps ≠ Err OutOfFuel.
Proof.
  unfold parse_pieces. pose proof (proj1 (blocks_enough (3 * length ps + 3)) 0 ps ltac:(lia)) as He.
  destruct (parse_block _ 0 ps) as [[[ns st] r]|e]; cbn in *; [by destruct st|congruence].
Qed.

Lemma parsed_tree ps ns : parse_pieces ps = Ok ns → tree_ok ns = true.
Proof.
  unfold parse_pieces. intros Hps.
  destruct (parse_block _ 0 ps) as [[[ns' st] r]|] eqn:Hb; [|done]. cbn [rbind fst snd] in Hps. destruct st; try done.
  injection Hps as <-. by apply parsed_blocks in Hb.
Qed.
(** The trees the parser can return are exactly the well-formed ones, and it
    reads each of them back from its printed pieces; none nests deeper than
    the limit, so that neither evaluation nor release of a template can
    exhaust the stack. *)
Theorem parse_exact (ns : list Node) :
  ((∃ ps, parse_pieces ps = Ok ns) ↔ tree_ok ns = true) ∧
  (tree_ok ns = true → parse_pieces (show_nodes ns) = Ok ns ∧ nesting ns ≤ 201).
Proof.
  split.
  - split; [|intros Hok; exists (show_nodes ns); by apply pieces_read]. intros (ps & Hps). by apply parsed_tree in Hps.
  - intros Hok. split; [by apply pieces_read|]. apply (shallow_list ns 0); [by apply Forall_true; intros; apply node_ok_nesting|lia|done].
Qed.

End parse.
