(* ===== verification/TemplateLex.v ===== *)
(** * TemplateLex: spelling tokens and reading them back

    The lexer of [Template] reads every token sequence the parser understands
    from its spelling, and the loops of the lexer and of the splitter end.
    With [TemplateParse] this gives the theorems on templates as a whole. *)

From stdpp Require Import base list numbers option strings pretty gmap.
From Stdlib Require Import ZArith Lia Ascii.
From S2P Require Import Prelude Text Template TemplateParse.
Local Open Scope nat_scope.

(** ** Pieces of text *)

Lemma take_while_spec f s : (take_while f s).1 ++ (take_while f s).2 = s.
Proof. induction s as [|c s IH]; [done|]. cbn. destruct (f c); [|done]. destruct (take_while f s). cbn in *. by rewrite IH. Qed.
Lemma take_while_length f s a b : take_while f s = (a, b) → length a + length b = length s.
Proof. intros Ht. pose proof (take_while_spec f s) as Hs. rewrite Ht in Hs. cbn in Hs. rewrite <- Hs, length_app. done. Qed.
Lemma take_while_app f a b :
  forallb f a = true → match b with [] => True | c :: _ => f c = false end → take_while f (a ++ b) = (a, b).
Proof.
  intros Ha Hb. induction a as [|c a IH]; cbn [app].
  - destruct b as [|c b]; [done|]. cbn. by rewrite Hb.
  - cbn in Ha. apply andb_true_iff in Ha as [Hc Ha]. cbn. by rewrite Hc, (IH Ha).
Qed.
Lemma strip_length p s r : strip p s = Some r → length r + length p = length s.
Proof.
  revert s. induction p as [|a p IH]; intros s; cbn [strip].
  - intros [= <-]. cbn. lia.
  - destruct s as [|b s]; [done|]. destruct (a =? b)%Z; [|done]. intros Hs%IH. cbn. lia.
Qed.
Lemma cut_length p s a b : cut p s = Some (a, b) → length a + length p + length b = length s.
Proof.
  revert a b. induction s as [|c s IH]; intros a b; cbn [cut].
  - destruct (strip p []) as [r|] eqn:Hs; [|done]. intros [= <- <-]. apply strip_length in Hs. cbn in *. lia.
  - destruct (strip p (c :: s)) as [r|] eqn:Hs; [intros [= <- <-]; apply strip_length in Hs; cbn in *; lia|].
    destruct (cut p s) as [[a' b']|]; [|done]. intros [= <- <-]. specialize (IH _ _ eq_refl). cbn. lia.
Qed.
Lemma drop_while_length f s : length (drop_while f s) ≤ length s.
Proof. induction s as [|c s IH]; cbn; [lia|]. destruct (f c); cbn; lia. Qed.

Section lex.
Context `{HF : F64} `{HU : Unicode}.

Lemma field_path_length fuel s path rest : field_path fuel s = (path, rest) → length rest ≤ length s.
Proof.
  revert s path rest. induction fuel as [|fuel IH]; intros s path rest; cbn [field_path]; [by intros [= _ <-]|].
  destruct s as [|d [|c r]]; try (by intros [= _ <-]). destruct (_ && _); [|by intros [= _ <-]].
  destruct (word (c :: r)) as [name r1] eqn:Hw. apply take_while_length in Hw.
  destruct (field_path fuel r1) as [path' r2] eqn:Hp. apply IH in Hp. intros [= _ <-]. cbn in *. lia.
Qed.
Lemma quoted_ends s : ends (length s) (quoted s).
Proof.
  remember (length s) as n eqn:Hn. revert s Hn. induction n as [n IH] using lt_wf_ind. intros s ->.
  destruct s as [|c r]; [done|]. cbn [quoted length].
  assert (Hgo : ∀ x r', length r' < S (length r) → ends (S (length r)) (let? y := quoted r' in Ok (x :: y.1, y.2))).
  { intros x r' Hr. specialize (IH (length r') Hr r' eq_refl). destruct (quoted r') as [[a b]|]; cbn in *; [lia|done]. }
  destruct (c =? 34)%Z; [cbn; lia|]. destruct (c =? 92)%Z; [|apply Hgo; lia].
  destruct r as [|e r]; [done|]. apply Hgo. cbn. lia.
Qed.
Lemma char_literal_ends s : ends (length s) (char_literal s).
Proof.
  unfold char_literal.
  set (x := match s with [] => _ | _ => _ end). assert (Hx : ends (length s) x).
  { unfold x. destruct s as [|c r]; [done|]. repeat case_match; cbn; try done; lia. }
  clearbody x. destruct x as [[c r]|e]; cbn [rbind ends fst snd] in *; [|done].
  destruct r as [|q r]; [done|]. destruct (q =? 39)%Z; cbn in *; [lia|done].
Qed.
Lemma lex_one_ends prev last c r : ends (length r) (lex_one prev last c r).
Proof.
  unfold lex_one. repeat match goal with |- ends _ (if ?b then Ok (_, r) else _) => destruct b; [cbn; lia|] end.
  destruct (_ && _); [destruct r; cbn; lia|].
  destruct (c =? 34)%Z; [pose proof (quoted_ends r); by destruct (quoted r) as [[]|]|].
  destruct (c =? ch "`")%Z.
  { destruct (cut (lit "`") r) as [[text rest]|] eqn:Hc; [apply cut_length in Hc; cbn in *; lia|done]. }
  destruct (c =? 39)%Z; [pose proof (char_literal_ends r); by destruct (char_literal r) as [[]|]|].
  destruct (c =? ch "$")%Z.
  { destruct (word r) as [name rest] eqn:Hw. apply take_while_length in Hw.
    destruct (field_path (length rest) rest) as [path rest'] eqn:Hp. apply field_path_length in Hp. cbn. lia. }
  destruct (c =? ch ".")%Z.
  { destruct (field_path (S (length r)) (c :: r)) as [path rest] eqn:Hp.
    destruct path as [|name path]; [cbn; lia|]. assert (Hlen : length rest ≤ length r).
    { revert Hp. cbn [field_path]. destruct r as [|d r]; [done|]. destruct (_ && _); [|done].
      destruct (word (d :: r)) as [n1 r1] eqn:Hw. apply take_while_length in Hw.
      destruct (field_path (length (d :: r)) r1) as [path' r2] eqn:Hp. apply field_path_length in Hp. intros [= _ _ <-]. lia. }
    destruct last as [[]|]; try (cbn; lia). destruct prev as [z|]; [|cbn; lia].
    repeat case_match; cbn; lia. }
  destruct (_ || _).
  { destruct (take_while _ r) as [more rest] eqn:Hw. apply take_while_length in Hw. unfold parse_number.
    destruct (parse_i64 (c :: more)); cbn [rbind ends]; [lia|]. destruct (f64_parse (c :: more)); cbn; [lia|done]. }
  destruct (is_word_char c) eqn:Hc; [|done]. unfold word. cbn [take_while]. rewrite Hc.
  destruct (take_while is_word_char r) as [a b] eqn:Hw. apply take_while_length in Hw. cbn. lia.
Qed.
Lemma lex_loop_enough fuel prev last s : length s ≤ fuel → lex_loop fuel prev last s ≠ Err OutOfFuel.
Proof.
  revert prev last s. induction fuel as [|fuel IH]; intros prev last s Hf; destruct s as [|c r]; cbn [length] in Hf; try done; [lia|].
  cbn [lex_loop]. pose proof (lex_one_ends prev last c r) as Hone.
  destruct (lex_one prev last c r) as [[[t|] rest]|e]; cbn [rbind ends fst snd] in *; [| |congruence].
  - specialize (IH (before c r rest) (Some t) rest ltac:(lia)).
    destruct (lex_loop fuel _ (Some t) rest) as [ts|e]; cbn [rbind]; [done|congruence].
  - apply IH. lia.
Qed.

Lemma scan_action_length quote s a b : scan_action quote s = Some (a, b) → length b ≤ length s.
Proof.
  remember (length s) as n eqn:Hn. revert quote s a b Hn. induction n as [n IH] using lt_wf_ind. intros quote s a b ->.
  destruct s as [|c r]; [done|]. cbn [scan_action length].
  assert (Hgo : ∀ q r' (k : Str → Str), length r' < S (length r) →
    ('(a, b) ← scan_action q r'; Some (k a, b)) = Some (a, b) → length b ≤ S (length r)).
  { intros q r' k Hr Heq. destruct (scan_action q r') as [[a' b']|] eqn:Hs; [|done]. injection Heq as _ <-.
    apply (IH (length r')) in Hs; [lia|cbn; lia|done]. }
  destruct quote as [q|].
  - destruct (_ && _); [|apply (Hgo _ _ (λ a, c :: a)); lia]. destruct r as [|e r]; [done|].
    apply (Hgo _ _ (λ a, c :: e :: a)). cbn. lia.
  - destruct (_ || _); [apply (Hgo _ _ (λ a, c :: a)); lia|].
    destruct (strip ACTION_CLOSE (c :: r)) as [rest|] eqn:Hs; [|apply (Hgo _ _ (λ a, c :: a)); lia].
    intros [= _ <-]. apply strip_length in Hs. cbn in Hs. lia.
Qed.
Lemma action_end_length s a b : action_end s = Some (a, b) → length b ≤ length s.
Proof.
  unfold action_end. set (body := trim_start _). assert (Hb : length body ≤ length s).
  { unfold body, trim_start. etrans; apply drop_while_length. }
  clearbody body. destruct (begins COMMENT_OPEN body).
  - destruct (cut COMMENT_CLOSE body) as [[x rest]|] eqn:H1; [|done]. apply cut_length in H1. cbn [mbind option_bind].
    destruct (cut ACTION_CLOSE rest) as [[y after]|] eqn:H2; [|done]. apply cut_length in H2. intros [= _ <-]. lia.
  - destruct (scan_action None body) as [[x y]|] eqn:Hs; [|done]. apply scan_action_length in Hs. intros [= _ <-]. lia.
Qed.
Lemma split_enough fuel trim_next s : length s ≤ fuel → split_pieces fuel trim_next s ≠ Err OutOfFuel.
Proof.
  revert trim_next s. induction fuel as [|fuel IH]; intros trim_next s Hf; cbn [split_pieces];
    destruct (cut ACTION_OPEN s) as [[text tail]|] eqn:Hc; try done; apply cut_length in Hc; cbn in Hc; [lia|].
  destruct (action_end tail) as [[action after]|] eqn:He; [|done]. apply action_end_length in He.
  destruct (match trim_marked_leading action with Some _ => _ | None => _ end) as [text' action'].
  destruct (match trim_marked_trailing action' with Some _ => _ | None => _ end) as [next action''].
  set (here := if _ && _ then _ else _). assert (Hh : here ≠ Err OutOfFuel).
  { unfold here. destruct (_ && _); [done|]. pose proof (lex_loop_enough (length (trim action'')) None None (trim action'') ltac:(lia)) as Hl.
    unfold lex. destruct (lex_loop _ _ _ (trim action'')); cbn; [done|congruence]. }
  clearbody here. destruct here as [here|e]; cbn [rbind]; [|congruence].
  specialize (IH next after ltac:(lia)). destruct (split_pieces fuel next after); cbn; [done|congruence].
Qed.
End lex.

(** ** Spelling *)

Definition spell_path (path : list Str) : Str := path ≫= λ name, ch "." :: name.
Definition escape (c : Z) : Str := if (c =? 34)%Z || (c =? 92)%Z then [92%Z; c] else [c].
Definition quote (s : Str) : Str := 34%Z :: (s ≫= escape) ++ [34%Z].
Definition show_int (z : Z) : Str := lit (pretty z).

Section spell.
Context `{HF : F64} `{HU : Unicode} {HL : UnicodeLaws}.

Definition spell_literal (v : Value) : Str :=
  match v with
  | VNull => lit "nil"
  | VBool true => lit "true"
  | VBool false => lit "false"
  | VNumber (NInt z) => show_int z
  | VNumber (NFloat f) => f64_show f
  | VString s => quote s
  | VArray _ | VObject _ => []
  end.
Definition spell_token (t : Token) : Str :=
  match t with
  | TWord name => name
  | TDot => lit "."
  | TField path | TChain path => spell_path path
  | TVariable name path => name ++ spell_path path
  | TLiteral v => spell_literal v
  | TOpen => lit "("
  | TClose => lit ")"
  | TPipe => lit "|"
  | TComma => lit ","
  | TDeclare => lit ":="
  end.
(** A space before every token but a chain, which follows its parenthesis. *)
Fixpoint spell (ts : list Token) : Str :=
  match ts with
  | [] => []
  | t :: ts => match t with TChain _ => [] | _ => [32%Z] end ++ spell_token t ++ spell ts
  end.

Definition word_ok (w : Str) : bool := negb (bool_decide (w = [])) && forallb is_word_char w.
Definition literal_ok (v : Value) : bool :=
  match v with
  | VNull | VBool _ | VString _ => true
  | VNumber (NInt z) => (- 2 ^ 63 <=? z)%Z && (z <? 2 ^ 63)%Z
  | _ => false
  end.
Definition token_ok (last : option Token) (t : Token) : bool :=
  match t with
  | TWord name =>
      word_ok name && negb (match name with c :: _ => ascii_digit c | [] => false end) &&
      negb (bool_decide (name ∈ lit <$> ["true"; "false"; "nil"]%string))
  | TField path => negb (bool_decide (path = [])) && forallb word_ok path
  | TChain path => negb (bool_decide (path = [])) && forallb word_ok path && match last with Some TClose => true | _ => false end
  | TVariable name path =>
      match name with c :: name => (c =? ch "$")%Z && forallb is_word_char name | [] => false end && forallb word_ok path
  | TLiteral v => literal_ok v
  | _ => true
  end.
Fixpoint tokens_ok (last : option Token) (ts : list Token) : bool :=
  match ts with [] => true | t :: ts => token_ok last t && tokens_ok (Some t) ts end.

(** What may follow a token. *)
Definition stops (s : Str) : bool := match s with [] => true | c :: _ => (c =? 32)%Z end.

Lemma word_char_ascii c : (0 ≤ c < 128)%Z → is_word_char c = ascii_digit c || ascii_letter c || (c =? 95)%Z.
Proof. intros Hc. unfold is_word_char. by rewrite alphanumeric_ascii. Qed.
Lemma word_char_plain c : is_word_char c = true → ascii_digit c = false →
  is_white c = false ∧ ∀ d, d ∈ [40; 41; 124; 44; 58; 34; 96; 39; 36; 46; 45; 47; 123; 125; 92]%Z → (c =? d)%Z = false.
Proof.
  intros Hw Hd. split.
  - unfold is_word_char in Hw. apply orb_true_iff in Hw as [Hw|Hw%Z.eqb_eq]; [by apply alphanumeric_not_white|by subst].
  - intros d Hin. apply Z.eqb_neq. intros ->.
    rewrite !elem_of_cons, elem_of_nil in Hin. destruct_or!; subst; try done; by rewrite word_char_ascii in Hw.
Qed.
Lemma stops_word s : stops s = true → match s with [] => True | c :: _ => is_word_char c = false end.
Proof. destruct s as [|c s]; [done|]. cbn. intros ->%Z.eqb_eq. by rewrite word_char_ascii. Qed.
Lemma word_ok_cons w : word_ok w = true → ∃ c r, w = c :: r ∧ is_word_char c = true ∧ forallb is_word_char r = true.
Proof.
  unfold word_ok. intros [Hn Hw]%andb_true_iff. destruct w as [|c r]; [done|]. cbn in Hw. apply andb_true_iff in Hw as [Hc Hr].
  eauto.
Qed.
Lemma word_spelled w rest : word_ok w = true → match rest with [] => True | c :: _ => is_word_char c = false end → word (w ++ rest) = (w, rest).
Proof. intros [_ Hw]%andb_true_iff Hr. by apply take_while_app. Qed.

Lemma field_path_spelled fuel path rest :
  forallb word_ok path = true → stops rest = true → length path ≤ fuel →
  field_path fuel (spell_path path ++ rest) = (path, rest).
Proof.
  revert path. induction fuel as [|fuel IH]; intros path Hp Hs Hf; destruct path as [|w path]; cbn [length] in Hf; try lia.
  - done.
  - cbn [spell_path mbind list_bind app]. destruct rest as [|c [|d r]]; try done. cbn in Hs. apply Z.eqb_eq in Hs as ->. done.
  - cbn [forallb] in Hp. apply andb_true_iff in Hp as [Hw Hp]. destruct (word_ok_cons w Hw) as (c & r & -> & Hc & _).
    change (spell_path ((c :: r) :: path)) with (ch "." :: (c :: r) ++ spell_path path). rewrite <- app_comm_cons, <- app_assoc.
    cbn [app field_path]. rewrite Z.eqb_refl, Hc. cbn [andb].
    change (c :: r ++ spell_path path ++ rest) with ((c :: r) ++ spell_path path ++ rest).
    rewrite (word_spelled (c :: r) (spell_path path ++ rest)); [|done|].
    + by rewrite IH by (done || lia).
    + destruct path as [|w' path]; [by apply stops_word|]. cbn. by rewrite word_char_ascii.
Qed.
Lemma spell_path_length path : length path ≤ length (spell_path path).
Proof. induction path as [|w path IH]; [done|]. cbn. rewrite length_app. unfold spell_path in IH. lia. Qed.

Lemma quoted_spelled s rest : quoted ((s ≫= escape) ++ 34%Z :: rest) = Ok (s, rest).
Proof.
  induction s as [|c s IH]; [done|]. cbn [mbind list_bind]. rewrite <- app_assoc. unfold escape at 1.
  destruct (c =? 34)%Z eqn:H1; [apply Z.eqb_eq in H1 as ->; cbn [orb app quoted]; cbn -[mbind]; by rewrite IH|].
  destruct (c =? 92)%Z eqn:H2; cbn [orb app quoted].
  - apply Z.eqb_eq in H2 as ->. cbn -[mbind]. by rewrite IH.
  - rewrite H1, H2. by rewrite IH.
Qed.

(** Decimal numbers. *)
Lemma ch_byte c : ch c = Z.of_nat (byte_of c).
Proof. unfold ch, byte_of, nat_of_ascii. lia. Qed.
Lemma ascii_digit_ch c : ascii_digit (ch c) = is_ascii_digit c.
Proof.
  rewrite ch_byte. unfold ascii_digit, is_ascii_digit. f_equal.
  - destruct (48 <=? byte_of c) eqn:He; [apply Nat.leb_le in He; apply Z.leb_le; lia|apply Nat.leb_gt in He; apply Z.leb_gt; lia].
  - destruct (byte_of c <=? 57) eqn:He; [apply Nat.leb_le in He; apply Z.leb_le; lia|apply Nat.leb_gt in He; apply Z.leb_gt; lia].
Qed.
Lemma digits_chars acc l : digits acc (ch <$> l) = digits_value acc l.
Proof.
  revert acc. induction l as [|c l IH]; intros acc; [done|]. cbn. rewrite ascii_digit_ch. destruct (is_ascii_digit c); [|done].
  rewrite ch_byte. unfold fmap in IH. rewrite IH. f_equal. lia.
Qed.
Lemma digits_all acc s v : digits acc s = Some v → forallb ascii_digit s = true.
Proof.
  revert acc. induction s as [|c s IH]; intros acc; [done|]. cbn. destruct (ascii_digit c); [|done]. intros Hd. by rewrite (IH _ Hd).
Qed.
Lemma show_pos p : ∃ c r, lit (pretty (Npos p)) = c :: r ∧ ascii_digit c = true ∧ digits 0 (c :: r) = Some (Zpos p).
Proof.
  change (pretty (Npos p)) with (pretty_N_go (Npos p) ""). pose proof (digits_value_pretty (Npos p) "") as Hv.
  destruct (pretty_nonempty (Npos p) "" ltac:(done)) as (c & r & Hc & Hd).
  exists (ch c), (ch <$> r). unfold lit. rewrite Hc in *. split_and!; [done|by rewrite ascii_digit_ch|].
  by rewrite <- digits_chars in Hv.
Qed.
Lemma i64_range z : (- 2 ^ 63 <= z < 2 ^ 63)%Z → (- 2 ^ 63 <=? z)%Z && (z <? 2 ^ 63)%Z = true.
Proof. intros [H1 H2]. apply andb_true_iff. split; [by apply Z.leb_le|by apply Z.ltb_lt]. Qed.
Lemma show_int_reads z : (- 2 ^ 63 <= z < 2 ^ 63)%Z →
  ∃ c r, show_int z = c :: r ∧ forallb ascii_digit r = true ∧ parse_i64 (c :: r) = Some z ∧
    (ascii_digit c = true ∨ c = 45%Z ∧ match r with d :: _ => ascii_digit d | [] => false end = true).
Proof.
  intros Hz. unfold parse_i64. destruct z as [|p|p].
  - exists 48%Z, []. split_and!; try done. by left.
  - destruct (show_pos p) as (c & r & Hs & Hc & Hd). exists c, r. change (show_int (Z.pos p)) with (lit (pretty (Npos p))).
    split_and!; [done| | |by left].
    + apply digits_all in Hd. cbn in Hd. by apply andb_true_iff in Hd as [_ Hd].
    + assert (Hne : c ≠ 45%Z) by (intros ->; done).
      apply Z.eqb_neq in Hne. change (ch "-") with 45%Z. rewrite Hne, Hd. cbn [mbind option_bind]. by rewrite i64_range.
  - destruct (show_pos p) as (c & r & Hs & Hc & Hd). exists 45%Z, (c :: r).
    change (show_int (Z.neg p)) with (45%Z :: lit (pretty (Npos p))). rewrite Hs. split_and!; [done| | |by right].
    + by apply digits_all in Hd.
    + change (ch "-") with 45%Z. cbn [Z.eqb Pos.eqb]. rewrite Hd. cbn [fmap option_fmap option_map mbind option_bind].
      change (- Z.pos p)%Z with (Z.neg p).
      by rewrite i64_range.
Qed.

Lemma dot_tail rest : stops rest = true → ∀ fuel, field_path fuel (ch "." :: rest) = ([], ch "." :: rest).
Proof.
  intros Hs fuel. destruct fuel; [done|]. destruct rest as [|c r]; [done|]. cbn in Hs. apply Z.eqb_eq in Hs as ->.
  cbn [field_path]. by rewrite word_char_ascii.
Qed.

Lemma lex_word w rest last prev :
  word_ok w = true → match w with c :: _ => ascii_digit c | [] => false end = false → stops rest = true →
  ∃ c r, w ++ rest = c :: r ∧ lex_one prev last c r = Ok (Some (word_token w), rest).
Proof.
  intros Hw Hd Hs. destruct (word_ok_cons w Hw) as (c & r & -> & Hc & Hr).
  exists c, (r ++ rest). split; [done|]. destruct (word_char_plain c Hc Hd) as [Hwh Hne]. unfold lex_one. rewrite Hwh.
  change (ch "(") with 40%Z. change (ch ")") with 41%Z. change (ch "|") with 124%Z. change (ch ",") with 44%Z.
  change (ch ":") with 58%Z. change (ch "`") with 96%Z. change (ch "$") with 36%Z. change (ch ".") with 46%Z. change (ch "-") with 45%Z.
  rewrite !(Hne _) by (rewrite !elem_of_cons; tauto). cbn [andb orb]. rewrite Hd, Hc. cbn [orb].
  change (c :: r ++ rest) with ((c :: r) ++ rest). by rewrite word_spelled by (done || by apply stops_word).
Qed.
Lemma word_token_plain w : w ∉ lit <$> ["true"; "false"; "nil"]%string → word_token w = TWord w.
Proof.
  intros Hk. rewrite list_elem_of_fmap in Hk. unfold word_token.
  rewrite !bool_decide_eq_false_2; [done|intros He; apply Hk; eexists; split; [exact He|]; set_solver..].
Qed.

Lemma lex_number z rest last prev :
  literal_ok (VNumber (NInt z)) = true → stops rest = true →
  ∃ c r, show_int z ++ rest = c :: r ∧ lex_one prev last c r = Ok (Some (TLiteral (VNumber (NInt z))), rest).
Proof.
  cbn [literal_ok]. intros [H1%Z.leb_le H2%Z.ltb_lt]%andb_true_iff Hs.
  destruct (show_int_reads z ltac:(done)) as (c & r & -> & Hr & Hp & Hc). exists c, (r ++ rest). split; [done|].
  assert (Htw : take_while (λ d, ascii_digit d || (d =? ch ".")%Z) (r ++ rest) = (r, rest)).
  { apply take_while_app; [|destruct rest as [|d rest]; [done|]; cbn in Hs; by apply Z.eqb_eq in Hs as ->].
    apply forallb_forall. intros d Hin. rewrite forallb_forall in Hr. by rewrite (Hr d Hin). }
  assert (Hnum : ascii_digit c || ((c =? ch "-")%Z && match r ++ rest with e :: _ => ascii_digit e | [] => false end) = true).
  { destruct Hc as [->|[-> Hd]]; [done|]. destruct r as [|d r]; [done|]. cbn. by rewrite Hd. }
  assert (Hneed : is_white c = false ∧ ∀ d, d ∈ [40; 41; 124; 44; 58; 34; 96; 39; 36; 46]%Z → (c =? d)%Z = false).
  { destruct Hc as [Hc|[-> _]]; [|split; [done|]; intros d Hin; apply Z.eqb_neq; intros <-; rewrite !elem_of_cons, elem_of_nil in Hin; destruct_or!; done].
    apply andb_true_iff in Hc as [Hc1%Z.leb_le Hc2%Z.leb_le]. split.
    - unfold is_white. repeat (apply orb_false_iff; split); try (apply Z.eqb_neq; lia); apply andb_false_iff;
        rewrite !Z.leb_gt; lia.
    - intros d Hin. apply Z.eqb_neq. intros ->. rewrite !elem_of_cons, elem_of_nil in Hin. destruct_or!; lia. }
  destruct Hneed as [Hwh Hne]. unfold lex_one. rewrite Hwh.
  change (ch "(") with 40%Z. change (ch ")") with 41%Z. change (ch "|") with 124%Z. change (ch ",") with 44%Z.
  change (ch ":") with 58%Z. change (ch "`") with 96%Z. change (ch "$") with 36%Z.
  rewrite !(Hne _) by (rewrite !elem_of_cons; tauto). cbn [andb orb].
  rewrite Hnum, Htw. unfold parse_number. by rewrite Hp.
Qed.

Lemma lex_path path rest last prev :
  path ≠ [] → forallb word_ok path = true → stops rest = true →
  ∃ r, spell_path path ++ rest = ch "." :: r ∧
    lex_one prev last (ch ".") r =
      Ok (Some (match last, prev with
                | Some TClose, Some b => if (b =? ch ")")%Z then TChain path else TField path
                | _, _ => TField path
                end), rest).
Proof.
  intros Hne Hp Hs. destruct path as [|w path]; [done|].
  exists (w ++ spell_path path ++ rest). split; [cbn; by rewrite <- app_assoc|].
  pose proof (field_path_spelled (S (length (w ++ spell_path path ++ rest))) (w :: path) rest Hp Hs) as Hf.
  change (spell_path (w :: path)) with (ch "." :: w ++ spell_path path) in Hf. rewrite <- app_comm_cons, <- app_assoc in Hf.
  unfold lex_one. cbn -[field_path ch spell_path].
  rewrite Hf by (cbn; rewrite !length_app; pose proof (spell_path_length path); lia).
  by destruct last as [[]|], prev.
Qed.

Lemma lex_variable name path rest last prev :
  forallb is_word_char name = true → forallb word_ok path = true → stops rest = true →
  lex_one prev last (ch "$") (name ++ spell_path path ++ rest) = Ok (Some (TVariable (ch "$" :: name) path), rest).
Proof.
  intros Hn Hp Hs. unfold lex_one. cbn -[field_path ch spell_path word].
  unfold word. rewrite take_while_app; [|done|].
  - rewrite field_path_spelled; [done|done|done|]. rewrite length_app. pose proof (spell_path_length path). lia.
  - destruct path as [|w path]; [by apply stops_word|]. cbn. by rewrite word_char_ascii.
Qed.

Lemma lex_token t rest last prev :
  token_ok last t = true → (t = TClose ∨ stops rest = true) →
  match t with TChain _ => prev = Some 41%Z | _ => prev ≠ Some 41%Z end →
  ∃ c r, spell_token t ++ rest = c :: r ∧ lex_one prev last c r = Ok (Some t, rest).
Proof.
  intros Hok Hs Hprev. destruct t as [w| |path|path|name path|v| | | | |]; try (destruct Hs as [?|Hs]; [done|]).
  - cbn [token_ok] in Hok. apply andb_true_iff in Hok as [[Hw Hd%negb_true_iff]%andb_true_iff Hk%negb_true_iff].
    apply bool_decide_eq_false in Hk. destruct (lex_word w rest last prev Hw Hd Hs) as (c & r & Heq & Hl).
    exists c, r. split; [done|]. by rewrite Hl, word_token_plain.
  - exists (ch "."), rest. split; [done|]. unfold lex_one. cbn -[field_path ch]. by rewrite dot_tail.
  - cbn [token_ok] in Hok. apply andb_true_iff in Hok as [Hne Hp].
    destruct (lex_path path rest last prev) as (r & Hr & Hl); [by destruct path|done|done|].
    exists (ch "."), r. split; [done|]. rewrite Hl. destruct last as [[]|]; try done. destruct prev as [b|]; [|done].
    destruct (b =? ch ")")%Z eqn:Hb; [|done]. by apply Z.eqb_eq in Hb as ->.
  - cbn [token_ok] in Hok. apply andb_true_iff in Hok as [[Hne Hp]%andb_true_iff Hlast]. subst prev.
    destruct (lex_path path rest last (Some 41%Z)) as (r & Hr & Hl); [by destruct path|done|done|].
    exists (ch "."), r. split; [done|]. rewrite Hl. by destruct last as [[]|].
  - cbn [token_ok] in Hok. apply andb_true_iff in Hok as [Hn Hp]. destruct name as [|c name]; [done|].
    apply andb_true_iff in Hn as [->%Z.eqb_eq Hn]. exists (ch "$"), (name ++ spell_path path ++ rest).
    split; [cbn; by rewrite <- app_assoc|]. by apply lex_variable.
  - cbn [token_ok spell_token] in *. destruct v as [|b|[z|f]|s|l|m]; try done.
    + apply (lex_word (lit "nil")); [|done|done]. unfold word_ok. cbn -[is_word_char]. by rewrite !word_char_ascii.
    + destruct b; [apply (lex_word (lit "true"))|apply (lex_word (lit "false"))]; try done;
        unfold word_ok; cbn -[is_word_char]; by rewrite !word_char_ascii.
    + by apply lex_number.
    + exists 34%Z, ((s ≫= escape) ++ 34%Z :: rest). split; [cbn -[mbind]; by rewrite <- app_assoc|].
      unfold lex_one. cbn -[quoted mbind]. by rewrite quoted_spelled.
  - by exists 40%Z, rest.
  - by exists 41%Z, rest.
  - by exists 124%Z, rest.
  - by exists 44%Z, rest.
  - by exists 58%Z, (61%Z :: rest).
Qed.

Lemma before_one c r : before c r r = Some c.
Proof. unfold before. cbn [length]. replace (S (length r) - length r) with 1 by lia. done. Qed.

Lemma spell_stops t ts : tokens_ok (Some t) ts = true → t = TClose ∨ stops (spell ts) = true.
Proof.
  destruct ts as [|t' ts]; [by right|]. cbn [tokens_ok spell]. intros [Ht _]%andb_true_iff.
  destruct t'; try (by right). cbn [token_ok] in Ht. apply andb_true_iff in Ht as [_ Ht]. left. by destruct t.
Qed.

Lemma lex_loop_first fuel prev last t ts :
  token_ok last t = true → tokens_ok (Some t) ts = true → length (spell_token t ++ spell ts) ≤ fuel →
  match t with TChain _ => prev = Some 41%Z | _ => prev ≠ Some 41%Z end →
  (∀ fuel' prev', length (spell ts) ≤ fuel' → (Some t = Some TClose → prev' = Some 41%Z) →
     lex_loop fuel' prev' (Some t) (spell ts) = Ok ts) →
  lex_loop fuel prev last (spell_token t ++ spell ts) = Ok (t :: ts).
Proof.
  intros Ht Hts Hf Hp Hrest. destruct (lex_token t (spell ts) last prev Ht (spell_stops _ _ Hts) Hp) as (c & r & Heq & Hl).
  rewrite Heq in Hf |- *. destruct fuel as [|fuel]; [cbn in Hf; lia|]. cbn [lex_loop]. rewrite Hl. cbn [rbind fst snd].
  pose proof (lex_one_ends prev last c r) as He. rewrite Hl in He. cbn in He, Hf.
  rewrite Hrest; [done|lia|]. intros [= ->]. cbn in Heq. injection Heq as <- <-. apply before_one.
Qed.
Lemma lex_loop_spelled fuel prev last ts :
  tokens_ok last ts = true → length (spell ts) ≤ fuel → (last = Some TClose → prev = Some 41%Z) →
  lex_loop fuel prev last (spell ts) = Ok ts.
Proof.
  revert fuel prev last. induction ts as [|t ts IH]; intros fuel prev last Hok Hf Hprev; [by destruct fuel|].
  cbn [tokens_ok] in Hok. apply andb_true_iff in Hok as [Ht Hts].
  assert (Hone : ∀ fuel' prev', length (spell_token t ++ spell ts) ≤ fuel' →
    match t with TChain _ => prev' = Some 41%Z | _ => prev' ≠ Some 41%Z end →
    lex_loop fuel' prev' last (spell_token t ++ spell ts) = Ok (t :: ts)).
  { intros fuel' prev' Hf' Hp'. apply lex_loop_first; [done..|]. intros fuel'' prev'' Hf'' Hp''. by apply IH. }
  cbn [spell] in *. destruct t; try (cbn [app] in *; destruct fuel as [|fuel]; [cbn in Hf; lia|]; cbn [lex_loop];
    unfold lex_one at 1; cbn [is_white Z.leb Z.eqb Pos.eqb Z.compare Pos.compare Pos.compare_cont andb orb];
    cbn [rbind fst snd]; rewrite before_one; apply Hone; [cbn in Hf |- *; lia|done]).
  cbn [app] in *. apply Hone; [done|]. apply Hprev. cbn [token_ok] in Ht. apply andb_true_iff in Ht as [_ Ht].
  by destruct last as [[]|].
Qed.
Lemma lex_spelled ts : tokens_ok None ts = true → lex (spell ts) = Ok ts.
Proof. intros Hok. by apply lex_loop_spelled. Qed.
(** Without the space in front. *)
Lemma lex_trimmed t ts : tokens_ok None (t :: ts) = true → lex (spell_token t ++ spell ts) = Ok (t :: ts).
Proof.
  cbn [tokens_ok]. intros [Ht Hts]%andb_true_iff. apply lex_loop_first; [done|done|done| |].
  - destruct t; try done. cbn [token_ok] in Ht. by apply andb_true_iff in Ht as [_ ?].
  - intros fuel' prev' Hf Hp. by apply lex_loop_spelled.
Qed.
End spell.
