(* ===== verification/TemplateText.v ===== *)
(** * TemplateText: templates as the user types them

    The splitter finds the actions of a printed template again, so that the
    whole of [template_parse] reads back what the printer of [TemplateParse]
    and the spelling of [TemplateLex] write. *)

From stdpp Require Import base list numbers option strings pretty gmap.
From Stdlib Require Import ZArith Lia Ascii.
From S2P Require Import Prelude Text Template TemplateParse TemplateLex.
Local Open Scope nat_scope.

Section text.
Context `{HF : F64} `{HU : Unicode} {HL : UnicodeLaws}.
Implicit Types (t : Token) (ts : list Token) (ps : list Piece).

(** ** More fuel changes nothing *)

Definition fine {A} (r : result A TemplateError) : Prop := r ≠ Err OutOfFuel.

Lemma rbind_more {A B} (r r' : result A TemplateError) (k k' : A → result B TemplateError) :
  (fine r → r' = r) → (∀ x, r = Ok x → fine (k x) → k' x = k x) → fine (rbind r k) → rbind r' k' = rbind r k.
Proof.
  intros Hr Hk Hf. destruct r as [x|e]; cbn [rbind] in *.
  - rewrite Hr by done. by apply Hk.
  - rewrite Hr; [done|]. unfold fine in *. congruence.
Qed.

Lemma blocks_more fuel :
  (∀ fuel' depth ps, fuel ≤ fuel' → fine (parse_block fuel depth ps) → parse_block fuel' depth ps = parse_block fuel depth ps) ∧
  (∀ fuel' depth ps, fuel ≤ fuel' → fine (block_loop fuel depth ps) → block_loop fuel' depth ps = block_loop fuel depth ps) ∧
  (∀ fuel' keyword ts ps depth, fuel ≤ fuel' → fine (parse_branch fuel keyword ts ps depth) →
     parse_branch fuel' keyword ts ps depth = parse_branch fuel keyword ts ps depth).
Proof.
  induction fuel as [|fuel (IHb & IHl & IHn)]; [by split_and!; intros; destruct fuel'|].
  split_and!; intros [|fuel']; intros; try lia; rename H0 into Hr; assert (Hle : fuel ≤ fuel') by lia.
  - cbn [parse_block] in *. revert Hr. apply rbind_more; [done|]. intros _ _ Hr. by apply IHl.
  - cbn [block_loop] in *. destruct ps as [|[text|tokens] ps]; [done|..].
    + revert Hr. apply rbind_more; [by apply IHl|done].
    + destruct (action_head tokens); try done.
      * revert Hr. apply rbind_more; [by apply IHn|]. intros x _. apply rbind_more; [by apply IHl|done].
      * revert Hr. apply rbind_more; [done|]. intros x _. apply rbind_more; [by apply IHl|done].
  - cbn [parse_branch] in *. revert Hr. apply rbind_more; [done|]. intros _ _. apply rbind_more; [done|]. intros p _.
    destruct (_ && _); [done|]. apply rbind_more; [by apply IHb|]. intros x _. apply rbind_more; [|done].
    destruct (x.1.2) as [|[|[] tail]|]; try done.
    + apply rbind_more; [by apply IHb|done].
    + destruct (_ && _); [|done]. apply rbind_more; [by apply IHn|done].
Qed.

(** ** Empty texts change nothing *)

Definition is_blank (piece : Piece) : bool := match piece with PText [] => true | _ => false end.
Definition solid ps : list Piece := filter (λ p, is_blank p = false) ps.

Lemma solid_length ps : length (solid ps) ≤ length ps.
Proof. apply length_filter. Qed.

(** The same result, but for blank pieces in what is left. *)
Definition same_left {A} (r r' : result (A * list Piece) TemplateError) : Prop :=
  match r, r' with
  | Ok (x, rest), Ok (x', rest') => x = x' ∧ rest' = solid rest
  | Err e, Err e' => e = e'
  | _, _ => False
  end.

Lemma blocks_solid fuel :
  (∀ depth ps, 3 * length ps + 3 ≤ fuel → same_left (parse_block fuel depth ps) (parse_block fuel depth (solid ps))) ∧
  (∀ depth ps, 3 * length ps + 2 ≤ fuel → same_left (block_loop fuel depth ps) (block_loop fuel depth (solid ps))) ∧
  (∀ keyword ts ps depth, 3 * length ps + 4 ≤ fuel →
     same_left (parse_branch fuel keyword ts ps depth) (parse_branch fuel keyword ts (solid ps) depth)).
Proof.
  induction fuel as [|fuel (IHb & IHl & IHn)]; [split_and!; intros; lia|]. split_and!.
  - intros depth ps Hf. cbn [parse_block]. destruct (check_depth depth); [|done]. cbn [rbind]. apply IHl. lia.
  - intros depth ps Hf. destruct ps as [|piece ps]; [done|]. cbn [length] in Hf.
    assert (IHps : ∀ r, length r ≤ length ps → same_left (block_loop fuel depth r) (block_loop fuel depth (solid r)))
      by (intros r Hr; apply IHl; lia).
    unfold solid. rewrite filter_cons. fold (solid ps). destruct (decide (is_blank piece = false)) as [Hb|Hb].
    + cbn [block_loop]. destruct piece as [text|tokens].
      * specialize (IHps ps ltac:(lia)). destruct (block_loop fuel depth ps) as [[[ns st] r]|], (block_loop fuel depth (solid ps)) as [[[ns' st'] r']|];
          cbn in *; try done. destruct IHps as [[= <- <-] ->]. by destruct (bool_decide (text = [])).
      * destruct (action_head tokens); try done.
        -- pose proof (IHn keyword rest ps (S depth) ltac:(lia)) as Hn.
           pose proof (proj2 (proj2 (blocks_enough fuel)) keyword rest ps (S depth) ltac:(lia)) as Hlen.
           destruct (parse_branch fuel keyword rest ps (S depth)) as [[n r]|], (parse_branch fuel keyword rest (solid ps) (S depth)) as [[n' r']|];
             cbn [same_left rbind fst snd ends] in *; try done. destruct Hn as [<- ->].
           specialize (IHps r ltac:(lia)). destruct (block_loop fuel depth r) as [[[ns st] r1]|], (block_loop fuel depth (solid r)) as [[[ns' st'] r2]|];
             cbn in *; try done. by destruct IHps as [[= <- <-] ->].
        -- destruct (parse_pipeline_tokens tokens depth) as [p|]; cbn [rbind]; [|done]. specialize (IHps ps ltac:(lia)).
           destruct (block_loop fuel depth ps) as [[[ns st] r]|], (block_loop fuel depth (solid ps)) as [[[ns' st'] r']|]; cbn in *; try done.
           by destruct IHps as [[= <- <-] ->].
    + destruct piece as [[|]|]; try done. specialize (IHps ps ltac:(lia)).
      pose proof (proj1 (proj2 (blocks_enough fuel)) depth (solid ps)) as He.
      specialize (He ltac:(pose proof (solid_length ps); lia)).
      rewrite (proj1 (proj2 (blocks_more fuel)) (S fuel) depth (solid ps)); [cbn [block_loop]|lia|].
      * destruct (block_loop fuel depth ps) as [[[ns st] r]|], (block_loop fuel depth (solid ps)) as [[[ns' st'] r']|]; cbn in *; try done.
      * unfold fine. destruct (block_loop fuel depth (solid ps)) as [[[ns' []] r']|]; cbn in He; try done. congruence.
  - intros keyword ts ps depth Hf. cbn [parse_branch]. destruct (check_depth depth) as [u|]; [|done]. cbn [rbind].
    destruct (parse_pipeline_tokens ts depth) as [p|]; cbn [rbind]; [|done]. destruct (_ && _); [done|].
    pose proof (IHb depth ps ltac:(lia)) as Hb. pose proof (proj1 (blocks_enough fuel) depth ps ltac:(lia)) as Hlen.
    destruct (parse_block fuel depth ps) as [[[a st] r]|], (parse_block fuel depth (solid ps)) as [[[a' st'] r']|];
      cbn [same_left rbind fst snd block_ends] in *; try done. destruct Hb as [[= <- <-] ->].
    destruct st as [|[|[] tail]|]; try done.
    + specialize (IHb depth r ltac:(lia)). destruct (parse_block fuel depth r) as [[[b st] r1]|], (parse_block fuel depth (solid r)) as [[[b' st'] r2]|];
        cbn [same_left rbind fst snd] in *; try done. destruct IHb as [[= <- <-] ->]. by destruct st.
    + destruct (_ && _); [|done]. specialize (IHn keyword tail r (S depth) ltac:(lia)).
      destruct (parse_branch fuel keyword tail r (S depth)) as [[n r1]|], (parse_branch fuel keyword tail (solid r) (S depth)) as [[n' r2]|];
        cbn in *; try done. by destruct IHn as [<- ->].
Qed.

Lemma pieces_solid ps ns : parse_pieces (solid ps) = Ok ns → parse_pieces ps = Ok ns.
Proof.
  unfold parse_pieces. intros Hp. pose proof (proj1 (blocks_solid (3 * length ps + 3)) 0 ps ltac:(lia)) as Hs.
  pose proof (proj1 (blocks_enough (3 * length (solid ps) + 3)) 0 (solid ps) ltac:(lia)) as He.
  rewrite (proj1 (blocks_more (3 * length (solid ps) + 3)) (3 * length ps + 3) 0 (solid ps)) in Hs.
  - destruct (parse_block _ 0 ps) as [[[a st] r]|], (parse_block _ 0 (solid ps)) as [[[a' st'] r']|]; cbn in *; try done.
    destruct Hs as [[= <- <-] _]. done.
  - pose proof (solid_length ps). lia.
  - unfold fine. destruct (parse_block _ 0 (solid ps)) as [[[a' []] r']|]; cbn in He; congruence.
Qed.

(** ** Finding the actions *)

Definition spell_piece (piece : Piece) : Str :=
  match piece with PText text => text | PAction ts => ACTION_OPEN ++ spell ts ++ ACTION_CLOSE end.
Definition spell_pieces ps : Str := ps ≫= spell_piece.

Definition no_brace (s : Str) : bool := forallb (λ c, negb (c =? 123)%Z) s.
Definition piece_ok (piece : Piece) : bool :=
  match piece with
  | PText text => negb (bool_decide (text = [])) && no_brace text
  | PAction ts => negb (bool_decide (ts = [])) && tokens_ok None ts
  end.
(** No text follows a text. *)
Fixpoint alternate ps : bool :=
  match ps with
  | PText _ :: (PText _ :: _) => false
  | _ :: ps => alternate ps
  | [] => true
  end.

(** The pieces with the empty texts the splitter adds. *)
Fixpoint padded ps : list Piece :=
  match ps with
  | [] => [PText []]
  | PAction ts :: ps => PText [] :: PAction ts :: padded ps
  | PText text :: ps =>
      match padded ps with
      | PText [] :: more => PText text :: more
      | more => PText text :: more
      end
  end.

Lemma solid_padded ps : forallb piece_ok ps = true → alternate ps = true → solid (padded ps) = ps.
Proof.
  induction ps as [|piece ps IH]; [done|]. cbn [forallb]. intros [Hp Hps]%andb_true_iff Ha.
  destruct piece as [text|ts].
  - cbn [piece_ok] in Hp. apply andb_true_iff in Hp as [Hne _]. destruct text as [|c text]; [done|].
    assert (Ha' : alternate ps = true) by (destruct ps as [|[]]; done). specialize (IH Hps Ha').
    destruct ps as [|[|ts] ps]; [done|done|]. cbn [padded] in *.
    change (solid (PText (c :: text) :: PAction ts :: padded ps)) with (PText (c :: text) :: PAction ts :: solid (padded ps)).
    change (solid (PText [] :: PAction ts :: padded ps)) with (PAction ts :: solid (padded ps)) in IH. by rewrite IH.
  - cbn [padded]. change (solid (PText [] :: PAction ts :: padded ps)) with (PAction ts :: solid (padded ps)). by rewrite IH.
Qed.

Lemma strip_none s : match s with c :: _ => (123 =? c)%Z = false | [] => True end → strip ACTION_OPEN s = None.
Proof. destruct s as [|c s]; [done|]. intros Hc. change ACTION_OPEN with [123; 123]%Z. cbn [strip]. by rewrite Hc. Qed.
Lemma cut_text text s : no_brace text = true → cut ACTION_OPEN (text ++ ACTION_OPEN ++ s) = Some (text, s).
Proof.
  induction text as [|c text IH]; [done|]. cbn [no_brace forallb]. intros [Hc%negb_true_iff Ht]%andb_true_iff.
  change ((c :: text) ++ ACTION_OPEN ++ s) with (c :: (text ++ ACTION_OPEN ++ s)). cbn [cut].
  rewrite strip_none by (by rewrite Z.eqb_sym). by rewrite IH.
Qed.
Lemma cut_no_brace text : no_brace text = true → cut ACTION_OPEN text = None.
Proof.
  induction text as [|c text IH]; [done|]. cbn [no_brace forallb]. intros [Hc%negb_true_iff Ht]%andb_true_iff.
  cbn [cut]. rewrite strip_none by (by rewrite Z.eqb_sym). by rewrite IH.
Qed.

(** *** The end of an action *)

Definition plain (c : Z) : bool := negb ((c =? 34) || (c =? 96) || (c =? 39) || (c =? 125))%Z.
Definition prepend (k : Str) (r : option (Str * Str)) : option (Str * Str) := '(a, b) ← r; Some (k ++ a, b).

Lemma prepend_app k k' r : prepend k (prepend k' r) = prepend (k ++ k') r.
Proof. destruct r as [[a b]|]; [|done]. cbn. by rewrite app_assoc. Qed.
Lemma scan_plain k s : forallb plain k = true → scan_action None (k ++ s) = prepend k (scan_action None s).
Proof.
  induction k as [|c k IH]; cbn [forallb app]; [by destruct (scan_action None s) as [[]|]|].
  intros [Hc Hk]%andb_true_iff. unfold plain in Hc. apply negb_true_iff in Hc. rewrite !orb_false_iff in Hc. destruct Hc as [[[H1 H2] H3] H4].
  cbn [scan_action]. change (ch "`") with 96%Z. rewrite H1, H2, H3. cbn [orb].
  replace (strip ACTION_CLOSE (c :: k ++ s)) with (@None Str) by (change ACTION_CLOSE with [125; 125]%Z; cbn [strip]; by rewrite Z.eqb_sym, H4).
  rewrite IH by done. by destruct (scan_action None s) as [[]|].
Qed.
Lemma scan_quoted x s : scan_action (Some 34%Z) ((x ≫= escape) ++ 34%Z :: s) = prepend ((x ≫= escape) ++ [34%Z]) (scan_action None s).
Proof.
  induction x as [|c x IH];
    [cbn [mbind list_bind app scan_action Z.eqb Pos.eqb orb andb]; by destruct (scan_action None s) as [[]|]|].
  cbn [mbind list_bind]. rewrite <- !app_assoc. unfold escape at 1 3.
  destruct (c =? 34)%Z eqn:H1; [|destruct (c =? 92)%Z eqn:H2]; cbn [orb app].
  - apply Z.eqb_eq in H1 as ->. cbn [scan_action Z.eqb Pos.eqb orb andb]. rewrite IH. by destruct (scan_action None s) as [[]|].
  - apply Z.eqb_eq in H2 as ->. cbn [scan_action Z.eqb Pos.eqb orb andb]. rewrite IH. by destruct (scan_action None s) as [[]|].
  - cbn [scan_action]. rewrite H2, H1, andb_false_r. rewrite IH. by destruct (scan_action None s) as [[]|].
Qed.

Lemma word_char_solid c : is_word_char c = true →
  is_white c = false ∧ plain c = true ∧ (c =? 45)%Z = false ∧ (c =? 47)%Z = false.
Proof.
  intros Hw. assert (Hne : ∀ d, d ∈ [34; 96; 39; 125; 45; 47]%Z → (c =? d)%Z = false).
  { intros d Hin. apply Z.eqb_neq. intros ->. rewrite !elem_of_cons, elem_of_nil in Hin.
    destruct_or!; subst; try done; by rewrite word_char_ascii in Hw. }
  split; [|unfold plain; rewrite !Hne by set_solver; done].
  unfold is_word_char in Hw. apply orb_true_iff in Hw as [Hw|Hw%Z.eqb_eq]; [by apply alphanumeric_not_white|by subst].
Qed.
Lemma words_plain w : forallb is_word_char w = true → forallb plain w = true.
Proof. rewrite !forallb_forall. intros Hw c Hc. by apply word_char_solid, Hw. Qed.
Lemma path_plain path : forallb word_ok path = true → forallb plain (spell_path path) = true.
Proof.
  induction path as [|w path IH]; [done|]. cbn [forallb]. intros [[_ Hw]%andb_true_iff Hp]%andb_true_iff.
  change (spell_path (w :: path)) with (ch "." :: w ++ spell_path path). cbn [forallb]. rewrite forallb_app, (words_plain w Hw), IH by done. done.
Qed.
Lemma digits_plain s : forallb ascii_digit s = true → forallb plain s = true.
Proof.
  rewrite !forallb_forall. intros Hd c Hc. specialize (Hd c Hc). apply andb_true_iff in Hd as [H1%Z.leb_le H2%Z.leb_le].
  unfold plain. rewrite !(proj2 (Z.eqb_neq _ _)) by lia. done.
Qed.
Lemma scan_token last t s : token_ok last t = true → scan_action None (spell_token t ++ s) = prepend (spell_token t) (scan_action None s).
Proof.
  intros Hok. destruct t as [w| |path|path|name path|v| | | | |]; cbn [token_ok spell_token] in *; try (by apply scan_plain).
  - apply andb_true_iff in Hok as [[[_ Hw]%andb_true_iff _]%andb_true_iff _]. by apply scan_plain, words_plain.
  - apply andb_true_iff in Hok as [_ Hp]. by apply scan_plain, path_plain.
  - apply andb_true_iff in Hok as [[_ Hp]%andb_true_iff _]. by apply scan_plain, path_plain.
  - apply andb_true_iff in Hok as [Hn Hp]. destruct name as [|c name]; [done|]. apply andb_true_iff in Hn as [->%Z.eqb_eq Hn].
    apply scan_plain. rewrite forallb_app, path_plain by done. cbn. by rewrite words_plain.
  - destruct v as [|[]|[z|f]|x|l|m]; try done; try (by apply scan_plain).
    + apply andb_true_iff in Hok as [H1%Z.leb_le H2%Z.ltb_lt]. cbn [spell_literal].
      destruct (show_int_reads z ltac:(done)) as (c & r & -> & Hr & _ & Hc). apply scan_plain. cbn [forallb].
      rewrite (digits_plain r Hr), andb_true_r. destruct Hc as [Hc|[-> _]]; [|done].
      pose proof (digits_plain [c]) as Hd. cbn in Hd. rewrite Hc in Hd. specialize (Hd eq_refl). by apply andb_true_iff in Hd as [? _].
    + cbn [spell_literal]. unfold quote. rewrite <- app_comm_cons, <- app_assoc. cbn [app scan_action Z.eqb Pos.eqb orb].
      rewrite scan_quoted. by destruct (scan_action None s) as [[]|].
Qed.
Lemma scan_spelled last ts s : tokens_ok last ts = true → scan_action None (spell ts ++ ACTION_CLOSE ++ s) = Some (spell ts, s).
Proof.
  revert last. induction ts as [|t ts IH]; intros last; [done|]. cbn [tokens_ok]. intros [Ht Hts]%andb_true_iff.
  cbn [spell]. rewrite <- !app_assoc, scan_plain by (by destruct t). rewrite (scan_token last), (IH (Some t)), prepend_app by done.
  cbn. by rewrite <- app_assoc.
Qed.

(** *** The ends of a token *)

Definition good_first (c : Z) : Prop := is_white c = false ∧ (c =? 47)%Z = false.
Definition good_last (c : Z) : Prop := is_white c = false ∧ (c =? 45)%Z = false.
Definition good_ends (s : Str) : Prop :=
  (∃ c r, s = c :: r ∧ good_first c) ∧ (∃ r c, s = r ++ [c] ∧ good_last c).

Lemma good_one c : good_first c → good_last c → good_ends [c].
Proof. intros. split; [by exists c, []|by exists [], c]. Qed.
Lemma good_snoc s c : good_last c → ∃ r d, s ++ [c] = r ++ [d] ∧ good_last d.
Proof. intros. by exists s, c. Qed.
Lemma words_last pre w : w ≠ [] → forallb is_word_char w = true → ∃ r c, pre ++ w = r ++ [c] ∧ good_last c.
Proof.
  intros Hne Hw. destruct w as [|c w _] using rev_ind; [done|]. rewrite forallb_app in Hw. apply andb_true_iff in Hw as [_ Hc].
  cbn in Hc. rewrite andb_true_r in Hc. exists (pre ++ w), c. rewrite app_assoc. split; [done|].
  destruct (word_char_solid c Hc) as (? & _ & ? & _). done.
Qed.
Lemma digits_good c : ascii_digit c = true → good_first c ∧ good_last c.
Proof.
  intros [H1%Z.leb_le H2%Z.leb_le]%andb_true_iff. unfold good_first, good_last. rewrite !(proj2 (Z.eqb_neq _ _)) by lia.
  assert (is_white c = false); [|done]. unfold is_white. repeat (apply orb_false_iff; split); try (apply Z.eqb_neq; lia);
    apply andb_false_iff; rewrite !Z.leb_gt; lia.
Qed.
Lemma path_last pre path : path ≠ [] → forallb word_ok path = true → ∃ r c, pre ++ spell_path path = r ++ [c] ∧ good_last c.
Proof.
  intros Hne Hp. destruct path as [|w path _] using rev_ind; [done|]. rewrite forallb_app in Hp. apply andb_true_iff in Hp as [_ Hw].
  cbn in Hw. rewrite andb_true_r in Hw. unfold spell_path. rewrite bind_app. cbn. rewrite app_nil_r.
  unfold word_ok in Hw. apply andb_true_iff in Hw as [Hn Hw].
  change (ch "." :: w) with ([ch "."] ++ w). rewrite !app_assoc. apply words_last; [by destruct w|done].
Qed.
Lemma token_ends last t : token_ok last t = true → good_ends (spell_token t).
Proof.
  intros Hok. destruct t as [w| |path|path|name path|v| | | | |]; cbn [token_ok spell_token] in *; try (by apply good_one).
  - apply andb_true_iff in Hok as [[Hw _]%andb_true_iff _]. destruct (word_ok_cons w Hw) as (c & r & -> & Hc & Hr). split.
    + exists c, r. split; [done|]. destruct (word_char_solid c Hc) as (? & _ & _ & ?). done.
    + apply (words_last [] (c :: r)); [done|]. cbn. by rewrite Hc.
  - apply andb_true_iff in Hok as [Hne Hp]. destruct path as [|w path]; [done|]. split; [|by apply (path_last [] (w :: path))].
    by exists (ch "."), (w ++ spell_path path).
  - apply andb_true_iff in Hok as [[Hne Hp]%andb_true_iff _]. destruct path as [|w path]; [done|]. split; [|by apply (path_last [] (w :: path))].
    by exists (ch "."), (w ++ spell_path path).
  - apply andb_true_iff in Hok as [Hn Hp]. destruct name as [|c name]; [done|]. apply andb_true_iff in Hn as [->%Z.eqb_eq Hn].
    split; [by exists (ch "$"), (name ++ spell_path path)|].
    destruct path as [|w path]; [|by apply (path_last (ch "$" :: name) (w :: path))]. cbn [spell_path mbind list_bind]. rewrite app_nil_r.
    destruct name as [|d name]; [by exists [], (ch "$")|]. by apply (words_last [ch "$"] (d :: name)).
  - destruct v as [|[]|[z|f]|x|l|m]; try done; cbn [spell_literal].
    + split; [by do 2 eexists|]. by exists (lit "ni"), 108%Z.
    + split; [by do 2 eexists|]. by exists (lit "tru"), 101%Z.
    + split; [by do 2 eexists|]. by exists (lit "fals"), 101%Z.
    + apply andb_true_iff in Hok as [H1%Z.leb_le H2%Z.ltb_lt].
      destruct (show_int_reads z ltac:(done)) as (c & r & -> & Hr & _ & Hc). split.
      * exists c, r. split; [done|]. destruct Hc as [Hc|[-> _]]; [by apply digits_good|done].
      * destruct r as [|d r _] using rev_ind.
        -- exists [], c. split; [done|]. destruct Hc as [Hc|[_ Hc]]; [by apply digits_good|done].
        -- rewrite forallb_app in Hr. apply andb_true_iff in Hr as [_ Hd]. cbn in Hd. rewrite andb_true_r in Hd.
           exists (c :: r), d. split; [done|]. by apply digits_good.
    + unfold quote. split; [by do 2 eexists|]. rewrite app_comm_cons. by apply good_snoc.
  - by split; [do 2 eexists|exists (lit ":"), 61%Z].
Qed.
Lemma spell_ends last t ts : tokens_ok last (t :: ts) = true → good_ends (spell_token t ++ spell ts).
Proof.
  revert last t. induction ts as [|t' ts IH]; intros last t; cbn [tokens_ok]; intros [Ht Hts]%andb_true_iff;
    pose proof (token_ends last t Ht) as [(c & r & Heq & Hc) Hl].
  - cbn [spell]. rewrite app_nil_r. split; [by exists c, r|done].
  - split; [exists c, (r ++ spell (t' :: ts)); by rewrite Heq|].
    destruct (IH (Some t) t' Hts) as [_ (r' & d & Heq' & Hd)]. cbn [spell]. rewrite Heq', !app_assoc. by apply good_snoc.
Qed.

Lemma trim_good s : good_ends s → trim s = s.
Proof.
  intros [(c & r & Heq & Hc & _) (r' & d & Heq' & Hd & _)]. unfold trim, trim_start.
  assert (Hs : drop_while is_white s = s) by (rewrite Heq; cbn; by rewrite Hc). rewrite Hs. unfold trim_end.
  rewrite Heq', rev_app_distr. cbn [rev app drop_while]. rewrite Hd. cbn [rev]. by rewrite rev_involutive.
Qed.

Lemma action_end_spelled t ts s :
  tokens_ok None (t :: ts) = true →
  action_end (32%Z :: spell_token t ++ spell ts ++ ACTION_CLOSE ++ s) = Some (32%Z :: spell_token t ++ spell ts, s).
Proof.
  intros Hok. pose proof (spell_ends None t ts Hok) as [(c & r & Heq & Hw & Hn) _].
  assert (Hbody : trim_start (drop_while (λ c, (c =? ch "-")%Z) (32%Z :: spell_token t ++ spell ts ++ ACTION_CLOSE ++ s)) =
    spell_token t ++ spell ts ++ ACTION_CLOSE ++ s).
  { change (drop_while is_white (spell_token t ++ spell ts ++ ACTION_CLOSE ++ s) = spell_token t ++ spell ts ++ ACTION_CLOSE ++ s).
    rewrite app_assoc, Heq. cbn [app drop_while]. by rewrite Hw. }
  unfold action_end. rewrite Hbody.
  assert (Hcom : begins COMMENT_OPEN (spell_token t ++ spell ts ++ ACTION_CLOSE ++ s) = false).
  { rewrite app_assoc, Heq. unfold begins. change COMMENT_OPEN with [47; 42]%Z. cbn [app strip]. by rewrite Z.eqb_sym, Hn. }
  rewrite Hcom. cbn [tokens_ok] in Hok. apply andb_true_iff in Hok as [Ht Hts].
  rewrite (scan_token None), (scan_spelled (Some t)) by done. cbn -[take].
  set (n := length _). replace (S n - n) with 1 by lia. done.
Qed.

(** *** The splitter *)

Lemma split_action fuel text t ts s :
  no_brace text = true → tokens_ok None (t :: ts) = true →
  split_pieces (S fuel) false (text ++ spell_piece (PAction (t :: ts)) ++ s) =
    let? more := split_pieces fuel false s in Ok (PText text :: PAction (t :: ts) :: more).
Proof.
  intros Ht Hok. assert (Hsp : spell (t :: ts) = 32%Z :: spell_token t ++ spell ts).
  { cbn [spell]. destruct t; try done. cbn in Hok. by rewrite andb_false_r in Hok. }
  cbn [spell_piece]. rewrite <- !app_assoc, Hsp. cbn [split_pieces]. rewrite cut_text by done.
  change ((32%Z :: spell_token t ++ spell ts) ++ ACTION_CLOSE ++ s) with (32%Z :: (spell_token t ++ spell ts) ++ ACTION_CLOSE ++ s).
  rewrite <- app_assoc, action_end_spelled by done.
  pose proof (spell_ends None t ts Hok) as Hends. pose proof Hends as [(c & r & Heq & Hw & Hn) (r' & d & Heq' & Hd & Hm)].
  assert (Hlead : trim_marked_leading (32%Z :: spell_token t ++ spell ts) = None) by (rewrite Heq; done).
  rewrite Hlead.
  assert (Htrail : trim_marked_trailing (32%Z :: spell_token t ++ spell ts) = None).
  { unfold trim_marked_trailing. rewrite Heq', app_comm_cons, rev_app_distr. cbn [rev app].
    destruct (rev r' ++ [32%Z]) as [|x y]; [done|]. change (ch "-") with 45%Z. by rewrite Hm. }
  rewrite Htrail.
  assert (Htrim : trim (32%Z :: spell_token t ++ spell ts) = spell_token t ++ spell ts).
  { change (trim (32%Z :: spell_token t ++ spell ts)) with (trim (spell_token t ++ spell ts)). by apply trim_good. }
  rewrite Htrim.
  assert (Hcom : begins COMMENT_OPEN (spell_token t ++ spell ts) = false).
  { rewrite Heq. unfold begins. change COMMENT_OPEN with [47; 42]%Z. cbn [strip]. by rewrite Z.eqb_sym, Hn. }
  rewrite Hcom. cbn [andb]. rewrite lex_trimmed by done. done.
Qed.

Lemma split_spelled fuel ps :
  forallb piece_ok ps = true → alternate ps = true → length ps ≤ fuel →
  split_pieces fuel false (spell_pieces ps) = Ok (padded ps).
Proof.
  revert ps. induction fuel as [|fuel IH]; intros ps Hok Ha Hf; [by destruct ps; [|cbn in Hf; lia]|].
  destruct ps as [|[text|ts] ps]; [done|..]; cbn [forallb length] in *; apply andb_true_iff in Hok as [Hp Hps];
    cbn [piece_ok] in Hp; apply andb_true_iff in Hp as [Hne Hp].
  - destruct ps as [|[|ts] ps]; [|done|].
    + unfold spell_pieces. cbn [mbind list_bind spell_piece]. rewrite app_nil_r. cbn [split_pieces]. by rewrite cut_no_brace.
    + cbn [forallb length] in *. apply andb_true_iff in Hps as [Hp2 Hps]. cbn [piece_ok] in Hp2.
      apply andb_true_iff in Hp2 as [Hne2 Hp2]. destruct ts as [|t ts]; [done|].
      change (spell_pieces (PText text :: PAction (t :: ts) :: ps)) with (text ++ spell_piece (PAction (t :: ts)) ++ spell_pieces ps).
      rewrite split_action by done. rewrite IH; [done|done|by destruct ps as [|[]]|lia].
  - destruct ts as [|t ts]; [done|].
    change (spell_pieces (PAction (t :: ts) :: ps)) with ([] ++ spell_piece (PAction (t :: ts)) ++ spell_pieces ps).
    rewrite split_action by done. rewrite IH; [done|done|by destruct ps as [|[]]|lia].
Qed.

(** ** Whole templates *)

Definition show_template (ns : list Node) : Str := spell_pieces (show_nodes ns).
(** Trees whose text the splitter takes apart as it was written: names are
    words, literals are not floats, texts have no brace and do not touch, and
    no backslash starts an escape of the whole text. *)
Definition spellable (ns : list Node) : bool :=
  tree_ok ns && forallb piece_ok (show_nodes ns) && alternate (show_nodes ns) &&
  forallb (λ c, negb (c =? 92)%Z) (show_template ns) && negb (bool_decide (show_template ns = JSON_SHORTHAND)).

Lemma replace_enough fuel p by_ s :
  p ≠ [] → length s < fuel → replace_all fuel p by_ s = replace_all (S (length s)) p by_ s.
Proof.
  intros Hp. remember (length s) as n eqn:Hn. revert fuel s Hn. induction n as [n IH] using lt_wf_ind. intros fuel s -> Hf.
  destruct fuel as [|fuel]; [lia|]. cbn [replace_all]. destruct (cut p s) as [[a b]|] eqn:Hc; [|done].
  apply cut_length in Hc. assert (length b < length s) by (destruct p; [done|]; cbn in Hc; lia).
  rewrite (IH (length b)) with (fuel := fuel) by (done || lia). rewrite (IH (length b)) with (fuel := length s) by (done || lia). done.
Qed.
Lemma cut_backslash p s : forallb (λ c, negb (c =? 92)%Z) s = true → cut (92%Z :: p) s = None.
Proof.
  induction s as [|c s IH]; [done|]. cbn [forallb cut strip]. intros [Hc%negb_true_iff Hs]%andb_true_iff.
  rewrite Z.eqb_sym, Hc. by rewrite IH.
Qed.
Lemma replace_nothing p by_ s : forallb (λ c, negb (c =? 92)%Z) s = true → replace (92%Z :: p) by_ s = s.
Proof. intros Hs. unfold replace. cbn [replace_all]. by rewrite cut_backslash. Qed.
Lemma strip_app p s : strip p (p ++ s) = Some s.
Proof. induction p as [|c p IH]; [done|]. cbn. by rewrite Z.eqb_refl. Qed.
Lemma pieces_at_most ps : forallb piece_ok ps = true → length ps ≤ length (spell_pieces ps).
Proof.
  induction ps as [|piece ps IH]; [done|]. cbn [forallb]. intros [Hp Hps]%andb_true_iff.
  unfold spell_pieces. cbn [mbind list_bind length]. rewrite length_app. specialize (IH Hps). unfold spell_pieces in IH.
  assert (1 ≤ length (spell_piece piece)); [|lia]. destruct piece as [[|]|]; cbn in *; [done|lia|lia].
Qed.

Lemma seq_all_fine {A} (f : A → result unit TemplateError) l : Forall (λ x, fine (f x)) l → fine (seq_all f l).
Proof.
  induction 1 as [|x l Hx Hl IH]; [done|]. change (fine (f x ;? seq_all f l)). unfold fine in *.
  destruct (f x) as [u|e]; cbn [rbind]; [done|]. congruence.
Qed.
Lemma check_field_fine cols path head : fine (check_field cols path head).
Proof. unfold check_field. by repeat case_match. Qed.
Lemma check_pipeline_fine cols root p : fine (check_pipeline cols root p).
Proof.
  revert root. refine (pipeline_nested (λ o, ∀ root head, fine (check_operand cols root head o))
    (λ p, ∀ root, fine (check_pipeline cols root p)) _ _ _ _ _ _ _ p); try done.
  - intros path root head. cbn. destruct root; [apply check_field_fine|done].
  - intros inner path IH root head. apply IH.
  - intros vs cs IH root.
    change (fine (seq_all (λ command, match command with
      | [] => Ok tt
      | o :: rest => check_operand cols root true o ;? seq_all (check_operand cols root false) rest
      end) cs)). apply seq_all_fine. eapply Forall_impl; [exact IH|]. intros [|o c] Hc; [done|].
    inversion_clear Hc as [|? ? Ho Hrest]. specialize (Ho root true). unfold fine in *.
    destruct (check_operand cols root true o) as [u|e]; cbn [rbind]; [|congruence].
    apply seq_all_fine. eapply Forall_impl; [exact Hrest|]. intros o' Ho'. apply Ho'.
Qed.
Lemma check_nodes_fine cols ns : fine (check_nodes cols true ns).
Proof.
  assert (Hnode : ∀ n root, fine (check_node cols root n)).
  { intros n. refine (node_nested (λ n, ∀ root, fine (check_node cols root n)) _ _ _ _ _ n); [done|intros; apply check_pipeline_fine|..];
      intros p a b Ha Hb root; unfold check_node; fold check_node; pose proof (check_pipeline_fine cols root p) as Hp; unfold fine in *;
      (destruct (check_pipeline cols root p) as [u|e]; cbn [rbind]; [|congruence]);
      match goal with |- rbind (seq_all ?f a) _ ≠ _ => assert (Hfa : fine (seq_all f a)) by
        (apply seq_all_fine; eapply Forall_impl; [exact Ha|]; intros n' Hn'; apply Hn'); unfold fine in Hfa;
        destruct (seq_all f a) as [u'|e]; cbn [rbind]; [|congruence] end;
      apply seq_all_fine; eapply Forall_impl; try exact Hb; intros n' Hn'; apply Hn'. }
  apply seq_all_fine, Forall_true. intros n. apply Hnode.
Qed.

(** C25: printing and parsing a format template: every template whose parts can be
    spelled is read back from its text exactly, as a table or not. *)
Theorem template_round_trip (as_table : bool) (ns : list Node) (cols : list (Str * Str))
    (plain_text : spellable ns = true) (known : check_nodes cols true ns = Ok tt)
    (unambiguous : as_table = false → strip TABLE_PREFIX (show_template ns) = None) :
  template_parse ((if as_table then TABLE_PREFIX else []) ++ show_template ns) cols = Ok (mkTemplate as_table ns cols).
Proof.
  unfold spellable in plain_text.
  apply andb_true_iff in plain_text as [[[[Ht Hp]%andb_true_iff Ha]%andb_true_iff Hb]%andb_true_iff Hj%negb_true_iff].
  unfold template_parse.
  assert (Hbody : match strip TABLE_PREFIX ((if as_table then TABLE_PREFIX else []) ++ show_template ns) with
    | Some body => (true, body) | None => (false, (if as_table then TABLE_PREFIX else []) ++ show_template ns) end =
    (as_table, show_template ns)).
  { destruct as_table; [by rewrite strip_app|]. cbn [app]. by rewrite unambiguous. }
  rewrite Hbody, Hj. change (lit "\t") with [92; 116]%Z. change (lit "\n") with [92; 110]%Z. rewrite !replace_nothing by (rewrite ?replace_nothing; done).
  unfold split_template, show_template. rewrite split_spelled by (done || by apply pieces_at_most). cbn [rbind].
  rewrite (pieces_solid _ ns) by (rewrite solid_padded by done; by apply pieces_read). cbn [rbind]. by rewrite known.
Qed.

(** Parsing a template ends: no text, however malformed, exhausts the fuel of
    the splitter, the lexer or the parser. *)
Theorem template_parse_ends (format : Str) (cols : list (Str * Str)) : template_parse format cols ≠ Err OutOfFuel.
Proof.
  unfold template_parse. destruct (match strip TABLE_PREFIX format with Some _ => _ | None => _ end) as [tbl body].
  set (text := replace _ _ _). unfold split_template. pose proof (split_enough (length text) false text ltac:(lia)) as Hs.
  destruct (split_pieces _ _ text) as [ps|e]; cbn [rbind]; [|congruence].
  pose proof (pieces_enough ps) as Hp. destruct (parse_pieces ps) as [ns|e]; cbn [rbind]; [|congruence].
  assert (Hc : check_nodes cols true ns ≠ Err OutOfFuel) by apply check_nodes_fine.
  destruct (check_nodes cols true ns) as [u|e]; cbn [rbind]; [done|congruence].
Qed.
End text.

(** ** Examples *)

#[export] Instance ascii_unicode : Unicode := {|
  is_alphanumeric c := ascii_digit c || ascii_letter c;
  to_upper c := [if (97 <=? c)%Z && (c <=? 122)%Z then (c - 32)%Z else c];
  str_lower s := (λ c, if (65 <=? c)%Z && (c <=? 90)%Z then (c + 32)%Z else c) <$> s;
|}.
#[export] Instance ascii_unicode_laws : UnicodeLaws.
Proof.
  split; [done|]. intros c. cbn. unfold ascii_digit, ascii_letter.
  rewrite !orb_true_iff, !andb_true_iff, !Z.leb_le. intros Hc. unfold is_white.
  repeat (apply orb_false_iff; split); try (apply Z.eqb_neq; lia); apply andb_false_iff; rewrite !Z.leb_gt; lia.
Qed.
(** Floats that are whole numbers. *)
#[export] Instance whole_floats : F64 := {|
  F := Z; f64_parse _ := None; f64_show := show_int; f64_whole z := Some (show_int z); f64_fixed _ := show_int;
  f64_zero z := (z =? 0)%Z; f64_of_int z := z; f64_compare x y := Some (x ?= y)%Z; f64_eq_dec := _;
|}.

(** [x{{if eq .State "up"}}{{.Name | printf "%s" (.Id).Short}}{{else}}-{{end}}]. *)
Definition demo_tree : list Node :=
  [NText (lit "x");
   NIf (mkPipeline [] [[OFunction (lit "eq"); OField [lit "State"]; OLiteral (VString (lit "up"))]])
     [NAction (mkPipeline [] [[OField [lit "Name"]];
        [OFunction (lit "printf"); OLiteral (VString (lit "%s")); OGroup (mkPipeline [] [[OField [lit "Id"]]]) [lit "Short"]]])]
     [NText (lit "-")]].
Definition demo_columns : list (Str * Str) :=
  (λ x : string * string, (lit x.1, lit x.2)) <$> [("State", "STATE"); ("Name", "NAME"); ("Id", "ID")]%string.

Example trimmed :
  template_parse (lit "a {{- /* note */ -}} {{.Name}}\n") demo_columns =
    Ok (mkTemplate false [NText (lit "a"); NAction (mkPipeline [] [[OField [lit "Name"]]]); NText [10%Z]] demo_columns).
Proof. vm_compute. reflexivity. Qed.
Lemma template_round_trip_witness :
  template_parse (TABLE_PREFIX ++ show_template demo_tree) demo_columns = Ok (mkTemplate true demo_tree demo_columns).
Proof. apply (template_round_trip true demo_tree demo_columns); [vm_compute; reflexivity|vm_compute; reflexivity|discriminate]. Defined.

Example unclosed_refused : template_parse (lit "{{if .State}}x") demo_columns = Err MissingEnd.
Proof. vm_compute. reflexivity. Qed.
Example unknown_refused : template_parse (lit "{{.Secret}}") demo_columns = Err (UnknownField (lit "Secret")).
Proof. vm_compute. reflexivity. Qed.
