(* ===== verification/TemplateFuncs.v ===== *)
(** * TemplateFuncs: the functions a template can call

    Models [ward-cli/src/template_funcs.rs]: which values count as true, how
    a value prints, and the functions of Go's text/template and of Docker's
    [--format].  The text of a value as JSON is a parameter, as it is the
    work of [serde_json].  An index or a slice that the code takes without a
    test is [Panicked] when it is out of range; that this never happens is a
    theorem. *)

From stdpp Require Import base list numbers option strings pretty gmap.
From Stdlib Require Import ZArith Lia Ascii.
From S2P Require Import Prelude Text Template TemplateParse TemplateLex TemplateText.
Local Open Scope Z_scope.

Inductive EvalError :=
| WrongArgs
| MissingArgument
| Incompatible
| NotComparable
| BadIndex
| IndexRange
| NotIndexable
| NoLength
| SliceRange
| NotBoundary
| NotSliceable
| NotAnArray
| NoFormat
| TooWide
| NotDefined (name : Str)
| NoField (name : Str)
| MissingCommand
| UndefinedVariable (name : Str)
| NotIterable
| NotCallable
| LabelArgs
(** An index out of range that nothing guards. *)
| Panicked
(** The fuel of a loop ran out. *)
| Exhausted.

(** [Value::to_string]. *)
Class JsonText `{F64} := { json_show : Value → Str }.

(** ** Ordered text *)

(** [str::cmp]: the order of the bytes is that of the code points. *)
Fixpoint str_compare (a b : Str) : comparison :=
  match a, b with
  | [], [] => Eq
  | [], _ :: _ => Lt
  | _ :: _, [] => Gt
  | x :: a, y :: b => match x ?= y with Eq => str_compare a b | c => c end
  end.
(** [keys.sort()], with the value of each key. *)
Fixpoint insert_key {A} (k : Str) (v : A) (l : list (Str * A)) : list (Str * A) :=
  match l with
  | [] => [(k, v)]
  | (k', v') :: l' => match str_compare k k' with Gt => (k', v') :: insert_key k v l' | _ => (k, v) :: l end
  end.
Fixpoint sort_keys {A} (l : list (Str * A)) : list (Str * A) :=
  match l with [] => [] | (k, v) :: l => insert_key k v (sort_keys l) end.
(** [Map::get]. *)
Fixpoint get {A} (m : list (Str * A)) (name : Str) : option A :=
  match m with [] => None | (k, v) :: m => if bool_decide (k = name) then Some v else get m name end.

(** ** UTF-8 *)

(** [char::len_utf8] and the bytes of a character. *)
Definition len_utf8 (c : Z) : nat :=
  if c <? 0x80 then 1 else if c <? 0x800 then 2 else if c <? 0x10000 then 3 else 4.
Definition encode_utf8 (c : Z) : list Z :=
  let low n := 0x80 + Z.land (Z.shiftr c n) 0x3F in
  if c <? 0x80 then [c]
  else if c <? 0x800 then [0xC0 + Z.shiftr c 6; low 0]
  else if c <? 0x10000 then [0xE0 + Z.shiftr c 12; low 6; low 0]
  else [0xF0 + Z.shiftr c 18; low 12; low 6; low 0].
(** [str::len]. *)
Definition byte_len (s : Str) : nat := sum_list (len_utf8 <$> s).
(** [str::split_at_checked]: [None] inside a character or past the end. *)
Fixpoint split_bytes (n : nat) (s : Str) : option (Str * Str) :=
  match n, s with
  | O, _ => Some ([], s)
  | S _, [] => None
  | S _, c :: s =>
      if (n <? len_utf8 c)%nat then None
      else match split_bytes (n - len_utf8 c) s with Some (a, b) => Some (c :: a, b) | None => None end
  end.
(** [s.get(from..to)], with [from <= to]. *)
Definition get_bytes (from to : nat) (s : Str) : option Str :=
  '(_, rest) ← split_bytes from s; '(part, _) ← split_bytes (to - from) rest; Some part.

(** [{:x}], for at most sixteen digits. *)
Definition hex_digit (d : Z) : Z := if d <? 10 then 48 + d else 87 + d.
Fixpoint hex_loop (fuel : nat) (z : Z) (acc : Str) : Str :=
  match fuel with
  | O => acc
  | S fuel =>
      let acc := hex_digit (Z.land z 15) :: acc in
      if z <? 16 then acc else hex_loop fuel (Z.shiftr z 4) acc
  end.
Definition show_hex (z : Z) : Str := hex_loop 16 z [].
(** [{:02x}] and [{:04x}]. *)
Definition pad_hex (width : nat) (z : Z) : Str := let s := show_hex z in replicate (width - length s) 48 ++ s.

Section funcs.
Context `{HF : F64} `{HU : Unicode} `{HJ : !JsonText}.

(** ** Values *)

(** [Number::as_f64], [as_i64], [as_u64] and [is_f64]. *)
Definition as_f64 (n : Num) : F := match n with NInt z => f64_of_int z | NFloat f => f end.
Definition as_i64 (n : Num) : option Z := match n with NInt z => if z <? 2 ^ 63 then Some z else None | NFloat _ => None end.
Definition as_u64 (n : Num) : option Z := match n with NInt z => if 0 <=? z then Some z else None | NFloat _ => None end.
Definition is_f64 (n : Num) : bool := match n with NInt _ => false | NFloat _ => true end.
(** [Number::to_string]. *)
Definition num_show (n : Num) : Str := match n with NInt z => show_int z | NFloat f => f64_show f end.

Definition truthy (v : Value) : bool :=
  match v with
  | VNull => false
  | VBool b => b
  | VNumber n => negb (f64_zero (as_f64 n))
  | VString s => match s with [] => false | _ => true end
  | VArray l => match l with [] => false | _ => true end
  | VObject m => match m with [] => false | _ => true end
  end.
Definition integral (n : Num) : option Str := if is_f64 n then f64_whole (as_f64 n) else None.
Definition bool_show (b : bool) : Str := if b then lit "true" else lit "false".
Fixpoint nested (v : Value) : Str :=
  match v with
  | VNull => lit "<nil>"
  | VString s => s
  | VArray items => lit "[" ++ join_str (lit " ") (List.map nested items) ++ lit "]"
  | VObject m =>
      lit "map[" ++
      join_str (lit " ") (List.map (λ kv, kv.1 ++ lit ":" ++ kv.2) (sort_keys (List.map (λ kv, (kv.1, nested kv.2)) m))) ++
      lit "]"
  | VNumber n => default (num_show n) (integral n)
  | VBool b => bool_show b
  end.
Definition display (v : Value) : Str := match v with VNull => [] | other => nested other end.

Definition kind (v : Value) : string :=
  match v with
  | VNull => "nil" | VBool _ => "bool" | VNumber _ => "number" | VString _ => "string" | VArray _ => "array" | VObject _ => "map"
  end.
Definition type_name (v : Value) : Str :=
  match v with
  | VNull => lit "<nil>"
  | VBool _ => lit "bool"
  | VNumber n => if is_f64 n then lit "float64" else lit "int"
  | VString _ => lit "string"
  | VArray _ => lit "[]interface {}"
  | VObject _ => lit "map[string]interface {}"
  end.

(** ** Arguments *)

Definition exactly (args : list Value) (count : nat) : result (list Value) EvalError :=
  if (length args =? count)%nat then Ok args else Err WrongArgs.
(** [args[i]]. *)
Definition arg (args : list Value) (i : nat) : result Value EvalError := ok_or (args !! i) Panicked.
Definition text (args : list Value) : result Str EvalError :=
  let? one := exactly args 1 in let? v := arg one 0 in Ok (display v).
Definition fold_logic (args : list Value) (stop_on : bool) : result Value EvalError :=
  match last args with
  | None => Err WrongArgs
  | Some final => Ok (default final (List.find (λ v, Bool.eqb (truthy v) stop_on) args))
  end.

(** ** Comparison *)

Definition bool_compare (x y : bool) : comparison :=
  match x, y with false, true => Lt | true, false => Gt | _, _ => Eq end.
Definition compare (a b : Value) : result comparison EvalError :=
  match a, b with
  | VNumber x, VNumber y =>
      match as_i64 x, as_i64 y with
      | Some x, Some y => Ok (x ?= y)
      | _, _ => ok_or (f64_compare (as_f64 x) (as_f64 y)) NotComparable
      end
  | VString x, VString y => Ok (str_compare x y)
  | VBool x, VBool y => Ok (bool_compare x y)
  | VNull, VNull => Ok Eq
  | _, _ => Err Incompatible
  end.
Definition is_eq (c : comparison) : bool := match c with Eq => true | _ => false end.
Definition is_lt (c : comparison) : bool := match c with Lt => true | _ => false end.
Definition is_gt (c : comparison) : bool := match c with Gt => true | _ => false end.
Fixpoint equals_loop (first : Value) (rest : list Value) (matched : bool) : result bool EvalError :=
  match rest with
  | [] => Ok matched
  | other :: rest => let? c := compare first other in equals_loop first rest (matched || is_eq c)
  end.
Definition equals (args : list Value) : result bool EvalError :=
  match args with
  | first :: second :: rest => equals_loop first (second :: rest) false
  | _ => Err MissingArgument
  end.
Definition ordered (args : list Value) (accept : comparison → bool) : result Value EvalError :=
  let? two := exactly args 2 in
  let? a := arg two 0 in
  let? b := arg two 1 in
  let? c := compare a b in
  Ok (VBool (accept c)).

(** ** Indexes, lengths, slices *)

Fixpoint index_loop (current : Value) (keys : list Value) : result Value EvalError :=
  match keys with
  | [] => Ok current
  | key :: keys =>
      let? next :=
        match current, key with
        | VArray items, VNumber n =>
            let? i := ok_or (as_i64 n) BadIndex in
            if 0 <=? i then ok_or (items !! Z.to_nat i) IndexRange else Err IndexRange
        | VObject m, VString name => Ok (default VNull (get m name))
        | _, _ => Err NotIndexable
        end in
      index_loop next keys
  end.
Definition index (args : list Value) : result Value EvalError :=
  match args with [] => Err WrongArgs | first :: keys => index_loop first keys end.
Definition count_of (v : Value) : result nat EvalError :=
  match v with
  | VString s => Ok (byte_len s)
  | VArray a => Ok (length a)
  | VObject o => Ok (length o)
  | _ => Err NoLength
  end.
Definition length_value (v : Value) : result Value EvalError :=
  let? n := count_of v in Ok (VNumber (NInt (Z.of_nat n))).
Definition position (v : Value) : result nat EvalError :=
  match v with VNumber n => let? i := ok_or (as_u64 n) BadIndex in Ok (Z.to_nat i) | _ => Err BadIndex end.
(** [items[from..to]]. *)
Definition range_of (items : list Value) (from to : nat) : result (list Value) EvalError :=
  if (from <=? to)%nat && (to <=? length items)%nat then Ok (take (to - from) (drop from items)) else Err Panicked.
Definition bound (bounds : list Value) (i otherwise : nat) : result nat EvalError :=
  match bounds !! i with Some v => position v | None => Ok otherwise end.
Definition slice (args : list Value) : result Value EvalError :=
  match args with
  | target :: bounds =>
      if (2 <? length bounds)%nat then Err WrongArgs else
      let? len := count_of target in
      let? from := bound bounds 0 0 in
      let? to := bound bounds 1 len in
      if (to <? from)%nat || (len <? to)%nat then Err SliceRange else
      match target with
      | VString s => let? part := ok_or (get_bytes from to s) NotBoundary in Ok (VString part)
      | VArray items => let? part := range_of items from to in Ok (VArray part)
      | _ => Err NotSliceable
      end
  | [] => Err WrongArgs
  end.

(** ** Text *)

Definition join (args : list Value) : result Value EvalError :=
  let? two := exactly args 2 in
  let? a := arg two 0 in
  match a with
  | VArray items => let? b := arg two 1 in Ok (VString (join_str (display b) (display <$> items)))
  | _ => Err NotAnArray
  end.
(** [str::split] for a pattern that is not empty; the fuel is the length. *)
Fixpoint split_text (fuel : nat) (sep s : Str) : list Str :=
  match fuel with
  | O => [s]
  | S fuel => match cut sep s with Some (a, b) => a :: split_text fuel sep b | None => [s] end
  end.
Definition split (args : list Value) : result Value EvalError :=
  let? two := exactly args 2 in
  let? a := arg two 0 in
  let? b := arg two 1 in
  let s := display a in
  let sep := display b in
  Ok (VArray (VString <$> match sep with [] => (λ c, [c]) <$> s | _ => split_text (S (length s)) sep s end)).
Fixpoint title_from (previous_in_word : bool) (s : Str) : Str :=
  match s with
  | [] => []
  | c :: s => (if previous_in_word then [c] else to_upper c) ++ title_from (is_word_char c) s
  end.
Definition title (s : Str) : Str := title_from false s.
Definition truncate (args : list Value) : result Value EvalError :=
  let? two := exactly args 2 in
  let? b := arg two 1 in
  let? keep := position b in
  let? a := arg two 0 in
  Ok (VString (take keep (display a))).
Definition is_text (v : Value) : bool := match v with VString _ => true | _ => false end.
Fixpoint print_from (previous : option Value) (args : list Value) : Str :=
  match args with
  | [] => []
  | v :: args =>
      match previous with
      | Some u => if negb (is_text v) && negb (is_text u) then lit " " else []
      | None => []
      end ++ display v ++ print_from (Some v) args
  end.
Definition print (args : list Value) : Str := print_from None args.
Definition spaced (args : list Value) : Str := join_str (lit " ") (display <$> args).

(** ** printf *)

Definition DEFAULT_FLOAT_PRECISION : nat := 6.
Definition MAX_PRINTF_WIDTH : Z := 4096.
Record Spec := mkSpec { left : bool; zero : bool; width : Z; precision : option Z }.

(** The totals stay far below the width of [usize], so that its own checks do not fail first. *)
Fixpoint number (total : Z) (s : Str) : result (Z * Str) EvalError :=
  match s with
  | c :: r =>
      if ascii_digit c then
        let t := total * 10 + (c - 48) in
        if t <=? MAX_PRINTF_WIDTH then number t r else Err TooWide
      else Ok (total, s)
  | [] => Ok (total, [])
  end.
Definition is_flag (c : Z) : bool := existsb (Z.eqb c) (lit "-0+ #").
Fixpoint flags (l z : bool) (s : Str) : bool * bool * Str :=
  match s with
  | c :: r => if is_flag c then flags (l || (c =? ch "-")) (z || (c =? ch "0")) r else (l, z, s)
  | [] => (l, z, [])
  end.
Definition spec (s : Str) : result (Spec * Str) EvalError :=
  let '(l, z, s) := flags false false s in
  let? w := number 0 s in
  match w.2 with
  | c :: r =>
      if c =? ch "." then let? p := number 0 r in Ok (mkSpec l z w.1 (Some p.1), p.2)
      else Ok (mkSpec l z w.1 None, w.2)
  | [] => Ok (mkSpec l z w.1 None, [])
  end.

Definition bad_verb (verb : Z) (v : Value) : Str :=
  lit "%!" ++ [verb] ++ lit "(" ++ type_name v ++ lit "=" ++ display v ++ lit ")".
(** [char::is_control]. *)
Definition is_control (c : Z) : bool := (c <? 32) || ((127 <=? c) && (c <? 160)).
Definition quote_char (c : Z) : Str :=
  if c =? 34 then [92; 34]
  else if c =? 92 then [92; 92]
  else if c =? 10 then lit "\n"
  else if c =? 9 then lit "\t"
  else if c =? 13 then lit "\r"
  else if c =? 7 then lit "\a"
  else if c =? 8 then lit "\b"
  else if c =? 12 then lit "\f"
  else if c =? 11 then lit "\v"
  else if is_control c && (c <? 0x100) then lit "\x" ++ pad_hex 2 c
  else if is_control c then lit "\u" ++ pad_hex 4 c
  else [c].
Definition go_quote (s : Str) : Str := [34] ++ (s ≫= quote_char) ++ [34].
Definition hex (v : Value) : option Str :=
  match v with
  | VNumber n =>
      match as_i64 n with
      | Some i => Some ((if i <? 0 then lit "-" else []) ++ show_hex (Z.abs i))
      | None => show_hex <$> as_u64 n
      end
  | VString s => Some (s ≫= λ c, encode_utf8 c ≫= pad_hex 2)
  | _ => None
  end.
Definition verb_text (verb : Z) (v : Value) (sp : Spec) : Str :=
  if verb =? ch "v" then display v
  else if verb =? ch "s" then
    match v with
    | VString s => match precision sp with Some keep => take (Z.to_nat keep) s | None => s end
    | VArray _ | VObject _ => display v
    | _ => bad_verb verb v
    end
  else if verb =? ch "q" then match v with VString s => go_quote s | _ => bad_verb verb v end
  else if verb =? ch "d" then match v with VNumber (NInt z) => show_int z | _ => bad_verb verb v end
  else if verb =? ch "t" then match v with VBool b => bool_show b | _ => bad_verb verb v end
  else if verb =? ch "f" then
    match v with
    | VNumber (NFloat f) => f64_fixed (match precision sp with Some n => Z.to_nat n | None => DEFAULT_FLOAT_PRECISION end) f
    | _ => bad_verb verb v
    end
  else if verb =? ch "x" then default (bad_verb verb v) (hex v)
  else bad_verb verb v.
Definition pad (s : Str) (sp : Spec) : Str :=
  let missing := (Z.to_nat (width sp) - length s)%nat in
  if left sp then s ++ replicate missing 32
  else if zero sp then
    match strip (lit "-") s with
    | Some digits => lit "-" ++ replicate missing 48 ++ digits
    | None => replicate missing 48 ++ s
    end
  else replicate missing 32 ++ s.

(** The text written, and the values no verb has taken. *)
Fixpoint printf_loop (fuel : nat) (values : list Value) (s : Str) : result (Str * list Value) EvalError :=
  match s with
  | [] => Ok ([], values)
  | c :: r =>
      match fuel with
      | O => Err Exhausted
      | S fuel =>
          if negb (c =? ch "%") then let? x := printf_loop fuel values r in Ok (c :: x.1, x.2)
          else
            let? sr := spec r in
            match sr.2 with
            | [] => Ok (lit "%!(NOVERB)", values)
            | verb :: r =>
                if verb =? ch "%" then let? x := printf_loop fuel values r in Ok (ch "%" :: x.1, x.2)
                else
                  match values with
                  | v :: values =>
                      let? x := printf_loop fuel values r in Ok (pad (verb_text verb v sr.1) sr.1 ++ x.1, x.2)
                  | [] =>
                      let? x := printf_loop fuel [] r in Ok (lit "%!" ++ [verb] ++ lit "(MISSING)" ++ x.1, x.2)
                  end
            end
      end
  end.
Definition printf (args : list Value) : result Value EvalError :=
  match args with
  | VString format :: rest =>
      let? x := printf_loop (length format) rest format in
      Ok (VString (x.1 ++
        match x.2 with
        | [] => []
        | extra => lit "%!(EXTRA " ++ join_str (lit ", ") ((λ v, type_name v ++ lit "=" ++ display v) <$> extra) ++ lit ")"
        end))
  | _ => Err NoFormat
  end.

(** ** Calls *)

Definition named (name : Str) (s : string) : bool := bool_decide (name = lit s).
Definition call (name : Str) (args : list Value) : result Value EvalError :=
  if named name "and" then fold_logic args false
  else if named name "or" then fold_logic args true
  else if named name "not" then let? one := exactly args 1 in let? v := arg one 0 in Ok (VBool (negb (truthy v)))
  else if named name "eq" then let? b := equals args in Ok (VBool b)
  else if named name "ne" then let? b := equals args in Ok (VBool (negb b))
  else if named name "lt" then ordered args is_lt
  else if named name "le" then ordered args (λ c, negb (is_gt c))
  else if named name "gt" then ordered args is_gt
  else if named name "ge" then ordered args (λ c, negb (is_lt c))
  else if named name "index" then index args
  else if named name "len" then let? one := exactly args 1 in let? v := arg one 0 in length_value v
  else if named name "slice" then slice args
  else if named name "join" then join args
  else if named name "split" then split args
  else if named name "lower" then let? s := text args in Ok (VString (str_lower s))
  else if named name "upper" then let? s := text args in Ok (VString (s ≫= to_upper))
  else if named name "title" then let? s := text args in Ok (VString (title s))
  else if named name "truncate" then truncate args
  else if named name "json" then let? one := exactly args 1 in let? v := arg one 0 in Ok (VString (json_show v))
  else if named name "print" then Ok (VString (print args))
  else if named name "println" then Ok (VString (spaced args ++ [10]))
  else if named name "printf" then printf args
  else Err (NotDefined name).

(** ** Errors a template can cause

    A call to a function of the table fails only in the ways the functions
    mean to fail: every index is in range and the loop over a format ends. *)

Definition intended (e : EvalError) : bool :=
  match e with Panicked | Exhausted | MissingCommand | NotDefined _ | UndefinedVariable _ => false | _ => true end.
Definition sane {A} (r : result A EvalError) : Prop := ∀ e, r = Err e → intended e = true.

Lemma sane_Ok {A} (a : A) : sane (Ok a).
Proof. by intros e. Qed.
Lemma sane_Err {A} e : intended e = true → sane (Err (A := A) e).
Proof. by intros He ? [= <-]. Qed.
Lemma sane_bind {A B} (r : result A EvalError) (k : A → result B EvalError) :
  sane r → (∀ a, r = Ok a → sane (k a)) → sane (rbind r k).
Proof. intros Hr Hk e [?|(a & ? & ?)]%rbind_Err; [by apply Hr|by eapply Hk]. Qed.
Lemma sane_ok_or {A} (o : option A) e : intended e = true → sane (ok_or o e).
Proof. intros He. destruct o; [apply sane_Ok|by apply sane_Err]. Qed.
Lemma sane_exactly args n : sane (exactly args n).
Proof. unfold exactly. case_match; [apply sane_Ok|by apply sane_Err]. Qed.
(** [exactly] makes the indexes that follow it safe. *)
Lemma sane_arg args n l i : exactly args n = Ok l → (i < n)%nat → sane (arg l i).
Proof.
  unfold exactly, arg. case_match; [|done]. intros [= <-] Hi.
  destruct (lookup_lt_is_Some_2 args i) as [v ->]; [by apply Nat.eqb_eq in H as ->|apply sane_Ok].
Qed.
End funcs.

Ltac sane_step :=
  match goal with
  | |- sane (rbind _ _) => apply sane_bind; [|intros]
  | |- sane (Ok _) => apply sane_Ok
  | |- sane (Err _) => apply sane_Err; reflexivity
  | |- sane (ok_or _ _) => apply sane_ok_or; reflexivity
  | |- sane (exactly _ _) => apply sane_exactly
  | H : exactly ?args _ = Ok ?l |- sane (arg ?l _) => apply (sane_arg args _ _ _ H); lia
  | |- sane (match ?x with _ => _ end) => destruct x eqn:?
  | |- sane (if ?x then _ else _) => destruct x eqn:?
  end.
Ltac sane := repeat sane_step.

Section errors.
Context `{HF : F64} `{HU : Unicode} `{HJ : !JsonText}.

Lemma sane_compare a b : sane (compare a b).
Proof. unfold compare. sane. Qed.
Lemma sane_equals args : sane (equals args).
Proof.
  destruct args as [|first [|v rest]]; [by apply sane_Err..|]. change (sane (equals_loop first (v :: rest) false)).
  generalize false, (v :: rest). intros b l. revert b. induction l as [|u l IH]; intros b; cbn; sane; [apply sane_compare|apply IH].
Qed.
Lemma sane_index args : sane (index args).
Proof.
  unfold index. destruct args as [|v keys]; [sane|]. revert v. induction keys as [|k keys IH]; intros v; cbn; sane. apply IH.
Qed.
Lemma sane_position v : sane (position v).
Proof. unfold position. sane. Qed.
Lemma sane_bound bs i d : sane (bound bs i d).
Proof. unfold bound. case_match; [apply sane_position|sane]. Qed.
Lemma sane_slice args : sane (slice args).
Proof.
  unfold slice. destruct args as [|target bs]; [sane|]. destruct (_ <? _)%nat; [sane|].
  apply sane_bind; [destruct target; cbn; sane|]. intros len Hlen.
  apply sane_bind; [apply sane_bound|]. intros from _. apply sane_bind; [apply sane_bound|]. intros to _.
  destruct ((to <? from)%nat || (len <? to)%nat) eqn:Hr; [sane|]. destruct target; sane.
  apply orb_false_iff in Hr as [?%Nat.ltb_ge ?%Nat.ltb_ge]. injection Hlen as <-.
  unfold range_of. rewrite !leb_correct by done. apply sane_Ok.
Qed.

Lemma number_shrinks total s n r : number total s = Ok (n, r) → (length r ≤ length s)%nat.
Proof.
  revert total. induction s as [|c s IH]; intros total; cbn -[Z.mul Z.add]; [by intros [= _ <-]|].
  repeat case_match; try done; [intros ?%IH; cbn; lia|by intros [= _ <-]].
Qed.
Lemma number_bounded total s n r : 0 ≤ total ≤ MAX_PRINTF_WIDTH → number total s = Ok (n, r) → 0 ≤ n ≤ MAX_PRINTF_WIDTH.
Proof.
  revert total. induction s as [|c s IH]; intros total Ht; cbn -[Z.mul Z.add MAX_PRINTF_WIDTH]; [by intros [= <- _]|].
  destruct (ascii_digit c) eqn:Hc; [|by intros [= <- _]]. destruct (_ <=? _) eqn:Hle; [|done].
  apply IH. apply Z.leb_le in Hle. unfold ascii_digit in Hc. lia.
Qed.
Lemma flags_shrink l z s l' z' r : flags l z s = (l', z', r) → (length r ≤ length s)%nat.
Proof.
  revert l z. induction s as [|c s IH]; intros l z; cbn; [by intros [= _ _ <-]|].
  case_match; [intros ?%IH; lia|by intros [= _ _ <-]].
Qed.
Lemma sane_number total s : sane (number total s).
Proof. revert total. induction s as [|c s IH]; intros total; cbn -[Z.mul Z.add MAX_PRINTF_WIDTH]; sane. apply IH. Qed.
Lemma sane_spec s : sane (spec s).
Proof. unfold spec. destruct (flags _ _ _) as [[l z] r]. sane; apply sane_number. Qed.
Lemma spec_shrinks s sp r : spec s = Ok (sp, r) → (length r ≤ length s)%nat.
Proof.
  unfold spec. destruct (flags _ _ _) as [[l z] s'] eqn:Hf. apply flags_shrink in Hf.
  intros ([w r1] & Hw%number_shrinks & H)%rbind_Ok. cbn [fst snd] in *. destruct r1 as [|c r1]; [injection H as _ <-; cbn; lia|].
  destruct (c =? ch "."); [|injection H as _ <-; lia].
  apply rbind_Ok in H as ([p r2] & Hp%number_shrinks & [= _ <-]). cbn in *. lia.
Qed.
Lemma sane_printf_loop fuel values s : (length s ≤ fuel)%nat → sane (printf_loop fuel values s).
Proof.
  revert values s. induction fuel as [|fuel IH]; intros values [|c r] Hl; cbn [printf_loop]; cbn in Hl; try (sane; lia).
  destruct (negb _); [sane; apply IH; lia|]. apply sane_bind; [apply sane_spec|]. intros [sp r'] Hs%spec_shrinks. cbn [fst snd].
  destruct r' as [|verb r']; [sane|]. cbn in Hs. sane; apply IH; lia.
Qed.
Lemma sane_printf args : sane (printf args).
Proof. unfold printf. destruct args as [|[] ?]; sane. by apply sane_printf_loop. Qed.

Lemma sane_text args : sane (text args).
Proof. unfold text. sane. Qed.
Lemma sane_fold_logic args b : sane (fold_logic args b).
Proof. unfold fold_logic. sane. Qed.
Lemma sane_ordered args f : sane (ordered args f).
Proof. unfold ordered. sane. apply sane_compare. Qed.
Lemma sane_join args : sane (join args).
Proof. unfold join. sane. Qed.
Lemma sane_split args : sane (split args).
Proof. unfold split. sane. Qed.
Lemma sane_truncate args : sane (truncate args).
Proof. unfold truncate. sane. apply sane_position. Qed.
Lemma sane_length v : sane (length_value v).
Proof. unfold length_value, count_of. sane. Qed.
#[local] Hint Resolve sane_fold_logic sane_ordered sane_join sane_split sane_truncate sane_length sane_equals sane_index
  sane_slice sane_printf sane_text : core.

(** Every name of the table has its branch. *)
Lemma call_sane name args : is_function name = true → sane (call name args).
Proof.
  intros Hf%bool_decide_eq_true. unfold call.
  repeat match goal with |- sane (if ?b then _ else _) => destruct b eqn:?; [solve [auto | sane; auto]|] end.
  exfalso. unfold named in *. repeat match goal with H : bool_decide _ = false |- _ => apply bool_decide_eq_false in H end.
  unfold FUNCTIONS in Hf. rewrite !fmap_cons, !elem_of_cons in Hf.
  repeat (destruct Hf as [?|Hf]; [contradiction|]). by apply not_elem_of_nil in Hf.
Qed.

(** ** What the functions compute *)

Lemma len_utf8_pos c : (0 < len_utf8 c)%nat.
Proof. unfold len_utf8. repeat case_match; lia. Qed.
Lemma byte_len_cons c s : byte_len (c :: s) = (len_utf8 c + byte_len s)%nat.
Proof. done. Qed.
Lemma byte_len_app a b : byte_len (a ++ b) = (byte_len a + byte_len b)%nat.
Proof. induction a as [|c a IH]; [done|]. cbn [app]. rewrite !byte_len_cons. lia. Qed.
Lemma split_bytes_app a b : split_bytes (byte_len a) (a ++ b) = Some (a, b).
Proof.
  induction a as [|c a IH]; [by destruct b|]. rewrite byte_len_cons. pose proof (len_utf8_pos c).
  destruct (len_utf8 c + byte_len a)%nat as [|n] eqn:Hn; [lia|]. cbn [app split_bytes].
  rewrite (proj2 (Nat.ltb_ge _ _)) by lia. replace (S n - len_utf8 c)%nat with (byte_len a) by lia. by rewrite IH.
Qed.
Lemma split_bytes_spec n s a b : split_bytes n s = Some (a, b) ↔ s = a ++ b ∧ byte_len a = n.
Proof.
  split; [|by intros [-> <-]; apply split_bytes_app]. revert n a. induction s as [|c s IH]; intros n a.
  - destruct n; [by intros [= <- <-]|done].
  - destruct n as [|n]; [by intros [= <- <-]|]. cbn [split_bytes]. destruct (Nat.ltb_spec (S n) (len_utf8 c)) as [|Hge]; [done|].
    destruct (split_bytes _ _) as [[a' b']|] eqn:Hs; [|done]. intros [= <- <-]. apply IH in Hs as [-> Hs].
    rewrite byte_len_cons. split; [done|lia].
Qed.
Lemma get_bytes_spec from to s t :
  (from ≤ to)%nat → get_bytes from to s = Some t ↔ ∃ a b, s = a ++ t ++ b ∧ byte_len a = from ∧ byte_len (a ++ t) = to.
Proof.
  intros Hle. unfold get_bytes. split.
  - intros ([a r] & [-> Ha]%split_bytes_spec & ([t' b] & [-> Ht]%split_bytes_spec & [= <-])%bind_Some)%bind_Some.
    exists a, b. rewrite byte_len_app. split_and!; [done..|lia].
  - intros (a & b & -> & <- & Ht). rewrite byte_len_app in Ht. rewrite split_bytes_app. cbn.
    replace (to - byte_len a)%nat with (byte_len t) by lia. by rewrite split_bytes_app.
Qed.

Definition int (n : nat) : Value := VNumber (NInt (Z.of_nat n)).
Lemma position_int n : position (int n) = Ok n.
Proof. cbn. rewrite (proj2 (Z.leb_le _ _)) by lia. cbn. by rewrite Nat2Z.id. Qed.
(** [slice] of a text counts bytes and cuts between characters only: it
    answers a part of the text whose two ends are at these byte offsets, and
    refuses an offset inside a character or past the end. *)
Theorem slice_exact (s : Str) (from to : nat) (v : Value) :
  slice [VString s; int from; int to] = Ok v ↔
  ∃ a t b, s = a ++ t ++ b ∧ v = VString t ∧ byte_len a = from ∧ byte_len (a ++ t) = to.
Proof.
  unfold slice. cbn [length Nat.ltb Nat.leb count_of rbind bound lookup list_lookup]. unfold bound. cbn [lookup list_lookup].
  rewrite !position_int. cbn [rbind]. destruct (_ || _) eqn:Hr.
  - split; [done|]. intros (a & t & b & -> & _ & <- & <-). rewrite !byte_len_app in Hr.
    apply orb_true_iff in Hr as [?%Nat.ltb_lt|?%Nat.ltb_lt]; lia.
  - apply orb_false_iff in Hr as [?%Nat.ltb_ge ?%Nat.ltb_ge]. split.
    + intros (t & Ht & [= <-])%rbind_Ok. destruct (get_bytes from to s) as [t'|] eqn:Hg; [|done]. injection Ht as ->.
      apply get_bytes_spec in Hg as (a & b & ? & ? & ?); [|lia]. by exists a, t, b.
    + intros (a & t & b & Hs & -> & Ha & Ht). rewrite (proj2 (get_bytes_spec from to s t ltac:(lia))); [done|eauto].
Qed.

(** A padded text has the width asked for, or its own when that is more. *)
Lemma pad_length s sp : length (pad s sp) = Nat.max (length s) (Z.to_nat (width sp)).
Proof.
  unfold pad. destruct (left sp); [rewrite length_app, length_replicate; lia|].
  destruct (zero sp); [|rewrite length_app, length_replicate; lia].
  destruct (strip _ s) as [r|] eqn:Hs; [apply strip_length in Hs|]; rewrite ?length_app, length_replicate; [cbn in *|]; lia.
Qed.
End errors.

(** ** Examples, from the tests of the source *)

#[export] Instance go_json : JsonText := {| json_show := nested |}.
Abbreviation text_of s := (VString (lit s)).
(** The text of what a call answers. *)
Definition shown (name : string) (args : list Value) : result Str EvalError := let? v := call (lit name) args in Ok (display v).
Example printf_verbs :
  shown "printf" [text_of "%s=%d %v"; text_of "k"; int 5; VArray [int 1; int 2]] = Ok (lit "k=5 [1 2]").
Proof. vm_compute. reflexivity. Qed.
Example printf_width :
  shown "printf" [text_of "[%5s][%-5s][%05d]"; text_of "a"; text_of "b"; int 42] = Ok (lit "[    a][b    ][00042]").
Proof. vm_compute. reflexivity. Qed.
Example printf_extra : shown "printf" [text_of "a"; int 1; text_of "b"] = Ok (lit "a%!(EXTRA int=1, string=b)").
Proof. vm_compute. reflexivity. Qed.
Example printf_hex : shown "printf" [text_of "%x %x"; VNumber (NInt (-255)); text_of "hi"] = Ok (lit "-ff 6869").
Proof. vm_compute. reflexivity. Qed.
Example printf_wide : shown "printf" [text_of "%5000s"; text_of "x"] = Err TooWide.
Proof. vm_compute. reflexivity. Qed.
Example titled : shown "title" [text_of "hello big_world-x"] = Ok (lit "Hello Big_world-X").
Proof. vm_compute. reflexivity. Qed.
Example split_shown : shown "split" [text_of "a,b"; text_of ","] = Ok (lit "[a b]").
Proof. vm_compute. reflexivity. Qed.
Example displayed_map :
  display (VObject [(lit "b", int 2); (lit "a", VArray [VBool true])]) = lit "map[a:[true] b:2]".
Proof. vm_compute. reflexivity. Qed.
Example out_of_range : shown "index" [VArray [int 1]; int 4] = Err IndexRange.
Proof. vm_compute. reflexivity. Qed.
