(* ===== verification/TemplateEval.v ===== *)
(** * TemplateEval: running a template

    Models the evaluation half of [ward-cli/src/template.rs]: the run over
    the nodes with its stack of variables, the header of a table and the
    alignment of its columns.  The run is compared with a meaning of
    templates that has no stack, only lexical scopes. *)

From stdpp Require Import base list numbers option strings pretty gmap.
From Stdlib Require Import ZArith Lia Ascii.
From S2P Require Import Prelude Text Template TemplateParse TemplateLex TemplateText TemplateFuncs.
Local Open Scope Z_scope.

Definition ROOT_VARIABLE : Str := lit "$".
Definition LABEL_MAP_KEY : Str := lit "Label".
Definition COLUMN_SEPARATOR : Z := 9.
Definition COLUMN_PADDING : nat := 3.

Section eval.
Context `{HF : F64} `{HU : Unicode} `{HJ : !JsonText}.
Abbreviation Vars := (list (Str * Value)).

Fixpoint lookup_path (value : Value) (path : list Str) : result Value EvalError :=
  match path with
  | [] => Ok value
  | name :: rest =>
      match value with
      | VObject m =>
          match get m (join_str (lit ".") path) with
          | Some found => Ok found
          | None => match get m name with None => Ok VNull | Some found => lookup_path found rest end
          end
      | VNull => Ok VNull
      | _ => Err (NoField name)
      end
  end.

(** [Value::get] with a text. *)
Definition value_get (v : Value) (key : Str) : option Value := match v with VObject m => get m key | _ => None end.
Definition label (dot : Value) (args : list Value) : result Value EvalError :=
  match args with
  | [VString key] => Ok (default (VString []) (labels ← value_get dot LABEL_MAP_KEY; value_get labels key))
  | _ => Err LabelArgs
  end.

(** ** Operands, commands and pipelines

    They read the variables, newest first, and change nothing. *)

(** The operands after the head, up to one that decides [and] or [or]. *)
Definition operands_with (eval : Operand → result Value EvalError) (stop_on : option bool) :
    list Operand → result (Value + list Value) EvalError :=
  fix go rest :=
    match rest with
    | [] => Ok (inr [])
    | operand :: rest =>
        let? value := eval operand in
        if bool_decide (stop_on = Some (truthy value)) then Ok (inl value) else
        let? more := go rest in
        Ok (match more with inl v => inl v | inr args => inr (value :: args) end)
    end.
Definition stop_on (head : Operand) : option bool :=
  match head with
  | OFunction name => if named name "and" then Some false else if named name "or" then Some true else None
  | _ => None
  end.
Definition command_with (eval : Operand → result Value EvalError) (dot : Value) (command : list Operand) (piped : option Value)
    : result Value EvalError :=
  match command with
  | [] => Err MissingCommand
  | head :: rest =>
      let? r := operands_with eval (stop_on head) rest in
      match r with
      | inl value => Ok value
      | inr args =>
          let args := args ++ option_list piped in
          match head, args with
          | OFunction name, _ => call name args
          | OField [method], _ :: _ => if bool_decide (method = LABEL_METHOD) then label dot args else Err NotCallable
          | _, _ :: _ => Err NotCallable
          | other, [] => eval other
          end
      end
  end.
Definition commands_with (eval : Operand → result Value EvalError) (dot : Value) :
    option Value → list (list Operand) → result (option Value) EvalError :=
  fix go piped commands :=
    match commands with
    | [] => Ok piped
    | command :: commands => let? v := command_with eval dot command piped in go (Some v) commands
    end.

Fixpoint operand (root : Value) (vars : Vars) (dot : Value) (o : Operand) : result Value EvalError :=
  match o with
  | ODot => Ok dot
  | OField path => lookup_path dot path
  | OLiteral v => Ok v
  | OVariable name path =>
      let? base :=
        if bool_decide (name = ROOT_VARIABLE) then Ok root else ok_or (get vars name) (UndefinedVariable name) in
      lookup_path base path
  | OFunction name => call name []
  | OGroup inner path => let? v := pipeline_value root vars dot inner in lookup_path v path
  end
with pipeline_value (root : Value) (vars : Vars) (dot : Value) (p : Pipeline) : result Value EvalError :=
  match p with
  | mkPipeline _ commands =>
      let? piped := commands_with (operand root vars dot) dot None commands in Ok (default VNull piped)
  end.

(** ** The run *)

Record Run := mkRun { root : Value; variables : Vars; out : Str }.
Definition run_new (r : Value) : Run := mkRun r [] [].
Definition push_str (st : Run) (s : Str) : Run := mkRun (root st) (variables st) (out st ++ s).
(** [self.variables.push] and [self.variables.truncate]. *)
Definition push_var (st : Run) (name : Str) (v : Value) : Run := mkRun (root st) (variables st ++ [(name, v)]) (out st).
Definition truncate_vars (st : Run) (n : nat) : Run := mkRun (root st) (take n (variables st)) (out st).

Definition run_value (st : Run) (p : Pipeline) (dot : Value) : result Value EvalError :=
  pipeline_value (root st) (rev (variables st)) dot p.
Definition run_pipeline (st : Run) (p : Pipeline) (dot : Value) : result (Run * Value) EvalError :=
  let? value := run_value st p dot in
  Ok (foldl (λ st name, push_var st name value) st (p_variables p), value).

Definition range_values (v : Value) : result (list (Value * Value)) EvalError :=
  match v with
  | VArray items => Ok (imap (λ i item, (VNumber (NInt (Z.of_nat i)), item)) items)
  | VObject m => Ok ((λ kv, (VString kv.1, kv.2)) <$> sort_keys m)
  | VNull => Ok []
  | _ => Err NotIterable
  end.
Definition push_item (names : list Str) (st : Run) (key item : Value) : Run :=
  match names with
  | [] => st
  | [element] => push_var st element item
  | index :: element :: _ => push_var (push_var st index key) element item
  end.
Definition range_with (body : Run → Value → result Run EvalError) (names : list Str) :
    Run → list (Value * Value) → result Run EvalError :=
  fix go st items :=
    match items with
    | [] => Ok st
    | (key, item) :: items =>
        let? st' := body (push_item names st key item) item in
        go (truncate_vars st' (length (variables st))) items
    end.

Definition each_with (eval : Run → Node → result Run EvalError) : Run → list Node → result Run EvalError :=
  fix go st nodes := match nodes with [] => Ok st | n :: nodes => let? st' := eval st n in go st' nodes end.
Definition nodes_with (eval : Run → Node → result Run EvalError) (st : Run) (nodes : list Node) : result Run EvalError :=
  let? st' := each_with eval st nodes in Ok (truncate_vars st' (length (variables st))).

Fixpoint run_node (dot : Value) (st : Run) (n : Node) {struct n} : result Run EvalError :=
  match n with
  | NText t => Ok (push_str st t)
  | NAction p =>
      let? x := run_pipeline st p dot in
      Ok (match p_variables p with [] => push_str x.1 (display x.2) | _ => x.1 end)
  | NIf p then_ otherwise =>
      let? x := run_pipeline st p dot in
      let? st' := if truthy x.2 then nodes_with (run_node dot) x.1 then_ else nodes_with (run_node dot) x.1 otherwise in
      Ok (truncate_vars st' (length (variables st)))
  | NWith p then_ otherwise =>
      let? x := run_pipeline st p dot in
      let? st' := if truthy x.2 then nodes_with (run_node x.2) x.1 then_ else nodes_with (run_node dot) x.1 otherwise in
      Ok (truncate_vars st' (length (variables st)))
  | NRange p then_ otherwise =>
      let? value := run_value st p dot in
      let? items := range_values value in
      match items with
      | [] => nodes_with (run_node dot) st otherwise
      | _ => range_with (λ st item, nodes_with (run_node item) st then_) (p_variables p) st items
      end
  end.
Definition run_nodes (st : Run) (nodes : list Node) (dot : Value) : result Run EvalError := nodes_with (run_node dot) st nodes.

(** ** Rendering *)

Definition pipeline_title (t : Template) (p : Pipeline) : option Str :=
  match p_commands p with
  | (OField path :: _) :: _ => title_of (columns t) (join_str (lit ".") path)
  | _ => None
  end.
Definition header (t : Template) : Str :=
  t_nodes t ≫= λ n,
    match n with NText s => s | NAction p => default [] (pipeline_title t p) | _ => [] end.

(** [l.split(c)] for one character. *)
Fixpoint split_on (c : Z) (s : Str) : list Str :=
  match s with
  | [] => [[]]
  | d :: s =>
      if d =? c then [] :: split_on c s
      else match split_on c s with cell :: cells => (d :: cell) :: cells | [] => [[d]] end
  end.

(** The widest cell of a column. *)
Definition widest (lines : list (list Str)) (column : nat) : nat :=
  foldr Nat.max 0%nat (omap (λ l, length <$> l !! column) lines).
(** A [usize] subtraction, [None] when it would wrap. *)
Definition sub_usize (a b : nat) : option nat := if (a <? b)%nat then None else Some (a - b)%nat.
Fixpoint align_line (lines : list (list Str)) (column : nat) (line : list Str) : result Str EvalError :=
  match line with
  | [] => Ok []
  | [cell] => Ok cell
  | cell :: line =>
      let? missing := ok_or (sub_usize (widest lines column + COLUMN_PADDING) (length cell)) Panicked in
      let? more := align_line lines (S column) line in
      Ok (cell ++ replicate missing 32 ++ more)
  end.
Definition align (lines : list (list Str)) : result Str EvalError :=
  let? rows := try_map (align_line lines 0) lines in Ok (rows ≫= λ r, r ++ [10]).

Definition render_record (t : Template) (record : list (Str * Value)) : result Str EvalError :=
  let r := VObject record in
  let? st := run_nodes (run_new r) (t_nodes t) r in Ok (out st).
Definition render (t : Template) (records : list (list (Str * Value))) : result Str EvalError :=
  let? rows := try_map (render_record t) records in
  if table t then align (split_on COLUMN_SEPARATOR <$> header t :: rows)
  else Ok (rows ≫= λ l, l ++ [10]).

(** ** The meaning of a template

    A scope is a list of bindings, newest first, that nothing takes back: a
    block has the bindings around it and adds its own. *)

Definition bind (p : Pipeline) (v : Value) (scope : Vars) : Vars := foldl (λ s name, (name, v) :: s) scope (p_variables p).
Definition bind_item (names : list Str) (key item : Value) (scope : Vars) : Vars :=
  match names with
  | [] => scope
  | [element] => (element, item) :: scope
  | index :: element :: _ => (element, item) :: (index, key) :: scope
  end.
Definition block_with (eval : Vars → Node → result (Vars * Str) EvalError) : Vars → list Node → result Str EvalError :=
  fix go scope nodes :=
    match nodes with
    | [] => Ok []
    | n :: nodes => let? x := eval scope n in let? more := go x.1 nodes in Ok (x.2 ++ more)
    end.
Definition items_with (body : Value → Value → result Str EvalError) : list (Value * Value) → result Str EvalError :=
  fix go items :=
    match items with
    | [] => Ok []
    | (key, item) :: items => let? s := body key item in let? more := go items in Ok (s ++ more)
    end.
(** The text of a node, and the scope of the nodes after it. *)
Fixpoint meaning (root dot : Value) (scope : Vars) (n : Node) {struct n} : result (Vars * Str) EvalError :=
  match n with
  | NText t => Ok (scope, t)
  | NAction p =>
      let? v := pipeline_value root scope dot p in
      Ok (bind p v scope, match p_variables p with [] => display v | _ => [] end)
  | NIf p then_ otherwise =>
      let? v := pipeline_value root scope dot p in
      let? s := if truthy v then block_with (meaning root dot) (bind p v scope) then_
                else block_with (meaning root dot) (bind p v scope) otherwise in
      Ok (scope, s)
  | NWith p then_ otherwise =>
      let? v := pipeline_value root scope dot p in
      let? s := if truthy v then block_with (meaning root v) (bind p v scope) then_
                else block_with (meaning root dot) (bind p v scope) otherwise in
      Ok (scope, s)
  | NRange p then_ otherwise =>
      let? v := pipeline_value root scope dot p in
      let? items := range_values v in
      let? s :=
        match items with
        | [] => block_with (meaning root dot) scope otherwise
        | _ => items_with (λ key item, block_with (meaning root item) (bind_item (p_variables p) key item scope) then_) items
        end in
      Ok (scope, s)
  end.
Abbreviation block root dot := (block_with (meaning root dot)).

Lemma push_all vs v st :
  foldl (λ st name, push_var st name v) st vs =
    mkRun (root st) (variables st ++ ((λ name, (name, v)) <$> vs)) (out st).
Proof.
  revert st. induction vs as [|x vs IH]; intros st; cbn; [by rewrite app_nil_r; destruct st|].
  rewrite IH. cbn. by rewrite <- app_assoc.
Qed.
Lemma bind_rev p v vars :
  bind p v (rev vars) = rev (vars ++ ((λ name, (name, v)) <$> p_variables p)).
Proof.
  unfold bind. generalize (p_variables p). intros vs. revert vars. induction vs as [|x vs IH]; intros vars; cbn; [by rewrite app_nil_r|].
  change ((x, v) :: rev vars) with (rev [(x, v)] ++ rev vars).
  rewrite <- rev_app_distr, IH. by rewrite <- app_assoc.
Qed.

(** A run does to a node what the node means: it writes that text and adds
    bindings, which leave the scope the meaning says. *)
Definition node_agrees (n : Node) : Prop :=
  ∀ dot st,
    match meaning (root st) dot (rev (variables st)) n with
    | Ok (scope, s) =>
        ∃ vs, scope = rev (variables st ++ vs) ∧ run_node dot st n = Ok (mkRun (root st) (variables st ++ vs) (out st ++ s))
    | Err e => run_node dot st n = Err e
    end.
Lemma each_agrees ns dot st :
  Forall node_agrees ns →
  match block (root st) dot (rev (variables st)) ns with
  | Ok s => ∃ vs, each_with (run_node dot) st ns = Ok (mkRun (root st) (variables st ++ vs) (out st ++ s))
  | Err e => each_with (run_node dot) st ns = Err e
  end.
Proof.
  intros Hns. revert st. induction Hns as [|n ns Hn _ IH]; intros st; cbn.
  { exists []. rewrite !app_nil_r. by destruct st. }
  specialize (Hn dot st). destruct (meaning _ _ _ n) as [[scope s]|e]; cbn; [|by rewrite Hn].
  destruct Hn as (vs & -> & ->). cbn. specialize (IH (mkRun (root st) (variables st ++ vs) (out st ++ s))). cbn in IH.
  destruct (block _ _ _ ns) as [more|e]; cbn; [|done]. destruct IH as [vs' IH]. exists (vs ++ vs'). by rewrite IH, <- !app_assoc.
Qed.
Lemma block_agrees ns dot st :
  Forall node_agrees ns →
  nodes_with (run_node dot) st ns = (let? s := block (root st) dot (rev (variables st)) ns in Ok (push_str st s)).
Proof.
  intros Hns%(each_agrees ns dot st). unfold nodes_with. destruct (block _ _ _ ns) as [s|e]; [|by rewrite Hns].
  destruct Hns as [vs ->]. cbn. unfold truncate_vars, push_str. cbn. by rewrite take_app_length.
Qed.
Lemma truncate_own st vs s :
  truncate_vars (mkRun (root st) (variables st ++ vs) (out st ++ s)) (length (variables st)) = push_str st s.
Proof. unfold truncate_vars, push_str. cbn. by rewrite take_app_length. Qed.
Lemma bind_item_rev names key item st :
  ∃ vs, push_item names st key item = mkRun (root st) (variables st ++ vs) (out st) ∧
    bind_item names key item (rev (variables st)) = rev (variables st ++ vs).
Proof.
  destruct names as [|a [|b names]]; cbn.
  - exists []. rewrite app_nil_r. by destruct st.
  - exists [(a, item)]. by rewrite rev_app_distr.
  - exists [(a, key); (b, item)]. unfold push_var. cbn. rewrite <- app_assoc. by rewrite rev_app_distr.
Qed.
Lemma items_agree ns names items st :
  Forall node_agrees ns →
  range_with (λ st item, nodes_with (run_node item) st ns) names st items =
    (let? s := items_with (λ key item, block (root st) item (bind_item names key item (rev (variables st))) ns) items in
     Ok (push_str st s)).
Proof.
  intros Hns. revert st. induction items as [|[key item] items IH]; intros st; cbn.
  { unfold push_str. rewrite app_nil_r. by destruct st. }
  destruct (bind_item_rev names key item st) as (vs & -> & ->). rewrite block_agrees by done. cbn.
  destruct (block _ _ _ ns) as [s|e]; cbn; [|done]. unfold push_str at 1; cbn. rewrite truncate_own, IH. cbn.
  destruct (items_with _ items) as [more|e]; cbn; [|done]. unfold push_str; cbn. by rewrite app_assoc.
Qed.
Lemma pipeline_agrees st p dot :
  run_pipeline st p dot =
    (let? v := pipeline_value (root st) (rev (variables st)) dot p in
     Ok (mkRun (root st) (variables st ++ ((λ name, (name, v)) <$> p_variables p)) (out st), v)).
Proof. unfold run_pipeline, run_value. destruct (pipeline_value _ _ _ p); cbn; [|done]. by rewrite push_all. Qed.
Lemma agrees n : node_agrees n.
Proof.
  induction n as [t|p|p a b Ha Hb|p a b Ha Hb|p a b Ha Hb] using node_nested; intros dot st; cbn [meaning run_node].
  - exists []. rewrite !app_nil_r. by destruct st.
  - rewrite pipeline_agrees. destruct (pipeline_value _ _ _ p) as [v|e]; cbn; [|done].
    exists ((λ name, (name, v)) <$> p_variables p). rewrite bind_rev. split; [done|].
    destruct (p_variables p); [done|by rewrite app_nil_r].
  - rewrite pipeline_agrees. destruct (pipeline_value _ _ _ p) as [v|e]; cbn; [|done]. rewrite bind_rev.
    destruct (truthy v); rewrite block_agrees by done; cbn; (destruct (block _ _ _ _) as [s|e]; cbn; [|done]);
      exists []; rewrite app_nil_r; (split; [done|]); unfold push_str; cbn; by rewrite truncate_own.
  - rewrite pipeline_agrees. destruct (pipeline_value _ _ _ p) as [v|e]; cbn; [|done]. rewrite bind_rev.
    destruct (truthy v); rewrite block_agrees by done; cbn; (destruct (block _ _ _ _) as [s|e]; cbn; [|done]);
      exists []; rewrite app_nil_r; (split; [done|]); unfold push_str; cbn; by rewrite truncate_own.
  - unfold run_value. destruct (pipeline_value _ _ _ p) as [v|e]; cbn; [|done]. destruct (range_values v) as [items|e]; cbn; [|done].
    destruct items as [|i items]; [rewrite block_agrees by done|rewrite items_agree by done];
      (match goal with |- context [rbind ?m _] => destruct m end; cbn; [|done]); exists []; rewrite app_nil_r; done.
Qed.

(** C30: a run leaves no variable behind and reads none that its block cannot
    see: pushing and truncating one stack is lexical scoping. *)
Theorem lexical_scoping (st : Run) (nodes : list Node) (dot : Value) :
  run_nodes st nodes dot =
    (let? s := block (root st) dot (rev (variables st)) nodes in
     Ok (mkRun (root st) (variables st) (out st ++ s))).
Proof. apply block_agrees, Forall_true, agrees. Qed.

(** ** Errors of a run

    The variables a tree uses but does not declare. *)

Fixpoint free_operand (o : Operand) : list Str :=
  match o with
  | OVariable name _ => if bool_decide (name = ROOT_VARIABLE) then [] else [name]
  | OGroup inner _ => free_pipeline inner
  | _ => []
  end
with free_pipeline (p : Pipeline) : list Str :=
  match p with mkPipeline _ commands => List.flat_map (List.flat_map free_operand) commands end.
Definition without (names l : list Str) : list Str := filter (λ x, x ∉ names) l.
(** The names a node declares for the nodes after it. *)
Definition declared (n : Node) : list Str := match n with NAction p => p_variables p | _ => [] end.
Definition free_with (free : Node → list Str) : list Node → list Str :=
  fix go ns := match ns with [] => [] | n :: ns => free n ++ without (declared n) (go ns) end.
Fixpoint free_node (n : Node) : list Str :=
  match n with
  | NText _ => []
  | NAction p => free_pipeline p
  | NIf p a b | NWith p a b =>
      free_pipeline p ++ without (p_variables p) (free_with free_node a) ++ without (p_variables p) (free_with free_node b)
  | NRange p a b =>
      free_pipeline p ++ without (take MAX_RANGE_VARIABLES (p_variables p)) (free_with free_node a) ++ free_with free_node b
  end.
Abbreviation free_nodes := (free_with free_node).

(** A failure is one that the functions mean, or a use of a variable that
    nothing has declared. *)
Definition explained {A} (free : list Str) (scope : Vars) (r : result A EvalError) : Prop :=
  ∀ e, r = Err e → intended e = true ∨ ∃ x, e = UndefinedVariable x ∧ x ∈ free ∧ get scope x = None.

Lemma explained_sane {A} free scope (r : result A EvalError) : sane r → explained free scope r.
Proof. intros Hr e He. left. by apply Hr. Qed.
Lemma explained_Ok {A} free scope (a : A) : explained free scope (Ok a).
Proof. by intros e. Qed.
Lemma explained_bind {A B} free scope (r : result A EvalError) (k : A → result B EvalError) :
  explained free scope r → (∀ a, r = Ok a → explained free scope (k a)) → explained free scope (rbind r k).
Proof. intros Hr Hk e [?|(a & ? & ?)]%rbind_Err; [by apply Hr|by eapply Hk]. Qed.
Lemma explained_weaken {A} free free' scope (r : result A EvalError) :
  (∀ x, x ∈ free → x ∈ free') → explained free scope r → explained free' scope r.
Proof. intros Hx Hr e [?|(x & ? & ? & ?)]%Hr; [by left|right; eauto]. Qed.

Lemma sane_lookup v path : sane (lookup_path v path).
Proof. revert v. induction path as [|x path IH]; intros v; cbn; sane. apply IH. Qed.
Lemma sane_label dot args : sane (label dot args).
Proof. unfold label. sane. Qed.
Lemma sane_range_values v : sane (range_values v).
Proof. unfold range_values. sane. Qed.

Section commands.
Context (free : list Str) (scope : Vars) (eval : Operand → result Value EvalError) (dot : Value).
Lemma operands_explained b rest :
  (∀ o, o ∈ rest → explained free scope (eval o)) → explained free scope (operands_with eval b rest).
Proof.
  induction rest as [|o rest IH]; intros Ho; cbn; [apply explained_Ok|].
  apply explained_bind; [apply Ho; left|]. intros v _. case_bool_decide; [apply explained_Ok|].
  apply explained_bind; [|intros ? _; apply explained_Ok]. apply IH. intros o' ?. apply Ho. by right.
Qed.
Lemma command_explained c piped :
  c ≠ [] → (∀ o, o ∈ c → explained free scope (eval o)) → (∀ name, OFunction name ∈ c → is_function name = true) →
  explained free scope (command_with eval dot c piped).
Proof.
  destruct c as [|head rest]; [done|]. intros _ Ho Hf. unfold command_with.
  apply explained_bind; [apply operands_explained; intros o ?; apply Ho; by right|].
  intros [v|args] _; [apply explained_Ok|].
  assert (explained free scope (eval head)) as Hh by (apply Ho; left).
  assert (∀ {A}, explained (A := A) free scope (Err NotCallable)) as Hn by (intros A; by apply explained_sane, sane_Err).
  destruct head as [|path| | |name|]; [| | | |apply explained_sane, call_sane, Hf; left|];
    destruct (args ++ option_list piped); try done; [by destruct path as [|? [|? ?]]|].
  destruct path as [|? [|? ?]]; [done| |done]. case_bool_decide; [apply explained_sane, sane_label|done].
Qed.
Lemma commands_explained cs piped :
  (∀ c, c ∈ cs → c ≠ [] ∧ (∀ o, o ∈ c → explained free scope (eval o)) ∧ (∀ name, OFunction name ∈ c → is_function name = true)) →
  explained free scope (commands_with eval dot piped cs).
Proof.
  revert piped. induction cs as [|c cs IH]; intros piped Hc; cbn; [apply explained_Ok|].
  apply explained_bind; [|intros v _; apply IH; intros ? ?; apply Hc; by right].
  destruct (Hc c) as (? & ? & ?); [left|]. by apply command_explained.
Qed.
End commands.

Lemma free_in_command (c : list Operand) o x : o ∈ c → x ∈ free_operand o → x ∈ List.flat_map free_operand c.
Proof. intros Ho Hx. apply list_elem_of_In, in_flat_map. exists o. by rewrite <- !list_elem_of_In. Qed.
Lemma free_in_pipeline vs cs c o x : c ∈ cs → o ∈ c → x ∈ free_operand o → x ∈ free_pipeline (mkPipeline vs cs).
Proof.
  intros Hc Ho Hx. apply list_elem_of_In, in_flat_map. exists c. rewrite <- !list_elem_of_In. eauto using free_in_command.
Qed.
Section trees.
Context (r : Value) (scope : Vars) (dot : Value).
Lemma pipeline_case vs cs depth :
  (∀ c o, c ∈ cs → o ∈ c → operand_ok depth o = true → explained (free_operand o) scope (operand r scope dot o)) →
  pipeline_ok depth (mkPipeline vs cs) = true →
  explained (free_pipeline (mkPipeline vs cs)) scope (pipeline_value r scope dot (mkPipeline vs cs)).
Proof.
  intros IH Hok. cbn [pipeline_ok] in Hok. rewrite !andb_true_iff, !forallb_forall in Hok. destruct Hok as [[_ Hc] Ho].
  change (explained (free_pipeline (mkPipeline vs cs)) scope
    (let? piped := commands_with (operand r scope dot) dot None cs in Ok (default VNull piped))).
  apply explained_bind; [|intros ? _; apply explained_Ok]. apply commands_explained. intros c Hin.
  assert (Hs := Ho c (proj1 (list_elem_of_In _ _) Hin)). rewrite forallb_forall in Hs. split_and!.
  - intros ->. by specialize (Hc [] (proj1 (list_elem_of_In _ _) Hin)).
  - intros o Ho'. eapply explained_weaken, (IH c o Hin Ho'), Hs, list_elem_of_In, Ho'. intros x. by eapply free_in_pipeline.
  - intros name Hn. exact (Hs (OFunction name) (proj1 (list_elem_of_In _ _) Hn)).
Qed.
Lemma operand_explained o :
  ∀ depth, operand_ok depth o = true → explained (free_operand o) scope (operand r scope dot o).
Proof.
  revert o. refine (operand_nested _
    (λ p, ∀ depth, pipeline_ok depth p = true → explained (free_pipeline p) scope (pipeline_value r scope dot p)) _ _ _ _ _ _ _).
  - intros depth _. apply explained_Ok.
  - intros path depth _. apply explained_sane, sane_lookup.
  - intros name path depth _. cbn. apply explained_bind; [|intros ? _; apply explained_sane, sane_lookup].
    case_bool_decide; [apply explained_Ok|]. destruct (get scope name) eqn:Hg; cbn; [apply explained_Ok|].
    intros e [= <-]. right. exists name. split_and!; [done|left|done].
  - intros v depth _. apply explained_Ok.
  - intros name depth Hf. apply explained_sane. by apply call_sane.
  - intros inner path IH depth Hok. cbn. apply explained_bind; [by eapply IH|intros ? _; apply explained_sane, sane_lookup].
  - intros vs cs IH depth. apply pipeline_case. intros c o Hc Ho. rewrite Forall_forall in IH. specialize (IH c Hc).
    rewrite Forall_forall in IH. by apply IH.
Qed.
Lemma pipeline_explained p depth :
  pipeline_ok depth p = true → explained (free_pipeline p) scope (pipeline_value r scope dot p).
Proof. destruct p as [vs cs]. apply pipeline_case. intros. by eapply operand_explained. Qed.
End trees.

Lemma get_app {A} (a b : list (Str * A)) x : get (a ++ b) x = None ↔ get a x = None ∧ get b x = None.
Proof. induction a as [|[k v] a IH]; cbn; [naive_solver|]. case_bool_decide; [naive_solver|done]. Qed.
Lemma get_bind p v scope x : get (bind p v scope) x = None → (x ∉ p_variables p) ∧ get scope x = None.
Proof.
  unfold bind. generalize (p_variables p). intros vs. revert scope. induction vs as [|y vs IH]; intros scope; cbn; [set_solver|].
  intros [Hx Hg]%IH. cbn in Hg. case_bool_decide; [done|]. set_solver.
Qed.
Lemma get_bind_item names key item scope x :
  get (bind_item names key item scope) x = None → (x ∉ take MAX_RANGE_VARIABLES names) ∧ get scope x = None.
Proof.
  destruct names as [|a [|b names]]; cbn; [set_solver|..]; repeat case_bool_decide; try done; set_solver.
Qed.
Lemma explained_without {A} names free scope scope' (m : result A EvalError) :
  (∀ x, get scope' x = None → (x ∉ names) ∧ get scope x = None) → explained free scope' m → explained (without names free) scope m.
Proof.
  intros Hs Hm e [?|(x & -> & Hx & [? ?]%Hs)]%Hm; [by left|]. right. exists x. split_and!; [done| |done].
  by apply list_elem_of_filter.
Qed.

Definition node_explained (n : Node) : Prop :=
  ∀ depth r dot scope, node_ok depth n = true →
    explained (free_node n) scope (meaning r dot scope n) ∧
    (∀ scope' s x, meaning r dot scope n = Ok (scope', s) → get scope' x = None → (x ∉ declared n) ∧ get scope x = None).
Lemma block_explained ns depth r dot scope :
  Forall node_explained ns → forallb (node_ok depth) ns = true → explained (free_nodes ns) scope (block r dot scope ns).
Proof.
  intros Hns. revert scope. induction Hns as [|n ns Hn _ IH]; intros scope; cbn; [intros _; apply explained_Ok|].
  intros [Hok Hoks]%andb_true_iff. destruct (Hn depth r dot scope Hok) as [He Hd].
  apply explained_bind; [eapply explained_weaken, He; set_solver|]. intros [scope' s] Hm. cbn.
  apply explained_bind; [|intros ? _; apply explained_Ok].
  eapply explained_weaken, (explained_without (declared n)), (IH scope' Hoks); [set_solver|eauto].
Qed.
Lemma items_explained (body : Value → Value → result Str EvalError) free scope items :
  (∀ key item, explained free scope (body key item)) → explained free scope (items_with body items).
Proof.
  intros Hb. induction items as [|[key item] items IH]; cbn; [apply explained_Ok|].
  apply explained_bind; [apply Hb|]. intros s _. apply explained_bind; [done|]. intros ? _. apply explained_Ok.
Qed.

(** A block under a condition, with the variables of the condition. *)
Lemma branch_explained p v depth r dot scope ns free :
  Forall node_explained ns → forallb (node_ok depth) ns = true →
  (∀ x, x ∈ without (p_variables p) (free_nodes ns) → x ∈ free) → explained free scope (block r dot (bind p v scope) ns).
Proof.
  intros Hns Hok Hf. eapply explained_weaken, explained_without, block_explained; [exact Hf|apply get_bind|done..].
Qed.
Lemma nodes_explained n : node_explained n.
Proof.
  induction n as [t|p|p a b Ha Hb|p a b Ha Hb|p a b Ha Hb] using node_nested; intros depth r dot scope Hok;
    cbn [node_ok free_node meaning declared] in *;
    [| |rewrite !andb_true_iff in Hok; destruct Hok as [[Hp Hoa] Hob]..].
  - split; [apply explained_Ok|]. intros ? ? x [= <- _] ?. set_solver.
  - apply (pipeline_explained r scope dot) in Hok. split; [apply explained_bind; [done|intros; apply explained_Ok]|].
    intros ? ? x (v & _ & [= <- _])%rbind_Ok. apply get_bind.
  - split; [|intros ? ? x Hm ?; inv_ok; simplify_eq; set_solver].
    apply explained_bind; [eapply explained_weaken, pipeline_explained, Hp; set_solver|]. intros v _.
    apply explained_bind; [|intros; apply explained_Ok]. destruct (truthy v); (eapply branch_explained; [done..|set_solver]).
  - split; [|intros ? ? x Hm ?; inv_ok; simplify_eq; set_solver].
    apply explained_bind; [eapply explained_weaken, pipeline_explained, Hp; set_solver|]. intros v _.
    apply explained_bind; [|intros; apply explained_Ok]. destruct (truthy v); (eapply branch_explained; [done..|set_solver]).
  - destruct Hp as [Hp _]. split; [|intros ? ? x Hm ?; inv_ok; simplify_eq; set_solver].
    apply explained_bind; [eapply explained_weaken, pipeline_explained, Hp; set_solver|]. intros v _.
    apply explained_bind; [apply explained_sane, sane_range_values|]. intros items _.
    apply explained_bind; [|intros; apply explained_Ok]. destruct items as [|i items].
    + eapply explained_weaken, block_explained; [|done..]. set_solver.
    + apply items_explained. intros key item.
      eapply explained_weaken, explained_without, block_explained; [|apply get_bind_item|done..]. set_solver.
Qed.

(** ** Aligned tables *)

Lemma widest_ge lines line column cell : line ∈ lines → line !! column = Some cell → (length cell ≤ widest lines column)%nat.
Proof.
  intros Hl Hc. unfold widest. induction lines as [|l lines IH]; [by apply not_elem_of_nil in Hl|].
  apply elem_of_cons in Hl as [->|Hl%IH]; cbn; [rewrite Hc; cbn; lia|]. destruct (length <$> l !! column); cbn; lia.
Qed.
(** The room a column takes, and where the column [n] after [start] begins. *)
Definition room (lines : list (list Str)) (column : nat) : nat := widest lines column + COLUMN_PADDING.
Fixpoint offset_from (lines : list (list Str)) (start n : nat) : nat :=
  match n with O => 0 | S n => room lines start + offset_from lines (S start) n end.
(** The cells of a line stand in their columns, each followed by blanks up to the next. *)
Definition in_columns (lines : list (list Str)) (start : nat) (line : list Str) (row : Str) : Prop :=
  ∀ n cell, line !! n = Some cell →
    let rest := drop (offset_from lines start n) row in
    if (S n =? length line)%nat then rest = cell
    else take (room lines (start + n)) rest = cell ++ replicate (room lines (start + n) - length cell) 32 ∧
         (COLUMN_PADDING ≤ room lines (start + n) - length cell)%nat.
Lemma align_line_cons lines start cell cell' line :
  align_line lines start (cell :: cell' :: line) =
    (let? missing := ok_or (sub_usize (widest lines start + COLUMN_PADDING) (length cell)) Panicked in
     let? more := align_line lines (S start) (cell' :: line) in
     Ok (cell ++ replicate missing 32 ++ more)).
Proof. done. Qed.
Lemma align_line_spec lines line start :
  (∀ n cell, line !! n = Some cell → (length cell ≤ widest lines (start + n))%nat) →
  ∃ row, align_line lines start line = Ok row ∧ in_columns lines start line row.
Proof.
  revert start. induction line as [|cell line IH]; intros start Hw; [by exists []|].
  destruct line as [|cell' line]; [exists cell; split; [done|]; by intros [|n] c; [intros [= <-]|]|].
  destruct (IH (S start)) as (row & Hrow & Hc); [intros n c Hn; specialize (Hw (S n) c Hn); by rewrite Nat.add_succ_r in Hw|].
  assert (length cell ≤ widest lines start)%nat as Hle by (specialize (Hw 0%nat cell eq_refl); by rewrite Nat.add_0_r in Hw).
  set (pad := (room lines start - length cell)%nat). assert (length (cell ++ replicate pad 32) = room lines start) as Hlen.
  { rewrite length_app, length_replicate. unfold pad, room. lia. }
  exists ((cell ++ replicate pad 32) ++ row). split.
  { rewrite align_line_cons. unfold sub_usize. fold (room lines start). rewrite (proj2 (Nat.ltb_ge _ _)) by (unfold room; lia).
    cbn [ok_or rbind]. rewrite Hrow. cbn [rbind]. by rewrite <- app_assoc. }
  intros [|n] c; cbn [lookup list_lookup offset_from].
  - intros [= <-]. cbn zeta. cbn [length Nat.eqb]. rewrite drop_0, Nat.add_0_r. fold pad. rewrite <- Hlen at 1.
    rewrite take_app_length. split; [done|]. unfold pad, room. lia.
  - intros Hn. specialize (Hc n c Hn). cbn zeta in *. rewrite <- Hlen, drop_app_add. rewrite Nat.add_succ_r. exact Hc.
Qed.
Lemma align_spec lines :
  ∃ rows, align lines = Ok (rows ≫= λ r, r ++ [10]) ∧ Forall2 (in_columns lines 0) lines rows.
Proof.
  unfold align. assert (∃ rows, try_map (align_line lines 0) lines = Ok rows ∧ Forall2 (in_columns lines 0) lines rows) as (rows & -> & ?);
    [|by exists rows].
  assert (∀ l, (∀ x, x ∈ l → x ∈ lines) →
    ∃ rows, try_map (align_line lines 0) l = Ok rows ∧ Forall2 (in_columns lines 0) l rows) as H; [|by apply H].
  induction l as [|line l IH]; intros Hl; [by exists []|]. destruct IH as (rows & Hr & Hf); [intros; apply Hl; by right|].
  destruct (align_line_spec lines line 0) as (row & Hrow & ?); [intros n c; apply widest_ge, Hl; left|].
  exists (row :: rows). cbn. rewrite Hrow, Hr. split; [done|by constructor].
Qed.

(** ** Rendering a parsed template *)

Lemma try_map_Err {A B E} (f : A → result B E) l e : try_map f l = Err e → ∃ x, x ∈ l ∧ f x = Err e.
Proof.
  induction l as [|x l IH]; cbn; [done|]. intros [?|(y & _ & [(z & ? & ?)%IH|(? & _ & ?)]%rbind_Err)]%rbind_Err; [| |done].
  - exists x. by split; [left|].
  - exists z. by split; [right|].
Qed.
Lemma parsed_nodes format cols t : template_parse format cols = Ok t → tree_ok (t_nodes t) = true.
Proof.
  unfold template_parse. destruct (match strip _ _ with Some _ => _ | None => _ end) as [tab body]. intros H. inv_ok.
  simplify_eq. cbn. by eapply parsed_tree.
Qed.
Lemma record_explained t record :
  tree_ok (t_nodes t) = true → explained (free_nodes (t_nodes t)) [] (render_record t record).
Proof.
  intros Hok. unfold render_record. apply explained_bind; [|intros; apply explained_Ok].
  unfold run_nodes. rewrite block_agrees by apply Forall_true, agrees. apply explained_bind; [|intros; apply explained_Ok].
  cbn. eapply block_explained; [by apply Forall_true, nodes_explained|done].
Qed.
(** C40: rendering a template that was accepted fails only as the functions mean
    to fail or on a variable that the template never declares where it uses
    it: no record makes it run a command that is missing, call a function
    that does not exist, take an index out of range or wrap a subtraction. *)
Theorem rendering_fails_safely (format : Str) (cols : list (Str * Str)) (t : Template) (records : list (list (Str * Value))) e :
  template_parse format cols = Ok t → render t records = Err e →
  intended e = true ∨ ∃ x, e = UndefinedVariable x ∧ x ∈ free_nodes (t_nodes t).
Proof.
  intros Ht%parsed_nodes. unfold render. intros [Hr|(rows & _ & Ha)]%rbind_Err.
  - apply try_map_Err in Hr as (record & _ & Hr). apply record_explained in Hr; [naive_solver|done].
  - destruct (table t); [|done]. destruct (align_spec (split_on COLUMN_SEPARATOR <$> header t :: rows)) as (? & Hok & _). congruence.
Qed.

(** A rendered table has a row for its header and one for each record, in
    order.  Every cell starts where its column starts, the same place in
    every row, at least three blanks after the cell before it, and nothing
    but blanks is between them. *)
Theorem table_aligned (t : Template) (records : list (list (Str * Value))) (text : Str) :
  table t = true → render t records = Ok text →
  ∃ outs rows,
    try_map (render_record t) records = Ok outs ∧
    text = (rows ≫= λ r, r ++ [10]) ∧
    let lines := split_on COLUMN_SEPARATOR <$> header t :: outs in
    Forall2 (in_columns lines 0) lines rows.
Proof.
  intros Htab. unfold render. intros (outs & Ho & Ha)%rbind_Ok. rewrite Htab in Ha.
  destruct (align_spec (split_on COLUMN_SEPARATOR <$> header t :: outs)) as (rows & Hr & Hc). exists outs, rows.
  rewrite Hr in Ha. by injection Ha as <-.
Qed.
End eval.

(** ** Examples *)

Definition demo_record (state name : string) : list (Str * Value) :=
  [(lit "State", VString (lit state)); (lit "Name", VString (lit name)); (lit "Id", VNumber (NInt 7))].
Definition demo_records : list (list (Str * Value)) := [demo_record "up" "web"; demo_record "down" "database"].
Definition rendered (format : string) : result Str (TemplateError + EvalError) :=
  match template_parse (lit format) demo_columns with
  | Ok t => map_err inr (render t demo_records)
  | Err e => Err (inl e)
  end.
Example a_table :
  rendered "table {{.Name}}\t{{.State}}\t{{.Id}}" =
    Ok (lit "NAME       STATE   ID" ++ [10] ++ lit "web        up      7" ++ [10] ++ lit "database   down    7" ++ [10]).
Proof. vm_compute. reflexivity. Qed.
Example scoped_if :
  rendered "{{if $n := .Name}}{{$n}}{{end}}{{$n}}" = Err (inr (UndefinedVariable (lit "$n"))).
Proof. vm_compute. reflexivity. Qed.
Definition leaking : Template :=
  mkTemplate false
    [NIf (mkPipeline [lit "$n"] [[OField [lit "Name"]]]) [NAction (mkPipeline [] [[OVariable (lit "$n") []]])] [];
     NAction (mkPipeline [] [[OVariable (lit "$n") []]])] demo_columns.
Lemma rendering_fails_safely_witness :
  intended (UndefinedVariable (lit "$n")) = true ∨
  ∃ x, UndefinedVariable (lit "$n") = UndefinedVariable x ∧ x ∈ free_with free_node (t_nodes leaking).
Proof.
  apply (rendering_fails_safely (lit "{{if $n := .Name}}{{$n}}{{end}}{{$n}}") demo_columns leaking demo_records);
    vm_compute; reflexivity.
Defined.

Definition name_state : Template :=
  mkTemplate true [NAction (mkPipeline [] [[OField [lit "Name"]]]); NText [9]; NAction (mkPipeline [] [[OField [lit "State"]]])]
    demo_columns.
Lemma table_aligned_witness :
  ∃ outs rows,
    try_map (render_record name_state) demo_records = Ok outs ∧
    lit "NAME       STATE" ++ [10] ++ lit "web        up" ++ [10] ++ lit "database   down" ++ [10] = (rows ≫= λ r, r ++ [10]) ∧
    let lines := split_on COLUMN_SEPARATOR <$> header name_state :: outs in
    Forall2 (in_columns lines 0) lines rows.
Proof. apply (table_aligned name_state demo_records); vm_compute; reflexivity. Defined.
