(* ===== verification/Views.v ===== *)
(** * Views: what the manager shows, and the calls it only passes on

    Models the rest of [ward-core/src/sandbox/manager.rs]: the information a
    client gets about a sandbox with or without its token, the calls about
    images and files that the backend answers, and the conditions of
    [manager/wait_condition.rs].  Enumerations of the wire are inductive
    types; their numbers are generated code. *)

From stdpp Require Import base list numbers option strings pretty gmap sets.
From Stdlib Require Import ZArith Lia.
From S2P Require Import Prelude Text Tokio Net Protocol Signal Restart Output Broker Validate Egress Store Archive Events Health Launch Guest Manager Relay Lifecycle Create Image Exec Calls Diff.

Local Open Scope Z_scope.

(** ** Data of the wire *)

Record Timestamp := mkTimestamp { seconds : Z; nanos : Z }.
(** A time before the epoch counts as the epoch. *)
Definition system_time_to_timestamp (t : Z) : Timestamp :=
  let d := Z.max 0 t in mkTimestamp (d / NANOS_PER_SEC) (d mod NANOS_PER_SEC).

Inductive PbStatus := PbCreating | PbRunning | PbStopped | PbFailed | PbExited | PbStopping.
Definition status_to_pb (s : SandboxStatus) : PbStatus :=
  match s with
  | Creating => PbCreating | Running => PbRunning | Stopped => PbStopped
  | Failed => PbFailed | Exited => PbExited | Stopping => PbStopping
  end.
Inductive PbEndReason := PbUnspecified | PbREExited | PbRESignal | PbREOom | PbRETimeout | PbREEgress.
Definition end_reason_to_pb (r : option EndReason) : PbEndReason :=
  match r with
  | None => PbUnspecified
  | Some REExited => PbREExited
  | Some RESignal => PbRESignal
  | Some REOom => PbREOom
  | Some RETimeout => PbRETimeout
  | Some REEgressPolicy => PbREEgress
  end.

Record PbHealthLog := mkPbHealthLog { hl_start : option Timestamp; hl_end : option Timestamp; hl_code : Z; hl_output : string }.
Record PbHealth := mkPbHealth { ph_status : string; ph_streak : Z; ph_log : list PbHealthLog }.

Record PbSandboxInfo := mkPbInfo {
  sb_id : string;
  sb_status : PbStatus;
  sb_image : string;
  sb_created_at : option Timestamp;
  sb_ip_address : string;
  sb_resources : option ResourceLimits;
  sb_expires_at : option Timestamp;
  sb_token : string;
  sb_name : string;
  sb_exit_code : option Z;
  sb_started_at : option Timestamp;
  sb_finished_at : option Timestamp;
  sb_end_reason : PbEndReason;
  sb_workdir : string;
  sb_user : string;
  sb_image_digest : string;
  sb_labels : gmap string string;
  sb_hostname : string;
  sb_stop_signal : string;
  sb_stop_timeout : option Z;
  sb_restart_policy : option PbRestartPolicy;
  sb_restart_count : Z;
  sb_tty : bool;
  sb_guest : option PbGuest;
  sb_health : option PbHealth;
  sb_mounts : list PbMount;
  sb_paused : bool;
  sb_command_name : string;
  sb_published_ports : list PortMapping;
  sb_entrypoint : list string;
  sb_command : list string;
}.

(** [guest_options::to_pb]. *)
Definition guest_to_pb (g : GuestOptions) : PbGuest :=
  mkPbGuest (read_only_rootfs g) (tmpfs g) (shm_size g) (Protocol.extra_hosts g) (dns_search g) (dns_options g)
    (Protocol.ulimits g) (Protocol.group_add g) (Some (cgroup g)) (healthcheck g).

Inductive CommandView := Argv0Only | FullCommand.

Definition mount_to_pb (m : Mount) : PbMount :=
  mkPbMount (Protocol.source m) (Protocol.target m) (readonly m) (default "" (volume m)) (anonymous m).
Definition port_to_pb (p : PublishedPort) : PortMapping :=
  mkMapping (ip_display (host_ip p)) (host_port p) 0 (container_port p) (port_protocol_str (protocol p)).
Definition health_to_pb (h : HealthState) : PbHealth :=
  mkPbHealth (health_status_str (h_status h)) (h_streak h)
    ((λ p, mkPbHealthLog (Some (system_time_to_timestamp (start p))) (Some (system_time_to_timestamp (end_ p)))
             (probe_code p) (probe_output p)) <$> h_log h).

Definition protocol_info_to_pb (i : SandboxInfo) (view : CommandView) : PbSandboxInfo :=
  let s := i_spec i in
  mkPbInfo (i_id i) (status_to_pb (i_status i)) (i_image i) (Some (system_time_to_timestamp (i_created_at i)))
    (default "" (i_ip_address i)) (Some (i_resources i)) (system_time_to_timestamp <$> i_expires_at i) (i_token i)
    (Protocol.name s) (i_exit_code i) (system_time_to_timestamp <$> i_started_at i) (system_time_to_timestamp <$> i_finished_at i)
    (end_reason_to_pb (i_end_reason i)) (Protocol.workdir s) (Protocol.user s) (Protocol.image_digest s) (Protocol.labels s) (hostname_for s (i_id i))
    (Protocol.stop_signal s) (Protocol.stop_timeout s) (Some (mkPbRestart (restart_kind_str (kind (restart s))) (max_retries (restart s))))
    (i_restart_count i) (tty s) (Some (guest_to_pb (Protocol.guest s))) (health_to_pb <$> i_health i) (mount_to_pb <$> i_mounts i)
    (i_paused i) (default "" (head (command s))) (port_to_pb <$> Protocol.published_ports s)
    match view with FullCommand => take (entrypoint_len s) (command s) | Argv0Only => [] end
    match view with FullCommand => command s | Argv0Only => [] end.

(** ** Images and archives *)

Record CachedImage := mkCached { ci_reference : string; ci_rootfs : string; ci_digest : string; ci_pulled_at : Z; ci_size : Z }.
Record PbImage := mkPbImage { im_reference : string; im_digest : string; im_size : Z; im_created_at : option Timestamp }.
Record LoadedImage := mkLoaded { li_digest : string; li_references : list string }.
Record HistoryView := mkHistoryView { hv_image_id : string; hv_entries : list HistoryEntry; hv_config : ImageConfig }.
Record ImportSpec := mkImport { is_reference : option string; is_message : string; is_changes : list string }.
Record CommitSpec := mkCommitSpec { cs_reference : option string; cs_author : string; cs_message : string; cs_changes : list string }.
Record Credentials := mkCredentials { username : string; password : string }.
Record SavedArchive := mkArchive { sa_path : string }.
Record PullLine := mkPullLine { pl_id : string; pl_status : string }.
(** What an upload hands to the backend: data, or the failure of the stream. *)
Abbreviation Upload := (list (result bytes string)).

Class ViewBackend (E : Type) := {
  vb_list_images : E → result (list CachedImage) BackendError * E;
  (** The progress lines and the outcome. *)
  vb_pull_image : string → E → (list PullLine * result CachedImage BackendError) * E;
  vb_tag_image : string → string → E → result unit BackendError * E;
  vb_image_history : string → E → result HistoryView BackendError * E;
  vb_save_images : list string → E → result SavedArchive BackendError * E;
  vb_load_images : Upload → E → result (list LoadedImage) BackendError * E;
  vb_export_sandbox : string → E → result SavedArchive BackendError * E;
  vb_import_image : ImportSpec → Upload → E → result LoadedImage BackendError * E;
  vb_check_registry_login : string → Credentials → E → result unit BackendError * E;
  vb_commit_sandbox : string → CommitSpec → E → result CachedImage BackendError * E;
  vb_diff_sandbox : string → E → result (list FsChange) BackendError * E;
  vb_blocked_egress : string → E → result (list BlockedDestination) BackendError * E;
  vb_count : E → result nat BackendError * E;
  vb_allow_egress : string → list string → E → result unit BackendError * E;
}.

(** A converted time; one before the epoch has negative seconds. *)
Definition into_timestamp (t : Z) : Timestamp := mkTimestamp (t / NANOS_PER_SEC) (t mod NANOS_PER_SEC).
Definition image_to_pb (i : CachedImage) : PbImage :=
  mkPbImage (ci_reference i) (ci_digest i) (ci_size i) (Some (into_timestamp (ci_pulled_at i))).

Section views.
Context {E : Type} `{HBE : !Backend E} `{HCB : !CallBackend E} `{HVB : !ViewBackend E}.
Context (order : gmap string SandboxEntry → list (string * SandboxEntry)) (digest : string → list Z).
Implicit Types (w : World E).

(** ** What a client is shown *)

Definition shown (view : CommandView) (m : St E SandboxInfo) : St E PbSandboxInfo :=
  let! i := m in sret (protocol_info_to_pb i view).
Definition get (reference : string) : St E PbSandboxInfo :=
  let! sid := resolve order reference in shown Argv0Only (info sid).
Definition get_authorized (reference token : string) : St E PbSandboxInfo :=
  let! sid := resolve order reference in
  authorize order digest sid token ;!
  shown FullCommand (info sid).
Definition list_sandboxes : St E (list PbSandboxInfo) :=
  let! infos := list_all in
  sret ((λ i, protocol_info_to_pb i Argv0Only) <$> infos).
Definition count_sandboxes : St E nat := callE vb_count backend_err.

(** ** Egress *)

Definition egress_log (reference : string) : St E (list EgressLogEntry) :=
  let! sid := resolve order reference in
  let! e := get_entry sid in
  sret (px_log (egress_proxy e)).
Definition blocked_egress (reference : string) : St E (list BlockedDestination) :=
  let! sid := resolve order reference in
  callE (vb_blocked_egress sid) backend_err.

(** ** Images and files *)

Definition list_images : St E (list PbImage) :=
  let! images := callE vb_list_images backend_err in sret (image_to_pb <$> images).
Definition pull_image (reference : string) (w : World E) : list PullLine * result PbImage ApiError * World E :=
  let '((lines, r), env') := vb_pull_image reference (env w) in
  (lines, map_err image_backend_err (let? i := r in Ok (image_to_pb i)), upd_env (λ _, env') w).
Definition tag_image (source_ target_ : string) : St E unit := callE (vb_tag_image source_ target_) image_backend_err.
Definition image_history (n : string) : St E HistoryView := callE (vb_image_history n) image_backend_err.
Definition save_images (names : list string) : St E SavedArchive := callE (vb_save_images names) image_backend_err.
Definition load_images (chunks : Upload) : St E (list LoadedImage) := callE (vb_load_images chunks) image_backend_err.
Definition export_sandbox (reference : string) : St E SavedArchive :=
  let! sid := resolve order reference in callE (vb_export_sandbox sid) image_backend_err.
Definition import_image (spec : ImportSpec) (chunks : Upload) : St E LoadedImage :=
  callE (vb_import_image spec chunks) image_backend_err.
Definition check_registry_login (registry : string) (c : Credentials) : St E unit :=
  callE (vb_check_registry_login registry c) image_backend_err.
Definition diff (reference : string) : St E (list FsChange) :=
  let! sid := resolve order reference in callE (vb_diff_sandbox sid) backend_err.
Definition commit_image (reference : string) (spec : CommitSpec) : St E string :=
  let! sid := resolve order reference in
  let! i := callE (vb_commit_sandbox sid spec) image_backend_err in
  sret (ci_digest i).
Definition run_snippet : St E ProcessInfo :=
  sfail (InvalidRequest "Run RPC is not yet implemented; use Exec to run commands inside the sandbox").

(** ** Waiting for a condition

    A loop sees the table at the looks it makes, as [wait] does. *)

Inductive WaitCondition := NotRunning | NextExit | Removed.

Inductive Awaited := AwaitMore | AwaitFailed (e : ApiError) | AwaitRuns (rest : list (Look E)).
Fixpoint await_running (sid : string) (looks : list (Look E)) : Awaited :=
  match looks with
  | [] => AwaitMore
  | l :: looks =>
      match entries (look_entries l) !! sid with
      | None => AwaitFailed (SandboxNotFound sid)
      | Some e => if decide (status (meta e) = Running) then AwaitRuns looks else await_running sid looks
      end
  end.
Fixpoint wait_removed (sid : string) (live : option string) (last : option Z) (looks : list (Look E))
    : option (result Z ApiError) :=
  match looks with
  | [] => None
  | l :: looks =>
      match entries (look_entries l) !! sid with
      | None =>
          let ended := p ← live; decode_wait_status <$> look_exit l p in
          Some (Ok (default 0 (match ended with Some c => Some c | None => last end)))
      | Some e =>
          let last := match exit_code (meta e) with Some c => Some c | None => last end in
          let live := match live with
                      | Some p => Some p
                      | None => if decide (status (meta e) = Running) then running_main_exit sid (look_mains l) else None
                      end in
          wait_removed sid live last looks
      end
  end.
(** [wait] resolves the id again before its loop, at [w1]. *)
Definition wait_until (reference : string) (c : WaitCondition) (w0 w1 : World E) (looks : list (Look E))
    : option (result Z ApiError) :=
  match resolve order reference w0 with
  | (Err e, _) => Some (Err e)
  | (Ok sid, _) =>
      match c with
      | NotRunning => wait order sid w1 looks
      | NextExit =>
          match await_running sid looks with
          | AwaitMore => None
          | AwaitFailed e => Some (Err e)
          | AwaitRuns rest => wait order sid w1 rest
          end
      | Removed => wait_removed sid None None looks
      end
  end.
End views.
