(* ===== verification/Ps.v ===== *)
(** * Ps: the sandboxes [ward ps] shows

    Models [ward-cli/src/ps_filter.rs] with the tests on images it uses from
    [ps_columns.rs] and [exists.rs]: filters, limits and orders.  The status of a
    sandbox is one of those the daemon sends. *)

From stdpp Require Import base list numbers option strings pretty gmap sets sorting.
From Stdlib Require Import ZArith Lia Ascii.
From S2P Require Import Prelude Text Net Protocol Validate Manager Create Views.

Local Open Scope Z_scope.

#[export] Instance PbStatus_eq_dec : EqDecision PbStatus.
Proof. solve_decision. Defined.

Definition DEFAULT_TAG : string := "latest".
Definition DIGEST_PREFIX : string := "sha256:".
Definition MIN_ID_PREFIX : nat := 4.
Definition PROTOCOL_TCP : string := "tcp".
Definition KNOWN_PROTOCOLS : list string := [PROTOCOL_TCP; "udp"; "sctp"].
Definition HEALTH_NONE : string := "none".
Definition HEALTHS : list string := ["starting"; "healthy"; "unhealthy"; HEALTH_NONE].
Definition STATUS_CREATED : string := "created".
Definition STATUS_PAUSED : string := "paused".
Definition STATUSES : list string := [STATUS_CREATED; "running"; STATUS_PAUSED; "stopping"; "stopped"; "exited"; "failed"].
Definition LATEST_COUNT : nat := 1.

(** ** Images *)

(** A reference with its tag, [latest] if it has none. *)
Definition with_tag (reference : string) : string :=
  match rsplit_once ":"%char reference with
  | Some (_, tag) => if contains "/" tag then cat [reference; ":"; DEFAULT_TAG] else reference
  | None => cat [reference; ":"; DEFAULT_TAG]
  end.
(** [s.trim_start_matches(prefix)]; one unit of fuel a character. *)
Fixpoint trim_prefixes (fuel : nat) (prefix s : string) : string :=
  match fuel, strip_prefix prefix s with S fuel, Some rest => trim_prefixes fuel prefix rest | _, _ => s end.
Definition trim_digest (s : string) : string := trim_prefixes (str_len s) DIGEST_PREFIX s.
Definition names_image (image : PbImage) (reference : string) : bool :=
  let wanted := trim_digest reference in
  if is_empty wanted then false
  else bool_decide (im_reference image = with_tag reference) || bool_decide (im_reference image = reference) ||
       starts_with wanted (trim_digest (im_digest image)).
Definition is_ascii_hexdigit (c : ascii) : bool :=
  is_ascii_digit c || one_of ["a"; "b"; "c"; "d"; "e"; "f"; "A"; "B"; "C"; "D"; "E"; "F"]%char c.
Definition uses_image (info : PbSandboxInfo) (image : PbImage) : bool :=
  if negb (is_empty (sb_image_digest info)) && bool_decide (sb_image_digest info = im_digest image) then true
  else if bool_decide (sb_image info = im_reference image) || bool_decide (cat [sb_image info; ":"; DEFAULT_TAG] = im_reference image) then true
  else
    let wanted := default (sb_image info) (strip_prefix DIGEST_PREFIX (sb_image info)) in
    (MIN_ID_PREFIX <=? str_len wanted)%nat && str_all is_ascii_hexdigit wanted &&
    match strip_prefix DIGEST_PREFIX (im_digest image) with Some hex => starts_with wanted hex | None => false end.

(** ** Filters *)

Record Ancestor := mkAncestor { an_wanted : string; an_image : option PbImage }.
Definition ancestor_matches (a : Ancestor) (info : PbSandboxInfo) : bool :=
  match an_image a with
  | Some image => uses_image info image
  | None => bool_decide (with_tag (sb_image info) = with_tag (an_wanted a))
  end.

Record PortSpec := mkPortSpec { sp_first : Z; sp_last : Z; sp_protocol : string }.
Definition port_spec_parse (key value : string) : result PortSpec string :=
  let bad := cat ["invalid filter '"; key; "="; value; "'"] in
  let '(ports, protocol) := match split_once "/"%char value with Some x => x | None => (value, PROTOCOL_TCP) end in
  let '(first, last) := match split_once "-"%char ports with Some x => x | None => (ports, ports) end in
  let? first := ok_or (parse_u16 first) bad in
  let? last := ok_or (parse_u16 last) bad in
  let protocol := to_ascii_lowercase protocol in
  if (last <? first) || bool_decide (protocol ∉ KNOWN_PROTOCOLS) then Err bad else Ok (mkPortSpec first last protocol).
Definition port_spec_matches (p : PortSpec) (m : PortMapping) : bool :=
  let protocol := if is_empty (m_protocol m) then PROTOCOL_TCP else m_protocol m in
  eq_ignore_ascii_case protocol (sp_protocol p) && ((sp_first p <=? m_container_port m) && (m_container_port m <=? sp_last p)).
Definition publishes (info : PbSandboxInfo) (p : PortSpec) : bool := existsb (port_spec_matches p) (sb_published_ports info).

Record Filters := mkFilters {
  f_names : list string;
  f_ids : list string;
  f_statuses : list string;
  f_healths : list string;
  f_labels : list string;
  f_ancestors : list Ancestor;
  f_exit_codes : list Z;
  f_before : option string;
  f_since : option string;
  f_before_at : option (Z * Z);
  f_since_at : option (Z * Z);
  f_publishes : list PortSpec;
  f_exposes : list PortSpec;
  f_volumes : list string;
}.
Definition no_filters : Filters := mkFilters [] [] [] [] [] [] [] None None None None [] [] [].
Definition set_names (v : list string) (f : Filters) : Filters :=
  mkFilters v (f_ids f) (f_statuses f) (f_healths f) (f_labels f) (f_ancestors f) (f_exit_codes f) (f_before f) (f_since f) (f_before_at f) (f_since_at f) (f_publishes f) (f_exposes f) (f_volumes f).
Definition set_ids (v : list string) (f : Filters) : Filters :=
  mkFilters (f_names f) v (f_statuses f) (f_healths f) (f_labels f) (f_ancestors f) (f_exit_codes f) (f_before f) (f_since f) (f_before_at f) (f_since_at f) (f_publishes f) (f_exposes f) (f_volumes f).
Definition set_statuses (v : list string) (f : Filters) : Filters :=
  mkFilters (f_names f) (f_ids f) v (f_healths f) (f_labels f) (f_ancestors f) (f_exit_codes f) (f_before f) (f_since f) (f_before_at f) (f_since_at f) (f_publishes f) (f_exposes f) (f_volumes f).
Definition set_healths (v : list string) (f : Filters) : Filters :=
  mkFilters (f_names f) (f_ids f) (f_statuses f) v (f_labels f) (f_ancestors f) (f_exit_codes f) (f_before f) (f_since f) (f_before_at f) (f_since_at f) (f_publishes f) (f_exposes f) (f_volumes f).
Definition set_labels (v : list string) (f : Filters) : Filters :=
  mkFilters (f_names f) (f_ids f) (f_statuses f) (f_healths f) v (f_ancestors f) (f_exit_codes f) (f_before f) (f_since f) (f_before_at f) (f_since_at f) (f_publishes f) (f_exposes f) (f_volumes f).
Definition set_ancestors (v : list Ancestor) (f : Filters) : Filters :=
  mkFilters (f_names f) (f_ids f) (f_statuses f) (f_healths f) (f_labels f) v (f_exit_codes f) (f_before f) (f_since f) (f_before_at f) (f_since_at f) (f_publishes f) (f_exposes f) (f_volumes f).
Definition set_exit_codes (v : list Z) (f : Filters) : Filters :=
  mkFilters (f_names f) (f_ids f) (f_statuses f) (f_healths f) (f_labels f) (f_ancestors f) v (f_before f) (f_since f) (f_before_at f) (f_since_at f) (f_publishes f) (f_exposes f) (f_volumes f).
Definition set_before (v : option string) (f : Filters) : Filters :=
  mkFilters (f_names f) (f_ids f) (f_statuses f) (f_healths f) (f_labels f) (f_ancestors f) (f_exit_codes f) v (f_since f) (f_before_at f) (f_since_at f) (f_publishes f) (f_exposes f) (f_volumes f).
Definition set_since (v : option string) (f : Filters) : Filters :=
  mkFilters (f_names f) (f_ids f) (f_statuses f) (f_healths f) (f_labels f) (f_ancestors f) (f_exit_codes f) (f_before f) v (f_before_at f) (f_since_at f) (f_publishes f) (f_exposes f) (f_volumes f).
Definition set_before_at (v : option (Z * Z)) (f : Filters) : Filters :=
  mkFilters (f_names f) (f_ids f) (f_statuses f) (f_healths f) (f_labels f) (f_ancestors f) (f_exit_codes f) (f_before f) (f_since f) v (f_since_at f) (f_publishes f) (f_exposes f) (f_volumes f).
Definition set_since_at (v : option (Z * Z)) (f : Filters) : Filters :=
  mkFilters (f_names f) (f_ids f) (f_statuses f) (f_healths f) (f_labels f) (f_ancestors f) (f_exit_codes f) (f_before f) (f_since f) (f_before_at f) v (f_publishes f) (f_exposes f) (f_volumes f).
Definition set_publishes (v : list PortSpec) (f : Filters) : Filters :=
  mkFilters (f_names f) (f_ids f) (f_statuses f) (f_healths f) (f_labels f) (f_ancestors f) (f_exit_codes f) (f_before f) (f_since f) (f_before_at f) (f_since_at f) v (f_exposes f) (f_volumes f).
Definition set_exposes (v : list PortSpec) (f : Filters) : Filters :=
  mkFilters (f_names f) (f_ids f) (f_statuses f) (f_healths f) (f_labels f) (f_ancestors f) (f_exit_codes f) (f_before f) (f_since f) (f_before_at f) (f_since_at f) (f_publishes f) v (f_volumes f).
Definition set_volumes (v : list string) (f : Filters) : Filters :=
  mkFilters (f_names f) (f_ids f) (f_statuses f) (f_healths f) (f_labels f) (f_ancestors f) (f_exit_codes f) (f_before f) (f_since f) (f_before_at f) (f_since_at f) (f_publishes f) (f_exposes f) v.

Definition invalid_filter (key value : string) : string := cat ["invalid filter '"; key; "="; value; "'"].
(** One value of [--filter]. *)
Definition filter_step (spec : string) (f : Filters) : result Filters string :=
  match split_once "="%char spec with
  | None => Err (cat ["bad format of filter (expected name=value): "; spec])
  | Some (key, value) =>
      if decide (key = "name") then Ok (set_names (f_names f ++ [value]) f)
      else if decide (key = "id") then Ok (set_ids (f_ids f ++ [value]) f)
      else if decide (key = "status") then
        if decide (value ∈ STATUSES) then Ok (set_statuses (f_statuses f ++ [value]) f) else Err (invalid_filter key value)
      else if decide (key = "health") then
        if decide (value ∈ HEALTHS) then Ok (set_healths (f_healths f ++ [value]) f) else Err (invalid_filter key value)
      else if decide (key = "label") then
        if is_empty value || starts_with "=" value then Err (invalid_filter key value)
        else Ok (set_labels (f_labels f ++ [value]) f)
      else if decide (key = "ancestor") then
        if is_empty value then Err (invalid_filter key value) else Ok (set_ancestors (f_ancestors f ++ [mkAncestor value None]) f)
      else if decide (key = "before") then
        if is_empty value then Err (invalid_filter key value) else Ok (set_before (Some value) f)
      else if decide (key = "since") then
        if is_empty value then Err (invalid_filter key value) else Ok (set_since (Some value) f)
      else if decide (key = "exited") then
        match parse_i32 value with
        | Some code => Ok (set_exit_codes (f_exit_codes f ++ [code]) f)
        | None => Err (invalid_filter key value)
        end
      else if decide (key = "publish") then
        let? p := port_spec_parse key value in Ok (set_publishes (f_publishes f ++ [p]) f)
      else if decide (key = "expose") then
        let? p := port_spec_parse key value in Ok (set_exposes (f_exposes f ++ [p]) f)
      else if decide (key = "volume") then
        if is_empty value then Err (invalid_filter key value) else Ok (set_volumes (f_volumes f ++ [value]) f)
      else Err (cat ["invalid filter '"; key; "'"])
  end.
Fixpoint filters_loop (specs : list string) (f : Filters) : result Filters string :=
  match specs with [] => Ok f | spec :: specs => let? f := filter_step spec f in filters_loop specs f end.
Definition filters_parse (specs : list string) : result Filters string := filters_loop specs no_filters.

Definition created (info : PbSandboxInfo) : option (Z * Z) := (λ t, (seconds t, nanos t)) <$> sb_created_at info.
Definition created_of (listed : list PbSandboxInfo) (name : option string) : result (option (Z * Z)) string :=
  match name with
  | None => Ok None
  | Some name =>
      match filter (λ s, sb_name s = name) listed with
      | found :: _ => Ok (created found)
      | [] =>
          match filter (λ s, starts_with name (sb_id s) = true) listed with
          | [found] => Ok (created found)
          | _ :: _ :: _ => Err ("multiple IDs found with provided prefix: " +:+ name)
          | [] => Err ("No such container: " +:+ name)
          end
      end
  end.
(** [resolve]: what the filters are after it; on an error they are not used. *)
Definition resolve_filters (listed : list PbSandboxInfo) (images : list PbImage) (f : Filters) : result Filters string :=
  let f := set_ancestors ((λ a, mkAncestor (an_wanted a) (head (filter (λ i, names_image i (an_wanted a) = true) images))) <$> f_ancestors f) f in
  let? before := created_of listed (f_before f) in
  let? since := created_of listed (f_since f) in
  Ok (set_since_at since (set_before_at before f)).

Definition status_name (s : PbStatus) : string :=
  match s with
  | PbCreating => "creating" | PbRunning => "running" | PbStopped => "stopped"
  | PbFailed => "failed" | PbExited => "exited" | PbStopping => "stopping"
  end.
Definition status_word (info : PbSandboxInfo) : string :=
  if sb_paused info then STATUS_PAUSED
  else match sb_status info with PbCreating => STATUS_CREATED | s => status_name s end.

(** ** Orders *)

Definition opt_cmp (x y : option (Z * Z)) : comparison :=
  match x, y with
  | None, None => Eq
  | None, Some _ => Lt
  | Some _, None => Gt
  | Some (s, n), Some (s', n') => match s ?= s' with Eq => n ?= n' | c => c end
  end.
Definition str_cmp (s t : string) : comparison := if decide (s = t) then Eq else if str_leb s t then Lt else Gt.
Definition then_with (c d : comparison) : comparison := match c with Eq => d | _ => c end.
Definition is_lt (c : comparison) : bool := match c with Lt => true | _ => false end.
Definition not_gt (c : comparison) : bool := match c with Gt => false | _ => true end.

(** Some value matches, or none is given. *)
Definition any {A} (wanted : list A) (matches : A → bool) : bool :=
  match wanted with [] => true | _ => existsb matches wanted end.
Definition label_matches (info : PbSandboxInfo) (label : string) : bool :=
  match split_once "="%char label with
  | Some (key, value) => bool_decide (sb_labels info !! key = Some value)
  | None => bool_decide (is_Some (sb_labels info !! label))
  end.
Definition allows (f : Filters) (info : PbSandboxInfo) : bool :=
  any (f_names f) (λ w, contains w (sb_name info)) &&
  any (f_ids f) (λ w, starts_with w (sb_id info)) &&
  any (f_statuses f) (λ w, bool_decide (w = status_word info)) &&
  any (f_healths f) (λ w, bool_decide (w = match sb_health info with Some h => ph_status h | None => HEALTH_NONE end)) &&
  any (f_ancestors f) (λ a, ancestor_matches a info) &&
  (match f_exit_codes f with
   | [] => true
   | codes => bool_decide (sb_status info ≠ PbRunning) &&
              match sb_exit_code info with Some code => bool_decide (code ∈ codes) | None => false end
   end) &&
  (match f_before_at f with
   | None => true
   | Some cutoff => match created info with Some at_ => is_lt (opt_cmp (Some at_) (Some cutoff)) | None => false end
   end) &&
  (match f_since_at f with
   | None => true
   | Some cutoff => match created info with Some at_ => is_lt (opt_cmp (Some cutoff) (Some at_)) | None => false end
   end) &&
  any (f_publishes f) (publishes info) &&
  any (f_exposes f) (publishes info) &&
  any (f_volumes f) (λ w, existsb (λ m, bool_decide (pm_target m = w) || bool_decide (pm_source m = w)) (sb_mounts info)) &&
  forallb (label_matches info) (f_labels f).

(** [sort_by]: a stable sort. *)
Fixpoint insert_by {A} (cmp : A → A → comparison) (x : A) (l : list A) : list A :=
  match l with
  | [] => [x]
  | y :: l => if not_gt (cmp x y) then x :: y :: l else y :: insert_by cmp x l
  end.
Definition sort_by {A} (cmp : A → A → comparison) (l : list A) : list A := foldr (insert_by cmp) [] l.

Definition shown_limit (last : Z) (latest : bool) : option nat :=
  if 0 <? last then Some (Z.to_nat last) else if latest then Some LATEST_COUNT else None.
Definition newest (a b : PbSandboxInfo) : comparison := then_with (opt_cmp (created b) (created a)) (str_cmp (sb_id a) (sb_id b)).
Definition candidates (listed : list PbSandboxInfo) (all : bool) (f : Filters) (limit : option nat) : list PbSandboxInfo :=
  let every_state := all || bool_decide (is_Some limit) || negb (bool_decide (f_statuses f = [])) in
  filter (λ s, allows f s = true) (filter (λ s, every_state || bool_decide (sb_status s = PbRunning) = true) listed).
Definition select (listed : list PbSandboxInfo) (all : bool) (f : Filters) (limit : option nat) : list PbSandboxInfo :=
  let shown := sort_by newest (candidates listed all f limit) in
  match limit with Some n => take n shown | None => shown end.

Inductive SortField := ByCommand | ByCreated | ById | ByImage | ByNames | ByRunningfor | ByStatus.
Definition field_cmp (field : SortField) (a b : PbSandboxInfo) : comparison :=
  match field with
  | ByCommand => str_cmp (sb_command_name a) (sb_command_name b)
  | ByCreated => opt_cmp (created a) (created b)
  | ById => str_cmp (sb_id a) (sb_id b)
  | ByImage => str_cmp (sb_image a) (sb_image b)
  | ByNames => str_cmp (sb_name a) (sb_name b)
  | ByRunningfor => opt_cmp (created b) (created a)
  | ByStatus => str_cmp (status_word a) (status_word b)
  end.
Definition sort (shown : list PbSandboxInfo) (field : SortField) : list PbSandboxInfo :=
  sort_by (λ a b, then_with (field_cmp field a b) (str_cmp (sb_id a) (sb_id b))) shown.

(** ** Comparisons are orders *)

Class Comparison {A} (cmp : A → A → comparison) : Prop := {
  cmp_flip x y : cmp y x = CompOpp (cmp x y);
  cmp_trans x y z : cmp x y ≠ Gt → cmp y z ≠ Gt → cmp x z ≠ Gt;
}.
#[export] Instance str_cmp_order : Comparison str_cmp.
Proof.
  assert (∀ s t, str_cmp s t ≠ Gt ↔ str_le s t) as Hle.
  { intros s t. unfold str_cmp. case_decide as He; [subst; split; [intros _; by destruct (str_le_total t t)|done]|].
    unfold str_le. destruct (str_leb s t); naive_solver. }
  split.
  - intros s t. unfold str_cmp. destruct (decide (s = t)) as [->|Hne]; [by rewrite decide_True|]. rewrite decide_False by done.
    destruct (str_leb s t) eqn:H1, (str_leb t s) eqn:H2; try done; [destruct Hne; by apply (anti_symm str_le)|].
    destruct (str_le_total s t) as [H|H]; unfold str_le in H; congruence.
  - intros s t u. rewrite !Hle. apply str_le_trans.
Qed.
#[export] Instance opt_cmp_order : Comparison opt_cmp.
Proof.
  split.
  - intros [[s n]|] [[s' n']|]; cbn; try done. rewrite (Z.compare_antisym s s'), (Z.compare_antisym n n'). by destruct (s ?= s'), (n ?= n').
  - intros [[s n]|] [[s' n']|] [[s'' n'']|]; cbn; try done.
    destruct (Z.compare_spec s s'), (Z.compare_spec s' s''), (Z.compare_spec s s''), (Z.compare_spec n n'), (Z.compare_spec n' n''),
      (Z.compare_spec n n''); try done; lia.
Qed.
#[export] Instance on_key_order {A B} (cmp : B → B → comparison) (key : A → B) : Comparison cmp → Comparison (λ x y, cmp (key x) (key y)).
Proof. intros [Hf Ht]. split; [intros; apply Hf|intros x y z; apply Ht]. Qed.
Lemma reversed_order {A} (cmp : A → A → comparison) : Comparison cmp → Comparison (λ x y, cmp y x).
Proof. intros [Hf Ht]. split; [intros; apply Hf|intros x y z H1 H2; by apply (Ht z y x)]. Qed.
Lemma then_order {A} (c d : A → A → comparison) : Comparison c → Comparison d → Comparison (λ x y, then_with (c x y) (d x y)).
Proof.
  intros [Hf Ht] [Hf' Ht']. split.
  - intros x y. unfold then_with. rewrite Hf, Hf'. by destruct (c x y).
  - intros x y z H1 H2. unfold then_with in *.
    assert (c x y ≠ Gt ∧ c y z ≠ Gt) as [Hxy Hyz] by (destruct (c x y), (c y z); done). specialize (Ht x y z Hxy Hyz) as Hxz.
    destruct (c x z) eqn:E; try done. pose proof (Ht z x y) as Hzy. pose proof (Ht y z x) as Hyx. rewrite (Hf x z), E in Hzy, Hyx. rewrite (Hf y z) in Hzy. rewrite (Hf x y) in Hyx.
    destruct (c x y), (c y z); cbn in *; try done; naive_solver.
Qed.
#[export] Instance newest_order : Comparison newest.
Proof.
  apply (then_order (λ a b, opt_cmp (created b) (created a)) (λ a b, str_cmp (sb_id a) (sb_id b))); [|apply _].
  apply (reversed_order (λ a b, opt_cmp (created a) (created b))). apply _.
Qed.
#[export] Instance field_order field : Comparison (λ a b, then_with (field_cmp field a b) (str_cmp (sb_id a) (sb_id b))).
Proof.
  apply (then_order (field_cmp field) (λ a b, str_cmp (sb_id a) (sb_id b))); [|apply _].
  destruct field; cbn; try apply _. apply (reversed_order (λ a b, opt_cmp (created a) (created b))). apply _.
Qed.

(** ** Sorting *)

Section sorting.
Context {A : Type} (cmp : A → A → comparison) `{HC : !Comparison cmp}.
Definition cmp_le (x y : A) : Prop := cmp x y ≠ Gt.
Lemma insert_by_perm x l : insert_by cmp x l ≡ₚ x :: l.
Proof. induction l as [|y l IH]; [done|]. cbn. destruct (not_gt _); [done|]. rewrite IH. apply Permutation_swap. Qed.
Lemma sort_by_perm l : sort_by cmp l ≡ₚ l.
Proof. induction l as [|x l IH]; [done|]. unfold sort_by in *. cbn. by rewrite insert_by_perm, IH. Qed.
Lemma insert_by_sorted x l : StronglySorted cmp_le l → StronglySorted cmp_le (insert_by cmp x l).
Proof.
  induction 1 as [|y l Hs IH Hall]; cbn; [by repeat constructor|]. destruct (not_gt (cmp x y)) eqn:Hxy.
  - assert (cmp_le x y) as Hle by (unfold cmp_le; by destruct (cmp x y)). constructor; [by constructor|]. constructor; [done|].
    eapply Forall_impl; [exact Hall|]. intros z Hz. by eapply cmp_trans.
  - constructor; [done|]. rewrite insert_by_perm. constructor; [|done]. unfold cmp_le. rewrite cmp_flip. by destruct (cmp x y).
Qed.
Lemma sort_by_sorted l : StronglySorted cmp_le (sort_by cmp l).
Proof. induction l as [|x l IH]; [constructor|]. by apply insert_by_sorted. Qed.
End sorting.

Lemma sorted_app_le {A} (R : A → A → Prop) (l l' : list A) x y : StronglySorted R (l ++ l') → x ∈ l → y ∈ l' → R x y.
Proof.
  induction l as [|z l IH]; cbn; [by intros _ ?%not_elem_of_nil|]. intros [Hs Hall]%StronglySorted_inv [->|Hx]%elem_of_cons Hy; [|by apply IH].
  rewrite Forall_forall in Hall. apply Hall. set_solver.
Qed.

(** [ward ps] shows the newest.  It shows sandboxes that pass the filters and
    whose state is asked for, each once, newest first and those of one moment by
    their ids; without a limit all of them; with one, no more than that, and
    none that is left out comes before one that is shown. *)
Theorem select_newest (listed : list PbSandboxInfo) (all : bool) (f : Filters) (limit : option nat) :
  let wanted := candidates listed all f limit in
  let shown := select listed all f limit in
  StronglySorted (cmp_le newest) shown ∧
  ∃ rest, shown ++ rest ≡ₚ wanted ∧ (∀ x y, x ∈ shown → y ∈ rest → cmp_le newest x y) ∧
    match limit with None => rest = [] | Some n => length shown = n `min` length wanted end%nat.
Proof.
  cbn zeta. unfold select. pose proof (sort_by_sorted newest (candidates listed all f limit)) as Hs.
  pose proof (sort_by_perm newest (candidates listed all f limit)) as Hp. destruct limit as [n|].
  - rewrite <- (take_drop n (sort_by newest _)) in Hs. split.
    + revert Hs. generalize (drop n (sort_by newest (candidates listed all f (Some n)))). generalize (take n (sort_by newest (candidates listed all f (Some n)))).
      intros l l'. induction l as [|x l IH]; cbn; [constructor|]. intros [H1 [H2 _]%Forall_app]%StronglySorted_inv. constructor; auto.
    + exists (drop n (sort_by newest (candidates listed all f (Some n)))). rewrite take_drop. split_and!; [done| |].
      * intros x y Hx Hy. by eapply sorted_app_le.
      * rewrite length_take. by rewrite Hp.
  - split; [done|]. exists []. rewrite app_nil_r. split_and!; [done|by intros ? ? _ ?%not_elem_of_nil|done].
Qed.
(** [--sort] shows the same sandboxes in the order of the field. *)
Theorem sort_ordered (shown : list PbSandboxInfo) (field : SortField) :
  sort shown field ≡ₚ shown ∧
  StronglySorted (λ a b, then_with (field_cmp field a b) (str_cmp (sb_id a) (sb_id b)) ≠ Gt) (sort shown field).
Proof. split; [apply sort_by_perm|apply (sort_by_sorted _ shown)]. Qed.

(** ** What the filters mean *)

(** The values given for a key, in order. *)
Definition value_of (key spec : string) : option string :=
  match split_once "="%char spec with Some (k, v) => if decide (k = key) then Some v else None | None => None end.
Definition values (key : string) (specs : list string) : list string := omap (value_of key) specs.
Definition port_value (key value : string) : option PortSpec := match port_spec_parse key value with Ok p => Some p | Err _ => None end.
Definition last_or {A} (l : list A) (d : option A) : option A := match last l with Some x => Some x | None => d end.

Record parsed_as (f : Filters) (specs : list string) (f' : Filters) : Prop := {
  pa_names : f_names f' = f_names f ++ values "name" specs;
  pa_ids : f_ids f' = f_ids f ++ values "id" specs;
  pa_statuses : f_statuses f' = f_statuses f ++ values "status" specs;
  pa_healths : f_healths f' = f_healths f ++ values "health" specs;
  pa_labels : f_labels f' = f_labels f ++ values "label" specs;
  pa_ancestors : f_ancestors f' = f_ancestors f ++ ((λ v, mkAncestor v None) <$> values "ancestor" specs);
  pa_exited : f_exit_codes f' = f_exit_codes f ++ omap parse_i32 (values "exited" specs) ∧
    Forall (λ v, is_Some (parse_i32 v)) (values "exited" specs);
  pa_before : f_before f' = last_or (values "before" specs) (f_before f);
  pa_since : f_since f' = last_or (values "since" specs) (f_since f);
  pa_publishes : f_publishes f' = f_publishes f ++ omap (port_value "publish") (values "publish" specs) ∧
    Forall (λ v, is_Some (port_value "publish" v)) (values "publish" specs);
  pa_exposes : f_exposes f' = f_exposes f ++ omap (port_value "expose") (values "expose" specs) ∧
    Forall (λ v, is_Some (port_value "expose" v)) (values "expose" specs);
  pa_volumes : f_volumes f' = f_volumes f ++ values "volume" specs;
}.
Lemma last_or_app {A} (l l' : list A) d : last_or (l ++ l') d = last_or l' (last_or l d).
Proof. unfold last_or. rewrite last_app. by destruct (last l'). Qed.
Lemma parsed_as_nil f : parsed_as f [] f.
Proof. split; cbn; rewrite ?app_nil_r; auto. Qed.
Lemma parsed_as_trans f specs f1 specs' f2 : parsed_as f specs f1 → parsed_as f1 specs' f2 → parsed_as f (specs ++ specs') f2.
Proof.
  intros H1 H2. assert (∀ key, values key (specs ++ specs') = values key specs ++ values key specs') as Hv by (intros; apply omap_app).
  destruct H1 as [? ? ? ? ? ? [? ?] ? ? [? ?] [? ?] ?], H2 as [? ? ? ? ? ? [? ?] ? ? [? ?] [? ?] ?].
  split; rewrite ?Hv, ?omap_app, ?fmap_app, ?last_or_app, ?Forall_app, ?app_assoc; try congruence; split; try done; congruence.
Qed.
Lemma filter_step_parsed spec f f' : filter_step spec f = Ok f' → parsed_as f [spec] f'.
Proof.
  unfold filter_step. intros H. destruct (split_once "="%char spec) as [[key value]|] eqn:Hs; [|done].
  assert (∀ k, values k [spec] = if decide (key = k) then [value] else []) as Hv.
  { intros k. unfold values. cbn. unfold value_of. rewrite Hs. by destruct (decide (key = k)). }
  repeat (destruct (decide (key = _)) as [->|]; [repeat case_match; inv_checks; subst; split;
    rewrite ?Hv; repeat (rewrite decide_False by discriminate); rewrite ?decide_True by reflexivity;
    cbn; rewrite ?app_nil_r; try done|]); try done.
  all: unfold port_value; match goal with H : _ = _ |- context [match ?e with _ => _ end] => rewrite H end; (split; [done|]);
    constructor; [|done]; match goal with H : ?e = _ |- _ => rewrite H; by eexists end.
Qed.
Lemma filters_loop_parsed specs f f' : filters_loop specs f = Ok f' → parsed_as f specs f'.
Proof.
  revert f. induction specs as [|spec specs IH]; intros f; cbn [filters_loop]; [intros [= ->]; apply parsed_as_nil|].
  destruct (filter_step spec f) as [f1|] eqn:Hs; [|done]. cbn. intros H. change (spec :: specs) with ([spec] ++ specs).
  eapply parsed_as_trans; [by apply filter_step_parsed|by apply IH].
Qed.

(** Whether one value of a filter holds of a sandbox. *)
Definition value_matches (images : list PbImage) (info : PbSandboxInfo) (key value : string) : bool :=
  if decide (key = "name") then contains value (sb_name info)
  else if decide (key = "id") then starts_with value (sb_id info)
  else if decide (key = "status") then bool_decide (value = status_word info)
  else if decide (key = "health") then bool_decide (value = match sb_health info with Some h => ph_status h | None => HEALTH_NONE end)
  else if decide (key = "ancestor") then
    match head (filter (λ i, names_image i value = true) images) with
    | Some image => uses_image info image
    | None => bool_decide (with_tag (sb_image info) = with_tag value)
    end
  else if decide (key = "exited") then
    bool_decide (sb_status info ≠ PbRunning) && bool_decide (is_Some (sb_exit_code info) ∧ sb_exit_code info = parse_i32 value)
  else if decide (key = "volume") then existsb (λ m, bool_decide (pm_target m = value) || bool_decide (pm_source m = value)) (sb_mounts info)
  else match port_value key value with Some p => publishes info p | None => false end.
Definition any_keys : list string := ["name"; "id"; "status"; "health"; "ancestor"; "exited"; "publish"; "expose"; "volume"].
Definition key_holds (images : list PbImage) (info : PbSandboxInfo) (specs : list string) (key : string) : Prop :=
  values key specs = [] ∨ ∃ v, v ∈ values key specs ∧ value_matches images info key v = true.
(** On the right side of the sandbox named. *)
Definition side_holds (listed : list PbSandboxInfo) (named : option string) (later : bool) (info : PbSandboxInfo) : Prop :=
  match created_of listed named with
  | Ok (Some cutoff) => ∃ at_, created info = Some at_ ∧ (if later then opt_cmp (Some cutoff) (Some at_) else opt_cmp (Some at_) (Some cutoff)) = Lt
  | _ => True
  end.

Lemma any_spec {A} (l : list A) matches : any l matches = true ↔ l = [] ∨ ∃ v, v ∈ l ∧ matches v = true.
Proof.
  unfold any. destruct l as [|x l]; [naive_solver|]. rewrite existsb_exists. setoid_rewrite list_elem_of_In. naive_solver.
Qed.
Lemma any_ext {A B} (l : list A) (l' : list B) (m : A → bool) (m' : B → bool) (g : A → option B) :
  l' = omap g l → Forall (λ v, is_Some (g v)) l → (∀ v x, g v = Some x → m v = m' x) → any l' m' = any l m.
Proof.
  intros -> Hsome Hm. assert (existsb m' (omap g l) = existsb m l) as He.
  { induction Hsome as [|v l [x Hx] _ IH]; [done|]. cbn [omap list_omap existsb]. rewrite Hx. cbn. by rewrite (Hm v x), IH. }
  unfold any. rewrite He. destruct Hsome as [|v l [x Hx] ?]; [done|]. cbn [omap list_omap]. by rewrite Hx.
Qed.
Lemma any_fmap {A B} (g : A → B) (l : list A) (m : B → bool) : any (g <$> l) m = any l (λ x, m (g x)).
Proof. unfold any. destruct l as [|x l]; [done|]. cbn. f_equal. induction l as [|y l IH]; [done|]. cbn. by rewrite IH. Qed.
Lemma key_any images info specs key : key_holds images info specs key ↔ any (values key specs) (value_matches images info key) = true.
Proof. by rewrite any_spec. Qed.
Lemma side_spec listed named later info cutoff :
  created_of listed named = Ok cutoff →
  side_holds listed named later info ↔
  match cutoff with
  | None => true
  | Some cutoff =>
      match created info with
      | Some at_ => is_lt (if later then opt_cmp (Some cutoff) (Some at_) else opt_cmp (Some at_) (Some cutoff))
      | None => false
      end
  end = true.
Proof.
  intros Hc. unfold side_holds. rewrite Hc. destruct cutoff as [cutoff|]; [|done]. destruct (created info) as [at_|]; [|naive_solver].
  split; [by intros (? & [= <-] & ->)|]. intros H. exists at_. split; [done|]. by destruct (if later then _ else _).
Qed.
Lemma exited_any codes info :
  match codes with
  | [] => true
  | c :: cs => bool_decide (sb_status info ≠ PbRunning) &&
               match sb_exit_code info with Some code => bool_decide (code ∈ c :: cs) | None => false end
  end = any codes (λ c, bool_decide (sb_status info ≠ PbRunning) && bool_decide (sb_exit_code info = Some c)).
Proof.
  destruct codes as [|c codes]; [done|]. unfold any. apply eq_true_iff_eq. rewrite andb_true_iff, existsb_exists.
  setoid_rewrite andb_true_iff. setoid_rewrite bool_decide_eq_true. setoid_rewrite <- list_elem_of_In.
  destruct (sb_exit_code info) as [code|]; [rewrite bool_decide_eq_true|]; naive_solver.
Qed.

(** What the filters mean.  If the values are taken and the sandboxes they name
    are found, a sandbox passes exactly if for each key that is given one of its
    values holds, each label given holds, and it was created before and after
    the sandboxes the last [before] and the last [since] name. *)
Theorem filters_mean (specs : list string) (f r : Filters) (listed : list PbSandboxInfo) (images : list PbImage) (info : PbSandboxInfo)
    (parsed : filters_parse specs = Ok f) (resolved : resolve_filters listed images f = Ok r) :
  allows r info = true ↔
  Forall (key_holds images info specs) any_keys ∧ Forall (λ l, label_matches info l = true) (values "label" specs) ∧
  side_holds listed (last (values "before" specs)) false info ∧ side_holds listed (last (values "since" specs)) true info.
Proof.
  pose proof (filters_loop_parsed _ _ _ parsed) as [Hn Hi Hs Hh Hl Ha [He He'] Hb Hsi [Hp Hp'] [Hx Hx'] Hv]. cbn in Hn, Hi, Hs, Hh, Hl, Ha, He, Hb, Hsi, Hp, Hx, Hv.
  unfold resolve_filters in resolved. change (f_before (set_ancestors _ f)) with (f_before f) in resolved.
  change (f_since (set_ancestors _ f)) with (f_since f) in resolved.
  assert (∀ l : list string, last_or l None = last l) as Hlast by (intros l; unfold last_or; by destruct (last l)). rewrite Hlast in Hb, Hsi. rewrite Hb, Hsi in resolved.
  destruct (created_of listed (last (values "before" specs))) as [cb|] eqn:Hcb; [|done]. cbn [rbind] in resolved.
  destruct (created_of listed (last (values "since" specs))) as [cs|] eqn:Hcs; [|done]. apply (f_equal (λ x, match x with Ok y => y | Err _ => f end)) in resolved.
  cbn [rbind] in resolved. subst r. rewrite (side_spec _ _ _ _ _ Hcb), (side_spec _ _ _ _ _ Hcs). unfold any_keys. rewrite !Forall_cons, Forall_nil, !key_any.
  unfold allows. cbn [set_since_at set_before_at set_ancestors f_names f_ids f_statuses f_healths f_labels f_ancestors f_exit_codes f_before_at f_since_at f_publishes f_exposes f_volumes].
  rewrite exited_any, !andb_true_iff, Hn, Hi, Hs, Hh, Hl, Ha, Hv, !any_fmap, forallb_forall, Forall_forall.
  assert (∀ key v, key = "publish" ∨ key = "expose" → value_matches images info key v =
    match port_value key v with Some p => publishes info p | None => false end) as Hport by (intros key v [->| ->]; reflexivity).
  rewrite (any_ext _ _ (value_matches images info "exited") _ parse_i32 He He').
  2: { intros v x Hvx. transitivity (bool_decide (sb_status info ≠ PbRunning) && bool_decide (is_Some (sb_exit_code info) ∧ sb_exit_code info = parse_i32 v));
       [reflexivity|]. rewrite Hvx. f_equal. apply bool_decide_ext. naive_solver. }
  rewrite (any_ext _ _ (value_matches images info "publish") _ _ Hp Hp') by (intros v x Hvx; rewrite Hport by auto; by rewrite Hvx).
  rewrite (any_ext _ _ (value_matches images info "expose") _ _ Hx Hx') by (intros v x Hvx; rewrite Hport by auto; by rewrite Hvx).
  setoid_rewrite <- list_elem_of_In.
  change (value_matches images info "name") with (λ w, contains w (sb_name info)).
  change (value_matches images info "id") with (λ w, starts_with w (sb_id info)).
  change (value_matches images info "status") with (λ w, bool_decide (w = status_word info)).
  change (value_matches images info "health")
    with (λ w, bool_decide (w = match sb_health info with Some h => ph_status h | None => HEALTH_NONE end)).
  change (value_matches images info "ancestor")
    with (λ v, ancestor_matches (mkAncestor v (head (filter (λ i, names_image i v = true) images))) info).
  change (value_matches images info "volume")
    with (λ v, existsb (λ m, bool_decide (pm_target m = v) || bool_decide (pm_source m = v)) (sb_mounts info)).
  cbn [an_wanted]. tauto.
Qed.

(** ** Witnesses *)

Definition demo_info (id name : string) (s : PbStatus) (at_ : Z) : PbSandboxInfo :=
  mkPbInfo id s "alpine" (Some (mkTimestamp at_ 0)) "" None None "" name None None None PbUnspecified "" "" "" {["env" := "test"]} "" "" None None 0
    false None None [] false "sh" [mkMapping "127.0.0.1" 8080 0 80 ""] [] [].
Definition demo_listed : list PbSandboxInfo := [demo_info "a1" "web" PbRunning 1; demo_info "b2" "db" PbExited 3; demo_info "c3" "web2" PbRunning 2].
Definition demo_specs : list string := ["name=web"; "publish=80-90"; "label=env=test"; "before=db"].
Definition demo_filters : Filters := match filters_parse demo_specs with Ok f => f | Err _ => no_filters end.
Definition demo_resolved : Filters := match resolve_filters demo_listed [] demo_filters with Ok f => f | Err _ => no_filters end.
(** The newest of those that match; [-n] counts after the filters. *)
Example demo_select :
  sb_name <$> select demo_listed false demo_resolved (Some 1%nat) = ["web2"] ∧
  sb_name <$> select demo_listed false demo_resolved None = ["web2"; "web"] ∧
  sb_name <$> sort (select demo_listed true no_filters None) ByNames = ["db"; "web"; "web2"].
Proof. vm_compute. done. Qed.
Example filters_refused :
  filters_parse ["name"] = Err "bad format of filter (expected name=value): name" ∧
  filters_parse ["status=gone"] = Err "invalid filter 'status=gone'" ∧
  filters_parse ["publish=90-80"] = Err "invalid filter 'publish=90-80'".
Proof. vm_compute. done. Qed.
Lemma filters_mean_witness :
  allows demo_resolved (demo_info "a1" "web" PbRunning 1) = true ↔
  Forall (key_holds [] (demo_info "a1" "web" PbRunning 1) demo_specs) any_keys ∧
  Forall (λ l, label_matches (demo_info "a1" "web" PbRunning 1) l = true) (values "label" demo_specs) ∧
  side_holds demo_listed (last (values "before" demo_specs)) false (demo_info "a1" "web" PbRunning 1) ∧
  side_holds demo_listed (last (values "since" demo_specs)) true (demo_info "a1" "web" PbRunning 1).
Proof.
  apply (filters_mean demo_specs demo_filters demo_resolved demo_listed [] (demo_info "a1" "web" PbRunning 1)).
  - vm_compute. reflexivity.
  - vm_compute. reflexivity.
Defined.
