(* ===== verification/Shared.v ===== *)
(** * Shared: the manager and the server share the volume manager

    [ward-runtime/src/lib.rs] makes one [VolumeManager], and the daemon hands
    it to the sandbox manager and to the server.  So the environment of the
    manager is the backend's own state together with the volume manager: what
    the manager asks the backend leaves the volumes alone, and what it asks
    about volumes is answered by the operations of [Volume] on the one table
    that the volume calls of the server use. *)

From stdpp Require Import base list numbers option strings gmap sets.
From Stdlib Require Import ZArith.
From S2P Require Import Prelude Text Net Validate Volume Protocol Manager Lifecycle Exec Calls Views.

(** The volume manager's settings, the order its table is walked in, its JSON
    and the id and the time it draws for a new volume. *)
Class VolumeHost := {
  vh_data_dir : string;
  vh_max_volumes : nat;
  vh_order : gmap string VolumeEntry → list (string * VolumeEntry);
  vh_order_spec m : vh_order m ≡ₚ map_to_list m;
  vh_to_json : VolumeMeta → string;
  vh_draw : VolumeManager → string * Z;
}.

Section shared.
Context {B : Type} `{HVH : !VolumeHost}.
Abbreviation E := (B * VolumeManager)%type.

(** A call that the backend answers. *)
Definition on_backend {A} (f : B → A * B) : E → A * E :=
  λ en, let '(a, b) := f en.1 in (a, (b, en.2)).

(** [claim_volume].  The claim it takes is dropped when the creation it is for
    is over, within the same operation; the interleavings in which claims
    matter are those of [Volume]. *)
Definition claim_volume (name : string) (must_be_new : bool) (en : E) : result string ApiError * E :=
  let '(id, now) := vh_draw en.2 in
  let '(r, v) := (if must_be_new then create_new else ensure) vh_data_dir vh_max_volumes vh_order vh_to_json name id now en.2 in
  ((let? info := r in Ok (vi_mount_path info)), (en.1, v)).
Definition release_volume (name : string) (users : string → list string) (en : E) : E :=
  (en.1, (remove_unused_by_name vh_order name users en.2).2).

#[export] Instance shared_backend `{HBE : !Backend B} : Backend E := {|
  be_create sid o := on_backend (be_create sid o);
  be_get sid := on_backend (be_get sid);
  be_remove sid := on_backend (be_remove sid);
  be_stop sid := on_backend (be_stop sid);
  be_start sid := on_backend (be_start sid);
  be_adopt m := on_backend (be_adopt m);
  be_exec sid cmd := on_backend (be_exec sid cmd);
  be_put_secrets sid u files := on_backend (be_put_secrets sid u files);
  be_update_limits sid u := on_backend (be_update_limits sid u);
  be_image_config r := on_backend (be_image_config r);
  be_resolve_image r p := on_backend (be_resolve_image r p);
  be_snapshot_owner s := on_backend (be_snapshot_owner s);
  be_pause sid := on_backend (be_pause sid);
  be_unpause sid := on_backend (be_unpause sid);
  fwd_open sid ip hp gp p := on_backend (fwd_open sid ip hp gp p);
  fwd_close l en := (fwd_close l en.1, en.2);
  guest_signal pid sig := on_backend (guest_signal pid sig);
  guest_await pid grace := on_backend (guest_await pid grace);
  volume_path := claim_volume;
  volume_remove_unused := release_volume;
|}.
#[export] Instance shared_exec `{HXE : !ExecBackend B} : ExecBackend E := {|
  eb_exec sid cmd wd vars mode := on_backend (eb_exec sid cmd wd vars mode);
  eb_kill sid pid := on_backend (eb_kill sid pid);
|}.
#[export] Instance shared_calls `{HCB : !CallBackend B} : CallBackend E := {|
  cb_stats sid := on_backend (cb_stats sid);
  cb_net_bytes sid := on_backend (cb_net_bytes sid);
  cb_top sid args := on_backend (cb_top sid args);
  cb_copy_to sid path chunks := on_backend (cb_copy_to sid path chunks);
  cb_copy_from sid path := on_backend (cb_copy_from sid path);
  cb_create_snapshot sid label := on_backend (cb_create_snapshot sid label);
  cb_restore_snapshot sid s := on_backend (cb_restore_snapshot sid s);
  cb_list_snapshots sid := on_backend (cb_list_snapshots sid);
  cb_list := on_backend cb_list;
  cb_remove_image r force used := on_backend (cb_remove_image r force used);
|}.
#[export] Instance shared_views `{HVB : !ViewBackend B} : ViewBackend E := {|
  vb_list_images := on_backend vb_list_images;
  vb_pull_image r := on_backend (vb_pull_image r);
  vb_tag_image a b := on_backend (vb_tag_image a b);
  vb_image_history r := on_backend (vb_image_history r);
  vb_save_images l := on_backend (vb_save_images l);
  vb_load_images u := on_backend (vb_load_images u);
  vb_export_sandbox sid := on_backend (vb_export_sandbox sid);
  vb_import_image i u := on_backend (vb_import_image i u);
  vb_check_registry_login r c := on_backend (vb_check_registry_login r c);
  vb_commit_sandbox sid c := on_backend (vb_commit_sandbox sid c);
  vb_diff_sandbox sid := on_backend (vb_diff_sandbox sid);
  vb_blocked_egress sid := on_backend (vb_blocked_egress sid);
  vb_count := on_backend vb_count;
  vb_allow_egress sid doms := on_backend (vb_allow_egress sid doms);
|}.

(** A call that leaves the volumes as they are. *)
Definition quiet {A} (f : E → A * E) : Prop := ∀ en, (f en).2.2 = en.2.
Lemma quiet_on_backend {A} (f : B → A * B) : quiet (on_backend f).
Proof. intros en. unfold on_backend. by destruct (f en.1). Qed.
End shared.
Create HintDb keeps.
#[export] Hint Extern 0 (quiet _) => apply quiet_on_backend : keeps.

Section ports.
Context {B : Type} `{HBE : !Backend B} `{HVH : !VolumeHost}.
Abbreviation E := (B * VolumeManager)%type.
Implicit Types (w : World E).

Lemma quiet_env {A} (f : E → A * E) en a en' : quiet f → f en = (a, en') → en'.2 = en.2.
Proof. intros Hf H. specialize (Hf en). by rewrite H in Hf. Qed.
Lemma call_volumes {A} (f : E → result A BackendError * E) w r w' :
  quiet f → call f w = (r, w') → (env w').2 = (env w).2.
Proof.
  unfold call. intros Hf. destruct (f (env w)) as [r' en] eqn:H. apply (quiet_env f) in H; [|done]. by intros [= _ <-].
Qed.
Lemma close_all_volumes ls w : (env (close_all ls w)).2 = (env w).2.
Proof. unfold close_all. cbn. generalize (env w). induction ls as [|l ls IH]; intros en; [done|]. cbn. by rewrite IH. Qed.
Lemma close_listeners_volumes sid w : (env (close_listeners sid w)).2 = (env w).2.
Proof. unfold close_listeners. case_match; [|done]. by rewrite close_all_volumes. Qed.
Lemma open_port_quiet sid p : quiet (open_port sid p).
Proof.
  intros en. unfold open_port. generalize (Z.to_nat (Z.max (host_port_end p) (host_port p) - host_port p)).
  intros above. generalize (host_port p). revert en. induction above as [|above IH]; intros en hp; cbn [open_in_range].
  - unfold fwd_open, shared_backend, on_backend. destruct (fwd_open _ _ _ _ _ _) as [[?|[]] ?]; done.
  - destruct (fwd_open sid (host_ip p) hp (container_port p) (protocol p) en) as [r en'] eqn:Hf.
    apply (quiet_env (fwd_open sid (host_ip p) hp (container_port p) (protocol p))) in Hf; [|apply quiet_on_backend].
    destruct r as [?|[]]; cbn; rewrite ?IH; done.
Qed.
Lemma open_ports_volumes sid idx ports opened w r w' :
  open_ports sid idx ports opened w = (r, w') → (env w').2 = (env w).2.
Proof.
  revert ports opened w. induction idx as [|i idx IH]; intros ports opened w; cbn [open_ports]; [by intros [= _ <-]|].
  destruct (ports !! i) as [p|]; [|apply IH]. destruct (call (open_port sid p) w) as [[local|e] w1] eqn:Hc;
    apply call_volumes in Hc; try apply open_port_quiet.
  - intros H. apply IH in H. congruence.
  - intros [= _ <-]. by rewrite close_all_volumes.
Qed.
Lemma reopen_listeners_volumes sid w r w' : reopen_listeners sid w = (r, w') → (env w').2 = (env w).2.
Proof.
  unfold reopen_listeners. destruct (entries w !! sid); [|by intros [= _ <-]]. unfold open_listeners.
  destruct (open_ports _ _ _ _ w) as [[[ls ps]|e] w1] eqn:Ho; apply open_ports_volumes in Ho; by intros [= _ <-].
Qed.
End ports.

(** ** What becomes of the volumes *)

(** The volumes that are gone are unclaimed ones whose name [P] lets go; the
    others are as they were, in the table and on disk, and so are the claims. *)
Record spared (P : string → Prop) (v v' : VolumeManager) : Prop := {
  sp_claims : claims v' = claims v;
  sp_volumes id :
    (volumes v' !! id = volumes v !! id ∧ vdisk v' !! id = vdisk v !! id) ∨
    (∃ e, volumes v !! id = Some e ∧ P (v_name e) ∧ claims v !! v_name e = None ∧ volumes v' !! id = None);
}.
#[export] Instance spared_preorder P : PreOrder (spared P).
Proof.
  split; [intros v; split; [done|by left]|]. intros v1 v2 v3 [C12 V12] [C23 V23]. split; [congruence|]. intros id.
  destruct (V12 id) as [[H1 D1]|(e & H1 & HP & Hc & H2)], (V23 id) as [[H3 D3]|(e' & H3 & HP' & Hc' & H4)].
  - left. split; congruence.
  - right. exists e'. split_and!; congruence.
  - right. exists e. split_and!; congruence.
  - congruence.
Qed.
(** Every volume is kept under its id. *)
Definition keyed (v : VolumeManager) : Prop := ∀ id e, volumes v !! id = Some e → v_id e = id.
Lemma spared_keyed P v v' : spared P v v' → keyed v → keyed v'.
Proof. intros [_ H] Hk id e He. destruct (H id) as [[H1 _]|(? & _ & _ & _ & H1)]; rewrite H1 in He; [eauto|done]. Qed.

Section release.
Context `{HVH : !VolumeHost}.

Lemma remove_record_leaves id m r m' : remove_record id m = (r, m') →
  volumes m' = volumes m ∧ claims m' = claims m ∧
  match r with Ok _ => ∀ k, k ≠ id → vdisk m' !! k = vdisk m !! k | Err _ => vdisk m' = vdisk m end.
Proof.
  unfold remove_record. repeat case_match; intros [= <- <-]; split_and!; try done; intros; cbn;
    unfold alter_dir; by rewrite lookup_alter_ne.
Qed.

(** What [remove_unused_by_name] does: nothing, or it removes the volume of
    that name, which nobody uses or claims. *)
Lemma release_spared (P : string → Prop) name users v :
  keyed v → (users name = [] → P name) → spared P v (remove_unused_by_name vh_order name users v).2.
Proof.
  intros Hk HP. unfold remove_unused_by_name. destruct (find_volume vh_order name (volumes v)) as [e|] eqn:Hf; [|done].
  apply (find_volume_Some _ vh_order_spec) in Hf as (id & He & Hname). pose proof (Hk _ _ He) as Hid. subst name.
  assert (Hall : spared P v (remove_if_unused (v_id e) users v).2).
  2:{ destruct (remove_if_unused _ _ v) as [[|err] v1]; [done|by destruct err]. }
  unfold remove_if_unused, find_removable. destruct (entity_id _ _); cbn; [|done]. rewrite Hid, He. cbn.
  unfold finish_removal. destruct (check_unused e _ v) as [[]|] eqn:Hu; [|done]. apply check_unused_ok in Hu as [Hu Hc].
  assert (Hunclaimed : claims v !! v_name e = None).
  { unfold is_claimed in Hc. case_bool_decide as Hs; [done|]. by apply eq_None_not_Some. }
  unfold vbind. rewrite Hid. destruct (remove_record id v) as [[[]|err] v1] eqn:Hr;
    apply remove_record_leaves in Hr as (Hv & Hcl & Hd); cbn.
  2:{ split; [done|]. intros k. left. by rewrite Hv, Hd. }
  assert (Hgone : ∀ d f, (∀ k, k ≠ id → d !! k = vdisk v1 !! k) →
    spared P v (mkVolumes (delete id (volumes v1)) (claims v1) d f)).
  { intros d f Hd'. split; [done|]. intros k. cbn. destruct (decide (k = id)) as [->|Hne].
    - right. exists e. rewrite lookup_delete_eq. auto.
    - left. rewrite lookup_delete_ne, Hv by done. split; [done|]. by rewrite Hd', Hd. }
  unfold remove_directory, io_call. cbn. repeat case_match; cbn; apply Hgone; intros; by rewrite ?lookup_delete_ne.
Qed.
End release.
