(* ===== verification/Grpc.v ===== *)
(** * Grpc: the server's handlers

    Models [ward-core/src/grpc/server.rs]: every handler as an operation on
    the sandbox manager, the broker's channels and the volume manager, with
    the token read from the request's metadata, and the conversion of errors
    and events for the wire.  [attach] is not modelled; of a stream the
    messages are modelled, not the task that forwards them. *)

From stdpp Require Import base list numbers option strings pretty gmap sets.
From Stdlib Require Import ZArith Lia Ascii.
From S2P Require Import Prelude Text Utf8 Tokio Net Signal Restart Output Broker Egress Validate Store Volume Archive Events Health Launch Guest Protocol Manager Relay Lifecycle Create Image Update Exec Calls Agent Diff Views Shared.

Local Open Scope Z_scope.

(** ** Statuses *)

Inductive Code :=
| CNotFound | CAlreadyExists | CFailedPrecondition | CUnavailable | CInvalidArgument | CInternal
| CPermissionDenied | CResourceExhausted | CAborted.
#[export] Instance Code_eq_dec : EqDecision Code.
Proof. solve_decision. Defined.
Record Status := mkStatus { code : Code; message : string }.

Definition ISSUES_URL : string := "https://github.com/igorjs/ward/issues".
Definition internal_status (cause : string) : Status :=
  mkStatus CInternal (cat ["internal error: "; cause; ". This is a daemon bug, please report it at "; ISSUES_URL]).
Definition name_conflict_message (n : string) (id : option string) : string :=
  let holder := match id with Some id => cat [" by container "; dquote; id; dquote] | None => "" end in
  cat ["Conflict. The container name "; dquote; "/"; n; dquote; " is already in use"; holder;
       ". You have to remove (or rename) that container to be able to reuse that name."].
Definition api_err_to_status (e : ApiError) : Status :=
  match e with
  | SandboxNotFound reference => mkStatus CNotFound ("No such container: " +:+ reference)
  | NameInUse n id => mkStatus CAlreadyExists (name_conflict_message n id)
  | VolumeNotFound id => mkStatus CNotFound ("volume not found: " +:+ id)
  | VolumeInUse msg => mkStatus CFailedPrecondition msg
  | SnapshotNotFound id => mkStatus CNotFound ("snapshot not found: " +:+ id)
  | ProcessNotFound id => mkStatus CNotFound ("process not found: " +:+ id)
  | ImageNotFound msg => mkStatus CNotFound msg
  | Unavailable msg => mkStatus CUnavailable msg
  | PathNotFound msg => mkStatus CNotFound msg
  | InvalidRequest msg => mkStatus CInvalidArgument msg
  | GuestIo detail => mkStatus CInternal ("the sandbox could not complete the copy: " +:+ detail)
  | BackendErr _ => internal_status "the sandbox backend failed"
  | Internal _ => internal_status "unexpected daemon state"
  | PermissionDenied msg => mkStatus CPermissionDenied msg
  | AmbiguousReference msg => mkStatus CFailedPrecondition msg
  | ResourceExhausted msg => mkStatus CResourceExhausted msg
  | AddressInUse msg => mkStatus CAlreadyExists ("address already in use: " +:+ msg)
  end.

(** ** Tokens *)

(** The value of the token's key in the metadata: missing, not decodable, or
    a text. *)
Abbreviation Header := (option (option string)).
Definition optional_token_from_metadata (h : Header) : option string := default "" <$> h.
Definition token_from_metadata (h : Header) : string := default "" (optional_token_from_metadata h).

Definition MAIN_PROCESS_PID : string := "0".
Definition KILL_SIGNAL : Z := 9.
Definition check_signal_supported (pid : string) (sig : Z) : result unit ApiError :=
  if negb (bool_decide (pid = MAIN_PROCESS_PID)) && negb (sig =? 0) && negb (sig =? KILL_SIGNAL)
  then Err (InvalidRequest (cat ["only signal "; pretty KILL_SIGNAL; " can be sent to an exec process, got "; pretty sig]))
  else Ok tt.

(** ** Streams from the client *)

Inductive CopyKind := CopyStart (sandbox_id path : string) | CopyData (data : list Z) | CopyNone.
Definition MAX_COPY_DATA_BYTES : nat := ARCHIVE_CHUNK_BYTES.
(** The chunks handed to the copy, and how the stream ended.  [room] tells how
    many of them the copy takes before it drops its end. *)
Fixpoint forward_copy_data (room : nat) (inbound : list (result CopyKind Status)) : list (list Z) * result unit Status :=
  match inbound with
  | [] => ([], Ok tt)
  | Err s :: _ => ([], Err s)
  | Ok (CopyData data) :: rest =>
      if (length data <=? MAX_COPY_DATA_BYTES)%nat then
        match room with
        | O => ([], Ok tt)
        | S room => let '(chunks, r) := forward_copy_data room rest in (data :: chunks, r)
        end
      else ([], Err (mkStatus CInvalidArgument (cat ["copy data frames hold at most "; pretty MAX_COPY_DATA_BYTES; " bytes"])))
  | Ok _ :: _ => ([], Err (mkStatus CInvalidArgument "expected a data message"))
  end.

(** The pump of an upload: it ends after the first failure. *)
Fixpoint pump_upload (upload : list (result bytes string)) : Upload :=
  match upload with
  | [] => []
  | Ok data :: rest => Ok data :: pump_upload rest
  | Err e :: _ => [Err e]
  end.

(** ** Events for the wire

    The model's events carry no time stamp and no duration. *)

Inductive PbEventType := PbStdout | PbStderr | PbExit.
Record PbStreamEvent := mkPbStreamEvent { pe_type : PbEventType; pe_line : string; pe_exit_code : Z }.
Definition stream_event_to_pb (ev : StreamEvent) : PbStreamEvent :=
  mkPbStreamEvent
    match se_kind ev with
    | KStdout | KData Stdout _ => PbStdout
    | KStderr | KData Stderr _ => PbStderr
    | KExit => PbExit
    end (se_line ev) (default 0 (se_exit_code ev)).

Record PbEventBridge := mkPbBridge { b_stdout : Utf8Stream; b_stderr : Utf8Stream }.
Definition bridge_default : PbEventBridge := mkPbBridge utf8_default utf8_default.
Definition decoder (b : PbEventBridge) (s : RawStream) : Utf8Stream :=
  match s with Stdout => b_stdout b | Stderr => b_stderr b end.
Definition set_decoder (b : PbEventBridge) (s : RawStream) (u : Utf8Stream) : PbEventBridge :=
  match s with Stdout => mkPbBridge u (b_stderr b) | Stderr => mkPbBridge (b_stdout b) u end.
(** Bytes as the characters of a text. *)
Definition chars_of (b : bytes) : list ascii := ascii_of_byte <$> b.
Definition text_of (l : list ascii) : string := String.string_of_list_ascii l.
Definition data_event (s : RawStream) (line : string) : StreamEvent := mkStreamEvent (KData s []) line None None 0.

(** The tail of one stream, if it has one. *)
Definition flush (s : RawStream) (b : PbEventBridge) : list PbStreamEvent * PbEventBridge :=
  let '(tail, u) := utf8_finish (decoder b s) in
  (match tail with [] => [] | _ => [stream_event_to_pb (data_event s (text_of tail))] end, set_decoder b s u).
Definition convert (b : PbEventBridge) (ev : StreamEvent) : list PbStreamEvent * PbEventBridge :=
  match se_kind ev with
  | KData s data =>
      let '(line, u) := utf8_push (decoder b s) (chars_of data) in
      let ev := mkStreamEvent (se_kind ev) (text_of line) (se_exit_code ev) (se_wait_status ev) (se_oom_kills ev) in
      (match line with [] => [] | _ => [stream_event_to_pb ev] end, set_decoder b s u)
  | KExit =>
      let '(out, b) := flush Stdout b in
      let '(err, b) := flush Stderr b in
      (out ++ err ++ [stream_event_to_pb ev], b)
  | _ => ([stream_event_to_pb ev], b)
  end.
(** The task behind [stream_output], for a client that stays. *)
Fixpoint bridge_run (b : PbEventBridge) (evs : list StreamEvent) : list PbStreamEvent :=
  match evs with
  | [] => []
  | ev :: evs => let '(out, b) := convert b ev in out ++ bridge_run b evs
  end.

Record PbEvent := mkPbEvent {
  pv_action : string; pv_sandbox_id : string; pv_at : option Timestamp; pv_attributes : gmap string string; pv_dropped : nat;
}.
Definition EVENT_IMAGE_ATTRIBUTE : string := "image".
Definition EVENT_NAME_ATTRIBUTE : string := "name".
Definition EVENT_EXIT_CODE_ATTRIBUTE : string := "exitCode".
Definition EVENT_REASON_ATTRIBUTE : string := "reason".
Definition system_time_to_pb (t : Z) : option Timestamp :=
  if t <? 0 then None else Some (mkTimestamp (t / NANOS_PER_SEC) (t mod NANOS_PER_SEC)).
Definition event_to_pb (d : Delivered) : PbEvent :=
  let ev := event d in
  let attrs := <[EVENT_NAME_ATTRIBUTE := ev_name ev]> (<[EVENT_IMAGE_ATTRIBUTE := ev_image ev]> (ev_labels ev)) in
  let attrs := match ev_exit_code ev with Some c => <[EVENT_EXIT_CODE_ATTRIBUTE := pretty c]> attrs | None => attrs end in
  let attrs := match reason ev with Some r => <[EVENT_REASON_ATTRIBUTE := end_reason_str r]> attrs | None => attrs end in
  mkPbEvent (action_str (action ev)) (ev_sandbox_id ev) (system_time_to_pb (at_time ev)) attrs (missed d).

(** What one turn of [forward_events] sees: the client hung up, the time is
    over, or the reader's next event; and whether the client takes it. *)
Inductive EventTurn := TurnClosed | TurnExpired | TurnNext (d : option Delivered) (taken : bool).
Fixpoint forward_events (until : option Z) (turns : list EventTurn) : list PbEvent :=
  match turns with
  | [] | TurnClosed :: _ | TurnExpired :: _ | TurnNext None _ :: _ => []
  | TurnNext (Some d) taken :: turns =>
      if match until with Some u => u <? at_time (event d) | None => false end then []
      else if taken then event_to_pb d :: forward_events until turns
      else []
  end.

(** What [stream_pull] sends to a client that stays. *)
Definition stream_pull {A} (lines : list PullLine) (r : result A ApiError) : list (result PullLine Status) :=
  (Ok <$> lines) ++ match r with Ok _ => [] | Err e => [Err (api_err_to_status e)] end.

(** What [stream_archive] sends, from what it reads of the file. *)
Definition unreadable : Status := internal_status "the archive could not be read".
Fixpoint archive_chunks (reads : list (result bytes string)) : list (result bytes Status) :=
  match reads with
  | [] | Ok [] :: _ => []
  | Ok data :: reads => Ok data :: archive_chunks reads
  | Err _ :: _ => [Err unreadable]
  end.
Definition stream_archive (opened : result (list (result bytes string)) string) : list (result bytes Status) :=
  match opened with Ok reads => archive_chunks reads | Err _ => [Err unreadable] end.

Record PbMessage := mkPbMessage { ms_topic : string; ms_from : string; ms_payload : string; ms_at : option Timestamp }.
Definition delivered_message_to_pb (m : DeliveredMessage) : PbMessage :=
  mkPbMessage (dm_topic m) (dm_from m) (payload m) (system_time_to_pb (dm_timestamp m)).
Record PbLogEntry := mkPbLog { lg_from : string; lg_topic : string; lg_allowed : bool; lg_count : nat; lg_at : option Timestamp }.
Definition log_entry_to_pb (l : LogEntry) : PbLogEntry :=
  mkPbLog (le_from l) (le_topic l) (allowed l) (subscriber_count l) (system_time_to_pb (le_timestamp l)).
Record PbSnapshot := mkPbSnapshot { ps_id : string; ps_sandbox : string; ps_label : string; ps_at : option Timestamp; ps_size : Z }.
Definition snapshot_info_to_pb (s : SnapshotInfo) : PbSnapshot :=
  mkPbSnapshot (snapshot_id s) (sn_sandbox_id s) (sn_label s) (system_time_to_pb (sn_created_at s)) (sn_size_bytes s).
Record PbEgressLog := mkPbEgressLog { eg_sandbox : string; eg_domain : string; eg_port : string; eg_allowed : bool; eg_at : option Timestamp }.
Definition egress_entry_to_pb (e : EgressLogEntry) : PbEgressLog :=
  mkPbEgressLog (el_sandbox_id e) (el_domain e) (pretty (el_port e)) (el_allowed e)
    (Some (system_time_to_timestamp (el_timestamp e))).
Record PbBlocked := mkPbBlocked { bl_host : string; bl_count : Z; bl_last_seen_unix : Z }.
Definition blocked_to_pb (d : BlockedDestination) : PbBlocked :=
  mkPbBlocked (host d) (count d) (if last_seen d <? 0 then 0 else last_seen d / NANOS_PER_SEC).

(** ** The server *)

Record HostInfo := mkHost {
  hi_hostname : string; hi_kernel : string; hi_os : string; hi_ncpu : Z; hi_mem_total : Z;
}.
(** [WardGrpcServer] with the managers it shares.  The broker's channels stand
    beside its state in the manager's world, and the volume manager is the one
    in that world's environment: both hold the same [Arc<VolumeManager>]. *)
Record Server (E ch : Type) := mkServer {
  procs : Procs E;
  channels : gmap nat ch;
  counters : BrokerMetrics;
  server_started : Z;
  host_info : HostInfo;
  root_dir : string;
  daemon_id : string;
}.
Arguments mkServer {E ch}.
Arguments procs {E ch}.
Arguments channels {E ch}.
Arguments counters {E ch}.
Arguments server_started {E ch}.
Arguments host_info {E ch}.
Arguments root_dir {E ch}.
Arguments daemon_id {E ch}.

Section server.
Context {B ch : Type} `{HBE : !Backend B} `{HXE : !ExecBackend B} `{HCB : !CallBackend B} `{HVB : !ViewBackend B}.
Context `{HVH : !VolumeHost}.
Abbreviation E := (B * VolumeManager)%type.
Context `{HM : !Mpsc DeliveredMessage ch}.
Context (cfg : Config) (order : gmap string SandboxEntry → list (string * SandboxEntry)) (digest : string → list Z).
Implicit Types (s : Server E ch).

Definition world s : World E := pw (procs s).
Definition set_procs (p : Procs E) s : Server E ch :=
  mkServer p (channels s) (counters s) (server_started s) (host_info s) (root_dir s) (daemon_id s).
Definition volume_manager s : VolumeManager := (Manager.env (world s)).2.
Definition broker_of s : Broker ch := mkBroker (broker (world s)) (channels s) (counters s).
Definition set_broker (b : Broker ch) s : Server E ch :=
  let p := procs s in
  mkServer (mkProcs (upd_broker (λ _, inner b) (pw p)) (cells p) (stdins p) (bridges p) (fresh_id p)) (chans b) (metrics b)
    (server_started s) (host_info s) (root_dir s) (daemon_id s).

(** A handler, and the calls it makes, whose errors become statuses. *)
Definition Rpc (A : Type) : Type := Server E ch → result A Status * Server E ch.
Definition rret {A} (a : A) : Rpc A := λ s, (Ok a, s).
Definition rfail {A} (e : Status) : Rpc A := λ s, (Err e, s).
Definition rlift {A} (r : result A ApiError) : Rpc A := λ s, (map_err api_err_to_status r, s).
Definition rseq {A B} (m : Rpc A) (k : A → Rpc B) : Rpc B :=
  λ s, match m s with (Ok a, s') => k a s' | (Err e, s') => (Err e, s') end.
Definition on_procs {A} (m : Procs E → result A ApiError * Procs E) : Rpc A :=
  λ s, let '(r, p) := m (procs s) in (map_err api_err_to_status r, set_procs p s).
Definition on_manager {A} (m : St E A) : Rpc A := on_procs (on_world m).
Definition on_volumes {A} (m : VSt A) : Rpc A :=
  on_manager (λ w, let '(r, v) := m (Manager.env w).2 in (r, upd_env (λ en, (en.1, v)) w)).
Definition on_broker {A} (m : Broker ch → result A ApiError * Broker ch) : Rpc A :=
  λ s, let '(r, b) := m (broker_of s) in (map_err api_err_to_status r, set_broker b s).
Notation "'let*' x := m 'in' k" := (rseq m (λ x, k)) (at level 10, x pattern, m at level 100, k at level 200).
Notation "m ;* k" := (rseq m (λ _, k)) (at level 100, k at level 200, right associativity).

Definition resolve_sandbox (reference : string) : Rpc string := on_manager (resolve order reference).
Definition authorized_id (reference token : string) : Rpc string :=
  let* sid := resolve_sandbox reference in
  on_manager (authorize order digest sid token) ;*
  rret sid.
(** What every handler of one sandbox's request does before its call. *)
Definition guarded {A} (h : Header) (reference : string) (k : string → Rpc A) : Rpc A :=
  let* sid := authorized_id reference (token_from_metadata h) in k sid.

(** ** Sandboxes *)

(** [new_id] and [new_token] are what the manager draws. *)
Definition rpc_create_sandbox (h : Header) (req : CreateRequest) (new_id new_token : string) : Rpc PbSandboxInfo :=
  on_manager (shown FullCommand (create cfg order digest req new_id new_token (token_from_metadata h))).
Definition rpc_get_sandbox (h : Header) (reference : string) : Rpc PbSandboxInfo :=
  on_manager
    match optional_token_from_metadata h with
    | Some token => get_authorized order digest reference token
    | None => get order reference
    end.
Definition rpc_list_sandboxes : Rpc (list PbSandboxInfo) := on_manager list_sandboxes.
Definition rpc_remove_sandbox (h : Header) (reference : string) (volumes : bool) : Rpc unit :=
  guarded h reference (λ sid, on_manager (remove_with_volumes order sid volumes)).
Definition with_id (sid : string) (req : UpdateRequest) : UpdateRequest :=
  mkUpdate sid (up_memory_mb req) (up_nano_cpus req) (up_pids_max req) (up_cgroup req) (up_restart_policy req).
Definition rpc_update_sandbox (h : Header) (req : UpdateRequest) : Rpc PbSandboxInfo :=
  guarded h (up_id req) (λ sid, on_manager (shown FullCommand (update cfg order (with_id sid req)))).
Definition rpc_pause (h : Header) (reference : string) : Rpc PbSandboxInfo :=
  guarded h reference (λ sid, on_manager (shown FullCommand (pause order sid))).
Definition rpc_unpause (h : Header) (reference : string) : Rpc PbSandboxInfo :=
  guarded h reference (λ sid, on_manager (shown FullCommand (unpause order sid))).
Definition rpc_rename_sandbox (h : Header) (reference new_name : string) : Rpc PbSandboxInfo :=
  guarded h reference (λ sid,
    on_manager (let! sid := rename cfg order sid new_name in shown Argv0Only (info sid))).
Definition rpc_stop (h : Header) (reference : string) (grace : option Z) (sig : option string) : Rpc PbSandboxInfo :=
  guarded h reference (λ sid, on_manager (shown FullCommand (stop_with_signal cfg order sid grace sig))).
Definition rpc_start (h : Header) (reference : string) : Rpc PbSandboxInfo :=
  guarded h reference (λ sid, on_manager (shown FullCommand (start_sandbox cfg order sid))).
Definition rpc_restart (h : Header) (reference : string) (grace : option Z) (sig : option string) : Rpc PbSandboxInfo :=
  guarded h reference (λ sid, on_manager (shown FullCommand (restart_with_signal cfg order sid grace sig))).

(** ** Processes *)

Definition for_id (sid : string) (req : ExecRequest) : ExecRequest :=
  mkExecRequest sid (e_command req) (e_env req) (e_working_dir req) (e_user req) (e_secrets req).
Definition rpc_exec (h : Header) (req : ExecRequest) : Rpc ProcessInfo :=
  guarded h (e_sandbox_id req) (λ sid, on_procs (exec order (for_id sid req))).
Definition rpc_run (h : Header) (reference : string) : Rpc ProcessInfo :=
  guarded h reference (λ _, on_manager run_snippet).
(** The reply names the bridge whose events [bridge_run] converts. *)
Definition rpc_stream_output (h : Header) (reference pid : string) : Rpc nat :=
  rlift (entity_id pid "process") ;*
  guarded h reference (λ sid, on_procs (stream_output order sid pid)).
Definition rpc_write_stdin (h : Header) (reference pid : string) (data : bytes) : Rpc unit :=
  rlift (entity_id pid "process") ;*
  guarded h reference (λ sid, on_procs (write_stdin order sid pid data)).
Definition rpc_kill_process (h : Header) (reference pid : string) (sig : Z) : Rpc unit :=
  rlift (entity_id pid "process") ;*
  rlift (check_signal_supported pid sig) ;*
  guarded h reference (λ sid,
    if bool_decide (pid = MAIN_PROCESS_PID) then on_manager (signal_main_process cfg order sid sig)
    else on_manager (kill_process order sid pid)).
Definition rpc_top (h : Header) (reference : string) (ps_args : list string) : Rpc ProcessTable :=
  guarded h reference (λ sid, on_manager (top order sid ps_args)).
Definition rpc_stats (h : Header) (between : World E → World E) (reference : string) : Rpc SandboxStats :=
  guarded h reference (λ sid, on_manager (stats order between sid)).
(** [looks] is what the wait sees; [None] while it still waits. *)
Definition rpc_wait (h : Header) (reference : string) (c : WaitCondition) (w1 : World E) (looks : list (Look E))
    : Rpc (option Z) :=
  guarded h reference (λ sid s,
    (match wait_until order sid c (world s) w1 looks with
     | None => Ok None
     | Some r => map_err api_err_to_status (let? code := r in Ok (Some code))
     end, s)).

(** ** Snapshots, files, images of a sandbox *)

Definition rpc_create_snapshot (h : Header) (reference label : string) : Rpc PbSnapshot :=
  guarded h reference (λ sid,
    let* i := on_manager (create_snapshot order sid label) in rret (snapshot_info_to_pb i)).
Definition rpc_restore_snapshot (h : Header) (reference snapshot : string) : Rpc unit :=
  rlift (entity_id snapshot "snapshot") ;*
  guarded h reference (λ sid, on_manager (restore_snapshot order sid snapshot)).
(** The two handlers that answer an unknown sandbox with nothing. *)
Definition lenient {A} (h : Header) (reference : string) (nothing : A) (k : string → Rpc A) : Rpc A := λ s,
  match resolve order reference (world s) with
  | (Err (SandboxNotFound _), _) => (Ok nothing, s)
  | (Err e, _) => (Err (api_err_to_status e), s)
  | (Ok sid, _) => (on_manager (authorize order digest sid (token_from_metadata h)) ;* k sid) s
  end.
Definition rpc_list_snapshots (h : Header) (reference : string) : Rpc (list PbSnapshot) :=
  lenient h reference [] (λ sid,
    let* l := on_manager (list_snapshots order sid) in rret (snapshot_info_to_pb <$> l)).
(** [aborted]: the pump of a copy that failed was stopped before its end. *)
Definition rpc_copy_to (h : Header) (inbound : list (result CopyKind Status)) (room : nat) (aborted : bool) : Rpc unit :=
  match inbound with
  | [] => rfail (mkStatus CInvalidArgument "copy stream ended before a start message")
  | Err e :: _ => rfail e
  | Ok (CopyStart reference path) :: rest =>
      guarded h reference (λ sid s,
        let '(chunks, pumped) := forward_copy_data room rest in
        let '(copied, s) := on_manager (copy_to order sid path chunks) s in
        let pumped := match copied with Err _ => if aborted then Ok tt else pumped | Ok _ => pumped end in
        (match pumped with Err e => Err e | Ok _ => copied end, s))
  | Ok _ :: _ => rfail (mkStatus CInvalidArgument "first copy message must be start")
  end.
Definition rpc_copy_from (h : Header) (check : Limits → Checker) (listening : nat) (reference path : string)
    : Rpc (list (result (list Z) Status)) :=
  guarded h reference (λ sid,
    let* items := on_manager (copy_from order check listening sid path) in
    rret (map_err api_err_to_status <$> items)).
Definition rpc_diff (h : Header) (reference : string) : Rpc (list FsChange) :=
  guarded h reference (λ sid, on_manager (diff order sid)).
Definition rpc_export_sandbox (h : Header) (open : SavedArchive → result (list (result bytes string)) string) (reference : string)
    : Rpc (list (result bytes Status)) :=
  guarded h reference (λ sid,
    let* a := on_manager (export_sandbox order sid) in rret (stream_archive (open a))).
(** [Some(r).filter(|r| !r.is_empty())]. *)
Definition given (r : string) : option string := if is_empty r then None else Some r.
Definition rpc_commit (h : Header) (reference image author msg : string) (changes : list string) : Rpc string :=
  guarded h reference (λ sid, on_manager (commit_image order sid (mkCommitSpec (given image) author msg changes))).

(** ** Egress and messages *)

Definition rpc_get_egress_log (h : Header) (reference : string) : Rpc (list PbEgressLog) :=
  guarded h reference (λ sid, let* l := on_manager (egress_log order sid) in rret (egress_entry_to_pb <$> l)).
Definition rpc_blocked_egress (h : Header) (reference : string) : Rpc (list PbBlocked) :=
  guarded h reference (λ sid, let* l := on_manager (blocked_egress order sid) in rret (blocked_to_pb <$> l)).
Definition rpc_add_egress_allow (h : Header) (reference : string) (doms : list string) : Rpc (list string) :=
  guarded h reference (λ sid, on_manager (add_egress_allow cfg order vb_allow_egress sid doms)).
Definition rpc_publish (h : Header) (reference topic body : string) : Rpc unit :=
  rlift (topic_name topic) ;*
  rlift (publish_payload body) ;*
  guarded h reference (λ sid s,
    (let* _ := on_broker (publish (Manager.clock (world s)) sid topic body) in rret tt) s).
(** The reply names the channel whose messages are converted and sent. *)
Definition rpc_subscribe (h : Header) (reference topic : string) : Rpc nat :=
  rlift (topic_name topic) ;*
  guarded h reference (λ sid, on_broker (subscribe sid topic)).
Definition rpc_get_communication_log (h : Header) (reference : string) : Rpc (list PbLogEntry) :=
  lenient h reference [] (λ sid s, (Ok (log_entry_to_pb <$> broker_log sid (broker_of s)), s)).

(** ** Volumes *)

Definition rpc_create_volume (req : CreateVolumeRequest) (new_id : string) (now : Z) : Rpc VolumeInfo :=
  on_volumes (create_volume vh_data_dir vh_max_volumes vh_order vh_to_json req new_id now).
Definition rpc_get_volume (id : string) : Rpc VolumeInfo := on_volumes (λ v, (get_volume id v, v)).
Definition rpc_list_volumes : Rpc (list VolumeInfo) := on_volumes (λ v, (Ok (list_volumes vh_order v), v)).
Definition rpc_remove_volume (id : string) : Rpc unit := λ s,
  on_volumes (remove_if_unused id (volume_users_in order (entries (world s)))) s.

(** ** Images *)

Definition rpc_list_images : Rpc (list PbImage) := on_manager list_images.
Definition rpc_remove_image (reference : string) (force : bool) : Rpc ImageRemoval := on_manager (remove_image reference force).
Definition rpc_tag_image (source_ target_ : string) : Rpc unit := on_manager (tag_image source_ target_).
Record PbHistory := mkPbHistory {
  ht_image_id : string; ht_layers : list (option Timestamp * string * Z * string); ht_config : ImageConfig;
}.
Definition rpc_image_history (reference : string) : Rpc PbHistory :=
  let* v := on_manager (image_history reference) in
  rret (mkPbHistory (hv_image_id v)
    ((λ e, (into_timestamp <$> h_created e, h_created_by e, h_size e, h_comment e)) <$> rev (hv_entries v)) (hv_config v)).
Definition rpc_save_images (open : SavedArchive → result (list (result bytes string)) string) (names : list string)
    : Rpc (list (result bytes Status)) :=
  let* a := on_manager (save_images names) in rret (stream_archive (open a)).
Definition rpc_load_images (upload : list (result bytes string)) : Rpc (list LoadedImage) :=
  on_manager (load_images (pump_upload upload)).
(** The first message carries the description and may carry data. *)
Definition rpc_import_image (first : option (string * string * list string * bytes)) (upload : list (result bytes string))
    : Rpc string :=
  match first with
  | None => rfail (mkStatus CInvalidArgument "the upload is empty")
  | Some (reference, msg, changes, data) =>
      let chunks := match data with [] => [] | _ => [Ok data] end ++ pump_upload upload in
      let* i := on_manager (import_image (mkImport (given reference) msg changes) chunks) in rret (li_digest i)
  end.
Definition rpc_check_registry_login (registry_host : string → string) (server user_ password_ : string) : Rpc unit :=
  on_manager (check_registry_login (registry_host server) (mkCredentials user_ password_)).
Definition rpc_pull_image (reference : string) : Rpc (list (result PullLine Status)) := λ s,
  let '(lines, r, w) := pull_image reference (world s) in
  (Ok (stream_pull lines r),
   set_procs (let p := procs s in mkProcs w (cells p) (stdins p) (bridges p) (fresh_id p)) s).

(** ** The daemon *)

Record PbDaemonHealth := mkPbDaemonHealth { dh_status : string; dh_uptime : Z; dh_count : Z; dh_at : option Timestamp }.
Definition rpc_get_health (now wall : Z) : Rpc PbDaemonHealth := λ s,
  (let* n := on_manager count_sandboxes in
   rret (mkPbDaemonHealth "ok" ((now - server_started s) / NANOS_PER_SEC) (Z.of_nat n mod 2 ^ 32)
     (Some (mkTimestamp (Z.max 0 wall / NANOS_PER_SEC) 0)))) s.
Record PbDaemonInfo := mkPbDaemonInfo {
  di_version : string; di_platform : string; di_backend : string; di_arch : string; di_host : HostInfo;
  di_root_dir : string; di_id : string;
}.
Definition rpc_get_info (version os arch : string) : Rpc PbDaemonInfo := λ s,
  (Ok (mkPbDaemonInfo version os "krunvm" arch (host_info s) (root_dir s) (daemon_id s)), s).
End server.
