(* ===== verification/Attach.v ===== *)
(** * Attach: one stream onto a process

    Models [ward-core/src/grpc/attach.rs]: the choice of the process, the pumps
    that send its output and its exit, and the task that hands the client's
    input on.  What [select!] sees in one turn is an argument; [room] is how
    many messages the client takes before it hangs up. *)

From stdpp Require Import base list numbers option strings pretty gmap sets.
From Stdlib Require Import ZArith Lia.
From S2P Require Import Prelude Text Utf8 Tokio Net Signal Restart Output Broker Egress Validate Store Volume Archive Events Health Launch Guest Protocol Manager Relay Lifecycle Create Image Update Exec Calls Agent User Codec GuestAgent Diff Views Grpc Shared.

Local Open Scope Z_scope.

(** ** Messages *)

(** What the server sends. *)
Inductive AttachReply :=
| AttachData (data : bytes) (s : RawStream) (at_time : Z)
| AttachReplayEnd
| AttachExit (exit_code : Z).
(** What a client sends after its start. *)
Inductive AttachInput :=
| InStdin (data : bytes) | InResize (rows cols : Z) | InSignal (signo : Z) | InOther.
Inductive AttachMode := ModeUnspecified | ModeMain | ModeExec.
Record AttachStart := mkAttachStart {
  as_sandbox_id : string;
  as_mode : AttachMode;
  as_command : list string;
  as_env : gmap string string;
  as_workdir : string;
  as_user : string;
  as_tty : bool;
  as_replay : bool;
  as_follow : bool;
  as_secrets : list SecretFile;
}.

Definition SIGKILL : Z := 9.
Definition NO_EXIT_STATUS : string := "process ended without an exit status".
Definition STDIN_BACKLOG_LIMIT : Z := 16 * 1024 * 1024.
Definition aborted : Status := mkStatus CAborted NO_EXIT_STATUS.

(** [send_data]: an empty chunk is not sent. *)
Definition data_message (c : OutputChunk) : option AttachReply :=
  match chunk_bytes c with [] => None | b => Some (AttachData b (Output.stream c) (Output.at_ c)) end.
Definition send_exit (raw : Z) : AttachReply := AttachExit (decode_wait_status raw).

(** ** Output *)

Inductive MainTurn :=
| MainClosed
| MainLive (chunk : option OutputChunk)
| MainExit (status : result Z ApiError) (rest : list OutputChunk).
Definition data_messages (cs : list OutputChunk) : list (result AttachReply Status) := Ok <$> omap data_message cs.
Fixpoint follow_main (turns : list MainTurn) : list (result AttachReply Status) :=
  match turns with
  | [] | MainClosed :: _ | MainLive None :: _ => []
  | MainLive (Some chunk) :: turns => data_messages [chunk] ++ follow_main turns
  | MainExit status rest :: _ =>
      data_messages rest ++ [match status with Ok raw => Ok (send_exit raw) | Err e => Err (api_err_to_status e) end]
  end.
(** [subscribed]: the buffered chunks, or why there are none. *)
Definition pump_main (subscribed : result (list OutputChunk) ApiError) (buffer_only : bool) (room : nat)
    (turns : list MainTurn) : list (result AttachReply Status) :=
  take room
    match subscribed with
    | Err e => [Err (api_err_to_status e)]
    | Ok buffered =>
        data_messages buffered ++ [Ok AttachReplayEnd] ++ (if buffer_only then [] else follow_main turns)
    end.

(** The second part is what is sent to the process's control. *)
Inductive ExecTurn := ExecClosed | ExecOutput (ev : option (Z * StreamEvent)).
Fixpoint pump_exec (control : bool) (room : nat) (turns : list ExecTurn)
    : list (result AttachReply Status) * list ProcessControl :=
  match turns with
  | [] => ([], [])
  | ExecClosed :: _ => ([], if control then [SignalNumber SIGKILL] else [])
  | ExecOutput None :: _ => (take room [Err aborted], [])
  | ExecOutput (Some (now, ev)) :: turns =>
      match event_chunk now ev with
      | Some chunk =>
          match data_message chunk, room with
          | None, _ => pump_exec control room turns
          | Some _, O => ([], [])
          | Some m, S room => let '(out, signals) := pump_exec control room turns in (Ok m :: out, signals)
          end
      | None =>
          (take room [match event_wait_status (se_wait_status ev) (se_exit_code ev) with
                      | Some raw => Ok (send_exit raw)
                      | None => Err aborted
                      end], [])
      end
  end.

(** ** Input *)

Inductive StdinStep := StepData (data : bytes) | StepClose.
Record InputTask := mkInput {
  backlog : list StdinStep;
  backlog_bytes : Z;
  input_closed : bool;
  (** The channels of the process the task still holds. *)
  has_stdin : bool;
  has_control : bool;
  (** What it did: the chunks written, the end of the input passed on, the
      controls sent. *)
  written : list bytes;
  eof_passed : bool;
  controls : list ProcessControl;
}.
Definition input_start (stdin control : bool) : InputTask := mkInput [] 0 false stdin control [] false [].

(** Which branch of the [select!] a turn takes: room in the process's input, or
    its end; or the client's next message. *)
Inductive InputTurn := TurnPermit (live : bool) | TurnClient.
Inductive InputEnd := InputRuns | InputEnded | InputPanicked.

(** The permit branch, for a backlog that is not empty. *)
Definition permit_turn (live : bool) (step : StdinStep) (rest : list StdinStep) (t : InputTask) : InputTask :=
  if live && has_stdin t then
    match step with
    | StepData d =>
        mkInput rest (backlog_bytes t - Z.of_nat (length d)) (input_closed t) (has_stdin t) (has_control t)
          (written t ++ [d]) (eof_passed t) (controls t)
    | StepClose =>
        mkInput rest (backlog_bytes t) (input_closed t) false (has_control t) (written t) true (controls t)
    end
  else
    mkInput [] (backlog_bytes t) (input_closed t) false (has_control t) (written t) (eof_passed t) (controls t).
Definition send_control (c : ProcessControl) (t : InputTask) : InputTask :=
  if has_control t then
    mkInput (backlog t) (backlog_bytes t) (input_closed t) (has_stdin t) (has_control t) (written t) (eof_passed t) (controls t ++ [c])
  else t.
Definition push_step (step : StdinStep) (bytes : Z) (closes : bool) (t : InputTask) : InputTask :=
  mkInput (backlog t ++ [step]) (backlog_bytes t + bytes) (input_closed t || closes) (has_stdin t) (has_control t)
    (written t) (eof_passed t) (controls t).
Definition client_turn (read_only : bool) (m : AttachInput) (t : InputTask) : InputTask :=
  if read_only then t else
  match m with
  | InStdin d =>
      if input_closed t then t
      else match d with
           | [] => push_step StepClose 0 true t
           | _ => push_step (StepData d) (Z.of_nat (length d)) false t
           end
  | InResize rows cols => send_control (Resize rows cols) t
  | InSignal signo => send_control (SignalNumber signo) t
  | InOther => t
  end.
(** After the client is gone: the control is dropped, and what data is still
    queued is handed over while the process takes it, [accepts] chunks. *)
Fixpoint handed_over (accepts : nat) (steps : list StdinStep) : list bytes :=
  match steps, accepts with
  | StepData d :: steps, S accepts => d :: handed_over accepts steps
  | _, _ => []
  end.
Definition hand_over (accepts : nat) (t : InputTask) : InputTask :=
  mkInput [] (backlog_bytes t) (input_closed t) (has_stdin t) false
    (written t ++ (if has_stdin t then handed_over accepts (backlog t) else [])) (eof_passed t) (controls t).

(** No branch is enabled: [select!] without [else] panics. *)
Definition stalled (t : InputTask) : bool :=
  match backlog t with [] => STDIN_BACKLOG_LIMIT <=? backlog_bytes t | _ => false end.
(** A turn of a branch that is not enabled does not happen. *)
Fixpoint forward_input (read_only : bool) (accepts : nat) (turns : list InputTurn) (inbound : list (result AttachInput Status))
    (t : InputTask) : InputTask * InputEnd :=
  if stalled t then (t, InputPanicked) else
  match turns with
  | [] => (t, InputRuns)
  | TurnPermit live :: turns =>
      match backlog t with
      | [] => forward_input read_only accepts turns inbound t
      | step :: rest => forward_input read_only accepts turns inbound (permit_turn live step rest t)
      end
  | TurnClient :: turns =>
      if STDIN_BACKLOG_LIMIT <=? backlog_bytes t then forward_input read_only accepts turns inbound t else
      match inbound with
      | Ok m :: inbound => forward_input read_only accepts turns inbound (client_turn read_only m t)
      | _ => (hand_over accepts t, InputEnded)
      end
  end.

(** ** Serving *)

(** What a served attach runs: the pump of the main process, or of a command
    started for it, beside the task that forwards the input. *)
Inductive Served := ServedMain (buffer_only read_only : bool) | ServedExec (pid : string) (output : list StreamEvent) (stdin : bool).

Section serve.
Context {B ch : Type} `{HBE : !Backend B} `{HXE : !ExecBackend B} `{HVH : !VolumeHost}.
Abbreviation E := (B * VolumeManager)%type.
Context (order : gmap string SandboxEntry → list (string * SandboxEntry)) (digest : string → list Z).

(** [main_io] finds the main process. *)
Definition main_io (sid : string) : St E MainProcess := λ w, (ok_or (mains w !! sid) (no_main_process sid), w).
Definition serve (sid : string) (start : AttachStart) : Rpc (B := B) (ch := ch) Served :=
  match as_mode start with
  | ModeMain =>
      match as_secrets start with
      | [] =>
          rseq (on_manager (main_io sid)) (λ _,
          rret (ServedMain (as_replay start && negb (as_follow start)) (as_replay start)))
      | _ =>
          rfail (mkStatus CInvalidArgument
            "secrets can only be sent when starting a command, not when attaching to the main process")
      end
  | ModeExec =>
      if as_replay start then rfail (mkStatus CInvalidArgument "replay applies to the main process only")
      else
        rseq (on_manager (put_exec_secrets sid (as_user start) (as_secrets start))) (λ _,
        rseq (on_manager (spawn_attached sid (as_command start)
          (if is_empty (as_workdir start) then None else Some (as_workdir start)) (as_env start) (as_tty start) (as_user start))) (λ h,
        match eh_output h with
        | Some output => rret (ServedExec (eh_pid h) output (eh_stdin h))
        | None => rfail (internal_status "the exec output stream is missing")
        end))
  | ModeUnspecified => rfail (mkStatus CInvalidArgument "attach mode must be main process or exec")
  end.

(** [first]: the first message of the stream, [Ok None] if it is no start. *)
Definition rpc_attach (h : Header) (first : option (result (option AttachStart) Status)) : Rpc (B := B) (ch := ch) Served :=
  match first with
  | None => rfail (mkStatus CInvalidArgument "attach stream ended before a start message")
  | Some (Err e) => rfail e
  | Some (Ok None) => rfail (mkStatus CInvalidArgument "first attach message must be start")
  | Some (Ok (Some start)) => guarded order digest h (as_sandbox_id start) (λ sid, serve sid start)
  end.
End serve.

(** ** The input arrives *)

(** What the client wrote before it closed its input, and what controls it
    sent; a failed stream counts as its end. *)
Fixpoint client_data (inbound : list (result AttachInput Status)) : list bytes :=
  match inbound with
  | Ok (InStdin []) :: _ => []
  | Ok (InStdin d) :: inbound => d :: client_data inbound
  | Ok _ :: inbound => client_data inbound
  | _ => []
  end.
Definition control_of (m : AttachInput) : list ProcessControl :=
  match m with
  | InResize rows cols => [Resize rows cols]
  | InSignal signo => [SignalNumber signo]
  | _ => []
  end.
Fixpoint client_controls (inbound : list (result AttachInput Status)) : list ProcessControl :=
  match inbound with
  | Ok m :: inbound => control_of m ++ client_controls inbound
  | _ => []
  end.
Definition step_bytes (s : StdinStep) : Z := match s with StepData d => Z.of_nat (length d) | StepClose => 0 end.
Definition queued (steps : list StdinStep) : Z := foldr (λ s n, step_bytes s + n) 0 steps.

Section input.
Context (all : list bytes) (sent : list ProcessControl).

(** What is still to come from the client. *)
Definition rest_data (t : InputTask) (inbound : list (result AttachInput Status)) : list bytes :=
  if input_closed t then [] else client_data inbound.
Record input_ok (control : bool) (inbound : list (result AttachInput Status)) (t : InputTask) : Prop := {
  io_prefix : written t `prefix_of` all;
  io_eof : eof_passed t = true → written t = all;
  io_live : has_stdin t = true → ∃ ds,
    backlog t = (StepData <$> ds) ++ (if input_closed t then [StepClose] else []) ∧
    written t ++ ds ++ rest_data t inbound = all;
  io_control : has_control t = control;
  io_controls : if control then controls t ++ client_controls inbound = sent else controls t = [];
}.
(** While the process reads its input. *)
Record reading (t : InputTask) : Prop := {
  rd_bytes : backlog_bytes t = queued (backlog t);
  rd_ended : has_stdin t = false → eof_passed t = true ∧ input_closed t = true ∧ backlog t = [];
}.

Lemma input_ok_permit control inbound live step rest t :
  backlog t = step :: rest → input_ok control inbound t → input_ok control inbound (permit_turn live step rest t).
Proof.
  intros Hb [Hp He Hl Hc Hs]. unfold permit_turn. destruct (live && has_stdin t) eqn:Hls; [|by split].
  apply andb_prop in Hls as [_ Hin]. destruct (Hl Hin) as (ds & Hds & Hall). rewrite Hb in Hds.
  destruct ds as [|d ds]; cbn in Hds.
  - destruct (input_closed t) eqn:Hcl; [|done]. injection Hds as -> ->. unfold rest_data in Hall. rewrite Hcl, app_nil_r in Hall.
    cbn in Hall.  split; try done.
  - injection Hds as -> ->. assert (written t ++ [d] ++ (ds ++ rest_data t inbound) = all) as Hall' by (by rewrite <- Hall).
    split; cbn; try done.
    + exists (ds ++ rest_data t inbound). by rewrite <- app_assoc.
    + intros Heof. rewrite (He Heof) in Hall'. rewrite <- Hall' at 1. rewrite <- (app_nil_r all) in Hall' at 2.
      apply app_inv_head in Hall'. done.
    + intros _. exists ds. split; [done|]. by rewrite <- app_assoc.
Qed.
Lemma input_ok_client control inbound m t :
  input_ok control (Ok m :: inbound) t → input_ok control inbound (client_turn false m t).
Proof.
  intros [Hp He Hl Hc Hs]. destruct m as [d|rows cols|signo|]; cbn.
  - destruct (input_closed t) eqn:Hcl.
    { split; try done. intros Hin. destruct (Hl Hin) as (ds & Hds & Hall). exists ds. unfold rest_data in *. rewrite Hcl in Hall |- *. done. }
    destruct d as [|b d]; (split; cbn; try done); intros Hin; destruct (Hl Hin) as (ds & Hds & Hall); unfold rest_data in *; cbn; rewrite Hcl in Hall |- *.
    + exists ds. rewrite Hds, app_nil_r. done.
    + exists (ds ++ [b :: d]). rewrite Hds, !app_nil_r, fmap_app. split; [done|]. cbn. rewrite <- app_assoc. exact Hall.
  - unfold send_control. rewrite Hc. destruct control; (split; [done..|]); [cbn; by rewrite <- app_assoc|done].
  - unfold send_control. rewrite Hc. destruct control; (split; [done..|]); [cbn; by rewrite <- app_assoc|done].
  - by split.
Qed.
Lemma queued_app l l' : queued (l ++ l') = queued l + queued l'.
Proof. unfold queued. induction l as [|s l IH]; [done|]. cbn [app foldr]. rewrite IH. lia. Qed.
Lemma reading_permit control inbound step rest t :
  backlog t = step :: rest → input_ok control inbound t → reading t → reading (permit_turn true step rest t).
Proof.
  intros Hb Hok [Hby Hen]. unfold permit_turn. destruct (has_stdin t) eqn:Hin; cbn [andb].
  2: { destruct (Hen eq_refl) as (_ & _ & Hnil). by rewrite Hb in Hnil. }
  rewrite Hb in Hby. destruct (io_live _ _ _ Hok Hin) as (ds & Hds & _). rewrite Hb in Hds. destruct ds as [|d ds]; cbn in Hds.
  - destruct (input_closed t) eqn:Hcl; [|done]. injection Hds as -> ->. split; cbn in *; [lia|done].
  - injection Hds as -> ->. split; cbn in *; [lia|done].
Qed.
Lemma reading_client m t : reading t → reading (client_turn false m t).
Proof.
  intros [Hby Hen]. destruct m as [d|rows cols|signo|]; cbn.
  - destruct (input_closed t) eqn:Hcl; [split; [done|]; intros Hx; by destruct (Hen Hx) as (? & _ & ?)|].
    assert (has_stdin t = true) as Hin by (destruct (has_stdin t); [done|]; destruct (Hen eq_refl); naive_solver).
    destruct d; (split; cbn; [rewrite queued_app; cbn; lia|congruence]).
  - unfold send_control. by destruct (has_control t).
  - unfold send_control. by destruct (has_control t).
  - by split.
Qed.
Lemma reading_not_stalled t : reading t → stalled t = false.
Proof. intros [Hby _]. unfold stalled. destruct (backlog t); [|done]. cbn in Hby. rewrite Hby. reflexivity. Qed.
Lemma handed_over_prefix n ds l : handed_over n ((StepData <$> ds) ++ match l with true => [StepClose] | false => [] end) = take n ds.
Proof. revert n. induction ds as [|d ds IH]; intros [|n]; cbn; [by destruct l..|done|by rewrite IH]. Qed.

(** The task at the end of the client's stream. *)
Lemma hand_over_ok control accepts inbound t (turns : list InputTurn) :
  client_data inbound = [] → client_controls inbound = [] → input_ok control inbound t →
  let t' := hand_over accepts t in
  written t' `prefix_of` all ∧ (eof_passed t' = true → written t' = all) ∧ controls t' `prefix_of` (if control then sent else []) ∧
  (reading t → Forall (λ x, x ≠ TurnPermit false) turns → InputEnded ≠ InputPanicked ∧
   (InputEnded = InputEnded → (length all ≤ accepts)%nat → written t' = all ∧ controls t' = if control then sent else [])).
Proof.
  intros Hd Hcs [Hp He Hl Hc Hs]. cbn. rewrite Hcs in Hs.
  assert (controls t = if control then sent else []) as Hctl by (destruct control; [by rewrite app_nil_r in Hs|done]).
  destruct (has_stdin t) eqn:Hin.
  - destruct (Hl eq_refl) as (ds & -> & Hall). rewrite handed_over_prefix. unfold rest_data in Hall. rewrite Hd in Hall.
    assert (written t ++ ds = all) as <- by (destruct (input_closed t); by rewrite app_nil_r in Hall).
    split_and!.
    + exists (drop accepts ds). by rewrite <- app_assoc, take_drop.
    + intros Heof. specialize (He Heof). rewrite <- (app_nil_r (written t)) in He at 1. apply app_inv_head in He as <-.
      by rewrite take_nil.
    + by rewrite Hctl.
    + intros _ _. split; [done|]. intros _ Hlen. rewrite length_app in Hlen. by rewrite take_ge by lia.
  - rewrite app_nil_r. split_and!; [done..|by rewrite Hctl|]. intros [_ Hen] _. split; [done|]. intros _ _.
    destruct (Hen Hin) as (Heof & _). auto.
Qed.
(** Everything a run of the task leaves behind. *)
Lemma forward_input_ok control accepts turns inbound t t' e :
  input_ok control inbound t → forward_input false accepts turns inbound t = (t', e) →
  written t' `prefix_of` all ∧ (eof_passed t' = true → written t' = all) ∧ controls t' `prefix_of` (if control then sent else []) ∧
  (reading t → Forall (λ x, x ≠ TurnPermit false) turns → e ≠ InputPanicked ∧
   (e = InputEnded → (length all ≤ accepts)%nat → written t' = all ∧ controls t' = if control then sent else [])).
Proof.
  revert inbound t. induction turns as [|turn turns IH]; intros inbound t Hok; cbn [forward_input].
  all: assert (controls t `prefix_of` (if control then sent else [])) as Hpre
    by (pose proof (io_controls _ _ _ Hok) as Hs; destruct control; [eexists; by symmetry|by rewrite Hs]).
  all: destruct (stalled t) eqn:Hst; [intros [= <- <-]; split_and!; [apply Hok..|done|]; intros Hr _; by rewrite reading_not_stalled in Hst|].
  { intros [= <- <-]. split_and!; [apply Hok..|done|done]. }
  destruct turn as [live|].
  - destruct (backlog t) as [|step rest] eqn:Hb; intros H.
    + apply IH in H as (? & ? & ? & Hlive); [|done]. split_and!; [done..|]. intros Hr [_ Hf]%Forall_cons. by apply Hlive.
    + apply IH in H as (? & ? & ? & Hlive); [|by apply input_ok_permit]. split_and!; [done..|]. intros Hr [Hl Hf]%Forall_cons.
      destruct live; [|done]. apply Hlive; [by eapply reading_permit|done].
  - destruct (STDIN_BACKLOG_LIMIT <=? backlog_bytes t).
    { intros H. apply IH in H as (? & ? & ? & Hlive); [|done]. split_and!; [done..|]. intros Hr [_ Hf]%Forall_cons. by apply Hlive. }
    destruct inbound as [|[m|err] inbound].
    2: { intros H. apply IH in H as (? & ? & ? & Hlive); [|by apply input_ok_client]. split_and!; [done..|].
         intros Hr [_ Hf]%Forall_cons. apply Hlive; [by apply reading_client|done]. }
    all: intros [= <- <-]; eapply (hand_over_ok control accepts _ t (TurnClient :: turns)); [| |exact Hok]; done.
Qed.
End input.

Lemma input_start_ok control inbound :
  input_ok (client_data inbound) (client_controls inbound) control inbound (input_start true control).
Proof. split; cbn; try done; [apply prefix_nil|intros _; by exists []|by destruct control]. Qed.

(** What an attached client types reaches the process.  Whatever the order in
    which the process takes its input and the client's messages come, what the
    process got is a prefix of what the client wrote, in order, and it sees the
    end of its input only after all of it; signals and resizes pass in order,
    however much input waits.  If the process goes on reading, the task never
    stops by itself, and when the client leaves it has handed over every byte
    and every control. *)
Theorem attached_input_exact (accepts : nat) (turns : list InputTurn) (inbound : list (result AttachInput Status))
    (control : bool) (t : InputTask) (e : InputEnd)
    (ran : forward_input false accepts turns inbound (input_start true control) = (t, e)) :
  let sent := if control then client_controls inbound else [] in
  written t `prefix_of` client_data inbound ∧ (eof_passed t = true → written t = client_data inbound) ∧
  controls t `prefix_of` sent ∧
  (Forall (λ x, x ≠ TurnPermit false) turns →
   e ≠ InputPanicked ∧
   (e = InputEnded → (length (client_data inbound) ≤ accepts)%nat → written t = client_data inbound ∧ controls t = sent)).
Proof.
  destruct (forward_input_ok _ _ control accepts turns inbound _ t e (input_start_ok control inbound) ran) as (H1 & H2 & H3 & H4).
  split_and!; [done..|]. intros Hf. apply H4; [by split|done].
Qed.

(** ** Back-pressure *)

Definition message_bytes (m : result AttachInput Status) : Z := match m with Ok (InStdin d) => Z.of_nat (length d) | _ => 0 end.
Definition backlog_ok (most : Z) (t : InputTask) : Prop :=
  0 <= queued (backlog t) <= backlog_bytes t ∧ backlog_bytes t < STDIN_BACKLOG_LIMIT + most.
Lemma queued_pos l : 0 <= queued l.
Proof. unfold queued. induction l as [|s l IH]; cbn [foldr]; [lia|]. destruct s; cbn [step_bytes]; lia. Qed.
Lemma backlog_ok_permit most live step rest t : backlog t = step :: rest → backlog_ok most t → backlog_ok most (permit_turn live step rest t).
Proof.
  intros Hb [[H0 Hq] Hl]. rewrite Hb in *. change (queued (step :: rest)) with (step_bytes step + queued rest) in *.
  unfold permit_turn, backlog_ok. pose proof (queued_pos rest) as Hr.
  destruct (live && has_stdin t); [destruct step|]; cbn [backlog backlog_bytes step_bytes] in *; [lia..|]. cbn. lia.
Qed.
Lemma backlog_ok_client most m t :
  message_bytes (Ok m) <= most → backlog_bytes t < STDIN_BACKLOG_LIMIT → 0 < most → backlog_ok most t → backlog_ok most (client_turn false m t).
Proof.
  intros Hm Hlt Hp [[H0 Hq] Hl]. unfold client_turn. destruct m as [d|rows cols|signo|].
  - destruct (input_closed t); [by split|]. destruct d as [|b d]; unfold backlog_ok; cbn [push_step backlog backlog_bytes];
      rewrite queued_app; cbn [queued foldr step_bytes message_bytes] in *; lia.
  - unfold send_control. by destruct (has_control t).
  - unfold send_control. by destruct (has_control t).
  - by split.
Qed.

(** What waits for a process that does not read is bounded: the backlog holds
    less than the limit and the largest message the client sends. *)
Theorem attached_backlog_bounded (accepts : nat) (turns : list InputTurn) (inbound : list (result AttachInput Status))
    (stdin control : bool) (most : Z) (positive : 0 < most) (sizes : Forall (λ m, message_bytes m <= most) inbound) :
  queued (backlog (forward_input false accepts turns inbound (input_start stdin control)).1) < STDIN_BACKLOG_LIMIT + most.
Proof.
  assert (backlog_ok most (input_start stdin control)) as Hok by (split; cbn; unfold STDIN_BACKLOG_LIMIT; lia).
  revert inbound sizes Hok. generalize (input_start stdin control). induction turns as [|turn turns IH]; intros t inbound Hs Hok; cbn [forward_input].
  all: assert (queued (backlog t) < STDIN_BACKLOG_LIMIT + most) as Ht by (destruct Hok; lia).
  all: destruct (stalled t); [done|].
  { done. }
  destruct turn as [live|].
  - destruct (backlog t) as [|step rest] eqn:Hb; apply IH; try done. by apply backlog_ok_permit.
  - destruct (STDIN_BACKLOG_LIMIT <=? backlog_bytes t) eqn:Hle; [by apply IH|]. apply Z.leb_gt in Hle.
    destruct inbound as [|[m|err] inbound]; [cbn; unfold STDIN_BACKLOG_LIMIT; lia| |cbn; unfold STDIN_BACKLOG_LIMIT; lia].
    apply Forall_cons in Hs as [Hm Hs]. apply IH; [done|]. by apply backlog_ok_client.
Qed.

(** ** Input that nobody reads *)

Definition unread_turns (ds : list bytes) : list InputTurn := ds ≫= λ _, [TurnClient; TurnPermit false].
Lemma unread_stalls accepts ds inbound b control :
  Forall (λ d, d ≠ []) ds → b < STDIN_BACKLOG_LIMIT → STDIN_BACKLOG_LIMIT <= b + queued (StepData <$> ds) →
  (∀ stdin, ∃ t, forward_input false accepts (unread_turns ds) ((Ok ∘ InStdin <$> ds) ++ inbound)
    (mkInput [] b false stdin control [] false []) = (t, InputPanicked) ∧ written t = [] ∧ controls t = []).
Proof.
  intros Hne. revert b. induction Hne as [|d ds Hd Hne IH]; intros b Hb Hsum stdin; [cbn in Hsum; lia|].
  change (queued (StepData <$> d :: ds)) with (Z.of_nat (length d) + queued (StepData <$> ds)) in Hsum.
  change (unread_turns (d :: ds)) with (TurnClient :: TurnPermit false :: unread_turns ds). rewrite fmap_cons.
  cbn [app forward_input stalled backlog backlog_bytes compose].
  assert (STDIN_BACKLOG_LIMIT <=? b = false) as -> by by apply Z.leb_gt. cbv iota. destruct d as [|c d]; [done|].
  cbn [client_turn input_closed push_step orb app backlog backlog_bytes forward_input stalled permit_turn andb has_stdin has_control written eof_passed controls].
  destruct (decide (b + Z.of_nat (length (c :: d)) < STDIN_BACKLOG_LIMIT)) as [Hlt|Hge].
  - apply (IH (b + Z.of_nat (length (c :: d)))); [done|lia].
  - assert (STDIN_BACKLOG_LIMIT <=? b + Z.of_nat (length (c :: d)) = true) as Hle by (apply Z.leb_le; lia).
    exists (mkInput [] (b + Z.of_nat (length (c :: d))) false false control [] false []). split; [|done].
    destruct ds; cbn [unread_turns mbind list_bind app forward_input stalled backlog backlog_bytes]; by rewrite Hle.
Qed.

(** Input that nobody reads ends the whole task.  When the process does not
    take its input, each chunk is dropped but still counted; once a client has
    sent the limit's worth of bytes, however they are cut, no branch of the
    loop is left and the task panics: the signal the client sends next does
    not reach the process, which runs on. *)
Theorem unread_input_ends_task (accepts : nat) (ds : list bytes) (signo : Z) (stdin : bool)
    (chunks : Forall (λ d, d ≠ []) ds) (enough : STDIN_BACKLOG_LIMIT <= queued (StepData <$> ds)) :
  ∃ t, forward_input false accepts (unread_turns ds) ((Ok ∘ InStdin <$> ds) ++ [Ok (InSignal signo)]) (input_start stdin true)
      = (t, InputPanicked) ∧
    controls t = [] ∧ client_controls ((Ok ∘ InStdin <$> ds) ++ [Ok (InSignal signo)]) = [SignalNumber signo].
Proof.
  destruct (unread_stalls accepts ds [Ok (InSignal signo)] 0 true chunks ltac:(done) enough stdin) as (t & Ht & _ & Hc).
  exists t. split_and!; [exact Ht|done|]. clear. induction ds as [|d ds IH]; [done|exact IH].
Qed.

(** An end of input that still waits when the client leaves is not passed on,
    though the data before it is. *)
Theorem queued_close_dropped (accepts : nat) (d : bytes) (data : d ≠ []) :
  let '(t, e) := forward_input false (S accepts) [TurnClient; TurnClient; TurnClient] [Ok (InStdin d); Ok (InStdin [])] (input_start true true) in
  Z.of_nat (length d) < STDIN_BACKLOG_LIMIT → e = InputEnded ∧ written t = [d] ∧ eof_passed t = false.
Proof.
  destruct (decide (Z.of_nat (length d) < STDIN_BACKLOG_LIMIT)) as [Hlt|Hge]; [|by destruct (forward_input _ _ _ _ _)].
  assert (STDIN_BACKLOG_LIMIT <=? Z.of_nat (length d) = false) as Hle by by apply Z.leb_gt.
  assert (STDIN_BACKLOG_LIMIT <=? Z.of_nat (length d) + 0 = false) as Hle' by (apply Z.leb_gt; lia).
  destruct d as [|c d]; [done|]. cbn [forward_input stalled input_start backlog backlog_bytes client_turn input_closed push_step orb app
    has_stdin has_control written eof_passed controls]. change (STDIN_BACKLOG_LIMIT <=? 0) with false. cbv iota.
  rewrite Z.add_0_l, Hle, Hle'. intros _. by destruct accepts.
Qed.

(** ** The output arrives *)

Definition reply_data (s : RawStream) (out : list (result AttachReply Status)) : bytes :=
  out ≫= λ m, match m with Ok (AttachData b s' _) => if decide (s' = s) then b else [] | _ => [] end.
Definition chunk_data (s : RawStream) (cs : list OutputChunk) : bytes :=
  cs ≫= λ c, if decide (Output.stream c = s) then chunk_bytes c else [].
Lemma reply_data_app s l l' : reply_data s (l ++ l') = reply_data s l ++ reply_data s l'.
Proof. apply bind_app. Qed.
Lemma reply_data_chunks s cs : reply_data s (data_messages cs) = chunk_data s cs.
Proof.
  unfold data_messages, chunk_data. induction cs as [|c cs IH]; [done|]. rewrite bind_cons. cbn [omap list_omap].
  unfold data_message at 1. destruct (chunk_bytes c) as [|b l] eqn:Hb; [by case_decide|].
  rewrite fmap_cons. unfold reply_data in *. rewrite bind_cons, IH. by case_decide.
Qed.
Lemma follow_main_live live raw rest :
  follow_main ((MainLive ∘ Some <$> live) ++ [MainExit (Ok raw) rest]) = data_messages (live ++ rest) ++ [Ok (AttachExit (decode_wait_status raw))].
Proof.
  induction live as [|c live IH]; [done|]. rewrite fmap_cons. cbn [app follow_main compose]. rewrite IH.
  unfold data_messages. cbn [omap list_omap]. destruct (data_message c); done.
Qed.
(** A client attached to the main process sees all of it.  A client that stays
    gets, for each output stream, the buffered bytes, then the end of the
    replay, then every byte that came after, in order, and last the exit code
    of the process. *)
Theorem attached_main_exact (buffered live rest : list OutputChunk) (raw : Z) (room : nat)
    (stays : (length (data_messages buffered) + length (data_messages (live ++ rest)) + 2 <= room)%nat) :
  ∃ before after, pump_main (Ok buffered) false room ((MainLive ∘ Some <$> live) ++ [MainExit (Ok raw) rest]) =
      before ++ [Ok AttachReplayEnd] ++ after ++ [Ok (AttachExit (decode_wait_status raw))] ∧
    ∀ s, reply_data s before = chunk_data s buffered ∧ reply_data s after = chunk_data s (live ++ rest).
Proof.
  exists (data_messages buffered), (data_messages (live ++ rest)). unfold pump_main. rewrite follow_main_live.
  rewrite take_ge by (rewrite !length_app; cbn [length]; lia). split; [done|]. intros s. by rewrite !reply_data_chunks.
Qed.

(** ** A command started for the stream *)

Definition exec_turns (evs : list (Z * StreamEvent)) : list ExecTurn := ExecOutput ∘ Some <$> evs.
Lemma pump_exec_stays control evs now ev room :
  Forall (λ x, is_exit x.2 = false) evs → is_exit ev = true → (length evs < room)%nat →
  pump_exec control room (exec_turns (evs ++ [(now, ev)])) =
  (data_messages (omap (λ x, event_chunk x.1 x.2) evs) ++
   [match event_wait_status (se_wait_status ev) (se_exit_code ev) with Some raw => Ok (send_exit raw) | None => Err aborted end], []).
Proof.
  intros Hf He. revert room. induction Hf as [|[t x] evs Hx Hf IH]; intros room Hr.
  - cbn. unfold event_chunk, is_exit in *. destruct (se_kind ev); try done. destruct room; [cbn in Hr; lia|]. cbn. by rewrite take_nil.
  - cbn in Hx. change (exec_turns (((t, x) :: evs) ++ [(now, ev)])) with (ExecOutput (Some (t, x)) :: exec_turns (evs ++ [(now, ev)])).
    cbn [pump_exec omap list_omap fst snd]. assert (is_Some (event_chunk t x)) as [c Hc] by (unfold is_exit in Hx; unfold event_chunk; destruct (se_kind x); try done; by eexists).
    rewrite Hc. unfold data_messages. cbn [omap list_omap]. destruct room as [|room]; [cbn in Hr; lia|]. cbn in Hr.
    destruct (data_message c) as [m|] eqn:Hm; rewrite IH by lia; done.
Qed.
Lemma exec_chunks_output s evs :
  Forall (λ x, match se_kind x.2 with KData _ _ => True | _ => False end) evs →
  chunk_data s (omap (λ x : Z * StreamEvent, event_chunk x.1 x.2) evs) = output_of s (evs.*2).
Proof.
  induction 1 as [|[t x] evs Hx Hf IH]; [done|]. cbn in Hx. unfold output_of, chunk_data in *. rewrite fmap_cons. cbn [omap list_omap fst snd].
  unfold event_chunk at 1. destruct (se_kind x) eqn:Hk; try done. rewrite !bind_cons, IH. cbn. by rewrite Hk.
Qed.

(** A client that runs a command sees all its output and its exit code.  For a
    client that stays, the data sent for each stream is what the process wrote
    there, in order; the last message is its exit code, and the process is sent
    no signal.  With a client that hung up, all that happens is the kill. *)
Theorem attached_exec_exact (control : bool) (evs : list (Z * StreamEvent)) (now raw : Z) (ev : StreamEvent) (room : nat)
    (raw_output : Forall (λ x, match se_kind x.2 with KData _ _ => True | _ => False end) evs) (exits : is_exit ev = true)
    (status : event_wait_status (se_wait_status ev) (se_exit_code ev) = Some raw) (stays : (length evs < room)%nat) :
  (∃ out, pump_exec control room (exec_turns (evs ++ [(now, ev)])) = (out ++ [Ok (AttachExit (decode_wait_status raw))], []) ∧
     ∀ s, reply_data s out = output_of s evs.*2) ∧
  ∀ turns, pump_exec control room (ExecClosed :: turns) = ([], if control then [SignalNumber SIGKILL] else []).
Proof.
  split; [|done]. rewrite pump_exec_stays; [|eapply Forall_impl; [exact raw_output|]; intros x Hx; unfold is_exit; cbn in Hx; by destruct (se_kind x.2)|done..].
  rewrite status. eexists. split; [reflexivity|]. intros s. by rewrite reply_data_chunks, exec_chunks_output.
Qed.

(** ** Witnesses *)

(** A client writes, resizes its window, writes and closes its input, while the
    process takes a chunk in between. *)
Definition demo_input : list (result AttachInput Status) :=
  [Ok (InStdin [Byte.x61]); Ok (InResize 24 80); Ok (InStdin [Byte.x62]); Ok (InStdin [])].
Definition demo_turns : list InputTurn :=
  [TurnClient; TurnClient; TurnPermit true; TurnClient; TurnClient; TurnPermit true; TurnPermit true].
Lemma attached_input_exact_witness :
  written (forward_input false 9 demo_turns demo_input (input_start true true)).1 `prefix_of` client_data demo_input.
Proof.
  apply (attached_input_exact 9 demo_turns demo_input true
    (forward_input false 9 demo_turns demo_input (input_start true true)).1 InputRuns).
  vm_compute. reflexivity.
Defined.
Lemma attached_backlog_bounded_witness :
  queued (backlog (forward_input false 9 demo_turns demo_input (input_start true true)).1) < STDIN_BACKLOG_LIMIT + 1.
Proof.
  apply (attached_backlog_bounded 9 demo_turns demo_input true true 1); [lia|]. repeat constructor; cbn; lia.
Defined.
(** All of it came, with the end of the input. *)
Example demo_input_arrives :
  let t := (forward_input false 9 demo_turns demo_input (input_start true true)).1 in
  (written t, eof_passed t, controls t) = ([[Byte.x61]; [Byte.x62]], true, [Resize 24 80]).
Proof. vm_compute. reflexivity. Qed.
Lemma unread_input_ends_task_witness :
  ∃ t, forward_input false 0 (unread_turns [replicate (Z.to_nat STDIN_BACKLOG_LIMIT) Byte.x61])
      ((Ok ∘ InStdin <$> [replicate (Z.to_nat STDIN_BACKLOG_LIMIT) Byte.x61]) ++ [Ok (InSignal 2)]) (input_start false true)
      = (t, InputPanicked) ∧
    controls t = [] ∧
    client_controls ((Ok ∘ InStdin <$> [replicate (Z.to_nat STDIN_BACKLOG_LIMIT) Byte.x61]) ++ [Ok (InSignal 2)]) = [SignalNumber 2].
Proof.
  apply (unread_input_ends_task 0 [replicate (Z.to_nat STDIN_BACKLOG_LIMIT) Byte.x61] 2 false).
  - apply Forall_singleton. intros H. apply (f_equal length) in H. rewrite length_replicate in H. cbn [length] in H.
    unfold STDIN_BACKLOG_LIMIT in H. lia.
  - cbn [fmap list_fmap queued foldr step_bytes]. rewrite length_replicate. unfold STDIN_BACKLOG_LIMIT. lia.
Defined.
Lemma queued_close_dropped_witness :
  let '(t, e) := forward_input false 3 [TurnClient; TurnClient; TurnClient] [Ok (InStdin [Byte.x61]); Ok (InStdin [])] (input_start true true) in
  Z.of_nat (length [Byte.x61]) < STDIN_BACKLOG_LIMIT → e = InputEnded ∧ written t = [[Byte.x61]] ∧ eof_passed t = false.
Proof. apply (queued_close_dropped 2 [Byte.x61]). discriminate. Defined.
Lemma attached_main_exact_witness :
  ∃ before after, pump_main (Ok [mkChunk Stdout [Byte.x61] 0]) false 9
      ((MainLive ∘ Some <$> [mkChunk Stderr [Byte.x62] 1]) ++ [MainExit (Ok 256) []]) =
      before ++ [Ok AttachReplayEnd] ++ after ++ [Ok (AttachExit (decode_wait_status 256))] ∧
    ∀ s, reply_data s before = chunk_data s [mkChunk Stdout [Byte.x61] 0] ∧
      reply_data s after = chunk_data s ([mkChunk Stderr [Byte.x62] 1] ++ []).
Proof. apply (attached_main_exact [mkChunk Stdout [Byte.x61] 0] [mkChunk Stderr [Byte.x62] 1] [] 256 9). cbn. lia. Defined.
Lemma attached_exec_exact_witness :
  ∃ out, pump_exec true 9 (exec_turns ([(0, mkStreamEvent (KData Stdout [Byte.x61]) "" None None 0)] ++
      [(1, mkStreamEvent KExit "" None (Some 256) 0)])) = (out ++ [Ok (AttachExit (decode_wait_status 256))], []) ∧
    ∀ s, reply_data s out = output_of s [mkStreamEvent (KData Stdout [Byte.x61]) "" None None 0].
Proof.
  apply (attached_exec_exact true [(0, mkStreamEvent (KData Stdout [Byte.x61]) "" None None 0)] 1 256
    (mkStreamEvent KExit "" None (Some 256) 0) 9).
  - by repeat constructor.
  - reflexivity.
  - reflexivity.
  - cbn. lia.
Defined.
