(* ===== verification/Terminal.v ===== *)
(** * Terminal: the client's side of an attach

    Models [ward-cli/src/detach_keys.rs], the key sequence that detaches and the
    filter that holds back what may be its start, and of
    [ward-cli/src/attach.rs] the thread that copies the client's input and the
    loop that prints the replies. *)

From stdpp Require Import base list numbers option strings pretty gmap sets.
From Stdlib Require Import ZArith Lia Ascii.
From S2P Require Import Prelude Text Tokio Signal Output Protocol Manager Exec Codec GuestAgent Views Grpc Attach.

Definition DEFAULT_SEQUENCE : string := "ctrl-p,ctrl-q".
Definition CTRL_PREFIX : string := "ctrl-".
Definition CONTROL_MASK : Z := 31.
Definition CONTROL_SYMBOLS : list ascii := ["@"; "["; "\"; "]"; "^"; "_"]%char.

(** ** Parsing *)

Definition key_byte (n : Z) : Byte.byte := default Byte.x00 (Byte.of_N (Z.to_N n)).
Definition control_key (c : ascii) : Byte.byte := key_byte (Z.land (Z.of_nat (byte_of c)) CONTROL_MASK).
Definition unknown_key (key : string) : string := cat ["unknown key '"; key; "'"].
Definition parse_key (key : string) : result Byte.byte string :=
  match strip_prefix CTRL_PREFIX key with
  | Some (String c EmptyString) =>
      if is_ascii_lowercase c || is_ascii_uppercase c then Ok (control_key (to_ascii_lowercase_char c))
      else if decide (c ∈ CONTROL_SYMBOLS) then Ok (control_key c)
      else Err (unknown_key key)
  | Some _ => Err (unknown_key key)
  | None =>
      match key with
      | String c EmptyString => if (byte_of c <? 128)%nat then Ok (key_byte (Z.of_nat (byte_of c))) else Err (unknown_key key)
      | _ => Err (unknown_key key)
      end
  end.
Fixpoint parse_keys (keys : list string) : result (list Byte.byte) string :=
  match keys with
  | [] => Ok []
  | key :: keys => let? k := parse_key key in let? ks := parse_keys keys in Ok (k :: ks)
  end.
Record DetachKeys := mkKeys { the_keys : list Byte.byte }.
Definition detach_parse (text : string) : result DetachKeys string :=
  match parse_keys (split ","%char text) with
  | Ok keys => Ok (mkKeys keys)
  | Err e => Err (cat ["invalid detach keys '"; text; "': "; e])
  end.

(** ** The filter *)

Inductive Filtered := Pass (data : bytes) | Detach.
Record DetachFilter := mkFilter { keys : list Byte.byte; matched : nat }.
Definition filter_new (k : DetachKeys) : DetachFilter := mkFilter (the_keys k) 0.

(** The loop of [feed], with what it has passed so far; [None] where the index
    of the next key is out of range. *)
Fixpoint filter_loop (f : DetachFilter) (out input : bytes) : option (Filtered * DetachFilter) :=
  match input with
  | [] => Some (Pass out, f)
  | b :: input =>
      k ← keys f !! matched f;
      if decide (b = k) then
        let f := mkFilter (keys f) (S (matched f)) in
        if decide (matched f = length (keys f)) then Some (Detach, f) else filter_loop f out input
      else filter_loop (mkFilter (keys f) 0) (out ++ take (matched f) (keys f) ++ [b]) input
  end.
Definition filter_feed (f : DetachFilter) (input : bytes) : option (Filtered * DetachFilter) := filter_loop f [] input.

(** ** Copying the input *)

Inductive StdinRead := ReadData (data : bytes) | ReadInterrupted | ReadFailed.
Definition read_bytes (r : StdinRead) : bytes := match r with ReadData data => data | _ => [] end.
(** How the thread stands: reading on, ended, told to detach, or panicked. *)
Inductive Forwarded := FwReading (filter : option DetachFilter) | FwEnded | FwDetached | FwPanicked.
(** Only what was really read goes through the filter. *)
Definition filter_piece (filter : option DetachFilter) (data : bytes) : option (Filtered * option DetachFilter) :=
  match filter, data with
  | Some f, _ :: _ => '(passed, f) ← filter_feed f data; Some (passed, Some f)
  | _, _ => Some (Pass data, filter)
  end.
(** The messages sent, for a stream that takes [room] of them. *)
Fixpoint forward_stdin_bytes (room : nat) (filter : option DetachFilter) (reads : list StdinRead) : list bytes * Forwarded :=
  match reads with
  | [] => ([], FwReading filter)
  | ReadInterrupted :: reads => forward_stdin_bytes room filter reads
  | r :: reads =>
      match filter_piece filter (read_bytes r) with
      | None => ([], FwPanicked)
      | Some (Detach, _) => ([], FwDetached)
      | Some (Pass data, filter) =>
          match data, read_bytes r, room with
          | [], _ :: _, _ => forward_stdin_bytes room filter reads
          | _, _, O => ([], FwEnded)
          | _, [], S _ => ([data], FwEnded)
          | _, _, S room => let '(sent, e) := forward_stdin_bytes room filter reads in (data :: sent, e)
          end
      end
  end.

(** ** Printing the replies *)

(** A reply as it comes over the wire; the stream is a number, the time seconds
    and nanoseconds. *)
Inductive WireReply :=
| WireData (data : bytes) (stream : Z) (timestamp : option (Z * Z))
| WireReplayEnd
| WireExit (exit_code : Z)
| WireOther.
Definition stream_of (n : Z) : RawStream := if (n =? 1)%Z then Stderr else Stdout.
Inductive RelayError := RelayStatus (s : Status) | RelaySink (e : string).
(** [fails]: why a write to one of the two outputs is refused; [screen] is what
    was written to both. *)
Definition write_to (fails : RawStream → bytes → option string) (s : RawStream) (data : bytes) (screen : bytes * bytes)
    : result (bytes * bytes) string :=
  match fails s data with
  | Some e => Err e
  | None => Ok match s with Stdout => (screen.1 ++ data, screen.2) | Stderr => (screen.1, screen.2 ++ data) end
  end.

Section relay.
Context {time sink : Type} (from_timestamp : Z → Z → option time).
Record Chunk := mkWireChunk { ck_stream : RawStream; ck_bytes : bytes; ck_at : option time }.
Inductive SinkOutput := OutData (c : Chunk) | OutReplayEnd.
Definition chunk_time (timestamp : option (Z * Z)) : option time :=
  '(seconds, nanos) ← timestamp; from_timestamp seconds (if (nanos <? 0)%Z then 0%Z else nanos).
Context (write : SinkOutput → sink → result sink string).
Fixpoint relay_replies (replay : bool) (replies : list (result WireReply Status)) (s : sink) : result (option Z) RelayError * sink :=
  match replies with
  | [] => (Ok None, s)
  | Err e :: _ => (Err (RelayStatus e), s)
  | Ok (WireData data n at_) :: replies =>
      match write (OutData (mkWireChunk (stream_of n) data (chunk_time at_))) s with
      | Ok s => relay_replies replay replies s
      | Err e => (Err (RelaySink e), s)
      end
  | Ok WireReplayEnd :: replies =>
      match write OutReplayEnd s with Ok s => relay_replies replay replies s | Err e => (Err (RelaySink e), s) end
  | Ok (WireExit code) :: _ => (Ok (if replay then None else Some code), s)
  | Ok WireOther :: replies => relay_replies replay replies s
  end.
End relay.

(** The sink of [attach_main]: whether output is shown, and what was. *)
Definition attach_sink {time} (fails : RawStream → bytes → option string) (o : SinkOutput (time := time)) (s : bool * (bytes * bytes))
    : result (bool * (bytes * bytes)) string :=
  match o with
  | OutData c => if s.1 then let? screen := write_to fails (ck_stream c) (ck_bytes c) s.2 in Ok (s.1, screen) else Ok s
  | OutReplayEnd => Ok (true, s.2)
  end.
Definition require_exit (code : option Z) : result Z string :=
  match code with Some code => Ok code | None => Err "the attach stream ended without an exit status" end.
(** [attach_main], for a stream that is neither detached nor ended by a signal:
    the code to exit with, and what was shown. *)
Definition attach_main {time} (from_timestamp : Z → Z → option time) (fails : RawStream → bytes → option string) (show_history : bool)
    (replies : list (result WireReply Status)) : result Z (RelayError + string) * (bytes * bytes) :=
  let '(outcome, s) := relay_replies from_timestamp (attach_sink fails) false replies (show_history, ([], [])) in
  (match outcome with
   | Ok code => match require_exit code with Ok code => Ok code | Err e => Err (inr e) end
   | Err e => Err (inl e)
   end, s.2).

(** ** Nothing typed is lost until the sequence *)

Definition held (f : DetachFilter) : bytes := take (matched f) (keys f).
Definition filter_ok (f : DetachFilter) : Prop := matched f < length (keys f).

Lemma filter_loop_ok f out input :
  filter_ok f →
  match filter_loop f out input with
  | None => False
  | Some (Pass data, f') => filter_ok f' ∧ keys f' = keys f ∧ data ++ held f' = out ++ held f ++ input
  | Some (Detach, _) => ∃ before after, held f ++ input = before ++ keys f ++ after
  end.
Proof.
  revert f out. induction input as [|b input IH]; intros f out Hf; cbn [filter_loop].
  { split_and!; [done..|]. by rewrite app_nil_r. }
  destruct (lookup_lt_is_Some_2 _ _ Hf) as [k Hk]. rewrite Hk. cbn [mbind option_bind].
  pose proof (take_S_r _ _ _ Hk) as Htake. destruct (decide (b = k)) as [->|Hne]; cbn [matched keys].
  - case_decide as Hlen.
    + exists [], input. unfold held. rewrite cons_middle, app_assoc, <- Htake, Hlen. cbn. by rewrite take_ge.
    + specialize (IH (mkFilter (keys f) (S (matched f))) out). unfold held in *. cbn [matched keys] in *.
      assert (take (matched f) (keys f) ++ k :: input = take (S (matched f)) (keys f) ++ input) as -> by (by rewrite Htake, <- app_assoc).
      apply IH. unfold filter_ok in *. cbn. lia.
  - specialize (IH (mkFilter (keys f) 0) (out ++ take (matched f) (keys f) ++ [b])). unfold held in *. cbn [matched keys take] in *.
    assert (filter_ok (mkFilter (keys f) 0)) as H0 by (unfold filter_ok in *; cbn; lia). specialize (IH H0).
    destruct (filter_loop _ _ input) as [[[data|] f']|]; [| |done].
    + destruct IH as (? & ? & Hd). split_and!; [done..|]. rewrite Hd. by rewrite <- !app_assoc.
    + destruct IH as (before & after & Hi). exists (take (matched f) (keys f) ++ b :: before), after.
      change (take 0 (keys f)) with (@nil Byte.byte) in Hi. cbn [app] in Hi. rewrite Hi. by rewrite <- app_assoc.
Qed.


(** What was typed, up to the end of the input. *)
Fixpoint typed (reads : list StdinRead) : bytes :=
  match reads with
  | [] | ReadFailed :: _ | ReadData [] :: _ => []
  | ReadInterrupted :: reads => typed reads
  | ReadData data :: reads => data ++ typed reads
  end.
Definition held_back (filter : option DetachFilter) : bytes := match filter with Some f => held f | None => [] end.
Definition keys_of (filter : option DetachFilter) : bytes := match filter with Some f => keys f | None => [] end.
Definition fresh_ok (filter : option DetachFilter) : Prop := match filter with Some f => filter_ok f | None => True end.

(** Where the copy stands, for what waited in the filter and what was typed. *)
Definition copied (filter : option DetachFilter) (all : bytes) (sent : list bytes) (e : Forwarded) : Prop :=
  match e with
  | FwReading f => Forall (λ d, d ≠ []) sent ∧ concat sent ++ held_back f = all ∧ keys_of f = keys_of filter
  | FwEnded =>
      (Forall (λ d, d ≠ []) sent ∧ concat sent `prefix_of` all) ∨
      ∃ ds ks, sent = ds ++ [[]] ∧ Forall (λ d, d ≠ []) ds ∧ ks `prefix_of` keys_of filter ∧ concat ds ++ ks = all
  | FwDetached =>
      Forall (λ d, d ≠ []) sent ∧ keys_of filter ≠ [] ∧
      ∃ before after, all = before ++ keys_of filter ++ after ∧ concat sent `prefix_of` before
  | FwPanicked => False
  end.
Lemma copied_more filter f all sent e d rest :
  keys_of f = keys_of filter → d ≠ [] → d ++ rest = all → copied f rest sent e → copied filter all (d :: sent) e.
Proof.
  intros Hk Hd <-. destruct e as [f'| | |]; cbn -[keys_of held_back]; rewrite ?Hk.
  - intros (Hs & <- & ?). split_and!; [by constructor|by rewrite app_assoc|congruence].
  - intros [[Hs Hp]|(ds & ks & -> & Hs & Hp & <-)]; [left; split; [by constructor|by apply prefix_app]|right].
    exists (d :: ds), ks. split_and!; [done|by constructor|done|symmetry; apply app_assoc].
  - intros (Hs & Hne & before & after & -> & Hp). split_and!; [by constructor|done|]. exists (d ++ before), after.
    split; [by rewrite app_assoc|by apply prefix_app].
  - done.
Qed.
Lemma copied_same filter f all sent e : keys_of f = keys_of filter → copied f all sent e → copied filter all sent e.
Proof. intros Hk. destruct e; cbn -[keys_of held_back]; rewrite ?Hk; done. Qed.

Lemma filter_piece_ok filter data :
  fresh_ok filter → data ≠ [] →
  match filter_piece filter data with
  | None => False
  | Some (Pass passed, filter') => fresh_ok filter' ∧ keys_of filter' = keys_of filter ∧ passed ++ held_back filter' = held_back filter ++ data
  | Some (Detach, _) => keys_of filter ≠ [] ∧ ∃ before after, held_back filter ++ data = before ++ keys_of filter ++ after
  end.
Proof.
  intros Hok Hne. destruct filter as [f|]; [|cbn; by rewrite app_nil_r]. destruct data as [|b data]; [done|]. cbn [filter_piece].
  pose proof (filter_loop_ok f [] (b :: data) Hok) as Hf. unfold filter_feed. destruct (filter_loop f [] (b :: data)) as [[[passed|] f']|]; [..|done].
  - done.
  - cbn. split; [|done]. intros Hk. unfold fresh_ok, filter_ok in Hok. rewrite Hk in Hok. cbn in Hok. lia.
Qed.
Lemma held_back_prefix filter : held_back filter `prefix_of` keys_of filter.
Proof. destruct filter as [f|]; [|done]. cbn. unfold held. apply prefix_take. Qed.

Lemma forward_ok room filter reads :
  fresh_ok filter →
  let '(sent, e) := forward_stdin_bytes room filter reads in copied filter (held_back filter ++ typed reads) sent e.
Proof.
  revert room filter. induction reads as [|r reads IH]; intros room filter Hok; cbn [forward_stdin_bytes typed].
  { cbn. by rewrite app_nil_r. }
  assert (∀ sent e, read_bytes r = [] → match room with O => ([], FwEnded) | S _ => ([[]], FwEnded) end = (sent, e) →
    copied filter (held_back filter ++ []) sent e) as Hend.
  { intros sent e _. rewrite app_nil_r. destruct room as [|room]; intros [= <- <-]; [left; split; [done|apply prefix_nil]|right].
    exists [], (held_back filter). split_and!; [done..|apply held_back_prefix|done]. }
  destruct r as [data| |]; [|apply IH, Hok|].
  2: { cbn [read_bytes]. assert (filter_piece filter [] = Some (Pass [], filter)) as -> by by destruct filter.
       destruct room; by apply Hend. }
  cbn [read_bytes] in *. destruct data as [|b data].
  { assert (filter_piece filter [] = Some (Pass [], filter)) as -> by by destruct filter. destruct room; by apply Hend. }
  pose proof (filter_piece_ok filter (b :: data) Hok ltac:(done)) as Hp.
  destruct (filter_piece filter (b :: data)) as [[[passed|] f]|]; [| |done].
  - destruct Hp as (Hok' & Hk & Hd). rewrite app_assoc, <- Hd, <- app_assoc. destruct passed as [|p passed].
    + specialize (IH room f Hok'). destruct (forward_stdin_bytes room f reads) as [sent e]. by eapply copied_same.
    + destruct room as [|room]; [left; split; [done|apply prefix_nil]|]. specialize (IH room f Hok').
      destruct (forward_stdin_bytes room f reads) as [sent e]. by eapply copied_more.
  - destruct Hp as (Hne & before & after & Hd). split_and!; [done..|]. exists before, (after ++ typed reads).
    split; [by rewrite app_assoc, Hd, <- !app_assoc|apply prefix_nil].
Qed.
(** A parsed sequence has a key. *)
Lemma parsed_fresh text k : detach_parse text = Ok k → filter_ok (filter_new k).
Proof.
  unfold detach_parse. intros Hp. destruct (parse_keys (split ","%char text)) as [ks|] eqn:Hks; [|done]. injection Hp as <-.
  unfold filter_ok. cbn. assert (split ","%char text ≠ []) as Hne by (destruct text; cbn; [done|]; repeat case_match; done).
  destruct (split ","%char text) as [|key l]; [done|]. cbn in Hks. destruct (parse_key key); [|done]. cbn in Hks.
  destruct (parse_keys l); [|done]. injection Hks as <-. cbn. lia.
Qed.

(** What is typed goes through.  However the terminal cuts it, the thread does
    not panic; while the sequence was not typed, what was sent and what is held
    back is all that was typed, in order; no message but the last is empty, so
    that none is taken for the end of the input; and a client detaches only if
    it typed the whole sequence, after all that was sent. *)
Theorem typed_through (text : string) (k : DetachKeys) (room : nat) (reads : list StdinRead) (parsed : detach_parse text = Ok k) :
  let '(sent, e) := forward_stdin_bytes room (Some (filter_new k)) reads in
  copied (Some (filter_new k)) (typed reads) sent e ∧ e ≠ FwPanicked.
Proof.
  pose proof (forward_ok room (Some (filter_new k)) reads (parsed_fresh _ _ parsed)) as H.
  destruct (forward_stdin_bytes room (Some (filter_new k)) reads) as [sent e]. split; [exact H|]. intros ->. exact H.
Qed.

(** What is typed in one read with the sequence, before it, is lost; typed in a
    read of its own, it is sent. *)
Theorem typed_before_detach_lost (k : DetachKeys) (b : Byte.byte) (ks : list Byte.byte) (room : nat)
    (sequence : the_keys k = ks) (first : head ks ≠ Some b) (some : ks ≠ []) :
  forward_stdin_bytes (S room) (Some (filter_new k)) [ReadData (b :: ks)] = ([], FwDetached) ∧
  forward_stdin_bytes (S room) (Some (filter_new k)) [ReadData [b]; ReadData ks] = ([[b]], FwDetached).
Proof.
  assert (∀ out n, n < length ks → filter_loop (mkFilter ks n) out (drop n ks) = Some (Detach, mkFilter ks (length ks))) as Hkeys.
  { intros out n. remember (length ks - n) as m eqn:Hm. revert n Hm. induction m as [|m IH]; intros n Hm Hn; [lia|].
    destruct (lookup_lt_is_Some_2 _ _ Hn) as [x Hx]. rewrite (drop_S _ _ _ Hx). cbn [filter_loop matched keys]. rewrite Hx. cbn [mbind option_bind].
    rewrite decide_True by done. case_decide as He; [by rewrite He|]. apply IH; lia. }
  destruct ks as [|k0 ks]; [done|]. unfold filter_new. rewrite sequence.
  assert (b ≠ k0) as Hb by (intros ->; done).
  assert (∀ rest, filter_loop (mkFilter (k0 :: ks) 0) [] (b :: rest) = filter_loop (mkFilter (k0 :: ks) 0) [b] rest) as Hfirst
    by (intros rest; cbn; by rewrite decide_False by done).
  pose proof (Hkeys [b] 0 ltac:(cbn; lia)) as Hk1. pose proof (Hkeys [] 0 ltac:(cbn; lia)) as Hk2. rewrite drop_0 in Hk1, Hk2.
  cbn [forward_stdin_bytes read_bytes filter_piece]. unfold filter_feed. rewrite !Hfirst, Hk1. split; [done|].
  change (filter_loop (mkFilter (k0 :: ks) 0) [b] []) with (Some (Pass [b], mkFilter (k0 :: ks) 0)).
  cbn [mbind option_bind]. cbv beta iota. unfold filter_piece, filter_feed. by rewrite Hk2.
Qed.
(** An input that ends on the start of the sequence loses it: the end of the
    input is sent, the held keys are not. *)
Theorem held_keys_lost_at_end (k : DetachKeys) (b : Byte.byte) (ks : list Byte.byte) (room : nat)
    (sequence : the_keys k = b :: ks) (more : ks ≠ []) :
  forward_stdin_bytes (S room) (Some (filter_new k)) [ReadData [b]; ReadData []] = ([[]], FwEnded).
Proof.
  unfold filter_new. rewrite sequence. cbn [forward_stdin_bytes read_bytes filter_piece]. unfold filter_feed. cbn.
  rewrite decide_True by done. rewrite decide_False by (destruct ks; done). done.
Qed.

(** ** From the keyboard to the process *)

Definition stdin_of (m : AttachInput) : option bytes := match m with InStdin d => Some d | _ => None end.
Fixpoint until_close (l : list bytes) : list bytes :=
  match l with [] | [] :: _ => [] | d :: l => d :: until_close l end.
Lemma client_data_stdin ms : client_data (Ok <$> ms) = until_close (omap stdin_of ms).
Proof.
  induction ms as [|m ms IH]; [done|]. destruct m as [d| | |]; [|exact IH..]. destruct d; [done|]. cbn. f_equal. exact IH.
Qed.
Lemma until_close_prefix l : until_close l `prefix_of` l.
Proof. induction l as [|[|b d] l IH]; [done|apply prefix_nil|]. cbn. by apply prefix_cons. Qed.
Lemma until_close_end ds l : Forall (λ d, d ≠ []) ds → until_close (ds ++ [] :: l) = ds.
Proof. induction 1 as [|d ds Hd _ IH]; [done|]. destruct d; [done|]. cbn. by f_equal. Qed.
Lemma concat_prefix (l l' : list bytes) : l `prefix_of` l' → concat l `prefix_of` concat l'.
Proof. intros [r ->]. rewrite concat_app. by apply prefix_app_r. Qed.
Lemma copied_prefix filter all sent e : copied filter all sent e → concat sent `prefix_of` all.
Proof.
  destruct e as [f| | |]; cbn -[held_back keys_of].
  - intros (_ & <- & _). by apply prefix_app_r.
  - intros [[_ ?]|(ds & ks & -> & _ & _ & <-)]; [done|]. rewrite concat_app. cbn. rewrite app_nil_r. by apply prefix_app_r.
  - intros (_ & _ & before & after & -> & Hp). by apply prefix_app_r.
  - done.
Qed.
Lemma nonempty_no_close ds : Forall (λ d : bytes, d ≠ []) ds → [] ∉ ds.
Proof. intros Hds Hd. rewrite Forall_forall in Hds. by apply (Hds [] Hd). Qed.
Lemma until_close_all ds : Forall (λ d, d ≠ []) ds → until_close ds = ds.
Proof. induction 1 as [|d ds Hd _ IH]; [done|]. destruct d; [done|]. cbn. by f_equal. Qed.
Lemma copied_close filter all sent e : copied filter all sent e → concat (until_close sent) = concat sent.
Proof.
  destruct e as [f| | |]; cbn -[held_back keys_of]; [|intros [[Hf _]|(ds & ks & -> & Hf & _)]| |done].
  - intros (Hf & _). by rewrite until_close_all.
  - by rewrite until_close_all.
  - rewrite until_close_end by done. rewrite concat_app. cbn. by rewrite app_nil_r.
  - intros (Hf & _). by rewrite until_close_all.
Qed.
Lemma closed_all ds l : Forall (λ d, d ≠ []) ds → l `prefix_of` ds ++ [[]] → [] ∈ l → until_close l = ds.
Proof.
  intros Hds [r Hr] Hin. destruct r as [|x r _] using rev_ind.
  - rewrite app_nil_r in Hr. rewrite <- Hr. by apply until_close_end.
  - rewrite app_assoc in Hr. apply app_inj_tail in Hr as [-> _]. destruct (nonempty_no_close _ Hds). set_solver.
Qed.
(** The process sees the end of its input only if the client sent it. *)
Lemma eof_only_sent read_only accepts turns inbound t :
  Forall (λ m, m ≠ Ok (InStdin [])) inbound → StepClose ∉ backlog t → eof_passed t = false →
  eof_passed (forward_input read_only accepts turns inbound t).1 = false.
Proof.
  revert inbound t. induction turns as [|turn turns IH]; intros inbound t Hin Hb He; cbn [forward_input]; destruct (stalled t); [done..|].
  destruct turn as [live|].
  - destruct (backlog t) as [|step rest] eqn:Hbl; [apply IH; [done|by rewrite Hbl|done]|]. apply not_elem_of_cons in Hb as [Hs Hr].
    apply IH; [done|..]; unfold permit_turn; destruct (live && has_stdin t); destruct step; cbn; set_solver.
  - destruct (STDIN_BACKLOG_LIMIT <=? backlog_bytes t)%Z; [by apply IH|]. destruct inbound as [|[m|err] inbound]; [done| |done].
    apply Forall_cons in Hin as [Hm Hin]. unfold client_turn. destruct read_only; [by apply IH|].
    destruct m as [d|rows cols|signo|]; unfold send_control; [|destruct (has_control t); by apply IH..|by apply IH].
    destruct (input_closed t); [by apply IH|]. destruct d as [|b d]; [done|]. apply IH; [done|cbn; set_solver|done].
Qed.

(** C18: from the keyboard to the process.  Let a client type with a detach sequence
    set, and let the server have got its messages so far, between resizes and
    signals.  Whatever the order in which the server reads them and the process
    takes its input, what the process got is a prefix of what was typed, in
    order; it sees the end of its input only when it got all that was typed,
    except for the start of a detach sequence right before the end.  If the
    process reads on, the server never stops by itself, and once the client's
    stream has ended the process got every message. *)
Theorem keyboard_to_process (text : string) (k : DetachKeys) (room accepts : nat) (reads : list StdinRead) (turns : list InputTurn)
    (messages : list AttachInput) (control : bool) (sent : list bytes) (e : Forwarded) (t : InputTask) (e' : InputEnd)
    (parsed : detach_parse text = Ok k)
    (copy : forward_stdin_bytes room (Some (filter_new k)) reads = (sent, e))
    (carried : omap stdin_of messages `prefix_of` sent)
    (served : forward_input false accepts turns (Ok <$> messages) (input_start true control) = (t, e')) :
  concat (written t) `prefix_of` typed reads ∧
  (eof_passed t = true → e = FwEnded ∧ ∃ ks, ks `prefix_of` the_keys k ∧ concat (written t) ++ ks = typed reads) ∧
  (Forall (λ x, x ≠ TurnPermit false) turns →
   e' ≠ InputPanicked ∧
   (e' = InputEnded → omap stdin_of messages = sent → length sent ≤ accepts → concat (written t) = concat sent)).
Proof.
  pose proof (forward_ok room (Some (filter_new k)) reads (parsed_fresh _ _ parsed)) as Hc. rewrite copy in Hc. cbn [held_back] in Hc.
  change (held (filter_new k) ++ typed reads) with (typed reads) in Hc.
  destruct (forward_input_ok _ _ control accepts turns _ _ t e' (input_start_ok control _) served) as (H1 & H2 & _ & H4).
  rewrite client_data_stdin in H1, H2, H4. set (l := omap stdin_of messages) in *.
  pose proof (copied_prefix _ _ _ _ Hc) as Hpre. split_and!.
  - etrans; [apply concat_prefix, H1|]. etrans; [apply concat_prefix, until_close_prefix|]. by etrans; [apply concat_prefix|].
  - intros Heof. assert ([] ∈ l) as Hin.
    { destruct (decide ([] ∈ l)) as [|Hnot]; [done|]. pose proof (eof_only_sent false accepts turns (Ok <$> messages) (input_start true control)) as Hno.
      rewrite served in Hno. cbn in Hno. rewrite Heof in Hno. discriminate Hno; [|set_solver|done].
      apply Forall_fmap, Forall_forall. intros m Hm Heq. apply Hnot, list_elem_of_omap. exists m. split; [done|]. cbn in Heq. by injection Heq as ->. }
    assert ([] ∈ sent) as Hs by (destruct carried as [r ->]; set_solver). destruct e as [f| | |]; cbn -[held_back keys_of] in Hc.
    + destruct Hc as (Hf & _). by destruct (nonempty_no_close sent).
    + split; [done|]. destruct Hc as [[Hf _]|(ds & ks & -> & Hf & Hk & Hall)]; [by destruct (nonempty_no_close sent)|]. exists ks.
      split; [done|]. by rewrite (H2 Heof), (closed_all ds l).
    + destruct Hc as (Hf & _). by destruct (nonempty_no_close sent).
    + done.
  - intros Hf. destruct (H4 ltac:(by split) Hf) as [Hp He]. split; [done|]. intros Hend Hl Hlen.
    destruct (He Hend) as [-> _].
    { etrans; [apply prefix_length, until_close_prefix|]. by rewrite Hl. }
    rewrite Hl. by eapply copied_close.
Qed.

(** ** From the process to the screen *)

(** A reply of the server as the client gets it; [split_time] cuts a time into
    seconds and nanoseconds. *)
Definition stream_number (s : RawStream) : Z := match s with Stdout => 0 | Stderr => 1 end.
Definition on_wire (split_time : Z → Z * Z) (m : AttachReply) : WireReply :=
  match m with
  | AttachData data s at_time => WireData data (stream_number s) (Some (split_time at_time))
  | AttachReplayEnd => WireReplayEnd
  | AttachExit code => WireExit code
  end.
Definition wire_all (split_time : Z → Z * Z) (out : list (result AttachReply Status)) : list (result WireReply Status) :=
  (λ m, match m with Ok m => Ok (on_wire split_time m) | Err e => Err e end) <$> out.

Section screen.
Context {time : Type} (from_timestamp : Z → Z → option time) (split_time : Z → Z * Z).
Definition no_failure : RawStream → bytes → option string := λ _ _, None.
Definition shown (screen : bytes * bytes) (cs : list OutputChunk) : bytes * bytes :=
  (screen.1 ++ chunk_data Stdout cs, screen.2 ++ chunk_data Stderr cs).
Lemma shown_cons screen c cs :
  shown screen (c :: cs) =
  shown match Output.stream c with Stdout => (screen.1 ++ chunk_bytes c, screen.2) | Stderr => (screen.1, screen.2 ++ chunk_bytes c) end cs.
Proof. unfold shown, chunk_data. rewrite !bind_cons. destruct (Output.stream c); cbn; by rewrite !app_assoc, ?app_nil_r. Qed.
Lemma print_chunks live cs replies screen :
  relay_replies from_timestamp (attach_sink no_failure) false (wire_all split_time (data_messages cs ++ replies)) (live, screen) =
  relay_replies from_timestamp (attach_sink no_failure) false (wire_all split_time replies) (live, if live : bool then shown screen cs else screen).
Proof.
  revert screen. induction cs as [|c cs IH]; intros screen.
  { unfold shown. cbn. rewrite !app_nil_r. by destruct live, screen. }
  rewrite shown_cons. unfold data_messages in *. cbn [omap list_omap]. unfold data_message at 1. destruct (chunk_bytes c) as [|b d] eqn:Hb.
  { rewrite IH. rewrite !app_nil_r. destruct screen. by destruct (Output.stream c). }
  rewrite fmap_cons. cbn [app wire_all fmap list_fmap on_wire relay_replies attach_sink fst snd].
  destruct live; [|exact (IH screen)]. destruct (Output.stream c); exact (IH _).
Qed.

(** A client shows what the process wrote.  While it stays attached to a main
    process that runs to its end, [ward attach] writes to its two outputs the
    bytes the process wrote to each since the attach, in order, with what was
    buffered first if the history is asked for and without any of it if not;
    then it exits with the process's code. *)
Theorem attach_shows_output (show_history : bool) (buffered live rest : list OutputChunk) (raw : Z) (room : nat)
    (stays : length (data_messages buffered) + length (data_messages (live ++ rest)) + 2 ≤ room) :
  attach_main from_timestamp no_failure show_history
    (wire_all split_time (pump_main (Ok buffered) false room ((MainLive ∘ Some <$> live) ++ [MainExit (Ok raw) rest]))) =
  (Ok (decode_wait_status raw), shown ([], []) ((if show_history then buffered else []) ++ live ++ rest)).
Proof.
  unfold attach_main, pump_main. rewrite follow_main_live, take_ge by (rewrite !length_app; cbn [length]; lia).
  rewrite print_chunks. cbn [app wire_all fmap list_fmap on_wire relay_replies attach_sink snd].
  fold (wire_all split_time (data_messages (live ++ rest) ++ [Ok (AttachExit (decode_wait_status raw))])).
  rewrite print_chunks. cbn. f_equal. unfold shown, chunk_data. rewrite !bind_app. by destruct show_history.
Qed.
End screen.

(** ** Witnesses *)

Definition default_keys : DetachKeys := mkKeys [Byte.x10; Byte.x11].
Example default_parses : detach_parse DEFAULT_SEQUENCE = Ok default_keys.
Proof. vm_compute. reflexivity. Qed.
Example keys_refused :
  detach_parse "ctrl-p,ctrl-" = Err "invalid detach keys 'ctrl-p,ctrl-': unknown key 'ctrl-'" ∧
  detach_parse "" = Err "invalid detach keys '': unknown key ''" ∧
  detach_parse "ctrl-[,a" = Ok (mkKeys [Byte.x1b; Byte.x61]).
Proof. vm_compute. done. Qed.
Definition demo_reads : list StdinRead :=
  [ReadData [Byte.x61; Byte.x10]; ReadInterrupted; ReadData [Byte.x62]; ReadData [Byte.x10]; ReadData []].
Example demo_copy :
  forward_stdin_bytes 9 (Some (filter_new default_keys)) demo_reads = ([[Byte.x61]; [Byte.x10; Byte.x62]; []], FwEnded).
Proof. vm_compute. reflexivity. Qed.
Lemma typed_through_witness :
  let '(sent, e) := forward_stdin_bytes 9 (Some (filter_new default_keys)) demo_reads in
  copied (Some (filter_new default_keys)) (typed demo_reads) sent e ∧ e ≠ FwPanicked.
Proof. apply (typed_through DEFAULT_SEQUENCE default_keys 9 demo_reads). vm_compute. reflexivity. Defined.
Lemma typed_before_detach_lost_witness :
  forward_stdin_bytes 1 (Some (filter_new default_keys)) [ReadData [Byte.x61; Byte.x10; Byte.x11]] = ([], FwDetached) ∧
  forward_stdin_bytes 1 (Some (filter_new default_keys)) [ReadData [Byte.x61]; ReadData [Byte.x10; Byte.x11]] = ([[Byte.x61]], FwDetached).
Proof. apply (typed_before_detach_lost default_keys Byte.x61 [Byte.x10; Byte.x11] 0); done. Defined.
Lemma held_keys_lost_at_end_witness :
  forward_stdin_bytes 1 (Some (filter_new default_keys)) [ReadData [Byte.x10]; ReadData []] = ([[]], FwEnded).
Proof. apply (held_keys_lost_at_end default_keys Byte.x10 [Byte.x11] 0); done. Defined.
(** The client types with a resize between, the process takes all of it. *)
Definition demo_messages : list AttachInput := [InStdin [Byte.x61]; InResize 24 80; InStdin [Byte.x10; Byte.x62]; InStdin []].
Definition demo_served : InputTask * InputEnd :=
  forward_input false 9 [TurnClient; TurnClient; TurnPermit true; TurnClient; TurnClient; TurnPermit true; TurnPermit true; TurnClient]
    (Ok <$> demo_messages) (input_start true true).
Lemma keyboard_to_process_witness :
  eof_passed demo_served.1 = true ∧ FwEnded = FwEnded ∧
  ∃ ks, ks `prefix_of` the_keys default_keys ∧ concat (written demo_served.1) ++ ks = typed demo_reads.
Proof.
  split; [vm_compute; reflexivity|].
  apply (keyboard_to_process DEFAULT_SEQUENCE default_keys 9 9 demo_reads
    [TurnClient; TurnClient; TurnPermit true; TurnClient; TurnClient; TurnPermit true; TurnPermit true; TurnClient]
    demo_messages true [[Byte.x61]; [Byte.x10; Byte.x62]; []] FwEnded demo_served.1 demo_served.2).
  - vm_compute. reflexivity.
  - vm_compute. reflexivity.
  - exists []. reflexivity.
  - vm_compute. reflexivity.
  - vm_compute. reflexivity.
Defined.
Lemma attach_shows_output_witness :
  attach_main (λ s n, Some (s, n)) no_failure false
    (wire_all (λ t, (t, 0%Z)) (pump_main (Ok [mkChunk Stdout [Byte.x61] 0]) false 9
      ((MainLive ∘ Some <$> [mkChunk Stderr [Byte.x62] 1]) ++ [MainExit (Ok 256%Z) []]))) = (Ok 1%Z, ([], [Byte.x62])).
Proof.
  apply (attach_shows_output (λ s n, Some (s, n)) (λ t, (t, 0%Z)) false [mkChunk Stdout [Byte.x61] 0] [mkChunk Stderr [Byte.x62] 1] [] 256 9).
  cbn. lia.
Defined.
