(* ===== verification/Confine.v ===== *)
(** * Confine: what an operation on one sandbox leaves alone

    A small program logic for the operations of the manager.  [keeps] says
    that an operation of the sandbox [sid] changes nothing that belongs to
    another one: its entry, its saved record, its processes, its policy, its
    restart history; that it reports events of [sid] only; and that of the
    volumes it shares with the others it takes at most the anonymous ones that
    only [sid] mounts.  The
    operations a client can ask for with a token are all shown to satisfy
    it. *)

From stdpp Require Import base list numbers option strings pretty gmap sets.
From Stdlib Require Import ZArith Lia.
From S2P Require Import Prelude Text Tokio Net Signal Restart Output Broker Egress Validate Store Volume Archive Events Health Launch Guest Protocol Manager Relay Lifecycle Create Image Update Exec Calls Diff Views Shared.

(** The sandbox an operation is about: its name, its mounts and the volumes
    that the other sandboxes mount. *)
Record Home := mkHome { h_name : string; h_mounts : list Mount; h_used : string → Prop }.
Definition mounts_volume (e : SandboxEntry) (v : string) : Prop := ∃ m, m ∈ mounts (options (meta e)) ∧ volume m = Some v.
(** The volumes that may go with the sandbox: its anonymous ones that no other
    sandbox mounts. *)
Definition disposable (n : Home) (v : string) : Prop :=
  (∃ m, m ∈ h_mounts n ∧ anonymous m = true ∧ volume m = Some v) ∧ ¬ h_used n v.

Section confine.
Context {Bk : Type} `{HVH : !VolumeHost}.
Abbreviation E := (Bk * VolumeManager)%type.
Context (order : gmap string SandboxEntry → list (string * SandboxEntry)).
Context (order_spec : ∀ m, order m ≡ₚ map_to_list m).
Context (sid : string) (n : Home).
Implicit Types (w : World E).

(** Everything of the other sandboxes is the same, and the volumes but for what
    may go with the sandbox. *)
Record apart w w' : Prop := {
  ap_entries id : id ≠ sid → entries w' !! id = entries w !! id;
  ap_disk id : id ≠ sid → disk w' !! id = disk w !! id;
  ap_mains id : id ≠ sid → mains w' !! id = mains w !! id;
  ap_delays id : id ≠ sid → restart_delays w' !! id = restart_delays w !! id;
  ap_policies id : id ≠ sid → policies (broker w') !! id = policies (broker w) !! id;
  ap_processes pid r : p_sandbox_id r ≠ sid → processes w' !! pid = Some r ↔ processes w !! pid = Some r;
  ap_names : pending_names w' = pending_names w;
  ap_restarts : restarts w' = restarts w;
  ap_events : ∃ new, events w' = events w ++ new ∧ Forall (λ ev, ev_sandbox_id ev = sid) new;
  ap_volumes : spared (disposable n) (env w).2 (env w').2;
}.
#[export] Instance apart_preorder : PreOrder apart.
Proof.
  split.
  - intros w. split; try done. exists []. by rewrite app_nil_r.
  - intros w1 w2 w3 [e1 d1 m1 l1 b1 p1 a1 r1 (n1 & Hn1 & ?) v1] [e2 d2 m2 l2 b2 p2 a2 r2 (n2 & Hn2 & ?) v2]. split.
    + intros id Hne. by rewrite e2, e1.
    + intros id Hne. by rewrite d2, d1.
    + intros id Hne. by rewrite m2, m1.
    + intros id Hne. by rewrite l2, l1.
    + intros id Hne. by rewrite b2, b1.
    + intros pid r Hne. by rewrite p2, p1.
    + by rewrite a2.
    + by rewrite r2.
    + exists (n1 ++ n2). rewrite Hn2, Hn1, app_assoc. split; [done|by apply Forall_app].
    + by etrans.
Qed.

(** The sandbox is in a sound table, under its id and with its name and its
    mounts; the others mount the volumes they are said to; and every volume is
    kept under its id. *)
Definition own (e : SandboxEntry) : Prop :=
  id (meta e) = sid ∧ name_of e = h_name n ∧ mounts (options (meta e)) = h_mounts n.
Definition others_use (t : gmap string SandboxEntry) : Prop :=
  ∀ v, h_used n v ↔ ∃ id e, id ≠ sid ∧ t !! id = Some e ∧ mounts_volume e v.
Definition homed w : Prop :=
  table_ok (entries w) ∧ (∃ e, entries w !! sid = Some e ∧ own e) ∧ others_use (entries w) ∧ keyed (env w).2.

Definition moves w w' : Prop := homed w → homed w' ∧ apart w w'.
#[export] Instance moves_preorder : PreOrder moves.
Proof.
  split; [by intros w|]. intros w1 w2 w3 H12 H23 H1. destruct (H12 H1) as [H2 A12]. destruct (H23 H2) as [H3 A23].
  split; [done|by etrans].
Qed.

Lemma table_ok_own m e e' :
  table_ok m → m !! sid = Some e → name_of e' = name_of e → table_ok (<[sid := e']> m).
Proof.
  intros [Hi Hn Hu] He Hname. split.
  - intros s x [[<- _]|[_ Hx]]%lookup_insert_Some; eauto.
  - intros s x [[<- <-]|[_ Hx]]%lookup_insert_Some; [rewrite Hname|]; eauto.
  - intros s1 s2 e1 e2 [[<- <-]|[_ H1]]%lookup_insert_Some [[<- <-]|[_ H2]]%lookup_insert_Some; rewrite ?Hname; eauto.
Qed.

(** ** Steps of the world *)

Lemma moves_apart w w' : entries w' = entries w → apart w w' → moves w w'.
Proof.
  intros He Ha (Hok & Hown & Huse & Hk). split; [|done]. unfold homed. rewrite He. split_and!; [done..|].
  eapply spared_keyed; [apply Ha|done].
Qed.
(** A world that differs only in parts that no sandbox owns. *)
Lemma apart_same w w' :
  entries w' = entries w → disk w' = disk w → mains w' = mains w → restart_delays w' = restart_delays w →
  policies (broker w') = policies (broker w) → processes w' = processes w → pending_names w' = pending_names w →
  restarts w' = restarts w → events w' = events w → (env w').2 = (env w).2 → apart w w'.
Proof.
  intros He Hd Hm Hl Hb Hp Hn Hr Hv Hvol. split; rewrite ?He, ?Hd, ?Hm, ?Hl, ?Hb, ?Hp, ?Hn, ?Hr, ?Hv, ?Hvol; try done.
  exists []. by rewrite app_nil_r.
Qed.
Lemma apart_env f w : (f (env w)).2 = (env w).2 → apart w (upd_env f w).
Proof. intros Hf. by apply apart_same. Qed.
Lemma apart_volumes f w : spared (disposable n) (env w).2 (f (env w)).2 → apart w (upd_env f w).
Proof. intros Hf. split; try done. exists []. by rewrite app_nil_r. Qed.
Lemma apart_disk f w : (∀ id m, id ≠ sid → f m !! id = m !! id) → apart w (upd_disk f w).
Proof. intros Hf. split; try done; [intros; by apply Hf|]. exists []. by rewrite app_nil_r. Qed.
Lemma apart_mains f w : (∀ id m, id ≠ sid → f m !! id = m !! id) → apart w (upd_mains f w).
Proof. intros Hf. split; try done; [intros; by apply Hf|]. exists []. by rewrite app_nil_r. Qed.
Lemma apart_delays f w : (∀ id m, id ≠ sid → f m !! id = m !! id) → apart w (upd_delays f w).
Proof. intros Hf. split; try done; [intros; by apply Hf|]. exists []. by rewrite app_nil_r. Qed.
Lemma apart_broker f w : (∀ id b, id ≠ sid → policies (f b) !! id = policies b !! id) → apart w (upd_broker f w).
Proof. intros Hf. split; try done; [intros; by apply Hf|]. exists []. by rewrite app_nil_r. Qed.
Lemma apart_processes f w :
  (∀ pid r, p_sandbox_id r ≠ sid → f (processes w) !! pid = Some r ↔ processes w !! pid = Some r) → apart w (upd_processes f w).
Proof. intros Hf. split; try done. exists []. by rewrite app_nil_r. Qed.
Lemma apart_emit ev w : ev_sandbox_id ev = sid → apart w (emit_raw ev w).
Proof. intros Hev. split; try done. exists [ev]. split; [done|by constructor]. Qed.
Lemma apart_entries f w : (∀ id m, id ≠ sid → f m !! id = m !! id) → apart w (upd_entries f w).
Proof. intros Hf. split; try done; [intros; by apply Hf|]. exists []. by rewrite app_nil_r. Qed.
Lemma apart_register p w : apart w (upd_broker (register_state sid p) w).
Proof. apply apart_broker. intros id b Hne. cbn. by rewrite lookup_insert_ne. Qed.
Lemma apart_deregister w : apart w (upd_broker (deregister_state sid) w).
Proof. apply apart_broker. intros id b Hne. cbn. by rewrite lookup_delete_ne. Qed.
Lemma apart_drop_processes w : apart w (upd_processes (filter (λ x, p_sandbox_id x.2 ≠ sid)) w).
Proof. apply apart_processes. intros pid r Hne. rewrite map_lookup_filter_Some. naive_solver. Qed.

Lemma moves_entry e w : own e → moves w (upd_entries <[sid := e]> w).
Proof.
  intros (Hid & Hn & Hm) (Hok & (e0 & He0 & _ & Hn0 & _) & Huse & Hk).
  split; [|apply apart_entries; intros; by rewrite lookup_insert_ne].
  split; [cbn; eapply table_ok_own; eauto; congruence|]. split; [|split; [|done]].
  - exists e. cbn. by rewrite lookup_insert_eq.
  - intros v. rewrite (Huse v). cbn. split; intros (id & x & Hne & Hx & Hv); exists id, x;
      rewrite ?lookup_insert_ne in * by done; done.
Qed.
Lemma moves_env f w : (f (env w)).2 = (env w).2 → moves w (upd_env f w).
Proof. intros Hf. by apply moves_apart, apart_env. Qed.
Lemma moves_faults f w : moves w (upd_faults f w).
Proof. by apply moves_apart, apart_same. Qed.
Lemma moves_disk m w : id m = sid → moves w (upd_disk <[id m := m]> w).
Proof. intros Hid. apply moves_apart, apart_disk; [done|]. intros i ? Hi. rewrite lookup_insert_ne; congruence. Qed.
Lemma moves_mains f w : (∀ id m, id ≠ sid → f m !! id = m !! id) → moves w (upd_mains f w).
Proof. intros Hf. by apply moves_apart, apart_mains. Qed.
Lemma moves_delays f w : (∀ id m, id ≠ sid → f m !! id = m !! id) → moves w (upd_delays f w).
Proof. intros Hf. by apply moves_apart, apart_delays. Qed.
Lemma moves_register p w : moves w (upd_broker (register_state sid p) w).
Proof. by apply moves_apart, apart_register. Qed.
Lemma moves_deregister w : moves w (upd_broker (deregister_state sid) w).
Proof. by apply moves_apart, apart_deregister. Qed.
Lemma moves_drop_processes w : moves w (upd_processes (filter (λ x, p_sandbox_id x.2 ≠ sid)) w).
Proof. by apply moves_apart, apart_drop_processes. Qed.
Lemma moves_emit ev w : ev_sandbox_id ev = sid → moves w (emit_raw ev w).
Proof. intros Hev. by apply moves_apart, apart_emit. Qed.

(** ** Triples *)

Definition keeps {A} (m : St E A) (Q : A → Prop) : Prop :=
  ∀ w r w', m w = (r, w') → homed w → homed w' ∧ apart w w' ∧ ∀ a, r = Ok a → Q a.
Abbreviation any := (λ _, True).

Lemma keeps_moves {A} (m : St E A) Q w r w' : keeps m Q → m w = (r, w') → moves w w'.
Proof. intros Hk Hm Hh. by destruct (Hk w r w' Hm Hh) as (? & ? & _). Qed.
Lemma keeps_ret {A} (a : A) (Q : A → Prop) : Q a → keeps (sret a) Q.
Proof. intros HQ w r w' [= <- <-] Hh. split_and!; [done..|]. by intros ? [= <-]. Qed.
Lemma keeps_fail {A} e (Q : A → Prop) : keeps (sfail e) Q.
Proof. by intros w r w' [= <- <-] Hh. Qed.
Lemma keeps_lift {A} (x : result A ApiError) (Q : A → Prop) : (∀ a, x = Ok a → Q a) → keeps (lift x) Q.
Proof. intros HQ w r w' [= <- <-] Hh. by split_and!. Qed.
Lemma keeps_read {A} (f : World E → A) : keeps (read f) any.
Proof. by intros w r w' [= <- <-] Hh. Qed.
Lemma keeps_bind {A B} (m : St E A) (k : A → St E B) Q R :
  keeps m Q → (∀ a, Q a → keeps (k a) R) → keeps (sbind m k) R.
Proof.
  intros Hm Hk w r w'. unfold sbind. destruct (m w) as [[a|e] w1] eqn:H1; intros H2 Hh;
    destruct (Hm w _ w1 H1 Hh) as (Hh1 & A1 & HQ).
  - destruct (Hk a (HQ a eq_refl) w1 r w' H2 Hh1) as (? & ? & ?). split_and!; [done|by etrans|done].
  - injection H2 as <- <-. by split_and!.
Qed.
Lemma keeps_weaken {A} (m : St E A) (Q R : A → Prop) : keeps m Q → (∀ a, Q a → R a) → keeps m R.
Proof. intros Hm HR w r w' H Hh. destruct (Hm w r w' H Hh) as (? & ? & ?). split_and!; eauto. Qed.
Lemma keeps_any {A} (m : St E A) Q : keeps m Q → keeps m any.
Proof. intros Hm. by eapply keeps_weaken. Qed.
Lemma keeps_modify f : (∀ w, moves w (f w)) → keeps (modify f) any.
Proof. intros Hf w r w' [= <- <-] Hh. destruct (Hf w Hh) as [? ?]. by split_and!. Qed.
Lemma keeps_get : keeps (get_entry sid) own.
Proof.
  intros w r w' [= <- <-] Hh. pose proof Hh as (_ & (e & He & Hown) & _). rewrite He. split_and!; [done..|]. by intros ? [= <-].
Qed.
Lemma keeps_put e : own e → keeps (put_entry sid e) any.
Proof. intros He. apply keeps_modify. intros w. by apply moves_entry. Qed.
Lemma keeps_resolve : keeps (resolve order sid) (λ x, x = sid).
Proof.
  intros w r w' H Hh. pose proof Hh as (Hok & (e & He & _) & _). rewrite (resolve_id order order_spec) in H; [|done|by eexists].
  injection H as <- <-. split_and!; [done..|]. by intros ? [= <-].
Qed.
(** An operation given by what it does to each world. *)
Lemma keeps_of_moves {A} (m : St E A) (Q : A → Prop) :
  (∀ w r w', m w = (r, w') → moves w w') → (∀ w a w', m w = (Ok a, w') → Q a) → keeps m Q.
Proof. intros Hm HQ w r w' H Hh. destruct (Hm w r w' H Hh) as [? ?]. split_and!; [done..|]. intros a ->. eauto. Qed.
Lemma keeps_state {A} (m : St E A) : (∀ w, moves w (m w).2) → keeps m any.
Proof. intros Hm. apply keeps_of_moves; [|done]. intros w r w' H. specialize (Hm w). by rewrite H in Hm. Qed.
End confine.

#[export] Hint Resolve keeps_read keeps_get keeps_put keeps_resolve keeps_fail : keeps.
#[export] Hint Resolve moves_env moves_faults moves_disk moves_register moves_deregister moves_drop_processes moves_emit moves_entry : keeps.

(** One step of a triple; what no rule solves is left. *)
Ltac keeps_step :=
  match goal with
  | |- keeps _ _ (sbind _ _) _ =>
      first [ eapply keeps_bind; [solve [eauto with keeps]|intros ? ?]
            | eapply (keeps_bind _ _ _ _ (λ _, True)); [|intros ? _] ]
  | |- keeps _ _ (sret _) _ => apply keeps_ret; try done
  | |- keeps _ _ (sfail _) _ => apply keeps_fail
  | |- keeps _ _ (lift _) _ => apply keeps_lift; try done
  | |- keeps _ _ (modify _) _ => apply keeps_modify; intros ?; try solve [eauto with keeps]
  | |- keeps _ _ (match ?x with _ => _ end) _ => destruct x
  | |- keeps _ _ _ _ => solve [eauto with keeps | eapply keeps_any; eauto with keeps]
  end; cbv beta in *; subst; try done.
Ltac keeps_auto := repeat keeps_step.

Section operations.
Context {Bk : Type} `{HBE : !Backend Bk} `{HXE : !ExecBackend Bk} `{HCB : !CallBackend Bk} `{HVB : !ViewBackend Bk}.
Context `{HVH : !VolumeHost}.
Abbreviation E := (Bk * VolumeManager)%type.
Context (cfg : Config) (order : gmap string SandboxEntry → list (string * SandboxEntry)).
Context (order_spec : ∀ m, order m ≡ₚ map_to_list m).
Context (sid : string) (n : Home).
Implicit Types (w : World E).
#[local] Hint Resolve order_spec : keeps.
Abbreviation keeps := (keeps (Bk := Bk) sid n).
Abbreviation moves := (moves (Bk := Bk) sid n).
Abbreviation own := (own sid n).
Abbreviation any := (λ _, True).

Lemma own_next e s code reason now : own e → own (set_meta (next_meta (meta e) s code reason now) e).
Proof. intros [? ?]. unfold Confine.own, name_of, spec_of, next_meta, stamp_times in *. by destruct s; cbn; repeat case_match. Qed.
Lemma own_rearm e a b : own e → own (rearm_exited_ttl cfg a b e).
Proof. intros [? ?]. unfold rearm_exited_ttl. by repeat case_match. Qed.
Lemma own_listeners e l : own e → own (set_listeners l e).
Proof. by intros [? ?]. Qed.
Lemma own_manual e b : own e → own (set_meta (set_manual b (meta e)) e).
Proof. by intros [? ?]. Qed.
#[local] Hint Resolve own_next own_rearm own_listeners own_manual : keeps.
Lemma own_id e : own e → id (meta e) = sid.
Proof. by intros []. Qed.

Lemma keeps_persist m : id m = sid → keeps (persist_meta cfg m) any.
Proof.
  intros Hid. apply keeps_state. intros w. unfold persist_meta. destruct (negb _); [done|].
  repeat case_match; cbn; try (by apply moves_faults); (etrans; [apply (moves_faults sid n tail)|by apply moves_disk]).
Qed.
#[local] Hint Resolve keeps_persist : keeps.
Lemma keeps_commit_ended e s code reason : own e → keeps (commit_meta_ended cfg sid e s code reason) any.
Proof.
  intros He w r w'. unfold commit_meta_ended. set (next := next_meta _ _ _ _ _).
  assert (own (set_meta next e)) as Hn by by apply own_next.
  apply (keeps_bind sid n _ _ any any); [apply keeps_persist, (own_id _ Hn)|]. intros _ _. apply keeps_put. by apply own_rearm.
Qed.
#[local] Hint Resolve keeps_commit_ended : keeps.
Lemma keeps_commit e s code : own e → keeps (commit_meta cfg sid e s code) any.
Proof. intros He. by apply keeps_commit_ended. Qed.
#[local] Hint Resolve keeps_commit : keeps.
Lemma keeps_record_ended s code reason : keeps (record_ended cfg sid s code reason) any.
Proof. unfold record_ended. keeps_auto. Qed.
Lemma keeps_record_state s code : keeps (record_state cfg sid s code) any.
Proof. unfold record_state. keeps_auto. Qed.
Lemma keeps_set_state s : keeps (set_state cfg sid s) any.
Proof. unfold set_state. keeps_auto. Qed.
Lemma keeps_commit_manual e b s code : own e → keeps (commit_manual cfg sid e b s code) any.
Proof.
  intros He. apply keeps_state. intros w. unfold commit_manual.
  destruct (commit_meta _ _ _ _ _ w) as [[]] eqn:Hc;
    (eapply keeps_moves in Hc; [|by apply keeps_commit, own_manual]); [done|].
  etrans; [exact Hc|by apply moves_entry].
Qed.
#[local] Hint Resolve keeps_commit_manual : keeps.
Lemma keeps_begin_stop : keeps (begin_stop cfg sid) (λ x, match x with Some (_, m) => id m = sid | None => True end).
Proof. unfold begin_stop. eapply keeps_bind; [apply keeps_get|]. intros e He. destruct (status (meta e)); keeps_auto; by apply own_id. Qed.
Lemma keeps_begin_start : keeps (begin_start cfg sid) any.
Proof. unfold begin_start. keeps_auto. Qed.
Lemma keeps_commit_running p : keeps (commit_running_and_register cfg sid p) any.
Proof. unfold commit_running_and_register. keeps_auto. Qed.
Lemma keeps_status : keeps (recorded_status sid) any.
Proof. unfold recorded_status. keeps_auto. Qed.
Lemma keeps_secrets : keeps (refuse_if_had_secrets sid) any.
Proof. apply keeps_state. intros w. unfold refuse_if_had_secrets. by repeat case_match. Qed.
Lemma keeps_callE {A} (f : E → result A BackendError * E) conv : quiet f → keeps (callE f conv) any.
Proof.
  intros Hf. apply keeps_state. intros w. unfold callE, Lifecycle.call. specialize (Hf (Manager.env w)).
  destruct (f (Manager.env w)) as [r en]. by apply moves_env.
Qed.
#[local] Hint Resolve keeps_status keeps_secrets keeps_callE : keeps.
Lemma moves_call {A} (f : E → result A BackendError * E) w r w' : quiet f → Lifecycle.call f w = (r, w') → moves w w'.
Proof.
  intros Hf. unfold Lifecycle.call. specialize (Hf (Manager.env w)). destruct (f (Manager.env w)) as [r' en].
  intros [= _ <-]. by apply moves_env.
Qed.
(** A call of the backend that was made. *)
Ltac called H := apply moves_call in H; [|apply quiet_on_backend].
Lemma keeps_save_change f : (∀ m m', f m = Some m' →
    id m' = id m ∧ name (spec (options m')) = name (spec (options m)) ∧ mounts (options m') = mounts (options m)) →
  keeps (save_change cfg sid f) any.
Proof.
  intros Hf w r w' Hs Hh. pose proof Hh as (_ & (e & He & Hown) & _). unfold save_change in Hs. rewrite He in Hs.
  destruct (f (meta e)) as [m'|] eqn:Hfm; [|injection Hs as <- <-; by split_and!]. apply Hf in Hfm as (Hid & Hname & Hmnt).
  assert (own (set_meta m' e)) as Ho by (destruct Hown as (? & ? & ?); split_and!; unfold name_of, spec_of in *; cbn; congruence).
  revert Hs Hh. apply (keeps_bind sid n _ _ any any); [apply keeps_persist, (own_id _ Ho)|]. intros _ _. by apply keeps_put.
Qed.
Lemma keeps_clear_history : keeps (clear_restart_history cfg sid) any.
Proof.
  unfold clear_restart_history. eapply keeps_bind.
  - apply keeps_modify. intros w. apply moves_delays. intros id m Hne. by rewrite lookup_delete_ne.
  - intros _ _. apply keeps_save_change. intros m m'. case_match; [done|]. by intros [= <-].
Qed.
Lemma keeps_mark_manual : keeps (mark_manually_stopped cfg sid) any.
Proof. apply keeps_save_change. intros m m'. case_match; [done|]. by intros [= <-]. Qed.
#[local] Hint Resolve keeps_clear_history keeps_mark_manual keeps_set_state keeps_record_state keeps_record_ended keeps_commit_running : keeps.
Lemma moves_emit_event a code w : moves w (emit_event sid a code w).
Proof.
  intros Hh. pose proof Hh as (_ & (e & He & [Hid _]) & _). unfold emit_event. rewrite He. revert Hh. apply moves_emit.
  unfold event_with_code. by case_match.
Qed.
#[local] Hint Resolve moves_emit_event : keeps.
Lemma moves_emit_for m a code w : id m = sid → moves w (emit_for m a code w).
Proof. intros Hid. apply moves_emit. unfold event_with_code. by case_match. Qed.
Lemma keeps_info : keeps (info sid) any.
Proof. unfold info. keeps_auto. Qed.
Lemma keeps_is_paused : keeps (is_paused sid) any.
Proof. unfold is_paused. keeps_auto. Qed.
Lemma keeps_require_running : keeps (require_running sid) any.
Proof. unfold require_running. keeps_auto. Qed.
#[local] Hint Resolve keeps_info keeps_is_paused keeps_require_running : keeps.
Lemma keeps_thaw : keeps (thaw sid) any.
Proof. unfold thaw. keeps_auto. Qed.
#[local] Hint Resolve keeps_thaw : keeps.
Lemma keeps_thaw_if_paused : keeps (thaw_if_paused sid) any.
Proof. unfold thaw_if_paused. keeps_auto. Qed.
Lemma keeps_pause : keeps (pause order sid) any.
Proof. unfold pause. keeps_auto. Qed.
Lemma keeps_unpause : keeps (unpause order sid) any.
Proof. unfold unpause. keeps_auto. Qed.

(** ** Ports and the main process *)

Lemma moves_close_listeners w : moves w (close_listeners sid w).
Proof.
  intros Hh. pose proof Hh as (_ & (e & He & Hown) & _). pose proof (close_listeners_volumes sid w) as Hv.
  destruct (close_listeners_env sid e w He) as [en Hen]. rewrite Hen in Hv |- *.
  refine (transitivity (R := moves) _ _ Hh); [apply moves_entry, own_listeners, Hown|by apply moves_env].
Qed.
Lemma keeps_reopen : keeps (reopen_listeners sid) any.
Proof.
  intros w r w' Hr Hh. pose proof Hh as (_ & (e & He & Hown) & _). destruct (reopen_listeners_env sid e w r w' He Hr) as [en Hen].
  apply reopen_listeners_volumes in Hr as Hv.
  assert (moves w w') as Hm.
  { destruct r; [destruct Hen as [ls ->]; etrans; [apply moves_entry, (own_listeners e ls), Hown|by apply moves_env]|].
    rewrite Hen in Hv |- *. by apply moves_env. }
  destruct (Hm Hh). by split_and!.
Qed.
Lemma moves_await grace w : moves w (await_main sid grace w).2.
Proof.
  unfold await_main. destruct (mains w !! sid) as [m|]; [|done]. destruct (exit_raw m); [done|].
  destruct (guest_await (pid m) grace (Manager.env w)) as [[[raw oom]|] en] eqn:Hg;
    apply (quiet_env (guest_await (pid m) grace)) in Hg; try apply quiet_on_backend; cbn; [|by apply moves_env].
  etrans; [by apply (moves_env sid n (λ _, en))|]. apply moves_mains. intros. by rewrite lookup_insert_ne.
Qed.
Lemma moves_send m sig w : moves w (send_signal m sig w).
Proof.
  unfold send_signal. case_match; [|done]. apply moves_env. apply (quiet_on_backend (guest_signal (pid m) sig)).
Qed.
Lemma moves_end_main grace sig w : moves w (end_main_process cfg sid grace sig w).2.
Proof.
  unfold end_main_process. destruct (mains w !! sid) as [m|]; [|done]. set (w1 := send_signal m _ w).
  assert (moves w w1) as H1 by apply moves_send. destruct (await_main sid grace w1) as [ended w2] eqn:H2.
  assert (moves w1 w2) as H12 by (pose proof (moves_await grace w1) as H; by rewrite H2 in H).
  destruct ended; cbn; [by etrans|]. etrans; [exact H1|]. etrans; [exact H12|]. etrans; [apply moves_send|apply moves_await].
Qed.
Lemma keeps_spawn : keeps (spawn_main sid) any.
Proof.
  unfold spawn_main. keeps_auto. apply moves_mains. intros. by rewrite lookup_insert_ne.
Qed.
Lemma moves_mark_failed w : moves w (mark_failed cfg sid w).
Proof.
  unfold mark_failed. etrans; [apply moves_close_listeners|].
  destruct (set_state cfg sid Failed _) as [r w'] eqn:Hs. by apply (keeps_moves _ _ _ _ _ _ _ (keeps_set_state Failed)) in Hs.
Qed.
Lemma moves_die m before code w : id m = sid → moves w (emit_die_if_was_running m before code w).
Proof. intros Hid. unfold emit_die_if_was_running. case_decide; [by apply moves_emit_for|done]. Qed.

(** ** Stop and start *)

Lemma keeps_snd {A} (m : St E A) Q w : keeps m Q → moves w (m w).2.
Proof. intros Hk. destruct (m w) as [r w'] eqn:Hm. by apply (keeps_moves _ _ _ _ _ _ _ Hk) in Hm. Qed.
(** What a stop records, by how the main process ended. *)
Definition stopped_record (main_end : MainEnd) : St E unit :=
  match main_end with
  | NoMain => set_state cfg sid Stopped
  | MainExited code reason => record_ended cfg sid Stopped (Some code) (Some reason)
  | MainUnknown => record_state cfg sid Stopped None
  end.
(** A match on the outcome of a step, in a world reached so far. *)
Ltac after H :=
  etrans; [exact H|]; clear H.
Lemma keeps_stop_resolved grace sig : keeps (stop_resolved cfg sid grace sig) any.
Proof.
  apply keeps_state. intros w Hw. unfold stop_resolved.
  destruct (begin_stop cfg sid w) as [r w1] eqn:H1. destruct (keeps_begin_stop w r w1 H1 Hw) as (Hw1 & A1 & Hm).
  destruct r as [[[before m]|]|e]; [|by split..]. specialize (Hm _ eq_refl). cbn beta iota in Hm.
  match goal with |- homed _ _ ?x ∧ _ => assert (moves w1 x) as Hmv; [|destruct (Hmv Hw1); split; [done|by etrans]] end.
  destruct (thaw_if_paused sid w1) as [r2 w2] eqn:H2. apply (keeps_moves _ _ _ _ _ _ _ keeps_thaw_if_paused) in H2. cbn [snd].
  after H2. etrans; [apply moves_close_listeners|]. destruct (end_main_process _ _ _ _ _) as [main_end w3] eqn:H3.
  pose proof (moves_end_main grace sig (close_listeners sid w2)) as M3. rewrite H3 in M3. cbn [snd] in M3. after M3.
  destruct (Lifecycle.call _ w3) as [[u|e] w4] eqn:H4; called H4; after H4.
  - etrans; [apply moves_drop_processes|]. etrans; [apply moves_deregister|].
    assert (∀ w5, moves w5 (stopped_record main_end w5).2) as Hrec.
    { intros w5. unfold stopped_record. destruct main_end; eapply keeps_snd; eauto with keeps. }
    match goal with |- Confine.moves _ _ ?w5 _ => specialize (Hrec w5); unfold stopped_record in Hrec end.
    destruct main_end; cbv beta iota zeta in Hrec |- *;
    match goal with |- context [match ?rec with pair _ _ => _ end] => destruct rec as [[u'|e] w6] end; cbn [snd] in Hrec |- *; try done;
    after Hrec; (etrans; [by apply moves_die|by apply moves_emit_for]).
  - etrans; [apply moves_mark_failed|by apply moves_die].
Qed.
#[local] Hint Resolve keeps_stop_resolved : keeps.
Lemma keeps_limits : keeps (recorded_limits sid) any.
Proof. unfold recorded_limits. keeps_auto. Qed.
Lemma keeps_quota : keeps (reapply_cpu_quota sid) any.
Proof. unfold reapply_cpu_quota. eapply keeps_bind; [apply keeps_limits|]. intros. keeps_auto. Qed.
Lemma moves_fail_start w : moves w (fail_main_start cfg sid w).2.
Proof.
  intros Hh. pose proof Hh as (_ & (e & He & Hown) & _). revert Hh. change (moves w (fail_main_start cfg sid w).2).
  unfold fail_main_start. rewrite He. case_decide; [done|]. cbn [snd].
  etrans; [eapply keeps_snd, keeps_commit, Hown|]. etrans; [apply moves_close_listeners|apply moves_emit_event].
Qed.
Lemma moves_call_snd {A} (f : E → result A BackendError * E) w : quiet f → moves w (Lifecycle.call f w).2.
Proof. intros Hf. destruct (Lifecycle.call f w) as [r w'] eqn:H. by apply moves_call in H. Qed.
Lemma moves_release_failed w : moves w (release_failed_start sid w).
Proof.
  unfold release_failed_start. destruct (Lifecycle.call _ w) as [r w'] eqn:H. called H.
  after H. apply moves_deregister.
Qed.
Lemma keeps_start_resolved : keeps (start_resolved cfg sid) any.
Proof.
  apply keeps_state. intros w. unfold start_resolved.
  destruct (begin_start cfg sid w) as [[[policy|]|e] w1] eqn:H; apply (keeps_moves _ _ _ _ _ _ _ keeps_begin_start) in H; [|done..].
  after H. etrans; [apply moves_close_listeners|].
  destruct (Lifecycle.call (be_start sid) _) as [[u|e] w2] eqn:H; called H; after H; [|apply moves_mark_failed].
  destruct (reopen_listeners sid w2) as [[u1|e] w3] eqn:H; apply (keeps_moves _ _ _ _ _ _ _ keeps_reopen) in H; after H;
    [|etrans; [apply (moves_call_snd (be_stop sid)), quiet_on_backend|apply moves_mark_failed]].
  destruct (reapply_cpu_quota sid w3) as [[u2|e] w4] eqn:H; apply (keeps_moves _ _ _ _ _ _ _ keeps_quota) in H; after H;
    [|etrans; [apply (moves_call_snd (be_stop sid)), quiet_on_backend|apply moves_mark_failed]].
  destruct (commit_running_and_register cfg sid policy w4) as [[u3|e] w5] eqn:H;
    apply (keeps_moves _ _ _ _ _ _ _ (keeps_commit_running policy)) in H; after H; [|done].
  etrans; [apply (moves_emit_event EvStart None)|].
  destruct (spawn_main sid _) as [[u4|e] w6] eqn:H; apply (keeps_moves _ _ _ _ _ _ _ keeps_spawn) in H; after H; [done|].
  destruct (fail_main_start cfg sid w6) as [recorded w7] eqn:H. pose proof (moves_fail_start w6) as M. rewrite H in M. after M.
  destruct recorded; [apply moves_release_failed|done].
Qed.
#[local] Hint Resolve keeps_limits keeps_start_resolved : keeps.
Lemma keeps_start_sandbox : keeps (start_sandbox cfg order sid) any.
Proof. unfold start_sandbox. keeps_auto. Qed.
Lemma keeps_restart seconds sig : keeps (restart_with_signal cfg order sid seconds sig) any.
Proof. unfold restart_with_signal. keeps_auto. Qed.

(** ** Updates *)

Lemma keeps_checked_restart p : keeps (checked_restart sid p) any.
Proof. unfold checked_restart. keeps_auto. Qed.
Lemma keeps_cgroup : keeps (recorded_cgroup sid) any.
Proof. unfold recorded_cgroup. keeps_auto. Qed.
Lemma moves_restore limits r c w : moves w (restore_limits sid limits r c w).2.
Proof. unfold restore_limits. case_match; [done|apply moves_call_snd, quiet_on_backend]. Qed.
Lemma keeps_apply_limits limits r c : keeps (apply_limits sid limits r c) any.
Proof.
  unfold apply_limits. keeps_auto. apply keeps_state. intros w.
  destruct (Lifecycle.call _ w) as [[u|e] w'] eqn:H; called H; [done|]. after H. apply moves_restore.
Qed.
(** A record that keeps the id and the name is the sandbox's own. *)
Lemma own_meta e m : own e → id m = id (meta e) → name (spec (options m)) = name (spec (options (meta e))) →
  mounts (options m) = mounts (options (meta e)) → own (set_meta m e).
Proof. intros (? & ? & ?) ? ? ?. split_and!; unfold name_of, spec_of in *; cbn; congruence. Qed.
Lemma keeps_record_update limits policy : keeps (record_update cfg sid limits policy) any.
Proof.
  unfold record_update. eapply keeps_bind; [apply keeps_get|]. intros e He.
  assert (own (set_meta (updated_meta limits policy (meta e)) e)) as Ho by by apply own_meta.
  eapply keeps_bind; [apply keeps_persist, (own_id _ Ho)|]. intros _ _. eapply keeps_bind; [by apply keeps_put|]. intros _ _.
  apply keeps_modify. intros w. apply moves_emit, (own_id _ Ho).
Qed.
#[local] Hint Resolve keeps_checked_restart keeps_cgroup keeps_apply_limits : keeps.
Lemma keeps_update req : up_id req = sid → keeps (update cfg order req) any.
Proof.
  intros Hid. unfold update. rewrite Hid. clear Hid. keeps_auto. apply keeps_state. intros w. cbv beta.
  destruct (record_update _ _ _ _ w) as [[u|e] w'] eqn:Hr; (eapply keeps_moves in Hr; [|apply keeps_record_update]); after Hr.
  - eapply keeps_snd, keeps_info.
  - match goal with |- context [restore_limits ?s ?l ?r ?c ?x] => pose proof (moves_restore l r c x) as M; destruct (restore_limits s l r c x) as [b w2] end.
    exact M.
Qed.
Lemma keeps_add_egress push doms : (∀ s d, quiet (push s d)) → keeps (add_egress_allow cfg order push sid doms) any.
Proof.
  intros Hpush. unfold add_egress_allow. eapply (keeps_bind _ _ _ _ any); [keeps_auto|]. intros _ _.
  eapply keeps_bind; [by apply keeps_resolve|]. intros ? ->. eapply keeps_bind; [apply keeps_get|]. intros e He.
  destruct (egress_mode _); try solve [keeps_auto]. do 2 (case_match; [keeps_auto|]).
  match goal with |- context [put_entry sid (set_meta ?m e)] => assert (own (set_meta m e)) as Ho by by apply own_meta end.
  eapply keeps_bind; [apply keeps_persist, (own_id _ Ho)|]. intros _ _. eapply keeps_bind; [by apply keeps_put|]. intros _ _.
  eapply (keeps_bind _ _ _ _ any); [apply keeps_state; intros w; destruct (push _ _ _) as [r en] eqn:Hp; apply moves_env; by eapply quiet_env|]. intros _ _.
  eapply keeps_bind; [|intros _ _; by apply keeps_ret]. apply keeps_modify. intros w. apply moves_emit, (own_id _ Ho).
Qed.

(** ** Processes *)

Lemma keeps_main : keeps (λ w, (ok_or (mains w !! sid) (no_main_process sid), w)) any.
Proof. by apply keeps_state. Qed.
Lemma keeps_guest_signal m sig :
  keeps (λ w, let '(sent, env') := guest_signal (pid m) sig (Manager.env w) in
              (if (sent : bool) then Ok tt else Err (ProcessNotFound "0"), upd_env (λ _, env') w)) any.
Proof.
  apply keeps_state. intros w. destruct (guest_signal _ _ _) eqn:H. apply moves_env. eapply quiet_env, H.
  apply quiet_on_backend.
Qed.
#[local] Hint Resolve keeps_main keeps_guest_signal : keeps.
Lemma keeps_signal_main sig : keeps (signal_main_process cfg order sid sig) any.
Proof. unfold signal_main_process. keeps_auto. apply keeps_thaw_if_paused. Qed.
Lemma keeps_user_for u : keeps (user_for sid u) any.
Proof. unfold user_for. keeps_auto. Qed.
#[local] Hint Resolve keeps_user_for : keeps.
Lemma keeps_exec_secrets u files : keeps (put_exec_secrets sid u files) any.
Proof. unfold put_exec_secrets, put_secrets. keeps_auto. Qed.
Lemma keeps_refuse_paused : keeps (refuse_if_paused sid) any.
Proof. unfold refuse_if_paused. eapply keeps_bind; [apply keeps_is_paused|]. intros. keeps_auto. Qed.
#[local] Hint Resolve keeps_exec_secrets keeps_refuse_paused : keeps.
Lemma keeps_exec_start req : e_sandbox_id req = sid → keeps (exec_start order req) (λ x, x.1 = sid).
Proof. intros Hid. unfold exec_start. rewrite Hid. clear Hid. keeps_auto. Qed.
Lemma keeps_spawn_attached cmd wd vars tty_ u : keeps (spawn_attached sid cmd wd vars tty_ u) any.
Proof. unfold spawn_attached. keeps_auto. Qed.
Lemma keeps_owned pid : keeps (owned_record sid pid) any.
Proof. by apply keeps_state. Qed.
#[local] Hint Resolve keeps_owned : keeps.
Lemma keeps_stream_lookup pid : keeps (stream_lookup order sid pid) any.
Proof. unfold stream_lookup. keeps_auto. Qed.
Lemma keeps_stdin_lookup pid : keeps (stdin_lookup order sid pid) any.
Proof. unfold stdin_lookup. keeps_auto. Qed.
Lemma keeps_running_entry : keeps (running_entry sid) any.
Proof. unfold running_entry. keeps_auto. Qed.
#[local] Hint Resolve keeps_require_running : keeps.
Lemma keeps_top args : keeps (top order sid args) any.
Proof. unfold top. keeps_auto. Qed.
Lemma keeps_copy_target path : keeps (copy_target order sid path) (λ x, x = sid).
Proof. unfold copy_target. keeps_auto. Qed.
#[local] Hint Resolve keeps_copy_target : keeps.
Lemma keeps_copy_to path chunks : keeps (copy_to order sid path chunks) any.
Proof. unfold copy_to. keeps_auto. Qed.
Lemma keeps_copy_from check listening path : keeps (copy_from order check listening sid path) any.
Proof. unfold copy_from. keeps_auto. Qed.
Lemma keeps_create_snapshot label : keeps (create_snapshot order sid label) any.
Proof. unfold create_snapshot. keeps_auto. Qed.
Lemma keeps_restore_snapshot s : keeps (restore_snapshot order sid s) any.
Proof. unfold restore_snapshot. keeps_auto. Qed.
Lemma keeps_list_snapshots : keeps (list_snapshots order sid) any.
Proof. unfold list_snapshots. keeps_auto. Qed.
Lemma keeps_egress_log : keeps (egress_log order sid) any.
Proof. unfold egress_log. keeps_auto. Qed.
Lemma keeps_blocked_egress : keeps (blocked_egress order sid) any.
Proof. unfold blocked_egress. keeps_auto. Qed.
Lemma keeps_export : keeps (export_sandbox order sid) any.
Proof. unfold export_sandbox. keeps_auto. Qed.
Lemma keeps_diff : keeps (Views.diff order sid) any.
Proof. unfold Views.diff. keeps_auto. Qed.
Lemma keeps_commit_image spec : keeps (commit_image order sid spec) any.
Proof. unfold commit_image. keeps_auto. Qed.
Lemma keeps_shown view (m : St E SandboxInfo) : keeps m any → keeps (shown view m) any.
Proof. intros Hm. unfold shown. eapply keeps_bind; [exact Hm|]. intros. keeps_auto. Qed.

(** ** Operations that end or rename the sandbox

    These do not keep it where it was; they still leave the others alone. *)

Definition leaves {A} (m : St E A) : Prop := ∀ w r w', m w = (r, w') → homed sid n w → apart sid n w w'.
Lemma keeps_leaves {A} (m : St E A) Q : keeps m Q → leaves m.
Proof. intros Hk w r w' Hm Hh. by destruct (Hk w r w' Hm Hh) as (_ & ? & _). Qed.
Lemma leaves_bind {A B} (m : St E A) (k : A → St E B) Q :
  keeps m Q → (∀ a, Q a → leaves (k a)) → leaves (sbind m k).
Proof.
  intros Hm Hk w r w'. unfold sbind. destruct (m w) as [[a|e] w1] eqn:H1; intros H2 Hh;
    destruct (Hm w _ w1 H1 Hh) as (Hh1 & A1 & HQ).
  - etrans; [exact A1|]. by apply (Hk a (HQ a eq_refl) w1 r w').
  - by injection H2 as <- <-.
Qed.
(** What follows only answers. *)
Lemma leaves_then {A B} (m : St E A) (b : B) : leaves m → leaves (sbind m (λ _, sret b)).
Proof.
  intros Hm w r w'. unfold sbind. destruct (m w) as [[a|e] w1] eqn:H1; intros [= <- <-]; by eapply Hm.
Qed.
Lemma apart_backend_remove w : apart sid n w (backend_remove sid w).2.
Proof.
  unfold backend_remove. destruct (be_remove sid (Manager.env w)) as [[r gone] en] eqn:H. cbn [snd].
  assert (en.2 = (Manager.env w).2) as Hen by (eapply quiet_env, H; apply quiet_on_backend).
  etrans; [|apply apart_env; by destruct gone]. destruct gone; [|done]. apply apart_disk. intros. by rewrite lookup_delete_ne.
Qed.

(** The volumes that go: what the table has left mounts none of them. *)
Lemma others_use_apart w w' : apart sid n w w' → others_use sid n (entries w) → others_use sid n (entries w').
Proof.
  intros A H v. rewrite (H v). split; intros (id & e & Hne & He & Hv); exists id, e; by rewrite (ap_entries _ _ _ _ A) in *.
Qed.
Lemma no_users_unused (t : gmap string SandboxEntry) v :
  others_use sid n t → volume_users_in order t v = [] → ¬ h_used n v.
Proof.
  intros Huse Hnone (id & e & _ & He & m & Hm & Hv)%Huse. unfold volume_users_in in Hnone. apply fmap_nil_inv in Hnone.
  assert ((id, e) ∈ filter (λ x, existsb (λ m, bool_decide (volume m = Some v)) (mounts (options (meta x.2))) = true) (order t)) as Hin.
  { apply list_elem_of_filter. split; [|by rewrite order_spec, elem_of_map_to_list].
    apply existsb_exists. exists m. split; [by apply list_elem_of_In|by apply bool_decide_eq_true]. }
  rewrite Hnone in Hin. by apply not_elem_of_nil in Hin.
Qed.
Lemma apart_release w w1 e :
  homed sid n w → entries w !! sid = Some e → apart sid n w w1 →
  apart sid n w (release_anonymous_volumes order (mounts (options (meta e))) w1).
Proof.
  intros (_ & (e' & He' & _ & _ & Hm) & Huse & Hk) He A. rewrite He in He'. injection He' as <-.
  assert (keyed (Manager.env w1).2) as Hk1 by (eapply spared_keyed; [apply A|done]).
  pose proof (others_use_apart _ _ A Huse) as Huse1. etrans; [exact A|]. apply apart_volumes. rewrite Hm.
  assert (∀ v, v ∈ omap (λ m, if anonymous m then volume m else None) (h_mounts n) →
    ∃ m, m ∈ h_mounts n ∧ anonymous m = true ∧ volume m = Some v) as Hanon.
  { intros v (m & Hin & Hv)%list_elem_of_omap. exists m. split; [done|]. by destruct (anonymous m). }
  revert Hanon Hk1. generalize (Manager.env w1). generalize (omap (λ m, if anonymous m then volume m else None) (h_mounts n)).
  induction l as [|v names IH]; intros en Hanon Hken; [done|]. cbn [foldl].
  assert (spared (disposable n) en.2 (volume_remove_unused v (volume_users_in order (entries w1)) en).2) as H1.
  { apply release_spared; [done|]. intros Hu. split; [apply Hanon; by left|by apply (no_users_unused (entries w1))]. }
  etrans; [exact H1|]. apply IH; [intros; apply Hanon; by right|by eapply spared_keyed].
Qed.
Lemma apart_report removed reason w :
  (∀ e, removed = Some e → id (meta e) = sid) → apart sid n w (report_removed removed reason w).
Proof.
  intros Hid. unfold report_removed. destruct removed as [e|]; [|done]. specialize (Hid e eq_refl).
  etrans; [|by apply apart_emit]. etrans; [by apply (apart_same _ _ w (upd_gauge (λ g, g - 1)%Z w))|].
  case_decide; [|done]. apply apart_emit. unfold killed_event, with_reason. by repeat case_match.
Qed.
Lemma apart_drop_tied w : apart sid n w (drop_tied sid w).
Proof.
  unfold drop_tied. etrans; [apply apart_drop_processes|]. etrans; [|apply apart_deregister].
  apply apart_mains. intros. by rewrite lookup_delete_ne.
Qed.
Lemma apart_cleanup from_timeout w : homed sid n w → apart sid n w (cleanup_sandbox order sid from_timeout w).2.
Proof.
  intros Hh. pose proof Hh as (_ & (e & He & [Hid _]) & _). unfold cleanup_sandbox, detach. rewrite He. unfold finish_cleanup.
  destruct (backend_remove sid _) as [r w1] eqn:H1. cbn [snd].
  etrans; [|apply apart_report; by intros ? [= <-]].
  assert (apart sid n w w1) as A1; [|case_match; [by apply apart_release|exact A1]].
  pose proof (apart_backend_remove (close_all (listeners e) (drop_tied sid (upd_permits S (upd_entries (delete sid) w))))) as A.
  rewrite H1 in A. etrans; [|exact A]. etrans; [|apply apart_env, close_all_volumes]. etrans; [|apply apart_drop_tied].
  etrans; [apply (apart_entries _ _ (delete sid)); intros; by rewrite lookup_delete_ne|by apply apart_same].
Qed.
Lemma leaves_remove volumes : leaves (remove_with_volumes order sid volumes).
Proof.
  intros w r w' Hr Hh. unfold remove_with_volumes in Hr. pose proof Hh as (Hok & (e & He & _) & _).
  rewrite (resolve_id order order_spec) in Hr by (done || by eexists).
  pose proof (apart_cleanup false w Hh) as A. destruct (cleanup_sandbox order sid false w) as [[u|err] w1]; injection Hr as <- <-; [|done].
  cbn [snd] in A. rewrite He. destruct volumes; [by apply apart_release|]. etrans; [exact A|by apply apart_env].
Qed.
Lemma leaves_stop seconds sig : leaves (stop_with_signal cfg order sid seconds sig).
Proof.
  unfold stop_with_signal. eapply (leaves_bind _ _ any); [keeps_auto|]. intros s _.
  eapply leaves_bind; [by apply keeps_resolve|]. intros ? ->. eapply leaves_bind; [apply keeps_read|]. intros g _.
  eapply leaves_bind; [apply keeps_stop_resolved|]. intros _ _. eapply leaves_bind; [apply keeps_info|]. intros i _.
  eapply leaves_bind; [apply keeps_read|]. intros [] _.
  - apply leaves_then, leaves_remove.
  - apply (keeps_leaves _ any). keeps_auto.
Qed.
Lemma leaves_kill pid : leaves (kill_process order sid pid).
Proof.
  unfold kill_process. eapply leaves_bind; [by apply keeps_resolve|]. intros ? ->.
  eapply (leaves_bind _ _ any); [keeps_auto|]. intros _ _ w r w'.
  unfold sbind at 1. unfold owned_record. destruct (processes w !! pid) as [rec|] eqn:Hp; [|by intros [= <- <-]].
  cbn. case_bool_decide as Hs; [|by intros [= <- <-]]. cbn. unfold sbind, callE, Lifecycle.call.
  unfold on_backend. destruct (eb_kill sid pid _) as [[u|e] en]; cbn; intros [= <- <-] Hh; [|by apply apart_env].
  etrans; [by apply (apart_env _ _ (λ en', (en, en'.2)))|]. apply apart_processes. intros q r' Hne. cbn. destruct (decide (q = pid)) as [->|Hq].
  - rewrite lookup_delete_eq, Hp. split; [done|]. intros [= ->]. congruence.
  - by rewrite lookup_delete_ne.
Qed.

(** A reservation that is given back. *)
Lemma apart_reserved nm w w' :
  nm ∉ pending_names w → apart sid n (upd_names (λ s, {[nm]} ∪ s) w) w' → apart sid n w (release_name nm w').
Proof.
  intros Hnew [He Hd Hm Hl Hb Hp Hn Hr Hv Hvol]. split; try done. cbn in Hn |- *. rewrite Hn. apply leibniz_equiv. set_solver.
Qed.
Lemma leaves_rename_section nm : leaves (rename_section cfg order sid nm).
Proof.
  intros w r w'. unfold rename_section. destruct (find_name _ _ _); [case_decide; by intros [= <- <-]|].
  match goal with |- ?m w = _ → _ => assert (leaves m) as Hl; [clear w r w'|by apply Hl] end.
  eapply leaves_bind; [apply keeps_get|]. intros e [Hid _]. eapply leaves_bind; [by apply keeps_persist|].
  intros _ _ w r w' [= <- <-] _. etrans; [|by apply apart_emit].
  apply apart_entries. intros. by rewrite lookup_insert_ne.
Qed.
Lemma leaves_rename nm : leaves (rename cfg order sid nm).
Proof.
  unfold rename. eapply (leaves_bind _ _ any); [keeps_auto|]. intros _ _.
  eapply leaves_bind; [by apply keeps_resolve|]. intros ? -> w r w'. unfold claim_name. cbv zeta beta.
  case_bool_decide as Hnew; cbn [negb].
  - destruct (rename_section cfg order sid nm _) as [r1 w1] eqn:H1. intros H Hh.
    assert (w' = release_name nm w1) as -> by (destruct r1; by injection H as _ <-).
    apply apart_reserved; [done|]. eapply leaves_rename_section; [exact H1|exact Hh].
  - intros [= <- <-] _. apply apart_same; try done. cbn. apply leibniz_equiv. set_solver.
Qed.
Lemma leaves_info view (m : St E string) : leaves m → leaves (sbind m (λ x, shown view (info x))).
Proof.
  intros Hm w r w'. unfold sbind. destruct (m w) as [[a|e] w1] eqn:H1; intros H2 Hh; [|injection H2 as <- <-; by eapply Hm].
  etrans; [by eapply Hm|]. revert H2. unfold shown, info, sbind, callE, Lifecycle.call, read, sret.
  destruct (be_get a (Manager.env w1)) as [[i|e] en] eqn:Hg; apply (quiet_env (be_get a)) in Hg; try apply quiet_on_backend;
    cbn; intros [= <- <-]; by apply apart_env.
Qed.
Lemma leaves_shown view (m : St E SandboxInfo) : leaves m → leaves (shown view m).
Proof.
  intros Hm w r w'. unfold shown, sbind. destruct (m w) as [[a|e] w1] eqn:H1; intros [= <- <-]; by eapply Hm.
Qed.
Lemma keeps_stats : keeps (stats order (λ w, w) sid) any.
Proof.
  unfold stats. eapply keeps_bind; [by apply keeps_resolve|]. intros ? ->. eapply keeps_bind; [apply keeps_running_entry|]. intros e _.
  eapply keeps_bind; [apply keeps_read|]. intros at_ _. apply keeps_state. intros w.
  destruct (Lifecycle.call (cb_stats sid) w) as [[g|err] w1] eqn:H; called H; after H; [|done].
  destruct (Lifecycle.call (cb_net_bytes sid) w1) as [net w2] eqn:H. by called H.
Qed.
End operations.
