(* ===== verification/GrpcSafe.v ===== *)
(** * GrpcSafe: what a request to the server can do

    The requests that address one sandbox, as one type, and what each may
    change: nothing without the token of the sandbox it names, and with it
    nothing of any other sandbox. *)

From stdpp Require Import base list numbers option strings pretty gmap sets.
From Stdlib Require Import ZArith Lia Ascii.
From S2P Require Import Prelude Text Utf8 Tokio Net Signal Restart Output Broker Egress Validate Store Volume Archive Events Health Launch Guest Protocol Manager Relay Lifecycle Create Image Update Exec Calls Agent User Codec GuestAgent Diff Views Shared Grpc Attach Confine.

Local Open Scope Z_scope.

(** ** Requests *)

(** Every request whose handler asks for a sandbox's token, without the
    reference it names. *)
Inductive Request (E : Type) :=
| RemoveSandbox (volumes : bool)
| UpdateSandbox (req : UpdateRequest)
| Pause | Unpause
| RenameSandbox (new_name : string)
| Stop (grace : option Z) (sig : option string)
| Start
| Restart (grace : option Z) (sig : option string)
| ExecCommand (req : ExecRequest)
| Run
| StreamOutput (pid : string)
| WriteStdin (pid : string) (data : bytes)
| KillProcess (pid : string) (sig : Z)
| Top (ps_args : list string)
| Stats
| Wait (c : WaitCondition) (w1 : World E) (looks : list (Look E))
| CreateSnapshot (label : string)
| RestoreSnapshot (snapshot : string)
| ListSnapshots
| CopyTo (path : string) (rest : list (result CopyKind Status)) (room : nat) (aborted : bool)
| CopyFrom (check : Limits → Checker) (listening : nat) (path : string)
| DiffSandbox
| ExportSandbox (open : SavedArchive → result (list (result bytes string)) string)
| CommitSandbox (image author msg : string) (changes : list string)
| GetEgressLog | BlockedEgress
| AddEgressAllow (doms : list string)
| Publish (topic body : string)
| Subscribe (topic : string)
| GetCommunicationLog
| AttachTo (start : AttachStart).
Arguments RemoveSandbox {E}.
Arguments UpdateSandbox {E}.
Arguments Pause {E}.
Arguments Unpause {E}.
Arguments RenameSandbox {E}.
Arguments Stop {E}.
Arguments Start {E}.
Arguments Restart {E}.
Arguments ExecCommand {E}.
Arguments Run {E}.
Arguments StreamOutput {E}.
Arguments WriteStdin {E}.
Arguments KillProcess {E}.
Arguments Top {E}.
Arguments Stats {E}.
Arguments Wait {E}.
Arguments CreateSnapshot {E}.
Arguments RestoreSnapshot {E}.
Arguments ListSnapshots {E}.
Arguments CopyTo {E}.
Arguments CopyFrom {E}.
Arguments DiffSandbox {E}.
Arguments ExportSandbox {E}.
Arguments CommitSandbox {E}.
Arguments GetEgressLog {E}.
Arguments BlockedEgress {E}.
Arguments AddEgressAllow {E}.
Arguments Publish {E}.
Arguments Subscribe {E}.
Arguments GetCommunicationLog {E}.
Arguments AttachTo {E}.

Definition start_for (reference : string) (a : AttachStart) : AttachStart :=
  mkAttachStart reference (as_mode a) (as_command a) (as_env a) (as_workdir a) (as_user a) (as_tty a) (as_replay a) (as_follow a)
    (as_secrets a).

Section requests.
Context {Bk ch : Type} `{HBE : !Backend Bk} `{HXE : !ExecBackend Bk} `{HCB : !CallBackend Bk} `{HVB : !ViewBackend Bk}.
Context `{HVH : !VolumeHost}.
Abbreviation E := (Bk * VolumeManager)%type.
Context `{HM : !Mpsc DeliveredMessage ch}.
Context (cfg : Config) (order : gmap string SandboxEntry → list (string * SandboxEntry)) (digest : string → list Z).
Implicit Types (s : Server E ch).

(** Whether a handler succeeded, and the state it leaves. *)
Definition outcome {A} (m : Rpc A) : Rpc (B := Bk) (ch := ch) unit :=
  λ s, let '(r, s') := m s in (match r with Ok _ => Ok tt | Err e => Err e end, s').

Definition perform (h : Header) (reference : string) (req : Request E) : Rpc (B := Bk) (ch := ch) unit :=
  match req with
  | RemoveSandbox volumes => outcome (rpc_remove_sandbox order digest h reference volumes)
  | UpdateSandbox req => outcome (rpc_update_sandbox cfg order digest h (with_id reference req))
  | Pause => outcome (rpc_pause order digest h reference)
  | Unpause => outcome (rpc_unpause order digest h reference)
  | RenameSandbox n => outcome (rpc_rename_sandbox cfg order digest h reference n)
  | Stop grace sig => outcome (rpc_stop cfg order digest h reference grace sig)
  | Start => outcome (rpc_start cfg order digest h reference)
  | Restart grace sig => outcome (rpc_restart cfg order digest h reference grace sig)
  | ExecCommand req => outcome (rpc_exec order digest h (for_id reference req))
  | Run => outcome (rpc_run order digest h reference)
  | StreamOutput pid => outcome (rpc_stream_output order digest h reference pid)
  | WriteStdin pid data => outcome (rpc_write_stdin order digest h reference pid data)
  | KillProcess pid sig => outcome (rpc_kill_process cfg order digest h reference pid sig)
  | Top args => outcome (rpc_top order digest h reference args)
  | Stats => outcome (rpc_stats order digest h (λ w, w) reference)
  | Wait c w1 looks => outcome (rpc_wait order digest h reference c w1 looks)
  | CreateSnapshot label => outcome (rpc_create_snapshot order digest h reference label)
  | RestoreSnapshot snapshot => outcome (rpc_restore_snapshot order digest h reference snapshot)
  | ListSnapshots => outcome (rpc_list_snapshots order digest h reference)
  | CopyTo path rest room aborted =>
      outcome (rpc_copy_to order digest h (Ok (CopyStart reference path) :: rest) room aborted)
  | CopyFrom check listening path => outcome (rpc_copy_from order digest h check listening reference path)
  | DiffSandbox => outcome (rpc_diff order digest h reference)
  | ExportSandbox open => outcome (rpc_export_sandbox order digest h open reference)
  | CommitSandbox image author msg changes => outcome (rpc_commit order digest h reference image author msg changes)
  | GetEgressLog => outcome (rpc_get_egress_log order digest h reference)
  | BlockedEgress => outcome (rpc_blocked_egress order digest h reference)
  | AddEgressAllow doms => outcome (rpc_add_egress_allow cfg order digest h reference doms)
  | Publish topic body => outcome (rpc_publish order digest h reference topic body)
  | Subscribe topic => outcome (rpc_subscribe order digest h reference topic)
  | GetCommunicationLog => outcome (rpc_get_communication_log order digest h reference)
  | AttachTo start => outcome (rpc_attach order digest h (Some (Ok (Some (start_for reference start)))))
  end.

(** ** The guard *)

Context (order_spec : ∀ m, order m ≡ₚ map_to_list m).




(** ** What a handler may do *)






(** ** Processes, streams and messages *)


(** ** Every request *)



(** *** Requests that are answered without a token *)



(** ** What is public *)

(** What anyone may learn of a sandbox from the backend's answer: neither its
    token nor the arguments of its command. *)
Definition public (i : SandboxInfo) : SandboxInfo :=
  let s := i_spec i in
  mkInfo (i_id i) (i_status i) (i_image i) (i_created_at i) (i_ip_address i) (i_resources i) (i_expires_at i) ""
    (mkSpec (Protocol.name s) (take 1 (command s)) 0 (Protocol.workdir s) (Protocol.user s) (tty s) (Protocol.auto_remove s)
       (Protocol.published_ports s) (Protocol.image_digest s) (Protocol.labels s) (Protocol.hostname s) (Protocol.stop_signal s)
       (Protocol.stop_timeout s) (restart s) (Protocol.guest s))
    (i_mounts i) (i_health i) (i_exit_code i) (i_started_at i) (i_finished_at i) (i_end_reason i) (i_restart_count i)
    (i_paused i).
Definition public_answer {A B} (f : A → A) (x : result A BackendError * B) : result A BackendError :=
  match x.1 with Ok a => Ok (f a) | Err e => Err e end.
(** Two servers with the same table whose backends differ in secrets only. *)
Definition alike s s' : Prop :=
  entries (world s) = entries (world s') ∧
  (∀ sid, public_answer public (be_get sid (Manager.env (world s))) = public_answer public (be_get sid (Manager.env (world s')))) ∧
  public_answer (fmap public) (cb_list (Manager.env (world s))) = public_answer (fmap public) (cb_list (Manager.env (world s'))).

Lemma view_public table i :
  protocol_info_to_pb (recorded_state table (redact_token i)) Argv0Only =
  protocol_info_to_pb (recorded_state table (redact_token (public i))) Argv0Only.
Proof.
  destruct i as [i1 ? ? ? ? ? ? ? [? cmd ? ? ? ? ? ? ? ? ? ? ? ? ?] ? ? ? ? ? ? ? ?].
  unfold recorded_state, redact_token, public, protocol_info_to_pb. cbn.
  destruct (table !! i1); cbn; by destruct cmd.
Qed.
Lemma view_same table i i' :
  public i = public i' →
  protocol_info_to_pb (recorded_state table (redact_token i)) Argv0Only =
  protocol_info_to_pb (recorded_state table (redact_token i')) Argv0Only.
Proof. intros H. by rewrite (view_public table i), (view_public table i'), H. Qed.
Lemma view_token table i view : sb_token (protocol_info_to_pb (recorded_state table (redact_token i)) view) = "".
Proof. unfold recorded_state. cbn. by destruct (table !! i_id i). Qed.
Lemma get_public reference s s' : alike s s' → (get order reference (world s)).1 = (get order reference (world s')).1.
Proof.
  intros (He & Hg & _). unfold get, sbind. destruct (resolve order reference (world s)) as [r w] eqn:Hr.
  assert (resolve order reference (world s') = (r, world s')) as -> by (unfold resolve in *; rewrite <- He; by injection Hr as <- _).
  pose proof (resolve_world _ _ _ _ _ Hr) as ->. destruct r as [sid|err]; [|done].
  specialize (Hg sid). unfold public_answer in Hg. unfold shown, info, sbind, callE, Lifecycle.call.
  destruct (be_get sid (Manager.env (world s))) as [[i|err] en], (be_get sid (Manager.env (world s'))) as [[i'|err'] en'];
    cbn in *; try done; [|congruence]. assert (public i = public i') as Hp by congruence. by rewrite He, (view_same _ _ _ Hp).
Qed.
Lemma list_public s s' : alike s s' → (list_sandboxes (world s)).1 = (list_sandboxes (world s')).1.
Proof.
  intros (He & _ & Hl). unfold public_answer in Hl. unfold list_sandboxes, list_all, sbind, callE, Lifecycle.call.
  destruct (cb_list (Manager.env (world s))) as [[l|err] en], (cb_list (Manager.env (world s'))) as [[l'|err'] en']; cbn in *; try done; [|congruence].
  assert (public <$> l = public <$> l') as Hp by congruence. f_equal. clear Hl. rewrite <- He.
  revert l' Hp. induction l as [|i l IH]; intros [|i' l'] Hp; [done..|].
  assert (public i = public i' ∧ public <$> l = public <$> l') as [Hi Hl] by (rewrite !fmap_cons in Hp; split; congruence).
  cbn. f_equal; [by apply view_same|by apply IH].
Qed.

Lemma on_manager_fst {A} (m : St E A) s : (on_manager (ch := ch) m s).1 = map_err api_err_to_status (m (world s)).1.
Proof. unfold on_manager, on_procs, on_world, world. by destruct (m (pw (procs s))). Qed.
(** C28: what anyone can read does not depend on secrets.  Listing the sandboxes
    and asking for one without a token give the same replies on two servers
    whose tables agree and whose backends differ at most in the tokens and the
    arguments of the commands (all of them but the program's name, and which
    of them the image's entry point gave); and no reply, with a token or
    without, carries a token. *)
Theorem public_replies s s' (same : alike s s') :
  (rpc_list_sandboxes s).1 = (rpc_list_sandboxes s').1 ∧
  (∀ reference, (rpc_get_sandbox order digest None reference s).1 = (rpc_get_sandbox order digest None reference s').1) ∧
  (∀ l, (rpc_list_sandboxes s).1 = Ok l → Forall (λ i, sb_token i = "" ∧ sb_command i = [] ∧ sb_entrypoint i = []) l) ∧
  (∀ h reference i, (rpc_get_sandbox order digest h reference s).1 = Ok i → sb_token i = "").
Proof.
  unfold rpc_list_sandboxes, rpc_get_sandbox. split_and!.
  - by rewrite !on_manager_fst, (list_public s s').
  - intros reference. cbn. by rewrite !on_manager_fst, (get_public reference s s').
  - intros l. rewrite on_manager_fst. unfold list_sandboxes, list_all, sbind, callE, Lifecycle.call.
    destruct (cb_list _) as [[infos|err] en]; cbn; [|done]. intros [= <-]. rewrite <- list_fmap_compose, Forall_fmap.
    apply Forall_true. intros i. by split; [apply view_token|].
  - intros h reference i. rewrite on_manager_fst. unfold get_authorized, get, shown, info, sbind, callE, Lifecycle.call, read, sret.
    destruct (optional_token_from_metadata h); intros H; repeat case_match; simplify_eq;
      injection H as <-; apply view_token.
Qed.
End requests.

(** ** Output on the wire *)

(** The text of one stream in a run of sent events, and its bytes in the
    events of the sandbox. *)
Definition wire_type (s : RawStream) : PbEventType := match s with Stdout => PbStdout | Stderr => PbStderr end.
#[export] Instance PbEventType_eq_dec : EqDecision PbEventType.
Proof. solve_decision. Defined.
Definition sent_text (s : RawStream) (out : list PbStreamEvent) : list ascii :=
  concat ((λ e, String.list_ascii_of_string (pe_line e)) <$> filter (λ e, pe_type e = wire_type s) out).
Definition raw_bytes (s : RawStream) (evs : list StreamEvent) : list ascii :=
  concat ((λ e, match se_kind e with KData s' data => if decide (s' = s) then chars_of data else [] | _ => [] end) <$> evs).
Definition is_raw (e : StreamEvent) : Prop := match se_kind e with KData _ _ => True | _ => False end.

Lemma sent_text_app s l l' : sent_text s (l ++ l') = sent_text s l ++ sent_text s l'.
Proof. unfold sent_text. by rewrite filter_app, fmap_app, concat_app. Qed.
Lemma decoder_set b s u s' : decoder (set_decoder b s u) s' = if decide (s = s') then u else decoder b s'.
Proof. by destruct s, s'. Qed.
Lemma sent_text_line s s' ev t :
  pe_type (stream_event_to_pb ev) = wire_type s' → se_line ev = text_of t →
  sent_text s (match t with [] => [] | _ => [stream_event_to_pb ev] end) = if decide (s' = s) then t else [].
Proof.
  intros Ht Hl. assert (sent_text s [stream_event_to_pb ev] = if decide (s' = s) then t else []) as H1.
  { unfold sent_text. rewrite filter_cons, Ht, filter_nil. unfold wire_type.
    assert (String.list_ascii_of_string (text_of t) = t) as Htt by apply String.list_ascii_of_string_of_list_ascii.
    destruct s, s'; cbn; repeat case_decide; cbn; try done; by rewrite Hl, Htt, app_nil_r. }
  destruct t; [by case_decide|exact H1].
Qed.
Lemma convert_text s b ev out b' :
  is_raw ev → convert b ev = (out, b') →
  Forall (λ e, pe_type e ≠ PbExit) out ∧
  ∀ m, from_utf8_lossy (Utf8.pending (decoder b s) ++ raw_bytes s [ev] ++ m) = sent_text s out ++ from_utf8_lossy (Utf8.pending (decoder b' s) ++ m).
Proof.
  unfold is_raw, convert, raw_bytes. cbn. destruct (se_kind ev) as [| | |s' data] eqn:Hk; try done. intros _.
  destruct (utf8_push (decoder b s') (chars_of data)) as [line u] eqn:Hp. intros [= <- <-]. split.
  - destruct line; repeat constructor. cbn. by destruct s'.
  - intros m. apply utf8_push_spec in Hp as (_ & _ & Hp).
    rewrite (sent_text_line s s') by (try done; cbn; by destruct s').
    rewrite decoder_set, app_nil_r. case_decide; [subst s'; apply Hp|done].
Qed.
Lemma flush_text s b ev :
  se_kind ev = KExit →
  let '(out, _) := convert b ev in
  ∃ texts, out = texts ++ [stream_event_to_pb ev] ∧ Forall (λ e, pe_type e ≠ PbExit) texts ∧
    sent_text s out = from_utf8_lossy (Utf8.pending (decoder b s)).
Proof.
  intros Hk. unfold convert. rewrite Hk. unfold flush, utf8_finish. rewrite decoder_set. cbn [decide decoder].
  set (o := from_utf8_lossy (Utf8.pending (b_stdout b))). destruct (decide (Stdout = Stderr)) as [|_]; [done|].
  set (e := from_utf8_lossy (Utf8.pending (b_stderr b))). eexists (_ ++ _). split; [by rewrite <- app_assoc|]. split.
  - destruct o, e; by repeat constructor.
  - rewrite !sent_text_app, (sent_text_line s Stdout), (sent_text_line s Stderr) by done.
    assert (sent_text s [stream_event_to_pb ev] = []) as ->.
    { unfold sent_text. rewrite filter_cons. unfold stream_event_to_pb. rewrite Hk. by destruct s. }
    destruct s; cbn; by rewrite ?app_nil_r.
Qed.
Lemma bridge_text s evs b ev :
  Forall is_raw evs → se_kind ev = KExit →
  ∃ texts, bridge_run b (evs ++ [ev]) = texts ++ [stream_event_to_pb ev] ∧ Forall (λ e, pe_type e ≠ PbExit) texts ∧
    sent_text s (bridge_run b (evs ++ [ev])) = from_utf8_lossy (Utf8.pending (decoder b s) ++ raw_bytes s evs).
Proof.
  intros Hr Hk. revert b. induction Hr as [|e evs He Hr IH]; intros b; cbn [app bridge_run].
  - pose proof (flush_text s b ev Hk) as H. destruct (convert b ev) as [out b']. cbn. by rewrite !app_nil_r.
  - destruct (convert b e) as [out b'] eqn:Hc. destruct (convert_text s _ _ _ _ He Hc) as [Ho Ht].
    destruct (IH b') as (texts & Hrun & Hne & Hs). exists (out ++ texts). rewrite Hrun in Hs |- *. split; [by rewrite app_assoc|].
    split; [by apply Forall_app|]. rewrite sent_text_app, Hs. rewrite <- Ht. f_equal. f_equal.
    unfold raw_bytes. cbn. by rewrite app_nil_r.
Qed.

(** C38: a client reads what the sandbox wrote.  Of a process whose output comes
    as raw chunks and then ends, the lines sent for one stream, put together,
    are the lossy decoding of all the bytes of that stream: no character that
    was cut between two chunks is lost or spoiled, no tail is kept back, and
    nothing of one stream reaches the other.  The exit is sent once, last, with
    its code. *)
Theorem stream_text_exact (s : RawStream) (evs : list StreamEvent) (ev : StreamEvent)
    (raw : Forall is_raw evs) (exit : se_kind ev = KExit) :
  let out := bridge_run bridge_default (evs ++ [ev]) in
  sent_text s out = from_utf8_lossy (raw_bytes s evs) ∧
  ∃ texts, out = texts ++ [mkPbStreamEvent PbExit (se_line ev) (default 0 (se_exit_code ev))] ∧
    Forall (λ e, pe_type e ≠ PbExit) texts.
Proof.
  cbv zeta. destruct (bridge_text s evs bridge_default ev raw exit) as (texts & Hrun & Hne & Hs).
  split; [rewrite Hs; by destruct s|]. exists texts. rewrite Hrun. unfold stream_event_to_pb. by rewrite exit.
Qed.

(** ** Witnesses *)

#[export] Instance demo_views : ViewBackend (list PortListener) := {|
  vb_list_images en := (Ok [], en);
  vb_pull_image r en := ([], Ok (mkCached r "" "" 0 0), en);
  vb_tag_image _ _ en := (Ok tt, en);
  vb_image_history _ en := (Err (BInvalidArgument "no image"), en);
  vb_save_images _ en := (Ok (mkArchive ""), en);
  vb_load_images _ en := (Ok [], en);
  vb_export_sandbox _ en := (Ok (mkArchive ""), en);
  vb_import_image _ _ en := (Ok (mkLoaded "" []), en);
  vb_check_registry_login _ _ en := (Ok tt, en);
  vb_commit_sandbox _ _ en := (Ok (mkCached "" "" "" 0 0), en);
  vb_diff_sandbox _ en := (Ok [], en);
  vb_blocked_egress _ en := (Ok [], en);
  vb_count en := (Ok 1%nat, en);
  vb_allow_egress _ _ en := (Ok tt, en);
|}.
#[export] Instance demo_host : VolumeHost := {|
  vh_data_dir := "/var/lib/ward"; vh_max_volumes := 16; vh_order := map_to_list; vh_order_spec := λ _, reflexivity _;
  vh_to_json := λ _, "{}"; vh_draw := λ v, (pretty (size (volumes v)), 100);
|}.
(** A named volume and an anonymous one, and the sandbox that mounts both. *)
Definition demo_volume (id nm : string) : VolumeEntry := mkVolume id nm 64 0 ("/var/lib/ward/volumes/" +:+ id) ∅.
Definition demo_shared_volumes : VolumeManager :=
  mkVolumes (<["c1" := demo_volume "c1" "data"]> {["c2" := demo_volume "c2" "tmp"]}) ∅ ∅ [].
Definition demo_mounting : SandboxEntry :=
  let e := demo_entry "a1" Running in
  let o := options (meta e) in
  set_meta (set_options (mkOpts (image o)
    [mkMount "/vol/data" "/data" false (Some "data") false; mkMount "/vol/tmp" "/tmp" false (Some "tmp") true]
    (volume_ids o) (egress o) (resources o) (Protocol.env o) (from_snapshot o) (comms o) (spec o)) (meta e)) e.
Definition demo_server (en : list PortListener) : Server (list PortListener * VolumeManager) (ref_mpsc DeliveredMessage) :=
  mkServer (mkProcs (upd_entries (λ _, {["a1" := demo_mounting]}) (demo_world (en, demo_shared_volumes) Running)) ∅ ∅ [] 0) ∅ (mkBrokerMetrics 0 0 0) 0
    (mkHost "host" "6.1" "linux" 4 0) "/var/lib/ward" "d1".

(** The named volume stays, the anonymous one goes. *)
Example removal_takes_the_anonymous_volume :
  let s' := (perform demo_config map_to_list demo_digest (Some (Some "key")) "web" (RemoveSandbox true) (demo_server [])).2 in
  v_name <$> volumes (volume_manager s') = {["c1" := "data"]}.
Proof. vm_compute. reflexivity. Qed.
(** A creation with [volumes_from] mounts the volumes of the sandbox it names
    without that sandbox's token: here no token is sent at all. *)
Example volumes_from_asks_no_token :
  let '(r, s') := rpc_create_sandbox demo_config map_to_list demo_digest None demo_create_request "b2" "secret" (demo_server []) in
  r_volumes_from demo_create_request = ["web:ro"] ∧ is_ok r = true ∧
  (λ e, volume <$> mounts (options (meta e))) <$> entries (world s') !! "b2" = Some [None; Some "tmp"].
Proof. vm_compute. auto. Qed.
Lemma public_replies_witness :
  (rpc_list_sandboxes (demo_server [])).1 = (rpc_list_sandboxes (demo_server [mkListener 80 (V4 0 0 0 0) 80])).1.
Proof.
  apply (public_replies map_to_list demo_digest (demo_server []) (demo_server [mkListener 80 (V4 0 0 0 0) 80])).
  split; [reflexivity|]. split; reflexivity.
Defined.
(** The euro sign, cut between two chunks, with a byte of the other stream in
    between. *)
Definition demo_output : list StreamEvent :=
  [mkStreamEvent (KData Stdout [Byte.xe2; Byte.x82]) "" None None 0; mkStreamEvent (KData Stderr [Byte.x21]) "" None None 0;
   mkStreamEvent (KData Stdout [Byte.xac]) "" None None 0].
Lemma stream_text_exact_witness :
  sent_text Stdout (bridge_run bridge_default (demo_output ++ [mkStreamEvent KExit "" (Some 0) None 0])) =
  from_utf8_lossy (raw_bytes Stdout demo_output).
Proof.
  apply (stream_text_exact Stdout demo_output (mkStreamEvent KExit "" (Some 0) None 0)); [|reflexivity].
  repeat constructor.
Defined.
Example euro_sent :
  (λ e, (pe_type e, chars (pe_line e))) <$> bridge_run bridge_default (demo_output ++ [mkStreamEvent KExit "" (Some 0) None 0]) =
  [(PbStderr, ["!"%char]); (PbStdout, ascii_of_byte <$> [Byte.xe2; Byte.x82; Byte.xac]); (PbExit, [])].
Proof. vm_compute. reflexivity. Qed.
